(* ===== verification/_CoqProject ===== *)
-Q . S2P
Prelude.v
Str.v
Patterns.v
JsonPath.v
Errors.v
WsFrame.v
WsRelay.v
HostPattern.v
SslProxying.v
UpstreamProxy.v
RefusalBody.v
UpstreamPool.v
RuleTypes.v
JsonSpan.v
Throttle.v
RuleManagers.v
RuleSelection.v
HttpIo.v
Rewrite.v
MapRules.v
Pipeline.v
Breakpoints.v
BreakpointEdits.v
Forward.v
WsUpgrade.v
Utf8.v
TextSearch.v
Redaction.v
RedactedSearch.v
BodyPaths.v
BodyStream.v
BodyStreamFacts.v
BodyLookup.v
BodyLimits.v
BodyForms.v
Curl.v
CurlCommand.v
AutomationPlan.v
AutomationDb.v
Automation.v
AutomationFacts.v
AutomationRollback.v
AutomationRuntime.v
AutomationDemo.v
AgentGrants.v
BodyTools.v
BodyToolsFacts.v
BodyStore.v
BodyStoreRace.v
AgentConfig.v
AgentConfigFacts.v
ConfigFile.v
Compare.v
CompareFacts.v
TextCuts.v
