(* ===== verification/Prelude.v ===== *)
(** * AIProxy: a verification development for the proxy core and its agents

    AIProxy is an intercepting HTTP/HTTPS/WebSocket proxy with a desktop shell.
    A connection is accepted and, for CONNECT, decrypted or passed through by the
    SSL proxying policy; each request then goes through breakpoints, scripts and
    the rule stages (rewrite, map, throttle) and on to the upstream server; the
    response comes back through the rewrite, throttle and breakpoint stages.
    WebSocket connections are relayed frame by frame.  An Agent may drive the
    desktop application: it reads captured traffic through an MCP server that
    redacts it, and changes rules by plans, under grants the user approves.

    The development models the decision and transformation logic of the crate
    [proxy-core] (src/crates/proxy-core/src); of the Agent interface the approval
    store (src/crates/agent-control/src/grant.rs and
    src/apps/desktop/src-tauri/src/agent_grants.rs), the access configuration with the
    commands that change it (src/crates/mcp-server/src/config.rs and
    src/apps/desktop/src-tauri/src/commands/agent_access.rs), the redaction, body tools,
    search, comparison and cURL export of the MCP server (src/crates/mcp-server/src), the files that
    captured bodies are kept in (src/crates/db/src/body_store.rs) and the lifecycle of
    automation changes (src/apps/desktop/src-tauri/src/automation.rs over
    src/crates/db/src/automation.rs).  Definitions keep the names
    of the source; where one file of the source defines the same method for
    several types the type comes first ([rewrite_save_rule], [map_save_rule]).

    ** Files

    - Prelude: byte strings, [result], machine integers, tactics, generic lemmas.
    - Str: the parts of [str], [char] and integer parsing the sources use.
    - Patterns (rules/patterns.rs): exact, contains, wildcard and regex patterns.
      The windowed matcher with its retry loop accepts the language of an
      inductive glob relation.
    - JsonPath (rules/json_path.rs): field paths and edits of JSON documents with
      the ordered maps of serde_json.  Printing and parsing of paths, the
      get/set laws, frame laws, what a failed edit preserves.
    - Errors (error.rs, timeouts.rs): error values and the timeout table.
    - WsFrame (ws.rs, framing): parsing, reading over a chunked socket with
      cancellation and deadlines, writing and masking of frames.  Round trip
      through any chunking of the frames within the limits of the protocol, the
      refusal of all others, bounds, cancellation safety, error classes.
    - WsRelay (ws.rs, relay): the [select!] loop as a step function on the ready
      arm, reassembly for the capture, the registry of injectable connections.
      Fidelity of both directions for every interleaving, what each peer sees,
      close grace, the answer to protocol violations, reassembly.
    - HostPattern (host_pattern.rs): host, subdomain and CIDR patterns, IP address
      parsing.
    - SslProxying (ssl_proxying.rs): the interception policy and its two
      persisted shapes.
    - UpstreamProxy (upstream_proxy.rs): settings of a chained proxy, the HTTP
      CONNECT and SOCKS5 handshakes in a monad over the bytes of the socket,
      dialing and the probe.  The handshakes are characterised as dialogues:
      what is sent, which answers are accepted, what is left unread.
    - RefusalBody (ws_upgrade.rs, body readers): the body of a refused upgrade by
      length, by chunks and until the end of the stream.
    - UpstreamPool (upstream_pool.rs): slots, connections and connecting tasks
      over a heap, with a step at every lock region and await; the invariant of
      every reachable state.
    - RuleTypes (rules/types.rs): rule records.
    - JsonSpan (rules/rewrite.rs, span parser): byte-precise JSON patching.  The
      specification is a concrete syntax tree; patching refines editing the value.
    - Throttle (rules/throttle.rs): delay arithmetic and the body wrapper as a
      state machine over poll times: conservation and the rate bound.
    - RuleManagers (rules/managers.rs): the managers over a heap of runtimes (an
      [Arc] is a handle), so that aliasing of paired managers is explicit.
    - RuleSelection (rules/mod.rs): which rules apply to a request.
    - HttpIo (http_io.rs, http_io/body_decode.rs, types.rs): the parsed request,
      hop-by-hop stripping, the derived request state, body decoding.
    - Rewrite (rules/rewrite.rs): all request and response actions, the action and
      rule loops with traces, body field rewriting.
    - MapRules (rules/map.rs): Map Local with path confinement, Map Remote with
      rollback.
    - Pipeline (rules/mod.rs): the composition of the rule stages of a request.  No
      request is failed; a coherent one stays coherent, and what a rebuild returned
      is coherent whatever came in.
    - Breakpoints (breakpoints.rs): the manager, its pending interceptions and
      one-shot channels in a store, rule matching.
    - BreakpointEdits (breakpoints.rs): the interception stages, the edits of a
      resolution on request and response, mock responses, the Host header
      write-back.  Every wait ends, and only with a resolution of its session.
    - Forward (connection.rs, http_proxy.rs, upstream.rs): reading a request from
      its [hyper] parts, the HTTP/1.1 and HTTP/2 request heads, the response
      headers for the client.  A request with visible ASCII values read from a
      client is [coherent], the invariant the rule stages keep (other bytes are lost
      in the entries: [obs_text_replaced_by_rebuild]); what goes upstream and back
      is clean.
    - WsUpgrade (ws_upgrade.rs, connect.rs): the upgrade handler: the request
      written upstream, the validation of the answer, the response for the
      client, the refusal, and the start of the relay.
    - Utf8: encoded characters, boundaries of a text, lossy decoding.
    - TextCuts (rewrite.rs, types.rs, mcp-server tools, desktop commands/ai.rs): the
      functions that slice a text at a number of bytes keep it text.
    - TextSearch (mcp-server tools/text_search.rs, tools/body.rs): the search in a
      whole text and the streaming sink with its window.  The sink reports exactly
      the hits of the whole text for every way the text is cut into pieces.
    - Redaction (mcp-server redaction.rs, config.rs): names, text rules, JSON
      documents, headers and URLs.  What is masked does not reach the output.
    - RedactedSearch (mcp-server tools/text_search.rs): the search that redacts
      while it streams; it is the search in the redacted document, except for
      floats under identifier keys, which the two redactions name differently.
    - BodyPaths (mcp-server tools/body.rs, tools/body_stream.rs): the JSON paths of
      an agent: parsing, rendering and their round trip.
    - BodyStream, BodyStreamFacts (mcp-server tools/body_stream.rs): the extraction
      of a path from a JSON text that is read once and not kept, as the visitors of
      serde over a source of events, with the budget of what is captured.
    - BodyLookup: the streamed extraction is the lookup in the parsed document.
    - BodyLimits: an extraction stays within its limits, and a location of the
      document it left out is marked on its path and on the answer.
    - BodyForms (mcp-server tools/body.rs): urlencoded and multipart bodies.  The
      parts an encoder wrote are the parts that are read back.
    - BodyTools, BodyToolsFacts (mcp-server tools/body.rs): reading a page of a
      body, extracting from it and searching it, permissions, grants and redaction
      included.  No body without a permission or a grant; a redacted answer is a
      function of the redacted body, unless the body is declared as a form and its
      parameters are requested ([form_names_unredacted]); the pages of a body are
      the body.
    - BodyStore (db body_store.rs): the checks and readers over a tree of files.
    - BodyStoreRace (db body_store.rs): the operations as programs of system calls
      that interleave, fail, write short and crash.  No reader ever sees a part of
      a body.
    - AgentConfig (mcp-server config.rs, context.rs, desktop commands/agent_access.rs):
      the derived (de)serializers of the access configuration, its normalisation, reading
      and writing, the configuration a tool gets, updating and revoking.
    - AgentConfigFacts: what is written is read back; the server acts only on what the
      file states; what is revoked is gone.
    - ConfigFile (mcp-server config.rs): the replacement of the file as a program of the
      system calls of BodyStoreRace; the old configuration or the new one is there.
    - Compare, CompareFacts (mcp-server tools/compare.rs): the comparison of two
      sessions.  The changes of two documents are the places where they differ;
      masked values do not show.
    - Curl, CurlCommand (mcp-server tools/curl.rs): quoting, placeholders and the
      assembly of the command; a model of a POSIX shell reads the command back.
    - AutomationPlan (agent-control automation.rs, automation.rs): the checks of a
      plan, the rules built from it, the confinement of their files and hosts.
    - AutomationDb (db automation.rs and rules.rs, bootstrap/converters.rs): rows,
      tables and statements, the round trip of a rule through its row.
    - Automation (automation.rs): preparing, committing, publishing, rolling back,
      promoting, clearing, expiring and recovering changes, in a state and error
      monad over the database, the runtime, the clock, fresh ids and the faults of
      every database access.
    - AutomationFacts: runs of the monad, what each step can touch ([frame]), what
      a prepared plan holds, what a commit writes.
    - AutomationRollback: an agent without the permission does not reach rules of
      the user; rolling a change back restores what it replaced, when the rules ran
      as they were stored ([settled]).
    - AutomationRuntime: agent rules run under the lock of their host, as long as
      their ownership rows are among the 10000 that are read; a restart
      settles every change and runs exactly the stored rules.
    - AutomationDemo: the interfaces instantiated and a change run end to end.
    - AgentGrants: the approval store and its waiting tasks as a transition
      system; bounds on the use of grants in every reachable state.

    ** Conventions

    A byte and every machine integer is a [Z]; widths are written out where the
    source can overflow or saturates ([u64_max], [sat_sub], wrap-around).  A
    [String] or [&str] is the list of its UTF-8 bytes.  Fallible code returns
    [result]; a function with [&mut] arguments returns their new values next to
    its result, also on errors.  Async code is a function of the answers of its
    environment (chunks read, write outcomes, clock readings, the arm that is
    ready), so that "for every interleaving" is "for every list of events".
    Values the code draws from outside (UUIDs, mask keys, random draws, time) are
    arguments.

    ** Interfaces

    Third-party code is a type class: [RegexEngine] (regex), [HeaderOps]
    (http::HeaderMap), [UrlOps] (url::Url), [Base64] (base64), [Decoders] (flate2, brotli),
    [JsonOps] and [Payloads] (serde_json), [FileSystem] (std::fs seen by one
    request), [Matcher] and [RedactionEnv] (regex, HMAC and serde_json of the MCP
    server), [BodyAccess] (its file store), [JsonSource] (the events of a serde
    deserializer), [AgentHost] (the desktop side of grants and audit), [BodyFs] (std::fs
    under the body directory), [ConfigEnv] and [ConfigLaws] (serde_json, url and
    to_lowercase for the access configuration), [CurlUrls] (url::Url), [AutomationCodec],
    [RowCodec] and [ChangeCodec] (serde_json, SHA-256, base64 and chrono of the
    automation), [SqlOrder] (ORDER BY).  Their laws are documented behaviour: a header map returns the
    values appended under a name; what serde_json wrote it reads back; ORDER BY
    returns the selected rows in order; a serialised JSON value is a JSON text of it
    without repeated keys; a canonical path is a fixed point of canonicalisation.
    Each is instantiated by a concrete, executable structure in the witnesses.
    Between components: [BodyFiles] is what the body tools need of the body store,
    discharged by [store_files]; [Op] is the signature of the system calls of
    BodyStoreRace, whose step relation gives them their meaning.

    ** Fuel

    Recursion that is not structural carries fuel computed from the input:
    [scan_path] and [retry] the length of the text ([scan_fuel], [retry_fuel]
    show more fuel changes nothing), the JSON span parser [2 * length + 2]
    ([parse_fuel_eq], [parse_root_fuel] show any larger amount gives the same
    result), decimal printing and mask writing the size of their argument.  The
    read loop of WsFrame is structural on the chunks of the socket; the readers
    of RefusalBody and the head loop of WsUpgrade get one unit per read
    ([reads_bound], [read_full_total]) and stop at their size limits.  The loops
    of TextSearch and Curl get one unit per byte of the text or per placeholder.
    The multipart scanner gets one unit per byte of the body ([multipart_fuel]), a
    write or read loop of BodyStoreRace one unit per byte of the file, since a call
    that moves no byte ends it.  The automation needs no fuel: its loops run over
    lists.

    ** What is not modelled

    Sockets, hyper and TLS plumbing (server.rs, the tunnel of connect.rs, the
    async stages of http_proxy.rs and upstream.rs, stream.rs, tls-manager), the
    JavaScript engine behind script rules, the tables of sessions and insights, the
    transport and the other tools of the MCP server (sessions, diagnostics, insights,
    control), the other desktop commands and the front end.  Within modelled files: reading requests with
    httparse and building captured sessions (http_io.rs), the events of
    breakpoints for the user interface, the Windows path checks of map.rs, the
    packet-loss draw, the hyper handshakes behind the pool, the tower service of
    the timing connector, the verification runs of an automation change and its
    views and events for the user interface, the Windows branches of config.rs.

    ** Planned extensions, in order

    The assertions of automation verification; the session and diagnostic tools of
    the MCP server; offline preview of rules; spooled and streamed bodies. *)

From Stdlib Require Export ZArith Lia.
From Stdlib Require Strings.Byte.
From stdpp Require Export base tactics gmap strings numbers.
From stdpp Require Export list.

#[global] Open Scope Z_scope.

(** ** Byte strings

    A Rust [u8] is a [Z] in [0, 256); [Vec<u8>], [&[u8]] and the UTF-8 text of
    [String] / [&str] are lists of bytes.  String literals are written
    ["abc"%str] (a literal wrapper coerced to its list of bytes). *)

Inductive strlit := StrLit (l : list Byte.byte).

Definition strlit_parse (l : list Byte.byte) : strlit := StrLit l.

Definition strlit_print (s : strlit) : list Byte.byte :=
  match s with StrLit l => l end.

Declare Scope str_scope.
Delimit Scope str_scope with str.
Bind Scope str_scope with strlit.
String Notation strlit strlit_parse strlit_print : str_scope.

Definition lit (s : strlit) : list Z :=
  match s with StrLit l => map (fun b => Z.of_N (Byte.to_N b)) l end.

Coercion lit : strlit >-> list.

Abbreviation byte := Z (only parsing).
Abbreviation bytes := (list Z) (only parsing).
Abbreviation str := (list Z) (only parsing).

Definition is_byte (b : Z) : Prop := 0 <= b < 256.

#[export] Instance is_byte_dec (b : Z) : Decision (is_byte b).
Proof. unfold is_byte. apply _. Defined.

(** The byte of an ASCII literal: [chr "x"] is Rust's [b'x'] / ['x']. *)
Definition chr (s : strlit) : Z := hd 0 (lit s).

(** ** Results and fallible code *)

Inductive result (A E : Type) : Type :=
  | Ok (a : A)
  | Err (e : E).
Arguments Ok {A E} a.
Arguments Err {A E} e.

Definition is_ok {A E} (r : result A E) : bool :=
  match r with Ok _ => true | Err _ => false end.

Definition ok {A E} (r : result A E) : option A :=
  match r with Ok a => Some a | Err _ => None end.

Definition rbind {A B E} (r : result A E) (k : A → result B E) : result B E :=
  match r with Ok a => k a | Err e => Err e end.

Definition map_err {A E F} (f : E → F) (r : result A E) : result A F :=
  match r with Ok a => Ok a | Err e => Err (f e) end.

Definition ok_or {A E} (o : option A) (e : E) : result A E :=
  match o with Some a => Ok a | None => Err e end.

Declare Scope result_scope.
Delimit Scope result_scope with result.
(** Rust's [?] operator. *)
Notation "'let?' x ':=' r 'in' k" := (rbind r (fun x => k))
  (at level 10, x pattern, r at level 100, k at level 200) : result_scope.
#[global] Open Scope result_scope.

(** ** Machine integers *)

Definition u8_max : Z := 2 ^ 8 - 1.
Definition u16_max : Z := 2 ^ 16 - 1.
Definition u32_max : Z := 2 ^ 32 - 1.
Definition u64_max : Z := 2 ^ 64 - 1.
Definition u128_max : Z := 2 ^ 128 - 1.
(** [usize] on the 64-bit targets the application ships for. *)
Definition usize_max : Z := u64_max.

Definition sat_add (max a b : Z) : Z := Z.min max (a + b).
Definition sat_sub (a b : Z) : Z := Z.max 0 (a - b).
Definition sat_add64 : Z → Z → Z := sat_add u64_max.

(** [len l]: Rust's [.len()]. *)
Definition len {A} (l : list A) : Z := Z.of_nat (length l).

(** Rust's [{n}] formatting of an unsigned integer. *)
Fixpoint show_go (fuel : nat) (n : Z) (acc : str) : str :=
  match fuel with
  | O => acc
  | S fuel =>
      let acc := (48 + n mod 10) :: acc in
      if n <? 10 then acc else show_go fuel (n / 10) acc
  end.

Definition show (n : Z) : str := show_go (S (Z.to_nat (Z.log2 n))) n [].

(** [vec.iter().find(p)] *)
Fixpoint find_first {A} (p : A → bool) (l : list A) : option A :=
  match l with
  | [] => None
  | x :: l => if p x then Some x else find_first p l
  end.

(** [vec.iter().find_map(f)] *)
Fixpoint find_map {A B} (f : A → option B) (l : list A) : option B :=
  match l with
  | [] => None
  | x :: l => match f x with Some y => Some y | None => find_map f l end
  end.

(** [if let Some(e) = v.iter_mut().find(p) { *e = x } else { v.push(x) }] *)
Fixpoint upsert {A} (p : A → bool) (x : A) (l : list A) : list A :=
  match l with
  | [] => [x]
  | y :: l => if p y then x :: l else y :: upsert p x l
  end.

(** ** Automation *)

Create HintDb aiproxy discriminated.

(** Case analysis on the boolean or option test that blocks the goal. *)
Ltac dcase :=
  match goal with
  | |- context [if ?b then _ else _] => destruct b eqn:?
  | |- context [match ?x with Some _ => _ | None => _ end] => destruct x eqn:?
  end.

Ltac dcase_in H :=
  match type of H with
  | context [if ?b then _ else _] => destruct b eqn:?
  | context [match ?x with Some _ => _ | None => _ end] => destruct x eqn:?
  end.

(** Turn boolean tests in the hypotheses into the propositions they decide. *)
Ltac breflect :=
  repeat match goal with
  | H : (_ && _)%bool = true |- _ => apply andb_true_iff in H; destruct H
  | H : (_ || _)%bool = false |- _ => apply orb_false_iff in H; destruct H
  | H : negb _ = true |- _ => apply negb_true_iff in H
  | H : negb _ = false |- _ => apply negb_false_iff in H
  | H : bool_decide _ = true |- _ => apply bool_decide_eq_true_1 in H
  | H : bool_decide _ = false |- _ => apply bool_decide_eq_false_1 in H
  | H : (_ =? _) = true |- _ => apply Z.eqb_eq in H
  | H : (_ =? _) = false |- _ => apply Z.eqb_neq in H
  | H : (_ <? _) = true |- _ => apply Z.ltb_lt in H
  | H : (_ <? _) = false |- _ => apply Z.ltb_ge in H
  | H : (_ <=? _) = true |- _ => apply Z.leb_le in H
  | H : (_ <=? _) = false |- _ => apply Z.leb_gt in H
  end.

(** ** Generic lemmas *)

Lemma len_nonneg {A} (l : list A) : 0 <= len l.
Proof. unfold len. lia. Qed.

Lemma len_app {A} (l k : list A) : len (l ++ k) = len l + len k.
Proof. unfold len. rewrite length_app. lia. Qed.

Lemma len_nil {A} : len (@nil A) = 0.
Proof. reflexivity. Qed.

Lemma len_cons {A} (x : A) l : len (x :: l) = 1 + len l.
Proof. unfold len. simpl. lia. Qed.

Lemma len_take {A} (n : nat) (l : list A) : len (take n l) = Z.min (Z.of_nat n) (len l).
Proof. unfold len. rewrite length_take. lia. Qed.

Lemma len_drop {A} (n : nat) (l : list A) : len (drop n l) = Z.max 0 (len l - Z.of_nat n).
Proof. unfold len. rewrite length_drop. lia. Qed.

Lemma to_nat_len {A} (l : list A) : Z.to_nat (len l) = length l.
Proof. unfold len. lia. Qed.

Lemma len_map {A B} (f : A → B) l : len (map f l) = len l.
Proof. unfold len. rewrite length_map. done. Qed.

Create Rewrite HintDb len.
#[export] Hint Rewrite @len_app @len_nil @len_cons @len_take @len_drop @len_map : len.

Lemma len_zero_nil {A} (l : list A) : len l = 0 → l = [].
Proof. unfold len. destruct l; simpl; [done | lia]. Qed.

#[export] Hint Resolve len_nonneg : aiproxy.

Lemma find_first_Some {A} (p : A → bool) l x :
  find_first p l = Some x ↔
  ∃ l1 l2, l = l1 ++ x :: l2 ∧ p x = true ∧ Forall (fun y => p y = false) l1.
Proof.
  induction l as [|y l IH]; simpl.
  - split; [done|]. intros (l1 & l2 & H & _). by destruct l1.
  - destruct (p y) eqn:Hy.
    + split.
      * intros [= <-]. exists [], l. done.
      * intros (l1 & l2 & H & Hx & Hall). destruct l1 as [|z l1]; simplify_eq/=; [done|].
        inversion Hall; congruence.
    + rewrite IH. split.
      * intros (l1 & l2 & -> & Hx & Hall). exists (y :: l1), l2. auto.
      * intros (l1 & l2 & H & Hx & Hall). destruct l1 as [|z l1]; simplify_eq/=; [congruence|].
        apply List.Forall_inv_tail in Hall. by exists l1, l2.
Qed.

Lemma find_first_None {A} (p : A → bool) l :
  find_first p l = None ↔ Forall (fun y => p y = false) l.
Proof.
  induction l as [|y l IH]; simpl; [split; [constructor | done]|].
  rewrite List.Forall_cons_iff, <- IH. destruct (p y) eqn:Hy; split; [done | by intros [? _] | done | by intros [_ ?]].
Qed.

Lemma find_map_Some {A B} (f : A → option B) l b :
  find_map f l = Some b ↔
  ∃ l1 x l2, l = l1 ++ x :: l2 ∧ f x = Some b ∧ Forall (fun y => f y = None) l1.
Proof.
  induction l as [|y l IH]; simpl.
  - split; [done|]. intros (l1 & x & l2 & He & _). by destruct l1.
  - destruct (f y) eqn:Hy.
    + split.
      * intros [= ->]. exists [], y, l. done.
      * intros (l1 & x & l2 & He & Hx & Hall). destruct l1 as [|z l1].
        { injection He as -> ->. congruence. }
        injection He as -> ->. apply List.Forall_inv in Hall. congruence.
    + rewrite IH. split.
      * intros (l1 & x & l2 & -> & Hx & Hall). exists (y :: l1), x, l2. auto.
      * intros (l1 & x & l2 & He & Hx & Hall). destruct l1 as [|z l1].
        { injection He as -> ->. congruence. }
        injection He as -> ->. apply List.Forall_inv_tail in Hall. by exists l1, x, l2.
Qed.

Lemma find_map_None {A B} (f : A → option B) l :
  find_map f l = None ↔ Forall (fun y => f y = None) l.
Proof.
  induction l as [|y l IH]; simpl; [split; [constructor | done]|].
  rewrite List.Forall_cons_iff, <- IH. destruct (f y); naive_solver.
Qed.

Lemma app_longer_suffix {A} (a b c d : list A) :
  a ++ b = c ++ d → (length a <= length c)%nat → ∃ x, b = x ++ d.
Proof.
  intros Heq Hle. exists (drop (length a) c).
  by rewrite <- drop_app_le, <- Heq, drop_app_length.
Qed.

(** Facts about all bytes are checked by enumeration. *)
Lemma byte_forall (P : Z → bool) :
  forallb P (map Z.of_nat (seq 0 256)) = true → ∀ b, is_byte b → P b = true.
Proof.
  intros H b Hb. unfold is_byte in Hb. rewrite forallb_forall in H. apply H.
  apply in_map_iff. exists (Z.to_nat b). split; [lia|]. apply in_seq. lia.
Qed.

(** ** Keyed lists: [upsert] and removal by key *)

Section Keyed.
  Context {A K : Type} `{EqDecision K} (key : A → K).

Definition has_key (k : K) (x : A) : bool := bool_decide (key x = k).

Lemma find_first_upsert_same x l : find_first (has_key (key x)) (upsert (has_key (key x)) x l) = Some x.
Proof.
  unfold has_key. induction l as [|y l IH]; cbn.
  - by rewrite bool_decide_true.
  - destruct (bool_decide (key y = key x)) eqn:Hy; cbn; [by rewrite bool_decide_true|].
    by rewrite Hy.
Qed.

Lemma find_first_upsert_other k x l :
  k ≠ key x → find_first (has_key k) (upsert (has_key (key x)) x l) = find_first (has_key k) l.
Proof.
  unfold has_key. intros Hk. induction l as [|y l IH]; cbn.
  - by rewrite bool_decide_false.
  - destruct (bool_decide (key y = key x)) eqn:Hy; cbn.
    + breflect. rewrite !bool_decide_false by congruence. done.
    + by rewrite IH.
Qed.

Lemma keys_upsert x l :
  map key (upsert (has_key (key x)) x l) =
  if bool_decide (key x ∈ map key l) then map key l else map key l ++ [key x].
Proof.
  unfold has_key. induction l as [|y l IH]; cbn; [done|].
  destruct (decide (key y = key x)) as [He|He].
  - rewrite !bool_decide_true by (rewrite ?He; set_solver). cbn. by rewrite He.
  - rewrite (bool_decide_false (key y = key x)) by done. cbn. rewrite IH.
    destruct (decide (key x ∈ map key l)).
    + by rewrite !bool_decide_true by set_solver.
    + by rewrite !bool_decide_false by set_solver.
Qed.

Lemma upsert_nodup x l : NoDup (map key l) → NoDup (map key (upsert (has_key (key x)) x l)).
Proof.
  intros Hl. rewrite keys_upsert. destruct (decide (key x ∈ map key l)) as [Hi|Hi].
  - by rewrite bool_decide_true.
  - rewrite bool_decide_false by done. apply NoDup_app. split_and!; [done | set_solver |].
    apply NoDup_singleton.
Qed.

Lemma find_first_remove_same k l :
  find_first (has_key k) (List.filter (fun x => negb (has_key k x)) l) = None.
Proof.
  apply find_first_None, Forall_forall. intros x Hx.
  apply list_elem_of_In, filter_In in Hx as [_ Hx]. by apply negb_true_iff in Hx.
Qed.

Lemma find_first_remove_other k k' l :
  k ≠ k' → find_first (has_key k) (List.filter (fun x => negb (has_key k' x)) l)
           = find_first (has_key k) l.
Proof.
  unfold has_key. intros Hk. induction l as [|y l IH]; cbn; [done|].
  destruct (decide (key y = k')) as [He|He].
  - rewrite (bool_decide_true (key y = k')) by done. cbn.
    by rewrite (bool_decide_false (key y = k)) by congruence.
  - rewrite (bool_decide_false (key y = k')) by done. cbn. by rewrite IH.
Qed.

Lemma remove_nodup k l :
  NoDup (map key l) → NoDup (map key (List.filter (fun x => negb (has_key k x)) l)).
Proof.
  induction l as [|y l IH]; cbn; [done|]. rewrite NoDup_cons. intros [Hy Hl].
  destruct (negb (has_key k y)); cbn; [|by apply IH]. apply NoDup_cons. split; [|by apply IH].
  contradict Hy. apply list_elem_of_In, in_map_iff in Hy as (z & <- & Hz).
  apply list_elem_of_In, in_map. by apply filter_In in Hz as [? _].
Qed.

End Keyed.
