(* ===== verification/Str.v ===== *)
(** * Str: the parts of Rust's [str] and integer parsing the proxy uses

    Strings are UTF-8 byte lists.  Every operation below acts on bytes exactly
    as the Rust method acts on a valid [str]: the searched literals are ASCII,
    or both operands are valid UTF-8, and UTF-8 is self-synchronising. *)

From S2P Require Import Prelude.

(** ** Definitions *)

(** [s.starts_with(p)] *)
Fixpoint starts_with (s p : str) {struct p} : bool :=
  match p, s with
  | [], _ => true
  | _ :: _, [] => false
  | b :: p, c :: s => (b =? c) && starts_with s p
  end.

(** [s.ends_with(p)] *)
Definition ends_with (s p : str) : bool := starts_with (rev s) (rev p).

(** [s.strip_prefix(p)] *)
Definition strip_prefix (s p : str) : option str :=
  if starts_with s p then Some (drop (length p) s) else None.

(** [s.find(p)]: byte offset of the first occurrence. *)
Fixpoint find (s p : str) : option nat :=
  if starts_with s p then Some 0%nat
  else match s with
       | [] => None
       | _ :: s => S <$> find s p
       end.

(** [s.contains(p)] *)
Definition contains (s p : str) : bool :=
  match find s p with Some _ => true | None => false end.

(** [s.split(c)] for an ASCII separator, collected. *)
Fixpoint split (c : byte) (s : str) : list str :=
  match s with
  | [] => [[]]
  | b :: s =>
      if b =? c then [] :: split c s
      else match split c s with
           | w :: ws => (b :: w) :: ws
           | [] => [[b]]
           end
  end.

(** [s.split_once(c)] *)
Fixpoint split_once (c : byte) (s : str) : option (str * str) :=
  match s with
  | [] => None
  | b :: s =>
      if b =? c then Some ([], s)
      else match split_once c s with
           | Some (l, r) => Some (b :: l, r)
           | None => None
           end
  end.

(** [s.rsplit_once(c)] *)
Definition rsplit_once (c : byte) (s : str) : option (str * str) :=
  match split_once c (rev s) with
  | Some (r, l) => Some (rev l, rev r)
  | None => None
  end.

(** [s.trim_start_matches(c)], [s.trim_end_matches(c)] *)
Fixpoint trim_start_matches (c : byte) (s : str) : str :=
  match s with
  | [] => []
  | b :: r => if b =? c then trim_start_matches c r else s
  end.

Definition trim_end_matches (c : byte) (s : str) : str :=
  rev (trim_start_matches c (rev s)).

(** The UTF-8 encodings of the Unicode [White_Space] characters, the ones
    [str::trim] removes: one, two and three byte forms. *)
Definition ws1 (a : byte) : bool := ((9 <=? a) && (a <=? 13)) || (a =? 32).
Definition ws2 (a b : byte) : bool := (a =? 194) && ((b =? 133) || (b =? 160)).
Definition ws3 (a b c : byte) : bool :=
  ((a =? 225) && (b =? 154) && (c =? 128))
  || ((a =? 226) && (b =? 128)
        && (((128 <=? c) && (c <=? 138)) || (c =? 168) || (c =? 169) || (c =? 175)))
  || ((a =? 226) && (b =? 129) && (c =? 159))
  || ((a =? 227) && (b =? 128) && (c =? 128)).

Fixpoint trim_start (s : str) : str :=
  match s with
  | [] => []
  | a :: s1 =>
      if ws1 a then trim_start s1
      else match s1 with
           | [] => s
           | b :: s2 =>
               if ws2 a b then trim_start s2
               else match s2 with
                    | [] => s
                    | c :: s3 => if ws3 a b c then trim_start s3 else s
                    end
           end
  end.

(** [trim_end] on the reversed string. *)
Fixpoint trim_end_rev (s : str) : str :=
  match s with
  | [] => []
  | c :: s1 =>
      if ws1 c then trim_end_rev s1
      else match s1 with
           | [] => s
           | b :: s2 =>
               if ws2 b c then trim_end_rev s2
               else match s2 with
                    | [] => s
                    | a :: s3 => if ws3 a b c then trim_end_rev s3 else s
                    end
           end
  end.

(** [s.trim()] *)
Definition trim (s : str) : str := rev (trim_end_rev (rev (trim_start s))).

(** [s.split_whitespace()]; [word] is the word read so far, reversed. *)
Fixpoint split_words (word s : str) : list str :=
  let emit rest := match word with [] => rest | _ => rev word :: rest end in
  match s with
  | [] => emit []
  | a :: s1 =>
      if ws1 a then emit (split_words [] s1)
      else match s1 with
           | b :: s2 =>
               if ws2 a b then emit (split_words [] s2)
               else match s2 with
                    | c :: s3 =>
                        if ws3 a b c then emit (split_words [] s3) else split_words (a :: word) s1
                    | [] => split_words (a :: word) s1
                    end
           | [] => split_words (a :: word) s1
           end
  end.

Definition split_whitespace (s : str) : list str := split_words [] s.

(** [str::lines] *)
Definition strip_cr (l : str) : str :=
  match rev l with 13 :: r => rev r | _ => l end.

Fixpoint lines_of (pieces : list str) : list str :=
  match pieces with
  | [] => []
  | [p] => if bool_decide (p = []) then [] else [p]
  | p :: ps => strip_cr p :: lines_of ps
  end.

Definition lines (s : str) : list str := lines_of (split 10 s).

(** [s.to_ascii_lowercase()] *)
Definition lower (b : byte) : byte := if (65 <=? b) && (b <=? 90) then b + 32 else b.
Definition to_ascii_lowercase (s : str) : str := map lower s.

(** [s.eq_ignore_ascii_case(t)] *)
Definition eq_ignore_ascii_case (s t : str) : bool :=
  bool_decide (to_ascii_lowercase s = to_ascii_lowercase t).

Definition is_digit (b : byte) : bool := (48 <=? b) && (b <=? 57).

(** [s.parse::<uN>()]: an optional leading [+], at least one digit, only
    digits, and a value within the type ([max] is [uN::MAX]). *)
Fixpoint parse_digits (max acc : Z) (s : str) : option Z :=
  match s with
  | [] => Some acc
  | b :: s =>
      if is_digit b then
        let v := acc * 10 + (b - 48) in
        if v <=? max then parse_digits max v s else None
      else None
  end.

Definition parse_uint (max : Z) (s : str) : option Z :=
  match s with
  | [] => None
  | [b] => if is_digit b then Some (b - 48) else None
  | b :: r => if b =? 43 then parse_digits max 0 r else parse_digits max 0 s
  end.

(** [c.len_utf8()] for the character starting with byte [b]. *)
Definition utf8_len (b : byte) : nat :=
  if b <? 128 then 1%nat else if b <? 224 then 2%nat else if b <? 240 then 3%nat else 4%nat.

(** [std::str::from_utf8(s).is_ok()] (the table of well-formed byte sequences). *)
Definition cont (b : byte) : bool := (128 <=? b) && (b <=? 191).

Fixpoint utf8_valid (s : bytes) : bool :=
  match s with
  | [] => true
  | a :: s1 =>
      if a <=? 127 then (0 <=? a) && utf8_valid s1
      else match s1 with
      | [] => false
      | b :: s2 =>
          if (194 <=? a) && (a <=? 223) then cont b && utf8_valid s2
          else match s2 with
          | [] => false
          | c :: s3 =>
              if a =? 224 then (160 <=? b) && (b <=? 191) && cont c && utf8_valid s3
              else if a =? 237 then (128 <=? b) && (b <=? 159) && cont c && utf8_valid s3
              else if (225 <=? a) && (a <=? 239) then cont b && cont c && utf8_valid s3
              else match s3 with
              | [] => false
              | d :: s4 =>
                  if a =? 240 then
                    (144 <=? b) && (b <=? 191) && cont c && cont d && utf8_valid s4
                  else if (241 <=? a) && (a <=? 243) then
                    cont b && cont c && cont d && utf8_valid s4
                  else if a =? 244 then
                    (128 <=? b) && (b <=? 143) && cont c && cont d && utf8_valid s4
                  else false
              end
          end
      end
  end.

(** [String::from_utf8(v).ok()] *)
Definition from_utf8 (s : bytes) : option str := if utf8_valid s then Some s else None.

(** [&s[a..b]] *)
Definition slice {A} (a b : nat) (s : list A) : list A := take (b - a) (drop a s).

(** ** Lemmas *)

Lemma starts_with_spec s p : starts_with s p = true ↔ ∃ t, s = p ++ t.
Proof.
  revert s. induction p as [|b p IH]; intros s; simpl.
  - split; [by exists s | done].
  - destruct s as [|c s].
    + split; [done | intros [t ?]; done].
    + rewrite andb_true_iff, IH, Z.eqb_eq. split.
      * intros [-> [t ->]]. by exists t.
      * intros [t [= -> ->]]. eauto.
Qed.

Lemma starts_with_app p t : starts_with (p ++ t) p = true.
Proof. apply starts_with_spec. eauto. Qed.

Lemma ends_with_spec s p : ends_with s p = true ↔ ∃ t, s = t ++ p.
Proof.
  unfold ends_with. rewrite starts_with_spec. split.
  - intros [t H]. exists (rev t). rewrite <- (rev_involutive s), H, rev_app_distr, rev_involutive.
    done.
  - intros [t ->]. exists (rev t). by rewrite rev_app_distr.
Qed.

Lemma strip_prefix_Some s p t : strip_prefix s p = Some t ↔ s = p ++ t.
Proof.
  unfold strip_prefix. split.
  - destruct (starts_with s p) eqn:H; [|done]. intros [= <-].
    apply starts_with_spec in H as [t ->]. by rewrite drop_app_length.
  - intros ->. by rewrite starts_with_app, drop_app_length.
Qed.

(** [find] returns the leftmost occurrence. *)
Lemma find_Some s p i :
  find s p = Some i →
  ∃ l r, s = l ++ p ++ r ∧ length l = i ∧
         ∀ l' r', s = l' ++ p ++ r' → (i <= length l')%nat.
Proof.
  revert i. induction s as [|c s IH]; intros i; simpl.
  - destruct (starts_with [] p) eqn:H; [|done]. intros [= <-].
    apply starts_with_spec in H as [t H]. exists [], t. split_and!; [done..|]. intros; simpl; lia.
  - destruct (starts_with (c :: s) p) eqn:H.
    + intros [= <-]. apply starts_with_spec in H as [t H]. exists [], t.
      split_and!; [done..|]. intros; simpl; lia.
    + destruct (find s p) as [j|] eqn:Hf; [|done]. intros [= <-].
      destruct (IH j eq_refl) as (l & r & -> & Hl & Hmin).
      exists (c :: l), r. split_and!; [done | simpl; lia |].
      intros l' r' Heq. destruct l' as [|c' l']; simplify_eq/=.
      * by rewrite (proj2 (starts_with_spec _ _) (ex_intro _ r' Heq)) in H.
      * apply le_n_S. eapply Hmin; done.
Qed.

Lemma find_None s p : find s p = None ↔ ∀ l r, s ≠ l ++ p ++ r.
Proof.
  induction s as [|c s IH]; simpl.
  - destruct (starts_with [] p) eqn:H.
    + split; [done|]. intros Hno. apply starts_with_spec in H as [t H]. by destruct (Hno [] t).
    + split; [|done]. intros _ l r Heq. destruct l; [|done].
      by rewrite (proj2 (starts_with_spec _ _) (ex_intro _ r Heq)) in H.
  - destruct (starts_with (c :: s) p) eqn:H.
    + split; [done|]. intros Hno. apply starts_with_spec in H as [t H]. by destruct (Hno [] t).
    + destruct (find s p) eqn:Hf; simpl.
      * split; [done|]. intros Hno. exfalso.
        apply find_Some in Hf as (l & r & -> & _). by apply (Hno (c :: l) r).
      * split; [|done]. intros _ l r Heq. destruct l as [|c' l]; simplify_eq/=.
        -- by rewrite (proj2 (starts_with_spec _ _) (ex_intro _ r Heq)) in H.
        -- by apply (proj1 IH eq_refl l r).
Qed.

Lemma contains_spec s p : contains s p = true ↔ ∃ l r, s = l ++ p ++ r.
Proof.
  unfold contains. destruct (find s p) eqn:H.
  - apply find_Some in H as (l & r & -> & _). naive_solver.
  - rewrite find_None in H. naive_solver.
Qed.

Lemma split_nonempty c s : split c s ≠ [].
Proof. destruct s; simpl; [done|]. repeat case_match; done. Qed.

(** Joining the pieces with the separator gives the string back. *)
Fixpoint join (c : byte) (ws : list str) : str :=
  match ws with
  | [] => []
  | [w] => w
  | w :: ws => w ++ c :: join c ws
  end.

Lemma join_split c s : join c (split c s) = s.
Proof.
  induction s as [|b s IH]; simpl; [done|].
  destruct (b =? c) eqn:Hb.
  - apply Z.eqb_eq in Hb as ->. destruct (split c s) eqn:Hs; [by apply split_nonempty in Hs|].
    simpl in *. by rewrite IH.
  - destruct (split c s) as [|w ws] eqn:Hs; [by apply split_nonempty in Hs|].
    destruct ws; simpl in *; by rewrite <- IH.
Qed.

Lemma split_no_sep c s : Forall (fun w => c ∉ w) (split c s).
Proof.
  induction s as [|b s IH]; simpl; [repeat constructor; set_solver|].
  destruct (b =? c) eqn:Hb.
  - constructor; [set_solver | done].
  - apply Z.eqb_neq in Hb. destruct (split c s) as [|w ws]; [repeat constructor; set_solver|].
    inversion IH; subst. constructor; [set_solver | done].
Qed.

Lemma split_once_Some c s l r : split_once c s = Some (l, r) ↔ s = l ++ c :: r ∧ c ∉ l.
Proof.
  revert l. induction s as [|b s IH]; intros l; simpl.
  - split; [done|]. intros [H _]. by destruct l.
  - destruct (b =? c) eqn:Hb.
    + apply Z.eqb_eq in Hb as ->. split.
      * intros [= <- <-]. set_solver.
      * intros [H Hn]. destruct l; simplify_eq/=; [done | set_solver].
    + apply Z.eqb_neq in Hb. destruct (split_once c s) as [[l' r']|] eqn:Hs.
      * split.
        -- intros [= <- ->]. destruct (proj1 (IH l') eq_refl) as [-> Hn]. set_solver.
        -- intros [H Hn]. destruct l as [|b' l]; simplify_eq/=.
           assert (Some (l', r') = Some (l, r)) by (apply IH; set_solver). congruence.
      * split; [done|]. intros [H Hn]. destruct l as [|b' l]; simplify_eq/=.
        assert (None = Some (l, r)) by (apply IH; set_solver). done.
Qed.

Lemma split_once_None c s : split_once c s = None ↔ c ∉ s.
Proof.
  induction s as [|b s IH]; simpl; [set_solver|].
  destruct (b =? c) eqn:Hb.
  - apply Z.eqb_eq in Hb. set_solver.
  - apply Z.eqb_neq in Hb. destruct (split_once c s) as [[? ?]|]; set_solver.
Qed.

Lemma lower_idemp b : lower (lower b) = lower b.
Proof. unfold lower. repeat case_match; breflect; lia. Qed.

Lemma to_ascii_lowercase_idemp s :
  to_ascii_lowercase (to_ascii_lowercase s) = to_ascii_lowercase s.
Proof.
  unfold to_ascii_lowercase. rewrite map_map. apply map_ext, lower_idemp.
Qed.

Lemma eq_ignore_ascii_case_spec s t :
  eq_ignore_ascii_case s t = true ↔ to_ascii_lowercase s = to_ascii_lowercase t.
Proof. unfold eq_ignore_ascii_case. by rewrite bool_decide_eq_true. Qed.

Lemma eq_ignore_ascii_case_sym s t : eq_ignore_ascii_case s t = eq_ignore_ascii_case t s.
Proof. unfold eq_ignore_ascii_case. apply bool_decide_ext. split; congruence. Qed.

Lemma parse_digits_bound max acc s v :
  0 <= acc <= max → parse_digits max acc s = Some v → 0 <= v <= max.
Proof.
  revert acc. induction s as [|b s IH]; intros acc Hacc; simpl.
  - by intros [= <-].
  - unfold is_digit. repeat case_match; try done. breflect. apply IH. lia.
Qed.

Lemma parse_uint_bound max s v : 9 <= max → parse_uint max s = Some v → 0 <= v <= max.
Proof.
  intros Hmax. unfold parse_uint. destruct s as [|b [|c s]]; [done| |].
  - unfold is_digit. destruct (_ && _) eqn:H; [|done]. intros [= <-]. breflect. lia.
  - case_match; apply parse_digits_bound; lia.
Qed.

(** A string whose first and last bytes are plain printable ASCII is not
    changed by [trim]. *)
Definition plain (b : byte) : Prop := 33 <= b <= 126.

Lemma trim_start_plain b s : plain b → trim_start (b :: s) = b :: s.
Proof.
  unfold plain. intros Hb. simpl.
  assert (ws1 b = false) as -> by (unfold ws1; lia).
  destruct s as [|c s]; [done|].
  assert (ws2 b c = false) as -> by (unfold ws2; lia).
  destruct s as [|d s]; [done|].
  by assert (ws3 b c d = false) as -> by (unfold ws3; lia).
Qed.

Lemma trim_end_rev_plain b s : plain b → trim_end_rev (b :: s) = b :: s.
Proof.
  unfold plain. intros Hb. simpl.
  assert (ws1 b = false) as -> by (unfold ws1; lia).
  destruct s as [|c s]; [done|].
  assert (ws2 c b = false) as -> by (unfold ws2; lia).
  destruct s as [|d s]; [done|].
  by assert (ws3 d c b = false) as -> by (unfold ws3; lia).
Qed.

Lemma trim_plain a s b : plain a → plain b → trim (a :: s ++ [b]) = a :: s ++ [b].
Proof.
  intros Ha Hb. unfold trim. rewrite trim_start_plain by done.
  rewrite app_comm_cons, rev_app_distr.
  change (rev [b] ++ rev (a :: s)) with (b :: rev (a :: s)).
  rewrite trim_end_rev_plain by done.
  change (b :: rev (a :: s)) with (rev [b] ++ rev (a :: s)).
  by rewrite <- rev_app_distr, rev_involutive.
Qed.

Lemma trim_plain1 a : plain a → trim [a] = [a].
Proof.
  intros Ha. unfold trim. rewrite trim_start_plain by done.
  change (rev [a]) with [a]. by rewrite trim_end_rev_plain.
Qed.

(** ** Decimal round trip *)

Lemma parse_digits_show_go max fuel n acc :
  0 <= n <= max → n < 10 ^ Z.of_nat fuel →
  parse_digits max 0 (show_go fuel n acc) = parse_digits max n acc.
Proof.
  revert n acc. induction fuel as [|fuel IH]; intros n acc Hn Hlt.
  { simpl in Hlt. by replace n with 0 by lia. }
  cbn [show_go]. destruct (n <? 10) eqn:H10; breflect.
  - cbn [parse_digits]. rewrite Z.mod_small by lia.
    assert (is_digit (48 + n) = true) as -> by (unfold is_digit; lia).
    replace (0 * 10 + (48 + n - 48)) with n by lia.
    by rewrite (proj2 (Z.leb_le _ _)) by lia.
  - rewrite Nat2Z.inj_succ, Z.pow_succ_r in Hlt by lia.
    pose proof (Z.div_mod n 10). pose proof (Z.mod_pos_bound n 10).
    rewrite IH by lia. cbn [parse_digits].
    assert (is_digit (48 + n mod 10) = true) as -> by (unfold is_digit; lia).
    replace (n / 10 * 10 + (48 + n mod 10 - 48)) with n by lia.
    by rewrite (proj2 (Z.leb_le _ _)) by lia.
Qed.

Lemma show_go_digits fuel n acc :
  0 <= n → Forall (fun b => is_digit b = true) acc →
  Forall (fun b => is_digit b = true) (show_go fuel n acc).
Proof.
  revert n acc. induction fuel as [|fuel IH]; intros n acc Hn Hacc; [done|].
  cbn [show_go]. pose proof (Z.mod_pos_bound n 10).
  assert (Forall (fun b => is_digit b = true) ((48 + n mod 10) :: acc)).
  { constructor; [unfold is_digit; lia | done]. }
  case_match; [done|]. apply IH; [|done]. apply Z.div_pos; lia.
Qed.

Lemma show_digits n : 0 <= n → Forall (fun b => is_digit b = true) (show n).
Proof. intros Hn. by apply show_go_digits. Qed.

Lemma show_go_nonempty fuel n acc : acc ≠ [] → show_go fuel n acc ≠ [].
Proof.
  revert n acc. induction fuel as [|fuel IH]; intros n acc Hacc; cbn [show_go]; [done|].
  case_match; [done|]. by apply IH.
Qed.

Lemma show_nonempty n : show n ≠ [].
Proof. unfold show. cbn [show_go]. case_match; [done|]. by apply show_go_nonempty. Qed.

Lemma parse_uint_digits max s :
  9 <= max → s ≠ [] → Forall (fun b => is_digit b = true) s →
  parse_uint max s = parse_digits max 0 s.
Proof.
  intros Hmax Hne Hd. destruct s as [|b s]; [done|].
  apply List.Forall_cons_iff in Hd as [Hb _]. destruct s as [|c s]; simpl.
  - rewrite Hb. unfold is_digit in Hb. breflect.
    rewrite (proj2 (Z.leb_le _ _)) by lia. done.
  - unfold is_digit in Hb. breflect. by rewrite (proj2 (Z.eqb_neq b 43)) by lia.
Qed.

(** Printing then parsing an integer of the type is the identity. *)
Lemma parse_uint_show max n : 9 <= max → 0 <= n <= max → parse_uint max (show n) = Some n.
Proof.
  intros Hmax Hn.
  rewrite parse_uint_digits by (try apply show_nonempty; try apply show_digits; lia).
  unfold show. rewrite parse_digits_show_go; [done|done|].
  rewrite Nat2Z.inj_succ, Z2Nat.id by apply Z.log2_nonneg.
  destruct (decide (n = 0)) as [->|]; [done|].
  apply Z.lt_le_trans with (2 ^ Z.succ (Z.log2 n)); [apply Z.log2_spec; lia|].
  apply Z.pow_le_mono_l. pose proof (Z.log2_nonneg n). lia.
Qed.

(** ** Trimming *)

(** The string does not start with white space. *)
Definition starts_solid (s : str) : bool :=
  match s with
  | [] => true
  | [a] => negb (ws1 a)
  | [a; b] => negb (ws1 a) && negb (ws2 a b)
  | a :: b :: c :: _ => negb (ws1 a) && negb (ws2 a b) && negb (ws3 a b c)
  end.

Lemma trim_start_solid s : starts_solid s = true → trim_start s = s.
Proof.
  destruct s as [|a [|b [|c s]]]; cbn; intros H; breflect;
    repeat match goal with H : ?x = false |- _ => rewrite H; clear H end; done.
Qed.

Lemma trim_start_starts s : starts_solid (trim_start s) = true.
Proof.
  induction s as [s IH] using (induction_ltof1 _ (@length Z)). unfold ltof in IH.
  destruct s as [|a s1]; [done|]. cbn [trim_start].
  destruct (ws1 a) eqn:H1; [apply IH; simpl; lia|].
  destruct s1 as [|b s2]; [cbn; by rewrite H1|].
  destruct (ws2 a b) eqn:H2; [apply IH; simpl; lia|].
  destruct s2 as [|c s3]; [cbn; by rewrite H1, H2|].
  destruct (ws3 a b c) eqn:H3; [apply IH; simpl; lia|].
  cbn. by rewrite H1, H2, H3.
Qed.

Lemma starts_solid_prefix p s : starts_solid (p ++ s) = true → starts_solid p = true.
Proof.
  destruct p as [|a [|b [|c p]]]; cbn; [done| | |done].
  - destruct s as [|b [|c s]]; rewrite ?andb_true_iff; tauto.
  - destruct s as [|c s]; rewrite ?andb_true_iff; tauto.
Qed.

(** The same facts for the mirrored scan of [trim_end_rev]. *)
Definition ends_solid_rev (s : str) : bool :=
  match s with
  | [] => true
  | [c] => negb (ws1 c)
  | [c; b] => negb (ws1 c) && negb (ws2 b c)
  | c :: b :: a :: _ => negb (ws1 c) && negb (ws2 b c) && negb (ws3 a b c)
  end.

Lemma trim_end_rev_solid s : ends_solid_rev s = true → trim_end_rev s = s.
Proof.
  destruct s as [|a [|b [|c s]]]; cbn; intros H; breflect;
    repeat match goal with H : ?x = false |- _ => rewrite H; clear H end; done.
Qed.

Lemma trim_end_rev_ends s :
  ends_solid_rev (trim_end_rev s) = true ∧ ∃ p, s = p ++ trim_end_rev s.
Proof.
  induction s as [s IH] using (induction_ltof1 _ (@length Z)). unfold ltof in IH.
  destruct s as [|c s1]; [split; [done | by exists []]|]. cbn [trim_end_rev].
  destruct (ws1 c) eqn:H1.
  { destruct (IH s1) as [Hs [p Hp]]; [simpl; lia|]. split; [done|]. exists (c :: p). cbn. by rewrite <- Hp. }
  destruct s1 as [|b s2]; [split; [cbn; by rewrite H1 | by exists []]|].
  destruct (ws2 b c) eqn:H2.
  { destruct (IH s2) as [Hs [p Hp]]; [simpl; lia|]. split; [done|]. exists (c :: b :: p). cbn.
    by rewrite <- Hp. }
  destruct s2 as [|a s3]; [split; [cbn; by rewrite H1, H2 | by exists []]|].
  destruct (ws3 a b c) eqn:H3.
  { destruct (IH s3) as [Hs [p Hp]]; [simpl; lia|]. split; [done|]. exists (c :: b :: a :: p). cbn.
    by rewrite <- Hp. }
  split; [cbn; by rewrite H1, H2, H3 | by exists []].
Qed.

Lemma trim_idemp s : trim (trim s) = trim s.
Proof.
  unfold trim at 1. assert (trim_start (trim s) = trim s) as ->.
  { apply trim_start_solid. unfold trim.
    destruct (trim_end_rev_ends (rev (trim_start s))) as [_ [p Hp]].
    apply (f_equal (@rev Z)) in Hp. rewrite rev_involutive, rev_app_distr in Hp.
    pose proof (trim_start_starts s) as Hs. rewrite Hp in Hs. by eapply starts_solid_prefix. }
  unfold trim. rewrite rev_involutive, (trim_end_rev_solid _ (proj1 (trim_end_rev_ends _))). done.
Qed.

(** ** Separators *)

Lemma split_app_sep c a b : split c (a ++ c :: b) = split c a ++ split c b.
Proof.
  induction a as [|x a IH]; cbn [app split].
  - by rewrite Z.eqb_refl.
  - rewrite IH. destruct (x =? c); [done|].
    destruct (split c a) as [|w ws] eqn:Hs; [by apply split_nonempty in Hs|]. done.
Qed.

Lemma join_app c l k : l ≠ [] → k ≠ [] → join c (l ++ k) = join c l ++ c :: join c k.
Proof.
  intros Hl Hk. induction l as [|w l IH]; [done|]. destruct l as [|w' l].
  - cbn. by destruct k.
  - change ((w :: w' :: l) ++ k) with (w :: (w' :: l) ++ k).
    change (join c (w :: (w' :: l) ++ k)) with (w ++ c :: join c ((w' :: l) ++ k)).
    change (join c (w :: w' :: l)) with (w ++ c :: join c (w' :: l)).
    rewrite IH by done. by rewrite <- app_assoc.
Qed.

Lemma to_ascii_lowercase_app a b :
  to_ascii_lowercase (a ++ b) = to_ascii_lowercase a ++ to_ascii_lowercase b.
Proof. apply map_app. Qed.

Lemma trim_end_matches_other c s b : b ≠ c → trim_end_matches c (s ++ [b]) = s ++ [b].
Proof.
  intros Hb. unfold trim_end_matches. rewrite rev_app_distr. cbn.
  rewrite (proj2 (Z.eqb_neq _ _)) by done. cbn. by rewrite rev_involutive.
Qed.

Lemma trim_end_matches_same c s : trim_end_matches c (s ++ [c]) = trim_end_matches c s.
Proof. unfold trim_end_matches. rewrite rev_app_distr. cbn. by rewrite Z.eqb_refl. Qed.

Lemma rsplit_once_last c l r : c ∉ r → rsplit_once c (l ++ c :: r) = Some (l, r).
Proof.
  intros Hr. unfold rsplit_once.
  assert (rev (l ++ c :: r) = rev r ++ c :: rev l) as ->.
  { rewrite rev_app_distr. cbn. by rewrite <- app_assoc. }
  rewrite (proj2 (split_once_Some c (rev r ++ c :: rev l) (rev r) (rev l))).
  - by rewrite !rev_involutive.
  - split; [done|]. rewrite list_elem_of_In, <- in_rev, <- list_elem_of_In. done.
Qed.

Lemma rsplit_once_none c s : c ∉ s → rsplit_once c s = None.
Proof.
  intros Hs. unfold rsplit_once. rewrite (proj2 (split_once_None c (rev s))); [done|].
  rewrite list_elem_of_In, <- in_rev, <- list_elem_of_In. done.
Qed.

Lemma show_inj a b : 0 <= a → 0 <= b → show a = show b → a = b.
Proof.
  intros Ha Hb Heq. pose proof (parse_uint_show (Z.max 9 (Z.max a b)) a ltac:(lia) ltac:(lia)) as H1.
  pose proof (parse_uint_show (Z.max 9 (Z.max a b)) b ltac:(lia) ltac:(lia)) as H2. rewrite Heq in H1. congruence.
Qed.
