(* ===== verification/Patterns.v ===== *)
(** * Patterns: URL and host pattern matching (proxy-core/src/rules/patterns.rs)

    The four match types of a rule ([exact], [regex], [wildcard] and the
    default [contains]), the windowed backtracking wildcard matcher, and a
    declarative glob semantics it is proved equivalent to.  The regex crate is
    a parameter ([RegexEngine]). *)

From S2P Require Import Prelude Str.

(** ** The regex crate *)

Class RegexEngine := {
  regex : Type;
  regex_new : str → option regex;   (* Regex::new(p).ok() *)
  regex_is_match : regex → str → bool
}.

(** A regex engine that accepts no pattern, for the witnesses. *)
Definition no_regex : RegexEngine :=
  {| regex := unit; regex_new := fun _ => None; regex_is_match := fun _ _ => false |}.

(** ** Definitions *)

Definition star : byte := chr "*".

Definition nonempty (s : str) : bool := negb (bool_decide (s = [])).

(** The loop of [match_middles]: look for the next occurrence of [first], try
    the remaining segments after it, otherwise go on from the character after
    that occurrence.  [rest_ok e] stands for
    [rest.is_empty() || match_middles(rest, candidate, e, window_end)].  Every
    iteration starts at least one byte further, so [fuel] need not exceed the
    size of the window plus one ([retry_fuel] below). *)
Fixpoint retry (first : str) (rest_ok : nat → bool) (candidate : str) (window_end : nat)
    (fuel occurrence_start : nat) : bool :=
  match fuel with
  | O => false
  | S fuel =>
      match find (slice occurrence_start window_end candidate) first with
      | None => false
      | Some relative =>
          let end_ := (occurrence_start + relative + length first)%nat in
          if rest_ok end_ then true
          else match slice end_ window_end candidate with
               | c :: _ => retry first rest_ok candidate window_end fuel (end_ + utf8_len c)
               | [] => false
               end
      end
  end.

Fixpoint match_middles (middles : list str) (candidate : str)
    (window_start window_end : nat) : bool :=
  match middles with
  | [] => true
  | first :: rest =>
      retry first
        (fun e => bool_decide (rest = []) || match_middles rest candidate e window_end)
        candidate window_end (S (window_end - window_start)) window_start
  end.

(** Two or more segments: pin the anchored ones and search the window between
    them for the others. *)
Definition match_segments (leading_wildcard trailing_wildcard : bool) (parts : list str)
    (candidate : str) : bool :=
  let head := if leading_wildcard then None else hd_error parts in
  let tail := if trailing_wildcard then None else last parts in
  let middle_start := match head with Some _ => 1%nat | None => 0%nat end in
  let middle_end := (length parts - match tail with Some _ => 1 | None => 0 end)%nat in
  let middles := slice middle_start middle_end parts in
  let head_ok := match head with Some h => starts_with candidate h | None => true end in
  let window_start := match head with Some h => length h | None => 0%nat end in
  let tail_ok :=
    match tail with
    | Some t => negb ((length candidate - window_start <? length t)%nat
                      || negb (ends_with (drop window_start candidate) t))
    | None => true
    end in
  let window_end :=
    (length candidate - match tail with Some t => length t | None => 0 end)%nat in
  if negb head_ok then false
  else if negb tail_ok then false
  else if (window_end <? window_start)%nat then false
  else match_middles middles candidate window_start window_end.

Definition wildcard_matches (normalized candidate : str) : bool :=
  if bool_decide (normalized = []) || bool_decide (normalized = lit "*") then true
  else
    let leading_wildcard := starts_with normalized [star] in
    let trailing_wildcard := ends_with normalized [star] in
    let parts := List.filter nonempty (split star normalized) in
    match parts with
    | [] => true
    | [part] =>
        match leading_wildcard, trailing_wildcard with
        | false, false => bool_decide (candidate = part)
        | true, false => ends_with candidate part
        | false, true => starts_with candidate part
        | true, true => contains candidate part
        end
    | _ => match_segments leading_wildcard trailing_wildcard parts candidate
    end.

Definition contains_matches (normalized candidate : str) : bool :=
  if bool_decide (normalized = []) || bool_decide (normalized = lit "*") then true
  else contains candidate normalized.

Section WithRegex.
Context `{RegexEngine}.

Definition pattern_matches (pattern candidate : str) (match_type : option str) : bool :=
  let normalized := trim pattern in
  let ty := default (lit "contains") match_type in
  if bool_decide (ty = lit "exact") then bool_decide (candidate = normalized)
  else if bool_decide (ty = lit "regex") then
    match regex_new normalized with
    | Some re => regex_is_match re candidate
    | None => false
    end
  else if bool_decide (ty = lit "wildcard") then wildcard_matches normalized candidate
  else contains_matches normalized candidate.

Definition compile_match_regex (match_type : option str) (url_pattern : str) : option regex :=
  if bool_decide (match_type = Some (lit "regex")) then regex_new (trim url_pattern) else None.

(** The precompiled-or-pattern test every rule kind with a compiled regex
    performs on its URL. *)
Definition compiled_pattern_matches (compiled : option regex) (pattern candidate : str)
    (match_type : option str) : bool :=
  if bool_decide (match_type = Some (lit "regex")) then
    match compiled with Some re => regex_is_match re candidate | None => false end
  else pattern_matches pattern candidate match_type.
End WithRegex.

(** ** Reference semantics of wildcard patterns *)

(** [Glob p c]: [c] is [p] with every [*] replaced by some string. *)
Inductive Glob : str → str → Prop :=
  | Glob_nil : Glob [] []
  | Glob_lit b p c : b ≠ star → Glob p c → Glob (b :: p) (b :: c)
  | Glob_star p c1 c2 : Glob p c2 → Glob (star :: p) (c1 ++ c2).

(** The segments occur in [c], in order and without overlap. *)
Fixpoint Mid (ms : list str) (c : str) : Prop :=
  match ms with
  | [] => True
  | m :: ms => ∃ c1 c2, c = c1 ++ m ++ c2 ∧ Mid ms c2
  end.

(** ** Lemmas on the reference semantics *)

Lemma Mid_prefix ms x c : Mid ms c → Mid ms (x ++ c).
Proof.
  destruct ms as [|m ms]; simpl; [done|].
  intros (c1 & c2 & -> & H). exists (x ++ c1), c2. by rewrite app_assoc.
Qed.

Lemma Mid_filter ms c : Mid (List.filter nonempty ms) c ↔ Mid ms c.
Proof.
  revert c. induction ms as [|m ms IH]; intros c; simpl; [done|].
  unfold nonempty at 1. case_bool_decide as Hm; simpl.
  - subst. rewrite IH. split.
    + intros H. by exists [], c.
    + intros (c1 & c2 & -> & H). by apply Mid_prefix.
  - by setoid_rewrite IH.
Qed.

Lemma Glob_app_lit w p c : star ∉ w → Glob (w ++ p) c ↔ ∃ c', c = w ++ c' ∧ Glob p c'.
Proof.
  revert c. induction w as [|b w IH]; intros c Hw; simpl; [naive_solver|].
  split.
  - inversion 1; subst; [|set_solver]. apply IH in H4 as (c' & -> & Hg); [|set_solver].
    eauto.
  - intros (c' & -> & Hg). constructor; [set_solver|]. apply IH; [set_solver|]. eauto.
Qed.

Lemma Glob_star_iff p c : Glob (star :: p) c ↔ ∃ c1 c2, c = c1 ++ c2 ∧ Glob p c2.
Proof.
  split.
  - inversion 1; subst; [done | eauto].
  - intros (c1 & c2 & -> & Hg). by constructor.
Qed.

Lemma Glob_nil_iff c : Glob [] c ↔ c = [].
Proof. split; [by inversion 1 | intros ->; constructor]. Qed.

Lemma Glob_literal w c : star ∉ w → Glob w c ↔ c = w.
Proof.
  intros Hw. rewrite <- (app_nil_r w) at 1. rewrite Glob_app_lit by done.
  setoid_rewrite Glob_nil_iff. split; [intros (? & -> & ->); apply app_nil_r|].
  intros ->. exists []. by rewrite app_nil_r.
Qed.

(** A pattern [w0*init..*l] matches exactly the strings that start with [w0],
    end with [l] and contain the segments of [init] in order in between. *)
Lemma Glob_join init w l c :
  Forall (fun x => star ∉ x) (w :: init ++ [l]) →
  Glob (join star (w :: init ++ [l])) c ↔ ∃ d, c = w ++ d ++ l ∧ Mid init d.
Proof.
  revert w c. induction init as [|m init IH]; intros w c Hall.
  - simpl in *. rewrite !List.Forall_cons_iff in Hall. destruct Hall as (Hw & Hl & _).
    rewrite Glob_app_lit by done. setoid_rewrite Glob_star_iff.
    setoid_rewrite (fun c => Glob_literal l c Hl). naive_solver.
  - change (join star (w :: (m :: init) ++ [l]))
      with (w ++ star :: join star (m :: init ++ [l])).
    simpl in Hall. apply List.Forall_cons_iff in Hall as [Hw Hall].
    rewrite Glob_app_lit by done. setoid_rewrite Glob_star_iff.
    setoid_rewrite (fun c => IH m c Hall). simpl. split.
    + intros (? & -> & c1 & ? & -> & d & -> & Hd).
      exists (c1 ++ m ++ d). split; [by rewrite <- !app_assoc | eauto].
    + intros (? & -> & c1 & c2 & -> & Hd). eexists. split; [done|].
      exists c1, (m ++ c2 ++ l). split; [by rewrite <- !app_assoc | eauto].
Qed.

(** ** Lemmas on the matcher *)

Lemma drop_slice {A} k a b (s : list A) : drop k (slice a b s) = slice (a + k) b s.
Proof.
  unfold slice. rewrite skipn_firstn_comm, drop_drop. f_equal. lia.
Qed.

Lemma find_slice a b s p i :
  find (slice a b s) p = Some i →
  ∃ l, slice a b s = l ++ p ++ slice (a + i + length p) b s ∧ length l = i ∧
       ∀ l' r', slice a b s = l' ++ p ++ r' → (i <= length l')%nat.
Proof.
  intros Hf. apply find_Some in Hf as (l & r & Heq & Hl & Hmin).
  exists l. split_and!; [|done|done].
  assert (slice (a + i + length p) b s = r) as ->; [|done].
  rewrite <- Nat.add_assoc, <- drop_slice, Heq, app_assoc.
  rewrite drop_app_length'; [done|]. rewrite length_app. lia.
Qed.

Lemma match_middles_sound ms c a b : match_middles ms c a b = true → Mid ms (slice a b c).
Proof.
  revert a. induction ms as [|m ms IH]; intros a; [done|].
  cbn [match_middles]. generalize (S (b - a)) as fuel. intros fuel.
  revert a. induction fuel as [|fuel IHf]; intros a; cbn [retry]; [done|].
  destruct (find _ m) as [i|] eqn:Hf; [|done].
  apply find_slice in Hf as (l & Heq & Hl & _). rewrite Heq.
  destruct (_ || _) eqn:Hor.
  - intros _. exists l, (slice (a + i + length m) b c). split; [done|].
    apply orb_true_iff in Hor as [Hnil | Hrec].
    + apply bool_decide_eq_true in Hnil as ->. done.
    + by apply IH.
  - destruct (slice (a + i + length m) b c) as [|x r] eqn:Hs; [done|].
    intros Hloop. apply IHf in Hloop. rewrite <- drop_slice, Hs in Hloop.
    rewrite <- (take_drop (utf8_len x) (x :: r)), !app_assoc.
    by apply Mid_prefix.
Qed.

Lemma match_middles_complete ms c a b : Mid ms (slice a b c) → match_middles ms c a b = true.
Proof.
  revert a. induction ms as [|m ms IH]; intros a; [done|].
  intros (c1 & c2 & Heq & HM). cbn [match_middles retry].
  destruct (find (slice a b c) m) as [i|] eqn:Hf.
  - apply find_slice in Hf as (l & Heq' & Hl & Hmin).
    assert (match_middles ms c (a + i + length m) b = true) as ->.
    { apply IH. specialize (Hmin _ _ Heq). rewrite Heq', !app_assoc in Heq.
      apply app_longer_suffix in Heq as [x ->]; [by apply Mid_prefix|].
      rewrite !length_app. lia. }
    by rewrite orb_true_r.
  - rewrite find_None in Hf. by destruct (Hf c1 c2).
Qed.

(** The loop never runs out of fuel: more iterations give the same answer. *)
Lemma retry_fuel first ok c b f1 f2 a :
  (b - a < f1)%nat → (f1 <= f2)%nat →
  retry first ok c b f1 a = retry first ok c b f2 a.
Proof.
  revert f2 a. induction f1 as [|f1 IH]; intros f2 a Hf Hle; [lia|].
  destruct f2 as [|f2]; [lia|]. cbn [retry].
  destruct (find _ first) as [i|]; [|done]. destruct (ok _); [done|].
  destruct (slice _ b c) as [|x r] eqn:Hs; [done|].
  apply IH; [|lia].
  assert (length (slice (a + i + length first) b c) <= b - (a + i + length first))%nat as Hlen.
  { unfold slice. rewrite length_take. lia. }
  rewrite Hs in Hlen. simpl in Hlen.
  assert (1 <= utf8_len x)%nat by (unfold utf8_len; repeat case_match; lia). lia.
Qed.

Lemma match_middles_spec ms c a b : match_middles ms c a b = true ↔ Mid ms (slice a b c).
Proof. split; [apply match_middles_sound | apply match_middles_complete]. Qed.

Lemma slice_full {A} (s : list A) n : (length s <= n)%nat → slice 0 n s = s.
Proof. intros H. unfold slice. rewrite drop_0. apply take_ge. lia. Qed.

Lemma slice_mid {A} (h d t : list A) :
  slice (length h) (length (h ++ d ++ t) - length t) (h ++ d ++ t) = d.
Proof.
  unfold slice. rewrite drop_app_length.
  replace (_ - _ - _)%nat with (length d) by (rewrite !length_app; lia).
  apply take_app_length.
Qed.

(** The window between a pinned head and a pinned tail. *)
Lemma window_spec h t ms c :
  (if negb (starts_with c h) then false
   else if negb (negb ((length c - length h <? length t)%nat
                       || negb (ends_with (drop (length h) c) t))) then false
   else if (length c - length t <? length h)%nat then false
   else match_middles ms c (length h) (length c - length t)) = true
  ↔ ∃ d, c = h ++ d ++ t ∧ Mid ms d.
Proof.
  destruct (starts_with c h) eqn:Hh; simpl.
  - apply starts_with_spec in Hh as [r ->]. rewrite drop_app_length, negb_involutive.
    destruct (ends_with r t) eqn:Ht.
    + apply ends_with_spec in Ht as [d ->].
      rewrite orb_false_r. rewrite !(proj2 (Nat.ltb_ge _ _)) by (rewrite !length_app; lia).
      rewrite match_middles_spec, slice_mid. split; [eauto|].
      intros (d' & Heq & HM). by simplify_list_eq.
    + rewrite orb_true_r. split; [done|]. intros (d & Heq & _). simplify_list_eq.
      by rewrite (proj2 (ends_with_spec _ _) (ex_intro _ d eq_refl)) in Ht.
  - split; [done|]. intros (d & -> & _). by rewrite starts_with_app in Hh.
Qed.

Lemma slice_snoc {A} (ms : list A) l : slice 0 (length (ms ++ [l]) - 1) (ms ++ [l]) = ms.
Proof. apply (slice_mid [] ms [l]). Qed.

Lemma leading_star w ws :
  star ∉ w → ws ≠ [] →
  starts_with (join star (w :: ws)) [star] = bool_decide (w = []).
Proof.
  intros Hw Hws. destruct ws as [|x ws]; [done|]. destruct w as [|b w].
  - rewrite bool_decide_eq_true_2 by done. done.
  - rewrite bool_decide_eq_false_2 by done. apply not_true_iff_false.
    rewrite starts_with_spec. intros [t [= -> _]]. set_solver.
Qed.

Lemma join_snoc w init l : join star (w :: init ++ [l]) = join star (w :: init) ++ star :: l.
Proof.
  revert w. induction init as [|m init IH]; intros w; [done|].
  change (join star (w :: (m :: init) ++ [l])) with (w ++ star :: join star (m :: init ++ [l])).
  rewrite IH. change (join star (w :: m :: init)) with (w ++ star :: join star (m :: init)).
  by rewrite <- app_assoc.
Qed.

Lemma trailing_star x l :
  star ∉ l → ends_with (x ++ star :: l) [star] = bool_decide (l = []).
Proof.
  intros Hl. destruct l as [|b l'] using rev_ind.
  - rewrite bool_decide_eq_true_2 by done. apply ends_with_spec. eauto.
  - rewrite bool_decide_eq_false_2 by (by destruct l'). apply not_true_iff_false.
    rewrite ends_with_spec. intros [t Ht].
    rewrite app_comm_cons, app_assoc in Ht. apply app_inj_tail in Ht as [_ ->]. set_solver.
Qed.

Lemma match_segments_spec (leading trailing : bool) h t ms c :
  (leading = true → h = []) → (trailing = true → t = []) →
  match_segments leading trailing
    ((if leading then [] else [h]) ++ ms ++ (if trailing then [] else [t])) c = true
  ↔ ∃ d, c = h ++ d ++ t ∧ Mid ms d.
Proof.
  intros Hh Ht. pose proof (window_spec h t ms c) as Hwin. unfold match_segments.
  destruct leading, trailing; rewrite ?Hh, ?Ht in * by done; clear Hh Ht.
  - cbn [app]. rewrite app_nil_r, slice_full by lia. exact Hwin.
  - cbn [app]. rewrite last_snoc, slice_snoc. exact Hwin.
  - cbn [app hd_error]. rewrite app_nil_r.
    pose proof (slice_mid [h] ms []) as Hs. rewrite app_nil_r in Hs. cbn [length app] in Hs.
    cbn [length]. rewrite Hs. exact Hwin.
  - cbn [app hd_error]. rewrite app_comm_cons, last_snoc.
    pose proof (slice_mid [h] ms [t]) as Hs. cbn [length app] in Hs.
    cbn [length app]. rewrite Hs. exact Hwin.
Qed.

Lemma filter_nonempty_one w :
  List.filter nonempty [w] = if bool_decide (w = []) then [] else [w].
Proof. unfold nonempty. simpl. by case_bool_decide. Qed.

(** A pattern with at least one star. *)
Lemma wildcard_matches_split p w init l c :
  split star p = w :: init ++ [l] → p ≠ lit "*" →
  wildcard_matches p c = true ↔ ∃ d, c = w ++ d ++ l ∧ Mid (List.filter nonempty init) d.
Proof.
  intros Hsplit Hp.
  pose proof (split_no_sep star p) as Hno. pose proof (join_split star p) as Hjoin.
  rewrite Hsplit in Hno, Hjoin.
  apply List.Forall_cons_iff in Hno as [Hw Hno]. apply Forall_app in Hno as [_ Hl].
  apply List.Forall_cons_iff in Hl as [Hl _].
  assert (starts_with p [star] = bool_decide (w = [])) as Hlead.
  { rewrite <- Hjoin. apply leading_star; [done | by destruct init]. }
  assert (ends_with p [star] = bool_decide (l = [])) as Htrail.
  { rewrite <- Hjoin, join_snoc. by apply trailing_star. }
  assert (p ≠ []) as Hne.
  { rewrite <- Hjoin, join_snoc. by destruct (join star (w :: init)). }
  unfold wildcard_matches. rewrite !bool_decide_eq_false_2 by done.
  rewrite Hlead, Htrail, Hsplit. cbn [orb].
  change (w :: init ++ [l]) with ([w] ++ init ++ [l]).
  rewrite !List.filter_app, !filter_nonempty_one.
  generalize (List.filter nonempty init) as ms. intros ms.
  pose proof (match_segments_spec (bool_decide (w = [])) (bool_decide (l = [])) w l ms c) as Hms.
  rewrite !bool_decide_eq_true in Hms. specialize (Hms id id).
  clear - Hms.
  destruct (bool_decide (w = [])) eqn:Ew, (bool_decide (l = [])) eqn:El; breflect; subst;
    cbn [app] in *.
  - rewrite app_nil_r in *. destruct ms as [|m [|m' ms]]; [|clear Hms|done].
    + split; [intros _; exists c; by rewrite app_nil_r | done].
    + rewrite contains_spec. simpl. setoid_rewrite app_nil_r. naive_solver.
  - destruct ms as [|m [|m' ms]]; [clear Hms|done..].
    cbn. rewrite ends_with_spec. naive_solver.
  - rewrite app_nil_r in *. destruct ms as [|m ms]; [clear Hms|done].
    cbn. rewrite starts_with_spec. setoid_rewrite app_nil_r. naive_solver.
  - by destruct ms.
Qed.

(** ** Properties *)

(** C18: [wildcard_matches] implements the documented wildcard semantics: a
    non-empty pattern matches exactly the candidates obtained by replacing each
    [*] by some (possibly empty) string, anchored at both ends; the windowed
    search with its skipping retry loop loses no match. *)
Theorem wildcard_matches_glob p c :
  wildcard_matches p c = true ↔ p = [] ∨ Glob p c.
Proof.
  destruct (decide (p = [])) as [->|Hne]; [split; auto|].
  destruct (decide (p = lit "*")) as [->|Hstar].
  { split; [|done]. intros _. right. change (Glob (star :: []) c).
    rewrite <- (app_nil_r c). repeat constructor. }
  transitivity (Glob p c); [|naive_solver].
  pose proof (split_no_sep star p) as Hno. pose proof (join_split star p) as Hjoin.
  destruct (split star p) as [|w ws] eqn:Hsplit; [by apply split_nonempty in Hsplit|].
  destruct ws as [|l init _] using rev_ind.
  - simpl in Hjoin. subst w. apply List.Forall_cons_iff in Hno as [Hno _].
    unfold wildcard_matches. rewrite !bool_decide_eq_false_2, Hsplit by done.
    rewrite filter_nonempty_one, bool_decide_eq_false_2 by done. cbn [orb].
    assert (starts_with p [star] = false) as ->.
    { apply not_true_iff_false. rewrite starts_with_spec. intros [t ->]. set_solver. }
    assert (ends_with p [star] = false) as ->.
    { apply not_true_iff_false. rewrite ends_with_spec. intros [t ->]. set_solver. }
    rewrite bool_decide_eq_true, Glob_literal by done. done.
  - rewrite (wildcard_matches_split _ _ _ _ _ Hsplit Hstar).
    rewrite <- Hjoin, Glob_join by done. by setoid_rewrite Mid_filter.
Qed.

(** Precompilation does not change a verdict: matching with the regex compiled
    when the rule was stored agrees with [pattern_matches] on every match type,
    the invalid regex included (it matches nothing). *)
Theorem compiled_pattern_agrees `{RegexEngine} pattern candidate match_type :
  compiled_pattern_matches (compile_match_regex match_type pattern) pattern candidate match_type
  = pattern_matches pattern candidate match_type.
Proof.
  unfold compiled_pattern_matches, compile_match_regex.
  destruct (decide (match_type = Some (lit "regex"))) as [->|Hne].
  - rewrite !bool_decide_true by done. unfold pattern_matches. cbn [default].
    rewrite bool_decide_false by done. by rewrite bool_decide_true.
  - by rewrite bool_decide_false.
Qed.
