(* ===== verification/JsonPath.v ===== *)
(** * JsonPath: JSON body field paths (proxy-core/src/rules/json_path.rs)

    JSON values as [serde_json::Value] with the [preserve_order] feature (an
    object is an insertion-ordered map: [insert] overwrites in place or appends,
    [remove] is [swap_remove]), the [data.items[0].id] path grammar, and the
    get / set / remove operations the body rewrite and the Agent replay use.
    The operations take [&mut Value]: the model returns the updated root next to
    the result, also when the result is an error. *)

From S2P Require Import Prelude Str.


(** ** JSON values *)

Section Json.
(** [serde_json::Number] is not inspected by the path operations. *)
Context {number : Type}.

Inductive value : Type :=
  | Null
  | Bool (b : bool)
  | Number (n : number)
  | String (s : str)
  | Array (a : list value)
  | Object (o : list (str * value)).

(** [Map::get] *)
Fixpoint obj_get (o : list (str * value)) (k : str) : option value :=
  match o with
  | [] => None
  | (k', v) :: o => if bool_decide (k' = k) then Some v else obj_get o k
  end.

(** [Map::insert] *)
Fixpoint obj_insert (o : list (str * value)) (k : str) (v : value) : list (str * value) :=
  match o with
  | [] => [(k, v)]
  | (k', v') :: o =>
      if bool_decide (k' = k) then (k', v) :: o else (k', v') :: obj_insert o k v
  end.

(** [Map::remove], i.e. [swap_remove]: the last entry takes the free place. *)
Fixpoint obj_remove (o : list (str * value)) (k : str) : list (str * value) :=
  match o with
  | [] => []
  | (k', v') :: o' =>
      if bool_decide (k' = k) then
        match last o' with
        | None => []
        | Some e => e :: take (length o' - 1) o'
        end
      else (k', v') :: obj_remove o' k
  end.

(** [vec.get(i)] for a [usize] index. *)
Definition vec_get (a : list value) (i : Z) : option value :=
  if i <? len a then a !! Z.to_nat i else None.

Definition vec_set (a : list value) (i : Z) (v : value) : list value := <[Z.to_nat i := v]> a.

(** ** Path segments and their grammar *)

Inductive JsonPathSegment : Type :=
  | Index (i : Z)
  | Key (k : str).

Definition dot : byte := chr ".".
Definition lbracket : byte := chr "[".
Definition rbracket : byte := chr "]".

Definition err_empty_segment (path : str) : str :=
  lit "body field path '" ++ path ++ lit "' contains an empty segment".
Definition err_invalid_index (path : str) : str :=
  lit "body field path '" ++ path ++ lit "' contains an invalid array index".
Definition err_non_numeric (path : str) : str :=
  lit "body field path '" ++ path ++ lit "' contains a non-numeric array index".
Definition err_unmatched (path : str) : str :=
  lit "body field path '" ++ path ++ lit "' contains an unmatched ']'".

Definition push_key (segments : list JsonPathSegment) (key : str) : list JsonPathSegment :=
  if bool_decide (key = []) then segments else segments ++ [Key key].

(** The scanning loop; [rest] is [chars[index..]].  The delimiters are ASCII,
    so scanning bytes and scanning characters agree.  One unit of [fuel] per
    remaining byte is enough ([scan_fuel]). *)
Fixpoint scan_path (path : str) (fuel : nat) (segments : list JsonPathSegment) (key rest : str)
    : result (list JsonPathSegment) str :=
  match fuel with
  | O => Err []
  | S fuel =>
      match rest with
      | [] =>
          match push_key segments key with
          | [] => Err (lit "body field path is empty")
          | segments => Ok segments
          end
      | c :: rest =>
          if c =? dot then
            if bool_decide (key = []) then
              if bool_decide (segments = [])
                 || match rest with [] => true | d :: _ => d =? dot end
              then Err (err_empty_segment path)
              else scan_path path fuel segments key rest
            else scan_path path fuel (segments ++ [Key key]) [] rest
          else if c =? lbracket then
            let segments := push_key segments key in
            match split_once rbracket rest with
            | None => Err (err_invalid_index path)
            | Some (raw_index, rest) =>
                if bool_decide (raw_index = []) then Err (err_invalid_index path)
                else match parse_uint usize_max raw_index with
                     | None => Err (err_non_numeric path)
                     | Some array_index =>
                         scan_path path fuel (segments ++ [Index array_index]) [] rest
                     end
            end
          else if c =? rbracket then Err (err_unmatched path)
          else scan_path path fuel segments (key ++ [c]) rest
      end
  end.

(** The leading [$] / [$.] of a JSONPath is optional. *)
Definition normalize_path (path : str) : str :=
  let normalized := trim path in
  match strip_prefix normalized (lit "$.") with
  | Some stripped => stripped
  | None =>
      match strip_prefix normalized (lit "$") with
      | Some stripped => default stripped (strip_prefix stripped [dot])
      | None => normalized
      end
  end.

Definition parse_json_field_path (path : str) : result (list JsonPathSegment) str :=
  if bool_decide (trim path = lit "$")
  then Err (lit "body field path must point to a JSON field")
  else
    let normalized := normalize_path path in
    if bool_decide (normalized = []) then Err (lit "body field path is empty")
    else scan_path path (S (length normalized)) [] [] normalized.

(** ** Reading and writing a path *)

Fixpoint get_json_path_value (root : value) (segments : list JsonPathSegment) : option value :=
  match segments with
  | [] => Some root
  | Key key :: segments =>
      match root with
      | Object o => match obj_get o key with
                    | Some v => get_json_path_value v segments
                    | None => None
                    end
      | _ => None
      end
  | Index index :: segments =>
      match root with
      | Array a => match vec_get a index with
                   | Some v => get_json_path_value v segments
                   | None => None
                   end
      | _ => None
      end
  end.

Definition type_label (v : value) : str :=
  match v with
  | Null => lit "null"
  | Bool _ => lit "boolean"
  | Number _ => lit "number"
  | String _ => lit "string"
  | Array _ => lit "array"
  | Object _ => lit "object"
  end.

(** [Null] becomes an empty object, an object stays, anything else is refused. *)
Definition as_container (current : value) : result (list (str * value)) str :=
  match current with
  | Null => Ok []
  | Object o => Ok o
  | other => Err (lit "body field path expects an object but found " ++ type_label other)
  end.

Definition err_not_array (index : Z) : str :=
  lit "body field path expects an array at index " ++ show index.
Definition err_out_of_range (index : Z) : str :=
  lit "body field path array index " ++ show index ++ lit " is out of range".

Fixpoint set_json_path_value (current : value) (segments : list JsonPathSegment) (v : value)
    : value * result unit str :=
  match segments with
  | [] => (current, Err (lit "body field path is empty"))
  | [Key key] =>
      match as_container current with
      | Err e => (current, Err e)
      | Ok o => (Object (obj_insert o key v), Ok tt)
      end
  | [Index index] =>
      match current with
      | Array a =>
          if index =? len a then (Array (a ++ [v]), Ok tt)
          else match vec_get a index with
               | Some _ => (Array (vec_set a index v), Ok tt)
               | None => (current, Err (err_out_of_range index))
               end
      | _ => (current, Err (err_not_array index))
      end
  | Key key :: parents =>
      match as_container current with
      | Err e => (current, Err e)
      | Ok o =>
          let child := default (Object []) (obj_get o key) in
          let '(child', r) := set_json_path_value child parents v in
          (Object (obj_insert o key child'), r)
      end
  | Index index :: parents =>
      match current with
      | Array a =>
          match vec_get a index with
          | Some child =>
              let '(child', r) := set_json_path_value child parents v in
              (Array (vec_set a index child'), r)
          | None => (current, Err (err_out_of_range index))
          end
      | _ => (current, Err (err_not_array index))
      end
  end.

Definition set_json_path_from_str (root : value) (path : str) (v : value)
    : value * result unit str :=
  match parse_json_field_path path with
  | Ok segments => set_json_path_value root segments v
  | Err e => (root, Err e)
  end.

Fixpoint remove_json_path_value (current : value) (segments : list JsonPathSegment)
    : value * result unit str :=
  match segments with
  | [] => (current, Err (lit "body field path is empty"))
  | [Key key] =>
      match current with
      | Object o => (Object (obj_remove o key), Ok tt)
      | _ => (current,
              Err (lit "body field path parent for '" ++ key ++ lit "' is not an object"))
      end
  | [Index index] =>
      match current with
      | Array a =>
          if index <? len a then (Array (take (Z.to_nat index) a ++ drop (S (Z.to_nat index)) a), Ok tt)
          else (current, Err (err_out_of_range index))
      | _ => (current,
              Err (lit "body field path parent for index " ++ show index
                     ++ lit " is not an array"))
      end
  | Key key :: parents =>
      match current with
      | Object o =>
          match obj_get o key with
          | Some child =>
              let '(child', r) := remove_json_path_value child parents in
              (Object (obj_insert o key child'), r)
          | None => (current,
                     Err (lit "body field path parent '" ++ key ++ lit "' does not exist"))
          end
      | _ => (current,
              Err (lit "body field path parent '" ++ key ++ lit "' does not exist"))
      end
  | Index index :: parents =>
      match current with
      | Array a =>
          match vec_get a index with
          | Some child =>
              let '(child', r) := remove_json_path_value child parents in
              (Array (vec_set a index child'), r)
          | None => (current, Err (err_out_of_range index))
          end
      | _ => (current, Err (err_out_of_range index))
      end
  end.

(** ** Specification vocabulary *)

(** Keys of an object are distinct, at every level. *)
Inductive wf : value → Prop :=
  | wf_null : wf Null
  | wf_bool b : wf (Bool b)
  | wf_number n : wf (Number n)
  | wf_string s : wf (String s)
  | wf_array a : Forall wf a → wf (Array a)
  | wf_object o : NoDup (map fst o) → Forall (fun kv => wf kv.2) o → wf (Object o).

(** Indices produced by the parser are [usize] values. *)
Definition seg_ok (s : JsonPathSegment) : Prop :=
  match s with Index i => 0 <= i | Key _ => True end.

(** Two paths that part ways at some segment. *)
Fixpoint diverge (p q : list JsonPathSegment) : Prop :=
  match p, q with
  | s :: p, t :: q => s ≠ t ∨ diverge p q
  | _, _ => False
  end.

(** The concrete syntax of a path. *)
Definition show_segment (first : bool) (s : JsonPathSegment) : str :=
  match s with
  | Key k => if first then k else dot :: k
  | Index i => lbracket :: show i ++ [rbracket]
  end.

Definition show_path (p : list JsonPathSegment) : str :=
  match p with
  | [] => []
  | s :: p => show_segment true s ++ flat_map (show_segment false) p
  end.

Definition delimiter (b : byte) : bool := (b =? dot) || (b =? lbracket) || (b =? rbracket).
Definition key_ok (k : str) : Prop := k ≠ [] ∧ Forall (fun b => delimiter b = false) k.
Definition segment_printable (s : JsonPathSegment) : Prop :=
  match s with Key k => key_ok k | Index i => 0 <= i <= usize_max end.
End Json.

Arguments value : clear implicits.

(** ** Lemmas: objects and arrays *)

Section Lemmas.
Context {number : Type}.
Implicit Types (o : list (str * value number)) (v w : value number).

Lemma obj_get_insert o k v k' :
  obj_get (obj_insert o k v) k' = if bool_decide (k = k') then Some v else obj_get o k'.
Proof.
  induction o as [|[k0 v0] o IH]; simpl; [done|].
  destruct (bool_decide (k0 = k)) eqn:H0; breflect; simpl; [subst|].
  - by case_bool_decide.
  - rewrite IH. repeat case_bool_decide; congruence.
Qed.

Lemma obj_get_None o k : obj_get o k = None ↔ k ∉ map fst o.
Proof.
  induction o as [|[k0 v0] o IH]; simpl; [set_solver|].
  rewrite not_elem_of_cons, <- IH. case_bool_decide; naive_solver.
Qed.

Lemma obj_get_elem o k v : NoDup (map fst o) → obj_get o k = Some v ↔ (k, v) ∈ o.
Proof.
  induction o as [|[k0 v0] o IH]; simpl; [set_solver|].
  rewrite NoDup_cons. intros [Hn Hd]. rewrite elem_of_cons.
  case_bool_decide; subst.
  - split; [naive_solver|]. intros [?|Hin]; [naive_solver|].
    destruct Hn. apply list_elem_of_fmap. by exists (k, v).
  - rewrite IH by done. naive_solver.
Qed.

Lemma obj_insert_keys o k v :
  map fst (obj_insert o k v) = if bool_decide (k ∈ map fst o) then map fst o else map fst o ++ [k].
Proof.
  induction o as [|[k0 v0] o IH]; [done|]. cbn [obj_insert map fst].
  rewrite (bool_decide_ext (k ∈ _ :: _) (k0 = k ∨ k ∈ map fst o))
    by (rewrite elem_of_cons; naive_solver).
  destruct (bool_decide (k0 = k)) eqn:H0; breflect; cbn [map fst].
  - by rewrite bool_decide_eq_true_2 by auto.
  - rewrite IH, (bool_decide_ext (_ ∨ _) (k ∈ map fst o)) by naive_solver.
    by case_bool_decide.
Qed.

Lemma obj_insert_NoDup o k v : NoDup (map fst o) → NoDup (map fst (obj_insert o k v)).
Proof.
  intros Hd. rewrite obj_insert_keys. case_bool_decide; [done|].
  apply NoDup_app. split_and!; [done | set_solver | apply NoDup_singleton].
Qed.

Lemma obj_insert_Forall (P : value number → Prop) o k v :
  Forall (fun kv => P kv.2) o → P v → Forall (fun kv => P kv.2) (obj_insert o k v).
Proof.
  intros Ho Hv. induction o as [|[k0 v0] o IH]; simpl; [by repeat constructor|].
  apply List.Forall_cons_iff in Ho as [H0 Ho]. case_bool_decide; constructor; auto.
Qed.

(** [swap_remove] keeps the other entries (their order may change). *)
Lemma obj_remove_perm o k :
  NoDup (map fst o) → obj_remove o k ≡ₚ List.filter (fun kv => negb (bool_decide (kv.1 = k))) o.
Proof.
  induction o as [|[k0 v0] o IH]; simpl; [done|]. rewrite NoDup_cons. intros [Hn Hd].
  case_bool_decide as H0; simpl; [|by rewrite IH].
  subst. assert (List.filter (fun kv => negb (bool_decide (kv.1 = k))) o = o) as ->.
  { clear -Hn. induction o as [|[k1 v1] o IH]; simpl; [done|].
    rewrite bool_decide_eq_false_2 by set_solver. simpl. rewrite IH; set_solver. }
  destruct (last o) as [e|] eqn:Hl.
  - apply last_Some in Hl as [o' ->]. rewrite length_app. simpl.
    replace (length o' + 1 - 1)%nat with (length o') by lia.
    rewrite take_app_length. by rewrite Permutation_app_comm.
  - by apply last_None in Hl as ->.
Qed.

Lemma obj_get_perm o o' k :
  NoDup (map fst o) → o ≡ₚ o' → obj_get o k = obj_get o' k.
Proof.
  intros Hd Hp. assert (NoDup (map fst o')) as Hd' by (by rewrite <- Hp).
  apply option_eq. intros v. rewrite !obj_get_elem by done. by rewrite Hp.
Qed.

Lemma obj_get_filter o k k' :
  obj_get (List.filter (fun kv => negb (bool_decide (kv.1 = k))) o) k'
  = if bool_decide (k = k') then None else obj_get o k'.
Proof.
  induction o as [|[k0 v0] o IH]; simpl; [by case_bool_decide|].
  destruct (bool_decide (k0 = k)) eqn:H0; simpl; rewrite IH; breflect;
    repeat case_bool_decide; congruence.
Qed.

Lemma filter_keys_NoDup o (p : str * value number → bool) :
  NoDup (map fst o) → NoDup (map fst (List.filter p o)).
Proof.
  induction o as [|kv o IH]; simpl; [done|]. rewrite NoDup_cons. intros [Hn Hd].
  case_match; simpl; [|auto]. apply NoDup_cons. split; [|auto].
  intros Hin. apply Hn. apply list_elem_of_fmap in Hin as (x & -> & Hx).
  apply list_elem_of_fmap. exists x. split; [done|].
  by apply list_elem_of_In, List.filter_In in Hx as [Hx%list_elem_of_In _].
Qed.

Lemma obj_remove_NoDup o k : NoDup (map fst o) → NoDup (map fst (obj_remove o k)).
Proof. intros Hd. rewrite obj_remove_perm by done. by apply filter_keys_NoDup. Qed.

Lemma obj_get_remove o k k' :
  NoDup (map fst o) →
  obj_get (obj_remove o k) k' = if bool_decide (k = k') then None else obj_get o k'.
Proof.
  intros Hd. rewrite <- obj_get_filter.
  apply obj_get_perm; [by apply obj_remove_NoDup | by apply obj_remove_perm].
Qed.

Lemma vec_get_Some (a : list (value number)) i v :
  0 <= i → vec_get a i = Some v ↔ a !! Z.to_nat i = Some v.
Proof.
  intros Hi. unfold vec_get, len. destruct (_ <? _) eqn:H; breflect; [done|].
  rewrite lookup_ge_None_2 by lia. done.
Qed.

Lemma vec_get_lookup (a : list (value number)) i : 0 <= i → vec_get a i = a !! Z.to_nat i.
Proof. intros Hi. apply option_eq. intros v. by apply vec_get_Some. Qed.

Lemma vec_get_set (a : list (value number)) i v w j :
  0 <= i → 0 <= j → vec_get a i = Some w →
  vec_get (vec_set a i v) j = if bool_decide (i = j) then Some v else vec_get a j.
Proof.
  intros Hi Hj Hget. rewrite !vec_get_lookup in * by done. unfold vec_set.
  case_bool_decide; subst.
  - apply list_lookup_insert_eq. by eapply lookup_lt_Some.
  - apply list_lookup_insert_ne. lia.
Qed.

Lemma vec_get_push (a : list (value number)) v j :
  0 <= j → vec_get (a ++ [v]) j = if bool_decide (len a = j) then Some v else vec_get a j.
Proof.
  intros Hj. rewrite !vec_get_lookup by done. unfold len. case_bool_decide; subst.
  - rewrite lookup_app_r by lia. by replace (_ - _)%nat with 0%nat by lia.
  - destruct (decide (Z.to_nat j < length a)%nat).
    + by rewrite lookup_app_l.
    + rewrite !lookup_ge_None_2; [done | lia |]. rewrite length_app. simpl. lia.
Qed.

(** ** Lemmas: the path operations *)

Lemma as_container_get v o k :
  as_container v = Ok o →
  ∀ segs, match v with
          | Object o' => match obj_get o' k with
                         | Some x => get_json_path_value x segs
                         | None => None
                         end
          | _ => None
          end
        = match obj_get o k with
          | Some x => get_json_path_value x segs
          | None => None
          end.
Proof. destruct v; simpl; try done; by intros [= <-]. Qed.

(** A two-segment view of [set_json_path_value]: what happens to the child. *)
Lemma set_key_cons current key s segs v :
  set_json_path_value current (Key key :: s :: segs) v =
  match as_container current with
  | Err e => (current, Err e)
  | Ok o =>
      let '(child', r) :=
        set_json_path_value (default (Object []) (obj_get o key)) (s :: segs) v in
      (Object (obj_insert o key child'), r)
  end.
Proof. done. Qed.

Lemma set_index_cons current index s segs v :
  set_json_path_value current (Index index :: s :: segs) v =
  match current with
  | Array a =>
      match vec_get a index with
      | Some child =>
          let '(child', r) := set_json_path_value child (s :: segs) v in
          (Array (vec_set a index child'), r)
      | None => (current, Err (err_out_of_range index))
      end
  | _ => (current, Err (err_not_array index))
  end.
Proof. done. Qed.

Lemma set_get_lemma segs current v root' :
  Forall seg_ok segs →
  set_json_path_value current segs v = (root', Ok tt) →
  get_json_path_value root' segs = Some v.
Proof.
  revert current root'. induction segs as [|s segs IH]; intros current root' Hok; [done|].
  apply List.Forall_cons_iff in Hok as [Hs Hok].
  destruct segs as [|s' segs]; destruct s as [i|k].
  - simpl in *. destruct current; try done.
    destruct (i =? len a) eqn:Hi; breflect.
    + intros [= <-]. simpl. by rewrite vec_get_push, bool_decide_eq_true_2.
    + destruct (vec_get a i) eqn:Hg; [|done]. intros [= <-]. simpl.
      by rewrite (vec_get_set _ _ _ _ _ Hs Hs Hg), bool_decide_eq_true_2.
  - simpl. destruct (as_container current); [|done]. intros [= <-]. simpl.
    by rewrite obj_get_insert, bool_decide_eq_true_2.
  - rewrite set_index_cons. simpl in Hs. destruct current; try done.
    destruct (vec_get a i) eqn:Hg; [|done].
    destruct (set_json_path_value _ (s' :: segs) v) as [child' r] eqn:Hset.
    intros [= <- ->]. cbn [get_json_path_value].
    rewrite (vec_get_set _ _ _ _ _ Hs Hs Hg), bool_decide_eq_true_2 by done. by eapply IH.
  - rewrite set_key_cons. destruct (as_container current); [|done].
    destruct (set_json_path_value _ (s' :: segs) v) as [child' r] eqn:Hset.
    intros [= <- ->]. cbn [get_json_path_value].
    rewrite obj_get_insert, bool_decide_eq_true_2 by done. by eapply IH.
Qed.

Lemma diverge_nonempty p q : diverge p q → p ≠ [] ∧ q ≠ [].
Proof. by destruct p, q. Qed.

Lemma get_default_object (x : option (value number)) q :
  q ≠ [] →
  get_json_path_value (default (Object []) x) q
  = match x with Some y => get_json_path_value y q | None => None end.
Proof. intros Hq. destruct x; [done|]. destruct q as [|[|] q]; done. Qed.

(** Writing below a key: what a diverging path reads afterwards. *)
Lemma get_key_frame current o key child' p q :
  as_container current = Ok o → Forall seg_ok q → diverge (Key key :: p) q →
  (∀ q', Forall seg_ok q' → diverge p q' →
         get_json_path_value child' q'
         = get_json_path_value (default (Object []) (obj_get o key)) q') →
  get_json_path_value (Object (obj_insert o key child')) q = get_json_path_value current q.
Proof.
  intros Hc Hq Hd Hchild. destruct q as [|[i|k'] q]; [by destruct Hd| |].
  - destruct current; done.
  - simpl. rewrite (as_container_get _ _ k' Hc), obj_get_insert.
    case_bool_decide; [subst | done].
    apply List.Forall_cons_iff in Hq as [_ Hq].
    destruct Hd as [|Hd]; [done|]. rewrite Hchild by done.
    apply get_default_object. by eapply diverge_nonempty.
Qed.

Lemma get_index_frame (a : list (value number)) i child child' p q :
  0 <= i → Forall seg_ok q → vec_get a i = Some child → diverge (Index i :: p) q →
  (∀ q', Forall seg_ok q' → diverge p q' →
         get_json_path_value child' q' = get_json_path_value child q') →
  get_json_path_value (Array (vec_set a i child')) q = get_json_path_value (Array a) q.
Proof.
  intros Hi Hq Hg Hd Hchild. destruct q as [|[j|k'] q]; [by destruct Hd| |done].
  apply List.Forall_cons_iff in Hq as [Hj Hq]. simpl in *.
  rewrite (vec_get_set _ _ _ _ _ Hi Hj Hg). case_bool_decide; [subst | done].
  rewrite Hg. destruct Hd as [|Hd]; [done|]. by apply Hchild.
Qed.

Lemma set_frame_lemma p current v q :
  Forall seg_ok p → Forall seg_ok q → diverge p q →
  get_json_path_value (set_json_path_value current p v).1 q = get_json_path_value current q.
Proof.
  revert current q. induction p as [|s p IH]; intros current q Hp Hq Hd; [done|].
  apply List.Forall_cons_iff in Hp as [Hs Hp].
  destruct p as [|s' p]; destruct s as [i|k].
  - simpl. destruct current; try done.
    destruct (i =? len a) eqn:Hi; breflect; simpl in Hs.
    + destruct q as [|[j|k'] q]; [done| |done].
      apply List.Forall_cons_iff in Hq as [Hj Hq]. simpl in *. rewrite vec_get_push by done.
      case_bool_decide; [|done]. destruct Hd as [|[]]. congruence.
    + destruct (vec_get a i) eqn:Hg; [|done]. simpl.
      by eapply (get_index_frame _ _ _ _ []).
  - simpl. destruct (as_container current) eqn:Hc; [|done].
    by apply (get_key_frame _ _ _ _ []).
  - rewrite set_index_cons. simpl in Hs. destruct current; try done.
    destruct (vec_get a i) as [child|] eqn:Hg; [|done].
    destruct (set_json_path_value child (s' :: p) v) as [child' r] eqn:Hset. cbn [fst].
    eapply get_index_frame; [done..|]. intros q' Hq' Hd'.
    specialize (IH child q' Hp Hq' Hd'). by rewrite Hset in IH.
  - rewrite set_key_cons. destruct (as_container current) as [o|] eqn:Hc; [|done].
    destruct (set_json_path_value _ (s' :: p) v) as [child' r] eqn:Hset. cbn [fst].
    eapply get_key_frame; [done..|]. intros q' Hq' Hd'.
    specialize (IH (default (Object []) (obj_get o k)) q' Hp Hq' Hd').
    rewrite Hset in IH. exact IH.
Qed.

Lemma as_container_wf current o :
  wf current → as_container current = Ok o → NoDup (map fst o) ∧ Forall (fun kv => wf kv.2) o.
Proof.
  destruct current; simpl; try done; intros Hwf [= <-].
  - split; constructor.
  - by inversion Hwf.
Qed.

Lemma obj_get_Forall (P : value number → Prop) o k v :
  Forall (fun kv => P kv.2) o → obj_get o k = Some v → P v.
Proof.
  induction o as [|[k0 v0] o IH]; simpl; [done|].
  rewrite List.Forall_cons_iff. intros [H0 Ho]. case_bool_decide; [by intros [= <-] | auto].
Qed.

Lemma vec_get_Forall (P : value number → Prop) a i v :
  Forall P a → vec_get a i = Some v → P v.
Proof.
  unfold vec_get. intros Ha. case_match; [|done]. intros Hl.
  by eapply Forall_lookup_1.
Qed.

Lemma wf_object_insert o k v :
  NoDup (map fst o) → Forall (fun kv => wf kv.2) o → wf v → wf (Object (obj_insert o k v)).
Proof.
  intros Hd Ho Hv. constructor; [by apply obj_insert_NoDup | by apply obj_insert_Forall].
Qed.

Lemma wf_vec_set (a : list (value number)) i v : Forall wf a → wf v → wf (Array (vec_set a i v)).
Proof. intros Ha Hv. constructor. by apply Forall_insert. Qed.

Lemma set_wf_lemma p current v : wf current → wf v → wf (set_json_path_value current p v).1.
Proof.
  revert current. induction p as [|s p IH]; intros current Hc Hv; [done|].
  destruct p as [|s' p]; destruct s as [i|k].
  - simpl. destruct current; try done. inversion Hc; subst.
    case_match; [constructor; apply Forall_app; auto|].
    case_match; [by apply wf_vec_set | done].
  - simpl. destruct (as_container current) eqn:Ho; [|done].
    destruct (as_container_wf _ _ Hc Ho). by apply wf_object_insert.
  - rewrite set_index_cons. destruct current; try done. inversion Hc; subst.
    destruct (vec_get a i) as [child|] eqn:Hg; [|done].
    pose proof (IH child (vec_get_Forall _ _ _ _ H0 Hg) Hv) as Hwf.
    destruct (set_json_path_value child (s' :: p) v). by apply wf_vec_set.
  - rewrite set_key_cons. destruct (as_container current) as [o|] eqn:Ho; [|done].
    destruct (as_container_wf _ _ Hc Ho) as [Hd Hall].
    assert (wf (default (Object []) (obj_get o k))) as Hchild.
    { destruct (obj_get o k) eqn:Hg; [by eapply obj_get_Forall|]. repeat constructor. }
    pose proof (IH _ Hchild Hv) as Hwf.
    destruct (set_json_path_value _ (s' :: p) v). by apply wf_object_insert.
Qed.

Lemma remove_key_cons (current : value number) key s segs :
  remove_json_path_value current (Key key :: s :: segs) =
  match current with
  | Object o =>
      match obj_get o key with
      | Some child =>
          let '(child', r) := remove_json_path_value child (s :: segs) in
          (Object (obj_insert o key child'), r)
      | None => (current, Err (lit "body field path parent '" ++ key ++ lit "' does not exist"))
      end
  | _ => (current, Err (lit "body field path parent '" ++ key ++ lit "' does not exist"))
  end.
Proof. done. Qed.

Lemma remove_index_cons (current : value number) index s segs :
  remove_json_path_value current (Index index :: s :: segs) =
  match current with
  | Array a =>
      match vec_get a index with
      | Some child =>
          let '(child', r) := remove_json_path_value child (s :: segs) in
          (Array (vec_set a index child'), r)
      | None => (current, Err (err_out_of_range index))
      end
  | _ => (current, Err (err_out_of_range index))
  end.
Proof. done. Qed.

Lemma remove_wf_lemma p (current : value number) : wf current → wf (remove_json_path_value current p).1.
Proof.
  revert current. induction p as [|s p IH]; intros current Hc; [done|].
  destruct p as [|s' p]; destruct s as [i|k].
  - simpl. destruct current; try done. inversion Hc; subst. case_match; [|done].
    constructor. apply Forall_app. split; [by apply Forall_take | by apply Forall_drop].
  - simpl. destruct current; try done. inversion Hc; subst. constructor.
    + by apply obj_remove_NoDup.
    + rewrite obj_remove_perm by done. rewrite Forall_forall in *. intros x Hx.
      apply list_elem_of_In, List.filter_In in Hx as [Hx%list_elem_of_In _]. auto.
  - rewrite remove_index_cons. destruct current; try done. inversion Hc; subst.
    destruct (vec_get a i) as [child|] eqn:Hg; [|done].
    pose proof (IH child (vec_get_Forall _ _ _ _ H0 Hg)) as Hwf.
    destruct (remove_json_path_value child (s' :: p)). by apply wf_vec_set.
  - rewrite remove_key_cons. destruct current; try done. inversion Hc; subst.
    destruct (obj_get o k) as [child|] eqn:Hg; [|done].
    pose proof (IH child (obj_get_Forall _ _ _ _ H1 Hg)) as Hwf.
    destruct (remove_json_path_value child (s' :: p)). by apply wf_object_insert.
Qed.

(** Removing a key: the path is gone and diverging paths are untouched. *)
Lemma remove_key_lemma p k (current root' : value number) :
  Forall seg_ok p → wf current →
  remove_json_path_value current (p ++ [Key k]) = (root', Ok tt) →
  get_json_path_value root' (p ++ [Key k]) = None ∧
  ∀ q, Forall seg_ok q → diverge (p ++ [Key k]) q →
       get_json_path_value root' q = get_json_path_value current q.
Proof.
  revert current root'. induction p as [|s p IH]; intros current root' Hp Hc.
  - cbn [app remove_json_path_value]. destruct current; try done. intros [= <-].
    inversion Hc; subst. simpl. rewrite obj_get_remove, bool_decide_eq_true_2 by done.
    split; [done|]. intros [|[i|k'] q] _ Hd; [done|done|]. simpl.
    rewrite obj_get_remove by done. case_bool_decide; [|done].
    subst. destruct Hd as [|Hd]; [done|]. by destruct q.
  - apply List.Forall_cons_iff in Hp as [Hs Hp].
    destruct (p ++ [Key k]) as [|s' p'] eqn:Hpk; [by destruct p|]. destruct s as [i|k0].
    + cbn [app]. rewrite Hpk, remove_index_cons. destruct current; try done.
      destruct (vec_get a i) as [child|] eqn:Hg; [|done].
      destruct (remove_json_path_value child (s' :: p')) as [child' r] eqn:Hrem.
      intros [= <- ->]. inversion Hc; subst. simpl in Hs.
      destruct (IH child child' Hp (vec_get_Forall _ _ _ _ H0 Hg) Hrem) as [Hnone Hframe].
      split.
      * cbn [get_json_path_value].
        by rewrite (vec_get_set _ _ _ _ _ Hs Hs Hg), bool_decide_eq_true_2.
      * intros q Hq Hd. by eapply get_index_frame.
    + cbn [app]. rewrite Hpk, remove_key_cons. destruct current; try done.
      destruct (obj_get o k0) as [child|] eqn:Hg; [|done].
      destruct (remove_json_path_value child (s' :: p')) as [child' r] eqn:Hrem.
      intros [= <- ->]. inversion Hc; subst.
      destruct (IH child child' Hp (obj_get_Forall _ _ _ _ H1 Hg) Hrem) as [Hnone Hframe].
      split.
      * cbn [get_json_path_value]. by rewrite obj_get_insert, bool_decide_eq_true_2.
      * intros q Hq Hd. eapply get_key_frame; [done..|]. rewrite Hg. exact Hframe.
Qed.
End Lemmas.

(** A failed write loses no data: scalars stay where they were. *)
Definition is_scalar {number} (v : value number) : Prop :=
  match v with Bool _ | Number _ | String _ => True | _ => False end.

Lemma set_err_lemma {number} p (current root' v : value number) e q x :
  Forall seg_ok p → Forall seg_ok q →
  set_json_path_value current p v = (root', Err e) →
  is_scalar x → get_json_path_value current q = Some x → get_json_path_value root' q = Some x.
Proof.
  revert current root' q. induction p as [|s p IH]; intros current root' q Hp Hq.
  { by intros [= <-]. }
  apply List.Forall_cons_iff in Hp as [Hs Hp].
  destruct p as [|s' p]; destruct s as [i|k].
  - simpl. intros H. repeat case_match; simplify_eq; done.
  - simpl. intros H. repeat case_match; simplify_eq; done.
  - rewrite set_index_cons. destruct current as [| | | |a|]; try by intros [= <-].
    destruct (vec_get a i) as [child|] eqn:Hg; [|by intros [= <-]].
    destruct (set_json_path_value child (s' :: p) v) as [child' r] eqn:Hset.
    intros [= <- ->] Hx. destruct q as [|[j|k'] q]; [by intros [= <-]| |done].
    apply List.Forall_cons_iff in Hq as [Hj Hq]. simpl in Hs, Hj.
    cbn [get_json_path_value]. rewrite (vec_get_set _ _ _ _ _ Hs Hj Hg).
    case_bool_decide; [subst; rewrite Hg; by eapply IH | done].
  - rewrite set_key_cons. destruct (as_container current) as [o|] eqn:Hc; [|by intros [= <-]].
    destruct (set_json_path_value _ (s' :: p) v) as [child' r] eqn:Hset.
    intros [= <- ->] Hx. destruct q as [|[j|k'] q].
    + simpl. intros [= ->]. by destruct x.
    + simpl. by destruct current.
    + apply List.Forall_cons_iff in Hq as [_ Hq]. cbn [get_json_path_value].
      rewrite (as_container_get _ _ k' Hc), obj_get_insert.
      case_bool_decide; [subst | done].
      destruct (obj_get o k') as [child|]; [|done]. simpl in Hset. by eapply IH.
Qed.

(** ** Lemmas: the path scanner *)

Lemma split_once_length c s l r : split_once c s = Some (l, r) → (length r < length s)%nat.
Proof. intros [-> _]%split_once_Some. rewrite length_app. simpl. lia. Qed.

(** The scanner never runs out of fuel. *)
Lemma scan_fuel path f1 f2 segments key rest :
  (length rest < f1)%nat → (length rest < f2)%nat →
  scan_path path f1 segments key rest = scan_path path f2 segments key rest.
Proof.
  revert f2 segments key rest.
  induction f1 as [|f1 IH]; intros f2 segments key rest H1 H2; [lia|].
  destruct f2 as [|f2]; [lia|]. cbn [scan_path].
  destruct rest as [|c rest]; [done|]. simpl in H1, H2.
  case_match; [repeat case_match; try done; apply IH; lia|].
  case_match.
  - destruct (split_once rbracket rest) as [[raw rest']|] eqn:Hs; [|done].
    apply split_once_length in Hs. repeat case_match; try done; apply IH; lia.
  - case_match; [done|]. apply IH; lia.
Qed.

Lemma delimiter_false b :
  delimiter b = false → (b =? dot) = false ∧ (b =? lbracket) = false ∧ (b =? rbracket) = false.
Proof. unfold delimiter. rewrite !orb_false_iff. naive_solver. Qed.

(** A run of ordinary bytes is collected into the current key. *)
Lemma scan_key path k f segments key rest :
  Forall (fun b => delimiter b = false) k →
  scan_path path (length k + f) segments key (k ++ rest)
  = scan_path path f segments (key ++ k) rest.
Proof.
  revert key. induction k as [|b k IH]; intros key Hk; [by rewrite app_nil_r|].
  apply List.Forall_cons_iff in Hk as [Hb Hk].
  destruct (delimiter_false _ Hb) as (E1 & E2 & E3).
  cbn [app length Nat.add scan_path]. rewrite E1, E2, E3, IH by done.
  by rewrite <- app_assoc.
Qed.

Lemma scan_index path i f segments key rest :
  0 <= i <= usize_max →
  scan_path path (S f) segments key (lbracket :: (show i ++ [rbracket]) ++ rest)
  = scan_path path f (push_key segments key ++ [Index i]) [] rest.
Proof.
  intros Hi. cbn [scan_path]. change (lbracket =? dot) with false.
  change (lbracket =? lbracket) with true. cbv iota.
  assert (split_once rbracket ((show i ++ [rbracket]) ++ rest) = Some (show i, rest)) as ->.
  { apply split_once_Some. rewrite <- app_assoc. split; [done|]. intros Hin.
    pose proof (show_digits i) as Hd. rewrite Forall_forall in Hd.
    specialize (Hd ltac:(lia) _ Hin). done. }
  rewrite bool_decide_eq_false_2 by apply show_nonempty.
  rewrite parse_uint_show; [done | unfold usize_max, u64_max; lia | done].
Qed.

Lemma push_key_nonempty segments k : k ≠ [] → push_key segments k = segments ++ [Key k].
Proof. intros Hk. unfold push_key. by rewrite bool_decide_eq_false_2. Qed.

(** Scanning the printed form of [p], with a key pending or right after a
    completed segment. *)
Lemma scan_printed path p :
  Forall segment_printable p →
  (∀ f segments k, k ≠ [] → (length (flat_map (show_segment false) p) < f)%nat →
     scan_path path f segments k (flat_map (show_segment false) p)
     = Ok (segments ++ Key k :: p)) ∧
  (∀ f segments, segments ≠ [] → (length (flat_map (show_segment false) p) < f)%nat →
     scan_path path f segments [] (flat_map (show_segment false) p) = Ok (segments ++ p)).
Proof.
  induction p as [|s p IH]; intros Hp.
  - split.
    + intros [|f] segments k Hk Hf; [simpl in Hf; lia|]. simpl.
      rewrite push_key_nonempty by done. by destruct segments.
    + intros [|f] segments Hs Hf; [simpl in Hf; lia|]. simpl. rewrite app_nil_r.
      by destruct segments.
  - apply List.Forall_cons_iff in Hp as [Hs Hp]. destruct (IH Hp) as [IHA IHB].
    destruct s as [i|k2]; cbn [flat_map show_segment].
    + assert (∀ f segments key, (length ((lbracket :: show i ++ [rbracket])
                ++ flat_map (show_segment false) p) < f)%nat →
        scan_path path f segments key
          ((lbracket :: show i ++ [rbracket]) ++ flat_map (show_segment false) p)
        = Ok (push_key segments key ++ Index i :: p)) as Hgen.
      { intros [|f] segments key Hf; [lia|]. cbn [app]. rewrite scan_index by done.
        rewrite IHB; [by rewrite <- app_assoc | by destruct (push_key segments key) |].
        cbn [app length] in Hf. rewrite !length_app in Hf. simpl in Hf. lia. }
      split.
      * intros f segments k Hk Hf. rewrite Hgen, push_key_nonempty by done.
        by rewrite <- app_assoc.
      * intros f segments Hsegs Hf. by rewrite Hgen by done.
    + destruct Hs as [Hne Hk2].
      split.
      * intros [|f] segments k Hk Hf; [lia|]. cbn [app scan_path].
        change (dot =? dot) with true. cbv iota. rewrite bool_decide_eq_false_2 by done.
        cbn [app length] in Hf. rewrite length_app in Hf.
        rewrite (scan_fuel _ _ (length k2 + f)) by (rewrite length_app; lia).
        rewrite scan_key by done. cbn [app]. rewrite IHA by (done || lia).
        by rewrite <- app_assoc.
      * intros [|f] segments Hsegs Hf; [lia|]. cbn [app scan_path].
        change (dot =? dot) with true. cbv iota. rewrite bool_decide_eq_true_2 by done.
        rewrite bool_decide_eq_false_2 by done. cbn [orb].
        destruct k2 as [|b k2]; [done|]. cbn [app].
        pose proof (proj1 (List.Forall_cons_iff _ _ _) Hk2) as [Hb _].
        destruct (delimiter_false _ Hb) as (-> & _). cbv iota.
        cbn [app length] in Hf. rewrite app_comm_cons, length_app in *.
        rewrite (scan_fuel _ _ (length (b :: k2) + f)) by (rewrite length_app; simpl in *; lia).
        rewrite scan_key by done. cbn [app]. apply IHA; [done | simpl in *; lia].
Qed.

(** ** Properties *)

(** after a successful write, reading the same path gives the written
    value, including the [index == len] append and the auto-created parents. *)
Theorem set_json_path_get {number} (root root' v : value number) segments :
  Forall seg_ok segments →
  set_json_path_value root segments v = (root', Ok tt) →
  get_json_path_value root' segments = Some v.
Proof. apply set_get_lemma. Qed.

Lemma set_json_path_get_witness :
  get_json_path_value
    (set_json_path_value (Object [(lit "a", @Null Z)])
       [Key (lit "a"); Key (lit "b")] (Bool true)).1 [Key (lit "a"); Key (lit "b")]
  = Some (Bool true).
Proof.
  apply (set_json_path_get (Object [(lit "a", @Null Z)]) _ (Bool true));
    [repeat constructor | vm_compute; reflexivity].
Defined.

(** a write, successful or not, does not change what any path that parts
    ways with the written one reads. *)
Theorem set_json_path_frame {number} (root v : value number) p q :
  Forall seg_ok p → Forall seg_ok q → diverge p q →
  get_json_path_value (set_json_path_value root p v).1 q = get_json_path_value root q.
Proof. apply set_frame_lemma. Qed.

Lemma set_json_path_frame_witness :
  get_json_path_value
    (set_json_path_value (Array [@Bool Z true; Null]) [Index 1; Key (lit "k")] (Bool false)).1
    [Index 0] = Some (Bool true).
Proof.
  rewrite (set_json_path_frame _ _ [Index 1; Key (lit "k")] [Index 0]);
    [reflexivity | repeat constructor; simpl; lia | repeat constructor; simpl; lia
    | left; congruence].
Defined.

(** a failed write loses no data: every boolean, number or string of the
    document is still at its path. *)
Theorem set_json_path_error_preserves {number} (root root' v x : value number) p q e :
  Forall seg_ok p → Forall seg_ok q →
  set_json_path_value root p v = (root', Err e) →
  is_scalar x → get_json_path_value root q = Some x →
  get_json_path_value root' q = Some x.
Proof. apply set_err_lemma. Qed.

Lemma set_json_path_error_preserves_witness :
  get_json_path_value
    (set_json_path_value (Object [(lit "a", @Bool Z true)]) [Key (lit "a"); Key (lit "b")] Null).1
    [Key (lit "a")] = Some (Bool true).
Proof.
  eapply (set_json_path_error_preserves (Object [(lit "a", @Bool Z true)]) _ Null (Bool true)
           [Key (lit "a"); Key (lit "b")]);
    [repeat constructor | repeat constructor | vm_compute; reflexivity | exact I | reflexivity].
Defined.

(** writes and removals keep the keys of every object distinct. *)
Theorem json_path_ops_wf {number} (root v : value number) p :
  wf root → wf v →
  wf (set_json_path_value root p v).1 ∧ wf (remove_json_path_value root p).1.
Proof. intros. split; [by apply set_wf_lemma | by apply remove_wf_lemma]. Qed.

Lemma json_path_ops_wf_witness :
  wf (set_json_path_value (@Null Z) [Key (lit "a")] Null).1
  ∧ wf (remove_json_path_value (@Null Z) [Key (lit "a")]).1.
Proof. apply json_path_ops_wf; constructor. Defined.

(** after a successful removal of a key the path reads nothing, and every
    path that parts ways with it reads what it read before ([swap_remove] only
    changes the order of the entries). *)
Theorem remove_json_path_key {number} (root root' : value number) p k :
  Forall seg_ok p → wf root →
  remove_json_path_value root (p ++ [Key k]) = (root', Ok tt) →
  get_json_path_value root' (p ++ [Key k]) = None ∧
  ∀ q, Forall seg_ok q → diverge (p ++ [Key k]) q →
       get_json_path_value root' q = get_json_path_value root q.
Proof. apply remove_key_lemma. Qed.

Lemma remove_json_path_key_witness :
  get_json_path_value (Object [(lit "b", @Bool Z true)]) [Key (lit "a")] = None.
Proof.
  apply (remove_json_path_key
           (Object [(lit "a", Null); (lit "b", @Bool Z true)])
           (Object [(lit "b", @Bool Z true)]) [] (lit "a"));
    [constructor | | vm_compute; reflexivity].
  constructor; [|repeat constructor].
  apply NoDup_cons. split; [|apply NoDup_singleton].
  intros H%list_elem_of_singleton. vm_compute in H. congruence.
Defined.

(** parsing the concrete syntax [a.b[0].c] of a path gives the path back,
    with or without the optional leading [$.]. *)
Theorem parse_show_path p :
  p ≠ [] → Forall segment_printable p → trim (show_path p) = show_path p →
  starts_with (show_path p) (lit "$") = false →
  parse_json_field_path (show_path p) = Ok p.
Proof.
  intros Hne Hp Htrim Hdollar. unfold parse_json_field_path, normalize_path.
  rewrite Htrim. unfold strip_prefix. rewrite Hdollar.
  assert (starts_with (show_path p) (lit "$.") = false) as ->.
  { apply not_true_iff_false in Hdollar. apply not_true_iff_false.
    rewrite starts_with_spec. intros [t Ht]. apply Hdollar, starts_with_spec.
    by exists (dot :: t). }
  rewrite bool_decide_eq_false_2 by (intros Heq; by rewrite Heq in Hdollar).
  destruct p as [|s p]; [done|]. apply List.Forall_cons_iff in Hp as [Hs Hp].
  rewrite bool_decide_eq_false_2.
  2:{ destruct s as [i|k]; simpl; [done|]. destruct Hs as [Hk _]. by destruct k. }
  destruct (scan_printed (show_path (s :: p)) p Hp) as [IHA IHB].
  destruct s as [i|k]; cbn [show_path show_segment].
  - cbn [app length]. rewrite scan_index by done.
    rewrite IHB; [done|done|]. rewrite !length_app. simpl. lia.
  - destruct Hs as [Hk Hdel].
    rewrite (scan_fuel _ _ (length k + S (length (k ++ flat_map (show_segment false) p))))
      by lia.
    rewrite scan_key by done. cbn [app]. rewrite IHA; [done|done|].
    rewrite !length_app. lia.
Qed.

Lemma parse_show_path_witness :
  parse_json_field_path (lit "data.items[0].id")
  = Ok [Key (lit "data"); Key (lit "items"); Index 0; Key (lit "id")].
Proof.
  apply (parse_show_path [Key (lit "data"); Key (lit "items"); Index 0; Key (lit "id")]);
    [congruence | | vm_compute; reflexivity | vm_compute; reflexivity].
  repeat constructor; vm_compute; congruence.
Defined.

(** an empty segment between two keys is not rejected: [a..b] parses like
    [a.b], and a trailing dot after a key is dropped. *)
Theorem parse_tolerates_empty_segment path f k1 k2 :
  key_ok k1 → key_ok k2 → (length k1 + length k2 + 2 < f)%nat →
  scan_path path f [] [] (k1 ++ dot :: dot :: k2) = Ok [Key k1; Key k2] ∧
  scan_path path f [] [] (k1 ++ [dot]) = Ok [Key k1].
Proof.
  intros [Hk1 Hd1] [Hk2 Hd2] Hf. split.
  - rewrite (scan_fuel _ _ (length k1 + (S (S (length k2 + 1)))))
      by (rewrite length_app; simpl; lia).
    rewrite scan_key by done. cbn [app scan_path]. change (dot =? dot) with true. cbv iota.
    rewrite bool_decide_eq_false_2 by done. rewrite bool_decide_eq_true_2 by done.
    rewrite bool_decide_eq_false_2 by done. cbn [orb].
    destruct k2 as [|b k2]; [done|].
    pose proof (proj1 (List.Forall_cons_iff _ _ _) Hd2) as [Hb _].
    destruct (delimiter_false _ Hb) as (-> & _). cbv iota.
    rewrite <- (app_nil_r (b :: k2)) at 2. rewrite scan_key by done. done.
  - rewrite (scan_fuel _ _ (length k1 + 2)) by (rewrite length_app; simpl; lia).
    rewrite scan_key by done. cbn [app scan_path]. change (dot =? dot) with true. cbv iota.
    by rewrite bool_decide_eq_false_2.
Qed.

Lemma parse_tolerates_empty_segment_witness :
  scan_path (lit "a..b") 5 [] [] (lit "a..b") = Ok [Key (lit "a"); Key (lit "b")].
Proof.
  apply (parse_tolerates_empty_segment (lit "a..b") 5 (lit "a") (lit "b"));
    [split; [vm_compute; congruence | repeat constructor]
    | split; [vm_compute; congruence | repeat constructor] | simpl; lia].
Defined.
