(* ===== verification/Errors.v ===== *)
(** * Errors: the error type and the lifecycle deadlines of the proxy core
    (proxy-core/src/error.rs, proxy-core/src/timeouts.rs) *)

From S2P Require Import Prelude Str.

(** ** I/O errors (the [std::io::ErrorKind]s the proxy distinguishes) *)

Inductive ErrorKind :=
  | NotFound | ConnectionRefused | TimedOut | ConnectionReset | BrokenPipe
  | UnexpectedEof | InvalidData | InvalidInput | PermissionDenied | OtherKind.

#[export] Instance ErrorKind_eq_dec : EqDecision ErrorKind.
Proof. solve_decision. Defined.

Record io_error := { io_kind : ErrorKind; io_display : str }.

(** ** The error type *)

Inductive UpstreamFailureKind :=
  | Dns | ConnectRefused | ConnectTimeout | UpstreamTls | UpstreamReset
  | UpstreamTimeoutKind | OtherFailure.

#[export] Instance UpstreamFailureKind_eq_dec : EqDecision UpstreamFailureKind.
Proof. solve_decision. Defined.

Definition as_str (k : UpstreamFailureKind) : str :=
  match k with
  | Dns => lit "dns"
  | ConnectRefused => lit "connect_refused"
  | ConnectTimeout => lit "connect_timeout"
  | UpstreamTls => lit "upstream_tls"
  | UpstreamReset => lit "upstream_reset"
  | UpstreamTimeoutKind => lit "upstream_timeout"
  | OtherFailure => lit "other"
  end.

(** [ResponseBuildError] carries the rendered text of its [http::Error]. *)
Inductive ProxyError :=
  | UpstreamError (kind : UpstreamFailureKind) (message : str)
  | UpstreamTimeout (timeout_secs : Z)
  | TlsError (message : str)
  | RuleError (message : str)
  | BreakpointCancelled
  | RequestDropped
  | ScriptTimeout
  | IoError (error : io_error)
  | ResponseBuildError (display : str)
  | Other (message : str).

(** [Display] *)
Definition to_string (e : ProxyError) : str :=
  match e with
  | UpstreamError _ message => lit "upstream connection failed: " ++ message
  | UpstreamTimeout secs => lit "upstream did not respond within " ++ show secs ++ lit "s"
  | TlsError m => lit "TLS handshake failed: " ++ m
  | RuleError m => lit "rule application failed: " ++ m
  | BreakpointCancelled => lit "breakpoint cancelled"
  | RequestDropped => lit "request dropped by breakpoint"
  | ScriptTimeout => lit "script execution timeout"
  | IoError io => lit "IO error: " ++ io_display io
  | ResponseBuildError d => lit "failed to build HTTP response: " ++ d
  | Other m => m
  end.

Definition upstream (kind : UpstreamFailureKind) (message : str) : ProxyError :=
  UpstreamError kind message.

Definition upstream_from_io (message : str) (error : io_error) : ProxyError :=
  let kind :=
    match io_kind error with
    | NotFound => Dns
    | ConnectionRefused => ConnectRefused
    | TimedOut => ConnectTimeout
    | ConnectionReset | BrokenPipe | UnexpectedEof => UpstreamReset
    | InvalidData => UpstreamTls
    | _ => OtherFailure
    end in
  upstream kind (message ++ lit ": " ++ io_display error).

(** ** Deadlines, in seconds *)

Inductive TimeoutKind :=
  | ClientHeaderRead | ClientBodyRead | UpstreamRequest | ConnectTunnelConnect
  | TunnelIdle | BreakpointWait | WsCloseGrace | WsFrameIdle | WsFrameRead
  | ResponseBodyReadIdle | WsUpstreamBodyReadIdle | UpstreamProxyDial
  | UpstreamPoolIdle | UpstreamPoolH1LeaseWait | Http2KeepAliveInterval
  | Http2KeepAliveTimeout | UpstreamPoolEvictionInterval | UpstreamPoolEvictionMaxIdle.

Definition default_duration (k : TimeoutKind) : Z :=
  match k with
  | ClientHeaderRead => 30
  | ClientBodyRead => 120
  | UpstreamRequest => 120
  | ConnectTunnelConnect => 30
  | TunnelIdle => 10 * 60
  | BreakpointWait => 5 * 60
  | WsCloseGrace => 5
  | WsFrameIdle => 5 * 60
  | WsFrameRead => 30
  | ResponseBodyReadIdle => 30
  | WsUpstreamBodyReadIdle => 10
  | UpstreamProxyDial => 20
  | UpstreamPoolIdle => 60
  | UpstreamPoolH1LeaseWait => 5
  | Http2KeepAliveInterval => 30
  | Http2KeepAliveTimeout => 20
  | UpstreamPoolEvictionInterval => 60
  | UpstreamPoolEvictionMaxIdle => 120
  end.

Definition timeout (k : TimeoutKind) : Z := default_duration k.

Lemma timeout_positive k : 0 < timeout k.
Proof. by destruct k. Qed.
