(* ===== verification/WsFrame.v ===== *)
(** * WsFrame: the WebSocket frame codec (proxy-core/src/ws.rs, lines 1-430)

    The pure parsing step over a caller-owned buffer, the append-only read loop
    around it (a list of [read()] results, so that a cancelled attempt is a
    prefix of the list), and the frame writer as its sequence of [write_all]
    calls.  Bytes are [Z]; the random mask key is an argument. *)

From S2P Require Import Prelude Str Errors.

(** ** Definitions *)

Definition MAX_WS_FRAME_SIZE : Z := 16 * 1024 * 1024.
Definition WS_MASK_CHUNK_BYTES : Z := 16 * 1024.
Definition WS_FRAME_READ_CHUNK_BYTES : Z := 8 * 1024.

Definition WS_PROTOCOL_ERROR_MARKER : str := lit "ws protocol error:".

Definition ws_protocol_error (msg : str) : ProxyError :=
  Other (WS_PROTOCOL_ERROR_MARKER ++ lit " " ++ msg).

Definition is_clean_eof (err : ProxyError) : bool :=
  match err with
  | IoError io => bool_decide (io_kind io = UnexpectedEof)
  | _ => false
  end.

Definition is_ws_protocol_error (err : ProxyError) : bool :=
  match err with
  | Other msg => starts_with msg WS_PROTOCOL_ERROR_MARKER
  | _ => false
  end.

Inductive WsOpcode := Continuation | Text | Binary | Close | Ping | Pong.

#[export] Instance WsOpcode_eq_dec : EqDecision WsOpcode.
Proof. solve_decision. Defined.

(** [opcode as u8] *)
Definition opcode_u8 (o : WsOpcode) : Z :=
  match o with
  | Continuation => 0 | Text => 1 | Binary => 2 | Close => 8 | Ping => 9 | Pong => 10
  end.

Definition from_u8 (v : Z) : WsOpcode :=
  if v =? 0 then Continuation
  else if v =? 1 then Text
  else if v =? 2 then Binary
  else if v =? 8 then Close
  else if v =? 9 then Ping
  else if v =? 10 then Pong
  else Binary.

Definition opcode_label (o : WsOpcode) : str :=
  match o with
  | Continuation => lit "continuation"
  | Text => lit "text"
  | Binary => lit "binary"
  | Close => lit "close"
  | Ping => lit "ping"
  | Pong => lit "pong"
  end.

Definition is_control (o : WsOpcode) : bool :=
  match o with Close | Ping | Pong => true | _ => false end.

Record WsFrame := {
  fin : bool;
  opcode : WsOpcode;
  mask : bool;
  payload : bytes
}.

(** [uN::from_be_bytes] and [n.to_be_bytes()] *)
Definition from_be_bytes (l : bytes) : Z := fold_left (fun acc b => acc * 256 + b) l 0.

Fixpoint to_be_bytes (k : nat) (n : Z) : bytes :=
  match k with
  | O => []
  | S k => to_be_bytes k (n / 256) ++ [n mod 256]
  end.

(** [{b:02x}] *)
Definition hex_digit (d : Z) : byte := if d <? 10 then 48 + d else 87 + d.
Definition hex2 (b : Z) : str := [hex_digit (b / 16); hex_digit (b mod 16)].

(** [payload[i] ^= mask_key[i % 4]], the index starting at [i]. *)
Fixpoint xor_mask (key : bytes) (i : nat) (p : bytes) : bytes :=
  match p with
  | [] => []
  | b :: p => Z.lxor b (nth (i mod 4) key 0) :: xor_mask key (S i) p
  end.

(** *** Parsing *)

(** The two header bytes: FIN, opcode, MASK and the 7-bit length, with the
    checks of RFC 6455 sections 5.2 and 5.5. *)
Definition parse_head (b0 b1 : byte) : result (bool * WsOpcode * bool * Z) ProxyError :=
  let fin := negb (Z.land b0 128 =? 0) in
  let rsv_bits := Z.land b0 112 in
  if negb (rsv_bits =? 0) then
    Err (ws_protocol_error (lit "RSV bit(s) set (0x" ++ hex2 rsv_bits
                              ++ lit ") without negotiated extension"))
  else
    let opcode_raw := Z.land b0 15 in
    if ((3 <=? opcode_raw) && (opcode_raw <=? 7)) || ((11 <=? opcode_raw) && (opcode_raw <=? 15))
    then Err (ws_protocol_error (lit "frame uses reserved opcode " ++ show opcode_raw))
    else
      let opcode := from_u8 opcode_raw in
      let mask := negb (Z.land b1 128 =? 0) in
      let payload_len := Z.land b1 127 in
      if is_control opcode && negb fin then
        Err (ws_protocol_error (lit "control frame must not be fragmented (FIN=1 required)"))
      else if is_control opcode && (125 <? payload_len) then
        Err (ws_protocol_error (lit "control frame payload length " ++ show payload_len
                                  ++ lit " exceeds 125-byte limit"))
      else Ok (fin, opcode, mask, payload_len).

(** The extended payload length; [None] when the buffer is too short.  The
    second component is the offset after it. *)
Definition parse_length (buf : bytes) (payload_len : Z) : option (Z * nat) :=
  if payload_len =? 126 then
    if (length buf <? 2 + 2)%nat then None
    else Some (from_be_bytes (slice 2 4 buf), 4%nat)
  else if payload_len =? 127 then
    if (length buf <? 2 + 8)%nat then None
    else Some (from_be_bytes (slice 2 10 buf), 10%nat)
  else Some (payload_len, 2%nat).

Definition parse_mask_key (buf : bytes) (mask : bool) (offset : nat) : option (bytes * nat) :=
  if mask then
    if (length buf <? offset + 4)%nat then None
    else Some (slice offset (offset + 4) buf, (offset + 4)%nat)
  else Some ([0; 0; 0; 0], offset).

(** Everything after the [buf.len() < 2] test. *)
Definition parse_body (b0 b1 : byte) (buf : bytes)
    : result (option (WsFrame * nat)) ProxyError :=
  let? (fin, opcode, mask, payload_len) := parse_head b0 b1 in
  match parse_length buf payload_len with
  | None => Ok None
  | Some (payload_len, offset) =>
      if MAX_WS_FRAME_SIZE <? payload_len then
        Err (ws_protocol_error (lit "payload length " ++ show payload_len
               ++ lit " exceeds limit " ++ show MAX_WS_FRAME_SIZE))
      else
        match parse_mask_key buf mask offset with
        | None => Ok None
        | Some (mask_key, offset) =>
            if usize_max <? payload_len then
              Err (ws_protocol_error (lit "payload length does not fit in usize"))
            else if len buf <? Z.of_nat offset + payload_len then Ok None
            else
              let end_ := (offset + Z.to_nat payload_len)%nat in
              let payload := slice offset end_ buf in
              let payload := if mask then xor_mask mask_key 0 payload else payload in
              Ok (Some ({| fin := fin; opcode := opcode; mask := false;
                           payload := payload |}, end_))
        end
  end.

Definition try_parse_ws_frame (buf : bytes) : result (option (WsFrame * nat)) ProxyError :=
  match buf with
  | b0 :: b1 :: _ => parse_body b0 b1 buf
  | _ => Ok None
  end.

(** *** The read loop *)

(** The result of one [timeout(ceiling, reader.read(&mut chunk))]: some bytes
    ([[]] at end of stream), the deadline, or an I/O error. *)
Inductive ReadEvent :=
  | Read (chunk : bytes)
  | Elapsed
  | ReadError (e : io_error).

(** [Ready r] or, when no further [read()] has completed, [Pending]: the state
    in which [select!] may drop the future. *)
Inductive Poll A := Ready (a : A) | Pending.
Arguments Ready {A} a.
Arguments Pending {A}.

Definition eof_error : io_error :=
  {| io_kind := UnexpectedEof; io_display := lit "ws stream ended" |}.

Definition read_timeout_error (buf : bytes) : ProxyError :=
  match buf with
  | [] => Other (lit "ws frame idle timed out (" ++ show (timeout WsFrameIdle)
                   ++ lit "s between frames)")
  | _ => Other (lit "ws frame read timed out (" ++ show (timeout WsFrameRead) ++ lit "s)")
  end.

(** Returns the outcome, the caller's buffer and the [read()] results not
    consumed. *)
Fixpoint read_ws_frame (buf : bytes) (reader : list ReadEvent)
    : Poll (result WsFrame ProxyError) * bytes * list ReadEvent :=
  match try_parse_ws_frame buf with
  | Err e => (Ready (Err e), buf, reader)
  | Ok (Some (frame, used)) => (Ready (Ok frame), drop used buf, reader)
  | Ok None =>
      match reader with
      | [] => (Pending, buf, [])
      | Elapsed :: reader => (Ready (Err (read_timeout_error buf)), buf, reader)
      | ReadError e :: reader => (Ready (Err (IoError e)), buf, reader)
      | Read [] :: reader => (Ready (Err (IoError eof_error)), buf, reader)
      | Read chunk :: reader => read_ws_frame (buf ++ chunk) reader
      end
  end.

Definition parse_ws_frame (reader : list ReadEvent)
    : Poll (result WsFrame ProxyError) * bytes * list ReadEvent := read_ws_frame [] reader.

(** *** Writing *)

(** The header bytes and the extended length, one list per [write_all]. *)
Definition head_writes (frame : WsFrame) (mask_output : bool) : list bytes :=
  let head0 := Z.lor (if fin frame then 128 else 0) (opcode_u8 (opcode frame)) in
  let payload_len := len (payload frame) in
  let mask_bit := if mask_output then 128 else 0 in
  if payload_len <? 126 then [[head0; Z.lor mask_bit payload_len]]
  else if payload_len <=? 65535 then
    [[head0; Z.lor mask_bit 126]; to_be_bytes 2 payload_len]
  else [[head0; Z.lor mask_bit 127]; to_be_bytes 8 payload_len].

(** The chunked masking loop: [chunk_len] bytes at a time from [offset]. *)
Fixpoint mask_writes (fuel : nat) (key : bytes) (chunk_len offset : nat) (p : bytes)
    : list bytes :=
  match fuel with
  | O => []
  | S fuel =>
      if (offset <? length p)%nat then
        let end_ := Nat.min (offset + chunk_len) (length p) in
        xor_mask key offset (slice offset end_ p) :: mask_writes fuel key chunk_len end_ p
      else []
  end.

Definition body_writes (frame : WsFrame) (mask_output : bool) (mask_key : bytes) : list bytes :=
  let p := payload frame in
  if mask_output then
    let chunk_len := Z.to_nat (Z.min WS_MASK_CHUNK_BYTES (Z.max (len p) 1)) in
    mask_key :: mask_writes (length p) mask_key chunk_len 0 p
  else [p].

Definition write_ws_frame (frame : WsFrame) (mask_output : bool) (mask_key : bytes) : list bytes :=
  head_writes frame mask_output ++ body_writes frame mask_output mask_key.

(** What the peer receives. *)
Definition encode_ws_frame (frame : WsFrame) (mask_output : bool) (mask_key : bytes) : bytes :=
  concat (write_ws_frame frame mask_output mask_key).

Definition forward_raw_frame := write_ws_frame.

Definition close_frame (code : Z) : WsFrame :=
  {| fin := true; opcode := Close; mask := false; payload := to_be_bytes 2 code |}.

(** A frame the peer's parser must accept. *)
Definition sendable (frame : WsFrame) : Prop :=
  len (payload frame) <= MAX_WS_FRAME_SIZE ∧
  (is_control (opcode frame) = true → fin frame = true ∧ len (payload frame) <= 125).

(** ** Lemmas: lists and bytes *)

Lemma slice_app_l {A} a b (l r : list A) :
  (b <= length l)%nat → slice a b (l ++ r) = slice a b l.
Proof.
  intros Hb. unfold slice. destruct (decide (a <= length l)%nat).
  - rewrite drop_app_le by done. apply take_app_le. rewrite length_drop. lia.
  - replace (b - a)%nat with 0%nat by lia. done.
Qed.

Lemma slice_middle {A} (a b c : list A) :
  slice (length a) (length a + length b) (a ++ b ++ c) = b.
Proof.
  unfold slice. rewrite drop_app_length. replace (_ + _ - _)%nat with (length b) by lia.
  apply take_app_length.
Qed.

Lemma length_xor_mask key i p : length (xor_mask key i p) = length p.
Proof. revert i. induction p as [|b p IH]; intros i; simpl; [done|]. by rewrite IH. Qed.

Lemma xor_mask_app key i p q :
  xor_mask key i (p ++ q) = xor_mask key i p ++ xor_mask key (i + length p) q.
Proof.
  revert i. induction p as [|b p IH]; intros i; cbn [xor_mask app length].
  - by rewrite Nat.add_0_r.
  - rewrite IH. by replace (S i + length p)%nat with (i + S (length p))%nat by lia.
Qed.

Lemma xor_mask_involutive key i p : xor_mask key i (xor_mask key i p) = p.
Proof.
  revert i. induction p as [|b p IH]; intros i; cbn [xor_mask]; [done|].
  by rewrite IH, Z.lxor_assoc, Z.lxor_nilpotent, Z.lxor_0_r.
Qed.

(** The chunked masking loop writes the masked payload. *)
Lemma concat_mask_writes fuel key c offset p :
  (1 <= c)%nat → (length p - offset <= fuel)%nat → (offset <= length p)%nat →
  concat (mask_writes fuel key c offset p) = xor_mask key offset (drop offset p).
Proof.
  intros Hc. revert offset. induction fuel as [|fuel IH]; intros offset Hf Ho; cbn [mask_writes].
  - by rewrite drop_ge by lia.
  - destruct (offset <? length p)%nat eqn:Hlt.
    + apply Nat.ltb_lt in Hlt. cbn [concat]. rewrite IH by lia.
      set (e := Nat.min (offset + c) (length p)).
      rewrite <- (take_drop (e - offset) (drop offset p)), xor_mask_app.
      rewrite drop_drop, length_take, length_drop.
      replace (offset + (e - offset))%nat with e by lia.
      replace (offset + Nat.min (e - offset) (length p - offset))%nat with e by lia. done.
    + apply Nat.ltb_ge in Hlt. by rewrite drop_ge by lia.
Qed.

Lemma length_to_be_bytes k n : length (to_be_bytes k n) = k.
Proof. revert n. induction k as [|k IH]; intros n; simpl; [done|]. rewrite length_app, IH. simpl. lia. Qed.

Lemma from_to_be_bytes k n :
  0 <= n < 256 ^ Z.of_nat k → from_be_bytes (to_be_bytes k n) = n.
Proof.
  revert n. induction k as [|k IH]; intros n Hn.
  { change (256 ^ Z.of_nat 0) with 1 in Hn. change (0 = n). lia. }
  cbn [to_be_bytes]. unfold from_be_bytes in *. rewrite fold_left_app. cbn [fold_left].
  rewrite Nat2Z.inj_succ, Z.pow_succ_r in Hn by lia.
  rewrite IH; [pose proof (Z.div_mod n 256); lia|].
  split; [apply Z.div_pos; lia | apply Z.div_lt_upper_bound; lia].
Qed.

(** ** Lemmas: parsing a longer buffer *)

Lemma parse_length_app buf r n x :
  parse_length buf n = Some x → parse_length (buf ++ r) n = Some x.
Proof.
  unfold parse_length. rewrite length_app. intros H.
  destruct (n =? 126); [|destruct (n =? 127); [|done]].
  all: destruct (length buf <? _)%nat eqn:E; [done|]; apply Nat.ltb_ge in E;
    rewrite (proj2 (Nat.ltb_ge _ _)) by lia; by rewrite slice_app_l by lia.
Qed.

Lemma parse_mask_key_app buf r m o x :
  parse_mask_key buf m o = Some x → parse_mask_key (buf ++ r) m o = Some x.
Proof.
  unfold parse_mask_key. rewrite length_app. intros H. destruct m; [|done].
  destruct (length buf <? _)%nat eqn:E; [done|]. apply Nat.ltb_ge in E.
  rewrite (proj2 (Nat.ltb_ge _ _)) by lia. by rewrite slice_app_l by lia.
Qed.

Lemma parse_length_bound buf n n' off :
  (2 <= length buf)%nat → parse_length buf n = Some (n', off) → (2 <= off <= length buf)%nat.
Proof.
  unfold parse_length. intros H2.
  destruct (n =? 126); [|destruct (n =? 127)]; [..|intros [= <- <-]; lia].
  all: destruct (length buf <? _)%nat eqn:E; [done|]; apply Nat.ltb_ge in E;
    intros [= <- <-]; lia.
Qed.

Lemma parse_mask_key_bound buf m off key off' :
  (off <= length buf)%nat → parse_mask_key buf m off = Some (key, off') →
  (off <= off' <= length buf)%nat.
Proof.
  unfold parse_mask_key. destruct m; [|intros ? [= <- <-]; lia].
  destruct (length buf <? _)%nat eqn:E; [done|]. apply Nat.ltb_ge in E. intros ? [= <- <-]. lia.
Qed.

(** Inversion of a successful parse. *)
Lemma parse_body_Some b0 b1 buf fr used :
  (2 <= length buf)%nat → parse_body b0 b1 buf = Ok (Some (fr, used)) →
  ∃ f o m n0 n off0 key off,
    parse_head b0 b1 = Ok (f, o, m, n0) ∧ parse_length buf n0 = Some (n, off0) ∧
    parse_mask_key buf m off0 = Some (key, off) ∧ n <= MAX_WS_FRAME_SIZE ∧
    used = (off + Z.to_nat n)%nat ∧ (2 <= off <= used)%nat ∧ (used <= length buf)%nat ∧
    fr = {| fin := f; opcode := o; mask := false;
            payload := if m then xor_mask key 0 (slice off used buf) else slice off used buf |}.
Proof.
  intros H2. unfold parse_body.
  destruct (parse_head b0 b1) as [[[[f o] m] n0]|] eqn:Hh; [|done]. cbn [rbind].
  destruct (parse_length buf n0) as [[n off0]|] eqn:Hl; [|done].
  destruct (MAX_WS_FRAME_SIZE <? n) eqn:Hmax; [done|].
  destruct (parse_mask_key buf m off0) as [[key off]|] eqn:Hk; [|done].
  destruct (usize_max <? n); [done|].
  destruct (len buf <? Z.of_nat off + n) eqn:Hlen; [done|]. breflect. intros [= <- <-].
  pose proof (parse_length_bound _ _ _ _ H2 Hl) as Hb.
  pose proof (parse_mask_key_bound _ _ _ _ _ (proj2 Hb) Hk). unfold len in Hlen.
  exists f, o, m, n0, n, off0, key, off. split_and!; try done; lia.
Qed.

Lemma parse_body_extend b0 b1 buf r res :
  (2 <= length buf)%nat → parse_body b0 b1 buf = res → res ≠ Ok None →
  parse_body b0 b1 (buf ++ r) = res.
Proof.
  intros H2 <- Hne. unfold parse_body in *.
  destruct (parse_head b0 b1) as [[[[f o] m] n]|]; [|done]. cbn [rbind] in *.
  destruct (parse_length buf n) as [[n' off]|] eqn:Hl; [|done].
  pose proof (parse_length_bound _ _ _ _ H2 Hl) as Hb.
  rewrite (parse_length_app _ r _ _ Hl). destruct (_ <? n'); [done|].
  destruct (parse_mask_key buf m off) as [[key off']|] eqn:Hk; [|done].
  pose proof (parse_mask_key_bound _ _ _ _ _ (proj2 Hb) Hk).
  rewrite (parse_mask_key_app _ r _ _ _ Hk). destruct (usize_max <? n'); [done|].
  destruct (len buf <? Z.of_nat off' + n') eqn:Hlen; [done|]. breflect.
  pose proof (len_nonneg r). rewrite len_app.
  rewrite (proj2 (Z.ltb_ge _ _)) by lia. rewrite slice_app_l; [done|].
  unfold len in Hlen. lia.
Qed.

(** A verdict does not change when more bytes arrive. *)
Lemma try_parse_extend buf r res :
  try_parse_ws_frame buf = res → res ≠ Ok None → try_parse_ws_frame (buf ++ r) = res.
Proof.
  destruct buf as [|b0 [|b1 t]]; [by intros <-..|]. apply parse_body_extend. simpl; lia.
Qed.

Lemma try_parse_used buf fr used :
  try_parse_ws_frame buf = Ok (Some (fr, used)) →
  (2 <= used <= length buf)%nat ∧ mask fr = false ∧ len (payload fr) <= MAX_WS_FRAME_SIZE.
Proof.
  destruct buf as [|b0 [|b1 t]]; [done..|]. cbn [try_parse_ws_frame].
  intros H. apply parse_body_Some in H; [|simpl; lia].
  destruct H as (f & o & m & n0 & n & off0 & key & off & _ & _ & _ & Hn & Hu & Ho & Hl & ->).
  split_and!; [lia|lia|done|]. cbn [payload]. unfold len.
  assert (length (slice off used (b0 :: b1 :: t)) <= Z.to_nat n)%nat.
  { unfold slice. rewrite length_take. lia. }
  assert (0 <= MAX_WS_FRAME_SIZE) by done.
  destruct m; rewrite ?length_xor_mask; lia.
Qed.

(** ** Lemmas: the read loop *)

(** A dropped attempt leaves the bytes it read in the caller's buffer: the next
    attempt continues where it stopped. *)
Lemma read_resume buf e1 e2 :
  let '(r, b, rest) := read_ws_frame buf e1 in
  read_ws_frame buf (e1 ++ e2) =
    match r with Pending => read_ws_frame b e2 | Ready _ => (r, b, rest ++ e2) end.
Proof.
  revert buf. induction e1 as [|ev e1 IH]; intros buf.
  - cbn [app]. cbn [read_ws_frame].
    destruct (try_parse_ws_frame buf) as [[[fr used]|]|e] eqn:Ht.
    + destruct e2; cbn [read_ws_frame]; by rewrite Ht.
    + done.
    + destruct e2; cbn [read_ws_frame]; by rewrite Ht.
  - cbn [app read_ws_frame]. destruct (try_parse_ws_frame buf) as [[[fr used]|]|e]; [done| |done].
    destruct ev as [[|c chunk]| |e]; try done. apply IH.
Qed.

(** The bytes of a sequence of successful reads. *)
Definition stream (chunks : list bytes) : bytes := concat chunks.

Lemma read_chunks buf chunks frame used :
  Forall (fun c => c ≠ []) chunks →
  try_parse_ws_frame (buf ++ stream chunks) = Ok (Some (frame, used)) →
  ∃ buf' rest, read_ws_frame buf (Read <$> chunks) = (Ready (Ok frame), buf', Read <$> rest) ∧
    buf' ++ stream rest = drop used (buf ++ stream chunks).
Proof.
  unfold stream. revert buf. induction chunks as [|c chunks IH]; intros buf Hne Hp; cbn [concat] in *.
  - rewrite app_nil_r in Hp |- *. exists (drop used buf), []. cbn. rewrite Hp. split; [done|].
    by rewrite app_nil_r.
  - apply List.Forall_cons_iff in Hne as [Hc Hne].
    destruct (try_parse_ws_frame buf) as [[[fr u]|]|e] eqn:Ht.
    + pose proof (try_parse_extend _ (c ++ concat chunks) _ Ht ltac:(done)) as Hx.
      rewrite Hx in Hp. simplify_eq. exists (drop used buf), (c :: chunks).
      cbn [fmap list_fmap read_ws_frame]. rewrite Ht. split; [done|]. cbn [concat].
      apply try_parse_used in Ht as [Hu _]. by rewrite drop_app_le by lia.
    + cbn [fmap list_fmap read_ws_frame]. rewrite Ht. destruct c as [|b c]; [done|].
      rewrite app_assoc in Hp |- *. by apply IH.
    + pose proof (try_parse_extend _ (c ++ concat chunks) _ Ht ltac:(done)) as Hx. congruence.
Qed.

Lemma read_chunks_error buf chunks e :
  Forall (fun c => c ≠ []) chunks → try_parse_ws_frame (buf ++ stream chunks) = Err e →
  ∃ buf' rest, read_ws_frame buf (Read <$> chunks) = (Ready (Err e), buf', Read <$> rest).
Proof.
  unfold stream. revert buf. induction chunks as [|c chunks IH]; intros buf Hne Hp; cbn [concat] in *.
  - rewrite app_nil_r in Hp. exists buf, []. cbn. by rewrite Hp.
  - apply List.Forall_cons_iff in Hne as [Hc Hne].
    destruct (try_parse_ws_frame buf) as [[[fr u]|]|e'] eqn:Ht.
    + pose proof (try_parse_extend _ (c ++ concat chunks) _ Ht ltac:(done)) as Hx. congruence.
    + cbn [fmap list_fmap read_ws_frame]. rewrite Ht. destruct c as [|b c]; [done|].
      rewrite app_assoc in Hp. by apply IH.
    + pose proof (try_parse_extend _ (c ++ concat chunks) _ Ht ltac:(done)) as Hx. assert (e' = e) as -> by congruence.
      exists buf, (c :: chunks). cbn [fmap list_fmap read_ws_frame]. by rewrite Ht.
Qed.

(** ** Lemmas: a written frame *)

Lemma lor_mask_bit (m : bool) n :
  0 <= n < 128 →
  negb (Z.land (Z.lor (if m then 128 else 0) n) 128 =? 0) = m ∧
  Z.land (Z.lor (if m then 128 else 0) n) 127 = n.
Proof.
  intros Hn.
  pose proof (byte_forall (fun b => (128 <=? b) ||
    (bool_decide (negb (Z.land (Z.lor (if m then 128 else 0) b) 128 =? 0) = m) &&
     (Z.land (Z.lor (if m then 128 else 0) b) 127 =? b)))) as H.
  specialize (H ltac:(destruct m; vm_compute; reflexivity) n ltac:(unfold is_byte; lia)).
  cbv beta in H. apply orb_true_iff in H as [H|H]; breflect; [lia | done].
Qed.

Lemma parse_written_head f o (m : bool) n :
  0 <= n < 128 → (is_control o = true → f = true ∧ n <= 125) →
  parse_head (Z.lor (if f then 128 else 0) (opcode_u8 o)) (Z.lor (if m then 128 else 0) n)
    = Ok (f, o, m, n).
Proof.
  intros Hn Hctl. destruct (lor_mask_bit m n Hn) as [Hm Hl]. unfold parse_head. rewrite Hm, Hl.
  destruct o; try (destruct f; reflexivity).
  all: destruct (Hctl eq_refl) as [-> H125].
  all: by rewrite (proj2 (Z.ltb_ge 125 n)) by lia.
Qed.

Lemma refuse_written_head f o (m : bool) n :
  0 <= n < 128 → is_control o = true → ¬ (f = true ∧ n <= 125) →
  ∃ e, parse_head (Z.lor (if f then 128 else 0) (opcode_u8 o)) (Z.lor (if m then 128 else 0) n) = Err e.
Proof.
  intros Hn Hc Hno. destruct (lor_mask_bit m n Hn) as [Hm Hl]. unfold parse_head. rewrite Hm, Hl.
  destruct o; try discriminate Hc; (destruct f; [|by eexists]).
  all: destruct (Z.ltb_spec 125 n); [by eexists|by destruct Hno].
Qed.

Lemma encode_eq fr m key :
  encode_ws_frame fr m key =
    concat (head_writes fr m) ++
    (if m then key ++ xor_mask key 0 (payload fr) else payload fr).
Proof.
  unfold encode_ws_frame, write_ws_frame. rewrite concat_app. f_equal. unfold body_writes.
  destruct m; cbn [concat]; [|by rewrite app_nil_r].
  f_equal. rewrite concat_mask_writes; [by rewrite drop_0 | | lia | lia].
  unfold WS_MASK_CHUNK_BYTES. pose proof (len_nonneg (payload fr)). lia.
Qed.

Lemma parse_ext_length k tag n a c r :
  k = 2%nat ∧ tag = 126 ∨ k = 8%nat ∧ tag = 127 → 0 <= n < 256 ^ Z.of_nat k →
  parse_length (a :: c :: to_be_bytes k n ++ r) tag
    = Some (n, (2 + length (to_be_bytes k n))%nat).
Proof.
  intros Hk Hn. unfold parse_length. cbn [length]. rewrite length_app, length_to_be_bytes.
  assert (from_be_bytes (slice 2 (2 + k) (a :: c :: to_be_bytes k n ++ r)) = n) as Hs.
  { change (slice 2 (2 + k) (a :: c :: to_be_bytes k n ++ r))
      with (slice 0 k (to_be_bytes k n ++ r)).
    rewrite slice_app_l by (by rewrite length_to_be_bytes).
    unfold slice. rewrite drop_0, take_ge by (rewrite length_to_be_bytes; lia).
    by apply from_to_be_bytes. }
  destruct Hk as [[-> ->] | [-> ->]].
  all: cbv [Z.eqb Pos.eqb]; rewrite (proj2 (Nat.ltb_ge _ _)) by lia.
  all: by rewrite <- Hs at 2.
Qed.

(** The written head: two bytes, and the extended length they announce. *)
Lemma head_writes_shape fr (m : bool) :
  len (payload fr) <= u64_max →
  ∃ ext n0, concat (head_writes fr m) =
      Z.lor (if fin fr then 128 else 0) (opcode_u8 (opcode fr)) :: Z.lor (if m then 128 else 0) n0 :: ext ∧
    0 <= n0 < 128 ∧ (n0 <= 125 ↔ len (payload fr) <= 125) ∧
    ∀ a c r, parse_length (a :: c :: ext ++ r) n0 = Some (len (payload fr), (2 + length ext)%nat).
Proof.
  intros Hmax. unfold head_writes. pose proof (len_nonneg (payload fr)) as H0. unfold u64_max in Hmax.
  destruct (len (payload fr) <? 126) eqn:H1; [|destruct (len (payload fr) <=? 65535) eqn:H2]; breflect.
  - exists [], (len (payload fr)). cbn [concat app]. split_and!; [done|lia|lia|lia|].
    intros a c r. unfold parse_length. by rewrite !(proj2 (Z.eqb_neq _ _)) by lia.
  - exists (to_be_bytes 2 (len (payload fr))), 126. cbn [concat]. rewrite app_nil_r.
    split_and!; [done|lia|lia|lia|].
    intros a c r. apply parse_ext_length; [by left|]. change (256 ^ Z.of_nat 2) with 65536. lia.
  - exists (to_be_bytes 8 (len (payload fr))), 127. cbn [concat]. rewrite app_nil_r.
    split_and!; [done|lia|lia|lia|].
    intros a c r. apply parse_ext_length; [by right|]. change (256 ^ Z.of_nat 8) with (2 ^ 64). lia.
Qed.

Lemma parse_mask_key_written pre (m : bool) key p rest :
  length key = 4%nat →
  parse_mask_key (pre ++ (if m then key ++ p else p) ++ rest) m (length pre)
    = Some (if m then key else [0; 0; 0; 0], (length pre + if m then 4 else 0)%nat).
Proof.
  intros Hk. unfold parse_mask_key. destruct m; [|by rewrite Nat.add_0_r].
  rewrite !length_app, Hk, (proj2 (Nat.ltb_ge _ _)) by lia.
  rewrite <- app_assoc. rewrite <- Hk at 1. by rewrite slice_middle.
Qed.

(** The bytes of a written frame followed by anything parse to the frame. *)
Lemma try_parse_encode fr (m : bool) key rest :
  sendable fr → length key = 4%nat →
  try_parse_ws_frame (encode_ws_frame fr m key ++ rest) =
    Ok (Some ({| fin := fin fr; opcode := opcode fr; mask := false; payload := payload fr |},
              length (encode_ws_frame fr m key))).
Proof.
  intros Hs Hk. rewrite encode_eq.
  destruct (head_writes_shape fr m) as (ext & n0 & Heq & Hn0 & Hsmall & Hlen).
  { destruct Hs as [Hmax _]. unfold MAX_WS_FRAME_SIZE, u64_max in *. lia. }
  assert (parse_head (Z.lor (if fin fr then 128 else 0) (opcode_u8 (opcode fr))) (Z.lor (if m then 128 else 0) n0)
    = Ok (fin fr, opcode fr, m, n0)) as Hhead.
  { apply parse_written_head; [done|]. intros Hc. destruct (proj2 Hs Hc). split; [done|by apply Hsmall]. }
  rewrite Heq. set (b0 := Z.lor (if fin fr then 128 else 0) _) in *. set (b1 := Z.lor (if m then 128 else 0) n0) in *.
  set (p := if m then xor_mask key 0 (payload fr) else payload fr).
  replace (if m then key ++ xor_mask key 0 (payload fr) else payload fr)
    with (if m then key ++ p else p) by (by destruct m).
  assert (length p = length (payload fr)) as Hp
    by (unfold p; destruct m; [apply length_xor_mask | done]).
  rewrite <- app_assoc. cbn [app try_parse_ws_frame].
  change (b0 :: b1 :: ext ++ ?x) with ((b0 :: b1 :: ext) ++ x).
  unfold parse_body. rewrite Hhead. cbn [rbind]. cbn [app]. rewrite Hlen.
  change (b0 :: b1 :: ext ++ ?x) with ((b0 :: b1 :: ext) ++ x).
  change (2 + length ext)%nat with (length (b0 :: b1 :: ext)).
  destruct Hs as (Hmax & _). rewrite (proj2 (Z.ltb_ge _ _)) by done.
  rewrite parse_mask_key_written by done.
  rewrite (proj2 (Z.ltb_ge usize_max _)) by (unfold MAX_WS_FRAME_SIZE, usize_max, u64_max in *; lia).
  set (h := b0 :: b1 :: ext) in *. unfold len in *. rewrite Nat2Z.id.
  assert (slice (length h + if m then 4 else 0)
     (length h + (if m then 4 else 0) + length (payload fr))
     (h ++ (if m then key ++ p else p) ++ rest) = p) as Hslice.
  { rewrite <- Hp, <- Hk. destruct m.
    - rewrite <- length_app, <- (app_assoc key), app_assoc. apply slice_middle.
    - rewrite Nat.add_0_r. apply slice_middle. }
  rewrite Hslice, (proj2 (Z.ltb_ge _ _)).
  2: { rewrite !length_app. destruct m; rewrite ?length_app; lia. }
  do 3 f_equal.
  - f_equal. unfold p. destruct m; [apply xor_mask_involutive | done].
  - rewrite length_app. destruct m; rewrite ?length_app; lia.
Qed.

(** A frame outside the limits is refused as soon as its head is there. *)
Lemma try_parse_unsendable fr (m : bool) key rest :
  ¬ sendable fr → len (payload fr) <= u64_max →
  ∃ e, try_parse_ws_frame (encode_ws_frame fr m key ++ rest) = Err e.
Proof.
  intros Hs Hmax. rewrite encode_eq. destruct (head_writes_shape fr m Hmax) as (ext & n0 & -> & Hn0 & Hsmall & Hlen).
  rewrite <- app_assoc. cbn [app try_parse_ws_frame]. unfold parse_body.
  destruct (decide (is_control (opcode fr) = true → fin fr = true ∧ n0 <= 125)) as [Hok|Hno].
  - rewrite parse_written_head by done. cbn [rbind]. rewrite Hlen.
    destruct (Z.ltb_spec MAX_WS_FRAME_SIZE (len (payload fr))) as [|Hle]; [by eexists|]. destruct Hs. split; [done|].
    intros Hc. destruct (Hok Hc). split; [done|by apply Hsmall].
  - destruct (is_control (opcode fr)) eqn:Hc; [|by destruct Hno].
    destruct (refuse_written_head (fin fr) (opcode fr) m n0 Hn0 Hc) as [e ->]; [intros ?; by apply Hno|]. by exists e.
Qed.

(** The errors the parser itself raises. *)
Lemma ws_protocol_error_tagged msg : is_ws_protocol_error (ws_protocol_error msg) = true.
Proof. apply starts_with_app. Qed.

Lemma parse_head_error b0 b1 e : parse_head b0 b1 = Err e → is_ws_protocol_error e = true.
Proof.
  unfold parse_head. cbv zeta.
  repeat (case_match; [intros [= <-]; apply ws_protocol_error_tagged|]). done.
Qed.

Lemma try_parse_error buf e : try_parse_ws_frame buf = Err e → is_ws_protocol_error e = true.
Proof.
  destruct buf as [|b0 [|b1 t]]; [done..|]. cbn [try_parse_ws_frame]. unfold parse_body.
  destruct (parse_head b0 b1) as [[[[f o] m] n]|] eqn:Hh; cbn [rbind].
  2: { intros [= <-]. by apply parse_head_error in Hh. }
  destruct (parse_length _ n) as [[n' off]|]; [|done].
  destruct (_ <? n'); [intros [= <-]; apply ws_protocol_error_tagged|].
  destruct (parse_mask_key _ m off) as [[key off']|]; [|done].
  destruct (_ <? n'); [intros [= <-]; apply ws_protocol_error_tagged|].
  by destruct (_ <? _).
Qed.

Lemma read_timeout_not_protocol buf : is_ws_protocol_error (read_timeout_error buf) = false.
Proof. by destruct buf. Qed.

Lemma parse_head_control b0 b1 f o m n :
  parse_head b0 b1 = Ok (f, o, m, n) → is_control o = true → f = true ∧ n <= 125.
Proof.
  unfold parse_head. cbv zeta.
  destruct (negb (Z.land b0 112 =? 0)); [done|]. destruct (_ || _); [done|].
  destruct (is_control _ && negb _) eqn:E1; [done|].
  destruct (is_control _ && (125 <? _)) eqn:E2; [done|].
  intros [= <- <- _ <-] Hc. rewrite Hc in E1, E2. cbn [andb] in *.
  apply negb_false_iff in E1. split; [done | by breflect].
Qed.

(** Every parsed frame obeys the limits of RFC 6455 that the writer relies on. *)
Lemma parsed_sendable buf fr used :
  try_parse_ws_frame buf = Ok (Some (fr, used)) → sendable fr.
Proof.
  intros H. pose proof (try_parse_used _ _ _ H) as (_ & _ & Hmax). split; [done|].
  destruct buf as [|b0 [|b1 t]]; [done..|]. cbn [try_parse_ws_frame] in H.
  apply parse_body_Some in H; [|simpl; lia].
  destruct H as (f & o & m & n0 & n & off0 & key & off & Hh & Hl & _ & _ & Hu & _ & _ & ->).
  cbn [opcode fin payload]. intros Hc. destruct (parse_head_control _ _ _ _ _ _ Hh Hc) as [-> H125].
  split; [done|]. unfold parse_length in Hl.
  rewrite !(proj2 (Z.eqb_neq n0 _)) in Hl by lia. simplify_eq.
  unfold len, slice. destruct m; rewrite ?length_xor_mask, length_take; lia.
Qed.

Lemma read_error_inv buf evs e b rest :
  read_ws_frame buf evs = (Ready (Err e), b, rest) →
  (try_parse_ws_frame b = Err e) ∨
  (try_parse_ws_frame b = Ok None ∧
   ((e = read_timeout_error b ∧ Elapsed ∈ evs) ∨ (∃ io, e = IoError io ∧ (ReadError io ∈ evs ∨ io = eof_error ∧ Read [] ∈ evs)))).
Proof.
  revert buf. induction evs as [|ev evs IH]; intros buf; cbn [read_ws_frame];
    destruct (try_parse_ws_frame buf) as [[[fr used]|]|e'] eqn:Ht; try done.
  1, 3: intros [= -> <- <-]; by left.
  destruct ev as [[|c chunk]| |io].
  - intros [= <- <- _]. right. split; [done|]. right. exists eof_error. set_solver.
  - intros H. apply IH in H. set_solver.
  - intros [= <- <- _]. right. split; [done|]. left. set_solver.
  - intros [= <- <- _]. right. split; [done|]. right. exists io. set_solver.
Qed.

(** ** Properties *)

(** C6: WebSocket framing round trip, exactly for the frames within the limits of the
    protocol (a payload of at most 16 MiB; a control frame is final and carries at
    most 125 bytes).  Whatever way the network splits the bytes that
    [write_ws_frame] sent (masked with any key or not): if the frame is within the
    limits, [read_ws_frame] returns it, and the bytes of the following frames stay,
    in order, in the caller's buffer and the unread chunks; if it is not, which
    the writer does not check, the reader reports a protocol error. *)
Theorem read_written_frame fr m key rest chunks :
  len (payload fr) <= u64_max → length key = 4%nat → Forall (fun c => c ≠ []) chunks →
  stream chunks = encode_ws_frame fr m key ++ rest →
  (sendable fr →
   ∃ buf unread,
     read_ws_frame [] (Read <$> chunks) =
       (Ready (Ok {| fin := fin fr; opcode := opcode fr; mask := false; payload := payload fr |}),
        buf, Read <$> unread) ∧
     buf ++ stream unread = rest) ∧
  (¬ sendable fr →
   ∃ e buf unread, read_ws_frame [] (Read <$> chunks) = (Ready (Err e), buf, Read <$> unread) ∧
     is_ws_protocol_error e = true).
Proof.
  intros Hmax Hk Hne Hst. split; intros Hs.
  - destruct (read_chunks [] chunks
      {| fin := fin fr; opcode := opcode fr; mask := false; payload := payload fr |}
      (length (encode_ws_frame fr m key)) Hne) as (buf & unread & Hr & Hb).
    + cbn [app]. rewrite Hst. by apply try_parse_encode.
    + exists buf, unread. split; [done|]. rewrite Hb. cbn [app]. by rewrite Hst, drop_app_length.
  - destruct (try_parse_unsendable fr m key rest Hs Hmax) as [e He]. rewrite <- Hst in He.
    destruct (read_chunks_error [] chunks e Hne He) as (buf & unread & Hr). exists e, buf, unread. split; [done|].
    by eapply try_parse_error.
Qed.

Lemma read_written_frame_witness :
  ∃ buf unread,
    read_ws_frame [] (Read <$> [[129]; [131; 1; 2; 3; 4; 105]; [107; 106; 9]]) =
      (Ready (Ok {| fin := true; opcode := Text; mask := false; payload := [104; 105; 105] |}),
       buf, Read <$> unread) ∧ buf ++ stream unread = [9].
Proof.
  apply (read_written_frame {| fin := true; opcode := Text; mask := true; payload := [104; 105; 105] |}
           true [1; 2; 3; 4] [9]).
  - vm_compute. discriminate.
  - reflexivity.
  - repeat constructor; done.
  - vm_compute. reflexivity.
  - split; [vm_compute; done | done].
Defined.

(** Cancellation safety of [read_ws_frame].  When [select!] drops an attempt
    after any prefix of the reads, the next attempt on the same caller-owned
    buffer behaves exactly as the uninterrupted read; an attempt that finished
    is not affected by what arrives later. *)
Theorem read_cancellation_safe buf before after :
  read_ws_frame buf (before ++ after) =
    match read_ws_frame buf before with
    | (Pending, partial, _) => read_ws_frame partial after
    | (Ready r, partial, unread) => (Ready r, partial, unread ++ after)
    end.
Proof.
  pose proof (read_resume buf before after) as H.
  destruct (read_ws_frame buf before) as [[[r|] b] u]; exact H.
Qed.

(** A forwarded frame is legal.  Every frame the parser accepts (from any
    input) re-encodes, for either direction, to bytes that a peer with the same
    parser reads back as the same frame and nothing else. *)
Theorem forwarded_frame_legal buf fr used m key :
  try_parse_ws_frame buf = Ok (Some (fr, used)) → length key = 4%nat →
  sendable fr ∧
  try_parse_ws_frame (concat (forward_raw_frame fr m key)) =
    Ok (Some (fr, length (concat (forward_raw_frame fr m key)))).
Proof.
  intros H Hk. pose proof (parsed_sendable _ _ _ H) as Hs. split; [done|].
  pose proof (try_parse_encode fr m key [] Hs Hk) as He. rewrite app_nil_r in He.
  unfold encode_ws_frame in He. unfold forward_raw_frame. rewrite He.
  apply try_parse_used in H as (_ & Hm & _). destruct fr. simpl in *. by subst.
Qed.

Lemma forwarded_frame_legal_witness :
  try_parse_ws_frame (concat (forward_raw_frame (close_frame 1002) true [1; 2; 3; 4])) =
    Ok (Some (close_frame 1002, 8%nat)).
Proof.
  apply (forwarded_frame_legal [136; 2; 3; 234; 7] (close_frame 1002) 4 true [1; 2; 3; 4]);
    vm_compute; reflexivity.
Defined.

(** Bounds of the parser.  Parsing never reads past the buffer, always makes
    progress, and never returns a payload over [MAX_WS_FRAME_SIZE] or a control
    frame that is fragmented or longer than 125 bytes. *)
Theorem try_parse_bounds buf fr used :
  try_parse_ws_frame buf = Ok (Some (fr, used)) →
  (2 <= used <= length buf)%nat ∧ len (payload fr) <= MAX_WS_FRAME_SIZE ∧
  (is_control (opcode fr) = true → fin fr = true ∧ len (payload fr) <= 125).
Proof.
  intros H. pose proof (try_parse_used _ _ _ H) as (Hu & _). by split; [|apply (parsed_sendable _ _ _ H)].
Qed.

Lemma try_parse_bounds_witness :
  (2 <= 5 <= length [2; 3; 1; 2; 3; 9])%nat ∧ len [1; 2; 3] <= MAX_WS_FRAME_SIZE ∧
  (is_control Binary = true → false = true ∧ len [1; 2; 3] <= 125).
Proof.
  apply (try_parse_bounds [2; 3; 1; 2; 3; 9]
    {| fin := false; opcode := Binary; mask := false; payload := [1; 2; 3] |} 5).
  vm_compute. reflexivity.
Defined.

(** Error classification of the read loop.  A failed read is tagged as a
    protocol error exactly when the parser rejected the buffered bytes; the
    deadline and the transport errors are never tagged, so only the former are
    answered with Close 1002. *)
Theorem read_error_classified buf evs e b unread :
  read_ws_frame buf evs = (Ready (Err e), b, unread) →
  (is_ws_protocol_error e = true ↔ try_parse_ws_frame b = Err e) ∧
  (is_ws_protocol_error e = false ↔
     try_parse_ws_frame b = Ok None ∧
     (e = read_timeout_error b ∨ ∃ io, e = IoError io ∧ (ReadError io ∈ evs ∨ io = eof_error))).
Proof.
  intros H. apply read_error_inv in H as [He|[Hn H]].
  - pose proof (try_parse_error _ _ He) as Ht. rewrite He, Ht. split; [done|].
    split; [done|]. intros [? _]. done.
  - assert (is_ws_protocol_error e = false) as Hf.
    { destruct H as [[-> _]|(io & -> & _)]; [apply read_timeout_not_protocol | done]. }
    rewrite Hf, Hn. split; [done|]. split; [|done]. intros _. split; [done|].
    destruct H as [[-> _]|(io & -> & [?|[-> _]])]; [by left | right; eauto | right; eauto].
Qed.

Lemma read_error_classified_witness :
  (is_ws_protocol_error (read_timeout_error [129]) = true ↔
     try_parse_ws_frame [129] = Err (read_timeout_error [129])) ∧
  (is_ws_protocol_error (read_timeout_error [129]) = false ↔
     try_parse_ws_frame [129] = Ok None ∧
     (read_timeout_error [129] = read_timeout_error [129] ∨
      ∃ io, read_timeout_error [129] = IoError io ∧
            (ReadError io ∈ [Read [129]; Elapsed] ∨ io = eof_error))).
Proof.
  apply (read_error_classified [] [Read [129]; Elapsed] (read_timeout_error [129]) [129] []).
  vm_compute. reflexivity.
Defined.
