(* ===== verification/WsRelay.v ===== *)
(** * WsRelay: reassembly, injection and the relay loop (proxy-core/src/ws.rs,
    lines 110-158 and 435-1101)

    The reassembler and the registry are functions on their state.  One
    iteration of the relay's [select!] loop is [relay_step]: the event says
    which arm won and what the environment answered (bytes read, write
    outcomes, clock, random mask key), and the step returns the new locals and
    the effects in order; [None] when the arm cannot win in that state. *)

From S2P Require Import Prelude Str Errors WsFrame.

(** ** Message reassembly *)

Definition MAX_REASSEMBLED_MESSAGE_BYTES : Z := 20 * 1024 * 1024.

Record WsMessageAssembler := {
  start_opcode : option WsOpcode;
  buffer : bytes;
  truncated : bool
}.

Definition new_assembler : WsMessageAssembler :=
  {| start_opcode := None; buffer := []; truncated := false |}.

Definition reset (a : WsMessageAssembler) : WsMessageAssembler := new_assembler.

Inductive WsDirection := ClientToServer | ServerToClient.

#[export] Instance WsDirection_eq_dec : EqDecision WsDirection.
Proof. solve_decision. Defined.

Definition direction_label (d : WsDirection) : str :=
  match d with
  | ClientToServer => lit "clientToServer"
  | ServerToClient => lit "serverToClient"
  end.

(** The fresh identifier and the clock reading of one message. *)
Record Stamp := { uuid : str; rfc3339 : str }.

Record WsMessageData := {
  msg_id : str;
  msg_session_id : str;
  msg_direction : str;
  msg_timestamp : str;
  msg_opcode : str;
  payload_text : option str;
  payload_size : Z;
  msg_fin : bool;
  msg_truncated : bool
}.

Definition build_ws_message_raw (st : Stamp) (session_id : str) (direction : WsDirection)
    (opcode : WsOpcode) (payload : bytes) (fin : bool) : WsMessageData :=
  let text :=
    if decide (opcode = Text) then from_utf8 payload
    else if decide (opcode = Close) then
      match payload with
      | [] => None
      | _ => if 2 <? len payload then from_utf8 (drop 2 payload) else None
      end
    else None in
  {| msg_id := uuid st; msg_session_id := session_id;
     msg_direction := direction_label direction; msg_timestamp := rfc3339 st;
     msg_opcode := opcode_label opcode; payload_text := text;
     payload_size := len payload; msg_fin := fin; msg_truncated := false |}.

Definition build_ws_message (st : Stamp) (session_id : str) (direction : WsDirection)
    (frame : WsFrame) : WsMessageData :=
  build_ws_message_raw st session_id direction (opcode frame) (payload frame) (fin frame).

Definition set_truncated (m : WsMessageData) (t : bool) : WsMessageData :=
  {| msg_id := msg_id m; msg_session_id := msg_session_id m; msg_direction := msg_direction m;
     msg_timestamp := msg_timestamp m; msg_opcode := msg_opcode m;
     payload_text := payload_text m; payload_size := payload_size m; msg_fin := msg_fin m;
     msg_truncated := t |}.

Definition assemble_ws_message (st : Stamp) (session_id : str) (direction : WsDirection)
    (frame : WsFrame) (a : WsMessageAssembler) : WsMessageData * WsMessageAssembler :=
  let single := build_ws_message st session_id direction frame in
  if is_control (opcode frame) then (single, a)
  else
    match opcode frame with
    | Text | Binary =>
        match start_opcode a with
        | Some _ => (single, reset a)
        | None =>
            if fin frame then (single, a)
            else if len (payload frame) <=? MAX_REASSEMBLED_MESSAGE_BYTES then
              (single, {| start_opcode := Some (opcode frame); buffer := payload frame;
                          truncated := truncated a |})
            else
              (single, {| start_opcode := Some (opcode frame); buffer := [];
                          truncated := true |})
        end
    | Continuation =>
        match start_opcode a with
        | None => (single, a)
        | Some start =>
            let a :=
              if truncated a then a
              else if len (buffer a) + len (payload frame) <=? MAX_REASSEMBLED_MESSAGE_BYTES then
                {| start_opcode := Some start; buffer := buffer a ++ payload frame;
                   truncated := false |}
              else {| start_opcode := Some start; buffer := buffer a; truncated := true |} in
            if fin frame then
              (set_truncated
                 (build_ws_message_raw st session_id direction start (buffer a) true)
                 (truncated a), reset a)
            else (single, a)
        end
    | _ => (single, a)
    end.

(** ** Injection and the connection registry *)

Record WsInjectRequest := {
  req_direction : WsDirection;
  req_opcode : WsOpcode;
  req_payload : str;
  req_fin : bool
}.

Inductive WsConnectionStatus := Active | Closed.

#[export] Instance WsConnectionStatus_eq_dec : EqDecision WsConnectionStatus.
Proof. solve_decision. Defined.

Definition WS_INJECT_CHANNEL_CAPACITY : nat := 64.

(** A bounded [mpsc] channel: the queued requests, and whether the receiver is
    still alive.  The registry holds a handle (the channel's identity). *)
Record Channel := { queue : list WsInjectRequest; receiver_alive : bool; capacity : nat }.

Record WsConnectionEntry := { inject_sender : Z; status : WsConnectionStatus }.

(** The registry map and the store of the channels it points to. *)
Record Registry := {
  connections : gmap (list Z) WsConnectionEntry;
  channels : gmap Z Channel
}.

Definition with_connections (r : Registry) c : Registry :=
  {| connections := c; channels := channels r |}.

Definition register (r : Registry) (session_id : str) (sender : Z) : Registry :=
  with_connections r
    (<[session_id := {| inject_sender := sender; status := Active |}]> (connections r)).

Definition mark_closed (r : Registry) (session_id : str) : Registry :=
  match connections r !! session_id with
  | Some e =>
      with_connections r
        (<[session_id := {| inject_sender := inject_sender e; status := Closed |}]>
           (connections r))
  | None => r
  end.

Definition unregister (r : Registry) (session_id : str) : Registry :=
  with_connections r (delete session_id (connections r)).

Definition get_status (r : Registry) (session_id : str) : WsConnectionStatus :=
  match connections r !! session_id with Some e => status e | None => Closed end.

(** [try_send]: full and closed channels refuse the request. *)
Definition try_send (c : Channel) (req : WsInjectRequest) : result Channel str :=
  if negb (receiver_alive c) then Err (lit "channel closed")
  else if (capacity c <=? length (queue c))%nat then Err (lit "no available capacity")
  else Ok {| queue := queue c ++ [req]; receiver_alive := true; capacity := capacity c |}.

Definition inject (r : Registry) (session_id : str) (request : WsInjectRequest)
    : result Registry ProxyError :=
  match connections r !! session_id with
  | None => Err (Other (lit "WebSocket session " ++ session_id
                          ++ lit " is not active or does not exist"))
  | Some entry =>
      if negb (bool_decide (status entry = Active)) then
        Err (Other (lit "WebSocket session " ++ session_id ++ lit " is closed"))
      else
        match channels r !! inject_sender entry with
        | None => Err (Other (lit "Failed to inject frame: channel closed"))
        | Some c =>
            match try_send c request with
            | Ok c => Ok {| connections := connections r;
                            channels := <[inject_sender entry := c]> (channels r) |}
            | Err e => Err (Other (lit "Failed to inject frame: " ++ e))
            end
        end
  end.

(** ** The relay loop *)

(** The locals of [relay_websocket_frames]; [broken] is set by [break]. *)
Record Relay := {
  client_done : bool;
  upstream_done : bool;
  client_assembler : WsMessageAssembler;
  upstream_assembler : WsMessageAssembler;
  client_read_buf : bytes;
  upstream_read_buf : bytes;
  inject_closed : bool;
  close_grace_deadline : option Z;
  broken : bool
}.

Definition relay_init : Relay :=
  {| client_done := false; upstream_done := false; client_assembler := new_assembler;
     upstream_assembler := new_assembler; client_read_buf := []; upstream_read_buf := [];
     inject_closed := false; close_grace_deadline := None; broken := false |}.

Definition ended (s : Relay) : bool := broken s || (client_done s && upstream_done s).

(** The result of a [write_ws_frame]: everything was written, or an error
    struck after [n] bytes. *)
Inductive WriteOutcome := Written | WriteFailed (n : nat).

Definition write_ok (o : WriteOutcome) : bool :=
  match o with Written => true | WriteFailed _ => false end.

(** Which call site wrote a frame. *)
Inductive WriteKind := Forwarded | ViolationAnswer | Injected.

#[export] Instance WriteKind_eq_dec : EqDecision WriteKind.
Proof. solve_decision. Defined.

Inductive Action :=
  | WriteClient (k : WriteKind) (frame : WsFrame) (mask_output : bool) (key : bytes)
                (o : WriteOutcome)
  | WriteUpstream (k : WriteKind) (frame : WsFrame) (mask_output : bool) (key : bytes)
                  (o : WriteOutcome)
  | ShutdownClient
  | ShutdownUpstream
  | SendMessage (m : WsMessageData).

(** What the environment answers during one iteration. *)
Record Env := { now : Z; env_key : bytes; env_write : WriteOutcome; env_stamp : Stamp }.

Inductive Event :=
  | GraceExpired (t : Z)
  | PollClient (reads : list ReadEvent) (env : Env)
  | PollUpstream (reads : list ReadEvent) (env : Env)
  | InjectReady (req : option WsInjectRequest) (env : Env).

(** [if close_grace_deadline.is_none() { = Some(now + close_grace) }], in
    seconds. *)
Definition arm_grace (d : option Z) (t : Z) : option Z :=
  match d with Some d => Some d | None => Some (t + timeout WsCloseGrace) end.

(** The client arm: a pending read only moves bytes into the buffer. *)
Definition on_client (session_id : str) (s : Relay) (reads : list ReadEvent) (env : Env)
    : option (Relay * list Action) :=
  let '(r, buf, unread) := read_ws_frame (client_read_buf s) reads in
  let upd done asm ddl brk :=
    {| client_done := done; upstream_done := upstream_done s; client_assembler := asm;
       upstream_assembler := upstream_assembler s; client_read_buf := buf;
       upstream_read_buf := upstream_read_buf s; inject_closed := inject_closed s;
       close_grace_deadline := ddl; broken := brk |} in
  match unread, r with
  | _ :: _, _ => None
  | [], Pending => Some (upd false (client_assembler s) (close_grace_deadline s) false, [])
  | [], Ready (Ok frame) =>
      let '(msg, asm) :=
        assemble_ws_message (env_stamp env) session_id ClientToServer frame (client_assembler s) in
      if decide (opcode frame = Close) then
        Some (upd true asm (arm_grace (close_grace_deadline s) (now env)) false,
              [SendMessage msg;
               WriteUpstream Forwarded frame true (env_key env) (env_write env);
               ShutdownUpstream])
      else
        Some (upd false asm (close_grace_deadline s) (negb (write_ok (env_write env))),
              [SendMessage msg;
               WriteUpstream Forwarded frame true (env_key env) (env_write env)])
  | [], Ready (Err e) =>
      Some (upd true (client_assembler s) (arm_grace (close_grace_deadline s) (now env)) false,
            if is_ws_protocol_error e then
              [WriteClient ViolationAnswer (close_frame 1002) false (env_key env) (env_write env)]
            else [])
  end.

(** The upstream arm. *)
Definition on_upstream (session_id : str) (s : Relay) (reads : list ReadEvent) (env : Env)
    : option (Relay * list Action) :=
  let '(r, buf, unread) := read_ws_frame (upstream_read_buf s) reads in
  let upd done asm ddl brk :=
    {| client_done := client_done s; upstream_done := done;
       client_assembler := client_assembler s; upstream_assembler := asm;
       client_read_buf := client_read_buf s; upstream_read_buf := buf;
       inject_closed := inject_closed s; close_grace_deadline := ddl; broken := brk |} in
  match unread, r with
  | _ :: _, _ => None
  | [], Pending => Some (upd false (upstream_assembler s) (close_grace_deadline s) false, [])
  | [], Ready (Ok frame) =>
      let '(msg, asm) :=
        assemble_ws_message (env_stamp env) session_id ServerToClient frame
          (upstream_assembler s) in
      if decide (opcode frame = Close) then
        Some (upd true asm (arm_grace (close_grace_deadline s) (now env)) false,
              [SendMessage msg;
               WriteClient Forwarded frame false (env_key env) (env_write env);
               ShutdownClient])
      else
        Some (upd false asm (close_grace_deadline s) (negb (write_ok (env_write env))),
              [SendMessage msg;
               WriteClient Forwarded frame false (env_key env) (env_write env)])
  | [], Ready (Err e) =>
      Some (upd true (upstream_assembler s) (arm_grace (close_grace_deadline s) (now env)) false,
            if is_ws_protocol_error e then
              [WriteUpstream ViolationAnswer (close_frame 1002) true (env_key env) (env_write env)]
            else [])
  end.

Definition with_flags (s : Relay) (inj brk : bool) : Relay :=
  {| client_done := client_done s; upstream_done := upstream_done s;
     client_assembler := client_assembler s; upstream_assembler := upstream_assembler s;
     client_read_buf := client_read_buf s; upstream_read_buf := upstream_read_buf s;
     inject_closed := inj; close_grace_deadline := close_grace_deadline s; broken := brk |}.

Definition inject_frame (req : WsInjectRequest) : WsFrame :=
  {| fin := req_fin req; opcode := req_opcode req; mask := false; payload := req_payload req |}.

(** The injection arm. *)
Definition on_inject (session_id : str) (s : Relay) (req : option WsInjectRequest) (env : Env)
    : Relay * list Action :=
  match req with
  | None => (with_flags s true false, [])
  | Some req =>
      let frame := inject_frame req in
      let write :=
        match req_direction req with
        | ClientToServer => WriteUpstream Injected frame true (env_key env) (env_write env)
        | ServerToClient => WriteClient Injected frame false (env_key env) (env_write env)
        end in
      if write_ok (env_write env) then
        (with_flags s (inject_closed s) false,
         [write; SendMessage (build_ws_message (env_stamp env) session_id (req_direction req) frame)])
      else (with_flags s (inject_closed s) true, [write])
  end.

(** One iteration of the loop. *)
Definition relay_step (session_id : str) (s : Relay) (ev : Event) : option (Relay * list Action) :=
  if ended s then None
  else
    match ev with
    | GraceExpired t =>
        match close_grace_deadline s with
        | Some d => if d <=? t then Some (with_flags s (inject_closed s) true, []) else None
        | None => None
        end
    | PollClient reads env => if client_done s then None else on_client session_id s reads env
    | PollUpstream reads env => if upstream_done s then None else on_upstream session_id s reads env
    | InjectReady req env => if inject_closed s then None else Some (on_inject session_id s req env)
    end.

(** The loop: a sequence of iterations. *)
Fixpoint relay_websocket_frames (session_id : str) (s : Relay) (evs : list Event)
    : option (Relay * list Action) :=
  match evs with
  | [] => Some (s, [])
  | ev :: evs =>
      match relay_step session_id s ev with
      | None => None
      | Some (s, acts) =>
          match relay_websocket_frames session_id s evs with
          | None => None
          | Some (s, acts') => Some (s, acts ++ acts')
          end
      end
  end.

(** Feeding a sequence of frames of one direction. *)
Fixpoint assemble_all (session_id : str) (d : WsDirection) (frames : list (Stamp * WsFrame))
    (a : WsMessageAssembler) : list WsMessageData * WsMessageAssembler :=
  match frames with
  | [] => ([], a)
  | (st, f) :: frames =>
      let '(m, a) := assemble_ws_message st session_id d f a in
      let '(ms, a) := assemble_all session_id d frames a in
      (m :: ms, a)
  end.

(** ** Lemmas: reassembly *)

(** [ps]: the payloads of the fragments seen since the start frame. *)
Definition asm_inv (ps : list bytes) (a : WsMessageAssembler) : Prop :=
  ∃ k, buffer a = concat (take k ps) ∧ len (buffer a) <= MAX_REASSEMBLED_MESSAGE_BYTES ∧
    if truncated a
    then MAX_REASSEMBLED_MESSAGE_BYTES < len (concat (take (S k) ps))
    else k = length ps.

Lemma take_snoc_le {A} k (l : list A) x : (k <= length l)%nat → take k (l ++ [x]) = take k l.
Proof. apply take_app_le. Qed.

Lemma len_concat_take_le {A} k (ps : list (list A)) : len (concat (take k ps)) <= len (concat ps).
Proof.
  rewrite <- (take_drop k ps) at 2. rewrite concat_app, len_app.
  pose proof (len_nonneg (concat (drop k ps))). lia.
Qed.

Lemma asm_inv_append ps a p o :
  asm_inv ps a →
  asm_inv (ps ++ [p])
    (if truncated a then a
     else if len (buffer a) + len p <=? MAX_REASSEMBLED_MESSAGE_BYTES then
       {| start_opcode := Some o; buffer := buffer a ++ p; truncated := false |}
     else {| start_opcode := Some o; buffer := buffer a; truncated := true |}).
Proof.
  intros (k & Hb & Hle & Ht). destruct (truncated a) eqn:Htr.
  - destruct (decide (S k <= length ps)%nat).
    + exists k. rewrite Htr, !take_snoc_le by lia. done.
    + rewrite take_ge in Ht by lia. rewrite Hb in Hle.
      exists k. rewrite Htr. split_and!; [|by rewrite Hb|].
      * destruct (decide (k <= length ps)%nat); [by rewrite take_snoc_le|].
        rewrite !take_ge in * by (rewrite ?length_app; simpl; lia). lia.
      * destruct (decide (k < length ps)%nat); [lia|]. rewrite (take_ge ps) in Hle by lia. lia.
  - subst k. rewrite take_ge in Hb by lia.
    destruct (_ <=? _) eqn:Hc; breflect.
    + exists (length (ps ++ [p])). cbn. rewrite take_ge, concat_app by lia. cbn.
      rewrite app_nil_r, Hb, len_app in *. split_and!; [done|lia|done].
    + exists (length ps). cbn. rewrite take_snoc_le, take_ge by lia.
      split_and!; [done|done|]. rewrite take_ge by (rewrite length_app; simpl; lia).
      rewrite concat_app. cbn. rewrite app_nil_r, <- Hb, len_app. done.
Qed.

(** The frames allowed between the start and the final fragment. *)
Definition interleaved (f : WsFrame) : Prop :=
  is_control (opcode f) = true ∨ (opcode f = Continuation ∧ fin f = false).

Definition fragment_payloads (fs : list (Stamp * WsFrame)) : list bytes :=
  payload <$> filter (fun f => opcode f = Continuation) (snd <$> fs).

Lemma assemble_control st sid d f a :
  is_control (opcode f) = true →
  assemble_ws_message st sid d f a = (build_ws_message st sid d f, a).
Proof. intros H. unfold assemble_ws_message. by rewrite H. Qed.

Lemma assemble_middle sid d fs ps a o :
  Forall (fun f => interleaved f.2) fs → start_opcode a = Some o → asm_inv ps a →
  ∃ a', assemble_all sid d fs a =
          ((fun f => build_ws_message f.1 sid d f.2) <$> fs, a') ∧
        start_opcode a' = Some o ∧ asm_inv (ps ++ fragment_payloads fs) a'.
Proof.
  revert ps a. induction fs as [|[st f] fs IH]; intros ps a Hall Ho Hinv.
  { exists a. cbn. by rewrite app_nil_r. }
  apply List.Forall_cons_iff in Hall as [Hf Hall]. cbn [assemble_all snd] in *.
  destruct Hf as [Hc|[Hop Hfin]].
  - rewrite assemble_control by done.
    destruct (IH ps a Hall Ho Hinv) as (a' & -> & Ho' & Hinv'). exists a'. split_and!; [done..|].
    unfold fragment_payloads in *. cbn. rewrite decide_False; [done|].
    intros Heq. by rewrite Heq in Hc.
  - unfold assemble_ws_message at 1. rewrite Hop, Hfin, Ho. cbn [is_control].
    pose proof (asm_inv_append ps a (payload f) o Hinv) as Hinv1.
    set (a1 := if truncated a then a else _) in *.
    assert (start_opcode a1 = Some o) as Ho1 by (unfold a1; repeat case_match; done).
    destruct (IH _ a1 Hall Ho1 Hinv1) as (a' & -> & Ho' & Hinv').
    exists a'. split_and!; [done..|]. unfold fragment_payloads in *. cbn.
    rewrite decide_True by done. cbn. by rewrite <- app_assoc in Hinv'.
Qed.

(** The start fragment of a message, from the idle state. *)
Lemma assemble_start st sid d o p :
  o = Text ∨ o = Binary →
  ∃ a, assemble_ws_message st sid d {| fin := false; opcode := o; mask := false; payload := p |}
         new_assembler
       = (build_ws_message st sid d {| fin := false; opcode := o; mask := false; payload := p |}, a)
     ∧ start_opcode a = Some o ∧ asm_inv [p] a.
Proof.
  intros Ho. unfold assemble_ws_message. cbn [opcode fin payload start_opcode new_assembler].
  assert (is_control o = false) as -> by (by destruct Ho as [-> | ->]).
  destruct (len p <=? MAX_REASSEMBLED_MESSAGE_BYTES) eqn:Hp; breflect.
  - eexists. split; [destruct Ho as [-> | ->]; done|]. split; [done|].
    exists 1%nat. cbn. by rewrite app_nil_r.
  - eexists. split; [destruct Ho as [-> | ->]; done|]. split; [done|].
    exists 0%nat. cbn. rewrite app_nil_r. done.
Qed.

Lemma asm_inv_total ps a :
  asm_inv ps a →
  buffer a `prefix_of` concat ps ∧ len (buffer a) <= MAX_REASSEMBLED_MESSAGE_BYTES ∧
  truncated a = bool_decide (MAX_REASSEMBLED_MESSAGE_BYTES < len (concat ps)) ∧
  (len (concat ps) <= MAX_REASSEMBLED_MESSAGE_BYTES → buffer a = concat ps).
Proof.
  intros (k & Hb & Hle & Ht). rewrite Hb. split_and!.
  - exists (concat (drop k ps)). by rewrite <- concat_app, take_drop.
  - by rewrite <- Hb.
  - destruct (truncated a).
    + rewrite bool_decide_true; [done|]. pose proof (len_concat_take_le (S k) ps). lia.
    + rewrite Hb, Ht, take_ge in Hle by lia. by rewrite bool_decide_false by lia.
  - destruct (truncated a); [|intros _; by rewrite Ht, take_ge by lia].
    pose proof (len_concat_take_le (S k) ps). lia.
Qed.

Lemma assemble_all_app sid d fs gs a :
  assemble_all sid d (fs ++ gs) a =
    let '(m1, a1) := assemble_all sid d fs a in
    let '(m2, a2) := assemble_all sid d gs a1 in (m1 ++ m2, a2).
Proof.
  revert a. induction fs as [|[st f] fs IH]; intros a; cbn [app assemble_all].
  - by destruct (assemble_all sid d gs a).
  - destruct (assemble_ws_message st sid d f a) as [m a1]. rewrite IH.
    destruct (assemble_all sid d fs a1) as [m1 a2].
    by destruct (assemble_all sid d gs a2).
Qed.

(** ** Lemmas: the byte stream of a direction *)

(** [Parses b fs rest]: the parser takes the frames [fs] off the front of [b]. *)
Inductive Parses : bytes → list WsFrame → bytes → Prop :=
  | Parses_nil b : Parses b [] b
  | Parses_cons b f used fs rest :
      try_parse_ws_frame b = Ok (Some (f, used)) → Parses (drop used b) fs rest →
      Parses b (f :: fs) rest.

Lemma Parses_extend b fs rest x : Parses b fs rest → Parses (b ++ x) fs (rest ++ x).
Proof.
  induction 1 as [b|b f used fs rest Ht _ IH]; [constructor|].
  eapply Parses_cons; [by eapply try_parse_extend|].
  apply try_parse_used in Ht as [Hu _]. by rewrite drop_app_le by lia.
Qed.

Lemma Parses_app b fs r gs r' : Parses b fs r → Parses r gs r' → Parses b (fs ++ gs) r'.
Proof. induction 1; intros; [done|]. cbn. econstructor; eauto. Qed.

Definition event_bytes (ev : ReadEvent) : bytes := match ev with Read c => c | _ => [] end.

Definition bytes_of (evs : list ReadEvent) : bytes := concat (event_bytes <$> evs).

Lemma read_bytes buf evs r b rest :
  read_ws_frame buf evs = (r, b, rest) →
  ∃ taken, evs = taken ++ rest ∧
    match r with
    | Ready (Ok f) => ∃ used, try_parse_ws_frame (buf ++ bytes_of taken) = Ok (Some (f, used)) ∧
                              b = drop used (buf ++ bytes_of taken)
    | _ => b = buf ++ bytes_of taken
    end.
Proof.
  revert buf. unfold bytes_of.
  induction evs as [|ev evs IH]; intros buf; cbn [read_ws_frame];
    destruct (try_parse_ws_frame buf) as [[[f used]|]|e] eqn:Ht.
  1, 2, 3, 4, 6: intros [= <- <- <-]; exists []; cbn; rewrite app_nil_r; eauto.
  destruct ev as [[|c chunk]| |e].
  1, 3, 4: intros [= <- <- <-]; eexists [_]; (split; [done|]); cbn; by rewrite !app_nil_r.
  intros H. destruct (IH _ H) as (taken & -> & Hr). exists (Read (c :: chunk) :: taken).
  split; [done|]. cbn [fmap list_fmap concat event_bytes]. by rewrite app_assoc.
Qed.

(** What the client, resp. the upstream, has sent in a run. *)
Definition client_bytes (evs : list Event) : bytes :=
  concat ((fun ev => match ev with PollClient r _ => bytes_of r | _ => [] end) <$> evs).
Definition upstream_bytes (evs : list Event) : bytes :=
  concat ((fun ev => match ev with PollUpstream r _ => bytes_of r | _ => [] end) <$> evs).

(** The frames written by one call site, and all frames written to a peer. *)
Definition written_up (k : WriteKind) (acts : list Action) : list WsFrame :=
  omap (fun a => match a with
                 | WriteUpstream k' f _ _ _ => if decide (k = k') then Some f else None
                 | _ => None
                 end) acts.
Definition written_down (k : WriteKind) (acts : list Action) : list WsFrame :=
  omap (fun a => match a with
                 | WriteClient k' f _ _ _ => if decide (k = k') then Some f else None
                 | _ => None
                 end) acts.

Lemma written_up_app k a b : written_up k (a ++ b) = written_up k a ++ written_up k b.
Proof. apply omap_app. Qed.

Lemma written_down_app k a b : written_down k (a ++ b) = written_down k a ++ written_down k b.
Proof. apply omap_app. Qed.

(** ** Lemmas: one step of the relay *)

Lemma relay_step_client sid s ev s' acts :
  relay_step sid s ev = Some (s', acts) →
  ∃ fs, Parses (client_read_buf s ++ client_bytes [ev]) fs (client_read_buf s') ∧
        written_up Forwarded acts = fs.
Proof.
  unfold relay_step, client_bytes. destruct (ended s); [done|]. cbn [fmap list_fmap concat].
  rewrite app_nil_r. destruct ev as [t|reads env|reads env|req env].
  - destruct (close_grace_deadline s) as [d|]; [|done]. destruct (d <=? t); [|done].
    intros [= <- <-]. exists []. rewrite app_nil_r. split; [constructor | done].
  - destruct (client_done s); [done|]. unfold on_client.
    destruct (read_ws_frame (client_read_buf s) reads) as [[r b] rest] eqn:Hr.
    apply read_bytes in Hr as (taken & -> & Hr). destruct rest; [|done]. rewrite app_nil_r.
    destruct r as [[f|e]|].
    + destruct Hr as (used & Ht & ->). destruct (assemble_ws_message _ _ _ _ _) as [m a].
      intros H. exists [f]. split; [|case_match; by injection H as <- <-].
      econstructor; [done|]. case_match; injection H as <- <-; constructor.
    + intros [= <- <-]. exists []. rewrite Hr. split; [constructor | by case_match].
    + intros [= <- <-]. exists []. rewrite Hr. split; [constructor | done].
  - destruct (upstream_done s); [done|]. unfold on_upstream.
    destruct (read_ws_frame (upstream_read_buf s) reads) as [[r b] rest] eqn:Hr.
    destruct rest; [|done]. rewrite app_nil_r. intros H. exists [].
    destruct r as [[f|e]|]; [destruct (assemble_ws_message _ _ _ _ _) as [m a]| |];
      repeat case_match; injection H as <- <-; split; (constructor || done).
  - destruct (inject_closed s); [done|]. intros [= H]. exists []. rewrite app_nil_r.
    unfold on_inject in H. repeat case_match; injection H as <- <-; split; (constructor || done).
Qed.

Lemma relay_step_upstream sid s ev s' acts :
  relay_step sid s ev = Some (s', acts) →
  ∃ fs, Parses (upstream_read_buf s ++ upstream_bytes [ev]) fs (upstream_read_buf s') ∧
        written_down Forwarded acts = fs.
Proof.
  unfold relay_step, upstream_bytes. destruct (ended s); [done|]. cbn [fmap list_fmap concat].
  rewrite app_nil_r. destruct ev as [t|reads env|reads env|req env].
  - destruct (close_grace_deadline s) as [d|]; [|done]. destruct (d <=? t); [|done].
    intros [= <- <-]. exists []. rewrite app_nil_r. split; [constructor | done].
  - destruct (client_done s); [done|]. unfold on_client.
    destruct (read_ws_frame (client_read_buf s) reads) as [[r b] rest] eqn:Hr.
    destruct rest; [|done]. rewrite app_nil_r. intros H. exists [].
    destruct r as [[f|e]|]; [destruct (assemble_ws_message _ _ _ _ _) as [m a]| |];
      repeat case_match; injection H as <- <-; split; (constructor || done).
  - destruct (upstream_done s); [done|]. unfold on_upstream.
    destruct (read_ws_frame (upstream_read_buf s) reads) as [[r b] rest] eqn:Hr.
    apply read_bytes in Hr as (taken & -> & Hr). destruct rest; [|done]. rewrite app_nil_r.
    destruct r as [[f|e]|].
    + destruct Hr as (used & Ht & ->). destruct (assemble_ws_message _ _ _ _ _) as [m a].
      intros H. exists [f]. split; [|case_match; by injection H as <- <-].
      econstructor; [done|]. case_match; injection H as <- <-; constructor.
    + intros [= <- <-]. exists []. rewrite Hr. split; [constructor | by case_match].
    + intros [= <- <-]. exists []. rewrite Hr. split; [constructor | done].
  - destruct (inject_closed s); [done|]. intros [= H]. exists []. rewrite app_nil_r.
    unfold on_inject in H. repeat case_match; injection H as <- <-; split; (constructor || done).
Qed.

(** Induction on a run: an invariant of the locals and the effects so far that
    every iteration preserves holds of the run. *)
Lemma relay_run_ind sid (P : list Event → Relay → list Action → Prop) s0 :
  P [] s0 [] →
  (∀ evs s acts ev s' acts', P evs s acts → relay_step sid s ev = Some (s', acts') →
     P (evs ++ [ev]) s' (acts ++ acts')) →
  ∀ evs s acts, relay_websocket_frames sid s0 evs = Some (s, acts) → P evs s acts.
Proof.
  intros H0 Hstep.
  assert (∀ evs pre s1 acts1 s acts, P pre s1 acts1 →
    relay_websocket_frames sid s1 evs = Some (s, acts) → P (pre ++ evs) s (acts1 ++ acts)) as Hgen.
  { induction evs as [|ev evs IH]; intros pre s1 acts1 s acts HP; cbn [relay_websocket_frames].
    - intros [= <- <-]. by rewrite !app_nil_r.
    - destruct (relay_step sid s1 ev) as [[s2 acts2]|] eqn:Hs; [|done].
      destruct (relay_websocket_frames sid s2 evs) as [[s3 acts3]|] eqn:Hr; [|done].
      intros [= <- <-]. rewrite app_assoc, (cons_middle ev), app_assoc. eauto. }
  intros evs s acts Hr. exact (Hgen evs [] s0 [] s acts H0 Hr).
Qed.

Lemma client_bytes_app a b : client_bytes (a ++ b) = client_bytes a ++ client_bytes b.
Proof. unfold client_bytes. by rewrite fmap_app, concat_app. Qed.

Lemma upstream_bytes_app a b : upstream_bytes (a ++ b) = upstream_bytes a ++ upstream_bytes b.
Proof. unfold upstream_bytes. by rewrite fmap_app, concat_app. Qed.

(** Bytes read so far parse to the frames forwarded so far, and the read buffer
    holds the rest. *)
Lemma relay_client_stream sid evs s acts :
  relay_websocket_frames sid relay_init evs = Some (s, acts) →
  Parses (client_bytes evs) (written_up Forwarded acts) (client_read_buf s).
Proof.
  revert evs s acts. apply relay_run_ind; [constructor|].
  intros evs s acts ev s' acts' IH Hs. apply relay_step_client in Hs as (fs & Hp & Hw).
  rewrite client_bytes_app, written_up_app, Hw.
  eapply Parses_app; [by apply Parses_extend | done].
Qed.

Lemma relay_upstream_stream sid evs s acts :
  relay_websocket_frames sid relay_init evs = Some (s, acts) →
  Parses (upstream_bytes evs) (written_down Forwarded acts) (upstream_read_buf s).
Proof.
  revert evs s acts. apply relay_run_ind; [constructor|].
  intros evs s acts ev s' acts' IH Hs. apply relay_step_upstream in Hs as (fs & Hp & Hw).
  rewrite upstream_bytes_app, written_down_app, Hw.
  eapply Parses_app; [by apply Parses_extend | done].
Qed.

(** A [Forall] over an explicit list. *)
Ltac forall_solve :=
  repeat first [apply List.Forall_nil | apply List.Forall_cons]; naive_solver.

(** The effects of one step, by event. *)
Lemma relay_step_actions sid s ev s' acts :
  relay_step sid s ev = Some (s', acts) →
  Forall (fun a => match a with
    | WriteUpstream k f m key _ => m = true ∧
        (k = Forwarded → sendable f ∧ mask f = false) ∧ (k = ViolationAnswer → f = close_frame 1002)
    | WriteClient k f m key _ => m = false ∧
        (k = Forwarded → sendable f ∧ mask f = false) ∧ (k = ViolationAnswer → f = close_frame 1002)
    | _ => True end) acts.
Proof.
  unfold relay_step. destruct (ended s); [done|].
  destruct ev as [t|reads env|reads env|req env]; intros H.
  - repeat case_match; by simplify_eq.
  - destruct (client_done s); [done|]. unfold on_client in H.
    destruct (read_ws_frame _ _) as [[r b] rest] eqn:Hr.
    apply read_bytes in Hr as (taken & _ & Hr). destruct rest; [|done].
    destruct r as [[f|e]|].
    + destruct Hr as (used & Ht & _). pose proof (proj1 (proj2 (try_parse_used _ _ _ Ht))).
      apply parsed_sendable in Ht.
      destruct (assemble_ws_message _ _ _ _ _) as [m a].
      case_match; simplify_eq; forall_solve.
    + injection H as <- <-. case_match; forall_solve.
    + by simplify_eq.
  - destruct (upstream_done s); [done|]. unfold on_upstream in H.
    destruct (read_ws_frame _ _) as [[r b] rest] eqn:Hr.
    apply read_bytes in Hr as (taken & _ & Hr). destruct rest; [|done].
    destruct r as [[f|e]|].
    + destruct Hr as (used & Ht & _). pose proof (proj1 (proj2 (try_parse_used _ _ _ Ht))).
      apply parsed_sendable in Ht.
      destruct (assemble_ws_message _ _ _ _ _) as [m a].
      case_match; simplify_eq; forall_solve.
    + injection H as <- <-. case_match; forall_solve.
    + by simplify_eq.
  - destruct (inject_closed s); [done|]. injection H as H. unfold on_inject in H.
    repeat case_match; simplify_eq; forall_solve.
Qed.

(** What a peer receives from the relay. *)
Definition sent (encoded : bytes) (o : WriteOutcome) : bytes :=
  match o with Written => encoded | WriteFailed n => take n encoded end.

Definition upstream_receives (acts : list Action) : bytes :=
  concat ((fun a => match a with
    | WriteUpstream _ f m key o => sent (encode_ws_frame f m key) o
    | _ => [] end) <$> acts).

Definition client_receives (acts : list Action) : bytes :=
  concat ((fun a => match a with
    | WriteClient _ f m key o => sent (encode_ws_frame f m key) o
    | _ => [] end) <$> acts).

Definition frames_up (acts : list Action) : list WsFrame :=
  omap (fun a => match a with WriteUpstream _ f _ _ _ => Some f | _ => None end) acts.
Definition frames_down (acts : list Action) : list WsFrame :=
  omap (fun a => match a with WriteClient _ f _ _ _ => Some f | _ => None end) acts.

(** A write that completed with a full mask key, of a frame the protocol allows. *)
Definition good_write (a : Action) : Prop :=
  match a with
  | WriteUpstream _ f _ key o | WriteClient _ f _ key o =>
      o = Written ∧ length key = 4%nat ∧ sendable f ∧ mask f = false
  | _ => True
  end.

Lemma Parses_encode f m key rest :
  length key = 4%nat → sendable f → mask f = false →
  Parses (encode_ws_frame f m key ++ rest) [f] rest.
Proof.
  intros Hk Hs Hm. eapply (Parses_cons _ _ (length (encode_ws_frame f m key))).
  - rewrite try_parse_encode by done. destruct f. simpl in Hm. by subst.
  - rewrite drop_app_length. constructor.
Qed.

Lemma upstream_view acts :
  Forall good_write acts → Parses (upstream_receives acts) (frames_up acts) [].
Proof.
  unfold upstream_receives. induction 1 as [|a acts Ha _ IH]; cbn; [constructor|].
  destruct a; try done. cbn in Ha. destruct Ha as (-> & Hk & Hs & Hm).
  eapply (Parses_app _ [frame]); [by apply Parses_encode | done].
Qed.

Lemma client_view acts :
  Forall good_write acts → Parses (client_receives acts) (frames_down acts) [].
Proof.
  unfold client_receives. induction 1 as [|a acts Ha _ IH]; cbn; [constructor|].
  destruct a; try done. cbn in Ha. destruct Ha as (-> & Hk & Hs & Hm).
  eapply (Parses_app _ [frame]); [by apply Parses_encode | done].
Qed.

(** The environment of a run: full mask keys, writes that succeed, and
    injected frames that respect the protocol. *)
Definition good_env (ev : Event) : Prop :=
  match ev with
  | GraceExpired _ => True
  | PollClient _ env | PollUpstream _ env => length (env_key env) = 4%nat ∧ env_write env = Written
  | InjectReady req env => length (env_key env) = 4%nat ∧ env_write env = Written ∧
      (∀ r, req = Some r → sendable (inject_frame r))
  end.

Lemma close_1002_sendable : sendable (close_frame 1002) ∧ mask (close_frame 1002) = false.
Proof. by vm_compute. Qed.

Lemma relay_step_good sid s ev s' acts :
  relay_step sid s ev = Some (s', acts) → good_env ev → Forall good_write acts.
Proof.
  pose proof close_1002_sendable as [Hc1 Hc2].
  unfold relay_step. destruct (ended s); [done|].
  destruct ev as [t|reads env|reads env|req env]; intros H Henv; cbn [good_env] in Henv.
  - repeat case_match; by simplify_eq.
  - destruct (client_done s); [done|]. unfold on_client in H.
    destruct (read_ws_frame _ _) as [[r b] rest] eqn:Hr.
    apply read_bytes in Hr as (taken & _ & Hr). destruct rest; [|done].
    destruct r as [[f|e]|].
    + destruct Hr as (used & Ht & _). pose proof (proj1 (proj2 (try_parse_used _ _ _ Ht))).
      apply parsed_sendable in Ht. destruct (assemble_ws_message _ _ _ _ _) as [m a].
      case_match; simplify_eq; forall_solve.
    + injection H as <- <-. case_match; forall_solve.
    + by simplify_eq.
  - destruct (upstream_done s); [done|]. unfold on_upstream in H.
    destruct (read_ws_frame _ _) as [[r b] rest] eqn:Hr.
    apply read_bytes in Hr as (taken & _ & Hr). destruct rest; [|done].
    destruct r as [[f|e]|].
    + destruct Hr as (used & Ht & _). pose proof (proj1 (proj2 (try_parse_used _ _ _ Ht))).
      apply parsed_sendable in Ht. destruct (assemble_ws_message _ _ _ _ _) as [m a].
      case_match; simplify_eq; forall_solve.
    + injection H as <- <-. case_match; forall_solve.
    + by simplify_eq.
  - destruct (inject_closed s); [done|]. injection H as H. unfold on_inject in H.
    destruct Henv as (Hk & Hw & Hreq). rewrite Hw in H.
    repeat case_match; simplify_eq; forall_solve.
Qed.

Lemma relay_run_good sid evs s acts :
  relay_websocket_frames sid relay_init evs = Some (s, acts) → Forall good_env evs →
  Forall good_write acts.
Proof.
  revert evs s acts. apply (relay_run_ind sid (fun evs s acts => Forall good_env evs → Forall good_write acts)).
  { intros _. constructor. }
  intros evs s acts ev s' acts' IH Hs Hall. apply Forall_app in Hall as [H1 H2].
  apply List.Forall_cons_iff in H2 as [H2 _].
  apply Forall_app. split; [by apply IH | by eapply relay_step_good].
Qed.

(** ** Lemmas: the close-grace deadline *)

Lemma relay_step_deadline sid s ev s' acts :
  relay_step sid s ev = Some (s', acts) →
  match close_grace_deadline s with
  | Some d => close_grace_deadline s' = Some d
  | None => close_grace_deadline s' = None ∧ client_done s' = client_done s ∧
              upstream_done s' = upstream_done s ∨
            ∃ reads env, (ev = PollClient reads env ∨ ev = PollUpstream reads env) ∧
              close_grace_deadline s' = Some (now env + timeout WsCloseGrace)
  end.
Proof.
  unfold relay_step. destruct (ended s); [done|].
  destruct ev as [t|reads env|reads env|req env]; intros H.
  - destruct (close_grace_deadline s) as [d|] eqn:Hd; [|done]. case_match; [|done].
    simplify_eq. exact Hd.
  - destruct (client_done s) eqn:Hdone; [done|]. unfold on_client in H.
    destruct (read_ws_frame _ _) as [[r b] rest]. destruct rest; [|done].
    destruct r as [[f|e]|]; [destruct (assemble_ws_message _ _ _ _ _) as [m a]; case_match| |];
      injection H as <- <-; cbn; destruct (close_grace_deadline s); cbn; try done;
      first [left; done | right; eauto 6].
  - destruct (upstream_done s) eqn:Hdone; [done|]. unfold on_upstream in H.
    destruct (read_ws_frame _ _) as [[r b] rest]. destruct rest; [|done].
    destruct r as [[f|e]|]; [destruct (assemble_ws_message _ _ _ _ _) as [m a]; case_match| |];
      injection H as <- <-; cbn; destruct (close_grace_deadline s); cbn; try done;
      first [left; done | right; eauto 6].
  - destruct (inject_closed s); [done|]. injection H as H. unfold on_inject in H.
    repeat case_match; simplify_eq; cbn; try done; by left.
Qed.

Lemma relay_run_deadline sid s evs s' acts d :
  relay_websocket_frames sid s evs = Some (s', acts) → close_grace_deadline s = Some d →
  close_grace_deadline s' = Some d.
Proof.
  intros Hr Hd. revert evs s' acts Hr.
  apply (relay_run_ind sid (fun _ s' _ => close_grace_deadline s' = Some d)); [done|].
  intros evs s1 acts1 ev s2 acts2 IH Hs. apply relay_step_deadline in Hs. by rewrite IH in Hs.
Qed.

Lemma relay_run_armed sid evs s acts :
  relay_websocket_frames sid relay_init evs = Some (s, acts) →
  client_done s || upstream_done s = true →
  ∃ reads env, (PollClient reads env ∈ evs ∨ PollUpstream reads env ∈ evs) ∧
    close_grace_deadline s = Some (now env + timeout WsCloseGrace).
Proof.
  intros Hr.
  assert (match close_grace_deadline s with
    | Some d => ∃ reads env, (PollClient reads env ∈ evs ∨ PollUpstream reads env ∈ evs) ∧
                d = now env + timeout WsCloseGrace
    | None => client_done s = false ∧ upstream_done s = false end) as Hinv.
  { revert evs s acts Hr. apply (relay_run_ind sid (fun evs s _ => match close_grace_deadline s with
      | Some d => ∃ reads env, (PollClient reads env ∈ evs ∨ PollUpstream reads env ∈ evs) ∧
                  d = now env + timeout WsCloseGrace
      | None => client_done s = false ∧ upstream_done s = false end)); [done|].
    intros evs s acts ev s' acts' IH Hs. apply relay_step_deadline in Hs.
    destruct (close_grace_deadline s) as [d|].
    - rewrite Hs. destruct IH as (reads & env & Hin & ->). exists reads, env. set_solver.
    - destruct Hs as [(-> & -> & ->)|(reads & env & Hev & ->)]; [done|].
      exists reads, env. split; [|done]. destruct Hev as [-> | ->]; set_solver. }
  destruct (close_grace_deadline s) as [d|].
  - intros _. destruct Hinv as (reads & env & Hin & ->). eauto.
  - destruct Hinv as [-> ->]. done.
Qed.

(** ** Lemmas: answers to protocol violations *)

Lemma read_error_buffer buf evs e b rest :
  read_ws_frame buf evs = (Ready (Err e), b, rest) → is_ws_protocol_error e = true →
  try_parse_ws_frame b = Err e.
Proof.
  intros H He. apply read_error_inv in H as [H|[_ H]]; [done|].
  destruct H as [[-> _]|(io & -> & _)]; [by rewrite read_timeout_not_protocol in He | done].
Qed.

Lemma relay_step_answer sid s ev s' acts :
  relay_step sid s ev = Some (s', acts) →
  (client_done s = true → client_done s' = true ∧ client_read_buf s' = client_read_buf s) ∧
  (written_down ViolationAnswer acts = [] ∨
   client_done s = false ∧ client_done s' = true ∧
   written_down ViolationAnswer acts = [close_frame 1002] ∧
   ∃ e, try_parse_ws_frame (client_read_buf s') = Err e).
Proof.
  unfold relay_step. destruct (ended s); [done|].
  destruct ev as [t|reads env|reads env|req env]; intros H.
  - repeat case_match; simplify_eq. split; [done | by left].
  - destruct (client_done s) eqn:Hdone; [done|]. split; [done|]. unfold on_client in H.
    destruct (read_ws_frame _ _) as [[r b] rest] eqn:Hr. destruct rest; [|done].
    destruct r as [[f|e]|]; [destruct (assemble_ws_message _ _ _ _ _) as [m a]; case_match;
      simplify_eq; by left| |simplify_eq; by left].
    injection H as <- <-. destruct (is_ws_protocol_error e) eqn:He; [|by left].
    right. split_and!; [done..|]. exists e. by eapply read_error_buffer.
  - destruct (upstream_done s); [done|]. unfold on_upstream in H.
    destruct (read_ws_frame _ _) as [[r b] rest]. destruct rest; [|done].
    destruct r as [[f|e]|]; [destruct (assemble_ws_message _ _ _ _ _) as [m a]; case_match| |];
      injection H as <- <-; (split; [done|]); left; try done. by case_match.
  - destruct (inject_closed s); [done|]. injection H as H. unfold on_inject in H.
    repeat case_match; simplify_eq; (split; [done|]); by left.
Qed.

Lemma relay_answers sid evs s acts :
  relay_websocket_frames sid relay_init evs = Some (s, acts) →
  written_down ViolationAnswer acts = [] ∨
  client_done s = true ∧ written_down ViolationAnswer acts = [close_frame 1002] ∧
  ∃ e, try_parse_ws_frame (client_read_buf s) = Err e.
Proof.
  revert evs s acts. apply (relay_run_ind sid (fun _ s acts => _)); [by left|].
  intros _ s acts ev s' acts' IH Hs. apply relay_step_answer in Hs as [Hkeep Hs].
  rewrite written_down_app. destruct IH as [->|(Hd & -> & e & He)].
  - destruct Hs as [->|(_ & Hd & -> & He)]; [by left | by right].
  - destruct (Hkeep Hd) as [Hd' ->]. destruct Hs as [->|(Hd0 & _)]; [|congruence].
    right. rewrite app_nil_r. eauto.
Qed.

(** ** Properties *)

(** Reassembly of a fragmented message.  From the idle state, a Text or
    Binary start fragment, any mix of continuations and interleaved control
    frames, and a final continuation give one capture per frame; the last one
    carries the start opcode and the concatenation of the fragments, cut to a
    prefix of at most 20 MiB and flagged [truncated] exactly when the message
    is longer than that; the reassembler is idle again. *)
Theorem assemble_fragmented sid d o st0 p0 middle st1 p1 :
  o = Text ∨ o = Binary → Forall (fun f => interleaved f.2) middle →
  let total := p0 ++ concat (fragment_payloads middle) ++ p1 in
  ∃ kept msgs,
    assemble_all sid d
      ((st0, {| fin := false; opcode := o; mask := false; payload := p0 |}) :: middle ++
       [(st1, {| fin := true; opcode := Continuation; mask := false; payload := p1 |})])
      new_assembler
    = (msgs ++ [set_truncated (build_ws_message_raw st1 sid d o kept true)
                  (bool_decide (MAX_REASSEMBLED_MESSAGE_BYTES < len total))], new_assembler) ∧
    length msgs = S (length middle) ∧ kept `prefix_of` total ∧
    len kept <= MAX_REASSEMBLED_MESSAGE_BYTES ∧
    (len total <= MAX_REASSEMBLED_MESSAGE_BYTES → kept = total).
Proof.
  intros Ho Hmid total. cbn [assemble_all].
  destruct (assemble_start st0 sid d o p0 Ho) as (a0 & -> & Ho0 & Hinv0).
  rewrite assemble_all_app.
  destruct (assemble_middle sid d middle [p0] a0 o Hmid Ho0 Hinv0) as (a1 & -> & Ho1 & Hinv1).
  cbn [assemble_all]. unfold assemble_ws_message. cbn [opcode is_control fin payload].
  rewrite Ho1. pose proof (asm_inv_append _ a1 p1 o Hinv1) as Hinv2.
  set (a2 := if truncated a1 then a1 else _) in *.
  apply asm_inv_total in Hinv2 as (Hpre & Hle & Htr & Hfull).
  rewrite concat_app in Hpre, Htr, Hfull. cbn [concat app] in Hpre, Htr, Hfull.
  rewrite app_nil_r, <- app_assoc in Hpre, Htr, Hfull. fold total in Hpre, Htr, Hfull.
  rewrite Htr. exists (buffer a2). eexists (_ :: _). split_and!; [reflexivity| |done..].
  cbn. by rewrite length_fmap.
Qed.

Lemma assemble_fragmented_witness :
  let st := {| uuid := []; rfc3339 := [] |} in
  let ping := {| fin := true; opcode := Ping; mask := false; payload := [1] |} in
  let total := [226; 130] ++ concat (fragment_payloads [(st, ping)]) ++ [172] in
  ∃ kept msgs,
    assemble_all [] ClientToServer
      ((st, {| fin := false; opcode := Text; mask := false; payload := [226; 130] |}) ::
       [(st, ping)] ++
       [(st, {| fin := true; opcode := Continuation; mask := false; payload := [172] |})])
      new_assembler
    = (msgs ++ [set_truncated (build_ws_message_raw st [] ClientToServer Text kept true)
                  (bool_decide (MAX_REASSEMBLED_MESSAGE_BYTES < len total))], new_assembler) ∧
    length msgs = 2%nat ∧ kept `prefix_of` total ∧ len kept <= MAX_REASSEMBLED_MESSAGE_BYTES ∧
    (len total <= MAX_REASSEMBLED_MESSAGE_BYTES → kept = total).
Proof.
  intros st ping total. apply (assemble_fragmented [] ClientToServer Text).
  - by left.
  - repeat constructor.
Defined.

(** C7: Fidelity of the relay.  Whatever the interleaving of the [select!] arms,
    the chunking of the reads and the cancelled attempts, the frames forwarded
    to the upstream are exactly the frames the client's bytes parse to, in
    order, with the unparsed rest in the client's read buffer; and the same
    from the upstream to the client. *)
Theorem relay_fidelity sid evs s acts :
  relay_websocket_frames sid relay_init evs = Some (s, acts) →
  Parses (client_bytes evs) (written_up Forwarded acts) (client_read_buf s) ∧
  Parses (upstream_bytes evs) (written_down Forwarded acts) (upstream_read_buf s).
Proof. split; [by eapply relay_client_stream | by eapply relay_upstream_stream]. Qed.

(** A run: half a masked Text frame, an upstream Close, then the other half. *)
Definition demo_env : Env :=
  {| now := 100; env_key := [1; 2; 3; 4]; env_write := Written;
     env_stamp := {| uuid := []; rfc3339 := [] |} |}.

Definition demo_events : list Event :=
  [PollClient [Read [129]] demo_env;
   PollUpstream [Read [136; 0]] demo_env;
   PollClient [Read [129; 0; 0; 0; 0; 104]] demo_env].

Definition demo_run : Relay * list Action :=
  Eval vm_compute in
    match relay_websocket_frames (lit "s") relay_init demo_events with
    | Some r => r
    | None => (relay_init, [])
    end.

Lemma relay_fidelity_witness :
  Parses (client_bytes demo_events) (written_up Forwarded (snd demo_run))
         (client_read_buf (fst demo_run)) ∧
  Parses (upstream_bytes demo_events) (written_down Forwarded (snd demo_run))
         (upstream_read_buf (fst demo_run)).
Proof. apply (relay_fidelity (lit "s")). vm_compute. reflexivity. Defined.

(** What the peers see.  With successful writes, full mask keys and injected
    frames within the protocol limits, the bytes each peer receives parse
    completely, to the frames written to it (forwarded, injected or the 1002
    answer) in order; every frame to the upstream is masked and none to the
    client is. *)
Theorem relay_peer_view sid evs s acts :
  relay_websocket_frames sid relay_init evs = Some (s, acts) → Forall good_env evs →
  Parses (upstream_receives acts) (frames_up acts) [] ∧
  Parses (client_receives acts) (frames_down acts) [] ∧
  (∀ k f m key o, WriteUpstream k f m key o ∈ acts → m = true) ∧
  (∀ k f m key o, WriteClient k f m key o ∈ acts → m = false).
Proof.
  intros Hr Henv. pose proof (relay_run_good _ _ _ _ Hr Henv) as Hg.
  split; [by apply upstream_view|]. split; [by apply client_view|].
  revert evs s acts Hr Henv Hg.
  cut (∀ evs s acts, relay_websocket_frames sid relay_init evs = Some (s, acts) →
    (∀ k f m key o, WriteUpstream k f m key o ∈ acts → m = true) ∧
    (∀ k f m key o, WriteClient k f m key o ∈ acts → m = false)); [by eauto|].
  apply relay_run_ind; [set_solver|].
  intros _ s acts ev s' acts' [IHu IHc] Hs. apply relay_step_actions in Hs.
  rewrite Forall_forall in Hs. split; intros k f m key o Hin; apply elem_of_app in Hin as [Hin|Hin].
  all: first [by eapply IHu | by eapply IHc | by apply Hs in Hin as [? _]].
Qed.

Lemma relay_peer_view_witness :
  Parses (upstream_receives (snd demo_run)) (frames_up (snd demo_run)) [] ∧
  Parses (client_receives (snd demo_run)) (frames_down (snd demo_run)) [] ∧
  (∀ k f m key o, WriteUpstream k f m key o ∈ snd demo_run → m = true) ∧
  (∀ k f m key o, WriteClient k f m key o ∈ snd demo_run → m = false).
Proof.
  apply (relay_peer_view (lit "s") demo_events (fst demo_run)).
  - vm_compute. reflexivity.
  - repeat constructor.
Defined.

(** The relay cannot be pinned by a silent peer.  Once either side is done, a
    grace deadline of [WsCloseGrace] seconds after some poll is armed; no later
    step moves it, and from the deadline on the grace arm ends the loop. *)
Theorem relay_grace_bounds_close sid evs s acts :
  relay_websocket_frames sid relay_init evs = Some (s, acts) →
  client_done s || upstream_done s = true →
  ∃ reads env, (PollClient reads env ∈ evs ∨ PollUpstream reads env ∈ evs) ∧
    ∀ evs' s' acts', relay_websocket_frames sid s evs' = Some (s', acts') →
      close_grace_deadline s' = Some (now env + timeout WsCloseGrace) ∧
      ∀ t, now env + timeout WsCloseGrace <= t → ended s' = false →
        ∃ s'', relay_step sid s' (GraceExpired t) = Some (s'', []) ∧ ended s'' = true.
Proof.
  intros Hr Hdone. destruct (relay_run_armed _ _ _ _ Hr Hdone) as (reads & env & Hin & Hd).
  exists reads, env. split; [done|]. intros evs' s' acts' Hr'.
  pose proof (relay_run_deadline _ _ _ _ _ _ Hr' Hd) as Hd'. split; [done|].
  intros t Ht Hend. exists (with_flags s' (inject_closed s') true).
  unfold relay_step. rewrite Hend, Hd', (proj2 (Z.leb_le _ _)) by done. done.
Qed.

Lemma relay_grace_bounds_close_witness :
  ∃ reads env, (PollClient reads env ∈ demo_events ∨ PollUpstream reads env ∈ demo_events) ∧
    ∀ evs' s' acts',
      relay_websocket_frames (lit "s") (fst demo_run) evs' = Some (s', acts') →
      close_grace_deadline s' = Some (now env + timeout WsCloseGrace) ∧
      ∀ t, now env + timeout WsCloseGrace <= t → ended s' = false →
        ∃ s'', relay_step (lit "s") s' (GraceExpired t) = Some (s'', []) ∧ ended s'' = true.
Proof.
  apply (relay_grace_bounds_close (lit "s") demo_events (fst demo_run) (snd demo_run));
    vm_compute; reflexivity.
Defined.

(** Protocol violations are answered once, and only violations.  The relay
    sends the client at most one Close(1002) of its own, and only when the
    client's bytes really contain something the parser rejects (after the
    frames already forwarded); a violation in the buffer of a client that is not
    done is answered by the next poll of that side. *)
Theorem relay_violation_answer sid evs s acts :
  relay_websocket_frames sid relay_init evs = Some (s, acts) →
  (written_down ViolationAnswer acts = [] ∨
   written_down ViolationAnswer acts = [close_frame 1002] ∧ client_done s = true ∧
   ∃ rest e, Parses (client_bytes evs) (written_up Forwarded acts) rest ∧
             try_parse_ws_frame rest = Err e) ∧
  ∀ e env, ended s = false → client_done s = false →
    try_parse_ws_frame (client_read_buf s) = Err e →
    ∃ s' acts', relay_step sid s (PollClient [] env) = Some (s', acts') ∧
      client_done s' = true ∧ written_down ViolationAnswer acts' = [close_frame 1002].
Proof.
  intros Hr. split.
  - pose proof (relay_client_stream _ _ _ _ Hr).
    destruct (relay_answers _ _ _ _ Hr) as [?|(? & ? & e & ?)]; [by left|]. right. eauto 8.
  - intros e env Hend Hd He. unfold relay_step. rewrite Hend, Hd. unfold on_client.
    cbn [read_ws_frame]. rewrite He, (try_parse_error _ _ He). eauto.
Qed.

Lemma relay_violation_answer_witness :
  (written_down ViolationAnswer (snd demo_run) = [] ∨
   written_down ViolationAnswer (snd demo_run) = [close_frame 1002] ∧
   client_done (fst demo_run) = true ∧
   ∃ rest e, Parses (client_bytes demo_events) (written_up Forwarded (snd demo_run)) rest ∧
             try_parse_ws_frame rest = Err e) ∧
  ∀ e env, ended (fst demo_run) = false → client_done (fst demo_run) = false →
    try_parse_ws_frame (client_read_buf (fst demo_run)) = Err e →
    ∃ s' acts', relay_step (lit "s") (fst demo_run) (PollClient [] env) = Some (s', acts') ∧
      client_done s' = true ∧ written_down ViolationAnswer acts' = [close_frame 1002].
Proof. apply (relay_violation_answer (lit "s")). vm_compute. reflexivity. Defined.

(** The relay does not validate injected frames: an injected Ping without FIN
    (or longer than 125 bytes) is written as it is, and a peer with the relay's
    own parser rejects it as a protocol error. *)
Theorem injected_control_frame_unchecked :
  let req := {| req_direction := ClientToServer; req_opcode := Ping; req_payload := [];
                req_fin := false |} in
  ∃ s m, relay_step (lit "s") relay_init (InjectReady (Some req) demo_env) =
      Some (s, [WriteUpstream Injected (inject_frame req) true [1; 2; 3; 4] Written;
                SendMessage m]) ∧
    ∃ e, try_parse_ws_frame (encode_ws_frame (inject_frame req) true [1; 2; 3; 4]) = Err e ∧
         is_ws_protocol_error e = true.
Proof. do 2 eexists. split; [reflexivity|]. eexists. split; vm_compute; reflexivity. Qed.

(** Injection.  A request is accepted exactly when the session is registered
    and active and its channel is alive and has room; it is then appended to
    that channel and nothing else changes, so a queue never exceeds its
    capacity; after [mark_closed] or [unregister] every injection fails. *)
Theorem inject_spec r sid req r' :
  (inject r sid req = Ok r' ↔
   ∃ ch c, connections r !! sid = Some {| inject_sender := ch; status := Active |} ∧
     channels r !! ch = Some c ∧ receiver_alive c = true ∧ (length (queue c) < capacity c)%nat ∧
     r' = {| connections := connections r;
             channels := <[ch := {| queue := queue c ++ [req]; receiver_alive := true;
                                    capacity := capacity c |}]> (channels r) |}) ∧
  is_ok (inject (mark_closed r sid) sid req) = false ∧
  is_ok (inject (unregister r sid) sid req) = false.
Proof.
  split; [|split].
  - unfold inject, try_send. split.
    + destruct (connections r !! sid) as [[ch []]|] eqn:Hc; cbn; [|done..].
      destruct (channels r !! ch) as [c|] eqn:Hch; [|done].
      destruct (receiver_alive c) eqn:Ha; cbn; [|done].
      destruct (capacity c <=? _)%nat eqn:Hcap; [done|]. apply Nat.leb_gt in Hcap.
      intros [= <-]. exists ch, c. done.
    + intros (ch & c & -> & Hch & Ha & Hcap & ->). cbn. rewrite Hch, Ha. cbn.
      by rewrite (proj2 (Nat.leb_gt _ _)).
  - unfold inject, mark_closed. destruct (connections r !! sid) as [e|] eqn:Hc; cbn.
    + by rewrite lookup_insert_eq.
    + by rewrite Hc.
  - unfold inject, unregister. cbn. by rewrite lookup_delete_eq.
Qed.
