(* ===== verification/HostPattern.v ===== *)
(** * HostPattern: host pattern lists (proxy-core/src/host_pattern.rs)

    [std::net::IpAddr]'s text parser is part of the standard library and is
    modelled with its parser state as the remaining input. *)

From S2P Require Import Prelude Str.

(** ** Definitions: [str::parse::<IpAddr>()] *)

Inductive IpAddr := V4 (a : Z) | V6 (a : Z).

#[export] Instance IpAddr_eq_dec : EqDecision IpAddr.
Proof. solve_decision. Defined.

(** A reader returns the value and the remaining input; [None] consumes nothing. *)
Definition reader A := str → option (A * str).

(** [char::to_digit(radix)] for radix 10 and 16. *)
Definition to_digit (radix : Z) (b : byte) : option Z :=
  let d :=
    if is_digit b then b - 48
    else if (97 <=? b) && (b <=? 102) then b - 87
    else if (65 <=? b) && (b <=? 70) then b - 55
    else 99 in
  if d <? radix then Some d else None.

(** The digit loop of [read_number]; [None] on overflow of the type or too many digits. *)
Fixpoint read_digits (radix max : Z) (max_digits : nat) (acc : Z) (count : nat) (s : str)
    : option (Z * nat * str) :=
  match s with
  | [] => Some (acc, count, [])
  | b :: r =>
      match to_digit radix b with
      | None => Some (acc, count, s)
      | Some d =>
          let v := acc * radix + d in
          if max <? v then None
          else if (max_digits <? S count)%nat then None
          else read_digits radix max max_digits v (S count) r
      end
  end.

Definition read_number (radix max : Z) (max_digits : nat) (allow_zero_prefix : bool)
    : reader Z := fun s =>
  let has_leading_zero := match s with b :: _ => b =? chr "0" | [] => false end in
  match read_digits radix max max_digits 0 0 s with
  | None => None
  | Some (v, count, rest) =>
      if (count =? 0)%nat then None
      else if negb allow_zero_prefix && has_leading_zero && (1 <? count)%nat then None
      else Some (v, rest)
  end.

Definition read_given_char (c : byte) : reader unit := fun s =>
  match s with
  | b :: r => if b =? c then Some (tt, r) else None
  | [] => None
  end.

(** [read_separator(sep, index, inner)] *)
Definition read_separator {A} (sep : byte) (index : nat) (inner : reader A) : reader A := fun s =>
  match index with
  | O => inner s
  | S _ => match read_given_char sep s with Some (_, r) => inner r | None => None end
  end.

Fixpoint read_octets (k i : nat) (acc : Z) (s : str) : option (Z * str) :=
  match k with
  | O => Some (acc, s)
  | S k =>
      match read_separator (chr ".") i (read_number 10 u8_max 3 false) s with
      | Some (o, r) => read_octets k (S i) (acc * 256 + o) r
      | None => None
      end
  end.

Definition read_ipv4_addr : reader Z := read_octets 4 0 0.

(** [read_groups]: the groups read, whether they end in an embedded IPv4
    address, and the remaining input; [k] slots are left of [limit]. *)
Fixpoint read_groups (k i : nat) (s : str) : list Z * bool * str :=
  match k with
  | O => ([], false, s)
  | S k' =>
      match (if (1 <? k)%nat then read_separator (chr ":") i read_ipv4_addr s else None) with
      | Some (v4, r) => ([v4 / 65536; v4 mod 65536], true, r)
      | None =>
          match read_separator (chr ":") i (read_number 16 u16_max 4 true) s with
          | Some (g, r) =>
              let '(gs, v4, r) := read_groups k' (S i) r in (g :: gs, v4, r)
          | None => ([], false, s)
          end
      end
  end.

Definition groups_to_u128 (gs : list Z) : Z := fold_left (fun acc g => acc * 65536 + g) gs 0.

Definition read_ipv6_addr : reader Z := fun s =>
  let '(head, head_ipv4, r) := read_groups 8 0 s in
  if (length head =? 8)%nat then Some (groups_to_u128 head, r)
  else if head_ipv4 then None
  else
    match read_given_char (chr ":") r with
    | None => None
    | Some (_, r) =>
        match read_given_char (chr ":") r with
        | None => None
        | Some (_, r) =>
            let limit := (8 - (length head + 1))%nat in
            let '(tail, _, r) := read_groups limit 0 r in
            Some (groups_to_u128
                    (head ++ repeat 0 (8 - length head - length tail) ++ tail), r)
        end
    end.

Definition parse_ip (s : str) : option IpAddr :=
  match read_ipv4_addr s with
  | Some (a, []) => Some (V4 a)
  | Some (_, _ :: _) => None
  | None => match read_ipv6_addr s with Some (a, []) => Some (V6 a) | _ => None end
  end.

(** ** Definitions: host patterns *)

Definition normalize_host_token (value : str) : str :=
  let trimmed := trim value in
  let unbracketed :=
    if starts_with trimmed (lit "[") && ends_with trimmed (lit "]")
    then slice 1 (length trimmed - 1) trimmed else trimmed in
  trim_end_matches (chr ".") unbracketed.

(** [MAX << (width - prefix_len)] at the width of the type. *)
Definition cidr_mask (width max prefix_len : Z) : Z :=
  if prefix_len =? 0 then 0 else Z.land (Z.shiftl max (width - prefix_len)) max.

Definition ip_in_cidr (ip network : IpAddr) (prefix_len : Z) : bool :=
  match ip, network with
  | V4 ip, V4 network =>
      if 32 <? prefix_len then false
      else let mask := cidr_mask 32 u32_max prefix_len in
           Z.land ip mask =? Z.land network mask
  | V6 ip, V6 network =>
      if 128 <? prefix_len then false
      else let mask := cidr_mask 128 u128_max prefix_len in
           Z.land ip mask =? Z.land network mask
  | _, _ => false
  end.

(** One pattern against a normalised, lower-cased host. *)
Definition pattern_covers (pattern host_lower : str) (host_ip : option IpAddr) : bool :=
  let pattern := normalize_host_token pattern in
  if bool_decide (pattern = []) then false
  else if bool_decide (pattern = lit "*") then true
  else
    let pattern_lower := to_ascii_lowercase pattern in
    match split_once (chr "/") pattern_lower with
    | Some (network, prefix_len) =>
        match host_ip, parse_ip network, parse_uint u8_max prefix_len with
        | Some ip, Some network, Some prefix_len => ip_in_cidr ip network prefix_len
        | _, _, _ => false
        end
    | None =>
        match (match strip_prefix pattern_lower (lit "*.") with
               | Some s => Some s
               | None => strip_prefix pattern_lower (lit ".")
               end) with
        | Some suffix =>
            bool_decide (host_lower = suffix) || ends_with host_lower (lit "." ++ suffix)
        | None => bool_decide (host_lower = pattern_lower)
        end
    end.

Definition matches_any (patterns : list str) (host : str) : bool :=
  let host := normalize_host_token host in
  if bool_decide (host = []) then false
  else
    let host_lower := to_ascii_lowercase host in
    let host_ip := parse_ip host_lower in
    existsb (fun pattern => pattern_covers pattern host_lower host_ip) patterns.

(** Sample addresses. *)
Example parse_ip_samples :
  parse_ip (lit "192.168.0.1") = Some (V4 3232235521) ∧
  parse_ip (lit "192.168.00.1") = None ∧ parse_ip (lit "256.0.0.1") = None ∧
  parse_ip (lit "::1") = Some (V6 1) ∧ parse_ip (lit "::") = Some (V6 0) ∧
  parse_ip (lit "::ffff:10.0.0.1") = Some (V6 (65535 * 2 ^ 32 + 10 * 2 ^ 24 + 1)) ∧
  parse_ip (lit "2001:db8::5") = Some (V6 (8193 * 2 ^ 112 + 3512 * 2 ^ 96 + 5)) ∧
  parse_ip (lit "1:2:3:4:5:6:7::") = Some (V6 (fold_left (fun a g => a * 65536 + g) [1;2;3;4;5;6;7;0] 0)) ∧
  parse_ip (lit "1:2:3:4:5:6:7:8:9") = None ∧ parse_ip (lit "example.com") = None.
Proof. repeat split; vm_compute; reflexivity. Qed.

(** ** Lemmas *)

Lemma cidr_mask_land w p x :
  0 <= p <= w → 0 <= x < 2 ^ w →
  Z.land x (cidr_mask w (2 ^ w - 1) p) = Z.shiftl (Z.shiftr x (w - p)) (w - p).
Proof.
  intros Hp Hx. unfold cidr_mask. destruct (p =? 0) eqn:H0; breflect.
  - subst p. rewrite Z.land_0_r, Z.sub_0_r, Z.shiftr_div_pow2, Z.div_small by lia. by rewrite Z.shiftl_0_l.
  - rewrite Z.sub_1_r, <- Z.ones_equiv. apply Z.bits_inj'. intros i Hi.
    rewrite !Z.land_spec, !Z.shiftl_spec, !Z.testbit_ones by lia.
    assert (w <= i → Z.testbit x i = false) as Hhi.
    { intros Hle. rewrite <- (Z.mod_small x (2 ^ w)) by done. apply Z.mod_pow2_bits_high. lia. }
    destruct (decide (i < w - p)).
    + rewrite (Z.testbit_neg_r (Z.shiftr x (w - p))) by lia.
      rewrite (proj2 (Z.leb_gt 0 (i - (w - p)))) by lia. apply andb_false_r.
    + rewrite Z.shiftr_spec by lia. replace (i - (w - p) + (w - p)) with i by lia.
      destruct (decide (w <= i)); [by rewrite Hhi by done|].
      rewrite !(proj2 (Z.leb_le _ _)), !(proj2 (Z.ltb_lt _ _)) by lia. apply andb_true_r.
Qed.

Lemma shiftl_inj a b n : 0 <= n → Z.shiftl a n = Z.shiftl b n ↔ a = b.
Proof.
  intros Hn. rewrite !Z.shiftl_mul_pow2 by done. split; [|congruence].
  apply Z.mul_reg_r. pose proof (Z.pow_pos_nonneg 2 n). lia.
Qed.

Lemma cidr_equal w p x y :
  0 <= p <= w → 0 <= x < 2 ^ w → 0 <= y < 2 ^ w →
  (Z.land x (cidr_mask w (2 ^ w - 1) p) =? Z.land y (cidr_mask w (2 ^ w - 1) p)) = true ↔
  x / 2 ^ (w - p) = y / 2 ^ (w - p).
Proof.
  intros Hp Hx Hy. rewrite !cidr_mask_land, Z.eqb_eq, shiftl_inj, !Z.shiftr_div_pow2 by lia. done.
Qed.

(** The labels of a domain name. *)
Definition labels (host : str) : list str := split (chr ".") host.

Lemma labels_suffix h d :
  h = d ∨ ends_with h (lit "." ++ d) = true ↔ labels d `suffix_of` labels h.
Proof.
  unfold labels. split.
  - intros [->|H]; [done|]. apply ends_with_spec in H as [t ->].
    change (t ++ lit "." ++ d) with (t ++ chr "." :: d). rewrite split_app_sep.
    by exists (split (chr ".") t).
  - intros [l Hl]. apply (f_equal (join (chr "."))) in Hl. rewrite join_split in Hl.
    destruct (decide (l = [])) as [->|Hne].
    + left. cbn [app] in Hl. by rewrite join_split in Hl.
    + right. apply ends_with_spec. exists (join (chr ".") l). rewrite Hl.
      rewrite join_app, join_split by (done || apply split_nonempty). done.
Qed.

(** A token without white space, brackets or outer dots. *)
Definition host_char (b : byte) : bool :=
  is_digit b || ((65 <=? b) && (b <=? 90)) || ((97 <=? b) && (b <=? 122)) || (b =? 45)
  || (b =? 46) || (b =? 58).

Definition clean_host (h : str) : Prop :=
  ∃ a s b, h = a :: s ++ [b] ∧ Forall (fun c => host_char c = true) h ∧ b ≠ 46.

Lemma host_char_plain b : host_char b = true → plain b ∧ b ≠ 91 ∧ b ≠ 93 ∧ b ≠ 47 ∧ b ≠ 42.
Proof.
  unfold host_char, is_digit, plain. intros H.
  repeat (apply orb_true_iff in H as [H|H]); breflect; lia.
Qed.

Lemma starts_bracket_false a s : a ≠ 91 → starts_with (a :: s) (lit "[") = false.
Proof.
  intros Ha. change (lit "[") with [91]. unfold starts_with.
  by rewrite (proj2 (Z.eqb_neq 91 a)).
Qed.

Lemma normalize_wrap a s b :
  plain a → plain b → a ≠ 91 → b ≠ 46 → normalize_host_token (a :: s ++ [b]) = a :: s ++ [b].
Proof.
  intros Ha Hb Ha' Hb'. unfold normalize_host_token. rewrite trim_plain by done.
  assert (starts_with (a :: s ++ [b]) (lit "[") = false) as ->.
  { by apply starts_bracket_false. }
  cbn [andb]. rewrite app_comm_cons. by apply trim_end_matches_other.
Qed.

Lemma clean_ends h :
  clean_host h → ∃ a s b, h = a :: s ++ [b] ∧ plain a ∧ plain b ∧ a ≠ 91 ∧ b ≠ 46 ∧ b ≠ 93.
Proof.
  intros (a & s & b & -> & Hall & Hb). exists a, s, b. split; [done|].
  apply List.Forall_cons_iff in Hall as [Ha Hall]. apply Forall_app in Hall as [_ Hb'].
  apply List.Forall_cons_iff in Hb' as [Hb' _].
  apply host_char_plain in Ha, Hb'. naive_solver.
Qed.

Lemma normalize_clean h : clean_host h → normalize_host_token h = h.
Proof.
  intros Hc. destruct (clean_ends h Hc) as (a & s & b & -> & ? & ? & ? & ? & ?).
  by apply normalize_wrap.
Qed.

Lemma normalize_brackets h : clean_host h → normalize_host_token (lit "[" ++ h ++ lit "]") = h.
Proof.
  intros Hc. destruct (clean_ends h Hc) as (a & s & b & -> & ? & ? & ? & ? & ?).
  unfold normalize_host_token.
  change (lit "[" ++ (a :: s ++ [b]) ++ lit "]") with (91 :: (a :: s ++ [b]) ++ [93]).
  rewrite trim_plain by (unfold plain; lia).
  assert (ends_with (91 :: (a :: s ++ [b]) ++ [93]) (lit "]") = true) as ->.
  { apply ends_with_spec. by exists (91 :: a :: s ++ [b]). }
  assert (starts_with (91 :: (a :: s ++ [b]) ++ [93]) (lit "[") = true) as -> by done.
  cbn [andb]. set (h := a :: s ++ [b]).
  assert (slice 1 (length (91 :: h ++ [93]) - 1) (91 :: h ++ [93]) = h) as ->.
  { unfold slice. cbn [length]. rewrite length_app. cbn [length].
    replace (S (length h + 1) - 1 - 1)%nat with (length h) by lia.
    change (drop 1 (91 :: h ++ [93])) with (h ++ [93]). apply take_app_length. }
  unfold h. rewrite app_comm_cons. by apply trim_end_matches_other.
Qed.

Lemma normalize_trailing_dot h : clean_host h → normalize_host_token (h ++ lit ".") = h.
Proof.
  intros Hc. destruct (clean_ends h Hc) as (a & s & b & -> & ? & ? & ? & ? & ?).
  unfold normalize_host_token.
  change ((a :: s ++ [b]) ++ lit ".") with (a :: (s ++ [b]) ++ [46]).
  rewrite trim_plain by (unfold plain in *; lia).
  assert (starts_with (a :: (s ++ [b]) ++ [46]) (lit "[") = false) as ->.
  { by apply starts_bracket_false. }
  cbn [andb]. rewrite app_comm_cons. change 46 with (chr ".").
  rewrite trim_end_matches_same, app_comm_cons. by apply trim_end_matches_other.
Qed.

Lemma matches_any_normalized ps h h' :
  to_ascii_lowercase (normalize_host_token h) = to_ascii_lowercase (normalize_host_token h') →
  matches_any ps h = matches_any ps h'.
Proof.
  intros Heq. unfold matches_any. rewrite Heq.
  assert (normalize_host_token h = [] ↔ normalize_host_token h' = []) as Hn.
  { unfold to_ascii_lowercase in Heq.
    split; intros H; rewrite H in Heq; [symmetry in Heq|]; by apply map_eq_nil in Heq. }
  destruct (decide (normalize_host_token h = [])) as [H|H].
  - rewrite !bool_decide_true by tauto. done.
  - rewrite !bool_decide_false by tauto. done.
Qed.

(** *** The range of parsed addresses *)

Lemma read_digits_range radix max k acc count s v n r :
  2 <= radix → 0 <= acc <= max → read_digits radix max k acc count s = Some (v, n, r) →
  0 <= v <= max.
Proof.
  intros Hr. revert acc count. induction s as [|b s IH]; intros acc count Hacc; cbn.
  - by intros [= <- _ _].
  - destruct (to_digit radix b) as [d|] eqn:Hd; [|by intros [= <- _ _]].
    assert (0 <= d).
    { unfold to_digit, is_digit in Hd. repeat case_match; simplify_eq; breflect; lia. }
    destruct (max <? acc * radix + d) eqn:Hm; [done|]. destruct (_ <=? _)%nat; [done|].
    breflect. apply IH. nia.
Qed.

Lemma read_separator_inv {A} sep i (inner : reader A) s x :
  read_separator sep i inner s = Some x → ∃ s', inner s' = Some x.
Proof. destruct i; cbn; [eauto|]. destruct (read_given_char sep s) as [[[] r]|]; [eauto|done]. Qed.

Lemma read_number_range radix max k z s v r :
  2 <= radix → 0 <= max → read_number radix max k z s = Some (v, r) → 0 <= v <= max.
Proof.
  intros Hr Hm. unfold read_number.
  destruct (read_digits _ _ _ _ _ _) as [[[v' n] r']|] eqn:H; [|done].
  apply read_digits_range in H; [|done|lia]. repeat case_match; try done; by intros [= <- _].
Qed.

Lemma read_octets_range k i acc s v r :
  0 <= acc → read_octets k i acc s = Some (v, r) → 0 <= v < (acc + 1) * 256 ^ Z.of_nat k.
Proof.
  revert i acc s. induction k as [|k IH]; intros i acc s Hacc; cbn [read_octets].
  - intros [= <- _]. change (256 ^ Z.of_nat 0) with 1. lia.
  - destruct (read_separator _ _ _ _) as [[o r']|] eqn:Ho; [|done]. intros H.
    apply read_separator_inv in Ho as [s' Ho]. apply read_number_range in Ho; [|done..].
    change u8_max with 255 in Ho. apply IH in H; [|lia].
    rewrite Nat2Z.inj_succ, Z.pow_succ_r by lia.
    pose proof (Z.pow_pos_nonneg 256 (Z.of_nat k)). nia.
Qed.

Lemma read_ipv4_range s v r : read_ipv4_addr s = Some (v, r) → 0 <= v < 2 ^ 32.
Proof. intros H. apply read_octets_range in H; [|done]. exact H. Qed.

Definition group_ok (g : Z) : Prop := 0 <= g < 65536.

Lemma read_groups_range k i s gs v4 r :
  read_groups k i s = (gs, v4, r) → Forall group_ok gs ∧ (length gs <= k)%nat.
Proof.
  revert i s gs v4 r. induction k as [|k IH]; intros i s gs v4 r; cbn [read_groups].
  { by intros [= <- _ _]. }
  destruct (if (1 <? S k)%nat then _ else None) as [[a r1]|] eqn:Hv4.
  - destruct (1 <? S k)%nat eqn:Hk; [|done]. apply Nat.ltb_lt in Hk.
    apply read_separator_inv in Hv4 as [s' Hv4]. apply read_ipv4_range in Hv4.
    intros [= <- _ _]. split; [|simpl; lia].
    repeat constructor.
    1: apply Z.div_pos; lia. 1: apply Z.div_lt_upper_bound; lia.
    all: apply Z.mod_pos_bound; lia.
  - clear Hv4. destruct (read_separator _ _ _ _) as [[g r1]|] eqn:Hg.
    2: { intros [= <- _ _]. split; [done | simpl; lia]. }
    destruct (read_groups k (S i) r1) as [[gs1 v41] r2] eqn:Hgs. intros [= <- _ _].
    apply IH in Hgs as [Hgs Hl]. apply read_separator_inv in Hg as [s' Hg].
    apply read_number_range in Hg; [|done..]. change u16_max with 65535 in Hg.
    split; [|simpl; lia]. constructor; [unfold group_ok; lia | done].
Qed.

Lemma groups_range gs acc :
  Forall group_ok gs → 0 <= acc →
  0 <= fold_left (fun acc g => acc * 65536 + g) gs acc < (acc + 1) * 65536 ^ len gs.
Proof.
  intros Hgs. revert acc. induction Hgs as [|g gs Hg _ IH]; intros acc Hacc; cbn [fold_left].
  - change (65536 ^ len []) with 1. lia.
  - unfold group_ok in Hg. specialize (IH (acc * 65536 + g) ltac:(lia)).
    rewrite len_cons, Z.pow_add_r by (try apply len_nonneg; lia).
    pose proof (Z.pow_pos_nonneg 65536 (len gs) ltac:(lia) (len_nonneg gs)).
    change (65536 ^ 1) with 65536. nia.
Qed.

Lemma read_ipv6_range s v r : read_ipv6_addr s = Some (v, r) → 0 <= v < 2 ^ 128.
Proof.
  unfold read_ipv6_addr, groups_to_u128.
  destruct (read_groups 8 0 s) as [[head h4] r0] eqn:Hh. apply read_groups_range in Hh as [Hh Hl].
  destruct (length head =? 8)%nat eqn:H8.
  - apply Nat.eqb_eq in H8. intros [= <- _].
    pose proof (groups_range head 0 Hh ltac:(lia)) as H. unfold len in H. rewrite H8 in H.
    exact H.
  - apply Nat.eqb_neq in H8. destruct h4; [done|].
    destruct (read_given_char _ r0) as [[_ r1]|]; [|done].
    destruct (read_given_char _ r1) as [[_ r2]|]; [|done].
    destruct (read_groups _ 0 r2) as [[tail t4] r3] eqn:Ht.
    apply read_groups_range in Ht as [Ht Hlt]. intros [= <- _].
    set (gs := head ++ repeat 0 (8 - length head - length tail) ++ tail).
    assert (len gs = 8) as Hlen.
    { unfold gs, len. rewrite !length_app, repeat_length. lia. }
    assert (Forall group_ok gs) as Hok.
    { unfold gs. rewrite !Forall_app. split_and!; [done| |done].
      apply Forall_forall. intros x Hx. apply list_elem_of_In, repeat_spec in Hx. subst.
      unfold group_ok; lia. }
    pose proof (groups_range gs 0 Hok ltac:(lia)) as H. rewrite Hlen in H. exact H.
Qed.

Lemma parse_ip_range s ip :
  parse_ip s = Some ip → match ip with V4 a => 0 <= a < 2 ^ 32 | V6 a => 0 <= a < 2 ^ 128 end.
Proof.
  unfold parse_ip. destruct (read_ipv4_addr s) as [[a [|]]|] eqn:H4; [|done|].
  - intros [= <-]. by eapply read_ipv4_range.
  - destruct (read_ipv6_addr s) as [[a [|]]|] eqn:H6; [|done..].
    intros [= <-]. by eapply read_ipv6_range.
Qed.

(** *** Suffix patterns *)

Lemma lower_domain_pattern d :
  clean_host d → to_ascii_lowercase d = d → chr "/" ∉ d →
  ∀ h ip, pattern_covers (lit "*." ++ d) h ip =
          bool_decide (h = d) || ends_with h (lit "." ++ d).
Proof.
  intros Hc Hlow Hslash h ip. unfold pattern_covers.
  assert (normalize_host_token (lit "*." ++ d) = lit "*." ++ d) as ->.
  { destruct (clean_ends d Hc) as (a & s & b & -> & ? & ? & ? & ? & ?).
    change (lit "*." ++ a :: s ++ [b]) with (42 :: (46 :: a :: s) ++ [b]).
    apply normalize_wrap; [unfold plain; lia|done|lia|done]. }
  rewrite bool_decide_false by done. rewrite bool_decide_false.
  2: { destruct Hc as (a & s & b & -> & _). done. }
  rewrite to_ascii_lowercase_app, Hlow.
  change (to_ascii_lowercase (lit "*.")) with (lit "*.").
  rewrite (proj2 (split_once_None (chr "/") (lit "*." ++ d))).
  2: { change (lit "*.") with [42; 46]. change (chr "/") with 47 in *. set_solver by lia. }
  by rewrite (proj2 (strip_prefix_Some _ _ _) eq_refl).
Qed.

Lemma clean_no_slash d : clean_host d → chr "/" ∉ d.
Proof.
  intros (a & s & b & _ & Hall & _) Hin. rewrite Forall_forall in Hall.
  apply Hall, host_char_plain in Hin. change (chr "/") with 47 in Hin. lia.
Qed.

(** ** Properties *)

(** Subdomain patterns respect label boundaries.  [*.d] matches a host exactly
    when the labels of [d] are a suffix of the labels of the normalised,
    lower-cased host: the apex and every subdomain, and never a name that
    merely ends in the same letters. *)
Theorem subdomain_pattern_labels d host :
  clean_host d → to_ascii_lowercase d = d → normalize_host_token host ≠ [] →
  matches_any [lit "*." ++ d] host = true ↔
  labels d `suffix_of` labels (to_ascii_lowercase (normalize_host_token host)).
Proof.
  intros Hc Hlow Hne. unfold matches_any. rewrite bool_decide_false by done. cbn [existsb].
  rewrite orb_false_r, lower_domain_pattern by (done || by apply clean_no_slash).
  by rewrite orb_true_iff, bool_decide_eq_true, labels_suffix.
Qed.

Lemma subdomain_pattern_labels_witness :
  matches_any [lit "*.example.com"] (lit "API.Example.com.") = true ↔
  labels (lit "example.com") `suffix_of`
    labels (to_ascii_lowercase (normalize_host_token (lit "API.Example.com."))).
Proof.
  apply (subdomain_pattern_labels (lit "example.com")).
  - exists 101, (lit "xample.co"), 109. split; [reflexivity|]. split; [|done].
    repeat constructor.
  - reflexivity.
  - vm_compute. done.
Defined.

(** CIDR matching.  For parsed addresses, [ip_in_cidr] compares exactly the
    top [prefix_len] bits, only within one address family, and refuses a
    prefix longer than the address. *)
Theorem ip_in_cidr_top_bits s t ip network p :
  parse_ip s = Some ip → parse_ip t = Some network → 0 <= p <= u8_max →
  ip_in_cidr ip network p = true ↔
  match ip, network with
  | V4 a, V4 n => p <= 32 ∧ a / 2 ^ (32 - p) = n / 2 ^ (32 - p)
  | V6 a, V6 n => p <= 128 ∧ a / 2 ^ (128 - p) = n / 2 ^ (128 - p)
  | _, _ => False
  end.
Proof.
  intros Hs Ht Hp. apply parse_ip_range in Hs, Ht. unfold ip_in_cidr.
  destruct ip as [a|a], network as [n|n]; [| done | done |].
  - destruct (32 <? p) eqn:H; breflect; [split; [done | lia]|].
    rewrite <- (cidr_equal 32 p a n) by lia. tauto.
  - destruct (128 <? p) eqn:H; breflect; [split; [done | lia]|].
    rewrite <- (cidr_equal 128 p a n) by lia. tauto.
Qed.

Lemma ip_in_cidr_top_bits_witness :
  ip_in_cidr (V4 3232235777) (V4 3232235520) 16 = true ↔
  16 <= 32 ∧ 3232235777 / 2 ^ (32 - 16) = 3232235520 / 2 ^ (32 - 16).
Proof.
  apply (ip_in_cidr_top_bits (lit "192.168.1.1") (lit "192.168.0.0")
           (V4 3232235777) (V4 3232235520) 16).
  - vm_compute; reflexivity.
  - vm_compute; reflexivity.
  - vm_compute; split; discriminate.
Defined.

(** The spelling of a host does not matter: brackets, a trailing FQDN dot and
    ASCII case never change the verdict of a pattern list. *)
Theorem matches_any_spelling ps h :
  clean_host h →
  matches_any ps (lit "[" ++ h ++ lit "]") = matches_any ps h ∧
  matches_any ps (h ++ lit ".") = matches_any ps h ∧
  ∀ h', clean_host h' → eq_ignore_ascii_case h h' = true → matches_any ps h' = matches_any ps h.
Proof.
  intros Hc. split_and!.
  - apply matches_any_normalized. by rewrite normalize_brackets, normalize_clean.
  - apply matches_any_normalized. by rewrite normalize_trailing_dot, normalize_clean.
  - intros h' Hc' He. apply matches_any_normalized.
    rewrite !normalize_clean by done. by apply eq_ignore_ascii_case_spec in He.
Qed.

Lemma matches_any_spelling_witness :
  matches_any [lit "::1"] (lit "[::1]") = matches_any [lit "::1"] (lit "::1") ∧
  matches_any [lit "::1"] (lit "::1" ++ lit ".") = matches_any [lit "::1"] (lit "::1") ∧
  ∀ h', clean_host h' → eq_ignore_ascii_case (lit "::1") h' = true →
        matches_any [lit "::1"] h' = matches_any [lit "::1"] (lit "::1").
Proof.
  apply (matches_any_spelling [lit "::1"] (lit "::1")).
  exists 58, [58], 49. split; [reflexivity|]. split; [|done]. repeat constructor.
Defined.
