(* ===== verification/SslProxying.v ===== *)
(** * SslProxying: which hosts are decrypted (proxy-core/src/ssl_proxying.rs,
    ssl_proxying_defaults.rs)

    [serde]'s decoding of a payload into the [New] or [Legacy] shape is outside
    the model: [Repr] is its result, with [None] for an absent field.  The
    bundled exclusion list is a parameter (a JSON file compiled in). *)

From S2P Require Import Prelude Str HostPattern.

(** ** Definitions *)

Record SslProxyingConfig := {
  cfg_include_enabled : bool;
  cfg_exclude_enabled : bool;
  cfg_include : list str;
  cfg_exclude : list str
}.

Definition should_intercept (c : SslProxyingConfig) (host : str) : bool :=
  if cfg_exclude_enabled c && matches_any (cfg_exclude c) host then false
  else if cfg_include_enabled c then matches_any (cfg_include c) host
  else true.

Record SslProxyEntry := { entry_pattern : str; entry_enabled : bool }.

Record SslProxyingSettings := {
  include_enabled : bool;
  exclude_enabled : bool;
  include : list SslProxyEntry;
  exclude : list SslProxyEntry
}.

Definition enabled_patterns (entries : list SslProxyEntry) : list str :=
  List.filter (fun p => negb (bool_decide (p = [])))
    (map (fun e => trim (entry_pattern e)) (List.filter entry_enabled entries)).

Definition to_runtime_config (s : SslProxyingSettings) : SslProxyingConfig :=
  {| cfg_include_enabled := include_enabled s; cfg_exclude_enabled := exclude_enabled s;
     cfg_include := enabled_patterns (include s);
     cfg_exclude := enabled_patterns (exclude s) |}.

(** The two payload shapes. *)
Inductive Repr :=
  | New (include_enabled exclude_enabled : option bool)
        (include exclude : option (list SslProxyEntry))
  | Legacy (include exclude : option (list str)).

Section Defaults.
  (** [default_ssl_proxying_exclusions()] *)
  Context (default_ssl_proxying_exclusions : list str).

Definition enabled_entry (pattern : str) : SslProxyEntry :=
  {| entry_pattern := pattern; entry_enabled := true |}.

Definition default_exclude_entries : list SslProxyEntry :=
  map enabled_entry default_ssl_proxying_exclusions.

Definition default_exclude_enabled : bool := true.

Definition default_settings : SslProxyingSettings :=
  {| include_enabled := false; exclude_enabled := true; include := [];
     exclude := default_exclude_entries |}.

Definition default_config : SslProxyingConfig := to_runtime_config default_settings.

Definition deserialize (r : Repr) : SslProxyingSettings :=
  match r with
  | New ie ee i e =>
      {| include_enabled := default false ie;
         exclude_enabled := default default_exclude_enabled ee;
         include := default [] i;
         exclude := default default_exclude_entries e |}
  | Legacy i e =>
      let i := default [] i in
      let e := default [] e in
      {| include_enabled := negb (bool_decide (i = []));
         exclude_enabled := true;
         include := map enabled_entry i;
         exclude := map enabled_entry e |}
  end.

(** ** Lemmas *)

Lemma normalize_trim s : normalize_host_token (trim s) = normalize_host_token s.
Proof. unfold normalize_host_token. by rewrite trim_idemp. Qed.

Lemma pattern_covers_trim p h ip : pattern_covers (trim p) h ip = pattern_covers p h ip.
Proof. unfold pattern_covers. by rewrite normalize_trim. Qed.

Lemma pattern_covers_blank h ip : pattern_covers [] h ip = false.
Proof. reflexivity. Qed.

(** Trimming patterns and dropping blank ones does not change a list. *)
Lemma matches_any_enabled es host :
  matches_any (enabled_patterns es) host =
  existsb (fun e => entry_enabled e && matches_any [entry_pattern e] host) es.
Proof.
  unfold matches_any, enabled_patterns. destruct (bool_decide _).
  { induction es as [|e es IH]; [done|]. cbn. by rewrite andb_false_r. }
  induction es as [|e es IH]; [done|]. cbn [List.filter existsb] in *.
  destruct (entry_enabled e); cbn [andb]; [|done].
  cbn [map List.filter]. rewrite orb_false_r, <- IH, <- pattern_covers_trim.
  destruct (decide (trim (entry_pattern e) = [])) as [He|He].
  - rewrite bool_decide_true by done. cbn [negb]. by rewrite He, pattern_covers_blank.
  - rewrite bool_decide_false by done. done.
Qed.

Lemma matches_any_existsb ps host :
  matches_any ps host = existsb (fun p => matches_any [p] host) ps.
Proof.
  unfold matches_any. destruct (bool_decide _).
  - induction ps as [|p ps IH]; [done|]. cbn. done.
  - induction ps as [|p ps IH]; [done|]. cbn. by rewrite orb_false_r, IH.
Qed.

Lemma matches_any_migrated ps host :
  matches_any (enabled_patterns (map enabled_entry ps)) host = matches_any ps host.
Proof.
  rewrite matches_any_enabled, (matches_any_existsb ps).
  induction ps as [|p ps IH]; [done|]. cbn [map existsb]. by rewrite IH.
Qed.

(** ** Properties *)

(** C33: The interception policy.  A host is decrypted exactly when no enabled
    exclude entry covers it (if the exclude switch is on) and some enabled
    include entry covers it (if the include switch is on): an enabled
    exclusion wins over any include, disabled and blank entries never count. *)
Theorem should_intercept_spec s host :
  should_intercept (to_runtime_config s) host = true ↔
  (exclude_enabled s = true →
     ∀ e, e ∈ exclude s → entry_enabled e = true → matches_any [entry_pattern e] host = false) ∧
  (include_enabled s = true →
     ∃ e, e ∈ include s ∧ entry_enabled e = true ∧ matches_any [entry_pattern e] host = true).
Proof.
  unfold should_intercept, to_runtime_config. cbn [cfg_exclude_enabled cfg_include_enabled
    cfg_exclude cfg_include]. rewrite !matches_any_enabled.
  assert (∀ es, existsb (fun e => entry_enabled e && matches_any [entry_pattern e] host) es = true ↔
    ∃ e, e ∈ es ∧ entry_enabled e = true ∧ matches_any [entry_pattern e] host = true) as Hex.
  { intros es. rewrite existsb_exists. setoid_rewrite andb_true_iff.
    setoid_rewrite list_elem_of_In. done. }
  destruct (exclude_enabled s && existsb _ (exclude s)) eqn:Hx.
  - apply andb_true_iff in Hx as [Hx He]. apply Hex in He as (e & Hin & Hen & Hm).
    split; [done|]. intros [Hno _]. rewrite (Hno Hx e Hin Hen) in Hm. done.
  - assert (exclude_enabled s = true → ∀ e, e ∈ exclude s → entry_enabled e = true →
      matches_any [entry_pattern e] host = false) as Hno.
    { intros Hen e Hin Hee. rewrite Hen in Hx. cbn in Hx. apply not_true_iff_false. intros Hm.
      assert (existsb (fun e => entry_enabled e && matches_any [entry_pattern e] host)
                (exclude s) = true) by (apply Hex; eauto). congruence. }
    destruct (include_enabled s) eqn:Hie.
    + rewrite Hex. naive_solver.
    + naive_solver.
Qed.

(** Migrating a legacy payload (plain string lists) preserves its policy:
    decrypt what is not excluded and, for a non-empty include list, only what
    is included. *)
Theorem legacy_migration_preserves_policy i e host :
  should_intercept (to_runtime_config (deserialize (Legacy (Some i) (Some e)))) host =
  negb (matches_any e host) && (bool_decide (i = []) || matches_any i host).
Proof.
  unfold should_intercept, to_runtime_config, deserialize.
  cbn [cfg_exclude_enabled cfg_include_enabled cfg_exclude cfg_include include_enabled
       exclude_enabled include exclude default andb].
  rewrite !matches_any_migrated. cbv [id]. destruct (matches_any e host); [done|]. cbn [negb andb].
  destruct (decide (i = [])) as [->|Hi]; [done|].
  by rewrite bool_decide_false by done.
Qed.

End Defaults.

(** The bundled exclusions at the time of writing. *)
Definition bundled_exclusions : list str :=
  map lit ["*.tiktokv.com"%str; "*.tiktokcdn.com"%str; "*.tiktok-row.net"%str; "*.snssdk.com"%str;
   "*.byteoversea.com"%str; "*.icloud.com"%str; "*.icloud.com.cn"%str; "*.apps.apple.com"%str;
   "*.itunes.apple.com"%str; "play.googleapis.com"%str; "android.clients.google.com"%str;
   "accounts.google.com"%str].

(** Out of the box, pinning hosts are relayed blind and everything else is decrypted. *)
Example default_policy :
  let c := default_config bundled_exclusions in
  should_intercept c (lit "gateway.icloud.com") = false ∧
  should_intercept c (lit "notaccounts.google.com") = true ∧
  should_intercept c (lit "Accounts.Google.com") = false.
Proof. vm_compute. done. Qed.
