(* ===== verification/UpstreamProxy.v ===== *)
(** * UpstreamProxy: dialing through a chained proxy (proxy-core/src/upstream_proxy.rs)

    Settings and their runtime form, the routing decision, and the HTTP CONNECT
    and SOCKS5 handshakes.  A handshake is a program over a byte stream: what is
    still to come from the proxy, how the stream ends, and what was written.
    The TCP connect, the TLS wrapping and base64 are parameters. *)

From S2P Require Import Prelude Str Errors WsFrame HostPattern.

(** ** Definitions: settings *)

Definition MAX_CONNECT_RESPONSE_HEAD_BYTES : Z := 8 * 1024.

Definition SOCKS5_VERSION : Z := 5.
Definition SOCKS5_AUTH_NONE : Z := 0.
Definition SOCKS5_AUTH_USERNAME_PASSWORD : Z := 2.
Definition SOCKS5_AUTH_UNACCEPTABLE : Z := 255.
Definition SOCKS5_CMD_CONNECT : Z := 1.
Definition SOCKS5_ATYP_IPV4 : Z := 1.
Definition SOCKS5_ATYP_DOMAIN : Z := 3.
Definition SOCKS5_ATYP_IPV6 : Z := 4.
Definition SOCKS5_AUTH_SUBNEGOTIATION_VERSION : Z := 1.

Inductive UpstreamProxyProtocol := Http | Https | Socks5.

#[export] Instance UpstreamProxyProtocol_eq_dec : EqDecision UpstreamProxyProtocol.
Proof. solve_decision. Defined.

Definition protocol_as_str (p : UpstreamProxyProtocol) : str :=
  match p with Http => lit "http" | Https => lit "https" | Socks5 => lit "socks5" end.

Definition protocol_parse (value : str) : option UpstreamProxyProtocol :=
  let v := to_ascii_lowercase (trim value) in
  if bool_decide (v = lit "http") then Some Http
  else if bool_decide (v = lit "https") then Some Https
  else if bool_decide (v = lit "socks5") || bool_decide (v = lit "socks5h") then Some Socks5
  else None.

Record UpstreamProxyConfig := {
  up_protocol : UpstreamProxyProtocol;
  up_host : str;
  up_port : Z;
  up_username : option str;
  up_password : option str;
  up_bypass : list str
}.

Definition validate (c : UpstreamProxyConfig) : result unit str :=
  if bool_decide (trim (up_host c) = []) then Err (lit "upstream proxy host must not be empty")
  else if up_port c =? 0 then Err (lit "upstream proxy port must be greater than zero")
  else if bool_decide (up_username c = None) && negb (bool_decide (up_password c = None)) then
    Err (lit "upstream proxy password was set without a username; provide both or neither")
  else Ok tt.

Definition bypass_matches (patterns : list str) (host : str) : bool := matches_any patterns host.

Definition should_bypass (c : UpstreamProxyConfig) (host : str) : bool := bypass_matches (up_bypass c) host.

Record UpstreamProxySettings := {
  set_enabled : bool;
  set_protocol : UpstreamProxyProtocol;
  set_host : str;
  set_port : Z;
  set_username : option str;
  set_password : option str;
  set_bypass : list str
}.

Definition default_bypass_patterns : list str :=
  [lit "localhost"; lit "127.0.0.1"; lit "::1"; lit "*.local"].

Definition default_settings : UpstreamProxySettings :=
  {| set_enabled := false; set_protocol := Http; set_host := lit "127.0.0.1"; set_port := 7890;
     set_username := None; set_password := None; set_bypass := default_bypass_patterns |}.

Definition nonempty (s : str) : bool := negb (bool_decide (s = [])).

Definition settings_to_runtime_config (s : UpstreamProxySettings) : option UpstreamProxyConfig :=
  if negb (set_enabled s) then None
  else
    let username :=
      match set_username s with
      | Some u => if nonempty (trim u) then Some (trim u) else None
      | None => None
      end in
    let password :=
      match username, set_password s with
      | Some _, Some p => if nonempty p then Some p else None
      | _, _ => None
      end in
    Some {| up_protocol := set_protocol s; up_host := trim (set_host s); up_port := set_port s;
            up_username := username; up_password := password;
            up_bypass := List.filter nonempty (map trim (set_bypass s)) |}.

(** ** Definitions: addresses *)

Inductive TargetAddress := Ip (a : IpAddr) | Domain (d : str).

(** [Ipv4Addr::octets], [Ipv6Addr::octets] and [segments] *)
Definition octets (a : IpAddr) : bytes :=
  match a with V4 n => to_be_bytes 4 n | V6 n => to_be_bytes 16 n end.

Definition segments (n : Z) : list Z :=
  map (fun i => Z.land (Z.shiftr n (16 * (7 - i))) 65535) [0; 1; 2; 3; 4; 5; 6; 7].

(** [{:x}] of a 16-bit segment *)
Definition show_hex (n : Z) : str :=
  (if 4096 <=? n then [hex_digit (n / 4096)] else [])
  ++ (if 256 <=? n then [hex_digit (n / 256 mod 16)] else [])
  ++ (if 16 <=? n then [hex_digit (n / 16 mod 16)] else [])
  ++ [hex_digit (n mod 16)].

Definition show_ipv4 (n : Z) : str := join (chr ".") (map show (to_be_bytes 4 n)).

(** The first longest run of zero segments: start and length. *)
Fixpoint longest_zeros (i : nat) (current longest : nat * nat) (segs : list Z) : nat * nat :=
  match segs with
  | [] => longest
  | s :: segs =>
      if s =? 0 then
        let current := if (current.2 =? 0)%nat then (i, 1)%nat else (current.1, S current.2) in
        longest_zeros (S i) current (if (longest.2 <? current.2)%nat then current else longest) segs
      else longest_zeros (S i) (0, 0)%nat longest segs
  end.

Definition show_ipv6 (n : Z) : str :=
  if bool_decide (n / 2 ^ 32 = 65535) then lit "::ffff:" ++ show_ipv4 (n mod 2 ^ 32)
  else
    let segs := segments n in
    let '(start, l) := longest_zeros 0 (0, 0)%nat (0, 0)%nat segs in
    if (1 <? l)%nat then
      join (chr ":") (map show_hex (take start segs)) ++ lit "::"
        ++ join (chr ":") (map show_hex (drop (start + l) segs))
    else join (chr ":") (map show_hex segs).

Definition authority (t : TargetAddress) (port : Z) : str :=
  match t with
  | Ip (V6 ip) => lit "[" ++ show_ipv6 ip ++ lit "]:" ++ show port
  | Ip (V4 ip) => show_ipv4 ip ++ lit ":" ++ show port
  | Domain d => d ++ lit ":" ++ show port
  end.

(** ** Definitions: the stream *)

(** [in_end]: [None] when the proxy closes after its last byte, an error
    otherwise.  [write_results]: the outcomes of the next writes (all succeed
    when it runs out). *)
Record Stream := {
  input : bytes;
  in_end : option io_error;
  output : list bytes;
  write_results : list (option io_error)
}.

Definition IO (A : Type) : Type := Stream → result A io_error * Stream.

Definition ret {A} (a : A) : IO A := fun s => (Ok a, s).
Definition fail {A} (e : io_error) : IO A := fun s => (Err e, s).
Definition bind {A B} (m : IO A) (k : A → IO B) : IO B := fun s =>
  match m s with
  | (Ok a, s) => k a s
  | (Err e, s) => (Err e, s)
  end.

Notation "'do!' x ':=' m 'in' k" := (bind m (fun x => k))
  (at level 10, x name, m at level 100, k at level 200).

(** [write_all] and [flush] of one message. *)
Definition write_all (msg : bytes) : IO unit := fun s =>
  match write_results s with
  | Some e :: ws =>
      (Err e, {| input := input s; in_end := in_end s; output := output s; write_results := ws |})
  | None :: ws =>
      (Ok tt, {| input := input s; in_end := in_end s; output := output s ++ [msg]; write_results := ws |})
  | [] =>
      (Ok tt, {| input := input s; in_end := in_end s; output := output s ++ [msg]; write_results := [] |})
  end.

Definition with_input (s : Stream) (i : bytes) : Stream :=
  {| input := i; in_end := in_end s; output := output s; write_results := write_results s |}.

Definition early_eof : io_error := {| io_kind := UnexpectedEof; io_display := lit "early eof" |}.

(** [read_exact] of [n] bytes: the available bytes are gone on an early end. *)
Definition read_exact (n : nat) : IO bytes := fun s =>
  if (n <=? length (input s))%nat then (Ok (take n (input s)), with_input s (drop n (input s)))
  else (Err (default early_eof (in_end s)), with_input s []).

Definition map_io_err {A} (f : io_error → io_error) (m : IO A) : IO A := fun s =>
  let '(r, s) := m s in (map_err f r, s).

(** ** Definitions: HTTP CONNECT *)

Definition crlf2 : bytes := [13; 10; 13; 10].

Definition invalid_data (msg : str) : io_error := {| io_kind := InvalidData; io_display := msg |}.

Definition connect_eof : io_error :=
  {| io_kind := UnexpectedEof;
     io_display := lit "upstream proxy closed the connection during the CONNECT handshake" |}.

Definition head_too_long : io_error :=
  invalid_data (lit "upstream proxy CONNECT response head exceeded 8192 bytes").

(** One byte at a time; [head] is what was read. *)
Fixpoint read_head_loop (in_end : option io_error) (head i : bytes) : result bytes io_error * bytes :=
  match i with
  | [] => (Err (default connect_eof in_end), [])
  | b :: i =>
      let head := head ++ [b] in
      if ends_with head crlf2 then (Ok head, i)
      else if MAX_CONNECT_RESPONSE_HEAD_BYTES <? len head then (Err head_too_long, i)
      else read_head_loop in_end head i
  end.

Definition read_connect_response_head : IO bytes := fun s =>
  let '(r, i) := read_head_loop (in_end s) [] (input s) in (r, with_input s i).

Definition parse_status_code (head : bytes) : option Z :=
  let line_end := default (length head) (find head [13; 10]) in
  match from_utf8 (take line_end head) with
  | None => None
  | Some status_line =>
      match split_whitespace status_line with
      | version :: parts =>
          if starts_with version (lit "HTTP/") then
            match parts with code :: _ => parse_uint u16_max code | [] => None end
          else None
      | [] => None
      end
  end.

Definition proxy_name (proxy : UpstreamProxyConfig) : str := up_host proxy ++ lit ":" ++ show (up_port proxy).

Section Handshakes.
(** [base64::engine::general_purpose::STANDARD.encode] *)
Context (base64_encode : bytes → str).

Definition proxy_authorization_value (c : UpstreamProxyConfig) : option str :=
  match up_username c with
  | Some username =>
      Some (lit "Basic " ++ base64_encode (username ++ lit ":" ++ default [] (up_password c)))
  | None => None
  end.

Definition connect_request (proxy : UpstreamProxyConfig) (target : TargetAddress) (port : Z) : bytes :=
  let a := authority target port in
  lit "CONNECT " ++ a ++ lit " HTTP/1.1" ++ [13; 10] ++ lit "Host: " ++ a ++ [13; 10]
    ++ match proxy_authorization_value proxy with
       | Some v => lit "Proxy-Authorization: " ++ v ++ [13; 10]
       | None => []
       end ++ [13; 10].

(** A head and its status. *)
Definition read_status (proxy : UpstreamProxyConfig) : IO Z :=
  do! head := read_connect_response_head in
  match parse_status_code head with
  | Some status => ret status
  | None =>
      fail (invalid_data (lit "upstream proxy " ++ proxy_name proxy
              ++ lit " returned a malformed CONNECT response"))
  end.

(** The loop over interim responses; [more] heads may be read. *)
Fixpoint skip_interim (proxy : UpstreamProxyConfig) (more : nat) (status : Z) : IO Z :=
  if (100 <=? status) && (status <? 200) then
    match more with
    | O =>
        fail (invalid_data (lit "upstream proxy " ++ proxy_name proxy
                ++ lit " sent 10 interim CONNECT responses without a final one"))
    | S more => do! status := read_status proxy in skip_interim proxy more status
    end
  else ret status.

Definition http_connect_handshake (proxy : UpstreamProxyConfig) (target : TargetAddress) (port : Z) : IO unit :=
  do! _ := write_all (connect_request proxy target port) in
  do! status := read_status proxy in
  do! status := skip_interim proxy 9 status in
  if negb ((200 <=? status) && (status <? 300)) then
    let hint :=
      if status =? 407 then lit " (the proxy requires authentication — check the username/password)"
      else [] in
    fail {| io_kind := PermissionDenied;
            io_display := lit "upstream proxy " ++ proxy_name proxy ++ lit " rejected CONNECT to "
              ++ authority target port ++ lit " with status " ++ show status ++ hint |}
  else ret tt.

(** ** Definitions: SOCKS5 *)

Definition socks5_error (proxy : UpstreamProxyConfig) (msg : str) : io_error :=
  invalid_data (lit "SOCKS5 proxy " ++ proxy_name proxy ++ lit " " ++ msg).

(** [{b:02X}] *)
Definition upper_hex_digit (d : Z) : byte := if d <? 10 then 48 + d else 55 + d.
Definition show_02X (b : Z) : str := [upper_hex_digit (b / 16); upper_hex_digit (b mod 16)].

Definition closed_during (proxy : UpstreamProxyConfig) (what : str) (e : io_error) : io_error :=
  {| io_kind := io_kind e;
     io_display := lit "SOCKS5 proxy " ++ proxy_name proxy ++ lit " closed " ++ what ++ lit ": "
       ++ io_display e |}.

Definition socks5_greeting (offers_auth : bool) : bytes :=
  if offers_auth then [SOCKS5_VERSION; 2; SOCKS5_AUTH_NONE; SOCKS5_AUTH_USERNAME_PASSWORD]
  else [SOCKS5_VERSION; 1; SOCKS5_AUTH_NONE].

Definition socks5_auth_message (proxy : UpstreamProxyConfig) : result bytes io_error :=
  let username := default [] (up_username proxy) in
  let password := default [] (up_password proxy) in
  if 255 <? len username then Err (socks5_error proxy (lit "username exceeds the 255-byte SOCKS5 limit"))
  else if 255 <? len password then Err (socks5_error proxy (lit "password exceeds the 255-byte SOCKS5 limit"))
  else Ok ([SOCKS5_AUTH_SUBNEGOTIATION_VERSION; len username] ++ username ++ [len password] ++ password).

Definition lift {A} (r : result A io_error) : IO A := fun s => (r, s).

Definition socks5_username_password_auth (proxy : UpstreamProxyConfig) : IO unit :=
  do! message := lift (socks5_auth_message proxy) in
  do! _ := write_all message in
  do! reply := map_io_err (closed_during proxy (lit "during username/password auth")) (read_exact 2) in
  if negb (nth 1 reply 0 =? 0) then
    fail (socks5_error proxy (lit "rejected the configured username/password"))
  else ret tt.

Definition socks5_request (proxy : UpstreamProxyConfig) (target : TargetAddress) (port : Z)
    : result bytes io_error :=
  let? address :=
    match target with
    | Ip (V4 n) => Ok (SOCKS5_ATYP_IPV4 :: octets (V4 n))
    | Ip (V6 n) => Ok (SOCKS5_ATYP_IPV6 :: octets (V6 n))
    | Domain d =>
        if 255 <? len d then
          Err (socks5_error proxy (lit "target hostname is " ++ show (len d)
                 ++ lit " bytes, which exceeds the 255-byte SOCKS5 limit"))
        else Ok (SOCKS5_ATYP_DOMAIN :: len d :: d)
    end in
  Ok ([SOCKS5_VERSION; SOCKS5_CMD_CONNECT; 0] ++ address ++ to_be_bytes 2 port).

Definition socks5_reply_message (code : Z) : str :=
  if code =? 1 then lit "general SOCKS server failure"
  else if code =? 2 then lit "connection not allowed by ruleset"
  else if code =? 3 then lit "network unreachable"
  else if code =? 4 then lit "host unreachable"
  else if code =? 5 then lit "connection refused"
  else if code =? 6 then lit "TTL expired"
  else if code =? 7 then lit "command not supported"
  else if code =? 8 then lit "address type not supported"
  else lit "unknown SOCKS5 failure".

Definition consume_socks5_bound_address (address_type : Z) (proxy : UpstreamProxyConfig) : IO unit :=
  if address_type =? SOCKS5_ATYP_IPV4 then do! _ := read_exact 6 in ret tt
  else if address_type =? SOCKS5_ATYP_IPV6 then do! _ := read_exact 18 in ret tt
  else if address_type =? SOCKS5_ATYP_DOMAIN then
    do! length := read_exact 1 in
    do! _ := read_exact (Z.to_nat (nth 0 length 0) + 2) in ret tt
  else
    fail (socks5_error proxy (lit "replied with an unknown address type 0x" ++ show_02X address_type)).

Definition socks5_handshake (proxy : UpstreamProxyConfig) (target : TargetAddress) (port : Z) : IO unit :=
  let offers_auth := negb (bool_decide (up_username proxy = None)) in
  do! _ := write_all (socks5_greeting offers_auth) in
  do! method_reply :=
    map_io_err (closed_during proxy (lit "during the method negotiation")) (read_exact 2) in
  if negb (nth 0 method_reply 0 =? SOCKS5_VERSION) then
    fail (socks5_error proxy (lit "expected SOCKS version 5 in the method reply, got "
            ++ show (nth 0 method_reply 0)))
  else
    let selected := nth 1 method_reply 0 in
    do! _ :=
      if selected =? SOCKS5_AUTH_NONE then ret tt
      else if (selected =? SOCKS5_AUTH_USERNAME_PASSWORD) && offers_auth then
        socks5_username_password_auth proxy
      else if selected =? SOCKS5_AUTH_UNACCEPTABLE then
        let hint :=
          if offers_auth then lit "check the username/password"
          else lit "the proxy requires authentication but no username/password is configured" in
        fail (socks5_error proxy (lit "rejected all offered authentication methods (" ++ hint ++ lit ")"))
      else
        fail (socks5_error proxy (lit "selected unsupported authentication method 0x" ++ show_02X selected)) in
    do! request := lift (socks5_request proxy target port) in
    do! _ := write_all request in
    do! reply := map_io_err (closed_during proxy (lit "before replying to CONNECT")) (read_exact 4) in
    if negb (nth 0 reply 0 =? SOCKS5_VERSION) then
      fail (socks5_error proxy (lit "expected SOCKS version 5 in the CONNECT reply, got " ++ show (nth 0 reply 0)))
    else if negb (nth 1 reply 0 =? 0) then
      fail (socks5_error proxy (lit "rejected CONNECT to " ++ authority target port ++ lit ": "
              ++ socks5_reply_message (nth 1 reply 0)))
    else consume_socks5_bound_address (nth 3 reply 0) proxy.

(** ** Definitions: dialing *)

Inductive DialRoute := Direct | UpstreamProxyRoute.

(** The addresses handed to [TcpStream::connect]. *)
Inductive ConnectAddr := SocketAddr (ip : IpAddr) (port : Z) | HostPort (host : str) (port : Z).

(** What the network does: a TCP connect, [ServerName::try_from], the TLS
    session (server name, whether the certificate is verified) or the text of
    its error, and whether the dial deadline passes first. *)
Record DialEnv := {
  env_connect : ConnectAddr → result Stream io_error;
  env_server_name : str → bool;
  env_tls : str → bool → Stream → result Stream str;
  env_elapsed : bool
}.

(** [host.strip_prefix('[').and_then(|i| i.strip_suffix(']')).unwrap_or(host)] *)
Definition tls_server_name_host (host : str) : str :=
  match strip_prefix host (lit "[") with
  | Some inner => default host (@rev Z <$> strip_prefix (rev inner) (lit "]"))
  | None => host
  end.

Definition tls_wrap_proxy_hop (env : DialEnv) (tcp : Stream) (proxy : UpstreamProxyConfig)
    : result Stream io_error :=
  let server_name := tls_server_name_host (up_host proxy) in
  if negb (env_server_name env server_name) then
    Err {| io_kind := InvalidInput;
           io_display := lit "upstream proxy host '" ++ up_host proxy
             ++ lit "' is not a valid TLS server name" |}
  else
    map_err (fun e =>
      invalid_data (lit "TLS handshake with upstream proxy " ++ proxy_name proxy ++ lit " failed: " ++ e
        ++ lit ". The proxy certificate must be trusted by the OS root store."))
      (env_tls env server_name true tcp).

Definition dial_direct (env : DialEnv) (target_host : str) (target_port : Z)
    (dns_override_ip : option IpAddr) : result Stream io_error :=
  match dns_override_ip with
  | Some ip => env_connect env (SocketAddr ip target_port)
  | None => env_connect env (HostPort target_host target_port)
  end.

Definition dial_via_proxy (env : DialEnv) (proxy : UpstreamProxyConfig) (target : TargetAddress) (port : Z)
    : result Stream io_error :=
  let? tcp :=
    map_err (fun e => {| io_kind := io_kind e;
                         io_display := lit "failed to connect to upstream proxy " ++ proxy_name proxy
                           ++ lit ": " ++ io_display e |})
      (env_connect env (HostPort (up_host proxy) (up_port proxy))) in
  let run stream handshake := let '(r, s) := handshake stream in let? _ := r in Ok s in
  match up_protocol proxy with
  | Http => run tcp (http_connect_handshake proxy target port)
  | Https =>
      let? stream := tls_wrap_proxy_hop env tcp proxy in
      run stream (http_connect_handshake proxy target port)
  | Socks5 => run tcp (socks5_handshake proxy target port)
  end.

Definition target_address (target_host : str) (dns_override_ip : option IpAddr) : TargetAddress :=
  match dns_override_ip with
  | Some ip => Ip ip
  | None =>
      match parse_ip (trim_end_matches (chr "]") (trim_start_matches (chr "[") target_host)) with
      | Some ip => Ip ip
      | None => Domain target_host
      end
  end.

Definition dial_target (env : DialEnv) (proxy : option UpstreamProxyConfig) (target_host : str)
    (target_port : Z) (dns_override_ip : option IpAddr) : result (Stream * DialRoute) io_error :=
  let direct := let? s := dial_direct env target_host target_port dns_override_ip in Ok (s, Direct) in
  match proxy with
  | None => direct
  | Some proxy =>
      if should_bypass proxy target_host then direct
      else if env_elapsed env then
        Err {| io_kind := TimedOut;
               io_display := lit "upstream proxy " ++ proxy_name proxy ++ lit " did not complete the "
                 ++ protocol_as_str (up_protocol proxy) ++ lit " handshake within "
                 ++ show (timeout UpstreamProxyDial) ++ lit "s" |}
      else
        let? s := dial_via_proxy env proxy (target_address target_host dns_override_ip) target_port in
        Ok (s, UpstreamProxyRoute)
  end.

Record UpstreamProxyProbeResult := {
  probe_success : bool; probe_elapsed_ms : Z; probe_error : option str; probe_target : str
}.

Definition probe_upstream_proxy (env : DialEnv) (elapsed_ms : Z) (config : UpstreamProxyConfig)
    (probe_host : str) (probe_port : Z) : UpstreamProxyProbeResult :=
  let target_text := probe_host ++ lit ":" ++ show probe_port in
  match validate config with
  | Err e => {| probe_success := false; probe_elapsed_ms := 0; probe_error := Some e; probe_target := target_text |}
  | Ok _ =>
      let target := match parse_ip probe_host with Some ip => Ip ip | None => Domain probe_host end in
      let outcome ok e :=
        {| probe_success := ok; probe_elapsed_ms := elapsed_ms; probe_error := e; probe_target := target_text |} in
      if env_elapsed env then
        outcome false (Some (lit "timed out after " ++ show (timeout UpstreamProxyDial)
          ++ lit "s waiting for upstream proxy " ++ proxy_name config))
      else
        match dial_via_proxy env config target probe_port with
        | Ok _ => outcome true None
        | Err e => outcome false (Some (io_display e))
        end
  end.
End Handshakes.

(** ** Dialogues

    What a program exchanges with its peer when it succeeds: the bytes it
    consumes and the messages it writes.  [accepts m D] characterises success
    of [m] on every stream. *)

Definition exchanged (s : Stream) (r : bytes) (w : list bytes) (s' : Stream) : Prop :=
  input s = r ++ input s' ∧ output s' = output s ++ w ∧ in_end s' = in_end s ∧
  Forall (.= None) (take (length w) (write_results s)) ∧
  write_results s' = drop (length w) (write_results s).

Definition accepts {A} (m : IO A) (D : A → bytes → list bytes → Prop) : Prop :=
  ∀ s a s', m s = (Ok a, s') ↔ ∃ r w, D a r w ∧ exchanged s r w s'.

Definition then_ {A B} (D : A → bytes → list bytes → Prop) (K : A → B → bytes → list bytes → Prop)
    (b : B) (r : bytes) (w : list bytes) : Prop :=
  ∃ a r1 w1 r2 w2, D a r1 w1 ∧ K a b r2 w2 ∧ r = r1 ++ r2 ∧ w = w1 ++ w2.

Lemma exchanged_nil s s' : exchanged s [] [] s' ↔ s' = s.
Proof.
  unfold exchanged. destruct s, s'; simpl. rewrite app_nil_r. split.
  - intros (-> & -> & -> & _ & ->). done.
  - intros [= -> -> -> ->]. done.
Qed.

Lemma exchanged_app s r1 w1 r2 w2 s2 :
  exchanged s (r1 ++ r2) (w1 ++ w2) s2 ↔
  ∃ s1, exchanged s r1 w1 s1 ∧ exchanged s1 r2 w2 s2.
Proof.
  unfold exchanged. split.
  - intros (Hi & Ho & He & Hw & Hr).
    rewrite length_app in Hw, Hr. rewrite <- drop_drop in Hr.
    exists {| input := r2 ++ input s2; in_end := in_end s; output := output s ++ w1;
              write_results := drop (length w1) (write_results s) |}; simpl.
    rewrite <- take_take_drop in Hw. apply Forall_app in Hw as [Hw1 Hw2].
    rewrite <- !app_assoc in *. auto 10.
  - intros (s1 & (Hi1 & Ho1 & He1 & Hw1 & Hr1) & (Hi2 & Ho2 & He2 & Hw2 & Hr2)).
    rewrite length_app, <- drop_drop, <- take_take_drop, Forall_app.
    rewrite Hi1, Hi2, Ho2, Ho1, He2, He1, Hr2, <- Hr1, <- !app_assoc. auto 10.
Qed.

Lemma accepts_ret {A} (a : A) : accepts (ret a) (fun b r w => b = a ∧ r = [] ∧ w = []).
Proof.
  intros s b s'. unfold ret. split.
  - intros [= <- <-]. exists [], []. by rewrite exchanged_nil.
  - intros (r & w & (-> & -> & ->) & H). by apply exchanged_nil in H as ->.
Qed.

Lemma accepts_fail {A} e : accepts (@fail A e) (fun _ _ _ => False).
Proof. intros s a s'. unfold fail. split; [done | by intros (? & ? & [] & _)]. Qed.

Lemma accepts_lift {A} (x : result A io_error) : accepts (lift x) (fun b r w => x = Ok b ∧ r = [] ∧ w = []).
Proof.
  intros s b s'. unfold lift. split.
  - intros [= -> <-]. exists [], []. by rewrite exchanged_nil.
  - intros (r & w & (-> & -> & ->) & H). by apply exchanged_nil in H as ->.
Qed.

Lemma accepts_map_io_err {A} f (m : IO A) D : accepts m D → accepts (map_io_err f m) D.
Proof.
  intros Hm s a s'. rewrite <- (Hm s a s'). unfold map_io_err. destruct (m s) as [[] ?]; naive_solver.
Qed.

Lemma accepts_bind {A B} (m : IO A) (k : A → IO B) D K :
  accepts m D → (∀ a, accepts (k a) (K a)) → accepts (bind m k) (then_ D K).
Proof.
  intros Hm Hk s b s'. transitivity (∃ a s1, m s = (Ok a, s1) ∧ k a s1 = (Ok b, s')).
  { unfold bind. destruct (m s) as [[a|e] s1]; naive_solver. }
  split.
  - intros (a & s1 & (r1 & w1 & HD & H1)%Hm & (r2 & w2 & HK & H2)%Hk).
    exists (r1 ++ r2), (w1 ++ w2). rewrite exchanged_app. unfold then_. eauto 15.
  - intros (r & w & (a & r1 & w1 & r2 & w2 & HD & HK & -> & ->) & (s1 & H1 & H2)%exchanged_app).
    exists a, s1. rewrite (Hm s a s1), (Hk a s1 b s'). eauto 10.
Qed.

Lemma accepts_if {A} (b : bool) (m1 m2 : IO A) D1 D2 :
  accepts m1 D1 → accepts m2 D2 →
  accepts (if b then m1 else m2) (fun a r w => if b then D1 a r w else D2 a r w).
Proof. by destruct b. Qed.

Lemma accepts_iff {A} (m : IO A) D D' :
  accepts m D → (∀ a r w, D a r w ↔ D' a r w) → accepts m D'.
Proof. intros Hm HD s a s'. rewrite (Hm s a s'). setoid_rewrite HD. done. Qed.

Lemma accepts_write_all msg : accepts (write_all msg) (fun _ r w => r = [] ∧ w = [msg]).
Proof.
  intros s [] s'. unfold write_all. split.
  - intros H. exists [], [msg]. unfold exchanged.
    destruct (write_results s) as [|[e|] ws] eqn:Hw; simplify_eq/=; auto 10.
  - intros (r & w & (-> & ->) & (Hi & Ho & He & Hw & Hr)). destruct s, s'; simpl in *; subst.
    destruct write_results0 as [|o ws]; simpl; [done|].
    apply List.Forall_inv in Hw as ->. simpl. by rewrite drop_0.
Qed.

Lemma accepts_read_exact n : accepts (read_exact n) (fun x r w => length x = n ∧ r = x ∧ w = []).
Proof.
  intros s x s'. unfold read_exact, with_input. destruct (Nat.leb_spec n (length (input s))) as [Hn|Hn].
  - split.
    + intros [= <- <-]. eexists _, []. split; [by rewrite length_take_le|].
      split_and!; simpl; rewrite ?take_drop, ?app_nil_r; auto.
    + intros (r & w & (Hl & -> & ->) & (Hi & Ho & He & _ & Hr)). rewrite Hi, <- Hl.
      rewrite take_app_length, drop_app_length. destruct s, s'; simpl in *.
      rewrite app_nil_r in Ho. rewrite drop_0 in Hr. by subst.
  - split; [done|]. intros (r & w & (Hl & -> & ->) & (Hi & _)).
    rewrite Hi, length_app in Hn. lia.
Qed.

Lemma then_intro {A B} (D : A → bytes → list bytes → Prop) (K : A → B → bytes → list bytes → Prop)
    a r1 w1 r2 w2 b r w :
  r = r1 ++ r2 → w = w1 ++ w2 → D a r1 w1 → K a b r2 w2 → then_ D K b r w.
Proof. unfold then_. eauto 10. Qed.

(** One exchange of a composed dialogue: the value, what is read, what is written. *)
Ltac say a r w := eapply (then_intro _ _ a r w); [reflexivity | reflexivity | try done | ].

(** The dialogue of a program, from its structure. *)
Ltac dialogue_step :=
  first
    [ apply accepts_ret | apply accepts_fail | apply accepts_lift | apply accepts_write_all
    | apply accepts_read_exact | eapply accepts_map_io_err | eapply accepts_if
    | eapply accepts_bind; [|intros ?] ].
Ltac dialogue := repeat dialogue_step.

(** ** SOCKS5 against RFC 1928 and RFC 1929 *)

(** [BND.ADDR] and [BND.PORT] of the given type *)
Inductive bound_address : Z → bytes → Prop :=
  | BoundV4 x : length x = 6%nat → bound_address 1 x
  | BoundV6 x : length x = 18%nat → bound_address 4 x
  | BoundDomain n x : length x = (Z.to_nat n + 2)%nat → bound_address 3 (n :: x).

Definition offers_auth (proxy : UpstreamProxyConfig) : bool := negb (bool_decide (up_username proxy = None)).

(** A dialogue that ends with a granted request: what the server sends, and the
    messages of the client. *)
Inductive socks5_dialogue (proxy : UpstreamProxyConfig) (target : TargetAddress) (port : Z)
    : bytes → list bytes → Prop :=
  | DialogueOpen rsv atyp bound request :
      socks5_request proxy target port = Ok request → bound_address atyp bound →
      socks5_dialogue proxy target port
        ([5; 0] ++ [5; 0; rsv; atyp] ++ bound) [socks5_greeting (offers_auth proxy); request]
  | DialogueAuth v rsv atyp bound credentials request :
      offers_auth proxy = true → socks5_auth_message proxy = Ok credentials →
      socks5_request proxy target port = Ok request → bound_address atyp bound →
      socks5_dialogue proxy target port
        ([5; 2] ++ [v; 0] ++ [5; 0; rsv; atyp] ++ bound)
        [socks5_greeting (offers_auth proxy); credentials; request].

Lemma length2 {A} (l : list A) : length l = 2%nat → ∃ a b, l = [a; b].
Proof. destruct l as [|a [|b [|]]]; simpl; try done. eauto. Qed.

Lemma length4 {A} (l : list A) : length l = 4%nat → ∃ a b c d, l = [a; b; c; d].
Proof. destruct l as [|a [|b [|c [|d [|]]]]]; simpl; try done. eauto. Qed.

Lemma length1 {A} (l : list A) : length l = 1%nat → ∃ a, l = [a].
Proof. destruct l as [|a [|]]; simpl; try done. eauto. Qed.

Lemma consume_accepts atyp proxy :
  accepts (consume_socks5_bound_address atyp proxy) (fun _ r w => bound_address atyp r ∧ w = []).
Proof.
  eapply accepts_iff; [unfold consume_socks5_bound_address; dialogue|].
  intros [] r w. unfold then_, SOCKS5_ATYP_IPV4, SOCKS5_ATYP_IPV6, SOCKS5_ATYP_DOMAIN. split.
  - repeat case_match; breflect; subst.
    + intros (x & r1 & w1 & r2 & w2 & (Hl & -> & ->) & (_ & -> & ->) & -> & ->).
      rewrite app_nil_r. split; [by constructor | done].
    + intros (x & r1 & w1 & r2 & w2 & (Hl & -> & ->) & (_ & -> & ->) & -> & ->).
      rewrite app_nil_r. split; [by constructor | done].
    + intros (x & r1 & w1 & r2 & w2 & (Hl & -> & ->) & (y & r3 & w3 & r4 & w4 & (Hy & -> & ->) & (_ & -> & ->) & -> & ->) & -> & ->).
      apply length1 in Hl as [n ->]. rewrite app_nil_r. split; [by constructor | done].
    + done.
  - intros [Hb ->]. inversion Hb as [x Hx|x Hx|n x Hx]; subst; simpl.
    + exists r, r, [], [], []. by rewrite app_nil_r.
    + exists r, r, [], [], []. by rewrite app_nil_r.
    + exists [n], [n], [], x, []. split_and!; try done. exists x, x, [], [], []. by rewrite app_nil_r.
Qed.

(** Take apart the hypotheses a composed dialogue gives. *)
Ltac undialogue :=
  unfold then_ in *;
  repeat match goal with
  | H : ∃ _, _ |- _ => destruct H
  | H : _ ∧ _ |- _ => destruct H
  | H : if ?b then _ else _ |- _ => destruct b eqn:?
  | H : False |- _ => destruct H
  | H : length _ = 2%nat |- _ => apply length2 in H
  | H : length _ = 4%nat |- _ => apply length4 in H
  | x : unit |- _ => destruct x
  end; subst; simpl in *; breflect.

Lemma auth_accepts proxy :
  accepts (socks5_username_password_auth proxy)
    (fun _ r w => ∃ v m, socks5_auth_message proxy = Ok m ∧ r = [v; 0] ∧ w = [m]).
Proof.
  eapply accepts_iff; [unfold socks5_username_password_auth; dialogue|]. intros [] r w. split.
  - intros H. undialogue. subst. eauto.
  - intros (v & m & Hm & -> & ->). say m (@nil Z) (@nil bytes). say tt (@nil Z) [m].
    by say [v; 0] [v; 0] (@nil bytes).
Qed.

Lemma socks5_accepts proxy target port :
  accepts (socks5_handshake proxy target port) (fun _ => socks5_dialogue proxy target port).
Proof.
  eapply accepts_iff.
  { unfold socks5_handshake. repeat first [apply auth_accepts | apply consume_accepts | dialogue_step]. }
  fold (offers_auth proxy). intros [] r w. unfold SOCKS5_VERSION, SOCKS5_AUTH_NONE, SOCKS5_AUTH_USERNAME_PASSWORD. split.
  - intros H. undialogue; subst; by econstructor.
  - intros H. destruct H as [rsv atyp bound request Hr Hb|v rsv atyp bound m request Ho Hm Hr Hb].
    + say tt (@nil Z) [socks5_greeting (offers_auth proxy)]. say [5; 0] [5; 0] (@nil bytes). simpl.
      say tt (@nil Z) (@nil bytes). say request (@nil Z) (@nil bytes). say tt (@nil Z) [request].
      by say [5; 0; rsv; atyp] [5; 0; rsv; atyp] (@nil bytes).
    + say tt (@nil Z) [socks5_greeting (offers_auth proxy)]. say [5; 2] [5; 2] (@nil bytes). simpl. rewrite Ho.
      say tt [v; 0] [m]; [by eauto|]. say request (@nil Z) (@nil bytes). say tt (@nil Z) [request].
      by say [5; 0; rsv; atyp] [5; 0; rsv; atyp] (@nil bytes).
Qed.

(** ** The CONNECT response head *)

(** A head ends with the first empty line in it. *)
Definition response_head (h : bytes) : Prop :=
  ends_with h crlf2 = true ∧ contains (removelast h) crlf2 = false ∧
  len h <= MAX_CONNECT_RESPONSE_HEAD_BYTES + 1.

Lemma contains_app_l a b p : contains a p = true → contains (a ++ b) p = true.
Proof.
  rewrite !contains_spec. intros (l & r & ->). exists l, (r ++ b). by rewrite <- !app_assoc.
Qed.

Lemma contains_snoc a b p :
  contains a p = false → ends_with (a ++ [b]) p = false → contains (a ++ [b]) p = false.
Proof.
  rewrite <- !not_true_iff_false, !contains_spec, ends_with_spec. intros Ha He (l & r & H).
  destruct r as [|c r _] using rev_ind.
  - apply He. exists l. by rewrite H, app_nil_r.
  - rewrite !app_assoc in H. apply app_inj_tail in H as [-> _]. apply Ha. exists l, r. by rewrite app_assoc.
Qed.

Lemma ends_contains a p : ends_with a p = true → contains a p = true.
Proof. rewrite ends_with_spec, contains_spec. intros [t ->]. exists t, []. by rewrite app_nil_r. Qed.

Lemma read_head_loop_ok e i : ∀ head h i',
  contains head crlf2 = false → len head <= MAX_CONNECT_RESPONSE_HEAD_BYTES →
  read_head_loop e head i = (Ok h, i') ↔
  ∃ x, i = x ++ i' ∧ h = head ++ x ∧ x ≠ [] ∧ response_head h.
Proof.
  induction i as [|b i IH]; intros head h i' Hc Hl; cbn [read_head_loop].
  { split; [done|]. intros (x & Hx & _ & Hn & _). by destruct x. }
  destruct (ends_with (head ++ [b]) crlf2) eqn:He.
  - split.
    + intros [= <- <-]. exists [b]. split_and!; try done. split_and!; [done | by rewrite removelast_last |].
      autorewrite with len. lia.
    + intros ([|c x] & Hx & -> & Hn & _ & Hr & _); [done|]. injection Hx as <- Hi.
      destruct x as [|d x]; [by subst|]. exfalso.
      rewrite (app_assoc head [b] (d :: x) : head ++ b :: d :: x = _), removelast_app in Hr by done.
      by rewrite (contains_app_l _ _ _ (ends_contains _ _ He)) in Hr.
  - assert (∀ x, x ≠ [] → response_head (head ++ x) → ∀ r, b :: i = x ++ r →
      ∃ y, x = b :: y ∧ y ≠ [] ∧ i = y ++ r) as Hy.
    { intros [|c y] Hn (Hh & _) r Hx; [done|]. injection Hx as <- ->. exists y. split_and!; [done| |done].
      intros ->. congruence. }
    destruct (Z.ltb_spec MAX_CONNECT_RESPONSE_HEAD_BYTES (len (head ++ [b]))) as [Hlt|Hle].
    + split; [done|]. intros (x & Hx & -> & Hn & Hh). destruct (Hy x Hn Hh _ Hx) as (y & -> & Hy0 & _).
      destruct Hh as (_ & _ & Hh). destruct y; [done|]. autorewrite with len in *. pose proof (len_nonneg y). lia.
    + rewrite IH by (first [by apply contains_snoc | done]). split.
      * intros (x & -> & -> & Hn & Hh). exists (b :: x). by rewrite <- app_assoc in *.
      * intros (x & Hx & -> & Hn & Hh). destruct (Hy x Hn Hh _ Hx) as (y & -> & Hy0 & ->).
        exists y. by rewrite <- app_assoc.
Qed.

Lemma read_head_accepts :
  accepts read_connect_response_head (fun h r w => r = h ∧ w = [] ∧ response_head h).
Proof.
  intros s h s'. unfold read_connect_response_head.
  destruct (read_head_loop (in_end s) [] (input s)) as [x i] eqn:Hr. split.
  - intros [= -> <-]. apply read_head_loop_ok in Hr as (x & Hx & -> & _ & Hh); [|done..].
    exists x, []. split; [done|]. unfold exchanged, with_input; simpl. by rewrite app_nil_r.
  - intros (r & w & (-> & -> & Hh) & Hi & Ho & He & _ & Hw). rewrite app_nil_r in Ho.
    assert (read_head_loop (in_end s) [] (input s) = (Ok h, input s')) as Heq.
    { apply read_head_loop_ok; [done..|]. exists h. split_and!; try done.
      by destruct h; [destruct Hh as (? & _)|]. }
    rewrite Hr in Heq. injection Heq as -> ->. f_equal. destruct s, s'; simpl in *. by subst.
Qed.

Definition interim (status : Z) : bool := (100 <=? status) && (status <? 200).

Definition has_status (h : bytes) (status : Z) : Prop := response_head h ∧ parse_status_code h = Some status.

(** At most nine interim responses and a 2xx response, and nothing after it. *)
Definition connect_dialogue (base64_encode : bytes → str) (proxy : UpstreamProxyConfig)
    (target : TargetAddress) (port : Z) (r : bytes) (w : list bytes) : Prop :=
  w = [connect_request base64_encode proxy target port] ∧
  ∃ heads final status,
    r = concat heads ++ final ∧ (length heads <= 9)%nat ∧
    Forall (fun h => ∃ st, has_status h st ∧ interim st = true) heads ∧
    has_status final status ∧ 200 <= status < 300.

Lemma read_status_accepts proxy :
  accepts (read_status proxy) (fun st r w => has_status r st ∧ w = []).
Proof.
  eapply accepts_iff with (D := then_ (fun h r w => r = h ∧ w = [] ∧ response_head h)
    (fun h st r w => parse_status_code h = Some st ∧ r = [] ∧ w = [])).
  - unfold read_status. eapply accepts_bind; [apply read_head_accepts|]. intros h.
    destruct (parse_status_code h) as [st|].
    + eapply accepts_iff; [apply accepts_ret | naive_solver].
    + eapply accepts_iff; [apply accepts_fail | naive_solver].
  - intros st r w. unfold has_status. split.
    + intros H. undialogue. rewrite app_nil_r. done.
    + intros ((Hh & Hst) & ->). exists r, r, [], [], []. by rewrite app_nil_r.
Qed.

(** The interim loop after a head of status [st]: the heads it reads and the final status. *)
Inductive skips : nat → Z → list bytes → Z → Prop :=
  | SkipDone more st : interim st = false → skips more st [] st
  | SkipMore more st h st1 hs st2 :
      interim st = true → has_status h st1 → skips more st1 hs st2 → skips (S more) st (h :: hs) st2.

Lemma skip_interim_accepts proxy more : ∀ st,
  accepts (skip_interim proxy more st) (fun st' r w => ∃ hs, skips more st hs st' ∧ r = concat hs ∧ w = []).
Proof.
  induction more as [|more IH]; intros st; cbn [skip_interim]; fold (interim st);
    destruct (interim st) eqn:Hi.
  - eapply accepts_iff; [apply accepts_fail|]. intros st' r w. split; [done|].
    intros (hs & Hs & _). inversion Hs; congruence.
  - eapply accepts_iff; [apply accepts_ret|]. intros st' r w. split.
    + intros (-> & -> & ->). exists []. split; [by constructor | done].
    + intros (hs & Hs & -> & ->). by inversion Hs; subst.
  - eapply accepts_iff.
    { eapply accepts_bind; [apply read_status_accepts|]. apply IH. }
    intros st' r w. split.
    + intros H. undialogue. exists (x0 :: x4). split; [by econstructor | done].
    + intros (hs & Hs & -> & ->). inversion Hs; subst; [congruence|].
      say st1 h (@nil bytes). eauto.
  - eapply accepts_iff; [apply accepts_ret|]. intros st' r w. split.
    + intros (-> & -> & ->). exists []. split; [by constructor | done].
    + intros (hs & Hs & -> & ->). inversion Hs; subst; [done | congruence].
Qed.

Lemma skips_heads more h st hs st' :
  has_status h st → skips more st hs st' →
  ∃ heads final, h :: hs = heads ++ [final] ∧ (length heads <= more)%nat ∧ has_status final st' ∧
    Forall (fun h => ∃ st, has_status h st ∧ interim st = true) heads.
Proof.
  intros Hh Hs. revert h Hh. induction Hs as [more st Hi|more st h1 st1 hs st2 Hi H1 Hs IH]; intros h Hh.
  - exists [], h. split_and!; [done | simpl; lia | done | constructor].
  - destruct (IH h1 H1) as (heads & final & Heq & Hl & Hf & Hall). exists (h :: heads), final.
    split_and!; [by rewrite Heq | simpl; lia | done | constructor; eauto].
Qed.

Lemma heads_skips heads : ∀ more final st',
  (length heads <= more)%nat → has_status final st' → interim st' = false →
  Forall (fun h => ∃ st, has_status h st ∧ interim st = true) heads →
  ∃ h st hs, heads ++ [final] = h :: hs ∧ has_status h st ∧ skips more st hs st'.
Proof.
  induction heads as [|h heads IH]; intros more final st' Hl Hf Hi Hall.
  - exists final, st', []. split_and!; [done..|]. by constructor.
  - inversion Hall as [|? ? (st & Hst & Hin) Hall']; subst. destruct more as [|more]; simpl in Hl; [lia|].
    destruct (IH more final st') as (h1 & st1 & hs & Heq & H1 & Hs); [lia | done..|].
    exists h, st, (h1 :: hs). split_and!; [by rewrite <- Heq | done |]. by econstructor.
Qed.

Lemma concat_snoc (h : bytes) hs heads final :
  h :: hs = heads ++ [final] → h ++ concat hs = concat heads ++ final.
Proof.
  intros Heq. change (h ++ concat hs) with (concat (h :: hs)). rewrite Heq, concat_app. simpl.
  by rewrite app_nil_r.
Qed.

Lemma connect_accepts b64 proxy target port :
  accepts (http_connect_handshake b64 proxy target port)
    (fun _ => connect_dialogue b64 proxy target port).
Proof.
  eapply accepts_iff.
  { unfold http_connect_handshake. eapply accepts_bind; [apply accepts_write_all|]. intros ?.
    eapply accepts_bind; [apply read_status_accepts|]. intros st.
    eapply accepts_bind; [apply skip_interim_accepts|]. intros st'. dialogue. }
  intros [] r w. unfold connect_dialogue. split.
  - intros H. undialogue. edestruct skips_heads as (heads & final & Heq & Hl & Hf & Hall); [done..|].
    split; [done|]. exists heads, final, x9. split_and!; try done; try lia.
    rewrite !app_nil_r. by apply concat_snoc.
  - intros (-> & heads & final & status & -> & Hl & Hall & Hf & Hst).
    destruct (heads_skips heads 9 final status) as (h & st & hs & Heq & Hh & Hs); try done.
    { unfold interim. apply andb_false_iff. lia. }
    rewrite <- (concat_snoc h hs heads final) by done.
    say tt (@nil Z) [connect_request b64 proxy target port]. say st h (@nil bytes).
    eapply (then_intro _ _ status (concat hs) [] [] []); rewrite ?app_nil_r; [done..| by eauto |].
    simpl. assert ((200 <=? status) && (status <? 300) = true) as -> by (apply andb_true_iff; lia). done.
Qed.

(** ** Properties: handshakes *)

(** the SOCKS5 handshake succeeds exactly on the dialogues of RFC 1928 and
    1929 that grant the request, with or without username and password; it
    writes the messages of the dialogue in order and leaves the first byte after
    the bound address, and everything that follows, to the tunnel. *)
Theorem socks5_handshake_dialogue proxy target port s s' :
  socks5_handshake proxy target port s = (Ok tt, s') ↔
  ∃ r w, socks5_dialogue proxy target port r w ∧ exchanged s r w s'.
Proof. apply socks5_accepts. Qed.

(** the CONNECT handshake succeeds exactly when the proxy answers the request
    with at most nine interim responses and then a 2xx response, each head
    ending at its first empty line; no byte after the last head is consumed. *)
Theorem connect_handshake_dialogue b64 proxy target port s s' :
  http_connect_handshake b64 proxy target port s = (Ok tt, s') ↔
  ∃ r w, connect_dialogue b64 proxy target port r w ∧ exchanged s r w s'.
Proof. apply connect_accepts. Qed.

(** *** The server's view of the SOCKS5 messages *)

(** An address of [k] bytes and a port *)
Definition split_address (k : nat) (r : bytes) : option (bytes * Z) :=
  if (length r =? k + 2)%nat then Some (take k r, from_be_bytes (drop k r)) else None.

Definition decode_request (m : bytes) : option (TargetAddress * Z) :=
  match m with
  | 5 :: 1 :: 0 :: 1 :: r => (fun '(a, p) => (Ip (V4 (from_be_bytes a)), p)) <$> split_address 4 r
  | 5 :: 1 :: 0 :: 4 :: r => (fun '(a, p) => (Ip (V6 (from_be_bytes a)), p)) <$> split_address 16 r
  | 5 :: 1 :: 0 :: 3 :: n :: r => (fun '(a, p) => (Domain a, p)) <$> split_address (Z.to_nat n) r
  | _ => None
  end.

Definition decode_credentials (m : bytes) : option (str * str) :=
  match m with
  | 1 :: n :: r =>
      match drop (Z.to_nat n) r with
      | k :: p => if len p =? k then Some (take (Z.to_nat n) r, p) else None
      | [] => None
      end
  | _ => None
  end.

Definition valid_target (t : TargetAddress) : Prop :=
  match t with
  | Ip (V4 a) => 0 <= a < 2 ^ 32
  | Ip (V6 a) => 0 <= a < 2 ^ 128
  | Domain _ => True
  end.

Lemma split_address_app k x port :
  length x = k → 0 <= port <= u16_max → split_address k (x ++ to_be_bytes 2 port) = Some (x, port).
Proof.
  intros <- Hp. unfold split_address. rewrite length_app, length_to_be_bytes, Nat.eqb_refl.
  rewrite take_app_length, drop_app_length, from_to_be_bytes; [done|].
  unfold u16_max in Hp. simpl. lia.
Qed.

(** what the handshake writes means what was asked for: a server that reads
    the request and the credentials message recovers the target, the port, the
    username and the password; a field that does not fit its length byte is an
    error and never a truncated message. *)
Theorem socks5_messages_decode proxy target port :
  valid_target target → 0 <= port <= u16_max →
  (∀ m, socks5_request proxy target port = Ok m → decode_request m = Some (target, port)) ∧
  (∀ m, socks5_auth_message proxy = Ok m →
        decode_credentials m = Some (default [] (up_username proxy), default [] (up_password proxy))) ∧
  (is_ok (socks5_request proxy target port) = false ↔ ∃ d, target = Domain d ∧ 255 < len d) ∧
  (is_ok (socks5_auth_message proxy) = false ↔
     255 < len (default [] (up_username proxy)) ∨ 255 < len (default [] (up_password proxy))).
Proof.
  intros Ht Hp. split_and!.
  - intros m Hm. destruct target as [[a|a]|d]; unfold socks5_request in Hm.
    + injection Hm as <-. change (decode_request _) with
        ((fun '(a, p) => (Ip (V4 (from_be_bytes a)), p)) <$> split_address 4 (to_be_bytes 4 a ++ to_be_bytes 2 port)).
      rewrite split_address_app; [|apply length_to_be_bytes|done]. cbn [fmap option_fmap option_map]. by rewrite from_to_be_bytes.
    + injection Hm as <-. change (decode_request _) with
        ((fun '(a, p) => (Ip (V6 (from_be_bytes a)), p)) <$> split_address 16 (to_be_bytes 16 a ++ to_be_bytes 2 port)).
      rewrite split_address_app; [|apply length_to_be_bytes|done]. cbn [fmap option_fmap option_map]. by rewrite from_to_be_bytes.
    + destruct (255 <? len d); [done|]. simpl rbind in Hm. injection Hm as <-.
      change (decode_request _) with
        ((fun '(a, p) => (Domain a, p)) <$> split_address (Z.to_nat (len d)) (d ++ to_be_bytes 2 port)).
      by rewrite split_address_app by (rewrite ?to_nat_len; done).
  - intros m Hm. unfold socks5_auth_message in Hm. repeat case_match; try done. injection Hm as <-.
    cbn [app decode_credentials SOCKS5_AUTH_SUBNEGOTIATION_VERSION]. rewrite to_nat_len, drop_app_length.
    by rewrite Z.eqb_refl, take_app_length.
  - unfold socks5_request. destruct target as [[a|a]|d]; simpl; [naive_solver..|].
    destruct (Z.ltb_spec 255 (len d)); simpl; [naive_solver|]. split; [done|]. intros (? & [= ->] & ?). lia.
  - unfold socks5_auth_message. repeat case_match; breflect; simpl; naive_solver lia.
Qed.

Lemma accepts_map_io_err_read f n :
  accepts (map_io_err f (read_exact n)) (fun x r w => length x = n ∧ r = x ∧ w = []).
Proof. apply accepts_map_io_err, accepts_read_exact. Qed.

(** *** Where credentials and connections go *)

Lemma bind_ext {A B} (m1 m2 : IO A) (k1 k2 : A → IO B) s :
  m1 s = m2 s → (∀ a s', m2 s = (Ok a, s') → k1 a s' = k2 a s') → bind m1 k1 s = bind m2 k2 s.
Proof. intros Hm Hk. unfold bind. rewrite Hm. destruct (m2 s) as [[a|e] s']; [by apply Hk | done]. Qed.

(** Two configurations of the same proxy with other credentials *)
Definition same_proxy (p q : UpstreamProxyConfig) : Prop :=
  up_host p = up_host q ∧ up_port p = up_port q ∧ offers_auth p = offers_auth q.

(** the credentials stay at home unless the proxy asked for them.  If the
    method reply is not "username and password", the whole run of the handshake
    (messages written, bytes consumed, result, error text) is the same for any
    other username and password. *)
Theorem socks5_credentials_private p q target port s :
  same_proxy p q → take 2 (input s) ≠ [SOCKS5_VERSION; SOCKS5_AUTH_USERNAME_PASSWORD] →
  socks5_handshake p target port s = socks5_handshake q target port s.
Proof.
  intros (Hh & Hp & Ho) Hi. unfold socks5_handshake, consume_socks5_bound_address, socks5_request.
  fold (offers_auth p) (offers_auth q). unfold socks5_error, closed_during, proxy_name. rewrite Ho, Hh, Hp.
  apply bind_ext; [done|]. intros _ s1 (? & ? & (-> & _) & Hin & _)%accepts_write_all.
  apply bind_ext; [done|]. intros m s2 (r & w & (Hl & -> & ->) & Hr & _)%accepts_map_io_err_read.
  apply length2 in Hl as (a & b & ->). cbn [nth]. destruct (Z.eqb_spec a SOCKS5_VERSION) as [->|]; [|done].
  cbn [negb]. apply bind_ext; [|done]. destruct (b =? SOCKS5_AUTH_NONE); [done|].
  destruct (Z.eqb_spec b SOCKS5_AUTH_USERNAME_PASSWORD) as [->|]; [|done].
  by rewrite Hin, Hr in Hi.
Qed.

(** no fallback.  For a host that is not bypassed, a dial touches the network
    only at the address of the proxy: any other network that answers there the
    same gives the same result, and a stream that is returned went through the
    proxy. *)
Theorem dial_no_fallback b64 env env' proxy host port dns :
  should_bypass proxy host = false →
  env_connect env' (HostPort (up_host proxy) (up_port proxy))
    = env_connect env (HostPort (up_host proxy) (up_port proxy)) →
  env_server_name env' = env_server_name env → env_tls env' = env_tls env →
  env_elapsed env' = env_elapsed env →
  dial_target b64 env' (Some proxy) host port dns = dial_target b64 env (Some proxy) host port dns ∧
  ∀ s route, dial_target b64 env (Some proxy) host port dns = Ok (s, route) → route = UpstreamProxyRoute.
Proof.
  intros Hb Hc Hn Ht He. unfold dial_target. rewrite Hb, He. split.
  - unfold dial_via_proxy, tls_wrap_proxy_hop. by rewrite Hc, Hn, Ht.
  - intros s route. destruct (env_elapsed env); [done|].
    destruct (dial_via_proxy _ _ _ _ _); simpl; congruence.
Qed.

Lemma validate_ok c :
  is_ok (validate c) = true ↔
  trim (up_host c) ≠ [] ∧ up_port c ≠ 0 ∧ (up_username c = None → up_password c = None).
Proof.
  unfold validate. destruct (bool_decide (trim (up_host c) = [])) eqn:?; breflect; [naive_solver|].
  destruct (Z.eqb_spec (up_port c) 0); [naive_solver|].
  destruct (up_username c), (up_password c); naive_solver.
Qed.

(** A runtime configuration never carries a password without a username, nor
    blank credentials, host or bypass entries with surrounding space; it passes
    validation exactly when the host is not blank and the port not zero. *)
Theorem runtime_config_normal st c :
  settings_to_runtime_config st = Some c →
  (up_username c = None → up_password c = None) ∧ up_username c ≠ Some [] ∧ up_password c ≠ Some [] ∧
  Forall (fun b => b ≠ [] ∧ trim b = b) (up_bypass c) ∧
  (is_ok (validate c) = true ↔ trim (set_host st) ≠ [] ∧ set_port st ≠ 0).
Proof.
  unfold settings_to_runtime_config. destruct (set_enabled st); simpl; [|done]. intros H.
  assert (∀ s, nonempty s = true ↔ s ≠ []) as Hne.
  { intros s. unfold nonempty. rewrite negb_true_iff, bool_decide_eq_false. done. }
  injection H as <-. cbn. split_and!.
  - repeat case_match; done.
  - repeat case_match; naive_solver.
  - repeat case_match; naive_solver.
  - apply Forall_forall. intros b Hb. apply list_elem_of_In, filter_In in Hb as [Hb Hn].
    apply Hne in Hn. apply in_map_iff in Hb as (c & <- & _). by rewrite trim_idemp.
  - rewrite validate_ok. cbn -[trim]. rewrite trim_idemp. repeat case_match; naive_solver.
Qed.

(** The stored name of a protocol parses back to it, in any case and with
    surrounding space, and [parse] accepts nothing else than the three names and
    the alias [socks5h]. *)
Theorem protocol_round_trip v p :
  protocol_parse v = Some p ↔
  to_ascii_lowercase (trim v) = protocol_as_str p ∨
  (p = Socks5 ∧ to_ascii_lowercase (trim v) = lit "socks5h").
Proof.
  unfold protocol_parse, protocol_as_str. repeat case_bool_decide; destruct p; simpl; naive_solver congruence.
Qed.

(** ** Samples *)

Definition sample_proxy : UpstreamProxyConfig :=
  {| up_protocol := Socks5; up_host := lit "proxy.test"; up_port := 1080;
     up_username := Some (lit "user"); up_password := Some (lit "secret"); up_bypass := [lit "*.local"] |}.

Definition sample_stream (i : bytes) : Stream :=
  {| input := i; in_end := None; output := []; write_results := [] |}.

(** A granted request with a bound domain; [1; 2; 3] is left for the tunnel. *)
Example socks5_sample :
  let '(r, s) := socks5_handshake sample_proxy (Domain (lit "example.com")) 443
    (sample_stream [5; 2; 1; 0; 5; 0; 0; 3; 1; 120; 0; 80; 1; 2; 3]) in
  r = Ok tt ∧ input s = [1; 2; 3] ∧
  output s = [[5; 2; 0; 2]; [1; 4] ++ lit "user" ++ [6] ++ lit "secret";
              [5; 1; 0; 3; 11] ++ lit "example.com" ++ [1; 187]].
Proof. vm_compute. done. Qed.

Definition sample_connect_reply : bytes :=
  lit "HTTP/1.1 100 Continue" ++ crlf2 ++ lit "HTTP/1.1 200 OK" ++ [13; 10] ++ lit "Via: x" ++ crlf2.

Example connect_sample :
  let '(r, s) := http_connect_handshake id sample_proxy (Ip (V6 1)) 443
    (sample_stream (sample_connect_reply ++ [22; 3])) in
  r = Ok tt ∧ input s = [22; 3] ∧
  output s = [lit "CONNECT [::1]:443 HTTP/1.1" ++ [13; 10] ++ lit "Host: [::1]:443" ++ [13; 10]
    ++ lit "Proxy-Authorization: Basic user:secret" ++ crlf2].
Proof. vm_compute. done. Qed.

Lemma socks5_messages_decode_witness :
  decode_request [5; 1; 0; 1; 127; 0; 0; 1; 1; 187] = Some (Ip (V4 2130706433), 443).
Proof.
  assert (valid_target (Ip (V4 2130706433))) as Ht by (cbn; lia).
  assert (0 <= 443 <= u16_max) as Hp by (unfold u16_max; lia).
  destruct (socks5_messages_decode sample_proxy _ _ Ht Hp) as [H _]. apply H. reflexivity.
Defined.

Definition other_credentials : UpstreamProxyConfig :=
  {| up_protocol := Socks5; up_host := lit "proxy.test"; up_port := 1080;
     up_username := Some (lit "root"); up_password := None; up_bypass := [] |}.

Lemma socks5_credentials_private_witness :
  socks5_handshake sample_proxy (Domain (lit "a.b")) 80 (sample_stream [5; 255])
    = socks5_handshake other_credentials (Domain (lit "a.b")) 80 (sample_stream [5; 255]).
Proof. apply socks5_credentials_private; [done | by vm_compute]. Defined.

Definition sample_env (direct : result Stream io_error) : DialEnv :=
  {| env_connect := fun a => match a with
                             | HostPort h _ => if bool_decide (h = lit "proxy.test") then Ok (sample_stream [5; 255]) else direct
                             | SocketAddr _ _ => direct
                             end;
     env_server_name := fun _ => true; env_tls := fun _ _ s => Ok s; env_elapsed := false |}.

Lemma dial_no_fallback_witness :
  dial_target id (sample_env (Ok (sample_stream []))) (Some sample_proxy) (lit "example.com") 443 None
    = dial_target id (sample_env (Err early_eof)) (Some sample_proxy) (lit "example.com") 443 None.
Proof. apply dial_no_fallback; by vm_compute. Defined.

Definition sample_settings : UpstreamProxySettings :=
  {| set_enabled := true; set_protocol := Http; set_host := lit " h "; set_port := 1;
     set_username := Some (lit "  "); set_password := Some (lit "p"); set_bypass := [lit " "; lit " x"] |}.

Lemma runtime_config_normal_witness : ∀ c,
  settings_to_runtime_config sample_settings = Some c → is_ok (validate c) = true.
Proof.
  intros c H. destruct (runtime_config_normal _ c H) as (_ & _ & _ & _ & Hv). by apply Hv.
Defined.
