(* ===== verification/RefusalBody.v ===== *)
(** * RefusalBody: the body of a refused WebSocket upgrade
    (proxy-core/src/ws_upgrade.rs: parse_response_body_framing,
    read_full_response_body and its three readers)

    The upstream is the list of what its next reads give; a read of at most [n]
    bytes leaves the rest of a [Data] event for the next one, and the end of the
    list is the end of the stream.  Every loop carries [fuel], the number of
    iterations it may make: [reads_bound] is enough whatever the upstream sends. *)

From S2P Require Import Prelude Str.

Definition MAX_CHUNK_SIZE_LINE_BYTES : Z := 8 * 1024.
Definition READ_BUFFER_BYTES : Z := 8 * 1024.
Definition MAX_CAPTURED_BODY_BYTES : Z := 20 * 1024 * 1024.

(** ** Framing *)

Inductive BodyFraming := ContentLength (total : Z) | Chunked | ReadUntilClose.

Definition has_token (token : str) (value : str) : bool :=
  existsb (fun t => eq_ignore_ascii_case (trim t) token) (split (chr ",") value).

Definition parse_response_body_framing (headers : list (str * str)) : BodyFraming :=
  let is_chunked :=
    existsb (fun nv => eq_ignore_ascii_case nv.1 (lit "transfer-encoding") && has_token (lit "chunked") nv.2)
      headers in
  if is_chunked then Chunked
  else
    match find_first (fun nv => eq_ignore_ascii_case nv.1 (lit "content-length")) headers with
    | Some nv =>
        match parse_uint usize_max nv.2 with
        | Some total => ContentLength total
        | None => ReadUntilClose
        end
    | None => ReadUntilClose
    end.

(** ** The upstream *)

Inductive BodyEvent := Data (d : bytes) | Idle | ReadFailed (e : str).

Inductive ReadOutcome := Got (d : bytes) | Closed | TimedOut | Failed (e : str).

(** [timeout(idle, upstream.read(&mut chunk[..n]))] *)
Definition read (n : Z) (es : list BodyEvent) : ReadOutcome * list BodyEvent :=
  match es with
  | [] => (Closed, [])
  | Idle :: es => (TimedOut, es)
  | ReadFailed e :: es => (Failed e, es)
  | Data [] :: es => (Closed, es)
  | Data d :: es =>
      (Got (take (Z.to_nat n) d),
       match drop (Z.to_nat n) d with [] => es | rest => Data rest :: es end)
  end.

Definition read_body_error (e : str) : str := lit "read body: " ++ e.

Fixpoint length_loop (fuel : nat) (total : Z) (body : bytes) (es : list BodyEvent)
    : option (result bytes str) :=
  match fuel with
  | O => None
  | S fuel =>
      if len body <? total then
        match read (Z.min READ_BUFFER_BYTES (total - len body)) es with
        | (Got d, es) => length_loop fuel total (body ++ d) es
        | (Failed e, _) => Some (Err (read_body_error e))
        | (TimedOut, _) | (Closed, _) => Some (Ok body)
        end
      else Some (Ok body)
  end.

Definition read_length_delimited_body (fuel : nat) (es : list BodyEvent) (body : bytes) (total : Z)
    : option (result bytes str) :=
  let total := Z.min total MAX_CAPTURED_BODY_BYTES in
  if total <=? len body then Some (Ok (take (Z.to_nat total) body))
  else length_loop fuel total body es.

Fixpoint read_until_close_body (fuel : nat) (es : list BodyEvent) (body : bytes)
    : option (result bytes str) :=
  match fuel with
  | O => None
  | S fuel =>
      if MAX_CAPTURED_BODY_BYTES <=? len body then
        Some (Ok (take (Z.to_nat MAX_CAPTURED_BODY_BYTES) body))
      else
        match read READ_BUFFER_BYTES es with
        | (Got d, es) => read_until_close_body fuel es (body ++ d)
        | (Failed e, _) => Some (Err (read_body_error e))
        | (TimedOut, _) | (Closed, _) => Some (Ok body)
        end
  end.

(** ** Chunked *)

Definition find_crlf (s : bytes) : option nat := find s [13; 10].

(** The stream with its buffer and the consumed offset in it. *)
Record Reader := { buf : bytes; pos : nat; events : list BodyEvent }.

Definition pending (r : Reader) : bytes := drop (pos r) (buf r).

Definition refill_stream (r : Reader) : result bool str * Reader :=
  let kept := pending r in
  match read READ_BUFFER_BYTES (events r) with
  | (Got d, es) => (Ok true, {| buf := kept ++ d; pos := 0; events := es |})
  | (Failed e, es) => (Err (lit "read chunked body: " ++ e), {| buf := kept; pos := 0; events := es |})
  | (TimedOut, es) | (Closed, es) => (Ok false, {| buf := kept; pos := 0; events := es |})
  end.

Fixpoint ensure_bytes (fuel : nat) (r : Reader) (need : Z) : option (result bool str * Reader) :=
  match fuel with
  | O => None
  | S fuel =>
      if len (buf r) - Z.of_nat (pos r) <? need then
        match refill_stream r with
        | (Ok true, r) => ensure_bytes fuel r need
        | (Ok false, r) => Some (Ok false, r)
        | (Err e, r) => Some (Err e, r)
        end
      else Some (Ok true, r)
  end.

(** The inner loop of [read_chunked_body]: the end of the size line. *)
Fixpoint read_size_line (fuel : nat) (r : Reader) : option (result (option nat) str * Reader) :=
  match fuel with
  | O => None
  | S fuel =>
      match find_crlf (pending r) with
      | Some rel => Some (Ok (Some (pos r + rel)%nat), r)
      | None =>
          if MAX_CHUNK_SIZE_LINE_BYTES <? sat_sub (len (buf r)) (Z.of_nat (pos r)) then
            Some (Err (lit "chunk size line exceeds " ++ show MAX_CHUNK_SIZE_LINE_BYTES ++ lit " bytes"), r)
          else
            match refill_stream r with
            | (Ok true, r) => read_size_line fuel r
            | (Ok false, r) => Some (Ok None, r)
            | (Err e, r) => Some (Err e, r)
            end
      end
  end.

Definition hex_value (b : byte) : option Z :=
  if (48 <=? b) && (b <=? 57) then Some (b - 48)
  else if (97 <=? b) && (b <=? 102) then Some (b - 87)
  else if (65 <=? b) && (b <=? 70) then Some (b - 55)
  else None.

(** [usize::from_str_radix(s, 16)] *)
Fixpoint hex_digits (acc : Z) (s : str) : option Z :=
  match s with
  | [] => Some acc
  | b :: s =>
      match hex_value b with
      | Some d => let n := acc * 16 + d in if usize_max <? n then None else hex_digits n s
      | None => None
      end
  end.

Definition from_str_radix_16 (s : str) : option Z :=
  let s := match strip_prefix s (lit "+") with Some t => t | None => s end in
  match s with [] => None | _ => hex_digits 0 s end.

(** The size of a chunk from its size line. *)
Definition parse_chunk_size (debug : str → str) (line : bytes) : result Z str :=
  let? size_str := ok_or (from_utf8 line) (lit "chunk size line is not utf-8") in
  let size_hex := trim (hd [] (split (chr ";") size_str)) in
  let? size := ok_or (from_str_radix_16 size_hex) (lit "invalid chunk size: " ++ debug size_hex) in
  Ok (Z.min size MAX_CAPTURED_BODY_BYTES).

Section Chunked.
(** [{:?}] of a string *)
Context (debug : str → str).

(** One iteration of the loop ends it or goes on. *)
Inductive ChunkStep := Done (r : result bytes str) | Next (r : Reader) (body : bytes).

Definition take_chunk (r : Reader) (body : bytes) (size : Z) : ChunkStep :=
  let remaining := sat_sub MAX_CAPTURED_BODY_BYTES (len body) in
  let to_take := Z.min size remaining in
  let body := body ++ slice (pos r) (pos r + Z.to_nat to_take) (buf r) in
  let r := {| buf := buf r; pos := pos r + Z.to_nat size + 2; events := events r |} in
  if MAX_CAPTURED_BODY_BYTES <=? len body then
    Done (Ok (take (Z.to_nat MAX_CAPTURED_BODY_BYTES) body))
  else Next r body.

Definition chunk_step (fuel : nat) (r : Reader) (body : bytes) : option ChunkStep :=
  match read_size_line fuel r with
  | None => None
  | Some (Err e, _) => Some (Done (Err e))
  | Some (Ok None, _) => Some (Done (Ok body))
  | Some (Ok (Some line_end), r) =>
      match parse_chunk_size debug (slice (pos r) line_end (buf r)) with
      | Err e => Some (Done (Err e))
      | Ok size =>
          let r := {| buf := buf r; pos := line_end + 2; events := events r |} in
          if size =? 0 then Some (Done (Ok body))
          else
            match ensure_bytes fuel r (sat_add64 size 2) with
            | None => None
            | Some (Err e, _) => Some (Done (Err e))
            | Some (Ok false, _) => Some (Done (Ok body))
            | Some (Ok true, r) => Some (take_chunk r body size)
            end
      end
  end.

Fixpoint chunk_loop (fuel : nat) (r : Reader) (body : bytes) : option (result bytes str) :=
  match fuel with
  | O => None
  | S fuel =>
      match chunk_step fuel r body with
      | None => None
      | Some (Done result) => Some result
      | Some (Next r body) => chunk_loop fuel r body
      end
  end.

Definition read_chunked_body (fuel : nat) (es : list BodyEvent) (leftover : bytes) : option (result bytes str) :=
  chunk_loop fuel {| buf := leftover; pos := 0; events := es |} [].

Definition read_full_response_body (fuel : nat) (es : list BodyEvent) (leftover : bytes)
    (framing : BodyFraming) : option (result bytes str) :=
  match framing with
  | ContentLength total => read_length_delimited_body fuel es leftover total
  | Chunked => read_chunked_body fuel es leftover
  | ReadUntilClose => read_until_close_body fuel es leftover
  end.
End Chunked.

(** ** Lemmas: reads *)

(** The bytes the upstream has still to give. *)
Definition incoming (es : list BodyEvent) : bytes :=
  flat_map (fun e => match e with Data d => d | _ => [] end) es.

(** The upstream sends bytes and then closes: no stall, no error. *)
Definition steady (es : list BodyEvent) : Prop :=
  Forall (fun e => match e with Data d => d ≠ [] | _ => False end) es.

Lemma read_got n es d es' :
  0 < n → read n es = (Got d, es') →
  d ≠ [] ∧ len d <= n ∧ incoming es = d ++ incoming es' ∧ (steady es → steady es').
Proof.
  intros Hn. destruct es as [|[[|b x]| |e] es]; try done. intros H. unfold read in H.
  assert (d = take (Z.to_nat n) (b :: x)) as -> by congruence.
  destruct (drop (Z.to_nat n) (b :: x)) as [|c y] eqn:Hd; injection H as <-.
  - assert (take (Z.to_nat n) (b :: x) = b :: x) as Ht.
    { rewrite <- (take_drop (Z.to_nat n) (b :: x)) at 2. by rewrite Hd, app_nil_r. }
    split_and!; [by rewrite Ht | rewrite len_take; lia | cbn [incoming flat_map]; by rewrite Ht |].
    by inversion 1.
  - split_and!.
    + intros Ht%(f_equal length). rewrite length_take in Ht. simpl in Ht. lia.
    + rewrite len_take. lia.
    + cbn [incoming flat_map]. rewrite <- Hd, app_assoc, take_drop. done.
    + inversion 1; subst. by constructor.
Qed.

Lemma read_steady n es :
  steady es → (∃ d es', read n es = (Got d, es')) ∨ es = [] ∧ read n es = (Closed, []).
Proof. destruct 1 as [|[[|b x]| |e] es He Hs]; try done; [by right | left; cbn; eauto]. Qed.

Lemma read_stopped n es o es' :
  steady es → read n es = (o, es') → (∀ d, o ≠ Got d) → incoming es = [].
Proof.
  intros Hs Hr Ho. destruct (read_steady n es Hs) as [(d & es1 & Hd)|[-> _]]; [|done].
  rewrite Hd in Hr. injection Hr as <- _. by destruct (Ho d).
Qed.

Definition avail (r : Reader) : Z := len (buf r) - Z.of_nat (pos r).

Lemma len_pending r : len (pending r) = Z.max 0 (avail r).
Proof. unfold pending, avail. by rewrite len_drop. Qed.

Definition whole (r : Reader) : bytes := pending r ++ incoming (events r).

Lemma refill_true r r' :
  refill_stream r = (Ok true, r') →
  whole r' = whole r ∧ Z.max 0 (avail r) < avail r' ∧ pos r' = 0%nat ∧
  (steady (events r) → steady (events r')).
Proof.
  unfold refill_stream. destruct (read _ _) as [[d| | |e] es] eqn:Hr; try done. intros [= <-].
  apply read_got in Hr as (Hd & _ & Hi & Hs); [|by unfold READ_BUFFER_BYTES].
  unfold whole, avail. cbn. rewrite Hi, len_app, len_pending, drop_0, <- app_assoc.
  split_and!; try done. destruct d; [done|]. rewrite len_cons. pose proof (len_nonneg d).
  unfold avail. lia.
Qed.

Lemma refill_steady r :
  steady (events r) →
  (∃ r', refill_stream r = (Ok true, r')) ∨ incoming (events r) = [] ∧ ∃ r', refill_stream r = (Ok false, r').
Proof.
  intros Hs. unfold refill_stream.
  destruct (read_steady READ_BUFFER_BYTES (events r) Hs) as [(d & es & ->)|[He ->]]; [eauto|].
  right. rewrite He. eauto.
Qed.

(** ** Lemmas: every loop ends within its bound *)

Lemma ensure_bytes_total fuel : ∀ r need,
  0 < need → Z.max 0 (need - Z.max 0 (avail r)) < Z.of_nat fuel → is_Some (ensure_bytes fuel r need).
Proof.
  induction fuel as [|fuel IH]; intros r need Hn Hf; [lia|]. cbn [ensure_bytes]. fold (avail r).
  destruct (Z.ltb_spec (avail r) need); [|eauto].
  destruct (refill_stream r) as [[[|]|e] r'] eqn:Hr; [|eauto..].
  apply refill_true in Hr as (_ & Ha & _). apply IH; lia.
Qed.

Lemma read_size_line_total fuel : ∀ r,
  Z.max 0 (MAX_CHUNK_SIZE_LINE_BYTES + 1 - Z.max 0 (avail r)) < Z.of_nat fuel →
  is_Some (read_size_line fuel r).
Proof.
  induction fuel as [|fuel IH]; intros r Hf; [lia|]. cbn [read_size_line].
  destruct (find_crlf (pending r)); [eauto|]. unfold sat_sub. fold (avail r).
  destruct (Z.ltb_spec MAX_CHUNK_SIZE_LINE_BYTES (Z.max 0 (avail r))); [eauto|].
  destruct (refill_stream r) as [[[|]|e] r'] eqn:Hr; [|eauto..].
  apply refill_true in Hr as (_ & Ha & _). apply IH. lia.
Qed.

Lemma ensure_bytes_true fuel : ∀ r need r',
  ensure_bytes fuel r need = Some (Ok true, r') →
  need <= avail r' ∧ whole r' = whole r ∧ (steady (events r) → steady (events r')).
Proof.
  induction fuel as [|fuel IH]; intros r need r'; cbn [ensure_bytes]; [done|]. fold (avail r).
  destruct (Z.ltb_spec (avail r) need); [|by intros [= <-]].
  destruct (refill_stream r) as [[[|]|e] r1] eqn:Hr; [|done..].
  apply refill_true in Hr as (Hw & _ & _ & Hs). intros (? & Hw' & Hs')%IH. rewrite Hw'. auto.
Qed.

Lemma hex_digits_range s : ∀ acc n, 0 <= acc → hex_digits acc s = Some n → 0 <= n <= Z.max acc usize_max.
Proof.
  induction s as [|b s IH]; cbn; intros acc n Ha; [intros [= <-]; lia|].
  destruct (hex_value b) as [d|] eqn:Hd; [|done].
  assert (0 <= d) by (unfold hex_value in Hd; repeat case_match; breflect; simplify_eq; lia).
  destruct (Z.ltb_spec usize_max (acc * 16 + d)); [done|]. intros Hn%IH; lia.
Qed.

Lemma from_str_radix_16_range s n : from_str_radix_16 s = Some n → 0 <= n <= usize_max.
Proof.
  unfold from_str_radix_16. case_match; repeat case_match; try done; intros Hn%hex_digits_range; done.
Qed.

Lemma parse_chunk_size_range debug line size :
  parse_chunk_size debug line = Ok size → 0 <= size <= MAX_CAPTURED_BODY_BYTES.
Proof.
  unfold parse_chunk_size. destruct (from_utf8 line) as [s|]; cbn [ok_or rbind]; [|done].
  destruct (from_str_radix_16 _) as [n|] eqn:Hn; cbn [ok_or rbind]; [|done].
  apply from_str_radix_16_range in Hn. intros [= <-]. unfold MAX_CAPTURED_BODY_BYTES. lia.
Qed.

Definition reads_bound : Z := 2 * MAX_CAPTURED_BODY_BYTES + MAX_CHUNK_SIZE_LINE_BYTES + 10.

(** The body after one chunk: it grew, and it is within the ceiling. *)
Lemma take_chunk_grows r body size :
  0 < size → len body < MAX_CAPTURED_BODY_BYTES → size + 2 <= avail r →
  match take_chunk r body size with
  | Done x => ∃ b, x = Ok b ∧ len b <= MAX_CAPTURED_BODY_BYTES
  | Next _ b => len body < len b < MAX_CAPTURED_BODY_BYTES
  end.
Proof.
  intros Hs Hb Ha. unfold take_chunk. destruct (Z.leb_spec MAX_CAPTURED_BODY_BYTES (len (body ++
    slice (pos r) (pos r + Z.to_nat (Z.min size (sat_sub MAX_CAPTURED_BODY_BYTES (len body)))) (buf r)))) as [Hl|Hl].
  - eexists. split; [done|]. rewrite len_take. unfold MAX_CAPTURED_BODY_BYTES. lia.
  - split; [|done]. unfold avail, slice, sat_sub in *. autorewrite with len in *. lia.
Qed.

Lemma sat_add64_chunk size : 0 <= size <= MAX_CAPTURED_BODY_BYTES → sat_add64 size 2 = size + 2.
Proof. unfold sat_add64, sat_add, u64_max, MAX_CAPTURED_BODY_BYTES. lia. Qed.

Lemma chunk_step_total debug fuel r body :
  MAX_CAPTURED_BODY_BYTES + MAX_CHUNK_SIZE_LINE_BYTES + 9 <= Z.of_nat fuel →
  is_Some (chunk_step debug fuel r body).
Proof.
  intros Hf. unfold chunk_step.
  destruct (read_size_line_total fuel r) as [[[[line_end|]|e] r1] ->]; [|eauto|eauto|eauto].
  { unfold MAX_CAPTURED_BODY_BYTES, MAX_CHUNK_SIZE_LINE_BYTES in *. lia. }
  destruct (parse_chunk_size _ _) as [size|e] eqn:Hsize; [|eauto].
  apply parse_chunk_size_range in Hsize. destruct (Z.eqb_spec size 0); [eauto|].
  rewrite sat_add64_chunk by done.
  destruct (ensure_bytes_total fuel {| buf := buf r1; pos := line_end + 2; events := events r1 |} (size + 2))
    as [[[[|]|e] r3] ->]; try (unfold MAX_CHUNK_SIZE_LINE_BYTES in *; lia); eauto.
Qed.

Lemma chunk_step_grows debug fuel r body st :
  len body < MAX_CAPTURED_BODY_BYTES → chunk_step debug fuel r body = Some st →
  match st with
  | Done x => ∀ b, x = Ok b → len b <= MAX_CAPTURED_BODY_BYTES
  | Next _ b => len body < len b < MAX_CAPTURED_BODY_BYTES
  end.
Proof.
  intros Hb. unfold chunk_step.
  destruct (read_size_line fuel r) as [[[[line_end|]|e] r1]|]; [|intros [= <-] ? [= <-]; lia|by intros [= <-]|done].
  destruct (parse_chunk_size _ _) as [size|e] eqn:Hsize; [|by intros [= <-]].
  apply parse_chunk_size_range in Hsize.
  destruct (Z.eqb_spec size 0); [intros [= <-] ? [= <-]; lia|]. rewrite sat_add64_chunk by done.
  destruct (ensure_bytes _ _ _) as [[[[|]|e] r3]|] eqn:He; [|intros [= <-] ? [= <-]; lia|by intros [= <-]|done].
  apply ensure_bytes_true in He as (Ha & _). intros [= <-].
  pose proof (take_chunk_grows r3 body size ltac:(lia) Hb Ha) as Ht.
  destruct (take_chunk r3 body size); [|done]. destruct Ht as (b & -> & Hl). by intros ? [= <-].
Qed.

Lemma chunk_loop_total debug fuel : ∀ r body,
  len body < MAX_CAPTURED_BODY_BYTES → reads_bound - len body <= Z.of_nat fuel →
  is_Some (chunk_loop debug fuel r body).
Proof.
  induction fuel as [|fuel IH]; intros r body Hb Hf.
  { unfold reads_bound, MAX_CHUNK_SIZE_LINE_BYTES in Hf. pose proof (len_nonneg body). lia. }
  unfold reads_bound in *. cbn [chunk_loop].
  destruct (chunk_step_total debug fuel r body) as [st Hst]; [lia|]. rewrite Hst.
  apply chunk_step_grows in Hst; [|done]. destruct st; [eauto|]. apply IH; lia.
Qed.

Lemma chunk_loop_bounded debug fuel : ∀ r body b,
  len body < MAX_CAPTURED_BODY_BYTES → chunk_loop debug fuel r body = Some (Ok b) →
  len b <= MAX_CAPTURED_BODY_BYTES.
Proof.
  induction fuel as [|fuel IH]; intros r body b Hb; cbn [chunk_loop]; [done|].
  destruct (chunk_step debug fuel r body) as [st|] eqn:Hst; [|done].
  apply chunk_step_grows in Hst; [|done]. destruct st; [intros [= ->]; auto|]. apply IH. lia.
Qed.

Lemma read_length_total fuel : ∀ total body es,
  Z.max 0 (total - len body) < Z.of_nat fuel → is_Some (length_loop fuel total body es).
Proof.
  induction fuel as [|fuel IH]; intros total body es Hf; [lia|]. cbn [length_loop].
  destruct (Z.ltb_spec (len body) total); [|eauto].
  destruct (read _ es) as [[d| | |e] es'] eqn:Hr; [|eauto..].
  apply read_got in Hr as (Hd & _); [|unfold READ_BUFFER_BYTES; lia]. destruct d as [|b d]; [done|].
  apply IH. autorewrite with len. pose proof (len_nonneg d). lia.
Qed.

Lemma read_until_close_total fuel : ∀ body es,
  Z.max 0 (MAX_CAPTURED_BODY_BYTES - len body) < Z.of_nat fuel → is_Some (read_until_close_body fuel es body).
Proof.
  induction fuel as [|fuel IH]; intros body es Hf; [lia|]. cbn [read_until_close_body].
  destruct (Z.leb_spec MAX_CAPTURED_BODY_BYTES (len body)); [eauto|].
  destruct (read _ es) as [[d| | |e] es'] eqn:Hr; [|eauto..].
  apply read_got in Hr as (Hd & _); [|done]. destruct d as [|b d]; [done|].
  apply IH. autorewrite with len. pose proof (len_nonneg d). lia.
Qed.

(** ** Lemmas: what is read *)

Lemma length_loop_ok fuel : ∀ total body es b,
  len body <= total → length_loop fuel total body es = Some (Ok b) →
  ∃ d rest, b = body ++ d ∧ incoming es = d ++ rest ∧ len b <= total ∧
    (steady es → len b = total ∨ rest = []).
Proof.
  induction fuel as [|fuel IH]; intros total body es b Hb; cbn [length_loop]; [done|].
  destruct (Z.ltb_spec (len body) total) as [Hlt|Hge].
  - destruct (read _ es) as [[d| | |e] es'] eqn:Hr; [| | |done].
    + apply read_got in Hr as (Hd & Hl & Hi & Hs); [|unfold READ_BUFFER_BYTES; lia].
      intros (d' & rest & -> & Hi' & Hl' & Hs')%IH; [|rewrite len_app; lia].
      exists (d ++ d'), rest. rewrite Hi, Hi', <- !app_assoc. rewrite <- app_assoc in *. split_and!; auto.
    + intros [= <-]. exists [], (incoming es). rewrite app_nil_r. split_and!; [done | done | lia |]. intros Hs.
      right. by eapply read_stopped.
    + intros [= <-]. exists [], (incoming es). rewrite app_nil_r. split_and!; [done | done | lia |]. intros Hs.
      right. by eapply read_stopped.
  - intros [= <-]. exists [], (incoming es). rewrite app_nil_r. split_and!; [done | done | lia |]. left. lia.
Qed.

(** Without computing the terms. *)
Lemma ok_inj {A E} (a b : A) : Some (Ok (E := E) a) = Some (Ok b) → a = b.
Proof. congruence. Qed.

Lemma read_until_close_ok fuel : ∀ body es b,
  read_until_close_body fuel es body = Some (Ok b) →
  ∃ d rest, b = take (Z.to_nat MAX_CAPTURED_BODY_BYTES) (body ++ d) ∧ incoming es = d ++ rest ∧
    (steady es → MAX_CAPTURED_BODY_BYTES <= len (body ++ d) ∨ rest = []).
Proof.
  induction fuel as [|fuel IH]; intros body es b; cbn [read_until_close_body]; [done|].
  destruct (Z.leb_spec MAX_CAPTURED_BODY_BYTES (len body)) as [Hge|Hlt].
  { intros <-%ok_inj. exists [], (incoming es). rewrite app_nil_r. auto. }
  assert (take (Z.to_nat MAX_CAPTURED_BODY_BYTES) body = body) as Ht.
  { apply take_ge. unfold len in Hlt. lia. }
  destruct (read _ es) as [[d| | |e] es'] eqn:Hr; [| | |done].
  - apply read_got in Hr as (Hd & Hl & Hi & Hs); [|done].
    intros (d' & rest & -> & Hi' & Hs')%IH. exists (d ++ d'), rest.
    rewrite Hi, Hi', <- !app_assoc. rewrite <- app_assoc in *. split_and!; auto.
  - intros <-%ok_inj. exists [], (incoming es). rewrite app_nil_r, Ht. split_and!; [done..|]. intros Hs. right. by eapply read_stopped.
  - intros <-%ok_inj. exists [], (incoming es). rewrite app_nil_r, Ht. split_and!; [done..|]. intros Hs. right. by eapply read_stopped.
Qed.

(** A prefix that reached its limit or took everything is the limited whole. *)
Lemma take_prefix (n : Z) (a d rest : bytes) :
  len (a ++ d) <= n → len (a ++ d) = n ∨ rest = [] →
  a ++ d = take (Z.to_nat n) (a ++ d ++ rest).
Proof.
  intros Hle Hor. rewrite app_assoc. destruct Hor as [<-| ->].
  - unfold len. rewrite Nat2Z.id. by rewrite take_app_length.
  - rewrite app_nil_r. rewrite take_ge; [done|]. unfold len in Hle. lia.
Qed.

Lemma take_reached (n : Z) (a d rest : bytes) :
  n <= len (a ++ d) ∨ rest = [] → take (Z.to_nat n) (a ++ d) = take (Z.to_nat n) (a ++ d ++ rest).
Proof.
  rewrite app_assoc. intros [Hle| ->]; [|by rewrite app_nil_r].
  rewrite (take_app_le (a ++ d) rest); [done|]. unfold len in Hle. lia.
Qed.

(** *** Size lines over partial buffers *)

Lemma find_app s p t i : find s p = Some i → find (s ++ t) p = Some i.
Proof.
  revert i. induction s as [|c s IH]; intros i H.
  - destruct p; [|done]. cbn in H. destruct t; cbn; by injection H as <-.
  - cbn [find app] in *. destruct (starts_with (c :: s) p) eqn:Hs.
    + apply starts_with_spec in Hs as [u Hu]. injection H as <-.
      assert (starts_with (c :: s ++ t) p = true) as ->; [|done].
      apply starts_with_spec. exists (u ++ t). by rewrite app_comm_cons, Hu, <- app_assoc.
    + destruct (find s p) as [j|] eqn:Hf; [|done]. rewrite (IH j eq_refl).
      assert (starts_with (c :: s ++ t) p = false) as ->; [|done].
      apply not_true_iff_false. intros [u Hu]%starts_with_spec.
      apply find_Some in Hf as (l & r & Hl & _). apply not_true_iff_false in Hs. apply Hs.
      apply starts_with_spec. apply (f_equal (take (length p))) in Hu as Hu'.
      rewrite take_app_length in Hu'. exists (drop (length p) (c :: s)).
      rewrite <- Hu' at 1. rewrite app_comm_cons, take_app_le, take_drop; [done|].
      rewrite Hl. simpl. rewrite !length_app. lia.
Qed.

Lemma pending_prefix r : pending r = take (length (pending r)) (whole r).
Proof. unfold whole. by rewrite take_app_length. Qed.

(** The size line is found wherever the reads split the stream. *)
Lemma read_size_line_found fuel : ∀ r n x,
  find_crlf (whole r) = Some n → Z.of_nat n < MAX_CHUNK_SIZE_LINE_BYTES → steady (events r) →
  read_size_line fuel r = Some x →
  ∃ r', x = (Ok (Some (pos r' + n)%nat), r') ∧ whole r' = whole r ∧ steady (events r') ∧
        find_crlf (pending r') = Some n.
Proof.
  induction fuel as [|fuel IH]; intros r n x Hf Hn Hs; cbn [read_size_line]; [done|].
  destruct (find_crlf (pending r)) as [rel|] eqn:Hp.
  - assert (rel = n) as ->.
    { unfold find_crlf, whole in *. rewrite (find_app _ _ _ _ Hp) in Hf. congruence. }
    intros [= <-]. eauto 10.
  - assert (length (pending r) < n + 2)%nat as Hshort.
    { destruct (le_lt_dec (n + 2) (length (pending r))) as [Hge|]; [|done].
      apply find_Some in Hf as (l & t & Hl & Hlen & _). exfalso.
      unfold find_crlf in Hp. apply (proj1 (find_None _ _) Hp l (take (length (pending r) - (n + 2)) t)).
      rewrite pending_prefix at 1. rewrite Hl, !take_app, !take_ge by (simpl in *; lia).
      do 2 f_equal. simpl. f_equal. lia. }
    unfold sat_sub. fold (avail r). rewrite <- len_pending.
    destruct (Z.ltb_spec MAX_CHUNK_SIZE_LINE_BYTES (len (pending r))) as [Hgt|_]; [unfold len in Hgt; lia|].
    destruct (refill_steady r Hs) as [[r' Hr]|[Hi _]].
    + rewrite Hr. apply refill_true in Hr as (Hw & _ & _ & Hs'). intros Hx.
      apply (IH r' n) in Hx as (r2 & -> & Hw2 & ? & ?); [|by rewrite Hw|done|by apply Hs'].
      exists r2. rewrite Hw2. auto.
    + unfold whole in Hf. rewrite Hi, app_nil_r in Hf. congruence.
Qed.

Lemma ensure_bytes_steady fuel : ∀ r need x,
  steady (events r) → 0 < need → need <= len (whole r) → ensure_bytes fuel r need = Some x →
  ∃ r', x = (Ok true, r').
Proof.
  induction fuel as [|fuel IH]; intros r need x Hs Hn Hw; cbn [ensure_bytes]; [done|]. fold (avail r).
  destruct (Z.ltb_spec (avail r) need) as [Hlt|]; [|intros [= <-]; eauto].
  destruct (refill_steady r Hs) as [[r' Hr]|[Hi _]].
  - rewrite Hr. apply refill_true in Hr as (Hw' & _ & _ & Hs'). apply IH; [auto | done | by rewrite Hw'].
  - unfold whole in Hw. rewrite Hi, app_nil_r, len_pending in Hw. lia.
Qed.

(** *** Chunks *)

Record Chunk := { size_line : bytes; chunk_data : bytes }.

Definition line_size (line : bytes) : option Z :=
  from_utf8 line ≫= fun s => from_str_radix_16 (trim (hd [] (split (chr ";") s))).

(** A size line, without its line end, that announces [n] bytes. *)
Definition announces (line : bytes) (n : Z) : Prop :=
  find_crlf (line ++ [13; 10]) = Some (length line) ∧ len line < MAX_CHUNK_SIZE_LINE_BYTES ∧
  line_size line = Some n.

Definition encode_chunk (c : Chunk) : bytes := size_line c ++ [13; 10] ++ chunk_data c ++ [13; 10].

Definition encode_chunks (cs : list Chunk) (last : bytes) : bytes :=
  flat_map encode_chunk cs ++ last ++ [13; 10].

Definition well_formed (c : Chunk) : Prop := chunk_data c ≠ [] ∧ announces (size_line c) (len (chunk_data c)).

Lemma parse_chunk_size_announced debug line n :
  line_size line = Some n → parse_chunk_size debug line = Ok (Z.min n MAX_CAPTURED_BODY_BYTES).
Proof.
  unfold line_size, parse_chunk_size. destruct (from_utf8 line) as [s|]; [|done]. cbn [mbind option_bind ok_or rbind].
  intros ->. done.
Qed.

(** One iteration up to the size, when the stream continues with a size line. *)
Lemma size_line_step debug fuel r line n t x :
  announces line n → whole r = line ++ [13; 10] ++ t → steady (events r) →
  read_size_line fuel r = Some x →
  ∃ r', x = (Ok (Some (pos r' + length line)%nat), r') ∧ steady (events r') ∧
    parse_chunk_size debug (slice (pos r') (pos r' + length line) (buf r')) = Ok (Z.min n MAX_CAPTURED_BODY_BYTES) ∧
    whole {| buf := buf r'; pos := pos r' + length line + 2; events := events r' |} = t.
Proof.
  intros (Hf & Hl & Hsz) Hw Hs Hx.
  apply (read_size_line_found fuel r (length line)) in Hx as (r' & -> & Hw' & Hs' & Hp);
    [|rewrite Hw, app_assoc; by apply find_app | done | done].
  exists r'. apply find_Some in Hp as (l & u & Hp & Hlen & _).
  assert (l = line ∧ u ++ incoming (events r') = t) as [-> Hu].
  { rewrite Hw in Hw'. unfold whole in Hw'. rewrite Hp in Hw'. rewrite <- !app_assoc in Hw'.
    apply app_inj_1 in Hw' as [-> Hw']; [|done]. by simplify_eq/=. }
  unfold pending in Hp. split_and!; [done|done| |].
  - unfold slice. rewrite Nat.add_sub_swap, Nat.sub_diag by done. cbn. rewrite Hp, take_app_length.
    by apply parse_chunk_size_announced.
  - unfold whole, pending. cbn. rewrite <- Nat.add_assoc, <- drop_drop, Hp, <- drop_drop, drop_app_length. done.
Qed.

Lemma take_pending k r : (k <= length (pending r))%nat → take k (pending r) = take k (whole r).
Proof. intros Hk. unfold whole. by rewrite take_app_le. Qed.

Lemma take_app_take (a d : bytes) k m : (m <= length a + k)%nat → take m (a ++ take k d) = take m (a ++ d).
Proof. intros Hm. rewrite !take_app, take_take. do 2 f_equal. lia. Qed.

Lemma take_chunk_exact r body data t :
  len body < MAX_CAPTURED_BODY_BYTES → data ≠ [] → whole r = data ++ [13; 10] ++ t →
  Z.min (len data) MAX_CAPTURED_BODY_BYTES + 2 <= avail r →
  if MAX_CAPTURED_BODY_BYTES <=? len (body ++ data) then
    take_chunk r body (Z.min (len data) MAX_CAPTURED_BODY_BYTES)
      = Done (Ok (take (Z.to_nat MAX_CAPTURED_BODY_BYTES) (body ++ data)))
  else ∃ r', take_chunk r body (Z.min (len data) MAX_CAPTURED_BODY_BYTES) = Next r' (body ++ data) ∧
             whole r' = t ∧ events r' = events r.
Proof.
  intros Hb Hd Hw Ha. unfold take_chunk, slice. rewrite Nat.add_sub_swap, Nat.sub_diag by done. cbn [Nat.add].
  set (k := Z.min _ (sat_sub _ _)). fold (pending r). pose proof (len_pending r) as Hlp.
  assert (0 < MAX_CAPTURED_BODY_BYTES) as Hmax by done. pose proof (len_nonneg body).
  assert (0 <= k <= Z.min (len data) MAX_CAPTURED_BODY_BYTES) as Hk
    by (unfold k, sat_sub; pose proof (len_nonneg data); lia).
  assert (take (Z.to_nat k) (pending r) = take (Z.to_nat k) data) as ->.
  { rewrite take_pending, Hw by (unfold len in *; lia). apply take_app_le. unfold len in *. lia. }
  rewrite (len_app body data).
  destruct (Z.leb_spec MAX_CAPTURED_BODY_BYTES (len body + len data)) as [Hge|Hlt].
  - assert (k = MAX_CAPTURED_BODY_BYTES - len body) as Hk' by (unfold k, sat_sub; lia).
    destruct (Z.leb_spec MAX_CAPTURED_BODY_BYTES (len (body ++ take (Z.to_nat k) data))) as [_|Hl];
      [|autorewrite with len in Hl; lia].
    rewrite (take_app_take body data (Z.to_nat k)); [done|]. unfold len in *. lia.
  - assert (k = len data) as -> by (unfold k, sat_sub; lia). rewrite to_nat_len, take_ge by done.
    rewrite len_app. destruct (Z.leb_spec MAX_CAPTURED_BODY_BYTES (len body + len data)); [lia|].
    eexists. split; [done|]. split; [|done]. unfold whole, pending. cbn [buf pos events].
    rewrite Z.min_l, to_nat_len by (pose proof (len_nonneg body); lia).
    rewrite <- Nat.add_assoc, <- drop_drop. fold (pending r).
    assert (length data + 2 <= length (pending r))%nat as Hle by (unfold len in *; lia).
    unfold whole in Hw. rewrite <- (drop_app_le (pending r)), Hw, <- drop_drop, drop_app_length by done. done.
Qed.

Lemma chunk_step_exact debug fuel r body c t st :
  len body < MAX_CAPTURED_BODY_BYTES → well_formed c → whole r = encode_chunk c ++ t → steady (events r) →
  chunk_step debug fuel r body = Some st →
  if MAX_CAPTURED_BODY_BYTES <=? len (body ++ chunk_data c) then
    st = Done (Ok (take (Z.to_nat MAX_CAPTURED_BODY_BYTES) (body ++ chunk_data c)))
  else ∃ r', st = Next r' (body ++ chunk_data c) ∧ whole r' = t ∧ steady (events r').
Proof.
  intros Hb (Hd & Hc) Hw Hs. unfold chunk_step.
  destruct (read_size_line fuel r) as [x|] eqn:Hx; [|done]. unfold encode_chunk in Hw.
  rewrite <- !app_assoc in Hw.
  eapply (size_line_step debug) in Hx as (r1 & -> & Hs1 & -> & Hw1); [|done..].
  assert (0 < len (chunk_data c)) as Hpos.
  { destruct (chunk_data c) as [|? l]; [done|]. rewrite len_cons. pose proof (len_nonneg l). lia. }
  destruct (Z.eqb_spec (Z.min (len (chunk_data c)) MAX_CAPTURED_BODY_BYTES) 0) as [H0|_].
  { unfold MAX_CAPTURED_BODY_BYTES in H0. lia. }
  rewrite sat_add64_chunk by (unfold MAX_CAPTURED_BODY_BYTES; lia).
  destruct (ensure_bytes _ _ _) as [y|] eqn:Hy; [|done].
  assert (∃ r2, y = (Ok true, r2)) as [r2 ->].
  { eapply ensure_bytes_steady, Hy; [done | unfold MAX_CAPTURED_BODY_BYTES; lia |]. rewrite Hw1.
    autorewrite with len. pose proof (len_nonneg t). lia. }
  apply ensure_bytes_true in Hy as (Ha & Hw2 & Hs2). rewrite Hw1 in Hw2. intros Hst.
  pose proof (take_chunk_exact r2 body (chunk_data c) t Hb Hd Hw2 Ha) as Ht.
  destruct (MAX_CAPTURED_BODY_BYTES <=? _); [congruence|].
  destruct Ht as (r' & Hr' & ? & He). exists r'. rewrite He. split_and!; [congruence | done | by apply Hs2].
Qed.

Lemma chunk_loop_exact debug fuel : ∀ cs r body last t x,
  len body < MAX_CAPTURED_BODY_BYTES → Forall well_formed cs → announces last 0 →
  whole r = encode_chunks cs last ++ t → steady (events r) → chunk_loop debug fuel r body = Some x →
  x = Ok (take (Z.to_nat MAX_CAPTURED_BODY_BYTES) (body ++ flat_map chunk_data cs)).
Proof.
  induction fuel as [|fuel IH]; intros cs r body last t x Hb Hcs Hlast Hw Hs; cbn [chunk_loop]; [done|].
  destruct (chunk_step debug fuel r body) as [st|] eqn:Hst; [|done].
  unfold encode_chunks in Hw. destruct Hcs as [|c cs Hc Hcs]; cbn [flat_map app] in *.
  - unfold chunk_step in Hst. destruct (read_size_line fuel r) as [y|] eqn:Hy; [|done].
    rewrite <- app_assoc in Hw. eapply (size_line_step debug) in Hy as (r1 & Hy & _ & Hp & _); [|done..].
    rewrite Hy, Hp in Hst. cbn in Hst. injection Hst as <-. intros [= <-]. rewrite app_nil_r, take_ge; [done|].
    unfold len in Hb. lia.
  - rewrite <- !app_assoc in Hw. eapply chunk_step_exact in Hst; [|done..].
    destruct (Z.leb_spec MAX_CAPTURED_BODY_BYTES (len (body ++ chunk_data c))) as [Hge|Hlt].
    + subst st. intros Hx%(f_equal (from_option id (Err []))). cbn in Hx. subst x.
      rewrite (app_assoc body). rewrite (take_app_le (body ++ chunk_data c)); [done|]. unfold len in Hge. lia.
    + destruct Hst as (r' & -> & Hw' & Hs'). intros Hx.
      apply (IH cs r' _ last t) in Hx; [by rewrite app_assoc | done | done | done | | done].
      unfold encode_chunks. by rewrite Hw', <- !app_assoc.
Qed.

(** ** Properties *)

(** Reading the body ends, whatever the upstream sends and however long: an
    endless size line, an endless body and a peer that never closes included. *)
Lemma read_full_total debug fuel es leftover framing :
  reads_bound <= Z.of_nat fuel → is_Some (read_full_response_body debug fuel es leftover framing).
Proof.
  intros Hf. assert (0 < MAX_CAPTURED_BODY_BYTES) as Hm by done.
  assert (2 * MAX_CAPTURED_BODY_BYTES < reads_bound) as Hb by done. pose proof (len_nonneg leftover) as Hl.
  destruct framing as [total| |]; cbn [read_full_response_body].
  - unfold read_length_delimited_body. destruct (Z.leb_spec (Z.min total MAX_CAPTURED_BODY_BYTES) (len leftover));
      [eauto|]. apply read_length_total. lia.
  - apply chunk_loop_total; cbn [len]; [done|]. rewrite len_nil. lia.
  - apply read_until_close_total. lia.
Qed.

(** the body that is kept never exceeds the capture ceiling. *)
Theorem refusal_body_bounded debug fuel es leftover framing b :
  read_full_response_body debug fuel es leftover framing = Some (Ok b) → len b <= MAX_CAPTURED_BODY_BYTES.
Proof.
  assert (∀ n (l : bytes), n <= MAX_CAPTURED_BODY_BYTES → len (take (Z.to_nat n) l) <= MAX_CAPTURED_BODY_BYTES) as Ht.
  { intros n l Hn. rewrite len_take. assert (0 < MAX_CAPTURED_BODY_BYTES) by done. lia. }
  destruct framing as [total| |]; cbn [read_full_response_body].
  - unfold read_length_delimited_body. destruct (Z.leb_spec (Z.min total MAX_CAPTURED_BODY_BYTES) (len leftover)).
    + intros <-%ok_inj. apply Ht. lia.
    + intros (d & rest & -> & _ & Hl & _)%length_loop_ok; lia.
  - by apply chunk_loop_bounded.
  - intros (d & rest & -> & _)%read_until_close_ok. by apply Ht.
Qed.

(** The bytes a framing without chunks delimits. *)
Definition body_limit (framing : BodyFraming) : Z :=
  match framing with
  | ContentLength total => Z.min total MAX_CAPTURED_BODY_BYTES
  | _ => MAX_CAPTURED_BODY_BYTES
  end.

(** without chunks, the body is what was sent.  When the upstream sends its
    bytes and closes, in any pieces, the body is the buffered prefix and the
    bytes that follow, cut at the announced length and the ceiling; after a
    stall it is a prefix of that. *)
Theorem refusal_body_plain debug fuel es leftover framing b :
  framing ≠ Chunked → read_full_response_body debug fuel es leftover framing = Some (Ok b) →
  (∃ rest, leftover ++ incoming es = b ++ rest) ∧
  (steady es → b = take (Z.to_nat (body_limit framing)) (leftover ++ incoming es)).
Proof.
  intros Hc. destruct framing as [total| |]; cbn [read_full_response_body body_limit]; [|done|].
  - unfold read_length_delimited_body. set (n := Z.min total MAX_CAPTURED_BODY_BYTES).
    destruct (Z.leb_spec n (len leftover)) as [Hle|Hlt].
    + intros <-%ok_inj. split.
      * exists (drop (Z.to_nat n) leftover ++ incoming es). by rewrite app_assoc, take_drop.
      * intros _. rewrite take_app_le; [done|]. unfold len in Hle. lia.
    + intros (d & rest & -> & Hi & Hl & Hs)%length_loop_ok; [|lia]. rewrite Hi. split.
      * exists rest. by rewrite <- app_assoc.
      * intros Hst. apply take_prefix; auto.
  - intros (d & rest & -> & Hi & Hs)%read_until_close_ok. rewrite Hi. split.
    + exists (drop (Z.to_nat MAX_CAPTURED_BODY_BYTES) (leftover ++ d) ++ rest).
      by rewrite (app_assoc (take _ _)), take_drop, <- app_assoc.
    + intros Hst. apply take_reached; auto.
Qed.

(** the chunked reader undoes the chunked coding.  For any chunks with size
    lines that announce their data (hexadecimal in any case, extensions and
    space allowed), split into reads in any way and part of it already buffered,
    the body is the data of the chunks in order, up to the ceiling; what follows
    the last chunk is ignored. *)
Theorem chunked_body_round_trip debug fuel es leftover cs last t :
  reads_bound <= Z.of_nat fuel → Forall well_formed cs → announces last 0 → steady es →
  leftover ++ incoming es = encode_chunks cs last ++ t →
  read_full_response_body debug fuel es leftover Chunked
    = Some (Ok (take (Z.to_nat MAX_CAPTURED_BODY_BYTES) (flat_map chunk_data cs))).
Proof.
  intros Hf Hcs Hlast Hs Hw. cbn [read_full_response_body].
  destruct (chunk_loop_total debug fuel {| buf := leftover; pos := 0; events := es |} []) as [x Hx];
    [done | by rewrite len_nil, Z.sub_0_r |].
  unfold read_chunked_body. rewrite Hx. f_equal.
  eapply (chunk_loop_exact debug fuel cs _ [] last t) in Hx; [done|done|done|done| |done].
  unfold whole, pending. cbn [buf pos events]. by rewrite drop_0.
Qed.

(** ** Samples *)

Definition sample_chunks : list Chunk :=
  [{| size_line := lit "3;ext=1"; chunk_data := lit "abc" |}; {| size_line := lit " A "; chunk_data := lit "0123456789" |}].

(** The coding of the sample, part of it buffered, the rest in three reads. *)
Definition sample_events : list BodyEvent :=
  [Data (lit "=1" ++ [13]); Data ([10] ++ lit "abc" ++ [13; 10] ++ lit " A " ++ [13; 10] ++ lit "0123");
   Data (lit "456789" ++ [13; 10] ++ lit "0" ++ [13; 10; 13; 10])].

Example chunked_sample :
  read_full_response_body id 30 sample_events (lit "3;ext") Chunked = Some (Ok (lit "abc0123456789")) ∧
  read_full_response_body id 30 [Data (lit "zz" ++ [13; 10])] [] Chunked = Some (Err (lit "invalid chunk size: zz")) ∧
  read_full_response_body id 30 [Idle] (lit "ab") (ContentLength 4) = Some (Ok (lit "ab")) ∧
  read_full_response_body id 30 [Data (lit "cdef")] (lit "ab") (ContentLength 4) = Some (Ok (lit "abcd")) ∧
  read_full_response_body id 30 [Data (lit "cd"); ReadFailed (lit "reset")] (lit "ab") ReadUntilClose
    = Some (Err (lit "read body: reset")).
Proof.
  split_and!; [|by vm_compute..]. vm_compute. reflexivity.
Qed.

Lemma reads_bound_fuel : reads_bound <= Z.of_nat (Z.to_nat reads_bound).
Proof. rewrite Z2Nat.id; [lia|]. unfold reads_bound, MAX_CAPTURED_BODY_BYTES, MAX_CHUNK_SIZE_LINE_BYTES. lia. Qed.

Lemma refusal_body_bounded_witness : len (lit "abc0123456789") <= MAX_CAPTURED_BODY_BYTES.
Proof. apply (refusal_body_bounded id 30 sample_events (lit "3;ext") Chunked). vm_compute. reflexivity. Defined.

Lemma refusal_body_plain_witness :
  lit "abcd" = take (Z.to_nat (body_limit (ContentLength 4))) (lit "ab" ++ incoming [Data (lit "cdef")]).
Proof.
  apply (refusal_body_plain id 30 [Data (lit "cdef")] (lit "ab") (ContentLength 4)); [done | by vm_compute |].
  repeat constructor. done.
Defined.

Lemma chunked_body_round_trip_witness :
  read_full_response_body id (Z.to_nat reads_bound) sample_events (lit "3;ext") Chunked
    = Some (Ok (take (Z.to_nat MAX_CAPTURED_BODY_BYTES) (flat_map chunk_data sample_chunks))).
Proof.
  apply (chunked_body_round_trip id _ _ _ sample_chunks (lit "0") [13; 10]).
  - apply reads_bound_fuel.
  - repeat constructor; done.
  - repeat constructor; done.
  - repeat constructor; done.
  - done.
Defined.
