(* ===== verification/UpstreamPool.v ===== *)
(** * UpstreamPool: the shared pool of upstream connections
    (proxy-core/src/upstream_pool.rs)

    The pool is shared by all request tasks.  Its state is the heap of
    connections (an [Arc] is an index into it), the entries per key, the pending
    dials and the dials reserved under the limit.  A task is in one of the
    phases of [get_or_connect]; each region under the lock of the connections is
    one step, everything else may happen in between.  The wake-ups of [Notify]
    only say when a queued task tries again: a queued task may try at any time. *)

From S2P Require Import Prelude Errors.

Definition MAX_H1_CONNECTIONS_PER_KEY : nat := 4.

(** ** State *)

(** Scheme, host and port *)
Definition UpstreamKey : Type := str * str * Z.

(** A pooled connection: [sender_closed] is hyper's view of its sender, [locked]
    whether a lease holds its sender, [driver] whether its task still runs. *)
Record PooledConnection := {
  is_h1 : bool;
  closed : bool;
  sender_closed : bool;
  locked : bool;
  last_used : Z;
  driver : bool
}.

(** The phase of a request task.  A dialing task owns its registration in
    [pending] (the identity of its channel) and its reservation.  [Rejected] found
    the connection it pushed taken and waits for the lock to evict it. *)
Inductive Task :=
  | Choosing (key : UpstreamKey)
  | Queued (key : UpstreamKey)
  | Waiting (key : UpstreamKey) (channel : Z)
  | Dialing (key : UpstreamKey) (channel : option Z) (reserved_h1 : bool)
  | Pushed (key : UpstreamKey) (channel : option Z) (reserved_h1 : bool) (conn : nat)
  | Rejected (key : UpstreamKey) (channel : option Z) (reserved_h1 : bool) (conn : nat)
  | Leased (key : UpstreamKey) (conn : nat)
  | Finished.

Record Pool := {
  heap : list PooledConnection;
  connections : gmap UpstreamKey (list nat);
  pending : gmap UpstreamKey Z;
  h1_connecting : gmap UpstreamKey nat;
  next_channel : Z;
  tasks : list Task
}.

Definition new_pool : Pool :=
  {| heap := []; connections := ∅; pending := ∅; h1_connecting := ∅; next_channel := 0; tasks := [] |}.

(** ** Connections *)

Definition mark_closed (c : PooledConnection) : PooledConnection :=
  if is_h1 c then
    {| is_h1 := true; closed := true; sender_closed := sender_closed c; locked := locked c;
       last_used := last_used c; driver := driver c |}
  else c.

Definition abort_driver (c : PooledConnection) : PooledConnection :=
  if is_h1 c then
    {| is_h1 := true; closed := closed c; sender_closed := sender_closed c; locked := locked c;
       last_used := last_used c; driver := false |}
  else c.

Definition close_and_abort (c : PooledConnection) : PooledConnection := abort_driver (mark_closed c).

Definition is_alive_and_not_idle (now max_idle : Z) (c : PooledConnection) : bool :=
  if is_h1 c then
    if closed c then false
    else if locked c then true
    else if sender_closed c then false
    else now - last_used c <? max_idle
  else negb (sender_closed c) && (now - last_used c <? max_idle).

Definition touch (now : Z) (lock : bool) (c : PooledConnection) : PooledConnection :=
  {| is_h1 := is_h1 c; closed := closed c; sender_closed := sender_closed c; locked := lock;
     last_used := now; driver := driver c |}.

(** [try_acquire]: the connection after it, and whether it was acquired.  An h2
    sender is cloned, an h1 sender is locked. *)
Definition try_acquire (now : Z) (c : PooledConnection) : PooledConnection * bool :=
  if is_h1 c then
    if closed c then (c, false)
    else if locked c then (c, false)
    else if sender_closed c then (mark_closed c, false)
    else (touch now true c, true)
  else if sender_closed c then (c, false)
  else (touch now false c, true).

(** [Drop] of [H1Lease] *)
Definition drop_lease (now : Z) (c : PooledConnection) : PooledConnection :=
  {| is_h1 := is_h1 c; closed := closed c; sender_closed := sender_closed c; locked := false;
     last_used := if closed c then last_used c else now; driver := driver c |}.

(** ** Regions *)

Definition with_heap (p : Pool) (h : list PooledConnection) : Pool :=
  {| heap := h; connections := connections p; pending := pending p; h1_connecting := h1_connecting p;
     next_channel := next_channel p; tasks := tasks p |}.
Definition with_connections (p : Pool) c : Pool :=
  {| heap := heap p; connections := c; pending := pending p; h1_connecting := h1_connecting p;
     next_channel := next_channel p; tasks := tasks p |}.
Definition with_pending (p : Pool) m : Pool :=
  {| heap := heap p; connections := connections p; pending := m; h1_connecting := h1_connecting p;
     next_channel := next_channel p; tasks := tasks p |}.
Definition with_connecting (p : Pool) m : Pool :=
  {| heap := heap p; connections := connections p; pending := pending p; h1_connecting := m;
     next_channel := next_channel p; tasks := tasks p |}.
Definition with_tasks (p : Pool) ts : Pool :=
  {| heap := heap p; connections := connections p; pending := pending p; h1_connecting := h1_connecting p;
     next_channel := next_channel p; tasks := ts |}.
Definition with_next (p : Pool) n : Pool :=
  {| heap := heap p; connections := connections p; pending := pending p; h1_connecting := h1_connecting p;
     next_channel := n; tasks := tasks p |}.

(** [entries.retain(..)]: the connections that fail the test are closed. *)
Fixpoint retain (keep : PooledConnection → bool) (h : list PooledConnection) (es : list nat)
    : list PooledConnection * list nat :=
  match es with
  | [] => (h, [])
  | i :: es =>
      match h !! i with
      | Some c =>
          if keep c then let '(h, es) := retain keep h es in (h, i :: es)
          else retain keep (<[i := close_and_abort c]> h) es
      | None => retain keep h es
      end
  end.

(** The loop over the entries: the first one that can be acquired. *)
Fixpoint acquire_first (now : Z) (h : list PooledConnection) (es : list nat)
    : list PooledConnection * option nat :=
  match es with
  | [] => (h, None)
  | i :: es =>
      match h !! i with
      | Some c =>
          let '(c', acquired) := try_acquire now c in
          if acquired then (<[i := c']> h, Some i) else acquire_first now (<[i := c']> h) es
      | None => acquire_first now h es
      end
  end.

Definition h1_count (h : list PooledConnection) (es : list nat) : nat :=
  length (List.filter (fun i => match h !! i with Some c => is_h1 c | None => false end) es).

(** What the locked region of [get_or_connect] decides. *)
Inductive Action := Return (conn : nat) | Retry | Wait (channel : Z) | Connect (channel : option Z) (reserved_h1 : bool) | Queue.

Definition choose (idle_timeout now : Z) (key : UpstreamKey) (p : Pool) : Pool * Action :=
  match connections p !! key with
  | Some es =>
      let '(h, es) := retain (is_alive_and_not_idle now idle_timeout) (heap p) es in
      let '(h, acquired) := acquire_first now h es in
      let p := with_connections (with_heap p h) (<[key := es]> (connections p)) in
      match acquired with
      | Some i => (p, Return i)
      | None =>
          match es with
          | [] => (with_connections p (delete key (connections p)), Retry)
          | _ =>
              let connecting := default 0%nat (h1_connecting p !! key) in
              if (h1_count h es + connecting <? MAX_H1_CONNECTIONS_PER_KEY)%nat then
                (with_connecting p (<[key := S connecting]> (h1_connecting p)), Connect None true)
              else (p, Queue)
          end
      end
  | None =>
      match pending p !! key with
      | Some channel => (p, Wait channel)
      | None =>
          let channel := next_channel p in
          (with_next (with_pending p (<[key := channel]> (pending p))) (channel + 1), Connect (Some channel) false)
      end
  end.

(** The phase after [choose]; an h2 sender is used without a lease. *)
Definition after_choose (h : list PooledConnection) (key : UpstreamKey) (a : Action) : Task :=
  match a with
  | Return i => match h !! i with Some c => if is_h1 c then Leased key i else Finished | None => Finished end
  | Retry => Choosing key
  | Wait channel => Waiting key channel
  | Connect channel reserved => Dialing key channel reserved
  | Queue => Queued key
  end.

Definition remove_pending_entry_if_current (p : Pool) (key : UpstreamKey) (marker : Z) : Pool :=
  if bool_decide (pending p !! key = Some marker) then with_pending p (delete key (pending p)) else p.

(** [Drop] of [PendingConnectGuard], armed for a registered dial *)
Definition drop_pending_guard (p : Pool) (key : UpstreamKey) (channel : option Z) : Pool :=
  match channel with
  | Some marker => remove_pending_entry_if_current p key marker
  | None => p
  end.

(** [Drop] of [H1ConnectingGuard], present for a reserved dial *)
Definition drop_connecting_guard (p : Pool) (key : UpstreamKey) (reserved_h1 : bool) : Pool :=
  if reserved_h1 then
    match h1_connecting p !! key with
    | Some count =>
        let count := (count - 1)%nat in
        with_connecting p
          (if (count =? 0)%nat then delete key (h1_connecting p) else <[key := count]> (h1_connecting p))
    | None => p
    end
  else p.

(** Both guards, in the order of their drops *)
Definition drop_guards (p : Pool) (key : UpstreamKey) (channel : option Z) (reserved_h1 : bool) : Pool :=
  drop_pending_guard (drop_connecting_guard p key reserved_h1) key channel.

(** A finished dial: the connection is pushed under the lock. *)
Definition new_connection (h1 : bool) (now : Z) : PooledConnection :=
  {| is_h1 := h1; closed := false; sender_closed := false; locked := false; last_used := now; driver := true |}.

Definition push_connection (p : Pool) (key : UpstreamKey) (h1 : bool) (now : Z) : Pool * nat :=
  let i := length (heap p) in
  (with_connections (with_heap p (heap p ++ [new_connection h1 now]))
     (<[key := default [] (connections p !! key) ++ [i]]> (connections p)), i).

(** Close the connections of [es] the test selects and keep the others. *)
Definition evict_where (bad : nat → bool) (h : list PooledConnection) (es : list nat)
    : list PooledConnection * list nat :=
  (fold_left (fun h i => if bad i then alter close_and_abort i h else h) es h,
   List.filter (fun i => negb (bad i)) es).

Definition evict_entries (p : Pool) (key : UpstreamKey) (bad : nat → bool) : Pool :=
  match connections p !! key with
  | Some es =>
      let '(h, es) := evict_where bad (heap p) es in
      with_connections (with_heap p h)
        (match es with [] => delete key (connections p) | _ => <[key := es]> (connections p) end)
  | None => p
  end.

(** [evict_if_same]; [evict_h1_connection] is the same for an h1 connection. *)
Definition evict_if_same (p : Pool) (key : UpstreamKey) (expected : nat) : Pool :=
  evict_entries p key (fun i => (i =? expected)%nat).

Definition evict_h1_connection (p : Pool) (key : UpstreamKey) (expected : nat) : Pool :=
  evict_entries p key (fun i => (i =? expected)%nat
    && match heap p !! i with Some c => is_h1 c | None => false end).

Definition evict_key (p : Pool) (key : UpstreamKey) : Pool :=
  match connections p !! key with
  | Some es => with_connections (with_heap p (evict_where (fun _ => true) (heap p) es).1) (delete key (connections p))
  | None => p
  end.

(** The timer sweeps every key, in some order. *)
Definition evict_expired_key (now max_idle : Z) (p : Pool) (key : UpstreamKey) : Pool :=
  match connections p !! key with
  | Some es =>
      let '(h, es) := retain (is_alive_and_not_idle now max_idle) (heap p) es in
      with_connections (with_heap p h)
        (match es with [] => delete key (connections p) | _ => <[key := es]> (connections p) end)
  | None => p
  end.

Definition evict_expired_with_max_idle (now max_idle : Z) (p : Pool) : Pool :=
  fold_left (evict_expired_key now max_idle) (map fst (map_to_list (connections p))) p.

Definition shutdown (p : Pool) : Pool :=
  with_connections (with_heap p
    (fold_left (fun h e => (evict_where (fun _ => true) h e.2).1) (map_to_list (connections p)) (heap p))) ∅.

(** A dial that was pushed acquires its connection: the guards of the task are
    dropped when it returns. *)
Definition finish_pushed (now : Z) (p : Pool) (t : nat) (key : UpstreamKey) (channel : option Z)
    (reserved_h1 : bool) (i : nat) : Pool :=
  match heap p !! i with
  | Some c =>
      let '(c', acquired) := try_acquire now c in
      let p := with_heap p (<[i := c']> (heap p)) in
      if acquired then
        drop_guards (with_tasks p (<[t := if is_h1 c then Leased key i else Finished]> (tasks p))) key channel reserved_h1
      else with_tasks p (<[t := Rejected key channel reserved_h1 i]> (tasks p))
  | None => p
  end.

(** It could not be acquired: the task evicts it and fails. *)
Definition evict_rejected (p : Pool) (t : nat) (key : UpstreamKey) (channel : option Z) (reserved_h1 : bool)
    (i : nat) : Pool :=
  drop_guards (with_tasks (evict_if_same p key i) (<[t := Finished]> (tasks p))) key channel reserved_h1.

(** ** The transition system *)

(** The registration a task owns. *)
Definition owned (t : Task) : option (UpstreamKey * Z) :=
  match t with
  | Dialing k (Some ch) _ | Pushed k (Some ch) _ _ | Rejected k (Some ch) _ _ => Some (k, ch)
  | _ => None
  end.

Definition close_sender (c : PooledConnection) : PooledConnection :=
  {| is_h1 := is_h1 c; closed := closed c; sender_closed := true; locked := locked c;
     last_used := last_used c; driver := driver c |}.

Definition end_driver (c : PooledConnection) : PooledConnection := abort_driver (mark_closed c).

Definition set_task (p : Pool) (t : nat) (x : Task) : Pool := with_tasks p (<[t := x]> (tasks p)).

Section System.
(** The idle timeout of the pool *)
Context (idle_timeout : Z).

Inductive step : Pool → Pool → Prop :=
  (** a request enters [get_or_connect] *)
  | StepStart p key : step p (with_tasks p (tasks p ++ [Choosing key]))
  (** the locked region, first or after a wait *)
  | StepChoose p t key now p' a :
      tasks p !! t = Some (Choosing key) ∨ tasks p !! t = Some (Queued key) →
      choose idle_timeout now key p = (p', a) →
      step p (set_task p' t (after_choose (heap p') key a))
  (** the registered dial this task waits for is over *)
  | StepWake p t key channel :
      tasks p !! t = Some (Waiting key channel) → step p (set_task p t (Choosing key))
  (** its sender is gone without a value *)
  | StepSenderGone p t key channel :
      tasks p !! t = Some (Waiting key channel) →
      (∀ t' x, tasks p !! t' = Some x → owned x ≠ Some (key, channel)) →
      step p (set_task (remove_pending_entry_if_current p key channel) t (Choosing key))
  (** a task that holds nothing is cancelled or times out *)
  | StepQuit p t x :
      tasks p !! t = Some x →
      (match x with Choosing _ | Queued _ | Waiting _ _ => True | _ => False end) →
      step p (set_task p t Finished)
  (** the dial succeeded *)
  | StepDialed p t key channel reserved h1 now p' i :
      tasks p !! t = Some (Dialing key channel reserved) →
      push_connection p key h1 now = (p', i) →
      step p (set_task p' t (Pushed key channel reserved i))
  (** the dial failed or its task was cancelled *)
  | StepDialEnds p t key channel reserved :
      tasks p !! t = Some (Dialing key channel reserved) →
      step p (drop_guards (set_task p t Finished) key channel reserved)
  | StepFinish p t key channel reserved i now :
      tasks p !! t = Some (Pushed key channel reserved i) →
      step p (finish_pushed now p t key channel reserved i)
  | StepEvictRejected p t key channel reserved i :
      tasks p !! t = Some (Rejected key channel reserved i) →
      step p (evict_rejected p t key channel reserved i)
  (** the task is cancelled while it waits for the lock *)
  | StepRejectedQuits p t key channel reserved i :
      tasks p !! t = Some (Rejected key channel reserved i) →
      step p (drop_guards (set_task p t Finished) key channel reserved)
  (** the lease is dropped: the response is consumed, or its task cancelled *)
  | StepRelease p t key i now :
      tasks p !! t = Some (Leased key i) →
      step p (set_task (with_heap p (alter (drop_lease now) i (heap p))) t Finished)
  (** hyper closes a sender, a driver ends *)
  | StepSenderCloses p i : step p (with_heap p (alter close_sender i (heap p)))
  | StepDriverEnds p i : step p (with_heap p (alter end_driver i (heap p)))
  | StepEvictIfSame p key i : step p (evict_if_same p key i)
  | StepEvictH1 p key i : step p (evict_h1_connection p key i)
  | StepEvictKey p key : step p (evict_key p key)
  | StepExpire p now max_idle : step p (evict_expired_with_max_idle now max_idle p)
  | StepShutdown p : step p (shutdown p).

Inductive reachable : Pool → Prop :=
  | ReachNew : reachable new_pool
  | ReachStep p p' : reachable p → step p p' → reachable p'.
End System.

(** ** Counting tasks *)

Definition count (P : Task → bool) (ts : list Task) : nat := length (List.filter P ts).

Lemma count_insert P ts t x y :
  ts !! t = Some x → (count P (<[t := y]> ts) + Nat.b2n (P x) = count P ts + Nat.b2n (P y))%nat.
Proof.
  unfold count. revert t. induction ts as [|z ts IH]; intros [|t]; try done.
  - intros [= ->]. cbn. destruct (P x), (P y); cbn; lia.
  - intros H. specialize (IH t H). change (<[S t := y]> (z :: ts)) with (z :: <[t := y]> ts).
    cbn [List.filter]. destruct (P z); cbn [length]; lia.
Qed.

Lemma count_snoc P ts x : count P (ts ++ [x]) = (count P ts + Nat.b2n (P x))%nat.
Proof. unfold count. rewrite List.filter_app, length_app. cbn. destruct (P x); cbn; lia. Qed.

Lemma count_le P Q ts : (∀ x, P x = true → Q x = true) → (count P ts <= count Q ts)%nat.
Proof.
  intros HPQ. unfold count. induction ts as [|x ts IH]; cbn; [lia|].
  destruct (P x) eqn:HP; [rewrite (HPQ x HP); cbn; lia|]. destruct (Q x); cbn; lia.
Qed.

Lemma count_split P Q R ts :
  (∀ x, x ∈ ts → Nat.b2n (P x) = (Nat.b2n (Q x) + Nat.b2n (R x))%nat) → count P ts = (count Q ts + count R ts)%nat.
Proof.
  unfold count. induction ts as [|x ts IH]; intros H; cbn; [lia|].
  specialize (IH (fun y Hy => H y ltac:(by right))). specialize (H x ltac:(by left)).
  destruct (P x), (Q x), (R x); cbn in *; lia.
Qed.

Lemma count_pos P ts t x : ts !! t = Some x → P x = true → (1 <= count P ts)%nat.
Proof.
  intros Ht HP. unfold count. apply list_elem_of_lookup_2, list_elem_of_In in Ht.
  destruct (List.filter P ts) eqn:Hf; cbn; [|lia].
  assert (In x (List.filter P ts)) as Hin by (by apply filter_In). by rewrite Hf in Hin.
Qed.

Lemma count_zero P ts : (∀ t x, ts !! t = Some x → P x = false) → count P ts = 0%nat.
Proof.
  intros H. unfold count. induction ts as [|x ts IH]; cbn; [done|].
  rewrite (H 0%nat x eq_refl). apply IH. intros t y Hy. by apply (H (S t)).
Qed.

Definition on_key (k : UpstreamKey) (x : Task) : bool :=
  match x with Dialing k' _ _ => bool_decide (k' = k) | _ => false end.
Definition owner (k : UpstreamKey) (x : Task) : bool :=
  match owned x with Some (k', _) => bool_decide (k' = k) | None => false end.
Definition reserving (k : UpstreamKey) (x : Task) : bool :=
  match x with Dialing k' _ true | Pushed k' _ true _ | Rejected k' _ true _ => bool_decide (k' = k) | _ => false end.
Definition dialing_reserved (k : UpstreamKey) (x : Task) : bool :=
  match x with Dialing k' _ true => bool_decide (k' = k) | _ => false end.
Definition dialing_registered (k : UpstreamKey) (x : Task) : bool :=
  match x with Dialing k' (Some _) _ => bool_decide (k' = k) | _ => false end.
Definition holds (i : nat) (x : Task) : bool :=
  match x with Leased _ j => (j =? i)%nat | _ => false end.

(** A dial is registered or reserved. *)
Definition shaped (x : Task) : Prop :=
  match x with
  | Dialing _ ch r | Pushed _ ch r _ | Rejected _ ch r _ => r = bool_decide (ch = None)
  | _ => True
  end.

(** ** The invariant *)

Definition h1_entries (p : Pool) (k : UpstreamKey) : nat := h1_count (heap p) (default [] (connections p !! k)).

Definition lock_of (h : list PooledConnection) (i : nat) : nat :=
  match h !! i with Some c => Nat.b2n (locked c) | None => 0%nat end.

Record pool_inv (p : Pool) : Prop := {
  inv_shape : ∀ t x, tasks p !! t = Some x → shaped x;
  (** one task per registration, and none without *)
  inv_pending : ∀ k, count (owner k) (tasks p) = match pending p !! k with Some _ => 1%nat | None => 0%nat end;
  inv_channel : ∀ t x k ch, tasks p !! t = Some x → owned x = Some (k, ch) → pending p !! k = Some ch;
  (** the counter of reservations is exact *)
  inv_connecting : ∀ k, count (reserving k) (tasks p) = default 0%nat (h1_connecting p !! k);
  inv_reserved : ∀ k, (count (dialing_reserved k) (tasks p) <= MAX_H1_CONNECTIONS_PER_KEY)%nat;
  (** pooled h1 connections and dials *)
  inv_limit : ∀ k, (h1_entries p k + count (on_key k) (tasks p) <= S MAX_H1_CONNECTIONS_PER_KEY)%nat;
  (** a lease is held by one task *)
  inv_lease : ∀ i, count (holds i) (tasks p) = lock_of (heap p) i;
  inv_h2 : ∀ i c, heap p !! i = Some c → is_h1 c = false → locked c = false;
  inv_entries : ∀ k i, i ∈ default [] (connections p !! k) → is_Some (heap p !! i)
}.

(** Heaps that agree on what kind of connection there is and which are leased *)
Definition framed (h h' : list PooledConnection) : Prop :=
  ∀ i, (fun c => (is_h1 c, locked c)) <$> h' !! i = (fun c => (is_h1 c, locked c)) <$> h !! i.

#[export] Instance framed_refl : Reflexive framed.
Proof. done. Qed.
#[export] Instance framed_trans : Transitive framed.
Proof. intros h1 h2 h3 H12 H23 i. by rewrite H23. Qed.

Lemma framed_h1 h h' es : framed h h' → h1_count h' es = h1_count h es.
Proof.
  intros Hf. unfold h1_count. f_equal. apply List.filter_ext. intros i. specialize (Hf i).
  destruct (h' !! i), (h !! i); cbn in *; congruence.
Qed.

Lemma framed_lock h h' i : framed h h' → lock_of h' i = lock_of h i.
Proof. intros Hf. unfold lock_of. specialize (Hf i). destruct (h' !! i), (h !! i); cbn in *; congruence. Qed.

Lemma framed_insert h i c c' :
  h !! i = Some c → is_h1 c' = is_h1 c → locked c' = locked c → framed h (<[i := c']> h).
Proof.
  intros Hi H1 H2 j. destruct (decide (i = j)) as [->|Hj].
  - rewrite list_lookup_insert_eq by (by eapply lookup_lt_Some). rewrite Hi. cbn. by rewrite H1, H2.
  - by rewrite list_lookup_insert_ne.
Qed.

Lemma framed_alter f h i :
  (∀ c, is_h1 (f c) = is_h1 c ∧ locked (f c) = locked c) → framed h (alter f i h).
Proof.
  intros Hf j. destruct (decide (i = j)) as [->|Hj].
  - rewrite list_lookup_alter_eq. destruct (h !! j); cbn; [|done]. destruct (Hf p) as [-> ->]. done.
  - by rewrite list_lookup_alter_ne.
Qed.

Lemma framed_is_Some h h' i : framed h h' → is_Some (h !! i) → is_Some (h' !! i).
Proof. intros Hf [c Hc]. specialize (Hf i). rewrite Hc in Hf. destruct (h' !! i); [eauto|done]. Qed.

Lemma framed_h2 h h' i c :
  framed h h' → (∀ i c, h !! i = Some c → is_h1 c = false → locked c = false) →
  h' !! i = Some c → is_h1 c = false → locked c = false.
Proof.
  intros Hf H Hi Hk. specialize (Hf i). rewrite Hi in Hf. destruct (h !! i) as [c'|] eqn:Hc; [|done].
  cbn in Hf. injection Hf as H1 H2. rewrite H2. eapply H; [done | congruence].
Qed.

Lemma close_and_abort_framed c : is_h1 (close_and_abort c) = is_h1 c ∧ locked (close_and_abort c) = locked c.
Proof. unfold close_and_abort, abort_driver, mark_closed. by destruct (is_h1 c) eqn:H; cbn; rewrite ?H. Qed.

(** Fewer entries hold fewer h1 connections. *)
Lemma h1_count_sublist h es es' : sublist es' es → (h1_count h es' <= h1_count h es)%nat.
Proof.
  unfold h1_count. induction 1 as [|i es es' _ IH|i es es' _ IH]; cbn; [lia| |];
    destruct (match h !! i with Some c => is_h1 c | None => false end); cbn; lia.
Qed.

Lemma retain_spec keep es : ∀ h h' es',
  retain keep h es = (h', es') → framed h h' ∧ sublist es' es.
Proof.
  induction es as [|i es IH]; intros h h' es'; cbn [retain]; [by intros [= <- <-]|].
  destruct (h !! i) as [c|] eqn:Hc.
  - destruct (keep c).
    + destruct (retain keep h es) as [h1 es1] eqn:Hr. intros [= <- <-]. apply IH in Hr as [? ?].
      split; [done | by constructor].
    + intros [Hf Hs]%IH. split; [|by constructor]. etrans; [|done].
      destruct (close_and_abort_framed c). by eapply framed_insert.
  - intros [Hf Hs]%IH. split; [done | by constructor].
Qed.

Lemma alter_fold_framed (bad : nat → bool) es : ∀ h,
  framed h (fold_left (fun h i => if bad i then alter close_and_abort i h else h) es h).
Proof.
  induction es as [|i es IH]; intros h; cbn [fold_left]; [done|]. etrans; [|apply IH].
  destruct (bad i); [|done]. apply framed_alter, close_and_abort_framed.
Qed.

Lemma filter_sublist {A} (P : A → bool) l : sublist (List.filter P l) l.
Proof. induction l as [|x l IH]; cbn; [constructor|]. destruct (P x); by constructor. Qed.

Lemma evict_where_spec bad h es : framed h (evict_where bad h es).1 ∧ sublist (evict_where bad h es).2 es.
Proof. split; [apply alter_fold_framed | apply filter_sublist]. Qed.

(** Steps that only close and remove connections *)
Definition shrinks (p p' : Pool) : Prop :=
  tasks p' = tasks p ∧ pending p' = pending p ∧ h1_connecting p' = h1_connecting p ∧
  framed (heap p) (heap p') ∧
  ∀ k, sublist (default [] (connections p' !! k)) (default [] (connections p !! k)).

#[export] Instance shrinks_refl : Reflexive shrinks.
Proof. intros p. by split_and!. Qed.
#[export] Instance shrinks_trans : Transitive shrinks.
Proof.
  intros p q r (Ht & Hp & Hc & Hf & Hs) (Ht' & Hp' & Hc' & Hf' & Hs'). split_and!; [congruence..| |].
  - by etrans.
  - intros k. by rewrite Hs'.
Qed.

Lemma shrinks_h1 p p' k : shrinks p p' → (h1_entries p' k <= h1_entries p k)%nat.
Proof.
  intros (_ & _ & _ & Hf & Hs). unfold h1_entries. rewrite (framed_h1 _ _ _ Hf). by apply h1_count_sublist.
Qed.

Lemma inv_shrinks p p' : pool_inv p → shrinks p p' → pool_inv p'.
Proof.
  intros I S. pose proof S as (Ht & Hp & Hc & Hf & Hs). split; rewrite ?Ht, ?Hp, ?Hc; try apply I.
  - intros k. pose proof (shrinks_h1 p p' k S). pose proof (inv_limit p I k). lia.
  - intros i. rewrite (framed_lock _ _ _ Hf). apply I.
  - intros i c. apply (framed_h2 _ _ i c Hf), (inv_h2 p I).
  - intros k i Hi. eapply framed_is_Some; [done|]. eapply (inv_entries p I k). eapply elem_of_sublist; [done | apply Hs].
Qed.

Lemma shrinks_one p key h es :
  framed (heap p) h → sublist es (default [] (connections p !! key)) →
  shrinks p (with_connections (with_heap p h)
    (match es with [] => delete key (connections p) | _ => <[key := es]> (connections p) end)).
Proof.
  intros Hf Hs. split_and!; try done. intros k. cbn. destruct (decide (k = key)) as [->|Hk].
  - destruct es; [by rewrite lookup_delete_eq | by rewrite lookup_insert_eq].
  - destruct es; [by rewrite lookup_delete_ne | by rewrite lookup_insert_ne].
Qed.

Lemma shrinks_evict_entries p key bad : shrinks p (evict_entries p key bad).
Proof.
  unfold evict_entries. destruct (connections p !! key) as [es|] eqn:He; [|done].
  pose proof (evict_where_spec bad (heap p) es) as [Hf Hs]. destruct (evict_where bad (heap p) es) as [h es'].
  apply shrinks_one; [done | by rewrite He].
Qed.

Lemma shrinks_evict_key p key : shrinks p (evict_key p key).
Proof.
  unfold evict_key. destruct (connections p !! key) as [es|] eqn:He; [|done].
  apply (shrinks_one p key _ []); [apply evict_where_spec | apply sublist_nil_l].
Qed.

Lemma shrinks_expired now max_idle p : shrinks p (evict_expired_with_max_idle now max_idle p).
Proof.
  unfold evict_expired_with_max_idle. generalize (map fst (map_to_list (connections p))). intros ks. revert p.
  induction ks as [|k ks IH]; intros p; cbn [fold_left]; [done|]. etrans; [|apply IH].
  unfold evict_expired_key. destruct (connections p !! k) as [es|] eqn:He; [|done].
  destruct (retain _ _ es) as [h es'] eqn:Hr. apply retain_spec in Hr as [? ?].
  apply shrinks_one; [done | by rewrite He].
Qed.

Lemma shrinks_shutdown p : shrinks p (shutdown p).
Proof.
  split_and!; try done; cbn [heap connections shutdown with_connections with_heap].
  - generalize (map_to_list (connections p)). intros es. generalize (heap p).
    induction es as [|e es IH]; intros h; cbn [fold_left]; [done|]. etrans; [|apply IH]. apply evict_where_spec.
  - intros k. rewrite lookup_empty. apply sublist_nil_l.
Qed.

(** *** Acquiring *)

Definition same_kinds (h h' : list PooledConnection) : Prop :=
  ∀ i, is_h1 <$> h' !! i = is_h1 <$> h !! i.

Lemma same_kinds_h1 h h' es : same_kinds h h' → h1_count h' es = h1_count h es.
Proof.
  intros Hf. unfold h1_count. f_equal. apply List.filter_ext. intros i. specialize (Hf i).
  destruct (h' !! i), (h !! i); cbn in *; congruence.
Qed.

Lemma framed_kinds h h' : framed h h' → same_kinds h h'.
Proof. intros Hf i. specialize (Hf i). destruct (h' !! i), (h !! i); cbn in *; congruence. Qed.

(** The heap after an acquisition of [i], or without one. *)
Definition acquired (h h' : list PooledConnection) (r : option nat) : Prop :=
  match r with
  | None => framed h h'
  | Some i =>
      ∃ h1 c, framed h h1 ∧ h1 !! i = Some c ∧ locked c = false ∧
        ∃ c', is_h1 c' = is_h1 c ∧ locked c' = is_h1 c ∧ h' = <[i := c']> h1
  end.

Lemma try_acquire_spec now c c' b :
  try_acquire now c = (c', b) → (is_h1 c = false → locked c = false) →
  is_h1 c' = is_h1 c ∧ if b then locked c = false ∧ locked c' = is_h1 c else locked c' = locked c.
Proof.
  unfold try_acquire, mark_closed. destruct (is_h1 c) eqn:Hk.
  - destruct (closed c); [by intros [= <- <-]|]. destruct (locked c) eqn:Hl; [by intros [= <- <-]|].
    destruct (sender_closed c); intros [= <- <-] _; cbn; by rewrite ?Hk.
  - destruct (sender_closed c); intros [= <- <-] Hl; cbn; [done|]. rewrite Hk. auto.
Qed.

Lemma acquire_first_spec now es : ∀ h h' r,
  (∀ i c, h !! i = Some c → is_h1 c = false → locked c = false) →
  acquire_first now h es = (h', r) → acquired h h' r.
Proof.
  induction es as [|i es IH]; intros h h' r H2; cbn [acquire_first]; [by intros [= <- <-]|].
  destruct (h !! i) as [c|] eqn:Hc; [|by apply IH].
  destruct (try_acquire now c) as [c' b] eqn:Ha. apply try_acquire_spec in Ha as [Hk Hb]; [|by eapply H2].
  destruct b.
  - destruct Hb as [Hl Hl']. intros [= <- <-]. exists h, c. split; [done|]. eauto 10.
  - assert (framed h (<[i := c']> h)) as Hf by (by eapply framed_insert).
    intros Hr%IH; [|intros k d; by apply (framed_h2 _ _ k d Hf)]. destruct r as [j|]; cbn in *; [|by etrans].
    destruct Hr as (h1 & c1 & Hf1 & ?). exists h1, c1. split; [by etrans | done].
Qed.

Lemma acquired_kinds h h' r : acquired h h' r → same_kinds h h'.
Proof.
  destruct r as [i|]; cbn; [|apply framed_kinds]. intros (h1 & c & Hf & Hc & _ & c' & Hk & _ & ->) j.
  rewrite <- (framed_kinds _ _ Hf j). destruct (decide (i = j)) as [->|Hj].
  - rewrite list_lookup_insert_eq by (by eapply lookup_lt_Some). rewrite Hc. cbn. by rewrite Hk.
  - by rewrite list_lookup_insert_ne.
Qed.

Definition leased (h : list PooledConnection) (r : option nat) (j : nat) : bool :=
  match r with
  | Some i => (i =? j)%nat && match h !! i with Some c => is_h1 c | None => false end
  | None => false
  end.

Lemma acquired_lock h h' r j : acquired h h' r → lock_of h' j = (lock_of h j + Nat.b2n (leased h' r j))%nat.
Proof.
  destruct r as [i|]; cbn [acquired leased]; [|intros Hf; rewrite (framed_lock _ _ _ Hf); cbn; lia].
  intros (h1 & c & Hf & Hc & Hl & c' & Hk & Hl' & ->). rewrite <- (framed_lock _ _ j Hf).
  assert (<[i := c']> h1 !! i = Some c') as Hi by (apply list_lookup_insert_eq; by eapply lookup_lt_Some).
  rewrite Hi. destruct (Nat.eqb_spec i j) as [->|Hj]; cbn [andb].
  - unfold lock_of. rewrite Hi, Hc, Hl, Hl', Hk. destruct (is_h1 c); cbn; lia.
  - unfold lock_of. rewrite list_lookup_insert_ne by done. cbn. lia.
Qed.

Lemma acquired_h2 h h' r i c :
  acquired h h' r → (∀ i c, h !! i = Some c → is_h1 c = false → locked c = false) →
  h' !! i = Some c → is_h1 c = false → locked c = false.
Proof.
  destruct r as [j|]; cbn; [|apply framed_h2]. intros (h1 & c1 & Hf & Hc & _ & c' & Hk & Hl & ->) H2 Hi Hh.
  destruct (decide (j = i)) as [->|Hj].
  - rewrite list_lookup_insert_eq in Hi by (by eapply lookup_lt_Some). injection Hi as <-. congruence.
  - rewrite list_lookup_insert_ne in Hi by done. by eapply (framed_h2 _ _ i c Hf).
Qed.

Lemma kinds_is_Some h h' i : same_kinds h h' → is_Some (h !! i) → is_Some (h' !! i).
Proof. intros Hf [c Hc]. specialize (Hf i). rewrite Hc in Hf. destruct (h' !! i); [eauto|done]. Qed.

(** *** The tasks *)

(** The dial a task is in the middle of. *)
Definition dial_of (x : Task) : option (UpstreamKey * option Z * bool) :=
  match x with
  | Dialing k ch r | Pushed k ch r _ | Rejected k ch r _ => Some (k, ch, r)
  | _ => None
  end.

Lemma no_dial_facts x k :
  dial_of x = None → owner k x = false ∧ reserving k x = false ∧ dialing_reserved k x = false ∧
  on_key k x = false ∧ owned x = None ∧ shaped x.
Proof. destruct x as [| | |? [] []|? [] []|? [] []| |]; cbn; naive_solver. Qed.

(** A task that holds no dial moves on to another such phase. *)
Lemma inv_move p p' t x y :
  pool_inv p → tasks p !! t = Some x → dial_of x = None → dial_of y = None →
  tasks p' = <[t := y]> (tasks p) → pending p' = pending p → h1_connecting p' = h1_connecting p →
  (∀ k, (h1_entries p' k <= h1_entries p k)%nat) →
  (∀ i, count (holds i) (tasks p') = lock_of (heap p') i) →
  (∀ i c, heap p' !! i = Some c → is_h1 c = false → locked c = false) →
  (∀ k i, i ∈ default [] (connections p' !! k) → is_Some (heap p' !! i)) →
  pool_inv p'.
Proof.
  intros I Hx Dx Dy Ht Hp Hc Hl Hlease Hh2 Hent.
  assert (∀ P, P x = false → P y = false → count P (tasks p') = count P (tasks p)) as Hcount.
  { intros P HPx HPy. rewrite Ht. pose proof (count_insert P _ _ _ y Hx) as Hi. rewrite HPx, HPy in Hi. cbn in Hi. lia. }
  split; try done.
  - intros t' z. rewrite Ht. destruct (decide (t = t')) as [->|Hne].
    + rewrite list_lookup_insert_eq by (by eapply lookup_lt_Some). intros [= <-].
      apply (no_dial_facts _ ([], [], 0) Dy).
    + rewrite list_lookup_insert_ne by done. apply I.
  - intros k. rewrite Hp, Hcount; [apply I | by apply no_dial_facts..].
  - intros t' z k ch. rewrite Ht, Hp. destruct (decide (t = t')) as [->|Hne].
    + rewrite list_lookup_insert_eq by (by eapply lookup_lt_Some). intros [= <-].
      destruct (no_dial_facts y k Dy) as (_ & _ & _ & _ & -> & _). done.
    + rewrite list_lookup_insert_ne by done. apply I.
  - intros k. rewrite Hc, Hcount; [apply I | by apply no_dial_facts..].
  - intros k. rewrite Hcount; [apply I | by apply no_dial_facts..].
  - intros k. rewrite (Hcount (on_key k)) by (by apply no_dial_facts).
    pose proof (inv_limit p I k). pose proof (Hl k). lia.
Qed.

Lemma lookup_task (ts : list Task) t (y : Task) t' z x :
  ts !! t = Some x → <[t := y]> ts !! t' = Some z → (t' = t ∧ z = y) ∨ (t' ≠ t ∧ ts !! t' = Some z).
Proof.
  intros Hx. destruct (decide (t' = t)) as [->|Hne].
  - rewrite list_lookup_insert_eq by (by eapply lookup_lt_Some). intros [= <-]. by left.
  - rewrite list_lookup_insert_ne by done. by right.
Qed.

Definition idle_task (x : Task) : Prop := dial_of x = None ∧ ∀ i, holds i x = false.

(** Counting after a task without dial or lease starts a dial. *)
Lemma count_dial P ts t x key ch r :
  ts !! t = Some x → P x = false →
  count P (<[t := Dialing key ch r]> ts) = (count P ts + Nat.b2n (P (Dialing key ch r)))%nat.
Proof. intros Hx HP. pose proof (count_insert P _ _ _ (Dialing key ch r) Hx) as H. rewrite HP in H. cbn in *. lia. Qed.

Lemma inv_start_reserved p t x key :
  pool_inv p → tasks p !! t = Some x → idle_task x →
  (h1_entries p key + default 0 (h1_connecting p !! key) < MAX_H1_CONNECTIONS_PER_KEY)%nat →
  pool_inv (set_task (with_connecting p (<[key := S (default 0%nat (h1_connecting p !! key))]> (h1_connecting p)))
              t (Dialing key None true)).
Proof.
  intros I Hx [Dx Hh] Hlt. pose proof (fun k => no_dial_facts x k Dx) as F.
  assert (∀ k, (count (dialing_reserved k) (tasks p) <= count (reserving k) (tasks p))%nat) as Hle.
  { intros k. apply count_le. intros [| | |? ? []| | | |]; cbn; done. }
  assert (∀ k, (count (on_key k) (tasks p) <= count (dialing_reserved k) (tasks p) + count (owner k) (tasks p))%nat) as Hsplit.
  { intros k. rewrite (count_split (on_key k) (dialing_reserved k) (dialing_registered k)).
    - apply Nat.add_le_mono_l, count_le. intros [| | |? [] []| | | |]; cbn; done.
    - intros z (t' & Hz)%list_elem_of_lookup_1. apply (inv_shape p I) in Hz.
      destruct z as [| | |k' [ch|] r| | | |]; cbn in *; try done; subst; cbn; destruct (bool_decide (k' = k)); done. }
  split; cbn [tasks pending h1_connecting heap set_task with_tasks with_connecting].
  - intros t' z [[_ ->]|[_ Hz]]%(lookup_task _ _ _ _ _ _ Hx); [done | by apply (inv_shape p I t')].
  - intros k. rewrite (count_dial _ _ _ x) by (done || apply F). cbn. rewrite Nat.add_0_r. apply I.
  - intros t' z k ch [[_ ->]|[_ Hz]]%(lookup_task _ _ _ _ _ _ Hx); [done | by apply (inv_channel p I t')].
  - intros k. rewrite (count_dial _ _ _ x), (inv_connecting p I) by (done || apply F). cbn.
    case_bool_decide; subst; [rewrite lookup_insert_eq; cbn; lia | rewrite lookup_insert_ne by done; cbn; lia].
  - intros k. rewrite (count_dial _ _ _ x) by (done || apply F). cbn. pose proof (inv_reserved p I k).
    case_bool_decide; cbn; [subst|lia]. pose proof (Hle k). pose proof (inv_connecting p I k). lia.
  - intros k. rewrite (count_dial _ _ _ x) by (done || apply F). cbn. pose proof (inv_limit p I k) as Hlim.
    unfold h1_entries in *. cbn. case_bool_decide; cbn; [subst|lia].
    pose proof (Hle k). pose proof (Hsplit k). pose proof (inv_connecting p I k). pose proof (inv_pending p I k) as Hp.
    assert (count (owner k) (tasks p) <= 1)%nat by (rewrite Hp; destruct (pending p !! k); lia). lia.
  - intros i. rewrite (count_dial _ _ _ x) by (done || apply Hh). cbn. rewrite Nat.add_0_r. apply I.
  - apply I.
  - apply I.
Qed.

Lemma inv_start_registered p t x key ch :
  pool_inv p → tasks p !! t = Some x → idle_task x →
  connections p !! key = None → pending p !! key = None →
  pool_inv (set_task (with_next (with_pending p (<[key := ch]> (pending p))) (ch + 1)) t (Dialing key (Some ch) false)).
Proof.
  intros I Hx [Dx Hh] Hc Hp. pose proof (fun k => no_dial_facts x k Dx) as F.
  assert (count (on_key key) (tasks p) <= count (dialing_reserved key) (tasks p))%nat as Hle.
  { rewrite (count_split (on_key key) (dialing_reserved key) (dialing_registered key)).
    - assert (count (dialing_registered key) (tasks p) <= count (owner key) (tasks p))%nat as Ho.
      { apply count_le. intros [| | |? [] []| | | |]; cbn; done. }
      rewrite (inv_pending p I), Hp in Ho. lia.
    - intros z (t' & Hz)%list_elem_of_lookup_1. apply (inv_shape p I) in Hz.
      destruct z as [| | |k' [ch'|] r| | | |]; cbn in *; try done; subst; cbn; destruct (bool_decide (k' = key)); done. }
  assert (∀ t' z k c, tasks p !! t' = Some z → owned z = Some (k, c) → k ≠ key) as Hnone.
  { intros t' z k c Hz Ho ->. apply (inv_channel p I t' z) in Ho; [congruence | done]. }
  split; cbn [tasks pending h1_connecting heap connections set_task with_tasks with_next with_pending].
  - intros t' z [[_ ->]|[_ Hz]]%(lookup_task _ _ _ _ _ _ Hx); [done | by apply (inv_shape p I t')].
  - intros k. rewrite (count_dial _ _ _ x), (inv_pending p I) by (done || apply F). unfold owner. cbn.
    case_bool_decide; subst; [by rewrite Hp, lookup_insert_eq | rewrite lookup_insert_ne by done].
    destruct (pending p !! k); cbn; lia.
  - intros t' z k c [[_ ->]|[_ Hz]]%(lookup_task _ _ _ _ _ _ Hx).
    + intros [= <- <-]. by rewrite lookup_insert_eq.
    + intros Ho. rewrite lookup_insert_ne by (symmetry; by eapply Hnone). by apply (inv_channel p I t' z).
  - intros k. rewrite (count_dial _ _ _ x) by (done || apply F). cbn. rewrite Nat.add_0_r. apply I.
  - intros k. rewrite (count_dial _ _ _ x) by (done || apply F). cbn. rewrite Nat.add_0_r. apply I.
  - intros k. rewrite (count_dial _ _ _ x) by (done || apply F). cbn. pose proof (inv_limit p I k) as Hlim.
    unfold h1_entries in *. cbn. case_bool_decide; cbn; [subst|lia]. rewrite Hc. cbn.
    pose proof (inv_reserved p I k). lia.
  - intros i. rewrite (count_dial _ _ _ x) by (done || apply Hh). cbn. rewrite Nat.add_0_r. apply I.
  - apply I.
  - apply I.
Qed.

(** A task without dial and lease waits, retries or quits. *)
Lemma inv_waiting p t x y :
  pool_inv p → tasks p !! t = Some x → idle_task x → idle_task y → pool_inv (set_task p t y).
Proof.
  intros I Hx [Dx Hh] [Dy Hy]. apply (inv_move p _ t x y); try done; cbn [heap connections tasks set_task with_tasks]; try apply I.
  intros i. pose proof (count_insert (holds i) _ _ _ y Hx) as H. rewrite Hh, Hy in H. cbn in H.
  rewrite <- (inv_lease p I i). lia.
Qed.

Lemma inv_choose idle now key p t x p' a :
  pool_inv p → tasks p !! t = Some x → idle_task x → choose idle now key p = (p', a) →
  pool_inv (set_task p' t (after_choose (heap p') key a)).
Proof.
  intros I Hx Ix. unfold choose. destruct (connections p !! key) as [es|] eqn:He.
  - destruct (retain _ (heap p) es) as [h1 es1] eqn:Hr. apply retain_spec in Hr as [Hf Hs].
    destruct (acquire_first now h1 es1) as [h2 r] eqn:Ha.
    apply acquire_first_spec in Ha; [|intros i c; apply (framed_h2 _ _ i c Hf), (inv_h2 p I)].
    set (p1 := with_connections (with_heap p h2) (<[key := es1]> (connections p))).
    assert (∀ k, sublist (default [] (connections p1 !! k)) (default [] (connections p !! k))) as Hsub.
    { intros k. cbn. destruct (decide (k = key)) as [->|]; [by rewrite lookup_insert_eq, He | by rewrite lookup_insert_ne]. }
    destruct r as [i|].
    + intros [= <- <-]. pose proof (acquired_kinds _ _ _ Ha) as Hk.
      assert (∀ k, (h1_entries p1 k <= h1_entries p k)%nat) as Hle.
      { intros k. unfold h1_entries. cbn [heap p1 with_connections with_heap].
        rewrite (same_kinds_h1 _ _ _ Hk), (framed_h1 _ _ _ Hf). by apply h1_count_sublist. }
      apply (inv_move p _ t x (after_choose h2 key (Return i))); try done; try apply Ix.
      * cbn. destruct (h2 !! i) as [c|]; [|done]. by destruct (is_h1 c).
      * intros j. cbn [heap set_task with_tasks p1 with_connections with_heap tasks].
        rewrite (acquired_lock _ _ _ j Ha), (framed_lock _ _ j Hf).
        pose proof (count_insert (holds j) _ _ _ (after_choose h2 key (Return i)) Hx) as Hc.
        rewrite (proj2 Ix j), (inv_lease p I j) in Hc. cbn in Hc |- *.
        destruct (h2 !! i) as [c|]; cbn in *; [destruct (is_h1 c); cbn in *|]; rewrite ?andb_true_r, ?andb_false_r in *; cbn in *; lia.
      * intros j c. apply (acquired_h2 _ _ _ j c Ha). intros j' c'. apply (framed_h2 _ _ j' c' Hf), (inv_h2 p I).
      * intros k j Hj. apply (kinds_is_Some _ _ _ Hk), (framed_is_Some _ _ _ Hf), (inv_entries p I k).
        eapply elem_of_sublist; [exact Hj | apply Hsub].
    + assert (shrinks p p1) as Hshr by (split_and!; try done; by etrans).
      pose proof (inv_shrinks p p1 I Hshr) as I1.
      destruct es1 as [|e es1].
      * intros [= <- <-]. apply (inv_waiting _ t x); [|done|done|done]. eapply inv_shrinks; [exact I1|].
        split_and!; try done. intros k. cbn. destruct (decide (k = key)) as [->|].
        -- rewrite lookup_delete_eq. apply sublist_nil_l.
        -- by rewrite lookup_delete_ne.
      * destruct (Nat.ltb_spec (h1_count h2 (e :: es1) + default 0%nat (h1_connecting p1 !! key)) MAX_H1_CONNECTIONS_PER_KEY) as [Hlt|].
        -- intros [= <- <-]. apply (inv_start_reserved p1 t x); [done|done|done|].
           unfold h1_entries. cbn [heap connections p1 with_connections]. by rewrite lookup_insert_eq.
        -- intros [= <- <-]. by apply (inv_waiting p1 t x).
  - destruct (pending p !! key) as [ch|] eqn:Hp; intros [= <- <-].
    + by apply (inv_waiting p t x).
    + by apply (inv_start_registered p t x).
Qed.

(** *** The end of a dial *)

Lemma drop_guards_frame p key ch r :
  heap (drop_guards p key ch r) = heap p ∧ connections (drop_guards p key ch r) = connections p ∧
  tasks (drop_guards p key ch r) = tasks p.
Proof.
  unfold drop_guards, drop_pending_guard, drop_connecting_guard, remove_pending_entry_if_current.
  destruct ch, r; repeat case_match; done.
Qed.

Lemma drop_guards_pending p key ch r k :
  pending (drop_guards p key ch r) !! k =
    if bool_decide (k = key) then
      match ch with Some m => if bool_decide (pending p !! key = Some m) then None else pending p !! k | None => pending p !! k end
    else pending p !! k.
Proof.
  unfold drop_guards, drop_pending_guard, remove_pending_entry_if_current.
  assert (pending (drop_connecting_guard p key r) = pending p) as Hp.
  { unfold drop_connecting_guard. destruct r; [|done]. by destruct (h1_connecting p !! key). }
  destruct ch as [m|]; rewrite ?Hp; [|by case_bool_decide].
  destruct (bool_decide (pending p !! key = Some m)); cbn; rewrite ?Hp; [|by case_bool_decide].
  case_bool_decide; subst; [by rewrite lookup_delete_eq | by rewrite lookup_delete_ne].
Qed.

Lemma drop_guards_connecting p key ch r k :
  default 0%nat (h1_connecting (drop_guards p key ch r) !! k) =
    (default 0%nat (h1_connecting p !! k) - Nat.b2n (r && bool_decide (k = key)))%nat.
Proof.
  unfold drop_guards.
  assert (∀ q, h1_connecting (drop_pending_guard q key ch) = h1_connecting q) as ->.
  { intros q. unfold drop_pending_guard, remove_pending_entry_if_current. destruct ch; [|done]. by case_bool_decide. }
  unfold drop_connecting_guard. destruct r; cbn [andb]; [|cbn; lia].
  destruct (h1_connecting p !! key) as [n|] eqn:Hn.
  - cbn. destruct (Nat.eqb_spec (n - 1) 0); case_bool_decide; subst.
    + rewrite lookup_delete_eq, Hn. cbn. lia.
    + rewrite lookup_delete_ne by done. cbn. lia.
    + rewrite lookup_insert_eq, Hn. cbn. lia.
    + rewrite lookup_insert_ne by done. cbn. lia.
  - case_bool_decide; subst; [rewrite Hn|]; cbn; lia.
Qed.

(** A dialing task ends; the heap and the entries may have changed with it. *)
Lemma inv_end_dial p q t x y key ch r :
  pool_inv p → tasks p !! t = Some x → dial_of x = Some (key, ch, r) → dial_of y = None →
  tasks q = <[t := y]> (tasks p) → pending q = pending p → h1_connecting q = h1_connecting p →
  (∀ k, (h1_entries q k <= h1_entries p k)%nat) →
  (∀ i, count (holds i) (tasks q) = lock_of (heap q) i) →
  (∀ i c, heap q !! i = Some c → is_h1 c = false → locked c = false) →
  (∀ k i, i ∈ default [] (connections q !! k) → is_Some (heap q !! i)) →
  pool_inv (drop_guards q key ch r).
Proof.
  intros I Hx Dx Dy Ht Hp Hc Hl Hlease Hh2 Hent. pose proof (fun k => no_dial_facts y k Dy) as F.
  destruct (drop_guards_frame q key ch r) as (Eh & Ec & Et).
  assert (∀ P, (count P (tasks q) + Nat.b2n (P x) = count P (tasks p) + Nat.b2n (P y))%nat) as Hcount.
  { intros P. rewrite Ht. by apply count_insert. }
  assert (r = bool_decide (ch = None)) as Hshape.
  { apply (inv_shape p I) in Hx. by destruct x; cbn in Dx; simplify_eq. }
  assert (∀ k, owner k x = match ch with Some _ => bool_decide (key = k) | None => false end) as Hown.
  { intros k. destruct x; cbn in Dx; simplify_eq; by destruct ch. }
  split; rewrite ?Et, ?Eh, ?Ec; try done.
  - intros t' z. rewrite Ht. intros [[_ ->]|[_ Hz]]%(lookup_task _ _ _ _ _ _ Hx).
    + by apply (F key).
    + by apply (inv_shape p I t').
  - intros k. rewrite drop_guards_pending, Hp. specialize (Hcount (owner k)).
    rewrite Hown, (inv_pending p I k) in Hcount. destruct (F k) as (Fo & _). rewrite Fo in Hcount.
    destruct ch as [m|].
    + rewrite (inv_channel p I t x key m) by (done || by destruct x; cbn in Dx; simplify_eq).
      rewrite (bool_decide_true (Some m = Some m)) by done.
      destruct (decide (k = key)) as [->|Hne].
      * rewrite !bool_decide_true in * by done.
        rewrite (inv_channel p I t x key m) in Hcount by (done || by destruct x; cbn in Dx; simplify_eq). cbn [Nat.b2n] in *. lia.
      * rewrite !bool_decide_false in * by done. cbn [Nat.b2n] in Hcount. lia.
    + cbn [Nat.b2n] in Hcount. destruct (bool_decide (k = key)); destruct (pending p !! k); lia.
  - intros t' z k c. rewrite Ht. intros [[_ ->]|[Hne Hz]]%(lookup_task _ _ _ _ _ _ Hx).
    { destruct (F k) as (_ & _ & _ & _ & -> & _). done. }
    intros Ho. pose proof (inv_channel p I t' z k c Hz Ho) as Hpc. rewrite drop_guards_pending, Hp, Hpc.
    clear Hshape. case_bool_decide as Hk; [subst k|done]. destruct ch as [m|]; [|done].
    case_bool_decide as Hm; [|done]. exfalso.
    (* two owners of one registration *)
    pose proof (inv_pending p I key) as Hone. rewrite Hpc in Hone.
    pose proof (count_insert (owner key) _ _ _ Finished Hx) as Hi. rewrite Hown, bool_decide_true in Hi by done. cbn [Nat.b2n owner owned] in Hi.
    assert (1 <= count (owner key) (<[t := Finished]> (tasks p)))%nat as Hpos.
    { apply (count_pos _ _ t' z); [by rewrite list_lookup_insert_ne|]. unfold owner. rewrite Ho. by apply bool_decide_true. }
    lia.
  - intros k. rewrite drop_guards_connecting, Hc. specialize (Hcount (reserving k)).
    rewrite (inv_connecting p I k) in Hcount. destruct (F k) as (_ & Fr & _). rewrite Fr in Hcount.
    assert (reserving k x = r && bool_decide (k = key)) as Hres.
    { destruct x; cbn in Dx; simplify_eq; cbn; destruct (bool_decide (ch = None)); cbn; try done; by apply bool_decide_ext. }
    rewrite Hres in Hcount. cbn [Nat.b2n] in Hcount. lia.
  - intros k. specialize (Hcount (dialing_reserved k)). destruct (F k) as (_ & _ & Fd & _). rewrite Fd in Hcount.
    pose proof (inv_reserved p I k). cbn [Nat.b2n] in Hcount. lia.
  - intros k. specialize (Hcount (on_key k)). destruct (F k) as (_ & _ & _ & Fk & _). rewrite Fk in Hcount.
    pose proof (inv_limit p I k). pose proof (Hl k) as Hlk. unfold h1_entries in *. rewrite Eh, Ec. cbn [Nat.b2n] in Hcount. lia.
Qed.

Lemma h1_count_snoc_heap h c es :
  (∀ i, i ∈ es → is_Some (h !! i)) → h1_count (h ++ [c]) es = h1_count h es.
Proof.
  intros Hes. unfold h1_count. f_equal. apply List.filter_ext_in. intros i Hi. apply list_elem_of_In, Hes in Hi as [d Hd].
  rewrite lookup_app_l by (by eapply lookup_lt_Some). by rewrite Hd.
Qed.

Lemma h1_count_snoc h es i : (h1_count h (es ++ [i]) <= S (h1_count h es))%nat.
Proof.
  unfold h1_count. rewrite List.filter_app, length_app. cbn.
  destruct (match h !! i with Some c => is_h1 c | None => false end); cbn; lia.
Qed.

Lemma lookup_snoc_other {A} (l : list A) x j : j ≠ length l → (l ++ [x]) !! j = l !! j.
Proof.
  intros Hj. destruct (decide (j < length l)%nat); [by apply lookup_app_l|].
  rewrite !lookup_ge_None_2; [done | lia | rewrite length_app; cbn; lia].
Qed.

Lemma inv_push p t key ch r h1 now p' i :
  pool_inv p → tasks p !! t = Some (Dialing key ch r) → push_connection p key h1 now = (p', i) →
  pool_inv (set_task p' t (Pushed key ch r i)).
Proof.
  intros I Hx. unfold push_connection. intros [= <- <-]. set (i := length (heap p)).
  assert (∀ P, (count P (<[t := Pushed key ch r i]> (tasks p)) + Nat.b2n (P (Dialing key ch r))
    = count P (tasks p) + Nat.b2n (P (Pushed key ch r i)))%nat) as Hcount by (intros P; by apply count_insert).
  pose proof (inv_shape p I _ _ Hx) as Hshape.
  split; cbn [tasks pending h1_connecting heap connections set_task with_tasks with_connections with_heap].
  - intros t' z [[_ ->]|[_ Hz]]%(lookup_task _ _ _ _ _ _ Hx); [done | by apply (inv_shape p I t')].
  - intros k. specialize (Hcount (owner k)). rewrite (inv_pending p I k) in Hcount.
    assert (owner k (Pushed key ch r i) = owner k (Dialing key ch r)) as Ho by (by destruct ch).
    rewrite Ho in Hcount. lia.
  - intros t' z k c [[_ ->]|[_ Hz]]%(lookup_task _ _ _ _ _ _ Hx).
    + intros Ho. apply (inv_channel p I t _ k c Hx). by destruct ch.
    + by apply (inv_channel p I t').
  - intros k. specialize (Hcount (reserving k)). rewrite (inv_connecting p I k) in Hcount. cbn [reserving] in Hcount. lia.
  - intros k. specialize (Hcount (dialing_reserved k)). pose proof (inv_reserved p I k). cbn [dialing_reserved Nat.b2n] in Hcount. lia.
  - intros k. specialize (Hcount (on_key k)). pose proof (inv_limit p I k) as Hlim. unfold h1_entries in *.
    cbn [on_key heap connections set_task with_tasks with_connections with_heap] in *.
    assert (∀ k', h1_count (heap p ++ [new_connection h1 now]) (default [] (connections p !! k'))
      = h1_count (heap p) (default [] (connections p !! k'))) as Hsame.
    { intros k'. apply h1_count_snoc_heap. intros j Hj. by apply (inv_entries p I k'). }
    destruct (decide (key = k)) as [->|Hk].
    + rewrite bool_decide_true in Hcount by done. rewrite lookup_insert_eq. cbn [default Nat.b2n] in *.
      pose proof (h1_count_snoc (heap p ++ [new_connection h1 now]) (default [] (connections p !! k)) i) as Hs.
      rewrite Hsame in Hs. cbn [from_option id] in *. unfold id in *. lia.
    + rewrite bool_decide_false in Hcount by done. rewrite lookup_insert_ne by done. rewrite Hsame. cbn [Nat.b2n] in Hcount. lia.
  - intros j. specialize (Hcount (holds j)). rewrite (inv_lease p I j) in Hcount. cbn [holds Nat.b2n] in Hcount.
    unfold lock_of in *. destruct (decide (j = i)) as [->|Hj].
    + unfold i in *. rewrite lookup_app_r, Nat.sub_diag by done. rewrite lookup_ge_None_2 in Hcount by done. cbn. lia.
    + rewrite (lookup_snoc_other _ _ _ Hj). lia.
  - intros j c [[_ Hj]|[_ <-]]%lookup_snoc_Some; [|done]. by apply (inv_h2 p I j).
  - intros k j Hj. destruct (decide (j = i)) as [->|Hne]; [unfold i; rewrite lookup_app_r, Nat.sub_diag by done; eauto|].
    rewrite (lookup_snoc_other _ _ _ Hne). apply (inv_entries p I k). destruct (decide (key = k)) as [->|Hk].
    + rewrite lookup_insert_eq in Hj. cbn in Hj. apply elem_of_app in Hj as [Hj|Hj]; [done|].
      by apply list_elem_of_singleton in Hj.
    + by rewrite lookup_insert_ne in Hj.
Qed.

Lemma inv_dial_ends p t key ch r :
  pool_inv p → tasks p !! t = Some (Dialing key ch r) →
  pool_inv (drop_guards (set_task p t Finished) key ch r).
Proof.
  intros I Hx. apply (inv_end_dial p _ t (Dialing key ch r) Finished); try done;
    cbn [heap connections tasks set_task with_tasks]; try apply I.
  intros i. pose proof (count_insert (holds i) _ _ _ Finished Hx) as H. cbn [holds Nat.b2n] in H.
  rewrite <- (inv_lease p I i). lia.
Qed.

Lemma inv_reject p t key ch r i :
  pool_inv p → tasks p !! t = Some (Pushed key ch r i) →
  pool_inv (with_tasks p (<[t := Rejected key ch r i]> (tasks p))).
Proof.
  intros I Hx. assert (∀ P, P (Rejected key ch r i) = P (Pushed key ch r i) →
    count P (<[t := Rejected key ch r i]> (tasks p)) = count P (tasks p)) as Hcount.
  { intros P HP. pose proof (count_insert P _ _ _ (Rejected key ch r i) Hx) as Hi. rewrite HP in Hi. lia. }
  pose proof (inv_shape p I _ _ Hx) as Hshape.
  split; cbn [tasks pending h1_connecting heap connections with_tasks];
    try (intros k; rewrite Hcount by (by destruct ch, r)); try apply I.
  - intros t' z [[_ ->]|[_ Hz]]%(lookup_task _ _ _ _ _ _ Hx); [done | by apply (inv_shape p I t')].
  - intros t' z k c [[_ ->]|[_ Hz]]%(lookup_task _ _ _ _ _ _ Hx).
    + intros Ho. apply (inv_channel p I t _ k c Hx). by destruct ch.
    + by apply (inv_channel p I t').
Qed.

Lemma inv_finish_pushed p t key ch r i now :
  pool_inv p → tasks p !! t = Some (Pushed key ch r i) → pool_inv (finish_pushed now p t key ch r i).
Proof.
  intros I Hx. unfold finish_pushed. destruct (heap p !! i) as [c|] eqn:Hc; [|done].
  destruct (try_acquire now c) as [c' b] eqn:Ha.
  apply try_acquire_spec in Ha as [Hk Hb]; [|by eapply (inv_h2 p I)].
  assert (∀ x j, (count (holds j) (<[t := x]> (tasks p)) = lock_of (heap p) j + Nat.b2n (holds j x))%nat) as Hcount.
  { intros x j. pose proof (count_insert (holds j) _ _ _ x Hx) as H. cbn [holds Nat.b2n] in H.
    rewrite <- (inv_lease p I j). lia. }
  destruct b.
  - destruct Hb as [Hl Hl'].
    assert (acquired (heap p) (<[i := c']> (heap p)) (Some i)) as Hacq by (exists (heap p), c; split; [done|eauto 10]).
    apply (inv_end_dial p _ t (Pushed key ch r i) (if is_h1 c then Leased key i else Finished)); try done;
      cbn [heap connections tasks with_tasks with_heap].
    + by destruct (is_h1 c).
    + intros k. unfold h1_entries. cbn [heap connections with_tasks with_heap].
      by rewrite (same_kinds_h1 _ _ _ (acquired_kinds _ _ _ Hacq)).
    + intros j. rewrite Hcount, (acquired_lock _ _ _ j Hacq). cbn [leased].
      rewrite list_lookup_insert_eq, Hk by (by eapply lookup_lt_Some).
      destruct (is_h1 c); cbn [holds]; [by rewrite andb_true_r | by rewrite andb_false_r].
    + intros j d. apply (acquired_h2 _ _ _ j d Hacq), (inv_h2 p I).
    + intros k j Hj. apply (kinds_is_Some _ _ _ (acquired_kinds _ _ _ Hacq)). by apply (inv_entries p I k).
  - apply inv_reject; [|done]. apply (inv_shrinks p); [done|]. split_and!; try done. by eapply framed_insert.
Qed.

Lemma inv_end_rejected p p' t key ch r i :
  pool_inv p → shrinks p p' → tasks p !! t = Some (Rejected key ch r i) →
  pool_inv (drop_guards (with_tasks p' (<[t := Finished]> (tasks p))) key ch r).
Proof.
  intros I Hs Hx. pose proof (inv_shrinks _ _ I Hs) as I1. pose proof Hs as (Ht & Hp & Hcc & Hfr & _).
  apply (inv_end_dial p _ t (Rejected key ch r i) Finished); try done;
    cbn [heap connections tasks pending h1_connecting with_tasks]; try apply I1; try done.
  - intros k. exact (shrinks_h1 _ _ k Hs).
  - intros j. pose proof (count_insert (holds j) _ _ _ Finished Hx) as H. cbn [holds Nat.b2n] in H.
    rewrite (framed_lock _ _ j Hfr), <- (inv_lease p I j). lia.
Qed.

Lemma inv_release p t key i now :
  pool_inv p → tasks p !! t = Some (Leased key i) →
  pool_inv (set_task (with_heap p (alter (drop_lease now) i (heap p))) t Finished).
Proof.
  intros I Hx.
  assert (same_kinds (heap p) (alter (drop_lease now) i (heap p))) as Hk.
  { intros j. destruct (decide (i = j)) as [->|Hj]; [rewrite list_lookup_alter_eq | by rewrite list_lookup_alter_ne].
    by destruct (heap p !! j). }
  apply (inv_move p _ t (Leased key i) Finished); try done; cbn [heap connections tasks set_task with_tasks with_heap].
  - intros k. unfold h1_entries. cbn [heap connections set_task with_tasks with_heap]. by rewrite (same_kinds_h1 _ _ _ Hk).
  - intros j. pose proof (count_insert (holds j) _ _ _ Finished Hx) as H. rewrite (inv_lease p I j) in H.
    cbn [holds] in H. unfold lock_of in *. destruct (Nat.eqb_spec i j) as [->|Hj]; cbn [Nat.b2n] in H.
    + rewrite list_lookup_alter_eq. destruct (heap p !! j) as [c|]; cbn in *; [|lia]. destruct (locked c); cbn in *; lia.
    + rewrite list_lookup_alter_ne by done. lia.
  - intros j c Hj. destruct (decide (i = j)) as [->|Hne].
    + rewrite list_lookup_alter_eq in Hj. destruct (heap p !! j); [|done]. by injection Hj as <-.
    + rewrite list_lookup_alter_ne in Hj by done. by apply (inv_h2 p I j).
  - intros k j Hj. apply (kinds_is_Some _ _ _ Hk). by apply (inv_entries p I k).
Qed.

Lemma inv_start p key : pool_inv p → pool_inv (with_tasks p (tasks p ++ [Choosing key])).
Proof.
  intros I. split; cbn [tasks pending h1_connecting heap connections with_tasks];
    try (intros k; rewrite count_snoc; cbn [holds on_key owner owned reserving dialing_reserved Nat.b2n];
         rewrite ?Nat.add_0_r); try apply I.
  - intros t x [[_ Hx]|[_ <-]]%lookup_snoc_Some; [by apply (inv_shape p I t)|done].
  - intros t x k ch [[_ Hx]|[_ <-]]%lookup_snoc_Some; [by apply (inv_channel p I t)|done].
Qed.

Lemma shrinks_alter p i f :
  (∀ c, is_h1 (f c) = is_h1 c ∧ locked (f c) = locked c) → shrinks p (with_heap p (alter f i (heap p))).
Proof. intros Hf. split_and!; try done. by apply framed_alter. Qed.

Lemma inv_step idle p p' : pool_inv p → step idle p p' → pool_inv p'.
Proof.
  intros I. destruct 1 as [p key|p t key now p' a Ht Hc|p t key ch Ht|p t key ch Ht Hno|p t x Ht Hx
    |p t key ch r h1 now p' i Ht Hp|p t key ch r Ht|p t key ch r i now Ht|p t key ch r i Ht|p t key ch r i Ht|p t key i now Ht|p i|p i| | | | |].
  - by apply inv_start.
  - destruct Ht as [Ht|Ht]; by eapply inv_choose.
  - by eapply inv_waiting.
  - assert (remove_pending_entry_if_current p key ch = p) as ->; [|by eapply inv_waiting].
    unfold remove_pending_entry_if_current. case_bool_decide as Hp; [|done]. exfalso.
    pose proof (inv_pending p I key) as Hone. rewrite Hp in Hone.
    rewrite count_zero in Hone; [done|]. intros t' x Hx. unfold owner. destruct (owned x) as [[k c]|] eqn:Ho; [|done].
    apply bool_decide_false. intros ->. pose proof (inv_channel p I t' x key c Hx Ho) as Hc. rewrite Hp in Hc.
    injection Hc as ->. by apply (Hno t' x).
  - eapply inv_waiting; [done|done| |done]. destruct x; done.
  - by eapply inv_push.
  - by apply inv_dial_ends.
  - by apply inv_finish_pushed.
  - eapply inv_end_rejected; [done| |done]. apply shrinks_evict_entries.
  - by eapply (inv_end_rejected p p).
  - by eapply inv_release.
  - eapply inv_shrinks; [done|]. by apply shrinks_alter.
  - eapply inv_shrinks; [done|]. apply shrinks_alter. apply close_and_abort_framed.
  - eapply inv_shrinks; [done|]. apply shrinks_evict_entries.
  - eapply inv_shrinks; [done|]. apply shrinks_evict_entries.
  - eapply inv_shrinks; [done|]. apply shrinks_evict_key.
  - eapply inv_shrinks; [done|]. apply shrinks_expired.
  - eapply inv_shrinks; [done|]. apply shrinks_shutdown.
Qed.

Lemma reachable_inv idle p : reachable idle p → pool_inv p.
Proof.
  induction 1 as [|p p' _ IH Hs]; [|by eapply inv_step].
  split; cbn [tasks heap connections pending h1_connecting new_pool]; try done.
  - intros k. unfold count. cbn. lia.
  - intros k. unfold h1_entries. cbn [heap connections new_pool]. rewrite lookup_empty. cbn. lia.
  - intros k i. rewrite lookup_empty. intros Hi. by apply elem_of_nil in Hi.
Qed.

(** ** Properties *)

(** C10: in every reachable state of the pool, whatever tasks start, wait, dial,
    are cancelled and what is evicted in between: a key has at most five h1
    connections, pooled or being dialed; every registration in [pending] belongs
    to exactly one dialing task, so a cancelled dial leaves none behind; the
    counter of reserved dials is exact; and a connection is locked exactly when
    one task holds its lease. *)
Theorem pool_invariant idle p :
  reachable idle p →
  (∀ k, (h1_entries p k + count (on_key k) (tasks p) <= S MAX_H1_CONNECTIONS_PER_KEY)%nat) ∧
  (∀ k, count (owner k) (tasks p) = match pending p !! k with Some _ => 1%nat | None => 0%nat end) ∧
  (∀ k, count (reserving k) (tasks p) = default 0%nat (h1_connecting p !! k)) ∧
  (∀ i, count (holds i) (tasks p) = lock_of (heap p) i).
Proof. intros I%reachable_inv. split_and!; apply I. Qed.

(** a busy connection survives the sweep.  Neither the timer nor the cleanup
    of [get_or_connect] removes or closes a leased h1 connection that is open,
    however long it was not touched. *)
Theorem busy_connection_kept now max_idle h es h' es' i c :
  retain (is_alive_and_not_idle now max_idle) h es = (h', es') →
  h !! i = Some c → is_h1 c = true → locked c = true → closed c = false →
  h' !! i = Some c ∧ (i ∈ es → i ∈ es').
Proof.
  intros Hr Hc Hk Hl Ho. assert (is_alive_and_not_idle now max_idle c = true) as Halive.
  { unfold is_alive_and_not_idle. by rewrite Hk, Ho, Hl. }
  revert h h' es' Hr Hc. induction es as [|j es IH]; intros h h' es'; cbn [retain].
  { intros [= <- <-] Hc. by split. }
  destruct (h !! j) as [d|] eqn:Hd.
  - destruct (is_alive_and_not_idle now max_idle d) eqn:Ha.
    + destruct (retain _ h es) as [h1 es1] eqn:Hr. intros [= <- <-] Hc.
      destruct (IH h h1 es1 Hr Hc) as [H1 H2]. split; [done|]. rewrite !elem_of_cons. naive_solver.
    + intros Hr Hc. assert (i ≠ j) as Hij by (intros ->; congruence).
      destruct (IH _ _ _ Hr) as [H1 H2]; [by rewrite list_lookup_insert_ne|]. split; [done|].
      rewrite elem_of_cons. naive_solver.
  - intros Hr Hc. destruct (IH _ _ _ Hr Hc) as [H1 H2]. split; [done|]. rewrite elem_of_cons. naive_solver.
Qed.


(** ** Runs *)

(** The steps of a schedule, executable *)
Inductive Op :=
  | OStart (key : UpstreamKey)
  | OChoose (t : nat) (now : Z)
  | ODialed (t : nat) (h1 : bool) (now : Z)
  | ODialEnds (t : nat)
  | OFinish (t : nat) (now : Z)
  | OEvictRejected (t : nat)
  | ORelease (t : nat) (now : Z)
  | ODriverEnds (i : nat)
  | OEvictIfSame (key : UpstreamKey) (i : nat)
  | OExpire (now max_idle : Z).

Definition run_op (idle : Z) (p : Pool) (o : Op) : option Pool :=
  match o with
  | OStart key => Some (with_tasks p (tasks p ++ [Choosing key]))
  | OChoose t now =>
      match tasks p !! t with
      | Some (Choosing key) | Some (Queued key) =>
          let '(p', a) := choose idle now key p in Some (set_task p' t (after_choose (heap p') key a))
      | _ => None
      end
  | ODialed t h1 now =>
      match tasks p !! t with
      | Some (Dialing key ch r) =>
          let '(p', i) := push_connection p key h1 now in Some (set_task p' t (Pushed key ch r i))
      | _ => None
      end
  | ODialEnds t =>
      match tasks p !! t with
      | Some (Dialing key ch r) => Some (drop_guards (set_task p t Finished) key ch r)
      | _ => None
      end
  | OFinish t now =>
      match tasks p !! t with
      | Some (Pushed key ch r i) => Some (finish_pushed now p t key ch r i)
      | _ => None
      end
  | OEvictRejected t =>
      match tasks p !! t with
      | Some (Rejected key ch r i) => Some (evict_rejected p t key ch r i)
      | _ => None
      end
  | ORelease t now =>
      match tasks p !! t with
      | Some (Leased key i) => Some (set_task (with_heap p (alter (drop_lease now) i (heap p))) t Finished)
      | _ => None
      end
  | ODriverEnds i => Some (with_heap p (alter end_driver i (heap p)))
  | OEvictIfSame key i => Some (evict_if_same p key i)
  | OExpire now max_idle => Some (evict_expired_with_max_idle now max_idle p)
  end.

Fixpoint run (idle : Z) (p : Pool) (os : list Op) : option Pool :=
  match os with
  | [] => Some p
  | o :: os => match run_op idle p o with Some p => run idle p os | None => None end
  end.

Lemma run_op_step idle p o p' : run_op idle p o = Some p' → step idle p p'.
Proof.
  destruct o as [key|t now|t h1 now|t|t now|t|t now|i|key i|now max]; cbn [run_op];
    try (intros [= <-]; by constructor).
  - destruct (tasks p !! t) as [x|] eqn:Ht; [|done].
    destruct x as [key|key| | | | | |]; try done; destruct (choose idle now key p) as [q a] eqn:Hc;
      intros [= <-]; eapply StepChoose; eauto.
  - destruct (tasks p !! t) as [x|] eqn:Ht; [|done]. destruct x as [| | |key ch r| | | |]; try done.
    destruct (push_connection p key h1 now) as [q i] eqn:Hp. intros [= <-]. by eapply StepDialed.
  - destruct (tasks p !! t) as [x|] eqn:Ht; [|done]. destruct x; try done. intros [= <-]. by constructor.
  - destruct (tasks p !! t) as [x|] eqn:Ht; [|done]. destruct x; try done. intros [= <-]. by constructor.
  - destruct (tasks p !! t) as [x|] eqn:Ht; [|done]. destruct x; try done. intros [= <-]. by econstructor.
  - destruct (tasks p !! t) as [x|] eqn:Ht; [|done]. destruct x; try done. intros [= <-]. by econstructor.
Qed.

Lemma run_reachable idle os : ∀ p p', reachable idle p → run idle p os = Some p' → reachable idle p'.
Proof.
  induction os as [|o os IH]; intros p p' Hp; cbn [run]; [by intros [= <-]|].
  destruct (run_op idle p o) as [q|] eqn:Ho; [|done]. apply IH. eapply ReachStep; [done|by eapply run_op_step].
Qed.

Definition demo_key : UpstreamKey := (lit "http", lit "h", 80).

(** A second request takes the connection between its push and the acquisition
    of the request that dialed it. *)
Definition stolen_run : list Op :=
  [OStart demo_key; OChoose 0 0; ODialed 0 true 0; OStart demo_key; OChoose 1 0; OFinish 0 0; OEvictRejected 0].

(** The request that dialed then fails and closes the connection the other
    request is using: its lease is on a connection whose driver was aborted. *)
Lemma pool_new_connection_stolen :
  ∃ p, reachable 60 p ∧ tasks p = [Finished; Leased demo_key 0] ∧ connections p !! demo_key = None ∧
    (fun c => (closed c, driver c)) <$> heap p !! 0%nat = Some (true, false).
Proof.
  destruct (run 60 new_pool stolen_run) as [p|] eqn:Hp; [|by vm_compute in Hp].
  exists p. split; [by eapply run_reachable; [constructor|]|]. vm_compute in Hp. injection Hp as <-. by vm_compute.
Qed.

(** The registered dial is not counted against the limit. *)
Definition over_limit_run : list Op :=
  [OStart demo_key; OChoose 0 0; ODialed 0 true 0; OFinish 0 0;
   OStart demo_key; OChoose 1 0; ODriverEnds 0; OEvictIfSame demo_key 0;
   OStart demo_key; OChoose 2 0; ODialed 1 true 0; OFinish 1 0;
   OStart demo_key; OChoose 3 0; OStart demo_key; OChoose 4 0; OStart demo_key; OChoose 5 0;
   ODialed 3 true 0; OFinish 3 0; ODialed 4 true 0; OFinish 4 0; ODialed 5 true 0; OFinish 5 0;
   ODialed 2 true 0].

Lemma pool_limit_exceeded :
  ∃ p, reachable 60 p ∧ h1_entries p demo_key = S MAX_H1_CONNECTIONS_PER_KEY.
Proof.
  destruct (run 60 new_pool over_limit_run) as [p|] eqn:Hp; [|by vm_compute in Hp].
  exists p. split; [by eapply run_reachable; [constructor|]|].
  apply Some_inj. change (Some (h1_entries p demo_key)) with ((fun p => h1_entries p demo_key) <$> Some p).
  rewrite <- Hp. by vm_compute.
Qed.

Definition cancelled_run : list Op := [OStart demo_key; OChoose 0 0; ODialEnds 0].

Lemma pool_invariant_witness :
  match run 60 new_pool cancelled_run with
  | Some p => pending p !! demo_key = None ∧ (∀ k, (h1_entries p k + count (on_key k) (tasks p) <= 5)%nat)
  | None => False
  end.
Proof.
  destruct (run 60 new_pool cancelled_run) as [p|] eqn:Hp; [|by vm_compute in Hp].
  destruct (pool_invariant 60 p) as [Hl _].
  { eapply run_reachable; [constructor | exact Hp]. }
  split; [|exact Hl]. apply Some_inj.
  change (Some (pending p !! demo_key)) with ((fun p => pending p !! demo_key) <$> Some p).
  rewrite <- Hp. by vm_compute.
Defined.

Lemma busy_connection_kept_witness :
  let c := touch 0 true (new_connection true 0) in
  (retain (is_alive_and_not_idle 1000 60) [c] [0%nat]).1 !! 0%nat = Some c.
Proof.
  intros c. apply (busy_connection_kept 1000 60 [c] [0%nat] _ [0%nat] 0 c); done.
Defined.
