(* ===== verification/RuleTypes.v ===== *)
(** * RuleTypes: the rule records (proxy-core/src/rules/types.rs and the request
    fields of proxy-core/src/types.rs the rules look at), stage and method
    matching, and the stable priority order. *)

From S2P Require Import Prelude Str Patterns JsonPath.

(** ** Definitions *)

Record RewriteRuleMatch := {
  rm_methods : list str;
  rm_stage : str;
  rm_url_pattern : str;
  rm_match_type : option str
}.

(** [actions] and [payload] are JSON; their numbers are not looked at here. *)
Record RewriteRule {number : Type} := {
  rw_actions : option (list (@value number));
  rw_id : str;
  rw_enabled : bool;
  rw_name : str;
  rw_note : option str;
  rw_priority : Z;
  rw_match : RewriteRuleMatch;
  rw_rewrite_type : str;
  rw_workspace_id : str;
  rw_payload : @value number
}.
Arguments RewriteRule number : clear implicits.

Record MapRule := {
  map_id : str;
  map_enabled : bool;
  map_mode : str;
  map_name : str;
  map_note : option str;
  map_preserve_path : bool;
  map_preserve_query : bool;
  map_priority : Z;
  map_source_pattern : str;
  map_target_value : str;
  map_match_type : option str;
  map_workspace_id : str
}.

(** [packet_loss_ratio] is an [f32]: its bit pattern. *)
Record ThrottleProfileData := {
  tp_id : str;
  tp_download_kbps : Z;
  tp_enabled : bool;
  tp_latency_ms : Z;
  tp_name : str;
  tp_note : option str;
  tp_packet_loss_ratio : Z;
  tp_preset : bool;
  tp_upload_kbps : Z;
  tp_workspace_id : str
}.

Record ThrottleRuleData := {
  tr_id : str;
  tr_enabled : bool;
  tr_methods : list str;
  tr_name : str;
  tr_note : option str;
  tr_priority : Z;
  tr_profile_id : str;
  tr_stage : str;
  tr_url_pattern : str;
  tr_match_type : option str;
  tr_workspace_id : str
}.

Record ThrottleTrace := {
  tt_body_bytes : Z;
  tt_delay_ms : Z;
  tt_latency_ms : Z;
  tt_message : option str;
  tt_outcome : str;
  tt_profile_id : str;
  tt_profile_name : str;
  tt_rule_id : option str;
  tt_rule_name : option str;
  tt_sequence : Z;
  tt_stage : str;
  tt_transfer_delay_ms : Z
}.

Record ThrottleRuntimeStats := {
  dropped_requests : Z;
  matched_requests : Z;
  request_delay_ms : Z;
  response_delay_ms : Z
}.

Record ThrottleRuntimeSelection := {
  sel_profile : ThrottleProfileData;
  sel_rule : option ThrottleRuleData
}.

Record ThrottleFailure := { tf_error : str; tf_trace : ThrottleTrace }.

(** The parts of [ParsedProxyRequest] rule selection reads: the URL as text. *)
Record RequestView := { rq_method : str; rq_url : str; rq_host : str }.

Definition method_matches (methods : list str) (method : str) : bool :=
  bool_decide (methods = []) || existsb (fun c => eq_ignore_ascii_case c method) methods.

Definition rule_stage_matches (rule_stage current_stage : str) : bool :=
  let normalized := trim rule_stage in
  bool_decide (normalized = [])
  || eq_ignore_ascii_case normalized (lit "both")
  || eq_ignore_ascii_case normalized (lit "either")
  || eq_ignore_ascii_case normalized current_stage.

Definition host_lock_matches (host_lock : option str) (request_host : str) : bool :=
  match host_lock with
  | None => true
  | Some locked => eq_ignore_ascii_case locked request_host
  end.

(** [v.sort_by_key(|r| Reverse(key(r)))]: a stable sort, highest key first. *)
Fixpoint insert_desc {A} (key : A → Z) (x : A) (l : list A) : list A :=
  match l with
  | [] => [x]
  | y :: l' => if key y <=? key x then x :: l else y :: insert_desc key x l'
  end.

Fixpoint sort_desc {A} (key : A → Z) (l : list A) : list A :=
  match l with
  | [] => []
  | x :: l => insert_desc key x (sort_desc key l)
  end.

(** ** Lemmas: the priority order *)

Section SortDesc.
  Context {A : Type} (key : A → Z).

Lemma insert_desc_perm x l : insert_desc key x l ≡ₚ x :: l.
Proof.
  induction l as [|y l IH]; cbn; [done|]. destruct (_ <=? _); [done|]. rewrite IH. constructor.
Qed.

Lemma sort_desc_perm l : sort_desc key l ≡ₚ l.
Proof. induction l as [|x l IH]; cbn; [done|]. by rewrite insert_desc_perm, IH. Qed.

Lemma sort_desc_elem x l : x ∈ sort_desc key l ↔ x ∈ l.
Proof. by rewrite sort_desc_perm. Qed.

(** Every element is at least as high as those after it. *)
Fixpoint descending (l : list A) : Prop :=
  match l with
  | [] => True
  | x :: l => Forall (fun y => key y <= key x) l ∧ descending l
  end.

Lemma insert_desc_descending x l : descending l → descending (insert_desc key x l).
Proof.
  induction l as [|y l IH]; cbn; [done|]. intros [Hy Hl].
  destruct (key y <=? key x) eqn:H; breflect.
  - split; [|done]. constructor; [done|]. eapply Forall_impl; [done|]. cbn. intros; lia.
  - split; [|by apply IH]. rewrite insert_desc_perm. constructor; [lia | done].
Qed.

Lemma sort_desc_descending l : descending (sort_desc key l).
Proof. induction l as [|x l IH]; cbn; [done|]. by apply insert_desc_descending. Qed.

(** Elements of equal priority keep their order. *)
Lemma insert_desc_stable k x l :
  descending l →
  List.filter (fun y => key y =? k) (insert_desc key x l) =
  List.filter (fun y => key y =? k) (x :: l).
Proof.
  induction l as [|y l IH]; [done|]. intros [Hy Hl]. cbn [insert_desc].
  destruct (key y <=? key x) eqn:H; [done|]. breflect. cbn [List.filter]. rewrite IH by done.
  cbn [List.filter]. destruct (key y =? k) eqn:Hk; [|done].
  destruct (key x =? k) eqn:Hx; [breflect; lia | done].
Qed.

Lemma sort_desc_stable k l :
  List.filter (fun y => key y =? k) (sort_desc key l) = List.filter (fun y => key y =? k) l.
Proof.
  induction l as [|x l IH]; [done|]. cbn [sort_desc].
  rewrite insert_desc_stable by apply sort_desc_descending. cbn. by rewrite IH.
Qed.

(** [first_highest l x]: [x] is the first of the elements of highest priority. *)
Definition first_highest (l : list A) (x : A) : Prop :=
  ∃ l1 l2, l = l1 ++ x :: l2 ∧ Forall (fun y => key y < key x) l1 ∧
           Forall (fun y => key y <= key x) l2.

Lemma sort_desc_head l :
  match sort_desc key l with
  | [] => l = []
  | x :: _ => first_highest l x
  end.
Proof.
  induction l as [|x l IH]; [done|]. cbn [sort_desc].
  destruct (sort_desc key l) as [|y r] eqn:Hs; cbn [insert_desc].
  - subst l. exists [], []. done.
  - destruct IH as (l1 & l2 & -> & H1 & H2). destruct (key y <=? key x) eqn:H; breflect.
    + exists [], (l1 ++ y :: l2). split; [done|]. split; [constructor|].
      apply Forall_app. split; [eapply Forall_impl; [done|]; cbn; lia|].
      constructor; [lia|]. eapply Forall_impl; [done|]; cbn; lia.
    + exists (x :: l1), l2. split; [done|]. split; [by constructor|done].
Qed.

End SortDesc.
