(* ===== verification/JsonSpan.v ===== *)
(** * JsonSpan: byte-precise patching of JSON bodies (proxy-core/src/rules/rewrite.rs)

    [JsonSpanParser] records the byte span of every value of a document;
    [patch_json_field_values] replaces only the spans of the edited fields, so
    that number literals, escapes and white space elsewhere survive.  The parser
    keeps a position in the text: the model keeps the position and the bytes
    from there on.  [serde_json::from_str::<String>] (decoding of a string
    literal) and [serde_json::to_string] are parameters.

    The specification is a concrete syntax tree with all its white space:
    [text] is the document it spells, [val] the JSON value it denotes. *)

From S2P Require Import Prelude Str JsonPath RuleTypes.

(** ** Definitions: the parser *)

Inductive JsonSpanNode :=
  | SpanNode (start end_ : nat) (kind : JsonSpanKind)
with JsonSpanKind :=
  | SpanObject (members : list (str * JsonSpanNode))
  | SpanArray (items : list JsonSpanNode)
  | SpanScalar.

Definition node_start (n : JsonSpanNode) : nat := match n with SpanNode s _ _ => s end.
Definition node_end (n : JsonSpanNode) : nat := match n with SpanNode _ e _ => e end.
Definition node_kind (n : JsonSpanNode) : JsonSpanKind := match n with SpanNode _ _ k => k end.

(** [pos] and [bytes[pos..]]. *)
Record Cursor := { pos : nat; rest : bytes }.

Definition advance (n : nat) (c : Cursor) : Cursor :=
  {| pos := (pos c + n)%nat; rest := drop n (rest c) |}.

Fixpoint span_len (p : byte → bool) (l : bytes) : nat :=
  match l with
  | [] => O
  | b :: l => if p b then S (span_len p l) else O
  end.

Definition is_ws (b : byte) : bool := (b =? 32) || (b =? 9) || (b =? 13) || (b =? 10).

Definition is_number_byte (b : byte) : bool :=
  is_digit b || (b =? chr "-") || (b =? chr "+") || (b =? chr ".") || (b =? chr "e") || (b =? chr "E").

Definition skip_ws (c : Cursor) : Cursor := advance (span_len is_ws (rest c)) c.

Definition expect (b : byte) (c : Cursor) : result Cursor unit :=
  match rest c with
  | b' :: _ => if b' =? b then Ok (advance 1 c) else Err tt
  | [] => Err tt
  end.

Definition expect_literal (l : bytes) (c : Cursor) : result Cursor unit :=
  if starts_with (rest c) l then Ok (advance (length l) c) else Err tt.

Definition quote : byte := 34.
Definition backslash : byte := 92.

(** Bytes up to and including the closing quote; a backslash skips two. *)
Fixpoint string_end (l : bytes) : option nat :=
  match l with
  | [] => None
  | b :: l' =>
      if b =? backslash then
        match l' with
        | [] => None
        | _ :: l'' => match string_end l'' with Some n => Some (S (S n)) | None => None end
        end
      else if b =? quote then Some 1%nat
      else match string_end l' with Some n => Some (S n) | None => None end
  end.

(** The [HashSet] check for a repeated key. *)
Definition has_duplicate (keys : list str) : bool := negb (bool_decide (NoDup keys)).

Section Parser.
Context (decode_string : bytes → option str).

Definition parse_string (c : Cursor) : result (str * Cursor) unit :=
  let? c1 := expect quote c in
  match string_end (rest c1) with
  | None => Err tt
  | Some n =>
      let raw := take (S n) (rest c) in
      match from_utf8 raw with
      | None => Err tt
      | Some raw => let? key := ok_or (decode_string raw) tt in Ok (key, advance n c1)
      end
  end.

Definition is_number_start (b : byte) : bool := (b =? chr "-") || is_digit b.

Fixpoint parse_value (fuel : nat) (c : Cursor) : result (JsonSpanNode * Cursor) unit :=
  match fuel with
  | O => Err tt
  | S fuel =>
      let c := skip_ws c in
      let start := pos c in
      let? kc :=
        match rest c with
        | b :: _ =>
            if b =? chr "{" then
              let c := skip_ws (advance 1 c) in
              let? mc :=
                match rest c with
                | b :: _ => if b =? chr "}" then Ok ([], advance 1 c) else parse_members fuel c []
                | [] => parse_members fuel c []
                end in
              if has_duplicate (map fst mc.1) then Err tt else Ok (SpanObject mc.1, mc.2)
            else if b =? chr "[" then
              let c := skip_ws (advance 1 c) in
              let? ic :=
                match rest c with
                | b :: _ => if b =? chr "]" then Ok ([], advance 1 c) else parse_items fuel c []
                | [] => parse_items fuel c []
                end in
              Ok (SpanArray ic.1, ic.2)
            else if b =? quote then let? sc := parse_string c in Ok (SpanScalar, sc.2)
            else if b =? chr "t" then let? c := expect_literal (lit "true") c in Ok (SpanScalar, c)
            else if b =? chr "f" then let? c := expect_literal (lit "false") c in Ok (SpanScalar, c)
            else if b =? chr "n" then let? c := expect_literal (lit "null") c in Ok (SpanScalar, c)
            else if is_number_start b then
              Ok (SpanScalar, advance (span_len is_number_byte (rest c)) c)
            else Err tt
        | [] => Err tt
        end in
      Ok (SpanNode start (pos kc.2) kc.1, kc.2)
  end
with parse_members (fuel : nat) (c : Cursor) (members : list (str * JsonSpanNode))
    : result (list (str * JsonSpanNode) * Cursor) unit :=
  match fuel with
  | O => Err tt
  | S fuel =>
      let? kc := parse_string (skip_ws c) in
      let? c := expect (chr ":") (skip_ws kc.2) in
      let? vc := parse_value fuel c in
      let members := members ++ [(kc.1, vc.1)] in
      let c := skip_ws vc.2 in
      match rest c with
      | b :: _ =>
          if b =? chr "," then parse_members fuel (advance 1 c) members
          else if b =? chr "}" then Ok (members, advance 1 c)
          else Err tt
      | [] => Err tt
      end
  end
with parse_items (fuel : nat) (c : Cursor) (items : list JsonSpanNode)
    : result (list JsonSpanNode * Cursor) unit :=
  match fuel with
  | O => Err tt
  | S fuel =>
      let? vc := parse_value fuel c in
      let items := items ++ [vc.1] in
      let c := skip_ws vc.2 in
      match rest c with
      | b :: _ =>
          if b =? chr "," then parse_items fuel (advance 1 c) items
          else if b =? chr "]" then Ok (items, advance 1 c)
          else Err tt
      | [] => Err tt
      end
  end.

(** Every two nested calls consume a byte. *)
Definition parse_fuel (text : bytes) : nat := (2 * length text + 2)%nat.

Definition parse_root (text : bytes) : result JsonSpanNode unit :=
  let? nc := parse_value (parse_fuel text) (skip_ws {| pos := 0; rest := text |}) in
  match rest (skip_ws nc.2) with
  | [] => Ok nc.1
  | _ => Err tt
  end.

Fixpoint json_span_value (current : JsonSpanNode) (segments : list JsonPathSegment)
    : option JsonSpanNode :=
  match segments with
  | [] => Some current
  | segment :: segments =>
      match node_kind current, segment with
      | SpanObject members, Key key =>
          match find_first (fun m => bool_decide (m.1 = key)) members with
          | Some m => json_span_value m.2 segments
          | None => None
          end
      | SpanArray items, Index index =>
          match items !! Z.to_nat index with
          | Some item => json_span_value item segments
          | None => None
          end
      | _, _ => None
      end
  end.

(** ** Definitions: patching *)

Context {number : Type}.
Context (to_string : value number → option bytes).

Definition patch : Type := nat * nat * bytes.
Definition patch_start (p : patch) : nat := p.1.1.
Definition patch_end (p : patch) : nat := p.1.2.

Definition edit_patch (root : JsonSpanNode) (e : list JsonPathSegment * value number)
    : option patch :=
  match json_span_value root e.1 with
  | Some node =>
      match to_string e.2 with
      | Some s => Some (node_start node, node_end node, s)
      | None => None
      end
  | None => None
  end.

(** [patches.sort_by_key(|patch| patch.0)] *)
Definition sort_patches : list patch → list patch := sort_desc (fun p => - Z.of_nat (patch_start p)).

(** The check over [patches.windows(2)]. *)
Fixpoint spans_disjoint (ps : list patch) : bool :=
  match ps with
  | p :: ((q :: _) as ps) =>
      negb ((patch_start p =? patch_start q)%nat || (patch_start q <? patch_end p)%nat)
      && spans_disjoint ps
  | _ => true
  end.

(** The output loop: copy up to the patch, write it, continue after its span. *)
Fixpoint splice (body : bytes) (cursor : nat) (ps : list patch) : bytes :=
  match ps with
  | [] => drop cursor body
  | p :: ps => slice cursor (patch_start p) body ++ p.2 ++ splice body (patch_end p) ps
  end.

Definition patch_json_field_values (body_text : bytes)
    (edits : list (list JsonPathSegment * value number)) : option bytes :=
  match edits with
  | [] => None
  | _ =>
      match parse_root body_text with
      | Err _ => None
      | Ok root =>
          match mapM (edit_patch root) edits with
          | None => None
          | Some patches =>
              let patches := sort_patches patches in
              if spans_disjoint patches then Some (splice body_text 0 patches) else None
          end
      end
  end.
End Parser.

(** ** Definitions: concrete syntax trees (specification)

    A child of an array or object carries the bytes [pre] before its value
    (white space, and for a member the key and the colon), its decoded key and
    the white space [post] after it; [w] is the white space of an empty one. *)

Inductive cst :=
  | CScalar (raw : bytes)
  | CTree (object : bool) (w : bytes) (cs : children)
with children :=
  | CNil
  | CCons (pre : bytes) (key : str) (c : cst) (post : bytes) (cs : children).

Scheme cst_mut := Induction for cst Sort Prop
  with children_mut := Induction for children Sort Prop.
Combined Scheme cst_children_ind from cst_mut, children_mut.

Definition open_byte (object : bool) : byte := if object then chr "{" else chr "[".
Definition close_byte (object : bool) : byte := if object then chr "}" else chr "]".

Fixpoint text (c : cst) : bytes :=
  match c with
  | CScalar raw => raw
  | CTree o w cs =>
      open_byte o :: match cs with CNil => w | _ => text_children cs end ++ [close_byte o]
  end
with text_children (cs : children) : bytes :=
  match cs with
  | CNil => []
  | CCons pre _ c post cs =>
      pre ++ text c ++ post ++ match cs with CNil => [] | _ => chr "," :: text_children cs end
  end.

(** The spans the parser should report for a tree that starts at [s]. *)
Fixpoint node_of (s : nat) (c : cst) : JsonSpanNode :=
  SpanNode s (s + length (text c))
    match c with
    | CScalar _ => SpanScalar
    | CTree true _ cs => SpanObject (nodes_of (S s) cs)
    | CTree false _ cs => SpanArray (map snd (nodes_of (S s) cs))
    end
with nodes_of (s : nat) (cs : children) : list (str * JsonSpanNode) :=
  match cs with
  | CNil => []
  | CCons pre key c post cs =>
      (key, node_of (s + length pre) c)
        :: nodes_of (s + length pre + length (text c) + length post + 1) cs
  end.

Fixpoint keys (cs : children) : list str :=
  match cs with CNil => [] | CCons _ k _ _ cs => k :: keys cs end.

(** No object of the tree repeats a key. *)
Fixpoint distinct (c : cst) : bool :=
  match c with
  | CScalar _ => true
  | CTree o _ cs => distinct_children cs && (negb o || bool_decide (NoDup (keys cs)))
  end
with distinct_children (cs : children) : bool :=
  match cs with CNil => true | CCons _ _ c _ cs => distinct c && distinct_children cs end.

Section Spec.
Context {number : Type}.
Context (decode_string : bytes → option str) (parse_number : bytes → option number).

Definition ws_all (w : bytes) : Prop := Forall (fun b => is_ws b = true) w.

(** A string literal of the grammar, with its decoded text. *)
Definition string_token (raw : bytes) (s : str) : Prop :=
  ∃ body, raw = quote :: body ∧ string_end body = Some (length body) ∧
    from_utf8 raw = Some raw ∧ decode_string raw = Some s.

Definition number_token (raw : bytes) (n : number) : Prop :=
  ∃ b l, raw = b :: l ∧ is_number_start b = true ∧ Forall (fun b => is_number_byte b = true) raw ∧
    parse_number raw = Some n.

(** [scalar raw v]: the literal [raw] denotes [v]. *)
Inductive scalar : bytes → value number → Prop :=
  | scalar_null : scalar (lit "null") Null
  | scalar_true : scalar (lit "true") (Bool true)
  | scalar_false : scalar (lit "false") (Bool false)
  | scalar_string raw s : string_token raw s → scalar raw (String s)
  | scalar_number raw n : number_token raw n → scalar raw (Number n).

(** The bytes before a child's value. *)
Definition pre_ok (object : bool) (pre : bytes) (key : str) : Prop :=
  if object then
    ∃ w1 raw w2 w3, pre = w1 ++ raw ++ w2 ++ chr ":" :: w3 ∧ ws_all w1 ∧ ws_all w2 ∧ ws_all w3 ∧
      string_token raw key
  else ws_all pre.

(** [denotes c v]: the tree [c] is well formed and denotes [v]. *)
Inductive denotes : cst → value number → Prop :=
  | denotes_scalar raw v : scalar raw v → denotes (CScalar raw) v
  | denotes_array w cs kvs :
      ws_all w → denotes_children false cs kvs → denotes (CTree false w cs) (Array (map snd kvs))
  | denotes_object w cs kvs :
      ws_all w → denotes_children true cs kvs → denotes (CTree true w cs) (Object kvs)
with denotes_children : bool → children → list (str * value number) → Prop :=
  | denotes_nil o : denotes_children o CNil []
  | denotes_cons o pre key c post cs v kvs :
      pre_ok o pre key → ws_all post → denotes c v → denotes_children o cs kvs →
      denotes_children o (CCons pre key c post cs) ((key, v) :: kvs).

Scheme denotes_mut := Induction for denotes Sort Prop
  with denotes_children_mut := Induction for denotes_children Sort Prop.
Combined Scheme denotes_ind2 from denotes_mut, denotes_children_mut.

(** A document: a value between white space. *)
Definition document (body : bytes) (c : cst) (v : value number) : Prop :=
  ∃ w1 w2, body = w1 ++ text c ++ w2 ∧ ws_all w1 ∧ ws_all w2 ∧ denotes c v.
End Spec.

(** Offset and tree of the value at a path. *)
Fixpoint child_at (off : nat) (cs : children) (i : nat) : option (nat * cst) :=
  match cs with
  | CNil => None
  | CCons pre _ c post cs =>
      match i with
      | O => Some (off + length pre, c)%nat
      | S i => child_at (off + length pre + length (text c) + length post + 1) cs i
      end
  end.

Fixpoint key_index (k : str) (cs : children) : option nat :=
  match cs with
  | CNil => None
  | CCons _ k' _ _ cs => if bool_decide (k' = k) then Some O else S <$> key_index k cs
  end.

(** The child a segment selects. *)
Definition select (s : JsonPathSegment) (c : cst) : option nat :=
  match c, s with
  | CTree true _ cs, Key k => key_index k cs
  | CTree false _ _, Index i => Some (Z.to_nat i)
  | _, _ => None
  end.

Definition tree_children (c : cst) : children := match c with CTree _ _ cs => cs | _ => CNil end.

Fixpoint sub (off : nat) (c : cst) (p : list JsonPathSegment) : option (nat * cst) :=
  match p with
  | [] => Some (off, c)
  | s :: p => match select s c ≫= child_at (S off) (tree_children c) with
              | Some (off', c') => sub off' c' p
              | None => None
              end
  end.

Fixpoint replace_child (cs : children) (i : nat) (f : cst → cst) : children :=
  match cs with
  | CNil => CNil
  | CCons pre k c post cs =>
      match i with
      | O => CCons pre k (f c) post cs
      | S i => CCons pre k c post (replace_child cs i f)
      end
  end.

Fixpoint replace (c : cst) (p : list JsonPathSegment) (c' : cst) : cst :=
  match p with
  | [] => c'
  | s :: p =>
      match c, select s c with
      | CTree o w cs, Some i => CTree o w (replace_child cs i (fun c => replace c p c'))
      | _, _ => c
      end
  end.

(** ** Lemmas: scanning *)

Ltac chars :=
  repeat match goal with
  | |- context [chr ?s] => let v := eval vm_compute in (chr s) in change (chr s) with v
  | H : context [chr ?s] |- _ => let v := eval vm_compute in (chr s) in change (chr s) with v in H
  end.

Lemma advance_app n p l r : n = length l → advance n {| pos := p; rest := l ++ r |} = {| pos := p + n; rest := r |}.
Proof. intros ->. unfold advance. cbn. by rewrite drop_app_length. Qed.

Lemma span_len_app p w b r :
  Forall (fun b => p b = true) w → p b = false → span_len p (w ++ b :: r) = length w.
Proof. intros Hw Hb. induction Hw as [|x w Hx Hw IH]; cbn; [by rewrite Hb|]. by rewrite Hx, IH. Qed.

Lemma span_len_all p w : Forall (fun b => p b = true) w → span_len p w = length w.
Proof. induction 1 as [|x w Hx Hw IH]; cbn; [done|]. by rewrite Hx, IH. Qed.

Definition starts_not (p : byte → bool) (r : bytes) : Prop :=
  match r with b :: _ => p b = false | [] => True end.

Lemma span_len_stop p w r :
  Forall (fun b => p b = true) w → starts_not p r → span_len p (w ++ r) = length w.
Proof.
  destruct r as [|b r]; [|apply span_len_app]. intros H _. rewrite app_nil_r. by apply span_len_all.
Qed.

Lemma skip_ws_app w p r :
  ws_all w → starts_not is_ws r → skip_ws {| pos := p; rest := w ++ r |} = {| pos := p + length w; rest := r |}.
Proof. intros Hw Hr. unfold skip_ws. cbn [rest]. rewrite span_len_stop by done. by apply advance_app. Qed.

Lemma skip_ws_none p r : starts_not is_ws r → skip_ws {| pos := p; rest := r |} = {| pos := p; rest := r |}.
Proof.
  intros Hr. pose proof (skip_ws_app [] p r (List.Forall_nil _) Hr) as H. cbn in H.
  by rewrite Nat.add_0_r in H.
Qed.

Lemma drop_span_len p r : starts_not p (drop (span_len p r) r).
Proof. induction r as [|b r IH]; cbn; [done|]. destruct (p b) eqn:H; cbn; [done|by rewrite H]. Qed.

Lemma skip_ws_idemp c : skip_ws (skip_ws c) = skip_ws c.
Proof.
  destruct c as [p r]. unfold skip_ws at 2. cbn [rest]. unfold advance. cbn [pos rest].
  by rewrite skip_ws_none by apply drop_span_len.
Qed.

Lemma string_end_cons b b' l :
  string_end (b :: b' :: l) =
    if b =? backslash then match string_end l with Some n => Some (S (S n)) | None => None end
    else if b =? quote then Some 1%nat
    else match string_end (b' :: l) with Some n => Some (S n) | None => None end.
Proof. done. Qed.

Lemma string_end_app l n k : string_end l = Some n → string_end (l ++ k) = Some n.
Proof.
  enough (∀ m l n, (length l <= m)%nat → string_end l = Some n → string_end (l ++ k) = Some n) by eauto.
  clear. induction m as [|m IH]; intros l n Hm; destruct l as [|b [|b' l]]; cbn [length] in Hm; try done; try lia.
  - cbn. by repeat case_match.
  - cbn [app]. rewrite !string_end_cons. destruct (b =? backslash).
    + destruct (string_end l) as [x|] eqn:H; [|done]. by rewrite (IH l x) by (done || lia).
    + destruct (b =? quote); [done|].
      destruct (string_end (b' :: l)) as [x|] eqn:H'; [|done].
      by rewrite (IH (b' :: l) x ltac:(cbn; lia) H' : string_end (b' :: l ++ k) = Some x).
Qed.

Lemma parse_string_token decode_string raw s p post :
  string_token decode_string raw s →
  parse_string decode_string {| pos := p; rest := raw ++ post |} = Ok (s, {| pos := p + length raw; rest := post |}).
Proof.
  intros (body & -> & He & Hu & Hd). unfold parse_string, expect. cbn [rest app].
  rewrite Z.eqb_refl. cbn [rbind advance rest drop]. rewrite drop_0, (string_end_app _ _ post He).
  change (take (S (length body)) (quote :: body ++ post)) with (quote :: take (length body) (body ++ post)).
  rewrite take_app_length, Hu. cbn [option_map ok_or]. rewrite Hd. cbn. f_equal. f_equal.
  unfold advance. cbn. rewrite drop_0, drop_app_length. f_equal. lia.
Qed.

Lemma expect_cons b p r : expect b {| pos := p; rest := b :: r |} = Ok {| pos := p + 1; rest := r |}.
Proof. unfold expect. cbn. by rewrite Z.eqb_refl. Qed.

(** ** Lemmas: the parser reads a tree back *)

Definition value_start (b : byte) : bool :=
  (b =? chr "{") || (b =? chr "[") || (b =? quote) || (b =? chr "t") || (b =? chr "f")
  || (b =? chr "n") || is_number_start b.

Lemma value_start_facts b :
  value_start b = true →
  is_ws b = false ∧ b ≠ chr "]" ∧ b ≠ chr "}" ∧ b ≠ chr "," ∧ b ≠ chr ":".
Proof.
  unfold value_start, is_number_start, is_ws, is_digit, quote. chars. lia.
Qed.

(** Depth of the calls a tree needs. *)
Fixpoint need (c : cst) : nat :=
  match c with CScalar _ => 1 | CTree _ _ cs => S (need_children cs) end
with need_children (cs : children) : nat :=
  match cs with CNil => 0 | CCons _ _ c _ cs => S (Nat.max (need c) (need_children cs)) end.

Section Parse.
Context {number : Type}.
Context (decode_string : bytes → option str) (parse_number : bytes → option number).
Local Abbreviation denotes := (denotes decode_string parse_number).
Local Abbreviation denotes_children := (denotes_children decode_string parse_number).
Local Abbreviation parse_value := (parse_value decode_string).
Local Abbreviation parse_members := (parse_members decode_string).
Local Abbreviation parse_items := (parse_items decode_string).

Lemma denotes_start c v : denotes c v → ∃ b l, text c = b :: l ∧ value_start b = true.
Proof.
  destruct 1 as [raw v Hs|w cs kvs Hw Hcs|w cs kvs Hw Hcs]; [|do 2 eexists; split; [done|done]..].
  destruct Hs as [| | |raw s (body & -> & _)|raw n (b & l & -> & Hb & _)]; cbn [text];
    [do 2 eexists; split; [reflexivity|done]..|].
  do 2 eexists; split; [done|]. unfold value_start. by rewrite Hb, !orb_true_r.
Qed.

Lemma denotes_need :
  (∀ c v, denotes c v → (need c <= length (text c))%nat) ∧
  (∀ o cs kvs, denotes_children o cs kvs → (need_children cs <= S (length (text_children cs)))%nat).
Proof.
  apply denotes_ind2.
  - intros raw v Hs. pose proof (denotes_start _ _ (denotes_scalar _ _ _ _ Hs)) as (b & l & Ht & _).
    rewrite Ht. cbn. lia.
  - intros w cs kvs _ _ IH. cbn. rewrite length_app. cbn. destruct cs; cbn in *; lia.
  - intros w cs kvs _ _ IH. cbn. rewrite length_app. cbn. destruct cs; cbn in *; lia.
  - intros o. cbn. lia.
  - intros o pre key c post cs v kvs _ _ Hd IH _ IHs. cbn. rewrite !length_app.
    pose proof (denotes_start _ _ Hd) as (b & l & Ht & _). rewrite Ht in *. cbn in *.
    destruct cs; cbn in *; lia.
Qed.

Lemma parse_value_skip fuel c : parse_value fuel (skip_ws c) = parse_value fuel c.
Proof. destruct fuel; [done|]. cbn [JsonSpan.parse_value]. by rewrite skip_ws_idemp. Qed.

Lemma parse_items_skip fuel c acc : parse_items fuel (skip_ws c) acc = parse_items fuel c acc.
Proof. destruct fuel; [done|]. cbn [JsonSpan.parse_items]. by rewrite parse_value_skip. Qed.

Lemma parse_members_skip fuel c acc : parse_members fuel (skip_ws c) acc = parse_members fuel c acc.
Proof. destruct fuel; [done|]. cbn [JsonSpan.parse_members]. by rewrite skip_ws_idemp. Qed.

Lemma parse_scalar raw v p post fuel :
  scalar decode_string parse_number raw v → starts_not is_number_byte post →
  parse_value (S fuel) {| pos := p; rest := raw ++ post |}
    = Ok (SpanNode p (p + length raw) SpanScalar, {| pos := p + length raw; rest := post |}).
Proof.
  intros Hs Hpost. pose proof (denotes_start _ _ (denotes_scalar _ _ _ _ Hs)) as (b & l & Ht & Hb).
  cbn [text] in Ht. pose proof (value_start_facts _ Hb) as (Hws & _).
  cbn [JsonSpan.parse_value]. rewrite skip_ws_none by (rewrite Ht; done). cbn [rest pos].
  destruct Hs as [| | |raw s Htok|raw n (b' & l' & -> & Hstart & Hall & _)].
  - reflexivity.
  - reflexivity.
  - reflexivity.
  - pose proof Htok as (body & -> & _). cbn [app]. change (quote =? chr "{") with false.
    change (quote =? chr "[") with false. rewrite Z.eqb_refl. cbn iota.
    rewrite (app_comm_cons body post quote), (parse_string_token _ _ s) by done. reflexivity.
  - cbn [app]. assert ((b' =? chr "{") = false ∧ (b' =? chr "[") = false ∧ (b' =? quote) = false ∧
      (b' =? chr "t") = false ∧ (b' =? chr "f") = false ∧ (b' =? chr "n") = false) as (-> & -> & -> & -> & -> & ->).
    { unfold is_number_start, is_digit, quote in *. chars. lia. }
    rewrite Hstart. rewrite (app_comm_cons l' post b'), span_len_stop by done.
    cbn [rbind]. by rewrite advance_app.
Qed.

Lemma ws_starts_not p w r :
  (∀ b, is_ws b = true → p b = false) → ws_all w → starts_not p r → starts_not p (w ++ r).
Proof. intros Hp Hw Hr. destruct w as [|b w]; [done|]. inversion Hw; subst. cbn. by apply Hp. Qed.

Lemma ws_not_number b : is_ws b = true → is_number_byte b = false.
Proof. unfold is_ws, is_number_byte, is_digit. chars. lia. Qed.

(** The bytes after the value of a child. *)
Definition tail_text (cs : children) (o : bool) (post : bytes) : bytes :=
  match cs with CNil => close_byte o :: post | _ => chr "," :: text_children cs ++ close_byte o :: post end.

Lemma text_children_cons pre k c post cs o r :
  text_children (CCons pre k c post cs) ++ close_byte o :: r = pre ++ text c ++ post ++ tail_text cs o r.
Proof. cbn [text_children]. destruct cs; cbn [tail_text]; by rewrite <- !app_assoc. Qed.

Lemma tail_text_starts cs o r p :
  (∀ b, p b = true → b ≠ chr "," ∧ b ≠ chr "]" ∧ b ≠ chr "}") → starts_not p (tail_text cs o r).
Proof.
  intros Hp. destruct cs, o; cbn; match goal with |- p ?b = false => destruct (p b) eqn:H end; try done;
    apply Hp in H; naive_solver.
Qed.

Lemma tail_not_ws cs o r : starts_not is_ws (tail_text cs o r).
Proof. apply tail_text_starts. intros b. unfold is_ws. chars. lia. Qed.

Lemma tail_not_number cs o r : starts_not is_number_byte (tail_text cs o r).
Proof. apply tail_text_starts. intros b. unfold is_number_byte, is_digit. chars. lia. Qed.

Lemma length_text_children pre k c post cs :
  length (text_children (CCons pre k c post cs)) =
    (length pre + length (text c) + length post
     + match cs with CNil => 0 | _ => S (length (text_children cs)) end)%nat.
Proof. cbn. rewrite !length_app. destruct cs; cbn; lia. Qed.

(** What the two halves of the induction say. *)
Definition reads (c : cst) : Prop := ∀ w p post fuel,
  ws_all w → starts_not is_number_byte post → (need c <= fuel)%nat →
  parse_value fuel {| pos := p; rest := w ++ text c ++ post |} =
    if distinct c then
      Ok (node_of (p + length w) c, {| pos := p + length w + length (text c); rest := post |})
    else Err tt.

Definition reads_children (o : bool) (cs : children) : Prop := ∀ p post fuel,
  cs ≠ CNil → (need_children cs <= fuel)%nat →
  let cur := {| pos := p; rest := text_children cs ++ close_byte o :: post |} in
  let fin := {| pos := p + length (text_children cs) + 1; rest := post |} in
  if o then ∀ acc, parse_members fuel cur acc =
    if distinct_children cs then Ok (acc ++ nodes_of p cs, fin) else Err tt
  else ∀ acc, parse_items fuel cur acc =
    if distinct_children cs then Ok (acc ++ map snd (nodes_of p cs), fin) else Err tt.

Lemma reads_items pre key c post cs :
  ws_all pre → ws_all post → reads c → reads_children false cs →
  reads_children false (CCons pre key c post cs).
Proof.
  intros Hpre Hpost Hc Hcs p r fuel _ Hfuel cur fin acc. subst cur fin. cbn in Hfuel.
  destruct fuel as [|fuel]; [lia|]. cbn [JsonSpan.parse_items].
  rewrite text_children_cons, Hc by
    (done || lia || (apply ws_starts_not; [apply ws_not_number|done|apply tail_not_number])).
  cbn [distinct_children nodes_of map snd]. destruct (distinct c); cbn [rbind andb fst snd]; [|done].
  rewrite skip_ws_app by (done || apply tail_not_ws). cbn [rest].
  destruct cs as [|pre' k' c' post' cs']; cbn [tail_text].
  - change (close_byte false =? chr ",") with false. change (close_byte false =? chr "]") with true.
    cbn [distinct_children nodes_of map]. cbn iota. f_equal. f_equal. unfold advance. cbn [pos rest].
    f_equal. rewrite length_text_children. lia.
  - rewrite Z.eqb_refl. change (chr ",") with 44. unfold advance at 1. cbn [pos rest drop]. rewrite drop_0.
    specialize (Hcs (p + length pre + length (text c) + length post + 1)%nat r fuel ltac:(done) ltac:(lia)).
    cbn zeta iota in Hcs. rewrite Hcs, <- app_assoc. case_match; [|done]. f_equal. f_equal. f_equal.
    rewrite (length_text_children pre). lia.
Qed.

Lemma reads_members pre key c post cs :
  pre_ok decode_string true pre key → ws_all post → reads c → reads_children true cs →
  reads_children true (CCons pre key c post cs).
Proof.
  intros (w1 & raw & w2 & w3 & -> & Hw1 & Hw2 & Hw3 & Htok) Hpost Hc Hcs p r fuel _ Hfuel cur fin acc.
  subst cur fin. cbn in Hfuel. destruct fuel as [|fuel]; [lia|]. cbn [JsonSpan.parse_members].
  rewrite text_children_cons, <- !app_assoc.
  rewrite skip_ws_app by (done || (destruct Htok as (body & -> & _); done)).
  rewrite (parse_string_token _ _ key) by done. cbn [rbind snd fst].
  rewrite <- app_comm_cons, skip_ws_app by done. rewrite expect_cons. cbn [rbind].
  rewrite Hc by
    (done || lia || (apply ws_starts_not; [apply ws_not_number|done|apply tail_not_number])).
  cbn [distinct_children nodes_of]. destruct (distinct c); cbn [rbind andb fst snd]; [|done].
  rewrite skip_ws_app by (done || apply tail_not_ws). cbn [rest].
  replace (p + length w1 + length raw + length w2 + 1 + length w3)%nat
    with (p + length (w1 ++ raw ++ w2 ++ chr ":" :: w3))%nat by (rewrite !length_app; cbn; lia).
  set (pre := w1 ++ raw ++ w2 ++ chr ":" :: w3) in *.
  destruct cs as [|pre' k' c' post' cs']; cbn [tail_text].
  - change (close_byte true =? chr ",") with false. change (close_byte true =? chr "}") with true.
    cbn [distinct_children nodes_of map]. cbn iota. f_equal. f_equal. unfold advance. cbn [pos rest].
    f_equal. rewrite length_text_children. lia.
  - rewrite Z.eqb_refl. change (chr ",") with 44. unfold advance at 1. cbn [pos rest drop]. rewrite drop_0.
    specialize (Hcs (p + length pre + length (text c) + length post + 1)%nat r fuel ltac:(done) ltac:(lia)).
    cbn zeta iota in Hcs. rewrite Hcs, <- app_assoc. case_match; [|done]. f_equal. f_equal. f_equal.
    rewrite (length_text_children pre). lia.
Qed.

Ltac span_eq :=
  cbn; unfold advance; cbn [pos rest drop]; rewrite ?drop_0, ?length_app; cbn [length];
  f_equal; f_equal; f_equal; lia.

Lemma children_start o cs kvs :
  denotes_children o cs kvs → cs ≠ CNil →
  ∃ w b l, text_children cs = w ++ b :: l ∧ ws_all w ∧ value_start b = true.
Proof.
  intros H Hne. destruct H as [|o pre key c post cs v kvs Hpre Hpost Hc Hcs]; [done|]. destruct o.
  - destruct Hpre as (w1 & raw & w2 & w3 & -> & Hw1 & _ & _ & body & -> & _).
    cbn [text_children]. rewrite <- !app_assoc. by exists w1; do 2 eexists.
  - pose proof (denotes_start _ _ Hc) as (b & l & Ht & Hb). cbn [text_children]. rewrite Ht.
    by exists pre; do 2 eexists.
Qed.

Lemma reads_tree o w cs kvs :
  ws_all w → denotes_children o cs kvs → (∀ p, map fst (nodes_of p cs) = keys cs) →
  reads_children o cs → reads (CTree o w cs).
Proof.
  intros Hw Hd Hkeys Hcs ws p post fuel Hws Hpost Hfuel. cbn in Hfuel. destruct fuel as [|fuel]; [lia|].
  cbn [JsonSpan.parse_value]. rewrite skip_ws_app by (done || by destruct o). cbn [text app rest pos].
  set (q := (p + length ws)%nat).
  assert (advance 1 {| pos := q; rest := (open_byte o :: match cs with CNil => w | _ => text_children cs end
            ++ [close_byte o]) ++ post |}
          = {| pos := S q; rest := match cs with CNil => w | _ => text_children cs end ++ close_byte o :: post |}) as Hadv.
  { unfold advance. cbn [pos rest app drop]. rewrite <- app_assoc. f_equal. lia. }
  cbn [app] in Hadv. rewrite Hadv. clear Hadv.
  destruct cs as [|pre k c post' cs'].
  - rewrite skip_ws_app by (done || by destruct o). cbn [rest].
    destruct o; cbn [text node_of nodes_of open_byte close_byte map]; cbn [length]; span_eq.
  - pose proof (children_start _ _ _ Hd ltac:(done)) as (w0 & b & l & Ht & Hw0 & Hb).
    pose proof (value_start_facts _ Hb) as (Hbw & Hb1 & Hb2 & _).
    set (cs := CCons pre k c post' cs') in *.
    specialize (Hcs (S q) post fuel ltac:(done) ltac:(lia)). cbn zeta in Hcs.
    assert (∃ r, skip_ws {| pos := S q; rest := text_children cs ++ close_byte o :: post |}
                 = {| pos := S q + length w0; rest := b :: r |}) as [r Hskip].
    { rewrite Ht, <- app_assoc. eexists. by rewrite skip_ws_app by done. }
    assert (length (text (CTree o w cs)) = S (length (text_children cs) + 1)) as Hlen
      by (cbn; by rewrite length_app).
    cbn [distinct node_of]. rewrite !Hlen.
    destruct o; cbn [open_byte close_byte] in *.
    + change (chr "{" =? chr "{") with true. cbn iota. rewrite Hskip. cbn [rest].
      rewrite (proj2 (Z.eqb_neq _ _) Hb2), <- Hskip, parse_members_skip, Hcs.
      destruct (distinct_children cs); cbn [rbind fst snd andb negb orb]; [|done].
      unfold has_duplicate. cbn [app]. rewrite Hkeys.
      destruct (bool_decide (NoDup (keys cs))); cbn [negb rbind fst snd pos]; [|done].
      cbn [length]. rewrite ?length_app. cbn [length]. f_equal; f_equal; f_equal; lia.
    + change (chr "[" =? chr "{") with false. change (chr "[" =? chr "[") with true. cbn iota.
      rewrite Hskip. cbn [rest].
      rewrite (proj2 (Z.eqb_neq _ _) Hb1), <- Hskip, parse_items_skip, Hcs.
      destruct (distinct_children cs); cbn [rbind fst snd andb negb orb pos]; [|done].
      cbn [length]. rewrite ?length_app. cbn [length]. f_equal; f_equal; f_equal; lia.
Qed.

Lemma nodes_of_keys cs p : map fst (nodes_of p cs) = keys cs.
Proof. revert p. induction cs as [|pre k c post cs IH]; intros p; cbn; [done|]. by rewrite IH. Qed.

Lemma parse_tree :
  (∀ c v, denotes c v → reads c) ∧ (∀ o cs kvs, denotes_children o cs kvs → reads_children o cs).
Proof.
  apply denotes_ind2.
  - intros raw v Hs w p post fuel Hw Hpost Hfuel. cbn in Hfuel. destruct fuel as [|fuel]; [lia|].
    rewrite <- parse_value_skip, skip_ws_app, (parse_scalar _ v); try done.
    pose proof (denotes_start _ _ (denotes_scalar _ _ _ _ Hs)) as (b & l & Ht & Hb).
    cbn [text] in *. rewrite Ht. apply (value_start_facts _ Hb).
  - intros. eapply reads_tree; eauto using nodes_of_keys.
  - intros. eapply reads_tree; eauto using nodes_of_keys.
  - intros o p post fuel Hne. done.
  - intros [] pre key c post cs v kvs Hpre Hpost _ Hc _ Hcs; [by apply reads_members|by apply reads_items].
Qed.

(** The root of a document. *)
Lemma parse_root_document w1 c v w2 :
  ws_all w1 → ws_all w2 → denotes c v →
  parse_root decode_string (w1 ++ text c ++ w2) =
    if distinct c then Ok (node_of (length w1) c) else Err tt.
Proof.
  intros Hw1 Hw2 Hd. unfold parse_root.
  rewrite parse_value_skip.
  assert (starts_not is_number_byte w2).
  { destruct w2 as [|b w2]; [done|]. inversion Hw2; subst. cbn. by apply ws_not_number. }
  rewrite (proj1 parse_tree _ _ Hd); [|done|done|].
  2: { unfold parse_fuel. rewrite !length_app. pose proof (proj1 denotes_need _ _ Hd). lia. }
  destruct (distinct c); cbn [rbind snd fst]; [|done].
  rewrite <- (app_nil_r w2), skip_ws_app by done. done.
Qed.
End Parse.

(** ** Lemmas: the fuel of the parser is enough *)

Section Fuel.
Context (decode_string : bytes → option str).
Local Abbreviation parse_value := (parse_value decode_string).
Local Abbreviation parse_members := (parse_members decode_string).
Local Abbreviation parse_items := (parse_items decode_string).

Definition left (c : Cursor) : nat := length (rest c).

Lemma left_advance n c : left (advance n c) = (left c - n)%nat.
Proof. unfold left, advance. cbn. by rewrite length_drop. Qed.

Lemma left_skip_ws c : (left (skip_ws c) <= left c)%nat.
Proof. unfold skip_ws. rewrite left_advance. lia. Qed.

Lemma left_cons c b l : rest c = b :: l → (1 <= left c)%nat.
Proof. unfold left. intros ->. cbn. lia. Qed.

Lemma expect_left b c c' : expect b c = Ok c' → (left c' < left c)%nat.
Proof.
  unfold expect. destruct (rest c) as [|b' l] eqn:Hr; [done|]. case_match; [|done]. intros [= <-].
  apply left_cons in Hr. rewrite left_advance. lia.
Qed.

Lemma expect_literal_left l c c' : l ≠ [] → expect_literal l c = Ok c' → (left c' < left c)%nat.
Proof.
  intros Hl. unfold expect_literal. destruct (starts_with (rest c) l) eqn:H; [|done]. intros [= <-].
  apply starts_with_spec in H as [t Ht]. rewrite left_advance. unfold left. rewrite Ht, length_app.
  destruct l; [done|]. cbn. lia.
Qed.

Lemma parse_string_left c s c' : parse_string decode_string c = Ok (s, c') → (left c' < left c)%nat.
Proof.
  unfold parse_string. destruct (expect quote c) as [c1|] eqn:He; cbn [rbind]; [|done].
  destruct (string_end (rest c1)) as [n|]; [|done]. destruct (from_utf8 _); [|done].
  destruct (decode_string _); [|done]. cbn. intros [= _ <-]. apply expect_left in He.
  rewrite left_advance. lia.
Qed.

Lemma number_left c b l : rest c = b :: l → is_number_start b = true →
  (left (advance (span_len is_number_byte (rest c)) c) < left c)%nat.
Proof.
  intros Hr Hb. apply left_cons in Hr as Hl. rewrite left_advance, Hr. cbn.
  replace (is_number_byte b) with true; [lia|].
  symmetry. unfold is_number_start, is_number_byte, is_digit in *. chars. lia.
Qed.

Ltac shrink :=
  repeat match goal with
  | H : expect _ _ = Ok _ |- _ => apply expect_left in H
  | H : expect_literal _ _ = Ok _ |- _ => apply expect_literal_left in H; [|done]
  | H : parse_string _ _ = Ok _ |- _ => apply parse_string_left in H
  end;
  rewrite ?left_advance in *;
  repeat match goal with
  | _ : context [left (skip_ws ?c)] |- _ => lazymatch goal with
      | _ : (left (skip_ws c) <= left c)%nat |- _ => fail
      | _ => pose proof (left_skip_ws c) end
  | |- context [left (skip_ws ?c)] => lazymatch goal with
      | _ : (left (skip_ws c) <= left c)%nat |- _ => fail
      | _ => pose proof (left_skip_ws c) end
  end; rewrite ?left_advance in *; lia.

Lemma parse_left f :
  (∀ c n c', parse_value f c = Ok (n, c') → (left c' < left c)%nat) ∧
  (∀ c acc m c', parse_members f c acc = Ok (m, c') → (left c' < left c)%nat) ∧
  (∀ c acc m c', parse_items f c acc = Ok (m, c') → (left c' < left c)%nat).
Proof.
  induction f as [|f (IHv & IHm & IHi)]; [by split_and!|]. split_and!.
  - intros c n c'. cbn [JsonSpan.parse_value]. set (d := skip_ws c).
    assert (left d <= left c)%nat as Hd by apply left_skip_ws. clearbody d.
    destruct (rest d) as [|b l] eqn:Hr; [done|]. apply left_cons in Hr as Hone.
    destruct (b =? chr "{").
    { set (e := skip_ws (advance 1 d)). assert (left e < left d)%nat as He by (subst e; shrink). clearbody e.
      destruct (match rest e with b :: _ => _ | [] => _ end) as [[m c2]|] eqn:Hm; cbn [rbind fst snd]; [|done].
      destruct (has_duplicate _); [done|]. cbn. intros [= <- <-]. destruct (rest e) as [|b' l'] eqn:Hre; [apply IHm in Hm; lia|].
      destruct (b' =? _); [injection Hm as <- <-; rewrite left_advance; apply left_cons in Hre; lia|apply IHm in Hm; lia]. }
    destruct (b =? chr "[").
    { set (e := skip_ws (advance 1 d)). assert (left e < left d)%nat as He by (subst e; shrink). clearbody e.
      destruct (match rest e with b :: _ => _ | [] => _ end) as [[m c2]|] eqn:Hm; cbn [rbind fst snd]; [|done].
      intros [= <- <-]. destruct (rest e) as [|b' l'] eqn:Hre; [apply IHi in Hm; lia|].
      destruct (b' =? _); [injection Hm as <- <-; rewrite left_advance; apply left_cons in Hre; lia|apply IHi in Hm; lia]. }
    destruct (b =? quote).
    { destruct (parse_string _ d) as [[s c2]|] eqn:Hs; cbn [rbind fst snd]; [|done]. intros [= <- <-]. shrink. }
    do 3 (destruct (b =? _); [destruct (expect_literal _ d) as [c2|] eqn:Hs; cbn [rbind fst snd]; [|done]; intros [= <- <-]; shrink|]).
    destruct (is_number_start b) eqn:Hn; [|done]. cbn [rbind fst snd]. intros [= <- <-].
    pose proof (number_left _ _ _ Hr Hn) as Hx. rewrite Hr in Hx. cbn [span_len] in Hx. lia.
  - intros c acc m c'. cbn [JsonSpan.parse_members].
    destruct (parse_string _ (skip_ws c)) as [[k c1]|] eqn:Hs; cbn [rbind fst snd]; [|done].
    destruct (expect _ (skip_ws c1)) as [c2|] eqn:He; cbn [rbind]; [|done].
    destruct (parse_value f c2) as [[n c3]|] eqn:Hv; cbn [rbind fst snd]; [|done]. apply IHv in Hv.
    destruct (rest (skip_ws c3)) as [|b l] eqn:Hr; [done|].
    destruct (b =? chr ","); [intros Hm; apply IHm in Hm; shrink|].
    destruct (b =? chr "}"); [|done]. intros [= <- <-]. shrink.
  - intros c acc m c'. cbn [JsonSpan.parse_items].
    destruct (parse_value f c) as [[n c3]|] eqn:Hv; cbn [rbind fst snd]; [|done]. apply IHv in Hv.
    destruct (rest (skip_ws c3)) as [|b l] eqn:Hr; [done|].
    destruct (b =? chr ","); [intros Hm; apply IHi in Hm; shrink|].
    destruct (b =? chr "]"); [|done]. intros [= <- <-]. shrink.
Qed.

(** Two amounts of fuel over twice the remaining length give the same result. *)
Lemma parse_fuel_eq f : ∀ g,
  (∀ c, (2 * left c < f)%nat → (2 * left c < g)%nat → parse_value f c = parse_value g c) ∧
  (∀ c acc, (2 * left c < f)%nat → (2 * left c < g)%nat → parse_members f c acc = parse_members g c acc) ∧
  (∀ c acc, (2 * left c + 1 < f)%nat → (2 * left c + 1 < g)%nat → parse_items f c acc = parse_items g c acc).
Proof.
  induction f as [|f IH]; [intros g; split_and!; lia|]. intros [|g]; [split_and!; lia|].
  specialize (IH g) as (IHv & IHm & IHi). split_and!.
  - intros c Hf Hg. cbn [JsonSpan.parse_value]. set (d := skip_ws c).
    assert (left d <= left c)%nat as Hd by apply left_skip_ws. clearbody d. f_equal.
    destruct (rest d) as [|b l] eqn:Hr; [done|]. apply left_cons in Hr as Hone.
    assert (left (skip_ws (advance 1 d)) < left d)%nat as He by shrink.
    rewrite IHm, IHi by lia. done.
  - intros c acc Hf Hg. cbn [JsonSpan.parse_members].
    destruct (parse_string _ (skip_ws c)) as [[k c1]|] eqn:Hs; cbn [rbind fst snd]; [|done].
    destruct (expect _ (skip_ws c1)) as [c2|] eqn:He; cbn [rbind]; [|done].
    rewrite IHv by shrink.
    destruct (parse_value g c2) as [[n c3]|] eqn:Hv; cbn [rbind fst snd]; [|done].
    apply (proj1 (parse_left g)) in Hv. destruct (rest (skip_ws c3)) as [|b l]; [done|].
    by rewrite IHm by shrink.
  - intros c acc Hf Hg. cbn [JsonSpan.parse_items]. rewrite IHv by lia.
    destruct (parse_value g c) as [[n c3]|] eqn:Hv; cbn [rbind fst snd]; [|done].
    apply (proj1 (parse_left g)) in Hv. destruct (rest (skip_ws c3)) as [|b l] eqn:Hr; [done|].
    apply left_cons in Hr. by rewrite IHi by shrink.
Qed.

(** [parse_root] never fails for lack of fuel. *)
Lemma parse_root_fuel text f :
  (parse_fuel text <= f)%nat →
  parse_value f (skip_ws {| pos := 0; rest := text |})
    = parse_value (parse_fuel text) (skip_ws {| pos := 0; rest := text |}).
Proof.
  intros Hf. pose proof (left_skip_ws {| pos := 0; rest := text |}) as Hl.
  change (left {| pos := 0; rest := text |}) with (length text) in Hl. unfold parse_fuel in *.
  apply parse_fuel_eq; lia.
Qed.
End Fuel.

(** ** Lemmas: locating and replacing a value *)

Lemma nodes_of_lookup cs s i :
  nodes_of s cs !! i = match child_at s cs i, keys cs !! i with
                       | Some (o, c), Some k => Some (k, node_of o c)
                       | _, _ => None
                       end.
Proof.
  revert s i. induction cs as [|pre k c post cs IH]; intros s [|i]; by cbn.
Qed.

Lemma find_key_nodes cs s k :
  find_first (fun m => bool_decide (m.1 = k)) (nodes_of s cs)
    = match key_index k cs with Some i => nodes_of s cs !! i | None => None end.
Proof.
  revert s. induction cs as [|pre k' c post cs IH]; intros s; cbn; [done|].
  case_bool_decide; [done|]. rewrite IH. by destruct (key_index k cs).
Qed.

Lemma child_at_key cs s i oc : child_at s cs i = Some oc → ∃ k, keys cs !! i = Some k.
Proof. revert s i. induction cs as [|pre k' c post cs IH]; intros s [|i]; cbn; eauto; done. Qed.

Lemma span_value_sub p s c :
  Forall seg_ok p →
  json_span_value (node_of s c) p = match sub s c p with Some (o, c') => Some (node_of o c') | None => None end.
Proof.
  intros Hp. revert s c. induction Hp as [|seg p Hseg Hp IH]; intros s c; [done|].
  destruct c as [raw|o w cs]; [by destruct seg|].
  destruct o, seg as [i|k]; cbn [json_span_value node_of node_kind sub select tree_children]; try done.
  - rewrite find_key_nodes. destruct (key_index k cs) as [j|]; cbn [mbind option_bind]; [|done].
    rewrite nodes_of_lookup. destruct (child_at (S s) cs j) as [[o' c']|] eqn:Hc; [|done].
    apply child_at_key in Hc as [k' ->]. apply IH.
  - rewrite list_lookup_fmap, nodes_of_lookup. cbn [mbind option_bind].
    destruct (child_at (S s) cs (Z.to_nat i)) as [[o' c']|] eqn:Hc; [|done].
    apply child_at_key in Hc as [k' ->]. apply IH.
Qed.

Lemma child_at_text cs off i o c :
  child_at off cs i = Some (o, c) →
  ∃ pre post, o = (off + length pre)%nat ∧ text_children cs = pre ++ text c ++ post ∧
    (∀ f, text_children (replace_child cs i f) = pre ++ text (f c) ++ post).
Proof.
  revert off i. induction cs as [|pre k c0 post cs IH]; intros off [|i]; cbn; [done|done|..].
  - intros [= <- <-]. exists pre, (post ++ match cs with CNil => [] | _ => chr "," :: text_children cs end).
    split; [done|]. by split.
  - intros H. destruct cs as [|pre1 k1 c1 post1 cs1]; [done|].
    set (cs := CCons pre1 k1 c1 post1 cs1) in *. apply IH in H as (pre' & post' & -> & Ht & Hr).
    exists (pre ++ text c0 ++ post ++ chr "," :: pre'), post'. rewrite !length_app. cbn [length].
    split; [lia|]. rewrite Ht, <- !app_assoc. split; [done|]. intros f. specialize (Hr f).
    destruct i; cbn [replace_child] in *; subst cs; cbn [replace_child] in *; by rewrite Hr, <- !app_assoc.
Qed.

Lemma replace_child_nil cs i f : replace_child cs i f = CNil ↔ cs = CNil.
Proof. destruct cs, i; cbn; split; done. Qed.

Lemma text_tree o w cs : cs ≠ CNil → text (CTree o w cs) = open_byte o :: text_children cs ++ [close_byte o].
Proof. by destruct cs. Qed.

Lemma sub_text p off c o c' :
  sub off c p = Some (o, c') →
  ∃ pre post, o = (off + length pre)%nat ∧ text c = pre ++ text c' ++ post ∧
    ∀ c'', text (replace c p c'') = pre ++ text c'' ++ post.
Proof.
  revert off c. induction p as [|s p IH]; intros off c; cbn [sub].
  { intros [= <- <-]. exists [], []. cbn. rewrite app_nil_r. split; [lia|]. split; [done|].
    intros c''. by rewrite app_nil_r. }
  destruct (select s c) as [i|] eqn:Hsel; cbn [mbind option_bind]; [|done].
  destruct (child_at (S off) (tree_children c) i) as [[o1 c1]|] eqn:Hc; [|done].
  intros Hs. apply IH in Hs as (pre1 & post1 & -> & Ht1 & Hr1).
  apply child_at_text in Hc as Hx. destruct Hx as (pre2 & post2 & -> & Ht2 & Hr2).
  destruct c as [raw|ob w cs]; [done|]. cbn [tree_children] in *.
  assert (cs ≠ CNil) as Hne by (by intros ->).
  exists (open_byte ob :: pre2 ++ pre1), (post1 ++ post2 ++ [close_byte ob]).
  rewrite text_tree by done. cbn [length]. rewrite length_app. split; [lia|].
  rewrite Ht2, Ht1, <- !app_assoc. cbn [app]. rewrite <- !app_assoc. split; [done|].
  intros c''. cbn [replace]. rewrite Hsel, text_tree by (by rewrite replace_child_nil).
  rewrite Hr2, Hr1, <- !app_assoc. cbn [app]. by rewrite <- ?app_assoc.
Qed.

(** One segment at the level of values. *)
Section Step.
Context {number : Type}.
Implicit Types v : value number.

Definition put v (s : JsonPathSegment) (y : value number) : value number :=
  match v, s with
  | Object o, Key k => Object (obj_insert o k y)
  | Array a, Index i => Array (vec_set a i y)
  | _, _ => v
  end.

Lemma get_cons v s p :
  get_json_path_value v (s :: p) = get_json_path_value v [s] ≫= fun x => get_json_path_value x p.
Proof. destruct s; cbn; destruct v; try done; by case_match. Qed.

(** Writing at an existing path rewrites the child in place. *)
Lemma set_cons v s p x child :
  seg_ok s → get_json_path_value v [s] = Some child →
  set_json_path_value v (s :: p) x =
    match p with
    | [] => (put v s x, Ok tt)
    | _ => let '(child', r) := set_json_path_value child p x in (put v s child', r)
    end.
Proof.
  intros Hs Hg. destruct s as [i|k]; cbn in Hg; destruct v; try done.
  - destruct (vec_get a i) as [y|] eqn:Hv; [|done]. injection Hg as ->.
    assert ((i =? len a) = false) as Hi by (unfold vec_get in Hv; destruct (i <? len a) eqn:?; [lia|done]).
    destruct p as [|s p]; [cbn; by rewrite Hi, Hv|]. rewrite set_index_cons, Hv. by case_match.
  - destruct (obj_get o k) as [y|] eqn:Hv; [|done]. injection Hg as ->.
    destruct p as [|s p]; [done|]. rewrite set_key_cons. cbn [as_container default]. rewrite Hv.
    by cbn [default].
Qed.

Lemma set_existing p v x old :
  Forall seg_ok p → p ≠ [] → get_json_path_value v p = Some old →
  ∃ v', set_json_path_value v p x = (v', Ok tt).
Proof.
  intros Hp. revert v. induction Hp as [|s p Hs Hp IH]; intros v Hne; [done|].
  rewrite get_cons. destruct (get_json_path_value v [s]) as [child|] eqn:Hc; cbn [mbind option_bind]; [|done].
  intros Hg. rewrite (set_cons _ _ _ _ child) by done. destruct p as [|s' p]; [eauto|].
  destruct (IH child ltac:(done) Hg) as [v' ->]. eauto.
Qed.
End Step.

(** ** Lemmas: replacing a subtree is writing a value *)

Section Replace.
Context {number : Type}.
Context (decode_string : bytes → option str) (parse_number : bytes → option number).
Local Abbreviation denotes := (denotes decode_string parse_number).
Local Abbreviation denotes_children := (denotes_children decode_string parse_number).

Lemma denotes_child o cs kvs off i oc c :
  denotes_children o cs kvs → child_at off cs i = Some (oc, c) →
  ∃ k x, kvs !! i = Some (k, x) ∧ denotes c x ∧
    ∀ f y, denotes (f c) y → denotes_children o (replace_child cs i f) (<[i := (k, y)]> kvs).
Proof.
  intros H. revert off i. induction H as [|o pre key c0 post cs v kvs Hpre Hpost Hc Hcs IH];
    intros off [|i]; cbn; [done|done|..].
  - intros [= <- <-]. exists key, v. split; [done|]. split; [done|]. intros f y Hy. by constructor.
  - intros Hch. apply IH in Hch as (k & x & Hl & Hx & Hr). exists k, x. split; [done|].
    split; [done|]. intros f y Hy. constructor; eauto.
Qed.

Lemma child_at_ex o cs kvs off i kx :
  denotes_children o cs kvs → kvs !! i = Some kx → ∃ oc c, child_at off cs i = Some (oc, c).
Proof.
  intros H. revert off i. induction H as [|o pre key c0 post cs v kvs Hpre Hpost Hc Hcs IH];
    intros off [|i]; cbn; eauto; done.
Qed.

Lemma key_index_obj o cs kvs k :
  denotes_children o cs kvs →
  match key_index k cs with
  | Some i => ∃ x, kvs !! i = Some (k, x) ∧ obj_get kvs k = Some x ∧
                ∀ y, obj_insert kvs k y = <[i := (k, y)]> kvs
  | None => obj_get kvs k = None
  end.
Proof.
  induction 1 as [|o pre key c0 post cs v kvs Hpre Hpost Hc Hcs IH]; cbn; [done|].
  case_bool_decide; [subst; eauto|]. destruct (key_index k cs) as [i|]; cbn; [|done].
  destruct IH as (x & Hl & Hg & Hi). exists x. split; [done|]. split; [done|].
  intros y. cbn. by rewrite Hi.
Qed.

Lemma lookup_fst_insert {A B} (l : list (A * B)) i k x y :
  l !! i = Some (k, x) → map snd (<[i := (k, y)]> l) = <[i := y]> (map snd l).
Proof. intros. by rewrite list_fmap_insert. Qed.

Lemma select_denotes c v s i off oc c1 :
  denotes c v → seg_ok s → select s c = Some i → child_at off (tree_children c) i = Some (oc, c1) →
  ∃ o w cs x, c = CTree o w cs ∧ get_json_path_value v [s] = Some x ∧ denotes c1 x ∧
    ∀ f y, denotes (f c1) y → denotes (CTree o w (replace_child cs i f)) (put v s y).
Proof.
  intros Hd Hs Hsel Hch. destruct Hd as [raw v Hsc|w cs kvs Hw Hcs|w cs kvs Hw Hcs];
    destruct s as [j|k]; cbn in Hsel; try done; cbn [tree_children] in Hch.
  - injection Hsel as <-. destruct (denotes_child _ _ _ _ _ _ _ Hcs Hch) as (k & x & Hl & Hx & Hr).
    cbn in Hs. exists false, w, cs, x. split; [done|].
    assert (map snd kvs !! Z.to_nat j = Some x) as Hlk by (by rewrite list_lookup_fmap, Hl).
    split; [cbn; by rewrite vec_get_lookup, Hlk by done|]. split; [done|].
    intros f y Hy. cbn. unfold vec_set. rewrite <- (lookup_fst_insert _ _ k x) by done. constructor; auto.
  - pose proof (key_index_obj _ _ _ k Hcs) as Hk. rewrite Hsel in Hk. destruct Hk as (x & Hl & Hg & Hi).
    destruct (denotes_child _ _ _ _ _ _ _ Hcs Hch) as (k' & x' & Hl' & Hx & Hr).
    rewrite Hl in Hl'. injection Hl' as <- <-. exists true, w, cs, x. split; [done|].
    split; [cbn; by rewrite Hg|]. split; [done|]. intros f y Hy. cbn. rewrite Hi. constructor; auto.
Qed.

Lemma sub_denotes p off c v o c' :
  Forall seg_ok p → denotes c v → sub off c p = Some (o, c') →
  ∃ v', get_json_path_value v p = Some v' ∧ denotes c' v' ∧
    ∀ c'' x, p ≠ [] → denotes c'' x →
      ∃ v2, set_json_path_value v p x = (v2, Ok tt) ∧ denotes (replace c p c'') v2.
Proof.
  intros Hp. revert off c v. induction Hp as [|s p Hs Hp IH]; intros off c v Hd; cbn [sub].
  { intros [= <- <-]. exists v. by split_and!. }
  destruct (select s c) as [i|] eqn:Hsel; cbn [mbind option_bind]; [|done].
  destruct (child_at (S off) (tree_children c) i) as [[o1 c1]|] eqn:Hch; [|done]. intros Hsub.
  destruct (select_denotes _ _ _ _ _ _ _ Hd Hs Hsel Hch) as (ob & w & cs & x & -> & Hg & Hx & Hr).
  destruct (IH _ _ _ Hx Hsub) as (v' & Hg' & Hv' & Hset).
  exists v'. rewrite get_cons, Hg. split; [done|]. split; [done|]. intros c'' y _ Hy.
  rewrite (set_cons _ _ _ _ x) by done. cbn [replace]. rewrite Hsel.
  destruct p as [|s' p]; [exists (put v s y); split; [done|]; by apply Hr|].
  destruct (Hset c'' y ltac:(done) Hy) as (v2 & -> & Hv2). exists (put v s v2). split; [done|]. by apply Hr.
Qed.

Lemma get_sub p off c v x :
  Forall seg_ok p → denotes c v → get_json_path_value v p = Some x → ∃ o c', sub off c p = Some (o, c').
Proof.
  intros Hp. revert off c v. induction Hp as [|s p Hs Hp IH]; intros off c v Hd; cbn [sub]; [eauto|].
  rewrite get_cons. destruct (get_json_path_value v [s]) as [y|] eqn:Hg; cbn [mbind option_bind]; [|done].
  intros Hgp.
  assert (∃ i oc c1, select s c = Some i ∧ child_at (S off) (tree_children c) i = Some (oc, c1))
    as (i & oc & c1 & Hsel & Hch).
  { destruct Hd as [raw v [] |w cs kvs Hw Hcs|w cs kvs Hw Hcs]; destruct s as [j|k]; try done; cbn in Hg.
    - rewrite vec_get_lookup, list_lookup_fmap in Hg by done.
      destruct (kvs !! Z.to_nat j) as [kx|] eqn:Hl; [|done].
      destruct (child_at_ex _ _ _ (S off) _ _ Hcs Hl) as (oc & c1 & Hch). cbn. eauto.
    - pose proof (key_index_obj _ _ _ k Hcs) as Hk. cbn. destruct (key_index k cs) as [i|]; [|by rewrite Hk in Hg].
      destruct Hk as (x' & Hl & _). destruct (child_at_ex _ _ _ (S off) _ _ Hcs Hl) as (oc & c1 & Hch). eauto 10. }
  rewrite Hsel. cbn [mbind option_bind]. rewrite Hch.
  destruct (select_denotes _ _ _ _ _ _ _ Hd Hs Hsel Hch) as (ob & w & cs & x' & -> & Hg' & Hx & _).
  rewrite Hg in Hg'. injection Hg' as <-. eauto.
Qed.
End Replace.

(** ** Lemmas: edits of disjoint spans do not interfere *)

Lemma child_at_order cs off i j o1 c1 o2 c2 :
  (i < j)%nat → child_at off cs i = Some (o1, c1) → child_at off cs j = Some (o2, c2) →
  (o1 + length (text c1) < o2)%nat.
Proof.
  assert (∀ cs off i o c, child_at off cs i = Some (o, c) → (off <= o)%nat) as Hge.
  { intros cs' off' i' o c H. apply child_at_text in H as (? & ? & -> & _). lia. }
  revert off i j. induction cs as [|pre k c post cs IH]; intros off [|i] [|j] Hij; cbn; try done; try lia.
  - intros [= <- <-] H. apply Hge in H. lia.
  - apply IH. lia.
Qed.

Lemma child_at_replace_lt cs off i j f :
  (i < j)%nat → child_at off (replace_child cs j f) i = child_at off cs i.
Proof.
  revert off i j. induction cs as [|pre k c post cs IH]; intros off [|i] [|j] Hij; cbn; try done; try lia.
  apply IH. lia.
Qed.

Lemma child_at_replace_eq cs off i f o c :
  child_at off cs i = Some (o, c) → child_at off (replace_child cs i f) i = Some (o, f c).
Proof.
  revert off i. induction cs as [|pre k c0 post cs IH]; intros off [|i]; cbn; try done.
  - by intros [= <- <-].
  - apply IH.
Qed.

Lemma keys_replace cs i f : keys (replace_child cs i f) = keys cs.
Proof. revert i. induction cs as [|pre k c post cs IH]; intros [|i]; cbn; [done..|]. by rewrite IH. Qed.

Lemma key_index_replace k cs i f : key_index k (replace_child cs i f) = key_index k cs.
Proof.
  revert i. induction cs as [|pre k' c post cs IH]; intros [|i]; cbn; [done..|]. by rewrite IH.
Qed.

Lemma select_replace s o w cs i f : select s (CTree o w (replace_child cs i f)) = select s (CTree o w cs).
Proof. destruct o, s; cbn; [done|apply key_index_replace|done..]. Qed.

Lemma left_of q p off c op cp oq cq c'' :
  sub off c p = Some (op, cp) → sub off c q = Some (oq, cq) →
  (op + length (text cp) <= oq)%nat → text cp ≠ [] → text cq ≠ [] →
  sub off (replace c q c'') p = Some (op, cp) ∧ diverge p q.
Proof.
  revert p off c. induction q as [|t q IH]; intros p off c Hp Hq Hle Hcp Hcq;
    assert (length (text cp) ≠ 0%nat ∧ length (text cq) ≠ 0%nat) as [Hlp Hlq] by (destruct (text cp), (text cq); done).
  { injection Hq as <- <-. apply sub_text in Hp as (? & ? & -> & _). lia. }
  destruct p as [|s p].
  { injection Hp as <- <-. apply sub_text in Hq as (pre & post & -> & Ht & _).
    rewrite Ht, !length_app in Hle. lia. }
  cbn [sub] in Hp, Hq.
  destruct (select s c) as [i|] eqn:Hs; cbn [mbind option_bind] in Hp; [|done].
  destruct (select t c) as [j|] eqn:Ht; cbn [mbind option_bind] in Hq; [|done].
  destruct (child_at (S off) (tree_children c) i) as [[o1 c1]|] eqn:Hi; [|done].
  destruct (child_at (S off) (tree_children c) j) as [[o2 c2]|] eqn:Hj; [|done].
  destruct c as [raw|ob w cs]; [done|]. cbn [tree_children] in *. cbn [replace]. rewrite Ht.
  cbn [sub]. rewrite select_replace, Hs. cbn [mbind option_bind tree_children].
  destruct (lt_eq_lt_dec i j) as [[Hij| ->]|Hij].
  - rewrite child_at_replace_lt, Hi by done. split; [done|]. left. intros ->. rewrite Hs in Ht. naive_solver lia.
  - rewrite Hi in Hj. injection Hj as <- <-. rewrite (child_at_replace_eq _ _ _ _ o1 c1) by done.
    destruct (IH _ _ _ Hp Hq Hle Hcp Hcq) as [H1 H2]. split; [done|by right].
  - pose proof (child_at_order _ _ _ _ _ _ _ _ Hij Hj Hi).
    apply sub_text in Hp as (pre1 & post1 & -> & Ht1 & _). apply sub_text in Hq as (pre2 & post2 & -> & Ht2 & _).
    rewrite Ht2, !length_app in *. lia.
Qed.

Lemma distinct_replace p off c o c' c'' :
  sub off c p = Some (o, c') → distinct c = true → distinct c'' = true → distinct (replace c p c'') = true.
Proof.
  revert off c. induction p as [|s p IH]; intros off c; cbn [sub]; [done|].
  destruct (select s c) as [i|] eqn:Hsel; cbn [mbind option_bind]; [|done].
  destruct (child_at (S off) (tree_children c) i) as [[o1 c1]|] eqn:Hch; [|done].
  destruct c as [raw|ob w cs]; [done|]. cbn [tree_children] in *. intros Hs Hd Hd''.
  cbn [replace]. rewrite Hsel. cbn [distinct] in *. rewrite keys_replace. apply andb_true_iff in Hd as [Hd ->].
  rewrite andb_true_r. specialize (IH _ _ Hs). clear Hs Hsel. revert Hch Hd. generalize (S off). revert i.
  induction cs as [|pre k c0 post cs IHc]; intros [|i] off'; cbn; try done.
  - intros [= <- <-] Hd. apply andb_true_iff in Hd as [H1 ->]. by rewrite IH.
  - intros Hch Hd. apply andb_true_iff in Hd as [-> H2]. by rewrite (IHc i _ Hch H2).
Qed.

#[export] Instance JsonPathSegment_eq_dec : EqDecision JsonPathSegment.
Proof. solve_decision. Defined.

(** Writes at diverging existing paths commute. *)
Section Commute.
Context {number : Type}.
Implicit Types v : value number.

Lemma get_put v s t x y :
  seg_ok s → seg_ok t → get_json_path_value v [s] = Some x →
  get_json_path_value (put v s y) [t] = if bool_decide (s = t) then Some y else get_json_path_value v [t].
Proof.
  intros Hs Ht Hg. destruct s as [i|k], t as [j|k']; destruct v; try done; cbn in *.
  - destruct (vec_get a i) eqn:Hv; [|done]. rewrite (vec_get_set _ _ _ _ _ Hs Ht Hv).
    repeat case_bool_decide; try done; naive_solver.
  - rewrite obj_get_insert. repeat case_bool_decide; try done; naive_solver.
Qed.

Lemma obj_insert_comm (o : list (str * value number)) k k' x y a b :
  k ≠ k' → obj_get o k = Some a → obj_get o k' = Some b →
  obj_insert (obj_insert o k x) k' y = obj_insert (obj_insert o k' y) k x.
Proof.
  intros Hne. induction o as [|[k0 v0] o IH]; cbn; [done|].
  repeat (case_bool_decide; subst; cbn); try done; try congruence.
  intros Ha Hb. by rewrite IH.
Qed.

Lemma obj_insert_twice (o : list (str * value number)) k x y :
  obj_insert (obj_insert o k x) k y = obj_insert o k y.
Proof. induction o as [|[k0 v0] o IH]; cbn; repeat (case_bool_decide; cbn); try done. by rewrite IH. Qed.

Lemma put_comm v s t x y a b :
  seg_ok s → seg_ok t → s ≠ t → get_json_path_value v [s] = Some a → get_json_path_value v [t] = Some b →
  put (put v s x) t y = put (put v t y) s x.
Proof.
  intros Hs Ht Hne Ha Hb. destruct s as [i|k], t as [j|k']; destruct v; try done; cbn in *.
  - unfold vec_set. rewrite list_insert_insert_ne; [done|]. intros Hz. apply Hne. f_equal. lia.
  - destruct (obj_get o k) eqn:?, (obj_get o k') eqn:?; try done.
    erewrite obj_insert_comm; [done| |done..]. congruence.
Qed.

Lemma put_twice v s x y : put (put v s x) s y = put v s y.
Proof.
  destruct s, v; cbn; try done; [|by rewrite obj_insert_twice].
  unfold vec_set. by rewrite list_insert_insert_eq.
Qed.

(** The value a write leaves behind. *)
Definition wr v (p : list JsonPathSegment) (x : value number) : value number :=
  match p with [] => x | _ => (set_json_path_value v p x).1 end.

Lemma wr_set v p x : p ≠ [] → wr v p x = (set_json_path_value v p x).1.
Proof. by destruct p. Qed.

Lemma wr_cons v s p x child :
  seg_ok s → get_json_path_value v [s] = Some child → wr v (s :: p) x = put v s (wr child p x).
Proof.
  intros Hs Hg. unfold wr at 1. rewrite (set_cons _ _ _ _ child) by done.
  destruct p; [done|]. cbn [wr]. by destruct (set_json_path_value child _ x).
Qed.

Lemma wr_comm p q v x y a b :
  Forall seg_ok p → Forall seg_ok q → diverge p q →
  get_json_path_value v p = Some a → get_json_path_value v q = Some b →
  wr (wr v p x) q y = wr (wr v q y) p x.
Proof.
  intros Hp. revert q v. induction Hp as [|s p Hs Hp IH]; intros [|t q] v Hq; [done..|].
  apply List.Forall_cons_iff in Hq as [Ht Hq]. rewrite (get_cons v s), (get_cons v t).
  destruct (get_json_path_value v [s]) as [c1|] eqn:H1; cbn [mbind option_bind]; [|done].
  destruct (get_json_path_value v [t]) as [c2|] eqn:H2; cbn [mbind option_bind]; [|done].
  intros Hdiv Ha Hb. rewrite (wr_cons v s _ _ c1), (wr_cons v t _ _ c2) by done.
  destruct (decide (s = t)) as [<-|Hne].
  - rewrite H1 in H2. injection H2 as <-. destruct Hdiv as [?|Hdiv]; [done|].
    rewrite (wr_cons _ s q _ (wr c1 p x)), (wr_cons _ s p _ (wr c1 q y))
      by (done || by rewrite (get_put _ _ _ c1), bool_decide_true).
    rewrite !put_twice. f_equal. by eapply IH.
  - rewrite (wr_cons _ t q _ c2), (wr_cons _ s p _ c1)
      by (done || (erewrite get_put by done; by rewrite bool_decide_false)).
    by eapply put_comm.
Qed.

Lemma diverge_sym p q : diverge p q → diverge q p.
Proof. revert q. induction p as [|s p IH]; intros [|t q]; cbn; naive_solver. Qed.

(** The edits of a request, applied in order to the parsed document. *)
Fixpoint apply_edits v (es : list (list JsonPathSegment * value number)) : result (value number) str :=
  match es with
  | [] => Ok v
  | e :: es => match set_json_path_value v e.1 e.2 with
               | (v', Ok _) => apply_edits v' es
               | (_, Err err) => Err err
               end
  end.

(** Edits of existing values at pairwise diverging paths. *)
Definition independent v (es : list (list JsonPathSegment * value number)) : Prop :=
  Forall (fun e => e.1 ≠ [] ∧ Forall seg_ok e.1 ∧ is_Some (get_json_path_value v e.1)) es ∧
  ForallOrdPairs (fun e e' => diverge e.1 e'.1) es.

Lemma independent_tail v e es :
  independent v (e :: es) →
  ∃ v', set_json_path_value v e.1 e.2 = (v', Ok tt) ∧ v' = wr v e.1 e.2 ∧ independent v' es.
Proof.
  intros [Hf Ho]. apply List.Forall_cons_iff in Hf as [(Hne & Hs & old & Hg) Hf].
  inversion Ho as [|? ? Hd Ho']; subst.
  destruct (set_existing e.1 v e.2 old) as [v' Hv]; [done..|]. exists v'. split; [done|].
  split; [by rewrite wr_set, Hv by done|]. split; [|done].
  apply Forall_forall. intros e' He'. rewrite Forall_forall in Hf, Hd.
  destruct (Hf e' He') as (H1 & H2 & H3). split; [done|]. split; [done|].
  pose proof (set_frame_lemma e.1 v e.2 e'.1 Hs H2 (Hd e' He')) as Hfr. rewrite Hv in Hfr. cbn in Hfr.
  by rewrite Hfr.
Qed.

Lemma apply_edits_wr es v :
  independent v es → apply_edits v es = Ok (fold_left (fun v e => wr v e.1 e.2) es v).
Proof.
  revert v. induction es as [|e es IH]; intros v Hi; [done|]. cbn.
  destruct (independent_tail _ _ _ Hi) as (v' & -> & <- & Hi'). by apply IH.
Qed.

Lemma independent_perm v es es' : es ≡ₚ es' → independent v es → independent v es'.
Proof.
  intros Hp [Hf Ho]. split; [by rewrite <- Hp|]. clear Hf.
  induction Hp as [|e es es' Hp IH|e e' es|es1 es2 es3 _ IH1 _ IH2]; [done|..|by eauto].
  - inversion Ho; subst. constructor; [by rewrite <- Hp|auto].
  - inversion Ho as [|? ? H1 Ho1]; subst. inversion Ho1 as [|? ? H2 Ho2]; subst.
    apply List.Forall_cons_iff in H1 as [H0 H1].
    constructor; [|by constructor]. constructor; [by apply diverge_sym|done].
Qed.

Lemma fold_wr_perm es es' v :
  es ≡ₚ es' → independent v es →
  fold_left (fun v e => wr v e.1 e.2) es v = fold_left (fun v e => wr v e.1 e.2) es' v.
Proof.
  intros Hp. revert v. induction Hp as [|e es es' Hp IH|e e' es|es1 es2 es3 Hp1 IH1 Hp2 IH2]; intros v Hi; [done|..].
  - cbn. apply independent_tail in Hi as (v' & _ & <- & Hi). by apply IH.
  - cbn. f_equal. destruct Hi as [Hf Ho]. apply List.Forall_cons_iff in Hf as [(_ & H1 & a & Ha) Hf].
    apply List.Forall_cons_iff in Hf as [(_ & H2 & b & Hb) _].
    inversion Ho as [|? ? Hd _]; subst. apply List.Forall_cons_iff in Hd as [Hd _]. by eapply wr_comm.
  - rewrite IH1 by done. apply IH2. by eapply independent_perm.
Qed.
End Commute.

(** ** Lemmas: the output loop *)

Section Splice.
Context {number : Type}.
Context (decode_string : bytes → option str) (parse_number : bytes → option number).
Local Abbreviation denotes := (denotes decode_string parse_number).

Context (w1 w2 : bytes) (c : cst) (v : value number).
Hypothesis (Hc : denotes c v) (Hdist : distinct c = true).
Let body : bytes := w1 ++ text c ++ w2.

Definition edit : Type := list JsonPathSegment * value number.

(** An edit with the patch computed for it. *)
Definition good (ep : edit * patch) : Prop :=
  ep.1.1 ≠ [] ∧ Forall seg_ok ep.1.1 ∧
  ∃ o old new, sub (length w1) c ep.1.1 = Some (o, old) ∧ denotes new ep.1.2 ∧ distinct new = true ∧
    ep.2 = (o, (o + length (text old))%nat, text new).

Definition first_start (es : list (edit * patch)) : nat :=
  match es with [] => length body | e :: _ => patch_start e.2 end.

Lemma denotes_text_ne c' v' : denotes c' v' → text c' ≠ [].
Proof. intros H. apply denotes_start in H as (b & l & -> & _). done. Qed.

Lemma good_facts ep :
  good ep → ∃ o old new, sub (length w1) c ep.1.1 = Some (o, old) ∧ denotes new ep.1.2 ∧
    distinct new = true ∧ ep.2 = (o, (o + length (text old))%nat, text new) ∧ text old ≠ [] ∧
    (o + length (text old) <= length body)%nat ∧ is_Some (get_json_path_value v ep.1.1).
Proof.
  intros (Hne & Hs & o & old & new & Hsub & Hn & Hdn & Hp). exists o, old, new.
  destruct (sub_denotes _ _ _ _ _ _ _ _ Hs Hc Hsub) as (v' & Hg & Hold & _).
  split_and!; try done; [by eapply denotes_text_ne|].
  apply sub_text in Hsub as (pre & post & -> & Ht & _). unfold body. rewrite Ht, !length_app. lia.
Qed.

Lemma disjoint_next e es :
  good e → spans_disjoint (map snd (e :: es)) = true →
  spans_disjoint (map snd es) = true ∧ (patch_end e.2 <= first_start es)%nat.
Proof.
  intros Hg. apply good_facts in Hg as (o & old & new & _ & _ & _ & Hp & _ & Hle & _).
  destruct es as [|e' es]; cbn [map spans_disjoint first_start]; [by rewrite Hp|].
  intros H. breflect. apply Nat.ltb_ge in H1. split; [done|lia].
Qed.

Lemma disjoint_later e es :
  Forall good (e :: es) → spans_disjoint (map snd (e :: es)) = true →
  Forall (fun e' => (patch_end e.2 <= patch_start e'.2)%nat) es.
Proof.
  revert e. induction es as [|e' es IH]; intros e Hg Hd; [done|].
  apply List.Forall_cons_iff in Hg as [Hge Hg].
  apply disjoint_next in Hd as [Hd Hle]; [|done]. constructor; [done|].
  eapply Forall_impl; [by apply (IH e')|]. cbn in Hle. intros e2 He2. cbn beta in He2 |- *.
  apply List.Forall_cons_iff in Hg as [Hge' _].
  apply good_facts in Hge' as (o & old & new & _ & _ & _ & Hp & _). rewrite Hp in Hle, He2. cbn in Hle, He2. lia.
Qed.

Lemma sorted_independent es :
  Forall good es → spans_disjoint (map snd es) = true → independent v (map fst es).
Proof.
  intros Hg Hd. split.
  - apply Forall_fmap. eapply Forall_impl; [done|]. intros e (Hne & Hs & H). cbn. split_and!; try done.
    destruct (good_facts e) as (o & old & new & _ & _ & _ & _ & _ & _ & Hx); [by split_and!|done].
  - induction es as [|e es IH]; [constructor|]. cbn [map].
    pose proof (disjoint_later _ _ Hg Hd) as Hl. apply List.Forall_cons_iff in Hg as [Hge Hg].
    apply disjoint_next in Hd as [Hd _]; [|done]. constructor; [|by apply IH].
    apply Forall_fmap, Forall_forall. intros e' He'. cbn. rewrite Forall_forall in Hl, Hg.
    specialize (Hl e' He'). specialize (Hg e' He').
    apply good_facts in Hge as (o & old & new & Hs & _ & _ & Hp & Hne & _).
    apply good_facts in Hg as (o' & old' & new' & Hs' & _ & _ & Hp' & Hne' & _).
    rewrite Hp, Hp' in Hl. cbn in Hl. by eapply (left_of _ _ _ _ _ _ _ _ c Hs Hs').
Qed.

Lemma splice_sorted es :
  Forall good es → spans_disjoint (map snd es) = true →
  ∃ c1,
    (∀ cur, (cur <= first_start es)%nat →
       take cur body ++ splice body cur (map snd es) = w1 ++ text c1 ++ w2) ∧
    (∀ p o old, sub (length w1) c p = Some (o, old) → text old ≠ [] →
       (o + length (text old) <= first_start es)%nat → sub (length w1) c1 p = Some (o, old)) ∧
    denotes c1 (fold_right (fun e v => wr v e.1.1 e.1.2) v es) ∧ distinct c1 = true.
Proof.
  induction es as [|e es IH]; intros Hg Hd.
  { exists c. split_and!; try done. intros cur _. cbn. by rewrite take_drop. }
  apply List.Forall_cons_iff in Hg as [Hge Hg]. apply disjoint_next in Hd as [Hd Hle]; [|done].
  destruct (IH Hg Hd) as (c1 & Ha & Hb & Hv1 & Hd1). clear IH.
  pose proof Hge as (Hpne & Hsegs & _).
  apply good_facts in Hge as (o & old & new & Hsub & Hnew & Hdn & Hp & Hne & Hlen & _).
  rewrite Hp in Hle. cbn in Hle. pose proof (Hb _ _ _ Hsub Hne Hle) as Hsub1.
  exists (replace c1 e.1.1 new). split_and!.
  - intros cur Hcur. cbn [first_start map splice] in *. rewrite Hp in *. cbn [patch_start patch_end fst snd] in *.
    specialize (Ha (o + length (text old))%nat Hle).
    apply sub_text in Hsub1 as (pre & post & -> & Ht & Hr). rewrite Hr. rewrite Ht in Ha.
    rewrite <- (take_drop (length w1 + length pre)%nat (take _ body)), take_take in Ha.
    rewrite Nat.min_l in Ha by lia.
    assert (w1 ++ (pre ++ text old ++ post) ++ w2 = (w1 ++ pre) ++ text old ++ post ++ w2) as Hassoc
      by (by rewrite <- !app_assoc).
    rewrite Hassoc, <- app_assoc in Ha. apply app_inj_1 in Ha as [Hw Ha];
      [|rewrite length_take, length_app; lia].
    apply app_inj_1 in Ha as [_ Ha]; [|rewrite length_drop, length_take; lia].
    rewrite Ha. unfold slice. rewrite !app_assoc. f_equal. f_equal. rewrite <- !app_assoc.
    rewrite (app_assoc (take cur body)), take_take_drop. 
    replace (cur + (length w1 + length pre - cur))%nat with (length w1 + length pre)%nat by lia.
    rewrite Hw. by rewrite <- !app_assoc.
  - intros p o' old' Hs' Hne' Hle'. cbn [first_start] in Hle'. rewrite Hp in Hle'. cbn in Hle'.
    eapply (left_of e.1.1 p); [|exact Hsub1|done..]. apply Hb; [done..|]. lia.
  - cbn. destruct (sub_denotes _ _ _ _ _ _ _ _ Hsegs Hv1 Hsub1) as (v' & _ & _ & Hset).
    destruct (Hset new e.1.2 Hpne Hnew) as (v2 & Hs2 & Hr).
    rewrite wr_set by done. apply (f_equal fst) in Hs2. cbn in Hs2. by subst v2.
  - by eapply distinct_replace.
Qed.
End Splice.

Lemma sort_desc_map {A B} (k : B → Z) (f : A → B) l :
  sort_desc k (map f l) = map f (sort_desc (fun x => k (f x)) l).
Proof.
  assert (∀ x l, insert_desc k (f x) (map f l) = map f (insert_desc (fun x => k (f x)) x l)) as Hi.
  { intros x l0. induction l0 as [|y l0 IH]; cbn; [done|]. case_match; cbn; [done|]. by rewrite IH. }
  induction l as [|x l IH]; cbn; [done|]. by rewrite IH, Hi.
Qed.

Section Patch.
Context {number : Type}.
Context (decode_string : bytes → option str) (parse_number : bytes → option number).
Context (to_string : value number → option bytes).
Local Abbreviation denotes := (denotes decode_string parse_number).
Local Abbreviation document := (document decode_string parse_number).

(** [serde_json::to_string] writes a JSON text of its value. *)
Definition serializes : Prop :=
  ∀ x t, wf x → to_string x = Some t → ∃ c, denotes c x ∧ distinct c = true ∧ text c = t.

(** Paths come from [parse_json_field_path], values are [serde_json] values. *)
Definition edit_ok (e : list JsonPathSegment * value number) : Prop :=
  e.1 ≠ [] ∧ Forall seg_ok e.1 ∧ wf e.2.

Lemma edit_patch_good w1 c e p :
  serializes → edit_ok e → edit_patch to_string (node_of (length w1) c) e = Some p →
  good decode_string parse_number w1 c (e, p).
Proof.
  intros Hser (Hne & Hs & Hwf). unfold edit_patch. rewrite span_value_sub by done.
  destruct (sub (length w1) c e.1) as [[o old]|] eqn:Hsub; [|done].
  destruct (to_string e.2) as [t|] eqn:Ht; [|done]. intros [= <-].
  destruct (Hser _ _ Hwf Ht) as (new & Hn & Hd & <-). split_and!; [done..|].
  exists o, old, new. split_and!; try done. by destruct old.
Qed.

Lemma patch_sorted w1 c v w2 edits out :
  ws_all w1 → ws_all w2 → denotes c v → serializes → Forall edit_ok edits →
  patch_json_field_values decode_string to_string (w1 ++ text c ++ w2) edits = Some out →
  distinct c = true ∧ ∃ es,
    map fst es ≡ₚ edits ∧ Forall (good decode_string parse_number w1 c) es ∧
    spans_disjoint (map snd es) = true ∧ out = splice (w1 ++ text c ++ w2) 0 (map snd es).
Proof.
  intros Hw1 Hw2 Hd Hser Hok. unfold patch_json_field_values. destruct edits as [|e0 edits0]; [done|].
  set (edits := e0 :: edits0) in *. rewrite (parse_root_document _ parse_number _ _ v) by done.
  destruct (distinct c) eqn:Hdist; [|done].
  destruct (mapM _ edits) as [patches|] eqn:Hm; [|done]. apply mapM_Some_1 in Hm.
  pose proof (Forall2_length _ _ _ Hm) as Hlen.
  set (es := sort_desc (fun ep => - Z.of_nat (patch_start ep.2)) (zip edits patches)).
  assert (sort_patches patches = map snd es) as ->.
  { unfold sort_patches, es. rewrite <- (sort_desc_map (fun p => - Z.of_nat (patch_start p)) snd).
    f_equal. symmetry. apply snd_zip. lia. }
  destruct (spans_disjoint (map snd es)) eqn:Hdis; [|done]. intros [= <-]. split; [done|].
  assert (es ≡ₚ zip edits patches) as Hperm by apply sort_desc_perm.
  exists es. split_and!; try done.
  - rewrite Hperm. by rewrite fst_zip by lia.
  - rewrite Hperm. clear -Hok Hm Hser. induction Hm as [|e p es ps Hep Hm IH]; cbn; [constructor|].
    apply List.Forall_cons_iff in Hok as [He Hok]. constructor; [by apply edit_patch_good|by apply IH].
Qed.

Lemma patch_refines_edits body c v edits out :
  serializes → document body c v → Forall edit_ok edits →
  patch_json_field_values decode_string to_string body edits = Some out →
  distinct c = true ∧
  ∃ c' v', apply_edits v edits = Ok v' ∧ document out c' v' ∧ distinct c' = true.
Proof.
  intros Hser (w1 & w2 & -> & Hw1 & Hw2 & Hd) Hok Hp.
  destruct (patch_sorted _ _ _ _ _ _ Hw1 Hw2 Hd Hser Hok Hp) as (Hdist & es & Hperm & Hg & Hdis & ->).
  split; [done|].
  destruct (splice_sorted _ _ w1 w2 c v Hd Hdist es Hg Hdis) as (c1 & Ha & _ & Hv & Hd1).
  pose proof (sorted_independent _ _ w1 w2 c v Hd es Hg Hdis) as Hi.
  exists c1, (fold_left (fun v e => wr v e.1 e.2) edits v). split_and!; [|..|done].
  - apply apply_edits_wr. by eapply independent_perm.
  - exists w1, w2. split; [by apply (Ha 0%nat); lia|]. split_and!; [done..|].
    rewrite <- (fold_wr_perm _ _ v Hperm Hi).
    rewrite (fold_wr_perm _ (rev (map fst es)) v) by (done || apply Permutation_rev).
    by rewrite <- fold_left_rev_right, rev_involutive, foldr_fmap.
Qed.

End Patch.

(** ** Properties *)

Section Properties.
Context {number : Type}.
Context (decode_string : bytes → option str) (parse_number : bytes → option number).
Context (to_string : value number → option bytes).
Local Abbreviation denotes := (denotes decode_string parse_number).

(** C8: Patching is editing.  Whenever the byte-precise path is taken, the edits of
    the parsed document succeed in their order and the patched text is a JSON
    text of the edited value, for any number of edits in any order and any
    white space; a document with a repeated key is never patched. *)
Theorem patch_is_edit body c v edits out :
  serializes decode_string parse_number to_string →
  document decode_string parse_number body c v → Forall edit_ok edits →
  patch_json_field_values decode_string to_string body edits = Some out →
  distinct c = true ∧
  ∃ c' v', apply_edits v edits = Ok v' ∧ document decode_string parse_number out c' v' ∧ distinct c' = true.
Proof. apply patch_refines_edits. Qed.

(** A single edit of an existing value changes the bytes of that value and no
    other: the text before and after it is kept verbatim. *)
Theorem patch_single_bytes body c v p x t old :
  document decode_string parse_number body c v → distinct c = true →
  p ≠ [] → Forall seg_ok p → get_json_path_value v p = Some old → to_string x = Some t →
  ∃ before co after, body = before ++ text co ++ after ∧ denotes co old ∧
    patch_json_field_values decode_string to_string body [(p, x)] = Some (before ++ t ++ after).
Proof.
  intros (w1 & w2 & -> & Hw1 & Hw2 & Hd) Hdist Hne Hs Hg Ht.
  destruct (get_sub _ _ _ (length w1) _ _ _ Hs Hd Hg) as (o & co & Hsub).
  destruct (sub_denotes _ _ _ _ _ _ _ _ Hs Hd Hsub) as (old' & Hg' & Hco & _).
  rewrite Hg in Hg'. injection Hg' as <-.
  pose proof Hsub as Hx. apply sub_text in Hx as (pre & post & -> & Htx & _).
  exists (w1 ++ pre), co, (post ++ w2). split; [by rewrite Htx, <- !app_assoc|]. split; [done|].
  unfold patch_json_field_values. rewrite (parse_root_document _ parse_number _ _ v), Hdist by done.
  cbn [mapM]. unfold edit_patch. cbn [fst snd]. rewrite span_value_sub, Hsub, Ht by done.
  cbn. f_equal. assert (node_start (node_of (length w1 + length pre) co) = (length w1 + length pre)%nat
    ∧ node_end (node_of (length w1 + length pre) co) = (length w1 + length pre + length (text co))%nat) as [-> ->].
  { by destruct co. }
  unfold slice. rewrite Htx, Nat.sub_0_r, drop_0.
  replace (w1 ++ (pre ++ text co ++ post) ++ w2) with ((w1 ++ pre) ++ text co ++ post ++ w2) by (by rewrite <- !app_assoc).
  rewrite <- length_app, take_app_length, <- !app_assoc. do 3 f_equal.
  rewrite (app_assoc w1), (app_assoc (w1 ++ pre)), <- length_app. by rewrite drop_app_length.
Qed.
End Properties.

(** ** Witnesses *)

(** A decoder for literals without escapes, decimal numbers, and a printer of
    numbers stand in for [serde_json]. *)
Definition demo_decode (raw : bytes) : option str :=
  match raw with [] => None | _ :: b => Some (take (length b - 1) b) end.
Definition demo_number (raw : bytes) : option Z := parse_uint u64_max raw.
Definition demo_to_string (x : value Z) : option bytes :=
  match x with
  | Number n => if (0 <=? n) && (n <=? u64_max) then Some (show n) else None
  | _ => None
  end.

(** [{"a": 1, "b":[2, 3] }] *)
Definition demo_cst : cst :=
  CTree true []
    (CCons (quote :: lit "a" ++ quote :: lit ": ") (lit "a") (CScalar (lit "1")) []
    (CCons (lit " " ++ quote :: lit "b" ++ quote :: lit ":") (lit "b")
       (CTree false [] (CCons [] [] (CScalar (lit "2")) [] (CCons (lit " ") [] (CScalar (lit "3")) [] CNil)))
       (lit " ") CNil)).

Definition demo_value : value Z :=
  Object [(lit "a", Number 1); (lit "b", Array [Number 2; Number 3])].

Lemma demo_number_token n : 0 <= n <= u64_max → number_token demo_number (show n) n.
Proof.
  intros Hn. pose proof (show_digits n ltac:(lia)) as Hd. pose proof (show_nonempty n) as Hne.
  destruct (show n) as [|b l] eqn:Hs; [done|]. exists b, l. split; [done|].
  apply List.Forall_cons_iff in Hd as [Hb Hd]. split; [unfold is_number_start; by rewrite Hb, orb_true_r|].
  split; [|rewrite <- Hs; by apply parse_uint_show].
  constructor; [unfold is_number_byte; by rewrite Hb|]. eapply Forall_impl; [done|].
  intros x Hx. cbn beta in *. unfold is_number_byte. by rewrite Hx.
Qed.

Lemma demo_serializes : serializes demo_decode demo_number demo_to_string.
Proof.
  intros x t _. destruct x as [| |n| | |]; cbn; try done. case_match eqn:Hn; [|done]. intros [= <-].
  exists (CScalar (show n)). split_and!; [|done..]. constructor. constructor. apply demo_number_token. lia.
Qed.

Lemma demo_denotes : denotes demo_decode demo_number demo_cst demo_value.
Proof.
  assert (∀ n, 0 <= n <= u64_max → denotes demo_decode demo_number (CScalar (show n)) (Number n)) as Hn.
  { intros n H. constructor. constructor. by apply demo_number_token. }
  assert (∀ w1 a w3, ws_all w1 → ws_all w3 → string_token demo_decode (quote :: lit a ++ [quote]) (lit a) →
    pre_ok demo_decode true (w1 ++ quote :: lit a ++ quote :: chr ":" :: w3) (lit a)) as Hpre.
  { intros w1 a w3 H1 H3 Ht. exists w1, (quote :: lit a ++ [quote]), [], w3. split_and!; try done.
    - cbn. by rewrite <- app_assoc.
    - constructor. }
  unfold demo_cst, demo_value. apply denotes_object; [constructor|].
  constructor; [apply (Hpre [] "a"%str (lit " "))|constructor|apply (Hn 1)|];
    try (by repeat constructor); try done; try (by exists (lit "a" ++ [quote])).
  constructor; [apply (Hpre (lit " ") "b"%str [])|repeat constructor| |constructor];
    try (by repeat constructor); try done; try (by exists (lit "b" ++ [quote])).
  apply (denotes_array _ _ [] _ [([], Number 2); ([], Number 3)]); [constructor|].
  constructor; [constructor|constructor|apply (Hn 2); done|].
  constructor; [repeat constructor|constructor|apply (Hn 3); done|constructor].
Qed.

Lemma demo_document : document demo_decode demo_number (text demo_cst) demo_cst demo_value.
Proof. exists [], []. split_and!; [by rewrite app_nil_r|constructor..|apply demo_denotes]. Qed.

Lemma patch_is_edit_witness :
  ∃ out c' v',
    patch_json_field_values demo_decode demo_to_string (text demo_cst)
      [([Key (lit "b"); Index 1], Number 70); ([Key (lit "a")], Number 42)] = Some out ∧
    apply_edits demo_value [([Key (lit "b"); Index 1], Number 70); ([Key (lit "a")], Number 42)] = Ok v' ∧
    document demo_decode demo_number out c' v'.
Proof.
  eexists.
  destruct (patch_is_edit demo_decode demo_number demo_to_string (text demo_cst) demo_cst demo_value
    [([Key (lit "b"); Index 1], Number 70); ([Key (lit "a")], Number 42)]
    (text (CTree true []
    (CCons (quote :: lit "a" ++ quote :: lit ": ") (lit "a") (CScalar (lit "42")) []
    (CCons (lit " " ++ quote :: lit "b" ++ quote :: lit ":") (lit "b")
       (CTree false [] (CCons [] [] (CScalar (lit "2")) [] (CCons (lit " ") [] (CScalar (lit "70")) [] CNil)))
       (lit " ") CNil))))) as (_ & c' & v' & He & Hd & _).
  - apply demo_serializes.
  - apply demo_document.
  - repeat constructor; done.
  - vm_compute. reflexivity.
  - exists c', v'. split; [vm_compute; reflexivity|]. by split.
Defined.

Lemma patch_single_bytes_witness :
  ∃ before co after, text demo_cst = before ++ text co ++ after ∧
    denotes demo_decode demo_number co (Number 3) ∧
    patch_json_field_values demo_decode demo_to_string (text demo_cst) [([Key (lit "b"); Index 1], Number 70)]
      = Some (before ++ lit "70" ++ after).
Proof.
  apply (patch_single_bytes demo_decode demo_number demo_to_string (text demo_cst) demo_cst demo_value
    [Key (lit "b"); Index 1] (Number 70) (lit "70") (Number 3)).
  - apply demo_document.
  - vm_compute. reflexivity.
  - done.
  - repeat constructor; done.
  - vm_compute. reflexivity.
  - vm_compute. reflexivity.
Defined.
