(* ===== verification/Throttle.v ===== *)
(** * Throttle: bandwidth shaping (proxy-core/src/rules/throttle.rs)

    The delay arithmetic at its machine widths, the request and response
    stages, and [ThrottledBody::poll_frame] as a state machine polled at given
    times (milliseconds).  The packet-loss draw (an [f32] comparison with a
    random number) is an argument. *)

From S2P Require Import Prelude Str RuleTypes.

(** ** Definitions *)

Definition MAX_THROTTLE_TRANSFER_DELAY_MS : Z := 60000.
Definition THROTTLE_CHUNK_BYTES : nat := Z.to_nat (16 * 1024).

(** [a.div_ceil(b)] *)
Definition div_ceil (a b : Z) : Z := (a + b - 1) / b.

(** [usize] and [u32] arguments, [u128] intermediate values. *)
Definition transfer_delay_ms (byte_count kbps : Z) : Z :=
  if (byte_count =? 0) || (kbps =? 0) then 0
  else
    let bits := byte_count * 8 in
    let bits_per_second := kbps * 1024 in
    let millis := div_ceil (bits * 1000) bits_per_second in
    Z.min u64_max millis.

Definition chunk_delay_ms (chunk_bytes download_kbps : Z) : Z :=
  let ms := transfer_delay_ms chunk_bytes download_kbps in
  if MAX_THROTTLE_TRANSFER_DELAY_MS <? ms then MAX_THROTTLE_TRANSFER_DELAY_MS else ms.

Definition build_throttle_trace (s : ThrottleRuntimeSelection) (stage outcome : str)
    (body_bytes latency_ms transfer_delay_ms : Z) (message : option str) : ThrottleTrace :=
  {| tt_body_bytes := body_bytes;
     tt_delay_ms := sat_add64 latency_ms transfer_delay_ms;
     tt_latency_ms := latency_ms;
     tt_message := message;
     tt_outcome := outcome;
     tt_profile_id := tp_id (sel_profile s);
     tt_profile_name := tp_name (sel_profile s);
     tt_rule_id := tr_id <$> sel_rule s;
     tt_rule_name := tr_name <$> sel_rule s;
     tt_sequence := 0;
     tt_stage := stage;
     tt_transfer_delay_ms := transfer_delay_ms |}.

(** The request stage: the milliseconds slept and the outcome; [drop] is
    [should_drop_for_packet_loss(profile)]. *)
Definition apply_request_throttle (s : ThrottleRuntimeSelection) (body_len : Z) (drop : bool)
    : Z * result ThrottleTrace ThrottleFailure :=
  let profile := sel_profile s in
  if drop then
    let error := lit "request dropped by throttle profile '" ++ tp_name profile ++ lit "'" in
    (0, Err {| tf_error := error;
               tf_trace := build_throttle_trace s (lit "request") (lit "dropped") body_len 0 0
                             (Some error) |})
  else
    let latency_ms := tp_latency_ms profile in
    let upload_delay_ms := transfer_delay_ms body_len (tp_upload_kbps profile) in
    let capped := Z.min upload_delay_ms MAX_THROTTLE_TRANSFER_DELAY_MS in
    ((if 0 <? latency_ms then latency_ms else 0) + (if 0 <? capped then capped else 0),
     Ok (build_throttle_trace s (lit "request") (lit "applied") body_len latency_ms
           upload_delay_ms None)).

Record ResponseThrottlePlan := { plan_trace : ThrottleTrace; plan_download_kbps : Z }.

Definition evaluate_response_throttle (s : ThrottleRuntimeSelection) (body_len : Z) (drop : bool)
    : Z * result ResponseThrottlePlan ThrottleFailure :=
  let profile := sel_profile s in
  if drop then
    let error := lit "response dropped by throttle profile '" ++ tp_name profile ++ lit "'" in
    (0, Err {| tf_error := error;
               tf_trace := build_throttle_trace s (lit "response") (lit "dropped") body_len 0 0
                             (Some error) |})
  else
    let latency_ms := tp_latency_ms profile in
    let download_delay_ms := transfer_delay_ms body_len (tp_download_kbps profile) in
    ((if 0 <? latency_ms then latency_ms else 0),
     Ok {| plan_trace := build_throttle_trace s (lit "response") (lit "applied") body_len
                           latency_ms download_delay_ms None;
           plan_download_kbps := tp_download_kbps profile |}).

(** *** The throttled body *)

(** What the inner body answers to one [poll_frame]: trailers and errors are
    passed through. *)
Inductive Inner :=
  | InnerPending
  | InnerData (data : bytes)
  | InnerTrailers (t : str)
  | InnerError (e : str)
  | InnerEnd.

(** What the wrapper answers. *)
Inductive Out :=
  | OutPending
  | OutData (data : bytes)
  | OutTrailers (t : str)
  | OutError (e : str)
  | OutEnd.

(** The bytes not yet emitted and the instant the armed sleep elapses. *)
Record PendingChunk := { remaining : bytes; sleep_until : Z }.

Record ThrottledBody := {
  inner : list Inner;
  download_kbps : Z;
  pending : option PendingChunk
}.

Definition new_throttled (inner : list Inner) (kbps : Z) : ThrottledBody :=
  {| inner := inner; download_kbps := kbps; pending := None |}.

Definition arm_chunk_sleep (b : ThrottledBody) (now : Z) (data : bytes) : ThrottledBody :=
  let first_slice := Z.of_nat (Nat.min THROTTLE_CHUNK_BYTES (length data)) in
  let delay_ms := chunk_delay_ms first_slice (download_kbps b) in
  {| inner := inner b; download_kbps := download_kbps b;
     pending := Some {| remaining := data; sleep_until := now + delay_ms |} |}.

(** The inner body's next answer; an exhausted list stays pending. *)
Definition inner_poll (l : list Inner) : Inner * list Inner :=
  match l with [] => (InnerPending, []) | x :: l => (x, l) end.

Definition with_inner (b : ThrottledBody) (l : list Inner) : ThrottledBody :=
  {| inner := l; download_kbps := download_kbps b; pending := None |}.

Definition poll_frame (b : ThrottledBody) (now : Z) : Out * ThrottledBody :=
  match pending b with
  | Some p =>
      if sleep_until p <=? now then
        let n := Nat.min THROTTLE_CHUNK_BYTES (length (remaining p)) in
        let chunk := take n (remaining p) in
        let rest := drop n (remaining p) in
        match rest with
        | [] => (OutData chunk, {| inner := inner b; download_kbps := download_kbps b;
                                   pending := None |})
        | _ => (OutData chunk, arm_chunk_sleep b now rest)
        end
      else (OutPending, b)
  | None =>
      let '(frame, rest) := inner_poll (inner b) in
      let b := with_inner b rest in
      match frame with
      | InnerPending => (OutPending, b)
      | InnerError e => (OutError e, b)
      | InnerEnd => (OutEnd, b)
      | InnerTrailers t => (OutTrailers t, b)
      | InnerData data =>
          if (download_kbps b =? 0) || bool_decide (data = []) then (OutData data, b)
          else (OutPending, arm_chunk_sleep b now data)
      end
  end.

(** [throttle_response_body]: the wrapper only for a non-zero rate. *)
Definition throttle_response_body (body : list Inner) (kbps : Z) : list Inner + ThrottledBody :=
  if kbps =? 0 then inl body else inr (new_throttled body kbps).

(** Polling at a sequence of times: the outputs with their times. *)
Fixpoint poll_all (b : ThrottledBody) (times : list Z) : list (Z * Out) * ThrottledBody :=
  match times with
  | [] => ([], b)
  | t :: times =>
      let '(o, b) := poll_frame b t in
      let '(os, b) := poll_all b times in
      ((t, o) :: os, b)
  end.

Definition out_bytes (o : Out) : bytes := match o with OutData d => d | _ => [] end.
Definition inner_bytes (i : Inner) : bytes := match i with InnerData d => d | _ => [] end.
Definition emitted (os : list (Z * Out)) : bytes := concat (map (fun o => out_bytes o.2) os).
Definition unread (l : list Inner) : bytes := concat (map inner_bytes l).
Definition buffered (b : ThrottledBody) : bytes :=
  match pending b with Some p => remaining p | None => [] end.

(** ** Lemmas: delays *)

Lemma div_ceil_spec a b : 0 < b → div_ceil a b * b - b < a <= div_ceil a b * b.
Proof.
  intros Hb. unfold div_ceil. pose proof (Z.div_mod (a + b - 1) b).
  pose proof (Z.mod_pos_bound (a + b - 1) b). nia.
Qed.

(** At 3 kbit/s and more a 16 KiB chunk stays under the cap. *)
Lemma chunk_delay_uncapped n kbps :
  0 < n <= Z.of_nat THROTTLE_CHUNK_BYTES → 3 <= kbps →
  n * 8 * 1000 <= chunk_delay_ms n kbps * (kbps * 1024) ∧ 1 <= chunk_delay_ms n kbps.
Proof.
  intros Hn Hk. change (Z.of_nat THROTTLE_CHUNK_BYTES) with 16384 in Hn.
  unfold chunk_delay_ms, transfer_delay_ms, MAX_THROTTLE_TRANSFER_DELAY_MS.
  rewrite !(proj2 (Z.eqb_neq _ _)) by lia. cbn [orb].
  pose proof (div_ceil_spec (n * 8 * 1000) (kbps * 1024) ltac:(lia)) as Hd.
  set (q := div_ceil _ _) in *. assert (1 <= q <= 60000) by nia.
  rewrite (Z.min_r u64_max q) by (unfold u64_max; lia).
  rewrite (proj2 (Z.ltb_ge _ _)) by lia. lia.
Qed.

Lemma chunk_delay_nonneg n kbps : 0 <= n → 0 <= kbps → 0 <= chunk_delay_ms n kbps.
Proof.
  intros Hn Hk. unfold chunk_delay_ms, transfer_delay_ms, MAX_THROTTLE_TRANSFER_DELAY_MS.
  destruct (n =? 0) eqn:H1; cbn [orb]; [done|]. destruct (kbps =? 0) eqn:H2; [done|]. breflect.
  pose proof (div_ceil_spec (n * 8 * 1000) (kbps * 1024) ltac:(lia)).
  assert (0 <= div_ceil (n * 8 * 1000) (kbps * 1024)) by nia.
  unfold u64_max. case_match; lia.
Qed.

(** ** Lemmas: the throttled body *)

(** One poll neither loses nor duplicates nor reorders a byte. *)
Lemma poll_frame_conserves b t o b' :
  poll_frame b t = (o, b') →
  buffered b ++ unread (inner b) = out_bytes o ++ buffered b' ++ unread (inner b').
Proof.
  unfold poll_frame, buffered. destruct (pending b) as [p|] eqn:Hpend.
  - destruct (sleep_until p <=? t).
    + generalize (Nat.min THROTTLE_CHUNK_BYTES (length (remaining p))). intros n H.
      assert (remaining p ++ unread (inner b) =
        take n (remaining p) ++ drop n (remaining p) ++ unread (inner b)) as ->
        by (by rewrite app_assoc, take_drop).
      destruct (drop n (remaining p)) as [|x r]; injection H as <- <-; reflexivity.
    + intros [= <- <-]. by rewrite Hpend.
  - unfold unread. destruct (inner b) as [|x l]; cbn [inner_poll].
    { intros [= <- <-]. done. }
    destruct x as [|data|tr|e|]; [intros [= <- <-]; done | | intros [= <- <-]; done ..].
    destruct (_ || _); intros [= <- <-]; cbn; rewrite ?app_nil_r; done.
Qed.

Lemma poll_all_conserves times b os b' :
  poll_all b times = (os, b') →
  buffered b ++ unread (inner b) = emitted os ++ buffered b' ++ unread (inner b').
Proof.
  unfold emitted. revert b os. induction times as [|t times IH]; intros b os; cbn [poll_all].
  { by intros [= <- <-]. }
  destruct (poll_frame b t) as [o b1] eqn:Hp. destruct (poll_all b1 times) as [os1 b2] eqn:Ha.
  intros [= <- <-]. cbn. rewrite (poll_frame_conserves _ _ _ _ Hp), (IH _ _ Ha).
  by rewrite app_assoc.
Qed.

Lemma poll_frame_kbps b t o b' : poll_frame b t = (o, b') → download_kbps b' = download_kbps b.
Proof.
  unfold poll_frame. intros H. repeat case_match; simplify_eq; done.
Qed.

(** The invariant of the shaped body: a pending chunk is not empty, and its
    sleep covers the first slice since the last emission [t0]. *)
Definition armed (b : ThrottledBody) (t0 : Z) : Prop :=
  match pending b with
  | Some p => remaining p ≠ [] ∧
      t0 + chunk_delay_ms (Z.of_nat (Nat.min THROTTLE_CHUNK_BYTES (length (remaining p))))
             (download_kbps b) <= sleep_until p
  | None => True
  end.

(** One poll: an emitted chunk has at most 16 KiB and comes at least its own
    transfer delay after the previous emission. *)
Lemma poll_frame_paced b t0 t o b' :
  download_kbps b ≠ 0 → armed b t0 → t0 <= t → poll_frame b t = (o, b') →
  (length (out_bytes o) <= THROTTLE_CHUNK_BYTES)%nat ∧
  (out_bytes o = [] ∧ armed b' t0 ∨
   out_bytes o ≠ [] ∧ t0 + chunk_delay_ms (len (out_bytes o)) (download_kbps b) <= t ∧ armed b' t).
Proof.
  intros Hk Ha Ht. unfold poll_frame, armed in *. destruct (pending b) as [p|] eqn:Hp.
  - destruct Ha as [Hne Ha]. destruct (sleep_until p <=? t) eqn:Hs; breflect.
    + set (n := Nat.min _ _) in *.
      assert (length (take n (remaining p)) = n) as Hlen by (rewrite length_take; lia).
      assert (1 <= length (remaining p))%nat by (destruct (remaining p); [done | simpl; lia]).
      assert (1 <= n)%nat by (unfold n, THROTTLE_CHUNK_BYTES; lia).
      assert (take n (remaining p) ≠ []) by (intros He; rewrite He in Hlen; simpl in Hlen; lia).
      destruct (drop n (remaining p)) as [|x r] eqn:Hd; intros [= <- <-];
        cbn [out_bytes pending arm_chunk_sleep remaining sleep_until download_kbps];
        unfold len; rewrite Hlen; (split; [lia|]); right; (split; [done|]); (split; [lia|]); [done|].
      split; [done|]. lia.
    + intros [= <- <-]. cbn. split; [lia|]. left. by rewrite Hp.
  - destruct (inner_poll (inner b)) as [frame rest]. destruct frame as [|data|tr|e|];
      try (intros [= <- <-]; cbn; split; [lia | by left]).
    cbn [with_inner download_kbps]. rewrite (proj2 (Z.eqb_neq _ _)) by done. cbn [orb].
    destruct (decide (data = [])) as [->|Hd].
    + rewrite bool_decide_true by done. intros [= <- <-]. cbn. split; [lia | by left].
    + rewrite bool_decide_false by done. intros [= <- <-]. cbn. split; [lia|]. left.
      split; [done|]. split; [done|]. lia.
Qed.

(** The times of a schedule do not go backwards. *)
Fixpoint ascending (t0 : Z) (times : list Z) : Prop :=
  match times with
  | [] => True
  | t :: times => t0 <= t ∧ ascending t times
  end.

Lemma ascending_weaken t0 t1 times : t0 <= t1 → ascending t1 times → ascending t0 times.
Proof. destruct times; cbn; [done|]. intros ? [? ?]. split; [lia | done]. Qed.

Lemma poll_all_rate times b t0 os b' :
  3 <= download_kbps b → armed b t0 → ascending t0 times → poll_all b times = (os, b') →
  len (emitted os) * 8 * 1000 <= (List.last times t0 - t0) * (download_kbps b * 1024).
Proof.
  intros Hk. revert b t0 os Hk. induction times as [|t times IH]; intros b t0 os Hk Ha Hasc.
  { cbn [poll_all]. intros [= <- <-]. change (len (emitted [])) with 0. change (List.last [] t0) with t0. lia. }
  destruct Hasc as [Ht Hasc]. cbn [poll_all]. destruct (poll_frame b t) as [o b1] eqn:Hp.
  destruct (poll_all b1 times) as [os1 b2] eqn:Hall. intros [= <- <-].
  pose proof (poll_frame_kbps _ _ _ _ Hp) as Hkb.
  destruct (poll_frame_paced b t0 t o b1 ltac:(lia) Ha Ht Hp) as [Hlen [[Ho Ha1]|(Ho & Hd & Ha1)]].
  all: unfold emitted; cbn [map concat snd]; rewrite len_app; fold (emitted os1).
  - rewrite Ho, len_nil. destruct times as [|t1 times].
    { cbn [poll_all] in Hall. simplify_eq. change (len (emitted [])) with 0.
      change (List.last [t] t0) with t. nia. }
    specialize (IH b1 t0 os1 ltac:(lia) Ha1 (ascending_weaken _ _ _ Ht Hasc) Hall).
    rewrite Hkb in IH. exact IH.
  - specialize (IH b1 t os1 ltac:(lia) Ha1 Hasc Hall). rewrite Hkb in IH.
    assert (0 < len (out_bytes o) <= Z.of_nat THROTTLE_CHUNK_BYTES) as Hn.
    { unfold len. destruct (out_bytes o); [done|]. split; [simpl; lia|]. lia. }
    destruct (chunk_delay_uncapped (len (out_bytes o)) (download_kbps b) Hn Hk) as [Hc _].
    assert (List.last (t :: times) t0 = List.last times t) as ->.
    { clear. revert t t0. induction times as [|x times IH]; intros t t0; [done|].
      change (List.last (t :: x :: times) t0) with (List.last (x :: times) t0).
      by rewrite !(IH x). }
    nia.
Qed.

Lemma poll_all_app l1 l2 b :
  poll_all b (l1 ++ l2) =
    let '(o1, b1) := poll_all b l1 in
    let '(o2, b2) := poll_all b1 l2 in (o1 ++ o2, b2).
Proof.
  revert b. induction l1 as [|t l1 IH]; intros b; cbn [app poll_all].
  - by destruct (poll_all b l2).
  - destruct (poll_frame b t) as [o b1]. rewrite IH.
    destruct (poll_all b1 l1) as [o1 b2]. by destruct (poll_all b2 l2).
Qed.

(** A pending chunk drains. *)
Lemma drain_pending b p :
  pending b = Some p →
  ∃ times os b', poll_all b times = (os, b') ∧ pending b' = None ∧ inner b' = inner b ∧
                 download_kbps b' = download_kbps b.
Proof.
  remember (length (remaining p)) as n eqn:Hn. revert b p Hn.
  induction (lt_wf n) as [n _ IH]. intros b p Hn Hp.
  destruct (poll_frame b (sleep_until p)) as [o b1] eqn:Hf. pose proof Hf as Hf'.
  unfold poll_frame in Hf. rewrite Hp, (proj2 (Z.leb_le _ _)) in Hf by lia. revert Hf.
  set (k := Nat.min _ _). destruct (drop k (remaining p)) as [|x r] eqn:Hd; intros [= <- <-].
  - exists [sleep_until p]. eexists _, _. cbn [poll_all]. rewrite Hf'. done.
  - assert (length (x :: r) < n)%nat as Hlt.
    { rewrite <- Hd, length_drop, <- Hn. unfold k, THROTTLE_CHUNK_BYTES.
      assert (n ≠ 0%nat); [|lia]. intros ->. destruct (remaining p); [|done].
      by rewrite drop_nil in Hd. }
    destruct (IH _ Hlt (arm_chunk_sleep b (sleep_until p) (x :: r))
      {| remaining := x :: r; sleep_until := sleep_until p + chunk_delay_ms
         (Z.of_nat (Nat.min THROTTLE_CHUNK_BYTES (length (x :: r)))) (download_kbps b) |}
      eq_refl eq_refl) as (times & os & b' & Hall & H1 & H2 & H3).
    exists (sleep_until p :: times). eexists _, _. cbn [poll_all]. rewrite Hf', Hall. done.
Qed.

Lemma drain_all l : ∀ b, pending b = None → inner b = l →
  ∃ times os b', poll_all b times = (os, b') ∧ pending b' = None ∧ inner b' = [].
Proof.
  induction l as [|i l IH]; intros b Hp Hi.
  { exists [], [], b. done. }
  destruct (poll_frame b 0) as [o b1] eqn:Hf.
  assert (inner b1 = l) as Hi1.
  { unfold poll_frame in Hf. rewrite Hp, Hi in Hf. cbn [inner_poll] in Hf.
    destruct i; [..|by simplify_eq]; try by simplify_eq. case_match; by simplify_eq. }
  destruct (pending b1) as [p|] eqn:Hp1.
  - destruct (drain_pending b1 p Hp1) as (t1 & o1 & b2 & H1 & H2 & H3 & _).
    destruct (IH b2 H2 ltac:(congruence)) as (t2 & o2 & b3 & H4 & H5 & H6).
    exists (0 :: t1 ++ t2). eexists _, _. cbn [poll_all]. rewrite Hf, poll_all_app, H1, H4. done.
  - destruct (IH b1 Hp1 Hi1) as (t2 & o2 & b3 & H4 & H5 & H6).
    exists (0 :: t2). eexists _, _. cbn [poll_all]. rewrite Hf, H4. done.
Qed.

(** ** Properties *)

(** The throttled body is transparent.  Under any polling schedule, the bytes
    emitted so far followed by the buffered and the unread ones are exactly the
    inner body's bytes (nothing lost, duplicated or reordered); and there is a
    schedule that delivers the whole body. *)
Theorem throttled_body_conserves body kbps :
  (∀ times os b, poll_all (new_throttled body kbps) times = (os, b) →
     unread body = emitted os ++ buffered b ++ unread (inner b)) ∧
  (∃ times os b, poll_all (new_throttled body kbps) times = (os, b) ∧ emitted os = unread body).
Proof.
  split.
  - intros times os b H. apply poll_all_conserves in H. exact H.
  - destruct (drain_all body (new_throttled body kbps) eq_refl eq_refl)
      as (times & os & b & H & Hp & Hi).
    exists times, os, b. split; [done|]. apply poll_all_conserves in H.
    cbn [new_throttled inner] in H. unfold buffered in H. rewrite Hp, Hi in H. cbn in H.
    by rewrite app_nil_r in H.
Qed.

(** C39: The rate limit holds.  At 3 kbit/s or more, under any schedule of polls at
    non-decreasing times from [t0], the bits delivered by time [t] never exceed
    the configured rate times the elapsed time. *)
Theorem throttled_rate_bound body kbps t0 times os b :
  3 <= kbps → ascending t0 times → poll_all (new_throttled body kbps) times = (os, b) →
  len (emitted os) * 8 * 1000 <= (List.last times t0 - t0) * (kbps * 1024).
Proof.
  intros Hk Hasc H. by apply (poll_all_rate times (new_throttled body kbps) t0 os b).
Qed.

Lemma throttled_rate_bound_witness :
  len (emitted [(0, OutPending); (2, OutPending); (40, OutData [1; 2; 3])]) * 8 * 1000
    <= (40 - 0) * (8 * 1024).
Proof.
  apply (throttled_rate_bound [InnerData [1; 2; 3]] 8 0 [0; 2; 40] _
    {| inner := []; download_kbps := 8; pending := None |}).
  - lia.
  - repeat split; lia.
  - vm_compute. reflexivity.
Defined.

(** The delay arithmetic at machine width.  For every [usize] length and [u32]
    rate the [u128] product does not overflow, the result is the least number
    of milliseconds in which the rate carries the bytes (saturated at
    [u64::MAX]), and it is at least 1 ms for a non-empty body at a non-zero
    rate. *)
Theorem transfer_delay_exact n kbps :
  0 < n <= usize_max → 0 < kbps <= u32_max →
  n * 8 * 1000 + kbps * 1024 <= u128_max ∧
  1 <= transfer_delay_ms n kbps <= u64_max ∧
  (transfer_delay_ms n kbps < u64_max →
     (transfer_delay_ms n kbps - 1) * (kbps * 1024) < n * 8 * 1000
       <= transfer_delay_ms n kbps * (kbps * 1024)).
Proof.
  intros Hn Hk. unfold usize_max, u64_max, u32_max, u128_max in *. split; [lia|].
  unfold transfer_delay_ms. rewrite !(proj2 (Z.eqb_neq _ _)) by lia. cbn [orb].
  pose proof (div_ceil_spec (n * 8 * 1000) (kbps * 1024) ltac:(lia)) as Hd.
  set (q := div_ceil _ _) in *. assert (1 <= q) by nia. unfold u64_max.
  split; [lia|]. intros Hq. rewrite Z.min_r by lia. lia.
Qed.

Lemma transfer_delay_exact_witness :
  1024 * 8 * 1000 + 1 * 1024 <= u128_max ∧
  1 <= transfer_delay_ms 1024 1 <= u64_max ∧
  (transfer_delay_ms 1024 1 < u64_max →
     (transfer_delay_ms 1024 1 - 1) * (1 * 1024) < 1024 * 8 * 1000
       <= transfer_delay_ms 1024 1 * (1 * 1024)).
Proof. apply (transfer_delay_exact 1024 1); vm_compute; split; congruence. Defined.

(** Below 3 kbit/s the 60 s cap binds: a 16 KiB chunk at 1 kbit/s should take
    128 s but is released after 60 s, so the configured rate is exceeded. *)
Theorem chunk_cap_exceeds_rate :
  transfer_delay_ms (Z.of_nat THROTTLE_CHUNK_BYTES) 1 = 128000 ∧
  chunk_delay_ms (Z.of_nat THROTTLE_CHUNK_BYTES) 1 = 60000 ∧
  chunk_delay_ms (Z.of_nat THROTTLE_CHUNK_BYTES) 1 * (1 * 1024)
    < Z.of_nat THROTTLE_CHUNK_BYTES * 8 * 1000.
Proof. vm_compute. done. Qed.
