(* ===== verification/RuleManagers.v ===== *)
(** * RuleManagers: the in-memory rule stores (proxy-core/src/rules/managers.rs)

    The Rewrite and Map managers of a pair point to one [RuleRuntime]: the model
    keeps the runtimes in a heap and a manager is a handle, so [Arc::ptr_eq] is
    equality of handles and an update through one manager is seen by the other.
    Read-modify-write operations are given as their two lock regions: the
    snapshot they read and the list they install. *)

From S2P Require Import Prelude Str Patterns JsonPath RuleTypes.

(** ** Definitions *)

Section Managers.
  Context `{RegexEngine} {number : Type}.

Record CompiledRewriteRule := {
  cr_rule : RewriteRule number;
  cr_compiled_match : option regex;
  cr_host_lock : option str
}.

Record CompiledMapRule := { cm_rule : MapRule; cm_host_lock : option str }.

Record RuntimeRuleSnapshot := {
  generation : Z;
  rewrite : list CompiledRewriteRule;
  map_rules : list CompiledMapRule
}.

Definition empty_snapshot : RuntimeRuleSnapshot :=
  {| generation := 0; rewrite := []; map_rules := [] |}.

(** The heap of rule runtimes. *)
Abbreviation heap := (gmap Z RuntimeRuleSnapshot).

Definition new_runtime (h : heap) (rt : Z) : heap := <[rt := empty_snapshot]> h.

Definition snapshot (h : heap) (rt : Z) : RuntimeRuleSnapshot :=
  default empty_snapshot (h !! rt).

Definition replace_rewrite (h : heap) (rt : Z) (rules : list CompiledRewriteRule) : heap :=
  let current := snapshot h rt in
  <[rt := {| generation := sat_add64 (generation current) 1; rewrite := rules;
             map_rules := map_rules current |}]> h.

Definition replace_map (h : heap) (rt : Z) (rules : list CompiledMapRule) : heap :=
  let current := snapshot h rt in
  <[rt := {| generation := sat_add64 (generation current) 1; rewrite := rewrite current;
             map_rules := rules |}]> h.

Definition publish (h : heap) (rt : Z) (rw : list CompiledRewriteRule)
    (mp : list CompiledMapRule) (gen : Z) : heap :=
  <[rt := {| generation := gen; rewrite := rw; map_rules := mp |}]> h.

Definition compile_rewrite_rule (rule : RewriteRule number) (host_lock : option str)
    : CompiledRewriteRule :=
  {| cr_compiled_match :=
       compile_match_regex (rm_match_type (rw_match rule)) (rm_url_pattern (rw_match rule));
     cr_rule := rule; cr_host_lock := host_lock |}.

Definition compile_rewrite_rules (rules : list (RewriteRule number * option str))
    : list CompiledRewriteRule :=
  map (fun e => compile_rewrite_rule e.1 e.2) rules.

Definition compile_map_rules (rules : list (MapRule * option str)) : list CompiledMapRule :=
  map (fun e => {| cm_rule := e.1; cm_host_lock := e.2 |}) rules.

(** [paired_rule_managers()]: both managers get the same fresh runtime. *)
Definition paired_rule_managers (h : heap) (rt : Z) : heap * (Z * Z) :=
  (new_runtime h rt, (rt, rt)).

(** *** Rewrite manager *)

Definition rewrite_set_rules (h : heap) (m : Z) (rules : list (RewriteRule number)) : heap :=
  replace_rewrite h m (compile_rewrite_rules (map (fun r => (r, None)) rules)).

Definition rewrite_set_rules_with_host_locks (h : heap) (m : Z)
    (rules : list (RewriteRule number * option str)) : heap :=
  replace_rewrite h m (compile_rewrite_rules rules).

Definition publish_rules_atomic (h : heap) (m : Z) (rw : list (RewriteRule number * option str))
    (mp : list (MapRule * option str)) (gen : Z) : heap :=
  publish h m (compile_rewrite_rules rw) (compile_map_rules mp) gen.

Definition rewrite_list_rules_with_host_locks (h : heap) (m : Z)
    : list (RewriteRule number * option str) :=
  map (fun e => (cr_rule e, cr_host_lock e)) (rewrite (snapshot h m)).

Definition rewrite_list_rules (h : heap) (m : Z) : list (RewriteRule number) :=
  map cr_rule (rewrite (snapshot h m)).

Inductive HostLockUpdate := Preserve | Set_ (host_lock : str).

Definition same_id (id : str) (e : CompiledRewriteRule) : bool :=
  bool_decide (rw_id (cr_rule e) = id).

(** The list [store_rule] computes from the snapshot it read. *)
Definition stored (current : list CompiledRewriteRule) (rule : RewriteRule number)
    (update : HostLockUpdate) : list CompiledRewriteRule :=
  let host_lock :=
    match update with
    | Set_ host_lock => Some host_lock
    | Preserve => find_first (same_id (rw_id rule)) current ≫= cr_host_lock
    end in
  upsert (same_id (rw_id rule)) (compile_rewrite_rule rule host_lock) current.

Definition store_rule (h : heap) (m : Z) (rule : RewriteRule number) (update : HostLockUpdate)
    : heap :=
  let current := snapshot h m in
  replace_rewrite h m (stored (rewrite current) rule update).

Definition rewrite_save_rule (h : heap) (m : Z) (rule : RewriteRule number) : heap :=
  store_rule h m rule Preserve.

Definition rewrite_save_rule_with_host_lock (h : heap) (m : Z) (rule : RewriteRule number)
    (host_lock : str) : heap := store_rule h m rule (Set_ host_lock).

Definition rewrite_delete_rule (h : heap) (m : Z) (rule_id : str) : heap :=
  let current := snapshot h m in
  if negb (existsb (same_id rule_id) (rewrite current)) then h
  else replace_rewrite h m (List.filter (fun r => negb (same_id rule_id r)) (rewrite current)).

Definition runtime_generation (h : heap) (m : Z) : Z := generation (snapshot h m).

Definition shares_runtime_with (rewrite_manager map_manager : Z) : bool :=
  bool_decide (rewrite_manager = map_manager).

(** *** Map manager *)

Definition map_same_id (id : str) (e : CompiledMapRule) : bool :=
  bool_decide (map_id (cm_rule e) = id).

Definition map_set_rules (h : heap) (m : Z) (rules : list MapRule) : heap :=
  replace_map h m (compile_map_rules (map (fun r => (r, None)) rules)).

Definition map_set_rules_with_host_locks (h : heap) (m : Z) (rules : list (MapRule * option str))
    : heap := replace_map h m (compile_map_rules rules).

Definition map_list_rules (h : heap) (m : Z) : list MapRule :=
  map cm_rule (map_rules (snapshot h m)).

Definition map_list_rules_with_host_locks (h : heap) (m : Z) : list (MapRule * option str) :=
  map (fun e => (cm_rule e, cm_host_lock e)) (map_rules (snapshot h m)).

Definition map_save_rule (h : heap) (m : Z) (rule : MapRule) : heap :=
  let current := map_rules (snapshot h m) in
  let host_lock := find_first (map_same_id (map_id rule)) current ≫= cm_host_lock in
  replace_map h m
    (upsert (map_same_id (map_id rule)) {| cm_rule := rule; cm_host_lock := host_lock |} current).

Definition map_save_rule_with_host_lock (h : heap) (m : Z) (rule : MapRule) (host_lock : str)
    : heap :=
  let current := map_rules (snapshot h m) in
  replace_map h m
    (upsert (map_same_id (map_id rule)) {| cm_rule := rule; cm_host_lock := Some host_lock |}
       current).

Definition map_delete_rule (h : heap) (m : Z) (rule_id : str) : heap :=
  let current := map_rules (snapshot h m) in
  replace_map h m (List.filter (fun e => negb (map_same_id rule_id e)) current).

End Managers.

Arguments CompiledRewriteRule {_} number.
Arguments RuntimeRuleSnapshot {_} number.

(** *** Throttle manager *)

Record ThrottleManager := {
  profiles : list ThrottleProfileData;
  throttle_rules : list ThrottleRuleData;
  stats : ThrottleRuntimeStats
}.

Definition new_throttle_manager : ThrottleManager :=
  {| profiles := []; throttle_rules := [];
     stats := {| dropped_requests := 0; matched_requests := 0; request_delay_ms := 0;
                 response_delay_ms := 0 |} |}.

Definition with_profiles (m : ThrottleManager) p : ThrottleManager :=
  {| profiles := p; throttle_rules := throttle_rules m; stats := stats m |}.

Definition with_throttle_rules (m : ThrottleManager) r : ThrottleManager :=
  {| profiles := profiles m; throttle_rules := r; stats := stats m |}.

Definition set_profiles (m : ThrottleManager) p : ThrottleManager := with_profiles m p.

Definition save_profile (m : ThrottleManager) (p : ThrottleProfileData) : ThrottleManager :=
  with_profiles m (upsert (fun q => bool_decide (tp_id q = tp_id p)) p (profiles m)).

Definition delete_profile (m : ThrottleManager) (id : str) : ThrottleManager :=
  with_profiles m (List.filter (fun q => negb (bool_decide (tp_id q = id))) (profiles m)).

Definition throttle_set_rules (m : ThrottleManager) r : ThrottleManager := with_throttle_rules m r.

Definition throttle_save_rule (m : ThrottleManager) (r : ThrottleRuleData) : ThrottleManager :=
  with_throttle_rules m (upsert (fun q => bool_decide (tr_id q = tr_id r)) r (throttle_rules m)).

Definition throttle_delete_rule (m : ThrottleManager) (id : str) : ThrottleManager :=
  with_throttle_rules m
    (List.filter (fun q => negb (bool_decide (tr_id q = id))) (throttle_rules m)).

Definition with_enabled (p : ThrottleProfileData) (e : bool) : ThrottleProfileData :=
  {| tp_id := tp_id p; tp_download_kbps := tp_download_kbps p; tp_enabled := e;
     tp_latency_ms := tp_latency_ms p; tp_name := tp_name p; tp_note := tp_note p;
     tp_packet_loss_ratio := tp_packet_loss_ratio p; tp_preset := tp_preset p;
     tp_upload_kbps := tp_upload_kbps p; tp_workspace_id := tp_workspace_id p |}.

Definition set_active_profile (m : ThrottleManager) (workspace_id : str)
    (profile_id : option str) : ThrottleManager :=
  with_profiles m
    (map (fun p =>
       if bool_decide (tp_workspace_id p = workspace_id) then
         with_enabled p (match profile_id with
                         | Some id => bool_decide (tp_id p = id)
                         | None => false
                         end)
       else p) (profiles m)).

Definition record_trace (m : ThrottleManager) (t : ThrottleTrace) : ThrottleManager :=
  let s := stats m in
  let matched := sat_add64 (matched_requests s) 1 in
  let s' :=
    if bool_decide (tt_stage t = lit "request") then
      {| dropped_requests :=
           if bool_decide (tt_outcome t = lit "dropped")
           then sat_add64 (dropped_requests s) 1 else dropped_requests s;
         matched_requests := matched;
         request_delay_ms := sat_add64 (request_delay_ms s) (tt_delay_ms t);
         response_delay_ms := response_delay_ms s |}
    else
      {| dropped_requests := dropped_requests s; matched_requests := matched;
         request_delay_ms := request_delay_ms s;
         response_delay_ms := sat_add64 (response_delay_ms s) (tt_delay_ms t) |} in
  {| profiles := profiles m; throttle_rules := throttle_rules m; stats := s' |}.

(** *** DNS manager *)

Record DnsMappingRule := {
  dns_id : str;
  dns_enabled : bool;
  dns_name : str;
  dns_note : option str;
  dns_priority : Z;
  dns_host_pattern : str;
  dns_target_ip : str;
  dns_match_type : option str;
  dns_workspace_id : str
}.

Definition new_dns_manager : list DnsMappingRule := [].

Definition dns_set_rules (m rules : list DnsMappingRule) : list DnsMappingRule := rules.

Definition dns_save_rule (rules : list DnsMappingRule) (r : DnsMappingRule)
    : list DnsMappingRule :=
  upsert (fun q => bool_decide (dns_id q = dns_id r)) r rules.

Definition dns_delete_rule (rules : list DnsMappingRule) (id : str) : list DnsMappingRule :=
  List.filter (fun q => negb (bool_decide (dns_id q = id))) rules.

(** ** Lemmas and properties: the shared runtime *)

Section Runtime.
  Context `{RegexEngine} {number : Type}.

(** Every public operation of the two managers, as a value. *)
Inductive Op :=
  | RwSet (rules : list (RewriteRule number))
  | RwSetLocks (rules : list (RewriteRule number * option str))
  | Publish (rw : list (RewriteRule number * option str)) (mp : list (MapRule * option str)) (gen : Z)
  | RwSave (rule : RewriteRule number)
  | RwSaveLock (rule : RewriteRule number) (host : str)
  | RwDelete (id : str)
  | MpSet (rules : list MapRule)
  | MpSetLocks (rules : list (MapRule * option str))
  | MpSave (rule : MapRule)
  | MpSaveLock (rule : MapRule) (host : str)
  | MpDelete (id : str).

Definition run_op (m : Z) (h : gmap Z (RuntimeRuleSnapshot number)) (op : Op)
    : gmap Z (RuntimeRuleSnapshot number) :=
  match op with
  | RwSet rules => rewrite_set_rules h m rules
  | RwSetLocks rules => rewrite_set_rules_with_host_locks h m rules
  | Publish rw mp gen => publish_rules_atomic h m rw mp gen
  | RwSave rule => rewrite_save_rule h m rule
  | RwSaveLock rule host => rewrite_save_rule_with_host_lock h m rule host
  | RwDelete id => rewrite_delete_rule h m id
  | MpSet rules => map_set_rules h m rules
  | MpSetLocks rules => map_set_rules_with_host_locks h m rules
  | MpSave rule => map_save_rule h m rule
  | MpSaveLock rule host => map_save_rule_with_host_lock h m rule host
  | MpDelete id => map_delete_rule h m id
  end.

Definition run_ops (m : Z) (h : gmap Z (RuntimeRuleSnapshot number)) (ops : list Op)
    : gmap Z (RuntimeRuleSnapshot number) := fold_left (run_op m) ops h.

(** The host lock of a stored rewrite rule, resp. map rule. *)
Definition lock_of (h : gmap Z (RuntimeRuleSnapshot number)) (m : Z) (id : str)
    : option (option str) :=
  cr_host_lock <$> find_first (same_id id) (rewrite (snapshot h m)).
Definition map_lock_of (h : gmap Z (RuntimeRuleSnapshot number)) (m : Z) (id : str)
    : option (option str) :=
  cm_host_lock <$> find_first (map_same_id id) (map_rules (snapshot h m)).

Definition rewrite_ids (h : gmap Z (RuntimeRuleSnapshot number)) (m : Z) : list str :=
  map (fun e => rw_id (cr_rule e)) (rewrite (snapshot h m)).
Definition map_ids (h : gmap Z (RuntimeRuleSnapshot number)) (m : Z) : list str :=
  map (fun e => map_id (cm_rule e)) (map_rules (snapshot h m)).

Lemma snapshot_insert (h : gmap Z (RuntimeRuleSnapshot number)) m s : snapshot (<[m := s]> h) m = s.
Proof. unfold snapshot. by rewrite lookup_insert_eq. Qed.

Lemma same_id_key : same_id (number := number) = has_key (fun e => rw_id (cr_rule e)).
Proof. reflexivity. Qed.

Lemma map_same_id_key : map_same_id = has_key (fun e => map_id (cm_rule e)).
Proof. reflexivity. Qed.

Lemma snapshot_store (h : gmap Z (RuntimeRuleSnapshot number)) m rule u :
  snapshot (store_rule h m rule u) m =
    {| generation := sat_add64 (generation (snapshot h m)) 1;
       rewrite := stored (rewrite (snapshot h m)) rule u; map_rules := map_rules (snapshot h m) |}.
Proof. apply snapshot_insert. Qed.

(** The lock of the rule just stored, and of the others. *)
Lemma stored_lookup l (rule : RewriteRule number) u :
  find_first (same_id (rw_id rule)) (stored l rule u) =
    Some (compile_rewrite_rule rule
            match u with
            | Set_ host => Some host
            | Preserve => find_first (same_id (rw_id rule)) l ≫= cr_host_lock
            end).
Proof.
  unfold stored. rewrite same_id_key.
  apply (find_first_upsert_same (fun e => rw_id (cr_rule e)) (compile_rewrite_rule rule _)).
Qed.

Lemma stored_lookup_other l (rule : RewriteRule number) u id :
  id ≠ rw_id rule → find_first (same_id id) (stored l rule u) = find_first (same_id id) l.
Proof.
  intros Hne. unfold stored. rewrite same_id_key.
  by apply (find_first_upsert_other (fun e => rw_id (cr_rule e)) id (compile_rewrite_rule rule _)).
Qed.

(** The operations that may drop or replace the lock of rewrite rule [id]. *)
Definition touches_lock (id : str) (op : Op) : bool :=
  match op with
  | RwSet _ | RwSetLocks _ | Publish _ _ _ => true
  | RwSaveLock rule _ => bool_decide (rw_id rule = id)
  | RwDelete id' => bool_decide (id' = id)
  | _ => false
  end.

Lemma run_op_lock m h op id :
  touches_lock id op = false → is_Some (lock_of h m id) →
  lock_of (run_op m h op) m id = lock_of h m id.
Proof.
  intros Ht [lk Hl]. unfold lock_of in *.
  destruct op as [| | |rule|rule host|id'| | |rule|rule host|id']; cbn [run_op touches_lock] in *;
    try done; try (unfold map_set_rules, map_set_rules_with_host_locks, map_save_rule,
      map_save_rule_with_host_lock, map_delete_rule, replace_map; by rewrite snapshot_insert).
  - unfold rewrite_save_rule. rewrite snapshot_store. cbn [rewrite].
    destruct (decide (id = rw_id rule)) as [->|Hne].
    + rewrite stored_lookup. cbn. destruct (find_first _ _); [|done]. by simplify_eq/=.
    + by rewrite stored_lookup_other.
  - breflect. unfold rewrite_save_rule_with_host_lock. rewrite snapshot_store. cbn [rewrite].
    by rewrite stored_lookup_other by congruence.
  - breflect. unfold rewrite_delete_rule. destruct (existsb _ _); cbn [negb]; [|done].
    unfold replace_rewrite. rewrite snapshot_insert. cbn [rewrite]. rewrite same_id_key.
    by rewrite find_first_remove_other by congruence.
Qed.

Lemma run_ops_lock m h ops id :
  Forall (fun op => touches_lock id op = false) ops → is_Some (lock_of h m id) →
  lock_of (run_ops m h ops) m id = lock_of h m id.
Proof.
  unfold run_ops. revert h. induction ops as [|op ops IH]; intros h Hops Hl; [done|].
  apply List.Forall_cons_iff in Hops as [Hop Hops]. cbn [fold_left].
  pose proof (run_op_lock m h op id Hop Hl) as He. rewrite IH; [done | done | by rewrite He].
Qed.

(** Operations that install a caller's list keep ids unique when the list is. *)
Definition op_ids_ok (op : Op) : Prop :=
  match op with
  | RwSet rules => NoDup (rw_id <$> rules)
  | RwSetLocks rules => NoDup ((fun e => rw_id e.1) <$> rules)
  | Publish rw mp _ => NoDup ((fun e => rw_id e.1) <$> rw) ∧ NoDup ((fun e => map_id e.1) <$> mp)
  | MpSet rules => NoDup (map_id <$> rules)
  | MpSetLocks rules => NoDup ((fun e => map_id e.1) <$> rules)
  | _ => True
  end.

Lemma compile_rewrite_ids (rules : list (RewriteRule number * option str)) :
  map (fun e => rw_id (cr_rule e)) (compile_rewrite_rules rules) = (fun e => rw_id e.1) <$> rules.
Proof. unfold compile_rewrite_rules. by rewrite map_map. Qed.

Lemma compile_map_ids rules :
  map (fun e => map_id (cm_rule e)) (compile_map_rules rules) = (fun e => map_id e.1) <$> rules.
Proof. unfold compile_map_rules. by rewrite map_map. Qed.

Lemma run_op_ids m h op :
  op_ids_ok op → NoDup (rewrite_ids h m) → NoDup (map_ids h m) →
  NoDup (rewrite_ids (run_op m h op) m) ∧ NoDup (map_ids (run_op m h op) m).
Proof.
  unfold rewrite_ids, map_ids. intros Hok Hr Hm.
  destruct op as [rules|rules|rw mp gen|rule|rule host|id|rules|rules|rule|rule host|id];
    cbn [run_op op_ids_ok] in *.
  - unfold rewrite_set_rules, replace_rewrite. rewrite snapshot_insert. cbn.
    rewrite compile_rewrite_ids. split; [|done]. by rewrite <- list_fmap_compose.
  - unfold rewrite_set_rules_with_host_locks, replace_rewrite. rewrite snapshot_insert. cbn.
    by rewrite compile_rewrite_ids.
  - unfold publish_rules_atomic, publish. rewrite snapshot_insert. cbn.
    by rewrite compile_rewrite_ids, compile_map_ids.
  - unfold rewrite_save_rule. rewrite snapshot_store. cbn. split; [|done].
    by apply (upsert_nodup (fun e => rw_id (cr_rule e)) (compile_rewrite_rule rule _)).
  - unfold rewrite_save_rule_with_host_lock. rewrite snapshot_store. cbn. split; [|done].
    by apply (upsert_nodup (fun e => rw_id (cr_rule e)) (compile_rewrite_rule rule _)).
  - unfold rewrite_delete_rule. destruct (negb _); [done|]. unfold replace_rewrite.
    rewrite snapshot_insert. cbn. split; [|done].
    by apply (remove_nodup (fun e => rw_id (cr_rule e))).
  - unfold map_set_rules, replace_map. rewrite snapshot_insert. cbn.
    rewrite compile_map_ids. split; [done|]. by rewrite <- list_fmap_compose.
  - unfold map_set_rules_with_host_locks, replace_map. rewrite snapshot_insert. cbn.
    by rewrite compile_map_ids.
  - unfold map_save_rule, replace_map. rewrite snapshot_insert. cbn. split; [done|].
    by apply (upsert_nodup (fun e => map_id (cm_rule e)) {| cm_rule := rule; cm_host_lock := _ |}).
  - unfold map_save_rule_with_host_lock, replace_map. rewrite snapshot_insert. cbn. split; [done|].
    by apply (upsert_nodup (fun e => map_id (cm_rule e)) {| cm_rule := rule; cm_host_lock := _ |}).
  - unfold map_delete_rule, replace_map. rewrite snapshot_insert. cbn. split; [done|].
    by apply (remove_nodup (fun e => map_id (cm_rule e))).
Qed.

Lemma run_ops_ids m h ops :
  Forall op_ids_ok ops → NoDup (rewrite_ids h m) → NoDup (map_ids h m) →
  NoDup (rewrite_ids (run_ops m h ops) m) ∧ NoDup (map_ids (run_ops m h ops) m).
Proof.
  unfold run_ops. revert h. induction ops as [|op ops IH]; intros h Hops Hr Hm; [done|].
  apply List.Forall_cons_iff in Hops as [Hop Hops]. cbn [fold_left].
  destruct (run_op_ids m h op Hop Hr Hm). by apply IH.
Qed.

(** *** Properties *)

(** The host lock of an Agent rule survives editing.  Once a rewrite rule is
    saved with a host lock, no sequence of plain saves (of that rule or any
    other), deletions of other rules and map rule operations changes the lock;
    only an explicit lock, a deletion or a wholesale replacement can. *)
Theorem host_lock_survives_edits m h rule host ops :
  Forall (fun op => touches_lock (rw_id rule) op = false) ops →
  lock_of (run_ops m (rewrite_save_rule_with_host_lock h m rule host) ops) m (rw_id rule)
    = Some (Some host).
Proof.
  intros Hops.
  assert (lock_of (rewrite_save_rule_with_host_lock h m rule host) m (rw_id rule)
    = Some (Some host)) as Hl.
  { unfold lock_of, rewrite_save_rule_with_host_lock. rewrite snapshot_store. cbn [rewrite].
    by rewrite stored_lookup. }
  rewrite run_ops_lock; [done | done | by rewrite Hl].
Qed.

(** Rule ids stay unique.  Starting from a fresh pair of managers, after any
    sequence of their operations (the wholesale replacements given lists with
    unique ids) no two rewrite rules and no two map rules share an id. *)
Theorem rule_ids_unique m h ops :
  Forall op_ids_ok ops →
  NoDup (rewrite_ids (run_ops m (new_runtime h m) ops) m) ∧
  NoDup (map_ids (run_ops m (new_runtime h m) ops) m).
Proof.
  intros Hops. unfold rewrite_ids, map_ids. apply run_ops_ids; [done|..];
    unfold rewrite_ids, map_ids, new_runtime; rewrite snapshot_insert; constructor.
Qed.

(** Saving a rule.  The saved rule is found under its id with the regex
    compiled from its own pattern, every other rule keeps its value, a new rule
    goes last, the map rules are untouched, other runtimes are untouched, and
    the generation advances. *)
Theorem store_rule_spec h m rule u :
  let s := snapshot h m in
  let s' := snapshot (store_rule h m rule u) m in
  (∃ lk, find_first (same_id (rw_id rule)) (rewrite s') = Some (compile_rewrite_rule rule lk)) ∧
  (∀ id, id ≠ rw_id rule →
     find_first (same_id id) (rewrite s') = find_first (same_id id) (rewrite s)) ∧
  rewrite_ids (store_rule h m rule u) m =
    (if bool_decide (rw_id rule ∈ rewrite_ids h m) then rewrite_ids h m
     else rewrite_ids h m ++ [rw_id rule]) ∧
  map_rules s' = map_rules s ∧ generation s' = sat_add64 (generation s) 1 ∧
  ∀ m', m' ≠ m → snapshot (store_rule h m rule u) m' = snapshot h m'.
Proof.
  cbv zeta. unfold rewrite_ids. rewrite !snapshot_store. cbn [rewrite map_rules generation].
  split_and!; [|intros; by apply stored_lookup_other| |done|done|].
  - rewrite stored_lookup. eauto.
  - unfold stored. rewrite same_id_key.
    apply (keys_upsert (fun e => rw_id (cr_rule e)) (compile_rewrite_rule rule _)).
  - intros m' Hm'. unfold store_rule, replace_rewrite, snapshot. by rewrite lookup_insert_ne.
Qed.

(** Saving is not atomic.  [store_rule] reads the snapshot and installs the
    new list in two separate lock regions: when a second save runs between
    them, its rule is lost. *)
Theorem store_rule_lost_update h m r1 r2 :
  rewrite_ids h m = [] → rw_id r1 ≠ rw_id r2 →
  let read_by_first := rewrite (snapshot h m) in
  let h2 := rewrite_save_rule h m r2 in
  let h12 := replace_rewrite h2 m (stored read_by_first r1 Preserve) in
  rewrite_list_rules h2 m = [r2] ∧ rewrite_list_rules h12 m = [r1].
Proof.
  unfold rewrite_ids. intros He Hne. apply map_eq_nil in He. cbv zeta.
  unfold rewrite_list_rules, rewrite_save_rule, replace_rewrite.
  by rewrite snapshot_store, snapshot_insert, He.
Qed.

End Runtime.

(** A concrete rule, for the witnesses. *)
Definition demo_rule (id : str) : RewriteRule Z :=
  {| rw_actions := None; rw_id := id; rw_enabled := true; rw_name := id; rw_note := None;
     rw_priority := 0;
     rw_match := {| rm_methods := []; rm_stage := lit "request"; rm_url_pattern := lit "*";
                    rm_match_type := None |};
     rw_rewrite_type := lit "header"; rw_workspace_id := lit "w"; rw_payload := Null |}.

#[local] Existing Instance no_regex.

Lemma host_lock_survives_edits_witness :
  lock_of (run_ops 1 (rewrite_save_rule_with_host_lock ∅ 1 (demo_rule (lit "a")) (lit "h"))
             [RwSave (demo_rule (lit "a")); RwDelete (lit "b"); MpDelete (lit "a")]) 1 (lit "a")
    = Some (Some (lit "h")).
Proof.
  apply (host_lock_survives_edits 1 ∅ (demo_rule (lit "a")) (lit "h")).
  repeat constructor.
Defined.

Lemma rule_ids_unique_witness :
  NoDup (rewrite_ids (run_ops 1 (new_runtime ∅ 1)
    [RwSet [demo_rule (lit "a"); demo_rule (lit "b")]; RwSave (demo_rule (lit "a"))]) 1) ∧
  NoDup (map_ids (run_ops 1 (new_runtime ∅ 1)
    [RwSet [demo_rule (lit "a"); demo_rule (lit "b")]; RwSave (demo_rule (lit "a"))]) 1).
Proof.
  apply rule_ids_unique. constructor; [|constructor; [exact I | constructor]].
  cbn. apply NoDup_cons. split; [|apply NoDup_singleton].
  intros Hin. apply list_elem_of_singleton in Hin. discriminate.
Defined.

Lemma store_rule_lost_update_witness :
  let h : gmap Z (RuntimeRuleSnapshot Z) := new_runtime ∅ 1 in
  let h2 := rewrite_save_rule h 1 (demo_rule (lit "b")) in
  let h12 := replace_rewrite h2 1 (stored (rewrite (snapshot h 1)) (demo_rule (lit "a")) Preserve) in
  rewrite_list_rules h2 1 = [demo_rule (lit "b")] ∧
  rewrite_list_rules h12 1 = [demo_rule (lit "a")].
Proof.
  apply (store_rule_lost_update (new_runtime ∅ 1) 1 (demo_rule (lit "a")) (demo_rule (lit "b"))).
  - reflexivity.
  - discriminate.
Defined.
