(* ===== verification/RuleSelection.v ===== *)
(** * RuleSelection: which rules apply to a request (proxy-core/src/rules/mod.rs)

    The script manager is modelled by the fields selection reads. *)

From S2P Require Import Prelude Str Patterns JsonPath HostPattern RuleTypes RuleManagers.

(** ** Definitions *)

Section Selection.
  Context `{RegexEngine} {number : Type}.

(** The filters of [active_rewrite_rules_for_snapshot], in order. *)
Definition rewrite_eligible (workspace_id stage : str) (request : RequestView)
    (cr : CompiledRewriteRule number) : bool :=
  let r := cr_rule cr in
  rw_enabled r
  && bool_decide (rw_workspace_id r = workspace_id)
  && rule_stage_matches (rm_stage (rw_match r)) stage
  && method_matches (rm_methods (rw_match r)) (rq_method request)
  && host_lock_matches (cr_host_lock cr) (rq_host request)
  && compiled_pattern_matches (cr_compiled_match cr) (rm_url_pattern (rw_match r))
       (rq_url request) (rm_match_type (rw_match r)).

Definition active_rewrite_rules_for_snapshot (s : RuntimeRuleSnapshot number)
    (workspace_id stage : str) (request : RequestView) : list (RewriteRule number) :=
  map cr_rule
    (sort_desc (fun cr => rw_priority (cr_rule cr))
       (List.filter (rewrite_eligible workspace_id stage request) (rewrite s))).

Definition active_rewrite_rules_for_stage (h : gmap Z (RuntimeRuleSnapshot number))
    (rewrite_manager : option Z) (workspace_id stage : str) (request : RequestView)
    : list (RewriteRule number) :=
  match rewrite_manager with
  | None => []
  | Some m => active_rewrite_rules_for_snapshot (snapshot h m) workspace_id stage request
  end.

Definition map_eligible (workspace_id : str) (request : RequestView) (e : CompiledMapRule) : bool :=
  map_enabled (cm_rule e)
  && bool_decide (map_workspace_id (cm_rule e) = workspace_id)
  && host_lock_matches (cm_host_lock e) (rq_host request)
  && pattern_matches (map_source_pattern (cm_rule e)) (rq_url request) (map_match_type (cm_rule e)).

Definition active_map_rule_for_snapshot (s : RuntimeRuleSnapshot number) (workspace_id : str)
    (request : RequestView) : option MapRule :=
  hd_error (sort_desc map_priority
    (map cm_rule (List.filter (map_eligible workspace_id request) (map_rules s)))).

Definition active_map_rule_for_request (h : gmap Z (RuntimeRuleSnapshot number))
    (map_manager : option Z) (workspace_id : str) (request : RequestView) : option MapRule :=
  match map_manager with
  | None => None
  | Some m => active_map_rule_for_snapshot (snapshot h m) workspace_id request
  end.

(** The compiled script rule, as selection sees it. *)
Record CompiledScriptRule := {
  sc_enabled : bool;
  sc_workspace_id : str;
  sc_match : RewriteRuleMatch;
  sc_priority : Z;
  sc_compiled_match : option regex
}.

Definition active_script_rules_for_stage (rules : option (list CompiledScriptRule))
    (workspace_id stage : str) (request : RequestView) : list CompiledScriptRule :=
  match rules with
  | None => []
  | Some rules =>
      sort_desc sc_priority
        (List.filter (fun r =>
           sc_enabled r && bool_decide (sc_workspace_id r = workspace_id)
           && rule_stage_matches (rm_stage (sc_match r)) stage
           && method_matches (rm_methods (sc_match r)) (rq_method request)
           && compiled_pattern_matches (sc_compiled_match r) (rm_url_pattern (sc_match r))
                (rq_url request) (rm_match_type (sc_match r))) rules)
  end.

Definition active_throttle_profile_for_workspace (tm : option ThrottleManager)
    (workspace_id : str) : option ThrottleProfileData :=
  match tm with
  | None => None
  | Some m =>
      find_first (fun p => bool_decide (tp_workspace_id p = workspace_id) && tp_enabled p)
        (profiles m)
  end.

Definition throttle_selection_matches_stage (s : ThrottleRuntimeSelection) (stage : str) : bool :=
  match sel_rule s with Some r => rule_stage_matches (tr_stage r) stage | None => true end.

Definition throttle_eligible (workspace_id : str) (request : RequestView) (r : ThrottleRuleData)
    : bool :=
  tr_enabled r
  && bool_decide (tr_workspace_id r = workspace_id)
  && (rule_stage_matches (tr_stage r) (lit "request")
      || rule_stage_matches (tr_stage r) (lit "response"))
  && method_matches (tr_methods r) (rq_method request)
  && pattern_matches (tr_url_pattern r) (rq_url request) (tr_match_type r).

(** The enabled profile a targeted rule refers to. *)
Definition rule_profile (workspace_id : str) (ps : list ThrottleProfileData)
    (r : ThrottleRuleData) : option ThrottleRuntimeSelection :=
  (fun p => {| sel_profile := p; sel_rule := Some r |}) <$>
    find_first (fun p => bool_decide (tp_workspace_id p = workspace_id)
                         && bool_decide (tp_id p = tr_profile_id r) && tp_enabled p) ps.

Definition active_throttle_selection_for_request (tm : option ThrottleManager)
    (workspace_id : str) (request : RequestView) : option ThrottleRuntimeSelection :=
  match tm with
  | None => None
  | Some m =>
      let rules := sort_desc tr_priority
        (List.filter (throttle_eligible workspace_id request) (throttle_rules m)) in
      match find_map (rule_profile workspace_id (profiles m)) rules with
      | Some s => Some s
      | None =>
          (fun p => {| sel_profile := p; sel_rule := None |}) <$>
            active_throttle_profile_for_workspace tm workspace_id
      end
  end.

Definition dns_eligible (workspace_id hostname : str) (r : DnsMappingRule) : bool :=
  dns_enabled r && bool_decide (dns_workspace_id r = workspace_id)
  && pattern_matches (dns_host_pattern r) hostname (dns_match_type r).

Definition resolve_dns_override (rules : option (list DnsMappingRule)) (workspace_id hostname : str)
    : option IpAddr :=
  match rules with
  | None => None
  | Some rules =>
      find_map (fun r => parse_ip (dns_target_ip r))
        (sort_desc dns_priority (List.filter (dns_eligible workspace_id hostname) rules))
  end.

Definition capture_rule_snapshot (h : gmap Z (RuntimeRuleSnapshot number))
    (rewrite_manager map_manager : option Z) : RuntimeRuleSnapshot number :=
  let separate :=
    let rw := match rewrite_manager with Some m => snapshot h m | None => empty_snapshot end in
    let mp := match map_manager with Some m => snapshot h m | None => empty_snapshot end in
    {| generation := Z.min (generation rw) (generation mp); rewrite := rewrite rw;
       map_rules := map_rules mp |} in
  match rewrite_manager, map_manager with
  | Some rw, Some mp => if shares_runtime_with rw mp then snapshot h rw else separate
  | _, _ => separate
  end.

(** [host_header_value] of a URL's host and port. *)
Definition host_header_value (host : option str) (port : option Z) : str :=
  match port with
  | Some port => default [] host ++ lit ":" ++ show port
  | None => default [] host
  end.

(** ** Lemmas *)

Lemma elem_of_list_filter {A} (p : A → bool) x l : x ∈ List.filter p l ↔ p x = true ∧ x ∈ l.
Proof. rewrite !list_elem_of_In, filter_In. tauto. Qed.

Lemma map_pair_eta {A B} (l : list (A * B)) : map (fun x => (x.1, x.2)) l = l.
Proof. rewrite <- (List.map_id l) at 2. apply map_ext. by intros []. Qed.

Lemma filter_map_comm {A B} (f : A → B) (p : B → bool) l :
  List.filter p (map f l) = map f (List.filter (fun x => p (f x)) l).
Proof. induction l as [|x l IH]; cbn; [done|]. destruct (p (f x)); cbn; by rewrite IH. Qed.

Lemma rule_profile_enabled ws ps r s :
  rule_profile ws ps r = Some s →
  sel_profile s ∈ ps ∧ tp_enabled (sel_profile s) = true ∧
  tp_workspace_id (sel_profile s) = ws ∧ tp_id (sel_profile s) = tr_profile_id r ∧
  sel_rule s = Some r.
Proof.
  unfold rule_profile. destruct (find_first _ ps) as [p|] eqn:Hf; [|done]. intros [= <-]. cbn.
  apply find_first_Some in Hf as (l1 & l2 & -> & Hp & _). breflect. set_solver.
Qed.

(** ** Properties *)

(** The order of rewrite rules.  The rules applied to a request are exactly
    the eligible ones, highest priority first, and rules of equal priority keep
    the order in which they are stored. *)
Theorem active_rewrite_rules_order s ws stage rq :
  let eligible := map cr_rule (List.filter (rewrite_eligible ws stage rq) (rewrite s)) in
  active_rewrite_rules_for_snapshot s ws stage rq ≡ₚ eligible ∧
  descending rw_priority (active_rewrite_rules_for_snapshot s ws stage rq) ∧
  ∀ p, List.filter (fun r => rw_priority r =? p) (active_rewrite_rules_for_snapshot s ws stage rq)
       = List.filter (fun r => rw_priority r =? p) eligible.
Proof.
  cbv zeta. unfold active_rewrite_rules_for_snapshot. split_and!.
  - by rewrite sort_desc_perm.
  - pose proof (sort_desc_descending (fun cr => rw_priority (cr_rule cr))
      (List.filter (rewrite_eligible ws stage rq) (rewrite s))) as Hd.
    induction (sort_desc _ _) as [|x l IH]; [done|]. cbn in *. destruct Hd as [Hx Hl].
    split; [|by apply IH]. apply Forall_fmap. exact Hx.
  - intros p. rewrite !filter_map_comm. f_equal. apply sort_desc_stable.
Qed.

(** The host lock is a boundary.  A host-locked rewrite or map rule is never
    applied to a request for another host, whatever its pattern, priority and
    match type. *)
Theorem host_lock_is_boundary s ws stage rq :
  (∀ r, r ∈ active_rewrite_rules_for_snapshot s ws stage rq →
     ∃ cr, cr ∈ rewrite s ∧ cr_rule cr = r ∧
       ∀ locked, cr_host_lock cr = Some locked → eq_ignore_ascii_case locked (rq_host rq) = true) ∧
  (∀ r, active_map_rule_for_snapshot s ws rq = Some r →
     ∃ e, e ∈ map_rules s ∧ cm_rule e = r ∧
       ∀ locked, cm_host_lock e = Some locked → eq_ignore_ascii_case locked (rq_host rq) = true).
Proof.
  split; intros r Hr.
  - apply list_elem_of_fmap in Hr as (cr & -> & Hcr). rewrite sort_desc_elem in Hcr.
    apply elem_of_list_filter in Hcr as [He Hin]. exists cr. split_and!; [done..|].
    intros locked Hl. unfold rewrite_eligible in He. breflect. by rewrite Hl in *.
  - unfold active_map_rule_for_snapshot in Hr. apply hd_error_some_nil in Hr as Hne.
    assert (r ∈ map cm_rule (List.filter (map_eligible ws rq) (map_rules s))) as Hin.
    { rewrite <- (sort_desc_elem map_priority). destruct (sort_desc _ _); [done|].
      injection Hr as ->. set_solver. }
    apply list_elem_of_fmap in Hin as (e & -> & He). apply elem_of_list_filter in He as [He Hin].
    exists e. split_and!; [done..|]. intros locked Hl. unfold map_eligible in He. breflect.
    by rewrite Hl in *.
Qed.

(** The chosen map rule is the first of the highest-priority eligible rules,
    and there is none exactly when no rule is eligible. *)
Theorem active_map_rule_first_highest s ws rq :
  let eligible := map cm_rule (List.filter (map_eligible ws rq) (map_rules s)) in
  match active_map_rule_for_snapshot s ws rq with
  | Some r => first_highest map_priority eligible r
  | None => eligible = []
  end.
Proof.
  cbv zeta. unfold active_map_rule_for_snapshot.
  pose proof (sort_desc_head map_priority
    (map cm_rule (List.filter (map_eligible ws rq) (map_rules s)))) as Hh.
  destruct (sort_desc _ _); exact Hh.
Qed.

(** Throttling off means off.  A selected profile is always an enabled profile
    of the workspace; after [set_active_profile(ws, None)] no request of that
    workspace is throttled, whatever targeted rules exist. *)
Theorem throttle_selection_enabled m ws rq :
  (∀ s, active_throttle_selection_for_request (Some m) ws rq = Some s →
     sel_profile s ∈ profiles m ∧ tp_enabled (sel_profile s) = true ∧
     tp_workspace_id (sel_profile s) = ws) ∧
  active_throttle_selection_for_request (Some (set_active_profile m ws None)) ws rq = None.
Proof.
  assert (∀ m s, active_throttle_selection_for_request (Some m) ws rq = Some s →
     sel_profile s ∈ profiles m ∧ tp_enabled (sel_profile s) = true ∧
     tp_workspace_id (sel_profile s) = ws) as Hsel.
  { clear m. intros m s. unfold active_throttle_selection_for_request.
    destruct (find_map _ _) as [s'|] eqn:Hf.
    - intros [= <-]. apply find_map_Some in Hf as (l1 & r & l2 & _ & Hr & _).
      apply rule_profile_enabled in Hr. naive_solver.
    - unfold active_throttle_profile_for_workspace.
      destruct (find_first _ _) as [p|] eqn:Hp; [|done]. intros [= <-]. cbn.
      apply find_first_Some in Hp as (l1 & l2 & -> & Hp & _). breflect. set_solver. }
  split; [by apply Hsel|].
  destruct (active_throttle_selection_for_request _ ws rq) as [s|] eqn:Hs; [|done]. exfalso.
  apply Hsel in Hs as (Hin & Hen & Hws). unfold set_active_profile in Hin. cbn in Hin.
  apply list_elem_of_fmap in Hin as (p & Hp & _).
  destruct (decide (tp_workspace_id p = ws)) as [He|He].
  - rewrite bool_decide_true in Hp by done. rewrite Hp in Hen. done.
  - rewrite bool_decide_false in Hp by done. congruence.
Qed.

(** The DNS override is the target of an eligible rule with a parseable
    address, all rules of higher priority (and the earlier ones of the same
    priority) being eligible-but-unparseable; without such a rule there is no
    override. *)
Theorem dns_override_spec rules ws host :
  let sorted := sort_desc dns_priority (List.filter (dns_eligible ws host) rules) in
  match resolve_dns_override (Some rules) ws host with
  | Some ip => ∃ before r after, sorted = before ++ r :: after ∧ r ∈ rules ∧
      dns_eligible ws host r = true ∧ parse_ip (dns_target_ip r) = Some ip ∧
      (∀ r', r' ∈ before → parse_ip (dns_target_ip r') = None) ∧
      (∀ r', r' ∈ rules → dns_eligible ws host r' = true → dns_priority r < dns_priority r' →
         parse_ip (dns_target_ip r') = None)
  | None => ∀ r, r ∈ rules → dns_eligible ws host r = true → parse_ip (dns_target_ip r) = None
  end.
Proof.
  cbv zeta. unfold resolve_dns_override.
  set (l := List.filter (dns_eligible ws host) rules).
  pose proof (sort_desc_descending dns_priority l) as Hd.
  destruct (find_map _ (sort_desc dns_priority l)) as [ip|] eqn:Hf.
  - apply find_map_Some in Hf as (before & r & after & Hs & Hr & Hb). rewrite Forall_forall in Hb.
    assert (r ∈ l) as Hin by (rewrite <- (sort_desc_elem dns_priority), Hs; set_solver).
    apply elem_of_list_filter in Hin as [He Hin]. exists before, r, after.
    split_and!; try done. intros r' Hin' He' Hlt.
    assert (r' ∈ sort_desc dns_priority l) as Hs'.
    { rewrite sort_desc_elem. by apply elem_of_list_filter. }
    rewrite Hs in Hd, Hs'. apply elem_of_app in Hs' as [?|Hs']; [by apply Hb|]. exfalso.
    assert (Forall (fun y => dns_priority y <= dns_priority r) after) as Ha.
    { clear -Hd. induction before as [|x before IH]; cbn in Hd; naive_solver. }
    rewrite Forall_forall in Ha. apply elem_of_cons in Hs' as [->|Hs']; [lia|].
    apply Ha in Hs'. lia.
  - apply find_map_None in Hf. rewrite Forall_forall in Hf. intros r Hin He. apply Hf.
    rewrite sort_desc_elem. by apply elem_of_list_filter.
Qed.

(** One consistent snapshot.  With managers built as a pair, the snapshot a
    request captures holds exactly the rewrite and map rules of one published
    state, for every history of operations of either manager. *)
Theorem captured_snapshot_atomic h rt ops rw mp gen :
  let '(h1, (rm, mm)) := paired_rule_managers (number := number) h rt in
  let h2 := publish_rules_atomic (run_ops rm h1 ops) rm rw mp gen in
  capture_rule_snapshot h2 (Some rm) (Some mm) =
    {| generation := gen; rewrite := compile_rewrite_rules rw; map_rules := compile_map_rules mp |} ∧
  map_list_rules_with_host_locks h2 mm = mp ∧ rewrite_list_rules_with_host_locks h2 rm = rw.
Proof.
  cbn [paired_rule_managers]. cbv zeta.
  unfold capture_rule_snapshot, shares_runtime_with, map_list_rules_with_host_locks,
    rewrite_list_rules_with_host_locks, publish_rules_atomic, publish.
  rewrite bool_decide_true by done. rewrite !snapshot_insert. cbn. split; [done|].
  unfold compile_map_rules, compile_rewrite_rules. rewrite !map_map. cbn.
  split; apply map_pair_eta.
Qed.

End Selection.
