(* ===== verification/HttpIo.v ===== *)
(** * HttpIo: header forwarding, request state and body decoding
    (proxy-core/src/http_io.rs, http_io/body_decode.rs, the request record of
    types.rs and the header helpers of rules/rewrite.rs)

    [http::HeaderMap], [url::Url] and the decompressors are third-party: they
    are interfaces ([HeaderOps], [UrlOps], [Decoders]) with the documented laws
    the code relies on. *)

From S2P Require Import Prelude Str RuleSelection.

(** ** Interfaces *)

(** [http::HeaderName], [HeaderValue] and [HeaderMap]: names are normalised to
    lower case; [append] keeps the earlier values of a name. *)
Class HeaderOps := {
  HeaderMap : Type;
  header_name : str → result str str;
  header_value : str → result bytes str;
  hm_empty : HeaderMap;
  hm_get_all : HeaderMap → str → list bytes;
  hm_append : HeaderMap → str → bytes → HeaderMap;
  hm_insert : HeaderMap → str → bytes → HeaderMap;
  hm_remove : HeaderMap → str → HeaderMap;
  (** [iter()]: names with their values *)
  hm_iter : HeaderMap → list (str * bytes);
  header_name_lower n m : header_name n = Ok m → m = to_ascii_lowercase n;
  header_value_visible v : Forall (fun b => 32 <= b < 127) v → header_value v = Ok v;
  hm_get_empty n : hm_get_all hm_empty n = [];
  hm_get_append m n v n' :
    hm_get_all (hm_append m n v) n' =
      if bool_decide (n = n') then hm_get_all m n' ++ [v] else hm_get_all m n';
  hm_get_insert m n v n' :
    hm_get_all (hm_insert m n v) n' = if bool_decide (n = n') then [v] else hm_get_all m n';
  hm_get_remove m n n' :
    hm_get_all (hm_remove m n) n' = if bool_decide (n = n') then [] else hm_get_all m n';
  hm_get_iter m n : hm_get_all m n = map snd (List.filter (fun e => bool_decide (e.1 = n)) (hm_iter m))
}.

(** [url::Url] *)
Class UrlOps := {
  Url : Type;
  url_parse : str → result Url str;
  url_to_string : Url → str;
  url_path : Url → str;
  url_query : Url → option str;
  url_host_str : Url → option str;
  url_port : Url → option Z;
  url_scheme : Url → str;
  url_query_pairs : Url → list (str * str);
  url_set_path : Url → str → Url;
  url_set_query : Url → option str → Url;
  (** [query_pairs_mut().append_pair(name, value)] *)
  url_append_pair : Url → str → str → Url;
  (** [query_pairs_mut().clear().extend_pairs(pairs)] *)
  url_set_query_pairs : Url → list (str * str) → Url;
  (** [set_host(Some(host))], [set_port(port)] *)
  url_set_host : Url → str → option Url;
  url_set_port : Url → option Z → option Url;
  url_set_query_pairs_get u ps : url_query_pairs (url_set_query_pairs u ps) = ps;
  url_set_host_pairs u h u' : url_set_host u h = Some u' → url_query_pairs u' = url_query_pairs u;
  url_set_port_pairs u p u' : url_set_port u p = Some u' → url_query_pairs u' = url_query_pairs u
}.

(** ** Definitions: header entries *)

Record ProxyHeaderEntry := { name : str; hvalue : str; is_pseudo : option bool }.

Definition named (n : str) (e : ProxyHeaderEntry) : bool := eq_ignore_ascii_case (name e) n.

(** [set_header_entry] of rewrite.rs: every entry of the name goes, one is pushed. *)
Definition set_header_entry (headers : list ProxyHeaderEntry) (n v : str) : list ProxyHeaderEntry :=
  List.filter (fun e => negb (named n e)) headers
    ++ [{| name := n; hvalue := v; is_pseudo := None |}].

Definition remove_header_entry (headers : list ProxyHeaderEntry) (n : str) : list ProxyHeaderEntry :=
  List.filter (fun e => negb (named n e)) headers.

Definition strip_plain_body_edit_header_entries (headers : list ProxyHeaderEntry)
    : list ProxyHeaderEntry :=
  List.filter (fun e => negb (named (lit "content-encoding") e) && negb (named (lit "content-md5") e)
                        && negb (named (lit "digest") e) && negb (named (lit "etag") e)) headers.

(** [values.join(", ")] *)
Fixpoint join_values (vs : list str) : str :=
  match vs with
  | [] => []
  | [v] => v
  | v :: vs => v ++ lit ", " ++ join_values vs
  end.

Definition joined (vs : list str) : option str :=
  match vs with [] => None | _ => Some (join_values vs) end.

Definition header_entry_value (headers : list ProxyHeaderEntry) (n : str) : option str :=
  joined (map hvalue (List.filter (named n) headers)).

Definition crlf : str := [13; 10].

Definition build_raw_http_head (start_line : str) (headers : list ProxyHeaderEntry) : str :=
  start_line ++ crlf
    ++ flat_map (fun h => name h ++ lit ": " ++ hvalue h ++ crlf) headers ++ crlf.

(** [buffer.windows(4).position(..)] plus 4. *)
Definition find_header_end (buffer : bytes) : option nat :=
  match find buffer (crlf ++ crlf) with Some i => Some (i + 4)%nat | None => None end.

(** ** Definitions: hop-by-hop headers *)

Definition is_any (n : str) (names : list str) : bool :=
  existsb (fun m => eq_ignore_ascii_case n m) names.

Definition should_skip_request_header (n : str) : bool :=
  is_any n [lit "host"; lit "connection"; lit "proxy-connection"; lit "content-length";
            lit "transfer-encoding"].

Definition is_pseudo_header_name (n : str) : bool := starts_with n (lit ":").

Definition is_hop_by_hop_only (n : str) : bool :=
  is_any n [lit "host"; lit "proxy-connection"; lit "content-length"; lit "transfer-encoding"].

Definition standard_hop_by_hop : list str :=
  [lit "connection"; lit "proxy-connection"; lit "keep-alive"; lit "te"; lit "trailer";
   lit "upgrade"; lit "proxy-authenticate"; lit "proxy-authorization"].

Definition is_standard_hop_by_hop_header (n : str) : bool := is_any n standard_hop_by_hop.

Definition is_ascii_whitespace (b : byte) : bool :=
  (b =? 32) || (b =? 9) || (b =? 10) || (b =? 12) || (b =? 13).

(** [slice.split(pred)] *)
Fixpoint split_by (p : byte → bool) (s : bytes) : list bytes :=
  match s with
  | [] => [[]]
  | b :: s =>
      if p b then [] :: split_by p s
      else match split_by p s with w :: ws => (b :: w) :: ws | [] => [[b]] end
  end.

Definition connection_token (chunk : bytes) : option str :=
  match find_first (fun t => negb (bool_decide (t = []))) (split_by is_ascii_whitespace chunk) with
  | Some token => match from_utf8 token with Some s => Some (to_ascii_lowercase s) | None => None end
  | None => None
  end.

Definition parse_connection_tokens (v : bytes) : list str :=
  omap connection_token (split_by (fun b => b =? chr ",") v).

(** The [HashSet] as a list of its insertions. *)
Definition hop_by_hop_strip_set (pairs : list (str * bytes)) : list str :=
  flat_map (fun nv => if is_any nv.1 [lit "connection"; lit "proxy-connection"]
                      then parse_connection_tokens nv.2 else []) pairs
    ++ standard_hop_by_hop.

Definition should_strip_hop_by_hop (n : str) (strip : list str) (is_ws_upgrade : bool) : bool :=
  if is_ws_upgrade then
    negb (eq_ignore_ascii_case n (lit "connection")) && negb (eq_ignore_ascii_case n (lit "upgrade"))
    && bool_decide (to_ascii_lowercase n ∈ strip)
  else is_standard_hop_by_hop_header n || bool_decide (to_ascii_lowercase n ∈ strip).

Definition is_ws_upgrade_entries (headers : list ProxyHeaderEntry) : bool :=
  existsb (fun h => eq_ignore_ascii_case (name h) (lit "upgrade")
                    && eq_ignore_ascii_case (hvalue h) (lit "websocket")) headers.

(** The entries the loop does not [continue] over. *)
Definition forwarded (headers : list ProxyHeaderEntry) (h : ProxyHeaderEntry) : bool :=
  let ws := is_ws_upgrade_entries headers in
  let strip := hop_by_hop_strip_set (map (fun h => (name h, hvalue h)) headers) in
  negb (should_skip_request_header (name h) && negb ws)
  && negb (ws && is_hop_by_hop_only (name h))
  && negb (should_strip_hop_by_hop (name h) strip ws)
  && negb (is_pseudo_header_name (name h)).

Section Http.
Context `{HeaderOps} `{UrlOps}.

Fixpoint append_headers (all todo : list ProxyHeaderEntry) (m : HeaderMap) : result HeaderMap str :=
  match todo with
  | [] => Ok m
  | h :: todo =>
      if forwarded all h then
        match header_name (name h) with
        | Err e => Err (lit "invalid header name: " ++ e)
        | Ok n =>
            match header_value (hvalue h) with
            | Err e => Err (lit "invalid header value: " ++ e)
            | Ok v => append_headers all todo (hm_append m n v)
            end
        end
      else append_headers all todo m
  end.

Definition build_upstream_headers_from_entries (headers : list ProxyHeaderEntry)
    : result HeaderMap str :=
  append_headers headers headers hm_empty.

(** ** Definitions: the request and its derived state *)

Record ParsedProxyRequest := {
  body : bytes;
  client_address : option str;
  headers : HeaderMap;
  host : str;
  method : str;
  path : str;
  protocol : str;
  query_params : list ProxyHeaderEntry;
  raw_request : str;
  request_headers : list ProxyHeaderEntry;
  request_id : str;
  url : Url;
  tls_cipher_suite : option str;
  tls_protocol : option str
}.

Definition build_request_path (u : Url) : str :=
  match url_query u with
  | Some query => url_path u ++ lit "?" ++ query
  | None => url_path u
  end.

Definition build_query_params (u : Url) : list ProxyHeaderEntry :=
  map (fun nv => {| name := nv.1; hvalue := nv.2; is_pseudo := None |}) (url_query_pairs u).

Definition with_url (r : ParsedProxyRequest) (u : Url) : ParsedProxyRequest :=
  {| body := body r; client_address := client_address r; headers := headers r; host := host r;
     method := method r; path := path r; protocol := protocol r; query_params := query_params r;
     raw_request := raw_request r; request_headers := request_headers r;
     request_id := request_id r; url := u; tls_cipher_suite := tls_cipher_suite r;
     tls_protocol := tls_protocol r |}.

Definition with_headers (r : ParsedProxyRequest) (m : HeaderMap) : ParsedProxyRequest :=
  {| body := body r; client_address := client_address r; headers := m; host := host r;
     method := method r; path := path r; protocol := protocol r; query_params := query_params r;
     raw_request := raw_request r; request_headers := request_headers r;
     request_id := request_id r; url := url r; tls_cipher_suite := tls_cipher_suite r;
     tls_protocol := tls_protocol r |}.

(** The fields are assigned in order: a failure leaves the earlier ones set. *)
Definition rebuild_request_runtime_state (r : ParsedProxyRequest)
    : ParsedProxyRequest * result unit str :=
  match build_upstream_headers_from_entries (request_headers r) with
  | Err e => (r, Err e)
  | Ok m =>
      let r := with_headers r m in
      match url_host_str (url r) with
      | None =>
          (r, Err (lit "request URL does not contain a host after runtime transformation"))
      | Some h =>
          let p := build_request_path (url r) in
          let entries :=
            set_header_entry (request_headers r) (lit "Host")
              (host_header_value (url_host_str (url r)) (url_port (url r))) in
          ({| body := body r; client_address := client_address r; headers := headers r; host := h;
              method := method r; path := p; protocol := url_scheme (url r);
              query_params := build_query_params (url r);
              raw_request :=
                build_raw_http_head (method r ++ lit " " ++ p ++ lit " HTTP/1.1") entries;
              request_headers := entries; request_id := request_id r; url := url r;
              tls_cipher_suite := tls_cipher_suite r; tls_protocol := tls_protocol r |}, Ok tt)
      end
  end.
End Http.

(** ** Definitions: body decoding *)

(** What reading a decompressor to its end gives: its output, and whether it
    ended normally or with an error. *)
Record Reader := { decoded : bytes; complete : bool }.

(** flate2's and brotli's decoders. *)
Class Decoders := {
  GzDecoder : bytes → Reader;
  ZlibDecoder : bytes → Reader;
  DeflateDecoder : bytes → Reader;
  Decompressor : bytes → Reader
}.

Definition MAX_DECOMPRESSED_BODY_BYTES : Z := 64 * 1024 * 1024.

(** [reader.take(limit + 1).read_to_end(..)]: an error past the cut is not seen. *)
Definition read_decoded_bounded (r : Reader) (limit : Z) : option bytes :=
  let '(output_len, failed) :=
    if limit + 1 <=? len (decoded r) then (limit + 1, false)
    else (len (decoded r), negb (complete r)) in
  if failed then None
  else if limit <? output_len then None
  else Some (decoded r).

Definition encoding_list (content_encoding : str) : list str :=
  List.filter (fun e => negb (bool_decide (e = [])) && negb (bool_decide (e = lit "identity")))
    (map (fun e => to_ascii_lowercase (trim e)) (split (chr ",") content_encoding)).

Section Decode.
Context `{Decoders}.

Definition raw_deflate_decode (input : bytes) : option bytes :=
  read_decoded_bounded (DeflateDecoder input) MAX_DECOMPRESSED_BODY_BYTES.

Definition decode_one (encoding : str) (decoded : bytes) : option bytes :=
  if bool_decide (encoding = lit "gzip") || bool_decide (encoding = lit "x-gzip") then
    read_decoded_bounded (GzDecoder decoded) MAX_DECOMPRESSED_BODY_BYTES
  else if bool_decide (encoding = lit "deflate") then
    match read_decoded_bounded (ZlibDecoder decoded) MAX_DECOMPRESSED_BODY_BYTES with
    | Some output => Some output
    | None => raw_deflate_decode decoded
    end
  else if bool_decide (encoding = lit "br") then
    read_decoded_bounded (Decompressor decoded) MAX_DECOMPRESSED_BODY_BYTES
  else None.

Fixpoint decode_all (encodings : list str) (decoded : bytes) : option bytes :=
  match encodings with
  | [] => Some decoded
  | e :: encodings => match decode_one e decoded with
                      | Some decoded => decode_all encodings decoded
                      | None => None
                      end
  end.

Definition decode_body_bytes (body : bytes) (content_encoding : option str) : option bytes :=
  match content_encoding with
  | None => None
  | Some ce =>
      match encoding_list ce with
      | [] => None
      | encodings => decode_all (rev encodings) body
      end
  end.

(** ** Definitions: specification *)

(** [Coded e plain coded]: the decoder of coding [e] recovers [plain], within
    the limit, from [coded]. *)
Inductive Coded : str → bytes → bytes → Prop :=
  | coded_gzip e plain coded :
      e = lit "gzip" ∨ e = lit "x-gzip" → GzDecoder coded = {| decoded := plain; complete := true |} →
      len plain <= MAX_DECOMPRESSED_BODY_BYTES → Coded e plain coded
  | coded_zlib plain coded :
      ZlibDecoder coded = {| decoded := plain; complete := true |} →
      len plain <= MAX_DECOMPRESSED_BODY_BYTES → Coded (lit "deflate") plain coded
  | coded_deflate plain coded :
      complete (ZlibDecoder coded) = false →
      DeflateDecoder coded = {| decoded := plain; complete := true |} →
      len plain <= MAX_DECOMPRESSED_BODY_BYTES → Coded (lit "deflate") plain coded
  | coded_br plain coded :
      Decompressor coded = {| decoded := plain; complete := true |} →
      len plain <= MAX_DECOMPRESSED_BODY_BYTES → Coded (lit "br") plain coded.

(** A server applies the listed codings left to right. *)
Inductive CodedAll : list str → bytes → bytes → Prop :=
  | coded_nil plain : CodedAll [] plain plain
  | coded_cons e es plain mid coded :
      Coded e plain mid → CodedAll es mid coded → CodedAll (e :: es) plain coded.

(** ** Lemmas: body decoding *)

Lemma read_bounded_ok plain :
  len plain <= MAX_DECOMPRESSED_BODY_BYTES →
  read_decoded_bounded {| decoded := plain; complete := true |} MAX_DECOMPRESSED_BODY_BYTES = Some plain.
Proof.
  intros Hl. unfold read_decoded_bounded. cbn [decoded complete].
  destruct (_ + 1 <=? _) eqn:H1; [lia|]. cbn [negb]. by rewrite (proj2 (Z.ltb_ge _ _) Hl).
Qed.

Lemma read_bounded_inv r out limit :
  read_decoded_bounded r limit = Some out → out = decoded r ∧ complete r = true ∧ len out <= limit.
Proof.
  unfold read_decoded_bounded. destruct (_ + 1 <=? _) eqn:H1.
  - destruct (limit <? limit + 1) eqn:?; [done|lia].
  - destruct (complete r); cbn [negb]; [|done]. destruct (_ <? _) eqn:?; [done|].
    intros [= <-]. split_and!; [done..|lia].
Qed.

Lemma decode_one_coded e plain coded : Coded e plain coded → decode_one e coded = Some plain.
Proof.
  unfold decode_one. intros [e' p c [-> | ->] Hd Hl|p c Hd Hl|p c Hz Hd Hl|p c Hd Hl];
    rewrite ?Hd; cbn [bool_decide decide_rel orb].
  - rewrite bool_decide_true by done. cbn. by rewrite read_bounded_ok.
  - rewrite bool_decide_false, bool_decide_true by done. cbn. by rewrite read_bounded_ok.
  - rewrite !bool_decide_false, bool_decide_true by done. cbn. by rewrite read_bounded_ok.
  - rewrite !bool_decide_false, bool_decide_true by done. cbn.
    destruct (read_decoded_bounded (ZlibDecoder c) _) eqn:Hr.
    { apply read_bounded_inv in Hr. naive_solver congruence. }
    unfold raw_deflate_decode. by rewrite Hd, read_bounded_ok.
  - rewrite !bool_decide_false by done. rewrite bool_decide_true by done. cbn. by rewrite read_bounded_ok.
Qed.

Lemma decode_all_app es es' b :
  decode_all (es ++ es') b = match decode_all es b with Some b => decode_all es' b | None => None end.
Proof. revert b. induction es as [|e es IH]; intros b; cbn; [done|]. by destruct (decode_one e b). Qed.

Lemma decode_one_bound e b out : decode_one e b = Some out → len out <= MAX_DECOMPRESSED_BODY_BYTES.
Proof.
  unfold decode_one, raw_deflate_decode. destruct (_ || _); [by intros [_ [_ ?]]%read_bounded_inv|].
  destruct (bool_decide _).
  - destruct (read_decoded_bounded (ZlibDecoder b) _) eqn:Hz; [|by intros [_ [_ ?]]%read_bounded_inv].
    intros [= <-]. by apply read_bounded_inv in Hz as (_ & _ & ?).
  - destruct (bool_decide _); [by intros [_ [_ ?]]%read_bounded_inv|done].
Qed.

(** ** Properties: body decoding *)

(** Decoding undoes the listed codings.  When a server applied the codings of
    the [Content-Encoding] header from left to right and every stage fits the
    64 MiB limit, decoding gives the original body; and whatever the input, a
    decoded body never exceeds the limit. *)
Theorem decode_undoes_codings ce plain coded :
  encoding_list ce ≠ [] → CodedAll (encoding_list ce) plain coded →
  decode_body_bytes coded (Some ce) = Some plain ∧
  ∀ b out, decode_body_bytes b (Some ce) = Some out → len out <= MAX_DECOMPRESSED_BODY_BYTES.
Proof.
  intros Hne Hc. unfold decode_body_bytes. destruct (encoding_list ce) as [|e0 es0] eqn:Hes; [done|].
  rewrite <- Hes in *. split.
  - clear Hne Hes. induction Hc as [plain|e es plain mid coded He _ IH]; [done|].
    cbn [rev]. rewrite decode_all_app, IH. cbn. by rewrite (decode_one_coded _ _ _ He).
  - intros b out. clear Hc. destruct (rev (encoding_list ce)) as [|e es] eqn:Hr.
    { apply (f_equal (@rev _)) in Hr. rewrite rev_involutive in Hr. done. }
    clear. revert b out. induction es as [|e' es IH] using rev_ind; intros b out.
    + cbn. destruct (decode_one e b) eqn:He; [|done]. intros [= <-]. by eapply decode_one_bound.
    + rewrite app_comm_cons, decode_all_app. destruct (decode_all (e :: es) b) eqn:Hd; [|done].
      cbn. destruct (decode_one e' _) eqn:He; [|done]. intros [= <-]. by eapply decode_one_bound.
Qed.
End Decode.

(** ** Lemmas: header forwarding *)

Section HeaderLemmas.
Context `{HeaderOps} `{UrlOps}.

(** The value an entry contributes to the name [n]. *)
Definition contributes (all : list ProxyHeaderEntry) (n : str) (h : ProxyHeaderEntry) : option bytes :=
  if forwarded all h && bool_decide (to_ascii_lowercase (name h) = n) then ok (header_value (hvalue h))
  else None.

Lemma append_headers_get all todo m m' n :
  append_headers all todo m = Ok m' → hm_get_all m' n = hm_get_all m n ++ omap (contributes all n) todo.
Proof.
  revert m. induction todo as [|h todo IH]; intros m; cbn [append_headers omap list_omap].
  { intros [= <-]. by rewrite app_nil_r. }
  unfold contributes at 1. destruct (forwarded all h); cbn [andb]; [|by apply IH].
  destruct (header_name (name h)) as [nm|] eqn:Hn; [|done]. apply header_name_lower in Hn as ->.
  destruct (header_value (hvalue h)) as [v|] eqn:Hv; [|done]. intros Ha. apply IH in Ha as ->.
  rewrite hm_get_append. case_bool_decide; cbn [ok]; by rewrite <- ?app_assoc.
Qed.

Lemma is_any_spec n names :
  is_any n names = true ↔ to_ascii_lowercase n ∈ map to_ascii_lowercase names.
Proof.
  unfold is_any. rewrite existsb_exists, list_elem_of_fmap. split.
  - intros (x & Hx & He). apply eq_ignore_ascii_case_spec in He. exists x. by rewrite list_elem_of_In.
  - intros (x & He & Hx). exists x. rewrite <- list_elem_of_In. split; [done|]. by apply eq_ignore_ascii_case_spec.
Qed.

Lemma is_any_false n names :
  is_any n names = false ↔ to_ascii_lowercase n ∉ map to_ascii_lowercase names.
Proof. rewrite <- is_any_spec. by destruct (is_any n names). Qed.

Definition connection_names : list str := [lit "connection"; lit "proxy-connection"].

Lemma strip_set_tokens es c t :
  c ∈ es → is_any (name c) connection_names = true → t ∈ parse_connection_tokens (hvalue c) →
  t ∈ hop_by_hop_strip_set (map (fun h => (name h, hvalue h)) es).
Proof.
  intros Hc Hn Ht. unfold hop_by_hop_strip_set. apply elem_of_app. left.
  apply list_elem_of_In, in_flat_map. exists (name c, hvalue c). split.
  - apply in_map_iff. exists c. by rewrite <- list_elem_of_In.
  - cbn [fst snd]. unfold connection_names in Hn. rewrite Hn. by apply list_elem_of_In.
Qed.

Lemma strip_set_standard pairs t : t ∈ standard_hop_by_hop → t ∈ hop_by_hop_strip_set pairs.
Proof. intros Ht. apply elem_of_app. by right. Qed.

(** A forwarded entry is not in the strip set, the two handshake carriers of a
    WebSocket upgrade apart. *)
Lemma forwarded_not_stripped es h :
  forwarded es h = true →
  (is_ws_upgrade_entries es = true → to_ascii_lowercase (name h) ∉ [lit "connection"; lit "upgrade"]) →
  (to_ascii_lowercase (name h) ∉ hop_by_hop_strip_set (map (fun h => (name h, hvalue h)) es)) ∧
  to_ascii_lowercase (name h) ∉ [lit "host"; lit "content-length"; lit "transfer-encoding"].
Proof.
  unfold forwarded. set (strip := hop_by_hop_strip_set _). intros Hf Hws.
  rewrite !andb_true_iff, !negb_true_iff in Hf. destruct Hf as [[[Hskip Honly] Hstrip] _].
  destruct (is_ws_upgrade_entries es); cbn [negb andb] in *.
  - specialize (Hws eq_refl). apply is_any_false in Honly. split; [|cbn in Honly; set_solver].
    unfold should_strip_hop_by_hop in Hstrip.
    destruct (eq_ignore_ascii_case (name h) (lit "connection")) eqn:E1.
    { apply eq_ignore_ascii_case_spec in E1. cbn in E1. set_solver. }
    destruct (eq_ignore_ascii_case (name h) (lit "upgrade")) eqn:E2.
    { apply eq_ignore_ascii_case_spec in E2. cbn in E2. set_solver. }
    cbn in Hstrip. by apply bool_decide_eq_false in Hstrip.
  - rewrite andb_true_r in Hskip. apply is_any_false in Hskip. split; [|cbn in Hskip; set_solver].
    apply orb_false_iff in Hstrip as [_ Hstrip]. by apply bool_decide_eq_false in Hstrip.
Qed.

Lemma upstream_headers_clean es m :
  build_upstream_headers_from_entries es = Ok m →
  (∀ n, hm_get_all m n = omap (contributes es n) es) ∧
  ∀ n, hm_get_all m n ≠ [] →
    (is_ws_upgrade_entries es = true → n ∉ [lit "connection"; lit "upgrade"]) →
    (n ∉ standard_hop_by_hop ++ [lit "host"; lit "content-length"; lit "transfer-encoding"]) ∧
    ∀ c, c ∈ es → is_any (name c) connection_names = true → n ∉ parse_connection_tokens (hvalue c).
Proof.
  intros Hb. assert (∀ n, hm_get_all m n = omap (contributes es n) es) as Hget.
  { intros n. apply (append_headers_get _ _ _ _ n) in Hb. by rewrite Hb, hm_get_empty. }
  split; [done|]. intros n Hne Hws. rewrite Hget in Hne.
  assert (∃ h, h ∈ es ∧ is_Some (contributes es n h)) as (h & Hh & v & Hv).
  { destruct (omap _ es) as [|v vs] eqn:Ho; [done|].
    assert (v ∈ omap (contributes es n) es) as Hv by (rewrite Ho; left).
    apply list_elem_of_omap in Hv as (h & Hh & Hc). eauto. }
  unfold contributes in Hv. destruct (forwarded es h && _) eqn:Hf; [|done]. breflect. subst n.
  destruct (forwarded_not_stripped es h) as [Hn1 Hn2]; [done..|]. split.
  - rewrite elem_of_app. intros [Hs|Hs]; [|done]. by apply Hn1, strip_set_standard.
  - intros c Hc Hn Ht. by eapply Hn1, strip_set_tokens.
Qed.

End HeaderLemmas.

(** ** Properties: header forwarding *)

Section HeaderProperties.
Context `{HeaderOps} `{UrlOps}.

(** Hop-by-hop headers do not leave the proxy (RFC 7230, 6.1).  When the upstream
    headers can be built, every name carries exactly the values of its
    forwarded entries in their order, and no standard hop-by-hop header, no
    framing header and no header named by a [Connection] or [Proxy-Connection]
    entry is among them; a WebSocket upgrade keeps [Connection] and [Upgrade]
    only. *)
Theorem hop_by_hop_not_forwarded es m :
  build_upstream_headers_from_entries es = Ok m →
  (∀ n, hm_get_all m n = omap (contributes es n) es) ∧
  ∀ n, hm_get_all m n ≠ [] →
    (is_ws_upgrade_entries es = true → n ∉ [lit "connection"; lit "upgrade"]) →
    (n ∉ standard_hop_by_hop ++ [lit "host"; lit "content-length"; lit "transfer-encoding"]) ∧
    ∀ c, c ∈ es → is_any (name c) connection_names = true → n ∉ parse_connection_tokens (hvalue c).
Proof. apply upstream_headers_clean. Qed.
End HeaderProperties.

(** ** Witnesses *)

Lemma remove_key_get (m : list (str * bytes)) n n' :
  map snd (List.filter (fun e => bool_decide (e.1 = n')) (List.filter (fun e => negb (bool_decide (e.1 = n))) m))
    = if bool_decide (n = n') then [] else map snd (List.filter (fun e => bool_decide (e.1 = n')) m).
Proof.
  induction m as [|[k x] m IH]; cbn; [by case_bool_decide|].
  destruct (decide (k = n)) as [->|E1].
  - rewrite (bool_decide_true (n = n)) by done. cbn. rewrite IH. by case_bool_decide.
  - rewrite (bool_decide_false (k = n)) by done. cbn. destruct (decide (k = n')) as [->|E2].
    + rewrite (bool_decide_true (n' = n')), (bool_decide_false (n = n')) in * by done. cbn. by rewrite IH.
    + rewrite (bool_decide_false (k = n')) by done. by rewrite IH.
Qed.

(** A header map as a list of name/value pairs. *)
Definition list_headers : HeaderOps.
Proof.
  refine {|
    HeaderMap := list (str * bytes);
    header_name n := if bool_decide (n = []) then Err (lit "invalid HTTP header name") else Ok (to_ascii_lowercase n);
    header_value v := if existsb (fun b => b =? 10) v then Err (lit "failed to parse header value") else Ok v;
    hm_empty := [];
    hm_get_all m n := map snd (List.filter (fun e => bool_decide (e.1 = n)) m);
    hm_append m n v := m ++ [(n, v)];
    hm_insert m n v := List.filter (fun e => negb (bool_decide (e.1 = n))) m ++ [(n, v)];
    hm_remove m n := List.filter (fun e => negb (bool_decide (e.1 = n))) m;
    hm_iter m := m |}.
  - intros n m. case_bool_decide; [done|]. by intros [= <-].
  - intros v Hv. destruct (existsb _ v) eqn:He; [|done]. apply existsb_exists in He as (b & Hb & He).
    rewrite Forall_forall in Hv. apply list_elem_of_In in Hb. apply Hv in Hb. lia.
  - done.
  - intros m n v n'. rewrite List.filter_app, map_app. cbn. case_bool_decide; cbn; by rewrite ?app_nil_r.
  - intros m n v n'. rewrite List.filter_app, map_app, remove_key_get. cbn.
    case_bool_decide; cbn; [done|by rewrite app_nil_r].
  - apply remove_key_get.
  - done.
Defined.

Definition entry (n v : str) : ProxyHeaderEntry := {| name := n; hvalue := v; is_pseudo := None |}.

Lemma hop_by_hop_not_forwarded_witness :
  let es := [entry (lit "Connection") (lit "close, X-Trace"); entry (lit "x-trace") (lit "1");
             entry (lit "Accept") (lit "*/*")] in
  ∃ m, @build_upstream_headers_from_entries list_headers es = Ok m ∧
    @hm_get_all list_headers m (lit "x-trace") = [] ∧ @hm_get_all list_headers m (lit "accept") = [lit "*/*"].
Proof.
  intros es. exists [(lit "accept", lit "*/*")]. split; [vm_compute; reflexivity|].
  destruct (@hop_by_hop_not_forwarded list_headers es [(lit "accept", lit "*/*")]) as [Hget _];
    [vm_compute; reflexivity|].
  split; [rewrite (Hget (lit "x-trace"))|rewrite (Hget (lit "accept"))]; vm_compute; reflexivity.
Defined.

(** A coding that puts one byte in front, for every decoder. *)
Definition tag_decoders : Decoders :=
  let d t b := match b with
               | x :: b => if x =? t then {| decoded := b; complete := true |}
                           else {| decoded := []; complete := false |}
               | [] => {| decoded := []; complete := false |}
               end in
  {| GzDecoder := d 1; ZlibDecoder := d 2; DeflateDecoder := d 3; Decompressor := d 4 |}.

Lemma decode_undoes_codings_witness :
  @decode_body_bytes tag_decoders [4; 3; 1; 65] (Some (lit "gzip, Deflate,br")) = Some [65].
Proof.
  apply (@decode_undoes_codings tag_decoders (lit "gzip, Deflate,br") [65] [4; 3; 1; 65]); [done|].
  change (encoding_list _) with [lit "gzip"; lit "deflate"; lit "br"].
  apply (@coded_cons tag_decoders _ _ _ [1; 65]); [apply coded_gzip; [by left|done|done]|].
  apply (@coded_cons tag_decoders _ _ _ [3; 1; 65]); [by apply coded_deflate|].
  apply (@coded_cons tag_decoders _ _ _ [4; 3; 1; 65]); [by apply coded_br|]. constructor.
Defined.
