(* ===== verification/Rewrite.v ===== *)
(** * Rewrite: applying rewrite rules to requests and responses
    (proxy-core/src/rules/rewrite.rs, coerce_body_field_value of json_path.rs)

    A rule is a list of actions; an action works on the parsed request (or the
    response), and reports trace entries.  [&mut] arguments are returned next to
    the result, also on errors.  [serde_json] is the interface [JsonOps]; the
    header map, the URL and the decompressors are those of HttpIo. *)

From S2P Require Import Prelude Str Patterns JsonPath RuleTypes JsonSpan RuleManagers RuleSelection HttpIo.

(** ** Interface: serde_json *)

(** [text_of t v]: [t] is a JSON text of [v] (a text that repeats a key of an
    object says nothing: parsers differ there). *)
Definition text_of {number} (decode_string : bytes → option str) (parse_number : bytes → option number)
    (t : bytes) (v : value number) : Prop :=
  ∃ c v0, document decode_string parse_number t c v0 ∧ (distinct c = true → v0 = v).

(** [spells t v]: [t] is a JSON text of [v] without repeated keys. *)
Definition spells {number} (decode_string : bytes → option str) (parse_number : bytes → option number)
    (t : bytes) (v : value number) : Prop :=
  ∃ c, document decode_string parse_number t c v ∧ distinct c = true.

Class JsonOps (number : Type) := {
  (** [serde_json::from_str::<Value>] *)
  from_str : bytes → result (value number) str;
  (** [serde_json::to_string], [to_vec] *)
  to_string : value number → result bytes str;
  (** [serde_json::from_str::<String>] and the value of a number literal *)
  decode_string : bytes → option str;
  parse_number : bytes → option number;
  (** [PartialEq] of [Number] *)
  number_eqb : number → number → bool;
  (** [str::parse::<f64>], then [Number::from_f64] *)
  parse_f64 : str → option (option number);
  from_str_text t v : from_str t = Ok v → text_of decode_string parse_number t v ∧ wf v;
  to_string_text v t :
    wf v → to_string v = Ok t →
    ∃ c, denotes decode_string parse_number c v ∧ distinct c = true ∧ text c = t
}.

(** ** Definitions: payloads and traces *)

Record RewriteHeaderPayload := {
  hp_header_name : str; hp_operation : str; hp_target : str; hp_value : option str
}.
Record RewriteQueryPayload := { qp_operation : str; qp_param_name : str; qp_value : option str }.
Record RewriteBodyFieldPayload := {
  fp_operation : option str; fp_path : str; fp_value : option str; fp_value_type : option str
}.
Record RewriteBodyPayload := {
  bp_content_type : str; bp_fields : option (list RewriteBodyFieldPayload); bp_mode : option str;
  bp_target : str; bp_text : option str
}.
Record RewriteRedirectPayload := {
  rp_preserve_path : bool; rp_preserve_query : bool; rp_target_url : str
}.

(** [serde_json::from_value] for the payload types (derived code). *)
Class Payloads (number : Type) := {
  header_payload : value number → result RewriteHeaderPayload str;
  query_payload : value number → result RewriteQueryPayload str;
  body_payload : value number → result RewriteBodyPayload str;
  redirect_payload : value number → result RewriteRedirectPayload str
}.

Record RewriteTraceEntry := {
  te_after : option str; te_before : option str; te_kind : str; te_key : option str;
  te_message : option str; te_sequence : Z
}.

Record RewriteTrace := {
  tr_duration_ms : Z; tr_entries : list RewriteTraceEntry; tr_outcome : str; tr_rule_id : str;
  tr_rule_name : str; tr_rewrite_type : str; tr_stage : str
}.

Definition trace_entry (sequence : Z) (kind : str) (key before after message : option str)
    : RewriteTraceEntry :=
  {| te_after := after; te_before := before; te_kind := kind; te_key := key;
     te_message := message; te_sequence := sequence |}.

Definition build_rewrite_trace {number} (rule : RewriteRule number) (stage : str) (duration : Z)
    (outcome : str) (entries : list RewriteTraceEntry) : RewriteTrace :=
  {| tr_duration_ms := duration; tr_entries := entries; tr_outcome := outcome;
     tr_rule_id := rw_id rule; tr_rule_name := rw_name rule;
     tr_rewrite_type := rw_rewrite_type rule; tr_stage := stage |}.

(** ** Definitions: text previews *)

(** The first character of the bytes: well formed, ill formed (the part
    [from_utf8_lossy] replaces) or cut off by the end, with its length. *)
Inductive CharHead := Valid (n : nat) | Invalid (n : nat) | Incomplete (n : nat).

Definition second_ok (a b : byte) : bool :=
  if a =? 224 then (160 <=? b) && (b <=? 191)
  else if a =? 237 then (128 <=? b) && (b <=? 159)
  else if a =? 240 then (144 <=? b) && (b <=? 191)
  else if a =? 244 then (128 <=? b) && (b <=? 143)
  else cont b.

Definition char_head (a : byte) (s1 : bytes) : CharHead :=
  if (0 <=? a) && (a <=? 127) then Valid 1
  else if negb ((194 <=? a) && (a <=? 244)) then Invalid 1
  else match s1 with
  | [] => Incomplete 1
  | b :: s2 =>
      if negb (second_ok a b) then Invalid 1
      else if a <=? 223 then Valid 2
      else match s2 with
      | [] => Incomplete 2
      | c :: s3 =>
          if negb (cont c) then Invalid 2
          else if a <=? 239 then Valid 3
          else match s3 with
          | [] => Incomplete 3
          | d :: _ => if cont d then Valid 4 else Invalid 3
          end
      end
  end.

Fixpoint lossy (fuel : nat) (s : bytes) : str :=
  match fuel, s with
  | S fuel, a :: s1 =>
      match char_head a s1 with
      | Valid n => take n s ++ lossy fuel (drop n s)
      | Invalid n | Incomplete n => [239; 191; 189] ++ lossy fuel (drop n s)
      end
  | _, _ => []
  end.

(** The [Display] text of the [Utf8Error] of an ill-formed input. *)
Fixpoint utf8_error (fuel : nat) (index : Z) (s : bytes) : str :=
  match fuel, s with
  | S fuel, a :: s1 =>
      match char_head a s1 with
      | Valid n => utf8_error fuel (index + Z.of_nat n) (drop n s)
      | Invalid n =>
          lit "invalid utf-8 sequence of " ++ show (Z.of_nat n) ++ lit " bytes from index " ++ show index
      | Incomplete _ => lit "incomplete utf-8 byte sequence from index " ++ show index
      end
  | _, _ => []
  end.

(** [String::from_utf8_lossy] *)
Definition from_utf8_lossy (s : bytes) : str := lossy (length s) s.

(** [s.is_char_boundary(i)] for [i <= s.len()] *)
Definition is_char_boundary (s : str) (i : nat) : bool :=
  match s !! i with Some b => negb (cont b) | None => true end.

Fixpoint floor_boundary (s : str) (end_ : nat) : nat :=
  match end_ with
  | O => O
  | S e => if is_char_boundary s end_ then end_ else floor_boundary s e
  end.

Definition PREVIEW_LIMIT : nat := 2048.

Definition body_preview (bytes : bytes) : option str :=
  match bytes with
  | [] => None
  | _ =>
      let full := from_utf8_lossy bytes in
      Some (if (PREVIEW_LIMIT <? length full)%nat
            then take (floor_boundary full PREVIEW_LIMIT) full ++ lit "..." else full)
  end.

(** ** Definitions: JSON equality *)

(** [Value == Value]: objects are compared as maps, whatever their order. *)
Fixpoint value_eqb {number} (eqb : number → number → bool) (v w : value number) : bool :=
  match v, w with
  | Null, Null => true
  | Bool b, Bool c => Bool.eqb b c
  | Number n, Number m => eqb n m
  | String s, String t => bool_decide (s = t)
  | Array a, Array b =>
      (fix go (a b : list (value number)) : bool :=
         match a, b with
         | [], [] => true
         | x :: a, y :: b => value_eqb eqb x y && go a b
         | _, _ => false
         end) a b
  | Object o, Object p =>
      (length o =? length p)%nat
      && (fix go (o : list (str * value number)) : bool :=
            match o with
            | [] => true
            | (k, x) :: o =>
                match obj_get p k with Some y => value_eqb eqb x y | None => false end && go o
            end) o
  | _, _ => false
  end.

(** ** Definitions: JSON body fields *)

Section Body.
Context {number : Type} `{JsonOps number} `{Decoders}.

Definition json_value_preview (v : value number) : option str := ok (to_string v).

Definition coerce_body_field_value (field : RewriteBodyFieldPayload) : result (value number) str :=
  let raw_value := default [] (fp_value field) in
  let type := to_ascii_lowercase (default (lit "string") (fp_value_type field)) in
  let err s := Err (lit "body field '" ++ fp_path field ++ s) in
  if bool_decide (type = lit "boolean") then
    if bool_decide (raw_value = lit "true") then Ok (Bool true)
    else if bool_decide (raw_value = lit "false") then Ok (Bool false)
    else err (lit "' requires a boolean value")
  else if bool_decide (type = lit "json") then
    match from_str raw_value with
    | Ok v => Ok v
    | Err e => err (lit "' contains invalid JSON: " ++ e)
    end
  else if bool_decide (type = lit "null") then Ok Null
  else if bool_decide (type = lit "number") then
    match parse_f64 raw_value with
    | None => err (lit "' requires a numeric value")
    | Some None => err (lit "' requires a finite numeric value")
    | Some (Some n) => Ok (Number n)
    end
  else if bool_decide (type = lit "string") then Ok (String raw_value)
  else err (lit "' uses unsupported value type '" ++ type ++ lit "'").

(** The loop over the fields: the document, the patches collected so far,
    whether patching is still possible, and the trace. *)
Record FieldState := {
  fs_json : value number;
  fs_patches : list (list JsonPathSegment * value number);
  fs_can_patch : bool;
  fs_entries : list RewriteTraceEntry
}.

Definition apply_field (index : Z) (field : RewriteBodyFieldPayload) (s : FieldState)
    : result FieldState str :=
  let? segments := parse_json_field_path (fp_path field) in
  let before := get_json_path_value (fs_json s) segments ≫= json_value_preview in
  let operation := default (lit "set") (fp_operation field) in
  let? jpc :=
    if eq_ignore_ascii_case operation (lit "remove") then
      match remove_json_path_value (fs_json s) segments with
      | (_, Err e) => Err e
      | (j, Ok _) => Ok (j, fs_patches s, false)
      end
    else
      let? v := coerce_body_field_value field in
      match set_json_path_value (fs_json s) segments v with
      | (_, Err e) => Err e
      | (j, Ok _) =>
          Ok (j, if fs_can_patch s then fs_patches s ++ [(segments, v)] else fs_patches s, fs_can_patch s)
      end in
  let after := get_json_path_value jpc.1.1 segments ≫= json_value_preview in
  Ok {| fs_json := jpc.1.1; fs_patches := jpc.1.2; fs_can_patch := jpc.2;
        fs_entries := fs_entries s ++
          [trace_entry index (lit "body-field") (Some (fp_path field)) before after (Some operation)] |}.

Fixpoint apply_fields (index : Z) (fields : list RewriteBodyFieldPayload) (s : FieldState)
    : result FieldState str :=
  match fields with
  | [] => Ok s
  | field :: fields => let? s := apply_field index field s in apply_fields (index + 1) fields s
  end.

Definition apply_body_field_rewrite (body : bytes) (content_encoding : option str)
    (fields : list RewriteBodyFieldPayload) : result (bytes * list RewriteTraceEntry) str :=
  let decoded := default body (decode_body_bytes body content_encoding) in
  let? body_text :=
    ok_or (from_utf8 decoded)
      (lit "body field rewrite requires UTF-8 JSON body: " ++ utf8_error (length decoded) 0 decoded) in
  let? original :=
    match from_str body_text with
    | Ok v => Ok v
    | Err e => Err (lit "body field rewrite requires valid JSON body: " ++ e)
    end in
  let? s := apply_fields 0 fields
    {| fs_json := original; fs_patches := []; fs_can_patch := true; fs_entries := [] |} in
  let serialized :=
    match to_string (fs_json s) with
    | Ok rewritten => Ok (rewritten, fs_entries s)
    | Err e => Err (lit "serialize rewritten JSON body: " ++ e)
    end in
  if value_eqb number_eqb (fs_json s) original then Ok (decoded, fs_entries s)
  else if fs_can_patch s then
    match patch_json_field_values decode_string (fun v => ok (to_string v)) body_text (fs_patches s) with
    | Some patched => Ok (patched, fs_entries s)
    | None => serialized
    end
  else serialized.
End Body.

(** ** Definitions: actions *)

Record UpstreamResponse {hm : Type} := {
  body_truncated : bool;
  connect_ms : Z;
  connection_reused : option bool;
  connection_wait_ms : option Z;
  dns_ms : Z;
  request_send_ms : option Z;
  response_body : bytes;
  response_body_size_bytes : Z;
  response_headers : hm;
  response_read_ms : Z;
  spooled_response_path : option str;
  status_code : Z;
  tls_ms : option Z;
  waiting_ms : Z;
  via_upstream_proxy : option bool
}.
Arguments UpstreamResponse hm : clear implicits.

(** [replace_response_body]; the spooled file is removed in the background. *)
Definition replace_response_body {hm} (r : UpstreamResponse hm) (body : bytes) : UpstreamResponse hm :=
  {| body_truncated := false; connect_ms := connect_ms r;
     connection_reused := connection_reused r; connection_wait_ms := connection_wait_ms r;
     dns_ms := dns_ms r; request_send_ms := request_send_ms r; response_body := body;
     response_body_size_bytes := len body; response_headers := response_headers r;
     response_read_ms := response_read_ms r; spooled_response_path := None;
     status_code := status_code r; tls_ms := tls_ms r; waiting_ms := waiting_ms r;
     via_upstream_proxy := via_upstream_proxy r |}.

Definition with_response_headers {hm} (r : UpstreamResponse hm) (m : hm) : UpstreamResponse hm :=
  {| body_truncated := body_truncated r; connect_ms := connect_ms r;
     connection_reused := connection_reused r; connection_wait_ms := connection_wait_ms r;
     dns_ms := dns_ms r; request_send_ms := request_send_ms r;
     response_body := response_body r; response_body_size_bytes := response_body_size_bytes r;
     response_headers := m; response_read_ms := response_read_ms r;
     spooled_response_path := spooled_response_path r; status_code := status_code r;
     tls_ms := tls_ms r; waiting_ms := waiting_ms r;
     via_upstream_proxy := via_upstream_proxy r |}.

(** [HeaderValue::to_str]: visible ASCII only. *)
Definition to_str (v : bytes) : option str :=
  if forallb (fun b => ((32 <=? b) && (b <? 127)) || (b =? 9)) v then Some v else None.

(** [rewrite_actions]: the [actions] array, or the legacy pair. *)
Definition action_of {number} (action : value number) : option (str * value number) :=
  match action with
  | Object o =>
      match obj_get o (lit "rewriteType"), obj_get o (lit "payload") with
      | Some (String rewrite_type), Some payload => Some (rewrite_type, payload)
      | _, _ => None
      end
  | _ => None
  end.

Definition rewrite_actions {number} (rule : RewriteRule number) : list (str * value number) :=
  match omap action_of (default [] (rw_actions rule)) with
  | [] => [(rw_rewrite_type rule, rw_payload rule)]
  | expanded => expanded
  end.

(** The locals of [apply_one_request_rule] / [apply_one_response_rule]. *)
Record RuleRun {S : Type} := {
  rr_state : S;
  rr_entries : list RewriteTraceEntry;
  any_success : bool;
  any_skipped : bool;
  first_error : option str
}.
Arguments RuleRun S : clear implicits.

(** Outcome texts. *)
Definition success : str := lit "success".
Definition skipped : str := lit "skipped".

Section Actions.
Context {number : Type} `{JsonOps number} `{Payloads number} `{Decoders} `{HeaderOps} `{UrlOps}.

Definition with_body (r : ParsedProxyRequest) (b : bytes) : ParsedProxyRequest :=
  {| body := b; client_address := client_address r; headers := headers r; host := host r;
     method := method r; path := path r; protocol := protocol r; query_params := query_params r;
     raw_request := raw_request r; request_headers := request_headers r;
     request_id := request_id r; url := url r; tls_cipher_suite := tls_cipher_suite r;
     tls_protocol := tls_protocol r |}.

Definition with_request_headers (r : ParsedProxyRequest) (es : list ProxyHeaderEntry)
    : ParsedProxyRequest :=
  {| body := body r; client_address := client_address r; headers := headers r; host := host r;
     method := method r; path := path r; protocol := protocol r; query_params := query_params r;
     raw_request := raw_request r; request_headers := es;
     request_id := request_id r; url := url r; tls_cipher_suite := tls_cipher_suite r;
     tls_protocol := tls_protocol r |}.

Definition parse_payload {A} (parse : value number → result A str) (rule_id rewrite_type : str)
    (payload : value number) : result A str :=
  match parse payload with
  | Ok a => Ok a
  | Err e => Err (lit "rewrite rule '" ++ rule_id ++ lit "' has an invalid payload for type '"
                    ++ rewrite_type ++ lit "': " ++ e)
  end.

Definition query_param_value (u : Url) (n : str) : option str :=
  joined (map snd (List.filter (fun nv => eq_ignore_ascii_case nv.1 n) (url_query_pairs u))).

Definition content_encoding_of (m : HeaderMap) : option str :=
  head (hm_get_all m (lit "content-encoding")) ≫= to_str.

Definition skip_entry (sequence : Z) (key message : str) : RewriteTraceEntry :=
  trace_entry sequence (lit "skip") (Some key) None None (Some message).

(** An action: the new request, the new trace entries and the outcome. *)
Definition action_result (S : Type) : Type := S * list RewriteTraceEntry * result str str.

Definition apply_request_header (payload : RewriteHeaderPayload) (r : ParsedProxyRequest)
    (sequence : Z) : action_result ParsedProxyRequest :=
  if negb (eq_ignore_ascii_case (hp_target payload) (lit "request")) then
    (r, [skip_entry sequence (hp_header_name payload)
           (lit "header target does not apply to request stage")], Ok skipped)
  else
    let n := hp_header_name payload in
    let before := header_entry_value (request_headers r) n in
    let es :=
      if eq_ignore_ascii_case (hp_operation payload) (lit "remove")
      then remove_header_entry (request_headers r) n
      else match hp_value payload with
           | Some v => set_header_entry (request_headers r) n v
           | None => request_headers r
           end in
    (with_request_headers r es,
     [trace_entry sequence (lit "header") (Some n) before (header_entry_value es n)
        (Some (hp_operation payload))], Ok success).

Definition apply_request_query (payload : RewriteQueryPayload) (r : ParsedProxyRequest)
    (sequence : Z) : action_result ParsedProxyRequest :=
  let param_name := qp_param_name payload in
  let before := query_param_value (url r) param_name in
  let kept := List.filter (fun nv => negb (eq_ignore_ascii_case nv.1 param_name)) (url_query_pairs (url r)) in
  let pairs := if negb (eq_ignore_ascii_case (qp_operation payload) (lit "remove"))
               then kept ++ [(param_name, default [] (qp_value payload))] else kept in
  let u := fold_left (fun u nv => url_append_pair u nv.1 nv.2) pairs (url_set_query (url r) None) in
  (with_url r u,
   [trace_entry sequence (lit "query") (Some param_name) before (query_param_value u param_name)
      (Some (qp_operation payload))], Ok success).

Definition apply_request_body (payload : RewriteBodyPayload) (r : ParsedProxyRequest)
    (is_http2 : bool) (sequence : Z) : action_result ParsedProxyRequest :=
  if negb (eq_ignore_ascii_case (bp_target payload) (lit "request")) then
    (r, [skip_entry sequence (lit "body") (lit "body target does not apply to request stage")], Ok skipped)
  else if is_http2 then
    (r, [skip_entry sequence (lit "body") (lit "HTTP/2 body rewrite not supported")], Ok skipped)
  else
    let before := body_preview (body r) in
    let edited :=
      if eq_ignore_ascii_case (default (lit "replace") (bp_mode payload)) (lit "fields") then
        apply_body_field_rewrite (body r) (content_encoding_of (headers r)) (default [] (bp_fields payload))
      else
        let b := default [] (bp_text payload) in
        Ok (b, [trace_entry sequence (lit "body") (Some (lit "content-type")) before (body_preview b)
                  (Some (bp_content_type payload))]) in
    match edited with
    | Err e => (r, [], Err e)
    | Ok (b, entries) =>
        let es := set_header_entry (request_headers r) (lit "content-type") (bp_content_type payload) in
        (with_request_headers (with_body r b) (strip_plain_body_edit_header_entries es), entries, Ok success)
    end.

Definition apply_request_redirect (payload : RewriteRedirectPayload) (rule_id : str)
    (r : ParsedProxyRequest) (sequence : Z) : action_result ParsedProxyRequest :=
  match url_parse (rp_target_url payload) with
  | Err e => (r, [], Err (lit "rewrite rule '" ++ rule_id ++ lit "' points to an invalid target URL '"
                            ++ rp_target_url payload ++ lit "': " ++ e))
  | Ok u =>
      let u := if rp_preserve_path payload then url_set_path u (url_path (url r)) else u in
      let u := if rp_preserve_query payload then url_set_query u (url_query (url r)) else u in
      (with_url r u,
       [trace_entry sequence (lit "redirect") (Some (lit "url")) (Some (url_to_string (url r)))
          (Some (url_to_string u)) None], Ok success)
  end.

Definition apply_request_action (rewrite_type : str) (payload : value number) (rule_id : str)
    (r : ParsedProxyRequest) (is_http2 : bool) (sequence : Z) : action_result ParsedProxyRequest :=
  if bool_decide (rewrite_type = lit "header") then
    match parse_payload header_payload rule_id rewrite_type payload with
    | Err e => (r, [], Err e)
    | Ok p => apply_request_header p r sequence
    end
  else if bool_decide (rewrite_type = lit "query") then
    match parse_payload query_payload rule_id rewrite_type payload with
    | Err e => (r, [], Err e)
    | Ok p => apply_request_query p r sequence
    end
  else if bool_decide (rewrite_type = lit "body") then
    match parse_payload body_payload rule_id rewrite_type payload with
    | Err e => (r, [], Err e)
    | Ok p => apply_request_body p r is_http2 sequence
    end
  else if bool_decide (rewrite_type = lit "redirect") then
    match parse_payload redirect_payload rule_id rewrite_type payload with
    | Err e => (r, [], Err e)
    | Ok p => apply_request_redirect p rule_id r sequence
    end
  else (r, [skip_entry sequence rewrite_type (lit "unsupported rewrite type")], Ok skipped).

(** ** Definitions: response actions *)

Definition header_map_value (m : HeaderMap) (n : str) : option str :=
  match header_name n with
  | Ok n => joined (omap to_str (hm_get_all m n))
  | Err _ => None
  end.

Definition strip_plain_body_edit_headers (m : HeaderMap) : HeaderMap :=
  hm_remove (hm_remove (hm_remove (hm_remove m (lit "content-encoding")) (lit "content-md5")) (lit "digest"))
    (lit "etag").

Definition apply_response_header (payload : RewriteHeaderPayload) (rule_id : str)
    (r : UpstreamResponse HeaderMap) (sequence : Z) : action_result (UpstreamResponse HeaderMap) :=
  if negb (eq_ignore_ascii_case (hp_target payload) (lit "response")) then
    (r, [skip_entry sequence (hp_header_name payload)
           (lit "header target does not apply to response stage")], Ok skipped)
  else
    let before := header_map_value (response_headers r) (hp_header_name payload) in
    match header_name (hp_header_name payload) with
    | Err e => (r, [], Err (lit "rewrite rule '" ++ rule_id ++ lit "' has an invalid header name '"
                              ++ hp_header_name payload ++ lit "': " ++ e))
    | Ok n =>
        let edited :=
          if eq_ignore_ascii_case (hp_operation payload) (lit "remove")
          then Ok (hm_remove (response_headers r) n)
          else match hp_value payload with
               | Some v =>
                   match header_value v with
                   | Ok hv => Ok (hm_insert (hm_remove (response_headers r) n) n hv)
                   | Err e => Err (lit "rewrite rule '" ++ rule_id ++ lit "' has an invalid value for header '"
                                     ++ hp_header_name payload ++ lit "': " ++ e)
                   end
               | None => Ok (hm_remove (response_headers r) n)
               end in
        match edited with
        | Err e => (r, [], Err e)
        | Ok m =>
            (with_response_headers r m,
             [trace_entry sequence (lit "header") (Some (hp_header_name payload)) before
                (header_map_value m (hp_header_name payload)) (Some (hp_operation payload))], Ok success)
        end
    end.

Definition apply_response_body (payload : RewriteBodyPayload) (r : UpstreamResponse HeaderMap)
    (is_http2 : bool) (sequence : Z) : action_result (UpstreamResponse HeaderMap) :=
  if negb (eq_ignore_ascii_case (bp_target payload) (lit "response")) then
    (r, [skip_entry sequence (lit "body") (lit "body target does not apply to response stage")], Ok skipped)
  else if is_http2 then
    (r, [skip_entry sequence (lit "body") (lit "HTTP/2 body rewrite not supported")], Ok skipped)
  else
    let before := body_preview (response_body r) in
    let body_before := response_body r in
    let edited :=
      if eq_ignore_ascii_case (default (lit "replace") (bp_mode payload)) (lit "fields") then
        apply_body_field_rewrite (response_body r) (content_encoding_of (response_headers r))
          (default [] (bp_fields payload))
      else
        let b := default [] (bp_text payload) in
        Ok (b, [trace_entry sequence (lit "body") (Some (lit "content-type")) before (body_preview b)
                  (Some (bp_content_type payload))]) in
    match edited with
    | Err e => (r, [], Err e)
    | Ok (b, entries) =>
        let r := replace_response_body r b in
        let r :=
          if bool_decide (response_body r = body_before) then r
          else
            let m := match header_value (bp_content_type payload) with
                     | Ok v => hm_insert (response_headers r) (lit "content-type") v
                     | Err _ => response_headers r
                     end in
            with_response_headers r (strip_plain_body_edit_headers m) in
        (r, entries, Ok success)
    end.

Definition apply_response_action (rewrite_type : str) (payload : value number) (rule_id : str)
    (r : UpstreamResponse HeaderMap) (is_http2 : bool) (sequence : Z)
    : action_result (UpstreamResponse HeaderMap) :=
  if bool_decide (rewrite_type = lit "header") then
    match parse_payload header_payload rule_id rewrite_type payload with
    | Err e => (r, [], Err e)
    | Ok p => apply_response_header p rule_id r sequence
    end
  else if bool_decide (rewrite_type = lit "body") then
    match parse_payload body_payload rule_id rewrite_type payload with
    | Err e => (r, [], Err e)
    | Ok p => apply_response_body p r is_http2 sequence
    end
  else (r, [skip_entry sequence rewrite_type (lit "rewrite type does not apply to response stage")],
        Ok skipped).

(** ** Definitions: rules *)

Fixpoint run_actions {S : Type} (apply : str → value number → S → Z → action_result S)
    (sequence : Z) (actions : list (str * value number)) (run : RuleRun S) : RuleRun S :=
  match actions with
  | [] => run
  | (rewrite_type, payload) :: actions =>
      let '(s, entries, r) := apply rewrite_type payload (rr_state run) sequence in
      let entries := rr_entries run ++ entries in
      run_actions apply (sequence + 1) actions
        match r with
        | Ok outcome =>
            {| rr_state := s; rr_entries := entries;
               any_success := any_success run || bool_decide (outcome = success);
               any_skipped := any_skipped run || bool_decide (outcome = skipped);
               first_error := first_error run |}
        | Err e =>
            {| rr_state := s;
               rr_entries := entries ++ [trace_entry sequence (lit "error") None None None (Some e)];
               any_success := any_success run; any_skipped := any_skipped run;
               first_error := Some (default e (first_error run)) |}
        end
  end.

Definition rule_result {S} (run : RuleRun S) : result str str :=
  if any_success run then Ok success
  else if any_skipped run then Ok skipped
  else Err (default (lit "rewrite rule has no applicable actions") (first_error run)).

Definition start_run {S} (s : S) : RuleRun S :=
  {| rr_state := s; rr_entries := []; any_success := false; any_skipped := false; first_error := None |}.

Definition apply_one_request_rule (rule : RewriteRule number) (r : ParsedProxyRequest)
    (is_http2 : bool) : action_result ParsedProxyRequest :=
  let run := run_actions
    (fun t p r seq => apply_request_action t p (rw_id rule) r is_http2 seq) 0 (rewrite_actions rule)
    (start_run r) in
  (rr_state run, rr_entries run, rule_result run).

Definition apply_one_response_rule (rule : RewriteRule number) (r : UpstreamResponse HeaderMap)
    (is_http2 : bool) : action_result (UpstreamResponse HeaderMap) :=
  let run := run_actions
    (fun t p r seq => apply_response_action t p (rw_id rule) r is_http2 seq) 0 (rewrite_actions rule)
    (start_run r) in
  (rr_state run, rr_entries run, rule_result run).

Definition error_entry (e : str) : RewriteTraceEntry :=
  trace_entry 0 (lit "error") None None None (Some e).

(** One iteration of the loop over the active request rules. *)
Definition request_rule_step (rule : RewriteRule number) (r : ParsedProxyRequest) (is_http2 : bool)
    (duration : Z) : ParsedProxyRequest * RewriteTrace :=
  let '(r, entries, res) := apply_one_request_rule rule r is_http2 in
  let '(entries, outcome) :=
    match res with
    | Ok o => (entries, o)
    | Err e => (entries ++ [error_entry e], lit "error")
    end in
  let '(r, entries, outcome) :=
    if bool_decide (outcome = success) then
      match rebuild_request_runtime_state r with
      | (r, Ok _) => (r, entries, success)
      | (r, Err e) => (r, entries ++ [error_entry e], lit "error")
      end
    else (r, entries, outcome) in
  (r, build_rewrite_trace rule (lit "request") duration outcome entries).

Fixpoint request_rules_loop (rules : list (RewriteRule number)) (r : ParsedProxyRequest)
    (is_http2 : bool) (clock : list Z) : ParsedProxyRequest * list RewriteTrace :=
  match rules with
  | [] => (r, [])
  | rule :: rules =>
      let '(r, trace) := request_rule_step rule r is_http2 (hd 0 clock) in
      let '(r, traces) := request_rules_loop rules r is_http2 (tl clock) in
      (r, trace :: traces)
  end.

Definition view (r : ParsedProxyRequest) : RequestView :=
  {| rq_method := method r; rq_url := url_to_string (url r); rq_host := host r |}.

Definition apply_request_rewrite_rules_with_snapshot `{RegexEngine} (s : RuntimeRuleSnapshot number)
    (workspace_id : str) (r : ParsedProxyRequest) (is_http2 : bool) (clock : list Z)
    : ParsedProxyRequest * result (list RewriteTrace) str :=
  let rules := active_rewrite_rules_for_snapshot s workspace_id (lit "request") (view r) in
  let '(r, traces) := request_rules_loop rules r is_http2 clock in
  (r, Ok traces).

Definition response_rule_step (rule : RewriteRule number) (r : UpstreamResponse HeaderMap)
    (is_http2 : bool) (duration : Z) : UpstreamResponse HeaderMap * RewriteTrace :=
  let '(r, entries, res) := apply_one_response_rule rule r is_http2 in
  let '(entries, outcome) :=
    match res with
    | Ok o => (entries, o)
    | Err e => (entries ++ [error_entry e], lit "error")
    end in
  (r, build_rewrite_trace rule (lit "response") duration outcome entries).

Fixpoint response_rules_loop (rules : list (RewriteRule number)) (r : UpstreamResponse HeaderMap)
    (is_http2 : bool) (clock : list Z) : UpstreamResponse HeaderMap * list RewriteTrace :=
  match rules with
  | [] => (r, [])
  | rule :: rules =>
      let '(r, trace) := response_rule_step rule r is_http2 (hd 0 clock) in
      let '(r, traces) := response_rules_loop rules r is_http2 (tl clock) in
      (r, trace :: traces)
  end.

Definition apply_response_rewrite_rules_with_snapshot `{RegexEngine} (s : RuntimeRuleSnapshot number)
    (workspace_id : str) (request : ParsedProxyRequest) (r : UpstreamResponse HeaderMap)
    (is_http2 : bool) (clock : list Z) : UpstreamResponse HeaderMap * result (list RewriteTrace) str :=
  let rules := active_rewrite_rules_for_snapshot s workspace_id (lit "response") (view request) in
  let '(r, traces) := response_rules_loop rules r is_http2 clock in
  (r, Ok traces).
End Actions.

(** ** Lemmas: body fields *)

Lemma push_key_ok segments key : Forall seg_ok segments → Forall seg_ok (push_key segments key).
Proof. unfold push_key. intros. case_bool_decide; [done|]. apply Forall_app. split; [done|by constructor]. Qed.

Lemma scan_path_ok path fuel segments key rest out :
  scan_path path fuel segments key rest = Ok out → Forall seg_ok segments → Forall seg_ok out ∧ out ≠ [].
Proof.
  revert segments key rest. induction fuel as [|fuel IH]; intros segments key rest; cbn [scan_path]; [done|].
  destruct rest as [|c rest].
  { intros Hp Hs. apply (push_key_ok _ key) in Hs. destruct (push_key segments key); [done|].
    injection Hp as <-. by split. }
  destruct (c =? dot).
  { case_bool_decide.
    - destruct (_ || _); [done|]. apply IH.
    - intros Hp Hs. apply IH in Hp; [done|]. apply Forall_app. split; [done|by constructor]. }
  destruct (c =? lbracket).
  { destruct (split_once rbracket rest) as [[raw rest']|]; [|done].
    case_bool_decide; [done|]. destruct (parse_uint usize_max raw) as [i|] eqn:Hi; [|done].
    intros Hp Hs. apply IH in Hp; [done|]. apply Forall_app. split; [by apply push_key_ok|].
    constructor; [|done]. by apply parse_uint_bound in Hi as [Hi _]. }
  destruct (c =? rbracket); [done|]. apply IH.
Qed.

Lemma parse_path_ok path segs : parse_json_field_path path = Ok segs → Forall seg_ok segs ∧ segs ≠ [].
Proof.
  unfold parse_json_field_path. case_bool_decide; [done|]. case_bool_decide; [done|].
  intros Hs. by eapply scan_path_ok.
Qed.

Section BodyLemmas.
Context {number : Type} `{JsonOps number} `{Decoders}.

(** The edits of the payload on the parsed document, without patches and traces. *)
Definition edit_field (v : value number) (field : RewriteBodyFieldPayload) : result (value number) str :=
  let? segments := parse_json_field_path (fp_path field) in
  if eq_ignore_ascii_case (default (lit "set") (fp_operation field)) (lit "remove") then
    let '(j, r) := remove_json_path_value v segments in let? _ := r in Ok j
  else
    let? x := coerce_body_field_value field in
    let '(j, r) := set_json_path_value v segments x in let? _ := r in Ok j.

Fixpoint edit_fields (v : value number) (fields : list RewriteBodyFieldPayload) : result (value number) str :=
  match fields with
  | [] => Ok v
  | field :: fields => let? v := edit_field v field in edit_fields v fields
  end.

Lemma coerce_wf field v : coerce_body_field_value field = Ok v → wf v.
Proof.
  unfold coerce_body_field_value. intros Hc.
  repeat (case_match; try done); simplify_eq; try constructor.
  match goal with Hf : from_str _ = Ok _ |- _ => by apply from_str_text in Hf as [_ ?] end.
Qed.

Lemma apply_edits_snoc (v v1 v2 : value number) es e :
  apply_edits v es = Ok v1 → set_json_path_value v1 e.1 e.2 = (v2, Ok tt) → apply_edits v (es ++ [e]) = Ok v2.
Proof.
  revert v. induction es as [|e0 es IH]; intros v; cbn; [by intros [= <-] ->|].
  destruct (set_json_path_value v e0.1 e0.2) as [v' [[]|]]; [|done]. apply IH.
Qed.

(** What the loop keeps true of a document that started as [v0]. *)
Definition field_inv (v0 : value number) (s : FieldState) : Prop :=
  wf (fs_json s) ∧
  (fs_can_patch s = true → Forall edit_ok (fs_patches s) ∧ apply_edits v0 (fs_patches s) = Ok (fs_json s)).

Lemma apply_field_inv v0 i field s s' :
  apply_field i field s = Ok s' → field_inv v0 s →
  field_inv v0 s' ∧ edit_field (fs_json s) field = Ok (fs_json s').
Proof.
  unfold apply_field, edit_field. destruct (parse_json_field_path (fp_path field)) as [segs|] eqn:Hp; [|done].
  apply parse_path_ok in Hp as [Hok Hne]. cbn [rbind]. intros Hr [Hwf Hpatch].
  destruct (eq_ignore_ascii_case _ (lit "remove")).
  - pose proof (remove_wf_lemma segs _ Hwf) as Hw.
    destruct (remove_json_path_value (fs_json s) segs) as [j [[]|]] eqn:Hj; [|done].
    injection Hr as <-. by repeat split.
  - destruct (coerce_body_field_value field) as [x|] eqn:Hx; [|done]. cbn [rbind] in *. apply coerce_wf in Hx.
    pose proof (set_wf_lemma segs _ _ Hwf Hx) as Hw.
    destruct (set_json_path_value (fs_json s) segs x) as [j [[]|]] eqn:Hj; [|done].
    injection Hr as <-. split; [|done]. split; [done|]. cbn. intros Hc. rewrite Hc. specialize (Hpatch Hc) as [Hf Ha].
    split; [apply Forall_app; split; [done|by constructor]|].
    eapply apply_edits_snoc; [done|]. exact Hj.
Qed.

Lemma apply_fields_inv v0 fields i s s' :
  apply_fields i fields s = Ok s' → field_inv v0 s →
  field_inv v0 s' ∧ edit_fields (fs_json s) fields = Ok (fs_json s').
Proof.
  revert i s. induction fields as [|f fields IH]; intros i s; cbn; [by intros [= <-] ?|].
  destruct (apply_field i f s) as [s1|] eqn:Hf; [|done]. cbn. intros Hr Hi.
  apply (apply_field_inv v0) in Hf as [Hi1 ->]; [|done]. cbn. by apply (IH (i + 1)).
Qed.

Lemma serialized_spells v t : wf v → to_string v = Ok t → spells decode_string parse_number t v.
Proof.
  intros Hw Ht. destruct (to_string_text _ _ Hw Ht) as (c & Hd & Hc & <-). exists c. split; [|done].
  exists [], []. rewrite app_nil_r. split_and!; [done|constructor..|done].
Qed.

Lemma patch_spells body v edits v' out :
  from_str body = Ok v → Forall edit_ok edits → apply_edits v edits = Ok v' →
  patch_json_field_values decode_string (fun v => ok (to_string v)) body edits = Some out →
  spells decode_string parse_number out v'.
Proof.
  intros Hf Hok Ha Hp. apply from_str_text in Hf as [(c & v0 & Hdoc & Heq) _].
  destruct (patch_refines_edits decode_string parse_number (fun v => ok (to_string v)) body c v0 edits out)
    as (Hdist & c' & v1 & Ha' & Hdoc' & ?); [|done..|].
  { intros x t Hwf Ht. destruct (to_string x) as [t'|] eqn:Hx; [|done]. injection Ht as ->.
    by eapply to_string_text. }
  rewrite (Heq Hdist) in Ha'. exists c'. split; [|done]. congruence.
Qed.
End BodyLemmas.

(** ** Lemmas: the derived state of a request *)

Section StateLemmas.
Context `{HeaderOps} `{UrlOps}.

Lemma flat_map_filter {A B} (f : A → list B) (p : A → bool) l :
  (∀ x, p x = false → f x = []) → flat_map f (List.filter p l) = flat_map f l.
Proof.
  intros Hf. induction l as [|x l IH]; cbn; [done|]. destruct (p x) eqn:Hp; cbn; rewrite IH; [done|]. by rewrite Hf.
Qed.

Lemma existsb_filter {A} (f p : A → bool) l :
  (∀ x, p x = false → f x = false) → existsb f (List.filter p l) = existsb f l.
Proof.
  intros Hf. induction l as [|x l IH]; cbn; [done|]. destruct (p x) eqn:Hp; cbn; rewrite IH; [done|]. by rewrite Hf.
Qed.

Lemma named_host_other h n :
  named (lit "Host") h = true → to_ascii_lowercase n ≠ lit "host" → eq_ignore_ascii_case (name h) n = false.
Proof.
  intros Hh Hn. apply eq_ignore_ascii_case_spec in Hh. apply not_true_iff_false. intros He.
  apply eq_ignore_ascii_case_spec in He. rewrite Hh in He. by apply Hn.
Qed.

(** Setting the Host entry does not change what is forwarded. *)
Lemma is_ws_set_host es v : is_ws_upgrade_entries (set_header_entry es (lit "Host") v) = is_ws_upgrade_entries es.
Proof.
  unfold is_ws_upgrade_entries, set_header_entry. rewrite existsb_app, existsb_filter.
  - cbn. by rewrite orb_false_r.
  - intros h Hh. apply negb_false_iff in Hh. by rewrite (named_host_other h (lit "upgrade")).
Qed.

Lemma strip_set_host es v :
  hop_by_hop_strip_set (map (fun h => (name h, hvalue h)) (set_header_entry es (lit "Host") v))
    = hop_by_hop_strip_set (map (fun h => (name h, hvalue h)) es).
Proof.
  unfold hop_by_hop_strip_set, set_header_entry. f_equal.
  rewrite !flat_map_concat_map, !map_map, <- !flat_map_concat_map, flat_map_app, flat_map_filter.
  - by rewrite app_nil_r.
  - intros h Hh. apply negb_false_iff in Hh. cbn [fst snd is_any existsb].
    by rewrite (named_host_other h (lit "connection")), (named_host_other h (lit "proxy-connection")).
Qed.

Lemma forwarded_set_host es v h : forwarded (set_header_entry es (lit "Host") v) h = forwarded es h.
Proof. unfold forwarded. by rewrite is_ws_set_host, strip_set_host. Qed.

Lemma host_not_forwarded es h : named (lit "Host") h = true → forwarded es h = false.
Proof.
  intros Hh. apply eq_ignore_ascii_case_spec in Hh. unfold forwarded.
  assert (should_skip_request_header (name h) = true ∧ is_hop_by_hop_only (name h) = true) as [-> ->].
  { split; apply is_any_spec; rewrite Hh; vm_compute; set_solver. }
  by destruct (is_ws_upgrade_entries es).
Qed.

Lemma append_headers_ext all all' todo m :
  (∀ h, forwarded all h = forwarded all' h) → append_headers all todo m = append_headers all' todo m.
Proof.
  intros Hf. revert m. induction todo as [|h todo IH]; intros m; cbn; [done|]. rewrite Hf.
  repeat case_match; auto.
Qed.

Lemma append_headers_drop all todo p m :
  (∀ h, p h = false → forwarded all h = false) →
  append_headers all (List.filter p todo) m = append_headers all todo m.
Proof.
  intros Hp. revert m. induction todo as [|h todo IH]; intros m; cbn; [done|].
  destruct (p h) eqn:Hph; cbn.
  - repeat case_match; auto.
  - by rewrite Hp.
Qed.

Lemma append_headers_app all a b m :
  append_headers all (a ++ b) m = let? m := append_headers all a m in append_headers all b m.
Proof.
  revert m. induction a as [|h a IH]; intros m; cbn; [done|]. by repeat case_match.
Qed.

Lemma build_set_host es v :
  build_upstream_headers_from_entries (set_header_entry es (lit "Host") v)
    = build_upstream_headers_from_entries es.
Proof.
  unfold build_upstream_headers_from_entries.
  rewrite (append_headers_ext _ es) by apply forwarded_set_host. unfold set_header_entry at 1.
  rewrite append_headers_app, append_headers_drop.
  - destruct (append_headers es es hm_empty); [|done]. cbn. by rewrite host_not_forwarded.
  - intros h Hh. apply negb_false_iff in Hh. by apply host_not_forwarded.
Qed.

Lemma set_header_twice es n v v' :
  set_header_entry (set_header_entry es n v) n v' = set_header_entry es n v'.
Proof.
  unfold set_header_entry. f_equal. rewrite List.filter_app. cbn [List.filter].
  assert (named n {| name := n; hvalue := v; is_pseudo := None |} = true) as ->
    by (by apply eq_ignore_ascii_case_spec).
  cbn [negb]. rewrite app_nil_r.
  induction es as [|e es IH]; cbn; [done|]. destruct (named n e) eqn:He; cbn; rewrite ?He; cbn; by rewrite IH.
Qed.

(** The derived fields of a request agree with its URL and header entries: the
    host, the path, the query parameters, the raw head and the headers that go
    upstream. *)
Record coherent (r : ParsedProxyRequest) : Prop := {
  coherent_host : url_host_str (url r) = Some (host r);
  coherent_path : path r = build_request_path (url r);
  coherent_query : query_params r = build_query_params (url r);
  coherent_raw : ∃ version, version ∈ [lit " HTTP/1.1"; lit " HTTP/2"] ∧
    raw_request r = build_raw_http_head (method r ++ lit " " ++ path r ++ version) (request_headers r);
  coherent_headers : ∃ m, build_upstream_headers_from_entries (request_headers r) = Ok m ∧
    ∀ n, hm_get_all (headers r) n = hm_get_all m n
}.

(** Requests that are sent alike: they may differ in the display of the head and
    in the protocol label. *)
Record same_wire (r r' : ParsedProxyRequest) : Prop := {
  same_method : method r' = method r;
  same_url : url r' = url r;
  same_host : host r' = host r;
  same_path : path r' = path r;
  same_query : query_params r' = query_params r;
  same_body : body r' = body r;
  same_id : request_id r' = request_id r;
  same_headers n : hm_get_all (headers r') n = hm_get_all (headers r) n
}.

#[export] Instance same_wire_equiv : Equivalence same_wire.
Proof.
  split.
  - by split.
  - intros r r' [? ? ? ? ? ? ? ?]. by split.
  - intros r r' r'' [? ? ? ? ? ? ? ?] [? ? ? ? ? ? ? Hh]. split; congruence.
Qed.

(** What a successful rebuild gives. *)
Lemma rebuild_ok r r' :
  rebuild_request_runtime_state r = (r', Ok tt) →
  coherent r' ∧ url r' = url r ∧ method r' = method r ∧ body r' = body r ∧ request_id r' = request_id r ∧
  url_host_str (url r) = Some (host r') ∧ build_upstream_headers_from_entries (request_headers r) = Ok (headers r').
Proof.
  unfold rebuild_request_runtime_state.
  destruct (build_upstream_headers_from_entries (request_headers r)) as [m|] eqn:Hb; [|done].
  cbn [with_headers url]. destruct (url_host_str (url r)) as [h|] eqn:Hh; [|done].
  intros Hr. apply pair_equal_spec in Hr as [<- _].
  split; [|by split_and!]. split; cbn [url host path query_params raw_request method request_headers headers].
  - done.
  - done.
  - done.
  - exists (lit " HTTP/1.1"). split; [left|done].
  - exists m. by rewrite build_set_host.
Qed.

Lemma rebuild_coherent r r' : rebuild_request_runtime_state r = (r', Ok tt) → coherent r'.
Proof. by intros [? _]%rebuild_ok. Qed.

(** Rebuilding a coherent request succeeds and sends the same. *)
Lemma coherent_rebuild r :
  coherent r → ∃ r', rebuild_request_runtime_state r = (r', Ok tt) ∧ coherent r' ∧ same_wire r r'.
Proof.
  intros [Hh Hp Hq _ (m & Hb & Hm)].
  destruct (rebuild_request_runtime_state r) as [r' [[]|e]] eqn:Hr.
  - exists r'. split; [done|]. destruct (rebuild_ok r r' Hr) as ([_ Hp' Hq' _ _] & Hu & Hmt & Hbd & Hid & Hho & Hbb).
    split; [by eapply rebuild_coherent|]. split; try done; try congruence.
  - exfalso. revert Hr. unfold rebuild_request_runtime_state. rewrite Hb.
    change (url (with_headers r m)) with (url r). by rewrite Hh.
Qed.
End StateLemmas.

(** ** Lemmas: actions and rules *)

Section ActionLemmas.
Context {number : Type} `{JsonOps number} `{Payloads number} `{Decoders} `{HeaderOps} `{UrlOps}.

(** An action that does not succeed changes nothing. *)
Definition keeps {S} (s : S) (a : action_result S) : Prop := a.2 ≠ Ok success → a.1.1 = s.

Lemma keeps_same {S} (s : S) es res : keeps s (s, es, res).
Proof. done. Qed.

Lemma keeps_success {S} (s s' : S) es : keeps s (s', es, Ok success).
Proof. by intros []. Qed.

Lemma keeps_parse {S A} (parse : value number → result A str) id t p (s : S) (k : A → action_result S) :
  (∀ a, keeps s (k a)) →
  keeps s match parse_payload parse id t p with Err e => (s, [], Err e) | Ok a => k a end.
Proof. intros Hk. by destruct (parse_payload parse id t p). Qed.

#[local] Hint Resolve keeps_same keeps_success : core.

Lemma request_body_keeps p r h2 seq : keeps r (apply_request_body p r h2 seq).
Proof.
  unfold apply_request_body. destruct (negb _); [done|]. destruct h2; [done|].
  destruct (if eq_ignore_ascii_case _ _ then _ else _) as [[b es]|e]; auto.
Qed.

Lemma response_body_keeps p r h2 seq : keeps r (apply_response_body p r h2 seq).
Proof.
  unfold apply_response_body. destruct (negb _); [done|]. destruct h2; [done|].
  destruct (if eq_ignore_ascii_case _ _ then _ else _) as [[b es]|e]; auto.
Qed.

Lemma request_action_keeps t (p : value number) id r h2 seq : keeps r (apply_request_action t p id r h2 seq).
Proof.
  unfold apply_request_action.
  repeat (case_bool_decide; [apply keeps_parse; intros a|]); [| | | |done].
  - unfold apply_request_header. destruct (negb _); auto.
  - unfold apply_request_query. auto.
  - apply request_body_keeps.
  - unfold apply_request_redirect. destruct (url_parse _); auto.
Qed.

Lemma response_action_keeps t (p : value number) id r h2 seq : keeps r (apply_response_action t p id r h2 seq).
Proof.
  unfold apply_response_action.
  repeat (case_bool_decide; [apply keeps_parse; intros a|]); [| |done].
  - unfold apply_response_header. destruct (negb _); [done|]. destruct (header_name _); [|done].
    destruct (if eq_ignore_ascii_case _ _ then _ else _); auto.
  - apply response_body_keeps.
Qed.

Lemma run_actions_success {S} (apply : str → value number → S → Z → action_result S) seq actions run :
  any_success run = true → any_success (run_actions apply seq actions run) = true.
Proof.
  revert seq run. induction actions as [|[t p] actions IH]; intros seq run Hs; cbn; [done|].
  destruct (apply t p (rr_state run) seq) as [[s es] [o|e]]; apply IH; cbn; [|done]. by rewrite Hs.
Qed.

Lemma run_actions_keeps {S} (apply : str → value number → S → Z → action_result S) seq actions run :
  (∀ t p s seq, keeps s (apply t p s seq)) →
  any_success (run_actions apply seq actions run) = false →
  rr_state (run_actions apply seq actions run) = rr_state run.
Proof.
  intros Hk. revert seq run. induction actions as [|[t p] actions IH]; intros seq run; cbn [run_actions]; [done|].
  pose proof (Hk t p (rr_state run) seq) as Ha. destruct (apply t p (rr_state run) seq) as [[s es] res].
  unfold keeps in Ha. cbn [fst snd] in Ha. intros Hs. destruct res as [o|e].
  - destruct (bool_decide (o = success)) eqn:Ho.
    { rewrite run_actions_success in Hs; [done|]. cbn [any_success]. by rewrite orb_true_r. }
    rewrite IH by done. cbn [rr_state]. apply Ha. apply bool_decide_eq_false in Ho. congruence.
  - rewrite IH by done. by apply Ha.
Qed.

Lemma rule_result_cases {S} (run : RuleRun S) :
  (rule_result run = Ok success ∧ any_success run = true) ∨
  (rule_result run = Ok skipped ∧ any_success run = false) ∨
  (∃ e, rule_result run = Err e ∧ any_success run = false).
Proof. unfold rule_result. destruct (any_success run); [by left|right]. destruct (any_skipped run); eauto. Qed.

Lemma one_request_rule_cases (rule : RewriteRule number) r h2 r' es res :
  apply_one_request_rule rule r h2 = (r', es, res) →
  res = Ok success ∨ (r' = r ∧ (res = Ok skipped ∨ ∃ e, res = Err e)).
Proof.
  unfold apply_one_request_rule. set (run := run_actions _ _ _ _). intros [= <- <- <-].
  assert (any_success run = false → rr_state run = r) as Hk.
  { intros Hs. apply run_actions_keeps in Hs; [done|]. intros *. apply request_action_keeps. }
  destruct (rule_result_cases run) as [[Hr _]|[[Hr Hs]|(e & Hr & Hs)]]; [by left|right..].
  - split; [by apply Hk|by left].
  - split; [by apply Hk|right; by exists e].
Qed.

(** One request rule: it succeeds and leaves a coherent request, or changes
    nothing, or its rebuild failed, which its trace records last. *)
Lemma request_rule_step_cases (rule : RewriteRule number) r h2 d r' t :
  request_rule_step rule r h2 d = (r', t) →
  tr_rule_id t = rw_id rule ∧
  ((tr_outcome t = success ∧ coherent r') ∨
   (r' = r ∧ (tr_outcome t = skipped ∨ tr_outcome t = lit "error")) ∨
   (∃ r1 e, rebuild_request_runtime_state r1 = (r', Err e) ∧ tr_outcome t = lit "error" ∧
      last (tr_entries t) = Some (error_entry e))).
Proof.
  unfold request_rule_step. destruct (apply_one_request_rule rule r h2) as [[r1 es] res] eqn:Ha.
  apply one_request_rule_cases in Ha as [->|[-> [->|[e ->]]]].
  - rewrite bool_decide_true by done.
    destruct (rebuild_request_runtime_state r1) as [r2 [[]|e]] eqn:Hr; intros [= <- <-]; (split; [done|]).
    + left. split; [done|]. by eapply rebuild_coherent.
    + right. right. exists r1, e. split; [done|]. split; [done|]. cbn. apply last_snoc.
  - rewrite bool_decide_false by done. intros [= <- <-]. split; [done|]. right. left. by split; [|left].
  - rewrite bool_decide_false by done. intros [= <- <-]. split; [done|]. right. left. by split; [|right].
Qed.

(** A trace that records a failed rebuild. *)
Definition rebuild_failed (t : RewriteTrace) : Prop :=
  tr_outcome t = lit "error" ∧
  ∃ r1 r2 e, rebuild_request_runtime_state r1 = (r2, Err e) ∧ last (tr_entries t) = Some (error_entry e).

Lemma request_rules_loop_ids rules r h2 clock :
  map tr_rule_id (request_rules_loop (number := number) rules r h2 clock).2 = map rw_id rules.
Proof.
  revert r clock. induction rules as [|rule rules IH]; intros r clock; cbn [request_rules_loop]; [done|].
  destruct (request_rule_step rule r h2 (hd 0 clock)) as [r1 t] eqn:Hs.
  specialize (IH r1 (tl clock)). destruct (request_rules_loop rules r1 h2 (tl clock)) as [r2 ts].
  cbn in *. apply request_rule_step_cases in Hs as [-> _]. by rewrite IH.
Qed.

Lemma request_rules_loop_spec (rules : list (RewriteRule number)) r h2 clock r' traces :
  request_rules_loop rules r h2 clock = (r', traces) →
  map tr_rule_id traces = map rw_id rules ∧ (r' = r ∨ coherent r' ∨ Exists rebuild_failed traces).
Proof.
  intros Hl. split; [pose proof (request_rules_loop_ids rules r h2 clock) as Hids; by rewrite Hl in Hids|].
  revert r clock traces Hl. induction rules as [|rule rules IH]; intros r clock traces; cbn [request_rules_loop].
  { intros [= <- <-]. by left. }
  destruct (request_rule_step rule r h2 (hd 0 clock)) as [r1 t] eqn:Hs.
  destruct (request_rules_loop rules r1 h2 (tl clock)) as [r2 ts] eqn:Hl. intros [= <- <-].
  apply request_rule_step_cases in Hs as [_ [[_ Hc1]|[[-> _]|(r0 & e & Hr & Ho & Hlast)]]].
  - right. destruct (IH _ _ _ Hl) as [->|[?|?]]; [by left|by left|right; by constructor].
  - destruct (IH _ _ _ Hl) as [?|[?|?]]; [by left|right; by left|right; right; by constructor].
  - do 2 right. left. split; [done|]. eauto 10.
Qed.
End ActionLemmas.

(** ** Properties *)

Section RewriteProperties.
Context {number : Type} `{JsonOps number} `{Payloads number} `{Decoders} `{HeaderOps} `{UrlOps}.

(** C34: A Fields rewrite does what its fields say.  When it succeeds, the decoded
    body parsed to some document, the fields applied in order to that document
    succeed, and the new body is a JSON text of the result that repeats no key, whether the bytes
    were patched in place or the document was serialised again; only when the
    result equals the original document is the decoded body kept as it was. *)
Theorem body_field_rewrite_correct b ce fields out entries :
  apply_body_field_rewrite b ce fields = Ok (out, entries) →
  let decoded := default b (decode_body_bytes b ce) in
  ∃ v edited : value number,
    from_str decoded = Ok v ∧ edit_fields v fields = Ok edited ∧
    ((out = decoded ∧ value_eqb number_eqb edited v = true) ∨
     spells decode_string parse_number out edited).
Proof.
  unfold apply_body_field_rewrite. set (decoded := default b _). unfold from_utf8.
  destruct (utf8_valid decoded); cbn [ok_or rbind]; [|done].
  destruct (from_str decoded) as [v|] eqn:Hf; cbn [rbind]; [|done].
  destruct (apply_fields 0 fields _) as [s|] eqn:Ha; cbn [rbind]; [|done]. intros Hout. exists v, (fs_json s).
  pose proof (from_str_text _ _ Hf) as [_ Hwf].
  apply (apply_fields_inv v) in Ha as [[Hw Hp] He]; [|by repeat split]. cbn in He. split; [done|]. split; [done|].
  destruct (value_eqb _ _ _) eqn:Heq; [injection Hout as <- _; by left|right].
  destruct (fs_can_patch s).
  - destruct (Hp eq_refl) as [Hok Hed]. destruct (patch_json_field_values _ _ _ _) eqn:Hpatch.
    + injection Hout as <- _. by eapply patch_spells.
    + destruct (to_string (fs_json s)) eqn:Hs; [|done]. injection Hout as <- _. by apply serialized_spells.
  - destruct (to_string (fs_json s)) eqn:Hs; [|done]. injection Hout as <- _. by apply serialized_spells.
Qed.

(** The rewrite cascade never aborts.  Every active rule runs and leaves one
    trace, in order, whatever fails; a coherent request (headers, host, path,
    query parameters and raw head agreeing with its URL and entries) stays
    coherent unless the rebuild after some rule failed, which is recorded as
    the last entry of that rule's trace. *)
Theorem request_cascade `{RegexEngine} (s : RuntimeRuleSnapshot number) ws r h2 clock r' res :
  apply_request_rewrite_rules_with_snapshot s ws r h2 clock = (r', res) → coherent r →
  ∃ traces, res = Ok traces ∧
    map tr_rule_id traces =
      map rw_id (active_rewrite_rules_for_snapshot s ws (lit "request") (view r)) ∧
    (coherent r' ∨ Exists rebuild_failed traces).
Proof.
  unfold apply_request_rewrite_rules_with_snapshot.
  destruct (request_rules_loop _ r h2 clock) as [r1 traces] eqn:Hl. intros [= <- <-] Hc.
  exists traces. apply request_rules_loop_spec in Hl as [? [->|[?|?]]]; auto.
Qed.

(** A rule that fails is harmless: when none of its actions succeeded, the
    request (or the response) is exactly what it was. *)
Theorem failed_rule_keeps_message (rule : RewriteRule number) h2 :
  (∀ r, (apply_one_request_rule rule r h2).2 ≠ Ok success → (apply_one_request_rule rule r h2).1.1 = r) ∧
  (∀ r, (apply_one_response_rule rule r h2).2 ≠ Ok success → (apply_one_response_rule rule r h2).1.1 = r).
Proof.
  assert (∀ S (run : RuleRun S), rule_result run ≠ Ok success → any_success run = false) as Hs.
  { intros S run. by destruct (rule_result_cases run) as [[-> _]|[[_ ?]|(e & _ & ?)]]. }
  split; intros r Hr; apply Hs in Hr; apply run_actions_keeps in Hr; try done; intros *;
    [apply request_action_keeps|apply response_action_keeps].
Qed.

(** A body rewrite of a response never serves plain bytes under the headers of
    the old ones: if the bytes changed, [Content-Encoding], [Content-MD5],
    [Digest] and [ETag] are gone and no other header but [Content-Type] changed;
    if they did not, no header changed. *)
Theorem response_body_edit_headers p r h2 seq r' es :
  apply_response_body p r h2 seq = (r', es, Ok success) →
  if decide (response_body r' = response_body r) then response_headers r' = response_headers r
  else
    (∀ n, n ∈ [lit "content-encoding"; lit "content-md5"; lit "digest"; lit "etag"] →
       hm_get_all (response_headers r') n = []) ∧
    (∀ n, n ∉ [lit "content-encoding"; lit "content-md5"; lit "digest"; lit "etag"; lit "content-type"] →
       hm_get_all (response_headers r') n = hm_get_all (response_headers r) n) ∧
    response_body_size_bytes r' = len (response_body r') ∧ body_truncated r' = false.
Proof.
  unfold apply_response_body. destruct (negb _); [done|]. destruct h2; [done|].
  destruct (if eq_ignore_ascii_case _ _ then _ else _) as [[b es']|e]; [|done].
  cbn zeta. case_bool_decide as Hb; intros Hr; apply pair_equal_spec in Hr as [Hr _];
    apply pair_equal_spec in Hr as [<- _].
  { by rewrite decide_True. }
  rewrite decide_False by done. cbn [with_response_headers replace_response_body response_headers
    response_body_size_bytes response_body body_truncated]. unfold strip_plain_body_edit_headers.
  split_and!; [|..|done|done]; intros n Hn; rewrite !hm_get_remove.
  - repeat (case_bool_decide; [done|]). set_solver.
  - repeat (rewrite bool_decide_false by set_solver). destruct (header_value _); [|done].
    rewrite hm_get_insert. by rewrite bool_decide_false by set_solver.
Qed.
End RewriteProperties.

(** ** Witnesses *)

(** [serde_json] on one document and on numbers. *)
Definition demo_json : JsonOps Z.
Proof.
  refine {|
    from_str t := if bool_decide (t = text demo_cst) then Ok demo_value else Err (lit "expected value");
    to_string v := ok_or (demo_to_string v) (lit "unsupported");
    decode_string := demo_decode;
    parse_number := demo_number;
    number_eqb := Z.eqb;
    parse_f64 s := Some <$> parse_uint u64_max s |}.
  - intros t v. case_bool_decide as Ht; [|done]. subst t. intros [= <-]. split.
    + exists demo_cst, demo_value. split; [apply demo_document|done].
    + apply wf_object; [by apply (bool_decide_unpack _)|]. repeat constructor.
  - intros v t Hwf. destruct (demo_to_string v) as [t'|] eqn:Hv; [|done]. intros [= <-].
    by apply demo_serializes.
Defined.

(** A URL as its path and query pairs, on one host. *)
Definition demo_urls : UrlOps.
Proof.
  refine {|
    Url := str * option (list (str * str));
    url_parse s := if bool_decide (s = []) then Err (lit "relative URL without a base") else Ok (s, None);
    url_to_string u := lit "http://h" ++ u.1;
    url_path u := u.1;
    url_query u := (fun ps => flat_map (fun nv => nv.1 ++ lit "=" ++ nv.2 ++ lit "&") ps) <$> u.2;
    url_host_str _ := Some (lit "h");
    url_port _ := None;
    url_scheme _ := lit "http";
    url_query_pairs u := default [] u.2;
    url_set_path u p := (p, u.2);
    url_set_query u q := (u.1, (fun q => [(q, [])]) <$> q);
    url_append_pair u n v := (u.1, Some (default [] u.2 ++ [(n, v)]));
    url_set_query_pairs u ps := (u.1, Some ps);
    url_set_host u h := if bool_decide (h = lit "h") then Some u else None;
    url_set_port u p := Some u |}.
  - done.
  - intros u h u'. case_bool_decide; [|done]. by intros [= <-].
  - by intros u p u' [= <-].
Defined.

(** A string payload sets the header of that name. *)
Definition demo_payloads : Payloads Z :=
  {| header_payload v :=
       match v with
       | String n => Ok {| hp_header_name := n; hp_operation := lit "set"; hp_target := lit "request";
                           hp_value := Some (lit "1") |}
       | _ => Err (lit "missing field")
       end;
     query_payload _ := Err (lit "missing field");
     body_payload _ :=
       Ok {| bp_content_type := lit "text/plain"; bp_fields := None; bp_mode := None;
             bp_target := lit "response"; bp_text := Some (lit "new") |};
     redirect_payload _ := Err (lit "missing field") |}.

Definition demo_field : RewriteBodyFieldPayload :=
  {| fp_operation := None; fp_path := lit "b[1]"; fp_value := Some (lit "70");
     fp_value_type := Some (lit "Number") |}.

Lemma body_field_rewrite_correct_witness :
  ∃ out entries,
    @apply_body_field_rewrite Z demo_json tag_decoders (1 :: text demo_cst) (Some (lit "gzip")) [demo_field]
      = Ok (out, entries) ∧
    spells demo_decode demo_number out
      (Object [(lit "a", Number 1); (lit "b", Array [Number 2; Number 70])]).
Proof.
  do 2 eexists. split; [vm_compute; reflexivity|].
  edestruct (@body_field_rewrite_correct Z demo_json tag_decoders (1 :: text demo_cst) (Some (lit "gzip"))
    [demo_field]) as (v & edited & Hv & He & [[_ Hq]|Ht]).
  { vm_compute. reflexivity. }
  - injection Hv as <-. vm_compute in He. injection He as <-. vm_compute in Hq. discriminate Hq.
  - injection Hv as <-. vm_compute in He. injection He as <-. exact Ht.
Defined.

Definition demo_rule : RewriteRule Z :=
  {| rw_actions := None; rw_id := lit "r1"; rw_enabled := true; rw_name := lit "Rule"; rw_note := None;
     rw_priority := 1;
     rw_match := {| rm_methods := []; rm_stage := lit "request"; rm_url_pattern := lit "*";
                    rm_match_type := None |};
     rw_rewrite_type := lit "header"; rw_workspace_id := lit "w"; rw_payload := String (lit "x-debug") |}.

Definition demo_snapshot : @RuntimeRuleSnapshot no_regex Z :=
  {| generation := 1;
     rewrite := [{| cr_rule := demo_rule; cr_compiled_match := None; cr_host_lock := None |}];
     map_rules := [] |}.

Definition demo_raw : @ParsedProxyRequest list_headers demo_urls :=
  {| body := []; client_address := None; headers := @hm_empty list_headers; host := []; method := lit "GET";
     path := []; protocol := []; query_params := []; raw_request := []; request_headers := [];
     request_id := lit "1"; url := (lit "/x", None) : @Url demo_urls; tls_cipher_suite := None;
     tls_protocol := None |}.

Definition demo_request : @ParsedProxyRequest list_headers demo_urls :=
  (@rebuild_request_runtime_state list_headers demo_urls demo_raw).1.

Lemma demo_request_coherent : @coherent list_headers demo_urls demo_request.
Proof. apply (@rebuild_coherent list_headers demo_urls demo_raw). vm_compute. reflexivity. Qed.

Lemma request_cascade_witness :
  let out := @apply_request_rewrite_rules_with_snapshot Z demo_json demo_payloads tag_decoders list_headers
               demo_urls no_regex demo_snapshot (lit "w") demo_request false [] in
  ∃ traces, out.2 = Ok traces ∧ map tr_rule_id traces = [lit "r1"] ∧
    (coherent out.1 ∨ Exists (@rebuild_failed list_headers demo_urls) traces).
Proof.
  intros out.
  destruct (@request_cascade Z demo_json demo_payloads tag_decoders list_headers demo_urls no_regex demo_snapshot
    (lit "w") demo_request false [] out.1 out.2 (surjective_pairing out) demo_request_coherent)
    as (traces & Ht & Hids & Hc).
  exists traces. split; [done|]. split; [|done]. rewrite Hids. vm_compute. reflexivity.
Defined.

(** The payload of this rule does not parse, so the rule fails. *)
Lemma failed_rule_keeps_message_witness :
  let rule := {| rw_actions := None; rw_id := lit "r2"; rw_enabled := true; rw_name := lit "Bad"; rw_note := None;
                 rw_priority := 1; rw_match := rw_match demo_rule; rw_rewrite_type := lit "header";
                 rw_workspace_id := lit "w"; rw_payload := Null |} in
  let out := @apply_one_request_rule Z demo_json demo_payloads tag_decoders list_headers demo_urls
               rule demo_request false in
  out.2 ≠ Ok success ∧ out.1.1 = demo_request.
Proof.
  intros rule out. assert (out.2 ≠ Ok success) as Hf by (vm_compute; discriminate). split; [exact Hf|].
  apply (@failed_rule_keeps_message Z demo_json demo_payloads tag_decoders list_headers demo_urls rule false).
  exact Hf.
Defined.

Definition demo_response : UpstreamResponse (@HeaderMap list_headers) :=
  {| body_truncated := false; connect_ms := 0; connection_reused := None; connection_wait_ms := None;
     dns_ms := 0; request_send_ms := None; response_body := lit "old"; response_body_size_bytes := 3;
     response_headers := ([(lit "etag", lit "1"); (lit "x", lit "2")] : @HeaderMap list_headers);
     response_read_ms := 0; spooled_response_path := None; status_code := 200; tls_ms := None;
     waiting_ms := 0; via_upstream_proxy := None |}.

Lemma response_body_edit_headers_witness :
  let p := {| bp_content_type := lit "text/plain"; bp_fields := None; bp_mode := None;
              bp_target := lit "response"; bp_text := Some (lit "new") |} in
  ∃ r' es, @apply_response_body Z demo_json tag_decoders list_headers p demo_response false 0
             = (r', es, Ok success) ∧
    @hm_get_all list_headers (response_headers r') (lit "etag") = [] ∧
    @hm_get_all list_headers (response_headers r') (lit "x") = [lit "2"].
Proof.
  intros p. pose (a := @apply_response_body Z demo_json tag_decoders list_headers p demo_response false 0).
  exists a.1.1, a.1.2. split; [vm_compute; reflexivity|].
  pose proof (@response_body_edit_headers Z demo_json tag_decoders list_headers p demo_response false 0
    a.1.1 a.1.2 ltac:(vm_compute; reflexivity)) as Hh.
  rewrite decide_False in Hh by (vm_compute; discriminate). destruct Hh as (H1 & H2 & _).
  split; [apply H1; vm_compute; set_solver|rewrite H2 by (vm_compute; set_solver)]. vm_compute. reflexivity.
Defined.
