(* ===== verification/MapRules.v ===== *)
(** * MapRules: Map Local and Map Remote (proxy-core/src/rules/map.rs)

    Paths are Unix paths (the [cfg(windows)] checks are left out) with the
    component view of [std::path]; the file system is a parameter, as seen by
    one request. *)

From S2P Require Import Prelude Str Patterns JsonPath RuleTypes RuleManagers RuleSelection HttpIo Rewrite.

(** ** Definitions: paths *)

Inductive Component := RootDir | CurDir | ParentDir | Normal (s : bytes).

#[export] Instance Component_eq_dec : EqDecision Component.
Proof. solve_decision. Defined.

Definition slash : byte := chr "/".

Definition segment_component (s : bytes) : option Component :=
  if bool_decide (s = []) || bool_decide (s = lit ".") then None
  else if bool_decide (s = lit "..") then Some ParentDir
  else Some (Normal s).

(** [Path::components]: repeated separators and inner [.] vanish, a leading [.]
    of a relative path does not. *)
Definition components (p : bytes) : list Component :=
  let segments := split slash p in
  (if starts_with p [slash] then [RootDir]
   else if bool_decide (head segments = Some (lit ".")) then [CurDir] else [])
    ++ omap segment_component segments.

(** [PathBuf::push] *)
Definition push (p s : bytes) : bytes :=
  if starts_with s [slash] then s
  else match last p with
       | Some b => if b =? slash then p ++ s else p ++ slash :: s
       | None => s
       end.

Definition is_safe_local_segment (segment : bytes) : bool :=
  if bool_decide (0 ∈ segment) then false
  else match components segment with
       | [Normal _] => true
       | _ => false
       end.

Fixpoint push_segments (segments : list bytes) (relative : bytes) : option bytes :=
  match segments with
  | [] => Some relative
  | segment :: segments =>
      if bool_decide (segment = []) || bool_decide (segment = lit ".") || bool_decide (segment = lit "..")
      then push_segments segments relative
      else if negb (is_safe_local_segment segment) then None
      else push_segments segments (push relative segment)
  end.

Definition sanitize_request_path (p : bytes) : option bytes :=
  push_segments (split slash (trim_start_matches slash p)) [].

(** [path == root || path.starts_with(root)], component-wise. *)
Fixpoint components_prefix (r p : list Component) : bool :=
  match r, p with
  | [], _ => true
  | c :: r, d :: p => bool_decide (c = d) && components_prefix r p
  | _ :: _, [] => false
  end.

Definition path_is_within (p root : bytes) : bool :=
  bool_decide (components p = components root) || components_prefix (components root) (components p).

(** [Path::extension] of the file name. *)
Definition extension (p : bytes) : option bytes :=
  match last (components p) with
  | Some (Normal file) =>
      match rsplit_once (chr ".") file with
      | Some (stem, ext) => if bool_decide (stem = []) then None else Some ext
      | None => None
      end
  | _ => None
  end.

Definition guess_mime_type (p : bytes) : str :=
  let ext := to_ascii_lowercase (default [] (extension p ≫= from_utf8)) in
  let is_ s := bool_decide (ext = s) in
  if is_ (lit "css") then lit "text/css; charset=utf-8"
  else if is_ (lit "gif") then lit "image/gif"
  else if is_ (lit "html") || is_ (lit "htm") then lit "text/html; charset=utf-8"
  else if is_ (lit "ico") then lit "image/x-icon"
  else if is_ (lit "jpg") || is_ (lit "jpeg") then lit "image/jpeg"
  else if is_ (lit "js") || is_ (lit "mjs") then lit "application/javascript; charset=utf-8"
  else if is_ (lit "json") then lit "application/json; charset=utf-8"
  else if is_ (lit "map") then lit "application/json; charset=utf-8"
  else if is_ (lit "png") then lit "image/png"
  else if is_ (lit "svg") then lit "image/svg+xml"
  else if is_ (lit "txt") then lit "text/plain; charset=utf-8"
  else if is_ (lit "wasm") then lit "application/wasm"
  else if is_ (lit "xml") then lit "application/xml; charset=utf-8"
  else lit "application/octet-stream".

(** ** Definitions: Map Local *)

(** The system calls; errors carry their text. *)
Class FileSystem := {
  canonicalize : bytes → result bytes str;
  is_file : bytes → bool;
  is_dir : bytes → bool;
  read : bytes → result bytes str
}.

(** [path.display()] *)
Definition display (p : bytes) : str := from_utf8_lossy p.

Section Map.
Context `{HeaderOps} `{UrlOps} `{FileSystem}.

Definition resolve_local_path (target_canon request_path : bytes) : result bytes str :=
  let? requested_path :=
    ok_or (sanitize_request_path request_path)
      (lit "refusing unsafe Map Local request path '" ++ request_path ++ lit "'") in
  let resolved_path :=
    if bool_decide (requested_path = []) then push target_canon (lit "index.html")
    else push target_canon requested_path in
  let resolved_path := if is_dir resolved_path then push resolved_path (lit "index.html") else resolved_path in
  let resolved_path := default resolved_path (ok (canonicalize resolved_path)) in
  if negb (path_is_within resolved_path target_canon) then
    Err (lit "Map Local path '" ++ display resolved_path ++ lit "' resolves outside the mapped root")
  else Ok resolved_path.

Definition build_local_file_response (p : bytes) : result (UpstreamResponse HeaderMap) str :=
  match read p with
  | Err e => Err (lit "failed to read local mapped file '" ++ display p ++ lit "': " ++ e)
  | Ok body =>
      Ok {| body_truncated := false; connect_ms := 0; dns_ms := 0; connection_reused := None;
            connection_wait_ms := None; request_send_ms := None; response_body_size_bytes := len body;
            response_body := body;
            response_headers := hm_insert hm_empty (lit "content-type") (guess_mime_type p);
            response_read_ms := 0; spooled_response_path := None; status_code := 200; tls_ms := None;
            waiting_ms := 0; via_upstream_proxy := None |}
  end.

Definition with_display (p : bytes) (r : result (UpstreamResponse HeaderMap) str)
    : result (UpstreamResponse HeaderMap * str) str :=
  let? response := r in Ok (response, display p).

Definition apply_local_map_rule (request : ParsedProxyRequest) (rule : MapRule)
    : result (UpstreamResponse HeaderMap * str) str :=
  let target_path := map_target_value rule in
  match canonicalize target_path with
  | Err e => Err (lit "map local rule '" ++ map_id rule ++ lit "' target '" ++ display target_path
                    ++ lit "' could not be resolved: " ++ e)
  | Ok target_canon =>
      if is_file target_canon then
        with_display target_canon (build_local_file_response target_canon)
      else
        let? resolved_path :=
          if is_dir target_canon then resolve_local_path target_canon (url_path (url request))
          else Ok target_canon in
        if is_file resolved_path then
          with_display resolved_path (build_local_file_response resolved_path)
        else
          Err (lit "map local rule '" ++ map_id rule ++ lit "' could not resolve '" ++ display resolved_path
                 ++ lit "' for request '" ++ url_to_string (url request) ++ lit "'")
  end.

(** ** Definitions: Map Remote *)

Definition join_remote_base_path (base request_path : str) : str :=
  let base := if bool_decide (base = []) then [slash] else base in
  let request := if bool_decide (request_path = []) then [slash] else request_path in
  if bool_decide (base = [slash]) then request
  else
    let base := trim_end_matches slash base in
    let request := trim_start_matches slash request in
    let bare := trim_start_matches slash base in
    if bool_decide (request = bare) || starts_with request (bare ++ [slash]) then slash :: request
    else if bool_decide (request = []) then base ++ [slash]
    else base ++ slash :: request.

Definition apply_remote_map_rule (r : ParsedProxyRequest) (rule : MapRule)
    : ParsedProxyRequest * result str str :=
  match url_parse (map_target_value rule) with
  | Err e => (r, Err (lit "map remote rule '" ++ map_id rule ++ lit "' points to an invalid target URL '"
                        ++ map_target_value rule ++ lit "': " ++ e))
  | Ok mapped_url =>
      let mapped_url :=
        if map_preserve_path rule
        then url_set_path mapped_url (join_remote_base_path (url_path mapped_url) (url_path (url r)))
        else mapped_url in
      let mapped_url :=
        if map_preserve_query rule then url_set_query mapped_url (url_query (url r)) else mapped_url in
      let mapped_url_text := url_to_string mapped_url in
      match rebuild_request_runtime_state (with_url r mapped_url) with
      | (r, Err e) => (r, Err (lit "map remote rule '" ++ map_id rule
                                 ++ lit "' could not rebuild request state for '" ++ mapped_url_text
                                 ++ lit "': " ++ e))
      | (r, Ok _) => (r, Ok mapped_url_text)
      end
  end.

Record MapTrace := {
  mt_duration_ms : Z;
  mt_failure_reason : option str;
  mt_local_path : option str;
  mt_mapped_url : option str;
  mt_mode : str;
  mt_original_url : str;
  mt_outcome : str;
  mt_rule_id : str;
  mt_rule_name : str;
  mt_source_pattern : str;
  mt_target_value : str
}.

(** What a rule did: a local response with its path, or the mapped URL. *)
Definition map_result : Type :=
  result (option (UpstreamResponse HeaderMap) * option str * option str) str.

(** The ["remote"] arm with its rollback. *)
Definition apply_remote_or_rollback (r : ParsedProxyRequest) (rule : MapRule)
    : ParsedProxyRequest * map_result :=
  let pre_map_url := url r in
  match apply_remote_map_rule r rule with
  | (r, Ok mapped_url) => (r, Ok (None, None, Some mapped_url))
  | (r, Err e) => ((rebuild_request_runtime_state (with_url r pre_map_url)).1, Err e)
  end.

Definition map_trace (rule : MapRule) (original_url : str) (duration : Z) (result : map_result)
    : option (UpstreamResponse HeaderMap) * MapTrace :=
  let '(response, local_path, mapped_url, outcome, failure_reason) :=
    match result with
    | Ok (response, local_path, mapped_url) => (response, local_path, mapped_url, lit "success", None)
    | Err e => (None, None, None, lit "failed", Some e)
    end in
  (response,
   {| mt_duration_ms := duration; mt_failure_reason := failure_reason; mt_local_path := local_path;
      mt_mapped_url := mapped_url; mt_mode := map_mode rule; mt_original_url := original_url;
      mt_outcome := outcome; mt_rule_id := map_id rule; mt_rule_name := map_name rule;
      mt_source_pattern := map_source_pattern rule; mt_target_value := map_target_value rule |}).

Definition apply_map_rules_with_snapshot `{RegexEngine} {number} (s : RuntimeRuleSnapshot number)
    (workspace_id : str) (r : ParsedProxyRequest) (duration : Z)
    : ParsedProxyRequest * result (option (UpstreamResponse HeaderMap) * list MapTrace) str :=
  match active_map_rule_for_snapshot s workspace_id (view r) with
  | None => (r, Ok (None, []))
  | Some rule =>
      let original_url := url_to_string (url r) in
      let finish r result :=
        let '(response, trace) := map_trace rule original_url duration result in
        (r, Ok (response, [trace])) in
      if bool_decide (map_mode rule = lit "local") then
        finish r (let? rl := apply_local_map_rule r rule in Ok (Some rl.1, Some rl.2, None))
      else if bool_decide (map_mode rule = lit "remote") then
        let '(r, result) := apply_remote_or_rollback r rule in finish r result
      else (r, Ok (None, []))
  end.
End Map.

(** ** Lemmas: paths *)

Definition is_normal (c : Component) : Prop := match c with Normal _ => True | _ => False end.

(** The part of [components] that depends on the start of the path. *)
Definition lead (p : bytes) : list Component :=
  if starts_with p [slash] then [RootDir]
  else if bool_decide (head (split slash p) = Some (lit ".")) then [CurDir] else [].

Lemma components_lead p : components p = lead p ++ omap segment_component (split slash p).
Proof. done. Qed.

Lemma lead_app p s : p ≠ [] → lead (p ++ slash :: s) = lead p.
Proof.
  intros Hp. unfold lead. rewrite split_app_sep. destruct p as [|b p]; [done|].
  destruct (split slash (b :: p)) eqn:Hs; [by apply split_nonempty in Hs|]. cbn [app head starts_with].
  done.
Qed.

Lemma normal_components rel :
  Forall is_normal (components rel) → components rel = omap segment_component (split slash rel).
Proof.
  rewrite components_lead. unfold lead. destruct (starts_with rel [slash]); [by inversion_clear 1|].
  case_bool_decide; [by inversion_clear 1|done].
Qed.

Lemma push_slash p s : p ≠ [] → starts_with s [slash] = false →
  ∃ p', push p s = p' ++ slash :: s ∧ (p = p' ∨ p = p' ++ [slash]).
Proof.
  intros Hp Hs. unfold push. rewrite Hs. destruct p as [|b p _] using rev_ind; [done|]. rewrite last_snoc.
  destruct (b =? slash) eqn:Hb; breflect.
  - subst. exists p. rewrite <- app_assoc. by split; [|right].
  - exists (p ++ [b]). by split; [|left].
Qed.

(** Pushing a relative path of normal components appends them. *)
Lemma components_push p rel :
  p ≠ [] → starts_with rel [slash] = false → Forall is_normal (components rel) →
  components (push p rel) = components p ++ components rel.
Proof.
  intros Hp Hr Hn. destruct (push_slash p rel Hp Hr) as (p' & -> & Hp').
  rewrite (normal_components rel Hn), !components_lead, split_app_sep, omap_app.
  destruct Hp' as [<-| ->].
  - by rewrite lead_app, <- app_assoc by done.
  - rewrite split_app_sep, omap_app. cbn [split omap list_omap segment_component]. rewrite app_nil_r.
    destruct p' as [|b p']; [done|]. by rewrite !lead_app, <- app_assoc by done.
Qed.

Lemma segment_components s :
  slash ∉ s → s ≠ [] → s ≠ lit "." → s ≠ lit ".." →
  components s = [Normal s] ∧ starts_with s [slash] = false.
Proof.
  intros Hs H1 H2 H3. assert (starts_with s [slash] = false) as Hr.
  { apply not_true_iff_false. intros [t ->]%starts_with_spec. apply Hs. left. }
  split; [|done]. unfold components. rewrite Hr.
  assert (split slash s = [s]) as ->.
  { clear -Hs. induction s as [|b s IH]; cbn [split]; [done|]. apply not_elem_of_cons in Hs as [Hb Hs].
    rewrite (proj2 (Z.eqb_neq b slash)) by congruence. by rewrite IH. }
  cbn [head]. rewrite bool_decide_false by congruence. cbn [app omap list_omap]. unfold segment_component.
  by rewrite !bool_decide_false by done.
Qed.

(** A named component of a path is one plain segment. *)
Lemma normal_component_plain p f :
  Normal f ∈ components p → components f = [Normal f] ∧ starts_with f [slash] = false.
Proof.
  intros Hl. unfold components in Hl. apply elem_of_app in Hl as [Hl|Hl].
  { destruct (starts_with p [slash]); [set_solver|]. case_bool_decide; set_solver. }
  apply list_elem_of_omap in Hl as (s & Hin & Hs). unfold segment_component in Hs.
  repeat case_bool_decide; simplify_eq/=; try done. apply segment_components; try done.
  exact (proj1 (Forall_forall _ _) (split_no_sep slash p) f Hin).
Qed.

(** The segments of a request path that name something. *)
Definition names_something (s : bytes) : bool :=
  negb (bool_decide (s = []) || bool_decide (s = lit ".") || bool_decide (s = lit "..")).

Lemma normal_all l : Forall is_normal (map Normal l).
Proof. induction l; by constructor. Qed.

Lemma push_segments_spec segs rel out :
  Forall (fun s => slash ∉ s) segs → Forall is_normal (components rel) → starts_with rel [slash] = false →
  push_segments segs rel = Some out →
  components out = components rel ++ map Normal (List.filter names_something segs) ∧
  starts_with out [slash] = false ∧ Forall (fun s => 0 ∉ s) (List.filter names_something segs).
Proof.
  intros Hs. revert rel. induction Hs as [|s segs Hs Hsegs IH]; intros rel Hn Hr; cbn [push_segments List.filter].
  { intros [= <-]. cbn. by rewrite app_nil_r. }
  destruct (names_something s) eqn:Hns; unfold names_something in Hns;
    [apply negb_true_iff in Hns|apply negb_false_iff in Hns]; rewrite Hns; [|by apply IH].
  apply orb_false_iff in Hns as [[H1 H2]%orb_false_iff H3]. breflect.
  destruct (is_safe_local_segment s) eqn:Hsafe; cbn [negb]; [|done].
  assert (0 ∉ s) as H0 by (unfold is_safe_local_segment in Hsafe; by case_bool_decide).
  destruct (segment_components s Hs H1 H2 H3) as [Hc Hss]. cbn [map].
  assert (components (push rel s) = components rel ++ [Normal s] ∧ starts_with (push rel s) [slash] = false) as [Hp Hps].
  { destruct rel as [|b rel]; [unfold push; rewrite Hss; cbn [last]; by rewrite Hc|].
    split; [rewrite components_push, Hc by (done || (rewrite Hc; by repeat constructor)); done|].
    destruct (push_slash (b :: rel) s) as (p' & -> & Hp'); [done..|].
    destruct p' as [|b' p']; [by destruct Hp' as [?|[= -> _]]|]. by destruct Hp' as [[= <- _]|[= <- _]]. }
  intros Ho. destruct (IH (push rel s)) as (-> & H4 & H5); [|done..|].
  { rewrite Hp. apply Forall_app. split; [done|by repeat constructor]. }
  rewrite Hp, <- app_assoc. split_and!; [done..|by constructor].
Qed.

Lemma split_trim_start c s :
  List.filter (fun w => negb (bool_decide (w = []))) (split c (trim_start_matches c s))
    = List.filter (fun w => negb (bool_decide (w = []))) (split c s).
Proof.
  induction s as [|b s IH]; [done|]. cbn [trim_start_matches]. destruct (b =? c) eqn:Hb; [|done].
  cbn [split]. by rewrite Hb, IH.
Qed.

Lemma filter_names segs :
  List.filter names_something segs
    = List.filter names_something (List.filter (fun w => negb (bool_decide (w = []))) segs).
Proof.
  induction segs as [|s segs IH]; cbn [List.filter]; [done|]. rewrite IH.
  destruct (bool_decide (s = [])) eqn:Hs; cbn [negb List.filter]; [|done].
  unfold names_something at 1. by rewrite Hs.
Qed.

Lemma sanitize_spec p rel :
  sanitize_request_path p = Some rel →
  components rel = map Normal (List.filter names_something (split slash p)) ∧
  starts_with rel [slash] = false ∧ Forall (fun s => 0 ∉ s) (List.filter names_something (split slash p)).
Proof.
  intros Hs. apply push_segments_spec in Hs; [|apply split_no_sep|constructor|done].
  by rewrite filter_names, split_trim_start, <- filter_names in Hs.
Qed.

Lemma components_prefix_spec r p : components_prefix r p = true ↔ r `prefix_of` p.
Proof.
  revert p. induction r as [|c r IH]; intros p; cbn.
  { split; [intros _; apply prefix_nil|done]. }
  destruct p as [|d p].
  { split; [done|]. by intros ?%prefix_nil_not. }
  rewrite andb_true_iff, bool_decide_eq_true, IH. split.
  - intros [-> Hp]. by apply prefix_cons.
  - intros Hp. split; [by apply prefix_cons_inv_1 in Hp|by apply prefix_cons_inv_2 in Hp].
Qed.

Lemma path_is_within_spec p root :
  path_is_within p root = true ↔ components root `prefix_of` components p.
Proof.
  unfold path_is_within. rewrite orb_true_iff, bool_decide_eq_true, components_prefix_spec.
  split; [|by right]. by intros [-> |?].
Qed.

(** ** Properties: Map Local *)

Section LocalProperties.
Context `{HeaderOps} `{UrlOps} `{FileSystem}.

(** A canonical path resolves to itself, and a regular file can be resolved. *)
Definition fs_laws : Prop :=
  (∀ p q, canonicalize p = Ok q → canonicalize q = Ok q) ∧
  (∀ p, is_file p = true → ∃ q, canonicalize p = Ok q).

Lemma read_response p resp :
  build_local_file_response p = Ok resp → read p = Ok (response_body resp) ∧ status_code resp = 200.
Proof. unfold build_local_file_response. destruct (read p); [|done]. by intros [= <-]. Qed.

Lemma resolve_local_path_within root rp q :
  resolve_local_path root rp = Ok q →
  components root `prefix_of` components q ∧ ∃ p, q = default p (ok (canonicalize p)).
Proof.
  unfold resolve_local_path. destruct (sanitize_request_path rp); [|done]. cbn [ok_or rbind].
  set (p := if is_dir _ then _ else _). destruct (path_is_within _ root) eqn:Hw; cbn [negb]; [|done].
  intros [= <-]. apply path_is_within_spec in Hw. eauto.
Qed.

(** C20: Map Local serves only files below the mapped target.  Whatever the request
    path is, the bytes served are the contents of a canonical path (no symbolic
    link left to follow) that has the canonical target as a prefix; before
    links are resolved, the path is the target followed by exactly the named
    segments of the request, [.] and [..] dropped. *)
Theorem local_map_confined r rule resp shown :
  fs_laws → apply_local_map_rule r rule = Ok (resp, shown) →
  (∃ root q, canonicalize (map_target_value rule) = Ok root ∧ canonicalize q = Ok q ∧
     components root `prefix_of` components q ∧ read q = Ok (response_body resp) ∧
     shown = display q ∧ status_code resp = 200) ∧
  ∀ root rel, root ≠ [] → sanitize_request_path (url_path (url r)) = Some rel → rel ≠ [] →
    components (push root rel) =
      components root ++ map Normal (List.filter names_something (split slash (url_path (url r)))).
Proof.
  intros [Hidem Hfile] Ha. split.
  - unfold apply_local_map_rule in Ha.
    destruct (canonicalize (map_target_value rule)) as [root|] eqn:Hc; [|done].
    pose proof (Hidem _ _ Hc) as Hroot. destruct (is_file root).
    { unfold with_display in Ha. destruct (build_local_file_response root) as [resp'|] eqn:Hb; [|done].
      apply read_response in Hb as [Hr Hst]. injection Ha as -> <-. exists root, root. by split_and!. }
    destruct (if is_dir root then _ else _) as [q|] eqn:Hq; cbn [rbind] in Ha; [|done].
    destruct (is_file q) eqn:Hf; [|done]. unfold with_display in Ha.
    destruct (build_local_file_response q) as [resp'|] eqn:Hb; [|done].
    apply read_response in Hb as [Hr Hst]. injection Ha as -> <-. exists root, q. split_and!; try done.
    + destruct (is_dir root); [|by injection Hq as <-].
      apply resolve_local_path_within in Hq as [_ [p Hp]].
      destruct (canonicalize p) as [p'|] eqn:Hcp; cbn in Hp; subst q; [by eapply Hidem|].
      destruct (Hfile _ Hf) as [q' Hq']. congruence.
    + destruct (is_dir root); [|by injection Hq as <-]. by apply resolve_local_path_within in Hq as [? _].
  - intros root rel Hne Hs _. apply sanitize_spec in Hs as (Hc & Hr & _).
    rewrite components_push; [by rewrite Hc|done..|rewrite Hc; apply normal_all].
Qed.
End LocalProperties.

(** ** Lemmas: Map Remote *)

(** The non-empty segments of a URL path. *)
Definition path_segments (p : str) : list str :=
  List.filter (fun w => negb (bool_decide (w = []))) (split slash p).

Lemma path_segments_app a b : path_segments (a ++ slash :: b) = path_segments a ++ path_segments b.
Proof. unfold path_segments. by rewrite split_app_sep, List.filter_app. Qed.

Lemma path_segments_slash b : path_segments (slash :: b) = path_segments b.
Proof. apply (path_segments_app []). Qed.

Lemma path_segments_trim_start p : path_segments (trim_start_matches slash p) = path_segments p.
Proof. apply split_trim_start. Qed.

Lemma path_segments_trim_end p : path_segments (trim_end_matches slash p) = path_segments p.
Proof.
  induction p as [|b p IH] using rev_ind; [done|]. destruct (decide (b = slash)) as [->|Hb].
  - rewrite trim_end_matches_same, IH, path_segments_app. cbn. by rewrite app_nil_r.
  - by rewrite trim_end_matches_other.
Qed.

Lemma trim_end_start base :
  starts_with base [slash] = true →
  trim_end_matches slash base = [] ∨ starts_with (trim_end_matches slash base) [slash] = true.
Proof.
  induction base as [|b base IH] using rev_ind; [by left|]. intros Hs.
  destruct (decide (b = slash)) as [->|Hb]; [|rewrite trim_end_matches_other by done; by right].
  rewrite trim_end_matches_same. destruct base as [|b' base]; [by left|]. apply IH.
  apply starts_with_spec in Hs as [t Ht]. cbn in Ht. injection Ht as -> _. done.
Qed.

Section RemoteLemmas.
Context `{HeaderOps} `{UrlOps} `{FileSystem}.

(** A failed rebuild of a coherent request touches only the header map, and sends
    the same headers: going back to the old URL restores the request. *)
Lemma rebuild_failure_undone r u r1 e :
  coherent r → rebuild_request_runtime_state (with_url r u) = (r1, Err e) →
  coherent (with_url r1 (url r)) ∧ same_wire r (with_url r1 (url r)).
Proof.
  intros [Hh Hp Hq Hraw (m & Hb & Hm)]. unfold rebuild_request_runtime_state.
  change (request_headers (with_url r u)) with (request_headers r). rewrite Hb.
  change (url (with_headers (with_url r u) m)) with u. destruct (url_host_str u); [done|]. intros Hr. apply pair_equal_spec in Hr as [<- _].
  split; split; try done. exists m. by split.
Qed.

Lemma remote_or_rollback_cases r rule r' result :
  coherent r → apply_remote_or_rollback r rule = (r', result) →
  coherent r' ∧
  ((same_wire r r' ∧ ∃ e, result = Err e) ∨
   ∃ target, url_parse (map_target_value rule) = Ok target ∧
     result = Ok (None, None, Some (url_to_string (url r')))).
Proof.
  intros Hc. unfold apply_remote_or_rollback, apply_remote_map_rule.
  destruct (url_parse (map_target_value rule)) as [target|e] eqn:Ht.
  2: { intros Hr. apply pair_equal_spec in Hr as [<- <-].
       replace (with_url r (url r)) with r by (by destruct r).
       destruct (coherent_rebuild r Hc) as (r1 & -> & Hc1 & Hs). split; [done|]. left. eauto. }
  set (u := if map_preserve_query rule then _ else _).
  destruct (rebuild_request_runtime_state (with_url r u)) as [r1 [[]|e]] eqn:Hb;
    intros Hr; apply pair_equal_spec in Hr as [<- <-].
  - destruct (rebuild_ok _ _ Hb) as (Hc1 & Hu & _). split; [done|]. right. exists target. split; [done|].
    by rewrite Hu.
  - destruct (rebuild_failure_undone r u r1 e Hc Hb) as [Hc1 Hs1].
    destruct (coherent_rebuild _ Hc1) as (r2 & -> & Hc2 & Hs2). split; [done|]. left.
    split; [by transitivity (with_url r1 (url r))|eauto].
Qed.

(** The rollback sends the same request, but does not restore its protocol label:
    a request that arrived over HTTP/2 ([h2]) is then labelled with the scheme of
    its URL. *)
Lemma failed_remote_relabels r rule r' e :
  coherent r → apply_remote_or_rollback r rule = (r', Err e) → protocol r' = url_scheme (url r).
Proof.
  intros Hc Ha. pose proof (remote_or_rollback_cases _ _ _ _ Hc Ha) as [_ [[Hs _]|(t & _ & ?)]]; [|done].
  assert (∀ q, (rebuild_request_runtime_state q).2 = Ok tt →
    protocol (rebuild_request_runtime_state q).1 = url_scheme (url q)) as Hp.
  { intros q. unfold rebuild_request_runtime_state. by repeat case_match. }
  revert Ha. unfold apply_remote_or_rollback. destruct (apply_remote_map_rule r rule) as [r1 [?|e1]] eqn:Hm; [done|].
  intros [= <- _]. rewrite Hp; [done|]. revert Hm. unfold apply_remote_map_rule.
  destruct (url_parse _) as [target|].
  - set (u := if map_preserve_query rule then _ else _).
    destruct (rebuild_request_runtime_state (with_url r u)) as [r2 [[]|e2]] eqn:Hb; [done|].
    intros [= <- _]. destruct (rebuild_failure_undone r u r2 e2 Hc Hb) as [Hc1 _].
    by destruct (coherent_rebuild _ Hc1) as (r3 & -> & _).
  - intros [= <- _]. replace (with_url r (url r)) with r by (by destruct r).
    by destruct (coherent_rebuild _ Hc) as (r3 & -> & _).
Qed.
End RemoteLemmas.

(** ** Properties: Map Remote *)

Section RemoteProperties.
Context `{HeaderOps} `{UrlOps} `{FileSystem} `{RegexEngine} {number : Type}.

(** What the selected rule did, by the shape of the trace list. *)
Definition map_outcome (r r' : ParsedProxyRequest) (response : option (UpstreamResponse HeaderMap))
    (traces : list MapTrace) : Prop :=
  match traces with
  | [] => response = None ∧ r' = r
  | [t] =>
      (mt_outcome t = lit "failed" ∧ response = None ∧ same_wire r r' ∧ is_Some (mt_failure_reason t)) ∨
      (mt_outcome t = lit "success" ∧ is_Some response ∧ r' = r ∧ mt_mode t = lit "local") ∨
      (mt_outcome t = lit "success" ∧ response = None ∧ mt_mode t = lit "remote" ∧
       mt_mapped_url t = Some (url_to_string (url r')))
  | _ => False
  end.

(** The rules that have an effect: others are skipped without a trace. *)
Definition map_mode_known (rule : MapRule) : bool :=
  bool_decide (map_mode rule ∈ [lit "local"; lit "remote"]).

Lemma map_rules_ok (s : RuntimeRuleSnapshot number) ws r d :
  ∃ out, (apply_map_rules_with_snapshot s ws r d).2 = Ok out.
Proof.
  unfold apply_map_rules_with_snapshot. destruct (active_map_rule_for_snapshot _ _ _) as [rule|]; [|by eexists].
  destruct (bool_decide _); [destruct (map_trace _ _ _ _); by eexists|].
  destruct (bool_decide _); [|by eexists].
  destruct (apply_remote_or_rollback r rule). destruct (map_trace _ _ _ _). by eexists.
Qed.

Lemma map_rules_traced (s : RuntimeRuleSnapshot number) ws r d r' res :
  apply_map_rules_with_snapshot s ws r d = (r', res) →
  ∃ response traces, res = Ok (response, traces) ∧ (traces = [] → r' = r ∧ response = None) ∧
    map mt_rule_id traces =
      map map_id (List.filter map_mode_known (option_list (active_map_rule_for_snapshot s ws (view r)))).
Proof.
  unfold apply_map_rules_with_snapshot. destruct (active_map_rule_for_snapshot s ws (view r)) as [rule|].
  2: { intros Hr. apply pair_equal_spec in Hr as [<- <-]. by exists None, []. }
  change (option_list (Some rule)) with [rule]. cbn [List.filter]. unfold map_mode_known. case_bool_decide as Hl.
  { rewrite bool_decide_true by set_solver. unfold map_trace.
    destruct (apply_local_map_rule r rule) as [[resp shown]|e]; intros Hr; apply pair_equal_spec in Hr as [<- <-]; by do 2 eexists. }
  case_bool_decide as Hm.
  - rewrite bool_decide_true by set_solver. unfold map_trace. destruct (apply_remote_or_rollback r rule) as [r1 [[[??]?]|e]];
      intros Hr; apply pair_equal_spec in Hr as [<- <-]; by do 2 eexists.
  - rewrite bool_decide_false by set_solver. intros Hr. apply pair_equal_spec in Hr as [<- <-]. by exists None, [].
Qed.

Lemma apply_map_rules_cases (s : RuntimeRuleSnapshot number) ws r d r' res :
  coherent r → apply_map_rules_with_snapshot s ws r d = (r', res) →
  ∃ response traces, res = Ok (response, traces) ∧ coherent r' ∧ map_outcome r r' response traces ∧
    map mt_rule_id traces =
      map map_id (List.filter map_mode_known (option_list (active_map_rule_for_snapshot s ws (view r)))).
Proof.
  intros Hc. unfold apply_map_rules_with_snapshot.
  destruct (active_map_rule_for_snapshot s ws (view r)) as [rule|].
  2: { intros Hr. apply pair_equal_spec in Hr as [<- <-]. by exists None, []. }
  change (option_list (Some rule)) with [rule]. cbn [List.filter]. unfold map_mode_known. case_bool_decide as Hl.
  { rewrite bool_decide_true by set_solver.
    destruct (apply_local_map_rule r rule) as [[resp shown]|e]; intros Hr; apply pair_equal_spec in Hr as [<- <-];
      do 2 eexists; (split; [done|]); (split; [done|]); cbn [map_outcome mt_outcome mt_failure_reason mt_mode mt_mapped_url].
    - split; [|done]. right. left. by split_and!; eauto.
    - split; [|done]. left. by split_and!; eauto. }
  case_bool_decide as Hm.
  2: { rewrite bool_decide_false by set_solver.
       intros Hr. apply pair_equal_spec in Hr as [<- <-]. by exists None, []. }
  rewrite bool_decide_true by set_solver.
  destruct (apply_remote_or_rollback r rule) as [r1 result] eqn:Ha.
  apply remote_or_rollback_cases in Ha as [Hc1 [[Hs [e ->]]|(target & _ & ->)]]; [| |done];
    intros Hr; apply pair_equal_spec in Hr as [<- <-]; do 2 eexists; (split; [done|]); (split; [done|]);
    cbn [map_outcome mt_outcome mt_failure_reason mt_mode mt_mapped_url]; (split; [|done]).
  - left. by split_and!; eauto.
  - right. right. by split_and!.
Qed.

(** A map rule never breaks the request.  With a coherent request, applying
    the selected rule never fails the pipeline: if the rule fails, the request
    that is sent is exactly the one before (a half-applied Map Remote is rolled
    back), nothing is served and the trace says why; a successful Map Local
    leaves the request alone; after a successful Map Remote the request is
    coherent and the trace shows its URL. *)
Theorem map_rule_failure_is_harmless (s : RuntimeRuleSnapshot number) ws r d r' res :
  coherent r → apply_map_rules_with_snapshot s ws r d = (r', res) →
  ∃ response traces, res = Ok (response, traces) ∧ coherent r' ∧
    match traces with
    | [] => response = None ∧ r' = r
    | [t] =>
        (mt_outcome t = lit "failed" ∧ response = None ∧ same_wire r r' ∧ is_Some (mt_failure_reason t)) ∨
        (mt_outcome t = lit "success" ∧ is_Some response ∧ r' = r ∧ mt_mode t = lit "local") ∨
        (mt_outcome t = lit "success" ∧ response = None ∧ mt_mode t = lit "remote" ∧
         mt_mapped_url t = Some (url_to_string (url r')))
    | _ => False
    end.
Proof.
  intros Hc Ha. apply apply_map_rules_cases in Ha as (response & traces & -> & Hc' & Ho & _); [|done].
  by exists response, traces.
Qed.
End RemoteProperties.

(** The base path of a Map Remote target is neither lost nor doubled: the
    segments of the joined path are those of the base followed by those of the
    request, or those of the request when it already lies below the base; the
    result is absolute whenever both paths are. *)
Theorem join_keeps_base base request :
  starts_with base [slash] = true → starts_with request [slash] = true →
  starts_with (join_remote_base_path base request) [slash] = true ∧
  (path_segments (join_remote_base_path base request) = path_segments base ++ path_segments request ∨
   path_segments (join_remote_base_path base request) = path_segments request ∧
   path_segments base `prefix_of` path_segments request).
Proof.
  intros Hb Hr. unfold join_remote_base_path.
  rewrite (bool_decide_false (base = [])), (bool_decide_false (request = [])) by (by intros ->).
  case_bool_decide as Hroot; [subst; split; [done|by left]|].
  set (b := trim_end_matches slash base). set (q := trim_start_matches slash request).
  assert (path_segments b = path_segments base) as Eb by apply path_segments_trim_end.
  assert (path_segments q = path_segments request) as Eq by apply path_segments_trim_start.
  assert (path_segments (trim_start_matches slash b) = path_segments base) as Ebare
    by (by rewrite path_segments_trim_start).
  assert (∀ x, starts_with (b ++ slash :: x) [slash] = true) as Habs.
  { intros x. destruct (trim_end_start base Hb) as [Hs|Hs]; fold b in Hs; [by rewrite Hs|].
    apply starts_with_spec in Hs as [t ->]. done. }
  destruct (bool_decide (q = _)) eqn:Hq; cbn [orb]; breflect.
  { split; [done|]. right. rewrite path_segments_slash, Eq. split; [done|]. by rewrite <- Ebare, <- Hq, Eq. }
  destruct (starts_with q _) eqn:Hs.
  { split; [done|]. right. rewrite path_segments_slash, Eq. split; [done|].
    apply starts_with_spec in Hs as [t Ht]. rewrite <- Eq, Ht, <- app_assoc, <- Ebare. cbn [app].
    rewrite path_segments_app. by apply prefix_app_r. }
  case_bool_decide as Hne.
  - split; [apply (Habs [])|]. left. rewrite path_segments_app, Eb, <- Eq, Hne. done.
  - split; [apply Habs|]. left. by rewrite path_segments_app, Eb, Eq.
Qed.

(** ** Witnesses *)

(** A directory [/srv] with one file. *)
Definition demo_fs : FileSystem :=
  {| canonicalize p := if bool_decide (p ∈ [lit "/srv"; lit "/srv/a.txt"]) then Ok p
                       else Err (lit "No such file or directory");
     is_file p := bool_decide (p = lit "/srv/a.txt");
     is_dir p := bool_decide (p = lit "/srv");
     read p := if bool_decide (p = lit "/srv/a.txt") then Ok (lit "hello") else Err (lit "Is a directory") |}.

Lemma demo_fs_laws : @fs_laws demo_fs.
Proof.
  split; cbn [canonicalize is_file demo_fs].
  - intros p q. case_bool_decide as Hp; [|done]. intros [= <-]. by rewrite bool_decide_true.
  - intros p Hp. breflect. subst p. exists (lit "/srv/a.txt"). by rewrite bool_decide_true by set_solver.
Qed.

Definition demo_map (mode target : str) : MapRule :=
  {| map_id := lit "m1"; map_enabled := true; map_mode := mode; map_name := lit "Map"; map_note := None;
     map_preserve_path := true; map_preserve_query := true; map_priority := 1; map_source_pattern := lit "*";
     map_target_value := target; map_match_type := None; map_workspace_id := lit "w" |}.

Lemma local_map_confined_witness :
  let r := with_url demo_request ((lit "/../a.txt", None) : @Url demo_urls) in
  ∃ resp shown, @apply_local_map_rule list_headers demo_urls demo_fs r (demo_map (lit "local") (lit "/srv"))
                  = Ok (resp, shown) ∧
    ∃ q, components (lit "/srv") `prefix_of` components q ∧ @read demo_fs q = Ok (response_body resp).
Proof.
  intros r. do 2 eexists. split; [vm_compute; reflexivity|].
  edestruct (@local_map_confined list_headers demo_urls demo_fs r (demo_map (lit "local") (lit "/srv")))
    as [(root & q & Hroot & _ & Hq & Hr & _) _].
  - exact demo_fs_laws.
  - vm_compute. reflexivity.
  - exists q. injection Hroot as <-. by split.
Defined.

Definition demo_map_snapshot (rule : MapRule) : @RuntimeRuleSnapshot no_regex Z :=
  {| generation := 1; rewrite := []; map_rules := [{| cm_rule := rule; cm_host_lock := None |}] |}.

Lemma map_rule_failure_is_harmless_witness :
  let out := @apply_map_rules_with_snapshot list_headers demo_urls demo_fs no_regex Z
               (demo_map_snapshot (demo_map (lit "remote") [])) (lit "w") demo_request 0 in
  ∃ response traces, out.2 = Ok (response, traces) ∧ coherent out.1.
Proof.
  intros out.
  destruct (@map_rule_failure_is_harmless list_headers demo_urls demo_fs no_regex Z
    (demo_map_snapshot (demo_map (lit "remote") [])) (lit "w") demo_request 0 out.1 out.2
    demo_request_coherent (surjective_pairing out)) as (response & traces & Hres & Hc & _).
  exists response, traces. by split.
Defined.

Lemma join_keeps_base_witness :
  join_remote_base_path (lit "/api/") (lit "/v1/users") = lit "/api/v1/users" ∧
  path_segments (join_remote_base_path (lit "/api/") (lit "/v1/users")) = [lit "api"; lit "v1"; lit "users"].
Proof.
  split; [reflexivity|].
  destruct (join_keeps_base (lit "/api/") (lit "/v1/users")) as [_ [-> |[_ [t Ht]]]]; [done|done|reflexivity|].
  vm_compute in Ht. discriminate Ht.
Defined.
