(* ===== verification/Pipeline.v ===== *)
(** * Pipeline: the rule stages of one request (proxy-core/src/rules/mod.rs)

    Rewrite rules, then the map rule selected for the rewritten request, then
    the throttle selection for the mapped request; all on one snapshot of the
    rule runtime.  The clock readings of the traces are arguments. *)

From S2P Require Import Prelude Str Patterns JsonPath RuleTypes RuleManagers RuleSelection HttpIo Rewrite MapRules.

(** ** Definitions *)

Section Pipeline.
Context {number : Type} `{JsonOps number} `{Payloads number} `{Decoders} `{HeaderOps} `{UrlOps}
  `{FileSystem} `{RegexEngine}.

Record RequestRuntimeOutcome := {
  local_response : option (UpstreamResponse HeaderMap);
  map_traces : list MapTrace;
  rewrite_traces : list RewriteTrace;
  throttle_selection : option ThrottleRuntimeSelection
}.

Definition apply_request_runtime_rules_with_snapshot (s : RuntimeRuleSnapshot number)
    (throttle_manager : option ThrottleManager) (workspace_id : str) (r : ParsedProxyRequest)
    (is_http2 : bool) (clock : list Z) (map_duration : Z)
    : ParsedProxyRequest * result RequestRuntimeOutcome str :=
  let '(r, rewritten) := apply_request_rewrite_rules_with_snapshot s workspace_id r is_http2 clock in
  match rewritten with
  | Err e => (r, Err e)
  | Ok rewrites =>
      let '(r, mapped) := apply_map_rules_with_snapshot s workspace_id r map_duration in
      match mapped with
      | Err e => (r, Err e)
      | Ok (response, maps) =>
          (r, Ok {| local_response := response; map_traces := maps; rewrite_traces := rewrites;
                    throttle_selection :=
                      active_throttle_selection_for_request throttle_manager workspace_id (view r) |})
      end
  end.

(** The entry points that read the snapshot of a manager themselves. *)
Definition apply_request_rewrite_rules (h : gmap Z (RuntimeRuleSnapshot number)) (rewrite_manager : option Z)
    (workspace_id : str) (r : ParsedProxyRequest) (is_http2 : bool) (clock : list Z)
    : ParsedProxyRequest * result (list RewriteTrace) str :=
  match rewrite_manager with
  | None => (r, Ok [])
  | Some m => apply_request_rewrite_rules_with_snapshot (snapshot h m) workspace_id r is_http2 clock
  end.

Definition apply_response_rewrite_rules (h : gmap Z (RuntimeRuleSnapshot number)) (rewrite_manager : option Z)
    (workspace_id : str) (request : ParsedProxyRequest) (r : UpstreamResponse HeaderMap) (is_http2 : bool)
    (clock : list Z) : UpstreamResponse HeaderMap * result (list RewriteTrace) str :=
  match rewrite_manager with
  | None => (r, Ok [])
  | Some m => apply_response_rewrite_rules_with_snapshot (snapshot h m) workspace_id request r is_http2 clock
  end.

Definition apply_map_rules (h : gmap Z (RuntimeRuleSnapshot number)) (map_manager : option Z)
    (workspace_id : str) (r : ParsedProxyRequest) (duration : Z)
    : ParsedProxyRequest * result (option (UpstreamResponse HeaderMap) * list MapTrace) str :=
  match map_manager with
  | None => (r, Ok (None, []))
  | Some m => apply_map_rules_with_snapshot (snapshot h m) workspace_id r duration
  end.

(** [h1], [h2]: the runtimes when the rewrite and the map stage read theirs. *)
Definition apply_request_runtime_rules (h1 h2 : gmap Z (RuntimeRuleSnapshot number))
    (rewrite_manager map_manager : option Z) (throttle_manager : option ThrottleManager) (workspace_id : str)
    (r : ParsedProxyRequest) (is_http2 : bool) (clock : list Z) (map_duration : Z)
    : ParsedProxyRequest * result RequestRuntimeOutcome str :=
  let '(r, rewritten) := apply_request_rewrite_rules h1 rewrite_manager workspace_id r is_http2 clock in
  match rewritten with
  | Err e => (r, Err e)
  | Ok rewrites =>
      let '(r, mapped) := apply_map_rules h2 map_manager workspace_id r map_duration in
      match mapped with
      | Err e => (r, Err e)
      | Ok (response, maps) =>
          (r, Ok {| local_response := response; map_traces := maps; rewrite_traces := rewrites;
                    throttle_selection :=
                      active_throttle_selection_for_request throttle_manager workspace_id (view r) |})
      end
  end.
End Pipeline.

(** ** Properties *)

Section PipelineProperties.
Context {number : Type} `{JsonOps number} `{Payloads number} `{Decoders} `{HeaderOps} `{UrlOps}
  `{FileSystem} `{RegexEngine}.

(** C38: The rule stages never fail a request, whatever it is.  Every active rewrite
    rule leaves its trace.  The request they leave is the one they were given, or a
    coherent one (its head, path, query and headers agree with its URL and entries),
    unless a trace records the failure of a rebuild.  At most one map rule runs, the
    one selected for that request; if none leaves a trace, the request goes on as
    it is.  If the rewritten request is coherent, so is the one that goes on, and the map
    rule had its documented outcome: served locally with the request as it was, sent
    to the mapped URL, or failed and sent as before.  The throttle profile is the
    one selected for the request that goes on. *)
Theorem runtime_rules_never_fail (s : RuntimeRuleSnapshot number) tm ws r h2 clock d r' res :
  apply_request_runtime_rules_with_snapshot s tm ws r h2 clock d = (r', res) →
  ∃ o r1, res = Ok o ∧
    apply_request_rewrite_rules_with_snapshot s ws r h2 clock = (r1, Ok (rewrite_traces o)) ∧
    map tr_rule_id (rewrite_traces o) =
      map rw_id (active_rewrite_rules_for_snapshot s ws (lit "request") (view r)) ∧
    (r1 = r ∨ coherent r1 ∨ Exists rebuild_failed (rewrite_traces o)) ∧
    map mt_rule_id (map_traces o) =
      map map_id (List.filter map_mode_known (option_list (active_map_rule_for_snapshot s ws (view r1)))) ∧
    (map_traces o = [] → r' = r1 ∧ local_response o = None) ∧
    (coherent r1 → coherent r' ∧ map_outcome r1 r' (local_response o) (map_traces o)) ∧
    throttle_selection o = active_throttle_selection_for_request tm ws (view r').
Proof.
  unfold apply_request_runtime_rules_with_snapshot.
  destruct (apply_request_rewrite_rules_with_snapshot s ws r h2 clock) as [r1 rw] eqn:Hrw.
  pose proof Hrw as Hl. unfold apply_request_rewrite_rules_with_snapshot in Hl.
  destruct (request_rules_loop _ r h2 clock) as [r1' traces] eqn:Hloop. injection Hl as <- <-.
  apply request_rules_loop_spec in Hloop as [Hids Hcons].
  destruct (apply_map_rules_with_snapshot s ws r1' d) as [r2 mp] eqn:Hm.
  destruct (map_rules_traced _ _ _ _ _ _ Hm) as (response & maps & -> & Hnone & Hmids).
  intros Hr. apply pair_equal_spec in Hr as [<- <-]. eexists _, r1'. split; [done|].
  cbn [rewrite_traces map_traces local_response throttle_selection]. split_and!; try done.
  intros Hc1. apply apply_map_rules_cases in Hm as (response' & traces' & Heq & Hc2 & Ho & _); [|done]. by simplify_eq.
Qed.
End PipelineProperties.

(** ** Witness *)

(** One header rewrite and one Map Local rule. *)
Definition demo_rules : @RuntimeRuleSnapshot no_regex Z :=
  {| generation := 2; rewrite := rewrite demo_snapshot;
     map_rules := map_rules (demo_map_snapshot (demo_map (lit "local") (lit "/srv"))) |}.

Lemma runtime_rules_never_fail_witness :
  let out := @apply_request_runtime_rules_with_snapshot Z demo_json demo_payloads tag_decoders list_headers
               demo_urls demo_fs no_regex demo_rules None (lit "w") demo_request false [] 0 in
  ∃ o, out.2 = Ok o ∧ map tr_rule_id (rewrite_traces o) = [lit "r1"] ∧ throttle_selection o = None.
Proof.
  intros out.
  destruct (@runtime_rules_never_fail Z demo_json demo_payloads tag_decoders list_headers demo_urls demo_fs
    no_regex demo_rules None (lit "w") demo_request false [] 0 out.1 out.2
    (surjective_pairing out)) as (o & r1 & Ho & _ & Hids & _ & _ & _ & _ & Ht).
  exists o. split; [done|]. split; [rewrite Hids; vm_compute; reflexivity|by rewrite Ht].
Defined.
