(* ===== verification/Breakpoints.v ===== *)
(** * Breakpoints: pending interceptions (proxy-core/src/breakpoints.rs)

    The manager's two maps and the [oneshot] channels its entries own (a store,
    since the waiting task holds the other end). *)

From S2P Require Import Prelude Str Patterns HttpIo.

(** ** Definitions *)

Inductive BreakpointStage := Request | Response.

#[export] Instance BreakpointStage_eq_dec : EqDecision BreakpointStage.
Proof. solve_decision. Defined.

Inductive BreakpointActionKind := Forward | Drop | Mock.

#[export] Instance BreakpointActionKind_eq_dec : EqDecision BreakpointActionKind.
Proof. solve_decision. Defined.

Record MockResponse := {
  mock_status_code : Z;
  mock_headers : list ProxyHeaderEntry;
  mock_body_base64 : option str
}.

Record BreakpointResolution := {
  res_session_id : str;
  res_action : BreakpointActionKind;
  res_mock : option MockResponse;
  res_request_headers : option (list ProxyHeaderEntry);
  res_request_query_params : option (list ProxyHeaderEntry);
  res_request_body_base64 : option str;
  res_response_status_code : option Z;
  res_response_headers : option (list ProxyHeaderEntry);
  res_response_body_base64 : option str
}.

Record BreakpointRule := {
  bp_id : str;
  bp_enabled : bool;
  bp_url_pattern : str;
  bp_methods : list str;
  bp_stage : BreakpointStage;
  bp_match_type : option str
}.

Inductive BreakpointReleaseReason := Timeout | SenderDropped.

(** The resolution that passes the traffic through unmodified. *)
Definition forward_resolution (session_id : str) : BreakpointResolution :=
  {| res_session_id := session_id; res_action := Forward; res_mock := None;
     res_request_headers := None; res_request_query_params := None;
     res_request_body_base64 := None; res_response_status_code := None;
     res_response_headers := None; res_response_body_base64 := None |}.

(** A [oneshot] channel as its receiver sees it. *)
Inductive Chan :=
  | Waiting                           (* the sender is alive *)
  | Sent (r : BreakpointResolution)   (* a value was sent *)
  | Gone.                             (* the sender was dropped *)

Record PendingBreakpoint := { pb_rule_id : str; pb_sender : Z }.

Section Manager.
  Context `{RegexEngine}.

Record CompiledBreakpointRule := { cb_rule : BreakpointRule; cb_compiled_match : option regex }.

(** [pending] and the channel store; [receivers] are the channels whose waiting
    task has not given up, [next_chan] the next fresh channel. *)
Record BreakpointManager := {
  rules : list CompiledBreakpointRule;
  pending : gmap (list Z) PendingBreakpoint;
  chans : gmap Z Chan;
  receivers : gset Z;
  next_chan : Z
}.

Definition new_manager : BreakpointManager :=
  {| rules := []; pending := ∅; chans := ∅; receivers := ∅; next_chan := 0 |}.

Definition list_rules (m : BreakpointManager) : list BreakpointRule := map cb_rule (rules m).

Definition with_rules (m : BreakpointManager) r : BreakpointManager :=
  {| rules := r; pending := pending m; chans := chans m; receivers := receivers m;
     next_chan := next_chan m |}.

Definition with_pending (m : BreakpointManager) p c : BreakpointManager :=
  {| rules := rules m; pending := p; chans := c; receivers := receivers m;
     next_chan := next_chan m |}.

(** [sender.send(r)]: refused when the receiver is gone (the sender is consumed
    either way). *)
Definition send (m : BreakpointManager) (c : Z) (r : BreakpointResolution)
    : gmap Z Chan * bool :=
  if bool_decide (c ∈ receivers m) then (<[c := Sent r]> (chans m), true)
  else (<[c := Gone]> (chans m), false).

(** Removing an entry drops its sender. *)
Definition drop_sender (chans : gmap Z Chan) (e : option PendingBreakpoint) : gmap Z Chan :=
  match e with Some e => <[pb_sender e := Gone]> chans | None => chans end.

Definition register_pending (m : BreakpointManager) (session_id rule_id : str)
    : Z * BreakpointManager :=
  let c := next_chan m in
  (c, {| rules := rules m;
         pending := <[session_id := {| pb_rule_id := rule_id; pb_sender := c |}]> (pending m);
         chans := <[c := Waiting]> (drop_sender (chans m) (pending m !! session_id));
         receivers := {[c]} ∪ receivers m;
         next_chan := c + 1 |}).

Definition remove_pending (m : BreakpointManager) (session_id : str) : BreakpointManager :=
  with_pending m (delete session_id (pending m))
    (drop_sender (chans m) (pending m !! session_id)).

Definition resolve (m : BreakpointManager) (session_id : str) (r : BreakpointResolution)
    : result unit str * BreakpointManager :=
  match pending m !! session_id with
  | Some e =>
      let '(cs, ok) := send m (pb_sender e) r in
      (if ok then Ok tt
       else Err (lit "failed to send breakpoint resolution — receiver already dropped"),
       with_pending m (delete session_id (pending m)) cs)
  | None => (Err (lit "no pending breakpoint found for session " ++ session_id), m)
  end.

(** One iteration of the cancel loops. *)
Definition cancel_one (m : BreakpointManager) (session_id : str) : BreakpointManager :=
  match pending m !! session_id with
  | Some e =>
      with_pending m (delete session_id (pending m))
        (send m (pb_sender e) (forward_resolution session_id)).1
  | None => m
  end.

Definition cancel_all (m : BreakpointManager) : BreakpointManager :=
  fold_left cancel_one (map_to_list (pending m)).*1 m.

Definition cancel_for_rules (m : BreakpointManager) (rule_ids : list str) : BreakpointManager :=
  let keys_to_remove :=
    (filter (fun e => pb_rule_id e.2 ∈ rule_ids) (map_to_list (pending m))).*1 in
  fold_left cancel_one keys_to_remove m.

Definition active_ids (rs : list CompiledBreakpointRule) : list str :=
  map (fun c => bp_id (cb_rule c)) (List.filter (fun c => bp_enabled (cb_rule c)) rs).

Definition set_rules (m : BreakpointManager) (rs : list BreakpointRule) : BreakpointManager :=
  let compiled :=
    map (fun r => {| cb_rule := r;
                     cb_compiled_match := compile_match_regex (bp_match_type r) (bp_url_pattern r) |})
      rs in
  let old_active_ids := active_ids (rules m) in
  let new_active_ids := active_ids compiled in
  let removed_ids :=
    List.filter (fun id => negb (bool_decide (id ∈ new_active_ids))) old_active_ids in
  let m := with_rules m compiled in
  match removed_ids with [] => m | _ => cancel_for_rules m removed_ids end.

Definition rule_breaks (stage : BreakpointStage) (method url : str) (cr : CompiledBreakpointRule)
    : bool :=
  let rule := cb_rule cr in
  if negb (bp_enabled rule) then false
  else if negb (bool_decide (bp_stage rule = stage)) then false
  else if negb (bool_decide (bp_methods rule = []))
          && negb (existsb (fun c => eq_ignore_ascii_case c method) (bp_methods rule)) then false
  else compiled_pattern_matches (cb_compiled_match cr) (bp_url_pattern rule) url (bp_match_type rule).

Definition find_matching_rule_id (m : BreakpointManager) (stage : BreakpointStage)
    (method url : str) : option str :=
  (fun cr => bp_id (cb_rule cr)) <$> find_first (rule_breaks stage method url) (rules m).

Definition should_break (m : BreakpointManager) (stage : BreakpointStage) (method url : str) : bool :=
  match find_matching_rule_id m stage method url with Some _ => true | None => false end.

(** The end of the wait of [intercept_request_stage] / [intercept_response_stage]
    on channel [c]: the received resolution, a dropped sender, or the deadline.
    [None] while the task still waits. *)
Inductive WaitEnd := Received (r : BreakpointResolution) | Released (why : BreakpointReleaseReason).

Definition drop_receiver (m : BreakpointManager) (c : Z) : BreakpointManager :=
  {| rules := rules m; pending := pending m; chans := chans m; receivers := receivers m ∖ {[c]};
     next_chan := next_chan m |}.

Definition end_wait (m : BreakpointManager) (session_id : str) (c : Z) (elapsed : bool)
    : option (WaitEnd * BreakpointManager) :=
  match chans m !! c with
  | Some (Sent r) => Some (Received r, drop_receiver m c)
  | Some Gone =>
      Some (Released SenderDropped, remove_pending (drop_receiver m c) session_id)
  | Some Waiting =>
      if elapsed then Some (Released Timeout, remove_pending (drop_receiver m c) session_id)
      else None
  | None => None
  end.

(** Everything that can happen to a manager. *)
Inductive BpOp :=
  | OpSetRules (rs : list BreakpointRule)
  | OpRegister (session_id rule_id : str)
  | OpResolve (session_id : str) (r : BreakpointResolution)
  | OpRemove (session_id : str)
  | OpCancelAll
  | OpCancelFor (ids : list str)
  | OpEndWait (session_id : str) (c : Z) (elapsed : bool).

Definition run_bp (m : BreakpointManager) (op : BpOp) : BreakpointManager :=
  match op with
  | OpSetRules rs => set_rules m rs
  | OpRegister s r => (register_pending m s r).2
  | OpResolve s r => (resolve m s r).2
  | OpRemove s => remove_pending m s
  | OpCancelAll => cancel_all m
  | OpCancelFor ids => cancel_for_rules m ids
  | OpEndWait s c e => match end_wait m s c e with Some (_, m) => m | None => m end
  end.

(** ** Lemmas: the manager *)

(** Every pending entry owns a waiting channel, no two entries share one, and
    every waiting channel is owned by some entry. *)
Record bp_inv (m : BreakpointManager) : Prop := {
  inv_waiting s e : pending m !! s = Some e → chans m !! pb_sender e = Some Waiting;
  inv_inj s s' e e' : pending m !! s = Some e → pending m !! s' = Some e' →
    pb_sender e = pb_sender e' → s = s';
  inv_owned c : chans m !! c = Some Waiting → ∃ s e, pending m !! s = Some e ∧ pb_sender e = c;
  inv_fresh c x : chans m !! c = Some x → c < next_chan m
}.

(** Taking an entry out and settling its channel keeps the invariant. *)
Lemma inv_settle m s e x :
  bp_inv m → pending m !! s = Some e → x ≠ Waiting →
  bp_inv (with_pending m (delete s (pending m)) (<[pb_sender e := x]> (chans m))).
Proof.
  intros [Hw Hi Ho Hf] He Hx. split; cbn [pending chans next_chan with_pending].
  - intros s' e' He'. apply lookup_delete_Some in He' as [Hne He'].
    rewrite lookup_insert_ne; [by eapply Hw|]. intros Heq. apply Hne. by eapply Hi.
  - intros s1 s2 e1 e2 H1 H2. apply lookup_delete_Some in H1 as [_ H1], H2 as [_ H2]. by apply Hi.
  - intros c Hc. apply lookup_insert_Some in Hc as [[_ Hc]|[Hne Hc]]; [done|].
    destruct (Ho c Hc) as (s' & e' & He' & <-). exists s', e'. split; [|done].
    rewrite lookup_delete_ne; [done|]. intros <-. congruence.
  - intros c y Hc. apply lookup_insert_Some in Hc as [[<- _]|[_ Hc]]; [|by eapply Hf].
    eapply Hf. by apply Hw with s.
Qed.

Lemma send_fst m c r :
  ∃ x, x ≠ Waiting ∧ (send m c r).1 = <[c := x]> (chans m) ∧ (x = Sent r ∨ c ∉ receivers m).
Proof.
  unfold send. destruct (decide (c ∈ receivers m)).
  - rewrite bool_decide_true by done. exists (Sent r). split_and!; [done..|by left].
  - rewrite bool_decide_false by done. exists Gone. split_and!; [done..|by right].
Qed.

Lemma inv_cancel_one m s : bp_inv m → bp_inv (cancel_one m s).
Proof.
  intros Hm. unfold cancel_one. destruct (pending m !! s) as [e|] eqn:He; [|done].
  destruct (send_fst m (pb_sender e) (forward_resolution s)) as (x & Hx & -> & _).
  by apply inv_settle.
Qed.

Lemma inv_cancel_list ks m : bp_inv m → bp_inv (fold_left cancel_one ks m).
Proof.
  revert m. induction ks as [|k ks IH]; intros m Hm; [done|]. cbn. by apply IH, inv_cancel_one.
Qed.

Lemma inv_with_rules m rs : bp_inv m → bp_inv (with_rules m rs).
Proof. intros [? ? ? ?]. by split. Qed.

Lemma inv_drop_receiver m c : bp_inv m → bp_inv (drop_receiver m c).
Proof. intros [? ? ? ?]. by split. Qed.

Lemma inv_remove m s : bp_inv m → bp_inv (remove_pending m s).
Proof.
  intros Hm. unfold remove_pending. destruct (pending m !! s) as [e|] eqn:He; cbn.
  - by apply inv_settle.
  - rewrite delete_id by done. destruct Hm. by split.
Qed.

Lemma inv_set_rules m rs : bp_inv m → bp_inv (set_rules m rs).
Proof.
  intros Hm. unfold set_rules. case_match; [by apply inv_with_rules|].
  by apply inv_cancel_list, inv_with_rules.
Qed.

Lemma inv_register m s r : bp_inv m → bp_inv (register_pending m s r).2.
Proof.
  intros Hm. pose proof (inv_remove m s Hm) as Hr. unfold register_pending, remove_pending in *.
  cbn [snd] in *. set (cs := drop_sender _ _) in *. destruct Hr as [Hw Hi Ho Hf].
  cbn [pending chans next_chan with_pending] in *.
  assert (cs !! next_chan m = None) as Hn.
  { destruct (cs !! next_chan m) eqn:E; [|done]. apply Hf in E. lia. }
  split; cbn [pending chans next_chan].
  - intros s' e He. apply lookup_insert_Some in He as [[<- <-]|[Hne He]].
    + by rewrite lookup_insert_eq.
    + assert (delete s (pending m) !! s' = Some e) as He' by (by rewrite lookup_delete_ne).
      apply Hw in He'. rewrite lookup_insert_ne; [done|]. intros Heq. congruence.
  - intros s1 s2 e1 e2 H1 H2 Heq.
    apply lookup_insert_Some in H1 as [[<- <-]|[Hne1 H1]];
      apply lookup_insert_Some in H2 as [[<- <-]|[Hne2 H2]]; [done| | |].
    + cbn in Heq. assert (delete s (pending m) !! s2 = Some e2) as Hd by (by rewrite lookup_delete_ne).
      apply Hw in Hd. congruence.
    + cbn in Heq. assert (delete s (pending m) !! s1 = Some e1) as Hd by (by rewrite lookup_delete_ne).
      apply Hw in Hd. congruence.
    + eapply Hi; [| |done]; by rewrite lookup_delete_ne.
  - intros c Hc. apply lookup_insert_Some in Hc as [[<- _]|[Hne Hc]].
    + exists s, {| pb_rule_id := r; pb_sender := next_chan m |}. by rewrite lookup_insert_eq.
    + destruct (Ho c Hc) as (s' & e & He & <-). apply lookup_delete_Some in He as [Hs He].
      exists s', e. by rewrite lookup_insert_ne.
  - intros c x Hc. apply lookup_insert_Some in Hc as [[<- _]|[_ Hc]]; [lia|]. apply Hf in Hc. lia.
Qed.

Lemma inv_run m op : bp_inv m → bp_inv (run_bp m op).
Proof.
  intros Hm. destruct op as [rs|s r|s r|s| |ids|s c el]; cbn [run_bp].
  - by apply inv_set_rules.
  - by apply inv_register.
  - unfold resolve. destruct (pending m !! s) as [e|] eqn:He; [|done].
    destruct (send_fst m (pb_sender e) r) as (x & Hx & Hs & _).
    destruct (send m (pb_sender e) r) as [cs okb]. cbn in *. subst cs. by apply inv_settle.
  - by apply inv_remove.
  - by apply inv_cancel_list.
  - by apply inv_cancel_list.
  - unfold end_wait. destruct (chans m !! c) as [[|r|]|]; [|..|done].
    + destruct el; [|done]. by apply inv_remove, inv_drop_receiver.
    + by apply inv_drop_receiver.
    + by apply inv_remove, inv_drop_receiver.
Qed.

Lemma inv_new : bp_inv new_manager.
Proof. split; cbn; intros *; rewrite ?lookup_empty; done. Qed.

Lemma inv_reachable ops : bp_inv (fold_left run_bp ops new_manager).
Proof.
  generalize inv_new. generalize new_manager. induction ops as [|op ops IH]; intros m Hm; [done|].
  cbn. by apply IH, inv_run.
Qed.

(** The cancel loops: exactly the listed sessions are released. *)
Lemma cancel_one_fields m k :
  receivers (cancel_one m k) = receivers m ∧ rules (cancel_one m k) = rules m ∧
  pending (cancel_one m k) = delete k (pending m).
Proof.
  unfold cancel_one. destruct (pending m !! k) eqn:Hk; cbn; [done|].
  by rewrite delete_id.
Qed.

Lemma cancel_list_pending ks m s :
  receivers (fold_left cancel_one ks m) = receivers m ∧
  rules (fold_left cancel_one ks m) = rules m ∧
  pending (fold_left cancel_one ks m) !! s = if decide (s ∈ ks) then None else pending m !! s.
Proof.
  revert m. induction ks as [|k ks IH]; intros m; cbn [fold_left].
  { rewrite decide_False by set_solver. done. }
  destruct (cancel_one_fields m k) as (Hr & Hru & Hp).
  destruct (IH (cancel_one m k)) as (-> & -> & ->). split_and!; [done..|]. rewrite Hp.
  destruct (decide (s = k)) as [->|Hne].
  - rewrite lookup_delete_eq, (decide_True (P := k ∈ k :: ks)) by set_solver. by case_decide.
  - rewrite lookup_delete_ne by done. repeat case_decide; set_solver.
Qed.

Lemma cancel_one_settles m s e :
  pending m !! s = Some e → pb_sender e ∈ receivers m →
  chans (cancel_one m s) !! pb_sender e = Some (Sent (forward_resolution s)).
Proof.
  intros He Hr. unfold cancel_one. rewrite He. unfold send. rewrite bool_decide_true by done.
  cbn. by rewrite lookup_insert_eq.
Qed.

Lemma cancel_list_keeps_settled ks m c x :
  bp_inv m → chans m !! c = Some x → x ≠ Waiting → chans (fold_left cancel_one ks m) !! c = Some x.
Proof.
  revert m. induction ks as [|k ks IH]; intros m Hm Hc Hx; [done|]. cbn [fold_left].
  apply IH; [by apply inv_cancel_one| |done]. unfold cancel_one.
  destruct (pending m !! k) as [e|] eqn:He; [|done].
  destruct (send_fst m (pb_sender e) (forward_resolution k)) as (y & _ & -> & _). cbn.
  rewrite lookup_insert_ne; [done|]. intros Heq. apply (inv_waiting _ Hm) in He. congruence.
Qed.

Lemma cancel_list_releases ks m s e :
  bp_inv m → pending m !! s = Some e → s ∈ ks → pb_sender e ∈ receivers m →
  chans (fold_left cancel_one ks m) !! pb_sender e = Some (Sent (forward_resolution s)).
Proof.
  revert m. induction ks as [|k ks IH]; intros m Hm He Hin Hr; [set_solver|]. cbn [fold_left].
  destruct (decide (s = k)) as [<-|Hne].
  - apply cancel_list_keeps_settled; [by apply inv_cancel_one| |done]. by apply cancel_one_settles.
  - destruct (cancel_one_fields m k) as (Hr' & _ & Hp).
    apply IH; [by apply inv_cancel_one| |set_solver|by rewrite Hr'].
    by rewrite Hp, lookup_delete_ne.
Qed.

Lemma cancel_all_keys m s e : pending m !! s = Some e → s ∈ (map_to_list (pending m)).*1.
Proof. intros He. apply list_elem_of_fmap. exists (s, e). by rewrite elem_of_map_to_list. Qed.

Lemma cancel_for_keys m (ids : list str) s :
  s ∈ (filter (fun e => pb_rule_id e.2 ∈ ids) (map_to_list (pending m))).*1 ↔
  ∃ e, pending m !! s = Some e ∧ pb_rule_id e ∈ ids.
Proof.
  rewrite list_elem_of_fmap. split.
  - intros ([s' e] & -> & Hin). apply list_elem_of_filter in Hin as [Hid Hin].
    apply elem_of_map_to_list in Hin. eauto.
  - intros (e & He & Hid). exists (s, e). split; [done|]. apply list_elem_of_filter.
    split; [done|]. by apply elem_of_map_to_list.
Qed.

Lemma cancel_for_rules_spec m (ids : list str) s :
  pending (cancel_for_rules m ids) !! s =
    match pending m !! s with
    | Some e => if decide (pb_rule_id e ∈ ids) then None else Some e
    | None => None
    end ∧ rules (cancel_for_rules m ids) = rules m.
Proof.
  unfold cancel_for_rules. destruct (cancel_list_pending
    (filter (fun e => pb_rule_id e.2 ∈ ids) (map_to_list (pending m))).*1 m s) as (_ & Hru & Hp).
  split; [|done]. rewrite Hp. case_decide as Hin.
  - apply cancel_for_keys in Hin as (e & -> & Hid). by rewrite decide_True.
  - destruct (pending m !! s) as [e|] eqn:He; [|done]. rewrite decide_False; [done|].
    intros Hid. apply Hin, cancel_for_keys. eauto.
Qed.

(** The ids of the rules that stop being active. *)
Definition removed_ids (m : BreakpointManager) (rs : list BreakpointRule) : list str :=
  List.filter
    (fun id => negb (bool_decide (id ∈ map bp_id (List.filter bp_enabled rs))))
    (active_ids (rules m)).

Lemma active_ids_compiled rs :
  active_ids (map (fun r => {| cb_rule := r;
     cb_compiled_match := compile_match_regex (bp_match_type r) (bp_url_pattern r) |}) rs)
  = map bp_id (List.filter bp_enabled rs).
Proof.
  unfold active_ids. induction rs as [|r rs IH]; [done|]. cbn. destruct (bp_enabled r); cbn; by rewrite IH.
Qed.

Lemma set_rules_pending m rs s :
  pending (set_rules m rs) !! s =
    match pending m !! s with
    | Some e => if decide (pb_rule_id e ∈ removed_ids m rs) then None else Some e
    | None => None
    end ∧ list_rules (set_rules m rs) = rs.
Proof.
  unfold set_rules, removed_ids. rewrite active_ids_compiled. cbv zeta.
  assert (∀ m', rules m' = map (fun r => {| cb_rule := r;
    cb_compiled_match := compile_match_regex (bp_match_type r) (bp_url_pattern r) |}) rs →
    list_rules m' = rs) as Hl.
  { intros m' Hm'. unfold list_rules. rewrite Hm', map_map. apply List.map_id. }
  destruct (List.filter _ (active_ids (rules m))) as [|i ids] eqn:Hids.
  - split; [|by apply Hl]. cbn. destruct (pending m !! s); [|done].
    rewrite decide_False; [done | set_solver].
  - match goal with |- context [cancel_for_rules ?m' _] =>
      destruct (cancel_for_rules_spec m' (i :: ids) s) as [Hp Hr] end.
    split; [exact Hp|]. apply Hl. rewrite Hr. reflexivity.
Qed.

(** ** Properties *)

(** C30: No waiting task is forgotten.  In every state reachable by any sequence of
    operations, each channel a task still waits on is owned by exactly one
    pending entry, so a resolution, a cancellation or the timeout can end the
    wait; and [cancel_all] ends every wait with a Forward for its own session,
    leaving nothing pending. *)
Theorem breakpoint_waits_owned ops :
  let m := fold_left run_bp ops new_manager in
  (∀ c, chans m !! c = Some Waiting →
     ∃ s e, pending m !! s = Some e ∧ pb_sender e = c ∧
       ∀ s' e', pending m !! s' = Some e' → pb_sender e' = c → s' = s) ∧
  pending (cancel_all m) = ∅ ∧
  (∀ c, chans (cancel_all m) !! c ≠ Some Waiting) ∧
  (∀ s e, pending m !! s = Some e → pb_sender e ∈ receivers m →
     chans (cancel_all m) !! pb_sender e = Some (Sent (forward_resolution s))).
Proof.
  cbv zeta. pose proof (inv_reachable ops) as Hm. set (m := fold_left run_bp ops new_manager) in *.
  assert (pending (cancel_all m) = ∅) as Hempty.
  { apply map_eq. intros s. unfold cancel_all.
    destruct (cancel_list_pending (map_to_list (pending m)).*1 m s) as (_ & _ & ->).
    rewrite lookup_empty. case_decide as Hin; [done|].
    destruct (pending m !! s) as [e|] eqn:He; [|done]. by apply cancel_all_keys in He. }
  split_and!.
  - intros c Hc. destruct (inv_owned _ Hm c Hc) as (s & e & He & <-). exists s, e.
    split_and!; [done..|]. intros s' e' He' Heq. by eapply (inv_inj _ Hm).
  - done.
  - intros c Hc. apply (inv_owned _ (inv_cancel_list _ _ Hm)) in Hc as (s & e & He & _).
    fold (cancel_all m) in He. by rewrite Hempty in He.
  - intros s e He Hr. apply cancel_list_releases; [done..| |done]. by eapply cancel_all_keys.
Qed.

(** Removing or disabling a rule releases exactly the interceptions it caused:
    their tasks receive Forward, every other interception stays pending, and
    the new rule list is installed. *)
Theorem set_rules_releases_removed m rs :
  bp_inv m →
  list_rules (set_rules m rs) = rs ∧
  ∀ s e, pending m !! s = Some e →
    if decide (pb_rule_id e ∈ removed_ids m rs)
    then pending (set_rules m rs) !! s = None ∧
         (pb_sender e ∈ receivers m →
          chans (set_rules m rs) !! pb_sender e = Some (Sent (forward_resolution s)))
    else pending (set_rules m rs) !! s = Some e ∧
         chans (set_rules m rs) !! pb_sender e = Some Waiting.
Proof.
  intros Hm. split; [exact (proj2 (set_rules_pending m rs []))|]. intros s e He.
  destruct (set_rules_pending m rs s) as [Hp _]. rewrite He in Hp.
  case_decide as Hin; rewrite Hp; (split; [done|]).
  - intros Hr. unfold set_rules. unfold removed_ids in Hin. rewrite active_ids_compiled. cbv zeta.
    destruct (List.filter _ (active_ids (rules m))) as [|i ids]; [set_solver|].
    apply cancel_list_releases; [by apply inv_with_rules|done| |done].
    apply cancel_for_keys. eauto.
  - apply (inv_waiting _ (inv_set_rules _ rs Hm)) with s. done.
Qed.

(** A resolution is delivered exactly once.  Resolving a pending session whose
    task still waits succeeds, the task receives that resolution, the other
    sessions are untouched and a second resolution is refused. *)
Theorem resolve_delivers_once m s e r :
  bp_inv m → pending m !! s = Some e → pb_sender e ∈ receivers m →
  let '(res, m') := resolve m s r in
  res = Ok tt ∧ (∃ m'', end_wait m' s (pb_sender e) false = Some (Received r, m'')) ∧
  (∀ s', s' ≠ s → pending m' !! s' = pending m !! s') ∧
  ∀ r', is_ok (resolve m' s r').1 = false.
Proof.
  intros Hm He Hr. unfold resolve. rewrite He. unfold send. rewrite bool_decide_true by done.
  split_and!.
  - done.
  - unfold end_wait. cbn [chans with_pending]. rewrite lookup_insert_eq. eauto.
  - intros s' Hs'. cbn. by rewrite lookup_delete_ne.
  - intros r'. cbn. by rewrite lookup_delete_eq.
Qed.

(** The check and the registration are separate lock regions: when the rule
    that matched is removed between them, the interception is registered for a
    rule that no longer exists and nothing but a resolution, [cancel_all] or the
    timeout releases it (a later [set_rules] does not). *)
Theorem register_races_rule_removal m s rule rs :
  find_matching_rule_id m Request (lit "GET") (lit "http://a/") = Some (bp_id rule) →
  let m1 := set_rules m [] in
  let m2 := (register_pending m1 s (bp_id rule)).2 in
  list_rules m2 = [] ∧
  pending (set_rules m2 rs) !! s = Some {| pb_rule_id := bp_id rule; pb_sender := next_chan m1 |} ∧
  chans (set_rules m2 rs) !! next_chan m1 = Some Waiting.
Proof.
  intros _. cbv zeta. set (m1 := set_rules m []).
  assert (list_rules m1 = []) as Hr1 by exact (proj2 (set_rules_pending m [] [])).
  assert (rules m1 = []) as Hr1' by (unfold list_rules in Hr1; by apply map_eq_nil in Hr1).
  split_and!.
  - exact Hr1.
  - destruct (set_rules_pending (register_pending m1 s (bp_id rule)).2 rs s) as [-> _].
    cbn. rewrite lookup_insert_eq. unfold removed_ids. cbn. by rewrite Hr1'.
  - unfold set_rules. cbn. rewrite Hr1'. cbn. by rewrite lookup_insert_eq.
Qed.

End Manager.

(** ** Witnesses for the manager's properties *)

#[local] Existing Instance no_regex.

Definition demo_bp_rule (id : str) : BreakpointRule :=
  {| bp_id := id; bp_enabled := true; bp_url_pattern := lit "*"; bp_methods := [];
     bp_stage := Request; bp_match_type := None |}.

(** A rule, and an interception it caused. *)
Definition demo_ops : list BpOp :=
  [OpSetRules [demo_bp_rule (lit "r")]; OpRegister (lit "s") (lit "r")].

Definition demo_manager : BreakpointManager := fold_left run_bp demo_ops new_manager.

Lemma set_rules_releases_removed_witness :
  list_rules (set_rules demo_manager []) = [] ∧
  ∀ s e, pending demo_manager !! s = Some e →
    if decide (pb_rule_id e ∈ removed_ids demo_manager [])
    then pending (set_rules demo_manager []) !! s = None ∧
         (pb_sender e ∈ receivers demo_manager →
          chans (set_rules demo_manager []) !! pb_sender e = Some (Sent (forward_resolution s)))
    else pending (set_rules demo_manager []) !! s = Some e ∧
         chans (set_rules demo_manager []) !! pb_sender e = Some Waiting.
Proof. apply (set_rules_releases_removed demo_manager []). apply inv_reachable. Defined.

Lemma resolve_delivers_once_witness :
  let '(res, m') := resolve demo_manager (lit "s") (forward_resolution (lit "s")) in
  res = Ok tt ∧
  (∃ m'', end_wait m' (lit "s") 0 false = Some (Received (forward_resolution (lit "s")), m'')) ∧
  (∀ s', s' ≠ lit "s" → pending m' !! s' = pending demo_manager !! s') ∧
  ∀ r', is_ok (resolve m' (lit "s") r').1 = false.
Proof.
  apply (resolve_delivers_once demo_manager (lit "s") {| pb_rule_id := lit "r"; pb_sender := 0 |}
           (forward_resolution (lit "s"))).
  - apply inv_reachable.
  - reflexivity.
  - apply (bool_decide_eq_true_1 (0 ∈ receivers demo_manager)). vm_compute. reflexivity.
Defined.

Lemma register_races_rule_removal_witness :
  let m1 := set_rules demo_manager [] in
  let m2 := (register_pending m1 (lit "t") (lit "r")).2 in
  list_rules m2 = [] ∧
  pending (set_rules m2 []) !! lit "t" = Some {| pb_rule_id := lit "r"; pb_sender := next_chan m1 |} ∧
  chans (set_rules m2 []) !! next_chan m1 = Some Waiting.
Proof.
  apply (register_races_rule_removal demo_manager (lit "t") (demo_bp_rule (lit "r")) []).
  reflexivity.
Defined.
