(* ===== verification/BreakpointEdits.v ===== *)
(** * BreakpointEdits: applying a breakpoint resolution (proxy-core/src/breakpoints.rs)

    The edits of a resolved interception on the request and the response, the
    mock response, the Host header write-back, and the two interception stages
    as a registration and the end of the wait (other tasks run in between).  The
    [base64] crate is a parameter. *)

From S2P Require Import Prelude Str Patterns HostPattern RuleTypes RuleSelection HttpIo Rewrite Breakpoints.

(** ** Definitions: the Host header *)

(** The host, port and unbracketed host of a header value; [None] when the code
    returns without touching the request. *)
Definition parse_host_header (value : str) : option (str * option Z * option str) :=
  let host_str := trim value in
  if bool_decide (host_str = []) then None
  else
    match
      match strip_prefix host_str (lit "[") with
      | Some rest =>
          match find rest (lit "]") with
          | Some close_idx =>
              let ipv6_with_brackets := take (close_idx + 2) host_str in
              let inner := take close_idx rest in
              let after := drop (close_idx + 1) rest in
              let port := strip_prefix after (lit ":") ≫= parse_uint u16_max in
              if negb (bool_decide (after = []))
                 && negb (match port with Some _ => true | None => false end)
              then None
              else Some (ipv6_with_brackets, port, Some inner)
          | None => None
          end
      | None =>
          match rsplit_once (chr ":") host_str with
          | Some (h, p) =>
              match parse_uint u16_max p with
              | Some port => Some (trim h, Some port, None)
              | None => None
              end
          | None => Some (host_str, None, None)
          end
      end
    with
    | Some (host_part, port, inner) =>
        if bool_decide (host_part = []) then None else Some (host_part, port, inner)
    | None => None
    end.

(** [base64::engine::general_purpose::STANDARD.decode] *)
Class Base64 := { base64_decode : str → option bytes }.

(** ** Definitions: requests *)

Section Edits.
Context `{HeaderOps} `{UrlOps} `{Base64}.

Definition with_host_url (r : ParsedProxyRequest) (h : str) (u : Url) : ParsedProxyRequest :=
  {| body := body r; client_address := client_address r; headers := headers r; host := h;
     method := method r; path := path r; protocol := protocol r; query_params := query_params r;
     raw_request := raw_request r; request_headers := request_headers r;
     request_id := request_id r; url := u; tls_cipher_suite := tls_cipher_suite r;
     tls_protocol := tls_protocol r |}.

Definition with_entries (r : ParsedProxyRequest) (es : list ProxyHeaderEntry) : ParsedProxyRequest :=
  {| body := body r; client_address := client_address r; headers := headers r; host := host r;
     method := method r; path := path r; protocol := protocol r; query_params := query_params r;
     raw_request := raw_request r; request_headers := es;
     request_id := request_id r; url := url r; tls_cipher_suite := tls_cipher_suite r;
     tls_protocol := tls_protocol r |}.

Definition with_body (r : ParsedProxyRequest) (b : bytes) : ParsedProxyRequest :=
  {| body := b; client_address := client_address r; headers := headers r; host := host r;
     method := method r; path := path r; protocol := protocol r; query_params := query_params r;
     raw_request := raw_request r; request_headers := request_headers r;
     request_id := request_id r; url := url r; tls_cipher_suite := tls_cipher_suite r;
     tls_protocol := tls_protocol r |}.

Definition refresh_request_target_from_url (r : ParsedProxyRequest) : ParsedProxyRequest :=
  let p := build_request_path (url r) in
  {| body := body r; client_address := client_address r; headers := headers r; host := host r;
     method := method r; path := p; protocol := protocol r;
     query_params := build_query_params (url r);
     raw_request := build_raw_http_head (method r ++ lit " " ++ p ++ lit " HTTP/1.1") (request_headers r);
     request_headers := request_headers r;
     request_id := request_id r; url := url r; tls_cipher_suite := tls_cipher_suite r;
     tls_protocol := tls_protocol r |}.

(** [headers.get("host")] is the first value; [to_str] refuses non-ASCII. *)
Definition apply_host_header_to_request (r : ParsedProxyRequest) (hs : HeaderMap) : ParsedProxyRequest :=
  match (hd_error (hm_get_all hs (lit "host")) ≫= to_str) ≫= parse_host_header with
  | None => r
  | Some (host_part, port_part, unbracketed_host) =>
      let host_for_url :=
        match unbracketed_host with
        | Some inner => lit "[" ++ inner ++ lit "]"
        | None => host_part
        end in
      match url_set_host (url r) host_for_url with
      | None => r
      | Some candidate =>
          match port_part with
          | Some port =>
              match url_set_port candidate (Some port) with
              | None => r
              | Some candidate => with_host_url r host_part candidate
              end
          | None => with_host_url r host_part (default candidate (url_set_port candidate None))
          end
      end
  end.

(** The header loops: entries with an invalid name or value are skipped. *)
Definition append_valid (m : HeaderMap) (e : ProxyHeaderEntry) : HeaderMap :=
  match header_name (name e), header_value (hvalue e) with
  | Ok n, Ok v => hm_append m n v
  | _, _ => m
  end.

Definition edited_headers (es : list ProxyHeaderEntry) : HeaderMap := fold_left append_valid es hm_empty.

Definition decode_base64_or_text (s : str) : bytes := default s (base64_decode s).

Definition apply_request_resolution (res : BreakpointResolution) (r : ParsedProxyRequest)
    : ParsedProxyRequest :=
  let r :=
    match res_request_query_params res with
    | Some ps =>
        refresh_request_target_from_url
          (with_url r (url_set_query_pairs (url r) (map (fun e => (name e, hvalue e)) ps)))
    | None => r
    end in
  let r :=
    match res_request_headers res with
    | Some es =>
        let r := with_entries r es in
        let new_headers := edited_headers es in
        let r := apply_host_header_to_request r new_headers in
        refresh_request_target_from_url (with_headers r new_headers)
    | None => r
    end in
  match res_request_body_base64 res with
  | Some b64 =>
      let r := with_body r (decode_base64_or_text b64) in
      let r := with_headers r (strip_plain_body_edit_headers (headers r)) in
      let r := with_entries r (strip_plain_body_edit_header_entries (request_headers r)) in
      let r := with_headers r (hm_remove (headers r) (lit "content-length")) in
      let r := with_entries r
        (List.filter (fun e => negb (eq_ignore_ascii_case (name e) (lit "content-length")))
           (request_headers r)) in
      refresh_request_target_from_url r
  | None => r
  end.

(** ** Definitions: responses *)

(** [StatusCode::from_u16] *)
Definition valid_status (code : Z) : bool := (100 <=? code) && (code <? 1000).

Definition with_status (r : UpstreamResponse HeaderMap) (code : Z) : UpstreamResponse HeaderMap :=
  {| body_truncated := body_truncated r; connect_ms := connect_ms r;
     connection_reused := connection_reused r; connection_wait_ms := connection_wait_ms r;
     dns_ms := dns_ms r; request_send_ms := request_send_ms r; response_body := response_body r;
     response_body_size_bytes := response_body_size_bytes r; response_headers := response_headers r;
     response_read_ms := response_read_ms r; spooled_response_path := spooled_response_path r;
     status_code := code; tls_ms := tls_ms r; waiting_ms := waiting_ms r;
     via_upstream_proxy := via_upstream_proxy r |}.

Definition apply_response_resolution (res : BreakpointResolution) (r : UpstreamResponse HeaderMap)
    : UpstreamResponse HeaderMap :=
  let r :=
    match res_response_status_code res with
    | Some code => if valid_status code then with_status r code else r
    | None => r
    end in
  let r :=
    match res_response_headers res with
    | Some es => with_response_headers r (edited_headers es)
    | None => r
    end in
  match res_response_body_base64 res with
  | Some b64 =>
      let r := replace_response_body r (decode_base64_or_text b64) in
      let r := with_response_headers r (strip_plain_body_edit_headers (response_headers r)) in
      with_response_headers r (hm_remove (response_headers r) (lit "content-length"))
  | None => r
  end.

Definition build_mock_upstream_response (mock : MockResponse) : UpstreamResponse HeaderMap :=
  let body :=
    match mock_body_base64 mock with Some b => decode_base64_or_text b | None => [] end in
  let body_len := len body in
  let content_length :=
    match header_value (show body_len) with Ok v => v | Err _ => lit "0" end in
  {| body_truncated := false; connect_ms := 0; connection_reused := None; connection_wait_ms := None;
     dns_ms := 0; request_send_ms := None; response_body := body; response_body_size_bytes := body_len;
     response_headers :=
       hm_insert (edited_headers (mock_headers mock)) (lit "content-length") content_length;
     response_read_ms := 0; spooled_response_path := None;
     status_code := if valid_status (mock_status_code mock) then mock_status_code mock else 200;
     tls_ms := None; waiting_ms := 0; via_upstream_proxy := None |}.

(** ** Definitions: the interception stages *)

Context `{RegexEngine}.

(** Up to the wait: the channel of a registered interception. *)
Definition intercept_register (bp : option BreakpointManager) (stage : BreakpointStage)
    (r : ParsedProxyRequest) : option (Z * BreakpointManager) :=
  match bp with
  | None => None
  | Some m =>
      match find_matching_rule_id m stage (method r) (url_to_string (url r)) with
      | Some rule_id => Some (register_pending m (request_id r) rule_id)
      | None => None
      end
  end.

(** From the end of the wait on; [None] while it lasts. *)
Definition intercept_request_end (m : BreakpointManager) (r : ParsedProxyRequest) (c : Z) (elapsed : bool)
    : option (ParsedProxyRequest * option BreakpointResolution * BreakpointManager) :=
  match end_wait m (request_id r) c elapsed with
  | Some (Received res, m) => Some (apply_request_resolution res r, Some res, m)
  | Some (Released _, m) => Some (r, None, m)
  | None => None
  end.

Definition intercept_response_end (m : BreakpointManager) (r : ParsedProxyRequest) (c : Z) (elapsed : bool)
    : option (option BreakpointResolution * BreakpointManager) :=
  match end_wait m (request_id r) c elapsed with
  | Some (Received res, m) => Some (Some res, m)
  | Some (Released _, m) => Some (None, m)
  | None => None
  end.
End Edits.

(** ** Lemmas: the Host header *)

Lemma find_close inner rest : chr "]" ∉ inner →
  find (inner ++ lit "]" ++ rest) (lit "]") = Some (length inner).
Proof.
  change (lit "]") with [93]. change (chr "]") with 93.
  induction inner as [|b inner IH]; intros Hn; [done|].
  cbn [app find]. assert (starts_with (b :: inner ++ 93 :: rest) [93] = false) as ->.
  { cbn [starts_with]. rewrite (proj2 (Z.eqb_neq _ _)); [done | set_solver]. }
  cbn [app] in IH. rewrite IH by set_solver. done.
Qed.

Lemma show_no_colon n : 0 <= n → chr ":" ∉ show n.
Proof.
  intros Hn Hin. pose proof (show_digits n Hn) as Hd. rewrite Forall_forall in Hd.
  apply Hd in Hin. done.
Qed.

Lemma show_last n : 0 <= n → ∃ l b, show n = l ++ [b] ∧ plain b.
Proof.
  intros Hn. pose proof (show_nonempty n). pose proof (show_digits n Hn) as Hd.
  destruct (show n) as [|b l] using rev_ind; [done|].
  exists l, b. split; [done|]. apply Forall_app in Hd as [_ Hb]. apply List.Forall_inv in Hb.
  unfold is_digit in Hb. breflect. unfold plain. lia.
Qed.

(** A host name as a URL carries it: printable, no colon or bracket. *)
Definition name_char (b : byte) : Prop := plain b ∧ b ≠ 58 ∧ b ≠ 91 ∧ b ≠ 93.

Definition host_name (h : str) : Prop := h ≠ [] ∧ Forall name_char h.

Lemma trim_solid a s : plain a → (∃ l b, a :: s = l ++ [b] ∧ plain b) → trim (a :: s) = a :: s.
Proof.
  intros Ha (l & b & Heq & Hb). destruct l as [|x l]; cbn in Heq.
  - injection Heq as -> ->. by apply trim_plain1.
  - injection Heq as -> ->. by apply trim_plain.
Qed.

Lemma host_name_ends h : host_name h →
  (∃ a s, h = a :: s ∧ plain a ∧ a ≠ 91) ∧ (∃ l b, h = l ++ [b] ∧ plain b) ∧ 58 ∉ h.
Proof.
  intros [Hne Hall]. split_and!.
  - destruct h as [|a s]; [done|]. apply List.Forall_inv in Hall. unfold name_char in Hall.
    exists a, s. tauto.
  - destruct h as [|b l] using rev_ind; [done|]. apply Forall_app in Hall as [_ Hb].
    apply List.Forall_inv in Hb. unfold name_char in Hb. exists l, b. tauto.
  - intros Hin. rewrite Forall_forall in Hall. apply Hall in Hin. unfold name_char in Hin. tauto.
Qed.

Lemma parse_host_plain h : host_name h → parse_host_header h = Some (h, None, None).
Proof.
  intros Hh. destruct (host_name_ends h Hh) as ((a & s & Heq & Ha & Ha') & Hend & Hcol).
  unfold parse_host_header. assert (trim h = h) as -> by (subst h; by apply trim_solid).
  rewrite bool_decide_false by apply Hh.
  assert (strip_prefix h (lit "[") = None) as ->.
  { subst h. unfold strip_prefix. by rewrite starts_bracket_false. }
  rewrite rsplit_once_none by done. by rewrite bool_decide_false by apply Hh.
Qed.

Lemma parse_host_port h p :
  host_name h → 0 <= p <= u16_max →
  parse_host_header (h ++ lit ":" ++ show p) = Some (h, Some p, None).
Proof.
  intros Hh Hp. destruct (host_name_ends h Hh) as ((a & s & Heq & Ha & Ha') & Hend & Hcol).
  unfold parse_host_header.
  assert (trim (h ++ lit ":" ++ show p) = h ++ lit ":" ++ show p) as ->.
  { subst h. cbn [app]. apply trim_solid; [done|].
    destruct (show_last p ltac:(lia)) as (l & b & -> & Hb). exists (a :: s ++ lit ":" ++ l), b.
    split; [|done]. cbn [app]. f_equal. by rewrite <- !app_assoc. }
  rewrite bool_decide_false by (by subst h).
  assert (strip_prefix (h ++ lit ":" ++ show p) (lit "[") = None) as ->.
  { subst h. unfold strip_prefix. cbn [app]. by rewrite starts_bracket_false. }
  change (lit ":" ++ show p) with (chr ":" :: show p).
  rewrite rsplit_once_last by (apply show_no_colon; lia).
  rewrite parse_uint_show by (unfold u16_max in *; lia).
  assert (trim h = h) as -> by (subst h; by apply trim_solid).
  by rewrite bool_decide_false by apply Hh.
Qed.

Lemma parse_host_bracketed inner port :
  inner ≠ [] → chr "]" ∉ inner → (∀ p, port = Some p → 0 <= p <= u16_max) →
  parse_host_header (lit "[" ++ inner ++ lit "]" ++
    match port with Some p => lit ":" ++ show p | None => [] end)
  = Some (lit "[" ++ inner ++ lit "]", port, Some inner).
Proof.
  intros Hne Hin Hp. unfold parse_host_header.
  set (after := match port with Some p => lit ":" ++ show p | None => [] end).
  set (v := lit "[" ++ inner ++ lit "]" ++ after).
  assert (trim v = v) as ->.
  { unfold v. change (lit "[") with [91]. cbn [app]. apply trim_solid; [unfold plain; lia|].
    unfold after. destruct port as [p|].
    - destruct (show_last p) as (l & b & -> & Hb); [specialize (Hp p eq_refl); lia|].
      exists (91 :: inner ++ lit "]" ++ lit ":" ++ l), b. split; [|done].
      cbn [app]. f_equal. by rewrite <- !app_assoc.
    - exists (91 :: inner), 93. split; [by rewrite app_nil_r|]. unfold plain; lia. }
  rewrite bool_decide_false by done.
  rewrite (proj2 (strip_prefix_Some v (lit "[") (inner ++ lit "]" ++ after)) eq_refl).
  rewrite find_close by done. rewrite take_app_length.
  assert (drop (length inner + 1) (inner ++ lit "]" ++ after) = after) as ->.
  { rewrite drop_app_add. reflexivity. }
  assert (take (length inner + 2) v = lit "[" ++ inner ++ lit "]") as ->.
  { unfold v. rewrite !app_assoc. rewrite take_app_le.
    - apply take_ge. rewrite !length_app. cbn. lia.
    - rewrite !length_app. cbn. lia. }
  assert (strip_prefix after (lit ":") ≫= parse_uint u16_max = port) as ->.
  { unfold after. destruct port as [p|]; [|done].
    rewrite (proj2 (strip_prefix_Some _ (lit ":") (show p)) eq_refl). cbn.
    specialize (Hp p eq_refl). apply parse_uint_show; unfold u16_max in *; lia. }
  assert (negb (bool_decide (after = [])) &&
    negb (match port with Some _ => true | None => false end) = false) as ->.
  { unfold after. destruct port; [apply andb_false_r | done]. }
  by rewrite bool_decide_false.
Qed.

(** ** Properties: the Host header *)

(** Parsing the edited Host header.  The four documented forms, [host],
    [host:port], [[ipv6]] and [[ipv6]:port], are split into exactly their host
    and port for every host name, bracketed literal and 16-bit port. *)
Theorem host_header_forms h inner p :
  host_name h → inner ≠ [] → chr "]" ∉ inner → 0 <= p <= u16_max →
  parse_host_header h = Some (h, None, None) ∧
  parse_host_header (h ++ lit ":" ++ show p) = Some (h, Some p, None) ∧
  parse_host_header (lit "[" ++ inner ++ lit "]") =
    Some (lit "[" ++ inner ++ lit "]", None, Some inner) ∧
  parse_host_header (lit "[" ++ inner ++ lit "]" ++ lit ":" ++ show p) =
    Some (lit "[" ++ inner ++ lit "]", Some p, Some inner).
Proof.
  intros Hh Hne Hin Hp. split_and!.
  - by apply parse_host_plain.
  - by apply parse_host_port.
  - pose proof (parse_host_bracketed inner None Hne Hin ltac:(done)) as H.
    by rewrite app_nil_r in H.
  - apply (parse_host_bracketed inner (Some p) Hne Hin). by intros ? [= ->].
Qed.

Lemma host_header_forms_witness :
  parse_host_header (lit "a.b") = Some (lit "a.b", None, None) ∧
  parse_host_header (lit "a.b" ++ lit ":" ++ show 8080) = Some (lit "a.b", Some 8080, None) ∧
  parse_host_header (lit "[" ++ lit "::1" ++ lit "]") =
    Some (lit "[" ++ lit "::1" ++ lit "]", None, Some (lit "::1")) ∧
  parse_host_header (lit "[" ++ lit "::1" ++ lit "]" ++ lit ":" ++ show 8080) =
    Some (lit "[" ++ lit "::1" ++ lit "]", Some 8080, Some (lit "::1")).
Proof.
  apply (host_header_forms (lit "a.b") (lit "::1") 8080).
  - split; [done|]. repeat constructor; discriminate.
  - discriminate.
  - apply (bool_decide_eq_true_1 (chr "]" ∉ lit "::1")). vm_compute. reflexivity.
  - vm_compute. split; discriminate.
Defined.


(** ** Lemmas: edited headers *)

Section EditLemmas.
Context `{HeaderOps} `{UrlOps} `{Base64}.

(** The value an entry gives to the name [n], if its name and value are legal. *)
Definition gives (n : str) (e : ProxyHeaderEntry) : option bytes :=
  match header_name (name e), header_value (hvalue e) with
  | Ok n', Ok v => if bool_decide (n' = n) then Some v else None
  | _, _ => None
  end.

Lemma edited_headers_get es n : hm_get_all (edited_headers es) n = omap (gives n) es.
Proof.
  unfold edited_headers.
  assert (∀ m, hm_get_all (fold_left append_valid es m) n = hm_get_all m n ++ omap (gives n) es) as Hm.
  { induction es as [|e es IH]; intros m; cbn [fold_left omap list_omap]; [by rewrite app_nil_r|].
    rewrite IH. unfold append_valid, gives. destruct (header_name (name e)) as [n'|]; [|done].
    destruct (header_value (hvalue e)) as [v|]; [|done]. rewrite hm_get_append.
    case_bool_decide; [|done]. by rewrite <- app_assoc. }
  by rewrite Hm, hm_get_empty.
Qed.

(** The displayed target agrees with the URL and the entries. *)
Definition target_fresh (r : ParsedProxyRequest) : Prop := refresh_request_target_from_url r = r.

Lemma refresh_fresh r : target_fresh (refresh_request_target_from_url r).
Proof. done. Qed.

(** The steps of [apply_request_resolution] as functions of one edit each. *)
Definition edit_query (r : ParsedProxyRequest) (ps : list ProxyHeaderEntry) : ParsedProxyRequest :=
  refresh_request_target_from_url
    (with_url r (url_set_query_pairs (url r) (map (fun e => (name e, hvalue e)) ps))).

Definition edit_headers (r : ParsedProxyRequest) (es : list ProxyHeaderEntry) : ParsedProxyRequest :=
  refresh_request_target_from_url
    (with_headers (apply_host_header_to_request (with_entries r es) (edited_headers es)) (edited_headers es)).

Definition edit_body (r : ParsedProxyRequest) (b64 : str) : ParsedProxyRequest :=
  apply_request_resolution
    {| res_session_id := []; res_action := Forward; res_mock := None; res_request_headers := None;
       res_request_query_params := None; res_request_body_base64 := Some b64;
       res_response_status_code := None; res_response_headers := None; res_response_body_base64 := None |} r.

Lemma resolution_steps res r :
  apply_request_resolution res r =
    let r := from_option (edit_query r) r (res_request_query_params res) in
    let r := from_option (edit_headers r) r (res_request_headers res) in
    from_option (edit_body r) r (res_request_body_base64 res).
Proof.
  unfold apply_request_resolution.
  by destruct (res_request_query_params res), (res_request_headers res), (res_request_body_base64 res).
Qed.

(** The write-back changes host and URL together, to values the URL accepted. *)
Lemma host_write_back r hs :
  let r' := apply_host_header_to_request r hs in
  r' = r ∨
  ∃ value port inner candidate u,
    hd_error (hm_get_all hs (lit "host")) ≫= to_str = Some value ∧
    parse_host_header value = Some (host r', port, inner) ∧
    url_set_host (url r) (match inner with Some i => lit "[" ++ i ++ lit "]" | None => host r' end)
      = Some candidate ∧
    match port with
    | Some p => url_set_port candidate (Some p) = Some u
    | None => u = default candidate (url_set_port candidate None)
    end ∧ r' = with_host_url r (host r') u.
Proof.
  cbv zeta. unfold apply_host_header_to_request.
  destruct (hd_error _ ≫= to_str) as [value|] eqn:Hv; cbn [mbind option_bind]; [|by left].
  destruct (parse_host_header value) as [[[host_part port] inner]|] eqn:Hp; [|by left].
  destruct (url_set_host (url r) _) as [candidate|] eqn:Hs; [|by left].
  destruct port as [p|].
  - destruct (url_set_port candidate (Some p)) as [u|] eqn:Hc; [|by left]. right.
    exists value, (Some p), inner, candidate, u. cbn [host with_host_url]. by split_and!.
  - right. exists value, None, inner, candidate, (default candidate (url_set_port candidate None)).
    cbn [host with_host_url]. by split_and!.
Qed.

Lemma write_back_keeps r hs :
  let r' := apply_host_header_to_request r hs in
  body r' = body r ∧ request_headers r' = request_headers r ∧ headers r' = headers r ∧
  method r' = method r ∧ request_id r' = request_id r.
Proof. cbv zeta. destruct (host_write_back r hs) as [->|(v & p & i & c & u & _ & _ & _ & _ & ->)]; done. Qed.

Lemma write_back_pairs r hs : url_query_pairs (url (apply_host_header_to_request r hs)) = url_query_pairs (url r).
Proof.
  destruct (host_write_back r hs) as [->|(v & p & i & c & u & _ & _ & Hh & Hu & ->)]; [done|].
  apply url_set_host_pairs in Hh. rewrite <- Hh. cbn [with_host_url url]. destruct p as [p|].
  - by apply url_set_port_pairs in Hu.
  - subst u. destruct (url_set_port c None) eqn:Hp; [|done]. by apply url_set_port_pairs in Hp.
Qed.

(** The headers a body edit drops. *)
Definition body_edit_strips : list str :=
  [lit "content-encoding"; lit "content-md5"; lit "digest"; lit "etag"; lit "content-length"].

Lemma strip_all_get m n :
  hm_get_all (hm_remove (strip_plain_body_edit_headers m) (lit "content-length")) n =
    if bool_decide (n ∈ body_edit_strips) then [] else hm_get_all m n.
Proof.
  unfold strip_plain_body_edit_headers, body_edit_strips. rewrite !hm_get_remove.
  destruct (decide (n ∈ [lit "content-encoding"; lit "content-md5"; lit "digest"; lit "etag"; lit "content-length"]))
    as [Hn|Hn].
  - rewrite (bool_decide_true (n ∈ _)) by done. repeat (case_bool_decide; [done|]). set_solver.
  - by repeat (rewrite bool_decide_false by set_solver).
Qed.

Lemma strip_all_entries es :
  List.filter (fun e => negb (eq_ignore_ascii_case (name e) (lit "content-length")))
    (strip_plain_body_edit_header_entries es) =
  List.filter (fun e => negb (is_any (name e) body_edit_strips)) es.
Proof.
  unfold strip_plain_body_edit_header_entries. induction es as [|e es IH]; [done|].
  cbn [List.filter]. rewrite <- IH. unfold is_any, body_edit_strips. cbn [existsb].
  unfold named. destruct (eq_ignore_ascii_case (name e) (lit "content-encoding")),
    (eq_ignore_ascii_case (name e) (lit "content-md5")), (eq_ignore_ascii_case (name e) (lit "digest")),
    (eq_ignore_ascii_case (name e) (lit "etag")); cbn [negb andb orb]; try done.
  cbn [List.filter]. by destruct (eq_ignore_ascii_case (name e) (lit "content-length")).
Qed.

Lemma fresh_query r : target_fresh r → query_params r = build_query_params (url r).
Proof. intros Hf. unfold target_fresh in Hf. by rewrite <- Hf. Qed.

Lemma edit_query_facts r ps : let r' := edit_query r ps in
  target_fresh r' ∧ method r' = method r ∧ request_id r' = request_id r ∧ body r' = body r ∧
  headers r' = headers r ∧ request_headers r' = request_headers r ∧
  query_params r' = map (fun e => {| name := name e; hvalue := hvalue e; is_pseudo := None |}) ps.
Proof.
  cbv zeta. split_and!; try done. cbn. unfold build_query_params. rewrite url_set_query_pairs_get.
  rewrite map_map. done.
Qed.

Lemma edit_headers_facts r es : target_fresh r → let r' := edit_headers r es in
  target_fresh r' ∧ method r' = method r ∧ request_id r' = request_id r ∧ body r' = body r ∧
  headers r' = edited_headers es ∧ request_headers r' = es ∧ query_params r' = query_params r.
Proof.
  intros Hf. cbv zeta. unfold edit_headers.
  destruct (write_back_keeps (with_entries r es) (edited_headers es)) as (Hb & He & _ & Hm & Hi).
  split_and!; try done. rewrite (fresh_query r) by done. cbn. unfold build_query_params.
  by rewrite write_back_pairs.
Qed.

Lemma edit_body_facts r b : target_fresh r → let r' := edit_body r b in
  target_fresh r' ∧ method r' = method r ∧ request_id r' = request_id r ∧
  body r' = decode_base64_or_text b ∧
  (∀ n, hm_get_all (headers r') n = if bool_decide (n ∈ body_edit_strips) then [] else hm_get_all (headers r) n) ∧
  request_headers r' = List.filter (fun e => negb (is_any (name e) body_edit_strips)) (request_headers r) ∧
  query_params r' = query_params r.
Proof.
  intros Hf. cbv zeta. split_and!; try done.
  - intros n. apply strip_all_get.
  - apply strip_all_entries.
  - by rewrite (fresh_query r).
Qed.
End EditLemmas.

(** ** Properties: edits *)

Section EditProperties.
Context `{HeaderOps} `{UrlOps} `{Base64}.

(** The edits of a resolved request breakpoint.  Exactly the edited parts change:
    repeated headers keep all their legal values in order, an edited body drops
    the headers that described the old one from the wire headers and from the
    display, an edited query is what the request then shows, and path, query
    and raw head agree with the URL and the entries afterwards; without edits
    the request is untouched. *)
Theorem request_edit_effect res r :
  target_fresh r →
  let r' := apply_request_resolution res r in
  let edited_body := is_Some (res_request_body_base64 res) in
  target_fresh r' ∧ method r' = method r ∧ request_id r' = request_id r ∧
  body r' = from_option decode_base64_or_text (body r) (res_request_body_base64 res) ∧
  (∀ n, hm_get_all (headers r') n =
     if bool_decide (edited_body ∧ n ∈ body_edit_strips) then []
     else from_option (omap (gives n)) (hm_get_all (headers r) n) (res_request_headers res)) ∧
  request_headers r' =
    List.filter (fun e => negb (bool_decide edited_body && is_any (name e) body_edit_strips))
      (default (request_headers r) (res_request_headers res)) ∧
  query_params r' =
    from_option (map (fun e => {| name := name e; hvalue := hvalue e; is_pseudo := None |}))
      (query_params r) (res_request_query_params res) ∧
  (res_request_query_params res = None → res_request_headers res = None → res_request_body_base64 res = None →
   r' = r).
Proof.
  intros Hf. cbv zeta. rewrite resolution_steps. cbv zeta.
  destruct res as [sid act mk hs qs bd st rhs rb]. cbn [res_request_query_params res_request_headers
    res_request_body_base64].
  set (r1 := from_option (edit_query r) r qs).
  assert (target_fresh r1 ∧ method r1 = method r ∧ request_id r1 = request_id r ∧ body r1 = body r ∧
    headers r1 = headers r ∧ request_headers r1 = request_headers r ∧
    query_params r1 = from_option (map (fun e => {| name := name e; hvalue := hvalue e; is_pseudo := None |}))
      (query_params r) qs) as (F1 & M1 & I1 & B1 & H1' & E1 & Q1).
  { unfold r1. destruct qs; [apply edit_query_facts|done]. }
  set (r2 := from_option (edit_headers r1) r1 hs).
  assert (target_fresh r2 ∧ method r2 = method r1 ∧ request_id r2 = request_id r1 ∧ body r2 = body r1 ∧
    headers r2 = from_option edited_headers (headers r1) hs ∧ request_headers r2 = default (request_headers r1) hs ∧
    query_params r2 = query_params r1) as (F2 & M2 & I2 & B2 & H2' & E2 & Q2).
  { unfold r2. destruct hs; [by apply edit_headers_facts|done]. }
  assert (∀ n, hm_get_all (headers r2) n = from_option (omap (gives n)) (hm_get_all (headers r) n) hs) as G2.
  { intros n. rewrite H2', H1'. destruct hs; [apply edited_headers_get|done]. }
  rewrite <- Q1, <- Q2, <- I1, <- I2, <- M1, <- M2, <- B1, <- B2, <- E1, <- E2.
  destruct bd as [b|]; cbn [from_option].
  - destruct (edit_body_facts r2 b F2) as (F3 & M3 & I3 & B3 & H3 & E3 & Q3). split_and!; try done.
    + intros n. rewrite H3, <- G2. by repeat case_bool_decide; naive_solver.
  - split_and!; try done.
    + generalize (request_headers r2). clear. intros es. induction es as [|e es IH]; [done|].
      cbn in *. by rewrite <- IH.
    + intros -> -> _. done.
Qed.

(** The edits of a resolved response breakpoint: a legal status replaces the old
    one, repeated headers keep all their legal values in order, and an edited
    body replaces the bytes and their length and drops the headers that
    described the old body, whatever header list was edited along with it. *)
Theorem response_edit_effect res r :
  let r' := apply_response_resolution res r in
  let edited_body := is_Some (res_response_body_base64 res) in
  status_code r' = match res_response_status_code res with
                   | Some c => if valid_status c then c else status_code r
                   | None => status_code r
                   end ∧
  response_body r' = from_option decode_base64_or_text (response_body r) (res_response_body_base64 res) ∧
  (∀ n, hm_get_all (response_headers r') n =
     if bool_decide (edited_body ∧ n ∈ body_edit_strips) then []
     else from_option (omap (gives n)) (hm_get_all (response_headers r) n) (res_response_headers res)) ∧
  (edited_body → response_body_size_bytes r' = len (response_body r') ∧ body_truncated r' = false ∧
                 spooled_response_path r' = None).
Proof.
  destruct res as [sid act mk hs qs bd st rhs rb]. cbv zeta. unfold apply_response_resolution.
  cbn [res_response_status_code res_response_headers res_response_body_base64].
  set (r1 := match st with Some c => if valid_status c then with_status r c else r | None => r end).
  assert (status_code r1 = match st with Some c => if valid_status c then c else status_code r
                           | None => status_code r end ∧
    response_body r1 = response_body r ∧ response_headers r1 = response_headers r) as (S1 & B1 & H1').
  { unfold r1. by repeat case_match. }
  set (r2 := match rhs with Some es => with_response_headers r1 (edited_headers es) | None => r1 end).
  assert (status_code r2 = status_code r1 ∧ response_body r2 = response_body r1 ∧
    ∀ n, hm_get_all (response_headers r2) n = from_option (omap (gives n)) (hm_get_all (response_headers r) n) rhs)
    as (S2 & B2 & G2).
  { unfold r2. rewrite <- H1'. destruct rhs; [|done]. split_and!; [done..|]. apply edited_headers_get. }
  rewrite <- S1, <- S2, <- B1, <- B2. destruct rb as [b|]; cbn [from_option].
  - split_and!; [done..| |done]. intros n. cbn [with_response_headers response_headers replace_response_body].
    rewrite strip_all_get, <- G2. by repeat case_bool_decide; naive_solver.
  - split_and!; [done..| |by intros [? ?]]. intros n. rewrite G2.
    by rewrite bool_decide_false by (by intros [[? ?] _]).
Qed.

(** A mock response is a complete response: its [Content-Length] is the length of
    its body whatever the mock declared, every other header keeps all its legal
    values in order, and an illegal status becomes 200. *)
Theorem mock_response_framed mock :
  let r := build_mock_upstream_response mock in
  hm_get_all (response_headers r) (lit "content-length") = [show (len (response_body r))] ∧
  response_body_size_bytes r = len (response_body r) ∧
  response_body r = from_option decode_base64_or_text [] (mock_body_base64 mock) ∧
  100 <= status_code r < 1000 ∧
  (valid_status (mock_status_code mock) = true → status_code r = mock_status_code mock) ∧
  ∀ n, n ≠ lit "content-length" → hm_get_all (response_headers r) n = omap (gives n) (mock_headers mock).
Proof.
  cbv zeta. unfold build_mock_upstream_response.
  cbn [response_headers response_body response_body_size_bytes status_code].
  set (b := match mock_body_base64 mock with Some b => decode_base64_or_text b | None => [] end).
  rewrite header_value_visible.
  2: { eapply Forall_impl; [apply show_digits, len_nonneg|]. intros c Hc. unfold is_digit in Hc. breflect. lia. }
  split_and!.
  - by rewrite hm_get_insert, bool_decide_true.
  - done.
  - done.
  - case_match eqn:Hv; [|lia]. unfold valid_status in Hv. lia.
  - case_match eqn:Hv; [|lia]. unfold valid_status in Hv. lia.
  - by intros ->.
  - intros n Hn. rewrite hm_get_insert, bool_decide_false by done. apply edited_headers_get.
Qed.
End EditProperties.

(** ** Lemmas: one interception among others *)

Section Interception.
Context `{RegexEngine}.

(** What stays true of channel [c], registered for session [s], while the
    operations [past] run. *)
Record owns (s : str) (c : Z) (past : list BpOp) (m : BreakpointManager) : Prop := {
  owns_issued : c < next_chan m;
  owns_chan : is_Some (chans m !! c);
  owns_session s' e : pending m !! s' = Some e → pb_sender e = c → s' = s;
  owns_sent r : chans m !! c = Some (Sent r) → OpResolve s r ∈ past ∨ r = forward_resolution s
}.

Lemma owns_more s c past op m : owns s c past m → owns s c (past ++ [op]) m.
Proof. intros [Hi Hc Hs Hr]. split; [done..|]. intros r Hx. destruct (Hr r Hx); [left; set_solver|by right]. Qed.

Lemma owns_settle s c past m k e x :
  owns s c past m → pending m !! k = Some e →
  (∀ r, x = Sent r → OpResolve k r ∈ past ∨ r = forward_resolution k) →
  owns s c past (with_pending m (delete k (pending m)) (<[pb_sender e := x]> (chans m))).
Proof.
  intros [Hi Hc Hs Hr] He Hx. split; cbn [next_chan chans pending with_pending].
  - done.
  - destruct (decide (pb_sender e = c)) as [->|]; [by rewrite lookup_insert_eq|by rewrite lookup_insert_ne].
  - intros s' e' He' Hc'. apply lookup_delete_Some in He' as [_ He']. by eapply Hs.
  - intros r Hl. apply lookup_insert_Some in Hl as [[Heq ->]|[_ Hl]]; [|by apply Hr].
    rewrite <- (Hs k e He Heq). by apply Hx.
Qed.

Lemma owns_send s c past m k e r :
  owns s c past m → pending m !! k = Some e → OpResolve k r ∈ past ∨ r = forward_resolution k →
  owns s c past (with_pending m (delete k (pending m)) (send m (pb_sender e) r).1).
Proof.
  intros Ho He Hr. unfold send. case_bool_decide; apply owns_settle; try done.
  by intros r' [= <-].
Qed.

Lemma owns_cancel_list s c past ks m : owns s c past m → owns s c past (fold_left cancel_one ks m).
Proof.
  revert m. induction ks as [|k ks IH]; intros m Hm; [done|]. cbn. apply IH. unfold cancel_one.
  destruct (pending m !! k) eqn:He; [|done]. apply owns_send; [done..|by right].
Qed.

Lemma owns_remove s c past m k : owns s c past m → owns s c past (remove_pending m k).
Proof.
  intros Hm. unfold remove_pending. destruct (pending m !! k) as [e|] eqn:He; cbn [drop_sender].
  - by apply owns_settle.
  - rewrite delete_id by done. destruct Hm. by split.
Qed.

Lemma owns_same s c past m m' :
  owns s c past m → pending m' = pending m → chans m' = chans m → next_chan m' = next_chan m → owns s c past m'.
Proof. intros [? ? ? ?] Hp Hc Hn. split; rewrite ?Hp, ?Hc, ?Hn; done. Qed.

Lemma owns_register s c past m k rid : owns s c past m → owns s c past (register_pending m k rid).2.
Proof.
  intros Hm. pose proof (owns_remove _ _ _ _ k Hm) as [Hi Hc Hs Hr]. unfold remove_pending in *.
  cbn [next_chan chans pending with_pending] in *. split; cbn [register_pending snd next_chan chans pending].
  - lia.
  - rewrite lookup_insert_ne by lia. done.
  - intros s' e He Heq. apply lookup_insert_Some in He as [[_ <-]|[Hne He]]; [cbn in Heq; lia|].
    eapply Hs; [|done]. by rewrite lookup_delete_ne.
  - intros r Hl. rewrite lookup_insert_ne in Hl by lia. by apply Hr.
Qed.

Lemma owns_run s c past op m : owns s c past m → owns s c (past ++ [op]) (run_bp m op).
Proof.
  intros Hm%(owns_more _ _ _ op). destruct op as [rs|k r|k r|k| |ids|k c' el]; cbn [run_bp].
  - assert (owns s c (past ++ [OpSetRules rs]) (with_rules m (map (fun r => {| cb_rule := r;
      cb_compiled_match := compile_match_regex (bp_match_type r) (bp_url_pattern r) |}) rs))) as Hw
      by (by eapply owns_same).
    unfold set_rules. case_match; [done|]. by apply owns_cancel_list.
  - by apply owns_register.
  - unfold resolve. destruct (pending m !! k) as [e|] eqn:He; [|done].
    pose proof (owns_send _ _ _ _ _ _ r Hm He) as Hs. destruct (send m (pb_sender e) r). apply Hs. left. set_solver.
  - by apply owns_remove.
  - by apply owns_cancel_list.
  - by apply owns_cancel_list.
  - assert (owns s c (past ++ [OpEndWait k c' el]) (drop_receiver m c')) as Hd by (by eapply owns_same).
    unfold end_wait. destruct (chans m !! c') as [[|r|]|]; [|..|done]; [|done|by apply owns_remove].
    destruct el; [by apply owns_remove|done].
Qed.

Lemma owns_runs s c past ops m : owns s c past m → owns s c (past ++ ops) (fold_left run_bp ops m).
Proof.
  revert past m. induction ops as [|op ops IH]; intros past m Hm; cbn; [by rewrite app_nil_r|].
  rewrite (app_assoc past [op] ops : past ++ op :: ops = _). by apply IH, owns_run.
Qed.

Lemma owns_registered m s rid : bp_inv m → owns s (next_chan m) [] (register_pending m s rid).2.
Proof.
  intros Hm. pose proof (inv_remove m s Hm) as Hr.
  split; cbn [register_pending snd next_chan chans pending]; [lia|by rewrite lookup_insert_eq| |].
  - intros s' e He Hc. apply lookup_insert_Some in He as [[<- _]|[_ He]]; [done|].
    apply (inv_waiting _ Hm), (inv_fresh _ Hm) in He. lia.
  - intros r. by rewrite lookup_insert_eq.
Qed.

Lemma inv_runs ops m : bp_inv m → bp_inv (fold_left run_bp ops m).
Proof. revert m. induction ops as [|op ops IH]; intros m Hm; [done|]. cbn. by apply IH, inv_run. Qed.
End Interception.

(** ** Properties: interception *)

Section InterceptionProperties.
Context `{HeaderOps} `{UrlOps} `{Base64} `{RegexEngine}.

(** C32: An intercepted request always goes on.  Whatever the other tasks and the
    user do while it waits, at the deadline at the latest the wait ends, no
    entry of the manager refers to it any more, and the request is either
    exactly what it was or edited by a resolution given for its own session. *)
Theorem interception_ends m r c m1 ops :
  bp_inv m → intercept_register (Some m) Request r = Some (c, m1) →
  ∃ r' out m3, intercept_request_end (fold_left run_bp ops m1) r c true = Some (r', out, m3) ∧
    (∀ s e, pending m3 !! s = Some e → pb_sender e ≠ c) ∧
    match out with
    | None => r' = r
    | Some res => r' = apply_request_resolution res r ∧ (OpResolve (request_id r) res ∈ ops ∨ r' = r)
    end.
Proof.
  intros Hm. unfold intercept_register. destruct (find_matching_rule_id _ _ _ _) as [rid|]; [|done].
  intros [= <- <-]. pose proof (owns_registered m (request_id r) rid Hm) as Ho.
  apply (owns_runs _ _ _ ops) in Ho. pose proof (inv_runs ops _ (inv_register m (request_id r) rid Hm)) as Hi.
  cbn [register_pending snd] in Ho, Hi. set (m2 := fold_left run_bp ops _) in *. destruct Ho as [_ [x Hx] Hs Hr].
  assert (∀ s e, pending (remove_pending (drop_receiver m2 (next_chan m)) (request_id r)) !! s = Some e →
    pb_sender e ≠ next_chan m) as Hrm.
  { intros s e He Hc. cbn [remove_pending with_pending pending drop_receiver] in He.
    apply lookup_delete_Some in He as [Hne He]. apply Hne. by rewrite (Hs s e He Hc). }
  unfold intercept_request_end, end_wait. rewrite Hx. destruct x as [|res|].
  - by do 3 eexists.
  - do 3 eexists. split; [done|]. split.
    + intros s e He Hc. apply (inv_waiting _ Hi) in He. congruence.
    + split; [done|]. destruct (Hr res Hx) as [? | ->]; [by left|by right].
  - by do 3 eexists.
Qed.
End InterceptionProperties.

(** ** Witnesses *)

#[local] Existing Instance no_regex.

(** One encoded text. *)
Definition demo_base64 : Base64 :=
  {| base64_decode s := if bool_decide (s = lit "bmV3") then Some (lit "new") else None |}.

(** Two cookies and the entity headers of the old body; a query edit. *)
Definition demo_resolution : BreakpointResolution :=
  {| res_session_id := lit "1"; res_action := Forward; res_mock := None;
     res_request_headers :=
       Some [entry (lit "Cookie") (lit "a"); entry (lit "ETag") (lit "1"); entry (lit "cookie") (lit "b")];
     res_request_query_params := Some [entry (lit "q") (lit "1")];
     res_request_body_base64 := Some (lit "bmV3"); res_response_status_code := Some 404;
     res_response_headers := Some [entry (lit "X") (lit "1"); entry (lit "Content-Length") (lit "9")];
     res_response_body_base64 := Some (lit "bmV3") |}.

Lemma request_edit_effect_witness :
  let r' := @apply_request_resolution list_headers demo_urls demo_base64 demo_resolution demo_request in
  body r' = lit "new" ∧ @hm_get_all list_headers (headers r') (lit "cookie") = [lit "a"; lit "b"] ∧
  @hm_get_all list_headers (headers r') (lit "etag") = [] ∧ query_params r' = [entry (lit "q") (lit "1")].
Proof.
  intros r'. destruct (@request_edit_effect list_headers demo_urls demo_base64 demo_resolution demo_request)
    as (_ & _ & _ & Hb & Hh & _ & Hq & _); [vm_compute; reflexivity|].
  fold r' in Hb, Hh, Hq. rewrite Hb, Hq, !Hh. vm_compute. done.
Defined.

Lemma response_edit_effect_witness :
  let r' := @apply_response_resolution list_headers demo_base64 demo_resolution demo_response in
  status_code r' = 404 ∧ response_body r' = lit "new" ∧
  @hm_get_all list_headers (response_headers r') (lit "content-length") = [].
Proof.
  intros r'. destruct (@response_edit_effect list_headers demo_base64 demo_resolution demo_response)
    as (Hs & Hb & Hh & _).
  fold r' in Hs, Hb, Hh. rewrite Hs, Hb, Hh. vm_compute. done.
Defined.

Lemma mock_response_framed_witness :
  let r := @build_mock_upstream_response list_headers demo_base64
             {| mock_status_code := 42; mock_headers := [entry (lit "Set-Cookie") (lit "a=1")];
                mock_body_base64 := Some (lit "bmV3") |} in
  @hm_get_all list_headers (response_headers r) (lit "content-length") = [lit "3"] ∧
  @hm_get_all list_headers (response_headers r) (lit "set-cookie") = [lit "a=1"].
Proof.
  intros r. destruct (@mock_response_framed list_headers demo_base64
    {| mock_status_code := 42; mock_headers := [entry (lit "Set-Cookie") (lit "a=1")];
       mock_body_base64 := Some (lit "bmV3") |}) as (Hl & _ & _ & _ & _ & Hh).
  fold r in Hl, Hh. rewrite Hl, Hh by discriminate. vm_compute. done.
Defined.

Lemma interception_ends_witness :
  ∃ c m1, @intercept_register list_headers demo_urls no_regex (Some demo_manager) Request demo_request = Some (c, m1) ∧
  ∃ r' out m3,
    @intercept_request_end list_headers demo_urls demo_base64 no_regex
      (fold_left run_bp [OpSetRules []; OpResolve (lit "2") (forward_resolution (lit "2"))] m1)
      demo_request c true = Some (r', out, m3) ∧ r' = demo_request.
Proof.
  do 2 eexists. split; [reflexivity|].
  edestruct (@interception_ends list_headers demo_urls demo_base64 no_regex demo_manager demo_request)
    with (ops := [OpSetRules []; OpResolve (lit "2") (forward_resolution (lit "2"))])
    as (r' & out & m3 & Ho & _ & Hr); [apply inv_reachable|reflexivity|].
  exists r', out, m3. split; [exact Ho|]. destruct out as [res|]; [|done].
  destruct Hr as [_ [Hin|Hr]]; [|done].
  repeat (apply elem_of_cons in Hin as [Hin|Hin]; [discriminate Hin|]).
  apply elem_of_nil in Hin. destruct Hin.
Defined.
