(* ===== verification/Forward.v ===== *)
(** * Forward: from the client's request to the upstream request and back
    (proxy-core/src/connection.rs; http_proxy.rs: build_url_from_hyper,
    build_request_headers_from_hyper, build_upstream_headers_from_hyper,
    build_parsed_request_from_hyper, build_hyper_response_from_upstream;
    upstream.rs: the request heads of the h1 and h2 branches)

    A [hyper] request is given by its method, the text, authority and
    path-and-query of its URI and its header map; its method is a valid one
    already. *)

From S2P Require Import Prelude Str Patterns RuleTypes RuleSelection HttpIo Rewrite Breakpoints BreakpointEdits.

(** ** Definitions: reading a request *)

Inductive ConnectionMode :=
  | PlainHttp
  | MitmHttps (host : str) (port : Z) (tls_protocol tls_cipher_suite : option str) (tls_ms : Z)
      (alpn_protocol : option str).

Definition mode_protocol (m : ConnectionMode) : str :=
  match m with
  | PlainHttp => lit "http"
  | MitmHttps _ _ _ _ _ alpn => if bool_decide (alpn = Some (lit "h2")) then lit "h2" else lit "https"
  end.

Definition is_h2 (m : ConnectionMode) : bool :=
  match m with
  | PlainHttp => false
  | MitmHttps _ _ _ _ _ alpn => bool_decide (alpn = Some (lit "h2"))
  end.

Definition should_skip_hyper_header (n : str) (is_ws_upgrade : bool) : bool :=
  if negb is_ws_upgrade then
    is_any n [lit "host"; lit "connection"; lit "proxy-connection"; lit "content-length";
              lit "transfer-encoding"]
  else
    is_any n [lit "host"; lit "proxy-connection"; lit "content-length"; lit "transfer-encoding"].

Definition is_absolute (uri : str) : bool :=
  existsb (fun p => starts_with uri p) [lit "http://"; lit "https://"; lit "ws://"; lit "wss://"].

Section Forward.
Context `{HeaderOps} `{UrlOps}.

Record Parts := {
  p_method : str;
  p_uri : str;
  p_authority : option str;
  p_path_and_query : option str;
  p_headers : HeaderMap
}.

(** [headers.get(name)] *)
Definition hm_get (m : HeaderMap) (n : str) : option bytes := hd_error (hm_get_all m n).

Definition build_url_from_hyper (parts : Parts) (mode : ConnectionMode) : result Url str :=
  let host_header := hm_get (p_headers parts) (lit "host") ≫= to_str in
  match mode with
  | PlainHttp =>
      if is_absolute (p_uri parts) then
        map_err (fun e => lit "invalid absolute-form URL: " ++ e) (url_parse (p_uri parts))
      else
        let? host := ok_or host_header (lit "Host header is required for origin-form requests") in
        map_err (fun e => lit "invalid origin-form URL: " ++ e)
          (url_parse (lit "http://" ++ host ++ p_uri parts))
  | MitmHttps host _ _ _ _ alpn =>
      if bool_decide (alpn = Some (lit "h2")) then
        let authority := default host (p_authority parts) in
        let path := default (lit "/") (p_path_and_query parts) in
        let target := lit "https://" ++ authority ++ path in
        map_err (fun e => lit "invalid h2 URL '" ++ target ++ lit "': " ++ e) (url_parse target)
      else
        let target :=
          if is_absolute (p_uri parts) then p_uri parts
          else if starts_with (p_uri parts) (lit "/") then
            let effective_host :=
              default host (match p_authority parts with Some a => Some a | None => host_header end) in
            lit "https://" ++ effective_host ++ p_uri parts
          else lit "https://" ++ p_uri parts ++ lit "/" in
        map_err (fun e => lit "invalid h1 URL '" ++ target ++ lit "': " ++ e) (url_parse target)
  end.

Definition pseudo (n v : str) : ProxyHeaderEntry := {| name := n; hvalue := v; is_pseudo := Some true |}.

Definition entry_of (nv : str * bytes) : ProxyHeaderEntry :=
  {| name := nv.1;
     hvalue := match to_str nv.2 with Some s => s | None => from_utf8_lossy nv.2 end;
     is_pseudo := if starts_with nv.1 (lit ":") then Some true else None |}.

Definition build_request_headers_from_hyper (parts : Parts) (is_h2 : bool) : list ProxyHeaderEntry :=
  (if is_h2 then
     [pseudo (lit ":method") (p_method parts); pseudo (lit ":scheme") (lit "https")]
     ++ match p_authority parts with Some a => [pseudo (lit ":authority") a] | None => [] end
     ++ match p_path_and_query parts with Some pq => [pseudo (lit ":path") pq] | None => [] end
   else [])
  ++ map entry_of (hm_iter (p_headers parts)).

Definition is_ws_upgrade_map (m : HeaderMap) : bool :=
  match hm_get m (lit "upgrade") with
  | Some v => eq_ignore_ascii_case v (lit "websocket")
  | None => false
  end.

(** The headers of the map the loop does not [continue] over. *)
Definition hyper_forwarded (m : HeaderMap) (nv : str * bytes) : bool :=
  let ws := is_ws_upgrade_map m in
  let strip := hop_by_hop_strip_set (hm_iter m) in
  negb (starts_with nv.1 (lit ":"))
  && negb (should_skip_hyper_header nv.1 ws)
  && negb (should_strip_hop_by_hop nv.1 strip ws).

(** [for (name, value) in headers { if keep { map.append(name, value) } }] *)
Definition append_kept (keep : str * bytes → bool) (l : list (str * bytes)) (m : HeaderMap) : HeaderMap :=
  fold_left (fun m nv => if keep nv then hm_append m nv.1 nv.2 else m) l m.

Definition build_upstream_headers_from_hyper (m : HeaderMap) : HeaderMap :=
  append_kept (hyper_forwarded m) (hm_iter m) hm_empty.

Definition build_parsed_request_from_hyper (parts : Parts) (body : bytes) (mode : ConnectionMode)
    (client_addr request_id : str) : result ParsedProxyRequest str :=
  let? url := build_url_from_hyper parts mode in
  let? host := ok_or (url_host_str url) (lit "target URL does not contain a host") in
  let path := build_request_path url in
  let request_headers := build_request_headers_from_hyper parts (is_h2 mode) in
  Ok {| body := body; client_address := Some client_addr;
        headers := build_upstream_headers_from_hyper (p_headers parts); host := host;
        method := p_method parts; path := path; protocol := mode_protocol mode;
        query_params := build_query_params url;
        raw_request :=
          build_raw_http_head
            (p_method parts ++ lit " " ++ path ++ lit " HTTP/"
               ++ (if is_h2 mode then lit "2" else lit "1.1")) request_headers;
        request_headers := request_headers; request_id := request_id; url := url;
        tls_cipher_suite := match mode with MitmHttps _ _ _ c _ _ => c | PlainHttp => None end;
        tls_protocol := match mode with MitmHttps _ _ p _ _ _ => p | PlainHttp => None end |}.

(** ** Definitions: the upstream request *)

Definition h2_forbidden : list str :=
  [lit "host"; lit "connection"; lit "keep-alive"; lit "proxy-connection"; lit "transfer-encoding";
   lit "upgrade"; lit "te"].

Definition is_h2_forbidden_request_header (n : str) : bool := is_any n h2_forbidden.

Definition h2_request_uri (u : Url) : str :=
  let host := default [] (url_host_str u) in
  let uri :=
    match url_port u with
    | Some port => url_scheme u ++ lit "://" ++ host ++ lit ":" ++ show port
    | None => url_scheme u ++ lit "://" ++ host
    end in
  let uri := uri ++ url_path u in
  match url_query u with
  | Some query => uri ++ lit "?" ++ query
  | None => uri
  end.

(** The header map of [build_h2_req]. *)
Definition h2_request_headers (r : ParsedProxyRequest) : HeaderMap :=
  append_kept (fun nv => negb (is_h2_forbidden_request_header nv.1)) (hm_iter (headers r)) hm_empty.

Definition h1_request_target (u : Url) : str :=
  match url_query u with
  | Some query => url_path u ++ lit "?" ++ query
  | None => url_path u
  end.

Definition h1_host_header (r : ParsedProxyRequest) : str :=
  match url_port (url r) with
  | Some port => host r ++ lit ":" ++ show port
  | None => host r
  end.

(** The header map of [forward_h1_request]'s builder; a header value the builder
    refuses makes [body()] fail. *)
Definition h1_request_headers (r : ParsedProxyRequest) : result HeaderMap str :=
  let m := append_kept (fun nv => negb (bool_decide (nv.1 = lit "host"))) (hm_iter (headers r)) hm_empty in
  match header_value (h1_host_header r) with
  | Ok v => Ok (hm_append m (lit "host") v)
  | Err e => Err (lit "failed to build upstream request: " ++ e)
  end.

(** ** Definitions: the response to the client *)

Definition declared_content_length (l : list (str * bytes)) : option Z :=
  fold_left (fun acc nv =>
    if bool_decide (nv.1 = lit "content-length") then
      match from_utf8 nv.2 ≫= parse_uint u64_max with Some n => Some n | None => acc end
    else acc) l None.

Definition client_forwarded (m : HeaderMap) (status : Z) (nv : str * bytes) : bool :=
  negb (bool_decide (nv.1 = lit "content-length"))
  && negb (bool_decide (nv.1 = lit "transfer-encoding"))
  && negb (should_strip_hop_by_hop nv.1 (hop_by_hop_strip_set (hm_iter m)) (bool_decide (status = 101))).

(** The headers of [build_hyper_response_from_upstream]. *)
Definition client_response_headers (status : Z) (m : HeaderMap) (streamed_content_length : option Z)
    (preserve_declared_content_length : bool) : HeaderMap :=
  let kept := append_kept (client_forwarded m status) (hm_iter m) hm_empty in
  match streamed_content_length with
  | Some len => hm_append kept (lit "content-length") (show len)
  | None =>
      if preserve_declared_content_length then
        match declared_content_length (hm_iter m) with
        | Some len => hm_append kept (lit "content-length") (show len)
        | None => kept
        end
      else kept
  end.
End Forward.

(** ** Lemmas *)

Section ForwardLemmas.
Context `{HeaderOps} `{UrlOps}.

Lemma append_kept_get keep l m n :
  hm_get_all (append_kept keep l m) n =
    hm_get_all m n ++ map snd (List.filter (fun nv => keep nv && bool_decide (nv.1 = n)) l).
Proof.
  unfold append_kept. revert m. induction l as [|[k v] l IH]; intros m; cbn [fold_left List.filter map];
    [by rewrite app_nil_r|].
  rewrite IH. destruct (keep (k, v)); cbn [andb fst snd]; [|done]. rewrite hm_get_append.
  case_bool_decide; [|done]. cbn. by rewrite <- app_assoc.
Qed.

(** The names of the map are valid (so lower case), its values visible ASCII. *)
Definition legal_map (m : HeaderMap) : Prop :=
  Forall (fun nv => header_name nv.1 = Ok nv.1 ∧ to_str nv.2 = Some nv.2 ∧ header_value nv.2 = Ok nv.2) (hm_iter m).

Lemma legal_lower m nv : legal_map m → nv ∈ hm_iter m → to_ascii_lowercase nv.1 = nv.1.
Proof.
  unfold legal_map. rewrite Forall_forall. intros Hm Hnv. apply Hm in Hnv as [Hn _].
  by apply header_name_lower in Hn.
Qed.

Lemma legal_entries m :
  legal_map m → map (fun h => (name h, hvalue h)) (map entry_of (hm_iter m)) = hm_iter m.
Proof.
  unfold legal_map. induction (hm_iter m) as [|[n v] l IH]; intros Hm; [done|].
  apply Forall_cons in Hm as [(_ & Hv & _) Hm]. cbn [map entry_of name hvalue fst snd].
  rewrite IH by done. cbn [snd] in Hv. by rewrite Hv.
Qed.

(** The pseudo-headers in front change no decision. *)
Lemma pseudo_ignored parts b es :
  ∃ ps, build_request_headers_from_hyper parts b = ps ++ map entry_of (hm_iter (p_headers parts)) ∧
    Forall (fun h => starts_with (name h) (lit ":") = true) ps ∧
    is_ws_upgrade_entries (ps ++ es) = is_ws_upgrade_entries es ∧
    hop_by_hop_strip_set (map (fun h => (name h, hvalue h)) (ps ++ es)) =
      hop_by_hop_strip_set (map (fun h => (name h, hvalue h)) es).
Proof.
  eexists. split; [unfold build_request_headers_from_hyper; reflexivity|].
  destruct b, (p_authority parts), (p_path_and_query parts); split_and!;
    first [reflexivity | repeat constructor].
Qed.

(** At most one [Upgrade] value: looking at the first or at any is the same. *)
Lemma ws_upgrade_agrees m :
  legal_map m → (length (hm_get_all m (lit "upgrade")) <= 1)%nat →
  is_ws_upgrade_entries (map entry_of (hm_iter m)) = is_ws_upgrade_map m.
Proof.
  intros Hm Hl.
  assert (is_ws_upgrade_entries (map entry_of (hm_iter m)) =
    existsb (fun v => eq_ignore_ascii_case v (lit "websocket")) (hm_get_all m (lit "upgrade"))) as ->.
  { unfold legal_map in Hm. rewrite hm_get_iter. clear Hl. induction (hm_iter m) as [|[n v] l IH]; [done|].
    apply Forall_cons in Hm as [(Hn & Hv & _) Hm]. specialize (IH Hm). cbn [fst snd] in *.
    apply header_name_lower in Hn. unfold is_ws_upgrade_entries in *.
    cbn [map existsb List.filter entry_of name hvalue fst snd]. rewrite Hv, IH.
    unfold eq_ignore_ascii_case at 1. rewrite <- Hn. change (to_ascii_lowercase (lit "upgrade")) with (lit "upgrade").
    by case_bool_decide. }
  unfold is_ws_upgrade_map, hm_get. destruct (hm_get_all m (lit "upgrade")) as [|v [|v' vs]]; cbn in *; [done| |lia].
  by rewrite orb_false_r.
Qed.

Lemma forwarded_agrees m es nv :
  legal_map m → nv ∈ hm_iter m →
  is_ws_upgrade_entries es = is_ws_upgrade_map m →
  hop_by_hop_strip_set (map (fun h => (name h, hvalue h)) es) = hop_by_hop_strip_set (hm_iter m) →
  forwarded es (entry_of nv) = hyper_forwarded m nv.
Proof.
  intros Hm Hnv Hws Hs. unfold forwarded, hyper_forwarded. rewrite Hws, Hs. cbn [name entry_of].
  unfold should_skip_hyper_header, should_skip_request_header, is_hop_by_hop_only, is_pseudo_header_name.
  destruct (is_ws_upgrade_map m); cbn [negb andb]; rewrite ?andb_true_r, ?andb_false_r; cbn [negb andb];
    destruct (starts_with nv.1 (lit ":")), (should_strip_hop_by_hop _ _ _); cbn [negb andb];
    by rewrite ?andb_true_r, ?andb_false_r.
Qed.

Lemma append_headers_pseudo all ps todo m :
  Forall (fun h => starts_with (name h) (lit ":") = true) ps →
  append_headers all (ps ++ todo) m = append_headers all todo m.
Proof.
  induction 1 as [|h ps Hh _ IH]; [done|]. cbn [app append_headers].
  assert (forwarded all h = false) as ->; [|done].
  unfold forwarded, is_pseudo_header_name. rewrite Hh. apply andb_false_r.
Qed.

Lemma append_headers_legal all l m keep :
  Forall (fun nv => header_name nv.1 = Ok nv.1 ∧ to_str nv.2 = Some nv.2 ∧ header_value nv.2 = Ok nv.2) l →
  (∀ nv, nv ∈ l → forwarded all (entry_of nv) = keep nv) →
  append_headers all (map entry_of l) m = Ok (append_kept keep l m).
Proof.
  revert m. induction l as [|[n v] l IH]; intros m Hl Hk; [done|].
  apply Forall_cons in Hl as [(Hn & Hv & Hv') Hl]. cbn [fst snd] in *.
  unfold append_kept. cbn [map append_headers fold_left]. rewrite (Hk (n, v)) by left.
  destruct (keep (n, v)); cbn [entry_of name hvalue fst snd].
  - rewrite Hn, Hv, Hv'. apply IH; [done|]. intros nv Hnv. apply Hk. by right.
  - apply IH; [done|]. intros nv Hnv. apply Hk. by right.
Qed.

(** The two header filters agree.  For the header map of a request with legal
    names and visible values and at most one [Upgrade] header, filtering the
    map while reading the request and rebuilding it later from the recorded
    entries (HTTP/2 pseudo-headers included) give the same upstream headers:
    the first rewrite of a request changes no header it does not name. *)
Lemma hyper_headers_agree parts b :
  legal_map (p_headers parts) → (length (hm_get_all (p_headers parts) (lit "upgrade")) <= 1)%nat →
  build_upstream_headers_from_entries (build_request_headers_from_hyper parts b) =
    Ok (build_upstream_headers_from_hyper (p_headers parts)).
Proof.
  intros Hm Hu. destruct (pseudo_ignored parts b (map entry_of (hm_iter (p_headers parts))))
    as (ps & -> & Hps & Hws & Hstrip).
  unfold build_upstream_headers_from_entries. rewrite append_headers_pseudo by done.
  apply append_headers_legal; [done|]. intros nv Hnv. apply forwarded_agrees; [done|done| |].
  - rewrite Hws. by apply ws_upgrade_agrees.
  - rewrite Hstrip. by rewrite legal_entries.
Qed.

Definition lower_names (m : HeaderMap) : Prop := Forall (fun nv => to_ascii_lowercase nv.1 = nv.1) (hm_iter m).

(** A loop that decides by the name alone. *)
Lemma append_kept_by_name (keep : str → bool) m n :
  hm_get_all (append_kept (fun nv => keep nv.1) (hm_iter m) hm_empty) n = if keep n then hm_get_all m n else [].
Proof.
  rewrite append_kept_get, hm_get_empty, hm_get_iter. cbn [app].
  induction (hm_iter m) as [|[k v] l IH]; cbn; [by destruct (keep n)|].
  case_bool_decide as Hk; rewrite ?andb_false_r, ?andb_true_r; [subst k|exact IH].
  destruct (keep n) eqn:Hn; cbn; rewrite ?Hn; [by rewrite IH|exact IH].
Qed.

Lemma strip_set_nominated (pairs : list (str * bytes)) c v t :
  (c, v) ∈ pairs → is_any c connection_names = true → t ∈ parse_connection_tokens v →
  t ∈ hop_by_hop_strip_set pairs.
Proof.
  intros Hc Hn Ht. unfold hop_by_hop_strip_set. apply elem_of_app. left.
  apply list_elem_of_In, in_flat_map. exists (c, v). split; [by apply list_elem_of_In|].
  cbn [fst snd]. unfold connection_names in Hn. rewrite Hn. by apply list_elem_of_In.
Qed.

Lemma lower_strip (pairs : list (str * bytes)) n (ws : bool) :
  to_ascii_lowercase n = n → n ∈ hop_by_hop_strip_set pairs →
  (ws = true → n ∉ [lit "connection"; lit "upgrade"]) →
  should_strip_hop_by_hop n (hop_by_hop_strip_set pairs) ws = true.
Proof.
  intros Hl Hn Hw. unfold should_strip_hop_by_hop. rewrite Hl, (bool_decide_true (n ∈ _)) by done.
  destruct ws; [|by rewrite orb_true_r]. specialize (Hw eq_refl). rewrite andb_true_r.
  assert (∀ k, to_ascii_lowercase k = k → n ≠ k → eq_ignore_ascii_case n k = false) as He.
  { intros k Hk Hne. apply not_true_iff_false. rewrite eq_ignore_ascii_case_spec. congruence. }
  rewrite !He; set_solver.
Qed.

Lemma get_nonempty_iter m n : hm_get_all m n ≠ [] → ∃ v, (n, v) ∈ hm_iter m.
Proof.
  rewrite hm_get_iter. intros Hne. destruct (List.filter _ _) as [|[k v] l] eqn:Hf; [done|].
  assert ((k, v) ∈ List.filter (fun e => bool_decide (e.1 = n)) (hm_iter m)) as Hin by (rewrite Hf; left).
  apply list_elem_of_In, filter_In in Hin as [Hin Hk]. cbn in Hk. breflect. subst k.
  exists v. by apply list_elem_of_In.
Qed.
End ForwardLemmas.

(** ** Properties *)

Section ForwardProperties.
Context `{HeaderOps} `{UrlOps}.

(** C36: What is derived from a request read from the client agrees with it, on plain
    HTTP and decrypted HTTP/1.1 and HTTP/2 connections.  Always the host, path,
    query parameters and raw head are those of its URL and its recorded entries.
    When its header values are visible ASCII and it has at most one Upgrade header
    it is coherent: the headers that were filtered while reading are those that a
    rebuild from the entries gives, so the two independent header filters agree. *)
Theorem parsed_request_coherent parts b mode addr id r :
  build_parsed_request_from_hyper parts b mode addr id = Ok r →
  build_url_from_hyper parts mode = Ok (url r) ∧ body r = b ∧ method r = p_method parts ∧ request_id r = id ∧
  url_host_str (url r) = Some (host r) ∧ path r = build_request_path (url r) ∧
  query_params r = build_query_params (url r) ∧
  (∃ version, version ∈ [lit " HTTP/1.1"; lit " HTTP/2"] ∧
     raw_request r = build_raw_http_head (method r ++ lit " " ++ path r ++ version) (request_headers r)) ∧
  (legal_map (p_headers parts) → (length (hm_get_all (p_headers parts) (lit "upgrade")) <= 1)%nat → coherent r).
Proof.
  unfold build_parsed_request_from_hyper.
  destruct (build_url_from_hyper parts mode) as [u|] eqn:Hurl; cbn [rbind]; [|done].
  destruct (url_host_str u) as [h|] eqn:Hh; cbn [rbind ok_or]; [|done]. intros Hr. injection Hr as <-.
  match goal with |- context [coherent ?q] => set (r := q) end.
  assert (∃ version, version ∈ [lit " HTTP/1.1"; lit " HTTP/2"] ∧
    raw_request r = build_raw_http_head (method r ++ lit " " ++ path r ++ version) (request_headers r)) as Hraw.
  { exists (if is_h2 mode then lit " HTTP/2" else lit " HTTP/1.1"). unfold r.
    cbn [raw_request method path request_headers]. by destruct (is_h2 mode); split; try set_solver. }
  split_and!; try done. intros Hm Hu. split; try done. eexists. split; [by apply hyper_headers_agree|done].
Qed.

(** C37: What goes upstream.  A coherent request that is no WebSocket upgrade is sent
    over HTTP/1.1 with exactly one [Host], built from the host and port of its
    URL, without hop-by-hop and framing headers, and with every other header
    as recorded; over HTTP/2 none of the headers that HTTP/2 forbids is sent
    and every other header is. *)
Theorem upstream_request_headers r :
  coherent r → is_ws_upgrade_entries (request_headers r) = false →
  (∀ m, h1_request_headers r = Ok m →
     header_value (h1_host_header r) = Ok (default [] (hm_get m (lit "host"))) ∧
     length (hm_get_all m (lit "host")) = 1%nat ∧
     (∀ n, n ≠ lit "host" → hm_get_all m n = hm_get_all (headers r) n) ∧
     ∀ n, n ∈ standard_hop_by_hop ++ [lit "content-length"; lit "transfer-encoding"] → hm_get_all m n = []) ∧
  (∀ n, hm_get_all (h2_request_headers r) n =
     if is_h2_forbidden_request_header n then [] else hm_get_all (headers r) n) ∧
  url_host_str (url r) = Some (host r).
Proof.
  intros [Hh _ _ _ (m0 & Hb & Hm0)] Hws. apply upstream_headers_clean in Hb as [_ Hclean].
  split_and!; [| |done].
  2: { intros n. unfold h2_request_headers.
       rewrite (append_kept_by_name (fun n => negb (is_h2_forbidden_request_header n))).
       by destruct (is_h2_forbidden_request_header n). }
  - intros m. unfold h1_request_headers. set (m1 := append_kept _ _ _).
    assert (∀ n, hm_get_all m1 n = if bool_decide (n = lit "host") then [] else hm_get_all (headers r) n) as Hm1.
    { intros n. pose proof (append_kept_by_name (fun n => negb (bool_decide (n = lit "host"))) (headers r) n) as Hk.
      etransitivity; [exact Hk|]. by case_bool_decide. }
    clearbody m1. destruct (header_value (h1_host_header r)) as [v|] eqn:Hv; [|done].
    intros Hr. assert (m = hm_append m1 (lit "host") v) as -> by congruence.
    assert (∀ n, hm_get_all (hm_append m1 (lit "host") v) n =
      if bool_decide (n = lit "host") then [v] else hm_get_all (headers r) n) as Hm.
    { intros n. rewrite hm_get_append, Hm1. destruct (decide (n = lit "host")) as [->|Hn].
      - by rewrite !bool_decide_true.
      - by rewrite !bool_decide_false. }
    split_and!.
    + unfold hm_get. by rewrite Hm, bool_decide_true.
    + by rewrite Hm, bool_decide_true.
    + intros n Hn. by rewrite Hm, bool_decide_false.
    + intros n Hn. rewrite Hm. case_bool_decide as Heq.
      { subst n. by apply (bool_decide_eq_true_2 _) in Hn. }
      rewrite Hm0. destruct (decide (hm_get_all m0 n = [])) as [He|Hne]; [done|].
      destruct (Hclean n Hne) as [Hc _]; [by rewrite Hws|]. destruct Hc.
      apply elem_of_app in Hn as [Hn|Hn]; apply elem_of_app; [by left|right; by apply list_elem_of_further].
Qed.

(** What the client gets.  Hop-by-hop headers, [Transfer-Encoding] and the headers
    the upstream's [Connection] names stop at the proxy (a 101 response keeps
    [Connection] and [Upgrade]); [Content-Length] is the spooled length, or the
    last declared one when it must be preserved, or absent; every other header
    is passed on with all its values. *)
Theorem client_response_headers_spec status m streamed preserve :
  lower_names m →
  let m' := client_response_headers status m streamed preserve in
  hm_get_all m' (lit "content-length") =
    map show (option_list (match streamed with
                           | Some l => Some l
                           | None => if preserve then declared_content_length (hm_iter m) else None
                           end)) ∧
  hm_get_all m' (lit "transfer-encoding") = [] ∧
  (∀ n, n ∈ hop_by_hop_strip_set (hm_iter m) → n ≠ lit "content-length" →
     (status = 101 → n ∉ [lit "connection"; lit "upgrade"]) → hm_get_all m' n = []) ∧
  (∀ n, n ≠ lit "content-length" → n ≠ lit "transfer-encoding" →
     should_strip_hop_by_hop n (hop_by_hop_strip_set (hm_iter m)) (bool_decide (status = 101)) = false →
     hm_get_all m' n = hm_get_all m n).
Proof.
  intros Hlow. cbv zeta. unfold client_response_headers. set (kept := append_kept _ _ _).
  pose proof (append_kept_by_name (fun n => negb (bool_decide (n = lit "content-length"))
    && negb (bool_decide (n = lit "transfer-encoding"))
    && negb (should_strip_hop_by_hop n (hop_by_hop_strip_set (hm_iter m)) (bool_decide (status = 101)))) m) as Hk.
  change (∀ n, hm_get_all kept n = if negb (bool_decide (n = lit "content-length"))
    && negb (bool_decide (n = lit "transfer-encoding"))
    && negb (should_strip_hop_by_hop n (hop_by_hop_strip_set (hm_iter m)) (bool_decide (status = 101)))
    then hm_get_all m n else []) in Hk. clearbody kept.
  set (cl := match streamed with Some l => Some l | None => if preserve then _ else None end).
  assert (∀ n, hm_get_all (match streamed with
    | Some len => hm_append kept (lit "content-length") (show len)
    | None => if preserve then match declared_content_length (hm_iter m) with
                               | Some len => hm_append kept (lit "content-length") (show len)
                               | None => kept end else kept end) n =
    hm_get_all kept n ++ if bool_decide (n = lit "content-length") then map show (option_list cl) else []) as Hm.
  { intros n. unfold cl. destruct streamed; [|destruct preserve; [destruct (declared_content_length _)|]];
      cbn [option_list map]; rewrite ?hm_get_append;
      destruct (decide (n = lit "content-length")) as [->|Hn]; rewrite ?bool_decide_true, ?bool_decide_false by done;
      by rewrite ?app_nil_r. }
  split_and!; intros *; rewrite Hm, Hk.
  - by rewrite (bool_decide_true (lit "content-length" = lit "content-length")) by done.
  - rewrite (bool_decide_false (lit "transfer-encoding" = lit "content-length")) by done.
    by rewrite (bool_decide_true (lit "transfer-encoding" = lit "transfer-encoding")) by done.
  - intros Hn Hne Hw. rewrite (bool_decide_false (n = _)), app_nil_r by done. cbn [negb andb].
    destruct (decide (hm_get_all m n = [])) as [->|Hnn]; [by destruct (_ && _)|].
    apply get_nonempty_iter in Hnn as [v Hv]. unfold lower_names in Hlow. rewrite Forall_forall in Hlow.
    rewrite lower_strip; [by rewrite andb_false_r|by apply (Hlow (n, v))|done|].
    intros Hst. apply Hw. by apply bool_decide_eq_true in Hst.
  - intros H1 H2 H3. rewrite H3, !bool_decide_false, app_nil_r by done. done.
Qed.
End ForwardProperties.

(** An edited header list is not filtered again: after a breakpoint edit of the
    headers alone, the HTTP/1.1 request carries every legal entry of the edited
    list except [Host], hop-by-hop headers such as [Proxy-Authorization] or
    [Connection] included. *)
Lemma edited_headers_sent_verbatim `{HeaderOps} `{UrlOps} `{Base64} res r es n m :
  res_request_headers res = Some es → res_request_body_base64 res = None → n ≠ lit "host" →
  h1_request_headers (apply_request_resolution res r) = Ok m → hm_get_all m n = omap (gives n) es.
Proof.
  intros Hes Hb Hn. unfold h1_request_headers. destruct (header_value _) as [v|]; [|done].
  assert (headers (apply_request_resolution res r) = edited_headers es) as ->.
  { unfold apply_request_resolution. rewrite Hes, Hb. by destruct (res_request_query_params res). }
  set (m1 := append_kept _ _ _). intros Hm. assert (m = hm_append m1 (lit "host") v) as -> by congruence.
  rewrite hm_get_append, bool_decide_false by (intros <-; done).
  pose proof (append_kept_by_name (fun n => negb (bool_decide (n = lit "host"))) (edited_headers es) n) as Hk.
  etransitivity; [exact Hk|]. cbv beta. rewrite bool_decide_false by done. apply edited_headers_get.
Qed.

(** ** Witnesses *)

(** A request of a decrypted connection. *)
Definition demo_parts : @Parts list_headers :=
  {| p_method := lit "GET"; p_uri := lit "/a"; p_authority := None; p_path_and_query := Some (lit "/a");
     p_headers :=
       [(lit "host", lit "h"); (lit "connection", lit "x-trace"); (lit "x-trace", lit "1"); (lit "accept", lit "*/*")]
       : @HeaderMap list_headers |}.

Definition demo_mode : ConnectionMode := MitmHttps (lit "h") 443 None None 0 (Some (lit "h2")).

Lemma demo_legal : @legal_map list_headers (@p_headers list_headers demo_parts).
Proof. repeat constructor. Qed.

Lemma parsed_request_coherent_witness :
  ∃ r, @build_parsed_request_from_hyper list_headers demo_urls demo_parts [] demo_mode (lit "c") (lit "1") = Ok r ∧
    coherent r ∧ headers r = ([(lit "accept", lit "*/*")] : @HeaderMap list_headers).
Proof.
  eexists. split; [vm_compute; reflexivity|]. split; [|reflexivity].
  eapply (@parsed_request_coherent list_headers demo_urls demo_parts [] demo_mode (lit "c") (lit "1")).
  - vm_compute. reflexivity.
  - exact demo_legal.
  - vm_compute. lia.
Defined.

(** A value with a byte that is not ASCII is recorded with U+FFFD, while the map
    keeps the byte: after any rewrite the replacement is what goes upstream. *)
Lemma obs_text_replaced_by_rebuild :
  let m : @HeaderMap list_headers := [(lit "x-name", [82; 233; 109; 105])] in
  let parts := {| p_method := lit "GET"; p_uri := lit "/a"; p_authority := None; p_path_and_query := Some (lit "/a");
                  p_headers := m |} in
  @hm_get_all list_headers (build_upstream_headers_from_hyper m) (lit "x-name") = [[82; 233; 109; 105]] ∧
  ∃ m', build_upstream_headers_from_entries (build_request_headers_from_hyper parts false) = Ok m' ∧
    @hm_get_all list_headers m' (lit "x-name") = [[82; 239; 191; 189; 109; 105]].
Proof. split; [vm_compute; reflexivity|]. eexists. by split; vm_compute. Qed.

Lemma upstream_request_headers_witness :
  ∃ m, @h1_request_headers list_headers demo_urls demo_request = Ok m ∧
    length (@hm_get_all list_headers m (lit "host")) = 1%nat ∧
    @hm_get_all list_headers m (lit "connection") = [].
Proof.
  eexists. split; [vm_compute; reflexivity|].
  destruct (@upstream_request_headers list_headers demo_urls demo_request) as [H1 _];
    [exact demo_request_coherent|vm_compute; reflexivity|].
  edestruct H1 as (_ & Hl & _ & Hn); [vm_compute; reflexivity|]. split; [exact Hl|].
  apply Hn. apply elem_of_app. left. left.
Defined.

Lemma client_response_headers_spec_witness :
  let m : @HeaderMap list_headers :=
    [(lit "connection", lit "close, x-hop"); (lit "x-hop", lit "1"); (lit "content-length", lit "5");
     (lit "etag", lit "e")] in
  let m' := @client_response_headers list_headers 304 m None true in
  @hm_get_all list_headers m' (lit "content-length") = [lit "5"] ∧ @hm_get_all list_headers m' (lit "x-hop") = [] ∧
  @hm_get_all list_headers m' (lit "etag") = [lit "e"].
Proof.
  intros m m'. destruct (@client_response_headers_spec list_headers 304 m None true) as (Hc & _ & Hs & Hk).
  { repeat constructor. }
  fold m' in Hc, Hs, Hk. split_and!.
  - rewrite Hc. vm_compute. reflexivity.
  - apply Hs; [|discriminate|discriminate].
    apply (bool_decide_eq_true_1 (lit "x-hop" ∈ hop_by_hop_strip_set m)). vm_compute. reflexivity.
  - rewrite Hk; [vm_compute; reflexivity|discriminate|discriminate|vm_compute; reflexivity].
Defined.

(** The credentials for the proxy itself reach the upstream server. *)
Lemma edited_headers_leak :
  ∃ m, @h1_request_headers list_headers demo_urls
         (@apply_request_resolution list_headers demo_urls demo_base64
            {| res_session_id := lit "1"; res_action := Forward; res_mock := None;
               res_request_headers := Some [entry (lit "Proxy-Authorization") (lit "Basic eA==")];
               res_request_query_params := None; res_request_body_base64 := None;
               res_response_status_code := None; res_response_headers := None;
               res_response_body_base64 := None |} demo_request) = Ok m ∧
    @hm_get_all list_headers m (lit "proxy-authorization") = [lit "Basic eA=="].
Proof. eexists. split; vm_compute; reflexivity. Qed.
