(* ===== verification/WsUpgrade.v ===== *)
(** * WsUpgrade: the WebSocket upgrade with the upstream
    (proxy-core/src/ws_upgrade.rs; connect.rs: read_http_response_head,
    classify_upstream_failure; timing_connector.rs: host_in_allowlist)

    [handle_ws_upgrade_via_hyper] as a function of what the network answers.  It
    returns the response for the client, the sessions it sends, and its effect
    on the registry of injectable connections and on the connection permits; the
    relay it spawns is the subject of WsRelay.  SHA-1 and base64 are parameters. *)

From S2P Require Import Prelude Str Errors HostPattern UpstreamProxy RefusalBody WsRelay HttpIo Rewrite Forward.

Definition MAX_HEADER_BYTES : Z := 64 * 1024.

Definition WS_ACCEPT_MAGIC_GUID : str := lit "258EAFA5-E914-47DA-95CA-C5AB0DC85B11".
Definition SEC_WEBSOCKET_EXTENSIONS : str := lit "sec-websocket-extensions".

(** ** Definitions: the response head *)

(** Waiting for more bytes is not an error here: the caller's deadline bounds
    the whole handshake. *)
Fixpoint read_http_response_head (fuel : nat) (buf : bytes) (es : list BodyEvent)
    : option (result (bytes * bytes) str * list BodyEvent) :=
  match fuel with
  | O => None
  | S fuel =>
      match read READ_BUFFER_BYTES es with
      | (TimedOut, es) => read_http_response_head fuel buf es
      | (Failed e, es) => Some (Err (lit "read response head: " ++ e), es)
      | (RefusalBody.Closed, es) => Some (Err (lit "upstream closed before response head completed"), es)
      | (Got d, es) =>
          let buf := buf ++ d in
          if MAX_HEADER_BYTES <? len buf then
            Some (Err (lit "response head exceeded maximum size of " ++ show MAX_HEADER_BYTES ++ lit " bytes"), es)
          else
            match find buf crlf2 with
            | Some header_end => Some (Ok (take (header_end + 4) buf, drop (header_end + 4) buf), es)
            | None => read_http_response_head fuel buf es
            end
      end
  end.

Definition is_blank (b : byte) : bool := (b =? 32) || (b =? 9).

Fixpoint drop_blank (s : str) : str :=
  match s with
  | b :: s' => if is_blank b then drop_blank s' else s
  | [] => []
  end.

(** [trim_matches(|c| c == ' ' || c == '\t')] *)
Definition trim_blank (s : str) : str := rev (drop_blank (rev (drop_blank s))).

(** [headers.last_mut()] of an obs-fold line *)
Fixpoint fold_into_last (headers : list (str * str)) (continuation : str) : list (str * str) :=
  match headers with
  | [] => []
  | [(n, v)] => [(n, v ++ (if bool_decide (v = []) then [] else lit " ") ++ continuation)]
  | h :: hs => h :: fold_into_last hs continuation
  end.

Definition add_head_line (headers : list (str * str)) (line : str) : list (str * str) :=
  if match line with b :: _ => is_blank b | [] => false end then
    let continuation := trim_blank line in
    if bool_decide (continuation = []) then headers else fold_into_last headers continuation
  else
    let line := trim line in
    if bool_decide (line = []) then headers
    else
      match split_once (chr ":") line with
      | Some (n, v) => headers ++ [(trim n, trim v)]
      | None => headers
      end.

Definition parse_upstream_response_head (head : str) : Z * list (str * str) :=
  match lines head with
  | [] => (502, [])
  | status_line :: rest =>
      (match nth_error (split_whitespace status_line) 1 with
       | Some w => default 502 (parse_uint u16_max w)
       | None => 502
       end,
       fold_left add_head_line rest [])
  end.

(** ** Definitions: the handshake *)

Definition has_header (headers : list (str * str)) (n : str) (p : str → bool) : bool :=
  existsb (fun nv => eq_ignore_ascii_case nv.1 n && p nv.2) headers.

Section Handshake.
Context (sha1 : bytes → bytes) (base64_encode : bytes → str).

Definition compute_ws_accept (client_key : str) : str :=
  base64_encode (sha1 (client_key ++ WS_ACCEPT_MAGIC_GUID)).

Definition is_valid_ws_upgrade_handshake (headers : list (str * str)) (client_key : option str) : bool :=
  let has_connection_upgrade := has_header headers (lit "connection") (has_token (lit "upgrade")) in
  let has_upgrade_websocket :=
    has_header headers (lit "upgrade") (fun v => eq_ignore_ascii_case (trim v) (lit "websocket")) in
  if negb has_connection_upgrade || negb has_upgrade_websocket then false
  else
    match client_key with
    | None => false
    | Some key =>
        has_header headers (lit "sec-websocket-accept")
          (fun v => bool_decide (trim v = compute_ws_accept key))
    end.
End Handshake.

Definition should_forward_ws_upgrade_response_header (n : str) : bool :=
  negb (eq_ignore_ascii_case n (lit "connection"))
  && negb (eq_ignore_ascii_case n (lit "transfer-encoding"))
  && negb (eq_ignore_ascii_case n SEC_WEBSOCKET_EXTENSIONS).

Definition should_forward_refusal_header (n : str) (malformed_101 : bool) : bool :=
  if eq_ignore_ascii_case n (lit "connection") || eq_ignore_ascii_case n (lit "transfer-encoding")
     || eq_ignore_ascii_case n (lit "content-length") then false
  else if malformed_101
          && (eq_ignore_ascii_case n (lit "upgrade") || eq_ignore_ascii_case n (lit "sec-websocket-accept")
              || eq_ignore_ascii_case n SEC_WEBSOCKET_EXTENSIONS) then false
  else true.

(** ** Definitions: failures *)

Definition classify_upstream_failure (message : str) : str :=
  let message := to_ascii_lowercase message in
  if contains message (lit "dns") || contains message (lit "resolve") then lit "dns"
  else if contains message (lit "refused") then lit "connect_refused"
  else if contains message (lit "timed out") || contains message (lit "timeout") then lit "connect_timeout"
  else if contains message (lit "certificate") || contains message (lit "tls") then lit "upstream_tls"
  else if contains message (lit "reset") || contains message (lit "closed before")
          || contains message (lit "unexpected eof") then lit "upstream_reset"
  else lit "other".

Record SessionFailure := { failure_origin : str; failure_kind : str; failure_message : str }.

Definition new_failure (origin kind message : str) : SessionFailure :=
  {| failure_origin := origin; failure_kind := kind;
     failure_message := take (floor_boundary message (Nat.min (length message) 512)) message |}.

Definition upstream_failure (kind message : str) : SessionFailure := new_failure (lit "upstream") kind message.

(** ** Definitions: transport *)

Definition host_in_allowlist (allowlist : list str) (host : str) : bool :=
  let host := normalize_host_token host in
  if bool_decide (host = []) then false
  else existsb (fun entry => eq_ignore_ascii_case (normalize_host_token entry) host) allowlist.

Section Upgrade.
Context `{HeaderOps} `{UrlOps}.

Definition ws_default_port (u : Url) (mode : ConnectionMode) : Z :=
  if bool_decide (url_scheme u = lit "wss") then 443
  else match mode with PlainHttp => 80 | MitmHttps _ _ _ _ _ _ => 443 end.

Definition ws_needs_tls (u : Url) (mode : ConnectionMode) : bool :=
  match mode with MitmHttps _ _ _ _ _ _ => true | PlainHttp => false end
  || bool_decide (url_scheme u = lit "wss").

Definition build_ws_upgrade_request (r : ParsedProxyRequest) : str :=
  method r ++ lit " " ++ build_request_path (url r) ++ lit " HTTP/1.1" ++ crlf
    ++ lit "Host: " ++ h1_host_header r ++ crlf
    ++ flat_map (fun nv =>
         if eq_ignore_ascii_case nv.1 (lit "host") || eq_ignore_ascii_case nv.1 SEC_WEBSOCKET_EXTENSIONS then []
         else nv.1 ++ lit ": " ++ from_utf8_lossy nv.2 ++ crlf) (hm_iter (headers r))
    ++ crlf.

Definition ws_headers_to_header_map (headers : list (str * str)) : HeaderMap :=
  fold_left (fun m nv =>
    match header_name nv.1, header_value nv.2 with
    | Ok n, Ok v => hm_append m n v
    | _, _ => m
    end) headers hm_empty.

Definition build_header_entries_from_map (m : HeaderMap) : list ProxyHeaderEntry :=
  map (fun nv => {| name := nv.1;
                    hvalue := match to_str nv.2 with Some s => s | None => from_utf8_lossy nv.2 end;
                    is_pseudo := None |}) (hm_iter m).

(** [hyper::Response::builder()]: a header it refuses makes [body()] fail. *)
Fixpoint builder_headers (m : HeaderMap) (headers : list (str * str)) : result HeaderMap str :=
  match headers with
  | [] => Ok m
  | (n, v) :: hs =>
      let? n := header_name n in
      let? v := header_value v in
      builder_headers (hm_append m n v) hs
  end.

Record WsResponse := { resp_status : Z; resp_headers : HeaderMap; resp_body : bytes }.

Definition build_plain_text_response (status : Z) (message : str) : WsResponse :=
  {| resp_status := status;
     resp_headers :=
       hm_append (hm_append hm_empty (lit "content-type") (lit "text/plain; charset=utf-8"))
         (lit "content-length") (show (len message));
     resp_body := message |}.

Definition build_ws_upgrade_response (upstream_headers : list (str * str)) : result WsResponse str :=
  let? m :=
    builder_headers (hm_append hm_empty (lit "connection") (lit "upgrade"))
      (List.filter (fun nv => should_forward_ws_upgrade_response_header nv.1) upstream_headers) in
  Ok {| resp_status := 101; resp_headers := m; resp_body := [] |}.

(** The response of a refused upgrade. *)
Definition build_refusal_response (forwarded_status : Z) (malformed_101 : bool)
    (upstream_headers : list (str * str)) (body : bytes) : result WsResponse str :=
  let? m :=
    builder_headers (hm_append hm_empty (lit "content-length") (show (len body)))
      (List.filter (fun nv => should_forward_refusal_header nv.1 malformed_101) upstream_headers) in
  Ok {| resp_status := if (100 <=? forwarded_status) && (forwarded_status <=? 999) then forwarded_status else 502;
        resp_headers := m; resp_body := body |}.

(** What the handler sets in a captured session; the rest is filled in by
    [build_session_detail]. *)
Record WsSession := {
  ses_status : Z;
  ses_mime : option str;
  ses_headers : list ProxyHeaderEntry;
  ses_raw_head : option str;
  ses_failure : option SessionFailure
}.

(** ** Definitions: the handler *)

(** The answers of the network: the dial ([dial_target] of UpstreamProxy), the
    TLS server name and session (name, verified or not), the write of the
    request, what the upstream sends, and whether the deadline of the handshake
    passes first. *)
Record UpgradeNet := {
  net_dial : str → Z → option IpAddr → result unit io_error;
  net_server_name : str → result unit str;
  net_tls : str → bool → result unit str;
  net_write : str → result unit str;
  net_upstream : list BodyEvent;
  net_elapsed : bool
}.

(** The parts of [ConnectionContext] the handler reads. *)
Record UpgradeContext := {
  ctx_mode : ConnectionMode;
  ctx_verify_upstream_tls : bool;
  ctx_tls_verify_hosts : list str
}.

Definition connect_ws_upstream_tls (net : UpgradeNet) (ctx : UpgradeContext) (host : str) : result unit str :=
  let verify := ctx_verify_upstream_tls ctx || host_in_allowlist (ctx_tls_verify_hosts ctx) host in
  let server_name := tls_server_name_host host in
  let? _ :=
    map_err (fun e => lit "invalid WebSocket upstream TLS server name `" ++ host ++ lit "`: " ++ e)
      (net_server_name net server_name) in
  map_err (fun e => lit "WebSocket upstream TLS handshake: " ++ e) (net_tls net server_name verify).

(** Dial, TLS, request and response head under one deadline. *)
Definition establish (fuel : nat) (net : UpgradeNet) (ctx : UpgradeContext) (r : ParsedProxyRequest)
    (dns_override_ip : option IpAddr) : option (result (bytes * bytes * list BodyEvent) str) :=
  let port := default (ws_default_port (url r) (ctx_mode ctx)) (url_port (url r)) in
  let connect_host_port := host r ++ lit ":" ++ show port in
  if net_elapsed net then
    Some (Err (lit "WebSocket upgrade to " ++ connect_host_port ++ lit " did not complete within "
                 ++ show (timeout UpstreamRequest) ++ lit "s"))
  else
    let opened :=
      let? _ :=
        map_err (fun e => lit "WebSocket upstream connect to " ++ connect_host_port ++ lit ": " ++ io_display e)
          (net_dial net (host r) port dns_override_ip) in
      let? _ := if ws_needs_tls (url r) (ctx_mode ctx) then connect_ws_upstream_tls net ctx (host r) else Ok tt in
      map_err (fun e => lit "WebSocket upgrade send to upstream: " ++ e)
        (net_write net (build_ws_upgrade_request r)) in
    match opened with
    | Err e => Some (Err e)
    | Ok _ =>
        match read_http_response_head fuel [] (net_upstream net) with
        | None => None
        | Some (Ok (head, leftover), es) => Some (Ok (head, leftover, es))
        | Some (Err e, _) => Some (Err e)
        end
    end.

Record UpgradeOutcome := {
  uo_response : WsResponse;
  uo_sessions : list WsSession;
  uo_registry : Registry;
  uo_permits : Z;
  (** what the spawned relay reads from the upstream: the buffered bytes first *)
  uo_relay : option (bytes * list BodyEvent)
}.

Section Handler.
Context (sha1 : bytes → bytes) (base64_encode : bytes → str).
(** [StatusCode::canonical_reason], [{:?}] of a string *)
Context (canonical_reason : Z → option str) (debug : str → str).

(** The registry of injectable connections and the free connection permits. *)
Context (registry : Registry) (permits : Z).

(** [send_ws_upstream_error_session] *)
Definition send_ws_upstream_error_session (error : str) : UpgradeOutcome :=
  {| uo_response :=
       build_plain_text_response 502 (lit "The proxy could not reach the WebSocket upstream server.");
     uo_sessions :=
       [{| ses_status := 502; ses_mime := None; ses_headers := []; ses_raw_head := None;
           ses_failure := Some (upstream_failure (classify_upstream_failure error) error) |}];
     uo_registry := registry; uo_permits := permits; uo_relay := None |}.

Definition client_ws_key (r : ParsedProxyRequest) : option str :=
  match hm_get (headers r) (lit "sec-websocket-key") ≫= to_str with
  | Some v => if bool_decide (trim v = []) then None else Some (trim v)
  | None => None
  end.

(** The branch of an upstream that did not agree. *)
Definition refuse_upgrade (fuel : nat) (status_code : Z) (upstream_headers : list (str * str))
    (raw_head : str) (leftover : bytes) (es : list BodyEvent) : option UpgradeOutcome :=
  let malformed_101 := status_code =? 101 in
  let forwarded_status := if malformed_101 then 502 else status_code in
  let body :=
    if malformed_101 then Some (Ok leftover)
    else read_full_response_body debug fuel es leftover (parse_response_body_framing upstream_headers) in
  let entries := build_header_entries_from_map (ws_headers_to_header_map upstream_headers) in
  match body with
  | None => None
  | Some (Err e) => Some (send_ws_upstream_error_session (lit "failed to read upstream non-101 body: " ++ e))
  | Some (Ok body) =>
      match build_refusal_response forwarded_status malformed_101 upstream_headers body with
      | Err e => Some (send_ws_upstream_error_session (lit "failed to build upstream error response: " ++ e))
      | Ok response =>
          let forwarded :=
            List.filter (fun e => should_forward_refusal_header (name e) true) entries
              ++ [{| name := lit "Content-Length"; hvalue := show (len body); is_pseudo := None |}] in
          let session :=
            if malformed_101 then
              {| ses_status := 502; ses_mime := None; ses_headers := forwarded;
                 ses_raw_head :=
                   Some (build_raw_http_head
                           (lit "HTTP/1.1 502 " ++ default (lit "Bad Gateway") (canonical_reason 502)) forwarded);
                 ses_failure := None |}
            else
              {| ses_status := status_code; ses_mime := Some (lit "websocket"); ses_headers := entries;
                 ses_raw_head := Some raw_head; ses_failure := None |} in
          Some {| uo_response := response; uo_sessions := [session]; uo_registry := registry;
                  uo_permits := permits; uo_relay := None |}
      end
  end.

Definition new_channel : Channel :=
  {| queue := []; receiver_alive := true; capacity := WS_INJECT_CHANNEL_CAPACITY |}.

(** The branch of a valid 101; [channel] is the identity of the new channel. *)
Definition accept_upgrade (session_id : str) (channel : Z) (upstream_headers : list (str * str))
    (raw_head : str) (leftover : bytes) (es : list BodyEvent) : UpgradeOutcome :=
  let session status mime :=
    {| ses_status := status; ses_mime := mime;
       ses_headers := build_header_entries_from_map (ws_headers_to_header_map upstream_headers);
       ses_raw_head := Some raw_head; ses_failure := None |} in
  if permits =? 0 then
    {| uo_response :=
         build_plain_text_response 503 (lit "The proxy is at its connection limit; try again later.");
       uo_sessions := [session 503 None]; uo_registry := registry; uo_permits := permits; uo_relay := None |}
  else
    match build_ws_upgrade_response upstream_headers with
    | Err e => send_ws_upstream_error_session (lit "failed to build 101 response: " ++ e)
    | Ok response =>
        {| uo_response := response; uo_sessions := [session 101 (Some (lit "websocket"))];
           uo_registry :=
             register {| connections := connections registry;
                         channels := <[channel := new_channel]> (channels registry) |} session_id channel;
           uo_permits := permits - 1; uo_relay := Some (leftover, es) |}
    end.

Definition handle_ws_upgrade_via_hyper (fuel : nat) (net : UpgradeNet) (ctx : UpgradeContext)
    (r : ParsedProxyRequest) (dns_override_ip : option IpAddr) (session_id : str) (channel : Z)
    : option UpgradeOutcome :=
  match establish fuel net ctx r dns_override_ip with
  | None => None
  | Some (Err error) => Some (send_ws_upstream_error_session error)
  | Some (Ok (response_head, leftover, es)) =>
      let '(status_code, upstream_headers) := parse_upstream_response_head (from_utf8_lossy response_head) in
      let reason :=
        default (lit "Unknown")
          (if (100 <=? status_code) && (status_code <=? 999) then canonical_reason status_code else None) in
      let raw_head :=
        build_raw_http_head (lit "HTTP/1.1 " ++ show status_code ++ lit " " ++ reason)
          (build_header_entries_from_map (ws_headers_to_header_map upstream_headers)) in
      if negb (status_code =? 101)
         || negb (is_valid_ws_upgrade_handshake sha1 base64_encode upstream_headers (client_ws_key r)) then
        refuse_upgrade fuel status_code upstream_headers raw_head leftover es
      else Some (accept_upgrade session_id channel upstream_headers raw_head leftover es)
  end.

End Handler.

(** The end of the spawned task: the relay ended, or the client's side of the
    upgrade failed. *)
Definition end_relay (registry : Registry) (permits : Z) (session_id : str) : Registry * Z :=
  (unregister (mark_closed registry session_id) session_id, permits + 1).
End Upgrade.

(** ** Lemmas: the head *)

Definition is_idle (e : BodyEvent) : bool := match e with Idle => true | _ => false end.

Lemma read_timed_out n es es' :
  read n es = (TimedOut, es') → es = Idle :: es'.
Proof. destruct es as [|[[|b x]| |e] es]; cbn; try done. intros [= <-]. done. Qed.

(** What was read is cut at its first empty line. *)
Lemma read_head_ok fuel : ∀ buf es head leftover es',
  read_http_response_head fuel buf es = Some (Ok (head, leftover), es') →
  head ++ leftover ++ incoming es' = buf ++ incoming es ∧ len head <= MAX_HEADER_BYTES ∧
  (contains buf crlf2 = false → ∃ l, head = l ++ crlf2 ∧ find head crlf2 = Some (length l)).
Proof.
  induction fuel as [|fuel IH]; intros buf es head leftover es'; cbn [read_http_response_head]; [done|].
  destruct (read READ_BUFFER_BYTES es) as [[d| | |e] es1] eqn:Hr; [| done | | done].
  2:{ apply read_timed_out in Hr as ->. intros H%IH. done. }
  apply read_got in Hr as (_ & _ & Hi & _); [|done]. rewrite Hi.
  destruct (Z.ltb_spec MAX_HEADER_BYTES (len (buf ++ d))) as [|Hl]; [done|].
  destruct (find (buf ++ d) crlf2) as [i|] eqn:Hf.
  - intros [= <- <- <-]. split_and!.
    + by rewrite app_assoc, take_drop, <- app_assoc.
    + rewrite len_take. lia.
    + intros _. pose proof Hf as Hf'. apply find_Some in Hf' as (l & r & Heq & <- & Hmin). exists l.
      assert (take (length l + 4) (buf ++ d) = l ++ crlf2) as ->.
      { rewrite Heq, app_assoc. change 4%nat with (length crlf2). rewrite <- length_app. apply take_app_length. }
      split; [done|]. destruct (find (l ++ crlf2) crlf2) as [j|] eqn:Hj.
      * pose proof (find_app _ _ r _ Hj) as Hj'. rewrite <- app_assoc, <- Heq in Hj'. congruence.
      * rewrite find_None in Hj. by destruct (Hj l []); rewrite app_nil_r.
  - intros (Hh & Hlen & Hc)%IH. split_and!; [by rewrite Hh, <- app_assoc | done |]. intros _. apply Hc.
    unfold contains. by rewrite Hf.
Qed.

Lemma read_idle n es d es' :
  read n es = (Got d, es') → len (List.filter is_idle es') <= len (List.filter is_idle es).
Proof.
  destruct es as [|[[|b x]| |]]; try done. unfold read. intros Hr. injection Hr as _ <-. by destruct (drop _ _).
Qed.

Lemma read_head_total fuel : ∀ buf es,
  len (List.filter is_idle es) + Z.max 0 (MAX_HEADER_BYTES + 1 - len buf) < Z.of_nat fuel →
  len buf <= MAX_HEADER_BYTES →
  is_Some (read_http_response_head fuel buf es).
Proof.
  induction fuel as [|fuel IH]; intros buf es Hf Hb.
  { pose proof (len_nonneg (List.filter is_idle es)). lia. }
  cbn [read_http_response_head].
  destruct (read READ_BUFFER_BYTES es) as [[d| | |e] es1] eqn:Hr; [|eauto| |eauto].
  2:{ apply read_timed_out in Hr as ->. cbn [List.filter is_idle] in Hf. rewrite len_cons in Hf. apply IH; lia. }
  assert (len (List.filter is_idle es1) <= len (List.filter is_idle es)) as Hi.
  { by eapply read_idle. }
  apply read_got in Hr as (Hd & _); [|done].
  assert (0 < len d) by (destruct d; [done|]; rewrite len_cons; pose proof (len_nonneg d); lia).
  destruct (Z.ltb_spec MAX_HEADER_BYTES (len (buf ++ d))); [eauto|].
  destruct (find _ _); [eauto|]. apply IH; [rewrite len_app; lia | done].
Qed.

(** *** Printing and parsing a head *)

Lemma split_none c l : c ∉ l → split c l = [l].
Proof.
  induction l as [|b l IH]; [done|]. intros [Hb Hl]%not_elem_of_cons. cbn [split].
  rewrite IH by done. by destruct (Z.eqb_spec b c).
Qed.

Lemma split_clean l s : 10 ∉ l → split 10 (l ++ 10 :: s) = l :: split 10 s.
Proof. intros Hl. by rewrite split_app_sep, split_none. Qed.

Lemma strip_cr_snoc l : strip_cr (l ++ [13]) = l.
Proof. unfold strip_cr. rewrite rev_app_distr. cbn. by rewrite rev_involutive. Qed.

Lemma lines_cons l s : 10 ∉ l → lines (l ++ crlf ++ s) = l :: lines s.
Proof.
  intros Hl. unfold lines, crlf. change (l ++ [13; 10] ++ s) with (l ++ [13] ++ 10 :: s).
  rewrite app_assoc, split_clean.
  - destruct (split 10 s) as [|p ps] eqn:Hs; [by destruct (split_nonempty 10 s)|].
    cbn [lines_of]. by rewrite strip_cr_snoc.
  - rewrite elem_of_app. intros [?|H]; [done|]. by apply list_elem_of_singleton in H.
Qed.

(** Text that begins and ends with a visible character *)
Inductive tidy : str → Prop :=
  | TidyNil : tidy []
  | TidyOne a : plain a → tidy [a]
  | TidyMore a z b : plain a → plain b → tidy (a :: z ++ [b]).

Lemma trim_tidy v : tidy v → trim v = v.
Proof. destruct 1; [done | by apply trim_plain1 | by apply trim_plain]. Qed.

Lemma trim_space v : trim (32 :: v) = trim v.
Proof. unfold trim. f_equal. Qed.

(** A header line a strict peer accepts: a non-empty name of visible bytes
    without a colon, a value without line feeds and surrounding space. *)
Definition header_line_ok (nv : str * str) : Prop :=
  nv.1 ≠ [] ∧ Forall (fun b => plain b ∧ b ≠ 58) nv.1 ∧ (10 ∉ nv.2) ∧ tidy nv.2.

Definition head_line (nv : str * str) : str := nv.1 ++ lit ": " ++ nv.2.

Lemma tidy_name n : n ≠ [] → Forall (fun b => plain b ∧ b ≠ 58) n → tidy n.
Proof.
  intros Hn Hf. destruct n as [|a n]; [done|]. apply Forall_cons in Hf as [[Ha _] Hf].
  destruct n as [|b n _] using rev_ind; [by constructor|].
  apply Forall_app in Hf as [_ Hb]. apply Forall_cons in Hb as [[Hb _] _]. by constructor.
Qed.

Lemma trim_head_line n v :
  n ≠ [] → Forall (fun b => plain b ∧ b ≠ 58) n → tidy v →
  trim (head_line (n, v)) = n ++ 58 :: (match v with [] => [] | _ => 32 :: v end).
Proof.
  intros Hn Hf Hv. destruct n as [|a n]; [done|]. apply Forall_cons in Hf as [[Ha _] _].
  assert (plain 58) as Hc by (unfold plain; lia). unfold head_line. cbn [fst snd].
  destruct Hv as [|b Hb|b z c Hb Hcc].
  - change (lit ": " ++ []) with ([58; 32] : str).
    assert (trim ((a :: n) ++ [58; 32]) = trim ((a :: n) ++ [58])) as ->.
    { unfold trim. cbn [app]. rewrite !trim_start_plain by done. cbn [rev]. rewrite !rev_app_distr. done. }
    change ((a :: n) ++ [58]) with (a :: n ++ [58]). by rewrite trim_plain.
  - change ((a :: n) ++ lit ": " ++ [b]) with (a :: n ++ [58; 32] ++ [b]). rewrite app_assoc, trim_plain by done.
    by rewrite <- app_assoc.
  - assert ((a :: n) ++ lit ": " ++ b :: z ++ [c] = a :: (n ++ [58; 32; b] ++ z) ++ [c]) as ->.
    { by rewrite <- !app_assoc. }
    rewrite trim_plain by done. by rewrite <- !app_assoc.
Qed.

Lemma add_head_line_header headers nv :
  header_line_ok nv → add_head_line headers (head_line nv) = headers ++ [nv].
Proof.
  destruct nv as [n v]. intros (Hn & Hf & Hv10 & Hv). cbn [fst snd] in *.
  pose proof (trim_head_line n v Hn Hf Hv) as Ht. unfold add_head_line. rewrite Ht.
  assert (match head_line (n, v) with b :: _ => is_blank b | [] => false end = false) as ->.
  { destruct n as [|a n]; [done|]. apply Forall_cons in Hf as [[Ha _] _]. cbn. unfold is_blank, plain in *.
    apply orb_false_iff. lia. }
  rewrite bool_decide_false by (by destruct n).
  assert (split_once (chr ":") (n ++ 58 :: match v with [] => [] | _ => 32 :: v end)
    = Some (n, match v with [] => [] | _ => 32 :: v end)) as ->.
  { apply split_once_Some. split; [done|]. intros H. rewrite Forall_forall in Hf. by apply Hf in H as [_ ?]. }
  do 3 f_equal; [by apply trim_tidy, tidy_name|]. destruct v; [done|]. rewrite trim_space. by apply trim_tidy.
Qed.

Definition print_head (start : str) (hs : list (str * str)) : str :=
  start ++ crlf ++ flat_map (fun nv => head_line nv ++ crlf) hs ++ crlf.

Lemma lines_print_head hs : Forall header_line_ok hs →
  lines (flat_map (fun nv => head_line nv ++ crlf) hs ++ crlf) = map head_line hs ++ [[]].
Proof.
  induction 1 as [|nv hs Hnv _ IH]; [done|]. cbn [flat_map map app]. rewrite <- !app_assoc, lines_cons, IH; [done|].
  destruct Hnv as (_ & Hf & Hv & _). unfold head_line. rewrite !elem_of_app. intros [H|[H|H]]; [|set_solver|done].
  rewrite Forall_forall in Hf. apply Hf in H as [H _]. unfold plain in H. lia.
Qed.

(** Parsing a printed head gives its headers back, in order. *)
Lemma parse_print_head start hs :
  10 ∉ start → Forall header_line_ok hs →
  (parse_upstream_response_head (print_head start hs)).2 = hs.
Proof.
  intros Hst Hhs. unfold parse_upstream_response_head, print_head. rewrite lines_cons, lines_print_head by done.
  cbn [snd]. rewrite fold_left_app. cbn [fold_left].
  assert (∀ acc, fold_left add_head_line (map head_line hs) acc = acc ++ hs) as Hfold.
  { induction Hhs as [|nv hs Hnv _ IH]; intros acc; cbn [map fold_left]; [by rewrite app_nil_r|].
    by rewrite add_head_line_header, IH, <- app_assoc. }
  by rewrite Hfold.
Qed.

Lemma split_words_plain a word s : plain a → split_words word (a :: s) = split_words (a :: word) s.
Proof.
  unfold plain. intros Ha. cbn [split_words].
  assert (ws1 a = false) as -> by (unfold ws1; apply orb_false_iff; lia).
  destruct s as [|b s]; [done|].
  assert (ws2 a b = false) as -> by (unfold ws2; apply andb_false_iff; lia).
  destruct s as [|c s]; [done|].
  assert (ws3 a b c = false) as ->; [|done].
  unfold ws3. destruct (Z.eqb_spec a 225), (Z.eqb_spec a 226), (Z.eqb_spec a 227); try lia; done.
Qed.

Lemma split_words_app w : ∀ word s,
  Forall plain w → split_words word (w ++ 32 :: s) = match rev w ++ word with [] => [] | _ => [rev word ++ w] end ++ split_words [] s.
Proof.
  induction w as [|a w IH]; intros word s Hw.
  - cbn. destruct word; [done|]. by rewrite app_nil_r.
  - apply Forall_cons in Hw as [Ha Hw]. cbn [app]. rewrite split_words_plain, IH by done.
    cbn [rev]. rewrite <- !app_assoc. cbn. destruct (rev w); done.
Qed.

Lemma status_line_code code reason :
  0 <= code <= u16_max →
  nth_error (split_whitespace (lit "HTTP/1.1 " ++ show code ++ lit " " ++ reason)) 1 = Some (show code).
Proof.
  intros Hc. unfold split_whitespace.
  change (lit "HTTP/1.1 " ++ show code ++ lit " " ++ reason)
    with (lit "HTTP/1.1" ++ 32 :: show code ++ 32 :: reason).
  assert (Forall plain (lit "HTTP/1.1")) as Hv.
  { cbn. rewrite !Forall_cons. unfold plain. split_and!; (lia || constructor). }
  rewrite (split_words_app (lit "HTTP/1.1")) by done. rewrite (split_words_app (show code)).
  - pose proof (show_nonempty code) as Hne. revert Hne. generalize (show code). intros w Hne. cbn.
    rewrite app_nil_r. destruct (rev w) as [|b l] eqn:Hr; [|done].
    apply (f_equal (@rev Z)) in Hr. by rewrite rev_involutive in Hr.
  - eapply Forall_impl; [apply show_digits; lia|]. cbn. unfold is_digit, plain. intros b Hb. lia.
Qed.

Lemma show_clean n : 0 <= n → 10 ∉ show n.
Proof.
  intros Hn H. pose proof (show_digits n Hn) as Hd. rewrite Forall_forall in Hd. apply Hd in H. done.
Qed.

(** A byte that is not in a literal *)
Ltac not_in_literal H :=
  match type of H with ?P => exact (bool_decide_eq_false_1 P eq_refl H) end.

(** ** Lemmas: response headers *)

Section UpgradeLemmas.
Context `{HeaderOps} `{UrlOps}.

(** The values of the headers named [n], as the builder stores them. *)
Definition named_values (n : str) (hs : list (str * str)) : list bytes :=
  omap (fun nv => if bool_decide (to_ascii_lowercase nv.1 = n) then ok (header_value nv.2) else None) hs.

Lemma builder_headers_get n hs : ∀ m m',
  builder_headers m hs = Ok m' → hm_get_all m' n = hm_get_all m n ++ named_values n hs.
Proof.
  induction hs as [|[k v] hs IH]; intros m m'; cbn [builder_headers].
  - intros [= <-]. by rewrite app_nil_r.
  - destruct (header_name k) as [k'|] eqn:Hk; cbn [rbind]; [|done].
    destruct (header_value v) as [v'|] eqn:Hv; cbn [rbind]; [|done].
    intros Hb%IH. rewrite Hb, hm_get_append. apply header_name_lower in Hk as ->.
    unfold named_values. cbn [omap list_omap fst snd]. case_bool_decide; [|done].
    rewrite Hv. cbn [ok]. by rewrite <- app_assoc.
Qed.

Lemma named_values_filtered n p hs :
  (∀ nv, to_ascii_lowercase nv.1 = n → p nv = false) → named_values n (List.filter p hs) = [].
Proof.
  intros Hp. induction hs as [|nv hs IH]; [done|]. cbn [List.filter]. destruct (p nv) eqn:Hpv; [|done].
  unfold named_values in *. cbn [omap list_omap]. rewrite IH.
  case_bool_decide as Hn; [|done]. rewrite Hp in Hpv by done. done.
Qed.

Lemma named_values_kept n p hs :
  (∀ nv, to_ascii_lowercase nv.1 = n → p nv = true) → named_values n (List.filter p hs) = named_values n hs.
Proof.
  intros Hp. induction hs as [|nv hs IH]; [done|]. cbn [List.filter]. unfold named_values in *.
  destruct (p nv) eqn:Hpv; cbn [omap list_omap]; rewrite IH; [done|].
  case_bool_decide as Hn; [|done]. rewrite Hp in Hpv by done. done.
Qed.

(** A test on the lower-case name *)
Lemma eq_ignore_lower n m : to_ascii_lowercase n = m → ∀ k, eq_ignore_ascii_case n k = bool_decide (m = to_ascii_lowercase k).
Proof. intros <- k. done. Qed.
End UpgradeLemmas.

(** ** Properties *)

Section UpgradeProperties.
Context `{HeaderOps} `{UrlOps}.
Context (sha1 : bytes → bytes) (base64_encode : bytes → str).
Context (canonical_reason : Z → option str) (debug : str → str).

Lemma refusal_status registry permits fuel status hs raw leftover es o :
  refuse_upgrade canonical_reason debug registry permits fuel status hs raw leftover es = Some o →
  resp_status (uo_response o) ≠ 101 ∧ uo_relay o = None ∧ uo_registry o = registry ∧
  uo_permits o = permits ∧ length (uo_sessions o) = 1%nat.
Proof.
  unfold refuse_upgrade.
  destruct (if status =? 101 then _ else _) as [[body|e]|]; [| by intros [= <-] | done].
  destruct (build_refusal_response _ _ _ _) as [resp|e] eqn:Hb; [|by intros [= <-]].
  intros [= <-]. cbn. split_and!; try done. unfold build_refusal_response in Hb.
  destruct (builder_headers _ _) as [m|e]; [|done]. injection Hb as <-. cbn.
  destruct (Z.eqb_spec status 101); [done|]. by destruct (_ && _).
Qed.

(** C31: the client sees a 101 only for a WebSocket the relay serves.  The
    handler answers 101 exactly when it spawns a relay; then the upstream's head
    was a 101 with the accept value of the client's key, a permit was taken, the
    session is registered as active and no other one changed, and the relay
    reads exactly the bytes the upstream sent after the head.  In every other
    case registry and permits are untouched.  One session is sent either way. *)
Theorem upgrade_switches_with_relay registry permits fuel net ctx r dns session_id channel o :
  handle_ws_upgrade_via_hyper sha1 base64_encode canonical_reason debug registry permits
    fuel net ctx r dns session_id channel = Some o →
  length (uo_sessions o) = 1%nat ∧
  (resp_status (uo_response o) ≠ 101 →
     uo_relay o = None ∧ uo_registry o = registry ∧ uo_permits o = permits) ∧
  (resp_status (uo_response o) = 101 →
     ∃ head leftover es hs,
       incoming (net_upstream net) = head ++ leftover ++ incoming es ∧ uo_relay o = Some (leftover, es) ∧
       (∃ l, head = l ++ crlf2 ∧ find head crlf2 = Some (length l)) ∧
       parse_upstream_response_head (from_utf8_lossy head) = (101, hs) ∧
       is_valid_ws_upgrade_handshake sha1 base64_encode hs (client_ws_key r) = true ∧
       permits ≠ 0 ∧ uo_permits o = permits - 1 ∧
       get_status (uo_registry o) session_id = Active ∧
       ∀ id, id ≠ session_id → connections (uo_registry o) !! id = connections registry !! id).
Proof.
  unfold handle_ws_upgrade_via_hyper.
  destruct (establish fuel net ctx r dns) as [[[[head leftover] es]|error]|] eqn:He;
    [|by intros [= <-]|done].
  destruct (parse_upstream_response_head (from_utf8_lossy head)) as [status hs] eqn:Hp.
  destruct (negb (status =? 101) || _) eqn:Hbad.
  - intros (Hs & Hrel & Hreg & Hperm & Hlen)%refusal_status. split_and!; [done | done | congruence].
  - breflect. subst status. intros [= <-]. unfold accept_upgrade.
    destruct (Z.eqb_spec permits 0) as [|Hperm]; [by split_and!|].
    destruct (build_ws_upgrade_response hs) as [resp|e] eqn:Hr; [|by split_and!].
    assert (resp_status resp = 101) as Hst.
    { unfold build_ws_upgrade_response in Hr. destruct (builder_headers _ _); [|done]. by injection Hr as <-. }
    cbn. split_and!; [done | congruence |]. intros _.
    unfold establish in He. destruct (net_elapsed net); [done|].
    destruct (rbind _ _); [|done].
    destruct (read_http_response_head fuel [] (net_upstream net)) as [[[[h l]|e] es']|] eqn:Hh; try done.
    injection He as -> -> ->. apply read_head_ok in Hh as (Hin & _ & Hc).
    exists head, leftover, es, hs. split_and!; try done.
    + by apply Hc.
    + unfold get_status. cbn. by rewrite lookup_insert_eq.
    + intros id Hid. by rewrite lookup_insert_ne.
Qed.

(** the handshake ends within its budget: the response head, the idle
    periods of the upstream and the body of a refusal. *)
Theorem upgrade_terminates registry permits fuel net ctx r dns session_id channel :
  reads_bound + len (List.filter is_idle (net_upstream net)) <= Z.of_nat fuel →
  is_Some (handle_ws_upgrade_via_hyper sha1 base64_encode canonical_reason debug registry permits
             fuel net ctx r dns session_id channel).
Proof.
  intros Hf. unfold handle_ws_upgrade_via_hyper.
  assert (MAX_HEADER_BYTES + 2 < reads_bound) as Hb by done.
  assert (is_Some (establish fuel net ctx r dns)) as [est ->].
  { unfold establish. destruct (net_elapsed net); [eauto|]. destruct (rbind _ _); [|eauto].
    destruct (read_head_total fuel [] (net_upstream net)) as [[[[h l]|e] es] ->]; rewrite ?len_nil; eauto.
    - change (len (@nil Z)) with 0. unfold MAX_HEADER_BYTES in *. lia.
    - done. }
  destruct est as [[[head leftover] es]|error]; [|eauto].
  destruct (parse_upstream_response_head _) as [status hs]. destruct (_ || _); [|eauto].
  unfold refuse_upgrade. pose proof (len_nonneg (List.filter is_idle (net_upstream net))).
  destruct (status =? 101); [|destruct (read_full_total debug fuel es leftover (parse_response_body_framing hs)) as [[body|e] ->]];
    [| lia | | eauto].
  - destruct (build_refusal_response _ _ _ _); eauto.
  - destruct (build_refusal_response _ _ _ _); eauto.
Qed.

(** the headers of the answer.  A 101 carries one [Connection: upgrade] of the
    proxy's own, no [Transfer-Encoding] and no extensions, whatever the upstream
    negotiated; a refusal carries one [Content-Length], the length of its body,
    and neither [Connection] nor [Transfer-Encoding], and after a malformed 101
    no handshake header either.  Every other header passes with all its values. *)
Theorem upgrade_response_headers hs :
  (∀ resp, build_ws_upgrade_response hs = Ok resp →
     let get := hm_get_all (resp_headers resp) in
     get (lit "connection") = [lit "upgrade"] ∧ get (lit "transfer-encoding") = [] ∧
     get (lit "sec-websocket-extensions") = [] ∧
     ∀ n, n ∉ [lit "connection"; lit "transfer-encoding"; lit "sec-websocket-extensions"] →
          get n = named_values n hs) ∧
  (∀ status malformed body resp, build_refusal_response status malformed hs body = Ok resp →
     let get := hm_get_all (resp_headers resp) in
     get (lit "content-length") = [show (len body)] ∧ get (lit "connection") = [] ∧
     get (lit "transfer-encoding") = [] ∧
     (malformed = true → get (lit "upgrade") = [] ∧ get (lit "sec-websocket-accept") = [] ∧
                         get (lit "sec-websocket-extensions") = []) ∧
     ∀ n, n ∉ [lit "connection"; lit "transfer-encoding"; lit "content-length"] →
          malformed = false ∨ n ∉ [lit "upgrade"; lit "sec-websocket-accept"; lit "sec-websocket-extensions"] →
          get n = named_values n hs).
Proof.
  split.
  - intros resp Hr. unfold build_ws_upgrade_response in Hr.
    destruct (builder_headers _ _) as [m|] eqn:Hb; [|done]. injection Hr as <-. cbn [resp_headers].
    assert (∀ n, hm_get_all m n = (if bool_decide (lit "connection" = n) then [lit "upgrade"] else [])
      ++ named_values n (List.filter (fun nv => should_forward_ws_upgrade_response_header nv.1) hs)) as Hget.
    { intros n. rewrite (builder_headers_get n _ _ _ Hb), hm_get_append, hm_get_empty. by case_bool_decide. }
    split_and!.
    1-3: rewrite Hget, named_values_filtered; [done|]; intros nv Hn;
      unfold should_forward_ws_upgrade_response_header; by rewrite !(eq_ignore_lower _ _ Hn).
    intros n Hn. rewrite Hget, named_values_kept.
    + by rewrite bool_decide_false by set_solver.
    + intros nv Hnv. unfold should_forward_ws_upgrade_response_header. rewrite !(eq_ignore_lower _ _ Hnv).
      rewrite !bool_decide_false by set_solver. done.
  - intros status malformed body resp Hr. unfold build_refusal_response in Hr.
    destruct (builder_headers _ _) as [m|] eqn:Hb; [|done]. injection Hr as <-. cbn [resp_headers].
    assert (∀ n, hm_get_all m n = (if bool_decide (lit "content-length" = n) then [show (len body)] else [])
      ++ named_values n (List.filter (fun nv => should_forward_refusal_header nv.1 malformed) hs)) as Hget.
    { intros n. rewrite (builder_headers_get n _ _ _ Hb), hm_get_append, hm_get_empty. by case_bool_decide. }
    assert (∀ n, (∀ nv : str * str, to_ascii_lowercase nv.1 = n → should_forward_refusal_header nv.1 malformed = false) →
      hm_get_all m n = if bool_decide (lit "content-length" = n) then [show (len body)] else []) as Hdrop.
    { intros n Hn. rewrite Hget, named_values_filtered; [by rewrite app_nil_r | done]. }
    split_and!.
    1-3: rewrite Hdrop; [done|]; intros nv Hn; unfold should_forward_refusal_header;
      by rewrite !(eq_ignore_lower _ _ Hn).
    + intros ->. split_and!; (rewrite Hdrop; [done|]); intros nv Hn; unfold should_forward_refusal_header;
        by rewrite !(eq_ignore_lower _ _ Hn).
    + intros n Hn Hm. rewrite Hget, named_values_kept.
      * by rewrite bool_decide_false by set_solver.
      * intros nv Hnv. unfold should_forward_refusal_header. rewrite !(eq_ignore_lower _ _ Hnv).
        rewrite (bool_decide_false (n = to_ascii_lowercase (lit "connection"))),
          (bool_decide_false (n = to_ascii_lowercase (lit "transfer-encoding"))),
          (bool_decide_false (n = to_ascii_lowercase (lit "content-length"))) by set_solver. cbn [orb].
        destruct Hm as [->|Hm]; [done|]. rewrite !bool_decide_false by set_solver.
        by destruct malformed.
Qed.

(** The headers of the map the request carries on. *)
Definition upgrade_kept (n : str) : bool :=
  negb (eq_ignore_ascii_case n (lit "host")) && negb (eq_ignore_ascii_case n SEC_WEBSOCKET_EXTENSIONS).

Definition upgrade_request_lines (r : ParsedProxyRequest) : list (str * str) :=
  (lit "Host", h1_host_header r)
    :: map (fun nv => (nv.1, from_utf8_lossy nv.2)) (List.filter (fun nv => upgrade_kept nv.1) (hm_iter (headers r))).

Lemma upgrade_request_printed r :
  build_ws_upgrade_request r =
    print_head (method r ++ lit " " ++ build_request_path (url r) ++ lit " HTTP/1.1") (upgrade_request_lines r).
Proof.
  unfold build_ws_upgrade_request, print_head, upgrade_request_lines, head_line. cbn [flat_map fst snd].
  change (lit "Host: ") with (lit "Host" ++ lit ": "). rewrite <- !app_assoc. do 9 f_equal.
  induction (hm_iter (headers r)) as [|[n v] l IH]; [done|]. cbn [flat_map List.filter map fst snd].
  unfold upgrade_kept at 1. destruct (eq_ignore_ascii_case n (lit "host")); cbn [orb negb andb]; [done|].
  destruct (eq_ignore_ascii_case n SEC_WEBSOCKET_EXTENSIONS); cbn [negb]; [done|].
  cbn [map flat_map fst snd]. rewrite <- !app_assoc in *. by rewrite <- IH.
Qed.

(** the upstream reads what was meant.  When the start line has no line feed
    and names and values are those of a legal head, a line parser reads from the
    request exactly one [Host], from the URL, and then the recorded headers in
    order, without the recorded [Host] and without any extension offer. *)
Theorem upgrade_request_read_back r :
  (10 ∉ method r) → (10 ∉ build_request_path (url r)) → Forall header_line_ok (upgrade_request_lines r) →
  (parse_upstream_response_head (build_ws_upgrade_request r)).2 = upgrade_request_lines r ∧
  Forall (fun nv => eq_ignore_ascii_case nv.1 (lit "sec-websocket-extensions") = false) (upgrade_request_lines r) ∧
  length (List.filter (fun nv => eq_ignore_ascii_case nv.1 (lit "host")) (upgrade_request_lines r)) = 1%nat.
Proof.
  intros Hm Hp Hok. split_and!.
  - rewrite upgrade_request_printed. apply parse_print_head; [|done]. rewrite !elem_of_app.
    intros [?|[H1|[?|H1]]]; [done| |done|]; not_in_literal H1.
  - apply Forall_cons. split; [done|]. apply Forall_forall. intros nv Hnv.
    apply list_elem_of_In, in_map_iff in Hnv as ([n v] & <- & [_ Hk]%filter_In). cbn in *.
    unfold upgrade_kept in Hk. by breflect.
  - unfold upgrade_request_lines. cbn [List.filter fst]. rewrite (eq_refl : eq_ignore_ascii_case (lit "Host") (lit "host") = true).
    cbn [length]. f_equal. apply length_zero_iff_nil. induction (hm_iter (headers r)) as [|[n v] l IH]; [done|].
    cbn [List.filter fst]. destruct (upgrade_kept n) eqn:Hk; [|done]. cbn [map List.filter fst].
    unfold upgrade_kept in Hk. breflect. by rewrite H1.
Qed.

(** the status and the headers of a response head survive printing and
    parsing, the headers in order with their values. *)
Theorem response_head_round_trip code reason hs :
  0 <= code <= u16_max → (10 ∉ reason) → Forall header_line_ok hs →
  parse_upstream_response_head (print_head (lit "HTTP/1.1 " ++ show code ++ lit " " ++ reason) hs) = (code, hs).
Proof.
  intros Hc Hr Hhs.
  assert (10 ∉ lit "HTTP/1.1 " ++ show code ++ lit " " ++ reason) as Hst.
  { rewrite !elem_of_app. intros [H1|[H1|[H1|?]]]; [| by apply show_clean in H1; lia | | done];
      not_in_literal H1. }
  rewrite (surjective_pairing (parse_upstream_response_head _)), parse_print_head by done. f_equal.
  unfold parse_upstream_response_head, print_head. rewrite lines_cons by done. cbn [fst].
  rewrite status_line_code by done. by rewrite parse_uint_show.
Qed.
End UpgradeProperties.

(** ** Samples *)

Definition ws_request : @ParsedProxyRequest list_headers demo_urls :=
  {| body := []; client_address := None;
     headers := [(lit "sec-websocket-key", lit "key"); (lit "host", lit "old"); (lit "upgrade", lit "websocket");
                 (lit "sec-websocket-extensions", lit "permessage-deflate")] : @HeaderMap list_headers;
     host := lit "h"; method := lit "GET"; path := lit "/chat"; protocol := lit "http"; query_params := [];
     raw_request := []; request_headers := []; request_id := lit "1";
     url := (lit "/chat", None) : @Url demo_urls; tls_cipher_suite := None; tls_protocol := None |}.

Definition ws_reply (accept : str) : list (str * str) :=
  [(lit "Upgrade", lit "websocket"); (lit "Connection", lit "Upgrade"); (lit "Sec-WebSocket-Accept", accept);
   (lit "Sec-WebSocket-Extensions", lit "permessage-deflate")].

Definition ws_net (accept : str) : UpgradeNet :=
  {| net_dial := fun _ _ _ => Ok tt; net_server_name := fun _ => Ok tt; net_tls := fun _ _ => Ok tt;
     net_write := fun _ => Ok tt;
     net_upstream := [Data (print_head (lit "HTTP/1.1 101 Switching Protocols") (ws_reply accept) ++ [129; 1; 65])];
     net_elapsed := false |}.

Definition ws_context : UpgradeContext :=
  {| ctx_mode := PlainHttp; ctx_verify_upstream_tls := false; ctx_tls_verify_hosts := [] |}.

Definition empty_registry : Registry := {| connections := ∅; channels := ∅ |}.

Definition run_upgrade (accept : str) : option (@UpgradeOutcome list_headers) :=
  @handle_ws_upgrade_via_hyper list_headers demo_urls id id (fun _ => None) id empty_registry 3
    100 (ws_net accept) ws_context ws_request None (lit "s") 7.

(** The accept value decides between the relay and a 502. *)
Example upgrade_sample :
  (match run_upgrade (lit "key" ++ WS_ACCEPT_MAGIC_GUID) with
   | Some o => resp_status (uo_response o) = 101 ∧ uo_relay o = Some ([129; 1; 65], []) ∧ uo_permits o = 2
   | None => False
   end) ∧
  (match run_upgrade (lit "wrong") with
   | Some o => resp_status (uo_response o) = 502 ∧ uo_relay o = None ∧ resp_body (uo_response o) = [129; 1; 65]
   | None => False
   end).
Proof. vm_compute. repeat split. Qed.

Lemma upgrade_switches_with_relay_witness :
  match run_upgrade (lit "key" ++ WS_ACCEPT_MAGIC_GUID) with
  | Some o => get_status (uo_registry o) (lit "s") = Active
  | None => False
  end.
Proof.
  assert (match run_upgrade (lit "key" ++ WS_ACCEPT_MAGIC_GUID) with Some _ => true | None => false end = true)
    as Hsome by (vm_compute; reflexivity).
  destruct (run_upgrade (lit "key" ++ WS_ACCEPT_MAGIC_GUID)) as [o|] eqn:Ho; [|discriminate].
  assert (resp_status (uo_response o) = 101) as Hs.
  { assert (Some (resp_status (uo_response o)) = Some 101) as Hx; [|by injection Hx].
    change (Some (resp_status (uo_response o))) with ((fun o => resp_status (uo_response o)) <$> Some o).
    rewrite <- Ho. vm_compute. reflexivity. }
  destruct (@upgrade_switches_with_relay list_headers demo_urls id id (fun _ => None) id empty_registry 3
    100 (ws_net (lit "key" ++ WS_ACCEPT_MAGIC_GUID)) ws_context ws_request None (lit "s") 7 o Ho) as (_ & _ & H).
  destruct (H Hs) as (? & ? & ? & ? & _ & _ & _ & _ & _ & _ & _ & Hst & _). exact Hst.
Defined.

Lemma upgrade_terminates_witness :
  is_Some (@handle_ws_upgrade_via_hyper list_headers demo_urls id id (fun _ => None) id empty_registry 3
    (Z.to_nat (reads_bound + 0)) (ws_net []) ws_context ws_request None (lit "s") 7).
Proof.
  apply upgrade_terminates. change (len (List.filter is_idle (net_upstream (ws_net [])))) with 0.
  rewrite Z2Nat.id; [reflexivity|]. unfold reads_bound, MAX_CAPTURED_BODY_BYTES, MAX_CHUNK_SIZE_LINE_BYTES. lia.
Defined.

Lemma ws_request_lines_ok : Forall header_line_ok (@upgrade_request_lines list_headers demo_urls ws_request).
Proof.
  repeat (apply Forall_cons; split); [..|constructor].
  - split_and!; [done| | |].
    + cbn. rewrite !Forall_cons. unfold plain. split_and!; (lia || constructor).
    + vm_compute. intros H. by apply list_elem_of_singleton in H.
    + by apply TidyOne.
  - split_and!; [done| | |].
    + cbn. rewrite !Forall_cons. unfold plain. split_and!; (lia || constructor).
    + intros H. not_in_literal H.
    + apply (TidyMore 107 [101] 121); done.
  - split_and!; [done| | |].
    + cbn. rewrite !Forall_cons. unfold plain. split_and!; (lia || constructor).
    + intros H. not_in_literal H.
    + apply (TidyMore 119 (lit "ebsocke") 116); done.
Qed.

Lemma upgrade_request_read_back_witness :
  (parse_upstream_response_head (@build_ws_upgrade_request list_headers demo_urls ws_request)).2
    = [(lit "Host", lit "h"); (lit "sec-websocket-key", lit "key"); (lit "upgrade", lit "websocket")].
Proof.
  apply (@upgrade_request_read_back list_headers demo_urls ws_request).
  - intros H. not_in_literal H.
  - intros H. not_in_literal H.
  - exact ws_request_lines_ok.
Defined.

Lemma response_head_round_trip_witness :
  parse_upstream_response_head
    (print_head (lit "HTTP/1.1 " ++ show 403 ++ lit " " ++ lit "Forbidden") [(lit "A", lit "b")])
    = (403, [(lit "A", lit "b")]).
Proof.
  apply response_head_round_trip; [unfold u16_max; lia | intros H; not_in_literal H |].
  apply Forall_cons. split; [|constructor]. split_and!; [done| | |].
  - cbn. rewrite !Forall_cons. unfold plain. split_and!; (lia || constructor).
  - intros H. not_in_literal H.
  - by apply TidyOne.
Defined.
