(* ===== verification/Utf8.v ===== *)
(** * Utf8: text stays text

    A Rust [String] is valid UTF-8, and slicing a [&str] off a character boundary
    panics.  The encoded characters of a text, its boundaries, and what lossy
    decoding gives. *)

From S2P Require Import Prelude Str JsonPath HttpIo Rewrite WsUpgrade.

(** One encoded character: a leading byte and continuation bytes *)
Record char (ch : bytes) : Prop := {
  char_ne : ch ≠ [];
  char_tail : Forall (fun b => cont b = true) (tl ch);
  char_skip : ∀ t, utf8_valid (ch ++ t) = utf8_valid t
}.

Lemma cont_range b : cont b = true ↔ 128 <= b <= 191.
Proof. unfold cont. rewrite andb_true_iff. lia. Qed.

(** Decide the tests of a decoder. *)
Ltac tests :=
  repeat match goal with
  | H : cont _ = true |- _ => apply cont_range in H
  | |- context [?a <=? ?b] => destruct (Z.leb_spec a b); try lia
  | |- context [?a =? ?b] => destruct (Z.eqb_spec a b); try lia
  | |- context [cont ?b] => assert (cont b = true) as -> by (apply cont_range; lia)
  end.

Ltac is_char :=
  split; [done | repeat (constructor; [apply cont_range; lia|]); constructor
         | intros t; cbn [app utf8_valid]; tests; done].

Lemma second_ok_range a b :
  second_ok a b = true →
  128 <= b <= 191 ∧ (a = 224 → 160 <= b) ∧ (a = 237 → b <= 159) ∧ (a = 240 → 144 <= b) ∧ (a = 244 → b <= 143).
Proof. unfold second_ok. repeat case_match; breflect; rewrite ?cont_range; lia. Qed.

(** What [from_utf8_lossy] keeps is a character. *)
Lemma char_head_valid a s n :
  char_head a s = Valid n → char (take n (a :: s)) ∧ (n <= length (a :: s))%nat.
Proof.
  unfold char_head. destruct ((0 <=? a) && (a <=? 127)) eqn:H1.
  { intros [= <-]. breflect. cbn [take length]. split; [is_char | lia]. }
  destruct (negb ((194 <=? a) && (a <=? 244))) eqn:H2; [done|]. apply negb_false_iff in H2. breflect.
  assert (127 < a) as Ha by (apply andb_false_iff in H1 as [?|?]; breflect; lia). clear H1.
  destruct s as [|b s]; [done|]. destruct (negb (second_ok a b)) eqn:Hb; [done|].
  apply negb_false_iff, second_ok_range in Hb as (Hb & Hb1 & Hb2 & Hb3 & Hb4).
  destruct (Z.leb_spec a 223).
  { intros [= <-]. cbn [take length]. split; [is_char | lia]. }
  destruct s as [|c s]; [done|]. destruct (cont c) eqn:Hc; cbn [negb]; [|done].
  destruct (Z.leb_spec a 239).
  { intros [= <-]. apply cont_range in Hc. cbn [take length]. split; [is_char | lia]. }
  destruct s as [|d s]; [done|]. destruct (cont d) eqn:Hd; [|done].
  intros [= <-]. apply cont_range in Hc, Hd. cbn [take length]. split; [is_char | lia].
Qed.

Lemma valid_char_head a s : utf8_valid (a :: s) = true → ∃ n, char_head a s = Valid n.
Proof.
  cbn [utf8_valid]. destruct (Z.leb_spec a 127) as [H1|H1].
  { intros H. breflect. unfold char_head. tests. cbn. eauto. }
  destruct s as [|b [|c [|d s]]]; intros H;
    repeat match type of H with
    | (if ?x then _ else _) = true => destruct x eqn:?
    | false = true => discriminate
    end; breflect; unfold char_head, second_ok; tests; cbn [andb negb]; eauto.
Qed.

Lemma utf8_first a s :
  utf8_valid (a :: s) = true → ∃ ch r, a :: s = ch ++ r ∧ char ch ∧ utf8_valid r = true.
Proof.
  intros Hv. destruct (valid_char_head a s Hv) as [n Hn]. apply char_head_valid in Hn as [Hc Hn].
  exists (take n (a :: s)), (drop n (a :: s)). rewrite take_drop. split_and!; [done | done |].
  by rewrite <- (char_skip _ Hc (drop n (a :: s))), take_drop.
Qed.

(** Cutting at a boundary keeps characters whole. *)
Lemma utf8_take_boundary k : ∀ s i,
  (length s <= k)%nat → utf8_valid s = true → (i <= length s)%nat → is_char_boundary s i = true →
  utf8_valid (take i s) = true.
Proof.
  induction k as [|k IH]; intros [|a s] i Hk Hv Hi Hb; [by rewrite take_nil | simpl in Hk; lia | by rewrite take_nil|].
  destruct (utf8_first a s Hv) as (ch & r & Heq & Hc & Hr). rewrite Heq in *.
  assert (1 <= length ch)%nat as Hlen by (destruct ch; [by destruct (char_ne _ Hc)|simpl; lia]).
  rewrite length_app in *. destruct (le_lt_dec (length ch) i) as [Hge|Hlt].
  - rewrite take_app_ge, char_skip by done. apply IH; [lia | done | lia |].
    unfold is_char_boundary in *. rewrite lookup_app_r in Hb by done. done.
  - destruct i as [|i]; [done|]. exfalso. unfold is_char_boundary in Hb. rewrite lookup_app_l in Hb by done.
    destruct ch as [|c0 ch]; [cbn in Hlen; lia|]. cbn in Hb, Hlt. destruct (ch !! i) as [x|] eqn:Hx.
    + pose proof (char_tail _ Hc) as Ht. cbn in Ht. rewrite Forall_forall in Ht.
      rewrite (Ht x) in Hb; [done | by eapply list_elem_of_lookup_2].
    + apply lookup_ge_None_1 in Hx. lia.
Qed.

Lemma floor_boundary_cut s i :
  utf8_valid s = true → (i <= length s)%nat → utf8_valid (take (floor_boundary s i) s) = true.
Proof.
  intros Hv. induction i as [|i IH]; intros Hi; [done|]. cbn [floor_boundary].
  destruct (is_char_boundary s (S i)) eqn:Hb; [by eapply utf8_take_boundary | apply IH; lia].
Qed.

Lemma floor_boundary_le s i : (floor_boundary s i <= i)%nat.
Proof. induction i as [|i IH]; cbn [floor_boundary]; [done|]. destruct (is_char_boundary _ _); lia. Qed.

Lemma utf8_valid_app s t : utf8_valid s = true → utf8_valid t = true → utf8_valid (s ++ t) = true.
Proof.
  remember (length s) as k eqn:Hk. assert (length s <= k)%nat as Hle by lia. clear Hk. revert s Hle.
  induction k as [|k IH]; intros [|a s] Hle Hs Ht; try done; [simpl in Hle; lia|].
  destruct (utf8_first a s Hs) as (ch & r & Heq & Hc & Hr). rewrite Heq in *.
  rewrite <- app_assoc, char_skip by done. apply IH; [|done|done].
  assert (1 <= length ch)%nat by (destruct ch; [by destruct (char_ne _ Hc)|simpl; lia]).
  rewrite length_app in Hle. lia.
Qed.

Lemma lossy_valid fuel : ∀ s, utf8_valid (lossy fuel s) = true.
Proof.
  induction fuel as [|fuel IH]; intros [|a s]; try done. cbn [lossy].
  destruct (char_head a s) as [n|n|n] eqn:Hn.
  - apply char_head_valid in Hn as [Hc _]. rewrite char_skip by done. apply IH.
  - by apply utf8_valid_app.
  - by apply utf8_valid_app.
Qed.
