(* ===== verification/TextSearch.v ===== *)
(** * TextSearch: searching captured bodies

    Models the text search of src/crates/mcp-server/src/tools/text_search.rs and
    the query validation of tools/body.rs.  A body is searched either as one text
    ([text_matches]) or, while its redacted JSON is being produced piece by piece,
    by a sink that keeps only a window of the text ([MatchSink]).  The theorem is
    that the window makes no difference: for any pieces the sink reports the hits,
    the snippets and the truncation flag of the search in the whole text.

    Positions are [nat]; additions and multiplications that saturate in the code
    saturate at [usize_max].  Slicing a text out of range or off a character
    boundary panics in Rust, and is [None] here. *)

From S2P Require Import Prelude Str JsonPath HttpIo Rewrite WsUpgrade Utf8.

(** ** Definitions *)

Definition MAX_TEXT_QUERY_HITS : nat := 20.
Definition MAX_TEXT_QUERY_SCAN_BYTES : nat := Z.to_nat (16 * 1024 * 1024).
Definition SEARCH_WINDOW_BYTES : nat := Z.to_nat (8 * 1024).
Definition MATCH_SLACK_BYTES : nat := Z.to_nat (8 * 1024).
Definition SCAN_BATCH_BYTES : nat := Z.to_nat (8 * 1024).
Definition DEFAULT_CONTEXT_BYTES : nat := 120.
Definition MAX_CONTEXT_BYTES : nat := Z.to_nat 1024.

(** [usize::saturating_add], [usize::saturating_mul] *)
Definition uadd (a b : nat) : nat := Z.to_nat (Z.min usize_max (Z.of_nat a + Z.of_nat b)).
Definition umul (a b : nat) : nat := Z.to_nat (Z.min usize_max (Z.of_nat a * Z.of_nat b)).

(** [str::is_char_boundary] *)
Definition at_boundary (s : str) (i : nat) : bool := (i <=? length s)%nat && is_char_boundary s i.

(** [&s[a..b]] *)
Definition str_slice (s : str) (a b : nat) : option str :=
  if (a <=? b)%nat && at_boundary s a && at_boundary s b then Some (slice a b s) else None.

(** [while i > 0 && !s.is_char_boundary(i) { i -= 1 }] *)
Fixpoint floor_at (s : str) (i : nat) : nat :=
  match i with
  | O => O
  | S e => if at_boundary s i then i else floor_at s e
  end.

(** [while i < s.len() && !s.is_char_boundary(i) { i += 1 }] *)
Fixpoint ceil_go (more : nat) (s : str) (i : nat) : nat :=
  match more with
  | O => i
  | S more => if (i <? length s)%nat && negb (at_boundary s i) then ceil_go more s (S i) else i
  end.
Definition ceil_at (s : str) (i : nat) : nat := ceil_go (length s - i) s i.

(** [s.chars().count()] *)
Definition chars_count (s : str) : nat := length (List.filter (fun b => negb (cont b)) s).

Definition validate_text_query (query : option str) : result (option str) str :=
  match query with
  | None => Ok None
  | Some query =>
      let query := trim query in
      if bool_decide (query = []) then Err (lit "textQuery must not be empty or whitespace-only.")
      else if (256 <? chars_count query)%nat then Err (lit "textQuery must be at most 256 characters.")
      else Ok (Some query)
  end.

(** The context of [extract_body]: the requested one, at most [MAX_CONTEXT_BYTES]. *)
Definition clamp_context (requested : option nat) : nat :=
  Nat.min (default DEFAULT_CONTEXT_BYTES requested) MAX_CONTEXT_BYTES.

Record Hit := { offsetBytes : nat; snippet : str; matched : str }.

(** ** The matcher

    [RegexBuilder::new(&regex::escape(query)).case_insensitive(true)] of the crate
    regex.  Simple case folding relates characters to characters; a match of the
    query is a word that relates to it character by character; [find_iter] yields
    the successive leftmost matches that do not overlap. *)
Section Matches.
Context (folds : bytes → bytes → Prop).

Inductive Variant : str → str → Prop :=
  | VariantNil : Variant [] []
  | VariantCons c d q w : char c → folds c d → Variant q w → Variant (c ++ q) (d ++ w).

Definition match_at (q text : str) (a b : nat) : Prop :=
  (a <= b <= length text)%nat ∧ Variant q (slice a b text).

Inductive Iter (q text : str) : nat → list (nat * nat) → Prop :=
  | IterNil i : (∀ a b, (i <= a)%nat → ¬ match_at q text a b) → Iter q text i []
  | IterCons i a b ms :
      (i <= a)%nat → match_at q text a b →
      (∀ x y, (i <= x < a)%nat → ¬ match_at q text x y) →
      Iter q text b ms → Iter q text i ((a, b) :: ms).
End Matches.

Class Matcher := {
  folds : bytes → bytes → Prop;
  (** [RegexBuilder::build] can refuse a pattern *)
  build : str → result unit str;
  find_iter : str → str → list (nat * nat);
  folds_char c d : folds c d → char d;
  find_iter_spec q text :
    q ≠ [] → utf8_valid q = true → utf8_valid text = true → build q = Ok tt →
    Iter folds q text 0 (find_iter q text)
}.

(** ** Searching a whole text *)

Section Search.
Context `{Matcher}.

Fixpoint text_hits (text : str) (context_bytes : nat) (found : list (nat * nat)) (acc : list Hit)
    : option (list Hit * bool) :=
  match found with
  | [] => Some (acc, false)
  | (a, b) :: found =>
      if (MAX_TEXT_QUERY_HITS <=? length acc)%nat then Some (acc, true)
      else
        let start := floor_at text (a - context_bytes) in
        let end_ := ceil_at text (Nat.min (uadd b context_bytes) (length text)) in
        match str_slice text start end_ with
        | None => None
        | Some snip =>
            text_hits text context_bytes found
              (acc ++ [{| offsetBytes := a; snippet := snip; matched := slice a b text |}])
        end
  end.

Definition text_matches (text query : str) (context_bytes : nat) : option (list Hit * bool) :=
  match build query with
  | Err _ => Some ([], false)
  | Ok _ => text_hits text context_bytes (find_iter query text) []
  end.

(** ** The sink *)

Record MatchSink := {
  sk_query : str; context_bytes : nat; max_match_bytes : nat; buffer : str; buffer_start : nat;
  next_search_from : nat; total_len : nat; matches : list Hit; limited : bool
}.

Definition new_sink (query : str) (context_bytes : nat) : result MatchSink str :=
  match build query with
  | Err error => Err (lit "Invalid textQuery: " ++ error)
  | Ok _ =>
      Ok {| sk_query := query; context_bytes := context_bytes;
            max_match_bytes := uadd (umul (length query) 4) 64;
            buffer := []; buffer_start := 0; next_search_from := 0; total_len := 0;
            matches := []; limited := false |}
  end.

Definition with_window (k : MatchSink) (buf : str) (start next total : nat) : MatchSink :=
  {| sk_query := sk_query k; context_bytes := context_bytes k; max_match_bytes := max_match_bytes k;
     buffer := buf; buffer_start := start; next_search_from := next; total_len := total;
     matches := matches k; limited := limited k |}.

Definition with_hits (k : MatchSink) (hits : list Hit) (lim : bool) : MatchSink :=
  {| sk_query := sk_query k; context_bytes := context_bytes k; max_match_bytes := max_match_bytes k;
     buffer := buffer k; buffer_start := buffer_start k; next_search_from := next_search_from k;
     total_len := total_len k; matches := hits; limited := lim |}.

Definition release_buffer (k : MatchSink) : MatchSink :=
  with_window k [] (total_len k) (total_len k) (total_len k).

Definition retention (k : MatchSink) : nat :=
  Nat.max SEARCH_WINDOW_BYTES (uadd (context_bytes k) MATCH_SLACK_BYTES).

Definition sink_floor (k : MatchSink) (absolute : nat) : nat :=
  let absolute := Nat.min absolute (total_len k) in
  (buffer_start k + floor_at (buffer k) (absolute - buffer_start k))%nat.

Definition sink_ceil (k : MatchSink) (absolute : nat) : nat :=
  let absolute := Nat.min absolute (total_len k) in
  (buffer_start k + ceil_at (buffer k) (absolute - buffer_start k))%nat.

(** How the loop over the matches of a window ends. *)
Inductive ScanEnd := Exhausted | PendingMatch | HitLimit.

Fixpoint scan_loop (k : MatchSink) (flush : bool) (safe_end search_from : nat) (window : str)
    (found : list (nat * nat)) (advance_to : nat) (hits : list Hit) : option (ScanEnd * nat * list Hit) :=
  match found with
  | [] => Some (Exhausted, advance_to, hits)
  | (a, b) :: found =>
      let abs_start := (search_from + a)%nat in
      let abs_end := (search_from + b)%nat in
      if (safe_end <=? abs_start)%nat then Some (PendingMatch, advance_to, hits)
      else if negb flush && (safe_end <? uadd abs_end (context_bytes k))%nat then
        Some (PendingMatch, advance_to, hits)
      else if (MAX_TEXT_QUERY_HITS <=? length hits)%nat then Some (HitLimit, advance_to, hits)
      else
        let snippet_start := sink_floor k (abs_start - context_bytes k) in
        let snippet_end := sink_ceil k (Nat.min (uadd abs_end (context_bytes k)) (total_len k)) in
        let rel_start := (snippet_start - buffer_start k)%nat in
        let rel_end := (snippet_end - buffer_start k)%nat in
        if (length (buffer k) <? rel_end)%nat then Some (PendingMatch, advance_to, hits)
        else
          match str_slice (buffer k) rel_start rel_end with
          | None => None
          | Some snip =>
              scan_loop k flush safe_end search_from window found abs_end
                (hits ++ [{| offsetBytes := abs_start; snippet := snip; matched := slice a b window |}])
          end
  end.

Definition trim_sink (k : MatchSink) : option MatchSink :=
  let keep := sink_floor k (next_search_from k - uadd (context_bytes k) MATCH_SLACK_BYTES) in
  if (buffer_start k <? keep)%nat then
    let drain_to := (keep - buffer_start k)%nat in
    if at_boundary (buffer k) drain_to then
      Some (with_window k (drop drain_to (buffer k)) keep (next_search_from k) (total_len k))
    else None
  else Some k.

Definition scan (flush : bool) (k : MatchSink) : option MatchSink :=
  if limited k then Some (release_buffer k)
  else
    let safe_end := if flush then total_len k else (total_len k - retention k)%nat in
    let safe_end := sink_floor k safe_end in
    if (safe_end <=? next_search_from k)%nat then Some k
    else
      let search_from := Nat.max (next_search_from k) (buffer_start k) in
      if (safe_end <=? search_from)%nat then Some k
      else
        let base := (search_from - buffer_start k)%nat in
        let search_end := sink_ceil k (Nat.min (uadd safe_end (max_match_bytes k)) (total_len k)) in
        let search_end := Nat.min (search_end - buffer_start k) (length (buffer k)) in
        if (search_end <=? base)%nat then Some k
        else
          match str_slice (buffer k) base search_end with
          | None => None
          | Some window =>
              match scan_loop k flush safe_end search_from window (find_iter (sk_query k) window) search_from
                      (matches k) with
              | None => None
              | Some (HitLimit, _, hits) => Some (release_buffer (with_hits k hits true))
              | Some (PendingMatch, advance_to, hits) =>
                  let next := Nat.max (next_search_from k) advance_to in
                  trim_sink (with_window (with_hits k hits false) (buffer k) (buffer_start k) next (total_len k))
              | Some (Exhausted, _, hits) =>
                  let next := Nat.max (next_search_from k) safe_end in
                  trim_sink (with_window (with_hits k hits false) (buffer k) (buffer_start k) next (total_len k))
              end
          end.

Definition write_str (text : str) (k : MatchSink) : option MatchSink :=
  match text with
  | [] => Some k
  | _ =>
      let k := with_window k (buffer k) (buffer_start k) (next_search_from k) (uadd (total_len k) (length text)) in
      if limited k then Some (release_buffer k)
      else
        let k := with_window k (buffer k ++ text) (buffer_start k) (next_search_from k) (total_len k) in
        if (SCAN_BATCH_BYTES <=? total_len k - retention k - next_search_from k)%nat then scan false k
        else Some k
  end.

Fixpoint write_pieces (pieces : list str) (k : MatchSink) : option MatchSink :=
  match pieces with
  | [] => Some k
  | text :: pieces => write_str text k ≫= write_pieces pieces
  end.

(** The life of a sink: the pieces in order, then [finish]. *)
Definition search_pieces (pieces : list str) (k : MatchSink) : option MatchSink :=
  write_pieces pieces k ≫= scan true.

End Search.

(** ** Characters and boundaries *)

Lemma char_valid c : char c → utf8_valid c = true.
Proof. intros Hc. rewrite <- (app_nil_r c). by rewrite (char_skip _ Hc). Qed.

Lemma valid_head x s : utf8_valid (x :: s) = true → cont x = false.
Proof.
  intros Hv. destruct (cont x) eqn:Hx; [|done]. apply cont_range in Hx. revert Hv. cbn [utf8_valid].
  destruct s as [|b [|c [|d s]]]; tests; done.
Qed.

Lemma char_prefix c d s t : char c → char d → c ++ s = d ++ t → c = d.
Proof.
  intros Hc Hd. revert c d Hc Hd s t.
  assert (∀ c d s t, char c → char d → (length c <= length d)%nat → c ++ s = d ++ t → c = d) as Hle.
  { intros c d s t Hc Hd Hl Heq. apply app_eq_inv in Heq as [(k & -> & ->)|(k & -> & ->)].
    - rewrite length_app in Hl. destruct k; [by rewrite app_nil_r|simpl in Hl; lia].
    - destruct k as [|x k]; [by rewrite app_nil_r|exfalso].
      pose proof (char_valid _ Hd) as Hv. rewrite (char_skip _ Hc) in Hv. apply valid_head in Hv.
      pose proof (char_tail _ Hd) as Ht. destruct c as [|y c]; [by destruct (char_ne _ Hc)|].
      cbn in Ht. rewrite Forall_app, Forall_cons in Ht. destruct Ht as (_ & Hx & _). congruence. }
  intros c d Hc Hd s t Heq. destruct (le_lt_dec (length c) (length d)); [by eapply Hle|].
  symmetry. eapply Hle; [done|done|lia|by symmetry].
Qed.

Lemma char_short c : char c → (1 <= length c <= 4)%nat.
Proof.
  intros Hc. split; [destruct c; [by destruct (char_ne _ Hc)|simpl; lia]|].
  destruct c as [|a s]; [simpl; lia|]. pose proof (char_valid _ Hc) as Hv.
  destruct (valid_char_head a s Hv) as [n Hn]. destruct (char_head_valid _ _ _ Hn) as [Ht Hl].
  assert (n <= 4)%nat as H4.
  { revert Hn. clear. unfold char_head. repeat case_match; intros; simplify_eq; lia. }
  assert (a :: s = take n (a :: s)) as ->; [|rewrite length_take; lia].
  eapply char_prefix; [done|done|]. rewrite app_nil_r. symmetry. apply take_drop.
Qed.

Lemma valid_chars_bound s : utf8_valid s = true → (length s <= 4 * chars_count s)%nat.
Proof.
  remember (length s) as n eqn:Hn. assert (length s <= n)%nat as Hle by lia. rewrite Hn. clear Hn. revert s Hle.
  induction n as [|n IH]; intros [|a s] Hle Hv; [simpl; lia|simpl in Hle; lia|simpl; lia|].
  destruct (utf8_first a s Hv) as (ch & r & Heq & Hc & Hr). rewrite Heq in *.
  pose proof (char_short _ Hc). pose proof (char_valid _ Hc) as Hcv. rewrite length_app in *.
  unfold chars_count. rewrite List.filter_app, length_app. fold (chars_count r).
  specialize (IH r ltac:(lia) Hr). destruct ch as [|x ch]; [simpl in *; lia|].
  cbn [List.filter]. rewrite (valid_head _ _ Hcv). cbn [negb length] in *. lia.
Qed.

Lemma valid_boundary_0 s : utf8_valid s = true → at_boundary s 0 = true.
Proof. intros Hv. destruct s as [|x s]; [done|]. unfold at_boundary, is_char_boundary. cbn. by rewrite (valid_head _ _ Hv). Qed.

Lemma at_boundary_end s : at_boundary s (length s) = true.
Proof. unfold at_boundary, is_char_boundary. rewrite lookup_ge_None_2 by lia. by rewrite Nat.leb_refl. Qed.

Lemma at_boundary_le s i : at_boundary s i = true → (i <= length s)%nat.
Proof. unfold at_boundary. rewrite andb_true_iff, Nat.leb_le. tauto. Qed.

Lemma at_boundary_drop s n i : (n <= length s)%nat → at_boundary (drop n s) i = at_boundary s (n + i).
Proof.
  intros Hn. unfold at_boundary, is_char_boundary. rewrite lookup_drop, length_drop.
  destruct (Nat.leb_spec i (length s - n)), (Nat.leb_spec (n + i) (length s)); try lia; done.
Qed.

Lemma at_boundary_take s n i :
  at_boundary s n = true → (i <= n)%nat → at_boundary (take n s) i = at_boundary s i.
Proof.
  intros Hn Hi. pose proof (at_boundary_le _ _ Hn). destruct (decide (i = n)) as [->|].
  - rewrite Hn. rewrite <- (at_boundary_end (take n s)). f_equal. rewrite length_take. lia.
  - unfold at_boundary, is_char_boundary. rewrite lookup_take_lt, length_take by lia.
    destruct (Nat.leb_spec i (n `min` length s)), (Nat.leb_spec i (length s)); try lia; done.
Qed.

Lemma at_boundary_slice s a b i :
  at_boundary s b = true → (a <= b)%nat → (a + i <= b)%nat → at_boundary (slice a b s) i = at_boundary s (a + i).
Proof.
  intros Hb Hab Hi. pose proof (at_boundary_le _ _ Hb). unfold slice. rewrite <- at_boundary_drop by lia.
  apply at_boundary_take; [|lia]. rewrite at_boundary_drop by lia. rewrite <- Hb. f_equal. lia.
Qed.

Lemma length_slice {A} a b (s : list A) : (a <= b <= length s)%nat → length (slice a b s) = (b - a)%nat.
Proof. intros H. unfold slice. rewrite length_take, length_drop. lia. Qed.

Lemma slice_slice {A} a b c d (s : list A) :
  (a + d <= b)%nat → slice c d (slice a b s) = slice (a + c) (a + d) s.
Proof.
  intros Hd. unfold slice. rewrite skipn_firstn_comm, drop_drop, take_take. f_equal. lia.
Qed.

Lemma slice_prefix {A} a b (s : list A) : (a <= b)%nat → drop a s = slice a b s ++ drop b s.
Proof. intros H. unfold slice. rewrite <- (take_drop (b - a) (drop a s)) at 1. rewrite drop_drop. do 2 f_equal. lia. Qed.

Lemma utf8_drop_boundary s i :
  utf8_valid s = true → at_boundary s i = true → utf8_valid (drop i s) = true.
Proof.
  remember (length s) as n eqn:Hn. assert (length s <= n)%nat as Hle by lia. clear Hn. revert s i Hle.
  induction n as [|n IH]; intros [|a s] i Hle Hv Hb; [by rewrite drop_nil|simpl in Hle; lia|by rewrite drop_nil|].
  destruct (utf8_first a s Hv) as (ch & r & Heq & Hc & Hr). rewrite Heq in *.
  pose proof (char_short _ Hc). rewrite length_app in Hle. destruct (le_lt_dec (length ch) i) as [Hge|Hlt].
  - rewrite drop_app_ge by lia. apply IH; [lia|done|].
    replace i with (length ch + (i - length ch))%nat in Hb by lia.
    rewrite <- at_boundary_drop, drop_app_length in Hb by (rewrite length_app; lia). done.
  - destruct i as [|i]; [done|exfalso]. unfold at_boundary, is_char_boundary in Hb.
    apply andb_true_iff in Hb as [_ Hb]. rewrite lookup_app_l in Hb by lia.
    destruct ch as [|x ch]; [simpl in *; lia|]. cbn in Hb, Hlt. destruct (ch !! i) as [y|] eqn:Hy.
    + pose proof (char_tail _ Hc) as Ht. cbn in Ht. rewrite Forall_forall in Ht.
      rewrite (Ht y) in Hb; [done|by eapply list_elem_of_lookup_2].
    + apply lookup_ge_None_1 in Hy. lia.
Qed.

Lemma utf8_slice s a b :
  utf8_valid s = true → (a <= b)%nat → at_boundary s a = true → at_boundary s b = true →
  utf8_valid (slice a b s) = true.
Proof.
  intros Hv Hab Ha Hb. pose proof (at_boundary_le _ _ Hb). unfold slice.
  assert (at_boundary (drop a s) (b - a) = true) as Hd.
  { rewrite at_boundary_drop by lia. rewrite <- Hb. f_equal. lia. }
  eapply (utf8_take_boundary (length (drop a s))); [done|by apply utf8_drop_boundary| |].
  - rewrite length_drop. lia.
  - unfold at_boundary in Hd. by apply andb_true_iff in Hd as [_ Hd].
Qed.

Lemma boundary_between s t : utf8_valid t = true → at_boundary (s ++ t) (length s) = true.
Proof.
  intros Ht. rewrite <- (Nat.add_0_r (length s)), <- at_boundary_drop, drop_app_length by (rewrite length_app; lia).
  by apply valid_boundary_0.
Qed.

(** ** Floors and ceilings through a window *)

Lemma floor_at_le s i : (floor_at s i <= i)%nat.
Proof. induction i as [|i IH]; cbn [floor_at]; [done|]. destruct (at_boundary s (S i)); lia. Qed.

Lemma floor_at_boundary s i : utf8_valid s = true → at_boundary s (floor_at s i) = true.
Proof.
  intros Hv. induction i as [|i IH]; cbn [floor_at]; [by apply valid_boundary_0|].
  destruct (at_boundary s (S i)) eqn:Hb; done.
Qed.

Lemma floor_at_fix s i : at_boundary s i = true → floor_at s i = i.
Proof. destruct i as [|i]; cbn [floor_at]; [done|]. by intros ->. Qed.

Lemma ceil_at_unfold s i :
  ceil_at s i = if (i <? length s)%nat && negb (at_boundary s i) then ceil_at s (S i) else i.
Proof.
  unfold ceil_at. destruct (Nat.ltb_spec i (length s)).
  - replace (length s - i)%nat with (S (length s - S i)) by lia. cbn [ceil_go andb].
    destruct (Nat.ltb_spec i (length s)); [done|lia].
  - replace (length s - i)%nat with 0%nat by lia. done.
Qed.

Lemma ceil_at_bounds s j i :
  (i <= j)%nat → at_boundary s j = true →
  (i <= ceil_at s i <= j)%nat ∧ at_boundary s (ceil_at s i) = true.
Proof.
  intros Hij Hj. pose proof (at_boundary_le _ _ Hj) as Hl. remember (j - i)%nat as n eqn:Hn. revert i Hij Hn.
  induction n as [|n IH]; intros i Hij Hn; rewrite ceil_at_unfold.
  - replace i with j by lia. rewrite Hj, andb_false_r. auto with lia.
  - destruct (at_boundary s i) eqn:Hb; [rewrite andb_false_r; auto with lia|].
    destruct (Nat.ltb_spec i (length s)); [cbn [andb negb]|lia].
    destruct (IH (S i) ltac:(lia) ltac:(lia)) as [? ?]. auto with lia.
Qed.

(** A window [a, b) of a text that starts and ends at boundaries. *)
Section Window.
Context (s : str) (a b : nat) (Hab : (a <= b)%nat) (Ha : at_boundary s a = true) (Hb : at_boundary s b = true).

Lemma window_floor i : (a <= i <= b)%nat → (a + floor_at (slice a b s) (i - a) = floor_at s i)%nat.
Proof.
  intros Hi. remember (i - a)%nat as n eqn:Hn. revert i Hi Hn.
  induction n as [|n IH]; intros i Hi Hn.
  - replace i with a by lia. cbn [floor_at]. rewrite floor_at_fix by done. lia.
  - replace i with (S (a + n)) by lia. cbn [floor_at]. rewrite at_boundary_slice by (done || lia).
    replace (a + S n)%nat with (S (a + n)) by lia. destruct (at_boundary s (S (a + n))); [lia|].
    apply IH; lia.
Qed.

Lemma window_ceil i : (a <= i <= b)%nat → (a + ceil_at (slice a b s) (i - a) = ceil_at s i)%nat.
Proof.
  pose proof (at_boundary_le _ _ Hb) as Hl.
  intros Hi. remember (b - i)%nat as n eqn:Hn. revert i Hi Hn.
  induction n as [|n IH]; intros i Hi Hn; rewrite (ceil_at_unfold s i), (ceil_at_unfold (slice a b s)).
  - replace i with b by lia. rewrite Hb, andb_false_r, at_boundary_slice by (done || lia).
    replace (a + (b - a))%nat with b by lia. rewrite Hb, andb_false_r. lia.
  - rewrite at_boundary_slice, length_slice by (done || lia). replace (a + (i - a))%nat with i by lia.
    destruct (Nat.ltb_spec (i - a) (b - a)), (Nat.ltb_spec i (length s)); try lia. cbn [andb].
    destruct (negb (at_boundary s i)); [|lia]. rewrite <- (IH (S i)) by lia.
    replace (S (i - a)) with (S i - a)%nat by lia. done.
Qed.
End Window.

Lemma str_slice_eq s a b :
  (a <= b)%nat → at_boundary s a = true → at_boundary s b = true → str_slice s a b = Some (slice a b s).
Proof. intros Hab Ha Hb. unfold str_slice. rewrite Ha, Hb. by destruct (Nat.leb_spec a b); [|lia]. Qed.

(** ** Matches *)

Section MatchFacts.
Context `{Matcher}.

Lemma variant_length q w : Variant folds q w → (length w <= 4 * length q)%nat.
Proof.
  induction 1 as [|c d q w Hc Hf _ IH]; [done|]. pose proof (char_short _ Hc).
  pose proof (char_short _ (folds_char _ _ Hf)). rewrite !length_app. lia.
Qed.

Lemma variant_nonempty q w : Variant folds q w → q ≠ [] → (1 <= length w)%nat.
Proof.
  intros [|c d q' w' Hc Hf _] Hq; [done|]. pose proof (char_short _ (folds_char _ _ Hf)). rewrite length_app. lia.
Qed.

Lemma variant_skip q w t : Variant folds q w → utf8_valid (w ++ t) = utf8_valid t.
Proof.
  induction 1 as [|c d q w Hc Hf _ IH]; [done|]. by rewrite <- app_assoc, (char_skip _ (folds_char _ _ Hf)).
Qed.

Lemma variant_prefix q w w' t t' :
  Variant folds q w → Variant folds q w' → w ++ t = w' ++ t' → w = w'.
Proof.
  intros Hw. revert w'. induction Hw as [|c d q w Hc Hf _ IH]; intros w' Hw'.
  - inversion Hw' as [|c d q0 w0 Hc _ _ Hq]; [done|]. exfalso. apply app_eq_nil in Hq as [-> _].
    by apply (char_ne _ Hc).
  - inversion Hw' as [Hq|c' d' q' w0 Hc' Hf' Hw0 Hq].
    { exfalso. symmetry in Hq. apply app_eq_nil in Hq as [-> _]. by apply (char_ne _ Hc). }
    subst w'. pose proof (char_prefix _ _ _ _ Hc' Hc Hq) as ->. apply app_inv_head in Hq as ->.
    rewrite <- !app_assoc. intros Heq.
    pose proof (char_prefix _ _ _ _ (folds_char _ _ Hf) (folds_char _ _ Hf') Heq) as ->.
    apply app_inv_head in Heq. f_equal. by apply IH.
Qed.

Lemma match_unique q t a b b' : match_at folds q t a b → match_at folds q t a b' → b = b'.
Proof.
  intros [Hab Hm] [Hab' Hm'].
  assert (slice a b t = slice a b' t) as Heq.
  { eapply variant_prefix; [done|done|]. rewrite <- !slice_prefix by lia. done. }
  apply (f_equal length) in Heq. rewrite !length_slice in Heq by lia. lia.
Qed.

Lemma match_bounds q t a b :
  q ≠ [] → match_at folds q t a b → (a < b <= length t)%nat ∧ (b <= a + 4 * length q)%nat.
Proof.
  intros Hq [Hab Hm]. pose proof (variant_length _ _ Hm) as H1. pose proof (variant_nonempty _ _ Hm Hq) as H2.
  rewrite length_slice in H1, H2 by lia. lia.
Qed.

Lemma match_boundaries q t a b :
  q ≠ [] → utf8_valid t = true → match_at folds q t a b → at_boundary t a = true ∧ at_boundary t b = true.
Proof.
  intros Hq Hv Hm. destruct (match_bounds _ _ _ _ Hq Hm) as [Hab _]. destruct Hm as [_ Hm].
  assert (drop a t = slice a b t ++ drop b t) as Hs by (apply slice_prefix; lia).
  assert (at_boundary t a = true) as Ha.
  { unfold at_boundary, is_char_boundary. destruct (Nat.leb_spec a (length t)); [|lia]. cbn [andb].
    rewrite <- (Nat.add_0_r a), <- lookup_drop, Hs. inversion Hm as [Hn|c d q' w Hc Hf _ Hn Hw].
    { by subst. }
    pose proof (folds_char _ _ Hf) as Hd. pose proof (char_valid _ Hd) as Hdv. destruct d as [|x d]; [by destruct (char_ne _ Hd)|].
    cbn. by rewrite (valid_head _ _ Hdv). }
  split; [done|]. pose proof (utf8_drop_boundary _ _ Hv Ha) as Hd. rewrite Hs, (variant_skip _ _ _ Hm) in Hd.
  rewrite <- (Nat.add_0_r b), <- at_boundary_drop by lia. by apply valid_boundary_0.
Qed.

(** A match of a window is a match of the text. *)
Lemma match_window q t s e a b :
  (s <= e <= length t)%nat → (b <= e - s)%nat →
  match_at folds q (slice s e t) a b ↔ match_at folds q t (s + a) (s + b).
Proof.
  intros Hs Hb. unfold match_at. rewrite length_slice, slice_slice by lia. split; intros [? ?]; (split; [lia|done]).
Qed.

Lemma iter_advance q t i j ms :
  (i <= j)%nat → (∀ a b, (i <= a < j)%nat → ¬ match_at folds q t a b) →
  Iter folds q t i ms → Iter folds q t j ms.
Proof.
  intros Hij Hno Hi. inversion Hi as [i' Hn|i' a b ms' Ha Hm Hmin Hr]; subst.
  - constructor. intros a b Haj. apply Hn. lia.
  - assert (j <= a)%nat. { destruct (le_lt_dec j a); [done|]. exfalso. apply (Hno a b); [lia|done]. }
    constructor; [done|done| |done]. intros x y Hx. apply Hmin. lia.
Qed.

Lemma iter_forall q t i ms :
  Iter folds q t i ms → Forall (fun ab => match_at folds q t ab.1 ab.2) ms.
Proof. induction 1; constructor; done. Qed.

End MatchFacts.

(** ** The search in the whole text *)

Lemma uadd_eq a b : Z.of_nat a + Z.of_nat b <= usize_max → uadd a b = (a + b)%nat.
Proof. unfold uadd. lia. Qed.

(** The hit the whole text gives for a match. *)
Definition hit_of (text : str) (ctx : nat) (ab : nat * nat) : Hit :=
  {| offsetBytes := ab.1;
     snippet := slice (floor_at text (ab.1 - ctx)) (ceil_at text (Nat.min (uadd ab.2 ctx) (length text))) text;
     matched := slice ab.1 ab.2 text |}.

Section Stream.
Context `{Matcher}.
Context (query text : str) (ctx : nat).
Context (query_ne : query ≠ []) (query_short : len query <= 1024).
Context (ctx_small : Z.of_nat ctx <= 1024) (text_fits : len text <= 2 ^ 63).
Context (text_valid : utf8_valid text = true) (query_valid : utf8_valid query = true) (built : build query = Ok tt).

Lemma uadd_text a b : (a <= length text)%nat → Z.of_nat b <= 16384 → uadd a b = (a + b)%nat.
Proof. intros Ha Hb. apply uadd_eq. unfold len in text_fits. unfold usize_max, u64_max. lia. Qed.

Lemma ctx_16384 : Z.of_nat ctx <= 16384.
Proof. lia. Qed.

Lemma snippet_slice a b :
  match_at folds query text a b →
  str_slice text (floor_at text (a - ctx)) (ceil_at text (Nat.min (uadd b ctx) (length text)))
    = Some (snippet (hit_of text ctx (a, b))).
Proof.
  intros Hm. destruct (match_bounds _ _ _ _ query_ne Hm) as [Hab _].
  rewrite uadd_text by (lia || apply ctx_16384).
  pose proof (floor_at_le text (a - ctx)).
  destruct (ceil_at_bounds text (length text) (Nat.min (b + ctx) (length text)) ltac:(lia) (at_boundary_end _)) as [? Hc].
  unfold hit_of. cbn [snippet fst snd]. rewrite uadd_text by (lia || apply ctx_16384).
  apply str_slice_eq; [lia|by apply floor_at_boundary|done].
Qed.

Lemma text_hits_eq ms : ∀ acc,
  Forall (fun ab => match_at folds query text ab.1 ab.2) ms → (length acc <= MAX_TEXT_QUERY_HITS)%nat →
  text_hits text ctx ms acc =
    Some (acc ++ map (hit_of text ctx) (take (MAX_TEXT_QUERY_HITS - length acc) ms),
          (MAX_TEXT_QUERY_HITS - length acc <? length ms)%nat).
Proof.
  induction ms as [|[a b] ms IH]; intros acc Hms Hacc; cbn [text_hits].
  - rewrite take_nil, app_nil_r. by destruct (Nat.ltb_spec (MAX_TEXT_QUERY_HITS - length acc) (length (@nil (nat * nat)))); [simpl in *; lia|].
  - apply Forall_cons in Hms as [Hm Hms]. destruct (Nat.leb_spec MAX_TEXT_QUERY_HITS (length acc)).
    { replace (MAX_TEXT_QUERY_HITS - length acc)%nat with 0%nat by lia. cbn. by rewrite app_nil_r. }
    rewrite (snippet_slice a b Hm), IH by (done || rewrite length_app; cbn [length]; lia).
    rewrite length_app. cbn [length].
    replace (MAX_TEXT_QUERY_HITS - length acc)%nat with (S (MAX_TEXT_QUERY_HITS - (length acc + 1))) by lia.
    cbn [take map]. rewrite <- app_assoc. done.
Qed.

(** ** One scan *)

(** The sink [k] holds the window of [text] that ends at [T]; [all] is the list
    of the matches of the text. *)
Record window_ok (k : MatchSink) (T : nat) : Prop := {
  w_query : sk_query k = query;
  w_ctx : context_bytes k = ctx;
  w_max : max_match_bytes k = (4 * length query + 64)%nat;
  w_total : total_len k = T;
  w_end : at_boundary text T = true;
  w_start : at_boundary text (buffer_start k) = true;
  w_next : at_boundary text (next_search_from k) = true;
  w_order : (buffer_start k <= next_search_from k - ctx)%nat ∧ (next_search_from k <= T)%nat;
  w_buffer : buffer k = slice (buffer_start k) T text
}.

Lemma window_sink_floor k T i :
  window_ok k T → (buffer_start k <= i <= T)%nat → sink_floor k i = floor_at text i.
Proof.
  intros [] Hi. unfold sink_floor. rewrite w_total0, w_buffer0, Nat.min_l by lia. apply window_floor; auto; lia.
Qed.

Lemma window_sink_ceil k T i :
  window_ok k T → (buffer_start k <= i <= T)%nat → sink_ceil k i = ceil_at text i.
Proof.
  intros [] Hi. unfold sink_ceil. rewrite w_total0, w_buffer0, Nat.min_l by lia. apply window_ceil; auto; lia.
Qed.

(** The snippet the sink cuts is the snippet of the text. *)
Lemma window_snippet k T a b e :
  window_ok k T → (next_search_from k <= a)%nat → match_at folds query text a b →
  at_boundary text e = true → (e <= T)%nat → (b + ctx <= e ∨ e = length text)%nat → (b <= e)%nat →
  let snippet_start := sink_floor k (a - ctx) in
  let snippet_end := sink_ceil k (Nat.min (uadd b ctx) (total_len k)) in
  (snippet_end - buffer_start k <= length (buffer k))%nat ∧
  str_slice (buffer k) (snippet_start - buffer_start k) (snippet_end - buffer_start k)
    = Some (snippet (hit_of text ctx (a, b))).
Proof.
  intros Hk Ha Hm He HeT Hbe Hb. pose proof Hk as []. destruct (match_bounds _ _ _ _ query_ne Hm) as [Hab _].
  pose proof (at_boundary_le _ _ w_end0) as HT. pose proof (floor_at_le text (a - ctx)) as Hf.
  cbv zeta. unfold hit_of. cbn [snippet fst snd]. rewrite !uadd_text by (lia || apply ctx_16384). rewrite w_total0.
  assert (Nat.min (b + ctx) (length text) = Nat.min (b + ctx) T) as -> by lia.
  rewrite (window_sink_floor k T), (window_sink_ceil k T) by (done || lia).
  destruct (ceil_at_bounds text T (Nat.min (b + ctx) T) ltac:(lia) w_end0) as [Hc1 Hc2].
  assert (buffer_start k <= floor_at text (a - ctx))%nat as Hfs.
  { rewrite <- (window_floor text (buffer_start k) T) by (done || lia). lia. }
  rewrite w_buffer0, length_slice by lia. split; [lia|].
  rewrite str_slice_eq, slice_slice by (lia || rewrite at_boundary_slice by (done || lia);
    rewrite Nat.add_comm, Nat.sub_add by lia; done || by apply floor_at_boundary).
  f_equal. f_equal; lia.
Qed.

(** The hits so far are those of the first matches; the others start at [pos] or later. *)
Context (all : list (nat * nat)) (all_spec : Iter folds query text 0 all).

Definition progress (pos : nat) (hits : list Hit) : Prop :=
  ∃ done rest, all = done ++ rest ∧ Iter folds query text pos rest ∧
    hits = map (hit_of text ctx) done ∧ (length done <= MAX_TEXT_QUERY_HITS)%nat.

Lemma progress_advance i j hits :
  (i <= j)%nat → (∀ a b, (i <= a < j)%nat → ¬ match_at folds query text a b) → progress i hits → progress j hits.
Proof.
  intros Hij Hno (ds & rest & Hall & Hi & Hh & Hl). exists ds, rest. eauto using iter_advance.
Qed.

(** The next match of the text after [i], when the first one is known. *)
Lemma progress_next i a b hits :
  (i <= a)%nat → match_at folds query text a b → (∀ x y, (i <= x < a)%nat → ¬ match_at folds query text x y) →
  progress i hits →
  ∃ done rest, all = done ++ (a, b) :: rest ∧ Iter folds query text b rest ∧
    hits = map (hit_of text ctx) done ∧ (length done <= MAX_TEXT_QUERY_HITS)%nat.
Proof.
  intros Hia Hm Hmin (ds & rest & Hall & Hi & Hh & Hl). exists ds.
  inversion Hi as [i' Hn|i' a' b' rest' Ha' Hm' Hmin' Hr]; subst.
  - by destruct (Hn a b).
  - assert (a' = a) as ->.
    { destruct (lt_eq_lt_dec a a') as [[Hlt|?]|Hlt]; [|done|].
      - by destruct (Hmin' a b).
      - by destruct (Hmin a' b'). }
    pose proof (match_unique _ _ _ _ _ Hm Hm') as ->. by exists rest'.
Qed.

Section Scan.
Context (k : MatchSink) (T : nat) (Hk : window_ok k T) (flush : bool) (safe_end se : nat).
Context (Hse : at_boundary text se = true) (Hsafe : at_boundary text safe_end = true).
Context (Horder : (next_search_from k < safe_end <= se)%nat ∧ (se <= T)%nat).
Context (Hflush : flush = true → safe_end = length text).
Context (Hreach : ∀ x y, (x < safe_end)%nat → match_at folds query text x y → (y <= se)%nat).

Definition scan_post (e : ScanEnd) (advance : nat) (hits : list Hit) : Prop :=
  match e with
  | Exhausted => progress safe_end hits
  | PendingMatch =>
      flush = false ∧ (next_search_from k <= advance <= safe_end)%nat ∧ at_boundary text advance = true ∧
      progress advance hits
  | HitLimit =>
      (MAX_TEXT_QUERY_HITS < length all)%nat ∧ hits = map (hit_of text ctx) (take MAX_TEXT_QUERY_HITS all)
  end.

Lemma window_no_match p x :
  (∀ a b, (p <= a < x)%nat → ¬ match_at folds query (slice (next_search_from k) se text) a b) →
  ∀ a b, (next_search_from k + p <= a < next_search_from k + x)%nat → (a < safe_end)%nat →
    ¬ match_at folds query text a b.
Proof.
  intros Hno a b Ha Hs Hm. pose proof (Hreach _ _ Hs Hm). destruct (match_bounds _ _ _ _ query_ne Hm) as [Hab _].
  pose proof (at_boundary_le _ _ Hse).
  apply (Hno (a - next_search_from k)%nat (b - next_search_from k)%nat); [lia|]. apply match_window; [lia|lia|].
  by replace (next_search_from k + (a - next_search_from k))%nat with a by lia;
    replace (next_search_from k + (b - next_search_from k))%nat with b by lia.
Qed.

Lemma scan_loop_ok found : ∀ p hits,
  Iter folds query (slice (next_search_from k) se text) p found →
  progress (next_search_from k + p) hits → (next_search_from k + p <= safe_end)%nat →
  at_boundary text (next_search_from k + p) = true →
  ∃ e advance hits',
    scan_loop k flush safe_end (next_search_from k) (slice (next_search_from k) se text) found
      (next_search_from k + p) hits = Some (e, advance, hits') ∧ scan_post e advance hits'.
Proof.
  pose proof (at_boundary_le _ _ Hse) as Hsel. pose proof (w_ctx _ _ Hk) as Hctx. set (n := next_search_from k) in *.
  induction found as [|[a b] found IH]; intros p hits Hi Hp Hps Hpb; cbn [scan_loop].
  - exists Exhausted, (n + p)%nat, hits. split; [done|]. cbn. apply (progress_advance (n + p)); [done| |done].
    intros x y Hx. inversion Hi as [? Hn|]; subst.
    apply (window_no_match p (se - n)); [|lia|lia]. intros; apply Hn; lia.
  - inversion Hi as [|? ? ? ? Hpa Hm Hmin Hr]; subst.
    assert (b <= se - n)%nat as Hb. { destruct Hm as [Hm _]. rewrite length_slice in Hm by lia. lia. }
    apply match_window in Hm; [|lia|done]. destruct (match_bounds _ _ _ _ query_ne Hm) as [Hab _].
    destruct (match_boundaries _ _ _ _ query_ne text_valid Hm) as [_ Hbb].
    destruct (Nat.leb_spec safe_end (n + a)) as [Hge|Hlt].
    { exists PendingMatch, (n + p)%nat, hits. split; [done|]. split_and!; [|lia|lia|done|done].
      destruct flush; [rewrite Hflush in Hge by done; lia|done]. }
    rewrite Hctx, uadd_text by (lia || apply ctx_16384).
    destruct (negb flush && (safe_end <? n + b + ctx)%nat) eqn:Hpend.
    { exists PendingMatch, (n + p)%nat, hits. split; [done|]. apply andb_true_iff in Hpend as [Hf _].
      split_and!; [by destruct flush|lia|lia|done|done]. }
    assert (n + b + ctx <= safe_end ∨ safe_end = length text)%nat as Hroom.
    { apply andb_false_iff in Hpend as [Hf|Hf]; [right; apply Hflush; by destruct flush|left; apply Nat.ltb_ge in Hf; lia]. }
    destruct (progress_next (n + p) (n + a) (n + b) hits) as (ds & rest & Hall & Hrest & Hh & Hl); [lia|done| |done|].
    { intros x y Hx. apply (window_no_match p a); [|lia|lia]. intros; apply Hmin; lia. }
    rewrite Hh, length_map. destruct (Nat.leb_spec MAX_TEXT_QUERY_HITS (length ds)) as [Hfull|Hfull].
    { exists HitLimit, (n + p)%nat, (map (hit_of text ctx) ds). split; [done|]. cbn. rewrite Hall.
      split; [rewrite length_app; cbn [length]; lia|]. f_equal. symmetry. apply take_app_length'.
      unfold MAX_TEXT_QUERY_HITS in *. lia. }
    pose proof (window_snippet k T (n + a) (n + b) safe_end Hk (Nat.le_add_r _ _) Hm Hsafe ltac:(lia) Hroom ltac:(lia)) as [Hsl Hss].
    rewrite uadd_text in Hsl, Hss by (lia || apply ctx_16384).
    destruct (Nat.ltb_spec (length (buffer k)) (sink_ceil k (Nat.min (n + b + ctx) (total_len k)) - buffer_start k)); [lia|].
    rewrite Hss. apply IH; [done| |lia|done].
    exists (ds ++ [((n + a)%nat, (n + b)%nat)]), rest. rewrite <- app_assoc, map_app, length_app.
    split_and!; [done|done| |cbn [length]; lia]. cbn [map]. do 2 f_equal. unfold hit_of. cbn [fst snd snippet].
    f_equal. rewrite slice_slice by lia. done.
Qed.
End Scan.

Definition sink_inv (k : MatchSink) (T : nat) : Prop :=
  if limited k then
    (MAX_TEXT_QUERY_HITS < length all)%nat ∧ matches k = map (hit_of text ctx) (take MAX_TEXT_QUERY_HITS all)
  else window_ok k T ∧ progress (next_search_from k) (matches k).

Lemma slack_eq : uadd ctx MATCH_SLACK_BYTES = (ctx + MATCH_SLACK_BYTES)%nat.
Proof. apply uadd_eq. unfold usize_max, u64_max, MATCH_SLACK_BYTES. lia. Qed.

Lemma retention_eq k T : window_ok k T → retention k = (ctx + MATCH_SLACK_BYTES)%nat.
Proof.
  intros Hk. unfold retention. rewrite (w_ctx _ _ Hk), slack_eq. unfold SEARCH_WINDOW_BYTES, MATCH_SLACK_BYTES. lia.
Qed.

Lemma sink_floor_low k i : (Nat.min i (total_len k) <= buffer_start k)%nat → sink_floor k i = buffer_start k.
Proof. intros Hi. unfold sink_floor. rewrite (proj2 (Nat.sub_0_le _ _)) by lia. cbn [floor_at]. lia. Qed.

Lemma trim_ok k T :
  window_ok k T →
  ∃ k', trim_sink k = Some k' ∧ window_ok k' T ∧ next_search_from k' = next_search_from k ∧
    matches k' = matches k ∧ limited k' = limited k.
Proof.
  intros Hk. pose proof Hk as []. unfold trim_sink. rewrite w_ctx0, slack_eq.
  set (at_ := (next_search_from k - (ctx + MATCH_SLACK_BYTES))%nat).
  destruct (le_lt_dec at_ (buffer_start k)) as [Hle|Hgt].
  { rewrite sink_floor_low by lia. rewrite Nat.ltb_irrefl. by exists k. }
  rewrite (window_sink_floor k T at_) by (done || lia). pose proof (floor_at_le text at_) as Hf.
  destruct (Nat.ltb_spec (buffer_start k) (floor_at text at_)) as [Hlt|]; [|by exists k].
  pose proof (floor_at_boundary text at_ text_valid) as Hb.
  assert (at_boundary (buffer k) (floor_at text at_ - buffer_start k) = true) as ->.
  { rewrite w_buffer0, at_boundary_slice by (done || lia). rewrite <- Hb. f_equal. lia. }
  eexists. split; [reflexivity|]. split; [|done]. split; cbn; try done; [lia|].
  rewrite w_buffer0. unfold slice. rewrite skipn_firstn_comm, drop_drop. f_equal; [lia|f_equal; lia].
Qed.

(** The window a scan searches: from the next position to [se], past [safe_end]. *)
Lemma search_window k T safe_end :
  window_ok k T → (next_search_from k < safe_end <= T)%nat →
  ∃ se,
    Nat.min (sink_ceil k (Nat.min (uadd safe_end (max_match_bytes k)) T) - buffer_start k) (length (buffer k))
      = (se - buffer_start k)%nat ∧
    (safe_end <= Nat.min (safe_end + (4 * length query + 64)) T <= se)%nat ∧ (se <= T)%nat ∧
    at_boundary text se = true ∧
    str_slice (buffer k) (next_search_from k - buffer_start k) (se - buffer_start k)
      = Some (slice (next_search_from k) se text).
Proof.
  intros Hk Hs. pose proof Hk as []. pose proof (at_boundary_le _ _ w_end0) as HT.
  rewrite w_max0, uadd_text by (unfold len in query_short; lia).
  set (reach := Nat.min (safe_end + (4 * length query + 64)) T).
  destruct (ceil_at_bounds text T reach ltac:(lia) w_end0) as [Hse1 Hse2].
  exists (ceil_at text reach). rewrite (window_sink_ceil k T reach) by (done || lia).
  set (se := ceil_at text reach) in *.
  assert (length (buffer k) = (T - buffer_start k)%nat) as -> by (rewrite w_buffer0; apply length_slice; lia).
  split_and!; [lia|lia|lia|lia|done|].
  rewrite w_buffer0, str_slice_eq, slice_slice by (lia || rewrite at_boundary_slice by (done || lia);
    rewrite Nat.add_comm, Nat.sub_add by lia; done). f_equal. f_equal; lia.
Qed.

(** The end of a scan that moves the search position. *)
Lemma advance_ok k T next hits :
  window_ok k T → (next_search_from k <= next <= T)%nat → at_boundary text next = true → progress next hits →
  ∃ k', trim_sink (with_window (with_hits k hits false) (buffer k) (buffer_start k)
                     (Nat.max (next_search_from k) next) T) = Some k' ∧
    sink_inv k' T ∧ matches k' = hits.
Proof.
  intros Hk Hn Hb Hp. rewrite Nat.max_r by lia. set (k1 := with_window _ _ _ _ _).
  destruct (trim_ok k1 T) as (k' & -> & Hk' & Hnx & Hm & Hl).
  { destruct Hk. unfold k1. split; cbn; try done; lia. }
  exists k'. split; [done|]. unfold sink_inv. by rewrite Hl, Hnx, Hm.
Qed.

Lemma scan_ok flush k T :
  sink_inv k T → (flush = true → T = length text) →
  ∃ k', scan flush k = Some k' ∧ sink_inv k' T ∧
    (flush = true → limited k' = false → progress (length text) (matches k')).
Proof.
  unfold sink_inv at 1. unfold scan. destruct (limited k) eqn:Hlim.
  { intros Hinv _. eexists. split; [done|]. unfold sink_inv. cbn. rewrite Hlim. done. }
  intros [Hk Hp] Hfl. pose proof Hk as []. rewrite (retention_eq _ _ Hk), w_total0.
  set (safe0 := if flush then T else (T - (ctx + MATCH_SLACK_BYTES))%nat).
  assert (safe0 <= T)%nat as Hs0 by (unfold safe0; destruct flush; lia).
  assert (flush = true → floor_at text safe0 = length text) as Hsafe.
  { intros Hf. unfold safe0. rewrite Hf, <- (Hfl Hf). by apply floor_at_fix. }
  destruct (Nat.leb_spec (sink_floor k safe0) (next_search_from k)) as [Hle|Hgt].
  { exists k. split; [done|]. split; [unfold sink_inv; by rewrite Hlim|]. intros Hf _. specialize (Hsafe Hf). specialize (Hfl Hf).
    unfold safe0 in *. rewrite Hf in *. rewrite (window_sink_floor k T), Hsafe in Hle by (done || lia).
    by replace (length text) with (next_search_from k) by lia. }
  assert (buffer_start k <= safe0)%nat as Hbs.
  { destruct (le_lt_dec (buffer_start k) safe0); [done|]. rewrite sink_floor_low in Hgt by lia. lia. }
  rewrite (window_sink_floor k T) in Hgt |- * by (done || lia).
  pose proof (floor_at_le text safe0) as Hfle. pose proof (floor_at_boundary text safe0 text_valid) as Hfb.
  set (safe_end := floor_at text safe0) in *. rewrite Nat.max_l by lia.
  destruct (Nat.leb_spec safe_end (next_search_from k)); [lia|].
  destruct (search_window k T safe_end Hk ltac:(lia)) as (se & -> & Hse1 & Hse2 & Hse & ->).
  destruct (Nat.leb_spec (se - buffer_start k) (next_search_from k - buffer_start k)); [lia|].
  destruct (scan_loop_ok k T Hk flush safe_end se Hse Hfb) with
    (found := find_iter (sk_query k) (slice (next_search_from k) se text)) (p := 0%nat) (hits := matches k)
    as (e & adv & hits & Hloop & Hpost); rewrite ?Nat.add_0_r in *; try done; try lia.
  { intros x y Hx Hm. destruct (match_bounds _ _ _ _ query_ne Hm) as [? ?]. unfold len in query_short.
    destruct flush; [specialize (Hfl eq_refl)|]; unfold MATCH_SLACK_BYTES in *; subst safe0; lia. }
  { rewrite w_query0. apply find_iter_spec; [done|done| |done]. apply utf8_slice; try done; lia. }
  rewrite Hloop. destruct e; cbn [scan_post] in Hpost.
  - destruct (advance_ok k T safe_end hits) as (k' & -> & Hk' & Hm); [done|lia|done|done|].
    exists k'. rewrite Hm. split_and!; [done|done|]. intros Hf _. by rewrite <- Hsafe.
  - destruct Hpost as (-> & Hadv & Hab & Hprog).
    destruct (advance_ok k T adv hits) as (k' & -> & Hk' & Hm); [done|lia|done|done|]. by exists k'.
  - eexists. split; [reflexivity|]. unfold sink_inv. cbn. done.
Qed.

(** ** Writing pieces *)

Lemma write_ok k piece T :
  sink_inv k T → (T + length piece <= length text)%nat → piece = slice T (T + length piece) text →
  at_boundary text (T + length piece) = true →
  ∃ k', write_str piece k = Some k' ∧ sink_inv k' (T + length piece).
Proof.
  intros Hinv Hl Hp Hb. unfold write_str. destruct piece as [|x piece].
  { exists k. rewrite Nat.add_0_r. done. }
  set (p := x :: piece) in *. unfold sink_inv in Hinv. cbn [limited with_window]. clearbody p.
  destruct (limited k) eqn:Hlim.
  { eexists. split; [reflexivity|]. unfold sink_inv. cbn. by rewrite Hlim. }
  destruct Hinv as [[] Hprog].
  assert (uadd T (length p) = (T + length p)%nat) as Hadd.
  { apply uadd_eq. unfold len in text_fits. unfold usize_max, u64_max. lia. }
  rewrite w_total0, Hadd. set (k1 := with_window _ _ _ _ _).
  assert (sink_inv k1 (T + length p)) as Hk1.
  { unfold sink_inv, k1. cbn. rewrite Hlim. split; [|done]. split; cbn; try done; [lia|].
    rewrite w_buffer0, Hp at 1. unfold slice. rewrite (Nat.add_comm T), Nat.add_sub.
    replace (drop T text) with (drop (T - buffer_start k) (drop (buffer_start k) text)) by (rewrite drop_drop; f_equal; lia).
    rewrite take_take_drop. f_equal. lia. }
  destruct (_ <=? _)%nat; [|by exists k1].
  destruct (scan_ok false k1 _ Hk1) as (k' & Hs & Hk' & _); [done|]. by exists k'.
Qed.

Lemma write_pieces_ok pieces : ∀ k pre,
  Forall (fun p => utf8_valid p = true) pieces → text = pre ++ concat pieces → sink_inv k (length pre) →
  ∃ k', write_pieces pieces k = Some k' ∧ sink_inv k' (length text).
Proof.
  induction pieces as [|p pieces IH]; intros k pre Hv Ht Hk; cbn [write_pieces concat] in *.
  - exists k. split; [done|]. by rewrite Ht, app_nil_r.
  - apply Forall_cons in Hv as [Hp Hv].
    assert (utf8_valid (concat pieces) = true) as Hc.
    { clear -Hv. induction Hv; [done|]. cbn [concat]. by apply utf8_valid_app. }
    assert (text = (pre ++ p) ++ concat pieces) as Ht' by (by rewrite <- app_assoc).
    destruct (write_ok k p (length pre)) as (k1 & -> & Hk1); [done| | | |].
    + rewrite Ht, !length_app. lia.
    + rewrite Ht. unfold slice. rewrite drop_app_length, (Nat.add_comm (length pre)), Nat.add_sub, take_app_length. done.
    + rewrite Ht', <- length_app. by apply boundary_between.
    + cbn [mbind option_bind]. apply (IH k1 (pre ++ p)); [done|done|]. by rewrite length_app.
Qed.

Lemma finished_ok k T :
  sink_inv k T → (limited k = false → progress (length text) (matches k)) →
  text_hits text ctx all [] = Some (matches k, limited k).
Proof.
  intros Hinv Hprog. rewrite text_hits_eq by (eauto using iter_forall || (unfold MAX_TEXT_QUERY_HITS; cbn; lia)).
  cbn [length app]. rewrite Nat.sub_0_r. unfold sink_inv in Hinv. destruct (limited k).
  - destruct Hinv as [Hl ->]. by rewrite (proj2 (Nat.ltb_lt _ _) Hl).
  - destruct (Hprog eq_refl) as (ds & rest & Hall & Hi & -> & Hl).
    assert (rest = []) as ->.
    { inversion Hi as [|? a b ? Ha Hm]; [done|]. destruct (match_bounds _ _ _ _ query_ne Hm). lia. }
    rewrite app_nil_r in Hall. rewrite Hall, take_ge by done.
    by rewrite (proj2 (Nat.ltb_ge _ _) Hl).
Qed.

End Stream.

(** ** The theorem *)

Lemma validated_query raw query :
  validate_text_query (Some raw) = Ok (Some query) → utf8_valid query = true →
  query ≠ [] ∧ len query <= 1024.
Proof.
  cbn [validate_text_query]. case_bool_decide as Hn; [done|].
  destruct (Nat.ltb_spec 256 (chars_count (trim raw))) as [|Hc]; [done|]. intros Hq Hv.
  assert (trim raw = query) as <- by congruence. split; [done|].
  pose proof (valid_chars_bound _ Hv). unfold len. lia.
Qed.

Lemma clamp_context_small requested : Z.of_nat (clamp_context requested) <= 1024.
Proof. unfold clamp_context, MAX_CONTEXT_BYTES. lia. Qed.

Lemma search_pieces_exact `{Matcher} (query : str) (ctx : nat) (pieces : list str) :
  query ≠ [] → len query <= 1024 → Z.of_nat ctx <= 1024 → utf8_valid query = true → build query = Ok tt →
  Forall (fun p => utf8_valid p = true) pieces → len (concat pieces) <= 2 ^ 63 →
  ∃ start k,
    new_sink query ctx = Ok start ∧ search_pieces pieces start = Some k ∧
    text_matches (concat pieces) query ctx = Some (matches k, limited k).
Proof.
  intros Hne Hshort Hctx Hqv Hb Hps Hlen.
  assert (utf8_valid (concat pieces) = true) as Hv.
  { clear -Hps. induction Hps; [done|]. cbn [concat]. by apply utf8_valid_app. }
  pose proof (find_iter_spec query _ Hne Hqv Hv Hb) as Hall.
  unfold new_sink, text_matches, search_pieces. rewrite Hb. eexists.
  destruct (write_pieces_ok query (concat pieces) ctx Hne Hshort Hctx Hlen Hv Hqv Hb _ Hall pieces
    {| sk_query := query; context_bytes := ctx; max_match_bytes := uadd (umul (length query) 4) 64;
       buffer := []; buffer_start := 0; next_search_from := 0; total_len := 0; matches := []; limited := false |} [])
    as (k1 & Hw & Hk1); [done|done| |].
  { unfold sink_inv. cbn. split.
    - split; cbn; try done; try (by apply valid_boundary_0).
      unfold len in Hshort. unfold uadd, umul, usize_max, u64_max. lia.
    - exists [], (find_iter query (concat pieces)). split_and!; try done. cbn. unfold MAX_TEXT_QUERY_HITS. lia. }
  destruct (scan_ok query (concat pieces) ctx Hne Hshort Hctx Hlen Hv Hqv Hb _ Hall true k1 _ Hk1)
    as (k & Hs & Hk & Hfin); [done|].
  exists k. split; [done|]. rewrite Hw. cbn [mbind option_bind]. split; [done|].
  by eapply finished_ok; eauto.
Qed.

(** C25: For every query the tool accepts, every requested context and every way the
    redacted text is cut into pieces, the streaming search panics nowhere and
    reports exactly the hits (offsets, snippets, matched texts) and the limit flag
    of the search in the whole text. *)
Theorem stream_search_exact `{Matcher} (raw query : str) (requested : option nat) (pieces : list str) :
  validate_text_query (Some raw) = Ok (Some query) → utf8_valid query = true → build query = Ok tt →
  Forall (fun p => utf8_valid p = true) pieces → len (concat pieces) <= 2 ^ 63 →
  ∃ start k,
    new_sink query (clamp_context requested) = Ok start ∧
    search_pieces pieces start = Some k ∧
    text_matches (concat pieces) query (clamp_context requested) = Some (matches k, limited k).
Proof.
  intros Hraw Hqv Hb Hps Hlen. destruct (validated_query _ _ Hraw Hqv) as [Hne Hshort].
  apply search_pieces_exact; auto using clamp_context_small.
Qed.

(** ** A concrete matcher: letters fold to themselves *)

Fixpoint find_all (fuel : nat) (q text : str) (i : nat) : list (nat * nat) :=
  match fuel with
  | O => []
  | S fuel =>
      match find (drop i text) q with
      | None => []
      | Some n => ((i + n)%nat, (i + n + length q)%nat) :: find_all fuel q text (i + n + length q)
      end
  end.

Definition same_char (c d : bytes) : Prop := c = d ∧ char d.

Lemma variant_same q w : utf8_valid q = true → Variant same_char q w ↔ w = q.
Proof.
  intros Hv. split.
  - induction 1 as [|c d q w Hc [-> Hd] _ IH]; [done|]. f_equal. apply IH. by rewrite (char_skip _ Hd) in Hv.
  - intros ->. remember (length q) as n eqn:Hn. assert (length q <= n)%nat as Hle by lia. clear Hn. revert q Hv Hle.
    induction n as [|n IH]; intros [|a q] Hv Hle; [constructor|simpl in Hle; lia|constructor|].
    destruct (utf8_first a q Hv) as (ch & r & Heq & Hc & Hr). rewrite Heq in *.
    pose proof (char_short _ Hc). rewrite length_app in Hle. constructor; [done|done|]. apply IH; [done|lia].
Qed.

Lemma match_same q text a b :
  utf8_valid q = true →
  match_at same_char q text a b ↔ (∃ r, drop a text = q ++ r) ∧ b = (a + length q)%nat ∧ (a <= length text)%nat.
Proof.
  intros Hv. unfold match_at. rewrite variant_same by done. split.
  - intros [Hab Hs]. pose proof (f_equal length Hs) as Hl. rewrite length_slice in Hl by lia.
    split_and!; [|lia|lia]. exists (drop b text). rewrite <- Hs. apply slice_prefix. lia.
  - intros ((r & Hr) & -> & Ha). pose proof (f_equal length Hr) as Hl. rewrite length_drop, length_app in Hl.
    split; [lia|]. unfold slice. rewrite Hr. replace (a + length q - a)%nat with (length q) by lia. apply take_app_length.
Qed.

Lemma find_all_iter q text fuel i :
  q ≠ [] → utf8_valid q = true → (length text < fuel + i)%nat → (i <= length text)%nat →
  Iter same_char q text i (find_all fuel q text i).
Proof.
  intros Hne Hv. assert (1 <= length q)%nat by (destruct q; [done|simpl; lia]). revert i.
  induction fuel as [|fuel IH]; intros i Hf Hi; [lia|]. cbn [find_all].
  destruct (find (drop i text) q) as [n|] eqn:Hn.
  - apply find_Some in Hn as (l & r & Hd & <- & Hmin). pose proof (f_equal length Hd) as Hl.
    rewrite length_drop, !length_app in Hl.
    constructor; [lia| | |apply IH; lia].
    + apply match_same; [done|]. split_and!; [|done|lia]. exists r. by rewrite <- drop_drop, Hd, drop_app_length.
    + intros x y Hx Hm. apply match_same in Hm as ((t & Ht) & _ & _); [|done].
      specialize (Hmin (take (x - i) (drop i text)) t). rewrite length_take, length_drop in Hmin.
      assert (length l <= (x - i) `min` (length text - i))%nat; [apply Hmin|lia].
      rewrite <- Ht. replace x with (i + (x - i))%nat at 2 by lia. by rewrite <- drop_drop, take_drop.
  - constructor. intros a b Ha Hm. apply match_same in Hm as ((t & Ht) & _ & _); [|done].
    rewrite find_None in Hn. apply (Hn (take (a - i) (drop i text)) t).
    rewrite <- Ht. replace a with (i + (a - i))%nat at 2 by lia. by rewrite <- drop_drop, take_drop.
Qed.

#[export] Instance exact_matcher : Matcher.
Proof.
  refine {| folds := same_char; build _ := Ok tt; find_iter q text := find_all (S (length text)) q text 0 |}.
  - by intros c d [_ Hd].
  - intros q text Hne Hv _ _. apply find_all_iter; [done|done|lia|lia].
Defined.

Definition sample_pieces : list str := [lit "{"; lit "'id':'to"; lit "ken 1'"; lit ",'b':'token'}"].

Lemma stream_search_exact_witness :
  ∃ k, matches k = [{| offsetBytes := 7; snippet := lit "':'token 1'"; matched := lit "token" |};
                    {| offsetBytes := 21; snippet := lit "':'token'}"; matched := lit "token" |}] ∧
    limited k = false ∧
    text_matches (concat sample_pieces) (lit "token") 3 = Some (matches k, limited k).
Proof.
  destruct (stream_search_exact (lit " token ") (lit "token") (Some 3%nat) sample_pieces) as (k0 & k & Hn & Hs & Ht);
    [vm_compute; reflexivity|reflexivity|reflexivity|repeat (constructor; [vm_compute; reflexivity|]); constructor
    |vm_compute; discriminate|].
  exists k. change (clamp_context (Some 3%nat)) with 3%nat in Ht. 
  assert (Some (matches k, limited k) = Some (
    [{| offsetBytes := 7; snippet := lit "':'token 1'"; matched := lit "token" |};
     {| offsetBytes := 21; snippet := lit "':'token'}"; matched := lit "token" |}], false)) as He
    by (rewrite <- Ht; vm_compute; reflexivity).
  split_and!; [congruence|congruence|exact Ht].
Defined.
