(* ===== verification/Redaction.v ===== *)
(** * Redaction: what the MCP server hides from an agent

    Models src/crates/mcp-server/src/redaction.rs: the classification of field
    names, the redaction of scalars, texts, headers, URLs and JSON documents, and
    the records of what was redacted.  The redaction of a document while it is
    being read (tools/text_search.rs) is modelled next to it: it writes the text
    of the redacted document piece by piece.

    The regular expressions, the case mapping of Unicode, HMAC-SHA-256 and
    serde_json are an interface ([RedactionEnv]). *)

From S2P Require Import Prelude Str JsonPath Rewrite Utf8.

(** ** Definitions: records *)

Definition REDACTED_VALUE : str := lit "[REDACTED]".

Record HeaderEntry := { he_name : str; he_value : str; he_is_pseudo : option bool }.

Record RedactionRecord := { rr_path : str; rr_rule : str; rr_action : str }.

#[export] Instance RedactionRecord_eq_dec : EqDecision RedactionRecord.
Proof. solve_decision. Defined.

Record RedactionOutput (T : Type) := { ro_value : T; ro_fields : list str; ro_records : list RedactionRecord }.
Arguments ro_value {T}.
Arguments ro_fields {T}.
Arguments ro_records {T}.

Inductive Sensitivity := Secret | Identifier | Pii.

Record Classification := { cl_rule : str; cl_sensitivity : Sensitivity }.

Inductive RedactionAction := Redact | Hash.

Record RedactionPattern := { rp_name : str; rp_pattern : str; rp_action : RedactionAction }.

Record AgentAccessRedaction := {
  detect_sensitive_values : bool; hash_identifiers : bool; custom_sensitive_keys : list str;
  custom_patterns : list RedactionPattern
}.

Definition default_redaction : AgentAccessRedaction :=
  {| detect_sensitive_values := true; hash_identifiers := true; custom_sensitive_keys := []; custom_patterns := [] |}.

(** One match of a regular expression: its place and the texts of its groups
    (group 0 is the whole match). *)
Record Captures := { cap_start : nat; cap_end : nat; cap_groups : list (option str) }.

Definition cap_get (c : Captures) (i : nat) : option str := mjoin (cap_groups c !! i).

(** The compact text of a document, for a printer of strings and numbers. *)
Section Compact.
Context {number : Type} (quote : str → str) (number_text : number → str).

Section Sep.
Context {V : Type} (print : V → str).
Fixpoint comma_separated (first : bool) (items : list V) : str :=
  match items with
  | [] => []
  | v :: items => (if first then [] else lit ",") ++ print v ++ comma_separated false items
  end.
End Sep.

Fixpoint compact (v : value number) : str :=
  match v with
  | Null => lit "null"
  | Bool b => if b then lit "true" else lit "false"
  | Number n => number_text n
  | String s => quote s
  | Array items => lit "[" ++ comma_separated compact true items ++ lit "]"
  | Object o =>
      lit "{" ++ comma_separated (fun kv => let '(key, v) := kv in quote key ++ lit ":" ++ compact v) true o ++ lit "}"
  end.
End Compact.

Class RedactionEnv (number : Type) := {
  (** [str::to_lowercase] *)
  to_lowercase : str → str;
  (** regex: [Regex::new], [captures_iter], [is_match] *)
  rx : Type;
  rx_new : str → result rx str;
  rx_captures : rx → str → list Captures;
  rx_is_match : rx → str → bool;
  (** HMAC-SHA-256 of a message under a key *)
  hmac_sha256 : bytes → bytes → bytes;
  (** serde_json: parsing of a document, of a string, of header entries *)
  from_str : str → option (value number);
  string_from_str : str → option str;
  entries_from_str : str → option (list HeaderEntry);
  (** serde_json: printing of a string, of a number and of a document *)
  quote : str → str;
  number_text : number → str;
  to_string : value number → str;
  (** [Display] of the machine number the deserializer hands to a visitor; it
      prints an integer as JSON does, but not every float *)
  visit_text : number → str;
  integral : number → bool;
  integral_text n : integral n = true → visit_text n = number_text n;
  to_string_compact v : to_string v = compact quote number_text v;
  (** printed JSON is a [String] *)
  quote_utf8 s : utf8_valid (quote s) = true;
  number_utf8 n : utf8_valid (number_text n) = true
}.

(** ** Definitions: names *)

(** [char::is_ascii_alphanumeric], or a byte of a character that is not ASCII *)
Definition name_byte (b : byte) : bool :=
  ((48 <=? b) && (b <=? 57)) || ((65 <=? b) && (b <=? 90)) || ((97 <=? b) && (b <=? 122)) || (128 <=? b).

Definition is_one_of (s : str) (names : list str) : bool := bool_decide (s ∈ names).

Definition is_secret_name (name : str) : bool :=
  is_one_of name
    [lit "authorization"; lit "proxyauthorization"; lit "cookie"; lit "setcookie"; lit "xapikey"; lit "apikey";
     lit "xauthtoken"; lit "xcsrftoken"; lit "xxsrftoken"; lit "accesstoken"; lit "refreshtoken"; lit "idtoken";
     lit "password"; lit "passwd"; lit "secret"; lit "clientsecret"; lit "privatekey"; lit "csrf"; lit "xsrf";
     lit "jwt"; lit "pwd"; lit "sig"; lit "signature"; lit "xamzsignature"; lit "xgoogsignature"; lit "authkey";
     lit "xauthkey"]
  || contains name (lit "token")
  || contains name (lit "password")
  || contains name (lit "passwd")
  || contains name (lit "secret")
  || contains name (lit "privatekey")
  || contains name (lit "apikey")
  || contains name (lit "csrf")
  || ends_with name (lit "signature")
  || ends_with name (lit "sig")
  || ends_with name (lit "authkey")
  || contains name (lit "密码")
  || contains name (lit "口令")
  || contains name (lit "令牌")
  || contains name (lit "密钥")
  || contains name (lit "签名").

Definition is_identifier_name (name : str) : bool :=
  is_one_of name
    [lit "session"; lit "sessionid"; lit "sessionkey"; lit "userid"; lit "uid"; lit "deviceid";
     lit "advertisingid"; lit "idfa"; lit "idfv"; lit "oaid"; lit "imei"; lit "androidid"; lit "udid";
     lit "installid"].

Definition is_pii_name (normalized original : str) : bool :=
  contains normalized (lit "email")
  || contains normalized (lit "mail")
  || contains normalized (lit "phone")
  || contains normalized (lit "mobile")
  || contains normalized (lit "address")
  || contains normalized (lit "shipping")
  || contains normalized (lit "receiver")
  || contains original (lit "邮箱")
  || contains original (lit "手机号")
  || contains original (lit "收货地址").

Definition hex_digit (d : Z) : byte := if d <? 10 then 48 + d else 87 + d.
Definition hex_prefix (b : bytes) (length : nat) : str :=
  concat (map (fun x => [hex_digit (x / 16); hex_digit (x mod 16)]) (take length b)).

(** ** Definitions: order of records *)

(** [Ord] of [str]: by bytes. *)
Fixpoint str_leb (s t : str) : bool :=
  match s, t with
  | [], _ => true
  | _ :: _, [] => false
  | a :: s, b :: t => (a <? b) || ((a =? b) && str_leb s t)
  end.

Definition record_leb (l r : RedactionRecord) : bool :=
  if bool_decide (rr_path l = rr_path r) then
    if bool_decide (rr_rule l = rr_rule r) then str_leb (rr_action l) (rr_action r)
    else str_leb (rr_rule l) (rr_rule r)
  else str_leb (rr_path l) (rr_path r).

Section Sort.
Context {A : Type} (leb : A → A → bool) `{EqDecision A}.

Fixpoint insert_sorted (x : A) (l : list A) : list A :=
  match l with
  | [] => [x]
  | y :: l => if leb x y then x :: y :: l else y :: insert_sorted x l
  end.

(** [Vec::sort_by] *)
Definition sort_by (l : list A) : list A := foldr insert_sorted [] l.

(** [Vec::dedup] *)
Fixpoint dedup (l : list A) : list A :=
  match l with
  | x :: (y :: _) as l' => if decide (x = y) then dedup l' else x :: dedup l'
  | l => l
  end.
End Sort.

(** ** Definitions: the redactor *)

Section Redactor.
Context {number : Type} `{RedactionEnv number}.

Record CompiledPattern := { cp_name : str; cp_regex : rx; cp_action : RedactionAction }.

Record Redactor := { hash_key : bytes; redaction : AgentAccessRedaction; compiled : list CompiledPattern }.

Fixpoint compile_patterns (rules : list RedactionPattern) : result (list CompiledPattern) str :=
  match rules with
  | [] => Ok []
  | rule :: rules =>
      if (512 <? len (rp_pattern rule)) then
        Err (lit "redaction pattern '" ++ rp_name rule ++ lit "' exceeds 512 characters")
      else
        let? regex :=
          map_err (fun error => lit "invalid redaction pattern '" ++ rp_name rule ++ lit "': " ++ error)
            (rx_new (rp_pattern rule)) in
        let? compiled := compile_patterns rules in
        Ok ({| cp_name := rp_name rule; cp_regex := regex; cp_action := rp_action rule |} :: compiled)
  end.

(** [key] stands for [load_hash_key]. *)
Definition from_config (key : bytes) (config : AgentAccessRedaction) : result Redactor str :=
  let? compiled := compile_patterns (custom_patterns config) in
  Ok {| hash_key := key; redaction := config; compiled := compiled |}.

Definition output {T} (value : T) (records : list RedactionRecord) : RedactionOutput T :=
  let records := dedup (sort_by record_leb records) in
  {| ro_value := value; ro_fields := dedup (sort_by str_leb (map rr_rule records)); ro_records := records |}.

Section With.
Context (self : Redactor).

Definition pseudonym (kind value : str) : str :=
  lit "[" ++ kind ++ lit ":" ++ hex_prefix (hmac_sha256 (hash_key self) (kind ++ [0] ++ value)) 8 ++ lit "]".

Definition normalized_name (lower : str) : str := List.filter name_byte lower.

Definition is_custom_key (lower normalized : str) : bool :=
  existsb (fun key => bool_decide (key = lower) || bool_decide (key = normalized))
    (custom_sensitive_keys (redaction self)).

Definition classify (name : str) : option Classification :=
  let lower := to_lowercase (trim name) in
  let normalized := normalized_name lower in
  if is_custom_key lower normalized then
    Some {| cl_rule := lit "custom:" ++ normalized; cl_sensitivity := Secret |}
  else if is_secret_name normalized then Some {| cl_rule := normalized; cl_sensitivity := Secret |}
  else if is_identifier_name normalized then Some {| cl_rule := normalized; cl_sensitivity := Identifier |}
  else if is_pii_name normalized lower then Some {| cl_rule := normalized; cl_sensitivity := Pii |}
  else None.

Definition is_sensitive_name (name : str) : bool := bool_decide (classify name ≠ None).
Definition is_sensitive_value_name (name : str) : bool := bool_decide (classify name ≠ None).

(** ** Texts *)

(** The patterns of the static regular expressions. *)
Definition dq : str := [34].

Definition text_secret_pattern : str :=
  lit "(?i)\b(authorization|cookie|set-cookie|api[_-]?key|x-api-key|auth[_-]?key|access[_-]?token|refresh[_-]?token|id[_-]?token|token|password|passwd|pwd|client[_-]?secret|secret|csrf|xsrf|jwt|signature|sig|x-amz-signature|x-goog-signature|密码|口令|令牌|密钥)(\s*[:=]\s*)("
  ++ dq ++ lit "(?:[^" ++ dq ++ lit "\\]|\\.)*" ++ dq ++ lit "|[^" ++ dq ++ lit "\r\n,;]+)".

Definition json_quoted_secret_pattern : str :=
  lit "(?i)" ++ dq ++ lit "((?:[^" ++ dq ++ lit "\\]|\\.)*)" ++ dq ++ lit "(\s*:\s*)(" ++ dq ++ lit "(?:[^" ++ dq
  ++ lit "\\]|\\.)*" ++ dq
  ++ lit "|[-+]?\d+(?:\.\d+)?(?:[eE][-+]?\d+)?|true|false|null|\{[^{}]*\}|\[[^\[\]]*\])".

Definition bearer_pattern : str := lit "(?i)(bearer\s+)[A-Za-z0-9._~+/=-]+".
Definition jwt_pattern : str := lit "\beyJ[A-Za-z0-9_-]{8,}\.[A-Za-z0-9_-]{8,}\.[A-Za-z0-9_-]{8,}\b".
Definition email_pattern : str := lit "[A-Za-z0-9._%+\-]+@[A-Za-z0-9.\-]+\.[A-Za-z]{2,}".
Definition phone_pattern : str := lit "\b(?:\+?86[- ]?)?1[3-9][0-9]{9}\b".

(** [Regex::replace_all] with a closure that records what it replaces. *)
Fixpoint replace_go (text : str) (last : nat) (found : list Captures)
    (f : Captures → list RedactionRecord → str * list RedactionRecord) (records : list RedactionRecord)
    : str * list RedactionRecord :=
  match found with
  | [] => (drop last text, records)
  | c :: found =>
      let '(replacement, records) := f c records in
      let '(rest, records) := replace_go text (cap_end c) found f records in
      (slice last (cap_start c) text ++ replacement ++ rest, records)
  end.

Definition replace_all (regex : rx) (text : str)
    (f : Captures → list RedactionRecord → str * list RedactionRecord) (records : list RedactionRecord)
    : str * list RedactionRecord :=
  replace_go text 0 (rx_captures regex text) f records.

(** A pass with a static regular expression ([Regex::new(..).ok()]). *)
Definition static_pass (pattern : str) (f : Captures → list RedactionRecord → str * list RedactionRecord)
    (st : str * list RedactionRecord) : str * list RedactionRecord :=
  match rx_new pattern with
  | Ok regex => replace_all regex st.1 f st.2
  | Err _ => st
  end.

Definition matches_static (pattern value : str) : bool :=
  match rx_new pattern with Ok regex => rx_is_match regex value | Err _ => false end.

Definition looks_like_email (value : str) : bool := matches_static email_pattern value.
Definition looks_like_phone (value : str) : bool := matches_static phone_pattern value.

Definition decode_json_key (raw : str) : str := default raw (string_from_str (dq ++ raw ++ dq)).

Definition push (records : list RedactionRecord) (path rule action : str) : list RedactionRecord :=
  records ++ [{| rr_path := path; rr_rule := rule; rr_action := action |}].

Definition redact_text_secret (path : str) (c : Captures) (records : list RedactionRecord) :=
  let key := default [] (cap_get c 1) in
  (key ++ default [] (cap_get c 2) ++ REDACTED_VALUE, push records path (to_lowercase key) (lit "redact")).

Definition redact_quoted_secret (path : str) (c : Captures) (records : list RedactionRecord) :=
  let key := default [] (cap_get c 1) in
  let lower := to_lowercase (trim (decode_json_key key)) in
  let normalized := normalized_name lower in
  let is_custom := is_custom_key lower normalized in
  if negb is_custom && negb (is_secret_name normalized) then (default [] (cap_get c 0), records)
  else
    (dq ++ key ++ dq ++ default [] (cap_get c 2) ++ dq ++ REDACTED_VALUE ++ dq,
     push records path (if is_custom then lit "custom:" ++ normalized else normalized) (lit "redact")).

Definition redact_bearer (path : str) (c : Captures) (records : list RedactionRecord) :=
  (default [] (cap_get c 1) ++ REDACTED_VALUE, push records path (lit "authorization") (lit "redact")).

Definition redact_jwt (path : str) (c : Captures) (records : list RedactionRecord) :=
  (lit "[REDACTED:jwt]", push records path (lit "jwt") (lit "redact")).

Definition redact_detected (path rule kind : str) (c : Captures) (records : list RedactionRecord) :=
  let matched := default [] (cap_get c 0) in
  (if hash_identifiers (redaction self) then pseudonym kind matched else REDACTED_VALUE,
   push records path rule (if hash_identifiers (redaction self) then lit "hash" else lit "redact")).

Definition redact_custom (path : str) (pattern : CompiledPattern) (c : Captures) (records : list RedactionRecord) :=
  let matched := default [] (cap_get c 0) in
  let hashed := match cp_action pattern with Redact => false | Hash => hash_identifiers (redaction self) end in
  (if hashed then pseudonym (cp_name pattern) matched else REDACTED_VALUE,
   push records path (cp_name pattern) (if hashed then lit "hash" else lit "redact")).

Fixpoint custom_passes (path : str) (patterns : list CompiledPattern) (st : str * list RedactionRecord) :=
  match patterns with
  | [] => st
  | pattern :: patterns =>
      custom_passes path patterns (replace_all (cp_regex pattern) st.1 (redact_custom path pattern) st.2)
  end.

Definition redact_string_inner (value path : str) (records : list RedactionRecord) : str * list RedactionRecord :=
  let st := static_pass text_secret_pattern (redact_text_secret path) (value, records) in
  let st := static_pass json_quoted_secret_pattern (redact_quoted_secret path) st in
  let st := static_pass bearer_pattern (redact_bearer path) st in
  let st :=
    if detect_sensitive_values (redaction self) then
      let st := static_pass jwt_pattern (redact_jwt path) st in
      let st := static_pass email_pattern (redact_detected path (lit "email") (lit "EMAIL")) st in
      static_pass phone_pattern (redact_detected path (lit "phone") (lit "PHONE")) st
    else st in
  custom_passes path (compiled self) st.

Definition redact_scalar (value path : str) (c : Classification) (records : list RedactionRecord)
    : str * list RedactionRecord :=
  let '(action, out) :=
    match cl_sensitivity c with
    | Secret => (lit "redact", REDACTED_VALUE)
    | Identifier =>
        if hash_identifiers (redaction self) then (lit "hash", pseudonym (lit "ID") value)
        else (lit "redact", REDACTED_VALUE)
    | Pii =>
        if hash_identifiers (redaction self) && looks_like_email value then
          (lit "hash", pseudonym (lit "EMAIL") value)
        else if hash_identifiers (redaction self) && looks_like_phone value then
          (lit "hash", pseudonym (lit "PHONE") value)
        else (lit "redact", REDACTED_VALUE)
    end in
  (out, push records path (cl_rule c) action).

(** ** JSON documents *)

Definition show_bool (b : bool) : str := if b then lit "true" else lit "false".

Definition redact_json_field (key : str) (v : value number) (path : str) (records : list RedactionRecord)
    : option (value number * list RedactionRecord) :=
  match classify key with
  | None => None
  | Some c =>
      let '(rendered, records) :=
        match v with
        | String text => redact_scalar text path c records
        | Number n => redact_scalar (number_text n) path c records
        | Bool b => redact_scalar (show_bool b) path c records
        | Null => (REDACTED_VALUE, records)
        | Array _ | Object _ => (REDACTED_VALUE, push records path (cl_rule c) (lit "redact"))
        end in
      Some (String rendered, records)
  end.

Section Walk.
Context {V : Type} (f : str → V → list RedactionRecord → V * list RedactionRecord).

Fixpoint walk_items (index : Z) (items : list V) (records : list RedactionRecord) : list V * list RedactionRecord :=
  match items with
  | [] => ([], records)
  | v :: items =>
      let '(v, records) := f (lit "[" ++ show index ++ lit "]") v records in
      let '(items, records) := walk_items (index + 1) items records in
      (v :: items, records)
  end.

Fixpoint walk_fields (o : list (str * V)) (records : list RedactionRecord)
    : list (str * V) * list RedactionRecord :=
  match o with
  | [] => ([], records)
  | (key, v) :: o =>
      let '(v, records) := f key v records in
      let '(o, records) := walk_fields o records in
      ((key, v) :: o, records)
  end.
End Walk.

Fixpoint redact_json_value_inner (v : value number) (path : str) (records : list RedactionRecord)
    : value number * list RedactionRecord :=
  match v with
  | Object o =>
      let '(o, records) :=
        walk_fields (fun key v records =>
          let next := path ++ lit "." ++ key in
          match redact_json_field key v next records with
          | Some out => out
          | None => redact_json_value_inner v next records
          end) o records in
      (Object o, records)
  | Array items =>
      let '(items, records) :=
        walk_items (fun index v records => redact_json_value_inner v (path ++ index) records) 0 items records in
      (Array items, records)
  | String text =>
      let '(text, records) := redact_string_inner text path records in (String text, records)
  | v => (v, records)
  end.

Definition redact_json_value (v : value number) (path : str) (records : list RedactionRecord) :=
  redact_json_value_inner v path records.

(** ** Named values, headers and URLs *)

Definition redact_text_value (value path : str) (records : list RedactionRecord) : str * list RedactionRecord :=
  redact_string_inner value path records.

Definition redact_named_scalar (name value path : str) (records : list RedactionRecord)
    : str * list RedactionRecord :=
  match classify name with
  | Some c => redact_scalar value path c records
  | None => redact_string_inner value path records
  end.

Definition redact_named_container (name path : str) (records : list RedactionRecord) : str * list RedactionRecord :=
  let rule := match classify name with Some c => cl_rule c | None => to_lowercase (trim name) end in
  (REDACTED_VALUE, push records path rule (lit "redact")).

Definition redact_named_value (name value : str) : RedactionOutput str :=
  let '(redacted, records) := redact_named_scalar name value (lit "value:" ++ name) [] in
  output redacted records.

(** The closures of [redact_headers_json] and [redact_key_value_json]. *)
Fixpoint redact_entries (prefix : str) (entries : list HeaderEntry) (records : list RedactionRecord)
    : list HeaderEntry * list RedactionRecord :=
  match entries with
  | [] => ([], records)
  | e :: entries =>
      let '(v, records) :=
        redact_named_scalar (he_name e) (he_value e) (prefix ++ to_lowercase (he_name e)) records in
      let '(entries, records) := redact_entries prefix entries records in
      ({| he_name := he_name e; he_value := v; he_is_pseudo := he_is_pseudo e |} :: entries, records)
  end.

Definition redact_headers_json (json : str) : RedactionOutput (list HeaderEntry) :=
  let '(headers, records) := redact_entries (lit "header:") (default [] (entries_from_str json)) [] in
  output headers records.

Definition redact_key_value_json (json : str) : RedactionOutput (list HeaderEntry) :=
  let '(entries, records) := redact_entries (lit "query:") (default [] (entries_from_str json)) [] in
  output entries records.

Definition redact_cookie_headers (headers : list HeaderEntry) : RedactionOutput (list HeaderEntry) :=
  output
    (map (fun h => {| he_name := he_name h; he_value := REDACTED_VALUE; he_is_pseudo := he_is_pseudo h |}) headers)
    (map (fun h => {| rr_path := lit "cookie:" ++ to_lowercase (he_name h); rr_rule := lit "cookie";
                      rr_action := lit "redact" |}) headers).

Definition redact_pair (pair : str) : str :=
  match split_once (chr "=") pair with
  | None => pair
  | Some (key, value) => key ++ lit "=" ++ (redact_named_scalar key value (lit "url.query." ++ key) []).1
  end.

Definition redact_url (url : str) : str :=
  match split_once (chr "?") url with
  | None => url
  | Some (base, query) => base ++ lit "?" ++ join (chr "&") (map redact_pair (split (chr "&") query))
  end.

(** ** Bodies *)

Fixpoint find_bracket (s : str) : option nat :=
  match s with
  | [] => None
  | c :: s => if (c =? chr "{") || (c =? chr "[") then Some 0%nat else S <$> find_bracket s
  end.

(** [trim_end_matches(['\r', ' ', '\t'])], on the reversed text *)
Fixpoint drop_line_end (s : str) : str :=
  match s with
  | c :: s' => if (c =? 13) || (c =? 32) || (c =? 9) then drop_line_end s' else s
  | [] => []
  end.

Definition split_json_segment (line : str) : option (str * str * str) :=
  match find_bracket line with
  | None => None
  | Some start =>
      if (32 <? start)%nat then None
      else
        let rest := drop start line in
        let trimmed := rev (drop_line_end (rev rest)) in
        Some (take start line, trimmed, drop (length trimmed) rest)
  end.

Definition redact_json_line (line : str) (records : list RedactionRecord) : str * list RedactionRecord :=
  match split_json_segment line with
  | None => (line, records)
  | Some (prefix, candidate, suffix) =>
      match from_str candidate with
      | None => (line, records)
      | Some v =>
          let '(v, records') := redact_json_value_inner v (lit "$") records in
          if (length records' =? length records)%nat then (line, records')
          else (prefix ++ to_string v ++ suffix, records')
      end
  end.

Fixpoint redact_lines (lines : list str) (records : list RedactionRecord) : list str * list RedactionRecord :=
  match lines with
  | [] => ([], records)
  | line :: lines =>
      let '(line, records) := redact_json_line line records in
      let '(lines, records) := redact_lines lines records in
      (line :: lines, records)
  end.

Definition redact_non_json_text (text : str) : RedactionOutput str :=
  let '(lines, records) := redact_lines (split 10 text) [] in
  let '(out, records) := redact_string_inner (join 10 lines) (lit "$text") records in
  output out records.

Definition redact_text (text : str) : RedactionOutput str :=
  match from_str text with
  | Some v =>
      let '(v, records) := redact_json_value_inner v (lit "$") [] in
      output (to_string v) records
  | None => redact_non_json_text text
  end.
End With.
End Redactor.

(** ** Induction on documents *)

Lemma value_ind' {number : Type} (P : value number → Prop) :
  P Null → (∀ b, P (Bool b)) → (∀ n, P (Number n)) → (∀ s, P (String s)) →
  (∀ items, Forall P items → P (Array items)) →
  (∀ o, Forall (fun kv => P kv.2) o → P (Object o)) → ∀ v, P v.
Proof.
  intros Hn Hb Hi Hs Ha Ho. fix IH 1. intros [|b|n|s|items|o]; [done|done|done|done| |].
  - apply Ha. induction items as [|v items IHl]; constructor; [apply IH|exact IHl].
  - apply Ho. induction o as [|[k v] o IHl]; constructor; [apply IH|exact IHl].
Qed.

(** ** Where a record comes from

    The redacted text of a string does not depend on where it stands or on what
    was redacted before; its records carry the place. *)

Section Facts.
Context {number : Type} `{RedactionEnv number} (self : Redactor).

Definition record_at (path : str) (ra : str * str) : RedactionRecord :=
  {| rr_path := path; rr_rule := ra.1; rr_action := ra.2 |}.

Definition uniform (f : str → list RedactionRecord → str * list RedactionRecord) : Prop :=
  ∃ t ds, ∀ path records, f path records = (t, records ++ map (record_at path) ds).

Definition uniform_step (f : str → str * list RedactionRecord → str * list RedactionRecord) : Prop :=
  ∀ t, uniform (fun path records => f path (t, records)).

Lemma uniform_comp f g :
  uniform f → uniform_step g → uniform (fun path records => g path (f path records)).
Proof.
  intros (t & ds & Hf) Hg. destruct (Hg t) as (t' & ds' & Hg'). exists t', (ds ++ ds'). intros path records.
  rewrite Hf, Hg', map_app, app_assoc. done.
Qed.

Lemma uniform_replace (regex : rx) (f : str → Captures → list RedactionRecord → str * list RedactionRecord) :
  (∀ c, uniform (fun path => f path c)) → uniform_step (fun path st => replace_all regex st.1 (f path) st.2).
Proof.
  intros Hf t. unfold replace_all. cbn [fst snd]. generalize 0%nat.
  induction (rx_captures regex t) as [|c found IH]; intros last.
  - exists (drop last t), []. intros path records. cbn. by rewrite app_nil_r.
  - destruct (Hf c) as (r & ds & Hr). destruct (IH (cap_end c)) as (t' & ds' & Ht).
    exists (slice last (cap_start c) t ++ r ++ t'), (ds ++ ds'). intros path records. cbn [replace_go].
    rewrite Hr, Ht, map_app, <- (app_assoc records). done.
Qed.

Lemma uniform_static pattern (f : str → Captures → list RedactionRecord → str * list RedactionRecord) :
  (∀ c, uniform (fun path => f path c)) → uniform_step (fun path => static_pass pattern (f path)).
Proof.
  intros Hf t. unfold static_pass. destruct (rx_new pattern) as [regex|e]; [by apply uniform_replace|].
  exists t, []. intros path records. cbn. by rewrite app_nil_r.
Qed.

Lemma uniform_push t rule action : uniform (fun path records => (t, push records path rule action)).
Proof. exists t, [(rule, action)]. done. Qed.

Lemma uniform_custom patterns : uniform_step (fun path => custom_passes self path patterns).
Proof.
  induction patterns as [|p patterns IH]; intros t; cbn [custom_passes].
  - exists t, []. intros path records. by rewrite app_nil_r.
  - apply (uniform_comp (fun path records => replace_all (cp_regex p) t (redact_custom self path p) records)
             (fun path => custom_passes self path patterns)); [|done].
    apply (uniform_replace (cp_regex p) (fun path => redact_custom self path p)). intros c. apply uniform_push.
Qed.

Lemma uniform_then f g :
  uniform_step f → uniform_step g → uniform_step (fun path st => g path (f path st)).
Proof. intros Hf Hg t. by apply (uniform_comp (fun path records => f path (t, records))). Qed.

Lemma uniform_id : uniform_step (fun _ st => st).
Proof. intros t. exists t, []. intros path records. by rewrite app_nil_r. Qed.

Lemma uniform_quoted c : uniform (fun path => redact_quoted_secret self path c).
Proof.
  unfold redact_quoted_secret. set (key := default [] (cap_get c 1)). destruct (negb _ && negb _).
  - exists (default [] (cap_get c 0)), []. intros path records. by rewrite app_nil_r.
  - apply uniform_push.
Qed.

(** One more pass after the passes of [g]. *)
Lemma uniform_pass pattern (f : str → Captures → list RedactionRecord → str * list RedactionRecord) g :
  (∀ c, uniform (fun path => f path c)) → uniform_step g →
  uniform_step (fun path st => static_pass pattern (f path) (g path st)).
Proof. intros Hf Hg. apply (uniform_then g (fun path => static_pass pattern (f path))); [done|by apply uniform_static]. Qed.

Lemma uniform_string value : uniform (redact_string_inner self value).
Proof.
  unfold redact_string_inner.
  pose (secrets path st :=
    static_pass bearer_pattern (redact_bearer path)
      (static_pass json_quoted_secret_pattern (redact_quoted_secret self path)
         (static_pass text_secret_pattern (redact_text_secret path) st))).
  assert (uniform_step secrets) as Hs.
  { apply (uniform_pass bearer_pattern redact_bearer); [intros c; apply uniform_push|].
    apply (uniform_pass json_quoted_secret_pattern (redact_quoted_secret self)); [apply uniform_quoted|].
    apply (uniform_static text_secret_pattern redact_text_secret). intros c. apply uniform_push. }
  pose (all path st := custom_passes self path (compiled self)
    (if detect_sensitive_values (redaction self) then
       static_pass phone_pattern (redact_detected self path (lit "phone") (lit "PHONE"))
         (static_pass email_pattern (redact_detected self path (lit "email") (lit "EMAIL"))
            (static_pass jwt_pattern (redact_jwt path) (secrets path st)))
     else secrets path st)).
  enough (uniform_step all) as Ha by apply (Ha value).
  apply (uniform_then (fun path st => if detect_sensitive_values (redaction self) then _ else _)
           (fun path => custom_passes self path (compiled self))); [|apply uniform_custom].
  destruct (detect_sensitive_values (redaction self)); [|done].
  apply (uniform_pass phone_pattern (fun path => redact_detected self path (lit "phone") (lit "PHONE")));
    [intros c; apply uniform_push|].
  apply (uniform_pass email_pattern (fun path => redact_detected self path (lit "email") (lit "EMAIL")));
    [intros c; apply uniform_push|].
  apply (uniform_pass jwt_pattern redact_jwt); [intros c; apply uniform_push|done].
Qed.

Lemma uniform_scalar value c : uniform (fun path => redact_scalar self value path c).
Proof.
  unfold redact_scalar. destruct (match cl_sensitivity c with Secret => _ | _ => _ end) as [action out].
  apply uniform_push.
Qed.

(** ** Fields that are masked *)

(** The value of the field shows neither itself nor its pseudonym. *)
Definition masked (key : str) : bool :=
  match classify self key with
  | Some c => match cl_sensitivity c with Secret => true | _ => negb (hash_identifiers (redaction self)) end
  | None => false
  end.

(** Two documents that differ at most in masked fields (one is null when the
    other is). *)
Inductive hides : value number → value number → Prop :=
  | HidesSame v : hides v v
  | HidesArray a b : Forall2 hides a b → hides (Array a) (Array b)
  | HidesObject o p :
      Forall2 (fun x y => x.1 = y.1 ∧
                 (hides x.2 y.2 ∨ masked x.1 = true ∧ (x.2 = Null ↔ y.2 = Null))) o p →
      hides (Object o) (Object p).

Lemma masked_scalar key c value path records :
  classify self key = Some c → masked key = true →
  redact_scalar self value path c records = (REDACTED_VALUE, push records path (cl_rule c) (lit "redact")).
Proof.
  intros Hc. unfold masked, redact_scalar. rewrite Hc.
  destruct (cl_sensitivity c), (hash_identifiers (redaction self)); done.
Qed.

Lemma masked_field key c v path records :
  classify self key = Some c → masked key = true →
  redact_json_field self key v path records =
    Some (String REDACTED_VALUE,
          match v with Null => records | _ => push records path (cl_rule c) (lit "redact") end).
Proof.
  intros Hc Hm. unfold redact_json_field. rewrite Hc. destruct v; rewrite ?(masked_scalar key c) by done; done.
Qed.

Lemma walk_fields_ext {V} (f g : str → V → list RedactionRecord → V * list RedactionRecord) o p :
  Forall2 (fun x y => x.1 = y.1 ∧ ∀ records, f x.1 x.2 records = g y.1 y.2 records) o p →
  ∀ records, walk_fields f o records = walk_fields g p records.
Proof.
  induction 1 as [|[k v] [k' v'] o p [Hk Hf] _ IH]; intros records; [done|]. cbn in *. subst k'.
  rewrite Hf. destruct (g k v' records) as [w r]. by rewrite IH.
Qed.

Lemma walk_items_ext {V} (f g : str → V → list RedactionRecord → V * list RedactionRecord) a b :
  Forall2 (fun v w => ∀ i records, f i v records = g i w records) a b →
  ∀ i records, walk_items f i a records = walk_items g i b records.
Proof.
  induction 1 as [|v w a b Hf _ IH]; intros i records; [done|]. cbn. rewrite Hf.
  destruct (g _ w records) as [w' r]. by rewrite IH.
Qed.

(** The redacted form of a document is a function of what is not masked. *)
Lemma redact_hides v w :
  hides v w → ∀ path records,
  redact_json_value_inner self v path records = redact_json_value_inner self w path records.
Proof.
  revert w. induction v as [|b|n|s|items IH|o IH] using value_ind'; intros w Hh path records;
    inversion Hh as [|a b' Hf|o' p Hf]; subst; try done; cbn [redact_json_value_inner].
  - erewrite (walk_items_ext _ _ items b'); [done|].
    clear -IH Hf. induction Hf as [|x y a b Hxy _ IHf]; constructor; apply Forall_cons in IH as [? ?]; auto.
  - erewrite (walk_fields_ext _ _ o p); [done|].
    clear -IH Hf. induction Hf as [|[k v] [k' w] o p [Hk Hxy] _ IHf]; constructor; apply Forall_cons in IH as [Hv ?]; auto.
    cbn in *. subst k'. split; [done|]. intros records. destruct Hxy as [Hxy|[Hm Hn]].
    + unfold redact_json_field. destruct (classify self k) as [c|] eqn:Hc; [|by apply Hv].
      inversion Hxy; subst; done.
    + pose proof Hm as Hc. unfold masked in Hc. destruct (classify self k) as [c|] eqn:Hk; [|done].
      rewrite !(masked_field k c) by done. destruct v, w; try done; exfalso; naive_solver.
Qed.
(** ** What redaction makes of a document *)

(** The form of a sensitive value that may be shown. *)
Definition safe_form (s : str) : Prop :=
  s = REDACTED_VALUE ∨ ∃ kind value, s = pseudonym self kind value.

(** Same keys in the same order, same lengths, same scalars; strings through the
    text rules; every sensitive field in a safe form. *)
Inductive redacts : value number → value number → Prop :=
  | RedactsNull : redacts Null Null
  | RedactsBool b : redacts (Bool b) (Bool b)
  | RedactsNumber n : redacts (Number n) (Number n)
  | RedactsString s : redacts (String s) (String (redact_string_inner self s [] []).1)
  | RedactsArray a b : Forall2 redacts a b → redacts (Array a) (Array b)
  | RedactsObject o p :
      Forall2 (fun x y => x.1 = y.1 ∧
                 (is_sensitive_name self x.1 = true ∧ (∃ s, y.2 = String s ∧ safe_form s) ∨
                  is_sensitive_name self x.1 = false ∧ redacts x.2 y.2)) o p →
      redacts (Object o) (Object p).

Lemma string_inner_text s path records :
  (redact_string_inner self s path records).1 = (redact_string_inner self s [] []).1.
Proof. destruct (uniform_string s) as (t & ds & Ht). by rewrite !Ht. Qed.

Lemma redact_scalar_safe v path c records : safe_form (redact_scalar self v path c records).1.
Proof.
  unfold redact_scalar, safe_form. destruct (cl_sensitivity c); [by left| |].
  - destruct (hash_identifiers (redaction self)); cbn [fst]; eauto.
  - destruct (hash_identifiers (redaction self) && looks_like_email v); [cbn [fst]; eauto|].
    destruct (hash_identifiers (redaction self) && looks_like_phone v); cbn [fst]; eauto.
Qed.

Lemma redact_field_safe key v path records :
  match redact_json_field self key v path records with
  | Some (w, _) => is_sensitive_name self key = true ∧ ∃ s, w = String s ∧ safe_form s
  | None => is_sensitive_name self key = false
  end.
Proof.
  unfold redact_json_field, is_sensitive_name. destruct (classify self key) as [c|]; [|done].
  destruct (match v with Null => _ | _ => _ end) as [rendered records'] eqn:He. split; [done|].
  exists rendered. split; [done|].
  destruct v; simplify_eq; try (by left);
    match type of He with redact_scalar _ ?t _ _ _ = _ => pose proof (redact_scalar_safe t path c records) as Hs end;
    by rewrite He in Hs.
Qed.

Lemma walk_items_forall {V} (f : str → V → list RedactionRecord → V * list RedactionRecord) (R : V → V → Prop) a :
  Forall (fun v => ∀ i records, R v (f i v records).1) a →
  ∀ i records, Forall2 R a (walk_items f i a records).1.
Proof.
  induction 1 as [|v a Hv _ IH]; intros i records; cbn [walk_items]; [constructor|].
  specialize (Hv (lit "[" ++ show i ++ lit "]") records). destruct (f _ v records) as [w r]. cbn in Hv.
  specialize (IH (i + 1) r). destruct (walk_items f (i + 1) a r) as [b r']. by constructor.
Qed.

Lemma walk_fields_forall {V} (f : str → V → list RedactionRecord → V * list RedactionRecord)
    (R : str * V → str * V → Prop) o :
  Forall (fun kv => ∀ records, R kv (kv.1, (f kv.1 kv.2 records).1)) o →
  ∀ records, Forall2 R o (walk_fields f o records).1.
Proof.
  induction 1 as [|[k v] o Hv _ IH]; intros records; cbn [walk_fields]; [constructor|].
  specialize (Hv records). cbn in Hv. destruct (f k v records) as [w r].
  specialize (IH r). destruct (walk_fields f o r) as [p r']. by constructor.
Qed.

Lemma redact_redacts v : ∀ path records, redacts v (redact_json_value_inner self v path records).1.
Proof.
  induction v as [|b|n|s|items IH|o IH] using value_ind'; intros path records; cbn [redact_json_value_inner];
    try constructor.
  - destruct (redact_string_inner self s path records) as [t r] eqn:He. cbn.
    rewrite <- (f_equal fst He : _ = t), string_inner_text. constructor.
  - pose proof (walk_items_forall (fun index v records => redact_json_value_inner self v (path ++ index) records)
      redacts items) as Hw.
    specialize (Hw ltac:(eapply Forall_impl; [exact IH|]; cbn; auto) 0 records).
    destruct (walk_items _ 0 items records) as [b r]. by constructor.
  - match goal with |- context [walk_fields ?f o records] => pose proof (walk_fields_forall f) as Hw end.
    specialize (Hw (fun x y => x.1 = y.1 ∧
      (is_sensitive_name self x.1 = true ∧ (∃ s, y.2 = String s ∧ safe_form s) ∨
       is_sensitive_name self x.1 = false ∧ redacts x.2 y.2)) o).
    match type of Hw with ?P → _ => assert P as HP; [|specialize (Hw HP records)] end.
    { eapply Forall_impl; [exact IH|]. cbn. intros [k v] Hv r. cbn in *. split; [done|].
      pose proof (redact_field_safe k v (path ++ lit "." ++ k) r) as Hf.
      destruct (redact_json_field self k v _ r) as [[w r']|].
      - by left.
      - right. split; [done|apply Hv]. }
    destruct (walk_fields _ o records) as [p r]. by constructor.
Qed.

End Facts.

(** ** The theorem *)

(** Redacting a JSON text keeps the document except for what redaction is for:
    same keys in the same order, same array lengths, same numbers, booleans and
    nulls, strings through the text rules, and every sensitive field replaced by
    the fixed mask or a keyed pseudonym.  The output, records included, is the
    same for all documents that differ only in masked fields, so nothing about
    those values can be learned from it. *)
Theorem redaction_masks_secrets {number : Type} `{RedactionEnv number} (self : Redactor) (text : str) (v : value number) :
  from_str text = Some v →
  (∃ w, ro_value (redact_text self text) = to_string w ∧ redacts self v w) ∧
  (∀ text' v', from_str text' = Some v' → hides self v v' → redact_text self text' = redact_text self text).
Proof.
  intros Hv. unfold redact_text. rewrite Hv. split.
  - pose proof (redact_redacts self v (lit "$") []) as Hr.
    destruct (redact_json_value_inner self v (lit "$") []) as [w records]. by exists w.
  - intros text' v' -> Hh. by rewrite (redact_hides self _ _ Hh).
Qed.

(** ** A concrete environment *)

Definition sample_doc (password : str) : value Z :=
  Object [(lit "user", String (lit "ann")); (lit "Password", String password);
          (lit "ids", Array [Number 1; Object [(lit "userId", Number 7)]])].

Definition sample_env : RedactionEnv Z.
Proof.
  refine {| to_lowercase := to_ascii_lowercase; rx := unit; rx_new _ := Err [];
            rx_captures _ _ := []; rx_is_match _ _ := false; hmac_sha256 key msg := key ++ msg;
            from_str t := if decide (t = lit "a") then Some (sample_doc (lit "hunter2"))
                          else if decide (t = lit "b") then Some (sample_doc (lit "swordfish")) else None;
            string_from_str t := Some t; entries_from_str _ := None;
            quote s := dq ++ from_utf8_lossy s ++ dq; number_text n := from_utf8_lossy (show n);
            to_string := compact (fun s => dq ++ from_utf8_lossy s ++ dq) (fun n => from_utf8_lossy (show n));
            visit_text n := from_utf8_lossy (show n); integral _ := true |}; try done.
  - intros s. repeat apply utf8_valid_app; try done. apply lossy_valid.
  - intros n. apply lossy_valid.
Defined.

Definition sample_redactor : @Redactor Z sample_env :=
  {| hash_key := [1; 2; 3; 4; 5; 6; 7; 8]; redaction := default_redaction; compiled := [] |}.

Lemma sample_hides a b : @hides Z sample_env sample_redactor (sample_doc a) (sample_doc b).
Proof.
  constructor. constructor; [split; [done|left; constructor]|].
  constructor; [split; [done|right; split; [vm_compute; reflexivity|done]]|].
  constructor; [split; [done|left; constructor]|constructor].
Qed.

Lemma redaction_masks_secrets_witness :
  @redact_text Z sample_env sample_redactor (lit "b") = @redact_text Z sample_env sample_redactor (lit "a").
Proof.
  apply (@redaction_masks_secrets Z sample_env sample_redactor (lit "a") (sample_doc (lit "hunter2"))) with
    (v' := sample_doc (lit "swordfish")); [reflexivity|reflexivity|apply sample_hides].
Defined.

(** The mask and the pseudonym of the sample. *)
Lemma redaction_sample :
  ro_value (@redact_text Z sample_env sample_redactor (lit "a"))
    = lit "{" ++ dq ++ lit "user" ++ dq ++ lit ":" ++ dq ++ lit "ann" ++ dq ++ lit "," ++ dq ++ lit "Password" ++ dq
      ++ lit ":" ++ dq ++ lit "[REDACTED]" ++ dq ++ lit "," ++ dq ++ lit "ids" ++ dq ++ lit ":[1,{" ++ dq
      ++ lit "userId" ++ dq ++ lit ":" ++ dq ++ lit "[ID:0102030405060708]" ++ dq ++ lit "}]}".
Proof. vm_compute. reflexivity. Qed.
