(* ===== verification/RedactedSearch.v ===== *)
(** * RedactedSearch: searching a body without showing its secrets

    Models the rest of src/crates/mcp-server/src/tools/text_search.rs: the
    visitors that redact a JSON document while it is being read and write its
    text, piece by piece, to the sink of TextSearch, and [search_text] with its
    sources and errors.  The pieces are the text of the document Redaction makes,
    so a search sees what a reader of the redacted body would see and nothing of
    the masked values.

    The file store and the deserializer are an interface: what the visitors are
    shown is a tree in which repeated keys of an object are all present. *)

From S2P Require Import Prelude Str JsonPath HttpIo Utf8 TextSearch Redaction.
From Stdlib Require Import Sorting.Sorted.

(** ** Definitions: paths *)

Definition replace_byte (c : byte) (by_ : str) (s : str) : str :=
  concat (map (fun b => if b =? c then by_ else [b]) s).

Definition plain_key_byte (b : byte) : bool :=
  ((48 <=? b) && (b <=? 57)) || ((65 <=? b) && (b <=? 90)) || ((97 <=? b) && (b <=? 122)) || (b =? 95) || (b =? 45).

Definition append_key_path (path key : str) : str :=
  if forallb plain_key_byte key then path ++ lit "." ++ key
  else path ++ lit "['" ++ replace_byte 39 [92; 39] (replace_byte 92 [92; 92] key) ++ lit "']".

Definition MAX_JSON_DEPTH : nat := 128.

(** ** Definitions: the visitors *)

Section Visitors.
Context {number : Type} `{RedactionEnv number} (self : Redactor).

Definition Stream : Type := option (list str * list RedactionRecord).

(** [SensitiveSeed], [SensitiveVisitor] *)
Definition visit_sensitive (key : str) (v : value number) (path : str) (records : list RedactionRecord)
    : str * list RedactionRecord :=
  match v with
  | Null => (REDACTED_VALUE, records)
  | Bool b => redact_named_scalar self key (show_bool b) path records
  | Number n => redact_named_scalar self key (visit_text n) path records
  | String s => redact_named_scalar self key s path records
  | Array _ | Object _ => redact_named_container self key path records
  end.

Section Elements.
Context {V : Type} (visit : str → V → list RedactionRecord → Stream).

(** The loop of [visit_seq] *)
Fixpoint stream_items (index : Z) (items : list V) (records : list RedactionRecord) : Stream :=
  match items with
  | [] => Some ([], records)
  | v :: items =>
      '(ps, records) ← visit (lit "[" ++ show index ++ lit "]") v records;
      '(rest, records) ← stream_items (index + 1) items records;
      Some ((if 0 <? index then [lit ","] else []) ++ ps ++ rest, records)
  end.

(** The loop of [visit_map] *)
Fixpoint stream_fields (first : bool) (o : list (str * V)) (records : list RedactionRecord) : Stream :=
  match o with
  | [] => Some ([], records)
  | (key, v) :: o =>
      '(ps, records) ← visit key v records;
      '(rest, records) ← stream_fields false o records;
      Some ((if first then [] else [lit ","]) ++ [quote key; lit ":"] ++ ps ++ rest, records)
  end.
End Elements.

(** [RedactSeed], [RedactVisitor]: the pieces written for a value, [None] when
    the nesting is too deep. *)
Fixpoint stream_value (depth : nat) (v : value number) (path : str) (records : list RedactionRecord) : Stream :=
  match v with
  | Null => Some ([lit "null"], records)
  | Bool b => Some ([show_bool b], records)
  | Number n => Some ([number_text n], records)
  | String s =>
      let '(redacted, records) := redact_text_value self s path records in
      Some ([quote redacted], records)
  | Array items =>
      if (MAX_JSON_DEPTH <=? depth)%nat then None
      else
        '(ps, records) ←
          stream_items (fun index v records => stream_value (S depth) v (path ++ index) records) 0 items records;
        Some ([lit "["] ++ ps ++ [lit "]"], records)
  | Object o =>
      if (MAX_JSON_DEPTH <=? depth)%nat then None
      else
        '(ps, records) ←
          stream_fields (fun key v records =>
            let child_path := append_key_path path key in
            if is_sensitive_name self key then
              let '(rendered, records) := visit_sensitive key v child_path records in
              Some ([quote rendered], records)
            else stream_value (S depth) v child_path records) true o records;
        Some ([lit "{"] ++ ps ++ [lit "}"], records)
  end.

End Visitors.

(** ** Definitions: sources and errors *)

Record ToolError := { te_code : str; te_message : str; te_retryable : bool; te_details : list (str * value Z) }.

Record StoredBodyReference := {
  file_path : option str; inline_text : option str; base64_text : option str;
  mime_type : option str; encoding : option str; size_bytes : Z; truncated : bool
}.

(** What reading an open file yields: its bytes, then perhaps a failure. *)
Record Reader := { available : bytes; failure : option str }.

Class BodyAccess (number : Type) := {
  open_body_reader : str → result Reader str;
  base64_decode : str → result bytes str;
  (** serde_json on a reader: a read error, a syntax error ([Ok None]), or the
      tree shown to the visitor *)
  deserialize : Reader → result (option (value number)) str;
  is_valid_json_document : str → bool;
  sha256_hex : bytes → str
}.

Definition text_query_scan_limit_error (decoded_size_bytes scan_limit_bytes : Z) : ToolError :=
  {| te_code := lit "BODY_TOO_LARGE";
     te_message := lit "textQuery is limited to " ++ show scan_limit_bytes
       ++ lit " decoded bytes, but this body is " ++ show decoded_size_bytes
       ++ lit " bytes. Use get_session_body with jsonPaths to read the specific fields you need instead of searching the whole body.";
     te_retryable := false; te_details :=
       [(lit "reason", String (lit "scanLimit")); (lit "decodedSizeBytes", Number decoded_size_bytes);
        (lit "scanLimitBytes", Number scan_limit_bytes); (lit "textQuery", Bool true);
        (lit "recommendedAction", String (lit "useJsonPaths"));
        (lit "recommendedTool", String (lit "get_session_body"))] |}.

Definition reason_error (code message reason : str) : ToolError :=
  {| te_code := code; te_message := message; te_retryable := false; te_details := [(lit "reason", String reason)] |}.

Definition not_text_error : ToolError :=
  reason_error (lit "BODY_NOT_TEXT") (lit "textQuery requires a UTF-8 text body.") (lit "notText").

Definition read_failed (error : str) : ToolError :=
  reason_error (lit "BODY_NOT_FOUND") (lit "Unable to read the stored body file: " ++ error) (lit "fileReadFailed").

Section SearchText.
Context {number : Type} `{RedactionEnv number} `{!BodyAccess number} `{Matcher} (self : Redactor).

Definition decode_inline_reference (reference : StoredBodyReference) : result bytes ToolError :=
  match base64_text reference, inline_text reference with
  | Some text, _ =>
      map_err (fun error => reason_error (lit "BODY_NOT_FOUND")
                 (lit "The inline body reference is invalid: " ++ error) (lit "corruptReference"))
        (base64_decode text)
  | None, Some text => Ok text
  | None, None =>
      Err (reason_error (lit "BODY_NOT_FOUND") (lit "The body reference contains no readable payload.")
             (lit "corruptReference"))
  end.

Inductive BodySource := File (path : str) | Inline (b : bytes).

Definition new_source (reference : StoredBodyReference) : result BodySource ToolError :=
  match file_path reference with
  | Some path => Ok (File path)
  | None => let? b := decode_inline_reference reference in Ok (Inline b)
  end.

Definition open_source (s : BodySource) : result Reader ToolError :=
  match s with
  | File path =>
      map_err (fun error => reason_error (lit "BODY_NOT_FOUND")
                 (lit "The stored body file is unavailable: " ++ error) (lit "fileMissing"))
        (open_body_reader path)
  | Inline b => Ok {| available := b; failure := None |}
  end.

(** [reader.take(n).read_to_end(..)] *)
Definition take_read (n : Z) (r : Reader) : result bytes str :=
  if n <=? len (available r) then Ok (take (Z.to_nat n) (available r))
  else match failure r with Some error => Err error | None => Ok (available r) end.

Definition read_all (scan_limit_bytes : Z) (s : BodySource) : result bytes ToolError :=
  match s with
  | File _ =>
      let? reader := open_source s in
      let? b := map_err read_failed (take_read (scan_limit_bytes + 1) reader) in
      if scan_limit_bytes <? len b then Err (text_query_scan_limit_error (len b) scan_limit_bytes) else Ok b
  | Inline b =>
      if scan_limit_bytes <? len b then Err (text_query_scan_limit_error (len b) scan_limit_bytes) else Ok b
  end.

Definition collect_redacted_fields (records : list RedactionRecord) : list str :=
  dedup (sort_by str_leb (map rr_rule records)).

(** The pieces written to the sink and the records, or [None] when the body is
    not one JSON document. *)
Definition try_stream_redacted_json (r : Reader) : result (option (list str * list RedactionRecord)) ToolError :=
  match deserialize r with
  | Err error => Err (read_failed error)
  | Ok None => Ok None
  | Ok (Some v) => Ok (stream_value self 0 v (lit "$") [])
  end.

Record TextSearchOutcome := {
  ts_matches : list Hit; ts_limited : bool; ts_structure_parsed : bool; ts_redacted_fields : list str;
  ts_hash : option str
}.

(** [None] is a panic of a slice. *)
Definition search_text (reference : StoredBodyReference) (decoded_size_bytes : Z) (query : str) (ctx : nat)
    (raw : bool) (scan_limit_bytes : Z) : option (result TextSearchOutcome ToolError) :=
  if scan_limit_bytes <? decoded_size_bytes then
    Some (Err (text_query_scan_limit_error decoded_size_bytes scan_limit_bytes))
  else
    match new_source reference with
    | Err e => Some (Err e)
    | Ok source =>
        if raw then
          match read_all scan_limit_bytes source with
          | Err e => Some (Err e)
          | Ok b =>
              match from_utf8 b with
              | None => Some (Err not_text_error)
              | Some text =>
                  '(hits, limited) ← text_matches text query ctx;
                  Some (Ok {| ts_matches := hits; ts_limited := limited;
                              ts_structure_parsed := is_valid_json_document text;
                              ts_redacted_fields := []; ts_hash := Some (sha256_hex b) |})
              end
          end
        else
          match new_sink query ctx with
          | Err message => Some (Err {| te_code := lit "INVALID_ARGUMENT"; te_message := message; te_retryable := false; te_details := [] |})
          | Ok sink =>
              match open_source source with
              | Err e => Some (Err e)
              | Ok reader =>
                  match try_stream_redacted_json reader with
                  | Err e => Some (Err e)
                  | Ok (Some (pieces, records)) =>
                      sink ← search_pieces pieces sink;
                      Some (Ok {| ts_matches := matches sink; ts_limited := limited sink;
                                  ts_structure_parsed := true;
                                  ts_redacted_fields := dedup (sort_by str_leb (collect_redacted_fields records));
                                  ts_hash := None |})
                  | Ok None =>
                      match read_all scan_limit_bytes source with
                      | Err e => Some (Err e)
                      | Ok b =>
                          match from_utf8 b with
                          | None => Some (Err not_text_error)
                          | Some text =>
                              let redacted := redact_non_json_text self text in
                              '(hits, limited) ← text_matches (ro_value redacted) query ctx;
                              Some (Ok {| ts_matches := hits; ts_limited := limited;
                                          ts_structure_parsed := false;
                                          ts_redacted_fields := ro_fields redacted; ts_hash := None |})
                          end
                      end
                  end
              end
          end
    end.

End SearchText.

(** ** The pieces are the text of the redacted document *)

Section Pieces.
Context {number : Type} `{RedactionEnv number} (self : Redactor).

Definition max_of {V} (f : V → nat) (l : list V) : nat := foldr (fun v m => Nat.max (f v) m) 0%nat l.

(** The nesting the visitor sees: sensitive values are skipped. *)
Fixpoint levels (v : value number) : nat :=
  match v with
  | Array items => S (max_of levels items)
  | Object o => S (max_of (fun kv => let '(key, v) := kv in if is_sensitive_name self key then 0%nat else levels v) o)
  | _ => 0%nat
  end.

(** Numbers under sensitive names are integers. *)
Fixpoint integral_ids (v : value number) : bool :=
  match v with
  | Array items => forallb integral_ids items
  | Object o =>
      forallb (fun kv => let '(key, v) := kv in
        if is_sensitive_name self key then match v with Number n => integral n | _ => true end
        else integral_ids v) o
  | _ => true
  end.

Definition kind (r : RedactionRecord) : str * str := (rr_rule r, rr_action r).

(** A visit and a redaction that agree: same text, same rules and actions. *)
Definition agrees {A} (print : A → str) (s : Stream) (records : list RedactionRecord)
    (r : A * list RedactionRecord) (records' : list RedactionRecord) : Prop :=
  ∃ ps d w d', s = Some (ps, records ++ d) ∧ r = (w, records' ++ d') ∧ concat ps = print w ∧
    map kind d = map kind d' ∧ Forall (fun p => utf8_valid p = true) ps.

Lemma agrees_uniform f path path' records records' :
  uniform f →
  agrees (fun v : value number => compact quote number_text v)
    (let '(t, r) := f path records in Some ([quote t], r)) records
    (let '(t, r) := f path' records' in (String t, r)) records'.
Proof.
  intros (t & ds & Hf). rewrite !Hf. exists [quote t], (map (record_at path) ds), (String t), (map (record_at path') ds).
  split_and!; [done|done|by cbn; rewrite app_nil_r| |].
  - rewrite !map_map. done.
  - constructor; [apply quote_utf8|constructor].
Qed.

Lemma named_uniform key c value :
  classify self key = Some c → uniform (fun path => redact_named_scalar self key value path).
Proof. intros Hc. unfold redact_named_scalar. rewrite Hc. apply uniform_scalar. Qed.

(** What a sensitive field becomes, by either way. *)
Definition rendered (c : Classification) (v : value number) (path : str) (records : list RedactionRecord) :=
  match v with
  | String text => redact_scalar self text path c records
  | Number n => redact_scalar self (number_text n) path c records
  | Bool b => redact_scalar self (show_bool b) path c records
  | Null => (REDACTED_VALUE, records)
  | Array _ | Object _ => (REDACTED_VALUE, push records path (cl_rule c) (lit "redact"))
  end.

Lemma uniform_rendered c v : uniform (rendered c v).
Proof.
  destruct v; try apply uniform_scalar; try apply uniform_push.
  exists REDACTED_VALUE, []. intros path records. cbn. by rewrite app_nil_r.
Qed.

Lemma field_agrees key v path path' records records' :
  is_sensitive_name self key = true → (match v with Number n => integral n | _ => true end = true) →
  ∃ out, redact_json_field self key v path' records' = Some out ∧
    agrees (fun v : value number => compact quote number_text v)
      (let '(t, r) := visit_sensitive self key v path records in Some ([quote t], r)) records out records'.
Proof.
  intros Hs Hi. unfold is_sensitive_name in Hs. apply bool_decide_eq_true in Hs.
  destruct (classify self key) as [c|] eqn:Hc; [clear Hs|done].
  exists (let '(t, r) := rendered c v path' records' in (String t, r)). split.
  { unfold redact_json_field. rewrite Hc. by destruct (rendered c v path' records') eqn:He; unfold rendered in He; rewrite He. }
  assert (visit_sensitive self key v path records = rendered c v path records) as ->.
  { unfold visit_sensitive, redact_named_scalar, redact_named_container. rewrite Hc.
    destruct v; cbn; rewrite ?integral_text by done; done. }
  apply agrees_uniform, uniform_rendered.
Qed.

Section Elements.
Context {V : Type} (print : V → str).
Context (visit : str → V → list RedactionRecord → Stream).
Context (redact : str → V → list RedactionRecord → V * list RedactionRecord).

Lemma items_agree items :
  Forall (fun v => ∀ i records records', agrees print (visit i v records) records (redact i v records') records') items →
  ∀ index records records', 0 <= index →
    agrees (comma_separated print (negb (0 <? index))) (stream_items visit index items records) records
      (walk_items redact index items records') records'.
Proof.
  induction 1 as [|v items Hv _ IH]; intros index records records' Hi; cbn [stream_items walk_items].
  - exists [], [], [], []. by rewrite !app_nil_r.
  - destruct (Hv (lit "[" ++ show index ++ lit "]") records records') as (ps & d & w & d' & -> & -> & Hp & Hk & Hu).
    cbn [mbind option_bind]. destruct (IH (index + 1) (records ++ d) (records' ++ d') ltac:(lia))
      as (ps2 & d2 & w2 & d2' & -> & -> & Hp2 & Hk2 & Hu2). cbn [mbind option_bind].
    exists ((if 0 <? index then [lit ","] else []) ++ ps ++ ps2), (d ++ d2), (w :: w2), (d' ++ d2').
    rewrite !app_assoc. split_and!; [done|done| |by rewrite !map_app, Hk, Hk2|].
    + rewrite <- app_assoc, !concat_app, Hp, Hp2. cbn [comma_separated].
      destruct (Z.ltb_spec 0 (index + 1)); [|lia]. by destruct (0 <? index).
    + rewrite !Forall_app. split_and!; [|done|done]. destruct (0 <? index); repeat constructor.
Qed.

Lemma fields_agree (o : list (str * V)) :
  Forall (fun kv => ∀ records records',
    agrees print (visit kv.1 kv.2 records) records (redact kv.1 kv.2 records') records') o →
  ∀ first records records',
    agrees (comma_separated (fun kv => let '(key, v) := kv in quote key ++ lit ":" ++ print v) first)
      (stream_fields visit first o records) records (walk_fields redact o records') records'.
Proof.
  induction 1 as [|[key v] o Hv _ IH]; intros first records records'; cbn [stream_fields walk_fields].
  - exists [], [], [], []. by rewrite !app_nil_r.
  - destruct (Hv records records') as (ps & d & w & d' & Hs & Hr & Hp & Hk & Hu). cbn [fst snd] in Hs, Hr.
    rewrite Hs, Hr. cbn [mbind option_bind]. destruct (IH false (records ++ d) (records' ++ d'))
      as (ps2 & d2 & w2 & d2' & -> & -> & Hp2 & Hk2 & Hu2). cbn [mbind option_bind].
    exists ((if first then [] else [lit ","]) ++ [quote key; lit ":"] ++ ps ++ ps2), (d ++ d2), ((key, w) :: w2),
      (d' ++ d2').
    rewrite !app_assoc. split_and!; [done|done| |by rewrite !map_app, Hk, Hk2|].
    + rewrite <- !app_assoc, !concat_app, Hp, Hp2. cbn [comma_separated concat].
      rewrite app_nil_r, <- !app_assoc. by destruct first.
    + rewrite !Forall_app. split_and!; [destruct first; repeat constructor| |done|done].
      constructor; [apply quote_utf8|by repeat constructor].
Qed.
End Elements.

Lemma max_of_elem {V} (f : V → nat) l m : (max_of f l <= m)%nat → Forall (fun v => (f v <= m)%nat) l.
Proof. induction l as [|v l IH]; cbn [max_of foldr]; intros Hm; constructor; [lia|apply IH; unfold max_of; lia]. Qed.

(** Wrapping the text of the elements in brackets *)
Lemma agrees_wrap {A} (print : A → str) (s : Stream) records r records' (open close : str) (inj : A → value number) :
  utf8_valid open = true → utf8_valid close = true →
  (∀ w, compact quote number_text (inj w) = open ++ print w ++ close) →
  agrees print s records r records' →
  agrees (fun v : value number => compact quote number_text v)
    ('(ps, records) ← s; Some ([open] ++ ps ++ [close], records)) records
    (let '(w, records') := r in (inj w, records')) records'.
Proof.
  intros Ho Hcl Hc (ps & d & w & d' & -> & -> & Hp & Hk & Hu). cbn [mbind option_bind].
  exists ([open] ++ ps ++ [close]), d, (inj w), d'. split_and!; [done|done| |done|].
  - rewrite Hc, <- Hp, !concat_app. cbn. by rewrite !app_nil_r.
  - rewrite !Forall_app. split_and!; [by repeat constructor|done|by repeat constructor].
Qed.

Lemma stream_agrees v : ∀ depth path path' records records',
  integral_ids v = true → (depth + levels v <= MAX_JSON_DEPTH)%nat →
  agrees (fun v : value number => compact quote number_text v)
    (stream_value self depth v path records) records
    (redact_json_value_inner self v path' records') records'.
Proof.
  induction v as [|b|n|s|items IH|o IH] using value_ind'; intros depth path path' records records' Hi Hd;
    cbn [stream_value redact_json_value_inner].
  - exists [lit "null"], [], Null, []. by rewrite !app_nil_r; split_and!; repeat constructor.
  - exists [show_bool b], [], (Bool b), []. rewrite !app_nil_r. by split_and!; [| |destruct b| |destruct b; repeat constructor].
  - exists [number_text n], [], (Number n), []. rewrite !app_nil_r.
    split_and!; [done|done|by cbn; rewrite app_nil_r|done|]. constructor; [apply number_utf8|constructor].
  - apply agrees_uniform, uniform_string.
  - cbn [levels] in Hd. destruct (Nat.leb_spec MAX_JSON_DEPTH depth); [lia|].
    apply (agrees_wrap (comma_separated (compact quote number_text) true) _ _ _ _ (lit "[") (lit "]") Array); [done|done|done|].
    apply (items_agree (compact quote number_text)
      (fun index v records => stream_value self (S depth) v (path ++ index) records)
      (fun index v records => redact_json_value_inner self v (path' ++ index) records) items); [|done].
    cbn [integral_ids] in Hi. rewrite List.forallb_forall in Hi.
    assert (Forall (fun v => levels v <= MAX_JSON_DEPTH - S depth)%nat items) as Hl by (apply max_of_elem; lia).
    rewrite Forall_forall in IH, Hl |- *. intros v Hv i r r'. apply IH; [done|by apply Hi, list_elem_of_In|].
    specialize (Hl v Hv). lia.
  - cbn [levels] in Hd. destruct (Nat.leb_spec MAX_JSON_DEPTH depth); [lia|].
    apply (agrees_wrap (comma_separated (fun kv : str * value number => let '(key, v) := kv in
             quote key ++ lit ":" ++ compact quote number_text v) true) _ _ _ _ (lit "{") (lit "}") Object); [done|done|done|].
    apply (fields_agree (compact quote number_text)). cbn [integral_ids] in Hi. rewrite List.forallb_forall in Hi.
    assert (Forall (fun kv => (let '(key, v) := kv in if is_sensitive_name self key then 0 else levels v)
              <= MAX_JSON_DEPTH - S depth)%nat o) as Hl by (apply max_of_elem; lia).
    rewrite Forall_forall in IH, Hl |- *. intros [key v] Hv r r'. specialize (Hl _ Hv). specialize (IH _ Hv).
    apply list_elem_of_In, Hi in Hv. cbn [fst snd] in *. destruct (is_sensitive_name self key) eqn:Hs.
    + destruct (field_agrees key v (append_key_path path key) (path' ++ lit "." ++ key) r r' Hs) as (out & -> & Ha); [|done].
      by destruct v.
    + pose proof (redact_field_safe self key v (path' ++ lit "." ++ key) r') as Hf.
      destruct (redact_json_field self key v _ r') as [[w r'']|]; [by destruct Hf; congruence|].
      apply IH; [done|lia].
Qed.

Lemma stream_pieces v :
  integral_ids v = true → (levels v <= MAX_JSON_DEPTH)%nat →
  ∃ ps records w records',
    stream_value self 0 v (lit "$") [] = Some (ps, records) ∧
    redact_json_value_inner self v (lit "$") [] = (w, records') ∧
    concat ps = to_string w ∧ map rr_rule records = map rr_rule records' ∧
    Forall (fun p => utf8_valid p = true) ps.
Proof.
  intros Hi Hl. destruct (stream_agrees v 0 (lit "$") (lit "$") [] [] Hi Hl) as (ps & d & w & d' & Hs & Hr & Hp & Hk & Hu).
  exists ps, d, w, d'. split_and!; [done|done| | |done].
  - by rewrite to_string_compact.
  - apply (f_equal (map fst)) in Hk. by rewrite !map_map in Hk.
Qed.
End Pieces.

(** ** Sorting and deduplication keep the elements *)

Lemma elem_of_insert_sorted {A} (leb : A → A → bool) x y l : y ∈ insert_sorted leb x l ↔ y = x ∨ y ∈ l.
Proof. induction l as [|z l IH]; cbn; [set_solver|]. destruct (leb x z); set_solver. Qed.

Lemma elem_of_sort_by {A} (leb : A → A → bool) y l : y ∈ sort_by leb l ↔ y ∈ l.
Proof. induction l as [|x l IH]; cbn; [done|]. rewrite elem_of_insert_sorted, IH. set_solver. Qed.

Lemma elem_of_dedup {A} `{EqDecision A} (y : A) l : y ∈ dedup l ↔ y ∈ l.
Proof.
  induction l as [|x l IH]; [done|]. destruct l as [|z l]; [done|]. cbn [dedup].
  destruct (decide (x = z)) as [->|]; rewrite ?elem_of_cons, IH; set_solver.
Qed.

Lemma insert_sorted_sorted {A} (leb : A → A → bool) (R : relation A) x l :
  Transitive R → (∀ y z, leb y z = true → R y z) → (∀ y z, leb y z = false → R z y) →
  StronglySorted R l → StronglySorted R (insert_sorted leb x l).
Proof.
  intros Ht H1 H0. induction 1 as [|y l Hl IH Hy]; cbn [insert_sorted]; [by repeat constructor|].
  destruct (leb x y) eqn:Hxy.
  - apply H1 in Hxy. constructor; [by constructor|]. constructor; [done|]. eapply Forall_impl; [exact Hy|]. cbn. eauto.
  - apply H0 in Hxy. constructor; [done|]. rewrite Forall_forall in Hy |- *.
    intros z [->|Hz]%elem_of_insert_sorted; [done|by apply Hy].
Qed.

Lemma dedup_sorted_nodup {A} `{EqDecision A} (R : relation A) l :
  (∀ x y, R x y → R y x → x = y) → StronglySorted R l → NoDup (dedup l).
Proof.
  intros Ha. induction 1 as [|x l Hl IH Hx]; [constructor|]. destruct l as [|y l]; [by apply NoDup_singleton|].
  change (dedup (x :: y :: l)) with (if decide (x = y) then dedup (y :: l) else x :: dedup (y :: l)).
  destruct (decide (x = y)) as [->|Hxy]; [done|]. constructor; [|done]. rewrite elem_of_dedup.
  intros Hin. inversion Hl as [|? ? _ Hy]; subst. apply Forall_cons in Hx as [Hle _].
  apply elem_of_cons in Hin as [->|Hin]; [done|]. rewrite Forall_forall in Hy. apply Hxy, Ha; [done|by apply Hy].
Qed.

(** ** The theorem *)

Section Search.
Context {number : Type} `{RedactionEnv number} `{!BodyAccess number} `{Matcher} (self : Redactor).

(** The body is a JSON document, within the nesting the visitors accept. *)
Definition body_is (reference : StoredBodyReference) (v : value number) : Prop :=
  ∃ source reader, new_source reference = Ok source ∧ open_source source = Ok reader ∧
    deserialize reader = Ok (Some v) ∧ integral_ids self v = true ∧ (levels self v <= MAX_JSON_DEPTH)%nat.

Lemma search_text_json reference v size query ctx limit :
  query ≠ [] → len query <= 1024 → Z.of_nat ctx <= 1024 → utf8_valid query = true → build query = Ok tt →
  body_is reference v → size <= limit →
  let '(w, records) := redact_json_value_inner self v (lit "$") [] in
  len (to_string w) <= 2 ^ 63 →
  ∃ hits more,
    text_matches (to_string w) query ctx = Some (hits, more) ∧
    search_text self reference size query ctx false limit =
      Some (Ok {| ts_matches := hits; ts_limited := more; ts_structure_parsed := true;
                  ts_redacted_fields := dedup (sort_by str_leb (dedup (sort_by str_leb (map rr_rule records))));
                  ts_hash := None |}).
Proof.
  intros Hne Hq Hctx Hqv Hb (source & reader & Hs & Ho & Hd & Hi & Hl) Hsize.
  destruct (stream_pieces self v Hi Hl) as (ps & rs & w & records & Hst & -> & Hc & Hr & Hu). intros Hlen.
  rewrite <- Hc in Hlen. destruct (search_pieces_exact query ctx ps) as (k0 & k & Hk0 & Hk & Ht); try done.
  exists (matches k), (limited k). rewrite <- Hc. split; [done|].
  unfold search_text, try_stream_redacted_json. destruct (Z.ltb_spec limit size); [lia|].
  rewrite Hs, Hk0, Ho, Hd, Hst, Hk. cbn [mbind option_bind]. unfold collect_redacted_fields. by rewrite Hr.
Qed.

End Search.

(** C12: Searching a captured JSON body in redacted mode gives exactly the hits of the
    search in the redacted document, reports the rules that were applied and no
    digest of the original, and is no oracle: for any other body that differs
    only in masked values the whole outcome is the same.  The bodies are JSON within
    the size limit of the search and at most 128 levels deep, the numbers under
    identifier keys are integers (floats get other pseudonyms there, see the
    header), and the redacted document is at most 2^63 bytes. *)
Theorem search_shows_redacted_only {number : Type} `{RedactionEnv number} `{!BodyAccess number} `{Matcher}
    (self : Redactor) (raw query : str) (requested : option nat) (reference : StoredBodyReference)
    (v : value number) (size limit : Z) :
  validate_text_query (Some raw) = Ok (Some query) → utf8_valid query = true → build query = Ok tt →
  body_is self reference v → size <= limit →
  let redacted := redact_json_value self v (lit "$") [] in
  len (to_string redacted.1) <= 2 ^ 63 →
  ∃ out,
    search_text self reference size query (clamp_context requested) false limit = Some (Ok out) ∧
    text_matches (to_string redacted.1) query (clamp_context requested) = Some (ts_matches out, ts_limited out) ∧
    (∀ f, f ∈ ts_redacted_fields out ↔ f ∈ map rr_rule redacted.2) ∧ ts_hash out = None ∧
    ∀ reference' v' size', body_is self reference' v' → hides self v v' → size' <= limit →
      search_text self reference' size' query (clamp_context requested) false limit = Some (Ok out).
Proof.
  intros Hraw Hqv Hb Hv Hs. destruct (validated_query _ _ Hraw Hqv) as [Hne Hq].
  pose proof (clamp_context_small requested) as Hctx. unfold redact_json_value.
  pose proof (search_text_json self reference v size query (clamp_context requested) limit Hne Hq Hctx Hqv Hb Hv Hs) as Hj.
  destruct (redact_json_value_inner self v (lit "$") []) as [w records] eqn:Hw. cbn [fst snd]. intros Hlen.
  destruct (Hj Hlen) as (hits & more & Ht & Hst). eexists. split; [exact Hst|]. split_and!; [done| |done|].
  - intros f. cbn. by rewrite !elem_of_dedup, !elem_of_sort_by, elem_of_dedup, elem_of_sort_by.
  - intros reference' v' size' Hv' Hh Hs'.
    pose proof (search_text_json self reference' v' size' query _ limit Hne Hq Hctx Hqv Hb Hv' Hs') as Hj'.
    rewrite <- (redact_hides self _ _ Hh), Hw in Hj'. destruct (Hj' Hlen) as (hits' & more' & Ht' & Hst').
    rewrite Hst'. by simplify_eq.
Qed.

(** ** A concrete store *)

Definition sample_access : BodyAccess Z :=
  {| open_body_reader path := Ok {| available := path; failure := None |};
     base64_decode _ := Err [];
     deserialize r := Ok (@from_str Z sample_env (available r));
     is_valid_json_document _ := true;
     sha256_hex _ := [] |}.

Definition sample_reference (path : str) : StoredBodyReference :=
  {| file_path := Some path; inline_text := None; base64_text := None; mime_type := None; encoding := None;
     size_bytes := 0; truncated := false |}.

Lemma sample_body path password :
  @from_str Z sample_env path = Some (sample_doc password) →
  @body_is Z sample_env sample_access sample_redactor (sample_reference path) (sample_doc password).
Proof.
  intros Hp. exists (File path), {| available := path; failure := None |}.
  split_and!; [done|done|by cbn [deserialize sample_access available]; rewrite Hp|vm_compute; reflexivity|].
  apply Nat.leb_le. vm_compute. reflexivity.
Qed.

Lemma search_shows_redacted_only_witness :
  let search path :=
    @search_text Z sample_env sample_access exact_matcher sample_redactor (sample_reference path) 100
      (lit "REDACTED") 4 false 1000 in
  search (lit "b") = search (lit "a") ∧ ∃ out, search (lit "a") = Some (Ok out) ∧ ts_hash out = None.
Proof.
  intros search.
  destruct (@search_shows_redacted_only Z sample_env sample_access exact_matcher sample_redactor
    (lit "REDACTED ") (lit "REDACTED") (Some 4%nat) (sample_reference (lit "a")) (sample_doc (lit "hunter2")) 100 1000)
    as (out & Hs & _ & _ & Hh & Hn);
    [vm_compute; reflexivity|reflexivity|reflexivity|by apply sample_body|lia|vm_compute; discriminate|].
  split; [|exists out; split; [exact Hs|exact Hh]].
  transitivity (Some (Ok out : result TextSearchOutcome ToolError)); [|symmetry; exact Hs].
  apply (Hn (sample_reference (lit "b")) (sample_doc (lit "swordfish")) 100);
    [apply sample_body; reflexivity|apply sample_hides|lia].
Defined.
