(* ===== verification/BodyPaths.v ===== *)
(** * BodyPaths: the field paths of the MCP body tools

    Models the path language of src/crates/mcp-server/src/tools/body.rs
    ([$.key], [$['key']], [$[0]], [$[*]]): its parser, its printer and the
    lookup of a path in a document, which the comparison tool uses and which is
    the reference for the streaming extraction of BodyStream.

    The delimiters are ASCII, so scanning bytes and scanning characters agree on
    valid text. *)

From S2P Require Import Prelude Str JsonPath Rewrite TextSearch Redaction RedactedSearch.

(** ** Definitions: the grammar *)

Definition MAX_JSON_PATHS : nat := 20.
Definition MAX_JSON_PATH_VALUE_BYTES : Z := 64 * 1024.

Inductive JsonPathSegment : Type := Key (key : str) | Index (index : Z) | Wildcard.

#[export] Instance JsonPathSegment_eq_dec : EqDecision JsonPathSegment.
Proof. solve_decision. Defined.

(** [char::is_control]: U+0000 to U+001F, U+007F to U+009F *)
Fixpoint has_control (s : str) : bool :=
  match s with
  | [] => false
  | a :: s =>
      (a <? 32) || (a =? 127) || ((a =? 194) && match s with b :: _ => (128 <=? b) && (b <=? 159) | [] => false end)
      || has_control s
  end.

(** The property up to the next [.] or [\[], and what follows *)
Fixpoint scan_property (s : str) : str * str :=
  match s with
  | [] => ([], [])
  | c :: s' =>
      if (c =? chr ".") || (c =? chr "[") then ([], s)
      else let '(key, rest) := scan_property s' in (c :: key, rest)
  end.

(** The loop over the characters of a quoted property *)
Fixpoint quoted_property (quote : byte) (escaped : bool) (output rest : str) : result (JsonPathSegment * str) str :=
  match rest with
  | [] => Err (lit "JSON path contains an unterminated quoted property.")
  | c :: rest =>
      if escaped then quoted_property quote false (output ++ [c]) rest
      else if c =? 92 then quoted_property quote true output rest
      else if c =? quote then
        match rest with
        | d :: rest => if d =? chr "]" then Ok (Key output, rest)
                       else Err (lit "Quoted JSON path property must be followed by ].")
        | [] => Err (lit "Quoted JSON path property must be followed by ].")
        end
      else quoted_property quote false (output ++ [c]) rest
  end.

Definition array_index (inner : str) : result (JsonPathSegment * str) str :=
  match split_once (chr "]") inner with
  | None => Err (lit "JSON path is missing a closing ].")
  | Some (item, rest) =>
      if bool_decide (item = []) || negb (forallb is_digit item) then
        Err (lit "Bracket JSON path segment must be an array index or *.")
      else
        match parse_uint usize_max item with
        | None => Err (lit "JSON path array index is too large.")
        | Some index => Ok (Index index, rest)
        end
  end.

(** [inner] is the path after the opening bracket. *)
Definition parse_bracket_segment (inner : str) : result (JsonPathSegment * str) str :=
  match inner with
  | [] => Err (lit "JSON path is missing a closing ].")
  | c :: rest =>
      if c =? chr "*" then
        match rest with
        | d :: rest => if d =? chr "]" then Ok (Wildcard, rest) else Err (lit "Invalid wildcard JSON path segment.")
        | [] => Err (lit "Invalid wildcard JSON path segment.")
        end
      else if (c =? 39) || (c =? 34) then quoted_property c false [] rest
      else array_index inner
  end.

(** The loop of [parse_json_path] on what is left of the path; every turn
    consumes a byte. *)
Fixpoint parse_segments (fuel : nat) (rest : str) : result (list JsonPathSegment) str :=
  match rest, fuel with
  | [], _ => Ok []
  | _, O => Err []
  | c :: rest, S fuel =>
      if c =? chr "." then
        let '(key, rest) := scan_property rest in
        if bool_decide (key = []) then Err (lit "JSON path contains an empty property segment.")
        else if has_control key then Err (lit "JSON path property contains a control character.")
        else let? segments := parse_segments fuel rest in Ok (Key key :: segments)
      else if c =? chr "[" then
        let? segment := parse_bracket_segment rest in
        let? segments := parse_segments fuel segment.2 in
        Ok (segment.1 :: segments)
      else Err (lit "JSON path must use dot or bracket notation, for example $.key or $['key'].")
  end.

Definition parse_json_path (path : str) : result (list JsonPathSegment) str :=
  match trim path with
  | c :: rest =>
      if c =? chr "$" then parse_segments (length rest) rest else Err (lit "JSON path must start with $.")
  | [] => Err (lit "JSON path must start with $.")
  end.

Fixpoint parse_each (paths : list str) : result (list (list JsonPathSegment)) ToolError :=
  match paths with
  | [] => Ok []
  | path :: paths =>
      let? segments :=
        map_err (fun message => {| te_code := lit "JSON_PATH_INVALID"; te_message := message;
                                   te_retryable := false; te_details := [(lit "path", String path)] |}) (parse_json_path path) in
      let? parsed := parse_each paths in
      Ok (segments :: parsed)
  end.

Definition parse_json_paths (paths : list str) : result (list (list JsonPathSegment)) ToolError :=
  if (MAX_JSON_PATHS <? length paths)%nat then
    Err {| te_code := lit "INVALID_ARGUMENT";
           te_message := lit "jsonPaths accepts at most " ++ show (Z.of_nat MAX_JSON_PATHS) ++ lit " values.";
           te_retryable := false; te_details := [] |}
  else parse_each paths.

Definition append_index_path (path : str) (index : Z) : str := path ++ lit "[" ++ show index ++ lit "]".

Definition render_segment (path : str) (segment : JsonPathSegment) : str :=
  match segment with
  | Key key => append_key_path path key
  | Index index => append_index_path path index
  | Wildcard => path ++ lit "[*]"
  end.

Definition render_json_path (segments : list JsonPathSegment) : str := foldl render_segment (lit "$") segments.

(** ** Definitions: lookup *)

Section Lookup.
Context {number : Type} `{RedactionEnv number}.

Fixpoint extract_matches (v : value number) (segments : list JsonPathSegment) {struct segments}
    : list (value number) :=
  match segments with
  | [] => [v]
  | segment :: rest =>
      match segment, v with
      | Key key, Object o => match obj_get o key with Some v => extract_matches v rest | None => [] end
      | Index index, Array items => match vec_get items index with Some v => extract_matches v rest | None => [] end
      | Wildcard, Array items => concat (map (fun v => extract_matches v rest) items)
      | Wildcard, Object o => concat (map (fun kv => extract_matches kv.2 rest) o)
      | _, _ => []
      end
  end.

(** The longest prefix, from [end_] bytes down, that is text *)
Fixpoint valid_cut (serialized : str) (end_ : nat) : nat :=
  match end_ with
  | O => O
  | S e => if utf8_valid (take end_ serialized) then end_ else valid_cut serialized e
  end.

Definition bounded_json_value (v : value number) : value number * bool :=
  let serialized := to_string v in
  if len serialized <=? MAX_JSON_PATH_VALUE_BYTES then (v, false)
  else
    match v with
    | String text =>
        let end_ := floor_at text (Z.to_nat (Z.min MAX_JSON_PATH_VALUE_BYTES (len text))) in
        (String (take end_ text ++ lit "…[truncated]"), true)
    | _ =>
        let end_ := valid_cut serialized (Z.to_nat (Z.min MAX_JSON_PATH_VALUE_BYTES (len serialized))) in
        (String (take end_ serialized ++ lit "…[truncated JSON value: " ++ show (len serialized) ++ lit " bytes]"), true)
    end.

Definition json_type_name (v : value number) : str :=
  match v with
  | Null => lit "null"
  | Bool _ => lit "boolean"
  | Number _ => lit "number"
  | String _ => lit "string"
  | Array _ => lit "array"
  | Object _ => lit "object"
  end.

Definition is_wildcard (segment : JsonPathSegment) : bool := match segment with Wildcard => true | _ => false end.

(** [Number::from] of an unsigned integer *)
Context (of_usize : Z → number).

Definition matches_len (v : value number) : Z := match v with Array items => len items | _ => 1 end.

Definition extract_json_path (v : value number) (path : str) (segments : list JsonPathSegment) : value number :=
  match extract_matches v segments with
  | [] =>
      Object [(lit "path", String path); (lit "found", Bool false); (lit "value", Null);
              (lit "valueType", String (lit "missing")); (lit "matchCount", Number (of_usize 0));
              (lit "truncated", Bool false)]
  | first :: others =>
      let contains_wildcard := existsb is_wildcard segments in
      let '(v, truncated) :=
        if contains_wildcard || (1 <? length (first :: others))%nat then
          let bounded := map bounded_json_value (first :: others) in
          (Array (map fst bounded), existsb snd bounded)
        else bounded_json_value first in
      Object [(lit "path", String path); (lit "found", Bool true); (lit "value", v);
              (lit "valueType", String (if contains_wildcard then lit "array" else json_type_name first));
              (lit "matchCount", Number (of_usize (if contains_wildcard then matches_len v else 1)));
              (lit "truncated", Bool truncated)]
  end.

End Lookup.

(** ** Printing a path *)

Lemma append_key_path_app path key : append_key_path path key = path ++ append_key_path [] key.
Proof. unfold append_key_path. by destruct (forallb plain_key_byte key). Qed.

Lemma render_segment_app path s : render_segment path s = path ++ render_segment [] s.
Proof. destruct s; cbn [render_segment]; [apply append_key_path_app|done|done]. Qed.

Definition render_rest (segments : list JsonPathSegment) : str := concat (map (render_segment []) segments).

Lemma render_foldl segments path : foldl render_segment path segments = path ++ render_rest segments.
Proof.
  revert path. induction segments as [|s segments IH]; intros path; cbn [foldl].
  - unfold render_rest. cbn. by rewrite app_nil_r.
  - rewrite IH, (render_segment_app path), <- app_assoc. done.
Qed.

(** What may follow a segment: nothing, or another segment. *)
Definition closed_end (s : str) : Prop :=
  match s with [] => True | c :: _ => (c =? chr ".") || (c =? chr "[") = true end.

Lemma render_segment_head s t : closed_end (render_segment [] s ++ t).
Proof. destruct s as [key|i|]; [|done|done]. cbn [render_segment]. unfold append_key_path. by destruct (forallb plain_key_byte key). Qed.

Lemma render_rest_head segments : closed_end (render_rest segments).
Proof. destruct segments as [|s segments]; [done|apply render_segment_head]. Qed.

(** ** Reading a segment back *)

Lemma plain_key_range b :
  plain_key_byte b = true →
  33 <= b <= 126 ∧ (b =? chr ".") = false ∧ (b =? chr "[") = false ∧ b ≠ 127 ∧ b ≠ 194.
Proof. unfold plain_key_byte. intros Hb. breflect. vm_compute (chr _). lia. Qed.

Lemma scan_property_key key rest :
  forallb plain_key_byte key = true → closed_end rest → scan_property (key ++ rest) = (key, rest).
Proof.
  intros Hk Hr. induction key as [|c key IH].
  - destruct rest as [|c rest]; [done|]. cbn in Hr |- *. by rewrite Hr.
  - cbn [forallb] in Hk. apply andb_true_iff in Hk as [Hc Hk]. apply plain_key_range in Hc as (_ & H1 & H2 & _).
    cbn [app scan_property]. rewrite H1, H2, IH by done. done.
Qed.

Lemma plain_no_control key : forallb plain_key_byte key = true → has_control key = false.
Proof.
  induction key as [|c key IH]; [done|]. cbn [forallb has_control]. rewrite andb_true_iff. intros [Hc Hk].
  rewrite IH by done. apply plain_key_range in Hc as (? & _ & _ & ? & ?).
  destruct (Z.ltb_spec c 32); [lia|]. destruct (Z.eqb_spec c 127); [lia|]. by destruct (Z.eqb_spec c 194).
Qed.

Definition escape (b : byte) : str := if b =? 92 then [92; 92] else if b =? 39 then [92; 39] else [b].

Lemma escape_key key : replace_byte 39 [92; 39] (replace_byte 92 [92; 92] key) = concat (map escape key).
Proof.
  unfold replace_byte. induction key as [|b key IH]; [done|]. cbn [map concat].
  rewrite map_app, concat_app, IH. f_equal. unfold escape. destruct (Z.eqb_spec b 92) as [->|]; [done|].
  cbn [map concat]. by rewrite app_nil_r.
Qed.

Lemma quoted_property_key key rest : ∀ output,
  quoted_property 39 false output (concat (map escape key) ++ 39 :: chr "]" :: rest) = Ok (Key (output ++ key), rest).
Proof.
  induction key as [|b key IH]; intros output; cbn [map concat].
  - cbn. by rewrite app_nil_r.
  - rewrite <- app_assoc. unfold escape at 1. destruct (Z.eqb_spec b 92) as [->|Hb].
    { cbn [app quoted_property]. change (92 =? 92) with true. cbv iota. rewrite IH, <- app_assoc. done. }
    destruct (Z.eqb_spec b 39) as [->|Hq]; cbn [app quoted_property].
    { change (92 =? 92) with true. cbv iota. rewrite IH, <- app_assoc. done. }
    destruct (Z.eqb_spec b 92); [done|]. destruct (Z.eqb_spec b 39); [done|]. rewrite IH, <- app_assoc. done.
Qed.

Definition in_range (s : JsonPathSegment) : Prop :=
  match s with Index i => 0 <= i <= usize_max | _ => True end.

Lemma digits_split s rest :
  Forall (fun b => is_digit b = true) s → split_once (chr "]") (s ++ chr "]" :: rest) = Some (s, rest).
Proof.
  intros Hs. apply split_once_Some. split; [done|]. intros Hin. rewrite Forall_forall in Hs.
  specialize (Hs _ Hin). by vm_compute in Hs.
Qed.

Lemma bracket_index i rest :
  0 <= i <= usize_max → parse_bracket_segment (show i ++ chr "]" :: rest) = Ok (Index i, rest).
Proof.
  intros Hi. pose proof (show_digits i ltac:(lia)) as Hd. pose proof (show_nonempty i) as Hn.
  assert (array_index (show i ++ chr "]" :: rest) = Ok (Index i, rest)) as Ha.
  { unfold array_index. rewrite digits_split by done. rewrite bool_decide_false by done.
    assert (forallb is_digit (show i) = true) as -> by (rewrite List.forallb_forall; intros x Hx; rewrite Forall_forall in Hd; by apply Hd, list_elem_of_In).
    cbn [negb orb]. rewrite parse_uint_show; [done|vm_compute; discriminate|done]. }
  destruct (show i) as [|c s]; [done|]. apply Forall_cons in Hd as [Hc _]. rewrite <- Ha.
  assert (48 <= c <= 57) by (unfold is_digit in Hc; breflect; lia). cbn [app parse_bracket_segment].
  destruct (Z.eqb_spec c (chr "*")) as [->|_]; [by vm_compute in Hc|].
  destruct (Z.eqb_spec c 39); [lia|]. destruct (Z.eqb_spec c 34); [lia|done].
Qed.

Lemma parse_segments_step fuel s rest :
  s ≠ Key [] → in_range s → closed_end rest →
  parse_segments (S fuel) (render_segment [] s ++ rest) = let? segments := parse_segments fuel rest in Ok (s :: segments).
Proof.
  intros Hs Hi Hr. destruct s as [key|i|]; cbn [render_segment].
  - unfold append_key_path. destruct (forallb plain_key_byte key) eqn:Hk.
    + cbn [app]. change (lit "." ++ key) with (chr "." :: key). cbn [app parse_segments].
      rewrite scan_property_key by done. cbv beta iota. change (chr "." =? chr ".") with true. cbv iota.
      rewrite bool_decide_false by congruence. by rewrite plain_no_control.
    + rewrite escape_key. change (lit "['") with [chr "["; 39]. change (lit "']") with [39; chr "]"].
      cbn [app parse_segments parse_bracket_segment]. change (chr "[" =? chr ".") with false.
      change (chr "[" =? chr "[") with true. change (39 =? chr "*") with false. cbn [orb]. cbv iota.
      rewrite <- app_assoc. cbn [app]. change (39 =? 39) with true. cbn [orb]. cbv iota.
      by rewrite quoted_property_key.
  - unfold append_index_path. change (lit "[") with [chr "["]. change (lit "]") with [chr "]"].
    cbn [app parse_segments]. change (chr "[" =? chr ".") with false. change (chr "[" =? chr "[") with true. cbv iota.
    rewrite <- app_assoc. cbn [app]. by rewrite bracket_index.
  - done.
Qed.

Lemma parse_render_rest segments : ∀ fuel,
  Forall (fun s => s ≠ Key [] ∧ in_range s) segments → (length segments <= fuel)%nat →
  parse_segments fuel (render_rest segments) = Ok segments.
Proof.
  induction segments as [|s segments IH]; intros fuel Hs Hf; [by destruct fuel|].
  apply Forall_cons in Hs as [[Hk Hr] Hs]. destruct fuel as [|fuel]; [cbn in Hf; lia|].
  unfold render_rest. cbn [map concat]. rewrite parse_segments_step; [|done|done|apply render_rest_head].
  fold (render_rest segments). rewrite IH; [done|done|cbn in Hf; lia].
Qed.

Lemma render_segment_last s : ∃ w b, render_segment [] s = w ++ [b] ∧ plain b.
Proof.
  destruct s as [key|i|]; cbn [render_segment].
  - unfold append_key_path. destruct (forallb plain_key_byte key) eqn:Hk.
    + destruct key as [|b key _] using rev_ind; [by exists [], (chr ".")|].
      exists (lit "." ++ key), b. rewrite forallb_app in Hk. apply andb_true_iff in Hk as [_ Hb]. cbn in Hb.
      rewrite andb_true_r in Hb. apply plain_key_range in Hb as [Hb _]. split; [done|exact Hb].
    + exists (lit "['" ++ replace_byte 39 [92; 39] (replace_byte 92 [92; 92] key) ++ [39]), (chr "]").
      split; [|done]. change (lit "']") with ([39] ++ [chr "]"]). by rewrite !app_assoc.
  - exists (lit "[" ++ show i), (chr "]"). unfold append_index_path. by rewrite <- app_assoc.
  - by exists (lit "[*"), (chr "]").
Qed.

Lemma trim_render segments : trim (render_json_path segments) = chr "$" :: render_rest segments.
Proof.
  unfold render_json_path. rewrite render_foldl. change (lit "$") with [chr "$"].
  destruct segments as [|s segments _] using rev_ind; [by apply trim_plain1|].
  destruct (render_segment_last s) as (w & b & Hs & Hb). unfold render_rest. rewrite map_app, concat_app.
  cbn [map concat]. rewrite app_nil_r, Hs. cbn [app]. rewrite app_assoc. by apply trim_plain.
Qed.

Lemma render_rest_length segments : (length segments <= length (render_rest segments))%nat.
Proof.
  unfold render_rest. induction segments as [|s segments IH]; [done|]. cbn [map concat length]. rewrite length_app.
  destruct (render_segment_last s) as (w & b & -> & _). rewrite length_app. cbn [length]. lia.
Qed.

Lemma parse_render segments :
  Forall (fun s => s ≠ Key [] ∧ in_range s) segments → parse_json_path (render_json_path segments) = Ok segments.
Proof.
  intros Hs. unfold parse_json_path. rewrite trim_render. change (chr "$" =? chr "$") with true. cbv iota.
  apply parse_render_rest; [done|apply render_rest_length].
Qed.

(** ** What the parser accepts *)

Lemma quoted_property_Ok q rest : ∀ escaped output s r,
  quoted_property q escaped output rest = Ok (s, r) → in_range s ∧ (length r <= length rest)%nat.
Proof.
  induction rest as [|c rest IH]; intros escaped output s r; [done|]. cbn [quoted_property length].
  repeat case_match; intros Hq; simplify_eq; try (apply IH in Hq; cbn [length] in Hq; split; [tauto|lia]).
  split; [done|cbn [length]; lia].
Qed.

Lemma bracket_Ok inner s r :
  parse_bracket_segment inner = Ok (s, r) → in_range s ∧ (length r <= length inner)%nat.
Proof.
  unfold parse_bracket_segment. destruct inner as [|c rest]; [done|]. destruct (c =? chr "*").
  { destruct rest as [|d rest]; [done|]. destruct (d =? chr "]"); [|done]. intros [= <- <-]. split; [done|cbn; lia]. }
  destruct ((c =? 39) || (c =? 34)).
  { intros Hq%quoted_property_Ok. cbn [length]. split; [tauto|lia]. }
  unfold array_index. destruct (split_once (chr "]") (c :: rest)) as [[item r']|] eqn:Hsplit; [|done].
  destruct (_ || _); [done|]. destruct (parse_uint usize_max item) as [i|] eqn:Hu; [|done]. intros [= <- <-].
  split; [apply parse_uint_bound in Hu; [exact Hu|vm_compute; discriminate]|].
  apply split_once_Some in Hsplit as [Heq _]. rewrite Heq, length_app. cbn [length]. lia.
Qed.

Lemma scan_property_length s key rest : scan_property s = (key, rest) → (length rest <= length s)%nat.
Proof.
  revert key rest. induction s as [|c s IH]; intros key rest; cbn [scan_property]; [by intros [= <- <-]|].
  destruct (_ || _); [by intros [= <- <-]|]. destruct (scan_property s) as [k r]. intros [= <- <-].
  cbn [length]. specialize (IH _ _ eq_refl). lia.
Qed.

Lemma parse_segments_range fuel : ∀ rest segments, parse_segments fuel rest = Ok segments → Forall in_range segments.
Proof.
  induction fuel as [|fuel IH]; intros [|c rest] segments; cbn [parse_segments];
    [by intros [= <-]|done|by intros [= <-]|].
  destruct (c =? chr ".").
  - destruct (scan_property rest) as [key r]. case_bool_decide; [done|]. destruct (has_control key); [done|].
    destruct (parse_segments fuel r) as [segs|] eqn:Hp; [|done]. intros [= <-]. constructor; [done|by eapply IH].
  - destruct (c =? chr "["); [|done]. destruct (parse_bracket_segment rest) as [[s r]|] eqn:Hb; [|done].
    cbn [rbind fst snd]. destruct (parse_segments fuel r) as [segs|] eqn:Hp; [|done]. intros [= <-].
    constructor; [by eapply bracket_Ok|by eapply IH].
Qed.

(** One unit of fuel per byte is enough: the loop never stops early. *)
Lemma parse_segments_fuel f : ∀ g rest,
  (length rest <= f)%nat → (length rest <= g)%nat → parse_segments f rest = parse_segments g rest.
Proof.
  induction f as [|f IH]; intros [|g] [|c rest] Hf Hg; try done; [cbn in Hf; lia|cbn in Hg; lia|].
  cbn [parse_segments length] in *. destruct (c =? chr ".").
  - destruct (scan_property rest) as [key r] eqn:Hs. apply scan_property_length in Hs.
    rewrite (IH g r) by lia. done.
  - destruct (c =? chr "["); [|done]. destruct (parse_bracket_segment rest) as [[s r]|] eqn:Hb; [|done].
    apply bracket_Ok in Hb as [_ Hb]. cbn [rbind fst snd]. rewrite (IH g r) by lia. done.
Qed.

(** ** The theorem *)

(** The path the server reports for a field is one it accepts: printing any
    path and parsing it gives the path back, for every path the parser produces
    whose keys are not empty.  (The empty key prints as a lone dot, which is
    refused.) *)
Theorem json_path_roundtrip :
  (∀ text segments, parse_json_path text = Ok segments → Key [] ∉ segments →
     parse_json_path (render_json_path segments) = Ok segments) ∧
  (∀ segments, Forall (fun s => s ≠ Key [] ∧ in_range s) segments →
     parse_json_path (render_json_path segments) = Ok segments) ∧
  parse_json_path (lit "$['']") = Ok [Key []] ∧
  parse_json_path (render_json_path [Key []]) = Err (lit "JSON path contains an empty property segment.").
Proof.
  split_and!; [|apply parse_render|vm_compute; reflexivity|vm_compute; reflexivity].
  intros text segments Hp Hk. apply parse_render. unfold parse_json_path in Hp.
  destruct (trim text) as [|c rest]; [done|]. destruct (c =? chr "$"); [|done].
  apply parse_segments_range in Hp. rewrite Forall_forall in Hp |- *. intros s Hs.
  split; [by intros ->|by apply Hp].
Qed.
