(* ===== verification/BodyStream.v ===== *)
(** * BodyStream: reading fields out of a large JSON body

    Models src/crates/mcp-server/src/tools/body_stream.rs: the tree of requested
    paths, the visitors that walk a JSON document once, redact it as they go and
    keep only what a path selects, the limits on what is kept, and
    [extract_json_paths] with the check of the bytes that comes before.

    The deserializer shows the visitors a tree in which repeated keys of an
    object are all present; an error of its own ends the walk.  The errors of
    the visitors are texts; what was kept so far is dropped with them. *)

From S2P Require Import Prelude Str JsonPath Rewrite Utf8 TextSearch Redaction RedactedSearch BodyPaths.

(** ** Definitions: limits *)

Definition MAX_JSON_PATH_SCAN_BYTES : Z := 64 * 1024 * 1024.
Definition ROOT_PATH_SCAN_BYTES : Z := 8 * 1024 * 1024.
Definition MAX_EXTRACTED_VALUE_BYTES : Z := 64 * 1024.
Definition MAX_JSON_PATH_MATCHES : nat := 256.
Definition MAX_EXTRACTED_RESULT_BYTES : Z := 960 * 1024.
Definition MAX_SUMMARY_KEYS : nat := 32.
Definition MAX_SUMMARY_ITEMS : nat := 16.
Definition MAX_SUMMARY_KEY_CHARS : nat := 64.
Definition MAX_SUMMARY_BYTES : Z := 4 * 1024.

Definition usize_add (a b : Z) : Z := sat_add usize_max a b.

(** ** Definitions: the tree of paths *)

(** Maps from keys and from indices are looked up only. *)
Inductive PathNode : Type :=
  mkNode (terminals : list nat) (keys : list (str * PathNode)) (indices : list (Z * PathNode))
    (wildcard : option PathNode).

Definition default_node : PathNode := mkNode [] [] [] None.
Definition terminals (n : PathNode) : list nat := let '(mkNode t _ _ _) := n in t.
Definition node_keys (n : PathNode) : list (str * PathNode) := let '(mkNode _ k _ _) := n in k.
Definition node_indices (n : PathNode) : list (Z * PathNode) := let '(mkNode _ _ i _) := n in i.
Definition node_wildcard (n : PathNode) : option PathNode := let '(mkNode _ _ _ w) := n in w.

Definition has_routes (n : PathNode) : bool :=
  negb (bool_decide (length (node_keys n) = 0%nat)) || negb (bool_decide (length (node_indices n) = 0%nat))
  || match node_wildcard n with Some _ => true | None => false end.
Definition has_terminals (n : PathNode) : bool := negb (bool_decide (terminals n = [])).

Section Maps.
Context {K : Type} `{EqDecision K}.

(** [BTreeMap::get] *)
Fixpoint map_get {V} (k : K) (l : list (K * V)) : option V :=
  match l with
  | [] => None
  | (k', v) :: l => if decide (k' = k) then Some v else map_get k l
  end.

(** [map.entry(k).or_default()], then a change of the entry *)
Fixpoint map_entry {V} (k : K) (or_default : V) (f : V → V) (l : list (K * V)) : list (K * V) :=
  match l with
  | [] => [(k, f or_default)]
  | (k', v) :: l => if decide (k' = k) then (k', f v) :: l else (k', v) :: map_entry k or_default f l
  end.
End Maps.

(** The inner loop of [build_path_tree] *)
Fixpoint add_path (path_index : nat) (path : list JsonPathSegment) (node : PathNode) : PathNode :=
  let '(mkNode t k i w) := node in
  match path with
  | [] => mkNode (t ++ [path_index]) k i w
  | Key key :: path => mkNode t (map_entry key default_node (add_path path_index path) k) i w
  | Index index :: path => mkNode t k (map_entry index default_node (add_path path_index path) i) w
  | Wildcard :: path => mkNode t k i (Some (add_path path_index path (default default_node w)))
  end.

Fixpoint add_paths (path_index : nat) (segments : list (list JsonPathSegment)) (root : PathNode) : PathNode :=
  match segments with
  | [] => root
  | path :: segments => add_paths (S path_index) segments (add_path path_index path root)
  end.

Definition build_path_tree (segments : list (list JsonPathSegment)) : PathNode := add_paths 0 segments default_node.

Definition collect_terminals (nodes : list PathNode) : list nat :=
  dedup (sort_by Nat.leb (concat (map terminals nodes))).

Definition option_list {A} (o : option A) : list A := match o with Some x => [x] | None => [] end.

Definition child_nodes_for_key (nodes : list PathNode) (key : str) : list PathNode :=
  concat (map (fun node => option_list (map_get key (node_keys node)) ++ option_list (node_wildcard node)) nodes).

Definition child_nodes_for_index (nodes : list PathNode) (index : Z) : list PathNode :=
  concat (map (fun node => option_list (map_get index (node_indices node)) ++ option_list (node_wildcard node)) nodes).

(** ** Definitions: the interface *)

Class JsonSource (number : Type) := {
  (** [Number::from] of an unsigned integer *)
  of_usize : Z → number;
  (** serde_json on a reader: the tree shown to the visitor, or the message of
      the error that stops it (or follows it) *)
  json_from_reader : Reader → result (value number) str;
  (** the message of an error a visitor raises, with its place in the text *)
  custom_error : Reader → str → str;
  custom_error_contains r message : contains (custom_error r message) message = true;
  (** the pieces in which a reader hands out its bytes *)
  chunks : Reader → list bytes;
  chunks_concat r : concat (chunks r) = available r;
  chunks_nonempty r : Forall (fun c => c ≠ []) (chunks r)
}.

(** ** Definitions: what is kept *)

Section Capture.
Context {number : Type} `{RedactionEnv number} `{!JsonSource number} (self : Redactor) (raw : bool).

Record CapturedValue := {
  cv_value : value number; cv_type : str; cv_summary : option (value number); cv_truncated : bool;
  cv_size : Z; cv_already_redacted : bool
}.

Definition ignored : CapturedValue :=
  {| cv_value := Null; cv_type := lit "null"; cv_summary := None; cv_truncated := false; cv_size := 0;
     cv_already_redacted := false |}.

Record CapturedMatch := {
  cm_path : str; cm_value : value number; cm_summary : option (value number); cm_type : str; cm_truncated : bool
}.

(** The mutable part of the state; [raw] and the redactor do not change. *)
Record ExtractionState := {
  slots : list (list CapturedMatch); path_limited : list bool; omitted_paths : gset nat;
  redacted_fields : gset str; result_bytes : Z; result_limited : bool
}.

Definition new_state (path_count : nat) : ExtractionState :=
  {| slots := replicate path_count []; path_limited := replicate path_count false; omitted_paths := ∅;
     redacted_fields := ∅; result_bytes := 0; result_limited := false |}.

Definition json_len (v : value number) : Z := len (to_string v).

Definition match_storage_bytes (m : CapturedMatch) : Z :=
  usize_add (usize_add (usize_add (usize_add (json_len (cm_value m))
    (match cm_summary m with Some summary => json_len summary | None => 0 end))
    (len (cm_path m))) (len (cm_type m))) 64.

Definition same_path (m n : CapturedMatch) : bool := bool_decide (cm_path n = cm_path m).

Definition with_slot (st : ExtractionState) (path_index : nat) (slot : list CapturedMatch) (bytes_ : Z)
    : ExtractionState :=
  {| slots := <[path_index := slot]> (slots st); path_limited := path_limited st; omitted_paths := omitted_paths st;
     redacted_fields := redacted_fields st; result_bytes := bytes_; result_limited := result_limited st |}.

(** [path_limited\[path_index\] = true] *)
Definition limit_path (st : ExtractionState) (path_index : nat) : ExtractionState :=
  {| slots := slots st; path_limited := <[path_index := true]> (path_limited st); omitted_paths := omitted_paths st;
     redacted_fields := redacted_fields st; result_bytes := result_bytes st; result_limited := result_limited st |}.

(** A match that does not fit in the result *)
Definition omit (st : ExtractionState) (path_index : nat) : ExtractionState :=
  let st := limit_path st path_index in
  {| slots := slots st; path_limited := path_limited st; omitted_paths := omitted_paths st ∪ {[path_index]};
     redacted_fields := redacted_fields st; result_bytes := result_bytes st; result_limited := true |}.

(** A path index is always the index of a slot ([capture_slots] in
    BodyStreamFacts). *)
Definition push_match (st : ExtractionState) (m : CapturedMatch) (path_index : nat) : ExtractionState :=
  let captured_bytes := match_storage_bytes m in
  match slots st !! path_index with
  | None => st
  | Some slot =>
      match find_first (same_path m) slot with
      | Some existing =>
          let previous_bytes := match_storage_bytes existing in
          let next_bytes := usize_add (sat_sub (result_bytes st) previous_bytes) captured_bytes in
          if MAX_EXTRACTED_RESULT_BYTES <? next_bytes then
            with_slot (omit st path_index) path_index (List.filter (fun n => negb (same_path m n)) slot)
              (sat_sub (result_bytes st) previous_bytes)
          else with_slot st path_index (upsert (same_path m) m slot) next_bytes
      | None =>
          if (MAX_JSON_PATH_MATCHES <=? length slot)%nat then limit_path st path_index
          else if MAX_EXTRACTED_RESULT_BYTES <? usize_add (result_bytes st) captured_bytes then omit st path_index
          else with_slot st path_index (slot ++ [m]) (usize_add (result_bytes st) captured_bytes)
      end
  end.

Definition collect_redactions (st : ExtractionState) (records : list RedactionRecord) : ExtractionState :=
  {| slots := slots st; path_limited := path_limited st; omitted_paths := omitted_paths st;
     redacted_fields := redacted_fields st ∪ list_to_set (map rr_rule records);
     result_bytes := result_bytes st; result_limited := result_limited st |}.

Definition capture (terminals : list nat) (path : str) (c : CapturedValue) (st : ExtractionState) : ExtractionState :=
  let '(v, st) :=
    if negb raw && negb (cv_already_redacted c) then
      let '(v, records) := redact_json_value self (cv_value c) path [] in (v, collect_redactions st records)
    else (cv_value c, st) in
  foldl (fun st path_index => push_match st
           {| cm_path := path; cm_value := v; cm_summary := cv_summary c; cm_type := cv_type c;
              cm_truncated := cv_truncated c |} path_index) st terminals.

Definition capture_sensitive (terminals : list nat) (path : str) (c : CapturedValue) (st : ExtractionState)
    : ExtractionState :=
  foldl (fun st path_index => push_match st
           {| cm_path := path; cm_value := cv_value c; cm_summary := None; cm_type := cv_type c;
              cm_truncated := cv_truncated c |} path_index) st terminals.

(** ** Definitions: summaries *)

Definition json_usize (n : Z) : value number := Number (of_usize n).

(** The first [n] characters *)
Fixpoint take_chars (n : nat) (s : str) : str :=
  match s with
  | [] => []
  | b :: s =>
      if cont b then b :: take_chars n s
      else match n with O => [] | S n => b :: take_chars n s end
  end.

Definition truncate_text (text : str) (max_chars : nat) : str :=
  if (chars_count text <=? max_chars)%nat then text else take_chars max_chars text ++ lit "…".

Definition summary_size_bytes (c : CapturedValue) : value number :=
  if bool_decide (cv_type c = lit "object") || bool_decide (cv_type c = lit "array") then Null
  else json_usize (cv_size c).

Definition push_summary_key (keys : list (value number)) (key : str) (c : CapturedValue) : list (value number) :=
  if (length keys <? MAX_SUMMARY_KEYS)%nat then
    keys ++ [Object [(lit "name", String (truncate_text key MAX_SUMMARY_KEY_CHARS)); (lit "kind", String (cv_type c));
                     (lit "sizeBytes", summary_size_bytes c)]]
  else keys.

Definition summary_item (index : Z) (c : CapturedValue) : value number :=
  Object [(lit "index", json_usize index); (lit "kind", String (cv_type c)); (lit "sizeBytes", summary_size_bytes c)].

Definition summary (kind : str) (size key_count returned : value number) (keys : list (value number))
    (array_length : value number) (items : list (value number)) : value number :=
  Object [(lit "kind", String kind); (lit "sizeBytes", size); (lit "keyCount", key_count);
          (lit "returnedKeys", returned); (lit "keys", Array keys); (lit "arrayLength", array_length);
          (lit "items", Array items)].

(** [summary.get_mut(name).and_then(as_array_mut)], then [pop]: the summary
    without the last element and how many are left *)
Definition pop_from (name : str) (summary : value number) : option (value number * Z) :=
  match summary with
  | Object o =>
      match obj_get o name with
      | Some (Array a) =>
          match a with
          | [] => None
          | _ => Some (Object (obj_insert o name (Array (removelast a))), len a - 1)
          end
      | _ => None
      end
  | _ => None
  end.

Definition set_field (name : str) (v summary : value number) : value number :=
  match summary with Object o => Object (obj_insert o name v) | other => other end.

(** Every turn of the loop drops an element. *)
Fixpoint bounded_summary_go (fuel : nat) (summary : value number) : value number :=
  match fuel with
  | O => summary
  | S fuel =>
      if json_len summary <=? MAX_SUMMARY_BYTES then summary
      else
        match pop_from (lit "keys") summary with
        | Some (summary, remaining) =>
            bounded_summary_go fuel (set_field (lit "returnedKeys") (json_usize remaining) summary)
        | None =>
            match pop_from (lit "items") summary with
            | Some (summary, _) => bounded_summary_go fuel summary
            | None => summary
            end
        end
  end.

(** At most 32 keys and 16 items are collected. *)
Definition bounded_summary (summary : value number) : value number := bounded_summary_go 49 summary.

(** ** Definitions: values *)

Definition complete_scalar (v : value number) : CapturedValue :=
  {| cv_value := v; cv_type := json_type_name v; cv_summary := None; cv_truncated := false; cv_size := json_len v;
     cv_already_redacted := false |}.

Definition captured_string (text path : str) (st : ExtractionState) : CapturedValue * ExtractionState :=
  let '(text, already_redacted, st) :=
    if raw then (text, false, st)
    else
      let '(redacted, records) := redact_json_value self (String text) path [] in
      let st := collect_redactions st records in
      match redacted with String redacted => (redacted, true, st) | _ => (text, false, st) end in
  if len text <=? MAX_EXTRACTED_VALUE_BYTES then
    (let c := complete_scalar (String text) in
     {| cv_value := cv_value c; cv_type := cv_type c; cv_summary := cv_summary c; cv_truncated := cv_truncated c;
        cv_size := cv_size c; cv_already_redacted := already_redacted |}, st)
  else
    let bounded := take (floor_at text (Z.to_nat MAX_EXTRACTED_VALUE_BYTES)) text ++ lit "…[truncated]" in
    ({| cv_value := String bounded; cv_type := lit "string";
        cv_summary := Some (summary (lit "string") (json_usize (json_len (String text))) Null Null [] Null []);
        cv_truncated := true; cv_size := json_len (String bounded); cv_already_redacted := already_redacted |}, st).

Definition ensure_json_depth (depth : nat) : result unit str :=
  if (MAX_JSON_DEPTH <=? depth)%nat then
    Err (lit "recursion limit exceeded: maximum JSON depth is " ++ show (Z.of_nat MAX_JSON_DEPTH))
  else Ok tt.

Section Each.
Context {V : Type} (visit : V → result unit str).
Fixpoint visit_each (items : list V) : result unit str :=
  match items with
  | [] => Ok tt
  | v :: items => let? _ := visit v in visit_each items
  end.
End Each.

(** [DepthLimitedIgnoredSeed], [DepthLimitedIgnoredVisitor] *)
Fixpoint ignore_value (depth : nat) (v : value number) : result unit str :=
  match v with
  | Array items => let? _ := ensure_json_depth depth in visit_each (ignore_value (S depth)) items
  | Object o => let? _ := ensure_json_depth depth in visit_each (fun kv => ignore_value (S depth) kv.2) o
  | _ => Ok tt
  end.

(** [SensitiveValueVisitor]: of a container nothing is kept, its elements are
    skipped as [DepthLimitedIgnoredVisitor] skips them. *)
Definition sensitive_value (depth : nat) (v : value number) : result (value number) str :=
  match v with
  | Object _ => let? _ := ignore_value depth v in Ok (Object [])
  | Array _ => let? _ := ignore_value depth v in Ok (Array [])
  | v => Ok v
  end.

(** [SensitiveValueSeed] *)
Definition capture_field (key : str) (v : value number) (path : str) (depth : nat) (st : ExtractionState)
    : result (CapturedValue * ExtractionState) str :=
  let? candidate := sensitive_value depth v in
  let '(v, records) := default (candidate, []) (redact_json_field self key candidate path []) in
  Ok ({| cv_value := v; cv_type := json_type_name v; cv_summary := None; cv_truncated := false;
         cv_size := json_len v; cv_already_redacted := true |}, collect_redactions st records).

(** ** Definitions: containers *)

(** The locals of [visit_map] and of [visit_seq] *)
Record Collected (A : Type) := {
  co_items : list A; co_size : Z; co_count : Z; co_summaries : list (value number); co_truncated : bool
}.
Arguments co_items {A}.
Arguments co_size {A}.
Arguments co_count {A}.
Arguments co_summaries {A}.
Arguments co_truncated {A}.

Definition nothing {A} : Collected A :=
  {| co_items := []; co_size := 2; co_count := 0; co_summaries := []; co_truncated := false |}.

Definition counted {A} (c : Collected A) (count : Z) : Collected A :=
  {| co_items := co_items c; co_size := co_size c; co_count := count; co_summaries := co_summaries c;
     co_truncated := co_truncated c |}.

(** What [append_object_entry] and [append_array_entry] do with the size of the
    new entry *)
Definition append_entry {A} (c : Collected A) (next_size : Z) (items : list A) (summaries : list (value number))
    : Collected A :=
  if co_truncated c then
    {| co_items := co_items c; co_size := co_size c; co_count := co_count c; co_summaries := summaries;
       co_truncated := true |}
  else if MAX_EXTRACTED_VALUE_BYTES <? next_size then
    {| co_items := []; co_size := next_size; co_count := co_count c; co_summaries := summaries; co_truncated := true |}
  else
    {| co_items := items; co_size := next_size; co_count := co_count c; co_summaries := summaries;
       co_truncated := false |}.

Definition comma {A} (items : list A) : Z := if bool_decide (length items = 0%nat) then 0 else 1.

(** [append_object_entry], [push_summary_key] *)
Definition append_object_entry (c : Collected (str * value number)) (key : str) (captured : CapturedValue) :=
  append_entry c
    (usize_add (usize_add (usize_add (usize_add (co_size c) (comma (co_items c))) (json_len (String key))) 1)
       (json_len (cv_value captured)))
    (obj_insert (co_items c) key (cv_value captured)) (push_summary_key (co_summaries c) key captured).

(** [append_array_entry] and the summary of the item *)
Definition append_array_entry (c : Collected (value number)) (captured : CapturedValue) :=
  append_entry c (usize_add (usize_add (co_size c) (comma (co_items c))) (json_len (cv_value captured)))
    (co_items c ++ [cv_value captured])
    (if (length (co_summaries c) <? MAX_SUMMARY_ITEMS)%nat
     then co_summaries c ++ [summary_item (co_count c) captured] else co_summaries c).

(** The ends of [visit_map] and of [visit_seq] *)
Definition finish {A} (build : bool) (kind : str) (make : list A → value number)
    (summary_of : Collected A → value number) (c : Collected A) : CapturedValue :=
  if negb build then ignored
  else if co_truncated c then
    {| cv_value := Null; cv_type := kind; cv_summary := Some (bounded_summary (summary_of c)); cv_truncated := true;
       cv_size := co_size c; cv_already_redacted := negb raw |}
  else
    {| cv_value := make (co_items c); cv_type := kind; cv_summary := None; cv_truncated := false;
       cv_size := json_len (make (co_items c)); cv_already_redacted := negb raw |}.

Definition finish_map (build : bool) (c : Collected (str * value number)) : CapturedValue :=
  finish build (lit "object") Object
    (fun c => summary (lit "object") Null (json_usize (co_count c)) (json_usize (len (co_summaries c)))
                (co_summaries c) Null []) c.

Definition finish_seq (build : bool) (c : Collected (value number)) : CapturedValue :=
  finish build (lit "array") Array
    (fun c => summary (lit "array") Null Null Null [] (json_usize (co_count c)) (co_summaries c)) c.

(** No path leads to the value or below it. *)
Definition unwanted (build : bool) (nodes : list PathNode) : bool :=
  negb build && bool_decide (collect_terminals nodes = []) && negb (existsb has_routes nodes).

Section Containers.
(** [CaptureSeed] on an element, [DepthLimitedIgnoredSeed] on an element,
    [SensitiveValueSeed] on a field *)
Context (seed : list PathNode → str → bool → value number → ExtractionState → result (CapturedValue * ExtractionState) str)
  (ignore : value number → result unit str)
  (field : str → value number → str → ExtractionState → result (CapturedValue * ExtractionState) str)
  (nodes : list PathNode) (path : str) (build : bool).

(** The loop of [visit_map] *)
Fixpoint visit_map (o : list (str * value number)) (c : Collected (str * value number)) (st : ExtractionState)
    : result (Collected (str * value number) * ExtractionState) str :=
  match o with
  | [] => Ok (c, st)
  | (key, v) :: o =>
      let c := counted c (co_count c + 1) in
      let child_nodes := child_nodes_for_key nodes key in
      let child_terminals := collect_terminals child_nodes in
      if unwanted build child_nodes then let? _ := ignore v in visit_map o c st
      else
        let child_path := append_key_path path key in
        if negb raw && is_sensitive_name self key then
          let? out := field key v child_path st in
          let c := if build then append_object_entry c key out.1 else c in
          let st := if bool_decide (child_terminals = []) then out.2
                    else capture_sensitive child_terminals child_path out.1 out.2 in
          visit_map o c st
        else
          let? out := seed child_nodes child_path (build || negb (bool_decide (child_terminals = []))) v st in
          visit_map o (if build then append_object_entry c key out.1 else c) out.2
  end.

(** The loop of [visit_seq]; [co_count] is the index. *)
Fixpoint visit_seq (items : list (value number)) (c : Collected (value number)) (st : ExtractionState)
    : result (Collected (value number) * ExtractionState) str :=
  match items with
  | [] => Ok (c, st)
  | v :: items =>
      let index := co_count c in
      let child_nodes := child_nodes_for_index nodes index in
      let child_terminals := collect_terminals child_nodes in
      if unwanted build child_nodes then
        let? _ := ignore v in visit_seq items (counted c (usize_add index 1)) st
      else
        let? out := seed child_nodes (append_index_path path index)
                      (build || negb (bool_decide (child_terminals = []))) v st in
        visit_seq items (counted (if build then append_array_entry c out.1 else c) (usize_add index 1)) out.2
  end.
End Containers.

(** [CaptureSeed] and [CaptureVisitor] *)
Fixpoint capture_value (nodes : list PathNode) (path : str) (collect_all : bool) (depth : nat) (v : value number)
    (st : ExtractionState) {struct v} : result (CapturedValue * ExtractionState) str :=
  let terminals := collect_terminals nodes in
  let build := collect_all || negb (bool_decide (terminals = [])) in
  if negb build && negb (existsb has_routes nodes) then
    let? _ := ignore_value depth v in Ok (ignored, st)
  else
    let seed nodes path collect_all v st := capture_value nodes path collect_all (S depth) v st in
    let field key v path st := capture_field key v path (S depth) st in
    let? out :=
      match v with
      | Null | Bool _ | Number _ => Ok (complete_scalar v, st)
      | String text => Ok (captured_string text path st)
      | Array items =>
          let? _ := ensure_json_depth depth in
          let? out := visit_seq seed (ignore_value (S depth)) nodes path build items nothing st in
          Ok (finish_seq build out.1, out.2)
      | Object o =>
          let? _ := ensure_json_depth depth in
          let? out := visit_map seed (ignore_value (S depth)) field nodes path build o nothing st in
          Ok (finish_map build out.1, out.2)
      end in
    Ok (out.1, if bool_decide (terminals = []) then out.2 else capture terminals path out.1 out.2).

(** ** Definitions: results *)

Definition path_result (segments : list JsonPathSegment) (matches : list CapturedMatch) (limited omitted : bool)
    : value number :=
  let path := render_json_path segments in
  match matches with
  | [] =>
      Object [(lit "path", String path); (lit "found", Bool false); (lit "value", Null);
              (lit "valueType", String (lit "missing")); (lit "matchCount", json_usize 0);
              (lit "truncated", Bool (limited || omitted)); (lit "valueSummary", Null);
              (lit "omittedByResultLimit", Bool omitted)]
  | first :: others =>
      let contains_wildcard := existsb is_wildcard segments in
      let single := bool_decide (length others = 0%nat) in
      Object [(lit "path", String path); (lit "found", Bool true);
              (lit "value", if contains_wildcard || negb single then Array (map cm_value (first :: others))
                            else cm_value first);
              (lit "valueType", String (if contains_wildcard then lit "array" else cm_type first));
              (lit "matchCount", json_usize (len (first :: others)));
              (lit "truncated", Bool (limited || existsb cm_truncated (first :: others)));
              (lit "valueSummary", if single then default Null (cm_summary first) else Null);
              (lit "omittedByResultLimit", Bool false)]
  end.

Fixpoint build_results (path_index : nat) (segments : list (list JsonPathSegment)) (st : ExtractionState)
    : list (value number) :=
  match segments with
  | [] => []
  | path :: segments =>
      path_result path (default [] (slots st !! path_index)) (default false (path_limited st !! path_index))
        (bool_decide (path_index ∈ omitted_paths st))
      :: build_results (S path_index) segments st
  end.

Record JsonPathExtraction := {
  jx_values : list (value number); jx_truncated : bool; jx_redacted_fields : list str; jx_view_size_bytes : Z;
  jx_hash : str
}.

End Capture.

Arguments CapturedValue number : clear implicits.
Arguments CapturedMatch number : clear implicits.
Arguments ExtractionState number : clear implicits.
Arguments JsonPathExtraction number : clear implicits.
Arguments Collected number A : clear implicits.
Arguments co_items {number A}.
Arguments co_size {number A}.
Arguments co_count {number A}.
Arguments co_summaries {number A}.
Arguments co_truncated {number A}.

(** ** Definitions: the bytes *)

(** [str::from_utf8]: all well formed, an error at the end that more bytes could
    complete ([error_len() == None]) with the length of what is well formed, or
    another error *)
Inductive Utf8Check := WellFormed | CutOff (valid_up_to : nat) | IllFormed.

Fixpoint check_utf8 (fuel : nat) (valid_up_to : nat) (s : bytes) : Utf8Check :=
  match fuel, s with
  | S fuel, a :: s1 =>
      match char_head a s1 with
      | Valid n => check_utf8 fuel (valid_up_to + n) (drop n s)
      | Invalid _ => IllFormed
      | Incomplete _ => CutOff valid_up_to
      end
  | _, _ => WellFormed
  end.

Definition invalid_utf8_error : ToolError :=
  reason_error (lit "BODY_NOT_JSON") (lit "The body is not UTF-8 JSON.") (lit "invalidUtf8").

Definition scan_limit_error (decoded_size_bytes : Z) : ToolError :=
  {| te_code := lit "BODY_TOO_LARGE";
     te_message := lit "JSON field extraction requires scanning the complete body, but it exceeds "
       ++ show MAX_JSON_PATH_SCAN_BYTES ++ lit " bytes.";
     te_retryable := false; te_details := [(lit "reason", String (lit "scanLimit")); (lit "decodedSizeBytes", Number decoded_size_bytes);
                    (lit "scanLimitBytes", Number MAX_JSON_PATH_SCAN_BYTES)] |}.

Definition root_limit_error (decoded_size_bytes : Z) : ToolError :=
  {| te_code := lit "BODY_TOO_LARGE";
     te_message := lit "The root JSON path ($) is limited to 8 MiB. Request a specific field path instead of the full root value.";
     te_retryable := false; te_details := [(lit "decodedSizeBytes", Number decoded_size_bytes); (lit "reason", String (lit "rootPathTooLarge"));
                    (lit "rootPathLimitBytes", Number ROOT_PATH_SCAN_BYTES)] |}.

Definition file_missing (error : str) : ToolError :=
  reason_error (lit "BODY_NOT_FOUND") (lit "The stored body file is unavailable: " ++ error) (lit "fileMissing").

(** What stays pending after a chunk *)
Definition validate_utf8_chunk (pending chunk : bytes) : result bytes ToolError :=
  let pending := pending ++ chunk in
  match check_utf8 (length pending) 0 pending with
  | WellFormed => Ok []
  | CutOff valid => Ok (drop valid pending)
  | IllFormed => Err invalid_utf8_error
  end.

Definition json_parse_error (message : str) (capture_truncated : bool) : ToolError :=
  let too_deep := contains message (lit "recursion limit exceeded") in
  {| te_code := if too_deep then lit "JSON_TOO_DEEP" else lit "BODY_NOT_JSON";
     te_message := (if too_deep then lit "The JSON body exceeds the maximum supported depth: "
                    else lit "The body is not valid JSON: ") ++ message;
     te_retryable := false; te_details :=
       [(lit "reason", String (if too_deep then lit "depthLimit" else lit "invalidJson"));
        (lit "captureTruncated", Bool capture_truncated)]
       ++ (if too_deep then [(lit "maxDepth", Number (Z.of_nat MAX_JSON_DEPTH))] else []) |}.

Section Extract.
Context {number : Type} `{RedactionEnv number} `{!BodyAccess number} `{!JsonSource number} (self : Redactor).

(** The reading loop of [validate_file]; [hashed] is what the hasher has seen. *)
Fixpoint validate_chunks (pending hashed : bytes) (total : Z) (read : list bytes) (failed : option str)
    : result str ToolError :=
  match read with
  | [] =>
      match failed with
      | Some error => Err (read_failed error)
      | None => match pending with [] => Ok (sha256_hex hashed) | _ => Err invalid_utf8_error end
      end
  | chunk :: read =>
      let total := usize_add total (len chunk) in
      if MAX_JSON_PATH_SCAN_BYTES <? total then Err (scan_limit_error total)
      else
        let? pending := validate_utf8_chunk pending chunk in
        validate_chunks pending (hashed ++ chunk) total read failed
  end.

Definition validate_file (path : str) : result str ToolError :=
  let? reader := map_err file_missing (open_body_reader path) in
  validate_chunks [] [] 0 (chunks reader) (failure reader).

Definition validate_bytes (b : bytes) : result str ToolError :=
  if MAX_JSON_PATH_SCAN_BYTES <? len b then Err (scan_limit_error (len b))
  else match from_utf8 b with None => Err invalid_utf8_error | Some _ => Ok (sha256_hex b) end.

Definition parse_reader (raw : bool) (reader : Reader) (root : PathNode) (st : ExtractionState number)
    (capture_truncated : bool) : result (ExtractionState number) ToolError :=
  match json_from_reader reader with
  | Err message => Err (json_parse_error message capture_truncated)
  | Ok v =>
      match capture_value self raw [root] (lit "$") (has_terminals root) 0 v st with
      | Err message => Err (json_parse_error (custom_error reader message) capture_truncated)
      | Ok (_, st) => Ok st
      end
  end.

Definition extraction_of (segments : list (list JsonPathSegment)) (hash : str) (st : ExtractionState number)
    : JsonPathExtraction number :=
  let values := build_results 0 segments st in
  {| jx_values := values;
     jx_truncated := existsb (fun limited => limited) (path_limited st) || result_limited st
       || existsb cm_truncated (concat (slots st));
     jx_redacted_fields := dedup (sort_by str_leb (elements (redacted_fields st)));
     jx_view_size_bytes := json_len (Array values);
     jx_hash := hash |}.

Definition extract_json_paths (reference : StoredBodyReference) (decoded_size_bytes : Z)
    (segments : list (list JsonPathSegment)) (raw : bool) : result (JsonPathExtraction number) ToolError :=
  if MAX_JSON_PATH_SCAN_BYTES <? decoded_size_bytes then Err (scan_limit_error decoded_size_bytes)
  else if existsb (fun path => bool_decide (path = [])) segments && (ROOT_PATH_SCAN_BYTES <? decoded_size_bytes) then
    Err (root_limit_error decoded_size_bytes)
  else
    let root := build_path_tree segments in
    let st := new_state (length segments) in
    let? out :=
      match file_path reference with
      | Some path =>
          let? hash := validate_file path in
          let? reader := map_err file_missing (open_body_reader path) in
          let? st := parse_reader raw reader root st (truncated reference) in
          Ok (hash, st)
      | None =>
          let? b := decode_inline_reference (number := number) reference in
          let? hash := validate_bytes b in
          let? st := parse_reader raw {| available := b; failure := None |} root st (truncated reference) in
          Ok (hash, st)
      end in
    Ok (extraction_of segments out.1 out.2).

(** ** Definitions: the tools *)

Definition extract_fields_from_reference (reference : StoredBodyReference) (decoded_size_bytes : Z)
    (segments : list (list JsonPathSegment)) (raw : bool) : result (list (value number) * bool) ToolError :=
  let? extraction := extract_json_paths reference decoded_size_bytes segments raw in
  Ok (jx_values extraction, jx_truncated extraction).

End Extract.
