(* ===== verification/BodyStreamFacts.v ===== *)
(** * BodyStreamFacts: the check of the bytes, and what an extraction may tell

    Facts on BodyStream: validating a file chunk by chunk decides the same as
    validating its bytes at once, the limits on what is kept hold after every
    match, and an extraction in redacted mode is the same for all documents that
    differ only in masked fields. *)

From S2P Require Import Prelude Str JsonPath Rewrite Utf8 TextSearch Redaction RedactedSearch BodyPaths BodyStream.

(** ** Bytes in chunks *)

Lemma utf8_valid_skip v t : utf8_valid v = true → utf8_valid (v ++ t) = utf8_valid t.
Proof.
  remember (length v) as k eqn:Hk. assert (length v <= k)%nat as Hle by lia. clear Hk. revert v Hle.
  induction k as [|k IH]; intros [|a v] Hle Hv; try done; [cbn in Hle; lia|].
  destruct (utf8_first a v Hv) as (ch & r & Heq & Hc & Hr). rewrite Heq in *.
  rewrite <- app_assoc, (char_skip _ Hc). apply IH; [|done].
  assert (1 <= length ch)%nat by (destruct ch; [by destruct (char_ne _ Hc)|cbn; lia]).
  rewrite length_app in Hle. lia.
Qed.

Lemma char_head_grow a s t n :
  (char_head a s = Invalid n → char_head a (s ++ t) = Invalid n) ∧
  (char_head a s = Valid n → char_head a (s ++ t) = Valid n ∧ (1 <= n)%nat).
Proof.
  unfold char_head. destruct s as [|b [|c [|d s]]]; cbn [app];
    repeat match goal with |- context [if ?x then _ else _] => destruct x eqn:? end;
    split; intros Hh; simplify_eq; (done || (split; [done|lia])).
Qed.

Lemma char_head_not_valid a s : (∀ n, char_head a s ≠ Valid n) → utf8_valid (a :: s) = false.
Proof.
  intros Hn. apply not_true_is_false. intros Hv. destruct (valid_char_head a s Hv) as [n Hs]. by apply (Hn n).
Qed.

(** What the check says of the bytes and of any continuation *)
Lemma check_utf8_spec fuel : ∀ k s, (length s <= fuel)%nat →
  match check_utf8 fuel k s with
  | WellFormed => utf8_valid s = true
  | CutOff n => ∃ v r, s = v ++ r ∧ n = (k + length v)%nat ∧ utf8_valid v = true ∧ utf8_valid r = false
  | IllFormed => ∀ t, utf8_valid (s ++ t) = false
  end.
Proof.
  induction fuel as [|fuel IH]; intros k [|a s] Hf; try done; [cbn in Hf; lia|]. cbn [check_utf8].
  destruct (char_head a s) as [n|n|n] eqn:Hn.
  - destruct (char_head_valid _ _ _ Hn) as [Hc Hle]. destruct (char_head_grow a s [] n) as [_ Hg].
    destruct (Hg Hn) as [_ H1]. specialize (IH (k + n)%nat (drop n (a :: s))). rewrite length_drop in IH.
    specialize (IH ltac:(cbn [length] in *; lia)). pose proof (char_skip _ Hc) as Hskip.
    assert (a :: s = take n (a :: s) ++ drop n (a :: s)) as Heq by by rewrite take_drop.
    destruct (check_utf8 fuel (k + n) (drop n (a :: s))) as [|m|].
    + by rewrite Heq, Hskip.
    + destruct IH as (v & r & Hd & -> & Hv & Hr). exists (take n (a :: s) ++ v), r. rewrite Hskip. split_and!; [|
        rewrite length_app, length_take; cbn [length] in *; lia|done|done]. by rewrite Heq, <- app_assoc, Hd at 1.
    + intros t. by rewrite Heq, <- app_assoc, Hskip.
  - intros t. apply (char_head_not_valid a (s ++ t)). intros m Hm. destruct (char_head_grow a s t n) as [Hg _].
    by rewrite (Hg Hn) in Hm.
  - exists [], (a :: s). split_and!; [done|cbn; lia|done|]. apply char_head_not_valid. congruence.
Qed.

Section Chunks.
Context {number : Type} `{RedactionEnv number} `{!BodyAccess number} `{!JsonSource number}.

Lemma usize_add_exact a b : a + b <= usize_max → usize_add a b = a + b.
Proof. unfold usize_add, sat_add. lia. Qed.

(** The loop has seen [v ++ pending], [v] is text, and [pending] is text only
    when it is empty. *)
Lemma validate_chunks_spec read : ∀ v pending,
  utf8_valid v = true → (pending = [] ∨ utf8_valid pending = false) →
  len (v ++ pending ++ concat read) <= MAX_JSON_PATH_SCAN_BYTES →
  validate_chunks pending (v ++ pending) (len (v ++ pending)) read None
    = if utf8_valid (v ++ pending ++ concat read) then Ok (sha256_hex (v ++ pending ++ concat read))
      else Err invalid_utf8_error.
Proof.
  induction read as [|chunk read IH]; intros v pending Hv Hp Hlen; cbn [validate_chunks concat].
  - rewrite app_nil_r, (utf8_valid_skip v pending) by done. destruct pending as [|b pending]; [done|].
    destruct Hp as [|Hp]; [done|]. by rewrite Hp.
  - cbn [concat] in Hlen. rewrite !len_app in Hlen. pose proof (len_nonneg (concat read)).
    rewrite usize_add_exact by (rewrite len_app; unfold usize_max, u64_max, MAX_JSON_PATH_SCAN_BYTES in *; lia).
    destruct (Z.ltb_spec MAX_JSON_PATH_SCAN_BYTES (len (v ++ pending) + len chunk)); [rewrite len_app in *; lia|].
    unfold validate_utf8_chunk. pose proof (check_utf8_spec (length (pending ++ chunk)) 0 (pending ++ chunk) ltac:(done)) as Hc.
    rewrite <- len_app. destruct (check_utf8 _ 0 (pending ++ chunk)) as [|n|]; cbn [rbind].
    + specialize (IH (v ++ pending ++ chunk) []). rewrite app_nil_r in IH. cbn [app] in IH. rewrite !app_assoc in *.
      rewrite IH; [done|by rewrite <- app_assoc, utf8_valid_skip|by left|]. rewrite !len_app. lia.
    + destruct Hc as (w & r & Heq & -> & Hw & Hr). rewrite Heq. cbn [Nat.add]. rewrite drop_app_length.
      specialize (IH (v ++ w) r). rewrite <- !app_assoc in *. rewrite Heq in *.
      assert (pending ++ chunk ++ concat read = w ++ r ++ concat read) as Hcat by (by rewrite app_assoc, Heq, <- app_assoc).
      rewrite IH; [by rewrite Hcat|by rewrite utf8_valid_skip|by right|]. rewrite <- Hcat, !len_app. lia.
    + rewrite (utf8_valid_skip v) by done. by rewrite app_assoc, Hc.
Qed.

Lemma validate_file_exact path r :
  open_body_reader path = Ok r → failure r = None → len (available r) <= MAX_JSON_PATH_SCAN_BYTES →
  validate_file path = validate_bytes (available r).
Proof.
  intros Hr Hf Hlen. unfold validate_file, validate_bytes. rewrite Hr. cbn [map_err rbind]. rewrite Hf.
  pose proof (validate_chunks_spec (chunks r) [] [] eq_refl (or_introl eq_refl)) as Hs.
  cbn [app] in Hs. rewrite chunks_concat in Hs. rewrite len_nil in Hs. rewrite Hs by done.
  destruct (Z.ltb_spec MAX_JSON_PATH_SCAN_BYTES (len (available r))); [lia|].
  unfold from_utf8. by destruct (utf8_valid (available r)).
Qed.

(** A read that fails gives no digest. *)
Lemma validate_chunks_failed read error : ∀ pending hashed total,
  is_ok (validate_chunks pending hashed total read (Some error)) = false.
Proof.
  induction read as [|chunk read IH]; intros pending hashed total; cbn [validate_chunks]; [done|].
  destruct (_ <? _); [done|]. destruct (validate_utf8_chunk pending chunk); [apply IH|done].
Qed.

(** Too many bytes give no digest either. *)
Lemma validate_chunks_long read failed : ∀ pending hashed total,
  0 <= total <= MAX_JSON_PATH_SCAN_BYTES → MAX_JSON_PATH_SCAN_BYTES < total + len (concat read) →
  is_ok (validate_chunks pending hashed total read failed) = false.
Proof.
  induction read as [|chunk read IH]; intros pending hashed total Ht Hl; cbn [validate_chunks concat] in *.
  - rewrite len_nil in Hl. lia.
  - rewrite len_app in Hl. pose proof (len_nonneg chunk).
    destruct (Z.ltb_spec MAX_JSON_PATH_SCAN_BYTES (usize_add total (len chunk))); [done|].
    assert (usize_add total (len chunk) = total + len chunk) as Hu.
    { unfold usize_add, sat_add, usize_max, u64_max, MAX_JSON_PATH_SCAN_BYTES in *. lia. }
    destruct (validate_utf8_chunk pending chunk); [|done]. cbn [rbind]. apply IH; rewrite Hu in *; lia.
Qed.

End Chunks.

(** ** Nesting *)

Section Nesting.
Context {number : Type}.

Fixpoint nesting (v : value number) : nat :=
  match v with
  | Array items => S (max_of nesting items)
  | Object o => S (max_of (fun kv => nesting kv.2) o)
  | _ => 0%nat
  end.

Lemma ensure_depth_ok depth : (depth < MAX_JSON_DEPTH)%nat → ensure_json_depth depth = Ok tt.
Proof. intros Hd. unfold ensure_json_depth. by destruct (Nat.leb_spec MAX_JSON_DEPTH depth); [lia|]. Qed.

Lemma visit_each_ok {V} (visit : V → result unit str) l : Forall (fun v => visit v = Ok tt) l → visit_each visit l = Ok tt.
Proof. induction 1 as [|v l Hv _ IH]; [done|]. cbn [visit_each]. by rewrite Hv. Qed.

Lemma ignore_ok v : ∀ depth, (depth + nesting v <= MAX_JSON_DEPTH)%nat → ignore_value depth v = Ok tt.
Proof.
  induction v as [|b|n|s|items IH|o IH] using value_ind'; intros depth Hd; try done; cbn [ignore_value nesting] in *;
    rewrite ensure_depth_ok by lia; cbn [rbind]; apply visit_each_ok.
  - assert (Forall (fun v => nesting v <= MAX_JSON_DEPTH - S depth)%nat items) as Hl by (apply max_of_elem; lia).
    rewrite Forall_forall in IH, Hl |- *. intros v Hv. specialize (Hl v Hv). apply IH; [done|lia].
  - assert (Forall (fun kv => nesting kv.2 <= MAX_JSON_DEPTH - S depth)%nat o) as Hl
      by (apply (max_of_elem (fun kv => nesting kv.2)); lia).
    rewrite Forall_forall in IH, Hl |- *. intros kv Hv. specialize (Hl kv Hv). apply IH; [done|lia].
Qed.
End Nesting.

(** ** What every extraction keeps true *)

Section Steps.
Context {number : Type} `{RedactionEnv number} `{!JsonSource number} (self : Redactor) (raw : bool).
Context (P : ExtractionState number → Prop)
  (Hpush : ∀ st m i, P st → P (push_match st m i))
  (Hredact : ∀ st records, P st → P (collect_redactions st records)).

Lemma push_all_preserves m terminals st :
  P st → P (foldl (fun st i => push_match st m i) st terminals).
Proof. revert st. induction terminals as [|i l IH]; intros st Hst; cbn [foldl]; auto. Qed.

Lemma capture_preserves terminals path c st : P st → P (capture self raw terminals path c st).
Proof.
  intros Hst. unfold capture. destruct (negb raw && negb _); [|by apply push_all_preserves].
  destruct (redact_json_value self _ path []) as [v records]. by apply push_all_preserves, Hredact.
Qed.

Definition keeps (seed : ExtractionState number → result (CapturedValue number * ExtractionState number) str) : Prop :=
  ∀ st c st', P st → seed st = Ok (c, st') → P st'.

Lemma field_keeps key v path depth : keeps (capture_field self key v path depth).
Proof.
  intros st c st' Hst. unfold capture_field. destruct (sensitive_value depth v); [|done]. cbn [rbind].
  destruct (default _ _) as [w records]. intros [= <- <-]. by apply Hredact.
Qed.

Lemma visit_map_preserves seed ignore field nodes path build o :
  Forall (fun kv => ∀ nodes path all, keeps (seed nodes path all kv.2)) o →
  (∀ key v path, keeps (field key v path)) →
  ∀ c st out, P st → visit_map self raw seed ignore field nodes path build o c st = Ok out → P out.2.
Proof.
  intros Hs Hf. induction Hs as [|[key v] o Hv _ IH]; intros c st out Hst; cbn [visit_map]; [by intros [= <-]|].
  destruct (unwanted build _). { destruct (ignore v); [by apply IH|done]. }
  destruct (negb raw && is_sensitive_name self key).
  - destruct (field key v (append_key_path path key) st) as [[d st']|] eqn:He; [|done]. cbn [rbind fst snd].
    apply IH. apply Hf in He; [|done]. case_bool_decide; [done|]. by apply push_all_preserves.
  - destruct (seed _ _ _ v st) as [[d st']|] eqn:He; [|done]. cbn [rbind fst snd]. apply IH. by eapply Hv.
Qed.

Lemma visit_seq_preserves seed ignore nodes path build items :
  Forall (fun v => ∀ nodes path all, keeps (seed nodes path all v)) items →
  ∀ c st out, P st → visit_seq seed ignore nodes path build items c st = Ok out → P out.2.
Proof.
  intros Hs. induction Hs as [|v items Hv _ IH]; intros c st out Hst; cbn [visit_seq]; [by intros [= <-]|].
  destruct (unwanted build _). { destruct (ignore v); [by apply IH|done]. }
  destruct (seed _ _ _ v st) as [[d st']|] eqn:He; [|done]. cbn [rbind fst snd]. apply IH. by eapply Hv.
Qed.

Lemma capture_value_preserves v : ∀ nodes path all depth, keeps (capture_value self raw nodes path all depth v).
Proof.
  induction v as [|b|n|s|items IH|o IH] using value_ind'; intros nodes path all depth st c st' Hst;
    cbn [capture_value]; (destruct (negb _ && negb _);
      [match goal with |- context [ignore_value ?d ?x] => destruct (ignore_value d x) end; [by intros [= <- <-]|done]|]).
  1-3: cbn [rbind]; intros [= <- <-]; cbn [snd]; case_bool_decide; [done|by apply capture_preserves].
  - destruct (captured_string self raw s path st) as [d st1] eqn:Hd. cbn [rbind fst snd].
    assert (P st1) as H1.
    { unfold captured_string in Hd. destruct raw; [by destruct (_ <=? _); simplify_eq|].
      destruct (redact_json_value self (String s) path []) as [w records].
      destruct w; destruct (_ <=? _) in Hd; simplify_eq; by apply Hredact. }
    intros [= <- <-]. case_bool_decide; [done|by apply capture_preserves].
  - destruct (ensure_json_depth depth); [|done]. cbn [rbind].
    destruct (visit_seq _ _ _ _ _ _ _ _) as [out|] eqn:Hv; [|done]. cbn [rbind fst snd].
    apply visit_seq_preserves in Hv; [|eapply Forall_impl; [exact IH|]; cbn; intros x Hx *; apply Hx|done].
    intros [= <- <-]. case_bool_decide; [done|by apply capture_preserves].
  - destruct (ensure_json_depth depth); [|done]. cbn [rbind].
    destruct (visit_map _ _ _ _ _ _ _ _ _ _ _) as [out|] eqn:Hv; [|done]. cbn [rbind fst snd].
    apply visit_map_preserves in Hv;
      [|eapply Forall_impl; [exact IH|]; cbn; intros x Hx *; apply Hx|intros *; apply field_keeps|done].
    intros [= <- <-]. case_bool_decide; [done|by apply capture_preserves].
Qed.
End Steps.

(** ** The limits *)

Section Limits.
Context {number : Type} `{RedactionEnv number} `{!JsonSource number} (self : Redactor) (raw : bool).

Definition slot_bytes (slot : list (CapturedMatch number)) : Z := foldr (fun m n => match_storage_bytes m + n) 0 slot.
Definition kept_bytes (l : list (list (CapturedMatch number))) : Z := foldr (fun slot n => slot_bytes slot + n) 0 l.

(** The books are right and the limits hold; what was left out is marked. *)
Record within_limits (st : ExtractionState number) : Prop := {
  wl_bytes : result_bytes st = kept_bytes (slots st);
  wl_total : result_bytes st <= MAX_EXTRACTED_RESULT_BYTES;
  wl_slots : Forall (fun slot => (length slot <= MAX_JSON_PATH_MATCHES)%nat ∧ NoDup (map cm_path slot)) (slots st);
  wl_length : length (path_limited st) = length (slots st);
  wl_omitted : ∀ i, i ∈ omitted_paths st → path_limited st !! i = Some true ∧ result_limited st = true
}.

Lemma storage_nonneg (m : CapturedMatch number) : 0 <= match_storage_bytes m.
Proof.
  unfold match_storage_bytes, json_len, usize_add, sat_add, usize_max, u64_max.
  pose proof (len_nonneg (to_string (cm_value m))). pose proof (len_nonneg (cm_path m)).
  pose proof (len_nonneg (cm_type m)).
  assert (0 <= match cm_summary m with Some s => len (to_string s) | None => 0 end)
    by (destruct (cm_summary m); [apply len_nonneg|lia]). lia.
Qed.

Lemma slot_bytes_nonneg slot : 0 <= slot_bytes slot.
Proof. induction slot as [|m slot IH]; cbn; [done|]. pose proof (storage_nonneg m). unfold slot_bytes in IH. lia. Qed.

Lemma slot_bytes_app a b : slot_bytes (a ++ b) = slot_bytes a + slot_bytes b.
Proof. unfold slot_bytes. induction a as [|m a IH]; cbn; lia. Qed.

Lemma kept_bytes_insert l i slot slot' :
  l !! i = Some slot → kept_bytes (<[i := slot']> l) = kept_bytes l - slot_bytes slot + slot_bytes slot'.
Proof.
  revert i. induction l as [|s l IH]; intros [|i] Hl; cbn in Hl; simplify_eq; [cbn; lia|].
  change (slot_bytes s + kept_bytes (<[i := slot']> l) = slot_bytes s + kept_bytes l - slot_bytes slot + slot_bytes slot').
  rewrite (IH i Hl). lia.
Qed.

Lemma kept_bytes_slot l i slot : l !! i = Some slot → slot_bytes slot <= kept_bytes l.
Proof.
  revert i. induction l as [|s l IH]; intros [|i] Hl; cbn in Hl |- *; simplify_eq.
  - assert (0 <= kept_bytes l); [|unfold kept_bytes in *; lia].
    clear. induction l as [|s l IH]; cbn; [done|]. pose proof (slot_bytes_nonneg s). unfold kept_bytes in IH. lia.
  - specialize (IH i Hl). pose proof (slot_bytes_nonneg s). unfold kept_bytes in IH. lia.
Qed.

Lemma same_path_eq m n : same_path (number := number) m n = true ↔ cm_path n = cm_path m.
Proof. unfold same_path. apply bool_decide_eq_true. Qed.

(** A slot and the first match with the same path as [m] *)
Lemma find_same (m : CapturedMatch number) slot existing :
  NoDup (map cm_path slot) → find_first (same_path m) slot = Some existing →
  slot_bytes (upsert (same_path m) m slot) = slot_bytes slot - match_storage_bytes existing + match_storage_bytes m ∧
  map cm_path (upsert (same_path m) m slot) = map cm_path slot ∧
  slot_bytes (List.filter (fun n => negb (same_path m n)) slot) = slot_bytes slot - match_storage_bytes existing ∧
  (length (List.filter (fun n => negb (same_path m n)) slot) <= length slot)%nat ∧
  NoDup (map cm_path (List.filter (fun n => negb (same_path m n)) slot)).
Proof.
  induction slot as [|n slot IH]; [done|]. cbn [map find_first upsert List.filter]. rewrite NoDup_cons. intros [Hn Hd].
  destruct (same_path m n) eqn:Hs; cbn [negb].
  - intros [= <-]. apply same_path_eq in Hs.
    assert (List.filter (fun n0 => negb (same_path m n0)) slot = slot) as Hfil.
    { clear IH Hd. induction slot as [|x slot IHs]; [done|]. cbn [map] in Hn. cbn [List.filter].
      destruct (same_path m x) eqn:Hx; cbn [negb].
      - apply same_path_eq in Hx. destruct Hn. rewrite Hs, <- Hx. apply list_elem_of_here.
      - f_equal. apply IHs. intros Hi. apply Hn. by constructor. }
    rewrite Hfil. cbn [map length]. rewrite Hs. unfold slot_bytes. cbn. split_and!; [lia|done|lia|lia|done].
  - intros Hf. destruct (IH Hd Hf) as (H1 & H2 & H3 & H4 & H5). cbn [map length]. rewrite H2. unfold slot_bytes in *. cbn.
    split_and!; [lia|done|lia|lia|]. constructor; [|done]. intros Hi. apply Hn.
    clear -Hi. induction slot as [|x slot IHs]; [done|]. cbn [List.filter map] in *.
    destruct (same_path m x); cbn [negb map] in Hi; [constructor; auto|].
    apply elem_of_cons in Hi as [->|Hi]; [constructor|constructor; auto].
Qed.

Lemma find_fresh (m : CapturedMatch number) slot :
  find_first (same_path m) slot = None → NoDup (map cm_path slot) → NoDup (map cm_path (slot ++ [m])).
Proof.
  intros Hf Hd. rewrite map_app. apply NoDup_app. split_and!; [done| |apply NoDup_singleton].
  intros p Hp Hm. apply list_elem_of_singleton in Hm. subst p. apply list_elem_of_In, in_map_iff in Hp as (n & Hn & Hi).
  pose proof (proj1 (find_first_None (same_path m) slot) Hf) as Hall. rewrite Forall_forall in Hall.
  apply list_elem_of_In in Hi. specialize (Hall n Hi). by rewrite (proj2 (same_path_eq m n) Hn) in Hall.
Qed.

Lemma limited_omit st i :
  within_limits st → (i < length (slots st))%nat → within_limits (limit_path st i) ∧ within_limits (omit st i).
Proof.
  intros [Hb Ht Hs Hl Ho] Hi.
  assert (∀ j, path_limited st !! j = Some true → <[i := true]> (path_limited st) !! j = Some true) as Hins.
  { intros j Hj. destruct (decide (i = j)) as [->|]; [by rewrite list_lookup_insert_eq by (by eapply lookup_lt_Some)|].
    by rewrite list_lookup_insert_ne. }
  split; split; cbn; try done; try (by rewrite length_insert).
  - intros j Hj. destruct (Ho j Hj). by split; [apply Hins|].
  - intros j Hj. split; [|done]. apply elem_of_union in Hj as [Hj|Hj%elem_of_singleton]; [by apply Hins, Ho|subst j].
    by rewrite list_lookup_insert_eq by lia.
Qed.

Lemma within_slot st i slot slot' bytes_ :
  within_limits st → slots st !! i = Some slot →
  bytes_ = result_bytes st - slot_bytes slot + slot_bytes slot' → bytes_ <= MAX_EXTRACTED_RESULT_BYTES →
  (length slot' <= MAX_JSON_PATH_MATCHES)%nat → NoDup (map cm_path slot') →
  within_limits (with_slot st i slot' bytes_).
Proof.
  intros [Hb Ht Hs Hl Ho] Hi He Hm Hc Hd. split; cbn; [|done| |by rewrite length_insert|done].
  - by rewrite (kept_bytes_insert _ _ slot), <- Hb.
  - by apply Forall_insert.
Qed.

Lemma push_within st m i : within_limits st → within_limits (push_match st m i).
Proof.
  intros Hw. unfold push_match. destruct (slots st !! i) as [slot|] eqn:Hi; [|done].
  pose proof (lookup_lt_Some _ _ _ Hi) as Hlt. destruct (limited_omit st i Hw Hlt) as [Hlim Hom].
  pose proof (storage_nonneg m) as Hm0. pose proof (kept_bytes_slot _ _ _ Hi) as Hk. pose proof (wl_bytes _ Hw) as Hb.
  pose proof (wl_total _ Hw) as Ht. destruct (Forall_lookup_1 _ _ _ _ (wl_slots _ Hw) Hi) as [Hc Hd].
  assert (∀ a b, 0 <= a → 0 <= b → usize_add a b <= MAX_EXTRACTED_RESULT_BYTES → usize_add a b = a + b) as Hadd.
  { unfold usize_add, sat_add, usize_max, u64_max, MAX_EXTRACTED_RESULT_BYTES. lia. }
  destruct (find_first (same_path m) slot) as [existing|] eqn:Hf.
  - destruct (find_same m slot existing Hd Hf) as (H1 & H2 & H3 & H4 & H5).
    assert (0 <= match_storage_bytes existing <= slot_bytes slot) as He.
    { split; [apply storage_nonneg|]. pose proof (slot_bytes_nonneg (List.filter (fun n => negb (same_path m n)) slot)). lia. }
    assert (sat_sub (result_bytes st) (match_storage_bytes existing) = result_bytes st - match_storage_bytes existing) as Hsub
      by (unfold sat_sub; lia).
    rewrite Hsub. destruct (Z.ltb_spec MAX_EXTRACTED_RESULT_BYTES
      (usize_add (result_bytes st - match_storage_bytes existing) (match_storage_bytes m))) as [|Hfit].
    + eapply within_slot; [exact Hom|exact Hi|cbn; lia|lia|lia|done].
    + eapply within_slot; [exact Hw|exact Hi| |lia| |by rewrite H2].
      * rewrite Hadd by lia. lia.
      * rewrite <- (length_map cm_path), H2, length_map. done.
  - destruct (Nat.leb_spec MAX_JSON_PATH_MATCHES (length slot)); [done|].
    destruct (Z.ltb_spec MAX_EXTRACTED_RESULT_BYTES (usize_add (result_bytes st) (match_storage_bytes m))) as [|Hfit]; [done|].
    pose proof (slot_bytes_nonneg slot). eapply within_slot; [exact Hw|exact Hi| |lia| |by apply find_fresh].
    + rewrite Hadd by lia. rewrite slot_bytes_app. cbn. lia.
    + rewrite length_app. cbn. lia.
Qed.

Lemma redact_within (st : ExtractionState number) records : within_limits st → within_limits (collect_redactions st records).
Proof. intros [Hb Ht Hs Hl Ho]. by split. Qed.

Lemma new_within n : within_limits (new_state n).
Proof.
  split; cbn; try done.
  - symmetry. induction n as [|n IH]; [done|]. cbn. exact IH.
  - apply Forall_replicate. split; [cbn; lia|constructor].
  - by rewrite !length_replicate.
Qed.

Lemma capture_within nodes path all depth v st c st' :
  within_limits st → capture_value self raw nodes path all depth v st = Ok (c, st') → within_limits st'.
Proof. apply (capture_value_preserves self raw within_limits); intros; [by apply push_within|by apply redact_within]. Qed.

Lemma capture_slots nodes path all depth v st c st' :
  capture_value self raw nodes path all depth v st = Ok (c, st') → length (slots st') = length (slots st).
Proof.
  intros Hc. apply (capture_value_preserves self raw (fun s => length (slots s) = length (slots st)))
    in Hc; [done| |done|done].
  intros s m i <-. unfold push_match. repeat case_match; cbn; by rewrite ?length_insert.
Qed.
End Limits.

(** ** Masked fields do not matter *)

Section Blind.
Context {number : Type} `{RedactionEnv number} `{!JsonSource number} (self : Redactor).

Lemma visit_map_ext seed seed' ignore ignore' field field' nodes path build o p :
  Forall2 (fun x y => x.1 = y.1 ∧ ignore x.2 = ignore' y.2 ∧
     (is_sensitive_name self x.1 = true → ∀ path st, field x.1 x.2 path st = field' y.1 y.2 path st) ∧
     (is_sensitive_name self x.1 = false → ∀ nodes path all st, seed nodes path all x.2 st = seed' nodes path all y.2 st)) o p →
  ∀ c st, visit_map self false seed ignore field nodes path build o c st
        = visit_map self false seed' ignore' field' nodes path build p c st.
Proof.
  induction 1 as [|[k v] [k' w] o p (Hk & Hi & Hf & Hs) _ IH]; intros c st; [done|]. cbn [visit_map]. cbn in Hk, Hi, Hf, Hs.
  subst k'. rewrite Hi. destruct (unwanted build _); [destruct (ignore' w); [apply IH|done]|]. cbn [negb andb].
  destruct (is_sensitive_name self k).
  - rewrite Hf by done. destruct (field' k w _ st) as [[d st']|]; [apply IH|done].
  - rewrite Hs by done. destruct (seed' _ _ _ w st) as [[d st']|]; [apply IH|done].
Qed.

Lemma visit_seq_ext seed seed' ignore ignore' nodes path build items others :
  Forall2 (fun v w => ignore v = ignore' w ∧ ∀ nodes path all st, seed nodes path all v st = seed' nodes path all w st)
    items others →
  ∀ (c : Collected number (value number)) st,
    visit_seq seed ignore nodes path build items c st = visit_seq seed' ignore' nodes path build others c st.
Proof.
  induction 1 as [|v w items others (Hi & Hs) _ IH]; intros c st; [done|]. cbn [visit_seq].
  rewrite Hi, Hs. destruct (unwanted build _); [destruct (ignore' w); [apply IH|done]|].
  destruct (seed' _ _ _ w st) as [[d st']|]; [apply IH|done].
Qed.

(** What is read of a sensitive value: all of a scalar, nothing of a container *)
Definition outline (v : value number) : value number :=
  match v with Object _ => Object [] | Array _ => Array [] | v => v end.

Lemma sensitive_value_ok depth v :
  (depth + nesting v <= MAX_JSON_DEPTH)%nat → sensitive_value depth v = Ok (outline v).
Proof. intros Hd. unfold sensitive_value. destruct v; try done; by rewrite ignore_ok. Qed.

Lemma outline_hides key v w path :
  is_sensitive_name self key = true →
  (hides self v w ∨ masked self key = true ∧ (v = Null ↔ w = Null)) →
  redact_json_field self key (outline v) path [] = redact_json_field self key (outline w) path [].
Proof.
  intros Hs [Hh|[Hm Hn]]; [by inversion Hh; subst|].
  unfold is_sensitive_name in Hs. destruct (classify self key) as [c|] eqn:Hc; [|done].
  rewrite !(masked_field self key c) by done. destruct v, w; try done; exfalso; naive_solver.
Qed.

Lemma capture_hides v : ∀ w, hides self v w → ∀ nodes path all depth st,
  (depth + nesting v <= MAX_JSON_DEPTH)%nat → (depth + nesting w <= MAX_JSON_DEPTH)%nat →
  capture_value self false nodes path all depth v st = capture_value self false nodes path all depth w st.
Proof.
  induction v as [|b|n|s|items IH|o IH] using value_ind'; intros w Hh nodes path all depth st Hv Hw;
    inversion Hh as [|a b' Hf|o' p Hf]; subst; try done; cbn [capture_value]; rewrite !ignore_ok by done;
    (destruct (negb _ && negb _); [done|]); cbn [nesting] in Hv, Hw; rewrite !ensure_depth_ok by lia; cbn [rbind].
  - erewrite (visit_seq_ext _ _ _ _ nodes path _ items b'); [done|].
    assert (Forall (fun v => nesting v <= MAX_JSON_DEPTH - S depth)%nat items) as Hl by (apply max_of_elem; lia).
    assert (Forall (fun v => nesting v <= MAX_JSON_DEPTH - S depth)%nat b') as Hr by (apply max_of_elem; lia).
    assert (depth < MAX_JSON_DEPTH)%nat as Hd by lia. clear Hh Hv Hw. induction Hf as [|x y items b' Hxy _ IHf]; constructor;
      apply Forall_cons in IH as [Hx IH], Hl as [Hlx Hl], Hr as [Hrx Hr]; [|by apply IHf].
    rewrite !ignore_ok by lia. split; [done|]. intros. apply Hx; [done|lia|lia].
  - erewrite (visit_map_ext _ _ _ _ _ _ nodes path _ o p); [done|].
    assert (Forall (fun kv => nesting kv.2 <= MAX_JSON_DEPTH - S depth)%nat o) as Hl
      by (apply (max_of_elem (fun kv => nesting kv.2)); lia).
    assert (Forall (fun kv => nesting kv.2 <= MAX_JSON_DEPTH - S depth)%nat p) as Hr
      by (apply (max_of_elem (fun kv => nesting kv.2)); lia).
    assert (depth < MAX_JSON_DEPTH)%nat as Hd by lia. clear Hh Hv Hw. induction Hf as [|[k x] [k' y] o p [Hk Hxy] _ IHf]; constructor;
      apply Forall_cons in IH as [Hx IH], Hl as [Hlx Hl], Hr as [Hrx Hr]; [|by apply IHf].
    cbn [fst snd] in Hk, Hxy, Hx, Hlx, Hrx |- *. subst k'. rewrite !ignore_ok by lia. split_and!; [done|done| |].
    + intros Hs path' st'. unfold capture_field. rewrite !sensitive_value_ok by lia. cbn [rbind].
      rewrite <- (outline_hides k x y path' Hs Hxy). pose proof (redact_field_safe self k (outline x) path' []) as Ho.
      destruct (redact_json_field self k (outline x) path' []) as [[t r]|]; [done|congruence].
    + intros Hs nodes' path' all' st'. destruct Hxy as [Hxy|[Hm _]]; [apply Hx; [done|lia|lia]|].
      unfold is_sensitive_name in Hs. unfold masked in Hm. by destruct (classify self k).
Qed.
End Blind.

(** ** A document within the nesting limit is captured *)

Section Total.
Context {number : Type} `{RedactionEnv number} `{!JsonSource number} (self : Redactor) (raw : bool).

Definition succeeds {A S} (seed : S → result A str) : Prop := ∀ st, ∃ out, seed st = Ok out.

Lemma visit_map_ok seed ignore field nodes path build o :
  Forall (fun kv => ignore kv.2 = Ok tt ∧ (∀ path, succeeds (field kv.1 kv.2 path)) ∧
            ∀ nodes path all, succeeds (seed nodes path all kv.2)) o →
  ∀ c, succeeds (visit_map self raw seed ignore field nodes path build o c).
Proof.
  induction 1 as [|[key v] o (Hi & Hf & Hs) _ IH]; intros c st; cbn [visit_map]; [by eexists|]. cbn [fst snd] in Hi, Hf, Hs.
  rewrite Hi. destruct (unwanted build _); [apply IH|]. destruct (negb raw && _).
  - destruct (Hf (append_key_path path key) st) as [out ->]. apply IH.
  - edestruct Hs as [out ->]. apply IH.
Qed.

Lemma visit_seq_ok seed ignore nodes path build items :
  Forall (fun v => ignore v = Ok tt ∧ ∀ nodes path all, succeeds (seed nodes path all v)) items →
  ∀ c : Collected number (value number), succeeds (visit_seq seed ignore nodes path build items c).
Proof.
  induction 1 as [|v items (Hi & Hs) _ IH]; intros c st; cbn [visit_seq]; [by eexists|].
  rewrite Hi. destruct (unwanted build _); [apply IH|]. edestruct Hs as [out ->]. apply IH.
Qed.

Lemma field_ok key v path depth :
  (depth + nesting v <= MAX_JSON_DEPTH)%nat → succeeds (capture_field self key v path depth).
Proof.
  intros Hd st. unfold capture_field. rewrite sensitive_value_ok by done. cbn [rbind].
  destruct (default _ _). by eexists.
Qed.

Lemma capture_ok v : ∀ nodes path all depth, (depth + nesting v <= MAX_JSON_DEPTH)%nat →
  succeeds (capture_value self raw nodes path all depth v).
Proof.
  induction v as [|b|n|s|items IH|o IH] using value_ind'; intros nodes path all depth Hd st; cbn [capture_value];
    rewrite ignore_ok by done; (destruct (negb _ && negb _); [by eexists|]); [by eexists..| |];
    cbn [nesting] in Hd; rewrite ensure_depth_ok by lia; cbn [rbind].
  - assert (Forall (fun v => nesting v <= MAX_JSON_DEPTH - S depth)%nat items) as Hl by (apply max_of_elem; lia).
    edestruct visit_seq_ok as [out ->]; [|by eexists].
    rewrite Forall_forall in IH, Hl |- *. intros v Hv. specialize (Hl v Hv).
    split; [apply ignore_ok; lia|]. intros *. apply IH; [done|lia].
  - assert (Forall (fun kv => nesting kv.2 <= MAX_JSON_DEPTH - S depth)%nat o) as Hl
      by (apply (max_of_elem (fun kv => nesting kv.2)); lia).
    edestruct visit_map_ok as [out ->]; [|by eexists].
    rewrite Forall_forall in IH, Hl |- *. intros kv Hv. specialize (Hl kv Hv). split_and!.
    + apply ignore_ok; lia.
    + intros *. apply field_ok; lia.
    + intros *. apply IH; [done|lia].
Qed.
End Total.
