(* ===== verification/BodyLookup.v ===== *)
(** * BodyLookup: a streamed extraction is a lookup

    BodyStream finds the requested fields while the document streams by, merging
    all paths into one tree and building only what a path selects.  Here it is
    shown to give what looking each path up in the redacted document gives
    (BodyPaths), as long as the results fit in the limits. *)

From S2P Require Import Prelude Str JsonPath Rewrite Utf8 TextSearch Redaction RedactedSearch BodyPaths BodyStream.
From S2P Require Import BodyStreamFacts.
From Stdlib Require Import Sorting.Sorted.

(** ** The tree of paths *)

Lemma map_get_entry {K} `{EqDecision K} {V} (k k' : K) (d : V) f l :
  map_get k' (map_entry k d f l) = if decide (k = k') then Some (f (default d (map_get k l))) else map_get k' l.
Proof.
  induction l as [|[k0 v0] l IH]; cbn [map_entry map_get].
  - destruct (decide (k = k')); done.
  - destruct (decide (k0 = k)) as [->|Hk]; cbn [map_get].
    + destruct (decide (k = k')); done.
    + rewrite IH. destruct (decide (k0 = k')) as [->|]; [|done]. by destruct (decide (k = k')).
Qed.

(** A path to the terminal [i] below a node *)
Fixpoint reaches (n : PathNode) (i : nat) (p : list JsonPathSegment) {struct p} : Prop :=
  match p with
  | [] => i ∈ terminals n
  | Key k :: p => ∃ c, map_get k (node_keys n) = Some c ∧ reaches c i p
  | Index j :: p => ∃ c, map_get j (node_indices n) = Some c ∧ reaches c i p
  | Wildcard :: p => ∃ c, node_wildcard n = Some c ∧ reaches c i p
  end.

Lemma reaches_default i p : ¬ reaches default_node i p.
Proof. destruct p as [|[k|j|] p]; cbn; [set_solver|naive_solver|naive_solver|naive_solver]. Qed.

Lemma reaches_opt (o : option PathNode) i p :
  reaches (default default_node o) i p ↔ ∃ c, o = Some c ∧ reaches c i p.
Proof.
  destruct o as [c|]; cbn; [naive_solver|]. split; [by intros ?%reaches_default|naive_solver].
Qed.

Lemma reaches_add i p : ∀ n j q, reaches (add_path i p n) j q ↔ reaches n j q ∨ j = i ∧ q = p.
Proof.
  induction p as [|s p IH]; intros [t k x w] j q.
  - cbn [add_path]. destruct q as [|s q]; cbn [reaches terminals node_keys node_indices node_wildcard].
    + rewrite elem_of_app, list_elem_of_singleton. naive_solver.
    + destruct s; naive_solver.
  - assert (∀ (o : option PathNode) q', (∃ c, Some (add_path i p (default default_node o)) = Some c ∧ reaches c j q')
      ↔ (∃ c, o = Some c ∧ reaches c j q') ∨ j = i ∧ q' = p) as Hstep.
    { intros o q'. rewrite <- (reaches_opt o), <- IH. naive_solver. }
    destruct s as [key|index|]; cbn [add_path]; destruct q as [|[key'|index'|] q];
      cbn [reaches terminals node_keys node_indices node_wildcard];
      try (split; [by left|intros [?|[_ [=]]]; done]).
    + rewrite map_get_entry. destruct (decide (key = key')) as [->|]; [rewrite Hstep|]; naive_solver.
    + rewrite map_get_entry. destruct (decide (index = index')) as [->|]; [rewrite Hstep|]; naive_solver.
    + rewrite Hstep. naive_solver.
Qed.

Lemma reaches_add_paths segments : ∀ k root i p,
  reaches (add_paths k segments root) i p ↔
  reaches root i p ∨ (k <= i)%nat ∧ segments !! (i - k)%nat = Some p.
Proof.
  induction segments as [|s segments IH]; intros k root i p; cbn [add_paths].
  - naive_solver.
  - rewrite IH, reaches_add. split.
    + intros [[Hr|[-> ->]]|[Hk Hs]]; [by left| |].
      * right. split; [done|]. by rewrite Nat.sub_diag.
      * right. split; [lia|]. by replace (i - k)%nat with (S (i - S k)) by lia.
    + intros [Hr|[Hk Hs]]; [by do 2 left|]. destruct (decide (i = k)) as [->|].
      * rewrite Nat.sub_diag in Hs. cbn in Hs. left; right. naive_solver.
      * right. split; [lia|]. by replace (i - k)%nat with (S (i - S k)) in Hs by lia.
Qed.

(** Each path index has at most one rest of a path left. *)
Definition Rest : Type := nat → option (list JsonPathSegment).

Definition represents (nodes : list PathNode) (R : Rest) : Prop :=
  ∀ i p, (∃ n, n ∈ nodes ∧ reaches n i p) ↔ R i = Some p.

Lemma build_represents segments : represents [build_path_tree segments] (fun i => segments !! i).
Proof.
  intros i p. unfold build_path_tree. split.
  - intros (n & ->%list_elem_of_singleton & Hr). apply reaches_add_paths in Hr as [Hr|[_ Hs]].
    + by apply reaches_default in Hr.
    + by rewrite Nat.sub_0_r in Hs.
  - intros Hs. eexists. split; [by apply list_elem_of_singleton|]. apply reaches_add_paths. right.
    split; [lia|]. by rewrite Nat.sub_0_r.
Qed.

Definition step_key (k : str) (o : option (list JsonPathSegment)) : option (list JsonPathSegment) :=
  match o with
  | Some (Key k' :: p) => if bool_decide (k' = k) then Some p else None
  | Some (Wildcard :: p) => Some p
  | _ => None
  end.

Definition step_index (j : Z) (o : option (list JsonPathSegment)) : option (list JsonPathSegment) :=
  match o with
  | Some (Index j' :: p) => if bool_decide (j' = j) then Some p else None
  | Some (Wildcard :: p) => Some p
  | _ => None
  end.

Lemma elem_of_concat_map {A B} (f : A → list B) l y : y ∈ concat (map f l) ↔ ∃ x, x ∈ l ∧ y ∈ f x.
Proof.
  induction l as [|x l IH]; cbn [map concat]; [set_solver|]. rewrite elem_of_app, IH. set_solver.
Qed.

Lemma elem_of_option_list {A} (o : option A) x : x ∈ option_list o ↔ o = Some x.
Proof. destruct o; cbn; [rewrite list_elem_of_singleton; naive_solver|set_solver]. Qed.

Lemma represents_key nodes R k :
  represents nodes R → represents (child_nodes_for_key nodes k) (fun i => step_key k (R i)).
Proof.
  intros HR i p. unfold child_nodes_for_key. setoid_rewrite elem_of_concat_map.
  setoid_rewrite elem_of_app. setoid_rewrite elem_of_option_list. split.
  - intros (c & (n & Hn & [Hc|Hc]) & Hr).
    + assert (R i = Some (Key k :: p)) as -> by (apply HR; exists n; split; [done|by exists c]). cbn.
      by rewrite bool_decide_true.
    + assert (R i = Some (Wildcard :: p)) as -> by (apply HR; exists n; split; [done|by exists c]). done.
  - intros Hs. destruct (R i) as [[|[k'|j|] q]|] eqn:Hi; cbn in Hs; try done.
    + case_bool_decide; [|done]. simplify_eq. apply HR in Hi as (n & Hn & c & Hc & Hr). exists c. split; [|done].
      exists n. split; [done|by left].
    + simplify_eq. apply HR in Hi as (n & Hn & c & Hc & Hr). exists c. split; [|done]. exists n. split; [done|by right].
Qed.

Lemma represents_index nodes R j :
  represents nodes R → represents (child_nodes_for_index nodes j) (fun i => step_index j (R i)).
Proof.
  intros HR i p. unfold child_nodes_for_index. setoid_rewrite elem_of_concat_map.
  setoid_rewrite elem_of_app. setoid_rewrite elem_of_option_list. split.
  - intros (c & (n & Hn & [Hc|Hc]) & Hr).
    + assert (R i = Some (Index j :: p)) as -> by (apply HR; exists n; split; [done|by exists c]). cbn.
      by rewrite bool_decide_true.
    + assert (R i = Some (Wildcard :: p)) as -> by (apply HR; exists n; split; [done|by exists c]). done.
  - intros Hs. destruct (R i) as [[|[k|j'|] q]|] eqn:Hi; cbn in Hs; try done.
    + case_bool_decide; [|done]. simplify_eq. apply HR in Hi as (n & Hn & c & Hc & Hr). exists c. split; [|done].
      exists n. split; [done|by left].
    + simplify_eq. apply HR in Hi as (n & Hn & c & Hc & Hr). exists c. split; [|done]. exists n. split; [done|by right].
Qed.

(** ** Terminals *)

Lemma terminals_nodup nodes : NoDup (collect_terminals nodes).
Proof.
  unfold collect_terminals. apply (dedup_sorted_nodup le); [exact Nat.le_antisymm|]. induction (concat (map terminals nodes)) as [|x l IH]; [constructor|].
  apply (insert_sorted_sorted Nat.leb le); [exact Nat.le_trans| | |done]; intros y z; [apply Nat.leb_le|].
  intros Hyz%Nat.leb_gt. lia.
Qed.

Lemma elem_of_terminals nodes R i : represents nodes R → i ∈ collect_terminals nodes ↔ R i = Some [].
Proof.
  intros HR. unfold collect_terminals. rewrite elem_of_dedup, elem_of_sort_by, elem_of_concat_map. apply (HR i []).
Qed.

Lemma no_terminals nodes R i : represents nodes R → collect_terminals nodes = [] → R i ≠ Some [].
Proof. intros HR Ht Hi. apply (elem_of_terminals _ _ _ HR) in Hi. rewrite Ht in Hi. set_solver. Qed.

Lemma no_routes nodes R i p : represents nodes R → existsb has_routes nodes = false → R i = Some p → p = [].
Proof.
  intros HR Hf Hi. apply HR in Hi as (n & Hn & Hr). destruct p as [|s p]; [done|]. exfalso.
  assert (has_routes n = true) as Ht; [|apply not_true_iff_false in Hf; destruct Hf; apply existsb_exists; exists n;
    split; [by apply list_elem_of_In|done]].
  unfold has_routes. destruct s as [k|j|]; destruct Hr as (c & Hc & _).
  - destruct (node_keys n); [done|]. by rewrite bool_decide_false.
  - destruct (node_indices n); [done|]. by rewrite (bool_decide_false (length (_ :: _) = _)), orb_true_r.
  - rewrite Hc. by rewrite !orb_true_r.
Qed.

Lemma unwanted_none nodes R build i :
  represents nodes R → unwanted build nodes = true → build = false ∧ R i = None.
Proof.
  intros HR. unfold unwanted. rewrite !andb_true_iff, !negb_true_iff, bool_decide_eq_true. intros [[Hb Ht] Hr].
  split; [done|]. destruct (R i) as [p|] eqn:Hi; [|done]. exfalso. pose proof (no_routes _ _ _ _ HR Hr Hi) as ->.
  by apply (no_terminals _ _ i HR Ht).
Qed.

(** ** Lookup with the place of each match *)

Section Select.
Context {number : Type} `{RedactionEnv number}.

Fixpoint indexed {A} (n : Z) (l : list A) : list (Z * A) :=
  match l with [] => [] | x :: l => (n, x) :: indexed (n + 1) l end.

Lemma indexed_snd {A} (l : list A) n : map snd (indexed n l) = l.
Proof. revert n. induction l as [|x l IH]; intros n; cbn; [done|]. by rewrite IH. Qed.

Lemma indexed_ge {A} (l : list A) : ∀ n j x, (j, x) ∈ indexed n l → n <= j < n + len l.
Proof.
  induction l as [|y l IH]; intros n j x Hx; cbn [indexed] in Hx; [by apply elem_of_nil in Hx|]. rewrite len_cons.
  pose proof (len_nonneg l). apply elem_of_cons in Hx as [[= -> _]|Hx]; [lia|]. apply IH in Hx. lia.
Qed.

Fixpoint select (v : value number) (path : str) (segments : list JsonPathSegment) {struct segments}
    : list (str * value number) :=
  match segments with
  | [] => [(path, v)]
  | segment :: rest =>
      match segment, v with
      | Key key, Object o =>
          match obj_get o key with Some v => select v (append_key_path path key) rest | None => [] end
      | Index index, Array items =>
          match vec_get items index with Some v => select v (append_index_path path index) rest | None => [] end
      | Wildcard, Array items =>
          concat (map (fun jv => select jv.2 (append_index_path path jv.1) rest) (indexed 0 items))
      | Wildcard, Object o => concat (map (fun kv => select kv.2 (append_key_path path kv.1) rest) o)
      | _, _ => []
      end
  end.

Lemma select_matches segments : ∀ v path, map snd (select v path segments) = extract_matches v segments.
Proof.
  induction segments as [|s segments IH]; intros v path; [done|]. cbn [select extract_matches].
  destruct s as [key|index|], v as [|b|n|t|items|o]; try done.
  - destruct (obj_get o key); [apply IH|done].
  - destruct (vec_get items index); [apply IH|done].
  - rewrite concat_map, map_map. generalize 0. induction items as [|v items IHi]; intros j; [done|].
    cbn [indexed map concat]. rewrite IH, IHi. done.
  - rewrite concat_map, map_map. induction o as [|[k v] o IHo]; [done|]. cbn [map concat fst snd]. by rewrite IH, IHo.
Qed.

Definition sel (r : option (list JsonPathSegment)) (v : value number) (path : str) : list (str * value number) :=
  match r with Some p => select v path p | None => [] end.

Definition sel_here (r : option (list JsonPathSegment)) (v : value number) (path : str) : list (str * value number) :=
  if bool_decide (r = Some []) then [(path, v)] else [].

Definition sel_fields (r : option (list JsonPathSegment)) (o : list (str * value number)) (path : str) :=
  concat (map (fun kv => sel (step_key kv.1 r) kv.2 (append_key_path path kv.1)) o).

Definition sel_items (r : option (list JsonPathSegment)) (n : Z) (items : list (value number)) (path : str) :=
  concat (map (fun jv => sel (step_index jv.1 r) jv.2 (append_index_path path jv.1)) (indexed n items)).

Lemma concat_nil {A B} (f : A → list B) l : (∀ x, x ∈ l → f x = []) → concat (map f l) = [].
Proof.
  intros Hf. induction l as [|x l IH]; [done|]. cbn [map concat]. rewrite (Hf x) by constructor.
  apply IH. intros y Hy. apply Hf. by constructor.
Qed.

Lemma sel_object r o path :
  NoDup (map fst o) → sel r (Object o) path = sel_fields r o path ++ sel_here r (Object o) path.
Proof.
  intros Hd. unfold sel_fields, sel_here. destruct r as [[|[key|j|] p]|]; cbn [sel select step_key].
  - rewrite concat_nil by done. by rewrite bool_decide_true.
  - rewrite bool_decide_false, app_nil_r by done. induction o as [|[k v] o IH]; [done|]. cbn [map] in Hd.
    apply NoDup_cons in Hd as [Hk Hd]. cbn [obj_get map concat fst snd]. destruct (decide (k = key)) as [->|Hne].
    + rewrite !bool_decide_true by done. cbn [sel]. rewrite concat_nil; [by rewrite app_nil_r|].
      intros [k' v'] Hin. cbn [fst snd]. rewrite bool_decide_false; [done|]. intros ->. apply Hk.
      apply list_elem_of_In, in_map_iff. exists (k', v'). by split; [|apply list_elem_of_In].
    + rewrite !bool_decide_false by congruence. by apply IH.
  - by rewrite concat_nil, bool_decide_false.
  - by rewrite bool_decide_false, app_nil_r.
  - by rewrite concat_nil, bool_decide_false.
Qed.

Lemma vec_get_indexed (items : list (value number)) : ∀ n j p path, 0 <= n → 0 <= j →
  concat (map (fun jv => sel (if bool_decide (n + j = jv.1) then Some p else None) jv.2 (append_index_path path jv.1))
    (indexed n items))
  = match vec_get items j with Some v => select v (append_index_path path (n + j)) p | None => [] end.
Proof.
  induction items as [|v items IH]; intros n j p path Hn Hj.
  - cbn. unfold vec_get. by destruct (j <? len []).
  - cbn [indexed map concat fst snd]. destruct (decide (j = 0)) as [->|Hne].
    + rewrite Z.add_0_r, bool_decide_true by done. cbn [sel vec_get]. unfold vec_get. rewrite len_cons.
      pose proof (len_nonneg items). destruct (Z.ltb_spec 0 (1 + len items)); [|lia]. cbn.
      rewrite concat_nil; [by rewrite app_nil_r|]. intros [j' v'] Hin. cbn [fst snd]. rewrite bool_decide_false; [done|].
      intros <-. apply indexed_ge in Hin. lia.
    + rewrite bool_decide_false by lia. cbn [sel app]. specialize (IH (n + 1) (j - 1) p path ltac:(lia) ltac:(lia)).
      replace (n + 1 + (j - 1)) with (n + j) in IH by lia. rewrite IH. unfold vec_get. rewrite len_cons.
      destruct (Z.ltb_spec (j - 1) (len items)), (Z.ltb_spec j (1 + len items)); try lia; [|done].
      by replace (Z.to_nat j) with (S (Z.to_nat (j - 1))) by lia.
Qed.

Definition ranged (r : option (list JsonPathSegment)) : Prop :=
  match r with Some p => Forall in_range p | None => True end.

Lemma ranged_key k r : ranged r → ranged (step_key k r).
Proof.
  destruct r as [[|[k'|j|] p]|]; cbn; try done; rewrite Forall_cons; [|tauto]. intros [_ Hp].
  by case_bool_decide.
Qed.

Lemma ranged_index j r : ranged r → ranged (step_index j r).
Proof.
  destruct r as [[|[k|j'|] p]|]; cbn; try done; rewrite Forall_cons; [|tauto]. intros [_ Hp].
  by case_bool_decide.
Qed.

Lemma sel_array r items path :
  ranged r → sel r (Array items) path = sel_items r 0 items path ++ sel_here r (Array items) path.
Proof.
  intros Hr. unfold sel_items, sel_here. destruct r as [[|[key|j|] p]|]; cbn [sel select step_index].
  - rewrite concat_nil by done. by rewrite bool_decide_true.
  - by rewrite concat_nil, bool_decide_false.
  - rewrite bool_decide_false, app_nil_r by done. cbn in Hr. apply Forall_cons in Hr as [Hj _]. cbn in Hj.
    symmetry. apply (vec_get_indexed items 0 j p path); lia.
  - by rewrite bool_decide_false, app_nil_r.
  - by rewrite concat_nil, bool_decide_false.
Qed.

Definition scalar (v : value number) : bool := match v with Array _ | Object _ => false | _ => true end.

Lemma sel_scalar r v path : scalar v = true → sel r v path = sel_here r v path.
Proof.
  intros Hs. unfold sel_here. destruct r as [[|s p]|]; cbn [sel select].
  - by rewrite bool_decide_true.
  - rewrite bool_decide_false by done. by destruct s, v.
  - done.
Qed.
End Select.

(** ** Sizes *)

Section Sizes.
Context {number : Type} `{RedactionEnv number}.

Lemma comma_separated_snoc {V} (print : V → str) l x : ∀ first,
  comma_separated print first (l ++ [x])
  = comma_separated print first l
    ++ (if first && bool_decide (length l = 0%nat) then [] else lit ",") ++ print x.
Proof.
  induction l as [|y l IH]; intros first; cbn [app comma_separated].
  - rewrite app_nil_r. cbn. by destruct first.
  - rewrite IH, (bool_decide_false (length (y :: l) = 0%nat)) by done. rewrite andb_false_r, <- !app_assoc. done.
Qed.

Lemma json_len_array_snoc (l : list (value number)) x :
  json_len (Array (l ++ [x])) = json_len (Array l) + comma l + json_len x.
Proof.
  unfold json_len, comma. rewrite !to_string_compact. cbn [compact]. rewrite comma_separated_snoc, !len_app.
  cbn [andb]. case_bool_decide; rewrite ?len_nil; [lia|]. change (len (lit ",")) with 1. lia.
Qed.

Lemma json_len_object_snoc (l : list (str * value number)) k x :
  json_len (Object (l ++ [(k, x)])) = json_len (Object l) + comma l + json_len (String k) + 1 + json_len x.
Proof.
  unfold json_len, comma. rewrite !to_string_compact. cbn [compact]. rewrite comma_separated_snoc, !len_app.
  change (len (lit ":")) with 1. cbn [andb]. case_bool_decide; rewrite ?len_nil; [lia|]. change (len (lit ",")) with 1. lia.
Qed.

Lemma json_len_nonneg (v : value number) : 0 <= json_len v.
Proof. apply len_nonneg. Qed.

Lemma comma_range {A} (l : list A) : 0 <= comma l <= 1.
Proof. unfold comma. case_bool_decide; lia. Qed.

Lemma json_len_array_app (r : list (value number)) : ∀ l, json_len (Array l) <= json_len (Array (l ++ r)).
Proof.
  induction r as [|x r IH]; intros l; [by rewrite app_nil_r|]. specialize (IH (l ++ [x])).
  rewrite <- app_assoc, json_len_array_snoc in IH. cbn [app] in IH.
  pose proof (comma_range l). pose proof (json_len_nonneg x). lia.
Qed.

Lemma json_len_object_app (r : list (str * value number)) : ∀ l, json_len (Object l) <= json_len (Object (l ++ r)).
Proof.
  induction r as [|[k x] r IH]; intros l; [by rewrite app_nil_r|]. specialize (IH (l ++ [(k, x)])).
  rewrite <- app_assoc, json_len_object_snoc in IH. cbn [app] in IH.
  pose proof (comma_range l). pose proof (json_len_nonneg x). pose proof (json_len_nonneg (String k)). lia.
Qed.

Fixpoint short_strings (v : value number) : bool :=
  match v with
  | String s => len s <=? MAX_EXTRACTED_VALUE_BYTES
  | Array items => forallb short_strings items
  | Object o => forallb (fun kv => short_strings kv.2) o
  | _ => true
  end.

(** A value that is kept whole *)
Definition fits (v : value number) : bool := (json_len v <=? MAX_EXTRACTED_VALUE_BYTES) && short_strings v.

Lemma fits_array items : fits (Array items) = true → Forall (fun v => fits v = true) items.
Proof.
  unfold fits. rewrite andb_true_iff, Z.leb_le. cbn [short_strings]. rewrite List.forallb_forall. intros [Hl Hs].
  apply Forall_forall. intros v Hv. rewrite andb_true_iff, Z.leb_le. split; [|by apply Hs, list_elem_of_In].
  apply list_elem_of_split in Hv as (a & b & ->). pose proof (json_len_array_app b (a ++ [v])) as Ha.
  rewrite <- app_assoc, json_len_array_snoc in Ha. cbn [app] in Ha.
  pose proof (comma_range a). pose proof (json_len_nonneg (Array a)). lia.
Qed.

Lemma fits_object o : fits (Object o) = true → Forall (fun kv => fits kv.2 = true) o.
Proof.
  unfold fits. rewrite andb_true_iff, Z.leb_le. cbn [short_strings]. rewrite List.forallb_forall. intros [Hl Hs].
  apply Forall_forall. intros [k v] Hv. rewrite andb_true_iff, Z.leb_le. split; [|by apply (Hs (k, v)), list_elem_of_In].
  apply list_elem_of_split in Hv as (a & b & ->). pose proof (json_len_object_app b (a ++ [(k, v)])) as Ha.
  rewrite <- app_assoc, json_len_object_snoc in Ha. cbn [app snd] in *.
  pose proof (comma_range a). pose proof (json_len_nonneg (Object a)). pose proof (json_len_nonneg (String k)). lia.
Qed.

Lemma fits_small v : fits v = true → json_len v <= MAX_EXTRACTED_VALUE_BYTES.
Proof. unfold fits. rewrite andb_true_iff, Z.leb_le. tauto. Qed.
End Sizes.

(** ** What is shown of a document *)

Section Shown.
Context {number : Type} `{RedactionEnv number} (self : Redactor) (raw : bool).

Definition shown_field (key : str) (v : value number) : value number :=
  match redact_json_field self key v [] [] with Some (w, _) => w | None => v end.

Fixpoint shown (v : value number) : value number :=
  match v with
  | String s => if raw then v else String (redact_string_inner self s [] []).1
  | Array items => Array (map shown items)
  | Object o =>
      Object (map (fun kv => (kv.1, if negb raw && is_sensitive_name self kv.1 then shown_field kv.1 kv.2 else shown kv.2)) o)
  | v => v
  end.

Definition shown_entry (kv : str * value number) : str * value number :=
  (kv.1, if negb raw && is_sensitive_name self kv.1 then shown_field kv.1 kv.2 else shown kv.2).

Lemma shown_keys o : map fst (map shown_entry o) = map fst o.
Proof. rewrite map_map. done. Qed.

(** The text of a sensitive field does not depend on its place. *)
Lemma field_text key v path records :
  is_sensitive_name self key = true →
  ∃ s records', redact_json_field self key v path records = Some (String s, records') ∧ shown_field key v = String s.
Proof.
  intros Hs. unfold is_sensitive_name in Hs. apply bool_decide_eq_true in Hs. unfold shown_field, redact_json_field.
  destruct (classify self key) as [c|]; [|done]. clear Hs.
  assert (∀ path records, match v with
    | String text => redact_scalar self text path c records | Number n => redact_scalar self (number_text n) path c records
    | Bool b => redact_scalar self (show_bool b) path c records | Null => (REDACTED_VALUE, records)
    | Array _ | Object _ => (REDACTED_VALUE, push records path (cl_rule c) (lit "redact")) end
    = rendered self c v path records) as He by (intros; by destruct v).
  rewrite !He. destruct (uniform_rendered self c v) as (t & ds & Hu). rewrite !Hu. eauto.
Qed.

Lemma outline_field key v path records :
  (redact_json_field self key (outline v) path records) = redact_json_field self key v path records.
Proof. unfold redact_json_field. destruct (classify self key); [|done]. by destruct v. Qed.
End Shown.

Lemma redact_shown {number : Type} `{RedactionEnv number} (self : Redactor) v : ∀ path records,
  (redact_json_value_inner self v path records).1 = shown self false v.
Proof.
  induction v as [|b|n|s|items IH|o IH] using value_ind'; intros path records; try done; cbn [redact_json_value_inner shown].
  - destruct (redact_string_inner self s path records) as [t r] eqn:He. cbn.
    by rewrite <- (f_equal fst He : _ = t), string_inner_text.
  - assert (∀ i records, (walk_items (fun index v records => redact_json_value_inner self v (path ++ index) records)
      i items records).1 = map (shown self false) items) as Hw.
    { clear records. induction IH as [|v items Hv _ IHi]; intros i records; [done|]. cbn [walk_items map].
      specialize (Hv (path ++ lit "[" ++ show i ++ lit "]") records).
      destruct (redact_json_value_inner self v _ records) as [w r]. cbn in Hv. subst w.
      specialize (IHi (i + 1) r). destruct (walk_items _ (i + 1) items r) as [b r']. cbn in IHi |- *. by subst b. }
    specialize (Hw 0 records). destruct (walk_items _ 0 items records) as [b r]. cbn in Hw |- *. by subst b.
  - match goal with |- context [walk_fields ?f o records] => set (g := f) end.
    assert (∀ records, (walk_fields g o records).1 = map (shown_entry self false) o) as Hw.
    { clear records. induction IH as [|[k v] o Hv _ IHo]; intros records; [done|]. cbn [walk_fields map].
      assert ((g k v records).1 = (shown_entry self false (k, v)).2) as Hg.
      { unfold g, shown_entry. cbn [fst snd negb andb]. destruct (is_sensitive_name self k) eqn:Hs.
        - by destruct (field_text self k v (path ++ lit "." ++ k) records Hs) as (t & r & -> & ->).
        - pose proof (redact_field_safe self k v (path ++ lit "." ++ k) records) as Hf.
          destruct (redact_json_field self k v _ records) as [[w r]|]; [by destruct Hf; congruence|]. apply Hv. }
      destruct (g k v records) as [w r]. cbn [fst] in Hg. subst w. specialize (IHo r).
      destruct (walk_fields g o r) as [p r']. cbn [fst] in IHo |- *. subst p. by unfold shown_entry. }
    specialize (Hw records). destruct (walk_fields g o records) as [p r]. cbn [fst] in Hw |- *. by subst p.
Qed.

Lemma shown_raw {number : Type} `{RedactionEnv number} (self : Redactor) v : shown self true v = v.
Proof.
  induction v as [|b|n|s|items IH|o IH] using value_ind'; try done; cbn [shown]; f_equal.
  - induction IH as [|v items Hv _ IHi]; [done|]. cbn [map]. by rewrite Hv, IHi.
  - induction IH as [|[k v] o Hv _ IHo]; [done|]. cbn [map fst snd negb andb] in *. by rewrite Hv, IHo.
Qed.

(** ** The state is only written

    What a visit does to the state is a list of events, the same for every
    state it starts from. *)

Section Events.
Context {number : Type} `{RedactionEnv number} `{!JsonSource number} (self : Redactor) (raw : bool).

Inductive event := Pushed (m : CapturedMatch number) (path_index : nat) | Redacted (records : list RedactionRecord).

Definition perform (st : ExtractionState number) (e : event) : ExtractionState number :=
  match e with Pushed m i => push_match st m i | Redacted records => collect_redactions st records end.

Definition run (events : list event) (st : ExtractionState number) : ExtractionState number := foldl perform st events.

Lemma run_app a b st : run (a ++ b) st = run b (run a st).
Proof. apply foldl_app. Qed.

Definition pushed_at (i : nat) (e : event) : list (CapturedMatch number) :=
  match e with Pushed m j => if decide (j = i) then [m] else [] | Redacted _ => [] end.

Definition pushes_at (i : nat) (events : list event) : list (CapturedMatch number) := concat (map (pushed_at i) events).

Lemma pushes_app i a b : pushes_at i (a ++ b) = pushes_at i a ++ pushes_at i b.
Proof. unfold pushes_at. by rewrite map_app, concat_app. Qed.

Definition as_match (pv : str * value number) : CapturedMatch number :=
  {| cm_path := pv.1; cm_value := pv.2; cm_summary := None; cm_type := json_type_name pv.2; cm_truncated := false |}.

Lemma push_all m l st : foldl (fun st i => push_match st m i) st l = run (map (Pushed m) l) st.
Proof. revert st. induction l as [|i l IH]; intros st; cbn; [done|apply IH]. Qed.

Lemma pushes_terminals m nodes R i (w : value number) path :
  represents nodes R → m = as_match (path, w) →
  pushes_at i (map (Pushed m) (collect_terminals nodes)) = map as_match (sel_here (R i) w path).
Proof.
  intros HR ->. unfold sel_here. pose proof (terminals_nodup nodes) as Hd.
  assert (∀ l, NoDup l → pushes_at i (map (Pushed (as_match (path, w))) l)
    = if bool_decide (i ∈ l) then [as_match (path, w)] else []) as Hl.
  { induction 1 as [|j l Hj _ IH]; [done|]. unfold pushes_at in *. cbn [map concat pushed_at].
    rewrite IH. destruct (decide (j = i)) as [->|Hne].
    - rewrite (bool_decide_false (i ∈ l)), bool_decide_true by (done || by constructor). done.
    - cbn [app]. assert (i ∈ j :: l ↔ i ∈ l) as Hi by (rewrite elem_of_cons; naive_solver). repeat case_bool_decide; tauto. }
  rewrite Hl by done. assert (i ∈ collect_terminals nodes ↔ R i = Some []) as Hi by by apply elem_of_terminals.
  repeat case_bool_decide; tauto.
Qed.

(** What is kept of a value that fits *)
Definition captured (c : CapturedValue number) (w : value number) : Prop :=
  cv_value c = w ∧ cv_type c = json_type_name w ∧ cv_summary c = None ∧ cv_truncated c = false.

Definition ranges (R : Rest) : Prop := ∀ i, ranged (R i).
Definition all_fit (R : Rest) (w : value number) (path : str) : Prop :=
  ∀ i, Forall (fun pv => fits pv.2 = true) (sel (R i) w path).

Definition describes (events : list event) (R : Rest) (w : value number) (path : str) : Prop :=
  ∀ i, pushes_at i events = map as_match (sel (R i) w path).

(** A visit of a value that is shown as [w] *)
Definition visits (seed : list PathNode → str → bool → ExtractionState number → result (CapturedValue number * ExtractionState number) str)
    (w : value number) : Prop :=
  ∀ nodes R path all, represents nodes R → ranges R → (all = true → fits w = true) → all_fit R w path →
  ∃ c events, (∀ st, seed nodes path all st = Ok (c, run events st)) ∧ describes events R w path ∧
    (all = true → captured c w).

Lemma all_fit_here R w path i : all_fit R w path → R i = Some [] → fits w = true.
Proof. intros Hf Hi. specialize (Hf i). rewrite Hi in Hf. cbn in Hf. by apply Forall_cons in Hf as [Hf _]. Qed.

Lemma all_fit_build nodes R w path (all : bool) :
  represents nodes R → (all = true → fits w = true) → all_fit R w path →
  all || negb (bool_decide (collect_terminals nodes = [])) = true → fits w = true.
Proof.
  intros HR Ha Hf Hb. destruct all; [by apply Ha|]. cbn in Hb. apply negb_true_iff, bool_decide_eq_false in Hb.
  destruct (collect_terminals nodes) as [|i l] eqn:Ht; [done|]. eapply (all_fit_here R w path i); [done|].
  apply (elem_of_terminals nodes R i HR). rewrite Ht. constructor.
Qed.

Lemma append_object_fits (c : Collected number (str * value number)) key captured_ w ws :
  captured captured_ w → co_truncated c = false → co_size c = json_len (Object (co_items c)) →
  key ∉ map fst (co_items c) → json_len (Object (co_items c ++ (key, w) :: ws)) <= MAX_EXTRACTED_VALUE_BYTES →
  let c' := append_object_entry c key captured_ in
  co_items c' = co_items c ++ [(key, w)] ∧ co_truncated c' = false ∧ co_size c' = json_len (Object (co_items c')) ∧
  co_count c' = co_count c.
Proof.
  intros (Hv & _) Ht Hs Hk Hfit. unfold append_object_entry, append_entry. rewrite Ht, Hv.
  pose proof (json_len_object_app ws (co_items c ++ [(key, w)])) as Hle. rewrite <- app_assoc in Hle. cbn [app] in Hle.
  rewrite json_len_object_snoc in Hle. pose proof (json_len_nonneg (Object (co_items c))). pose proof (json_len_nonneg w).
  pose proof (json_len_nonneg (String key)). pose proof (comma_range (co_items c)). unfold MAX_EXTRACTED_VALUE_BYTES in *.
  assert (usize_add (usize_add (usize_add (usize_add (co_size c) (comma (co_items c))) (json_len (String key))) 1) (json_len w)
    = json_len (Object (co_items c)) + comma (co_items c) + json_len (String key) + 1 + json_len w) as ->
    by (rewrite Hs; unfold usize_add, sat_add, usize_max, u64_max; lia).
  destruct (Z.ltb_spec (64 * 1024) (json_len (Object (co_items c)) + comma (co_items c) + json_len (String key) + 1 + json_len w)); [lia|].
  cbn [co_items co_truncated co_size co_count].
  assert (obj_insert (co_items c) key w = co_items c ++ [(key, w)]) as ->.
  { clear -Hk. induction (co_items c) as [|[k v] o IH]; [done|]. cbn [obj_insert map] in *.
    rewrite elem_of_cons in Hk. rewrite bool_decide_false by (intros ->; tauto). rewrite IH by tauto. done. }
  by rewrite json_len_object_snoc.
Qed.

Lemma append_array_fits (c : Collected number (value number)) captured_ w ws :
  captured captured_ w → co_truncated c = false → co_size c = json_len (Array (co_items c)) →
  json_len (Array (co_items c ++ w :: ws)) <= MAX_EXTRACTED_VALUE_BYTES →
  let c' := append_array_entry c captured_ in
  co_items c' = co_items c ++ [w] ∧ co_truncated c' = false ∧ co_size c' = json_len (Array (co_items c')) ∧
  co_count c' = co_count c.
Proof.
  intros (Hv & _) Ht Hs Hfit. unfold append_array_entry, append_entry. rewrite Ht, Hv.
  pose proof (json_len_array_app ws (co_items c ++ [w])) as Hle. rewrite <- app_assoc in Hle. cbn [app] in Hle.
  rewrite json_len_array_snoc in Hle. pose proof (json_len_nonneg (Array (co_items c))). pose proof (json_len_nonneg w).
  pose proof (comma_range (co_items c)). unfold MAX_EXTRACTED_VALUE_BYTES in *.
  assert (usize_add (usize_add (co_size c) (comma (co_items c))) (json_len w)
    = json_len (Array (co_items c)) + comma (co_items c) + json_len w) as ->
    by (rewrite Hs; unfold usize_add, sat_add, usize_max, u64_max; lia).
  destruct (Z.ltb_spec (64 * 1024) (json_len (Array (co_items c)) + comma (co_items c) + json_len w)); [lia|].
  cbn [co_items co_truncated co_size co_count]. by rewrite json_len_array_snoc.
Qed.
End Events.

(** ** The visits *)

Section Visits.
Context {number : Type} `{RedactionEnv number} `{!JsonSource number} (self : Redactor) (raw : bool).

(** A sensitive field: nothing below it can be selected. *)
Definition field_visits (field : str → ExtractionState number → result (CapturedValue number * ExtractionState number) str)
    (w : value number) : Prop :=
  scalar w = true ∧ ∀ path, ∃ c records, (∀ st, field path st = Ok (c, run [Redacted records] st)) ∧ captured c w.

(** What the loops collect when the container is built: the values, none cut *)
Definition collecting {A} (make : list A → value number) (build : bool) (c : Collected number A) (rest : list A) : Prop :=
  build = true → co_truncated c = false ∧ co_size c = json_len (make (co_items c)) ∧
    fits (make (co_items c ++ rest)) = true.

Definition keys_distinct (build : bool) (c : Collected number (str * value number)) (rest : list (str * value number)) : Prop :=
  build = true → NoDup (map fst (co_items c ++ rest)).

(** One more field *)
Lemma append_field build c k cw w ws :
  collecting Object build c ((k, w) :: ws) → keys_distinct build c ((k, w) :: ws) → (build = true → captured cw w) →
  let c' := if build then append_object_entry (counted c (co_count c + 1)) k cw else counted c (co_count c + 1) in
  collecting Object build c' ws ∧ keys_distinct build c' ws ∧ (build = true → co_items c' = co_items c ++ [(k, w)]).
Proof.
  intros Hc Hd Hcw. destruct build; [|done]. destruct (Hc eq_refl) as (Ht & Hs & Hf). specialize (Hd eq_refl).
  destruct (append_object_fits (counted c (co_count c + 1)) k cw w ws) as (Hi1 & Ht1 & Hs1 & _);
    [by apply Hcw|done|done| |by apply fits_small|].
  - rewrite map_app in Hd. cbn [map fst] in Hd. apply NoDup_app in Hd as (_ & Hdis & _). intros Hin.
    apply (Hdis k Hin). constructor.
  - cbn [counted co_items] in Hi1. split_and!; [| |done]; intros _; [split_and!; [done|done|]|]; by rewrite Hi1, <- app_assoc.
Qed.

(** One more item *)
Lemma append_item build c n cw w ws :
  collecting Array build c (w :: ws) → (build = true → captured cw w) →
  let c' := counted (if build then append_array_entry c cw else c) n in
  collecting Array build c' ws ∧ (build = true → co_items c' = co_items c ++ [w]).
Proof.
  intros Hc Hcw. destruct build; [|done]. destruct (Hc eq_refl) as (Ht & Hs & Hf).
  destruct (append_array_fits c cw w ws) as (Hi1 & Ht1 & Hs1 & _); [by apply Hcw|done|done|by apply fits_small|].
  split; [|done]. intros _. cbn [counted co_items co_truncated co_size]. split_and!; [done|done|]. by rewrite Hi1, <- app_assoc.
Qed.

Lemma all_fit_cons R k w ws path :
  (∀ i, Forall (fun pv : str * value number => fits pv.2 = true) (sel_fields (R i) ((k, w) :: ws) path)) →
  all_fit (fun i => step_key k (R i)) w (append_key_path path k) ∧
  ∀ i, Forall (fun pv => fits pv.2 = true) (sel_fields (R i) ws path).
Proof.
  intros Hfit. split; intros i; specialize (Hfit i); unfold sel_fields in Hfit; cbn [map concat fst snd] in Hfit;
    apply Forall_app in Hfit; tauto.
Qed.

Lemma visit_map_spec seed ignore field nodes R path build o :
  represents nodes R → ranges R →
  Forall (fun kv => ignore kv.2 = Ok tt ∧
    if negb raw && is_sensitive_name self kv.1
    then field_visits (field kv.1 kv.2) (shown_entry self raw kv).2
    else visits (fun nodes path all => seed nodes path all kv.2) (shown_entry self raw kv).2) o →
  (∀ i, Forall (fun pv => fits pv.2 = true) (sel_fields (R i) (map (shown_entry self raw) o) path)) →
  ∀ c, collecting Object build c (map (shown_entry self raw) o) → keys_distinct build c (map (shown_entry self raw) o) →
  ∃ c' events, (∀ st, visit_map self raw seed ignore field nodes path build o c st = Ok (c', run events st)) ∧
    (∀ i, pushes_at i events = map as_match (sel_fields (R i) (map (shown_entry self raw) o) path)) ∧
    (build = true → co_items c' = co_items c ++ map (shown_entry self raw) o ∧ co_truncated c' = false).
Proof.
  intros HR Hg Ho. induction Ho as [|[k v] o [Hig Hv] _ IH]; intros Hfit c Hc Hd.
  { exists c, []. split_and!; [done|done|]. intros Hb. destruct (Hc Hb) as (Ht & _). cbn [map]. by rewrite app_nil_r. }
  cbn [map fst snd] in Hig, Hv, Hfit, Hc, Hd |- *. set (w := (shown_entry self raw (k, v)).2) in *.
  set (ws := map (shown_entry self raw) o) in *. set (child := child_nodes_for_key nodes k). set (here := append_key_path path k).
  change (shown_entry self raw (k, v)) with (k, w) in Hfit, Hc, Hd |- *.
  destruct (all_fit_cons R k w ws path Hfit) as [Hfw Hfs]. specialize (IH Hfs).
  assert (represents child (fun i => step_key k (R i))) as HRk by by apply represents_key.
  assert (∀ cw events, (∀ i, pushes_at i events = map as_match (sel (step_key k (R i)) w here)) → (build = true → captured cw w) →
    ∃ c' events', (∀ st, visit_map self raw seed ignore field nodes path build o
        (if build then append_object_entry (counted c (co_count c + 1)) k cw else counted c (co_count c + 1)) (run events st)
        = Ok (c', run events' st)) ∧
      (∀ i, pushes_at i events' = map as_match (sel_fields (R i) ((k, w) :: ws) path)) ∧
      (build = true → co_items c' = co_items c ++ (k, w) :: ws ∧ co_truncated c' = false)) as Hrest.
  { intros cw events Hev Hcw. destruct (append_field build c k cw w ws Hc Hd Hcw) as (Hc1 & Hd1 & Hi1).
    destruct (IH _ Hc1 Hd1) as (c' & events' & Hrun & Hpush & Hbuild). exists c', (events ++ events'). split_and!.
    - intros st. rewrite run_app. apply Hrun.
    - intros i. rewrite pushes_app, Hev, Hpush. unfold sel_fields. cbn [map concat fst snd]. by rewrite map_app.
    - intros Hb. destruct (Hbuild Hb) as [Hi' Ht']. rewrite Hi', Hi1, <- app_assoc by done. done. }
  cbn [visit_map]. fold child here. destruct (unwanted build child) eqn:Hun.
  { rewrite Hig. cbn [rbind]. destruct (unwanted_none _ _ build 0%nat HRk Hun) as [Hb _].
    destruct (Hrest ignored []) as (c' & events & Hrun & Hpush & Hb'); [|congruence|].
    - intros i. by destruct (unwanted_none _ _ build i HRk Hun) as [_ ->].
    - exists c', events. split_and!; [|done|done]. intros st. rewrite <- Hrun, Hb. done. }
  destruct (negb raw && is_sensitive_name self k).
  - destruct Hv as [Hsc Hv]. destruct (Hv here) as (cw & records & Hf & Hcw).
    destruct (Hrest cw ([Redacted records] ++ map (Pushed (as_match (here, w))) (collect_terminals child)))
      as (c' & events & Hrun & Hpush & Hb'); [|done|].
    + intros i. rewrite (sel_scalar _ w), pushes_app by done. by apply (pushes_terminals _ _ (fun i => step_key k (R i))).
    + exists c', events. split_and!; [|done|done]. intros st. rewrite Hf. cbn [rbind fst snd]. rewrite <- Hrun, run_app.
      f_equal. destruct Hcw as (Hcv & Hct & _ & Hctr). unfold capture_sensitive. rewrite push_all, Hcv, Hct, Hctr.
      case_bool_decide as Ht; [by rewrite Ht|done].
  - destruct (Hv child (fun i => step_key k (R i)) here (build || negb (bool_decide (collect_terminals child = []))))
      as (cw & ev & Hrun & Hdesc & Hcap); [done|intros i; apply ranged_key, Hg| |done|].
    { apply (all_fit_build _ _ w here build HRk); [|done]. intros Hb. destruct (Hc Hb) as (_ & _ & Hff).
      apply fits_object in Hff. rewrite Forall_app, Forall_cons in Hff. by destruct Hff as (_ & Hff & _). }
    destruct (Hrest cw ev) as (c' & events & Hrun' & Hpush & Hb'); [exact Hdesc|intros Hb; apply Hcap; by rewrite Hb|].
    exists c', events. split_and!; [|done|done]. intros st. rewrite Hrun. cbn [rbind fst snd]. apply Hrun'.
Qed.

Lemma visit_seq_spec seed ignore nodes R path build items :
  represents nodes R → ranges R →
  Forall (fun v => ignore v = Ok tt ∧ visits (fun nodes path all => seed nodes path all v) (shown self raw v)) items →
  ∀ c, 0 <= co_count c → co_count c + len items <= usize_max →
  (∀ i, Forall (fun pv => fits pv.2 = true) (sel_items (R i) (co_count c) (map (shown self raw) items) path)) →
  collecting Array build c (map (shown self raw) items) →
  ∃ c' events, (∀ st, visit_seq seed ignore nodes path build items c st = Ok (c', run events st)) ∧
    (∀ i, pushes_at i events = map as_match (sel_items (R i) (co_count c) (map (shown self raw) items) path)) ∧
    (build = true → co_items c' = co_items c ++ map (shown self raw) items ∧ co_truncated c' = false).
Proof.
  intros HR Hg Ho. induction Ho as [|v items [Hig Hv] _ IH]; intros c H0 Hmax Hfit Hc.
  { exists c, []. split_and!; [done|done|]. intros Hb. destruct (Hc Hb) as (Ht & _). cbn [map]. by rewrite app_nil_r. }
  cbn [map] in Hfit, Hc |- *. set (w := shown self raw v) in *. set (ws := map (shown self raw) items) in *.
  set (n := co_count c) in *. set (child := child_nodes_for_index nodes n). set (here := append_index_path path n).
  rewrite len_cons in Hmax. pose proof (len_nonneg items).
  assert (usize_add n 1 = n + 1) as Hn by (apply usize_add_exact; lia).
  assert (all_fit (fun i => step_index n (R i)) w here ∧
    ∀ i, Forall (fun pv => fits pv.2 = true) (sel_items (R i) (n + 1) ws path)) as [Hfw Hfs].
  { split; intros i; specialize (Hfit i); unfold sel_items in Hfit; cbn [indexed map concat fst snd] in Hfit;
      apply Forall_app in Hfit; tauto. }
  assert (represents child (fun i => step_index n (R i))) as HRk by by apply represents_index.
  assert (∀ cw events, (∀ i, pushes_at i events = map as_match (sel (step_index n (R i)) w here)) → (build = true → captured cw w) →
    ∃ c' events', (∀ st, visit_seq seed ignore nodes path build items
        (counted (if build then append_array_entry c cw else c) (n + 1)) (run events st) = Ok (c', run events' st)) ∧
      (∀ i, pushes_at i events' = map as_match (sel_items (R i) n (w :: ws) path)) ∧
      (build = true → co_items c' = co_items c ++ w :: ws ∧ co_truncated c' = false)) as Hrest.
  { intros cw events Hev Hcw. destruct (append_item build c (n + 1) cw w ws Hc Hcw) as (Hc1 & Hi1).
    destruct (IH (counted (if build then append_array_entry c cw else c) (n + 1))) as (c' & events' & Hrun & Hpush & Hbuild);
      [cbn; lia|cbn; lia|done|done|]. exists c', (events ++ events'). split_and!.
    - intros st. rewrite run_app. apply Hrun.
    - intros i. rewrite pushes_app, Hev, Hpush. unfold sel_items. cbn [indexed map concat fst snd]. by rewrite map_app.
    - intros Hb. destruct (Hbuild Hb) as [Hi' Ht']. rewrite Hi', Hi1, <- app_assoc by done. done. }
  cbn [visit_seq]. fold n child here. rewrite Hn. destruct (unwanted build child) eqn:Hun.
  { rewrite Hig. cbn [rbind]. destruct (unwanted_none _ _ build 0%nat HRk Hun) as [Hb _].
    destruct (Hrest ignored []) as (c' & events & Hrun & Hpush & Hb'); [|congruence|].
    - intros i. by destruct (unwanted_none _ _ build i HRk Hun) as [_ ->].
    - exists c', events. split_and!; [|done|done]. intros st. rewrite <- Hrun, Hb. done. }
  destruct (Hv child (fun i => step_index n (R i)) here (build || negb (bool_decide (collect_terminals child = []))))
    as (cw & ev & Hrun & Hdesc & Hcap); [done|intros i; apply ranged_index, Hg| |done|].
  { apply (all_fit_build _ _ w here build HRk); [|done]. intros Hb. destruct (Hc Hb) as (_ & _ & Hff).
    apply fits_array in Hff. rewrite Forall_app, Forall_cons in Hff. by destruct Hff as (_ & Hff & _). }
  destruct (Hrest cw ev) as (c' & events & Hrun' & Hpush & Hb'); [exact Hdesc|intros Hb; apply Hcap; by rewrite Hb|].
  exists c', events. split_and!; [|done|done]. intros st. rewrite Hrun. cbn [rbind fst snd]. apply Hrun'.
Qed.
End Visits.

Section Capture.
Context {number : Type} `{RedactionEnv number} `{!JsonSource number} (self : Redactor) (raw : bool).

Fixpoint arrays_fit (v : value number) : bool :=
  match v with
  | Array items => (len items <=? usize_max) && forallb arrays_fit items
  | Object o => forallb (fun kv => arrays_fit kv.2) o
  | _ => true
  end.

(** Redacting it again changes nothing. *)
Definition settled (c : CapturedValue number) (w : value number) : Prop :=
  cv_already_redacted c = true ∨ raw = true ∨ match w with Null | Bool _ | Number _ => True | _ => False end.

Lemma capture_terminal nodes R path w c :
  represents nodes R → captured c w → settled c w →
  ∃ events, (∀ st, capture self raw (collect_terminals nodes) path c st = run events st) ∧
    ∀ i, pushes_at i events = map as_match (sel_here (R i) w path).
Proof.
  intros HR (Hv & Ht & Hs & Htr) Hset. unfold capture. rewrite Hv, Ht, Hs, Htr.
  assert (∃ records, ∀ st, (if negb raw && negb (cv_already_redacted c) then
      let '(v, records) := redact_json_value self w path [] in (v, collect_redactions st records) else (w, st))
    = (w, run records st) ∧ ∀ i, pushes_at i records = []) as (ev & Hev).
  { destruct (negb raw && negb (cv_already_redacted c)) eqn:Hb; [|by exists []].
    apply andb_true_iff in Hb as [Hr Ha]. rewrite negb_true_iff in Hr, Ha.
    destruct Hset as [Hset|[Hset|Hset]]; [congruence|congruence|]. exists [Redacted []]. by destruct w. }
  exists (ev ++ map (Pushed (as_match (path, w))) (collect_terminals nodes)). split.
  - intros st. destruct (Hev st) as [-> _]. by rewrite push_all, run_app.
  - intros i. rewrite pushes_app. destruct (Hev (new_state 0)) as [_ ->]. by apply (pushes_terminals _ _ R).
Qed.

(** What [CaptureVisitor] gives, closed by the capture at the node itself *)
Lemma capture_close nodes R path (all : bool) w
    (inner : ExtractionState number → result (CapturedValue number * ExtractionState number) str) :
  represents nodes R →
  (∃ c events, (∀ st, inner st = Ok (c, run events st)) ∧
     (∀ i, pushes_at i events ++ map as_match (sel_here (R i) w path) = map as_match (sel (R i) w path)) ∧
     (all || negb (bool_decide (collect_terminals nodes = [])) = true → captured c w ∧ settled c w)) →
  ∃ c events,
    (∀ st, (let? out := inner st in
            Ok (out.1, if bool_decide (collect_terminals nodes = []) then out.2
                       else capture self raw (collect_terminals nodes) path out.1 out.2)) = Ok (c, run events st)) ∧
    describes events R w path ∧ (all = true → captured c w).
Proof.
  intros HR (c & ev & Hin & Hp & Hc). exists c. case_bool_decide as Ht.
  - exists ev. split_and!; [intros st; by rewrite Hin| |intros ->; by apply Hc].
    intros i. rewrite <- Hp. unfold sel_here. rewrite bool_decide_false by (by apply (no_terminals nodes)).
    cbn [map]. by rewrite app_nil_r.
  - rewrite orb_true_r in Hc. destruct (Hc eq_refl) as [Hcap Hset].
    destruct (capture_terminal nodes R path w c HR Hcap Hset) as (ev' & Hrun & Hpush). exists (ev ++ ev'). split_and!.
    + intros st. rewrite Hin. cbn [rbind fst snd]. by rewrite Hrun, run_app.
    + intros i. by rewrite pushes_app, Hpush, Hp.
    + done.
Qed.

Lemma string_visit s path :
  ∃ c events, (∀ st, captured_string self raw s path st = (c, run events st)) ∧ (∀ i, pushes_at i events = []) ∧
    (fits (shown self raw (String s)) = true → captured c (shown self raw (String s)) ∧ settled c (shown self raw (String s))).
Proof.
  unfold captured_string, settled. destruct raw; cbn [shown].
  - unfold fits. cbn [short_strings]. destruct (len s <=? MAX_EXTRACTED_VALUE_BYTES); eexists _, [];
      (split_and!; [done|done|]); rewrite andb_true_iff; intros [_ ?]; [by split; [|right; left]|done].
  - unfold redact_json_value. cbn [redact_json_value_inner].
    destruct (redact_string_inner self s path []) as [t records] eqn:He.
    assert ((redact_string_inner self s [] []).1 = t) as -> by (by rewrite <- string_inner_text with (path := path) (records := []), He).
    unfold fits. cbn [short_strings]. destruct (len t <=? MAX_EXTRACTED_VALUE_BYTES); eexists _, [Redacted records];
      (split_and!; [done|done|]); rewrite andb_true_iff; intros [_ ?]; [by split; [|left]|done].
Qed.

Lemma field_visit key v depth :
  is_sensitive_name self key = true → (depth + nesting v <= MAX_JSON_DEPTH)%nat →
  field_visits (fun path st => capture_field self key v path depth st) (shown_field self key v).
Proof.
  intros Hs Hd. destruct (field_text self key v [] [] Hs) as (t & r & _ & Ht). split; [by rewrite Ht|]. intros path.
  unfold capture_field. rewrite sensitive_value_ok by done. cbn [rbind]. rewrite outline_field.
  destruct (field_text self key v path [] Hs) as (t' & r' & -> & Ht'). eexists _, r'. split; [done|].
  rewrite Ht'. done.
Qed.

Lemma empty_len : json_len (Array (number := number) []) = 2 ∧ json_len (Object (number := number) []) = 2.
Proof. unfold json_len. by rewrite !to_string_compact. Qed.

Lemma capture_spec v : ∀ depth,
  wf v → arrays_fit v = true → (depth + nesting v <= MAX_JSON_DEPTH)%nat →
  visits (fun nodes path all st => capture_value self raw nodes path all depth v st) (shown self raw v).
Proof.
  induction v as [|b|n|s|items IH|o IH] using value_ind'; intros depth Hwf Harr Hd nodes R path all HR Hg Ha Hf;
    cbn [capture_value]; rewrite ignore_ok by done;
    (destruct (negb _ && negb _) eqn:Hun;
      [ apply andb_true_iff in Hun as [Hb Hr]; rewrite negb_orb, negb_involutive in Hb; apply andb_true_iff in Hb as [Hb Ht];
        rewrite negb_true_iff in Hb, Hr; apply bool_decide_eq_true in Ht;
        exists ignored, []; split_and!; [done| |congruence]; intros i; destruct (R i) as [p|] eqn:Hi; [|done];
        pose proof (no_routes _ _ _ _ HR Hr Hi) as ->; by destruct (no_terminals _ _ i HR Ht) |]); clear Hun;
    apply capture_close; try done;
    pose proof (all_fit_build nodes R _ path all HR Ha Hf) as Hfit.
  1-3: eexists _, []; split_and!; [done|intros i; by rewrite sel_scalar|];
       intros _; split; [done|by right; right].
  - destruct (string_visit s path) as (c & ev & Hrun & Hpush & Hc). exists c, ev. split_and!.
    + intros st. by rewrite Hrun.
    + intros i. rewrite Hpush, sel_scalar; [done|]. cbn [shown]. by destruct raw.
    + intros Hb. by apply Hc, Hfit.
  - rewrite ensure_depth_ok by (cbn [nesting] in Hd; lia). cbn [rbind].
    destruct (visit_seq_spec self raw (fun nodes path all v st => capture_value self raw nodes path all (S depth) v st)
      (ignore_value (S depth)) nodes R path (all || negb (bool_decide (collect_terminals nodes = []))) items)
      with (c := nothing (number := number) (A := value number)) as (c & ev & Hrun & Hpush & Hc); [done|done| | | | | |].
    + inversion Hwf as [| | | |? Hw|]; subst. cbn [arrays_fit nesting] in Harr, Hd. apply andb_true_iff in Harr as [_ Harr].
      rewrite List.forallb_forall in Harr.
      assert (Forall (fun v => nesting v <= MAX_JSON_DEPTH - S depth)%nat items) as Hl by (apply max_of_elem; lia).
      rewrite Forall_forall in IH, Hl, Hw |- *. intros v Hv. specialize (Hl v Hv). split; [apply ignore_ok; lia|].
      apply IH; [done|by apply Hw|by apply Harr, list_elem_of_In|lia].
    + done.
    + cbn [arrays_fit] in Harr. apply andb_true_iff in Harr as [Harr%Z.leb_le _]. cbn. lia.
    + intros i. specialize (Hf i). cbn [shown] in Hf. rewrite sel_array in Hf by apply Hg. apply Forall_app in Hf. apply Hf.
    + intros Hb. split_and!; [done|exact (eq_sym (proj1 empty_len))|]. by apply Hfit.
    + exists (finish_seq raw (all || negb (bool_decide (collect_terminals nodes = []))) c), ev. split_and!.
      * intros st. by rewrite Hrun.
      * intros i. cbn [shown]. rewrite Hpush, (sel_array (R i)), map_app by apply Hg. done.
      * intros Hb. destruct (Hc Hb) as [Hi Ht]. unfold finish_seq, finish. rewrite Hb, Ht. cbn [negb]. cbn in Hi. rewrite Hi.
        split; [done|]. unfold settled. cbn. destruct raw; [by right; left|by left].
  - rewrite ensure_depth_ok by (cbn [nesting] in Hd; lia). cbn [rbind].
    inversion Hwf as [| | | | |? Hnd Hw]; subst. assert (NoDup (map fst (map (shown_entry self raw) o))) as Hnd' by by rewrite shown_keys.
    destruct (visit_map_spec self raw (fun nodes path all v st => capture_value self raw nodes path all (S depth) v st)
      (ignore_value (S depth)) (fun key v path st => capture_field self key v path (S depth) st) nodes R path
      (all || negb (bool_decide (collect_terminals nodes = []))) o)
      with (c := nothing (number := number) (A := str * value number)) as (c & ev & Hrun & Hpush & Hc); [done|done| | | | |].
    + cbn [arrays_fit nesting] in Harr, Hd. rewrite List.forallb_forall in Harr.
      assert (Forall (fun kv => nesting kv.2 <= MAX_JSON_DEPTH - S depth)%nat o) as Hl
        by (apply (max_of_elem (fun kv => nesting kv.2)); lia).
      rewrite Forall_forall in IH, Hl, Hw |- *. intros [k v] Hv. specialize (Hl _ Hv). cbn [fst snd] in *.
      split; [apply ignore_ok; lia|]. unfold shown_entry. cbn [fst snd].
      destruct (negb raw && is_sensitive_name self k) eqn:Hsen.
      * apply andb_true_iff in Hsen as [_ Hsen]. apply field_visit; [done|lia].
      * apply (IH _ Hv); [by apply (Hw _ Hv)|by apply (Harr (k, v)), list_elem_of_In|cbn; lia].
    + intros i. specialize (Hf i). cbn [shown] in Hf. rewrite sel_object in Hf by done. apply Forall_app in Hf. apply Hf.
    + intros Hb. split_and!; [done|exact (eq_sym (proj2 empty_len))|]. by apply Hfit.
    + intros _. exact Hnd'.
    + exists (finish_map raw (all || negb (bool_decide (collect_terminals nodes = []))) c), ev. split_and!.
      * intros st. by rewrite Hrun.
      * intros i. cbn [shown]. rewrite Hpush, (sel_object (R i)), map_app by done. done.
      * intros Hb. destruct (Hc Hb) as [Hi Ht]. unfold finish_map, finish. rewrite Hb, Ht. cbn [negb]. cbn in Hi. rewrite Hi.
        split; [done|]. unfold settled. cbn. destruct raw; [by right; left|by left].
Qed.
End Capture.

(** ** Places are distinct *)

Lemma key_path_inj k k' s s' :
  append_key_path [] k ++ s = append_key_path [] k' ++ s' → closed_end s → closed_end s' → k = k'.
Proof.
  unfold append_key_path. intros He Hs Hs'.
  destruct (forallb plain_key_byte k) eqn:Hk, (forallb plain_key_byte k') eqn:Hk'; cbn [app] in He.
  - change (lit "." ++ k) with (chr "." :: k) in He. change (lit "." ++ k') with (chr "." :: k') in He.
    cbn [app] in He. injection He as He. pose proof (scan_property_key k s Hk Hs) as H1.
    rewrite He, (scan_property_key k' s' Hk' Hs') in H1. by injection H1.
  - done.
  - done.
  - rewrite !escape_key in He. change (lit "['") with [chr "["; 39] in He. change (lit "']") with [39; chr "]"] in He.
    cbn [app] in He. injection He as He. rewrite <- !app_assoc in He. cbn [app] in He.
    pose proof (quoted_property_key k s []) as H1. rewrite He, quoted_property_key in H1. by injection H1.
Qed.

Lemma index_path_inj i j s s' :
  append_index_path [] i ++ s = append_index_path [] j ++ s' → 0 <= i <= usize_max → 0 <= j <= usize_max → i = j.
Proof.
  unfold append_index_path. change (lit "[") with [chr "["]. change (lit "]") with [chr "]"]. cbn [app].
  rewrite <- !app_assoc. cbn [app]. intros He Hi Hj. injection He as He.
  pose proof (bracket_index i s Hi) as H1. rewrite He, bracket_index in H1 by done. by injection H1.
Qed.

Lemma nodup_concat_map {A B K} (f : A → list B) (key : A → K) l :
  NoDup (map key l) → (∀ x, x ∈ l → NoDup (f x)) →
  (∀ x y z, x ∈ l → y ∈ l → z ∈ f x → z ∈ f y → key x = key y) → NoDup (concat (map f l)).
Proof.
  induction l as [|x l IH]; intros Hd Hf Hx; cbn [map concat]; [constructor|]. cbn [map] in Hd.
  apply NoDup_cons in Hd as [Hk Hd]. apply NoDup_app. split_and!.
  - apply Hf. constructor.
  - intros z Hz Hz'. apply elem_of_concat_map in Hz' as (y & Hy & Hz'). apply Hk.
    rewrite (Hx x y z); [|constructor|by constructor|done|done]. apply list_elem_of_In, in_map_iff. exists y.
    by split; [|apply list_elem_of_In].
  - apply IH; [done|intros y Hy; apply Hf; by constructor|]. intros a b z Ha Hb. apply Hx; by constructor.
Qed.

Section Places.
Context {number : Type} `{RedactionEnv number}.

Lemma select_prefix segments : ∀ (v : value number) path q x,
  (q, x) ∈ select v path segments → ∃ s, q = path ++ s ∧ closed_end s.
Proof.
  assert (∀ (v : value number) segs path s q x, (∀ path, (q, x) ∈ select v path segs → ∃ t, q = path ++ t ∧ closed_end t) →
    (q, x) ∈ select v (render_segment path s) segs → ∃ t, q = path ++ t ∧ closed_end t) as Hstep.
  { intros v segs path s q x Hs Hin. destruct (Hs _ Hin) as (t & -> & Ht). exists (render_segment [] s ++ t).
    rewrite (render_segment_app path). split; [by rewrite app_assoc|apply render_segment_head]. }
  induction segments as [|s segments IH]; intros v path q x Hin; cbn [select] in Hin.
  - apply list_elem_of_singleton in Hin as [= -> ->]. exists []. by rewrite app_nil_r.
  - destruct s as [key|index|], v as [|b|n|t|items|o]; try (by apply elem_of_nil in Hin).
    + destruct (obj_get o key) as [v|]; [|by apply elem_of_nil in Hin].
      apply (Hstep v segments path (Key key) q x); [intros p; apply IH|done].
    + destruct (vec_get items index) as [v|]; [|by apply elem_of_nil in Hin].
      apply (Hstep v segments path (Index index) q x); [intros p; apply IH|done].
    + apply elem_of_concat_map in Hin as ([j v] & _ & Hin).
      apply (Hstep v segments path (Index j) q x); [intros p; apply IH|done].
    + apply elem_of_concat_map in Hin as ([k v] & _ & Hin).
      apply (Hstep v segments path (Key k) q x); [intros p; apply IH|done].
Qed.

Lemma indexed_nodup {A} (l : list A) n : NoDup (map fst (indexed n l)).
Proof.
  revert n. induction l as [|x l IH]; intros n; cbn [indexed map]; constructor; [|apply IH].
  intros Hin. apply list_elem_of_In, in_map_iff in Hin as ([j y] & Hj & Hin). apply list_elem_of_In, indexed_ge in Hin.
  cbn in Hj. lia.
Qed.

Lemma select_distinct segments : ∀ (v : value number) path,
  wf v → arrays_fit v = true → NoDup (map fst (select v path segments)).
Proof.
  induction segments as [|s segments IH]; intros v path Hw Ha; cbn [select]; [by apply NoDup_singleton|].
  destruct s as [key|index|], v as [|b|n|t|items|o]; try (by constructor).
  - destruct (obj_get o key) as [v|] eqn:Hg; [|constructor]. inversion Hw as [| | | | |? Hd Hf]; subst.
    apply obj_get_elem in Hg; [|done]. rewrite Forall_forall in Hf. cbn [arrays_fit] in Ha.
    rewrite List.forallb_forall in Ha. apply IH; [by apply (Hf _ Hg)|by apply (Ha (key, v)), list_elem_of_In].
  - unfold vec_get. destruct (index <? len items); [|constructor].
    destruct (items !! Z.to_nat index) as [v|] eqn:Hg; [|constructor]. apply list_elem_of_lookup_2 in Hg.
    inversion Hw as [| | | |? Hf|]; subst. rewrite Forall_forall in Hf. cbn [arrays_fit] in Ha.
    apply andb_true_iff in Ha as [_ Ha]. rewrite List.forallb_forall in Ha.
    apply IH; [by apply Hf|by apply Ha, list_elem_of_In].
  - rewrite concat_map, map_map. inversion Hw as [| | | |? Hf|]; subst. rewrite Forall_forall in Hf. cbn [arrays_fit] in Ha.
    apply andb_true_iff in Ha as [Hl%Z.leb_le Ha]. rewrite List.forallb_forall in Ha.
    apply (nodup_concat_map _ fst); [apply indexed_nodup| |].
    + intros [j v] Hj. assert (v ∈ items) as Hv.
      { rewrite <- (indexed_snd items 0). apply list_elem_of_In, in_map_iff. exists (j, v). by split; [|apply list_elem_of_In]. }
      apply IH; [by apply Hf|by apply Ha, list_elem_of_In].
    + intros [i v] [j w] z Hi Hj Hzi Hzj. apply indexed_ge in Hi, Hj. cbn [fst snd] in *.
      apply list_elem_of_In, in_map_iff in Hzi as ([q x] & Hq & Hzi), Hzj as ([q' x'] & Hq' & Hzj). cbn in Hq, Hq'. subst q q'.
      apply list_elem_of_In, select_prefix in Hzi as (s & -> & Hs). apply list_elem_of_In, select_prefix in Hzj as (s' & He & Hs').
      rewrite (render_segment_app path (Index i) : append_index_path path i = _) in He.
      rewrite (render_segment_app path (Index j) : append_index_path path j = _) in He. cbn [render_segment] in He.
      rewrite <- !app_assoc in He. apply app_inv_head in He. by apply index_path_inj in He; [|lia|lia].
  - rewrite concat_map, map_map. inversion Hw as [| | | | |? Hd Hf]; subst. rewrite Forall_forall in Hf. cbn [arrays_fit] in Ha.
    rewrite List.forallb_forall in Ha. apply (nodup_concat_map _ fst); [done| |].
    + intros [k v] Hk. apply IH; [by apply (Hf _ Hk)|by apply (Ha (k, v)), list_elem_of_In].
    + intros [k v] [k' w] z Hk Hk' Hzi Hzj. cbn [fst snd] in *.
      apply list_elem_of_In, in_map_iff in Hzi as ([q x] & Hq & Hzi), Hzj as ([q' x'] & Hq' & Hzj). cbn in Hq, Hq'. subst q q'.
      apply list_elem_of_In, select_prefix in Hzi as (s & -> & Hs). apply list_elem_of_In, select_prefix in Hzj as (s' & He & Hs').
      rewrite (append_key_path_app path k), (append_key_path_app path k'), <- !app_assoc in He. apply app_inv_head in He.
      by apply key_path_inj in He.
Qed.
End Places.

(** ** Room for everything *)

Section Room.
Context {number : Type} `{RedactionEnv number} `{!JsonSource number}.

Definition pushed_bytes (events : list (event (number := number))) : Z :=
  foldr (fun e n => match e with Pushed m _ => match_storage_bytes m | Redacted _ => 0 end + n) 0 events.

Definition in_slots (n : nat) (e : event (number := number)) : Prop :=
  match e with Pushed _ i => (i < n)%nat | Redacted _ => True end.

(** No limit is reached. *)
Definition room (st : ExtractionState number) (events : list event) : Prop :=
  0 <= result_bytes st ∧ result_bytes st + pushed_bytes events <= MAX_EXTRACTED_RESULT_BYTES ∧
  Forall (in_slots (length (slots st))) events ∧
  ∀ i slot, slots st !! i = Some slot →
    (length (slot ++ pushes_at i events) <= MAX_JSON_PATH_MATCHES)%nat ∧ NoDup (map cm_path (slot ++ pushes_at i events)).

Lemma pushed_bytes_nonneg events : 0 <= pushed_bytes events.
Proof.
  induction events as [|[m i|r] events IH]; cbn; [done| |]; unfold pushed_bytes in IH; [|lia].
  pose proof (storage_nonneg m). lia.
Qed.

Lemma push_room st m i events :
  room st (Pushed m i :: events) →
  ∃ slot, slots st !! i = Some slot ∧
    push_match st m i = with_slot st i (slot ++ [m]) (result_bytes st + match_storage_bytes m) ∧
    room (push_match st m i) events.
Proof.
  intros (H0 & Hb & Hin & Hs). apply Forall_cons in Hin as [Hi Hin]. cbn [in_slots] in Hi.
  apply lookup_lt_is_Some in Hi as [slot Hi]. exists slot. split; [done|].
  pose proof (pushed_bytes_nonneg events) as Hp. pose proof (storage_nonneg m) as Hm. cbn [pushed_bytes foldr] in Hb.
  change (foldr _ 0 events) with (pushed_bytes events) in Hb. destruct (Hs _ _ Hi) as [Hlen Hnd].
  assert (pushes_at i (Pushed m i :: events) = m :: pushes_at i events) as Hpi.
  { unfold pushes_at. cbn [map concat pushed_at]. by rewrite decide_True. }
  rewrite Hpi in Hlen, Hnd. assert (find_first (same_path m) slot = None) as Hfind.
  { apply find_first_None. apply Forall_forall. intros n Hn. unfold same_path. apply bool_decide_eq_false. intros He.
    rewrite map_app in Hnd. apply NoDup_app in Hnd as (_ & Hdis & _). apply (Hdis (cm_path n)).
    - apply list_elem_of_In, in_map_iff. exists n. by split; [|apply list_elem_of_In].
    - cbn [map]. rewrite He. constructor. }
  assert (usize_add (result_bytes st) (match_storage_bytes m) = result_bytes st + match_storage_bytes m) as Hadd.
  { apply usize_add_exact. unfold MAX_EXTRACTED_RESULT_BYTES, usize_max, u64_max in *. lia. }
  assert (push_match st m i = with_slot st i (slot ++ [m]) (result_bytes st + match_storage_bytes m)) as Hpush.
  { unfold push_match. rewrite Hi, Hfind, Hadd. rewrite length_app in Hlen. cbn [length] in Hlen.
    destruct (Nat.leb_spec MAX_JSON_PATH_MATCHES (length slot)); [lia|].
    destruct (Z.ltb_spec MAX_EXTRACTED_RESULT_BYTES (result_bytes st + match_storage_bytes m)); [lia|done]. }
  split; [done|]. rewrite Hpush. split_and!; cbn [with_slot result_bytes slots]; [lia|lia|by rewrite length_insert|].
  intros j slot' Hj. destruct (decide (i = j)) as [<-|Hne].
  - rewrite list_lookup_insert_eq in Hj by (by eapply lookup_lt_Some). injection Hj as <-. by rewrite <- app_assoc.
  - rewrite list_lookup_insert_ne in Hj by done. destruct (Hs _ _ Hj) as [Hl Hd].
    unfold pushes_at in Hl, Hd |- *. cbn [map concat pushed_at] in Hl, Hd. by rewrite decide_False in Hl, Hd.
Qed.

(** Then every match is kept and nothing is marked. *)
Lemma run_room events : ∀ st, room st events →
  (∀ i slot, slots st !! i = Some slot → slots (run events st) !! i = Some (slot ++ pushes_at i events)) ∧
  length (slots (run events st)) = length (slots st) ∧
  path_limited (run events st) = path_limited st ∧ omitted_paths (run events st) = omitted_paths st ∧
  result_limited (run events st) = result_limited st.
Proof.
  induction events as [|[m i|records] events IH]; intros st Hr.
  - split_and!; try done. intros i slot Hi. cbn. by rewrite app_nil_r.
  - destruct (push_room st m i events Hr) as (slot & Hi & Hpush & Hr'). change (run (Pushed m i :: events) st) with (run events (push_match st m i)).
    destruct (IH _ Hr') as (Hs & Hl & Hp & Ho & Hlim). rewrite Hl, Hp, Ho, Hlim. rewrite Hpush in Hs |- *.
    split_and!; [|cbn; by rewrite length_insert|done|done|done]. intros j slot' Hj. cbn [with_slot slots] in Hs.
    unfold pushes_at in *. cbn [map concat pushed_at]. destruct (decide (i = j)) as [<-|Hne].
    + assert (slot' = slot) as -> by congruence. rewrite (Hs i (slot ++ [m])); [by rewrite <- app_assoc|].
      by rewrite list_lookup_insert_eq by (by eapply lookup_lt_Some).
    + cbn [app]. apply Hs. by rewrite list_lookup_insert_ne.
  - change (run (Redacted records :: events) st) with (run events (collect_redactions st records)).
    destruct (IH (collect_redactions st records)) as (Hs & Hl & Hp & Ho & Hlim); [|done].
    destruct Hr as (H0 & Hb & Hin & Hs). apply Forall_cons in Hin as [_ Hin]. done.
Qed.

Lemma kept_bytes_map_add {A} (f g : A → list (CapturedMatch number)) l :
  kept_bytes (map (fun x => f x ++ g x) l) = kept_bytes (map f l) + kept_bytes (map g l).
Proof. unfold kept_bytes. induction l as [|x l IH]; [done|]. cbn [map foldr]. rewrite slot_bytes_app. lia. Qed.

Lemma kept_bytes_single m i n :
  (i < n)%nat → kept_bytes (map (fun j => pushed_at j (Pushed m i)) (seq 0 n)) = match_storage_bytes m.
Proof.
  intros Hi. assert (∀ k len, kept_bytes (map (fun j => pushed_at j (Pushed m i)) (seq k len))
    = if decide (k <= i < k + len)%nat then match_storage_bytes m else 0) as Hs.
  { intros k l. revert k. induction l as [|l IH]; intros k; cbn [seq map].
    - cbn. by rewrite decide_False by lia.
    - unfold kept_bytes in *. cbn [foldr]. rewrite IH. cbn [pushed_at].
      destruct (decide (i = k)) as [->|Hne]; cbn [slot_bytes foldr].
      + rewrite decide_False, decide_True by lia. lia.
      + destruct (decide (S k <= i < S k + l)%nat); [rewrite decide_True by lia|rewrite decide_False by lia]; lia. }
  rewrite Hs, decide_True by lia. done.
Qed.

Lemma pushed_bytes_slots n events :
  Forall (in_slots n) events → pushed_bytes events = kept_bytes (map (fun i => pushes_at i events) (seq 0 n)).
Proof.
  induction 1 as [|e events He _ IH].
  - cbn. generalize 0%nat. induction n as [|n IHn]; intros k; cbn; [done|]. unfold kept_bytes in IHn. rewrite <- IHn. done.
  - assert (pushed_bytes (e :: events) = (match e with Pushed m _ => match_storage_bytes m | Redacted _ => 0 end) + pushed_bytes events)
      as -> by done. rewrite IH.
    change (map (fun i => pushes_at i (e :: events)) (seq 0 n))
      with (map (fun i => pushed_at i e ++ pushes_at i events) (seq 0 n)). rewrite kept_bytes_map_add. f_equal.
    destruct e as [m i|records]; [by rewrite kept_bytes_single|].
    generalize 0%nat. clear. induction n as [|n IHn]; intros k; cbn; [done|]. unfold kept_bytes in IHn. rewrite <- IHn. done.
Qed.
End Room.

(** ** Results *)

Section Results.
Context {number : Type} `{RedactionEnv number} `{!BodyAccess number} `{!JsonSource number} (self : Redactor) (raw : bool).

(** The report of a lookup in the form of BodyStream *)
Definition reported (w : value number) (segments : list JsonPathSegment) : value number :=
  match extract_json_path of_usize w (render_json_path segments) segments with
  | Object o => Object (o ++ [(lit "valueSummary", Null); (lit "omittedByResultLimit", Bool false)])
  | v => v
  end.

(** Every selected value is small, no path selects too many, and all together
    they fit in the result. *)
Definition results_fit (w : value number) (paths : list (list JsonPathSegment)) : bool :=
  forallb (fun segments => forallb fits (extract_matches w segments)
                           && (length (extract_matches w segments) <=? MAX_JSON_PATH_MATCHES)%nat) paths
  && (kept_bytes (map (fun segments => map as_match (select w (lit "$") segments)) paths) <=? MAX_EXTRACTED_RESULT_BYTES).

Lemma matches_single segments : ∀ v : value number,
  existsb is_wildcard segments = false → (length (extract_matches v segments) <= 1)%nat.
Proof.
  induction segments as [|s segments IH]; intros v Hw; [done|]. cbn [existsb] in Hw. apply orb_false_iff in Hw as [Hs Hw].
  cbn [extract_matches]. destruct s as [key|index|], v; try done; try (cbn; lia).
  - destruct (obj_get o key); [by apply IH|cbn; lia].
  - destruct (vec_get a index); [by apply IH|cbn; lia].
Qed.

Lemma bounded_fits (v : value number) : fits v = true → bounded_json_value v = (v, false).
Proof.
  intros Hf%fits_small. unfold bounded_json_value, json_len in *.
  destruct (Z.leb_spec (len (to_string v)) MAX_JSON_PATH_VALUE_BYTES); [done|].
  unfold MAX_JSON_PATH_VALUE_BYTES, MAX_EXTRACTED_VALUE_BYTES in *. lia.
Qed.

Lemma bounded_all (l : list (value number)) :
  forallb fits l = true → map bounded_json_value l = map (fun v => (v, false)) l.
Proof.
  rewrite List.forallb_forall. intros Hf. apply List.map_ext_in. intros v Hv. by apply bounded_fits, Hf.
Qed.

(** The lookup of values that fit *)
Lemma lookup_report w path segments first others :
  extract_matches w segments = first :: others → forallb fits (first :: others) = true →
  extract_json_path of_usize w path segments =
  let wildcard := existsb is_wildcard segments in
  Object [(lit "path", String path); (lit "found", Bool true);
          (lit "value", if wildcard || negb (bool_decide (length others = 0%nat)) then Array (first :: others) else first);
          (lit "valueType", String (if wildcard then lit "array" else json_type_name first));
          (lit "matchCount", Number (of_usize (len (first :: others)))); (lit "truncated", Bool false)].
Proof.
  intros Hm Hf. pose proof (matches_single segments w) as H1. unfold extract_json_path. rewrite Hm in H1 |- *.
  destruct (existsb is_wildcard segments); cbn [orb].
  - rewrite (bounded_all _ Hf), !map_map, map_id. cbn [fst snd].
    assert (existsb snd (map (fun v => (v, false)) (first :: others)) = false) as ->
      by (clear; generalize (first :: others); intros l; by induction l).
    done.
  - specialize (H1 eq_refl). destruct others; [|cbn in H1; lia]. cbn in Hf. rewrite andb_true_r in Hf.
    cbn [length Nat.ltb Nat.leb]. by rewrite (bounded_fits first Hf).
Qed.

Lemma path_result_reported w segments :
  forallb fits (extract_matches w segments) = true →
  path_result segments (map as_match (select w (lit "$") segments)) false false = reported w segments.
Proof.
  intros Hf. pose proof (select_matches segments w (lit "$")) as Hm. unfold reported, path_result.
  destruct (select w (lit "$") segments) as [|[p v] others].
  - unfold extract_json_path. rewrite <- Hm. done.
  - cbn [map] in Hm. rewrite <- Hm in Hf. rewrite (lookup_report w _ segments v (map snd others) (eq_sym Hm) Hf).
    cbn [map]. rewrite !length_map, !len_cons, !len_map.
    assert (existsb cm_truncated (as_match (p, v) :: map as_match others) = false) as ->
      by (clear; cbn; by induction others).
    rewrite map_map. cbn. by destruct (bool_decide (length others = 0%nat)).
Qed.
End Results.

(** ** The theorem *)

Section Main.
Context {number : Type} `{RedactionEnv number} `{!BodyAccess number} `{!JsonSource number} (self : Redactor) (raw : bool).

Lemma shown_ok v : wf v → arrays_fit v = true → wf (shown self raw v) ∧ arrays_fit (shown self raw v) = true.
Proof.
  induction v as [|b|n|s|items IH|o IH] using value_ind'; intros Hw Ha; try done; cbn [shown];
    [destruct raw; by split; [constructor|]| |].
  - inversion Hw as [| | | |? Hf|]; subst. cbn [arrays_fit] in Ha |- *. apply andb_true_iff in Ha as [Hl Ha].
    rewrite len_map, Hl. rewrite List.forallb_forall in Ha.
    assert (Forall (fun w => wf w ∧ arrays_fit w = true) (map (shown self raw) items)) as Hall.
    { apply Forall_map. rewrite Forall_forall in IH, Hf |- *. intros v Hv. apply IH; [done|by apply Hf|by apply Ha, list_elem_of_In]. }
    split; [constructor; eapply Forall_impl; [exact Hall|by intros ? []]|]. cbn [andb]. apply List.forallb_forall.
    intros w Hin. apply list_elem_of_In in Hin. rewrite Forall_forall in Hall. by apply Hall.
  - inversion Hw as [| | | | |? Hd Hf]; subst. cbn [arrays_fit] in Ha |- *. rewrite List.forallb_forall in Ha.
    assert (Forall (fun kv => wf kv.2 ∧ arrays_fit kv.2 = true) (map (shown_entry self raw) o)) as Hall.
    { apply Forall_map. rewrite Forall_forall in IH, Hf |- *. intros [k v] Hv. unfold shown_entry. cbn [fst snd].
      destruct (negb raw && is_sensitive_name self k) eqn:Hs.
      - apply andb_true_iff in Hs as [_ Hs]. destruct (field_text self k v [] [] Hs) as (t & r & _ & ->).
        by split; [constructor|].
      - apply (IH (k, v) Hv); [by apply (Hf (k, v))|by apply (Ha (k, v)), list_elem_of_In]. }
    change (map _ o) with (map (shown_entry self raw) o).
    split; [constructor; [by rewrite shown_keys|eapply Forall_impl; [exact Hall|by intros ? []]]|]. apply List.forallb_forall.
    intros w Hin. apply list_elem_of_In in Hin. rewrite Forall_forall in Hall. by apply (Hall w).
Qed.

(** A body that can be read, is text, and is a document *)
Definition body_shows (reference : StoredBodyReference) (v : value number) : Prop :=
  ∃ reader,
    match file_path reference with
    | Some path => open_body_reader path = Ok reader ∧ failure reader = None
    | None => decode_inline_reference (number := number) reference = Ok (available reader) ∧
              reader = {| available := available reader; failure := None |}
    end ∧
    len (available reader) <= MAX_JSON_PATH_SCAN_BYTES ∧ utf8_valid (available reader) = true ∧
    json_from_reader reader = Ok v ∧ (nesting v <= MAX_JSON_DEPTH)%nat.

(** The declared size is within the limits of the request. *)
Definition size_allowed (size : Z) (segments : list (list JsonPathSegment)) : Prop :=
  size <= MAX_JSON_PATH_SCAN_BYTES ∧ ([] ∈ segments → size <= ROOT_PATH_SCAN_BYTES).

Lemma extract_visits reference v size segments c st :
  body_shows reference v → size_allowed size segments →
  capture_value self raw [build_path_tree segments] (lit "$") (has_terminals (build_path_tree segments)) 0 v
    (new_state (length segments)) = Ok (c, st) →
  ∃ hash, extract_json_paths self reference size segments raw = Ok (extraction_of segments hash st).
Proof.
  intros (r & Hr & Hlen & Hu & Hj & _) [Hs Hroot] Hc. unfold extract_json_paths.
  destruct (Z.ltb_spec MAX_JSON_PATH_SCAN_BYTES size); [lia|].
  assert (existsb (fun path => bool_decide (path = [])) segments && (ROOT_PATH_SCAN_BYTES <? size) = false) as ->.
  { destruct (existsb _ segments) eqn:He; [|done]. apply existsb_exists in He as (p & Hp & Hb).
    apply bool_decide_eq_true in Hb as ->. apply list_elem_of_In in Hp. cbn. apply Z.ltb_ge. by apply Hroot. }
  exists (sha256_hex (available r)).
  assert (validate_bytes (available r) = Ok (sha256_hex (available r))) as Hv.
  { unfold validate_bytes, from_utf8. rewrite Hu. by destruct (Z.ltb_spec MAX_JSON_PATH_SCAN_BYTES (len (available r))); [lia|]. }
  destruct (file_path reference) as [path|].
  - destruct Hr as [Ho Hfail]. rewrite (validate_file_exact path r Ho Hfail Hlen), Hv, Ho. cbn [map_err rbind].
    unfold parse_reader. rewrite Hj, Hc. done.
  - destruct Hr as [Hd Hre]. rewrite Hd. cbn [rbind]. rewrite Hv, <- Hre. cbn [rbind].
    unfold parse_reader. rewrite Hj, Hc. done.
Qed.

Lemma map_seq_lookup {A B} (f : option A → B) (l : list A) :
  map (fun i => f (l !! i)) (seq 0 (length l)) = map (fun x => f (Some x)) l.
Proof.
  induction l as [|x l IH]; [done|]. cbn [length seq map]. f_equal. rewrite <- seq_shift, map_map. apply IH.
Qed.

Lemma events_in_slots (events : list (event (number := number))) n :
  (∀ i, (n <= i)%nat → pushes_at i events = []) → Forall (in_slots n) events.
Proof.
  intros Hp. induction events as [|e events IH]; constructor.
  - destruct e as [m i|r]; [|done]. cbn. destruct (decide (i < n)%nat) as [|Hge]; [done|].
    specialize (Hp i ltac:(lia)). unfold pushes_at in Hp. cbn [map concat pushed_at] in Hp. by rewrite decide_True in Hp.
  - apply IH. intros i Hi. specialize (Hp i Hi). unfold pushes_at in *. cbn [map concat] in Hp. by apply app_nil in Hp as [_ Hp].
Qed.

(** The state after a visit of a document whose selected values fit *)
Lemma visited_state v segments :
  wf v → arrays_fit v = true → (nesting v <= MAX_JSON_DEPTH)%nat → Forall (Forall in_range) segments →
  results_fit (shown self raw v) segments = true →
  ∃ c st, capture_value self raw [build_path_tree segments] (lit "$") (has_terminals (build_path_tree segments)) 0 v
            (new_state (length segments)) = Ok (c, st) ∧
    slots st = map (fun path => map as_match (select (shown self raw v) (lit "$") path)) segments ∧
    path_limited st = replicate (length segments) false ∧ omitted_paths st = ∅ ∧ result_limited st = false.
Proof.
  intros Hw Ha Hn Hr Hfit. set (w := shown self raw v) in *. destruct (shown_ok v Hw Ha) as [Hww Haw]. fold w in Hww, Haw.
  apply andb_true_iff in Hfit as [Hfit Htot%Z.leb_le]. rewrite List.forallb_forall in Hfit.
  assert (∀ i path, segments !! i = Some path →
    forallb fits (extract_matches w path) = true ∧ (length (extract_matches w path) <= MAX_JSON_PATH_MATCHES)%nat) as Hpath.
  { intros i path Hi. specialize (Hfit path ltac:(by apply list_elem_of_In, list_elem_of_lookup_2 with i)).
    by apply andb_true_iff in Hfit as [? ?%Nat.leb_le]. }
  assert (all_fit (fun i => segments !! i) w (lit "$")) as Hall.
  { intros i. destruct (segments !! i) as [path|] eqn:Hi; [|constructor]. cbn [sel]. destruct (Hpath i path Hi) as [Hf _].
    rewrite <- (select_matches path w (lit "$")) in Hf. rewrite List.forallb_forall in Hf. apply Forall_forall.
    intros pv Hin. apply Hf, in_map_iff. exists pv. by split; [|apply list_elem_of_In]. }
  destruct (capture_spec self raw v 0 Hw Ha Hn [build_path_tree segments] (fun i => segments !! i) (lit "$")
    (has_terminals (build_path_tree segments))) as (c & events & Hrun & Hdesc & _); [apply build_represents| | |done|].
  { intros i. destruct (segments !! i) as [path|] eqn:Hi; [|done]. cbn. by eapply Forall_lookup_1 in Hr. }
  { intros Ht. unfold has_terminals in Ht. apply negb_true_iff, bool_decide_eq_false in Ht.
    destruct (terminals (build_path_tree segments)) as [|i l] eqn:Hl; [done|].
    eapply (all_fit_here (fun i => segments !! i) w (lit "$") i); [done|]. apply build_represents.
    exists (build_path_tree segments). split; [by apply list_elem_of_singleton|]. cbn. rewrite Hl. constructor. }
  exists c, (run events (new_state (length segments))). split; [apply Hrun|].
  assert (room (new_state (length segments)) events) as Hroom.
  { split_and!; [done| | |].
    - rewrite (pushed_bytes_slots (length segments)).
      + cbn [new_state result_bytes]. rewrite Z.add_0_l. etrans; [|exact Htot]. apply Z.eq_le_incl. f_equal.
        erewrite List.map_ext; [|intros i; apply Hdesc].
        apply (map_seq_lookup (fun r => map as_match (sel r w (lit "$"))) segments).
      + apply events_in_slots. intros i Hi. rewrite Hdesc, lookup_ge_None_2 by done. done.
    - cbn [new_state slots]. rewrite length_replicate. apply events_in_slots. intros i Hi.
      rewrite Hdesc, lookup_ge_None_2 by done. done.
    - intros i slot Hi. cbn [new_state slots] in Hi. apply lookup_replicate in Hi as [-> Hi]. cbn [app].
      destruct (lookup_lt_is_Some_2 segments i Hi) as [path Hp]. destruct (Hpath i path Hp) as [_ Hlen].
      rewrite Hdesc, Hp. cbn [sel]. rewrite <- (select_matches path w (lit "$")), length_map in Hlen.
      rewrite length_map, map_map. split; [done|]. by apply (select_distinct path w (lit "$")). }
  destruct (run_room events _ Hroom) as (Hs & Hl & Hp & Ho & Hlim). split_and!; [|done|done|done].
  apply list_eq. intros i. rewrite list_lookup_fmap. destruct (segments !! i) as [path|] eqn:Hi; cbn [fmap option_fmap option_map].
  - rewrite (Hs i []); [by rewrite Hdesc, Hi|]. cbn. apply lookup_replicate. split; [done|]. by eapply lookup_lt_Some.
  - apply lookup_ge_None_1 in Hi. apply lookup_ge_None_2. rewrite Hl. cbn. by rewrite length_replicate.
Qed.

Lemma build_results_map (f : list JsonPathSegment → value number) (segments : list (list JsonPathSegment)) st : ∀ k,
  (∀ i path, segments !! i = Some path →
     path_result path (default [] (slots st !! (k + i)%nat)) (default false (path_limited st !! (k + i)%nat))
       (bool_decide ((k + i)%nat ∈ omitted_paths st)) = f path) →
  build_results k segments st = map f segments.
Proof.
  induction segments as [|path segments IH]; intros k Hf; [done|]. cbn [build_results map]. f_equal.
  - specialize (Hf 0%nat path eq_refl). by rewrite Nat.add_0_r in Hf.
  - apply IH. intros i p Hi. specialize (Hf (S i) p Hi). by replace (S k + i)%nat with (k + S i)%nat by lia.
Qed.
End Main.

(** C9: The fields extracted while a large body streams by are the fields a lookup in
    the whole document finds: for every list of requested paths, each reported
    result equals the lookup of that path in the redacted document (in raw mode,
    in the document), in order and with no limit flag, whenever the document has
    distinct keys and the selected values fit in the documented limits. *)
Theorem extraction_is_lookup {number : Type} `{RedactionEnv number} `{!BodyAccess number} `{!JsonSource number}
    (self : Redactor) (raw : bool) (reference : StoredBodyReference) (v : value number) (size : Z)
    (segments : list (list JsonPathSegment)) :
  body_shows reference v → wf v → arrays_fit v = true → size_allowed size segments → Forall (Forall in_range) segments →
  let w := if raw then v else (redact_json_value self v (lit "$") []).1 in
  results_fit w segments = true →
  ∃ out, extract_json_paths self reference size segments raw = Ok out ∧
    jx_values out = map (reported w) segments ∧ jx_truncated out = false.
Proof.
  intros Hb Hw Ha Hsize Hr w Hfit. assert (w = shown self raw v) as Hwv.
  { unfold w. destruct raw; [by rewrite shown_raw|apply redact_shown]. }
  pose proof Hb as (_ & _ & _ & _ & _ & Hn). rewrite Hwv in Hfit |- *.
  destruct (visited_state self raw v segments Hw Ha Hn Hr Hfit) as (c & st & Hc & Hs & Hp & Ho & Hl).
  destruct (extract_visits self raw reference v size segments c st Hb Hsize Hc) as [hash He]. eexists. split; [exact He|].
  apply andb_true_iff in Hfit as [Hfit _]. rewrite List.forallb_forall in Hfit. split.
  - apply build_results_map. intros i path Hi. cbn [Nat.add]. rewrite Hs, Hp, Ho, list_lookup_fmap, Hi. cbn [fmap option_fmap option_map default].
    rewrite bool_decide_false by set_solver.
    assert (default false (replicate (length segments) false !! i) = false) as ->
      by (destruct (replicate (length segments) false !! i) as [b|] eqn:Hb'; [apply lookup_replicate in Hb' as [-> _]|]; done).
    apply path_result_reported. specialize (Hfit path ltac:(by apply list_elem_of_In, list_elem_of_lookup_2 with i)).
    by apply andb_true_iff in Hfit as [? _].
  - cbn [extraction_of jx_truncated]. rewrite Hp, Hl. assert (existsb (fun limited => limited) (replicate (length segments) false) = false) as ->
      by (clear; induction segments; done).
    cbn [orb]. rewrite Hs. clear. induction segments as [|path segments IH]; [done|]. cbn [map concat].
    rewrite existsb_app, IH, orb_false_r. by induction (select _ (lit "$") path).
Qed.

(** ** A concrete source *)

Definition sample_source : JsonSource Z.
Proof.
  refine {| of_usize n := n;
            json_from_reader r := match @from_str Z sample_env (available r) with Some v => Ok v | None => Err [] end;
            custom_error _ message := message;
            chunks r := match available r with [] => [] | b => [b] end |}.
  - intros _ message. apply contains_spec. exists [], []. by rewrite app_nil_r.
  - intros r. destruct (available r); [done|]. cbn. by rewrite app_nil_r.
  - intros r. by destruct (available r); repeat constructor.
Defined.

Lemma extraction_is_lookup_witness :
  ∃ out, @extract_json_paths Z sample_env sample_access sample_source sample_redactor (sample_reference (lit "a")) 1
           [[Key (lit "Password")]; [Key (lit "ids"); Index 1; Key (lit "userId")]] false = Ok out ∧
    jx_truncated out = false.
Proof.
  destruct (@extraction_is_lookup Z sample_env sample_access sample_source sample_redactor false
    (sample_reference (lit "a")) (sample_doc (lit "hunter2")) 1
    [[Key (lit "Password")]; [Key (lit "ids"); Index 1; Key (lit "userId")]]) as (out & Ho & _ & Ht).
  - exists {| available := lit "a"; failure := None |}. split; [split; reflexivity|]. split_and!; [vm_compute; discriminate|reflexivity|reflexivity|].
    apply Nat.leb_le. vm_compute. reflexivity.
  - repeat (constructor; try (apply (bool_decide_unpack _); vm_compute; exact I)).
  - vm_compute. reflexivity.
  - split; [vm_compute; discriminate|intros _; vm_compute; discriminate].
  - repeat constructor; vm_compute; discriminate.
  - vm_compute. reflexivity.
  - exists out. split; [exact Ho|exact Ht].
Defined.

(** A nested value over the limit is dropped from its parent without a mark: the
    parent is reported complete, with [null] in its place. *)
Lemma nested_value_lost_unmarked :
  let big : value Z := Array (repeat (String (repeat 120 1000)) 70) in
  let doc : value Z := Object [(lit "user", String (lit "ann")); (lit "log", big)] in
  ∃ c st, @capture_value Z sample_env sample_source sample_redactor false [build_path_tree [[]]] (lit "$") true 0 doc
            (new_state 1) = Ok (c, st) ∧
    map (map cm_value) (slots st) = [[Object [(lit "user", String (lit "ann")); (lit "log", Null)]]] ∧
    map (map cm_truncated) (slots st) = [[false]] ∧ path_limited st = [false] ∧ result_limited st = false.
Proof. do 2 eexists. split; [vm_compute; reflexivity|]. split_and!; reflexivity. Qed.
