(* ===== verification/BodyLimits.v ===== *)
(** * BodyLimits: an extraction within limits says what it left out

    The extraction of BodyStream stops keeping matches at documented limits.  Here
    is shown, for any document, that the limits hold and that every place a path
    selects is either in the result of that path or the path and the whole answer
    are marked as incomplete. *)

From S2P Require Import Prelude Str JsonPath Rewrite Utf8 TextSearch Redaction RedactedSearch BodyPaths BodyStream.
From S2P Require Import BodyStreamFacts BodyLookup.

(** ** The places a path selects *)

Section Locations.
Context {number : Type}.

(** Of a member that occurs more than once, every occurrence *)
Fixpoint locations (v : value number) (path : str) (segments : list JsonPathSegment) {struct segments} : list str :=
  match segments with
  | [] => [path]
  | segment :: rest =>
      match segment, v with
      | Key key, Object o =>
          concat (map (fun kv => if bool_decide (kv.1 = key) then locations kv.2 (append_key_path path kv.1) rest else []) o)
      | Index index, Array items =>
          concat (map (fun jv => if bool_decide (jv.1 = index) then locations jv.2 (append_index_path path jv.1) rest else [])
            (indexed 0 items))
      | Wildcard, Object o => concat (map (fun kv => locations kv.2 (append_key_path path kv.1) rest) o)
      | Wildcard, Array items =>
          concat (map (fun jv => locations jv.2 (append_index_path path jv.1) rest) (indexed 0 items))
      | _, _ => []
      end
  end.

Definition places (r : option (list JsonPathSegment)) (v : value number) (path : str) : list str :=
  match r with Some p => locations v path p | None => [] end.

Lemma places_object r o path loc :
  loc ∈ places r (Object o) path →
  r = Some [] ∧ loc = path ∨
  ∃ kv, kv ∈ o ∧ loc ∈ places (step_key kv.1 r) kv.2 (append_key_path path kv.1).
Proof.
  destruct r as [[|[key|j|] p]|]; cbn [places locations step_key]; try (by intros ?%elem_of_nil).
  - intros ->%list_elem_of_singleton. by left.
  - rewrite elem_of_concat_map. intros (kv & Hkv & Hl). right. exists kv. split; [done|].
    destruct (decide (key = kv.1)) as [Hk|Hk]; [rewrite (bool_decide_true (key = _)) by done; by rewrite bool_decide_true in Hl|].
    rewrite bool_decide_false in Hl by congruence. by apply elem_of_nil in Hl.
  - rewrite elem_of_concat_map. intros (kv & Hkv & Hl). right. by exists kv.
Qed.

Lemma places_array r items path loc :
  loc ∈ places r (Array items) path →
  r = Some [] ∧ loc = path ∨
  ∃ jv, jv ∈ indexed 0 items ∧ loc ∈ places (step_index jv.1 r) jv.2 (append_index_path path jv.1).
Proof.
  destruct r as [[|[key|j|] p]|]; cbn [places locations step_index]; try (by intros ?%elem_of_nil).
  - intros ->%list_elem_of_singleton. by left.
  - rewrite elem_of_concat_map. intros (jv & Hjv & Hl). right. exists jv. split; [done|].
    destruct (decide (j = jv.1)) as [Hk|Hk]; [rewrite (bool_decide_true (j = _)) by done; by rewrite bool_decide_true in Hl|].
    rewrite bool_decide_false in Hl by congruence. by apply elem_of_nil in Hl.
  - rewrite elem_of_concat_map. intros (jv & Hjv & Hl). right. by exists jv.
Qed.

Lemma places_scalar r v path loc : scalar v = true → loc ∈ places r v path → r = Some [] ∧ loc = path.
Proof.
  intros Hv. destruct r as [[|s p]|]; cbn [places locations]; [by intros ->%list_elem_of_singleton| |by intros ?%elem_of_nil].
  destruct s, v; try done; by intros ?%elem_of_nil.
Qed.

Lemma indexed_map {B} (f : value number → B) items : ∀ n,
  indexed n (map f items) = map (fun jv => (jv.1, f jv.2)) (indexed n items).
Proof. induction items as [|v items IH]; intros n; cbn [map indexed]; [done|]. by rewrite IH. Qed.
End Locations.

(** ** What is left out is marked *)

Section Accounts.
Context {number : Type} `{RedactionEnv number} `{!JsonSource number} (self : Redactor) (raw : bool) (n : nat).

Definition kept (st : ExtractionState number) (i : nat) (loc : str) : Prop :=
  ∃ slot m, slots st !! i = Some slot ∧ m ∈ slot ∧ cm_path m = loc.

Definition accounted (i : nat) (loc : str) (st : ExtractionState number) : Prop :=
  kept st i loc ∨ path_limited st !! i = Some true.

Definition ready (st : ExtractionState number) : Prop := within_limits st ∧ length (slots st) = n.
Definition carries (i : nat) (loc : str) (st : ExtractionState number) : Prop := ready st ∧ accounted i loc st.

Lemma push_slots st m i : length (slots (push_match st m i)) = length (slots (number := number) st).
Proof. unfold push_match. repeat case_match; cbn; by rewrite ?length_insert. Qed.

Lemma push_ready st m i : ready st → ready (push_match st m i).
Proof. intros [Hw Hl]. split; [by apply push_within|by rewrite push_slots]. Qed.

Lemma ready_limited st i : ready st → (i < n)%nat → (i < length (path_limited st))%nat.
Proof. intros [Hw Hl] Hi. rewrite (wl_length _ Hw). lia. Qed.

Lemma set_limited (l : list bool) i j : l !! j = Some true → <[i := true]> l !! j = Some true.
Proof.
  intros Hj. destruct (decide (i = j)) as [->|]; [by rewrite list_lookup_insert_eq by (by eapply lookup_lt_Some)|].
  by rewrite list_lookup_insert_ne.
Qed.

Lemma upsert_elem {A} (p : A → bool) x l y : y ∈ l → p y = false → y ∈ upsert p x l.
Proof.
  intros Hy Hp. induction Hy as [y l|y z l Hy IH]; cbn [upsert].
  - rewrite Hp. constructor.
  - specialize (IH Hp). destruct (p z); [by constructor|by constructor].
Qed.

Lemma upsert_new {A} (p : A → bool) x l : x ∈ upsert p x l.
Proof. induction l as [|y l IH]; cbn [upsert]; [constructor|]. destruct (p y); [constructor|by constructor]. Qed.

Lemma slot_kept (st : ExtractionState number) i j slot slot' bytes_ loc :
  slots st !! i = Some slot → (i = j → kept st j loc → ∃ m, m ∈ slot' ∧ cm_path m = loc) →
  kept st j loc → kept (with_slot st i slot' bytes_) j loc.
Proof.
  intros Hi Hs Hk. unfold kept. cbn [slots with_slot]. destruct (decide (i = j)) as [->|Hne].
  - destruct (Hs eq_refl Hk) as (m & Hm & Hp). exists slot', m. split; [|done].
    by rewrite list_lookup_insert_eq by (by eapply lookup_lt_Some).
  - rewrite list_lookup_insert_ne by done. exact Hk.
Qed.

Lemma push_carries st m i j loc : carries j loc st → carries j loc (push_match st m i).
Proof.
  intros [Hr Ha]. split; [by apply push_ready|]. unfold push_match.
  destruct (slots st !! i) as [slot|] eqn:Hi; [|done]. destruct Ha as [Hk|Hl].
  2: { right. destruct (find_first _ slot); repeat case_match; cbn; try done; by apply set_limited. }
  assert (i < n)%nat as Hin by (destruct Hr as [_ <-]; by eapply lookup_lt_Some).
  pose proof (ready_limited st i Hr Hin) as Hlen.
  assert (∀ m', m' ∈ slot → cm_path m' = loc → same_path m m' = false → i = j →
    ∃ m0, m0 ∈ List.filter (fun x => negb (same_path m x)) slot ∧ cm_path m0 = loc) as Hfilter.
  { intros m' Hm' Hp Hs _. exists m'. split; [|done]. apply list_elem_of_In, filter_In. rewrite Hs.
    split; [by apply list_elem_of_In|done]. }
  destruct (find_first (same_path m) slot) as [existing|].
  - case_match.
    + destruct (decide (i = j)) as [->|Hne]; [right; cbn; by rewrite list_lookup_insert_eq|].
      left. apply (slot_kept (omit st i) i j slot); [done|done|exact Hk].
    + left. apply (slot_kept st i j slot); [done| |done]. intros -> (s & m' & Hs & Hm' & Hp). simplify_eq.
      destruct (same_path m m') eqn:Hsame; [|exists m'; split; [by apply upsert_elem|done]].
      exists m. split; [apply upsert_new|]. symmetry. by apply same_path_eq.
  - repeat case_match; [left; exact Hk|left; exact Hk|]. left. apply (slot_kept st i j slot); [done| |done].
    intros -> (s & m' & Hs & Hm' & Hp). simplify_eq. exists m'. split; [apply elem_of_app; by left|done].
Qed.

Lemma push_accounts st m i : ready st → (i < n)%nat → carries i (cm_path m) (push_match st m i).
Proof.
  intros Hr Hi. split; [by apply push_ready|]. pose proof (ready_limited st i Hr Hi) as Hlen.
  unfold push_match. destruct (lookup_lt_is_Some_2 (slots st) i) as [slot Hslot]; [by destruct Hr as [_ ->]|].
  rewrite Hslot. pose proof (lookup_lt_Some _ _ _ Hslot) as Hlt.
  destruct (find_first (same_path m) slot); repeat case_match;
    try (right; cbn; by rewrite list_lookup_insert_eq).
  - left. exists (upsert (same_path m) m slot), m. cbn. rewrite list_lookup_insert_eq by done.
    split_and!; [done|apply upsert_new|done].
  - left. exists (slot ++ [m]), m. cbn. rewrite list_lookup_insert_eq by done.
    split_and!; [done|apply elem_of_app; right; constructor|done].
Qed.

Lemma redact_carries st records j loc : carries j loc st → carries j loc (collect_redactions st records).
Proof. intros [[Hw Hl] Ha]. split; [split; [by apply redact_within|done]|exact Ha]. Qed.

Lemma redact_ready st records : ready st → ready (collect_redactions st records).
Proof. intros [Hw Hl]. split; [by apply redact_within|done]. Qed.

Lemma pushes_account m terminals i :
  (∀ j, j ∈ terminals → (j < n)%nat) → i ∈ terminals →
  ∀ st, ready st → carries i (cm_path m) (foldl (fun st j => push_match st m j) st terminals).
Proof.
  intros Hb Hi. induction terminals as [|j l IH]; [by apply elem_of_nil in Hi|]. intros st Hst. cbn [foldl].
  assert (∀ k, k ∈ l → (k < n)%nat) as Hb' by (intros k Hk; apply Hb; by constructor).
  apply elem_of_cons in Hi as [->|Hi]; [|apply IH; [done|done|by apply push_ready]].
  apply (push_all_preserves (carries j (cm_path m))); [intros *; apply push_carries|].
  apply push_accounts; [done|]. apply Hb. constructor.
Qed.

Lemma capture_accounts terminals path c i st :
  (∀ j, j ∈ terminals → (j < n)%nat) → i ∈ terminals → ready st →
  carries i path (capture self raw terminals path c st).
Proof.
  intros Hb Hi Hst. unfold capture. destruct (negb raw && negb _).
  - destruct (redact_json_value self _ path []) as [w records].
    by apply (pushes_account {| cm_path := path; cm_value := w; cm_summary := cv_summary c; cm_type := cv_type c;
      cm_truncated := cv_truncated c |}); [| |apply redact_ready].
  - by apply (pushes_account {| cm_path := path; cm_value := cv_value c; cm_summary := cv_summary c; cm_type := cv_type c;
      cm_truncated := cv_truncated c |}).
Qed.

(** A visit of a value that is shown as [w] *)
Definition accounts (seed : list PathNode → str → bool → ExtractionState number → result (CapturedValue number * ExtractionState number) str)
    (w : value number) : Prop :=
  ∀ nodes R path all st out i loc,
    represents nodes R → (∀ j p, R j = Some p → (j < n)%nat) → ready st → seed nodes path all st = Ok out →
    loc ∈ places (R i) w path → carries i loc out.2.

Definition steady (seed : ExtractionState number → result (CapturedValue number * ExtractionState number) str) : Prop :=
  ∀ P : ExtractionState number → Prop, (∀ st m i, P st → P (push_match st m i)) →
    (∀ st records, P st → P (collect_redactions st records)) → keeps P seed.

Lemma steady_ready seed st c st' : steady seed → ready st → seed st = Ok (c, st') → ready st'.
Proof. intros Hs Hst He. eapply (Hs ready); [intros *; apply push_ready|intros *; apply redact_ready|done|done]. Qed.

Lemma visit_map_accounts seed ignore field nodes R path build o :
  represents nodes R → (∀ j p, R j = Some p → (j < n)%nat) →
  (∀ kv nodes path all, steady (seed nodes path all kv)) → (∀ key v path, steady (field key v path)) →
  Forall (fun kv => if negb raw && is_sensitive_name self kv.1 then scalar (shown_entry self raw kv).2 = true
    else accounts (fun nodes path all => seed nodes path all kv.2) (shown_entry self raw kv).2) o →
  ∀ c st out i loc kv, ready st → visit_map self raw seed ignore field nodes path build o c st = Ok out →
    kv ∈ map (shown_entry self raw) o → loc ∈ places (step_key kv.1 (R i)) kv.2 (append_key_path path kv.1) →
    carries i loc out.2.
Proof.
  intros HR Hb Hsteady Hfield Ho. induction Ho as [|[k v] o Hv _ IH]; intros c st out i loc kv Hst; [by intros _ ?%elem_of_nil|].
  cbn [map visit_map fst snd] in *. set (child := child_nodes_for_key nodes k). set (here := append_key_path path k).
  assert (represents child (fun i => step_key k (R i))) as HRk by by apply represents_key.
  assert (∀ j p, step_key k (R j) = Some p → (j < n)%nat) as Hbk
    by (intros j p; destruct (R j) as [q|] eqn:Hq; [intros _; by eapply Hb|done]).
  assert (∀ i loc c st out, carries i loc st → visit_map self raw seed ignore field nodes path build o c st = Ok out → carries i loc out.2)
    as Hrest.
  { intros i' loc' c' st' out' Hc Hvis. eapply (visit_map_preserves self raw (carries i' loc')); [| | |exact Hc|exact Hvis].
    - intros *; apply push_carries.
    - apply Forall_forall. intros x _ *. apply Hsteady; [intros *; apply push_carries|intros *; apply redact_carries].
    - intros *. apply Hfield; [intros *; apply push_carries|intros *; apply redact_carries]. }
  assert (∀ c st out, ready st → visit_map self raw seed ignore field nodes path build o c st = Ok out →
    kv ∈ map (shown_entry self raw) o → loc ∈ places (step_key kv.1 (R i)) kv.2 (append_key_path path kv.1) → carries i loc out.2)
    as Htail by (intros *; apply IH).
  destruct (unwanted build child) eqn:Hun.
  { destruct (ignore v); cbn [rbind]; [|done]. intros Hvis Hkv Hloc. apply elem_of_cons in Hkv as [->|Hkv]; [|by eapply Htail].
    cbn [fst snd] in Hloc. destruct (unwanted_none _ _ build i HRk Hun) as [_ Hn]. change (shown_entry self raw (k, v)).1 with k in Hloc.
    rewrite Hn in Hloc. by apply elem_of_nil in Hloc. }
  destruct (negb raw && is_sensitive_name self k).
  - destruct (field k v here st) as [[cw st1]|] eqn:Hf; [|done]. cbn [rbind fst snd].
    assert (ready st1) as H1 by (by eapply steady_ready; [apply Hfield|exact Hst|exact Hf]).
    set (st2 := if bool_decide (collect_terminals child = []) then st1 else _).
    assert (ready st2) as H2.
    { unfold st2. case_bool_decide; [done|]. apply (push_all_preserves ready); [intros *; apply push_ready|done]. }
    intros Hvis Hkv Hloc. apply elem_of_cons in Hkv as [->|Hkv]; [|by eapply Htail].
    apply (places_scalar _ _ _ _ Hv) in Hloc as [Hi ->]. change (shown_entry self raw (k, v)).1 with k in Hi |- *. eapply Hrest; [|exact Hvis].
    apply (elem_of_terminals child _ i HRk) in Hi. unfold st2. rewrite bool_decide_false by (intros He; rewrite He in Hi; by apply elem_of_nil in Hi).
    apply (pushes_account {| cm_path := here; cm_value := cv_value cw; cm_summary := None; cm_type := cv_type cw;
      cm_truncated := cv_truncated cw |}); [|done|done]. intros j Hj. eapply Hbk. by apply (elem_of_terminals child _ j HRk).
  - destruct (seed child here _ v st) as [[cw st1]|] eqn:Hs; [|done]. cbn [rbind fst snd]. intros Hvis Hkv Hloc.
    assert (ready st1) as H1 by (by eapply steady_ready; [apply Hsteady|exact Hst|exact Hs]).
    apply elem_of_cons in Hkv as [->|Hkv]; [|by eapply Htail].
    eapply Hrest; [|exact Hvis]. by eapply (Hv child _ here _ st (cw, st1)).
Qed.

Lemma visit_seq_accounts seed ignore nodes R path build items :
  represents nodes R → (∀ j p, R j = Some p → (j < n)%nat) →
  (∀ v nodes path all, steady (seed nodes path all v)) →
  Forall (fun v => accounts (fun nodes path all => seed nodes path all v) (shown self raw v)) items →
  ∀ c st out i loc jv, 0 <= co_count c → co_count c + len items <= usize_max →
    ready st → visit_seq seed ignore nodes path build items c st = Ok out →
    jv ∈ indexed (co_count c) (map (shown self raw) items) →
    loc ∈ places (step_index jv.1 (R i)) jv.2 (append_index_path path jv.1) → carries i loc out.2.
Proof.
  intros HR Hb Hsteady Ho. induction Ho as [|v items Hv _ IH]; intros c st out i loc jv H0 Hlen Hst; [by intros _ ?%elem_of_nil|].
  cbn [map visit_seq indexed] in *. rewrite len_cons in Hlen. pose proof (len_nonneg items) as Hnn.
  rewrite usize_add_exact by lia. set (j := co_count c) in *. set (child := child_nodes_for_index nodes j). set (here := append_index_path path j).
  assert (represents child (fun i => step_index j (R i))) as HRk by by apply represents_index.
  assert (∀ k p, step_index j (R k) = Some p → (k < n)%nat) as Hbk
    by (intros k p; destruct (R k) as [q|] eqn:Hq; [intros _; by eapply Hb|done]).
  assert (∀ c' st out, carries i loc st → visit_seq seed ignore nodes path build items c' st = Ok out → carries i loc out.2)
    as Hrest.
  { intros c' st' out' Hc Hvis. eapply (visit_seq_preserves (carries i loc)); [|exact Hc|exact Hvis].
    apply Forall_forall. intros x _ *. apply Hsteady; [intros *; apply push_carries|intros *; apply redact_carries]. }
  assert (∀ c' st out, co_count c' = j + 1 → ready st → visit_seq seed ignore nodes path build items c' st = Ok out →
    jv ∈ indexed (j + 1) (map (shown self raw) items) →
    loc ∈ places (step_index jv.1 (R i)) jv.2 (append_index_path path jv.1) → carries i loc out.2) as Htail.
  { intros c' st' out' Hc Hr Hvis Hjv Hin. apply (IH c' st' out' i loc jv); rewrite ?Hc; try done; lia. }
  destruct (unwanted build child) eqn:Hun.
  { destruct (ignore v); cbn [rbind]; [|done]. intros Hvis Hjv Hloc. apply elem_of_cons in Hjv as [->|Hjv]; [|by eapply (Htail (counted _ (j + 1)))].
    cbn [fst snd] in Hloc. destruct (unwanted_none _ _ build i HRk Hun) as [_ Hn].
    rewrite Hn in Hloc. by apply elem_of_nil in Hloc. }
  destruct (seed child here _ v st) as [[cw st1]|] eqn:Hs; [|done]. cbn [rbind fst snd]. intros Hvis Hjv Hloc.
  assert (ready st1) as H1 by (by eapply steady_ready; [apply Hsteady|exact Hst|exact Hs]).
  apply elem_of_cons in Hjv as [->|Hjv]; [|by eapply (Htail (counted _ (j + 1)))].
  eapply Hrest; [|exact Hvis]. by eapply (Hv child _ here _ st (cw, st1)).
Qed.

Lemma value_steady v nodes path all depth : steady (capture_value self raw nodes path all depth v).
Proof. intros P Hp Hr. by apply capture_value_preserves. Qed.

Lemma field_steady key v path depth : steady (capture_field self key v path depth).
Proof. intros P Hp Hr. by apply field_keeps. Qed.

Lemma string_ready s path st : ready st → ready (captured_string self raw s path st).2.
Proof.
  intros Hst. unfold captured_string. destruct raw; [by destruct (_ <=? _)|].
  destruct (redact_json_value self (String s) path []) as [w records].
  destruct w; destruct (_ <=? _); by apply redact_ready.
Qed.

(** The capture at a node, after what is below it *)
Lemma close_accounts nodes R path i loc (out : CapturedValue number * ExtractionState number) :
  represents nodes R → (∀ j p, R j = Some p → (j < n)%nat) → ready out.2 →
  (R i = Some [] ∧ loc = path ∨ carries i loc out.2) →
  carries i loc (if bool_decide (collect_terminals nodes = []) then out.2
                 else capture self raw (collect_terminals nodes) path out.1 out.2).
Proof.
  intros HR Hb Hst [[Hi ->]|Hc].
  - apply (elem_of_terminals nodes R i HR) in Hi. rewrite bool_decide_false by (intros He; rewrite He in Hi; by apply elem_of_nil in Hi).
    apply capture_accounts; [|done|done]. intros j Hj. eapply Hb. by apply (elem_of_terminals nodes R j HR).
  - case_bool_decide; [done|]. apply capture_preserves; [intros *; apply push_carries|intros *; apply redact_carries|done].
Qed.

Lemma shown_scalar v : scalar v = true → scalar (shown self raw v) = true.
Proof. destruct v; cbn; by destruct raw. Qed.

Lemma value_accounts v : arrays_fit v = true → ∀ depth,
  accounts (fun nodes path all st => capture_value self raw nodes path all depth v st) (shown self raw v).
Proof.
  induction v as [|b|z|s|items IH|o IH] using value_ind'; intros Harr depth nodes R path all st out i loc HR Hb Hst;
    cbn [capture_value];
    (destruct (negb _ && negb _) eqn:Hun;
      [ apply andb_true_iff in Hun as [Hb' Hr]; rewrite negb_orb, negb_involutive in Hb'; apply andb_true_iff in Hb' as [_ Ht];
        rewrite negb_true_iff in Hr; apply bool_decide_eq_true in Ht; intros _;
        destruct (R i) as [p|] eqn:Hi; [|by intros ?%elem_of_nil];
        pose proof (no_routes _ _ _ _ HR Hr Hi) as ->; by destruct (no_terminals _ _ i HR Ht) |]); clear Hun.
  1-3: cbn [rbind]; intros [= <-] Hloc; apply places_scalar in Hloc; [|done];
    apply (close_accounts nodes R path i loc (complete_scalar _, st) HR Hb Hst); by left.
  - cbn [rbind]. intros [= <-] Hloc. apply places_scalar in Hloc; [|by apply shown_scalar].
    apply (close_accounts nodes R); [done|done|by apply string_ready|by left].
  - destruct (ensure_json_depth depth); [|done]. cbn [rbind].
    destruct (visit_seq _ _ _ _ _ _ _ _) as [[c st1]|] eqn:Hv; [|done]. cbn [rbind fst snd]. intros [= <-] Hloc. cbn [snd].
    cbn [arrays_fit] in Harr. apply andb_true_iff in Harr as [Hlen%Z.leb_le Harr]. rewrite List.forallb_forall in Harr.
    assert (ready st1) as H1.
    { apply (visit_seq_preserves ready) in Hv; [done| |done]. apply Forall_forall. intros x _ *. apply value_steady;
      [intros *; apply push_ready|intros *; apply redact_ready]. }
    apply (close_accounts nodes R path i loc (finish_seq raw _ c, st1) HR Hb H1). cbn [shown] in Hloc.
    apply places_array in Hloc as [?|(jv & Hjv & Hloc)]; [by left|right].
    refine (visit_seq_accounts _ _ nodes R path _ items HR Hb _ _ _ _ _ i loc jv _ _ Hst Hv Hjv Hloc); [| |done|cbn; lia].
    + intros *. apply value_steady.
    + rewrite Forall_forall in IH |- *. intros v Hin. apply IH; [done|by apply Harr, list_elem_of_In].
  - destruct (ensure_json_depth depth); [|done]. cbn [rbind].
    destruct (visit_map _ _ _ _ _ _ _ _ _ _ _) as [[c st1]|] eqn:Hv; [|done]. cbn [rbind fst snd]. intros [= <-] Hloc. cbn [snd].
    cbn [arrays_fit] in Harr. rewrite List.forallb_forall in Harr.
    assert (ready st1) as H1.
    { apply (visit_map_preserves self raw ready) in Hv; [done|intros *; apply push_ready| |intros *; apply field_keeps; intros *; apply redact_ready|done].
      apply Forall_forall. intros x _ *. apply value_steady; [intros *; apply push_ready|intros *; apply redact_ready]. }
    apply (close_accounts nodes R path i loc (finish_map raw _ c, st1) HR Hb H1). cbn [shown] in Hloc.
    change (map _ o) with (map (shown_entry self raw) o) in Hloc.
    apply places_object in Hloc as [?|(kv & Hkv & Hloc)]; [by left|right].
    refine (visit_map_accounts _ _ _ nodes R path _ o HR Hb _ _ _ _ _ _ i loc kv Hst Hv Hkv Hloc).
    + intros *. apply value_steady.
    + intros *. apply field_steady.
    + rewrite Forall_forall in IH |- *. intros [k v] Hin. unfold shown_entry. cbn [fst snd].
      destruct (negb raw && is_sensitive_name self k) eqn:Hs.
      * apply andb_true_iff in Hs as [_ Hs]. by destruct (field_text self k v [] [] Hs) as (t & r & _ & ->).
      * apply (IH _ Hin). by apply (Harr (k, v)), list_elem_of_In.
Qed.
End Accounts.

(** ** The answer *)

Section Answer.
Context {number : Type} `{RedactionEnv number} `{!BodyAccess number} `{!JsonSource number} (self : Redactor).

(** The document that the stored body is *)
Definition parsed_body (reference : StoredBodyReference) : option (value number) :=
  let parsed reader := match json_from_reader reader with Ok v => Some v | Err _ => None end in
  match file_path reference with
  | Some path => match open_body_reader path with Ok reader => parsed reader | Err _ => None end
  | None =>
      match decode_inline_reference (number := number) reference with
      | Ok b => parsed {| available := b; failure := None |}
      | Err _ => None
      end
  end.

Lemma parsed_state raw reader segments truncated (st : ExtractionState number) :
  parse_reader self raw reader (build_path_tree segments) (new_state (length segments)) truncated = Ok st →
  ∃ v, json_from_reader reader = Ok v ∧ ready (length segments) st ∧
    (arrays_fit v = true → ∀ i path loc, segments !! i = Some path →
       loc ∈ locations (shown self raw v) (lit "$") path → accounted i loc st).
Proof.
  unfold parse_reader. destruct (json_from_reader reader) as [v|]; [|done].
  destruct (capture_value _ _ _ _ _ _ _ _) as [[c st']|] eqn:Hc; [|done]. intros [= <-]. exists v.
  assert (ready (length segments) (new_state (number := number) (length segments))) as Hnew.
  { split; [apply new_within|]. cbn. apply length_replicate. }
  split_and!; [done| |].
  - by eapply (steady_ready (length segments)); [apply value_steady|exact Hnew|exact Hc].
  - intros Harr i path loc Hi Hloc.
    assert (carries (length segments) i loc (c, st').2) as [_ Ha]; [|exact Ha].
    eapply (value_accounts self raw (length segments) v Harr 0 _ (fun i => segments !! i) (lit "$"));
      [apply build_represents| |exact Hnew|exact Hc|by rewrite Hi].
    intros j p. apply lookup_lt_Some.
Qed.

Lemma extraction_parsed raw reference size segments out :
  extract_json_paths self reference size segments raw = Ok out →
  size <= MAX_JSON_PATH_SCAN_BYTES ∧
  ∃ v st hash, parsed_body reference = Some v ∧ ready (length segments) st ∧ out = extraction_of segments hash st ∧
    (arrays_fit v = true → ∀ i path loc, segments !! i = Some path →
       loc ∈ locations (shown self raw v) (lit "$") path → accounted i loc st).
Proof.
  unfold extract_json_paths, parsed_body. destruct (Z.ltb_spec MAX_JSON_PATH_SCAN_BYTES size) as [|Hsize]; [done|].
  destruct (existsb _ segments && _); [done|]. intros He. split; [done|].
  destruct (file_path reference) as [path|].
  - destruct (validate_file path) as [hash|]; [cbn [rbind] in He|done]. destruct (open_body_reader path) as [reader|]; [|done].
    cbn [map_err rbind] in He. destruct (parse_reader _ _ reader _ _ _) as [st|] eqn:Hp; [|done]. injection He as <-.
    destruct (parsed_state _ _ _ _ _ Hp) as (v & -> & Hr & Ha). by exists v, st, hash.
  - destruct (decode_inline_reference reference) as [b|]; [cbn [rbind] in He|done].
    destruct (validate_bytes b) as [hash|]; [cbn [rbind] in He|done].
    destruct (parse_reader _ _ _ _ _ _) as [st|] eqn:Hp; [|done]. injection He as <-.
    destruct (parsed_state _ _ _ _ _ Hp) as (v & -> & Hr & Ha). by exists v, st, hash.
Qed.

(** C28: Whatever the body and the paths, a successful extraction stays within its
    limits and says what it left out.  The declared size is at most 64 MiB, each
    path keeps at most 256 matches and one per location, the storage of all matches
    together is accounted exactly and within 960 KiB, and there is one result per
    path in order.  Every location that a path selects in the shown document
    (redacted, or in raw mode as it is; of a repeated key every occurrence) is
    among the matches kept for that path, or the path and the whole answer are
    marked as limited.  The last part is for documents whose arrays have fewer than
    2^64 elements. *)
Theorem extraction_within_limits (raw : bool) (reference : StoredBodyReference) (size : Z)
    (segments : list (list JsonPathSegment)) (out : JsonPathExtraction number) :
  extract_json_paths self reference size segments raw = Ok out →
  size <= MAX_JSON_PATH_SCAN_BYTES ∧
  ∃ v st, parsed_body reference = Some v ∧
    within_limits st ∧ length (slots st) = length segments ∧ jx_values out = build_results 0 segments st ∧
    let document := if raw then v else (redact_json_value self v (lit "$") []).1 in
    (arrays_fit v = true → ∀ i path loc, segments !! i = Some path → loc ∈ locations document (lit "$") path →
       (∃ slot m, slots st !! i = Some slot ∧ m ∈ slot ∧ cm_path m = loc) ∨
       path_limited st !! i = Some true ∧ jx_truncated out = true).
Proof.
  intros He. destruct (extraction_parsed _ _ _ _ _ He) as (Hsize & v & st & hash & Hv & [Hw Hl] & -> & Ha).
  split; [done|]. exists v, st. split_and!; [done|done|done|done|]. intros document Harr i path loc Hi Hloc.
  assert (document = shown self raw v) as Hd by (unfold document; destruct raw; [by rewrite shown_raw|apply redact_shown]).
  rewrite Hd in Hloc. destruct (Ha Harr i path loc Hi Hloc) as [Hk|Hlim]; [by left|right]. split; [done|].
  cbn [extraction_of jx_truncated]. apply orb_true_iff. left. apply orb_true_iff. left. apply existsb_exists.
  exists true. split; [|done]. apply list_elem_of_In. by eapply list_elem_of_lookup_2.
Qed.
End Answer.

Lemma extraction_within_limits_witness :
  ∃ st : ExtractionState Z, @within_limits Z sample_env st ∧ length (slots st) = 1%nat ∧
    ((∃ slot m, slots st !! 0%nat = Some slot ∧ m ∈ slot ∧ cm_path m = lit "$.Password") ∨ path_limited st !! 0%nat = Some true).
Proof.
  destruct (@extraction_within_limits Z sample_env sample_access sample_source sample_redactor false
    (sample_reference (lit "a")) 1 [[Key (lit "Password")]]
    (match @extract_json_paths Z sample_env sample_access sample_source sample_redactor (sample_reference (lit "a")) 1
             [[Key (lit "Password")]] false with
     | Ok out => out
     | Err _ => {| jx_values := []; jx_truncated := false; jx_redacted_fields := []; jx_view_size_bytes := 0; jx_hash := [] |}
     end)) as (_ & v & st & Hv & Hw & Hl & _ & Ha); [vm_compute; reflexivity|].
  vm_compute in Hv. injection Hv as <-. exists st. split; [exact Hw|]. split; [exact Hl|].
  destruct (Ha ltac:(vm_compute; reflexivity) 0%nat [Key (lit "Password")] (lit "$.Password") eq_refl) as [Hk|[Hk _]];
    [vm_compute; apply list_elem_of_here|left; exact Hk|right; exact Hk].
Defined.
