(* ===== verification/BodyForms.v ===== *)
(** * BodyForms: form bodies as name and value pairs

    Models the form part of src/crates/mcp-server/src/tools/body.rs: the
    multipart parser with its header parameters, the entries made of form parts,
    their redaction and their budget.  The parser of urlencoded forms (the crate
    form_urlencoded) is a parameter.

    A slice with its start after its end panics in Rust and is [None] here. *)

From S2P Require Import Prelude Str JsonPath Rewrite Utf8 TextSearch Redaction RedactedSearch BodyPaths BodyStream.

(** ** Definitions *)

Definition MAX_FORM_PARAMS : nat := 200.
Definition MAX_FORM_PARAM_NAMES : nat := 20.
Definition MAX_FORM_PARAM_NAME_CHARS : nat := 256.
Definition MAX_FORM_VALUE_BYTES : Z := 64 * 1024.
Definition MAX_FORM_TOTAL_BYTES : Z := 512 * 1024.

Inductive FormFormat := Urlencoded | Multipart.

Definition format_str (f : FormFormat) : str :=
  match f with Urlencoded => lit "urlencoded" | Multipart => lit "multipart" end.

Record FormPart := {
  fp_name : str; fp_value : option str; fp_filename : option str; fp_content_type : option str; fp_size_bytes : Z
}.

(** [form] is the list of pairs [form_urlencoded::parse] yields. *)
Definition parse_urlencoded_form (form : list (str * str)) : list FormPart :=
  map (fun nv => {| fp_name := nv.1; fp_value := Some nv.2; fp_filename := None; fp_content_type := None;
                    fp_size_bytes := len nv.2 |}) form.

(** [s.strip_suffix(c)] *)
Definition strip_last (c : byte) (s : str) : option str :=
  match rev s with
  | b :: r => if b =? c then Some (rev r) else None
  | [] => None
  end.

Definition dequote (v : str) : str :=
  match v with
  | c :: inner => if c =? 34 then default v (strip_last 34 inner) else v
  | [] => v
  end.

Fixpoint find_boundary (parameters : list str) : option str :=
  match parameters with
  | [] => None
  | parameter :: parameters =>
      match split_once (chr "=") parameter with
      | None => find_boundary parameters
      | Some (key, v) =>
          if eq_ignore_ascii_case (trim key) (lit "boundary") then
            let v := trim (dequote (trim v)) in
            if bool_decide (v = []) || (200 <? len v) then None else Some v
          else find_boundary parameters
      end
  end.

Definition multipart_boundary (content_type : str) : option str := find_boundary (drop 1 (split (chr ";") content_type)).

Definition find_subslice (haystack needle : bytes) : option nat :=
  if bool_decide (needle = []) || (length haystack <? length needle)%nat then None else find haystack needle.

Definition CRLF : str := [13; 10].

Definition skip_line_break (body : bytes) (position : nat) : option nat :=
  if starts_with (drop position body) CRLF then Some (position + 2)%nat
  else if starts_with (drop position body) [10] then Some (position + 1)%nat
  else None.

Definition find_header_terminator (body : bytes) (from : nat) : option (nat * nat) :=
  let window := drop from body in
  match find_subslice window (CRLF ++ CRLF) with
  | Some index => Some (from + index, from + index + 4)%nat
  | None => (fun index => (from + index, from + index + 2)%nat) <$> find_subslice window [10; 10]
  end.

(** The first loop of [parse_header_parameters] *)
Fixpoint split_parameters (quoted escaped : bool) (current : str) (s : str) : list str :=
  match s with
  | [] => [current]
  | c :: s =>
      if escaped then split_parameters quoted false (current ++ [c]) s
      else if (c =? 92) && quoted then split_parameters quoted true (current ++ [c]) s
      else if c =? 34 then split_parameters (negb quoted) false (current ++ [c]) s
      else if (c =? chr ";") && negb quoted then current :: split_parameters quoted false [] s
      else split_parameters quoted false (current ++ [c]) s
  end.

Fixpoint unescape (escaped : bool) (s : str) : str :=
  match s with
  | [] => []
  | c :: s =>
      if escaped then c :: unescape false s
      else if c =? 92 then unescape true s
      else c :: unescape false s
  end.

Definition unquote_header_value (v : str) : str :=
  match v with
  | c :: inner =>
      if c =? 34 then
        match strip_last 34 inner with
        | None => inner
        | Some inner => unescape false inner
        end
      else v
  | [] => v
  end.

Definition header_parameter (segment : str) : list (str * str) :=
  match split_once (chr "=") segment with
  | None => []
  | Some (key, raw) =>
      let key := to_ascii_lowercase (trim key) in
      if bool_decide (key = []) then [] else [(key, unquote_header_value (trim raw))]
  end.

Definition parse_header_parameters (v : str) : list (str * str) :=
  concat (map header_parameter (drop 1 (split_parameters false false [] v))).

(** The name, the file name and the content type of a part *)
Record PartHeaders := { ph_name : option str; ph_filename : option str; ph_content_type : option str }.

Definition disposition_parameter (h : PartHeaders) (kv : str * str) : PartHeaders :=
  if bool_decide (kv.1 = lit "name") then
    {| ph_name := Some kv.2; ph_filename := ph_filename h; ph_content_type := ph_content_type h |}
  else if bool_decide (kv.1 = lit "filename") then
    {| ph_name := ph_name h; ph_filename := Some kv.2; ph_content_type := ph_content_type h |}
  else h.

Definition header_line (h : PartHeaders) (line : bytes) : PartHeaders :=
  let line := default line (strip_last 13 line) in
  match from_utf8 line with
  | None => h
  | Some line =>
      match split_once (chr ":") line with
      | None => h
      | Some (header, v) =>
          let header := to_ascii_lowercase (trim header) in
          if bool_decide (header = lit "content-disposition") then
            foldl disposition_parameter h (parse_header_parameters (trim v))
          else if bool_decide (header = lit "content-type") && negb (bool_decide (trim v = [])) then
            {| ph_name := ph_name h; ph_filename := ph_filename h; ph_content_type := Some (trim v) |}
          else h
      end
  end.

Definition parse_multipart_headers (headers : bytes) : PartHeaders :=
  foldl header_line {| ph_name := None; ph_filename := None; ph_content_type := None |} (split 10 headers).

Definition new_form_part (name : str) (filename content_type : option str) (v : bytes) : FormPart :=
  {| fp_name := name;
     fp_value := match filename with Some _ => None | None => from_utf8 v end;
     fp_filename := filename; fp_content_type := content_type; fp_size_bytes := len v |}.

(** [while position < body.len() && matches!(body\[position\], b' ' | b'\t')] *)
Fixpoint skip_blanks (fuel : nat) (body : bytes) (position : nat) : nat :=
  match fuel with
  | O => position
  | S fuel =>
      match body !! position with
      | Some b => if (b =? 32) || (b =? 9) then skip_blanks fuel body (S position) else position
      | None => position
      end
  end.

(** The end of a payload: one line break before the delimiter is not part of it. *)
Definition payload_end (body : bytes) (value_end : nat) : nat :=
  if (2 <=? value_end)%nat && bool_decide (slice (value_end - 2) value_end body = CRLF) then (value_end - 2)%nat
  else if (1 <=? value_end)%nat && bool_decide (body !! (value_end - 1)%nat = Some 10) then (value_end - 1)%nat
  else value_end.

(** [&body\[start..end\]] *)
Definition byte_slice (body : bytes) (start end_ : nat) : option bytes :=
  if (start <=? end_)%nat && (end_ <=? length body)%nat then Some (slice start end_ body) else None.

(** The loop of [parse_multipart_form]; the cursor moves on in every turn. *)
Fixpoint multipart_parts (fuel : nat) (body delimiter : bytes) (cursor : nat) (parts : list FormPart)
    : option (result (list FormPart) str) :=
  match fuel with
  | O => Some (Err (lit "the closing boundary is missing"))
  | S fuel =>
      match find_subslice (drop cursor body) delimiter with
      | None => Some (Err (lit "the closing boundary is missing"))
      | Some relative =>
          let position := (cursor + relative + length delimiter)%nat in
          if starts_with (drop position body) (lit "--") then Some (Ok parts)
          else
            match skip_line_break body (skip_blanks (length body) body position) with
            | None => Some (Err (lit "the boundary is not followed by a line break"))
            | Some position =>
                match find_header_terminator body position with
                | None => Some (Err (lit "part headers are not terminated"))
                | Some (headers_end, value_start) =>
                    match find_subslice (drop value_start body) delimiter with
                    | None => Some (Err (lit "the closing boundary is missing"))
                    | Some next =>
                        let value_end := payload_end body (value_start + next) in
                        let headers := parse_multipart_headers (slice position headers_end body) in
                        match ph_name headers with
                        | None => multipart_parts fuel body delimiter (value_start + next) parts
                        | Some name =>
                            v ← byte_slice body value_start value_end;
                            multipart_parts fuel body delimiter (value_start + next)
                              (parts ++ [new_form_part name (ph_filename headers) (ph_content_type headers) v])
                        end
                    end
                end
            end
      end
  end.

Definition parse_multipart_form (body : bytes) (boundary : str) : option (result (list FormPart) str) :=
  multipart_parts (S (length body)) body (lit "--" ++ boundary) 0 [].

(** ** Definitions: entries *)

Section Entries.
Context {number : Type} `{RedactionEnv number} `{!JsonSource number} (self : Redactor) (raw : bool).

Definition truncate_form_value (v : str) : str * bool :=
  if len v <=? MAX_FORM_VALUE_BYTES then (v, false)
  else (take (floor_at v (Z.to_nat MAX_FORM_VALUE_BYTES)) v ++ lit "…[truncated]", true).

(** The locals of [extract_form_body] that [form_entry] updates *)
Record FormTally := { ft_redacted_fields : list str; ft_budget : Z; ft_limited : bool }.

(** The value shown for a text and the rules applied to it *)
Definition shown_text (name v : str) : str * list str :=
  if raw then (v, []) else let out := redact_named_value self name v in (ro_value out, ro_fields out).

Definition shown_filename (filename : str) : str * list str :=
  if raw then (filename, []) else let out := redact_text self filename in (ro_value out, ro_fields out).

Definition entry_json (part : FormPart) : value number * list str :=
  match fp_value part with
  | Some v =>
      let '(v, fields) := shown_text (fp_name part) v in
      let '(v, cut) := truncate_form_value v in
      (Object [(lit "name", String (fp_name part)); (lit "found", Bool true); (lit "value", String v);
               (lit "valueType", String (lit "text")); (lit "sizeBytes", json_usize (fp_size_bytes part));
               (lit "truncated", Bool cut)], fields)
  | None =>
      let base :=
        [(lit "name", String (fp_name part)); (lit "found", Bool true); (lit "value", Null);
         (lit "valueType", String (match fp_filename part with Some _ => lit "file" | None => lit "binary" end));
         (lit "sizeBytes", json_usize (fp_size_bytes part)); (lit "truncated", Bool false)] in
      let '(file, fields) :=
        match fp_filename part with
        | Some filename => let '(filename, fields) := shown_filename filename in ([(lit "fileName", String filename)], fields)
        | None => ([], [])
        end in
      let kind := match fp_content_type part with Some t => [(lit "contentType", String t)] | None => [] end in
      (Object (base ++ file ++ kind), fields)
  end.

Definition form_entry (part : FormPart) (t : FormTally) : option (value number) * FormTally :=
  let '(entry, fields) := entry_json part in
  let redacted := ft_redacted_fields t ++ fields in
  if MAX_FORM_TOTAL_BYTES <? usize_add (ft_budget t) (json_len entry) then
    (None, {| ft_redacted_fields := redacted; ft_budget := ft_budget t; ft_limited := true |})
  else
    (Some entry, {| ft_redacted_fields := redacted; ft_budget := ft_budget t + json_len entry; ft_limited := ft_limited t |}).

(** A loop over parts that ends at the first entry that does not fit *)
Fixpoint form_entries (parts : list FormPart) (t : FormTally) : list (value number) * FormTally :=
  match parts with
  | [] => ([], t)
  | part :: parts =>
      match form_entry part t with
      | (None, t) => ([], t)
      | (Some entry, t) => let '(entries, t) := form_entries parts t in (entry :: entries, t)
      end
  end.

Definition missing_entry (name : str) : value number :=
  Object [(lit "name", String name); (lit "found", Bool false); (lit "value", Null);
          (lit "valueType", String (lit "missing")); (lit "truncated", Bool false)].

Fixpoint named_entries (names : list str) (parts : list FormPart) (t : FormTally) : list (value number) * FormTally :=
  match names with
  | [] => ([], t)
  | name :: names =>
      let selected := List.filter (fun part => bool_decide (fp_name part = name)) parts in
      let '(entries, t) := form_entries selected t in
      let entries := if bool_decide (length selected = 0%nat) then entries ++ [missing_entry name] else entries in
      let '(rest, t) := named_entries names parts t in
      (entries ++ rest, t)
  end.

(** The two ways [extract_form_body] collects entries *)
Definition collect_entries (names : list str) (parts : list FormPart) : list (value number) * FormTally :=
  let t := {| ft_redacted_fields := []; ft_budget := 0; ft_limited := false |} in
  match names with
  | [] =>
      let '(entries, t) := form_entries (take MAX_FORM_PARAMS parts) t in
      (entries, {| ft_redacted_fields := ft_redacted_fields t; ft_budget := ft_budget t;
                   ft_limited := (MAX_FORM_PARAMS <? length parts)%nat || ft_limited t |})
  | _ => named_entries names parts t
  end.
End Entries.

Fixpoint form_param_names (names seen : list str) : result (list str) ToolError :=
  match names with
  | [] => Ok seen
  | name :: names =>
      let name := trim name in
      if bool_decide (name = []) then
        Err {| te_code := lit "INVALID_ARGUMENT"; te_message := lit "formParamNames must not contain empty names.";
               te_retryable := false; te_details := [] |}
      else if (MAX_FORM_PARAM_NAME_CHARS <? chars_count name)%nat then
        Err {| te_code := lit "INVALID_ARGUMENT";
               te_message := lit "formParamNames entries must be at most "
                 ++ show (Z.of_nat MAX_FORM_PARAM_NAME_CHARS) ++ lit " characters.";
               te_retryable := false; te_details := [(lit "name", String name)] |}
      else form_param_names names (if bool_decide (name ∈ seen) then seen else seen ++ [name])
  end.

Definition validate_form_param_names (names : list str) : result (list str) ToolError :=
  if (MAX_FORM_PARAM_NAMES <? length names)%nat then
    Err {| te_code := lit "INVALID_ARGUMENT";
           te_message := lit "formParamNames accepts at most " ++ show (Z.of_nat MAX_FORM_PARAM_NAMES) ++ lit " values.";
           te_retryable := false; te_details := [] |}
  else form_param_names names [].

(** ** Reading a form back *)

(** What a browser sends for a field: a name, a file name for a file, bytes *)
Record Field := { fd_name : str; fd_filename : option str; fd_value : bytes }.

Definition header_escape (s : str) : str := concat (map (fun b => if (b =? 34) || (b =? 92) then [92; b] else [b]) s).
Definition quoted (s : str) : str := [34] ++ header_escape s ++ [34].

Definition field_headers (f : Field) : str :=
  lit "Content-Disposition: form-data; name=" ++ quoted (fd_name f)
  ++ match fd_filename f with Some name => lit "; filename=" ++ quoted name | None => [] end.

Definition encode_field (delimiter : bytes) (f : Field) : bytes :=
  delimiter ++ CRLF ++ field_headers f ++ CRLF ++ CRLF ++ fd_value f ++ CRLF.

Definition encode_form (boundary : str) (fields : list Field) : bytes :=
  concat (map (encode_field (lit "--" ++ boundary)) fields) ++ (lit "--" ++ boundary) ++ lit "--" ++ CRLF.

(** The header line is text on one line, and the boundary was chosen so that the
    delimiter does not occur in the value. *)
Definition encodable (boundary : str) (f : Field) : Prop :=
  utf8_valid (field_headers f) = true ∧ (10 ∉ field_headers f) ∧
  find (fd_value f ++ CRLF ++ lit "--" ++ boundary) (lit "--" ++ boundary) = Some (length (fd_value f) + 2)%nat.

Lemma slice_payload {A} (a b c : list A) : slice (length a) (length a + length b) (a ++ b ++ c) = b.
Proof. unfold slice. rewrite drop_app_length, Nat.add_comm, Nat.add_sub. apply take_app_length. Qed.

Lemma strip_last_app c s : strip_last c (s ++ [c]) = Some s.
Proof. unfold strip_last. rewrite rev_app_distr. cbn. by rewrite Z.eqb_refl, rev_involutive. Qed.

Lemma strip_last_other c b s : b ≠ c → strip_last c (s ++ [b]) = None.
Proof. intros Hb. unfold strip_last. rewrite rev_app_distr. cbn. by destruct (Z.eqb_spec b c). Qed.

Lemma unescape_escape s : unescape false (header_escape s) = s.
Proof.
  unfold header_escape. induction s as [|b s IH]; [done|]. cbn [map concat].
  destruct (Z.eqb_spec b 34) as [->|]; [cbn; by rewrite IH|]. destruct (Z.eqb_spec b 92) as [->|]; [cbn; by rewrite IH|].
  cbn [orb app unescape]. destruct (Z.eqb_spec b 92); [done|]. by rewrite IH.
Qed.

Lemma unquote_quoted s : unquote_header_value (quoted s) = s.
Proof. unfold quoted. cbn [app unquote_header_value]. change (34 =? 34) with true. cbv iota. rewrite strip_last_app. apply unescape_escape. Qed.

Lemma trim_quoted s : trim (quoted s) = quoted s.
Proof. unfold quoted. by apply trim_plain. Qed.

(** Quotes hide what they enclose from the splitting. *)
Lemma split_quoted s rest : ∀ current,
  split_parameters true false current (header_escape s ++ [34] ++ rest)
  = split_parameters false false (current ++ header_escape s ++ [34]) rest.
Proof.
  unfold header_escape. induction s as [|b s IH]; intros current; cbn [map concat app]; [done|].
  destruct ((b =? 34) || (b =? 92)) eqn:Hb.
  - cbn [app split_parameters]. change (92 =? 92) with true. cbn [andb]. cbv iota. rewrite IH, <- !app_assoc. done.
  - apply orb_false_iff in Hb as [H1 H2]. cbn [app split_parameters]. rewrite H1, H2. cbn [andb negb].
    rewrite andb_false_r, IH, <- !app_assoc. done.
Qed.

Definition plain_parameter (s : str) : bool := forallb (fun b => negb (b =? 34) && negb (b =? chr ";")) s.

Lemma split_plain s rest : ∀ current,
  plain_parameter s = true → split_parameters false false current (s ++ rest) = split_parameters false false (current ++ s) rest.
Proof.
  induction s as [|b s IH]; intros current Hs; [by rewrite app_nil_r|]. cbn [plain_parameter forallb] in Hs.
  apply andb_true_iff in Hs as [Hb Hs]. apply andb_true_iff in Hb as [H1 H2]. rewrite negb_true_iff in H1, H2.
  cbn [app split_parameters]. rewrite andb_false_r, H1, H2. cbn [andb]. rewrite IH by done. by rewrite <- app_assoc.
Qed.

Lemma split_parameter p s rest current :
  plain_parameter p = true →
  split_parameters false false current (p ++ quoted s ++ rest) = split_parameters false false (current ++ p ++ quoted s) rest.
Proof.
  intros Hp. rewrite split_plain by done. unfold quoted. rewrite <- !app_assoc. cbn [app split_parameters].
  change (34 =? 92) with false. change (34 =? 34) with true. cbn [andb negb]. cbv iota.
  rewrite (split_quoted s rest), <- !app_assoc. done.
Qed.

Lemma header_parameter_quoted key s :
  (chr "=") ∉ key → to_ascii_lowercase (trim key) ≠ [] →
  header_parameter (key ++ lit "=" ++ quoted s) = [(to_ascii_lowercase (trim key), s)].
Proof.
  intros Hk Hne. unfold header_parameter. change (lit "=" ++ quoted s) with (chr "=" :: quoted s).
  rewrite (proj2 (split_once_Some _ _ key (quoted s))) by done. rewrite bool_decide_false by done.
  by rewrite trim_quoted, unquote_quoted.
Qed.

Lemma disposition_parameters f :
  parse_header_parameters (lit "form-data; name=" ++ quoted (fd_name f)
    ++ match fd_filename f with Some name => lit "; filename=" ++ quoted name | None => [] end)
  = (lit "name", fd_name f) :: match fd_filename f with Some name => [(lit "filename", name)] | None => [] end.
Proof.
  unfold parse_header_parameters. change (lit "form-data; name=") with (lit "form-data" ++ chr ";" :: lit " name=").
  rewrite <- app_assoc, split_plain by (vm_compute; reflexivity). cbn [app split_parameters].
  change ((chr ";" =? 92) && false) with false. change (chr ";" =? 34) with false.
  change ((chr ";" =? chr ";") && negb false) with true. cbv iota.
  pose proof (header_parameter_quoted (lit " name") (fd_name f)) as Hname.
  destruct (fd_filename f) as [name|].
  - rewrite (split_parameter (lit " name=") (fd_name f) (lit "; filename=" ++ quoted name) []) by (vm_compute; reflexivity).
    change (lit "; filename=" ++ quoted name) with (chr ";" :: lit " filename=" ++ quoted name). cbn [split_parameters].
    change ((chr ";" =? 92) && false) with false. change (chr ";" =? 34) with false.
    change ((chr ";" =? chr ";") && negb false) with true. cbv iota.
    rewrite <- (app_nil_r (lit " filename=" ++ quoted name)), <- app_assoc.
    rewrite (split_parameter (lit " filename=") name [] []) by (vm_compute; reflexivity).
    cbn [split_parameters drop map concat]. rewrite !app_nil_r. cbn [app].
    change (lit " name=" ++ quoted (fd_name f)) with (lit " name" ++ lit "=" ++ quoted (fd_name f)).
    change (lit " filename=" ++ quoted name) with (lit " filename" ++ lit "=" ++ quoted name).
    rewrite Hname by (vm_compute; set_solver || discriminate).
    rewrite header_parameter_quoted by (vm_compute; set_solver || discriminate). done.
  - rewrite (split_parameter (lit " name=") (fd_name f) [] []) by (vm_compute; reflexivity).
    cbn [split_parameters drop map concat app].
    change (lit " name=" ++ quoted (fd_name f)) with (lit " name" ++ lit "=" ++ quoted (fd_name f)).
    rewrite Hname by (vm_compute; set_solver || discriminate). done.
Qed.

Lemma split_single c s : c ∉ s → split c s = [s].
Proof.
  induction s as [|b s IH]; intros Hs; [done|]. rewrite elem_of_cons in Hs. cbn [split].
  destruct (Z.eqb_spec b c) as [->|]; [tauto|]. rewrite IH by tauto. done.
Qed.

Lemma field_headers_last f : ∃ w, field_headers f = w ++ [34].
Proof.
  unfold field_headers, quoted. destruct (fd_filename f) as [name|].
  - exists (lit "Content-Disposition: form-data; name=" ++ ([34] ++ header_escape (fd_name f) ++ [34])
      ++ lit "; filename=" ++ [34] ++ header_escape name). by rewrite <- !app_assoc.
  - exists (lit "Content-Disposition: form-data; name=" ++ [34] ++ header_escape (fd_name f)).
    by rewrite app_nil_r, <- !app_assoc.
Qed.

Lemma field_headers_parsed f :
  utf8_valid (field_headers f) = true → 10 ∉ field_headers f →
  parse_multipart_headers (field_headers f)
  = {| ph_name := Some (fd_name f); ph_filename := fd_filename f; ph_content_type := None |}.
Proof.
  intros Hu Hn. unfold parse_multipart_headers. rewrite split_single by done. cbn [foldl]. unfold header_line.
  destruct (field_headers_last f) as [w Hw]. rewrite Hw at 1 2. rewrite strip_last_other by done. cbn [default]. rewrite <- Hw.
  unfold from_utf8. rewrite Hu. set (d := lit "form-data; name=" ++ quoted (fd_name f)
    ++ match fd_filename f with Some name => lit "; filename=" ++ quoted name | None => [] end).
  assert (field_headers f = lit "Content-Disposition" ++ chr ":" :: 32 :: d) as Hf by done.
  rewrite (proj2 (split_once_Some _ _ (lit "Content-Disposition") (32 :: d))) by (split; [exact Hf|vm_compute; set_solver]).
  change (to_ascii_lowercase (trim (lit "Content-Disposition"))) with (lit "content-disposition").
  rewrite bool_decide_true by done. assert (trim (32 :: d) = d) as ->.
  { assert (∃ e, d = chr "f" :: e ++ [34]) as [e He].
    { unfold d, quoted. destruct (fd_filename f) as [name|].
      - exists (lit "orm-data; name=" ++ ([34] ++ header_escape (fd_name f) ++ [34]) ++ lit "; filename=" ++ [34] ++ header_escape name).
        by rewrite <- !app_assoc.
      - exists (lit "orm-data; name=" ++ [34] ++ header_escape (fd_name f)). by rewrite app_nil_r, <- !app_assoc. }
    change (trim (32 :: d)) with (trim d). rewrite He. by apply trim_plain. }
  unfold d. rewrite disposition_parameters. by destruct (fd_filename f).
Qed.

(** ** Finding the parts *)

Lemma find_at (a p r : str) : find (a ++ p) p = Some (length a) → find (a ++ p ++ r) p = Some (length a).
Proof.
  intros Hf. destruct (find (a ++ p ++ r) p) as [i|] eqn:Hi.
  - apply find_Some in Hi as (l & r' & Heq & <- & Hmin). apply find_Some in Hf as (l2 & r2 & Heq2 & Hl2 & Hmin2).
    pose proof (Hmin a r eq_refl) as Hle. f_equal. apply Nat.le_antisymm; [done|].
    assert (a ++ p = l ++ p ++ drop (length l + length p) (a ++ p)) as Hin.
    { assert (take (length l + length p) (a ++ p) = l ++ p) as Ht.
      { assert (take (length l + length p) ((a ++ p) ++ r) = take (length l + length p) (a ++ p)) as <-
          by (rewrite take_app_le by (rewrite length_app; lia); done).
        rewrite <- app_assoc, Heq, app_assoc, take_app_length' by (rewrite length_app; done). done. }
      rewrite app_assoc, <- Ht. by rewrite take_drop. }
    by apply Hmin2 in Hin.
  - rewrite find_None in Hi. by destruct (Hi a r).
Qed.

Lemma find_zero p r : find (p ++ r) p = Some 0%nat.
Proof. destruct (p ++ r) eqn:He; cbn [find]; rewrite <- He, starts_with_app; done. Qed.

(** The first empty line ends a header block without line feeds. *)
Lemma find_blank_line h r : 10 ∉ h → find (h ++ (CRLF ++ CRLF) ++ r) (CRLF ++ CRLF) = Some (length h).
Proof.
  intros Hh. destruct (find (h ++ (CRLF ++ CRLF) ++ r) (CRLF ++ CRLF)) as [i|] eqn:Hi.
  - apply find_Some in Hi as (l & r' & Heq & <- & Hmin). pose proof (Hmin h r eq_refl) as Hle. f_equal.
    apply Nat.le_antisymm; [done|]. destruct (le_lt_dec (length h) (length l)) as [|Hlt]; [done|]. exfalso.
    assert ((h ++ (CRLF ++ CRLF) ++ r) !! S (length l) = Some 10) as H1.
    { rewrite Heq, lookup_app_r by lia. by replace (S (length l) - length l)%nat with 1%nat by lia. }
    destruct (decide (S (length l) < length h)%nat) as [Hin|Hout].
    + rewrite lookup_app_l in H1 by done. apply Hh. by eapply list_elem_of_lookup_2.
    + rewrite lookup_app_r in H1 by lia. by replace (S (length l) - length h)%nat with 0%nat in H1 by lia.
  - rewrite find_None in Hi. by destruct (Hi h r).
Qed.

Lemma find_subslice_eq h p i : p ≠ [] → find h p = Some i → find_subslice h p = Some i.
Proof.
  intros Hp Hf. unfold find_subslice. rewrite bool_decide_false by done. cbn [orb].
  destruct (Nat.ltb_spec (length h) (length p)); [|done]. apply find_Some in Hf as (l & r & -> & _).
  rewrite !length_app in *. lia.
Qed.

(** The loop ends by itself: every turn moves the cursor on, and it stays in the
    body. *)
Lemma find_subslice_bound h p i : find_subslice h p = Some i → (1 <= length p)%nat ∧ (i + length p <= length h)%nat.
Proof.
  unfold find_subslice. destruct p as [|c p]; [done|]. cbn [length orb]. case_match; [done|].
  intros (l & r & -> & <- & _)%find_Some. rewrite !length_app. cbn [length]. lia.
Qed.

Lemma skip_blanks_ge fuel body position : (position <= skip_blanks fuel body position)%nat.
Proof.
  revert position. induction fuel as [|fuel IH]; intros position; cbn [skip_blanks]; [done|].
  destruct (body !! position); [|done]. destruct (_ || _); [|done]. specialize (IH (S position)). lia.
Qed.

Lemma header_terminator_ge body from headers_end value_start :
  find_header_terminator body from = Some (headers_end, value_start) → (from <= value_start)%nat.
Proof.
  unfold find_header_terminator. destruct (find_subslice _ _); [intros [= <- <-]; lia|].
  destruct (find_subslice _ _); [intros [= <- <-]; lia|done].
Qed.

Lemma multipart_fuel body delimiter f : ∀ g cursor parts,
  (length body - cursor < f)%nat → (length body - cursor < g)%nat →
  multipart_parts f body delimiter cursor parts = multipart_parts g body delimiter cursor parts.
Proof.
  induction f as [|f IH]; intros [|g] cursor parts Hf Hg; [lia|lia|lia|]. cbn [multipart_parts].
  destruct (find_subslice (drop cursor body) delimiter) as [rel|] eqn:H1; [|done].
  apply find_subslice_bound in H1 as [Hd H1]. rewrite length_drop in H1. destruct (starts_with _ _); [done|].
  destruct (skip_line_break body _) as [position|] eqn:H2; [|done].
  destruct (find_header_terminator body position) as [[he vs]|] eqn:H3; [|done].
  destruct (find_subslice (drop vs body) delimiter) as [next|] eqn:H4; [|done].
  apply find_subslice_bound in H4 as [_ H4]. rewrite length_drop in H4. apply header_terminator_ge in H3.
  pose proof (skip_blanks_ge (length body) body (cursor + rel + length delimiter)) as H5.
  assert (cursor + rel + length delimiter < position)%nat.
  { unfold skip_line_break in H2. repeat case_match; simplify_eq; lia. }
  destruct (ph_name _); [destruct (byte_slice body vs _); [|done]|]; cbn [mbind option_bind]; apply IH; lia.
Qed.

Definition decoded (f : Field) : FormPart := new_form_part (fd_name f) (fd_filename f) None (fd_value f).

(** One turn of the loop at an encoded field *)
Lemma multipart_step fuel boundary pre f rest parts :
  let delimiter := lit "--" ++ boundary in
  encodable boundary f → 
  multipart_parts (S fuel) (pre ++ encode_field delimiter f ++ delimiter ++ rest) delimiter (length pre) parts
  = multipart_parts fuel (pre ++ encode_field delimiter f ++ delimiter ++ rest) delimiter
      (length (pre ++ encode_field delimiter f)) (parts ++ [decoded f]).
Proof.
  intros delimiter (Hu & Hn & Hv). set (h := field_headers f) in *. set (v := fd_value f) in *.
  set (body := pre ++ encode_field delimiter f ++ delimiter ++ rest).
  assert (delimiter ≠ []) as Hd by done.
  assert (body = pre ++ delimiter ++ CRLF ++ h ++ (CRLF ++ CRLF) ++ v ++ CRLF ++ delimiter ++ rest) as Hb.
  { unfold body, encode_field. fold h v. by rewrite <- !app_assoc. }
  assert (drop (length pre) body = delimiter ++ CRLF ++ h ++ (CRLF ++ CRLF) ++ v ++ CRLF ++ delimiter ++ rest) as H0
    by (rewrite Hb; apply drop_app_length).
  assert (drop (length pre + 0 + length delimiter) body = CRLF ++ h ++ (CRLF ++ CRLF) ++ v ++ CRLF ++ delimiter ++ rest) as H1
    by (rewrite Nat.add_0_r, <- drop_drop, H0; apply drop_app_length).
  set (p1 := (length pre + 0 + length delimiter)%nat) in *.
  assert (drop (p1 + 2) body = h ++ (CRLF ++ CRLF) ++ v ++ CRLF ++ delimiter ++ rest) as H2 by (rewrite <- drop_drop, H1; done).
  assert (drop (p1 + 2 + length h + 4) body = v ++ CRLF ++ delimiter ++ rest) as H3
    by (replace (p1 + 2 + length h + 4)%nat with ((p1 + 2) + (length h + 4))%nat by lia;
        rewrite <- drop_drop, H2, <- drop_drop, drop_app_length; done).
  cbn [multipart_parts]. rewrite H0, (find_subslice_eq _ _ 0%nat Hd) by apply find_zero. fold p1. rewrite H1.
  change (starts_with (CRLF ++ h ++ _) (lit "--")) with false. cbv iota.
  assert (skip_blanks (length body) body p1 = p1) as ->.
  { destruct (length body) as [|n] eqn:Hl; [done|]. cbn [skip_blanks].
    assert (body !! p1 = Some 13) as ->; [|done]. rewrite <- (Nat.add_0_r p1), <- lookup_drop, H1. done. }
  unfold skip_line_break. rewrite H1, starts_with_app. unfold find_header_terminator. rewrite H2.
  rewrite (find_subslice_eq _ _ (length h)) by (done || by apply find_blank_line). rewrite H3.
  rewrite (find_subslice_eq (v ++ CRLF ++ delimiter ++ rest) delimiter (length v + 2) Hd).
  2: { replace (length v + 2)%nat with (length (v ++ CRLF)) in Hv |- * by (by rewrite length_app).
       rewrite (app_assoc v CRLF (delimiter ++ rest)). apply find_at. by rewrite <- app_assoc. }
  set (vs := (p1 + 2 + length h + 4)%nat) in *.
  assert (∀ a b c d, drop a body = b ++ c ++ d → slice (a + length b) (a + length b + length c) body = c) as Hslice.
  { intros a b c d Ha. unfold slice. rewrite <- drop_drop, Ha, drop_app_length.
    replace (a + length b + length c - (a + length b))%nat with (length c) by lia. apply take_app_length. }
  assert (payload_end body (vs + (length v + 2)) = (vs + length v)%nat) as ->.
  { unfold payload_end. destruct (Nat.leb_spec 2 (vs + (length v + 2))); [|lia]. cbn [andb].
    replace (vs + (length v + 2) - 2)%nat with (vs + length v)%nat by lia.
    rewrite bool_decide_true; [done|]. pose proof (Hslice vs v CRLF (delimiter ++ rest) H3) as Hs.
    change (length CRLF) with 2%nat in Hs. by rewrite <- Nat.add_assoc in Hs. }
  pose proof (Hslice (p1 + 2)%nat [] h _ H2) as Hh. cbn [length] in Hh. rewrite Nat.add_0_r in Hh. rewrite Hh.
  unfold h. rewrite field_headers_parsed by done. cbn [ph_name ph_filename ph_content_type].
  unfold byte_slice. destruct (Nat.leb_spec vs (vs + length v)); [|lia].
  assert (vs + length v + length (CRLF ++ delimiter ++ rest) = length body)%nat as Hlen.
  { rewrite Hb. repeat rewrite length_app. unfold vs, p1, CRLF. cbn [length]. lia. }
  destruct (Nat.leb_spec (vs + length v) (length body)); [|lia]. cbn [andb mbind option_bind].
  pose proof (Hslice vs [] v _ H3) as Hsv. cbn [length] in Hsv. rewrite Nat.add_0_r in Hsv. rewrite Hsv.
  f_equal. unfold encode_field. fold h v. rewrite !length_app. unfold vs, p1, CRLF. cbn [length]. lia.
Qed.

Lemma multipart_fields boundary fields : ∀ fuel pre parts,
  Forall (encodable boundary) fields → (length fields < fuel)%nat →
  multipart_parts fuel (pre ++ encode_form boundary fields) (lit "--" ++ boundary) (length pre) parts
  = Some (Ok (parts ++ map decoded fields)).
Proof.
  induction fields as [|f fields IH]; intros fuel pre parts Hf Hfuel; (destruct fuel as [|fuel]; [cbn in Hfuel; lia|]).
  - unfold encode_form. cbn [map concat app]. cbn [multipart_parts]. rewrite drop_app_length.
    rewrite (find_subslice_eq _ _ 0%nat) by (done || apply find_zero).
    rewrite Nat.add_0_r, <- drop_drop, drop_app_length, drop_app_length. cbn [map]. by rewrite app_nil_r.
  - apply Forall_cons in Hf as [Hf Hfs]. cbn [length] in Hfuel.
    assert (∃ rest, encode_form boundary fields = (lit "--" ++ boundary) ++ rest) as [rest Hr].
    { unfold encode_form. destruct fields as [|g fields]; [by eexists|]. cbn [map concat]. unfold encode_field at 1.
      rewrite <- !app_assoc. by eexists. }
    assert (encode_form boundary (f :: fields) = encode_field (lit "--" ++ boundary) f ++ encode_form boundary fields) as He.
    { unfold encode_form. cbn [map concat]. by rewrite <- app_assoc. }
    rewrite He, Hr. rewrite (multipart_step fuel boundary pre f rest parts Hf), <- Hr, (app_assoc pre).
    rewrite IH by (done || lia). cbn [map]. by rewrite <- app_assoc.
Qed.

(** C27: A multipart form is read back field by field: for any list of fields encoded
    the standard way under a boundary that does not occur in them, the parser
    returns exactly those fields in order, text as text, files by name and size,
    and never panics. *)
Theorem multipart_roundtrip (boundary : str) (fields : list Field) :
  Forall (encodable boundary) fields →
  parse_multipart_form (encode_form boundary fields) boundary = Some (Ok (map decoded fields)).
Proof.
  intros Hf. unfold parse_multipart_form. apply (multipart_fields boundary fields _ [] []); [done|].
  unfold encode_form. rewrite length_app. assert (length fields <= length (concat (map (encode_field (lit "--" ++ boundary)) fields)))%nat.
  { clear. induction fields as [|f fields IH]; [done|]. cbn [map concat length]. rewrite length_app.
    assert (1 <= length (encode_field (lit "--" ++ boundary) f))%nat; [|lia].
    unfold encode_field. rewrite !length_app. change (length (lit "--")) with 2%nat. lia. }
  lia.
Qed.

(** The entry of a parameter shows its name as captured, also in a redacted answer:
    the whole text of a body that is declared as urlencoded and is not, up to the
    first [=] or [&], is such a name. *)
Lemma form_names_unredacted {number : Type} `{RedactionEnv number} `{!JsonSource number} (self : Redactor) (part : FormPart) :
  ∃ rest, (entry_json self false part).1 = Object ((lit "name", String (fp_name part)) :: rest).
Proof.
  unfold entry_json. destruct (fp_value part) as [v|].
  - destruct (shown_text _ _ _ v) as [w fields]. destruct (truncate_form_value w) as [u cut]. by eexists.
  - destruct (fp_filename part) as [filename|]; [|by eexists]. destruct (shown_filename _ _ filename) as [w fields]. by eexists.
Qed.

Definition sample_field : Field := {| fd_name := [97; 34; 98]; fd_filename := None; fd_value := lit "1--x" |}.

Lemma multipart_roundtrip_witness :
  parse_multipart_form (encode_form (lit "XX") [sample_field; sample_field]) (lit "XX")
  = Some (Ok [decoded sample_field; decoded sample_field]).
Proof.
  apply (multipart_roundtrip (lit "XX") [sample_field; sample_field]).
  repeat constructor; try (vm_compute; reflexivity); vm_compute; set_solver.
Defined.

(** A part without a payload, which the standard allows, makes the end of the
    payload come before its start, and the slice panics. *)
Lemma empty_part_panics :
  parse_multipart_form (lit "--XX" ++ CRLF ++ lit "Content-Disposition: form-data; name=a" ++ CRLF ++ CRLF ++ lit "--XX--")
    (lit "XX") = None.
Proof. vm_compute. reflexivity. Qed.
