(* ===== verification/Curl.v ===== *)
(** * Curl: exporting a captured request as a shell command

    Models src/crates/mcp-server/src/tools/curl.rs: placeholders for sensitive
    values, the quoting of arguments and the assembly of the command.  The
    specification is a reader for the fragment of the POSIX shell the command
    uses: it fails on every character that would start an expansion, a
    substitution or another command.  The theorems say that the shell sees exactly
    the intended arguments, whatever was captured, and that only the variables the
    export itself created are expanded. *)

From S2P Require Import Prelude Str JsonPath Redaction.

(** ** Definitions: quoting *)

Inductive CurlShell := Posix | Powershell.

Definition shell_as_str (s : CurlShell) : str :=
  match s with Posix => lit "posix" | Powershell => lit "powershell" end.

Definition shell_command (s : CurlShell) : str :=
  match s with Posix => lit "curl" | Powershell => lit "curl.exe" end.

(** [value.replace('\'', by)] *)
Fixpoint replace_quote (by_ : str) (s : str) : str :=
  match s with
  | [] => []
  | c :: s => (if c =? 39 then by_ else [c]) ++ replace_quote by_ s
  end.

Definition quote_literal (shell : CurlShell) (value : str) : str :=
  match shell with
  | Posix => [39] ++ replace_quote [39; 92; 39; 39] value ++ [39]
  | Powershell => [39] ++ replace_quote [39; 39] value ++ [39]
  end.

Definition env_value (shell : CurlShell) (name : str) : str :=
  match shell with
  | Posix => [34] ++ lit "${" ++ name ++ lit "}" ++ [34]
  | Powershell => [34] ++ lit "$env:" ++ name ++ [34]
  end.

(** ** Definitions: placeholders *)

Definition env_byte (b : byte) : bool := ((65 <=? b) && (b <=? 90)) || is_digit b || (b =? 95).

Definition is_valid_env_name (name : str) : bool := negb (bool_decide (name = [])) && forallb env_byte name.

Record Placeholder := { ph_name : str; ph_source : str }.

Record Placeholders := { marker_prefix : str; by_name : gmap str str; items : list Placeholder }.

(** [nonce]: the UUID drawn for the export, as 32 hexadecimal digits *)
Definition new_placeholders (nonce : str) : Placeholders :=
  {| marker_prefix := lit "__AIPROXY_ENV_" ++ nonce ++ lit "_"; by_name := ∅; items := [] |}.

(** The loop of [register]: the first candidate that is free or already stands
    for the source. *)
Fixpoint candidate_loop (fuel : nat) (names : gmap str str) (base source candidate : str) (suffix : Z)
    : option (str * bool) :=
  match fuel with
  | O => None
  | S fuel =>
      match names !! candidate with
      | None => Some (candidate, true)
      | Some existing =>
          if bool_decide (existing = source) then Some (candidate, false)
          else candidate_loop fuel names base source (base ++ lit "_" ++ show suffix) (suffix + 1)
      end
  end.

(** [None] is the assertion on the base. *)
Definition register (base source : str) (p : Placeholders) : option (str * Placeholders) :=
  if is_valid_env_name base then
    '(candidate, fresh) ← candidate_loop (S (size (by_name p))) (by_name p) base source base 2;
    Some (candidate,
          if fresh : bool then
            {| marker_prefix := marker_prefix p; by_name := <[candidate := source]> (by_name p);
               items := items p ++ [{| ph_name := candidate; ph_source := source |}] |}
          else p)
  else None.

Definition marker (base source : str) (p : Placeholders) : option (str * Placeholders) :=
  '(name, p) ← register base source p;
  Some (marker_prefix p ++ name ++ lit "__", p).

Definition has_generated_marker (p : Placeholders) (name : str) : bool :=
  is_valid_env_name name && bool_decide (is_Some (by_name p !! name)).

(** [env_segment], over bytes: a character that is not ASCII is one or more bytes
    that are not alphanumeric. *)
Definition alnum (b : byte) : bool :=
  is_digit b || ((65 <=? b) && (b <=? 90)) || ((97 <=? b) && (b <=? 122)).
Definition to_upper (b : byte) : byte := if (97 <=? b) && (b <=? 122) then b - 32 else b.

Fixpoint env_segment_loop (previous_separator : bool) (output : str) (s : str) : str :=
  match s with
  | [] => output
  | c :: s =>
      if alnum c then env_segment_loop false (output ++ [to_upper c]) s
      else if negb previous_separator && negb (bool_decide (output = [])) then
        env_segment_loop true (output ++ [95]) s
      else env_segment_loop previous_separator output s
  end.

Definition env_segment (value : str) : str :=
  let output := trim_end_matches 95 (env_segment_loop false [] value) in
  if bool_decide (output = []) then lit "VALUE" else output.

(** ** Definitions: rendering *)

(** One step of the loop of [render_with_markers]: the place of the next prefix
    and, if a generated marker starts there, its name and its end. *)
Definition next_marker (p : Placeholders) (value : str) (search_start : nat) : option (nat * option (str * nat)) :=
  match find (drop search_start value) (marker_prefix p) with
  | None => None
  | Some relative =>
      let marker_start := (search_start + relative)%nat in
      let name_start := (marker_start + length (marker_prefix p))%nat in
      Some (marker_start,
            match find (drop name_start value) (lit "__") with
            | Some offset =>
                let name := slice name_start (name_start + offset) value in
                if has_generated_marker p name then Some (name, (name_start + offset + 2)%nat) else None
            | None => None
            end)
  end.

Fixpoint render_loop (fuel : nat) (shell : CurlShell) (p : Placeholders) (value : str)
    (literal_start search_start : nat) (output : str) : option str :=
  match fuel with
  | O => None
  | S fuel =>
      match next_marker p value search_start with
      | Some (marker_start, Some (name, marker_end)) =>
          let literal :=
            if (literal_start <? marker_start)%nat then
              quote_literal shell (slice literal_start marker_start value) else [] in
          render_loop fuel shell p value marker_end marker_end (output ++ literal ++ env_value shell name)
      | Some (marker_start, None) =>
          render_loop fuel shell p value literal_start (marker_start + length (marker_prefix p)) output
      | None =>
          let output :=
            if (literal_start <? length value)%nat then output ++ quote_literal shell (drop literal_start value)
            else output in
          Some (if bool_decide (output = []) then quote_literal shell [] else output)
      end
  end.

(** Every round moves [search_start] by the length of the prefix at least. *)
Definition render_with_markers (value : str) (shell : CurlShell) (p : Placeholders) : option str :=
  render_loop (S (length value)) shell p value 0 0 [].

Definition should_skip_header (h : HeaderEntry) : bool :=
  if default false (he_is_pseudo h) || starts_with (he_name h) (lit ":") then true
  else
    bool_decide (to_ascii_lowercase (trim (he_name h)) ∈
      [lit "host"; lit "content-length"; lit "connection"; lit "proxy-connection"; lit "keep-alive";
       lit "transfer-encoding"; lit "te"; lit "trailer"; lit "upgrade"]).

(** ** Definitions: the export *)

(** url: the query pairs of a URL and its text without query and fragment;
    [byte_serialize] of form_urlencoded *)
Class CurlUrls := {
  url_parse : str → result (list (str * str) * str) str;
  byte_serialize : str → str
}.

Section Exporting.
Context {number : Type} `{RedactionEnv number} `{CurlUrls} (self : Redactor).

(** The value is sensitive by its name or changed by the text rules. *)
Definition is_hidden (name value : str) : bool :=
  is_sensitive_value_name self name || negb (bool_decide (ro_value (redact_text self value) = value)).

Definition export_header_value (h : HeaderEntry) (raw : bool) (p : Placeholders) : option (str * Placeholders) :=
  if raw then Some (he_value h, p)
  else if is_hidden (he_name h) (he_value h) then
    marker (lit "AIPROXY_" ++ env_segment (he_name h)) (lit "header:" ++ he_name h) p
  else Some (he_value h, p).

Fixpoint export_pairs (pairs : list (str * str)) (p : Placeholders) : option (list str * Placeholders) :=
  match pairs with
  | [] => Some ([], p)
  | (name, value) :: pairs =>
      '(rendered, p) ←
        (if is_hidden name value then
           marker (lit "AIPROXY_QUERY_" ++ env_segment name) (lit "query:" ++ name) p
         else Some (byte_serialize value, p));
      '(query, p) ← export_pairs pairs p;
      Some ((byte_serialize name ++ lit "=" ++ rendered) :: query, p)
  end.

Definition export_url (url : str) (raw : bool) (p : Placeholders) : option (result (str * Placeholders) str) :=
  if raw then Some (Ok (url, p))
  else
    match url_parse url with
    | Err error => Some (Err (lit "The captured request URL cannot be exported: " ++ error))
    | Ok ([], _) => Some (Ok (url, p))
    | Ok (pairs, base) =>
        '(query, p) ← export_pairs pairs p;
        Some (Ok (base ++ lit "?" ++ join (chr "&") query, p))
    end.

Section Walk.
Context {V : Type} (f : str → V → Placeholders → option (V * Placeholders)).

Fixpoint place_items (index : Z) (items : list V) (p : Placeholders) : option (list V * Placeholders) :=
  match items with
  | [] => Some ([], p)
  | v :: items =>
      '(v, p) ← f (lit "[" ++ show index ++ lit "]") v p;
      '(items, p) ← place_items (index + 1) items p;
      Some (v :: items, p)
  end.

Fixpoint place_fields (o : list (str * V)) (p : Placeholders) : option (list (str * V) * Placeholders) :=
  match o with
  | [] => Some ([], p)
  | (key, v) :: o =>
      '(v, p) ← f key v p;
      '(o, p) ← place_fields o p;
      Some ((key, v) :: o, p)
  end.
End Walk.

Fixpoint replace_json_placeholders (v : value number) (path : str) (p : Placeholders)
    : option (value number * Placeholders) :=
  match v with
  | Object o =>
      '(o, p) ←
        place_fields (fun key v p =>
          let child_path := path ++ lit "." ++ key in
          if is_sensitive_value_name self key then
            '(m, p) ← marker (lit "AIPROXY_BODY_" ++ env_segment key) (lit "body:" ++ child_path) p;
            Some (String m, p)
          else replace_json_placeholders v child_path p) o p;
      Some (Object o, p)
  | Array items =>
      '(items, p) ← place_items (fun index v p => replace_json_placeholders v (path ++ index) p) 0 items p;
      Some (Array items, p)
  | String text =>
      if bool_decide (ro_value (redact_text self text) = text) then Some (String text, p)
      else
        '(m, p) ← marker (lit "AIPROXY_BODY_VALUE") (lit "body:" ++ path) p;
        Some (String m, p)
  | v => Some (v, p)
  end.

Definition MAX_INLINE_BODY_BYTES : Z := 64 * 1024.

(** A page of the stored body: its bytes and the size of the whole body *)
Record BodyPage := { page_bytes : bytes; page_decoded_size : Z }.

(** What is left out, with the size when the body is too large *)
Record Omitted := { om_reason : str; om_size : option Z }.

(** The parts of the command, what was omitted, and the warnings *)
Record Draft := {
  parts : list str; placeholders : Placeholders; omitted : list Omitted; warnings : list str
}.

Definition add_parts (more : list str) (p : Placeholders) (d : Draft) : Draft :=
  {| parts := parts d ++ more; placeholders := p; omitted := omitted d; warnings := warnings d |}.

Definition add_omitted (o : Omitted) (w : list str) (d : Draft) : Draft :=
  {| parts := parts d; placeholders := placeholders d; omitted := omitted d ++ [o]; warnings := warnings d ++ w |}.

(** The text of the body in the command *)
Definition body_text (text : str) (raw : bool) (p : Placeholders) : option (str * Placeholders) :=
  if raw then Some (text, p)
  else
    match from_str text with
    | Some v =>
        '(v, p) ← replace_json_placeholders v (lit "$") p;
        Some (to_string v, p)
    | None =>
        if bool_decide (ro_value (redact_text self text) = text) then Some (text, p)
        else marker (lit "AIPROXY_BODY") (lit "body:request") p
    end.

Definition replace_warning : str :=
  lit "Replace environment variables with values from the placeholders list before running the command.".

Definition export_body (page : BodyPage) (raw : bool) (shell : CurlShell) (d : Draft) : option Draft :=
  if MAX_INLINE_BODY_BYTES <? page_decoded_size page then
    Some (add_omitted {| om_reason := lit "body exceeds 64 KiB inline limit"; om_size := Some (page_decoded_size page) |} [] d)
  else
    match from_utf8 (page_bytes page) with
    | None => Some (add_omitted {| om_reason := lit "binary body"; om_size := None |} [] d)
    | Some [] => Some d
    | Some text =>
        '(body, p) ← body_text text raw (placeholders d);
        rendered ← render_with_markers body shell p;
        let d := add_parts [lit "--data-raw"; rendered] p d in
        Some (if negb raw && contains body (marker_prefix p) then
                {| parts := parts d; placeholders := p; omitted := omitted d;
                   warnings := warnings d ++ [replace_warning] |}
              else d)
    end.

Fixpoint export_headers (headers : list HeaderEntry) (raw : bool) (shell : CurlShell) (d : Draft) : option Draft :=
  match headers with
  | [] => Some d
  | h :: headers =>
      if should_skip_header h then export_headers headers raw shell d
      else
        '(value, p) ← export_header_value h raw (placeholders d);
        rendered ← render_with_markers (he_name h ++ lit ": " ++ value) shell p;
        export_headers headers raw shell (add_parts [lit "--header"; rendered] p d)
  end.

Record CurlSession := {
  cs_method : str; cs_url : str; cs_headers : list HeaderEntry; cs_http_version : str; cs_protocol : str;
  (** the stored body, [None] when the request had none *)
  cs_body : option BodyPage
}.

Definition kept_headers (s : CurlSession) : list HeaderEntry :=
  List.filter (fun h => negb (should_skip_header h)) (cs_headers s).

Definition flags (s : CurlSession) : list str :=
  (if existsb (fun h => eq_ignore_ascii_case (he_name h) (lit "accept-encoding")) (kept_headers s)
   then [lit "--compressed"] else [])
  ++ (if bool_decide (cs_http_version s = lit "2") || contains (to_ascii_lowercase (cs_protocol s)) (lit "http/2")
      then [lit "--http2"] else []).

(** The assembly of [export_session_as_curl], after the permission checks and the
    loading of the session. *)
Definition assemble (nonce : str) (s : CurlSession) (shell : CurlShell) (raw include_body read_bodies : bool)
    : option (result Draft str) :=
  match export_url (cs_url s) raw (new_placeholders nonce) with
  | None => None
  | Some (Err e) => Some (Err e)
  | Some (Ok (url, p)) =>
      rendered ← render_with_markers url shell p;
      d ← export_headers (cs_headers s) raw shell
            {| parts := [shell_command shell; lit "--request"; quote_literal shell (cs_method s); lit "--url"; rendered];
               placeholders := p; omitted := []; warnings := [] |};
      let d := add_parts (flags s) (placeholders d) d in
      d ← match cs_body s with
          | None => Some d
          | Some page =>
              if negb include_body then
                Some (add_omitted {| om_reason := lit "includeBody=false"; om_size := None |} [] d)
              else if negb read_bodies then
                Some (add_omitted {| om_reason := lit "readBodies permission is not granted"; om_size := None |}
                        [lit "Request body omitted because readBodies is disabled. Enable it to include textual bodies in the generated command."] d)
              else export_body page raw shell d
          end;
      Some (Ok d)
  end.

Definition command (d : Draft) : str := join 32 (parts d).

End Exporting.

(** ** A reader for shell words *)

(** The state while a word is read; [acc] is the value of the word so far. *)
Inductive Mode :=
  | Gap | Word (acc : str) | Single (acc : str) | Escaped (acc : str)
  | Double (acc : str) | Dollar (acc : str) | Name (acc name : str).

(** Characters without a meaning of their own outside quotes *)
Definition plain_byte (b : byte) : bool :=
  alnum b || bool_decide (b ∈ lit "-._/:=+,@%").

Definition finish_word (m : Mode) (words : list str) : option (list str) :=
  match m with
  | Gap => Some words
  | Word acc => Some (words ++ [acc])
  | _ => None
  end.

Definition shell_step (env : str → str) (m : Mode) (words : list str) (c : byte) : option (Mode * list str) :=
  if c =? 0 then None
  else
  match m with
  | Single acc => Some (if c =? 39 then Word acc else Single (acc ++ [c]), words)
  | Escaped acc => if c =? 10 then None else Some (Word (acc ++ [c]), words)
  | Double acc =>
      if c =? 34 then Some (Word acc, words)
      else if c =? chr "$" then Some (Dollar acc, words)
      else if (c =? chr "`") || (c =? 92) then None
      else Some (Double (acc ++ [c]), words)
  | Dollar acc => if c =? chr "{" then Some (Name acc [], words) else None
  | Name acc name =>
      if c =? chr "}" then
        if is_valid_env_name name then Some (Double (acc ++ env name), words) else None
      else Some (Name acc (name ++ [c]), words)
  | Gap | Word _ =>
      let acc := match m with Word acc => acc | _ => [] end in
      if c =? 32 then Some (Gap, match m with Word acc => words ++ [acc] | _ => words end)
      else if c =? 39 then Some (Single acc, words)
      else if c =? 34 then Some (Double acc, words)
      else if c =? 92 then Some (Escaped acc, words)
      else if plain_byte c then Some (Word (acc ++ [c]), words)
      else None
  end.

Fixpoint shell_read (env : str → str) (m : Mode) (words : list str) (s : str) : option (Mode * list str) :=
  match s with
  | [] => Some (m, words)
  | c :: s => '(m, words) ← shell_step env m words c; shell_read env m words s
  end.

(** The arguments of a command; [None] when it is more than a list of words. *)
Definition shell_words (env : str → str) (command : str) : option (list str) :=
  '(m, words) ← shell_read env Gap [] command; finish_word m words.

Example shell_words_sample :
  shell_words (fun _ => lit "s3cret") (lit "curl 'a b'" ++ [34] ++ lit "${X}" ++ [34] ++ lit " 'it'\''s'")
    = Some [lit "curl"; lit "a bs3cret"; lit "it's"].
Proof. reflexivity. Qed.

Example shell_words_injection : shell_words (fun _ => []) (lit "curl x;rm") = None.
Proof. reflexivity. Qed.

(** ** Reading what is quoted *)

Section Reading.
Context (env : str → str).

Lemma shell_read_app m ws a b :
  shell_read env m ws (a ++ b) = ('(m, ws) ← shell_read env m ws a; shell_read env m ws b).
Proof.
  revert m ws. induction a as [|c a IH]; intros m ws; [done|]. cbn [shell_read app].
  destruct (shell_step env m ws c) as [[m' ws']|]; [|done]. cbn [mbind option_bind]. apply IH.
Qed.

Definition acc_of (m : Mode) : option str :=
  match m with Gap => Some [] | Word acc => Some acc | _ => None end.

(** Between words or inside one, [s] adds the text [v] to the word. *)
Definition word_reads (s v : str) : Prop :=
  ∀ m acc ws, acc_of m = Some acc → shell_read env m ws s = Some (Word (acc ++ v), ws).

Lemma word_reads_app s t v w : word_reads s v → word_reads t w → word_reads (s ++ t) (v ++ w).
Proof.
  intros Hs Ht m acc ws Hm. rewrite shell_read_app, (Hs m acc) by done. cbn [mbind option_bind].
  rewrite (Ht _ (acc ++ v)) by done. by rewrite app_assoc.
Qed.

(** Characters that start a word or continue it *)
Lemma open_step m acc ws c :
  acc_of m = Some acc → c ≠ 0 → c ≠ 32 →
  shell_step env m ws c =
    if c =? 39 then Some (Single acc, ws) else if c =? 34 then Some (Double acc, ws)
    else if c =? 92 then Some (Escaped acc, ws)
    else if plain_byte c then Some (Word (acc ++ [c]), ws) else None.
Proof.
  intros Hm H0 H32. unfold shell_step. rewrite (proj2 (Z.eqb_neq c 0)), (proj2 (Z.eqb_neq c 32)) by done.
  destruct m; cbn in Hm; simplify_eq; done.
Qed.

Lemma read_single v acc ws :
  0 ∉ v →
  shell_read env (Single acc) ws (replace_quote [39; 92; 39; 39] v ++ [39]) = Some (Word (acc ++ v), ws).
Proof.
  revert acc. induction v as [|c v IH]; intros acc Hz; [by rewrite app_nil_r|].
  apply not_elem_of_cons in Hz as [Hc Hz]. cbn [replace_quote]. destruct (Z.eqb_spec c 39) as [->|Hne].
  - cbn [app shell_read shell_step Z.eqb Pos.eqb mbind option_bind]. rewrite IH by done. by rewrite <- app_assoc.
  - cbn [app shell_read]. unfold shell_step at 1. rewrite (proj2 (Z.eqb_neq c 0)), (proj2 (Z.eqb_neq c 39)) by done.
    cbn [mbind option_bind]. rewrite IH by done. by rewrite <- app_assoc.
Qed.

Lemma quote_reads v : 0 ∉ v → word_reads (quote_literal Posix v) v.
Proof.
  intros Hz m acc ws Hm. unfold quote_literal. cbn [app shell_read].
  rewrite (open_step m acc) by done. cbn [Z.eqb Pos.eqb mbind option_bind]. by apply read_single.
Qed.

Lemma read_name name acc n ws t :
  Forall (fun b => b ≠ 0 ∧ b ≠ 125) name →
  shell_read env (Name acc n) ws (name ++ t) = shell_read env (Name acc (n ++ name)) ws t.
Proof.
  revert n. induction name as [|c name IH]; intros n Hf; [by rewrite app_nil_r|].
  apply Forall_cons in Hf as [[H0 H125] Hf]. cbn [app shell_read]. unfold shell_step at 1.
  rewrite (proj2 (Z.eqb_neq c 0)) by done. change (chr "}") with 125. rewrite (proj2 (Z.eqb_neq c 125)) by done.
  cbn [mbind option_bind]. rewrite IH by done. by rewrite <- app_assoc.
Qed.

Lemma env_byte_range b : env_byte b = true → 48 <= b <= 95.
Proof. unfold env_byte, is_digit. rewrite !orb_true_iff, !andb_true_iff. lia. Qed.

Lemma env_reads name : is_valid_env_name name = true → word_reads (env_value Posix name) (env name).
Proof.
  intros Hn m acc ws Hm. change (env_value Posix name) with (34 :: 36 :: 123 :: name ++ [125; 34]). cbn [shell_read].
  rewrite (open_step m acc) by done. cbn [Z.eqb Pos.eqb mbind option_bind].
  change (shell_step env (Double acc) ws 36) with (Some (Dollar acc, ws)). cbn [mbind option_bind].
  change (shell_step env (Dollar acc) ws 123) with (Some (Name acc [], ws)). cbn [mbind option_bind].
  rewrite read_name; cbn [app].
  - cbn [shell_read].
    assert (shell_step env (Name acc name) ws 125 = Some (Double (acc ++ env name), ws)) as ->; [|done].
    change (shell_step env (Name acc name) ws 125)
      with (if is_valid_env_name name then Some (Double (acc ++ env name), ws) else None). by rewrite Hn.
  - apply andb_true_iff in Hn as [_ Hn]. rewrite List.forallb_forall in Hn. apply Forall_forall. intros b Hb.
    apply list_elem_of_In, Hn, env_byte_range in Hb. lia.
Qed.

Lemma plain_byte_safe b : plain_byte b = true → b ≠ 0 ∧ b ≠ 32 ∧ b ≠ 39 ∧ b ≠ 34 ∧ b ≠ 92.
Proof.
  unfold plain_byte, alnum, is_digit. rewrite !orb_true_iff, !andb_true_iff, bool_decide_eq_true.
  intros [H|H]; [lia|]. cbn in H. rewrite !elem_of_cons, elem_of_nil in H. cbn in H. lia.
Qed.

Lemma plain_reads w : w ≠ [] → forallb plain_byte w = true → word_reads w w.
Proof.
  intros Hne Hp m acc ws Hm. revert m acc Hm. induction w as [|c w IH]; [done|]. intros m acc Hm.
  apply andb_true_iff in Hp as [Hc Hp]. destruct (plain_byte_safe _ Hc) as (? & ? & ? & ? & ?).
  cbn [shell_read]. rewrite (open_step m acc) by done.
  rewrite !(proj2 (Z.eqb_neq _ _)), Hc by done. cbn [mbind option_bind].
  destruct w as [|d w]; [done|]. rewrite (IH ltac:(done) Hp _ (acc ++ [c])) by done. by rewrite <- app_assoc.
Qed.

(** A command is a list of arguments joined by spaces. *)
Lemma join_reads (args : list (str * str)) ws :
  Forall (fun a => word_reads a.1 a.2) args → args ≠ [] →
  ('(m, ws) ← shell_read env Gap ws (join 32 (map fst args)); finish_word m ws) = Some (ws ++ map snd args).
Proof.
  intros Hf Hne. revert ws. induction Hf as [|[s v] args Hs Hf IH]; [done|]. intros ws. cbn [map fst snd].
  destruct args as [|a args].
  - cbn [map join]. rewrite (Hs Gap []) by done. done.
  - change (join 32 (s :: map fst (a :: args))) with (s ++ 32 :: join 32 (map fst (a :: args))).
    rewrite shell_read_app, (Hs Gap []) by done. cbn [mbind option_bind shell_read].
    unfold shell_step at 1. cbn [Z.eqb Pos.eqb mbind option_bind app].
    setoid_rewrite (IH ltac:(done)). by rewrite <- app_assoc.
Qed.
End Reading.

(** ** Markers in a text *)

Definition marker_head : str := lit "__AIPROXY_ENV_".

(** Names that a marker can carry: no double underscore, none at the end. *)
Definition well_named (n : str) : Prop :=
  is_valid_env_name n = true ∧ contains n (lit "__") = false ∧ last n ≠ Some 95.

Definition hex_byte (b : byte) : bool := is_digit b || ((97 <=? b) && (b <=? 102)).

Lemma hex_byte_range b : hex_byte b = true → 48 <= b <= 57 ∨ 97 <= b <= 102.
Proof. unfold hex_byte, is_digit. rewrite orb_true_iff, !andb_true_iff. lia. Qed.

Lemma contains_false_app s p l r : contains s p = false → s ≠ l ++ p ++ r.
Proof. intros Hc ->. rewrite (proj2 (contains_spec _ _)) in Hc; [done|by exists l, r]. Qed.

(** The first occurrence, given that no earlier one is possible *)
Lemma find_first_occurrence l p t :
  (∀ k r, k ≠ [] → (∃ l', l = l' ++ k) → p ++ r ≠ k ++ p ++ t) → find (l ++ p ++ t) p = Some (length l).
Proof.
  intros Hno. destruct (find (l ++ p ++ t) p) as [i|] eqn:Hf.
  - apply find_Some in Hf as (l' & r & Heq & <- & Hmin). specialize (Hmin l t eq_refl). f_equal.
    destruct (decide (length l' = length l)) as [?|Hne]; [done|exfalso].
    apply app_eq_inv in Heq as [(k & Hl & Hk)|(k & Hl & Hk)].
    + destruct k as [|c k]; [by rewrite app_nil_r in Hl; subst|]. apply (Hno (c :: k) r); [done|by exists l'|done].
    + apply (f_equal length) in Hl. rewrite length_app in Hl. lia.
  - apply find_None with (l := l) (r := t) in Hf. done.
Qed.

Section Markers.
Context (nonce : str) (nonce_hex : forallb hex_byte nonce = true).

Definition prefix : str := lit "__AIPROXY_ENV_" ++ nonce ++ lit "_".

(** The nonce does not occur in the text. *)
Definition nonce_free (s : str) : Prop := contains s nonce = false.

Lemma nonce_ne s : nonce_free s → nonce ≠ [].
Proof. unfold nonce_free. intros Hs Hn. rewrite Hn in Hs. by apply (contains_false_app _ _ [] s Hs). Qed.

Lemma nonce_head s : nonce_free s → ∃ x n, nonce = x :: n ∧ x ≠ 95.
Proof.
  intros Hs. destruct nonce as [|x n] eqn:Hn; [by destruct (nonce_ne s Hs)|]. exists x, n. split; [done|].
  apply andb_true_iff in nonce_hex as [Hx _]. apply hex_byte_range in Hx. lia.
Qed.

Lemma nonce_no_underscore : 95 ∉ nonce.
Proof.
  intros H. rewrite List.forallb_forall in nonce_hex. apply list_elem_of_In, nonce_hex, hex_byte_range in H. lia.
Qed.

(** Only the marker itself starts with the prefix. *)
Lemma prefix_overlap l k r t :
  nonce_free l → k ≠ [] → (∃ l', l = l' ++ k) → prefix ++ r ≠ k ++ prefix ++ t.
Proof.
  intros Hl Hk [l' ->] Heq. destruct (nonce_head _ Hl) as (x & n & Hn & Hx).
  destruct (le_lt_dec (length (marker_head ++ nonce)) (length k)) as [Hge|Hlt].
  - assert (∃ k', k = marker_head ++ nonce ++ k') as [k' ->].
    { unfold prefix in Heq. fold marker_head in Heq. rewrite <- !app_assoc in Heq.
      rewrite app_assoc in Heq. apply app_eq_inv in Heq as [(k' & Hk' & _)|(k' & Hk' & _)].
      - rewrite Hk', length_app in Hge. destruct k' as [|]; [|simpl in Hge; lia].
        rewrite app_nil_r in Hk'. exists []. by rewrite app_nil_r.
      - exists k'. by rewrite app_assoc. }
    apply (contains_false_app _ _ (l' ++ marker_head) k' Hl). by rewrite <- !app_assoc.
  - (* the two underscores of the second prefix would lie inside the first *)
    assert ((prefix ++ r) !! length k = Some 95 ∧ (prefix ++ r) !! S (length k) = Some 95) as [H1 H2].
    { rewrite Heq. split; rewrite lookup_app_r by lia;
        [by rewrite Nat.sub_diag|by replace (S (length k) - length k)%nat with 1%nat by lia]. }
    unfold prefix in H1, H2. fold marker_head in H1, H2. rewrite <- app_assoc in H1, H2.
    destruct (le_lt_dec (length marker_head) (length k)) as [Hge|Hlt'].
    + rewrite lookup_app_r in H1 by done. rewrite length_app in Hlt. rewrite <- app_assoc, lookup_app_l in H1 by lia.
      apply nonce_no_underscore. by eapply list_elem_of_lookup_2.
    + rewrite Hn in H2. do 14 (destruct k as [|? k]; [try done; by cbn in H1, H2; simplify_eq|]).
      cbn in Hlt'. lia.
Qed.

Lemma find_prefix l t : nonce_free l → find (l ++ prefix ++ t) prefix = Some (length l).
Proof. intros Hl. apply find_first_occurrence. intros k r Hk Hl'. by eapply prefix_overlap. Qed.

Lemma find_no_prefix l : nonce_free l → find l prefix = None.
Proof.
  intros Hl. apply find_None. intros a b Heq. unfold prefix in Heq.
  apply (contains_false_app _ _ (a ++ lit "__AIPROXY_ENV_") (lit "_" ++ b) Hl). by rewrite Heq, <- !app_assoc.
Qed.

Lemma find_name_end n t : well_named n → find (n ++ lit "__" ++ t) (lit "__") = Some (length n).
Proof.
  intros (_ & Hc & Hlast). apply find_first_occurrence. intros k r Hk [n' ->] Heq.
  destruct k as [|c [|d k]]; [done| |].
  - cbn in Heq. simplify_eq. by rewrite last_snoc in Hlast.
  - cbn in Heq. simplify_eq. by apply (contains_false_app _ _ n' k Hc).
Qed.
(** A text as the export builds it: a literal, then markers each followed by a
    literal; what it stands for when the variables have their values; and how it
    is rendered. *)
Definition marked (l : str) (rest : list (str * str)) : str :=
  l ++ concat (map (fun nl => prefix ++ nl.1 ++ lit "__" ++ nl.2) rest).

Definition expanded (env : str → str) (l : str) (rest : list (str * str)) : str :=
  l ++ concat (map (fun nl => env nl.1 ++ nl.2) rest).

Definition literal_part (shell : CurlShell) (l : str) : str := if bool_decide (l = []) then [] else quote_literal shell l.

Definition rendering (shell : CurlShell) (l : str) (rest : list (str * str)) : str :=
  literal_part shell l ++ concat (map (fun nl => env_value shell nl.1 ++ literal_part shell nl.2) rest).

Definition generated (p : Placeholders) (l : str) (rest : list (str * str)) : Prop :=
  nonce_free l ∧
  Forall (fun nl => well_named nl.1 ∧ is_Some (by_name p !! nl.1) ∧ nonce_free nl.2) rest.

Section Render.
Context (p : Placeholders) (p_prefix : marker_prefix p = prefix) (shell : CurlShell).

Lemma next_marker_none value pre l :
  value = pre ++ l → nonce_free l → next_marker p value (length pre) = None.
Proof. intros -> Hl. unfold next_marker. by rewrite drop_app_length, p_prefix, find_no_prefix. Qed.

Lemma next_marker_some value pre l n t :
  value = pre ++ l ++ prefix ++ n ++ lit "__" ++ t → nonce_free l → well_named n → is_Some (by_name p !! n) →
  next_marker p value (length pre) =
    Some (length (pre ++ l), Some (n, length (pre ++ l ++ prefix ++ n ++ lit "__"))).
Proof.
  intros -> Hl Hn Hs. unfold next_marker. rewrite drop_app_length, p_prefix, find_prefix by done.
  rewrite <- length_app. do 2 f_equal.
  assert (pre ++ l ++ prefix ++ n ++ lit "__" ++ t = (pre ++ l ++ prefix) ++ n ++ lit "__" ++ t) as -> by by rewrite <- !app_assoc.
  rewrite <- length_app, <- app_assoc, drop_app_length, find_name_end by done.
  assert (slice (length (pre ++ l ++ prefix)) (length (pre ++ l ++ prefix) + length n)
            ((pre ++ l ++ prefix) ++ n ++ lit "__" ++ t) = n) as ->.
  { unfold slice. rewrite drop_app_length, (Nat.add_comm _ (length n)), Nat.add_sub. apply take_app_length. }
  unfold has_generated_marker. rewrite (proj1 Hn), bool_decide_eq_true_2 by done. cbn [andb].
  do 2 f_equal. rewrite !length_app. cbn [length lit map]. lia.
Qed.

Lemma render_marked rest : ∀ value pre l out fuel,
  value = pre ++ marked l rest → generated p l rest → (length rest < fuel)%nat →
  render_loop fuel shell p value (length pre) (length pre) out =
    Some (let out := out ++ rendering shell l rest in if bool_decide (out = []) then quote_literal shell [] else out).
Proof.
  induction rest as [|[n l'] rest IH]; intros value pre l out fuel Hv [Hl Hr] Hf;
    (destruct fuel as [|fuel]; [simpl in Hf; lia|]); cbn [render_loop].
  - unfold marked in Hv. cbn in Hv. rewrite app_nil_r in Hv. rewrite (next_marker_none value pre l) by done.
    rewrite Hv, drop_app_length, length_app. unfold rendering, literal_part. cbn [map concat]. rewrite app_nil_r.
    destruct l as [|c l].
    + rewrite (bool_decide_eq_true_2 (@nil Z = [])) by done. cbn [length].
      rewrite Nat.add_0_r, Nat.ltb_irrefl, app_nil_r. done.
    + rewrite (bool_decide_eq_false_2 (c :: l = [])) by done.
      destruct (Nat.ltb_spec (length pre) (length pre + length (c :: l))); [done|simpl in *; lia].
  - apply Forall_cons in Hr as [(Hn & Hs & Hl') Hr]. cbn [fst snd] in Hn, Hs, Hl'.
    set (pre' := pre ++ l ++ prefix ++ n ++ lit "__").
    assert (value = pre ++ l ++ prefix ++ n ++ lit "__" ++ marked l' rest) as Hv1.
    { rewrite Hv. unfold marked. cbn [map concat fst snd]. by rewrite <- !app_assoc. }
    rewrite (next_marker_some value pre l n (marked l' rest)) by done. fold pre'.
    rewrite (IH value pre' l') by (done || (unfold pre'; rewrite Hv1, <- !app_assoc; done) || (simpl in Hf; lia)).
    f_equal. unfold rendering. cbn [map concat fst snd].
    assert ((if (length pre <? length (pre ++ l))%nat
             then quote_literal shell (slice (length pre) (length (pre ++ l)) value) else []) = literal_part shell l) as ->.
    { unfold literal_part. rewrite length_app. case_bool_decide as Hne.
      - subst l. cbn [length]. by rewrite Nat.add_0_r, Nat.ltb_irrefl.
      - destruct (Nat.ltb_spec (length pre) (length pre + length l)); [|destruct l; [done|simpl in *; lia]].
        f_equal. rewrite Hv1. unfold slice. rewrite drop_app_length, (Nat.add_comm (length pre)), Nat.add_sub.
        apply take_app_length. }
    by rewrite <- !app_assoc.
Qed.

Lemma marked_count l rest : (length rest <= length (marked l rest))%nat.
Proof.
  unfold marked. rewrite length_app. induction rest as [|[n l'] rest IH]; [simpl; lia|]. cbn [map concat fst snd].
  assert (1 <= length prefix)%nat by (unfold prefix; rewrite length_app; cbn [length lit map]; lia).
  rewrite !length_app. cbn [length]. lia.
Qed.

Lemma render_with_markers_eq l rest :
  generated p l rest →
  render_with_markers (marked l rest) shell p =
    Some (if bool_decide (rendering shell l rest = []) then quote_literal shell [] else rendering shell l rest).
Proof.
  intros Hg. unfold render_with_markers. pose proof (marked_count l rest).
  apply (render_marked rest (marked l rest) [] l []); [done|done|lia].
Qed.
End Render.

Lemma env_value_ne shell n : env_value shell n ≠ [].
Proof. by destruct shell. Qed.

Lemma literal_reads env l : 0 ∉ l → l = [] ∧ literal_part Posix l = [] ∨ word_reads env (literal_part Posix l) l.
Proof. intros Hz. unfold literal_part. case_bool_decide; [by left|right; by apply quote_reads]. Qed.

Lemma rendering_reads env l rest :
  0 ∉ l → Forall (fun nl => is_valid_env_name nl.1 = true ∧ 0 ∉ nl.2) rest →
  l = [] ∧ rest = [] ∨ word_reads env (rendering Posix l rest) (expanded env l rest).
Proof.
  intros Hl Hr. unfold rendering, expanded.
  assert (rest = [] ∨ word_reads env (concat (map (fun nl => env_value Posix nl.1 ++ literal_part Posix nl.2) rest))
            (concat (map (fun nl => env nl.1 ++ nl.2) rest))) as Hrest.
  { induction Hr as [|[n l'] rest [Hn Hz] Hr IH]; [by left|right]. cbn [map concat fst snd] in *.
    assert (word_reads env (env_value Posix n ++ literal_part Posix l') (env n ++ l')) as Hhead.
    { destruct (literal_reads env l' Hz) as [[-> ->]|Hlit]; [rewrite !app_nil_r; by apply env_reads|].
      apply word_reads_app; [by apply env_reads|done]. }
    destruct IH as [->|IH]; [cbn [map concat]; by rewrite !app_nil_r|by apply word_reads_app]. }
  destruct (literal_reads env l Hl) as [[-> ->]|Hlit], Hrest as [->|Hrest].
  - by left.
  - right. done.
  - right. cbn [map concat]. by rewrite !app_nil_r.
  - right. by apply word_reads_app.
Qed.

(** An argument, as it is rendered for a POSIX shell, is one word with the value
    that was meant. *)
Lemma render_word env p l rest :
  marker_prefix p = prefix → generated p l rest → 0 ∉ l → Forall (fun nl => 0 ∉ nl.2) rest →
  ∃ s, render_with_markers (marked l rest) Posix p = Some s ∧ word_reads env s (expanded env l rest).
Proof.
  intros Hp Hg Hl Hz. rewrite (render_with_markers_eq p Hp Posix l rest Hg). eexists. split; [done|].
  destruct Hg as [_ Hg].
  destruct (rendering_reads env l rest Hl) as [[-> ->]|Hw].
  - rewrite Forall_forall in Hg, Hz |- *. intros nl Hn. destruct (Hg nl Hn) as ((? & _) & _). eauto.
  - apply quote_reads. set_solver.
  - case_bool_decide as Hn; [|done]. rewrite Hn in Hw. specialize (Hw Gap [] [] eq_refl). done.
Qed.
End Markers.

(** ** Names without a double underscore *)

Definition single (s : str) : Prop := contains s (lit "__") = false.

Lemma single_alt s : single s ↔ ∀ l r, s ≠ l ++ lit "__" ++ r.
Proof.
  unfold single. split; [intros Hs l r; by apply contains_false_app|]. intros Hno.
  destruct (contains s (lit "__")) eqn:Hc; [|done]. apply contains_spec in Hc as (l & r & Hl). by destruct (Hno l r).
Qed.

Lemma single_prefix s t : single (s ++ t) → single s.
Proof. rewrite !single_alt. intros Hs l r ->. apply (Hs l (r ++ t)). by rewrite <- !app_assoc. Qed.

Lemma single_suffix s t : single (s ++ t) → single t.
Proof. rewrite !single_alt. intros Hs l r ->. apply (Hs (s ++ l) r). by rewrite <- !app_assoc. Qed.

Lemma single_snoc s c : single s → c ≠ 95 ∨ last s ≠ Some 95 → single (s ++ [c]).
Proof.
  rewrite !single_alt. intros Hs Hc l r Heq. destruct r as [|x r _] using rev_ind.
  - rewrite app_nil_r in Heq. change (lit "__") with ([95] ++ [95]) in Heq. rewrite app_assoc in Heq.
    apply app_inj_tail in Heq as [-> ->]. rewrite last_snoc in Hc. naive_solver.
  - rewrite !app_assoc in Heq. apply app_inj_tail in Heq as [-> _]. apply (Hs l r). by rewrite <- app_assoc.
Qed.

Lemma single_app s t : single s → single t → head t ≠ Some 95 ∨ last s ≠ Some 95 → single (s ++ t).
Proof.
  revert s. induction t as [|c t IH]; intros s Hs Ht Hst; [by rewrite app_nil_r|].
  change (c :: t) with ([c] ++ t). rewrite app_assoc. apply IH.
  - apply single_snoc; [done|]. destruct Hst as [Hst|]; [left; cbn in Hst; congruence|by right].
  - by apply (single_suffix [c]).
  - rewrite last_snoc. destruct (decide (c = 95)) as [->|]; [left|right; congruence].
    intros Hh. destruct t as [|d t]; [done|]. cbn in Hh. simplify_eq.
    rewrite single_alt in Ht. by apply (Ht [] t).
Qed.

Lemma single_plain s : Forall (fun b => b ≠ 95) s → single s.
Proof.
  intros Hf. apply single_alt. intros l r ->. rewrite !Forall_app in Hf. destruct Hf as (_ & Hf & _).
  by apply Forall_cons in Hf as [? _].
Qed.

(** ** Segments *)

Lemma trim_end_prefix c s : ∃ t, s = trim_end_matches c s ++ t.
Proof.
  induction s as [|x s IH] using rev_ind; [by exists []|]. destruct (decide (x = c)) as [->|Hx].
  - rewrite trim_end_matches_same. destruct IH as [t IH]. exists (t ++ [c]). by rewrite app_assoc, <- IH.
  - rewrite trim_end_matches_other by done. exists []. by rewrite app_nil_r.
Qed.

Lemma trim_end_last c s : last (trim_end_matches c s) ≠ Some c.
Proof.
  induction s as [|x s IH] using rev_ind; [done|]. destruct (decide (x = c)) as [->|Hx].
  - by rewrite trim_end_matches_same.
  - rewrite trim_end_matches_other, last_snoc by done. congruence.
Qed.

Record segment_ok (s : str) : Prop := {
  seg_bytes : forallb env_byte s = true;
  seg_single : single s;
  seg_head : head s ≠ Some 95
}.

Lemma upper_env c : alnum c = true → env_byte (to_upper c) = true ∧ to_upper c ≠ 95.
Proof.
  unfold alnum, env_byte, to_upper, is_digit. rewrite !orb_true_iff, !andb_true_iff.
  destruct (Z.leb_spec 97 c), (Z.leb_spec c 122); cbn [andb]; rewrite ?orb_true_iff, ?andb_true_iff; lia.
Qed.

Lemma segment_snoc s c :
  segment_ok s → env_byte c = true → c ≠ 95 ∨ (s ≠ [] ∧ last s ≠ Some 95) → segment_ok (s ++ [c]).
Proof.
  intros [] Hb Hc. split.
  - rewrite forallb_app, seg_bytes0. cbn. by rewrite Hb.
  - apply single_snoc; [done|]. destruct Hc as [|[_ ?]]; auto.
  - destruct s as [|x s]; [|done]. destruct Hc as [Hc|[? _]]; [cbn; congruence|done].
Qed.

Lemma env_segment_loop_ok s : ∀ previous output,
  segment_ok output → (previous = false → last output ≠ Some 95) →
  segment_ok (env_segment_loop previous output s).
Proof.
  induction s as [|c s IH]; intros previous output Ho Hp; cbn [env_segment_loop]; [done|].
  destruct (alnum c) eqn:Ha.
  - destruct (upper_env c Ha) as [Hb Hu]. apply IH; [apply segment_snoc; auto|]. intros _. rewrite last_snoc. congruence.
  - destruct (negb previous && negb (bool_decide (output = []))) eqn:Hs; [|by apply IH].
    apply andb_true_iff in Hs as [Hprev Hne]. apply negb_true_iff in Hprev, Hne. apply bool_decide_eq_false in Hne.
    apply IH; [|done]. apply segment_snoc; [done|done|]. right. auto.
Qed.

Lemma env_segment_ok value :
  env_segment value ≠ [] ∧ segment_ok (env_segment value) ∧ last (env_segment value) ≠ Some 95.
Proof.
  unfold env_segment. set (out := env_segment_loop false [] value).
  assert (segment_ok out) as [] by by apply env_segment_loop_ok.
  destruct (trim_end_prefix 95 out) as [t Ht]. pose proof (trim_end_last 95 out) as Hl.
  case_bool_decide as Hn; [by split_and!; try done; split|]. split_and!; [done| |done]. split.
  - rewrite Ht, forallb_app in seg_bytes0. by apply andb_true_iff in seg_bytes0 as [? _].
  - rewrite Ht in seg_single0. by eapply single_prefix.
  - rewrite Ht in seg_head0. by destruct (trim_end_matches 95 out).
Qed.

(** The bases the export uses *)
Lemma well_named_app h s :
  well_named (h ++ lit "X") → segment_ok s → s ≠ [] → last s ≠ Some 95 → well_named (h ++ s).
Proof.
  intros (Hv & Hs & _) [] Hne Hl. unfold is_valid_env_name in Hv. rewrite forallb_app in Hv.
  apply andb_true_iff in Hv as [_ Hv]. apply andb_true_iff in Hv as [Hv _]. split_and!.
  - unfold is_valid_env_name. rewrite forallb_app, Hv, seg_bytes0, bool_decide_eq_false_2; [done|]. by destruct h, s.
  - apply single_app; [by eapply single_prefix|done|by left].
  - rewrite last_app. by destruct (last s) eqn:Hlast; [congruence|apply last_None in Hlast].
Qed.

(** ** Placeholders *)

Definition numbered (base : str) (k : Z) : str := base ++ lit "_" ++ show k.

Lemma numbered_inj base j k : 0 <= j → 0 <= k → numbered base j = numbered base k → j = k.
Proof. intros Hj Hk Heq. apply app_inv_head, app_inv_head in Heq. by apply show_inj. Qed.

Lemma numbered_fresh base k : base ≠ numbered base k.
Proof. intros Heq. apply (f_equal length) in Heq. unfold numbered in Heq. rewrite !length_app in Heq. cbn in Heq. lia. Qed.

Lemma numbered_named base k : 0 <= k → well_named base → well_named (numbered base k).
Proof.
  intros Hk (Hv & Hs & Hl). pose proof (show_digits k Hk) as Hd. unfold numbered, is_valid_env_name in *.
  assert (Forall (fun b => b ≠ 95) (show k)) as Hp.
  { eapply Forall_impl; [exact Hd|]. cbn. unfold is_digit. intros b. rewrite andb_true_iff. lia. }
  split_and!.
  - apply andb_true_iff in Hv as [_ Hv]. unfold is_valid_env_name. rewrite bool_decide_eq_false_2 by by destruct base.
    rewrite !forallb_app, Hv. cbn. apply List.forallb_forall. intros b Hb. apply list_elem_of_In in Hb.
    rewrite Forall_forall in Hd. unfold env_byte. rewrite (Hd b Hb). by rewrite orb_true_r.
  - apply single_app; [done| |by right]. apply single_app; [done|by apply single_plain|].
    left. destruct (show k) as [|x t] eqn:Hsk; [done|]. apply Forall_cons in Hp as [? _]. cbn. congruence.
  - rewrite !last_app. destruct (last (show k)) as [x|] eqn:Hx; [|by apply last_None, show_nonempty in Hx].
    apply last_Some_elem_of in Hx. rewrite Forall_forall in Hp. intros [= ->]. by apply (Hp 95).
Qed.

Section Registration.
Context (names : gmap str str) (base source : str).

(** The loop ends: the candidates are distinct and each one it passes is taken. *)
Lemma candidate_loop_total fuel : ∀ candidate suffix (seen : gset str),
  seen ⊆ dom names → (size (dom names) < size seen + fuel)%nat → 0 <= suffix → candidate ∉ seen →
  (∀ k, suffix <= k → (numbered base k ∉ seen) ∧ numbered base k ≠ candidate) →
  is_Some (candidate_loop fuel names base source candidate suffix).
Proof.
  induction fuel as [|fuel IH]; intros candidate suffix seen Hsub Hsize Hk Hc Hfut.
  - apply subseteq_size in Hsub. lia.
  - cbn [candidate_loop]. destruct (names !! candidate) as [existing|] eqn:Hn; [|done].
    case_bool_decide; [done|]. apply (IH _ _ (seen ∪ {[candidate]})); [| |lia| |].
    + apply elem_of_dom_2 in Hn. set_solver.
    + rewrite size_union by set_solver. rewrite size_singleton. lia.
    + destruct (Hfut suffix ltac:(lia)). fold (numbered base suffix). set_solver.
    + intros k Hk'. destruct (Hfut k ltac:(lia)). split; [set_solver|].
      intros Heq. apply numbered_inj in Heq; lia.
Qed.

Lemma candidate_loop_some fuel : ∀ candidate suffix name fresh,
  well_named base → well_named candidate → 0 <= suffix →
  candidate_loop fuel names base source candidate suffix = Some (name, fresh) →
  well_named name ∧ names !! name = (if fresh : bool then None else Some source).
Proof.
  induction fuel as [|fuel IH]; intros candidate suffix name fresh Hb Hc Hk; [done|]. cbn [candidate_loop].
  destruct (names !! candidate) as [existing|] eqn:Hn; [|by intros [= <- <-]].
  case_bool_decide as He; [intros [= <- <-]; by subst|]. apply IH; [done|by apply numbered_named|lia].
Qed.
End Registration.

Section Names.
Context (nonce : str).

Record names_ok (p : Placeholders) : Prop := {
  no_prefix : marker_prefix p = prefix nonce;
  no_named n s : by_name p !! n = Some s → well_named n;
  no_items n s : by_name p !! n = Some s ↔ {| ph_name := n; ph_source := s |} ∈ items p;
  no_unique : NoDup (map ph_name (items p))
}.

Lemma names_new : names_ok (new_placeholders nonce).
Proof. split; cbn; try done; [|constructor]. intros n s. rewrite lookup_empty. set_solver. Qed.

Lemma register_ok base source p :
  well_named base → names_ok p →
  ∃ name p', register base source p = Some (name, p') ∧ names_ok p' ∧ well_named name ∧
    by_name p' !! name = Some source ∧ by_name p ⊆ by_name p'.
Proof.
  intros Hb Hp. unfold register. rewrite (proj1 Hb).
  destruct (candidate_loop_total (by_name p) base source (S (size (by_name p))) base 2 ∅) as [[name fresh] Hl].
  - set_solver.
  - rewrite size_dom. lia.
  - lia.
  - set_solver.
  - intros k _. split; [set_solver|]. intros Heq. by apply (numbered_fresh base k).
  - rewrite Hl. cbn [mbind option_bind]. pose proof Hl as Hs. apply candidate_loop_some in Hs as [Hn Hlook]; [|done|done|lia].
    destruct fresh; eexists name, _; (split; [reflexivity|]); [|by split_and!].
    destruct Hp. split_and!; [|done|by cbn; rewrite lookup_insert_eq|by apply insert_subseteq].
    split; cbn; [done| | |].
    + intros n s. rewrite lookup_insert_Some. intros [[<- _]|[_ Hs]]; [done|by eapply no_named0].
    + intros n s. rewrite lookup_insert_Some, elem_of_app, list_elem_of_singleton, no_items0. split.
      * intros [[<- <-]|[_ ?]]; auto.
      * intros [Hin|[= -> ->]]; [|auto]. right. split; [|done]. intros <-. apply no_items0 in Hin. congruence.
    + rewrite map_app, NoDup_app. split_and!; [done| |repeat constructor; set_solver].
      intros n Hin. apply list_elem_of_fmap in Hin as ([n' s] & -> & Hin). apply no_items0 in Hin. cbn.
      rewrite list_elem_of_singleton. intros ->. congruence.
Qed.

Lemma marker_ok base source p :
  well_named base → names_ok p →
  ∃ name p', marker base source p = Some (prefix nonce ++ name ++ lit "__", p') ∧ names_ok p' ∧ well_named name ∧
    by_name p' !! name = Some source ∧ by_name p ⊆ by_name p'.
Proof.
  intros Hb Hp. destruct (register_ok base source p Hb Hp) as (name & p' & Hr & Hp' & Hn & Hs & Hsub).
  exists name, p'. unfold marker. rewrite Hr. cbn [mbind option_bind]. by rewrite (no_prefix _ Hp').
Qed.
End Names.

(** ** What an argument means

    [means p text value]: the text is made of literals and markers of [p], and
    stands for [value] when the variables have the values of [env]. *)

Section Means.
Context (nonce : str) (nonce_hex : forallb hex_byte nonce = true) (nonce_len : length nonce = 32%nat).
Context (env : str → str).

Definition clean (s : str) : Prop := nonce_free nonce s ∧ 0 ∉ s.

Definition means (p : Placeholders) (text value : str) : Prop :=
  ∃ l rest, text = marked nonce l rest ∧ generated nonce p l rest ∧ (0 ∉ l) ∧
    Forall (fun nl => 0 ∉ nl.2) rest ∧ value = expanded env l rest.

Lemma short_free s : (length s < 32)%nat → nonce_free nonce s.
Proof.
  intros Hl. unfold nonce_free. destruct (contains s nonce) eqn:Hc; [|done].
  apply contains_spec in Hc as (l & r & ->). rewrite !length_app in Hl. lia.
Qed.

Lemma nonce_free_sep a b c :
  nonce_free nonce a → nonce_free nonce b → hex_byte c = false → nonce_free nonce (a ++ c :: b).
Proof.
  intros Ha Hb Hc. unfold nonce_free. destruct (contains (a ++ c :: b) nonce) eqn:Hin; [exfalso|done].
  apply contains_spec in Hin as (l & r & Heq). rewrite List.forallb_forall in nonce_hex.
  apply app_eq_inv in Heq as [(k & -> & Hk)|(k & -> & Hk)].
  - apply app_eq_inv in Hk as [(k' & Hk1 & Hk2)|(k' & Hk1 & Hk2)].
    + destruct k' as [|x k']; cbn in Hk2.
      * rewrite app_nil_r in Hk1. apply (contains_false_app _ _ l [] Ha). by rewrite Hk1, app_nil_r.
      * simplify_eq. assert (hex_byte x = true) as Hx; [|congruence]. apply nonce_hex, list_elem_of_In.
        set_solver.
    + apply (contains_false_app _ _ l k' Ha). by rewrite Hk1.
  - destruct k as [|x k]; cbn in Hk.
    + destruct nonce as [|x n] eqn:Hn; [done|]. cbn in Hk. simplify_eq.
      assert (hex_byte x = true); [|congruence]. apply nonce_hex, list_elem_of_In. set_solver.
    + simplify_eq. by apply (contains_false_app _ _ k r Hb).
Qed.

Lemma marked_cons l n l1 rest :
  marked nonce l ((n, l1) :: rest) = l ++ prefix nonce ++ n ++ lit "__" ++ marked nonce l1 rest.
Proof. unfold marked. cbn [map concat fst snd]. by rewrite <- !app_assoc. Qed.

Lemma expanded_cons l n l1 rest : expanded env l ((n, l1) :: rest) = l ++ env n ++ expanded env l1 rest.
Proof. unfold expanded. cbn [map concat fst snd]. by rewrite <- !app_assoc. Qed.

Lemma means_lit p s : clean s → means p s s.
Proof.
  intros [Hf Hz]. exists s, []. unfold marked, expanded. cbn. rewrite !app_nil_r. by repeat split; try constructor.
Qed.

Lemma means_marker p n s :
  names_ok nonce p → by_name p !! n = Some s → means p (prefix nonce ++ n ++ lit "__") (env n).
Proof.
  intros Hp Hn. exists [], [(n, [])]. unfold marked, expanded. cbn [map concat fst snd app]. rewrite !app_nil_r.
  split_and!; try done; [|set_solver|repeat constructor; set_solver]. split; [apply short_free; simpl; lia|].
  constructor; [|constructor]. cbn. split_and!; [by eapply no_named|by eexists|apply short_free; simpl; lia].
Qed.

Lemma means_sep p a b x y c :
  means p a x → means p b y → hex_byte c = false → c ≠ 0 → means p (a ++ c :: b) (x ++ c :: y).
Proof.
  intros (l & rest & -> & Ha & Hz & Hzs & ->) (l2 & rest2 & -> & Hb & Hz2 & Hzs2 & ->) Hc H0.
  assert (∃ l' rest', marked nonce l rest ++ c :: marked nonce l2 rest2 = marked nonce l' rest' ∧
    generated nonce p l' rest' ∧ (0 ∉ l') ∧ Forall (fun nl => 0 ∉ nl.2) rest' ∧
    expanded env l rest ++ c :: expanded env l2 rest2 = expanded env l' rest') as (l' & rest' & -> & ? & ? & ? & ->);
    [|by exists l', rest'].
  revert l Ha Hz. induction Hzs as [|[n l1] rest Hn Hzs IH]; intros l [Hl Hr] Hz.
  - exists (l ++ c :: l2), rest2. destruct Hb as [Hl2 Hr2]. split_and!; try done.
    + unfold marked. cbn. by rewrite app_nil_r, <- app_assoc.
    + split; [by apply nonce_free_sep|done].
    + set_solver.
    + unfold expanded. cbn. by rewrite app_nil_r, <- app_assoc.
  - apply Forall_cons in Hr as [(Hw & Hs & Hl1) Hr]. cbn [fst snd] in *.
    destruct (IH l1) as (l' & rest' & Hm & Hg & Hz' & Hzs' & He); [done|done|].
    exists l, ((n, l') :: rest'). destruct Hg as [Hg1 Hg2]. split_and!; try done.
    + rewrite !marked_cons, <- Hm, <- !app_assoc. done.
    + split; [done|]. constructor; [done|done].
    + by constructor.
    + rewrite !expanded_cons, <- He, <- !app_assoc. done.
Qed.

Lemma means_cons p b y c : means p b y → hex_byte c = false → c ≠ 0 → means p (c :: b) (c :: y).
Proof.
  intros Hb Hc H0. apply (means_sep p [] b [] y c); try done. apply means_lit.
  split; [apply short_free; simpl; lia|set_solver].
Qed.

Lemma means_snoc p a x c : means p a x → hex_byte c = false → c ≠ 0 → means p (a ++ [c]) (x ++ [c]).
Proof.
  intros Ha Hc H0. apply (means_sep p a [] x [] c); try done. apply means_lit.
  split; [apply short_free; simpl; lia|set_solver].
Qed.

Lemma means_mono p p' t v : by_name p ⊆ by_name p' → means p t v → means p' t v.
Proof.
  intros Hsub (l & rest & -> & [Hl Hr] & Hz & Hzs & ->). exists l, rest. split_and!; try done. split; [done|].
  eapply Forall_impl; [exact Hr|]. cbn. intros nl (Hw & [s Hs] & Hf). split_and!; try done. exists s.
  by eapply lookup_weaken.
Qed.

Lemma means_render p t v :
  names_ok nonce p → means p t v → ∃ s, render_with_markers t Posix p = Some s ∧ word_reads env s v.
Proof.
  intros Hp (l & rest & -> & Hg & Hz & Hzs & ->). apply (render_word nonce nonce_hex); [by apply no_prefix|done|done|done].
Qed.

Lemma means_join p c ts vs :
  Forall2 (means p) ts vs → hex_byte c = false → c ≠ 0 → means p (join c ts) (join c vs).
Proof.
  intros Hf Hc H0. induction Hf as [|t v ts vs Ht Hf IH].
  - apply means_lit. split; [apply short_free; simpl; lia|set_solver].
  - inversion Hf; subst; cbn [join] in *; [done|]. by apply means_sep.
Qed.
End Means.
