(* ===== verification/CurlCommand.v ===== *)
(** * CurlCommand: the exported command as the shell sees it

    The specification of [Curl.assemble]: for every captured request, the argument
    list the shell hands to curl.  A visible value appears as captured, a hidden
    one as the value of an environment variable listed among the placeholders. *)

From S2P Require Import Prelude Str JsonPath Rewrite Redaction Curl.

(** ** The intended arguments *)

Section Arguments.
Context {number : Type} `{RedactionEnv number} `{CurlUrls} (self : Redactor).
Context (env : str → str).

(** [v] is the value of the variable listed for [source]. *)
Definition stands (p : Placeholders) (source v : str) : Prop :=
  ∃ n, {| ph_name := n; ph_source := source |} ∈ items p ∧ v = env n.

(** The argument for a named value: as shown, or a variable *)
Definition value_arg (p : Placeholders) (raw : bool) (name value shown source v : str) : Prop :=
  if raw || negb (is_hidden self name value) then v = shown else stands p source v.

Definition header_arg (p : Placeholders) (raw : bool) (h : HeaderEntry) (arg : str) : Prop :=
  ∃ v, arg = he_name h ++ lit ": " ++ v ∧
    value_arg p raw (he_name h) (he_value h) (he_value h) (lit "header:" ++ he_name h) v.

Definition pair_arg (p : Placeholders) (pair : str * str) (arg : str) : Prop :=
  ∃ v, arg = byte_serialize pair.1 ++ lit "=" ++ v ∧
    value_arg p false pair.1 pair.2 (byte_serialize pair.2) (lit "query:" ++ pair.1) v.

Definition headers_arg (p : Placeholders) (raw : bool) (s : CurlSession) (args : list str) : Prop :=
  ∃ vs, Forall2 (header_arg p raw) (kept_headers s) vs ∧ args = concat (map (fun v => [lit "--header"; v]) vs).

Definition url_arg (p : Placeholders) (raw : bool) (url arg : str) : Prop :=
  if raw then arg = url
  else ∃ pairs base, url_parse url = Ok (pairs, base) ∧
    match pairs with
    | [] => arg = url
    | _ => ∃ args, Forall2 (pair_arg p) pairs args ∧ arg = base ++ lit "?" ++ join (chr "&") args
    end.

(** The text of a JSON body: printed as JSON, a hidden place as a string with the
    value of its variable. *)
Inductive doc_arg (p : Placeholders) : str → value number → str → Prop :=
  | da_null path : doc_arg p path Null (lit "null")
  | da_bool path b : doc_arg p path (Bool b) (if b then lit "true" else lit "false")
  | da_number path n : doc_arg p path (Number n) (number_text n)
  | da_text path s : ro_value (redact_text self s) = s → doc_arg p path (String s) (quote s)
  | da_hidden path s v :
      ro_value (redact_text self s) ≠ s → stands p (lit "body:" ++ path) v →
      doc_arg p path (String s) (dq ++ v ++ dq)
  | da_array path items args :
      items_arg p path 0 items args → doc_arg p path (Array items) (lit "[" ++ join (chr ",") args ++ lit "]")
  | da_object path o args :
      fields_arg p path o args → doc_arg p path (Object o) (lit "{" ++ join (chr ",") args ++ lit "}")
with items_arg (p : Placeholders) : str → Z → list (value number) → list str → Prop :=
  | ia_nil path i : items_arg p path i [] []
  | ia_cons path i v items arg args :
      doc_arg p (path ++ lit "[" ++ show i ++ lit "]") v arg → items_arg p path (i + 1) items args →
      items_arg p path i (v :: items) (arg :: args)
with fields_arg (p : Placeholders) : str → list (str * value number) → list str → Prop :=
  | fa_nil path : fields_arg p path [] []
  | fa_shown path key v o arg args :
      is_sensitive_value_name self key = false → doc_arg p (path ++ lit "." ++ key) v arg → fields_arg p path o args →
      fields_arg p path ((key, v) :: o) ((quote key ++ lit ":" ++ arg) :: args)
  | fa_hidden path key v o w args :
      is_sensitive_value_name self key = true → stands p (lit "body:" ++ path ++ lit "." ++ key) w →
      fields_arg p path o args →
      fields_arg p path ((key, v) :: o) ((quote key ++ lit ":" ++ dq ++ w ++ dq) :: args).

Scheme doc_arg_mut := Induction for doc_arg Sort Prop
  with items_arg_mut := Induction for items_arg Sort Prop
  with fields_arg_mut := Induction for fields_arg Sort Prop.

Definition text_arg (p : Placeholders) (raw : bool) (text arg : str) : Prop :=
  if raw then arg = text
  else
    match from_str text with
    | Some v => doc_arg p (lit "$") v arg
    | None => if bool_decide (ro_value (redact_text self text) = text) then arg = text
              else stands p (lit "body:request") arg
    end.

(** The body is sent when it is wanted, permitted, small, text and not empty. *)
Definition sent_text (s : CurlSession) (include_body read_bodies : bool) : option str :=
  page ← cs_body s;
  if include_body && read_bodies && (page_decoded_size page <=? MAX_INLINE_BODY_BYTES) then
    text ← from_utf8 (page_bytes page);
    if bool_decide (text = []) then None else Some text
  else None.

Definition body_arg (p : Placeholders) (raw : bool) (sent : option str) (args : list str) : Prop :=
  match sent with
  | None => args = []
  | Some text => ∃ arg, args = [lit "--data-raw"; arg] ∧ text_arg p raw text arg
  end.
End Arguments.

(** ** The export produces them *)

Lemma comma_separated_join {V} (print : V → str) l : comma_separated print true l = join (chr ",") (map print l).
Proof.
  destruct l as [|v l]; [done|]. cbn [comma_separated map app]. revert v.
  induction l as [|w l IH]; intros v; [by cbn; rewrite app_nil_r|].
  cbn [comma_separated map join]. rewrite (IH w). done.
Qed.

Section Exact.
Context {number : Type} `{RedactionEnv number} `{CurlUrls} (self : Redactor).
Context (nonce : str) (nonce_hex : forallb hex_byte nonce = true) (nonce_len : length nonce = 32%nat).
Context (env : str → str).

(** Letters, digits and underscores *)
Definition word_byte (b : byte) : bool := alnum b || (b =? 95).

(** serde_json prints a string of such characters between quotes. *)
Context (quote_plain : ∀ s, forallb word_byte s = true → quote s = dq ++ s ++ dq).

Abbreviation names_ok := (names_ok nonce).
Abbreviation means := (means nonce env).
Abbreviation clean := (clean nonce).

Definition placed (p p' : Placeholders) : Prop := names_ok p' ∧ by_name p ⊆ by_name p'.

Lemma placed_refl p : names_ok p → placed p p.
Proof. by split. Qed.

Lemma placed_trans p q r : placed p q → placed q r → placed p r.
Proof. intros [_ ?] [? ?]. split; [done|]. by etrans. Qed.

Lemma stands_mono p p' source v : names_ok p → placed p p' → stands env p source v → stands env p' source v.
Proof.
  intros Hp [Hp' Hsub] (n & Hn & ->). exists n. split; [|done]. apply (no_items _ _ Hp'), (lookup_weaken _ _ _ _ (proj2 (no_items _ _ Hp _ _) Hn) Hsub).
Qed.

Lemma placed_means p p' t v : placed p p' → means p t v → means p' t v.
Proof. intros [_ ?]. by apply means_mono. Qed.

Lemma doc_arg_mono p p' : names_ok p → placed p p' →
  ∀ path v arg, doc_arg self env p path v arg → doc_arg self env p' path v arg.
Proof.
  intros Hp Hpp. apply (doc_arg_mut self env p
    (fun path v arg _ => doc_arg self env p' path v arg)
    (fun path i items args _ => items_arg self env p' path i items args)
    (fun path o args _ => fields_arg self env p' path o args)); intros; econstructor; solve [eauto using stands_mono].
Qed.

Lemma clean_infix a b c : clean (a ++ b ++ c) → clean b.
Proof.
  intros [Hf Hz]. split; [|set_solver]. unfold nonce_free in *. destruct (contains b nonce) eqn:Hb; [|done].
  apply contains_spec in Hb as (l & r & ->). exfalso. apply (contains_false_app _ _ (a ++ l) (r ++ c) Hf).
  by rewrite <- !app_assoc.
Qed.

Lemma clean_join c ts : clean (join c ts) → Forall clean ts.
Proof.
  induction ts as [|t ts IH]; [done|]. intros Hc. destruct ts as [|u ts].
  - by repeat constructor; destruct Hc.
  - cbn [join] in *. constructor; [by apply (clean_infix [] _ _ Hc)|]. apply IH.
    apply (clean_infix (t ++ [c]) _ []). by rewrite app_nil_r, <- app_assoc.
Qed.

Lemma word_env s : forallb env_byte s = true → forallb word_byte s = true.
Proof.
  rewrite !List.forallb_forall. intros Hs b Hb. specialize (Hs b Hb). unfold env_byte, word_byte, alnum in *.
  unfold is_digit in *. lia.
Qed.

Lemma word_hex s : forallb hex_byte s = true → forallb word_byte s = true.
Proof.
  rewrite !List.forallb_forall. intros Hs b Hb. specialize (Hs b Hb). unfold hex_byte, word_byte, alnum in *.
  unfold is_digit in *. lia.
Qed.

(** A marker stands for its variable, also inside a JSON string. *)
Lemma marker_means base source p :
  well_named base → names_ok p →
  ∃ m p' v, marker base source p = Some (m, p') ∧ placed p p' ∧ means p' m v ∧ stands env p' source v ∧
    quote m = dq ++ m ++ dq.
Proof.
  intros Hb Hp. destruct (marker_ok nonce base source p Hb Hp) as (n & p' & Hm & Hp' & Hn & Hs & Hsub).
  exists (prefix nonce ++ n ++ lit "__"), p', (env n). split_and!; try done.
  - by eapply means_marker.
  - exists n. split; [by apply (no_items _ _ Hp')|done].
  - apply quote_plain. unfold prefix. destruct Hn as (Hn & _ & _). apply andb_true_iff in Hn as [_ Hn].
    rewrite !forallb_app, (word_env n) by done. by rewrite (word_hex nonce) by done.
Qed.

Lemma named_header name : well_named (lit "AIPROXY_" ++ env_segment name).
Proof. destruct (env_segment_ok name) as (? & ? & ?). by apply well_named_app. Qed.

Lemma named_query name : well_named (lit "AIPROXY_QUERY_" ++ env_segment name).
Proof. destruct (env_segment_ok name) as (? & ? & ?). by apply well_named_app. Qed.

Lemma named_body name : well_named (lit "AIPROXY_BODY_" ++ env_segment name).
Proof. destruct (env_segment_ok name) as (? & ? & ?). by apply well_named_app. Qed.

(** *** JSON bodies *)

Definition doc_placed (path : str) (v : value number) (r : option (value number * Placeholders)) (p : Placeholders) : Prop :=
  ∃ w p' t, r = Some (w, p') ∧ placed p p' ∧ means p' (compact quote number_text w) t ∧ doc_arg self env p' path v t.

Definition places (v : value number) : Prop :=
  ∀ path p, names_ok p → clean (compact quote number_text v) → doc_placed path v (replace_json_placeholders self v path p) p.

Lemma items_placed path items : Forall places items →
  ∀ i p, names_ok p → Forall clean (map (compact quote number_text) items) →
  ∃ ws p' ts,
    place_items (fun index v p => replace_json_placeholders self v (path ++ index) p) i items p = Some (ws, p') ∧
    placed p p' ∧ Forall2 (means p') (map (compact quote number_text) ws) ts ∧ items_arg self env p' path i items ts.
Proof.
  induction 1 as [|v items Hv _ IH]; intros i p Hp Hc.
  - exists [], p, []. split_and!; [done|by apply placed_refl|constructor|constructor].
  - cbn [map] in Hc. apply Forall_cons in Hc as [Hcv Hc]. cbn [place_items].
    destruct (Hv (path ++ lit "[" ++ show i ++ lit "]") p Hp Hcv) as (w & p1 & t & -> & H1 & Hm & Hd).
    cbn [mbind option_bind]. destruct (IH (i + 1) p1 (proj1 H1) Hc) as (ws & p2 & ts & -> & H2 & Hms & Hds).
    exists (w :: ws), p2, (t :: ts). split_and!; [done|by eapply placed_trans| |].
    + constructor; [by eapply placed_means|done].
    + constructor; [|done]. by eapply doc_arg_mono; [apply H1| |].
Qed.

Lemma fields_placed path o : Forall (fun kv => places kv.2) o →
  ∀ p, names_ok p →
  Forall clean (map (fun kv => let '(key, v) := kv in quote key ++ lit ":" ++ compact quote number_text v) o) →
  ∃ ws p' ts,
    place_fields (fun key v p =>
      if is_sensitive_value_name self key then
        '(m, p) ← marker (lit "AIPROXY_BODY_" ++ env_segment key) (lit "body:" ++ path ++ lit "." ++ key) p;
        Some (String m, p)
      else replace_json_placeholders self v (path ++ lit "." ++ key) p) o p = Some (ws, p') ∧
    placed p p' ∧
    Forall2 (means p') (map (fun kv => let '(key, v) := kv in quote key ++ lit ":" ++ compact quote number_text v) ws) ts ∧
    fields_arg self env p' path o ts.
Proof.
  induction 1 as [|[key v] o Hv _ IH]; intros p Hp Hc.
  - exists [], p, []. split_and!; [done|by apply placed_refl|constructor|constructor].
  - cbn [map snd] in *. apply Forall_cons in Hc as [Hcv Hc]. cbn [place_fields].
    assert (clean (quote key)) as Hkey by exact (clean_infix [] _ _ Hcv).
    assert (clean (compact quote number_text v)) as Hval.
    { apply (clean_infix (quote key ++ lit ":") _ []). by rewrite app_nil_r, <- app_assoc. }
    assert (∀ q t u, means q t u → means q (quote key ++ lit ":" ++ t) (quote key ++ lit ":" ++ u)) as Hfield.
    { intros q t u Ht. apply means_sep; try done. by apply means_lit. }
    destruct (is_sensitive_value_name self key) eqn:Hs.
    + destruct (marker_means (lit "AIPROXY_BODY_" ++ env_segment key) (lit "body:" ++ path ++ lit "." ++ key) p)
        as (m & p1 & w & -> & H1 & Hm & Hst & Hq); [apply named_body|done|]. cbn [mbind option_bind].
      destruct (IH p1 (proj1 H1) Hc) as (ws & p2 & ts & -> & H2 & Hms & Hds).
      exists ((key, String m) :: ws), p2, ((quote key ++ lit ":" ++ dq ++ w ++ dq) :: ts).
      split_and!; [done|by eapply placed_trans| |].
      * constructor; [|done]. apply Hfield. cbn [compact]. rewrite Hq. apply means_cons; try done.
        apply means_snoc; try done. by eapply placed_means.
      * apply fa_hidden; [done| |done]. by eapply stands_mono; [apply H1| |].
    + destruct (Hv (path ++ lit "." ++ key) p Hp Hval) as (w & p1 & t & -> & H1 & Hm & Hd).
      cbn [mbind option_bind]. destruct (IH p1 (proj1 H1) Hc) as (ws & p2 & ts & -> & H2 & Hms & Hds).
      exists ((key, w) :: ws), p2, ((quote key ++ lit ":" ++ t) :: ts).
      split_and!; [done|by eapply placed_trans| |].
      * constructor; [|done]. apply Hfield. by eapply placed_means.
      * apply fa_shown; [done| |done]. by eapply doc_arg_mono; [apply H1| |].
Qed.

(** Brackets around a list of parts *)
Lemma means_wrap p o c ts vs :
  Forall2 (means p) ts vs → hex_byte o = false → o ≠ 0 → hex_byte c = false → c ≠ 0 →
  means p ([o] ++ join (chr ",") ts ++ [c]) ([o] ++ join (chr ",") vs ++ [c]).
Proof. intros. apply means_cons; try done. apply means_snoc; try done. by apply means_join. Qed.

Lemma replace_places v : places v.
Proof.
  induction v as [|b|n|s|items IH|o IH] using value_ind'; intros path p Hp Hc; cbn [replace_json_placeholders].
  - exists Null, p, (lit "null"). split_and!; [done|by apply placed_refl|by apply means_lit|constructor].
  - exists (Bool b), p, (if b then lit "true" else lit "false").
    split_and!; [done|by apply placed_refl|by apply means_lit|constructor].
  - exists (Number n), p, (number_text n). split_and!; [done|by apply placed_refl|by apply means_lit|constructor].
  - case_bool_decide as Hs.
    + exists (String s), p, (quote s). split_and!; [done|by apply placed_refl|by apply means_lit|by constructor].
    + destruct (marker_means (lit "AIPROXY_BODY_VALUE") (lit "body:" ++ path) p) as (m & p1 & w & -> & H1 & Hm & Hst & Hq);
        [done|done|]. cbn [mbind option_bind]. exists (String m), p1, (dq ++ w ++ dq). split_and!; [done|done| |by constructor].
      cbn [compact]. rewrite Hq. apply means_cons; try done. by apply means_snoc.
  - cbn [compact] in Hc. apply clean_infix in Hc. rewrite comma_separated_join in Hc. apply clean_join in Hc.
    destruct (items_placed path items IH 0 p Hp Hc) as (ws & p1 & ts & -> & H1 & Hm & Hd). cbn [mbind option_bind].
    exists (Array ws), p1, (lit "[" ++ join (chr ",") ts ++ lit "]"). split_and!; [done|done| |by constructor].
    cbn [compact]. rewrite comma_separated_join. by apply means_wrap.
  - cbn [compact] in Hc. apply clean_infix in Hc. rewrite comma_separated_join in Hc. apply clean_join in Hc.
    destruct (fields_placed path o IH p Hp Hc) as (ws & p1 & ts & -> & H1 & Hm & Hd). cbn [mbind option_bind].
    exists (Object ws), p1, (lit "{" ++ join (chr ",") ts ++ lit "}"). split_and!; [done|done| |by constructor].
    cbn [compact]. rewrite comma_separated_join. by apply means_wrap.
Qed.

(** *** URLs, headers and text bodies *)

Lemma hidden_arg (raw : bool) name value shown base source p :
  names_ok p → clean shown → well_named base →
  ∃ t p' v, (if raw then Some (shown, p) else if is_hidden self name value then marker base source p else Some (shown, p))
      = Some (t, p') ∧
    placed p p' ∧ means p' t v ∧ value_arg self env p' raw name value shown source v.
Proof.
  intros Hp Hc Hb. unfold value_arg. destruct raw; cbn [orb].
  - exists shown, p, shown. split_and!; [done|by apply placed_refl|by apply means_lit|done].
  - destruct (is_hidden self name value); cbn [negb].
    + destruct (marker_means base source p Hb Hp) as (m & p1 & w & -> & H1 & Hm & Hst & _). by exists m, p1, w.
    + exists shown, p, shown. split_and!; [done|by apply placed_refl|by apply means_lit|done].
Qed.

Lemma value_arg_mono p p' raw name value shown source v :
  names_ok p → placed p p' → value_arg self env p raw name value shown source v →
  value_arg self env p' raw name value shown source v.
Proof. intros Hp Hpp. unfold value_arg. destruct (raw || _); [done|]. by apply stands_mono. Qed.

Lemma pair_arg_mono p p' pair arg : names_ok p → placed p p' → pair_arg self env p pair arg → pair_arg self env p' pair arg.
Proof. intros Hp Hpp (v & -> & Hv). exists v. split; [done|]. by eapply value_arg_mono. Qed.

Lemma pairs_exported pairs : ∀ p,
  names_ok p → Forall (fun kv => clean (byte_serialize kv.1) ∧ clean (byte_serialize kv.2)) pairs →
  ∃ ts p' vs, export_pairs self pairs p = Some (ts, p') ∧ placed p p' ∧ Forall2 (means p') ts vs ∧
    Forall2 (pair_arg self env p') pairs vs.
Proof.
  induction pairs as [|[name value] pairs IH]; intros p Hp Hc; cbn [export_pairs].
  - exists [], p, []. split_and!; [done|by apply placed_refl|constructor|constructor].
  - apply Forall_cons in Hc as [[Hcn Hcv] Hc]. cbn [fst snd] in *.
    destruct (hidden_arg false name value (byte_serialize value) (lit "AIPROXY_QUERY_" ++ env_segment name)
                (lit "query:" ++ name) p Hp Hcv (named_query name)) as (t & p1 & v & -> & H1 & Hm & Hv).
    cbn [mbind option_bind]. destruct (IH p1 (proj1 H1) Hc) as (ts & p2 & vs & -> & H2 & Hms & Hvs).
    exists ((byte_serialize name ++ lit "=" ++ t) :: ts), p2, ((byte_serialize name ++ lit "=" ++ v) :: vs).
    split_and!; [done|by eapply placed_trans| |].
    + constructor; [|done]. apply means_sep; try done; [by apply means_lit|by eapply placed_means].
    + constructor; [|done]. exists v. split; [done|]. by eapply value_arg_mono; [apply H1| |].
Qed.

(** What is captured is free of the nonce and of NUL. *)
Definition url_clean (url : str) : Prop :=
  clean url ∧ ∀ pairs base, url_parse url = Ok (pairs, base) →
    clean base ∧ Forall (fun kv => clean (byte_serialize kv.1) ∧ clean (byte_serialize kv.2)) pairs.

Lemma url_exported url raw p :
  names_ok p → url_clean url →
  match export_url self url raw p with
  | None => False
  | Some (Err _) => raw = false ∧ ∃ e, url_parse url = Err e
  | Some (Ok (t, p')) => placed p p' ∧ ∃ v, means p' t v ∧ url_arg self env p' raw url v
  end.
Proof.
  intros Hp [Hc Hcp]. unfold export_url, url_arg. destruct raw.
  - split; [by apply placed_refl|]. exists url. split; [by apply means_lit|done].
  - destruct (url_parse url) as [[pairs base]|e] eqn:Hu; [|by split; [|eexists]].
    destruct (Hcp _ _ eq_refl) as [Hb Hps]. destruct pairs as [|pair pairs].
    + split; [by apply placed_refl|]. exists url. split; [by apply means_lit|]. by exists [], base.
    + destruct (pairs_exported (pair :: pairs) p Hp Hps) as (ts & p1 & vs & -> & H1 & Hms & Hvs). cbn [mbind option_bind].
      split; [done|]. exists (base ++ lit "?" ++ join (chr "&") vs). split.
      * apply means_sep; try done; [by apply means_lit|by apply means_join].
      * exists (pair :: pairs), base. split; [done|]. by exists vs.
Qed.

Definition text_clean (text : str) : Prop := clean text ∧ ∀ v, from_str text = Some v → clean (to_string v).

Lemma text_exported text raw p :
  names_ok p → text_clean text →
  ∃ t p' v, body_text self text raw p = Some (t, p') ∧ placed p p' ∧ means p' t v ∧ text_arg self env p' raw text v.
Proof.
  intros Hp [Hc Hcv]. unfold body_text, text_arg. destruct raw.
  - exists text, p, text. split_and!; [done|by apply placed_refl|by apply means_lit|done].
  - destruct (from_str text) as [v|] eqn:Hv.
    + specialize (Hcv v eq_refl). rewrite to_string_compact in Hcv.
      destruct (replace_places v (lit "$") p Hp Hcv) as (w & p1 & t & -> & H1 & Hm & Hd). cbn [mbind option_bind].
      exists (to_string w), p1, t. rewrite to_string_compact. by split_and!.
    + case_bool_decide as Ht.
      * exists text, p, text. split_and!; [done|by apply placed_refl|by apply means_lit|done].
      * destruct (marker_means (lit "AIPROXY_BODY") (lit "body:request") p) as (m & p1 & w & -> & H1 & Hm & Hst & _);
          [done|done|]. by exists m, p1, w.
Qed.

(** *** The command *)

Definition reads (d : Draft) (args : list str) : Prop :=
  names_ok (placeholders d) ∧ Forall2 (word_reads env) (parts d) args.

Lemma reads_parts d args more vs p' :
  reads d args → placed (placeholders d) p' → Forall2 (word_reads env) more vs →
  reads (add_parts more p' d) (args ++ vs).
Proof. intros [Hp Hf] [Hp' _] Hm. split; [done|]. by apply Forall2_app. Qed.

Lemma header_arg_mono p p' raw h v : names_ok p → placed p p' → header_arg self env p raw h v → header_arg self env p' raw h v.
Proof. intros Hp Hpp (w & -> & Hw). exists w. split; [done|]. by eapply value_arg_mono. Qed.

Definition header_clean (h : HeaderEntry) : Prop := clean (he_name h) ∧ clean (he_value h).

(** A named value in an option with one argument *)
Lemma option_arg d args option_name t v p' :
  reads d args → placed (placeholders d) p' → means p' t v → option_name ≠ [] → forallb plain_byte option_name = true →
  ∃ rendered, render_with_markers t Posix p' = Some rendered ∧
    reads (add_parts [option_name; rendered] p' d) (args ++ [option_name; v]).
Proof.
  intros Hd Hp Hm Hn Hb. destruct (means_render nonce nonce_hex env p' t v (proj1 Hp) Hm) as (r & Hr & Hw).
  exists r. split; [done|]. apply reads_parts; [done|done|]. repeat constructor; [by apply plain_reads|done].
Qed.

Lemma headers_exported raw headers : ∀ d args,
  reads d args → Forall header_clean headers →
  ∃ d' vs, export_headers self headers raw Posix d = Some d' ∧ placed (placeholders d) (placeholders d') ∧
    Forall2 (header_arg self env (placeholders d') raw) (List.filter (fun h => negb (should_skip_header h)) headers) vs ∧
    reads d' (args ++ concat (map (fun v => [lit "--header"; v]) vs)).
Proof.
  induction headers as [|h headers IH]; intros d args Hd Hc; cbn [export_headers List.filter].
  - exists d, []. cbn. rewrite app_nil_r. split_and!; [done|by apply placed_refl, Hd|constructor|done].
  - apply Forall_cons in Hc as [[Hcn Hcv] Hc]. destruct (should_skip_header h); cbn [negb]; [by apply IH|].
    destruct (hidden_arg raw (he_name h) (he_value h) (he_value h) (lit "AIPROXY_" ++ env_segment (he_name h))
                (lit "header:" ++ he_name h) (placeholders d) (proj1 Hd) Hcv (named_header _)) as (t & p1 & v & Hex & H1 & Hm & Hv).
    unfold export_header_value. rewrite Hex. cbn [mbind option_bind].
    assert (means p1 (he_name h ++ lit ": " ++ t) (he_name h ++ lit ": " ++ v)) as Hm'.
    { apply means_sep; try done; [by apply means_lit|]. by apply means_cons. }
    destruct (option_arg d args (lit "--header") _ _ p1 Hd H1 Hm') as (r & -> & Hd1); [done|done|]. cbn [mbind option_bind].
    destruct (IH _ _ Hd1 Hc) as (d2 & vs & -> & H2 & Hvs & Hd2). cbn [placeholders add_parts] in H2.
    exists d2, ((he_name h ++ lit ": " ++ v) :: vs). split_and!; [done|by eapply placed_trans| |].
    + constructor; [|done]. apply (header_arg_mono p1); [apply H1|done|]. by exists v.
    + cbn [map concat]. by rewrite app_assoc.
Qed.

Definition session_clean (s : CurlSession) : Prop :=
  clean (cs_method s) ∧ url_clean (cs_url s) ∧ Forall header_clean (cs_headers s) ∧
  ∀ page text, cs_body s = Some page → from_utf8 (page_bytes page) = Some text → text_clean text.

Lemma body_exported s page raw d args :
  reads d args → cs_body s = Some page → session_clean s →
  ∃ d' vs, export_body self page raw Posix d = Some d' ∧ placed (placeholders d) (placeholders d') ∧
    reads d' (args ++ vs) ∧ body_arg self env (placeholders d') raw (sent_text s true true) vs.
Proof.
  intros Hd Hpage (_ & _ & _ & Hc). specialize (Hc page). unfold export_body, sent_text. rewrite Hpage.
  cbn [mbind option_bind andb]. rewrite Z.ltb_antisym. destruct (page_decoded_size page <=? MAX_INLINE_BODY_BYTES); cbn [negb].
  - destruct (from_utf8 (page_bytes page)) as [text|] eqn:Htext; cbn [mbind option_bind].
    + specialize (Hc text Hpage eq_refl). destruct text as [|c text]; [by exists d, []; rewrite app_nil_r; split_and!; [|apply placed_refl, Hd| |]|].
      rewrite bool_decide_eq_false_2 by done.
      destruct (text_exported (c :: text) raw (placeholders d) (proj1 Hd) Hc) as (t & p1 & v & -> & H1 & Hm & Hv).
      cbn [mbind option_bind]. destruct (option_arg d args (lit "--data-raw") _ _ p1 Hd H1 Hm) as (r & -> & Hd1); [done|done|].
      cbn [mbind option_bind]. eexists _, _. split; [reflexivity|].
      destruct (negb raw && _); (split_and!; [done|exact Hd1|by exists v]).
    + eexists _, []. rewrite app_nil_r. split; [reflexivity|]. split_and!; [apply placed_refl, Hd|done|done].
  - eexists _, []. rewrite app_nil_r. split; [reflexivity|]. split_and!; [apply placed_refl, Hd|done|done].
Qed.

Lemma url_arg_mono p p' raw url arg : names_ok p → placed p p' → url_arg self env p raw url arg → url_arg self env p' raw url arg.
Proof.
  intros Hp Hpp. unfold url_arg. destruct raw; [done|]. intros (pairs & base & Hu & Ha). exists pairs, base. split; [done|].
  destruct pairs; [done|]. destruct Ha as (args & Hf & ->). exists args. split; [|done].
  eapply Forall2_impl; [exact Hf|]. intros ??. by apply pair_arg_mono.
Qed.

Lemma headers_arg_mono p p' raw s args :
  names_ok p → placed p p' → headers_arg self env p raw s args → headers_arg self env p' raw s args.
Proof.
  intros Hp Hpp (vs & Hf & ->). exists vs. split; [|done]. eapply Forall2_impl; [exact Hf|].
  intros ??. by apply header_arg_mono.
Qed.

Lemma flags_read s : Forall2 (word_reads env) (flags s) (flags s).
Proof.
  apply Forall_Forall2_diag. unfold flags. apply Forall_app. split.
  all: match goal with |- context [if ?b then _ else _] => destruct b end; repeat constructor; by apply plain_reads.
Qed.

Lemma command_words d args : reads d args → args ≠ [] → shell_words env (command d) = Some args.
Proof.
  intros [_ Hf] Hne. pose proof (Forall2_length _ _ _ Hf) as Hl.
  assert (Forall (fun a => word_reads env a.1 a.2) (zip (parts d) args)) as Hz.
  { clear Hl Hne. induction Hf; constructor; done. }
  pose proof (join_reads env (zip (parts d) args) [] Hz) as Hj.
  rewrite fst_zip in Hj by lia. rewrite snd_zip in Hj by lia. apply Hj.
  destruct args, (parts d); done.
Qed.

(** The body part of the command, with the reasons for which it is left out *)
Lemma body_part s raw include_body read_bodies d args :
  reads d args → session_clean s →
  ∃ d' vs,
    match cs_body s with
    | None => Some d
    | Some page =>
        if negb include_body then
          Some (add_omitted {| om_reason := lit "includeBody=false"; om_size := None |} [] d)
        else if negb read_bodies then
          Some (add_omitted {| om_reason := lit "readBodies permission is not granted"; om_size := None |}
                  [lit "Request body omitted because readBodies is disabled. Enable it to include textual bodies in the generated command."] d)
        else export_body self page raw Posix d
    end = Some d' ∧ placed (placeholders d) (placeholders d') ∧ reads d' (args ++ vs) ∧
    body_arg self env (placeholders d') raw (sent_text s include_body read_bodies) vs.
Proof.
  intros Hd Hc. pose proof (placed_refl _ (proj1 Hd)) as Hr. destruct (cs_body s) as [page|] eqn:Hpage.
  - destruct include_body, read_bodies; cbn [negb]; [by eapply body_exported| | |];
      (eexists _, []; rewrite app_nil_r; split; [reflexivity|]; unfold sent_text; by rewrite Hpage).
  - exists d, []. rewrite app_nil_r. unfold sent_text. by rewrite Hpage.
Qed.

(** C11: for every captured request free of NUL and of the random nonce, the
    export does not panic and fails only on a URL that does not parse; a POSIX
    shell reads the command as exactly the arguments of one curl call: the method,
    the URL, the kept headers, the flags and the body, each visible value as
    captured and each hidden one as the value of a variable listed with its
    source; no two placeholders share a name. *)
Theorem export_command_exact s raw include_body read_bodies :
  session_clean s →
  match assemble self nonce s Posix raw include_body read_bodies with
  | None => False
  | Some (Err _) => raw = false ∧ ∃ e, url_parse (cs_url s) = Err e
  | Some (Ok d) =>
      ∃ url headers body,
        shell_words env (command d) =
          Some ([lit "curl"; lit "--request"; cs_method s; lit "--url"; url] ++ headers ++ flags s ++ body) ∧
        url_arg self env (placeholders d) raw (cs_url s) url ∧
        headers_arg self env (placeholders d) raw s headers ∧
        body_arg self env (placeholders d) raw (sent_text s include_body read_bodies) body ∧
        NoDup (map ph_name (items (placeholders d)))
  end.
Proof.
  intros Hc. pose proof Hc as (Hm & Hu & Hh & _). unfold assemble.
  pose proof (url_exported (cs_url s) raw (new_placeholders nonce) (names_new nonce) Hu) as Hurl.
  destruct (export_url self (cs_url s) raw _) as [[[t p1]|e]|]; [|done|done]. destruct Hurl as (H1 & u & Hmu & Hua).
  destruct (means_render nonce nonce_hex env p1 t u (proj1 H1) Hmu) as (r & -> & Hw). cbn [mbind option_bind].
  match goal with |- context [export_headers _ _ _ _ ?d] => set (d0 := d) end.
  assert (reads d0 [lit "curl"; lit "--request"; cs_method s; lit "--url"; u]) as Hd0.
  { split; [apply H1|]. repeat constructor; try by apply plain_reads. - apply quote_reads, Hm. - done. }
  destruct (headers_exported raw (cs_headers s) d0 _ Hd0 Hh) as (d1 & vs & -> & H2 & Hvs & Hd1). cbn [mbind option_bind].
  assert (reads (add_parts (flags s) (placeholders d1) d1)
            (([lit "curl"; lit "--request"; cs_method s; lit "--url"; u] ++ concat (map (fun v => [lit "--header"; v]) vs)) ++ flags s)) as Hd2.
  { apply reads_parts; [done|by apply placed_refl, Hd1|apply flags_read]. }
  destruct (body_part s raw include_body read_bodies _ _ Hd2 Hc) as (d3 & bs & -> & H3 & Hd3 & Hb). cbn [mbind option_bind].
  exists u, (concat (map (fun v => [lit "--header"; v]) vs)), bs. cbn [placeholders add_parts d0] in H2, H3. split_and!.
  - rewrite (command_words d3 _ Hd3) by done. by rewrite <- !app_assoc.
  - apply (url_arg_mono p1); [apply H1|by eapply placed_trans|done].
  - apply (headers_arg_mono (placeholders d1)); [apply Hd1|done|]. by exists vs.
  - done.
  - apply (no_unique _ _ (proj1 H3)).
Qed.
End Exact.

(** ** A sample request *)

Lemma sample_quote_plain s : forallb word_byte s = true → @quote Z sample_env s = dq ++ s ++ dq.
Proof.
  intros Hs. cbn. do 2 f_equal. unfold from_utf8_lossy. induction s as [|a s IH]; [done|].
  apply andb_true_iff in Hs as [Ha Hs]. cbn [length lossy]. unfold char_head.
  replace ((0 <=? a) && (a <=? 127)) with true.
  - change (a :: lossy (length s) s = a :: s). by rewrite (IH Hs).
  - symmetry. unfold word_byte, alnum, is_digit in Ha. lia.
Qed.

#[local] Instance sample_urls : CurlUrls :=
  {| url_parse _ := Ok ([(lit "q", lit "a b"); (lit "api_key", lit "k1")], lit "http://h/p");
     byte_serialize := map (fun b => if b =? 32 then chr "+" else b) |}.

Definition sample_nonce : str := lit "0123456789abcdef0123456789abcdef".

Definition sample_session : CurlSession :=
  {| cs_method := lit "POST"; cs_url := lit "http://h/p?q=a%20b&api_key=k1";
     cs_headers := [ {| he_name := lit "X-Note"; he_value := lit "it's $HOME `id`"; he_is_pseudo := None |};
                     {| he_name := lit "Authorization"; he_value := lit "Bearer t"; he_is_pseudo := None |} ];
     cs_http_version := lit "1.1"; cs_protocol := lit "http"; 
     cs_body := Some {| page_bytes := lit "a"; page_decoded_size := 1 |} |}.

#[local] Existing Instance sample_env.

Lemma clean_check s : contains s sample_nonce = false → existsb (Z.eqb 0) s = false → clean sample_nonce s.
Proof.
  intros Hf Hz. split; [done|]. intros Hin. apply not_true_iff_false in Hz. apply Hz, existsb_exists.
  exists 0. by split; [apply list_elem_of_In|].
Qed.

Lemma sample_clean : session_clean sample_nonce sample_session.
Proof.
  split_and!.
  - by apply clean_check; vm_compute.
  - split; [by apply clean_check; vm_compute|]. intros pairs base [= <- <-].
    repeat (split || constructor); apply clean_check; vm_compute; reflexivity.
  - repeat constructor; apply clean_check; vm_compute; reflexivity.
  - intros page text [= <-] Ht. vm_compute in Ht. simplify_eq.
    split; [by apply clean_check; vm_compute|]. intros v Hv. vm_compute in Hv. simplify_eq.
    apply clean_check; vm_compute; reflexivity.
Qed.

(** The arguments curl gets for the sample, with every variable set to [s3cret] *)
Example sample_words :
  match assemble sample_redactor sample_nonce sample_session Posix false true true with
  | Some (Ok d) => shell_words (fun _ => lit "s3cret") (command d)
  | _ => None
  end = Some ([lit "curl"; lit "--request"; lit "POST"; lit "--url"; lit "http://h/p?q=a+b&api_key=s3cret";
     lit "--header"; lit "X-Note: it's $HOME `id`"; lit "--header"; lit "Authorization: s3cret"; lit "--data-raw";
     lit "{" ++ dq ++ lit "user" ++ dq ++ lit ":" ++ dq ++ lit "ann" ++ dq ++ lit "," ++ dq ++ lit "Password" ++ dq
       ++ lit ":" ++ dq ++ lit "s3cret" ++ dq ++ lit "," ++ dq ++ lit "ids" ++ dq ++ lit ":[1,{" ++ dq ++ lit "userId"
       ++ dq ++ lit ":" ++ dq ++ lit "s3cret" ++ dq ++ lit "}]}"]).
Proof. vm_compute. reflexivity. Qed.

Lemma export_command_exact_witness :
  match assemble sample_redactor sample_nonce sample_session Posix false true true with
  | Some (Ok d) => ∃ args, shell_words (fun n => n) (command d) = Some (lit "curl" :: args)
  | _ => False
  end.
Proof.
  pose proof (export_command_exact sample_redactor sample_nonce eq_refl eq_refl (fun n => n) sample_quote_plain
                sample_session false true true sample_clean) as Hw.
  destruct (assemble sample_redactor sample_nonce sample_session Posix false true true) as [[d|e]|].
  - destruct Hw as (url & headers & body & Hw & _). eexists. exact Hw.
  - destruct Hw as [_ [e' He]]. discriminate He.
  - exact Hw.
Defined.
