(* ===== verification/AutomationPlan.v ===== *)
(** * AutomationPlan: plans of an agent and their validation

    Models the plan types (src/crates/agent-control/src/automation.rs) and the
    checks of src/apps/desktop/src-tauri/src/automation.rs that look at a plan
    alone: its shape, its assets and references, where a map rule may point, the
    hosts of patterns, redirect targets, and the rules built from a resource. *)

From S2P Require Import Prelude Str Patterns JsonPath RuleTypes RuleManagers RuleSelection HttpIo Rewrite MapRules.

(** ** Definitions: errors *)

Section Errors.
Context {number : Type}.

Record AutomationError := { ae_code : str; ae_message : str; ae_details : option (value number) }.

Definition error_new (code message : str) : AutomationError :=
  {| ae_code := code; ae_message := message; ae_details := None |}.

Definition with_details (e : AutomationError) (details : list (str * value number)) : AutomationError :=
  {| ae_code := ae_code e; ae_message := ae_message e; ae_details := Some (Object details) |}.

Definition internal (message : str) : AutomationError := error_new (lit "INTERNAL_ERROR") message.

Definition invalid (message : str) : AutomationError := error_new (lit "INVALID_ARGUMENT") message.
Definition unavailable (message : str) : AutomationError := error_new (lit "FEATURE_NOT_AVAILABLE") message.

Definition require (b : bool) (e : AutomationError) : result unit AutomationError :=
  if b then Ok tt else Err e.
End Errors.
Arguments AutomationError number : clear implicits.

(** ** Definitions: plans *)

Record AutomationRewriteMatch := {
  am_methods : list str; am_stage : str; am_url_pattern : str; am_match_type : option str
}.

Record AutomationRewriteResource {number : Type} := {
  ar_enabled : option bool; ar_name : str; ar_note : option str; ar_priority : Z;
  ar_match : AutomationRewriteMatch; ar_rewrite_type : option str;
  ar_actions : list (value number); ar_payload : value number
}.
Arguments AutomationRewriteResource number : clear implicits.

Record AutomationMapResource := {
  am_enabled : option bool; am_mode : str; am_name : str; am_note : option str;
  am_preserve_path : bool; am_preserve_query : bool; am_priority : Z; am_source_pattern : str;
  am_approved_path : option str; am_target_value : option str; am_managed_asset_ref : option str;
  am_map_match_type : option str
}.

Record AutomationAsset := {
  as_ref : str; as_file_name : str; as_content_base64 : str; as_content_type : option str
}.

Record AutomationUpsert {T : Type} := {
  up_id : option str; up_expected_version : option str; up_ref : option str; up_resource : T
}.
Arguments AutomationUpsert T : clear implicits.

Record AutomationUpserts {number : Type} := {
  us_rewrite : list (AutomationUpsert (AutomationRewriteResource number));
  us_map : list (AutomationUpsert AutomationMapResource);
  us_dns : list (value number); us_script : list (value number);
  us_throttle_profile : list (value number); us_throttle_rule : list (value number);
  us_breakpoint : list (value number)
}.
Arguments AutomationUpserts number : clear implicits.

Record AutomationDelete := { del_kind : str; del_id : str; del_expected_version : str }.

Record AutomationPlan {number : Type} := {
  pl_scope : str; pl_workspace_id : option str; pl_lifecycle : str; pl_ttl_seconds : option Z;
  pl_idempotency_key : str; pl_upserts : AutomationUpserts number; pl_deletes : list AutomationDelete;
  pl_activation : option (value number); pl_assets : list AutomationAsset
}.
Arguments AutomationPlan number : clear implicits.

Definition resource_count {number} (u : AutomationUpserts number) : Z :=
  len (us_rewrite u) + len (us_map u) + len (us_dns u) + len (us_script u) + len (us_throttle_profile u)
  + len (us_throttle_rule u) + len (us_breakpoint u).

Definition MAX_PLAN_ITEMS : Z := 100.
Definition MAX_PLAN_BYTES : Z := 3 * 1024 * 1024.
Definition MAX_ASSET_BYTES : Z := 5 * 1024 * 1024.
Definition MIN_IDEMPOTENCY_KEY_BYTES : Z := 16.
Definition MAX_IDEMPOTENCY_KEY_BYTES : Z := 128.

(** serde_json on the values used here, SHA-256 and base64 *)
Class AutomationCodec (number : Type) := {
  plan_value : AutomationPlan number → value number;
  plan_bytes : AutomationPlan number → bytes;
  value_text : value number → str;
  sha256_hex : bytes → str;
  asset_decode : str → result bytes str
}.

Section Plan.
Context {number : Type} `{AutomationCodec number} `{UrlOps} `{FileSystem}.

Abbreviation Result A := (result A (AutomationError number)).

Definition hash_json (v : value number) : str := sha256_hex (value_text v).

Definition is_some {A} (o : option A) : bool := match o with Some _ => true | None => false end.
Definition is_empty {A} (l : list A) : bool := match l with [] => true | _ => false end.
Definition is_blank (s : str) : bool := is_empty (trim s).

(** ** Definitions: the shape of a plan *)

(** The loops over the upserts that carry an id: no resource twice *)
Fixpoint record_upserts {T} (kind : str) (ups : list (AutomationUpsert T)) (seen : list (str * str))
    : Result (list (str * str)) :=
  match ups with
  | [] => Ok seen
  | u :: ups =>
      match up_id u with
      | None => record_upserts kind ups seen
      | Some id =>
          if bool_decide ((kind, id) ∈ seen) then
            Err (with_details (invalid (lit "plan contains duplicate " ++ kind ++ lit " update for resource " ++ id))
                   [(lit "kind", String kind); (lit "resourceId", String id)])
          else record_upserts kind ups ((kind, id) :: seen)
      end
  end.

Fixpoint check_deletes (dels : list AutomationDelete) (upserted seen : list (str * str)) : Result unit :=
  match dels with
  | [] => Ok tt
  | d :: dels =>
      let key := (del_kind d, del_id d) in
      let details := [(lit "kind", String (del_kind d)); (lit "resourceId", String (del_id d))] in
      if bool_decide (key ∈ seen) then
        Err (with_details
               (invalid (lit "plan contains duplicate " ++ del_kind d ++ lit " delete for resource " ++ del_id d)) details)
      else if bool_decide (key ∈ upserted) then
        Err (with_details
               (invalid (lit "plan cannot both update and delete " ++ del_kind d ++ lit " resource " ++ del_id d)) details)
      else check_deletes dels upserted (key :: seen)
  end.

Definition has_update {T} (ups : list (AutomationUpsert T)) : bool :=
  existsb (fun u => is_some (up_id u) || is_some (up_expected_version u)) ups.

Definition versioned {T} (ups : list (AutomationUpsert T)) : bool :=
  forallb (fun u => negb (is_some (up_id u)) || is_some (up_expected_version u)) ups.

Definition validate_plan_shape (plan : AutomationPlan number) : Result unit :=
  let ups := pl_upserts plan in
  let workspace := bool_decide (pl_scope plan = lit "workspace") in
  let ephemeral := bool_decide (pl_lifecycle plan = lit "ephemeral") in
  let? _ := require (workspace || bool_decide (pl_scope plan = lit "global"))
              (invalid (lit "scope must be workspace or global")) in
  let? _ := require (negb (workspace && match pl_workspace_id plan with None => true | Some w => is_blank w end))
              (invalid (lit "workspaceId is required when scope=workspace")) in
  let? _ := require (bool_decide (pl_lifecycle plan = lit "persistent") || ephemeral)
              (invalid (lit "lifecycle must be persistent or ephemeral")) in
  let ttl := default 600 (pl_ttl_seconds plan) in
  let? _ := require (negb ephemeral || ((60 <=? ttl) && (ttl <=? 3600)))
              (invalid (lit "ephemeral ttlSeconds must be between 60 and 3600")) in
  let key_len := len (pl_idempotency_key plan) in
  let? _ := require ((MIN_IDEMPOTENCY_KEY_BYTES <=? key_len) && (key_len <=? MAX_IDEMPOTENCY_KEY_BYTES))
              (invalid (lit "idempotencyKey must be 16-128 bytes")) in
  let total := resource_count ups + len (pl_deletes plan) in
  let? _ := require (negb ((total =? 0) || (MAX_PLAN_ITEMS <? total)))
              (invalid (lit "automation plans must contain 1-" ++ show MAX_PLAN_ITEMS ++ lit " changes")) in
  let? seen := record_upserts (lit "rewrite") (us_rewrite ups) [] in
  let? seen := record_upserts (lit "map") (us_map ups) seen in
  let? _ := check_deletes (pl_deletes plan) seen [] in
  let? _ := require (negb (is_some (pl_activation plan)))
              (unavailable (lit "Throttle activation is not available in this release")) in
  let? _ := require (is_empty (us_dns ups)) (unavailable (lit "DNS automation is not available in this release")) in
  let? _ := require (is_empty (us_script ups)) (unavailable (lit "Script automation is not available in this release")) in
  let? _ := require (is_empty (us_throttle_profile ups) && is_empty (us_throttle_rule ups))
              (unavailable (lit "Throttle automation is not available in this release")) in
  let? _ := require (is_empty (us_breakpoint ups)) (unavailable (lit "Breakpoint writes are not available in this release")) in
  let? _ := require workspace (unavailable (lit "global automation is not available in this release")) in
  let? _ := require (negb (ephemeral && (has_update (us_rewrite ups) || has_update (us_map ups)
                                         || negb (is_empty (pl_deletes plan)))))
              (invalid (lit "ephemeral plans may only create new resources")) in
  let? _ := require (len (plan_bytes plan) <=? MAX_PLAN_BYTES) (invalid (lit "automation plan exceeds 3 MiB")) in
  let? _ := require (versioned (us_rewrite ups)) (invalid (lit "updates require expectedVersion")) in
  let? _ := require (versioned (us_map ups)) (invalid (lit "updates require expectedVersion")) in
  require ((len (us_rewrite ups) <=? MAX_PLAN_ITEMS) && (len (us_map ups) <=? MAX_PLAN_ITEMS))
    (invalid (lit "each resource kind is limited to 100 changes")).

(** ** Definitions: assets and references *)

(** [Path::file_name] *)
Definition file_name (p : bytes) : option bytes :=
  match last (components p) with Some (Normal f) => Some f | _ => None end.

Definition validate_asset (a : AutomationAsset) : Result unit :=
  let? _ := require (negb (is_blank (as_ref a) || (128 <? len (as_ref a))))
              (invalid (lit "asset ref must be 1-128 bytes")) in
  let? _ := require (negb (is_blank (as_file_name a) || (255 <? len (as_file_name a))))
              (invalid (lit "asset fileName must be 1-255 bytes")) in
  let? _ := require (bool_decide (file_name (as_file_name a) = Some (as_file_name a)))
              (invalid (lit "asset fileName must not contain path separators")) in
  match asset_decode (as_content_base64 a) with
  | Ok _ => Ok tt
  | Err e => Err (invalid (lit "asset " ++ as_ref a ++ lit " is not valid base64: " ++ e))
  end.

Definition validate_ref (reference : str) (refs : list str) : Result (list str) :=
  let? _ := require (negb (is_blank reference || (128 <? len reference)))
              (invalid (lit "resource ref must be 1-128 bytes")) in
  let? _ := require (negb (bool_decide (reference ∈ refs))) (invalid (lit "duplicate ref " ++ reference)) in
  Ok (reference :: refs).

Definition asset_path (root change_id : bytes) (a : AutomationAsset) : bytes :=
  push (push root change_id) (as_file_name a).

(** The paths by reference; a later asset of the same reference wins. *)
Fixpoint preview_asset_paths (root change_id : bytes) (assets : list AutomationAsset) (paths : gmap str bytes)
    : Result (gmap str bytes) :=
  match assets with
  | [] => Ok paths
  | a :: assets =>
      let? _ := validate_asset a in
      preview_asset_paths root change_id assets (<[as_ref a := asset_path root change_id a]> paths)
  end.

(** ** Definitions: where a map rule points *)

Definition not_approved (message : str) : AutomationError number := error_new (lit "PATH_NOT_APPROVED") message.

Definition resolve_approved_path (approved_path : str) (approved_roots : list str) : Result str :=
  let? _ := require (negb (existsb (fun c => bool_decide (c = ParentDir)) (components approved_path)))
              (not_approved (lit "approvedPath must not contain parent-directory traversal")) in
  match canonicalize approved_path with
  | Err e => Err (not_approved (lit "approvedPath does not resolve to a readable file: " ++ e))
  | Ok requested =>
      let? _ := require (is_file requested) (not_approved (lit "approvedPath must resolve to a regular file")) in
      let within root := match canonicalize root with Ok root => path_is_within requested root | Err _ => false end in
      let? _ := require (existsb within approved_roots)
                  (not_approved (lit "approvedPath is outside the user-approved Map Local roots (or no roots are approved)")) in
      Ok (from_utf8_lossy requested)
  end.

Definition resolve_map_target (resource : AutomationMapResource) (asset_paths : gmap str bytes)
    (existing_target : option str) (approved_roots : list str) : Result str :=
  let? _ := require (negb (is_some (am_managed_asset_ref resource) && is_some (am_approved_path resource)))
              (invalid (lit "map resource must use either managedAssetRef or approvedPath, not both")) in
  match am_managed_asset_ref resource with
  | Some asset_ref =>
      match asset_paths !! asset_ref with
      | Some path => Ok (display path)
      | None => Err (invalid (lit "managedAssetRef " ++ asset_ref ++ lit " does not exist in assets"))
      end
  | None =>
      match am_approved_path resource with
      | Some approved_path => resolve_approved_path approved_path approved_roots
      | None =>
          match am_target_value resource, existing_target with
          | Some target_value, _ =>
              if bool_decide (existing_target = Some target_value) then Ok target_value
              else Err (invalid (lit "targetValue is retained for updates only; use managedAssetRef or approvedPath to select a local target"))
          | None, Some existing_target => Ok existing_target
          | None, None => Err (invalid (lit "map resource requires managedAssetRef or approvedPath"))
          end
      end
  end.

(** ** Definitions: hosts *)

(** The first part of [split(f)] *)
Fixpoint take_until (f : byte → bool) (s : str) : str :=
  match s with
  | [] => []
  | c :: s => if f c then [] else c :: take_until f s
  end.

(** [trim_start_matches("//")] *)
Fixpoint trim_slashes (s : str) : str :=
  match s with
  | c :: t =>
      match t with
      | d :: rest => if (c =? slash) && (d =? slash) then trim_slashes rest else s
      | [] => s
      end
  | [] => []
  end.

Definition pattern_authority (pattern : str) : str :=
  let rest := match find pattern (lit "://") with Some i => drop (i + 3) pattern | None => pattern end in
  let head := take_until (fun c => (c =? slash) || (c =? chr "?") || (c =? chr "#")) (trim_slashes rest) in
  match rsplit_once (chr "@") head with Some (_, after) => after | None => head end.

Definition pattern_host (pattern : str) : option str :=
  let pattern := trim pattern in
  if is_empty pattern then None
  else
    let authority := pattern_authority pattern in
    if is_empty authority || bool_decide (authority = lit "*") then None
    else
      host ← match authority with
             | c :: rest =>
                 if c =? chr "[" then '(host, _) ← split_once (chr "]") rest; Some host
                 else Some (take_until (fun c => c =? chr ":") authority)
             | [] => None
             end;
      let host := to_ascii_lowercase (trim_end_matches (chr ".") host) in
      if is_empty host || (contains host (lit "*") && negb (starts_with host (lit "*."))) then None
      else Some host.

Definition is_one_of (s : str) (names : list str) : bool := bool_decide (s ∈ names).

Definition exact_pattern_host (pattern label : str) : Result str :=
  let trimmed := trim pattern in
  let? _ := require (negb (is_empty trimmed)) (invalid (label ++ lit " is required")) in
  let parse_target := if contains trimmed (lit "://") then trimmed else lit "https://" ++ trimmed in
  let? url := map_err (fun e => invalid (label ++ lit " is invalid: " ++ e)) (url_parse parse_target) in
  let? _ := require (is_one_of (url_scheme url) [lit "http"; lit "https"; lit "ws"; lit "wss"])
              (invalid (label ++ lit " must use http, https, ws, or wss")) in
  let? host := ok_or (url_host_str url) (invalid (label ++ lit " must include an exact host")) in
  let? _ := require (negb (contains host (lit "*")))
              (invalid (label ++ lit " must contain an exact host; wildcard hosts are not allowed")) in
  Ok (to_ascii_lowercase host).

(** The suffix of a wildcard host covers the other host. *)
Definition wildcard_covers (pattern host : str) : bool :=
  match strip_prefix pattern (lit "*.") with
  | Some suffix => bool_decide (host = suffix) || ends_with host (lit "." ++ suffix)
  | None => false
  end.

Definition host_conflicts (target : str) (candidate : option str) : bool :=
  match candidate with
  | None => true
  | Some candidate =>
      bool_decide (target = lit "*") || bool_decide (candidate = lit "*") || bool_decide (target = candidate)
      || wildcard_covers target candidate || wildcard_covers candidate target
  end.

(** ** Definitions: the rules of a resource *)

(** [Value::get(key)]; keys are unique in a parsed object. *)
Definition get (key : str) (v : value number) : option (value number) :=
  match v with Object o => snd <$> find_first (fun kv => bool_decide (kv.1 = key)) o | _ => None end.

Definition as_str (v : value number) : option str := match v with String s => Some s | _ => None end.

Definition strip_dot (host : str) : str := to_ascii_lowercase (trim_end_matches (chr ".") host).

Definition validate_rewrite_redirect_target (payload : value number) (match_host rule_id : str) : Result unit :=
  let of_rule m := lit "redirect targetUrl for rewrite resource " ++ rule_id ++ m in
  let? target_url := ok_or (get (lit "targetUrl") payload ≫= as_str)
                       (invalid (lit "redirect action for rewrite resource " ++ rule_id ++ lit " requires targetUrl")) in
  let? target := map_err (fun e => invalid (of_rule (lit " is invalid: " ++ e))) (url_parse target_url) in
  let? _ := require (is_one_of (url_scheme target) [lit "http"; lit "https"])
              (invalid (of_rule (lit " must use http or https"))) in
  let? target_host := ok_or (strip_dot <$> url_host_str target) (invalid (of_rule (lit " must include a host"))) in
  require (bool_decide (target_host = strip_dot match_host))
    (with_details
       (unavailable (lit "cross-host redirect targets are not available in this release; rewrite resource " ++ rule_id
                     ++ lit " matches " ++ match_host ++ lit " but redirects to " ++ target_host))
       [(lit "ruleId", String rule_id); (lit "matchHost", String match_host);
        (lit "targetHost", String target_host); (lit "targetUrl", String target_url)]).

Definition check_action (match_host rule_id : str) (action : value number) : Result unit :=
  let? _ := require (match action with Object _ => true | _ => false end) (invalid (lit "rewrite actions must be objects")) in
  let rewrite_type := get (lit "rewriteType") action ≫= as_str in
  let? _ := require (is_some rewrite_type && match get (lit "payload") action with Some (Object _) => true | _ => false end)
              (invalid (lit "rewrite actions require rewriteType and payload")) in
  if match rewrite_type with Some t => eq_ignore_ascii_case t (lit "redirect") | None => false end then
    validate_rewrite_redirect_target (default Null (get (lit "payload") action)) match_host rule_id
  else Ok tt.

Fixpoint check_actions (match_host rule_id : str) (actions : list (value number)) : Result unit :=
  match actions with
  | [] => Ok tt
  | action :: actions =>
      let? _ := check_action match_host rule_id action in check_actions match_host rule_id actions
  end.

Definition build_rewrite_rule (workspace_id id : str) (resource : AutomationRewriteResource number)
    (existing : option (RewriteRule number)) : Result (RewriteRule number) :=
  let m := ar_match resource in
  let? _ := require (negb (is_blank (ar_name resource) || (256 <? len (ar_name resource))))
              (invalid (lit "rewrite name must be 1-256 bytes")) in
  let? _ := require (negb (is_blank (am_url_pattern m))) (invalid (lit "rewrite urlPattern is required")) in
  let? match_host := exact_pattern_host (am_url_pattern m) (lit "rewrite urlPattern") in
  let? _ := require (negb (is_empty (ar_actions resource)))
              (invalid (lit "rewrite actions must contain at least one action")) in
  let? _ := require (len (ar_actions resource) <=? 100) (invalid (lit "rewrite actions are limited to 100 entries")) in
  let? _ := check_actions match_host id (ar_actions resource) in
  let rewrite_type :=
    match ar_rewrite_type resource with
    | Some t => t
    | None => match ar_actions resource with
              | action :: _ => match get (lit "rewriteType") action with Some (String t) => t | _ => lit "header" end
              | [] => lit "header"
              end
    end in
  Ok {| rw_actions := Some (ar_actions resource);
        rw_enabled := match ar_enabled resource, existing with Some b, _ => b | None, Some rule => rw_enabled rule | None, None => false end;
        rw_id := id; rw_name := ar_name resource; rw_note := ar_note resource; rw_payload := Null;
        rw_priority := ar_priority resource;
        rw_match := {| rm_match_type := am_match_type m; rm_methods := am_methods m; rm_stage := am_stage m;
                       rm_url_pattern := am_url_pattern m |};
        rw_rewrite_type := rewrite_type; rw_workspace_id := workspace_id |}.

Definition build_map_rule (workspace_id id : str) (resource : AutomationMapResource) (target_value : str)
    (existing : option MapRule) : Result MapRule :=
  let? _ := require (bool_decide (am_mode resource = lit "local"))
              (unavailable (lit "Map Remote is not available in this release")) in
  let? _ := require (negb (is_blank (am_name resource) || (256 <? len (am_name resource))))
              (invalid (lit "map name must be 1-256 bytes")) in
  let? _ := require (negb (is_blank (am_source_pattern resource))) (invalid (lit "map sourcePattern is required")) in
  let? _ := exact_pattern_host (am_source_pattern resource) (lit "map sourcePattern") in
  let? _ := require (is_some (am_managed_asset_ref resource) || is_file target_value)
              (invalid (lit "map local target must be an existing file: " ++ target_value)) in
  Ok {| map_enabled := match am_enabled resource, existing with Some b, _ => b | None, Some rule => map_enabled rule | None, None => false end;
        map_id := id; map_mode := lit "local"; map_name := am_name resource; map_note := am_note resource;
        map_preserve_path := am_preserve_path resource; map_preserve_query := am_preserve_query resource;
        map_priority := am_priority resource; map_source_pattern := am_source_pattern resource;
        map_target_value := target_value; map_match_type := am_map_match_type resource;
        map_workspace_id := workspace_id |}.

(** ** Definitions: scopes and summaries *)

Definition automation_scope_key (scope : str) (workspace_id : option str) : Result str :=
  if bool_decide (scope = lit "global") then Ok (lit "global")
  else if bool_decide (scope = lit "workspace") then
    match workspace_id with
    | Some w => if is_blank w then Err (invalid (lit "workspaceId is required")) else Ok (lit "workspace:" ++ w)
    | None => Err (invalid (lit "workspaceId is required"))
    end
  else Err (invalid (lit "scope must be workspace or global")).

Definition plan_summary (plan : AutomationPlan number) : str :=
  pl_lifecycle plan ++ lit " " ++ pl_scope plan ++ lit " plan with " ++ show (resource_count (pl_upserts plan))
  ++ lit " upserts, " ++ show (len (pl_deletes plan)) ++ lit " deletes, and " ++ show (len (pl_assets plan)) ++ lit " assets".

Definition via_warnings_for_risk (plan : AutomationPlan number) : list str :=
  (if bool_decide (pl_lifecycle plan = lit "ephemeral")
   then [lit "Ephemeral resources expire automatically; verify before the TTL elapses."] else [])
  ++ (if is_empty (pl_assets plan) then []
      else [lit "Managed assets are written under the AIProxy data directory and removed with the change."])
  ++ (if existsb (fun u => negb (am_preserve_query (up_resource u))) (us_map (pl_upserts plan))
      then [lit "A Map Local rule that does not preserve the query string may drop request parameters."] else []).
End Plan.

Example pattern_host_samples :
  map pattern_host [lit " https://User@API.example.com:8443/p?x "; lit "https://*.Example.com:443/v1/*"; lit "[::1]:80/";
                    lit "//a.com/x"; lit "*"; lit "a*.com"]
  = [Some (lit "api.example.com"); Some (lit "*.example.com"); Some (lit "::1"); Some (lit "a.com"); None; None].
Proof. reflexivity. Qed.

(** ** What a valid plan is *)

Section Shape.
Context {number : Type} `{AutomationCodec number}.

(** The resources a plan updates or deletes *)
Definition updated {T} (kind : str) (ups : list (AutomationUpsert T)) : list (str * str) :=
  omap (fun u => pair kind <$> up_id u) ups.

Definition targets (plan : AutomationPlan number) : list (str * str) :=
  updated (lit "rewrite") (us_rewrite (pl_upserts plan)) ++ updated (lit "map") (us_map (pl_upserts plan))
  ++ map (fun d => (del_kind d, del_id d)) (pl_deletes plan).

Lemma require_ok b (e : AutomationError number) : require b e = Ok tt ↔ b = true.
Proof. by destruct b. Qed.

Lemma rbind_ok {A B E} (r : result A E) (k : A → result B E) b : rbind r k = Ok b ↔ ∃ a, r = Ok a ∧ k a = Ok b.
Proof. destruct r; cbn; naive_solver. Qed.

Lemma record_upserts_ok {T} kind (ups : list (AutomationUpsert T)) : ∀ seen out,
  record_upserts (number := number) kind ups seen = Ok out ↔
  NoDup (updated kind ups) ∧ (∀ k, k ∈ updated kind ups → k ∉ seen) ∧ out = rev (updated kind ups) ++ seen.
Proof.
  induction ups as [|u ups IH]; intros seen out; cbn [record_upserts].
  - cbn. split; [intros [= ->]; split_and!; [constructor|set_solver|done]|by intros (_ & _ & ->)].
  - unfold updated in *. cbn [omap list_omap]. destruct (up_id u) as [id|]; cbn; [|apply IH].
    case_bool_decide as Hin; [split; [done|]; intros (_ & Hd & _); exfalso; by apply (Hd _ (list_elem_of_here _ _))|].
    rewrite IH, NoDup_cons, <- app_assoc. split.
    + intros (Hn & Hd & ->). split_and!; [set_solver|done|set_solver|done].
    + intros ((Hu & Hn) & Hd & ->). split_and!; [done| |done]. intros k Hk. rewrite elem_of_cons.
      intros [->|Hs]; [done|]. eapply Hd; [right; done|done].
Qed.

Lemma check_deletes_ok dels upserted : ∀ seen,
  check_deletes (number := number) dels upserted seen = Ok tt ↔
  NoDup (map (fun d => (del_kind d, del_id d)) dels) ∧
  ∀ k, k ∈ map (fun d => (del_kind d, del_id d)) dels → (k ∉ seen) ∧ (k ∉ upserted).
Proof.
  induction dels as [|d dels IH]; intros seen; cbn [check_deletes map].
  - split; [intros _; split; [constructor|set_solver]|done].
  - case_bool_decide as Hs; [split; [done|]; intros (_ & Hd); by destruct (Hd _ (list_elem_of_here _ _))|].
    case_bool_decide as Hu; [split; [done|]; intros (_ & Hd); by destruct (Hd _ (list_elem_of_here _ _))|].
    rewrite IH, NoDup_cons. split.
    + intros (Hn & Hd). split; [split; [|done]|].
      * intros Hin. destruct (Hd _ Hin) as [Hno _]. apply Hno. left.
      * intros k [->|Hk]%elem_of_cons; [done|]. destruct (Hd k Hk) as [Hk1 Hk2]. split; [|done]. intros Hin. apply Hk1. by right.
    + intros ((Hn & Hnd) & Hd). split; [done|]. intros k Hk. rewrite elem_of_cons.
      destruct (Hd k) as [Hk1 Hk2]; [by right|]. split; [|done]. by intros [->|?].
Qed.

(** A plan the code accepts *)
Record plan_ok (plan : AutomationPlan number) : Prop := {
  po_scope : pl_scope plan = lit "workspace";
  po_workspace : ∃ w, pl_workspace_id plan = Some w ∧ is_blank w = false;
  po_lifecycle :
    pl_lifecycle plan = lit "persistent" ∨
    pl_lifecycle plan = lit "ephemeral" ∧ 60 <= default 600 (pl_ttl_seconds plan) <= 3600 ∧
      targets plan = [] ∧ has_update (us_rewrite (pl_upserts plan)) = false ∧ has_update (us_map (pl_upserts plan)) = false;
  po_key : 16 <= len (pl_idempotency_key plan) <= 128;
  po_size : 1 <= len (us_rewrite (pl_upserts plan)) + len (us_map (pl_upserts plan)) + len (pl_deletes plan) <= 100;
  po_targets : NoDup (targets plan);
  po_kinds : us_dns (pl_upserts plan) = [] ∧ us_script (pl_upserts plan) = [] ∧ us_throttle_profile (pl_upserts plan) = [] ∧
    us_throttle_rule (pl_upserts plan) = [] ∧ us_breakpoint (pl_upserts plan) = [] ∧ pl_activation plan = None;
  po_bytes : len (plan_bytes plan) <= MAX_PLAN_BYTES;
  po_versions : versioned (us_rewrite (pl_upserts plan)) = true ∧ versioned (us_map (pl_upserts plan)) = true
}.

Lemma is_empty_nil {A} (l : list A) : is_empty l = true ↔ l = [].
Proof. by destruct l. Qed.

Lemma is_some_none {A} (o : option A) : is_some o = false ↔ o = None.
Proof. by destruct o. Qed.

Lemma no_update_targets {T} kind (ups : list (AutomationUpsert T)) : has_update ups = false → updated kind ups = [].
Proof.
  induction ups as [|u ups IH]; [done|]. cbn. intros Hu. apply orb_false_iff in Hu as [Hu Hr].
  apply orb_false_iff in Hu as [Hu _]. apply is_some_none in Hu. unfold updated in *. cbn. rewrite Hu. by apply IH.
Qed.

Lemma updated_kind {T} kind (ups : list (AutomationUpsert T)) k : k ∈ updated kind ups → k.1 = kind.
Proof.
  unfold updated. rewrite list_elem_of_omap. intros (u & _ & Hu). by destruct (up_id u); simplify_eq/=.
Qed.

Lemma elem_of_rev {A} (x : A) l : x ∈ rev l ↔ x ∈ l.
Proof. rewrite !list_elem_of_In, <- in_rev. done. Qed.

(** The three loops together: every target once *)
Lemma targets_distinct plan :
  NoDup (targets plan) ↔
  ∃ seen1 seen2,
    record_upserts (number := number) (lit "rewrite") (us_rewrite (pl_upserts plan)) [] = Ok seen1 ∧
    record_upserts (number := number) (lit "map") (us_map (pl_upserts plan)) seen1 = Ok seen2 ∧
    check_deletes (number := number) (pl_deletes plan) seen2 [] = Ok tt.
Proof.
  unfold targets. rewrite !NoDup_app. setoid_rewrite record_upserts_ok. setoid_rewrite check_deletes_ok.
  set (rs := updated (lit "rewrite") _). set (ms := updated (lit "map") _). set (ds := map _ (pl_deletes plan)).
  assert (∀ k, k ∈ rs → k ∉ ms) as Hkind.
  { intros k Hr Hm. apply updated_kind in Hr, Hm. by rewrite Hr in Hm. }
  split.
  - intros (Hr & Hrd & Hm & Hmd & Hd). exists (rev rs), (rev ms ++ rev rs).
    rewrite app_nil_r. split_and!; try done; [intros k _; apply not_elem_of_nil| |].
    + intros k Hk Hin. rewrite elem_of_rev in Hin. by eapply Hkind.
    + intros k Hk. split; [apply not_elem_of_nil|]. rewrite elem_of_app, !elem_of_rev.
      intros [Hin|Hin]; [by eapply Hmd|]. apply (Hrd k Hin). rewrite elem_of_app. by right.
  - intros (s1 & s2 & (Hr & _ & ->) & (Hm & _ & ->) & Hd & Hdd). split_and!; try done.
    + intros k Hk. rewrite elem_of_app. intros [Hkm|Hkd]; [by eapply Hkind|]. destruct (Hdd k Hkd) as [_ Hno].
      apply Hno. rewrite !elem_of_app, !elem_of_rev. auto.
    + intros k Hk Hkd. destruct (Hdd k Hkd) as [_ Hno]. apply Hno. rewrite !elem_of_app, !elem_of_rev. auto.
Qed.

Lemma require_bind {B} b (e : AutomationError number) (k : result B (AutomationError number)) r :
  rbind (require b e) (fun _ => k) = Ok r ↔ b = true ∧ k = Ok r.
Proof. destruct b; cbn; naive_solver. Qed.

Lemma loops_ok plan (k : result unit (AutomationError number)) :
  (let? seen := record_upserts (lit "rewrite") (us_rewrite (pl_upserts plan)) [] in
   let? seen := record_upserts (lit "map") (us_map (pl_upserts plan)) seen in
   let? _ := check_deletes (pl_deletes plan) seen [] in k) = Ok tt ↔ NoDup (targets plan) ∧ k = Ok tt.
Proof.
  rewrite targets_distinct, rbind_ok. setoid_rewrite rbind_ok. setoid_rewrite rbind_ok. split.
  - intros (s1 & H1 & s2 & H2 & [] & H3 & Hk). split; [|done]. by exists s1, s2.
  - intros [(s1 & s2 & H1 & H2 & H3) Hk]. exists s1. split; [done|]. exists s2. split; [done|]. by exists tt.
Qed.

Lemma ephemeral_targets plan :
  has_update (us_rewrite (pl_upserts plan)) || has_update (us_map (pl_upserts plan))
    || negb (is_empty (pl_deletes plan)) = false ↔
  targets plan = [] ∧ has_update (us_rewrite (pl_upserts plan)) = false ∧ has_update (us_map (pl_upserts plan)) = false.
Proof.
  rewrite !orb_false_iff, negb_false_iff, is_empty_nil. unfold targets. split.
  - intros [[Hr Hm] Hd]. by rewrite !no_update_targets, Hd.
  - intros (Ht & Hr & Hm). apply app_nil in Ht as [_ Ht]. apply app_nil in Ht as [_ Ht]. by destruct (pl_deletes plan).
Qed.

(** C29: A plan passes the shape check exactly when all of this holds.  Its scope is
    a workspace and it names one that is not blank.  It is persistent, or it is
    ephemeral with a lifetime of 60 to 3600 seconds (600 when absent), updates no
    rule and deletes nothing.  Its idempotency key has 16 to 128 bytes.  It has 1
    to 100 changes, upserts of rewrite and map rules and deletions, no upsert of
    another kind and no activation.  No resource is updated or deleted twice, each
    update carries the version it expects, and the serialised plan has at most
    3 MiB. *)
Theorem validate_plan_shape_exact (plan : AutomationPlan number) : validate_plan_shape plan = Ok tt ↔ plan_ok plan.
Proof.
  unfold validate_plan_shape. cbn zeta. rewrite !require_bind, loops_ok, !require_bind, require_ok.
  unfold resource_count, MIN_IDEMPOTENCY_KEY_BYTES, MAX_IDEMPOTENCY_KEY_BYTES, MAX_PLAN_ITEMS.
  rewrite !negb_true_iff, !andb_true_iff, !is_empty_nil, is_some_none.
  pose proof (len_nonneg (us_rewrite (pl_upserts plan))). pose proof (len_nonneg (us_map (pl_upserts plan))).
  pose proof (len_nonneg (pl_deletes plan)). split.
  - intros (Hs & Hw & Hl & Htt & Hk & Hn & Hnd & Ha & Hdns & Hsc & [Htp Htr] & Hbp & Hws & He & Hb & Hv1 & Hv2 & _).
    apply bool_decide_eq_true in Hws. rewrite Hdns, Hsc, Htp, Htr, Hbp, !len_nil in Hn.
    split; try done; try lia; try by split_and!.
    + rewrite bool_decide_eq_true_2 in Hw by done. destruct (pl_workspace_id plan) as [w|]; [|done]. by exists w.
    + destruct (bool_decide (pl_lifecycle plan = lit "ephemeral")) eqn:Hep.
      * right. split; [by apply bool_decide_eq_true in Hep|]. cbn in Htt, He. split; [lia|]. by apply ephemeral_targets.
      * left. rewrite orb_false_r in Hl. by apply bool_decide_eq_true in Hl.
  - intros []. destruct po_kinds0 as (-> & -> & -> & -> & -> & ->). destruct po_versions0 as [-> ->].
    destruct po_workspace0 as (w & -> & Hw). rewrite po_scope0. rewrite !bool_decide_eq_true_2 by done. cbn.
    rewrite Hw. unfold len in *. cbn. split_and!; try done; try lia.
    + destruct po_lifecycle0 as [->|(-> & _)]; reflexivity.
    + destruct po_lifecycle0 as [->|(-> & Htl & _)]; [reflexivity|]. rewrite !(proj2 (Z.leb_le _ _)) by lia. apply orb_true_r.
    + apply orb_false_iff. rewrite Z.eqb_neq, Z.ltb_ge. lia.
    + destruct po_lifecycle0 as [->|(-> & _ & Ht)]; [done|]. cbn. by apply ephemeral_targets.
Qed.
End Shape.


(** ** Where a map rule of a plan points *)

Section Target.
Context {number : Type} `{AutomationCodec number} `{UrlOps} `{FileSystem}.

(** A name that is its own file name is one plain segment. *)
Lemma file_name_plain f : file_name f = Some f → components f = [Normal f] ∧ starts_with f [slash] = false.
Proof.
  unfold file_name. intros Hf. destruct (last (components f)) as [[| | |g]|] eqn:Hl; simplify_eq.
  apply last_Some_elem_of in Hl. by apply (normal_component_plain f).
Qed.

Lemma validate_asset_name (a : AutomationAsset) :
  validate_asset (number := number) a = Ok tt → file_name (as_file_name a) = Some (as_file_name a).
Proof. unfold validate_asset. rewrite !require_bind. intros (_ & _ & Hn & _). by apply bool_decide_eq_true in Hn. Qed.

Lemma preview_paths root change_id assets : ∀ paths out,
  preview_asset_paths (number := number) root change_id assets paths = Ok out →
  ∀ r p, out !! r = Some p → paths !! r = Some p ∨
    ∃ a, a ∈ assets ∧ file_name (as_file_name a) = Some (as_file_name a) ∧ p = asset_path root change_id a.
Proof.
  induction assets as [|a assets IH]; intros paths out; cbn [preview_asset_paths]; [intros [= ->]; auto|].
  destruct (validate_asset a) as [[]|e] eqn:Ha; cbn [rbind]; [|done]. intros Hp r p Hr.
  apply validate_asset_name in Ha. destruct (IH _ _ Hp r p Hr) as [Hin|(b & Hb & Hf & ->)].
  - rewrite lookup_insert_Some in Hin. destruct Hin as [[<- <-]|[_ ?]]; [|by left].
    right. exists a. split_and!; [left|done|done].
  - right. exists b. split_and!; [by right|done|done].
Qed.

(** The sources of a target *)
Inductive target_source (root change_id : bytes) (assets : list AutomationAsset) (existing : option str)
    (roots : list str) : str → Prop :=
  | from_asset a p :
      a ∈ assets → components p = components root ++ [Normal change_id; Normal (as_file_name a)] →
      target_source root change_id assets existing roots (display p)
  | from_approved requested r canon_root p :
      ParentDir ∉ components requested → canonicalize requested = Ok p → is_file p = true → r ∈ roots →
      canonicalize r = Ok canon_root → components canon_root `prefix_of` components p →
      target_source root change_id assets existing roots (display p)
  | from_existing t : existing = Some t → target_source root change_id assets existing roots t.

Lemma approved_path_source root change_id assets existing roots requested t :
  resolve_approved_path (number := number) requested roots = Ok t →
  target_source root change_id assets existing roots t.
Proof.
  unfold resolve_approved_path. rewrite require_bind, negb_true_iff. intros [Hp Hr].
  destruct (canonicalize requested) as [p|] eqn:Hc; [|done]. rewrite !require_bind in Hr. destruct Hr as (Hf & Hw & Ht).
  apply existsb_exists in Hw as (r & Hr & Hw). destruct (canonicalize r) as [cr|] eqn:Hcr; [|done]. simplify_eq.
  eapply from_approved; eauto; [|by apply list_elem_of_In|by apply path_is_within_spec].
  intros Hin. apply not_true_iff_false in Hp. apply Hp, existsb_exists. exists ParentDir.
  split; [by apply list_elem_of_In|by apply bool_decide_eq_true].
Qed.

(** C24: a map rule of a plan points to an asset of the plan, stored as one plain
    file below the directory of its change, or to a regular file whose canonical
    path lies below a root the user approved and that was named without [..], or
    to what the updated rule already pointed to. *)
Theorem map_target_confined root change_id assets paths resource existing roots t :
  root ≠ [] → components change_id = [Normal change_id] →
  preview_asset_paths (number := number) root change_id assets ∅ = Ok paths →
  resolve_map_target (number := number) resource paths existing roots = Ok t →
  target_source root change_id assets existing roots t.
Proof.
  intros Hroot Hid Hpaths. unfold resolve_map_target. rewrite require_bind. intros [_ Ht].
  destruct (am_managed_asset_ref resource) as [r|].
  - destruct (paths !! r) as [p|] eqn:Hp; [|done]. simplify_eq/=.
    destruct (preview_paths _ _ _ _ _ Hpaths r p Hp) as [?|(a & Ha & Hf & ->)]; [done|].
    eapply from_asset; [done|]. destruct (file_name_plain _ Hf) as [Hc Hs].
    assert (components (push root change_id) = components root ++ [Normal change_id]) as Hdir.
    { rewrite components_push, Hid; [done|done| |by rewrite Hid; repeat constructor].
      unfold components in Hid. by destruct (starts_with change_id [slash]). }
    unfold asset_path. rewrite components_push, Hdir, Hc, <- app_assoc; [done| |done|by rewrite Hc; repeat constructor].
    intros Hn. rewrite Hn in Hdir. change (components []) with (@nil Component) in Hdir. by destruct (components root).
  - destruct (am_approved_path resource) as [q|]; [by eapply approved_path_source|].
    destruct (am_target_value resource) as [v|]; [case_bool_decide|destruct existing as [v|]]; simplify_eq/=;
      by apply from_existing.
Qed.

(** *** Redirects *)

(** A redirect of the action goes to the host. *)
Definition redirects_to (host : str) (action : value number) : Prop :=
  ∃ payload target url h,
    get (lit "payload") action = Some payload ∧ get (lit "targetUrl") payload = Some (String target) ∧
    url_parse target = Ok url ∧ url_scheme url ∈ [lit "http"; lit "https"] ∧
    url_host_str url = Some h ∧ strip_dot h = strip_dot host.

Lemma check_action_redirect host id action t :
  check_action host id action = Ok tt → get (lit "rewriteType") action = Some (String t) →
  eq_ignore_ascii_case t (lit "redirect") = true → redirects_to host action.
Proof.
  unfold check_action, redirects_to. rewrite !require_bind. intros (_ & Hp & Ha) Hty Hrd.
  rewrite Hty in Hp, Ha. cbn [mbind option_bind as_str is_some andb] in Hp, Ha. rewrite Hrd in Ha.
  destruct (get (lit "payload") action) as [payload|]; [|done]. change (default Null (Some payload)) with payload in Ha. exists payload.
  unfold validate_rewrite_redirect_target in Ha. cbn zeta in Ha. rewrite rbind_ok in Ha. destruct Ha as (target & Ht & Ha).
  destruct (get (lit "targetUrl") payload) as [[| | |s| |]|]; cbn [mbind option_bind as_str ok_or] in Ht; simplify_eq.
  rewrite rbind_ok in Ha. destruct Ha as (url & Hu & Ha).
  destruct (url_parse target) as [u|] eqn:Hparse; cbn [map_err] in Hu; simplify_eq. rewrite require_bind, rbind_ok in Ha.
  destruct Ha as (Hs & th & Hh & Ha). apply require_ok, bool_decide_eq_true in Ha. apply bool_decide_eq_true in Hs.
  destruct (url_host_str url) as [h|] eqn:Hhost; cbn [fmap option_fmap option_map ok_or] in Hh; simplify_eq.
  exists target, url, h. by split_and!.
Qed.

Lemma check_actions_all host id (actions : list (value number)) : check_actions host id actions = Ok tt → ∀ a, a ∈ actions → check_action host id a = Ok tt.
Proof.
  induction actions as [|b actions IH]; cbn [check_actions]; [set_solver|]. rewrite rbind_ok.
  intros ([] & Hb & Hr) a [->|Hin]%elem_of_cons; [done|by apply IH].
Qed.

(** a rewrite rule built for an agent keeps what it was asked for and never
    redirects elsewhere: its actions are those of the resource, between 1 and 100,
    and each redirect among them goes to an http or https URL on the exact host of
    the pattern of the rule. *)
Theorem rewrite_redirects_stay workspace id (resource : AutomationRewriteResource number) existing rule :
  build_rewrite_rule workspace id resource existing = Ok rule →
  ∃ host,
    exact_pattern_host (number := number) (rm_url_pattern (rw_match rule)) (lit "rewrite urlPattern") = Ok host ∧
    rw_actions rule = Some (ar_actions resource) ∧ 1 <= len (ar_actions resource) <= 100 ∧
    rw_id rule = id ∧ rw_workspace_id rule = workspace ∧
    ∀ action t, action ∈ ar_actions resource →
      get (lit "rewriteType") action = Some (String t) → eq_ignore_ascii_case t (lit "redirect") = true →
      redirects_to host action.
Proof.
  unfold build_rewrite_rule. cbn zeta. rewrite !require_bind, rbind_ok. intros (_ & _ & host & Hhost & Hr).
  rewrite !require_bind, rbind_ok in Hr. destruct Hr as (Hne & Hlen & [] & Hacts & Hrule). injection Hrule as <-.
  exists host. cbn [rw_match rm_url_pattern rw_actions rw_id rw_workspace_id]. split_and!; try done.
  - destruct (ar_actions resource); [done|]. rewrite len_cons. pose proof (len_nonneg l). lia.
  - lia.
  - intros action t Hin. by eapply check_action_redirect, check_actions_all.
Qed.
End Target.

(** ** Overlapping hosts *)

(** The hosts a pattern host stands for: itself, or for [*.s] the host [s] and
    everything below it *)
Definition covers (pattern host : str) : Prop :=
  host = pattern ∨ ∃ s, pattern = lit "*." ++ s ∧ (host = s ∨ ∃ p, host = p ++ lit "." ++ s).

Lemma wildcard_covers_spec pattern host :
  wildcard_covers pattern host = true ↔ ∃ s, pattern = lit "*." ++ s ∧ (host = s ∨ ∃ p, host = p ++ lit "." ++ s).
Proof.
  unfold wildcard_covers. destruct (strip_prefix pattern (lit "*.")) as [s|] eqn:Hs.
  - apply strip_prefix_Some in Hs as ->. rewrite orb_true_iff, bool_decide_eq_true, ends_with_spec. split.
    + intros Hh. by exists s.
    + intros (s' & Heq & Hh). apply app_inv_head in Heq as <-. done.
  - split; [done|]. intros (s & -> & _). by rewrite (proj2 (strip_prefix_Some _ _ s)) in Hs.
Qed.

(** Two hosts below [s] and [t]: one of [s], [t] lies below the other. *)
Lemma suffixes_nest (p q s t : str) :
  p ++ lit "." ++ s = q ++ lit "." ++ t → s = t ∨ (∃ k, s = k ++ lit "." ++ t) ∨ ∃ k, t = k ++ lit "." ++ s.
Proof.
  intros Heq. apply app_eq_inv in Heq as [(k & -> & Hk)|(k & -> & Hk)]; destruct k as [|c k]; simplify_eq/=; eauto.
Qed.

Lemma below_self s h t : (h = s ∨ ∃ p, h = p ++ lit "." ++ s) → (h = t ∨ ∃ p, h = p ++ lit "." ++ t) →
  s = t ∨ (∃ k, s = k ++ lit "." ++ t) ∨ ∃ k, t = k ++ lit "." ++ s.
Proof.
  intros [->|[p ->]] [Hh|[q Hh]]; [by left|by eauto|subst; by eauto|by eapply suffixes_nest].
Qed.

(** the conflict check that decides which rules belong to the scope of a plan
    is exact: two pattern hosts conflict exactly when one of them is [*] or some
    host is covered by both; an unknown host conflicts with everything. *)
Theorem host_conflicts_exact (target : str) (candidate : option str) :
  host_conflicts target candidate = true ↔
  match candidate with
  | None => True
  | Some c => target = lit "*" ∨ c = lit "*" ∨ ∃ host, covers target host ∧ covers c host
  end.
Proof.
  destruct candidate as [c|]; [|done]. unfold host_conflicts.
  rewrite !orb_true_iff, !bool_decide_eq_true, !wildcard_covers_spec. split.
  - intros [[[[Ht|Hc]| ->]|(s & -> & Hh)]|(s & -> & Hh)]; [by left|by right; left|..]; right; right.
    + exists c. by split; left.
    + exists c. split; [right; by exists s|by left].
    + exists target. split; [by left|right; by exists s].
  - intros [->|[->|(h & Ht & Hc)]]; [auto..|]. unfold covers in *.
    destruct Ht as [->|(s & -> & Hs)], Hc as [->|(t & -> & Ht)]; [tauto|right; by exists t|left; right; by exists s|].
    destruct (below_self _ _ _ Hs Ht) as [->|[[k ->]|[k ->]]]; [tauto| |].
    + right. exists t. split; [done|]. right. exists (lit "*." ++ k). by rewrite <- app_assoc.
    + left; right. exists s. split; [done|]. right. exists (lit "*." ++ k). by rewrite <- app_assoc.
Qed.
