(* ===== verification/AutomationDb.v ===== *)
(** * AutomationDb: the tables behind agent automation

    Models the rows and statements of src/crates/db/src/automation.rs and of the
    rewrite and map rules in src/crates/db/src/rules.rs, and the conversions
    between rows and rules (automation.rs of the desktop and
    bootstrap/converters.rs).  A table is a finite map on its primary key; ORDER BY
    is an interface that returns some sorted arrangement of the selected rows. *)

From Stdlib Require Import Sorted.
From S2P Require Import Prelude Str Patterns JsonPath RuleTypes.

(** ** Definitions: rows *)

Record RewriteRuleRow := {
  rr_id : str; rr_workspace_id : str; rr_name : str; rr_note : option str; rr_enabled : bool; rr_priority : Z;
  rr_match_methods : str; rr_match_stage : str; rr_match_url_pattern : str; rr_match_type : str;
  rr_rewrite_type : str; rr_payload : str
}.

Record MapRuleRow := {
  mr_id : str; mr_workspace_id : str; mr_mode : str; mr_name : str; mr_note : option str; mr_enabled : bool;
  mr_preserve_path : bool; mr_preserve_query : bool; mr_priority : Z; mr_source_pattern : str;
  mr_target_value : str; mr_match_type : str
}.

Record AutomationResourceRow := {
  rs_resource_kind : str; rs_resource_id : str; rs_scope : str; rs_scope_key : str; rs_workspace_id : option str;
  rs_owner_kind : str; rs_created_by_client : option str; rs_created_by_version : option str;
  rs_change_id : option str; rs_expires_at : option str; rs_created_at : str; rs_updated_at : str
}.

Record AutomationChangeSetRow := {
  cs_id : str; cs_scope : str; cs_scope_key : str; cs_workspace_id : option str; cs_idempotency_key : str;
  cs_plan_hash : str; cs_expected_plan_hash : str; cs_scope_hash_before : str; cs_scope_hash_after : str;
  cs_lifecycle : str; cs_status : str; cs_runtime_generation : option Z; cs_client_name : option str;
  cs_client_version : option str; cs_summary_json : str; cs_created_at : str; cs_committed_at : option str;
  cs_activated_at : option str; cs_reverted_at : option str; cs_expires_at : option str
}.

Record AutomationChangeItemRow := {
  it_change_id : str; it_sequence : Z; it_resource_kind : str; it_resource_id : str; it_operation : str;
  it_version_before : option str; it_version_after : option str; it_before_json : option str;
  it_after_json : option str; it_dependencies_json : str
}.

Record AutomationExperimentRow := {
  ex_id : str; ex_change_id : str; ex_objective : str; ex_baseline_session_ids : str; ex_status : str;
  ex_cleanup_state : str; ex_created_at : str; ex_updated_at : str
}.

(** ** Definitions: rows and rules *)

(** serde_json on the columns that hold JSON *)
Class RowCodec (number : Type) := {
  methods_text : list str → str;
  methods_parse : str → option (list str);
  json_text : value number → str;
  json_parse : str → option (value number);
  methods_round ms : methods_parse (methods_text ms) = Some ms;
  json_round v : json_parse (json_text v) = Some v
}.

Section Rows.
Context {number : Type} `{RowCodec number}.

Definition rewrite_row (rule : RewriteRule number) : RewriteRuleRow :=
  {| rr_id := rw_id rule; rr_workspace_id := rw_workspace_id rule; rr_name := rw_name rule; rr_note := rw_note rule;
     rr_enabled := rw_enabled rule; rr_priority := rw_priority rule;
     rr_match_methods := methods_text (rm_methods (rw_match rule)); rr_match_stage := rm_stage (rw_match rule);
     rr_match_url_pattern := rm_url_pattern (rw_match rule);
     rr_match_type := default (lit "contains") (rm_match_type (rw_match rule));
     rr_rewrite_type := rw_rewrite_type rule;
     rr_payload := match rw_actions rule with
                   | Some actions => json_text (Array actions)
                   | None => json_text (rw_payload rule)
                   end |}.

Definition stored_type (match_type : str) : option str := if bool_decide (match_type = []) then None else Some match_type.

Definition rewrite_row_to_rule (row : RewriteRuleRow) : RewriteRule number :=
  let stored := default Null (json_parse (rr_payload row)) in
  let actions := match stored with Array (a :: actions) => Some (a :: actions) | _ => None end in
  {| rw_actions := actions; rw_id := rr_id row; rw_enabled := rr_enabled row; rw_name := rr_name row;
     rw_note := rr_note row; rw_priority := rr_priority row;
     rw_match := {| rm_methods := default [] (methods_parse (rr_match_methods row)); rm_stage := rr_match_stage row;
                    rm_url_pattern := rr_match_url_pattern row; rm_match_type := stored_type (rr_match_type row) |};
     rw_rewrite_type := rr_rewrite_type row; rw_workspace_id := rr_workspace_id row;
     rw_payload := match actions with Some _ => Null | None => stored end |}.

Definition map_row (rule : MapRule) : MapRuleRow :=
  {| mr_id := map_id rule; mr_workspace_id := map_workspace_id rule; mr_mode := map_mode rule; mr_name := map_name rule;
     mr_note := map_note rule; mr_enabled := map_enabled rule; mr_preserve_path := map_preserve_path rule;
     mr_preserve_query := map_preserve_query rule; mr_priority := map_priority rule;
     mr_source_pattern := map_source_pattern rule; mr_target_value := map_target_value rule;
     mr_match_type := default (lit "contains") (map_match_type rule) |}.

Definition map_row_to_rule (row : MapRuleRow) : MapRule :=
  {| map_id := mr_id row; map_enabled := mr_enabled row; map_mode := mr_mode row; map_name := mr_name row;
     map_note := mr_note row; map_preserve_path := mr_preserve_path row; map_preserve_query := mr_preserve_query row;
     map_priority := mr_priority row; map_source_pattern := mr_source_pattern row;
     map_target_value := mr_target_value row; map_match_type := stored_type (mr_match_type row);
     map_workspace_id := mr_workspace_id row |}.

(** *** Which rules survive the round trip through their row *)

Definition typed (match_type : option str) : Prop := ∃ t, match_type = Some t ∧ t ≠ [].

Definition storable (rule : RewriteRule number) : Prop :=
  typed (rm_match_type (rw_match rule)) ∧
  match rw_actions rule with
  | Some actions => actions ≠ [] ∧ rw_payload rule = Null
  | None => ∀ a actions, rw_payload rule ≠ Array (a :: actions)
  end.

Lemma stored_type_typed m : stored_type (default (lit "contains") m) = m ↔ typed m.
Proof.
  unfold stored_type, typed. destruct m as [t|]; cbn [default id from_option].
  - case_bool_decide; naive_solver.
  - split; [|by intros (? & ? & _)]. by rewrite bool_decide_eq_false_2.
Qed.

Lemma rewrite_row_round rule : rewrite_row_to_rule (rewrite_row rule) = rule ↔ storable rule.
Proof.
  unfold storable. rewrite <- stored_type_typed. destruct rule as [acts ri en nm nt pr [ms st up mt] ty ws pl].
  unfold rewrite_row_to_rule, rewrite_row. cbn [rr_payload rr_match_methods rr_match_type rr_id rr_enabled rr_name rr_note
    rr_priority rr_match_stage rr_match_url_pattern rr_rewrite_type rr_workspace_id rw_actions rw_payload rw_match
    rm_methods rm_stage rm_url_pattern rm_match_type rw_id rw_enabled rw_name rw_note rw_priority rw_rewrite_type rw_workspace_id].
  rewrite methods_round. destruct acts as [acts|]; rewrite json_round; cbn [default from_option id].
  - destruct acts as [|a acts]; split.
    + discriminate.
    + naive_solver.
    + intros Heq. injection Heq as Hm Hp. by split_and!.
    + intros [Hm [_ ->]]. by rewrite Hm.
  - split.
    + intros Heq. injection Heq as Ha Hm Hp. split; [done|]. intros a acts ->. done.
    + intros [Hm Hp]. rewrite Hm. destruct pl as [| | | |[|a l]|]; try done. by destruct (Hp a l).
Qed.

Lemma map_row_round rule : map_row_to_rule (map_row rule) = rule ↔ typed (map_match_type rule).
Proof.
  rewrite <- stored_type_typed. destruct rule as [id en md nm nt pp pq pr sp tv mt ws].
  unfold map_row_to_rule, map_row. cbn. split; intros Heq; [by injection Heq|by rewrite Heq].
Qed.

(** What was read from a row with a match type can be stored again. *)
Lemma stored_storable row : rr_match_type row ≠ [] → storable (rewrite_row_to_rule row).
Proof.
  intros Ht. split.
  - cbn. unfold stored_type. rewrite bool_decide_eq_false_2 by done. by eexists.
  - cbn. by destruct (default Null _) as [| | | |[|a l]|].
Qed.
End Rows.

(** ** Definitions: tables *)

Record Db := {
  rewrite_table : gmap str RewriteRuleRow;
  map_table : gmap str MapRuleRow;
  resources : gmap (str * str) AutomationResourceRow;
  change_sets : gmap str AutomationChangeSetRow;
  change_items : gmap (str * Z) AutomationChangeItemRow;
  experiments : gmap str AutomationExperimentRow
}.

Definition with_rewrites (db : Db) t :=
  {| rewrite_table := t; map_table := map_table db; resources := resources db; change_sets := change_sets db;
     change_items := change_items db; experiments := experiments db |}.
Definition with_maps (db : Db) t :=
  {| rewrite_table := rewrite_table db; map_table := t; resources := resources db; change_sets := change_sets db;
     change_items := change_items db; experiments := experiments db |}.
Definition with_resources (db : Db) t :=
  {| rewrite_table := rewrite_table db; map_table := map_table db; resources := t; change_sets := change_sets db;
     change_items := change_items db; experiments := experiments db |}.
Definition with_change_sets (db : Db) t :=
  {| rewrite_table := rewrite_table db; map_table := map_table db; resources := resources db; change_sets := t;
     change_items := change_items db; experiments := experiments db |}.
Definition with_change_items (db : Db) t :=
  {| rewrite_table := rewrite_table db; map_table := map_table db; resources := resources db;
     change_sets := change_sets db; change_items := t; experiments := experiments db |}.
Definition with_experiments (db : Db) t :=
  {| rewrite_table := rewrite_table db; map_table := map_table db; resources := resources db;
     change_sets := change_sets db; change_items := change_items db; experiments := t |}.

(** ORDER BY on a number or a text column: some sorted arrangement of the rows *)
Class SqlOrder := {
  order_num : ∀ {A : Type}, (A → Z) → list A → list A;
  order_text : ∀ {A : Type}, (A → str) → list A → list A;
  (** [ORDER BY updated_at DESC, resource_kind ASC, resource_id ASC] *)
  order_recent : list AutomationResourceRow → list AutomationResourceRow;
  order_num_perm {A} (key : A → Z) l : order_num key l ≡ₚ l;
  order_num_sorted {A} (key : A → Z) l : StronglySorted (fun a b => key a <= key b) (order_num key l);
  order_text_perm {A} (key : A → str) l : order_text key l ≡ₚ l;
  order_recent_perm l : order_recent l ≡ₚ l
}.

(** [UPDATE ... WHERE id], then [INSERT] when no row was affected *)
Definition save_rewrite_rule (r : RewriteRuleRow) (db : Db) : Db := with_rewrites db (<[rr_id r := r]> (rewrite_table db)).
Definition delete_rewrite_rule (id : str) (db : Db) : Db := with_rewrites db (delete id (rewrite_table db)).
Definition save_map_rule (r : MapRuleRow) (db : Db) : Db := with_maps db (<[mr_id r := r]> (map_table db)).
Definition delete_map_rule (id : str) (db : Db) : Db := with_maps db (delete id (map_table db)).

(** [INSERT ... ON CONFLICT DO UPDATE]: the creator and the creation time of an
    existing row stay. *)
Definition merge_resource (old new : AutomationResourceRow) : AutomationResourceRow :=
  {| rs_resource_kind := rs_resource_kind old; rs_resource_id := rs_resource_id old; rs_scope := rs_scope new;
     rs_scope_key := rs_scope_key new; rs_workspace_id := rs_workspace_id new; rs_owner_kind := rs_owner_kind new;
     rs_created_by_client := match rs_created_by_client old with Some c => Some c | None => rs_created_by_client new end;
     rs_created_by_version := match rs_created_by_version old with Some c => Some c | None => rs_created_by_version new end;
     rs_change_id := rs_change_id new; rs_expires_at := rs_expires_at new; rs_created_at := rs_created_at old;
     rs_updated_at := rs_updated_at new |}.

Definition save_automation_resource (r : AutomationResourceRow) (db : Db) : Db :=
  let key := (rs_resource_kind r, rs_resource_id r) in
  let row := match resources db !! key with Some old => merge_resource old r | None => r end in
  with_resources db (<[key := row]> (resources db)).

Definition load_automation_resource (kind id : str) (db : Db) : option AutomationResourceRow := resources db !! (kind, id).

Definition delete_automation_resource (kind id : str) (db : Db) : Db := with_resources db (delete (kind, id) (resources db)).

Definition delete_automation_resources_for_change (change_id : str) (db : Db) : Db :=
  with_resources db (filter (fun kr => rs_change_id kr.2 ≠ Some change_id) (resources db)).

(** The owner of the resources of a change; the number of rows *)
Definition set_automation_change_owner (change_id owner updated_at : str) (db : Db) : Db * Z :=
  let mine r := bool_decide (rs_change_id r = Some change_id) in
  let set_owner r :=
    if mine r then
      {| rs_resource_kind := rs_resource_kind r; rs_resource_id := rs_resource_id r; rs_scope := rs_scope r;
         rs_scope_key := rs_scope_key r; rs_workspace_id := rs_workspace_id r; rs_owner_kind := owner;
         rs_created_by_client := rs_created_by_client r; rs_created_by_version := rs_created_by_version r;
         rs_change_id := rs_change_id r; rs_expires_at := rs_expires_at r; rs_created_at := rs_created_at r;
         rs_updated_at := updated_at |}
    else r in
  (with_resources db (set_owner <$> resources db),
   len (List.filter (fun kr => mine kr.2) (map_to_list (resources db)))).

(** *** Change sets *)

Definition load_automation_change_set (id : str) (db : Db) : option AutomationChangeSetRow := change_sets db !! id.

Definition rows_of {K A} `{Countable K} (t : gmap K A) : list A := map snd (map_to_list t).

Definition load_automation_change_by_idempotency (scope_key key : str) (db : Db) : option AutomationChangeSetRow :=
  find_first (fun c => bool_decide (cs_scope_key c = scope_key) && bool_decide (cs_idempotency_key c = key))
    (rows_of (change_sets db)).

(** [INSERT] with a primary key and UNIQUE (scope_key, idempotency_key) *)
Definition insert_automation_change_set (c : AutomationChangeSetRow) (db : Db) : result Db str :=
  match change_sets db !! cs_id c, load_automation_change_by_idempotency (cs_scope_key c) (cs_idempotency_key c) db with
  | None, None => Ok (with_change_sets db (<[cs_id c := c]> (change_sets db)))
  | _, _ => Err (lit "UNIQUE constraint failed")
  end.

(** [COALESCE(new, old)] *)
Definition coalesce {A} (new old : option A) : option A := match new with Some x => Some x | None => old end.

Definition with_status (status : str) (generation : option Z) (committed_at activated_at reverted_at : option str)
    (c : AutomationChangeSetRow) : AutomationChangeSetRow :=
  {| cs_id := cs_id c; cs_scope := cs_scope c; cs_scope_key := cs_scope_key c; cs_workspace_id := cs_workspace_id c;
     cs_idempotency_key := cs_idempotency_key c; cs_plan_hash := cs_plan_hash c;
     cs_expected_plan_hash := cs_expected_plan_hash c; cs_scope_hash_before := cs_scope_hash_before c;
     cs_scope_hash_after := cs_scope_hash_after c; cs_lifecycle := cs_lifecycle c; cs_status := status;
     cs_runtime_generation := coalesce generation (cs_runtime_generation c); cs_client_name := cs_client_name c;
     cs_client_version := cs_client_version c; cs_summary_json := cs_summary_json c; cs_created_at := cs_created_at c;
     cs_committed_at := coalesce committed_at (cs_committed_at c);
     cs_activated_at := coalesce activated_at (cs_activated_at c);
     cs_reverted_at := coalesce reverted_at (cs_reverted_at c); cs_expires_at := cs_expires_at c |}.

Definition update_automation_change_status (id status : str) (generation : option Z)
    (committed_at activated_at reverted_at : option str) (db : Db) : Db :=
  with_change_sets db (alter (with_status status generation committed_at activated_at reverted_at) id (change_sets db)).

Definition status_in (c : AutomationChangeSetRow) (statuses : list str) : bool := bool_decide (cs_status c ∈ statuses).
Definition is_ephemeral (c : AutomationChangeSetRow) : bool := bool_decide (cs_lifecycle c = lit "ephemeral").

(** [<=] on text *)
Fixpoint text_leb (a b : str) : bool :=
  match a, b with
  | [], _ => true
  | _ :: _, [] => false
  | x :: a, y :: b => (x <? y) || ((x =? y) && text_leb a b)
  end.

Section Select.
Context `{SqlOrder}.

Definition list_unfinished_automation_changes (db : Db) : list AutomationChangeSetRow :=
  order_text cs_created_at
    (List.filter (fun c => status_in c [lit "committed"; lit "publish_failed"; lit "reverting"]) (rows_of (change_sets db))).

Definition list_expired_ephemeral_changes (now : str) (db : Db) : list AutomationChangeSetRow :=
  order_text (fun c => default [] (cs_expires_at c))
    (List.filter (fun c =>
       is_ephemeral c && status_in c [lit "committed"; lit "active"; lit "publish_failed"]
       && match cs_expires_at c with Some e => text_leb e now | None => false end) (rows_of (change_sets db))).

Definition list_active_ephemeral_changes (db : Db) : list AutomationChangeSetRow :=
  order_text cs_created_at (List.filter (fun c => is_ephemeral c && status_in c [lit "active"]) (rows_of (change_sets db))).

Definition list_ephemeral_changes_for_restart_cleanup (db : Db) : list AutomationChangeSetRow :=
  order_text cs_created_at
    (List.filter (fun c =>
       is_ephemeral c && status_in c [lit "prepared"; lit "committed"; lit "active"; lit "publish_failed"; lit "reverting"])
       (rows_of (change_sets db))).

Definition load_automation_change_items (change_id : str) (db : Db) : list AutomationChangeItemRow :=
  order_num it_sequence (List.filter (fun i => bool_decide (it_change_id i = change_id)) (rows_of (change_items db))).

Definition load_all_rewrite_rules (db : Db) : list RewriteRuleRow := order_num rr_priority (rows_of (rewrite_table db)).
Definition load_all_map_rules (db : Db) : list MapRuleRow := order_num mr_priority (rows_of (map_table db)).

(** [LEFT JOIN automation_change_sets]; the lifecycle of a resource without a
    change is persistent. *)
Definition resource_lifecycle (db : Db) (r : AutomationResourceRow) : str :=
  match rs_change_id r ≫= (fun c => change_sets db !! c) with Some c => cs_lifecycle c | None => lit "persistent" end.

Definition list_automation_resources (scope_key kind lifecycle : option str) (limit : nat) (db : Db)
    : list AutomationResourceRow :=
  let matches want have := match want with None => true | Some w => bool_decide (have = w) end in
  take limit
    (order_recent
       (List.filter (fun r =>
          matches scope_key (rs_scope_key r) && matches kind (rs_resource_kind r)
          && matches lifecycle (resource_lifecycle db r)) (rows_of (resources db)))).
End Select.

Definition insert_automation_change_item (i : AutomationChangeItemRow) (db : Db) : result Db str :=
  let key := (it_change_id i, it_sequence i) in
  match change_items db !! key with
  | None => Ok (with_change_items db (<[key := i]> (change_items db)))
  | Some _ => Err (lit "UNIQUE constraint failed")
  end.

Definition update_automation_experiment_state (change_id status cleanup_state updated_at : str) (db : Db) : Db :=
  with_experiments db
    ((fun e => if bool_decide (ex_change_id e = change_id) then
                 {| ex_id := ex_id e; ex_change_id := ex_change_id e; ex_objective := ex_objective e;
                    ex_baseline_session_ids := ex_baseline_session_ids e; ex_status := status;
                    ex_cleanup_state := cleanup_state; ex_created_at := ex_created_at e; ex_updated_at := updated_at |}
               else e) <$> experiments db).

(** [SELECT DISTINCT change_id ... ORDER BY change_id] *)
Definition list_automation_change_ids_for_resource `{SqlOrder} (kind id : str) (db : Db) : list str :=
  order_text (fun c => c)
    (remove_dups (map it_change_id
       (List.filter (fun i => bool_decide (it_resource_kind i = kind) && bool_decide (it_resource_id i = id))
          (rows_of (change_items db))))).
