(* ===== verification/Automation.v ===== *)
(** * Automation: changes of an agent to the rules of the user

    Models the change lifecycle of src/apps/desktop/src-tauri/src/automation.rs:
    a plan is prepared against the running rules, committed to the database in one
    transaction, published to the runtime and marked active; a change can be rolled
    back, promoted, cleared, expire, or be recovered after a restart.  Every access
    to the database may fail ([faults]); clock readings and fresh ids are inputs.
    The user interface events are left out. *)

From S2P Require Import Prelude Str Patterns JsonPath RuleTypes RuleManagers RuleSelection HttpIo Rewrite.
From S2P Require Import MapRules AutomationPlan AutomationDb.

(** ** Definitions: the world *)

Inductive PreparedResource {number : Type} := PRewrite (rule : RewriteRule number) | PMap (rule : MapRule).
Arguments PreparedResource number : clear implicits.

(** The temporary rules of the older interface, which live in the runtime only *)
Record Legacy := { by_rule_id : gset str; auxiliary_rule_ids : gset str }.

(** serde_json on rules, metadata and summaries; chrono *)
Class ChangeCodec (number : Type) := {
  resource_value : PreparedResource number → value number;
  rewrite_json : RewriteRule number → str;
  rewrite_from_json : str → result (RewriteRule number) str;
  map_json : MapRule → str;
  map_from_json : str → result MapRule str;
  scope_value : str → list (RewriteRule number) → list MapRule → value number;
  dependencies_text : option str → option AutomationResourceRow → str;
  dependencies_metadata : str → result (option AutomationResourceRow) str;
  summary_text : gmap str str → Z → str;
  summary_refs : str → gmap str str;
  add_seconds : str → Z → str;
  rewrite_json_round r : rewrite_from_json (rewrite_json r) = Ok r;
  map_json_round r : map_from_json (map_json r) = Ok r;
  dependencies_round a m : dependencies_metadata (dependencies_text a m) = Ok m;
  summary_round refs n : summary_refs (summary_text refs n) = refs
}.

Section Automation.
Context {number : Type} `{AutomationCodec number} `{RowCodec number} `{ChangeCodec number} `{SqlOrder} `{RegexEngine}
  `{UrlOps} `{FileSystem}.

Record World := {
  db : Db; runtime : RuntimeRuleSnapshot number; legacy : Legacy; staged : gset str;
  clock : list str; uuids : nat → str; faults : list (option str)
}.

Definition M (A : Type) : Type := World → result A (AutomationError number) * World.

Definition ret {A} (a : A) : M A := fun w => (Ok a, w).
Definition throw {A} (e : AutomationError number) : M A := fun w => (Err e, w).
Definition bind {A B} (m : M A) (k : A → M B) : M B :=
  fun w => match m w with (Ok a, w) => k a w | (Err e, w) => (Err e, w) end.
Definition lift {A} (r : result A (AutomationError number)) : M A := fun w => (r, w).
Definition map_error {A} (f : AutomationError number → AutomationError number) (m : M A) : M A :=
  fun w => let '(r, w) := m w in (map_err f r, w).

#[local] Notation "'let!' x ':=' m 'in' k" := (bind m (fun x => k))
  (at level 10, x pattern, m at level 100, k at level 200).

Definition set_db (d : Db) (w : World) : World :=
  {| db := d; runtime := runtime w; legacy := legacy w; staged := staged w; clock := clock w; uuids := uuids w;
     faults := faults w |}.
Definition set_runtime (r : RuntimeRuleSnapshot number) (w : World) : World :=
  {| db := db w; runtime := r; legacy := legacy w; staged := staged w; clock := clock w; uuids := uuids w;
     faults := faults w |}.
Definition set_staged (s : gset str) (w : World) : World :=
  {| db := db w; runtime := runtime w; legacy := legacy w; staged := s; clock := clock w; uuids := uuids w;
     faults := faults w |}.

(** An access that may fail; the next entry of [faults] decides. *)
Definition io (label : str) : M unit :=
  fun w =>
    let w' := {| db := db w; runtime := runtime w; legacy := legacy w; staged := staged w; clock := clock w;
                 uuids := uuids w; faults := tail (faults w) |} in
    match head (faults w) with
    | Some (Some e) => (Err (internal (label ++ e)), w')
    | _ => (Ok tt, w')
    end.

(** [lock_db_for_ipc] *)
Definition lock_db : M unit := io [].

Definition query {A} (label : str) (f : Db → A) : M A := let! _ := io label in fun w => (Ok (f (db w)), w).
Definition execute (label : str) (f : Db → Db) : M unit := let! _ := io label in fun w => (Ok tt, set_db (f (db w)) w).
Definition try_execute (label : str) (f : Db → result Db str) : M unit :=
  let! _ := io label in
  fun w => match f (db w) with Ok d => (Ok tt, set_db d w) | Err e => (Err (internal (label ++ e)), w) end.

(** [transaction], [commit]: an error inside, or of the commit, leaves the
    database as it was. *)
Definition transaction {A} (begin_label commit_label : str) (body : M A) : M A :=
  fun w =>
    let d := db w in
    match (let! _ := io begin_label in let! a := body in let! _ := io commit_label in ret a) w with
    | (Ok a, w') => (Ok a, w')
    | (Err e, w') => (Err e, set_db d w')
    end.

(** [chrono::Utc::now().to_rfc3339()], [Uuid::new_v4()] *)
Definition now : M str :=
  fun w => (Ok (default [] (head (clock w))),
            {| db := db w; runtime := runtime w; legacy := legacy w; staged := staged w; clock := tail (clock w);
               uuids := uuids w; faults := faults w |}).
Definition new_uuid : M str :=
  fun w => (Ok (uuids w 0%nat),
            {| db := db w; runtime := runtime w; legacy := legacy w; staged := staged w; clock := clock w;
               uuids n := uuids w (S n); faults := faults w |}).

Fixpoint for_each {A} (l : list A) (f : A → M unit) : M unit :=
  match l with
  | [] => ret tt
  | a :: l => let! _ := f a in for_each l f
  end.

(** ** Definitions: resources *)

Definition kind (r : PreparedResource number) : str :=
  match r with PRewrite _ => lit "rewrite" | PMap _ => lit "map" end.
Definition id (r : PreparedResource number) : str := match r with PRewrite r => rw_id r | PMap r => map_id r end.
Definition version (r : PreparedResource number) : str := hash_json (resource_value r).
Definition resource_json (r : PreparedResource number) : str :=
  match r with PRewrite r => rewrite_json r | PMap r => map_json r end.
Definition workspace_of (r : PreparedResource number) : str :=
  match r with PRewrite r => rw_workspace_id r | PMap r => map_workspace_id r end.

(** [list_rules] of the managers *)
Definition live_rewrites (w : World) : list (RewriteRule number) := map cr_rule (rewrite (runtime w)).
Definition live_maps (w : World) : list MapRule := map cm_rule (map_rules (runtime w)).

Definition live (k i : str) (w : World) : option (PreparedResource number) :=
  if bool_decide (k = lit "rewrite") then PRewrite <$> find_first (fun r => bool_decide (rw_id r = i)) (live_rewrites w)
  else if bool_decide (k = lit "map") then PMap <$> find_first (fun r => bool_decide (map_id r = i)) (live_maps w)
  else None.

Record PreparedChangeItem := {
  pi_resource : PreparedResource number; pi_operation : str; pi_version_before : option str;
  pi_version_after : option str; pi_before_json : option str; pi_after_json : str;
  pi_metadata_before : option AutomationResourceRow; pi_metadata_after : option AutomationResourceRow;
  pi_dependencies_json : str
}.

Record AutomationPlanResource := {
  pr_kind : str; pr_id : option str; pr_ref : option str; pr_operation : str; pr_owner : str; pr_version : option str
}.

Record PreparedPlan := {
  pp_change_id : str; pp_idempotency_key : str; pp_lifecycle : str; pp_plan_hash : str; pp_scope_hash_before : str;
  pp_scope_hash_after : str; pp_scope_key : str; pp_workspace_id : option str; pp_expires_at : option str;
  pp_items : list PreparedChangeItem; pp_resource_ids_by_ref : gmap str str; pp_warnings : list str;
  pp_plan_resources : list AutomationPlanResource
}.

Record AutomationPermissions := {
  manage_automation : bool; manage_user_automation : bool; manage_scripts : bool; manage_cross_host_mappings : bool;
  manage_proxied_verification : bool; manage_global_automation : bool; automation_approved_roots : list str;
  proxied_verification_origins : list str
}.

Definition coded (code message : str) : AutomationError number := error_new code message.
Definition denied (message : str) : AutomationError number := coded (lit "CONTROL_PERMISSION_DENIED") message.

Definition owner_of (metadata : option AutomationResourceRow) : str :=
  match metadata with Some row => rs_owner_kind row | None => lit "user" end.

(** ** Definitions: checks of one resource *)

Definition ensure_resource_in_plan_scope (k i resource_workspace plan_workspace : str) : result unit (AutomationError number) :=
  require (bool_decide (resource_workspace = plan_workspace))
    (with_details (coded (lit "SCOPE_CONFLICT") (k ++ lit " resource belongs to a different workspace"))
       [(lit "kind", String k); (lit "resourceId", String i)]).

Definition ensure_persistent_update_allowed (plan_lifecycle k i : str) (metadata : option AutomationResourceRow) : M unit :=
  match bool_decide (plan_lifecycle = lit "persistent"), metadata ≫= rs_change_id with
  | true, Some change_id =>
      let! change := query (lit "load resource lifecycle: ") (load_automation_change_set change_id) in
      match change with
      | None =>
          throw (internal (lit "resource " ++ k ++ lit ":" ++ i ++ lit " points at missing automation change " ++ change_id))
      | Some change =>
          lift (require (negb (is_ephemeral change))
            (with_details
               (invalid (lit "persistent plans cannot update " ++ k ++ lit " resource " ++ i ++
                         lit " while it belongs to an ephemeral change; wait for expiry or clear Agent automation first"))
               [(lit "kind", String k); (lit "resourceId", String i); (lit "changeId", String change_id);
                (lit "resourceLifecycle", String (cs_lifecycle change)); (lit "planLifecycle", String plan_lifecycle)]))
      end
  | _, _ => ret tt
  end.

(** The checks on an upsert with an id *)
Definition check_update (lifecycle k i workspace : str) (permissions : AutomationPermissions)
    (existing : option (PreparedResource number)) (metadata : option AutomationResourceRow)
    (expected_version : option str) : M unit :=
  let! _ := ensure_persistent_update_allowed lifecycle k i metadata in
  match existing with
  | None => throw (coded (lit "NOT_FOUND") (k ++ lit " resource " ++ i ++ lit " does not exist"))
  | Some current =>
      let! _ := lift (ensure_resource_in_plan_scope k i (workspace_of current) workspace) in
      let! _ := lift (require (negb (bool_decide (owner_of metadata = lit "user") && negb (manage_user_automation permissions)))
                  (denied (k ++ lit " resource " ++ i ++ lit " is user-owned; manageUserAutomation is required"))) in
      match expected_version with
      | None => throw (invalid (k ++ lit " resource " ++ i ++ lit " update requires expectedVersion"))
      | Some expected =>
          lift (require (bool_decide (expected = version current))
            (with_details (coded (lit "RESOURCE_VERSION_MISMATCH") (k ++ lit " resource " ++ i ++ lit " changed since it was read"))
               [(lit "currentVersion", String (version current))]))
      end
  end.

Definition automation_resource_row (k i : str) (plan : AutomationPlan number) (workspace : option str) (change_id : str)
    (expires_at : option str) (at_ : str) (caller : str * str) (owner : str) : AutomationResourceRow :=
  {| rs_resource_kind := k; rs_resource_id := i; rs_scope := pl_scope plan;
     rs_scope_key := default (lit "global") (ok (automation_scope_key (number := number) (pl_scope plan) (pl_workspace_id plan)));
     rs_workspace_id := workspace; rs_owner_kind := owner; rs_created_by_client := Some caller.1;
     rs_created_by_version := Some caller.2; rs_change_id := Some change_id; rs_expires_at := expires_at;
     rs_created_at := at_; rs_updated_at := at_ |}.

(** ** Definitions: preparing a plan *)

Record PrepState := {
  ps_refs : list str; ps_by_ref : gmap str str; ps_resources : list AutomationPlanResource; ps_items : list PreparedChangeItem
}.

(** What the steps of one plan share *)
Record PrepContext := {
  pc_plan : AutomationPlan number; pc_caller : str * str; pc_permissions : AutomationPermissions; pc_change_id : str;
  pc_workspace_id : option str; pc_expires_at : option str; pc_now : str; pc_asset_paths : gmap str bytes
}.

Definition pc_workspace (c : PrepContext) : str := default [] (pc_workspace_id c).

(** [upsert.id], or a fresh one *)
Definition upsert_id {T} (u : AutomationUpsert T) : M str :=
  match up_id u with Some i => ret i | None => new_uuid end.

Definition upsert_operation {T} (u : AutomationUpsert T) : str := if is_some (up_id u) then lit "update" else lit "create".

(** The part of the loop bodies before the rule is built: the running resource,
    its metadata and the checks of an update *)
Definition start_upsert {T} (c : PrepContext) (k i : str) (u : AutomationUpsert T)
    : M (option (PreparedResource number) * option AutomationResourceRow) :=
  let! existing := (fun w => (Ok (live k i w), w)) in
  let! metadata :=
    match up_id u with
    | Some _ => query (lit "load resource ownership: ") (load_automation_resource k i)
    | None => ret None
    end in
  let! _ :=
    match up_id u with
    | Some _ =>
        check_update (pl_lifecycle (pc_plan c)) k i (pc_workspace c) (pc_permissions c) existing metadata (up_expected_version u)
    | None => ret tt
    end in
  ret (existing, metadata).

Definition register_ref {T} (i : str) (u : AutomationUpsert T) (s : PrepState) : M PrepState :=
  match up_ref u with
  | None => ret s
  | Some reference =>
      let! refs := lift (validate_ref reference (ps_refs s)) in
      ret {| ps_refs := refs; ps_by_ref := <[reference := i]> (ps_by_ref s); ps_resources := ps_resources s;
             ps_items := ps_items s |}
  end.

(** The part after the rule is built *)
Definition upsert_item {T} (c : PrepContext) (u : AutomationUpsert T) (asset_ref : option str)
    (existing : option (PreparedResource number)) (metadata : option AutomationResourceRow) (after : PreparedResource number)
    : PreparedChangeItem :=
  {| pi_resource := after; pi_operation := upsert_operation u; pi_version_before := version <$> existing;
     pi_version_after := Some (version after); pi_before_json := resource_json <$> existing;
     pi_after_json := resource_json after; pi_metadata_before := metadata;
     pi_metadata_after := Some (automation_resource_row (kind after) (id after) (pc_plan c) (pc_workspace_id c)
                                  (pc_change_id c) (pc_expires_at c) (pc_now c) (pc_caller c) (lit "agent"));
     pi_dependencies_json := dependencies_text asset_ref metadata |}.

Definition finish_upsert {T} (c : PrepContext) (u : AutomationUpsert T) (asset_ref : option str)
    (existing : option (PreparedResource number)) (metadata : option AutomationResourceRow) (after : PreparedResource number)
    (s : PrepState) : PrepState :=
  {| ps_refs := ps_refs s; ps_by_ref := ps_by_ref s;
     ps_resources := ps_resources s ++
       [{| pr_kind := kind after; pr_id := up_id u; pr_ref := up_ref u; pr_operation := upsert_operation u;
           pr_owner := owner_of metadata; pr_version := Some (version after) |}];
     ps_items := ps_items s ++ [upsert_item c u asset_ref existing metadata after] |}.

Definition rewrite_of (r : option (PreparedResource number)) : option (RewriteRule number) :=
  match r with Some (PRewrite r) => Some r | _ => None end.
Definition map_of (r : option (PreparedResource number)) : option MapRule :=
  match r with Some (PMap r) => Some r | _ => None end.

Definition prepare_rewrite (c : PrepContext) (u : AutomationUpsert (AutomationRewriteResource number)) (s : PrepState)
    : M PrepState :=
  let! i := upsert_id u in
  let! em := start_upsert c (lit "rewrite") i u in
  let '(existing, metadata) := em in
  let! s := register_ref i u s in
  let! rule := lift (build_rewrite_rule (pc_workspace c) i (up_resource u) (rewrite_of existing)) in
  ret (finish_upsert c u None existing metadata (PRewrite rule) s).

Definition prepare_map (c : PrepContext) (u : AutomationUpsert AutomationMapResource) (s : PrepState) : M PrepState :=
  let! i := upsert_id u in
  let! em := start_upsert c (lit "map") i u in
  let '(existing, metadata) := em in
  let! s := register_ref i u s in
  let! target := lift (resolve_map_target (up_resource u) (pc_asset_paths c) (map_target_value <$> map_of existing)
                         (automation_approved_roots (pc_permissions c))) in
  let! rule := lift (build_map_rule (pc_workspace c) i (up_resource u) target (map_of existing)) in
  let! _ := lift (require (bool_decide (map_mode rule = lit "local"))
                    (unavailable (lit "Map Remote is not available in this release"))) in
  ret (finish_upsert c u (am_managed_asset_ref (up_resource u)) existing metadata (PMap rule) s).

Definition prepare_delete (c : PrepContext) (d : AutomationDelete) (s : PrepState) : M PrepState :=
  let k := del_kind d in
  if negb (is_one_of k [lit "rewrite"; lit "map"]) then throw (unavailable (lit "unsupported delete kind " ++ k))
  else
    let! before := (fun w => (Ok (live k (del_id d) w), w)) in
    let! metadata := query (lit "load resource ownership: ") (load_automation_resource k (del_id d)) in
    match before with
    | None => throw (coded (lit "NOT_FOUND") (k ++ lit " resource " ++ del_id d ++ lit " does not exist"))
    | Some before =>
        let! _ := lift (ensure_resource_in_plan_scope k (del_id d) (workspace_of before) (pc_workspace c)) in
        let! _ := ensure_persistent_update_allowed (pl_lifecycle (pc_plan c)) k (del_id d) metadata in
        let! _ := lift (require (negb (bool_decide (owner_of metadata = lit "user")
                                       && negb (manage_user_automation (pc_permissions c))))
                    (denied (k ++ lit " resource " ++ del_id d ++ lit " is user-owned; manageUserAutomation is required"))) in
        let! _ := lift (require (bool_decide (version before = del_expected_version d))
                    (coded (lit "RESOURCE_VERSION_MISMATCH") (k ++ lit " resource " ++ del_id d ++ lit " changed since it was read"))) in
        ret {| ps_refs := ps_refs s; ps_by_ref := ps_by_ref s;
               ps_resources := ps_resources s ++
                 [{| pr_kind := k; pr_id := Some (del_id d); pr_ref := None; pr_operation := lit "delete";
                     pr_owner := owner_of metadata; pr_version := None |}];
               ps_items := ps_items s ++
                 [{| pi_resource := before; pi_operation := lit "delete"; pi_version_before := Some (version before);
                     pi_version_after := None; pi_before_json := Some (resource_json before);
                     pi_after_json := lit "null"; pi_metadata_before := metadata; pi_metadata_after := None;
                     pi_dependencies_json := dependencies_text None metadata |}] |}
    end.

Fixpoint fold_m {A S} (f : A → S → M S) (l : list A) (s : S) : M S :=
  match l with
  | [] => ret s
  | a :: l => let! s := f a s in fold_m f l s
  end.

(** *** The scope of a change *)

Fixpoint insert_by {A} (key : A → str) (x : A) (l : list A) : list A :=
  match l with
  | [] => [x]
  | y :: l => if text_leb (key x) (key y) then x :: y :: l else y :: insert_by key x l
  end.

(** [sort_by(|a, b| a.id.cmp(&b.id))] *)
Definition sort_ids {A} (key : A → str) (l : list A) : list A := fold_right (insert_by key) [] l.

Definition apply_rewrite_items (items : list PreparedChangeItem) (rules : list (RewriteRule number)) : list (RewriteRule number) :=
  fold_left (fun rules i =>
    match pi_resource i with
    | PRewrite rule =>
        List.filter (fun r => negb (bool_decide (rw_id r = rw_id rule))) rules
        ++ (if bool_decide (pi_operation i = lit "delete") then [] else [rule])
    | PMap _ => rules
    end) items rules.

Definition apply_map_items (items : list PreparedChangeItem) (rules : list MapRule) : list MapRule :=
  fold_left (fun rules i =>
    match pi_resource i with
    | PMap rule =>
        List.filter (fun r => negb (bool_decide (map_id r = map_id rule))) rules
        ++ (if bool_decide (pi_operation i = lit "delete") then [] else [rule])
    | PRewrite _ => rules
    end) items rules.

(** The pattern hosts of the items of one kind; [None] when one is unbounded *)
Definition rewrite_hosts (items : list PreparedChangeItem) : list (option str) :=
  omap (fun i => match pi_resource i with PRewrite r => Some (pattern_host (rm_url_pattern (rw_match r))) | PMap _ => None end) items.
Definition map_hosts (items : list PreparedChangeItem) : list (option str) :=
  omap (fun i => match pi_resource i with PMap r => Some (pattern_host (map_source_pattern r)) | PRewrite _ => None end) items.

Definition in_scope (targets : list (str * str)) (hosts : list (option str)) (k i : str) (host : option str) : bool :=
  existsb (fun h => negb (is_some h)) hosts || bool_decide ((k, i) ∈ targets)
  || existsb (fun h => match h with Some h => host_conflicts h host | None => false end) hosts.

Definition scope_hash (workspace_id : option str) (items : list PreparedChangeItem) (after : bool) (w : World) : str :=
  match workspace_id with
  | None => hash_json (Object [(lit "scope", String (lit "global"))])
  | Some workspace_id =>
      let targets := map (fun i => (kind (pi_resource i), id (pi_resource i))) items in
      let rewrites := List.filter (fun r => bool_decide (rw_workspace_id r = workspace_id)
        && in_scope targets (rewrite_hosts items) (lit "rewrite") (rw_id r) (pattern_host (rm_url_pattern (rw_match r))))
        (live_rewrites w) in
      let maps := List.filter (fun r => bool_decide (map_workspace_id r = workspace_id)
        && in_scope targets (map_hosts items) (lit "map") (map_id r) (pattern_host (map_source_pattern r)))
        (live_maps w) in
      let rewrites := if after then apply_rewrite_items items rewrites else rewrites in
      let maps := if after then apply_map_items items maps else maps in
      hash_json (scope_value workspace_id (sort_ids rw_id rewrites) (sort_ids map_id maps))
  end.

Context (asset_root : bytes).

Fixpoint collect_assets (assets : list AutomationAsset) (refs : list str) : result (list str) (AutomationError number) :=
  match assets with
  | [] => Ok refs
  | a :: assets =>
      let? _ := require (negb (bool_decide (as_ref a ∈ refs))) (invalid (lit "duplicate asset ref " ++ as_ref a)) in
      let? _ := validate_asset a in
      collect_assets assets (as_ref a :: refs)
  end.

Definition prepare_automation_plan (plan : AutomationPlan number) (caller : str * str) (permissions : AutomationPermissions)
    : M PreparedPlan :=
  let! _ := lift (validate_plan_shape plan) in
  let! _ := lift (require (manage_automation permissions) (denied (lit "manageAutomation is disabled"))) in
  let! _ := lift (require (negb (bool_decide (pl_scope plan = lit "global")) || manage_global_automation permissions)
                    (denied (lit "manageGlobalAutomation is disabled"))) in
  let! _ := lift (require (is_empty (us_script (pl_upserts plan)) || manage_scripts permissions)
                    (denied (lit "manageScripts is disabled"))) in
  let! scope_key := lift (automation_scope_key (pl_scope plan) (pl_workspace_id plan)) in
  let workspace_id := if bool_decide (pl_scope plan = lit "workspace") then pl_workspace_id plan else None in
  let! change_id := new_uuid in
  let plan_hash := hash_json (plan_value plan) in
  let! expires_at :=
    if bool_decide (pl_lifecycle plan = lit "ephemeral") then
      let! t := now in ret (Some (add_seconds t (default 600 (pl_ttl_seconds plan))))
    else ret None in
  let! _ := lock_db in
  let! refs := lift (collect_assets (pl_assets plan) []) in
  let! asset_paths := lift (preview_asset_paths asset_root change_id (pl_assets plan) ∅) in
  let! at_ := now in
  let c := {| pc_plan := plan; pc_caller := caller; pc_permissions := permissions; pc_change_id := change_id;
              pc_workspace_id := workspace_id; pc_expires_at := expires_at; pc_now := at_; pc_asset_paths := asset_paths |} in
  let s := {| ps_refs := refs; ps_by_ref := ∅; ps_resources := []; ps_items := [] |} in
  let! s := fold_m (prepare_rewrite c) (us_rewrite (pl_upserts plan)) s in
  let! s := fold_m (prepare_map c) (us_map (pl_upserts plan)) s in
  let! s := fold_m (prepare_delete c) (pl_deletes plan) s in
  let! _ := lift (require (negb (is_empty (ps_items s))) (invalid (lit "automation plan must contain at least one change"))) in
  fun w =>
    (Ok {| pp_change_id := change_id; pp_idempotency_key := pl_idempotency_key plan; pp_lifecycle := pl_lifecycle plan;
           pp_plan_hash := plan_hash; pp_scope_hash_before := scope_hash workspace_id (ps_items s) false w;
           pp_scope_hash_after := scope_hash workspace_id (ps_items s) true w; pp_scope_key := scope_key;
           pp_workspace_id := workspace_id; pp_expires_at := expires_at; pp_items := ps_items s;
           pp_resource_ids_by_ref := ps_by_ref s; pp_warnings := via_warnings_for_risk plan;
           pp_plan_resources := ps_resources s |}, w).

(** ** Definitions: committing a change *)

(** [stage_assets]: decoding, the size limit and the files; the model keeps the
    changes that have a directory. *)
Fixpoint stage_each (change_id : str) (paths : gmap str bytes) (assets : list AutomationAsset) : M unit :=
  match assets with
  | [] => ret tt
  | a :: assets =>
      let! _ := lift (ok_or (paths !! as_ref a) (internal (lit "asset path missing for " ++ as_ref a))) in
      let! bytes := lift (map_err (fun e => invalid (lit "asset " ++ as_ref a ++ lit " is not valid base64: " ++ e))
                            (asset_decode (as_content_base64 a))) in
      let! _ := lift (require (len bytes <=? MAX_ASSET_BYTES) (invalid (lit "asset " ++ as_ref a ++ lit " exceeds 5 MiB"))) in
      let! _ := io (lit "create automation asset directory: ") in
      let! _ := (fun w => (Ok tt, set_staged ({[change_id]} ∪ staged w) w)) in
      let! _ := io (lit "write automation asset: ") in
      let! _ := io (lit "publish automation asset: ") in
      stage_each change_id paths assets
  end.

Definition stage_assets (change_id : str) (assets : list AutomationAsset) : M unit :=
  let! paths := lift (preview_asset_paths asset_root change_id assets ∅) in stage_each change_id paths assets.

(** [let _ = remove_staged_assets(...)]: a failure is ignored. *)
Definition remove_staged_assets (change_id : str) : M unit :=
  fun w =>
    match io [] w with
    | (Ok _, w) => (Ok tt, set_staged (staged w ∖ {[change_id]}) w)
    | (Err _, w) => (Ok tt, w)
    end.

Definition save_rule (r : PreparedResource number) (d : Db) : Db :=
  match r with PRewrite r => save_rewrite_rule (rewrite_row r) d | PMap r => save_map_rule (map_row r) d end.
Definition delete_rule (r : PreparedResource number) (d : Db) : Db :=
  match r with PRewrite r => delete_rewrite_rule (rw_id r) d | PMap r => delete_map_rule (map_id r) d end.

Definition item_row (change_id : str) (sequence : Z) (i : PreparedChangeItem) : AutomationChangeItemRow :=
  {| it_change_id := change_id; it_sequence := sequence; it_resource_kind := kind (pi_resource i);
     it_resource_id := id (pi_resource i); it_operation := pi_operation i; it_version_before := pi_version_before i;
     it_version_after := pi_version_after i; it_before_json := pi_before_json i; it_after_json := Some (pi_after_json i);
     it_dependencies_json := pi_dependencies_json i |}.

Definition is_delete (i : PreparedChangeItem) : bool := bool_decide (pi_operation i = lit "delete").

Definition was_agent_owned (i : PreparedChangeItem) : bool :=
  match pi_metadata_before i with Some row => bool_decide (rs_owner_kind row = lit "agent") | None => false end.

Definition commit_item (change_id : str) (writes_user_rule_tables : bool) (sequence : Z) (i : PreparedChangeItem) : M unit :=
  let! _ :=
    if writes_user_rule_tables then
      if is_delete i then execute (lit "delete " ++ kind (pi_resource i) ++ lit " rule: ") (delete_rule (pi_resource i))
      else execute (lit "save " ++ kind (pi_resource i) ++ lit " rule: ") (save_rule (pi_resource i))
    else ret tt in
  let! _ :=
    if is_delete i then
      match pi_metadata_before i with
      | Some row => execute (lit "delete resource metadata: ") (delete_automation_resource (rs_resource_kind row) (rs_resource_id row))
      | None => ret tt
      end
    else
      match pi_metadata_after i with
      | Some row =>
          if bool_decide (pi_operation i = lit "create") || was_agent_owned i
          then execute (lit "save resource metadata: ") (save_automation_resource row) else ret tt
      | None => ret tt
      end in
  try_execute (lit "insert change item: ") (insert_automation_change_item (item_row change_id sequence i)).

Fixpoint commit_items (change_id : str) (writes : bool) (sequence : Z) (items : list PreparedChangeItem) : M unit :=
  match items with
  | [] => ret tt
  | i :: items => let! _ := commit_item change_id writes sequence i in commit_items change_id writes (sequence + 1) items
  end.

Definition change_set_row (p : PreparedPlan) (caller : str * str) (at_ : str) : AutomationChangeSetRow :=
  {| cs_id := pp_change_id p; cs_scope := if is_some (pp_workspace_id p) then lit "workspace" else lit "global";
     cs_scope_key := pp_scope_key p; cs_workspace_id := pp_workspace_id p; cs_idempotency_key := pp_idempotency_key p;
     cs_plan_hash := pp_plan_hash p; cs_expected_plan_hash := pp_plan_hash p;
     cs_scope_hash_before := pp_scope_hash_before p; cs_scope_hash_after := pp_scope_hash_after p;
     cs_lifecycle := pp_lifecycle p; cs_status := lit "prepared"; cs_runtime_generation := None;
     cs_client_name := Some caller.1; cs_client_version := Some caller.2;
     cs_summary_json := summary_text (pp_resource_ids_by_ref p) (len (pp_items p)); cs_created_at := at_;
     cs_committed_at := None; cs_activated_at := None; cs_reverted_at := None; cs_expires_at := pp_expires_at p |}.

Definition update_status (change_id status : str) (generation : option Z) (committed_at activated_at reverted_at : option str)
    (label : str) : M unit :=
  execute label (update_automation_change_status change_id status generation committed_at activated_at reverted_at).

Definition commit_prepared_change (p : PreparedPlan) (caller : str * str) : M unit :=
  let! _ := lock_db in
  transaction (lit "begin automation transaction: ") (lit "commit automation change: ")
    (let! at_ := now in
     let! _ := try_execute (lit "insert automation change: ") (insert_automation_change_set (change_set_row p caller at_)) in
     let! _ := update_status (pp_change_id p) (lit "committed") None (Some at_) None None (lit "mark change committed: ") in
     commit_items (pp_change_id p) (negb (bool_decide (pp_lifecycle p = lit "ephemeral"))) 0 (pp_items p)).

(** ** Definitions: publishing to the runtime *)

Abbreviation Locked R := (R * option str)%type.

Definition metadata_map (rows : list AutomationResourceRow) : gmap (str * str) AutomationResourceRow :=
  fold_left (fun m r => <[(rs_resource_kind r, rs_resource_id r) := r]> m) rows ∅.

Definition runtime_host_lock_for_resource (k i pattern : str) (metadata : gmap (str * str) AutomationResourceRow)
    : result (option str) (AutomationError number) :=
  if match metadata !! (k, i) with Some row => bool_decide (rs_owner_kind row = lit "agent") | None => false end then
    let? host := exact_pattern_host pattern (lit "Agent rule pattern") in Ok (Some host)
  else Ok None.

Fixpoint collect {A B} (f : A → result B (AutomationError number)) (l : list A) : result (list B) (AutomationError number) :=
  match l with
  | [] => Ok []
  | a :: l => let? b := f a in let? bs := collect f l in Ok (b :: bs)
  end.

Definition locked_rewrite (metadata : gmap (str * str) AutomationResourceRow) (row : RewriteRuleRow)
    : result (Locked (RewriteRule number)) (AutomationError number) :=
  let rule := rewrite_row_to_rule row in
  let? lock := runtime_host_lock_for_resource (lit "rewrite") (rw_id rule) (rm_url_pattern (rw_match rule)) metadata in
  Ok (rule, lock).

Definition locked_map (metadata : gmap (str * str) AutomationResourceRow) (row : MapRuleRow)
    : result (Locked MapRule) (AutomationError number) :=
  let rule := map_row_to_rule row in
  let? lock := runtime_host_lock_for_resource (lit "map") (map_id rule) (map_source_pattern rule) metadata in
  Ok (rule, lock).

Definition Overlay : Type := list (Locked (RewriteRule number)) * list (Locked MapRule).

(** One item of an ephemeral change: it replaces the rule of its id when the
    resource still belongs to the change. *)
Definition overlay_item (metadata : gmap (str * str) AutomationResourceRow) (change_id : str) (i : AutomationChangeItemRow)
    (o : Overlay) : result Overlay (AutomationError number) :=
  if negb (bool_decide ((metadata !! (it_resource_kind i, it_resource_id i) ≫= rs_change_id) = Some change_id)) then Ok o
  else
    match it_after_json i with
    | None => Ok o
    | Some after_json =>
        if negb (is_one_of (it_operation i) [lit "create"; lit "update"]) then Ok o
        else if bool_decide (it_resource_kind i = lit "rewrite") then
          let? rule := map_err (fun e => internal (lit "decode ephemeral rewrite: " ++ e)) (rewrite_from_json after_json) in
          let? host := exact_pattern_host (rm_url_pattern (rw_match rule)) (lit "ephemeral rewrite urlPattern") in
          Ok (List.filter (fun e => negb (bool_decide (rw_id e.1 = rw_id rule))) o.1 ++ [(rule, Some host)], o.2)
        else if bool_decide (it_resource_kind i = lit "map") then
          let? rule := map_err (fun e => internal (lit "decode ephemeral map: " ++ e)) (map_from_json after_json) in
          let? host := exact_pattern_host (map_source_pattern rule) (lit "ephemeral map sourcePattern") in
          Ok (o.1, List.filter (fun e => negb (bool_decide (map_id e.1 = map_id rule))) o.2 ++ [(rule, Some host)])
        else Ok o
    end.

Fixpoint overlay_items (metadata : gmap (str * str) AutomationResourceRow) (change_id : str)
    (items : list AutomationChangeItemRow) (o : Overlay) : result Overlay (AutomationError number) :=
  match items with
  | [] => Ok o
  | i :: items => let? o := overlay_item metadata change_id i o in overlay_items metadata change_id items o
  end.

Definition overlay_change (metadata : gmap (str * str) AutomationResourceRow) (c : AutomationChangeSetRow) (o : Overlay) : M Overlay :=
  let! _ := lock_db in
  let! items := query (lit "load ephemeral items: ") (load_automation_change_items (cs_id c)) in
  lift (overlay_items metadata (cs_id c) items o).

(** The running rules that are to be kept and that the list does not have yet *)
Definition add_missing {R} (rule_id : R → str) (keep : str → bool) (running acc : list (Locked R)) : list (Locked R) :=
  fold_left (fun acc e =>
    if keep (rule_id e.1) && negb (existsb (fun x => bool_decide (rule_id x.1 = rule_id e.1)) acc) then acc ++ [e] else acc)
    running acc.

(** The temporary rules stay unless the database has their id. *)
Definition merge_legacy (w : World) (o : Overlay) : Overlay :=
  (add_missing rw_id (fun i => bool_decide (i ∈ by_rule_id (legacy w)) || bool_decide (i ∈ auxiliary_rule_ids (legacy w)))
     (map (fun e => (cr_rule e, cr_host_lock e)) (rewrite (runtime w))) o.1,
   add_missing map_id (fun i => bool_decide (i ∈ by_rule_id (legacy w)))
     (map (fun e => (cm_rule e, cm_host_lock e)) (map_rules (runtime w))) o.2).

Definition RESOURCE_LIMIT : nat := Z.to_nat 10000.

(** The change being applied is not yet active. *)
Definition add_pending (pending : option str) (changes : list AutomationChangeSetRow) : M (list AutomationChangeSetRow) :=
  match pending with
  | Some change_id =>
      if existsb (fun c => bool_decide (cs_id c = change_id)) changes then ret changes
      else
        let! _ := lock_db in
        let! change := query (lit "load pending ephemeral change: ") (load_automation_change_set change_id) in
        ret (match change with
             | Some c => if is_ephemeral c && status_in c [lit "committed"; lit "publish_failed"; lit "active"]
                         then changes ++ [c] else changes
             | None => changes
             end)
  | None => ret changes
  end.

Definition publish_current_runtime (pending : option str) : M Z :=
  let! _ := lock_db in
  let! rewrite_rows := query (lit "reload rewrite rules: ") load_all_rewrite_rules in
  let! map_rows := query (lit "reload map rules: ") load_all_map_rules in
  let! rows := query (lit "load runtime resource ownership: ") (list_automation_resources None None None RESOURCE_LIMIT) in
  let! changes := query (lit "load ephemeral changes: ") list_active_ephemeral_changes in
  let! changes := add_pending pending changes in
  let metadata := metadata_map rows in
  let! rewrites := lift (collect (locked_rewrite metadata) rewrite_rows) in
  let! maps := lift (collect (locked_map metadata) map_rows) in
  let! o := fold_m (overlay_change metadata) changes (rewrites, maps) in
  fun w =>
    let '(rewrites, maps) := merge_legacy w o in
    let generation := sat_add64 (generation (runtime w)) 1 in
    (Ok generation, set_runtime {| generation := generation; rewrite := compile_rewrite_rules rewrites;
                                   map_rules := compile_map_rules maps |} w).

(** ** Definitions: applying a plan *)

Record AutomationApplyResult := {
  ap_change_id : str; ap_status : str; ap_runtime_generation : Z; ap_resource_ids_by_ref : gmap str str;
  ap_expires_at : option str; ap_idempotent : bool
}.

Record ApplyAutomationPlanParams := {
  ap_plan : AutomationPlan number; ap_expected_plan_hash : str; ap_expected_scope_hash : str
}.

Definition apply_result_from_change (c : AutomationChangeSetRow) (idempotent : bool) : AutomationApplyResult :=
  {| ap_change_id := cs_id c; ap_status := cs_status c; ap_runtime_generation := default 0 (cs_runtime_generation c);
     ap_resource_ids_by_ref := summary_refs (cs_summary_json c); ap_expires_at := cs_expires_at c;
     ap_idempotent := idempotent |}.

Definition change_detail (change_id : str) : list (str * value number) := [(lit "changeId", String change_id)].

(** A plan whose key was used before *)
Definition apply_existing (existing : AutomationChangeSetRow) (plan_hash : str) : M AutomationApplyResult :=
  let! _ := lift (require (bool_decide (cs_plan_hash existing = plan_hash))
    (with_details (coded (lit "IDEMPOTENCY_CONFLICT") (lit "idempotencyKey was already used for a different automation plan"))
       (change_detail (cs_id existing)))) in
  if status_in existing [lit "active"] then ret (apply_result_from_change existing true)
  else if status_in existing [lit "reverted"; lit "aborted"] then
    throw (with_details (coded (lit "CHANGE_NOT_APPLICABLE")
      (lit "this idempotencyKey belongs to a change that was rolled back or cleared; use a new idempotencyKey to apply the plan again"))
      [(lit "changeId", String (cs_id existing)); (lit "status", String (cs_status existing))])
  else if status_in existing [lit "committed"; lit "publish_failed"] then
    let! generation := publish_current_runtime (Some (cs_id existing)) in
    let! at_ := now in
    let! _ := lock_db in
    let! _ := update_status (cs_id existing) (lit "active") (Some generation) None (Some at_) None (lit "activate retried change: ") in
    let! refreshed := query (lit "reload retried change: ") (load_automation_change_set (cs_id existing)) in
    match refreshed with
    | Some refreshed => ret (apply_result_from_change refreshed true)
    | None => throw (internal (lit "retried change " ++ cs_id existing ++ lit " disappeared"))
    end
  else
    throw (with_details (coded (lit "CHANGE_NOT_APPLICABLE") (lit "automation change is " ++ cs_status existing))
             (change_detail (cs_id existing))).

(** [let Ok(conn) = lock ... let _ = update ...]: failures are ignored. *)
Definition note_publish_failed (change_id : str) : M unit :=
  fun w =>
    let '(_, w) := (let! _ := lock_db in
                    update_status change_id (lit "publish_failed") None None None None []) w in
    (Ok tt, w).

Definition publish_or_note (change_id : str) : M Z :=
  fun w =>
    match publish_current_runtime (Some change_id) w with
    | (Ok generation, w) => (Ok generation, w)
    | (Err e, w) =>
        let '(_, w) := note_publish_failed change_id w in
        (Err (with_details (coded (lit "RUNTIME_PUBLISH_FAILED")
                (lit "database committed but runtime publication failed: " ++ ae_message e)) (change_detail change_id)), w)
    end.

(** On failure the staged files are removed. *)
Definition commit_or_clean (p : PreparedPlan) (caller : str * str) : M unit :=
  fun w =>
    match commit_prepared_change p caller w with
    | (Ok _, w) => (Ok tt, w)
    | (Err e, w) => let '(_, w) := remove_staged_assets (pp_change_id p) w in (Err e, w)
    end.

Definition activation_failed (change_id : str) (e : AutomationError number) : AutomationError number :=
  with_details (coded (lit "ACTIVATION_RECORD_FAILED")
    (lit "runtime published but active status could not be recorded: " ++ ae_message e)) (change_detail change_id).

Definition apply_automation_plan_locked (params : ApplyAutomationPlanParams) (caller : str * str)
    (permissions : AutomationPermissions) : M AutomationApplyResult :=
  let plan := ap_plan params in
  let! _ := lift (validate_plan_shape plan) in
  let! scope_key := lift (automation_scope_key (pl_scope plan) (pl_workspace_id plan)) in
  let plan_hash := hash_json (plan_value plan) in
  let! _ := lock_db in
  let! existing := query (lit "load idempotency: ") (load_automation_change_by_idempotency scope_key (pl_idempotency_key plan)) in
  match existing with
  | Some existing => apply_existing existing plan_hash
  | None =>
      let! p := prepare_automation_plan plan caller permissions in
      let! _ := lift (require (bool_decide (ap_expected_plan_hash params = pp_plan_hash p))
        (coded (lit "PLAN_HASH_MISMATCH") (lit "expectedPlanHash does not match the supplied plan; run validate again"))) in
      let! _ := lift (require (bool_decide (ap_expected_scope_hash params = pp_scope_hash_before p))
        (coded (lit "SCOPE_CONFLICT") (lit "automation resources changed since validation; run validate again"))) in
      let! _ := stage_assets (pp_change_id p) (pl_assets plan) in
      let! _ := commit_or_clean p caller in
      let! generation := publish_or_note (pp_change_id p) in
      let! at_ := now in
      let! _ := lock_db in
      let! _ := map_error (activation_failed (pp_change_id p))
                  (update_status (pp_change_id p) (lit "active") (Some generation) None (Some at_) None []) in
      ret {| ap_change_id := pp_change_id p; ap_status := lit "active"; ap_runtime_generation := generation;
             ap_resource_ids_by_ref := pp_resource_ids_by_ref p; ap_expires_at := pp_expires_at p; ap_idempotent := false |}
  end.

(** ** Definitions: rolling back *)

Definition change_requires_user_automation (items : list AutomationChangeItemRow) : bool :=
  existsb (fun i =>
    if bool_decide (it_operation i = lit "create") then false
    else match dependencies_metadata (it_dependencies_json i) with
         | Ok (Some row) => bool_decide (rs_owner_kind row = lit "user")
         | _ => true
         end) items.

(** The snapshot of a change item as an item of the scope *)
Definition scope_item (i : AutomationChangeItemRow) : result PreparedChangeItem (AutomationError number) :=
  let? json := ok_or (if bool_decide (it_operation i = lit "delete") then it_before_json i else it_after_json i)
    (internal (lit "change item " ++ it_resource_kind i ++ lit " " ++ it_resource_id i ++ lit " is missing its resource snapshot")) in
  let? resource :=
    if bool_decide (it_resource_kind i = lit "rewrite") then
      let? r := map_err (fun e => internal (lit "decode rewrite scope snapshot: " ++ e)) (rewrite_from_json json) in Ok (PRewrite r)
    else if bool_decide (it_resource_kind i = lit "map") then
      let? r := map_err (fun e => internal (lit "decode map scope snapshot: " ++ e)) (map_from_json json) in Ok (PMap r)
    else Err (internal (lit "unsupported scope snapshot kind " ++ it_resource_kind i)) in
  Ok {| pi_resource := resource; pi_operation := it_operation i; pi_version_before := it_version_before i;
        pi_version_after := it_version_after i; pi_before_json := it_before_json i;
        pi_after_json := default (lit "null") (it_after_json i); pi_metadata_before := None; pi_metadata_after := None;
        pi_dependencies_json := it_dependencies_json i |}.

Definition current_resource (i : AutomationChangeItemRow) (w : World) : option (PreparedResource number) :=
  live (it_resource_kind i) (it_resource_id i) w.

Definition rollback_conflict (message : str) (details : list (str * value number)) : AutomationError number :=
  with_details (coded (lit "ROLLBACK_CONFLICT") message) details.

Fixpoint check_current (change_id : str) (items : list AutomationChangeItemRow) : M unit :=
  match items with
  | [] => ret tt
  | i :: items =>
      let! current := (fun w => (Ok (version <$> current_resource i w), w)) in
      let expected := if bool_decide (it_operation i = lit "delete") then None else it_version_after i in
      let! _ := lift (require (bool_decide (current = expected))
        (rollback_conflict (it_resource_kind i ++ lit " resource " ++ it_resource_id i ++ lit " was changed after this automation change")
           (change_detail change_id ++ [(lit "kind", String (it_resource_kind i)); (lit "resourceId", String (it_resource_id i))]))) in
      check_current change_id items
  end.

Definition restore_rule_json (k before_json : str) : M unit :=
  if bool_decide (k = lit "rewrite") then
    let! rule := lift (map_err (fun e => internal (lit "decode rewrite rollback data: " ++ e)) (rewrite_from_json before_json)) in
    execute (lit "restore rewrite: ") (save_rewrite_rule (rewrite_row rule))
  else if bool_decide (k = lit "map") then
    let! rule := lift (map_err (fun e => internal (lit "decode map rollback data: " ++ e)) (map_from_json before_json)) in
    execute (lit "restore map: ") (save_map_rule (map_row rule))
  else ret tt.

Definition restore_metadata (i : AutomationChangeItemRow) : M unit :=
  let! row := lift (map_err (fun e => internal (lit "decode resource metadata: " ++ e)) (dependencies_metadata (it_dependencies_json i))) in
  match row with
  | Some row => execute (lit "restore resource metadata: ") (save_automation_resource row)
  | None =>
      fun w =>
        match execute [] (delete_automation_resource (it_resource_kind i) (it_resource_id i)) w with
        | (Ok _, w) => (Ok tt, w)
        | (Err _, w) => (Ok tt, w)
        end
  end.

Definition delete_kind (k i : str) (d : Db) : Db :=
  if bool_decide (k = lit "rewrite") then delete_rewrite_rule i d
  else if bool_decide (k = lit "map") then delete_map_rule i d else d.

Definition undo_item (lifecycle : str) (i : AutomationChangeItemRow) : M unit :=
  if bool_decide (it_operation i = lit "create") then
    let! _ :=
      if bool_decide (lifecycle = lit "ephemeral") then ret tt
      else if is_one_of (it_resource_kind i) [lit "rewrite"; lit "map"] then
        execute (lit "rollback " ++ it_resource_kind i ++ lit " create: ") (delete_kind (it_resource_kind i) (it_resource_id i))
      else ret tt in
    execute (lit "rollback metadata create: ") (delete_automation_resource (it_resource_kind i) (it_resource_id i))
  else if is_one_of (it_operation i) [lit "update"; lit "delete"] then
    let! before := lift (ok_or (it_before_json i) (internal (lit "change item is missing beforeJson"))) in
    let! _ := restore_rule_json (it_resource_kind i) before in
    restore_metadata i
  else ret tt.

Definition committed_details (change_id : str) : list (str * value number) :=
  change_detail change_id ++ [(lit "committed", Bool true); (lit "retryable", Bool true)].

Definition rollback_automation_change_locked (change_id : str) (expected_scope_hash : option str) (reason : str)
    (permissions : option AutomationPermissions) : M AutomationApplyResult :=
  let! _ := lock_db in
  let! change := query (lit "load change: ") (load_automation_change_set change_id) in
  match change with
  | None => throw (coded (lit "NOT_FOUND") (lit "automation change not found"))
  | Some change =>
      let! items := query (lit "load change items: ") (load_automation_change_items change_id) in
      if status_in change [lit "reverted"; lit "aborted"] then ret (apply_result_from_change change true)
      else if status_in change [lit "promoted"] then
        throw (rollback_conflict (lit "this change was converted to user-owned rules and can no longer be rolled back as an Agent experiment")
                 (change_detail change_id))
      else
        let! _ := lift (require (negb (change_requires_user_automation items &&
                                       match permissions with Some p => negb (manage_user_automation p) | None => false end))
          (with_details (denied (lit "manageUserAutomation is required to roll back a change involving user-owned resources"))
             (change_detail change_id))) in
        let! _ := lift (require (match expected_scope_hash with Some e => bool_decide (e = cs_scope_hash_after change) | None => true end)
          (coded (lit "SCOPE_CONFLICT") (lit "expectedScopeHash does not match this change"))) in
        let! _ :=
          if bool_decide (reason = lit "manual") then
            let! scope_items := lift (collect scope_item items) in
            let! current := (fun w => (Ok (scope_hash (cs_workspace_id change) scope_items true w), w)) in
            lift (require (bool_decide (current = cs_scope_hash_after change))
              (rollback_conflict (lit "automation resources or their same-host candidates changed after this automation change")
                 (change_detail change_id)))
          else ret tt in
        let! _ := check_current change_id items in
        let! _ := lock_db in
        let! at_ :=
          transaction (lit "begin rollback transaction: ") (lit "commit rollback: ")
            (let! _ := for_each (rev items) (undo_item (cs_lifecycle change)) in
             let! at_ := now in
             let! _ := update_status change_id (lit "reverting") None None None None (lit "mark change reverting: ") in
             ret at_) in
        let! generation := map_error (fun e =>
          with_details (coded (lit "RUNTIME_PUBLISH_FAILED")
            (lit "database rollback committed but runtime publication failed: " ++ ae_message e)) (committed_details change_id))
          (publish_current_runtime None) in
        let! _ := lock_db in
        let! _ := map_error (fun e =>
          with_details (coded (lit "ACTIVATION_RECORD_FAILED")
            (lit "runtime reverted but change status could not be recorded: " ++ ae_message e)) (change_detail change_id))
          (update_status change_id (lit "reverted") (Some generation) None None (Some at_) []) in
        let! _ := execute (lit "update experiment cleanup: ")
          (update_automation_experiment_state change_id
             (if bool_decide (reason = lit "expired") then lit "expired" else lit "completed") reason at_) in
        let! _ := remove_staged_assets change_id in
        ret {| ap_change_id := change_id; ap_status := lit "reverted"; ap_runtime_generation := generation;
               ap_resource_ids_by_ref := ∅; ap_expires_at := cs_expires_at change; ap_idempotent := false |}
  end.

(** ** Definitions: promotion, clearing, restart, expiry *)

(** Returns the id; the view of the change is not modelled. *)
Definition promote_automation_change (change_id : str) : M unit :=
  let! at_ := now in
  let! _ := lock_db in
  transaction (lit "begin promotion transaction: ") (lit "commit promotion: ")
    (let! change := query (lit "load change: ") (load_automation_change_set change_id) in
     match change with
     | None => throw (coded (lit "NOT_FOUND") (lit "automation change not found"))
     | Some change =>
         let! _ := lift (require (bool_decide (cs_lifecycle change = lit "persistent"))
           (invalid (lit "only persistent automation changes can be converted to user rules"))) in
         let! _ := lift (require (status_in change [lit "active"])
           (coded (lit "STATE_CONFLICT") (lit "automation change is " ++ cs_status change))) in
         let! items := query (lit "load change items: ") (load_automation_change_items change_id) in
         let! _ := lift (require (negb (change_requires_user_automation items))
           (with_details (coded (lit "STATE_CONFLICT")
              (lit "this change also modifies user-owned resources and cannot be promoted as a whole")) (change_detail change_id))) in
         let! promoted := (let! _ := io (lit "promote automation resources: ") in
           fun w => let '(d, n) := set_automation_change_owner change_id (lit "user") at_ (db w) in (Ok n, set_db d w)) in
         let! _ := lift (require (negb (promoted =? 0))
           (coded (lit "STATE_CONFLICT") (lit "this change has no Agent-owned resources to convert"))) in
         let! _ := update_status change_id (lit "promoted") None None None None (lit "mark change promoted: ") in
         execute (lit "promote experiment: ")
           (update_automation_experiment_state change_id (lit "promoted") (lit "kept_by_user") at_)
     end).

Record ClearAgentAutomationResult := {
  cl_cleared_change_ids : list str; cl_cleared_resource_count : Z; cl_runtime_generation : Z
}.

Record ClearAgentAutomationParams := { cp_scope : str; cp_workspace_id : option str; cp_lifecycle : str }.

Definition agent_rows (p : ClearAgentAutomationParams) (scope_key label : str) : M (list AutomationResourceRow) :=
  let! _ := lock_db in
  let! rows := query label (list_automation_resources (Some scope_key) None
                 (if bool_decide (cp_lifecycle p = lit "all") then None else Some (cp_lifecycle p)) RESOURCE_LIMIT) in
  ret (List.filter (fun r => bool_decide (rs_owner_kind r = lit "agent")) rows).

(** The changes that touched the resources, without repetition, in order *)
Fixpoint history (rows : list AutomationResourceRow) (ids : list str) : M (list str) :=
  match rows with
  | [] => ret (sort_ids (fun i => i) (remove_dups ids))
  | r :: rows =>
      let! more := query (lit "load resource change history: ")
                     (list_automation_change_ids_for_resource (rs_resource_kind r) (rs_resource_id r)) in
      history rows ((match rs_change_id r with Some c => [c] | None => [] end) ++ more ++ ids)
  end.

Definition check_clearable (change_id : str) : M unit :=
  let! _ := lock_db in
  let! items := query (lit "load cleanup items: ") (load_automation_change_items change_id) in
  lift (require (negb (change_requires_user_automation items))
    (with_details (denied (lit "clearAgentAutomation cannot clear a change that also modifies user-owned resources"))
       (change_detail change_id))).

Definition clear_row (r : AutomationResourceRow) : M unit :=
  let k := rs_resource_kind r in
  let! _ :=
    if is_one_of k [lit "rewrite"; lit "map"] then
      execute (lit "clear " ++ k ++ lit " resource: ") (delete_kind k (rs_resource_id r))
    else throw (unavailable (lit "cannot clear unsupported resource kind " ++ k)) in
  execute (lit "clear resource metadata: ") (delete_automation_resource k (rs_resource_id r)).

Definition clear_agent_automation (p : ClearAgentAutomationParams) : M ClearAgentAutomationResult :=
  let! _ := lift (require (is_one_of (cp_lifecycle p) [lit "persistent"; lit "ephemeral"; lit "all"])
    (invalid (lit "lifecycle must be persistent, ephemeral, or all"))) in
  let! scope_key := lift (automation_scope_key (cp_scope p) (cp_workspace_id p)) in
  let! rows := agent_rows p scope_key (lit "list Agent resources: ") in
  let! _ := lock_db in
  let! change_ids := history rows [] in
  let! _ := for_each change_ids check_clearable in
  let! at_ := now in
  let! _ := lock_db in
  let! _ := transaction (lit "begin clear transaction: ") (lit "commit clear transaction: ")
    (let! _ := for_each rows clear_row in
     for_each change_ids (fun c => update_status c (lit "reverting") None None None None (lit "mark change clearing: "))) in
  let! generation := map_error (fun e =>
    with_details (coded (lit "RUNTIME_PUBLISH_FAILED")
      (lit "database cleanup committed but runtime publication failed: " ++ ae_message e))
      [(lit "clearedChangeIds", Array (map String change_ids)); (lit "committed", Bool true); (lit "retryable", Bool true)])
    (publish_current_runtime None) in
  let! _ := lock_db in
  let! _ := for_each change_ids (fun c =>
    let! _ := update_status c (lit "aborted") (Some generation) None None (Some at_) (lit "record cleared change: ") in
    execute (lit "record cleared experiment: ") (update_automation_experiment_state c (lit "aborted") (lit "cleared") at_)) in
  let! _ := for_each change_ids remove_staged_assets in
  let! remaining := agent_rows p scope_key (lit "list remaining resources: ") in
  let keys := map (fun r => (rs_resource_kind r, rs_resource_id r)) rows in
  let left_rows := List.filter (fun k => bool_decide (k ∈ keys)) (map (fun r => (rs_resource_kind r, rs_resource_id r)) remaining) in
  let! left_live := (fun w => (Ok (List.filter (fun k => is_some (live k.1 k.2 w)) (remove_dups keys)), w)) in
  let! _ := lift (require (is_empty (left_rows ++ left_live))
    (with_details (coded (lit "CLEANUP_INCOMPLETE") (lit "Agent automation resources remain after cleanup"))
       [(lit "remainingResources", Array (map (fun k => Array [String k.1; String k.2]) (left_rows ++ left_live)));
        (lit "clearedChangeIds", Array (map String change_ids))])) in
  ret {| cl_cleared_change_ids := change_ids; cl_cleared_resource_count := len rows; cl_runtime_generation := generation |}.

(** *** Restart *)

Inductive PersistedChangeState := Before | After | Mixed.

(** The rule of an item in the database *)
Definition stored_resource (k i : str) (d : Db) : option (PreparedResource number) :=
  if bool_decide (k = lit "rewrite") then (fun row => PRewrite (rewrite_row_to_rule row)) <$> rewrite_table d !! i
  else if bool_decide (k = lit "map") then (fun row => PMap (map_row_to_rule row)) <$> map_table d !! i
  else None.

Definition classify_persisted_change_state (items : list AutomationChangeItemRow) : M PersistedChangeState :=
  let! _ := lock_db in
  let! _ := io (lit "load rewrite recovery state: ") in
  let! _ := io (lit "load map recovery state: ") in
  fun w =>
    let current i := version <$> stored_resource (it_resource_kind i) (it_resource_id i) (db w) in
    (Ok (if forallb (fun i => bool_decide (current i = it_version_after i)) items then After
         else if forallb (fun i => bool_decide (current i = it_version_before i)) items then Before
         else Mixed), w).

Definition abandon_one (c : AutomationChangeSetRow) : M unit :=
  let! at_ := now in
  let! _ := lock_db in
  let! _ := transaction (lit "begin ephemeral restart cleanup: ") (lit "commit ephemeral restart cleanup: ")
    (let! _ := execute (lit "remove ephemeral resource metadata: ") (delete_automation_resources_for_change (cs_id c)) in
     let! _ := execute (lit "mark experiment expired by restart: ")
                 (update_automation_experiment_state (cs_id c) (lit "expired") (lit "expired_by_restart") at_) in
     update_status (cs_id c) (lit "aborted") None None None (Some at_) (lit "abort ephemeral change: ")) in
  remove_staged_assets (cs_id c).

Definition abandon_ephemeral_changes_after_restart : M unit :=
  let! _ := lock_db in
  let! changes := query (lit "list ephemeral restart cleanup: ") list_ephemeral_changes_for_restart_cleanup in
  for_each changes abandon_one.

Fixpoint classify_changes (changes : list AutomationChangeSetRow) : M (list (AutomationChangeSetRow * PersistedChangeState)) :=
  match changes with
  | [] => ret []
  | c :: changes =>
      if is_ephemeral c then classify_changes changes
      else
        let! _ := lock_db in
        let! items := query (lit "load recovery items: ") (load_automation_change_items (cs_id c)) in
        let! state := classify_persisted_change_state items in
        match state with
        | Mixed =>
            throw (with_details (coded (lit "RECOVERY_CONFLICT")
              (lit "automation change " ++ cs_id c ++ lit " has a mixed persisted state and cannot be recovered automatically"))
              (change_detail (cs_id c)))
        | _ => let! rest := classify_changes changes in ret ((c, state) :: rest)
        end
  end.

Definition recover_one (generation : Z) (at_ : str) (cs : AutomationChangeSetRow * PersistedChangeState) : M unit :=
  let! _ := lock_db in
  match cs.2 with
  | After => update_status (cs_id cs.1) (lit "active") (Some generation) None (Some at_) None (lit "recover change: ")
  | _ =>
      let! _ := update_status (cs_id cs.1) (lit "reverted") (Some generation) None None (Some at_) (lit "recover rollback: ") in
      let! _ := execute (lit "recover rollback experiment: ")
                  (update_automation_experiment_state (cs_id cs.1) (lit "completed") (lit "recovered_rollback") at_) in
      remove_staged_assets (cs_id cs.1)
  end.

Definition recover_automation_changes : M unit :=
  let! _ := abandon_ephemeral_changes_after_restart in
  let! _ := lock_db in
  let! changes := query (lit "list unfinished changes: ") list_unfinished_automation_changes in
  let! recoveries := classify_changes changes in
  let! generation := publish_current_runtime None in
  match recoveries with
  | [] => ret tt
  | _ => let! at_ := now in for_each recoveries (recover_one generation at_)
  end.

(** *** Expiry *)

(** A failed rollback is logged and tried again at the next tick. *)
Definition expire_one (c : AutomationChangeSetRow) (reverted : Z) : M Z :=
  fun w =>
    match rollback_automation_change_locked (cs_id c) None (lit "expired") None w with
    | (Ok _, w) => (Ok (reverted + 1), w)
    | (Err _, w) => (Ok reverted, w)
    end.

Definition cleanup_expired_automation : M Z :=
  let! _ := lock_db in
  let! at_ := now in
  let! expired := query (lit "list expired changes: ") (list_expired_ephemeral_changes at_) in
  fold_m expire_one expired 0.

(** *** Verification targets *)

Definition version_value (v : option str) : value number := match v with Some v => String v | None => Null end.

Fixpoint ensure_current (change_id : str) (items : list AutomationChangeItemRow) : M unit :=
  match items with
  | [] => ret tt
  | i :: items =>
      let! current := (fun w => (Ok (version <$> current_resource i w), w)) in
      let! _ := lift (require (bool_decide (current = it_version_after i))
        (with_details (coded (lit "RESOURCE_VERSION_MISMATCH")
           (it_resource_kind i ++ lit " resource " ++ it_resource_id i ++
            lit " no longer matches this active change; verify the current change instead"))
           (change_detail change_id ++
            [(lit "kind", String (it_resource_kind i)); (lit "resourceId", String (it_resource_id i));
             (lit "expectedVersion", version_value (it_version_after i)); (lit "actualVersion", version_value current)]))) in
      ensure_current change_id items
  end.

Definition ensure_verification_targets_current (c : AutomationChangeSetRow) : M unit :=
  let! _ := lock_db in
  let! items := query (lit "load verification targets: ") (load_automation_change_items (cs_id c)) in
  ensure_current (cs_id c) items.
End Automation.
