(* ===== verification/AutomationFacts.v ===== *)
(** * AutomationFacts: what changes of an agent can and cannot do

    Theorems on the change lifecycle of [Automation]: user-owned rules are out of
    reach without the permission, rolling a change back restores what it replaced,
    agent rules run under the lock of their host, and nothing ephemeral survives a
    restart. *)

From S2P Require Import Prelude Str Patterns JsonPath RuleTypes RuleManagers RuleSelection HttpIo Rewrite.
From S2P Require Import MapRules AutomationPlan AutomationDb Automation.

(** ** Runs of the monad *)

#[local] Notation "'let!' x ':=' m 'in' k" := (bind m (fun x => k))
  (at level 10, x pattern, m at level 100, k at level 200).

Section Runs.
Context {number : Type} `{RegexEngine}.
Abbreviation World := (@World number _).
Abbreviation M := (@M number _).

Lemma bind_ok {A B} (m : M A) (k : A → M B) (w : World) b w' :
  bind m k w = (Ok b, w') ↔ ∃ a w1, m w = (Ok a, w1) ∧ k a w1 = (Ok b, w').
Proof. unfold bind. destruct (m w) as [[a|e] w1]; naive_solver. Qed.

Lemma lift_ok {A} (r : result A (AutomationError number)) (w : World) a w' :
  lift r w = (Ok a, w') ↔ r = Ok a ∧ w' = w.
Proof. unfold lift. naive_solver. Qed.

Lemma map_error_ok {A} f (m : M A) (w : World) a w' : map_error f m w = (Ok a, w') ↔ m w = (Ok a, w').
Proof. unfold map_error. destruct (m w) as [[x|e] w1]; cbn; naive_solver. Qed.

(** Relations between the worlds before and after every run, failed ones too *)
Class Stable (R : relation World) : Prop := {
  stable_order :: PreOrder R;
  stable_aux w w' : db w' = db w → runtime w' = runtime w → legacy w' = legacy w → uuids w' = uuids w → R w w'
}.

(** Also closed under drawing ids *)
Class StableIds (R : relation World) : Prop := {
  stable_ids :: Stable R;
  stable_draw w w' : db w' = db w → runtime w' = runtime w → legacy w' = legacy w → R w w'
}.

Definition frame {A} (R : relation World) (m : M A) : Prop := ∀ w r w', m w = (r, w') → R w w'.

Section Frame.
Context (R : relation World) `{!Stable R}.

Lemma frame_ret {A} (a : A) : frame R (ret a).
Proof. intros w r w' [= _ <-]. reflexivity. Qed.

Lemma frame_throw {A} e : frame R (throw e : M A).
Proof. intros w r w' [= _ <-]. reflexivity. Qed.

Lemma frame_lift {A} r : frame R (lift r : M A).
Proof. intros w r' w' [= _ <-]. reflexivity. Qed.

Lemma frame_read {A} (f : World → A) : frame R (fun w => (Ok (f w), w) : _ * _).
Proof. intros w r w' [= _ <-]. reflexivity. Qed.

Lemma frame_bind {A B} (m : M A) (k : A → M B) : frame R m → (∀ a, frame R (k a)) → frame R (bind m k).
Proof.
  intros Hm Hk w r w'. unfold bind. destruct (m w) as [[a|e] w1] eqn:Hw.
  - intros Hr. etrans; [by eapply Hm|by eapply Hk].
  - intros [= _ <-]. by eapply Hm.
Qed.

Lemma frame_io l : frame R (io l).
Proof.
  intros w r w'. unfold io. destruct (head (faults w)) as [[e|]|]; intros [= _ <-]; by apply stable_aux.
Qed.

Lemma frame_now : frame R now.
Proof. intros w r w' [= _ <-]. by apply stable_aux. Qed.

Lemma frame_uuid `{!StableIds R} : frame R new_uuid.
Proof. intros w r w' [= _ <-]. by apply stable_draw. Qed.

Lemma frame_lock : frame R lock_db.
Proof. apply frame_io. Qed.

Lemma frame_query {A} l (f : Db → A) : frame R (query l f).
Proof. apply frame_bind; [apply frame_io|]. intros _ w r w' [= _ <-]. reflexivity. Qed.

Lemma frame_map_error {A} f (m : M A) : frame R m → frame R (map_error f m).
Proof.
  intros Hm w r w'. unfold map_error. destruct (m w) as [r1 w1] eqn:Hw. intros [= _ <-]. by eapply Hm.
Qed.

Lemma frame_fold {A S} (f : A → S → M S) l : (∀ a s, frame R (f a s)) → ∀ s, frame R (fold_m f l s).
Proof.
  intros Hf. induction l as [|a l IH]; intros s; [apply frame_ret|]. cbn [fold_m]. by apply frame_bind.
Qed.

Lemma frame_each {A} (f : A → M unit) l : (∀ a, frame R (f a)) → frame R (for_each l f).
Proof. intros Hf. induction l as [|a l IH]; [apply frame_ret|]. cbn [for_each]. by apply frame_bind. Qed.

Lemma frame_staged s : frame R (fun w => (Ok tt, set_staged (s w) w) : result unit (AutomationError number) * _).
Proof. intros w r w' [= _ <-]. by apply stable_aux. Qed.

Lemma frame_execute l f : (∀ w, R w (set_db (f (db w)) w)) → frame R (execute l f).
Proof. intros Hf. apply frame_bind; [apply frame_io|]. intros _ w r w' [= _ <-]. apply Hf. Qed.

Lemma frame_remove_staged i : frame R (remove_staged_assets i).
Proof.
  intros w r w'. unfold remove_staged_assets. destruct (io [] w) as [[[]|e] w1] eqn:Hio; intros [= _ <-].
  - etrans; [by eapply frame_io|by apply stable_aux].
  - by eapply frame_io.
Qed.
End Frame.
End Runs.

(** What is known of the parts of a program *)
Create HintDb frame_hints discriminated.
#[export] Hint Constants Opaque : frame_hints.

(** Splits a program into its parts. *)
Ltac frames :=
  repeat first
    [ progress intros | solve [auto 1 with frame_hints nocore] | apply frame_bind | apply frame_ret | apply frame_throw | apply frame_lift
    | apply frame_io | apply frame_now | apply frame_uuid | apply frame_lock
    | apply frame_query | apply frame_map_error | apply frame_read | apply frame_staged
    | apply frame_remove_staged | apply frame_fold | apply frame_each
    | match goal with |- frame _ (match ?x with _ => _ end) => destruct x end
    | match goal with |- frame _ (if ?b then _ else _) => destruct b end
    | match goal with |- Stable _ => typeclasses eauto | |- StableIds _ => typeclasses eauto end | done ].

Section Facts.
Context {number : Type} `{AutomationCodec number} `{RowCodec number} `{!ChangeCodec number} `{SqlOrder} `{!RegexEngine}
  `{UrlOps} `{FileSystem} (asset_root : bytes).
Abbreviation World := (@World number _).
Abbreviation Item := (@PreparedChangeItem number).
Abbreviation M := (@M number _).

(** *** Who changes the database *)

Definition same_db (w w' : World) : Prop := db w' = db w ∧ legacy w' = legacy w.

#[export] Instance same_db_ids : StableIds same_db.
Proof. split; [split; [split|]|]; unfold same_db; [done|intros ??? [] []; split; congruence|done|done]. Qed.

Definition same_world (w w' : World) : Prop := db w' = db w ∧ runtime w' = runtime w ∧ legacy w' = legacy w.

#[export] Instance same_world_ids : StableIds same_world.
Proof. split; [split; [split|]|]; unfold same_world; [done|intros ??? (?&?&?) (?&?&?); split_and!; congruence|done|done]. Qed.

(** Nothing but the clock, the faults and the staged files *)
Definition quiet (w w' : World) : Prop :=
  db w' = db w ∧ runtime w' = runtime w ∧ legacy w' = legacy w ∧ uuids w' = uuids w.

#[export] Instance quiet_stable : Stable quiet.
Proof. split; [split|]; unfold quiet; [done|intros ??? (?&?&?&?) (?&?&?&?); split_and!; congruence|done]. Qed.

Lemma prepare_frame plan caller permissions : frame same_world (prepare_automation_plan asset_root plan caller permissions).
Proof.
  unfold prepare_automation_plan. frames.
  all: unfold prepare_rewrite, prepare_map, prepare_delete, upsert_id, start_upsert, register_ref, check_update,
    ensure_persistent_update_allowed; frames.
Qed.

(** *** What prepared items are *)

Definition key (i : Item) : str * str := (kind (pi_resource i), id (pi_resource i)).

Lemma live_key k i (w : World) r : live k i w = Some r → kind r = k ∧ id r = i.
Proof.
  unfold live. case_bool_decide as Hk; [|case_bool_decide as Hk'; [|done]]; intros Hr;
    apply fmap_Some in Hr as (rule & Hf & ->); apply find_first_Some in Hf as (l1 & l2 & _ & Hid & _);
    by apply bool_decide_eq_true in Hid.
Qed.

(** An item of a plan that replaces or removes the running rule [before] *)
Record replaces (w : World) (permissions : AutomationPermissions) (i : Item) (before : PreparedResource number)
    : Prop := {
  rp_operation : pi_operation i = lit "update" ∨ pi_operation i = lit "delete" ∧ pi_resource i = before;
  rp_live : live (key i).1 (key i).2 w = Some before;
  rp_json : pi_before_json i = Some (resource_json before);
  rp_version : pi_version_before i = Some (version before);
  rp_metadata : pi_metadata_before i = resources (db w) !! key i;
  rp_owner : owner_of (pi_metadata_before i) = lit "user" → manage_user_automation permissions = true
}.

Record creates (w : World) (i : Item) : Prop := {
  cr_operation : pi_operation i = lit "create";
  cr_fresh : ∃ n, id (pi_resource i) = uuids w n;
  cr_metadata : pi_metadata_before i = None
}.

(** The metadata an upsert writes *)
Definition agent_row (change_id : str) (i : Item) (row : AutomationResourceRow) : Prop :=
  (rs_resource_kind row, rs_resource_id row) = key i ∧ rs_owner_kind row = lit "agent" ∧ rs_change_id row = Some change_id ∧
  is_some (rs_created_by_client row) = true ∧ is_some (rs_created_by_version row) = true.

Record item_of (w : World) (permissions : AutomationPermissions) (change_id : str) (i : Item) : Prop := {
  io_target : creates w i ∨ ∃ before, replaces w permissions i before;
  io_dependencies : ∃ a, pi_dependencies_json i = dependencies_text a (pi_metadata_before i);
  io_after : pi_operation i ≠ lit "delete" →
    pi_after_json i = resource_json (pi_resource i) ∧ pi_version_after i = Some (version (pi_resource i)) ∧
    ∃ row, pi_metadata_after i = Some row ∧ agent_row change_id i row;
  io_deleted : pi_operation i = lit "delete" → pi_version_after i = None
}.

Lemma query_ok {A} l (f : Db → A) (w : World) a w' : query l f w = (Ok a, w') → a = f (db w) ∧ quiet w w'.
Proof.
  unfold query. rewrite bind_ok. intros ([] & w1 & Hio & [= <- <-]).
  pose proof (frame_io quiet l w _ _ Hio) as Hq. split; [|done]. by rewrite (proj1 Hq).
Qed.

Lemma ensure_frame l k i m : frame quiet (ensure_persistent_update_allowed (number := number) l k i m).
Proof. unfold ensure_persistent_update_allowed. frames. Qed.

Lemma check_update_frame l k i ws pm e m v : frame quiet (check_update (number := number) l k i ws pm e m v).
Proof. unfold check_update, ensure_persistent_update_allowed. frames. Qed.

Lemma check_update_ok l k i ws pm e m v (w : World) w' :
  check_update l k i ws pm e m v w = (Ok tt, w') →
  ∃ current, e = Some current ∧ (owner_of m = lit "user" → manage_user_automation pm = true).
Proof.
  unfold check_update. rewrite bind_ok. intros ([] & w1 & _ & Hc). destruct e as [current|]; [|done].
  rewrite bind_ok in Hc. destruct Hc as ([] & w2 & _ & Hc). rewrite bind_ok in Hc.
  destruct Hc as ([] & w3 & Ho & _). apply lift_ok in Ho as [Ho _]. apply require_ok in Ho. exists current. split; [done|].
  intros Hu. rewrite bool_decide_eq_true_2 in Ho by done. by destruct (manage_user_automation pm).
Qed.

Lemma start_upsert_ok {T} c k i (u : AutomationUpsert T) (w : World) existing metadata w' :
  start_upsert c k i u w = (Ok (existing, metadata), w') →
  quiet w w' ∧ existing = live k i w ∧
  match up_id u with
  | None => metadata = None
  | Some _ => metadata = resources (db w) !! (k, i) ∧ is_some existing = true ∧
      (owner_of metadata = lit "user" → manage_user_automation (pc_permissions c) = true)
  end.
Proof.
  unfold start_upsert. rewrite bind_ok. intros (e & w1 & [= <- <-] & Hs). rewrite bind_ok in Hs.
  destruct Hs as (m & w2 & Hm & Hs). rewrite bind_ok in Hs. destruct Hs as ([] & w3 & Hc & [= <- <- <-]).
  destruct (up_id u).
  - apply query_ok in Hm as [-> Hq]. pose proof (check_update_frame _ _ _ _ _ _ _ _ _ _ _ Hc) as Hq2.
    apply check_update_ok in Hc as (cur & Hcur & Ho). split; [by etrans|]. split; [done|]. rewrite Hcur. done.
  - injection Hm as <- <-. injection Hc as <-. done.
Qed.

(** *** Preparing keeps the books *)

Section Prepare.
Context (w0 : World) (permissions : AutomationPermissions) (change_id : str).

(** Fresh ids name nothing that exists. *)
Record fresh : Prop := {
  fr_inj m n : uuids w0 m = uuids w0 n → m = n;
  fr_live k n : live k (uuids w0 n) w0 = None;
  fr_stored k n : stored_resource k (uuids w0 n) (db w0) = None;
  fr_resources k n : resources (db w0) !! (k, uuids w0 n) = None;
  fr_changes n : change_sets (db w0) !! uuids w0 n = None;
  fr_items n seq : change_items (db w0) !! (uuids w0 n, seq) = None
}.

Record prepared (targets : list (str * str)) (s : PrepState) (w : World) : Prop := {
  pd_world : same_world w0 w;
  pd_ids : ∃ m, (∀ n, uuids w n = uuids w0 (m + n)%nat) ∧
    ∀ i, i ∈ ps_items s → pi_operation i = lit "create" → ∃ n, (n < m)%nat ∧ id (pi_resource i) = uuids w0 n;
  pd_items : Forall (item_of w0 permissions change_id) (ps_items s);
  pd_nodup : NoDup (map key (ps_items s));
  pd_targets : ∀ i, i ∈ ps_items s → pi_operation i ≠ lit "create" → key i ∈ targets
}.

Lemma live_same k i (w w' : World) : same_world w w' → live k i w' = live k i w.
Proof. intros (_ & Hr & _). unfold live, live_rewrites, live_maps. by rewrite Hr. Qed.

Lemma upsert_id_ok {T} (u : AutomationUpsert T) (w : World) i w' :
  upsert_id u w = (Ok i, w') →
  match up_id u with
  | Some j => i = j ∧ w' = w
  | None => i = uuids w 0%nat ∧ (∀ n, uuids w' n = uuids w (S n)) ∧ same_world w w'
  end.
Proof. unfold upsert_id. destruct (up_id u); by intros [= <- <-]. Qed.

Lemma register_ref_ok {T} i (u : AutomationUpsert T) s (w : World) s' w' :
  register_ref i u s w = (Ok s', w') → w' = w ∧ ps_items s' = ps_items s.
Proof.
  unfold register_ref. destruct (up_ref u); [|by intros [= <- <-]]. rewrite bind_ok.
  intros (refs & w1 & Hl & [= <- <-]). by apply lift_ok in Hl as [_ ->].
Qed.

(** Adding an item *)
Lemma prepared_push targets s w w' s' i :
  fresh → prepared targets s w → same_world w w' → item_of w0 permissions change_id i → ps_items s' = ps_items s ++ [i] →
  (pi_operation i = lit "create" ∧ id (pi_resource i) = uuids w 0%nat ∧ (∀ n, uuids w' n = uuids w (S n)) ∨
   pi_operation i ≠ lit "create" ∧ (key i ∉ targets) ∧ uuids w' = uuids w) →
  prepared (targets ++ (if bool_decide (pi_operation i = lit "create") then [] else [key i])) s' w'.
Proof.
  intros Hf [Hw (m & Hm & Hc) Hi Hn Ht] Hw' Hio Hs' Hcase. split; rewrite ?Hs'.
  - by etrans.
  - destruct Hcase as [(Hop & Hid & Hu)|(Hop & _ & Hu)].
    + exists (S m). split; [intros n; rewrite Hu, Hm; f_equal; lia|]. intros j [Hj|Hj%list_elem_of_singleton]%elem_of_app.
      * intros Hjc. destruct (Hc j Hj Hjc) as (n & Hn' & ->). exists n. split; [lia|done].
      * intros _. subst j. exists m. split; [lia|]. by rewrite Hid, Hm, Nat.add_0_r.
    + exists m. rewrite Hu. split; [done|]. intros j [Hj|Hj%list_elem_of_singleton]%elem_of_app; [by apply Hc|by subst].
  - apply Forall_app. split; [done|]. by constructor; [|constructor].
  - rewrite map_app, NoDup_app. split_and!; [done| |apply NoDup_singleton].
    intros k Hk Hki. cbn in Hki. apply list_elem_of_singleton in Hki as ->.
    apply list_elem_of_fmap in Hk as (j & Hkj & Hj). pose proof (proj1 (Forall_forall _ _) Hi j Hj) as [Htj _ _ _].
    destruct Hcase as [(Hop & Hid & _)|(Hop & Hnt & _)].
    + destruct Htj as [[Hjc _ _]|(before & [Hjo Hjl _ _ _ _])].
      * destruct (Hc j Hj Hjc) as (n & Hlt & Hjn). unfold key in Hkj. rewrite Hid, Hm, Hjn in Hkj.
        apply (f_equal snd) in Hkj. cbn in Hkj. apply (fr_inj Hf) in Hkj. lia.
      * rewrite <- Hkj in Hjl. unfold key in Hjl. cbn [fst snd] in Hjl. rewrite Hid, Hm, (fr_live Hf) in Hjl. done.
    + destruct (decide (pi_operation j = lit "create")) as [Hjc|Hjc].
      * destruct (Hc j Hj Hjc) as (n & _ & Hjn). destruct Hio as [[[Hx _ _]|(before & [_ Hl _ _ _ _])] _ _ _]; [done|].
        rewrite Hkj in Hl. unfold key in Hl. cbn [fst snd] in Hl. by rewrite Hjn, (fr_live Hf) in Hl.
      * apply Hnt. rewrite Hkj. by apply Ht.
  - intros j [Hj|Hj%list_elem_of_singleton]%elem_of_app Hjc; rewrite elem_of_app.
    + left. by apply Ht.
    + right. subst j. rewrite bool_decide_eq_false_2 by done. left.
Qed.

Lemma quiet_world (w w' : World) : quiet w w' → same_world w w' ∧ uuids w' = uuids w.
Proof. by intros (? & ? & ? & ?). Qed.

Lemma upsert_prepared {T} c k (u : AutomationUpsert T) targets s w i w1 existing metadata w2 s2 w3 a after :
  fresh → pc_permissions c = permissions → pc_change_id c = change_id → NoDup (targets ++ updated k [u]) →
  prepared targets s w → upsert_id u w = (Ok i, w1) → start_upsert c k i u w1 = (Ok (existing, metadata), w2) →
  register_ref i u s w2 = (Ok s2, w3) → kind after = k → id after = i →
  prepared (targets ++ updated k [u]) (finish_upsert c u a existing metadata after s2) w3.
Proof.
  intros Hf Hpm Hcid Hnd Hp Hid Hs Hr Hk Hi. apply register_ref_ok in Hr as [-> Hit].
  apply start_upsert_ok in Hs as (Hq & Hex & Hup). apply upsert_id_ok in Hid. apply quiet_world in Hq as [Hq Hqu].
  pose proof (pd_world _ _ _ Hp) as Hw0. set (item := upsert_item c u a existing metadata after).
  assert (key item = (k, i)) as Hkey by (unfold key; cbn; by rewrite Hk, Hi).
  assert (same_world w w1) as Hw1.
  { destruct (up_id u); [by destruct Hid as [_ ->]|by destruct Hid as (_ & _ & ?)]. }
  assert (same_world w0 w1) as Hw01 by by etrans.
  rewrite (live_same _ _ _ _ Hw01) in Hex. rewrite (proj1 Hw01) in Hup.
  assert (item_of w0 permissions change_id item) as Hio.
  { split; [|by eexists| |].
    - destruct (up_id u) as [j|] eqn:Hu.
      + right. destruct Hup as (Hm & He & Ho). destruct existing as [before|]; [|done]. exists before.
        split; rewrite ?Hkey; try done.
        * left. cbn. unfold upsert_operation. by rewrite Hu.
        * rewrite <- Hpm. exact Ho.
      + left. destruct Hid as (-> & _ & _). destruct (pd_ids _ _ _ Hp) as (m & Hm & _). split; [|exists m|done].
        * cbn. unfold upsert_operation. by rewrite Hu.
        * cbn. by rewrite Hi, Hm, Nat.add_0_r.
    - intros _. cbn. split_and!; try done. eexists. split; [reflexivity|]. split_and!; try done. cbn. by rewrite Hcid.
    - cbn. unfold upsert_operation. by destruct (up_id u). }
  replace (targets ++ updated k [u])
    with (targets ++ (if bool_decide (pi_operation item = lit "create") then [] else [key item])).
  - eapply prepared_push; [done|exact Hp|by etrans|exact Hio|cbn; by rewrite Hit|].
    cbn [pi_operation item upsert_item]. unfold upsert_operation. rewrite Hqu. destruct (up_id u) as [j|] eqn:Hu.
    + right. destruct Hid as [-> ->]. split_and!; [done| |done]. rewrite Hkey. unfold updated in Hnd. cbn in Hnd.
      rewrite Hu in Hnd. cbn in Hnd. rewrite NoDup_app in Hnd. destruct Hnd as (_ & Hnd & _). intros Hin.
      apply (Hnd _ Hin). left.
    + left. destruct Hid as (-> & Hn & _). by split_and!.
  - rewrite Hkey. cbn. unfold upsert_operation, updated. destruct (up_id u) as [j|]; cbn; [|done].
    by destruct Hid as [-> _].
Qed.


Lemma build_rewrite_names ws i r e (rule : RewriteRule number) : build_rewrite_rule ws i r e = Ok rule → rw_id rule = i.
Proof.
  unfold build_rewrite_rule. cbn zeta. rewrite !require_bind, rbind_ok. intros (_ & _ & host & _ & Hr).
  rewrite !require_bind, rbind_ok in Hr. by destruct Hr as (_ & _ & _ & _ & [= <-]).
Qed.

Lemma build_map_names ws i r t e rule : build_map_rule (number := number) ws i r t e = Ok rule → map_id rule = i.
Proof.
  unfold build_map_rule. rewrite !require_bind, rbind_ok. intros (_ & _ & _ & h & _ & Hr).
  rewrite require_bind in Hr. by destruct Hr as (_ & [= <-]).
Qed.

Lemma rewrite_prepared c u targets s w s' w' :
  fresh → pc_permissions c = permissions → pc_change_id c = change_id → NoDup (targets ++ updated (lit "rewrite") [u]) →
  prepared targets s w → prepare_rewrite c u s w = (Ok s', w') → prepared (targets ++ updated (lit "rewrite") [u]) s' w'.
Proof.
  intros Hf Hpm Hc Hnd Hp. unfold prepare_rewrite. rewrite bind_ok. intros (i & w1 & Hi & Hs). rewrite bind_ok in Hs.
  destruct Hs as ([ex md] & w2 & Hs & Hr). rewrite bind_ok in Hr. destruct Hr as (s2 & w3 & Hr & Hb). rewrite bind_ok in Hb.
  destruct Hb as (rule & w4 & Hb & [= <- <-]). apply lift_ok in Hb as [Hb ->].
  eapply upsert_prepared; eauto. by eapply build_rewrite_names.
Qed.

Lemma map_prepared c u targets s w s' w' :
  fresh → pc_permissions c = permissions → pc_change_id c = change_id → NoDup (targets ++ updated (lit "map") [u]) →
  prepared targets s w → prepare_map c u s w = (Ok s', w') → prepared (targets ++ updated (lit "map") [u]) s' w'.
Proof.
  intros Hf Hpm Hc Hnd Hp. unfold prepare_map. rewrite bind_ok. intros (i & w1 & Hi & Hs). rewrite bind_ok in Hs.
  destruct Hs as ([ex md] & w2 & Hs & Hr). rewrite bind_ok in Hr. destruct Hr as (s2 & w3 & Hr & Hb). rewrite bind_ok in Hb.
  destruct Hb as (t & w4 & Ht & Hb). apply lift_ok in Ht as [_ ->]. rewrite bind_ok in Hb.
  destruct Hb as (rule & w5 & Hb & Hq). apply lift_ok in Hb as [Hb ->]. rewrite bind_ok in Hq.
  destruct Hq as ([] & w6 & Hq & [= <- <-]). apply lift_ok in Hq as [_ ->].
  eapply upsert_prepared; eauto. by eapply build_map_names.
Qed.

Lemma delete_prepared c d targets s w s' w' :
  fresh → pc_permissions c = permissions → NoDup (targets ++ [(del_kind d, del_id d)]) →
  prepared targets s w → prepare_delete c d s w = (Ok s', w') → prepared (targets ++ [(del_kind d, del_id d)]) s' w'.
Proof.
  intros Hf Hpm Hnd Hp. unfold prepare_delete. destruct (negb _); [done|]. rewrite bind_ok.
  intros (before & w1 & [= <- <-] & Hs). rewrite bind_ok in Hs. destruct Hs as (md & w2 & Hmd & Hs).
  apply query_ok in Hmd as [-> Hq]. destruct (live (del_kind d) (del_id d) w) as [before|] eqn:Hl; [|done].
  rewrite bind_ok in Hs. destruct Hs as ([] & w3 & Hl3 & Hs). apply lift_ok in Hl3 as [_ ->]. rewrite bind_ok in Hs.
  destruct Hs as ([] & w4 & He & Hs). pose proof (ensure_frame _ _ _ _ _ _ _ He) as Hq4.
  rewrite bind_ok in Hs. destruct Hs as ([] & w5 & Ho & Hs). apply lift_ok in Ho as [Ho ->]. apply require_ok in Ho.
  rewrite bind_ok in Hs. destruct Hs as ([] & w6 & Hv & [= <- <-]). apply lift_ok in Hv as [_ ->].
  pose proof (live_key _ _ _ _ Hl) as [Hk Hi]. pose proof (pd_world _ _ _ Hp) as Hw0.
  assert (quiet w w4) as Hqq by by etrans. apply quiet_world in Hqq as [Hww Huu].
  match goal with |- prepared _ {| ps_items := _ ++ [?x] |} _ => set (item := x) end.
  assert (key item = (del_kind d, del_id d)) as Hkey by (unfold key; cbn; by rewrite Hk, Hi).
  assert (item_of w0 permissions change_id item) as Hio.
  { split; [|by eexists|done|done]. right. exists before. split; rewrite ?Hkey; try done.
    - right. done.
    - rewrite <- (live_same _ _ _ _ Hw0). done.
    - cbn. unfold load_automation_resource. by rewrite (proj1 Hw0).
    - cbn. intros Hu. rewrite bool_decide_eq_true_2 in Ho by done. rewrite <- Hpm.
      by destruct (manage_user_automation (pc_permissions c)). }
  rewrite <- Hkey. eapply (prepared_push targets s w w4 _ item); try done. right. split_and!; [done| |done].
  rewrite Hkey. apply NoDup_app in Hnd as (_ & Hnd & _). intros Hin. apply (Hnd _ Hin). left.
Qed.

(** The three loops *)
Lemma fold_prepared {A} (f : A → PrepState → M PrepState) (tg : A → list (str * str)) :
  (∀ a targets s w s' w', NoDup (targets ++ tg a) → prepared targets s w → f a s w = (Ok s', w') →
     prepared (targets ++ tg a) s' w') →
  ∀ l targets s w s' w', NoDup (targets ++ concat (map tg l)) → prepared targets s w → fold_m f l s w = (Ok s', w') →
    prepared (targets ++ concat (map tg l)) s' w'.
Proof.
  intros Hf. induction l as [|a l IH]; intros targets s w s' w' Hnd Hp; cbn [fold_m map concat] in *.
  - intros [= <- <-]. by rewrite app_nil_r.
  - rewrite bind_ok. intros (s1 & w1 & Ha & Hl). rewrite app_assoc in *. eapply IH; [done| |done].
    eapply Hf; [|done|done]. by apply NoDup_app in Hnd as (? & _ & _).
Qed.
End Prepare.

Lemma updated_each {T} k (ups : list (AutomationUpsert T)) : updated k ups = concat (map (fun u => updated k [u]) ups).
Proof.
  induction ups as [|u ups IH]; [done|]. cbn [map concat]. rewrite <- IH. unfold updated. cbn. by destruct (up_id u).
Qed.

Lemma deletes_each ds : map (fun d => (del_kind d, del_id d)) ds = concat (map (fun d => [(del_kind d, del_id d)]) ds).
Proof. induction ds as [|d ds IH]; [done|]. cbn. by rewrite IH. Qed.

Lemma loops_prepared (w0 : World) permissions change_id c plan s w s1 w1 s2 w2 s3 w3 :
  fresh w0 → pc_permissions c = permissions → pc_change_id c = change_id → NoDup (targets plan) →
  prepared w0 permissions change_id [] s w →
  fold_m (prepare_rewrite c) (us_rewrite (pl_upserts plan)) s w = (Ok s1, w1) →
  fold_m (prepare_map c) (us_map (pl_upserts plan)) s1 w1 = (Ok s2, w2) →
  fold_m (prepare_delete c) (pl_deletes plan) s2 w2 = (Ok s3, w3) →
  prepared w0 permissions change_id (targets plan) s3 w3.
Proof.
  intros Hf Hpm Hc Hnd P0 H5 H6 H7. unfold targets in *. rewrite !updated_each, deletes_each, app_assoc in *.
  pose proof (proj1 (proj1 (NoDup_app _ _) Hnd)) as Hnd2. pose proof (proj1 (proj1 (NoDup_app _ _) Hnd2)) as Hnd1.
  pose proof (fold_prepared w0 permissions change_id (prepare_rewrite c) (fun u => updated (lit "rewrite") [u])
    (fun u tg s w s' w' Hn Hp Hr => rewrite_prepared w0 permissions change_id c u tg s w s' w' Hf Hpm Hc Hn Hp Hr)
    _ [] _ _ _ _ Hnd1 P0 H5) as P1.
  pose proof (fold_prepared w0 permissions change_id (prepare_map c) (fun u => updated (lit "map") [u])
    (fun u tg s w s' w' Hn Hp Hr => map_prepared w0 permissions change_id c u tg s w s' w' Hf Hpm Hc Hn Hp Hr)
    _ _ _ _ _ _ Hnd2 P1 H6) as P2.
  exact (fold_prepared w0 permissions change_id (prepare_delete c) (fun d => [(del_kind d, del_id d)])
    (fun d tg s w s' w' Hn Hp Hr => delete_prepared w0 permissions change_id c d tg s w s' w' Hf Hpm Hn Hp Hr)
    _ _ _ _ _ _ Hnd P2 H7).
Qed.

Record plan_prepared (plan : AutomationPlan number) (permissions : AutomationPermissions) (w : World)
    (p : @PreparedPlan number) (w' : World) : Prop := {
  pq_shape : plan_ok plan;
  pq_world : same_world w w';
  pq_change : ∃ n, pp_change_id p = uuids w n;
  pq_lifecycle : pp_lifecycle p = pl_lifecycle plan;
  pq_items : Forall (item_of w permissions (pp_change_id p)) (pp_items p);
  pq_nodup : NoDup (map key (pp_items p));
  pq_targets i : i ∈ pp_items p → pi_operation i ≠ lit "create" → key i ∈ targets plan
}.

Lemma prepare_ok plan caller permissions (w : World) p w' :
  fresh w → prepare_automation_plan asset_root plan caller permissions w = (Ok p, w') →
  plan_prepared plan permissions w p w'.
Proof.
  intros Hf Hp. pose proof (prepare_frame _ _ _ _ _ _ Hp) as Hw. unfold prepare_automation_plan in Hp. cbn zeta in Hp.
  rewrite bind_ok in Hp. destruct Hp as ([] & w1 & Hs & Hp). apply lift_ok in Hs as [Hshape ->].
  apply validate_plan_shape_exact in Hshape.
  do 3 (rewrite bind_ok in Hp; destruct Hp as ([] & w1 & Hs & Hp); apply lift_ok in Hs as [_ ->]).
  rewrite bind_ok in Hp. destruct Hp as (sk & w1 & Hs & Hp). apply lift_ok in Hs as [_ ->].
  rewrite bind_ok in Hp. destruct Hp as (cid & w1 & [= <- <-] & Hp).
  rewrite bind_ok in Hp. destruct Hp as (ea & w2 & Hea & Hp).
  match type of Hea with _ ?w1' = _ => assert (quiet w1' w2) as Hq1 end.
  { match type of Hea with ?m _ = _ => assert (frame quiet m) as Hfr by frames; by eapply Hfr end. }
  rewrite bind_ok in Hp. destruct Hp as ([] & w3 & Hlk & Hp). pose proof (frame_lock quiet _ _ _ Hlk) as Hq2.
  rewrite bind_ok in Hp. destruct Hp as (refs & w4 & Hs & Hp). apply lift_ok in Hs as [_ ->].
  rewrite bind_ok in Hp. destruct Hp as (paths & w4 & Hs & Hp). apply lift_ok in Hs as [_ ->].
  rewrite bind_ok in Hp. destruct Hp as (at_ & w4 & Hn & Hp). pose proof (frame_now quiet _ _ _ Hn) as Hq3.
  rewrite bind_ok in Hp. destruct Hp as (s1 & w5 & H5 & Hp).
  rewrite bind_ok in Hp. destruct Hp as (s2 & w6 & H6 & Hp).
  rewrite bind_ok in Hp. destruct Hp as (s3 & w7 & H7 & Hp).
  rewrite bind_ok in Hp. destruct Hp as ([] & w8 & Hs & [= <- <-]). apply lift_ok in Hs as [_ ->].
  pose proof (po_targets _ Hshape) as Hnd.
  assert (prepared w permissions (uuids w 0%nat) [] {| ps_refs := refs; ps_by_ref := ∅; ps_resources := []; ps_items := [] |} w4) as P0.
  { assert (quiet _ w4) as Hq by (etrans; [exact Hq1|etrans; [exact Hq2|exact Hq3]]).
    destruct Hq as (Hd & Hr & Hl & Hu). split; [by split_and!| |constructor|constructor|set_solver].
    exists 1%nat. split; [by rewrite Hu|set_solver]. }
  match type of H5 with fold_m (prepare_rewrite ?c) _ _ _ = _ =>
    pose proof (loops_prepared w permissions (uuids w 0%nat) c plan _ _ _ _ _ _ _ _ Hf eq_refl eq_refl Hnd P0 H5 H6 H7) as P3 end.
  destruct P3. split; try done. by exists 0%nat.
Qed.

(** *** What a commit writes *)

(** A run that did [f] to the database and nothing else *)
Definition wrote (f : Db → Db) (w w' : World) : Prop :=
  db w' = f (db w) ∧ runtime w' = runtime w ∧ legacy w' = legacy w ∧ uuids w' = uuids w.

Lemma execute_ok l f (w : World) w' : execute l f w = (Ok tt, w') → wrote f w w'.
Proof.
  unfold execute. rewrite bind_ok. intros ([] & w1 & Hio & [= <-]).
  destruct (frame_io quiet l w _ _ Hio) as (Hd & Hr & Hl & Hu). split_and!; cbn; congruence.
Qed.

Lemma wrote_trans f g (w w1 w2 : World) : wrote f w w1 → wrote g w1 w2 → wrote (fun d => g (f d)) w w2.
Proof. intros (Hd & Hr & Hl & Hu) (Hd' & Hr' & Hl' & Hu'). split_and!; congruence. Qed.

Lemma quiet_wrote (w w' : World) : quiet w w' ↔ wrote (fun d => d) w w'.
Proof. done. Qed.

Definition rule_effect (writes : bool) (i : Item) (d : Db) : Db :=
  if writes then if is_delete i then delete_rule (pi_resource i) d else save_rule (pi_resource i) d else d.

Definition metadata_effect (i : Item) (d : Db) : Db :=
  if is_delete i then
    match pi_metadata_before i with
    | Some row => delete_automation_resource (rs_resource_kind row) (rs_resource_id row) d
    | None => d
    end
  else
    match pi_metadata_after i with
    | Some row => if bool_decide (pi_operation i = lit "create") || was_agent_owned i then save_automation_resource row d else d
    | None => d
    end.

Definition item_effect (writes : bool) (change_id : str) (sequence : Z) (i : Item) (d : Db) : Db :=
  let d := metadata_effect i (rule_effect writes i d) in
  with_change_items d (<[(change_id, sequence) := item_row change_id sequence i]> (change_items d)).

Lemma commit_item_ok change_id writes sequence (i : Item) (w : World) w' :
  commit_item change_id writes sequence i w = (Ok tt, w') → wrote (item_effect writes change_id sequence i) w w'.
Proof.
  unfold commit_item. rewrite bind_ok. intros ([] & w1 & Hc1 & Hc). rewrite bind_ok in Hc. destruct Hc as ([] & w2 & H2' & Hc).
  assert (wrote (rule_effect writes i) w w1) as W1.
  { unfold rule_effect. destruct writes; [destruct (is_delete i)|]; try by eapply execute_ok. by injection Hc1 as <-. }
  assert (wrote (metadata_effect i) w1 w2) as W2.
  { unfold metadata_effect. destruct (is_delete i), (pi_metadata_before i), (pi_metadata_after i); try by eapply execute_ok.
    all: try destruct (bool_decide _ || _); try (by injection H2' as <-); by eapply execute_ok. }
  unfold try_execute in Hc. rewrite bind_ok in Hc. destruct Hc as ([] & w3 & Hio & Hc).
  pose proof (frame_io quiet _ _ _ _ Hio) as Hq. apply quiet_wrote in Hq.
  assert (wrote (fun d => metadata_effect i (rule_effect writes i d)) w w3) as W
    by exact (wrote_trans _ (fun d => d) _ _ _ (wrote_trans _ _ _ _ _ W1 W2) Hq).
  destruct (insert_automation_change_item _ (db w3)) as [d|e] eqn:Hins; [|done]. injection Hc as <-.
  unfold insert_automation_change_item in Hins. cbn [item_row it_change_id it_sequence] in Hins.
  destruct (change_items (db w3) !! (change_id, sequence)); [done|]. injection Hins as <-.
  destruct W as (Hd & Hr & Hl & Hu). split_and!; cbn; try done. rewrite Hd. done.
Qed.

Fixpoint items_effect (writes : bool) (change_id : str) (sequence : Z) (items : list Item) (d : Db) : Db :=
  match items with
  | [] => d
  | i :: items => items_effect writes change_id (sequence + 1) items (item_effect writes change_id sequence i d)
  end.

Lemma commit_items_ok change_id writes items : ∀ sequence (w : World) w',
  commit_items change_id writes sequence items w = (Ok tt, w') → wrote (items_effect writes change_id sequence items) w w'.
Proof.
  induction items as [|i items IH]; intros sequence w w'; cbn [commit_items items_effect].
  - by intros [= <-].
  - rewrite bind_ok. intros ([] & w1 & H1' & H2'). apply commit_item_ok in H1'. apply IH in H2'.
    by eapply (wrote_trans (item_effect writes change_id sequence i)).
Qed.

Lemma transaction_ok {A} l1 l2 (body : M A) (w : World) a w' :
  transaction l1 l2 body w = (Ok a, w') → ∃ w1 w2, quiet w w1 ∧ body w1 = (Ok a, w2) ∧ quiet w2 w'.
Proof.
  unfold transaction. match goal with |- context [match ?m w with _ => _ end] => destruct (m w) as [[x|e] w3] eqn:Hm end; [|done].
  intros [= -> ->]. rewrite bind_ok in Hm. destruct Hm as ([] & w1 & Hb & Hm). rewrite bind_ok in Hm.
  destruct Hm as (x & w2 & Hbody & Hm). rewrite bind_ok in Hm. destruct Hm as ([] & w4 & Hc & [= <- <-]).
  exists w1, w2. split_and!; [by eapply frame_io; [apply _|]|done|by eapply frame_io; [apply _|]].
Qed.

Definition committed_row (p : @PreparedPlan number) (caller : str * str) (at_ : str) : AutomationChangeSetRow :=
  with_status (lit "committed") None (Some at_) None None (change_set_row p caller at_).

Lemma commit_ok (p : @PreparedPlan number) caller (w : World) w' :
  commit_prepared_change p caller w = (Ok tt, w') →
  ∃ at_, change_sets (db w) !! pp_change_id p = None ∧
    wrote (fun d => items_effect (negb (bool_decide (pp_lifecycle p = lit "ephemeral"))) (pp_change_id p) 0 (pp_items p)
                      (with_change_sets d (<[pp_change_id p := committed_row p caller at_]> (change_sets d)))) w w'.
Proof.
  unfold commit_prepared_change. rewrite bind_ok. intros ([] & w1 & Hl & Hc). pose proof (frame_lock quiet _ _ _ Hl) as Hq1.
  apply transaction_ok in Hc as (w2 & w3 & Hq2 & Hb & Hq3). rewrite bind_ok in Hb. destruct Hb as (at_ & w4 & Hn & Hb).
  pose proof (frame_now quiet _ _ _ Hn) as Hq4. rewrite bind_ok in Hb. destruct Hb as ([] & w5 & Hi & Hb).
  rewrite bind_ok in Hb. destruct Hb as ([] & w6 & Hs & Hb). apply commit_items_ok in Hb.
  unfold try_execute in Hi. rewrite bind_ok in Hi. destruct Hi as ([] & w7 & Hio & Hi).
  pose proof (frame_io quiet _ _ _ _ Hio) as Hq5.
  destruct (insert_automation_change_set (change_set_row p caller at_) (db w7)) as [d|e] eqn:Hins; [|done]. injection Hi as <-.
  unfold insert_automation_change_set in Hins. cbn [change_set_row cs_id cs_scope_key cs_idempotency_key] in Hins.
  destruct (change_sets (db w7) !! pp_change_id p) eqn:Hnone; [done|].
  destruct (load_automation_change_by_idempotency _ _ _); [done|]. injection Hins as <-.
  assert (quiet w w7) as Hq by (repeat (etrans; [eassumption|]); done).
  apply execute_ok in Hs. exists at_. split; [by rewrite <- (proj1 Hq)|].
  destruct Hq as (Hd & Hr & Hlg & Hu). destruct Hs as (Hsd & Hsr & Hsl & Hsu). destruct Hb as (Hbd & Hbr & Hbl & Hbu).
  destruct Hq3 as (H3d & H3r & H3l & H3u). cbn in Hsd, Hsr, Hsl, Hsu.
  split_and!; [|congruence..]. rewrite H3d, Hbd, Hsd. f_equal. unfold update_automation_change_status, with_change_sets. cbn.
  rewrite Hd. by rewrite alter_insert_eq.
Qed.
End Facts.
