(* ===== verification/AutomationRollback.v ===== *)
(** * AutomationRollback: what a change writes and how it is undone

    Theorems on [apply_automation_plan_locked] and
    [rollback_automation_change_locked] of src/apps/desktop/src-tauri/src/automation.rs:
    without its permission an agent does not reach rules of the user, whatever
    fails on the way, and rolling a change back restores the rules and the
    metadata it replaced. *)

From S2P Require Import Prelude Str Patterns JsonPath RuleTypes RuleManagers RuleSelection HttpIo Rewrite.
From S2P Require Import MapRules AutomationPlan AutomationDb Automation AutomationFacts.

Section Tables.
Context {number : Type} `{AutomationCodec number} `{RowCodec number} `{!ChangeCodec number} `{SqlOrder} `{!RegexEngine}
  `{UrlOps} `{FileSystem} (asset_root : bytes).
Abbreviation World := (@World number _).
Abbreviation Item := (@PreparedChangeItem number).
Abbreviation M := (@M number _).

(** ** One key of the tables *)

(** A rule after a trip through its row *)
Definition through (r : PreparedResource number) : PreparedResource number :=
  match r with
  | PRewrite r => PRewrite (rewrite_row_to_rule (rewrite_row r))
  | PMap r => PMap (map_row_to_rule (map_row r))
  end.

Definition storable_resource (r : PreparedResource number) : Prop :=
  match r with PRewrite r => storable r | PMap r => typed (map_match_type r) end.

Lemma through_storable r : through r = r ↔ storable_resource r.
Proof.
  destruct r as [r|r]; cbn.
  - rewrite <- rewrite_row_round. split; [by intros [= ?]|by intros ->].
  - rewrite <- map_row_round. split; [by intros [= ?]|by intros ->].
Qed.

(** The rule and the metadata of a resource *)
Definition at_key (q : str * str) (d : Db) : option (PreparedResource number) * option AutomationResourceRow :=
  (stored_resource q.1 q.2 d, resources d !! q).

Lemma kind_cases (r : PreparedResource number) : kind r = lit "rewrite" ∨ kind r = lit "map".
Proof. destruct r; auto. Qed.

Lemma stored_save (r : PreparedResource number) q d :
  stored_resource q.1 q.2 (save_rule r d) =
  if bool_decide (q = (kind r, id r)) then Some (through r) else stored_resource q.1 q.2 d.
Proof.
  destruct q as [k i]. unfold stored_resource. cbn [fst snd]. destruct r as [r|r]; cbn [save_rule kind id].
  - cbn [rewrite_table map_table save_rewrite_rule with_rewrites rr_id rewrite_row]. destruct (decide (k = lit "rewrite")) as [->|Hk].
    + rewrite bool_decide_eq_true_2 by done. destruct (decide (i = rw_id r)) as [->|Hi].
      * rewrite lookup_insert_eq, bool_decide_eq_true_2 by done. done.
      * rewrite lookup_insert_ne by done. rewrite (bool_decide_eq_false_2 (_ = (_, _))) by congruence. done.
    + rewrite !(bool_decide_eq_false_2 (k = lit "rewrite")), (bool_decide_eq_false_2 (_ = (_, _))) by congruence. done.
  - cbn [rewrite_table map_table save_map_rule with_maps mr_id map_row]. destruct (decide (k = lit "map")) as [->|Hk].
    + rewrite (bool_decide_eq_false_2 (lit "map" = lit "rewrite")) by done. rewrite (bool_decide_eq_true_2 (lit "map" = lit "map")) by done.
      destruct (decide (i = map_id r)) as [->|Hi].
      * rewrite lookup_insert_eq, bool_decide_eq_true_2 by done. done.
      * rewrite lookup_insert_ne by done. rewrite (bool_decide_eq_false_2 (_ = (_, _))) by congruence. done.
    + rewrite !(bool_decide_eq_false_2 (k = lit "map")), (bool_decide_eq_false_2 (_ = (_, _))) by congruence. done.
Qed.

Lemma delete_rule_kind (r : PreparedResource number) d : delete_rule r d = delete_kind (kind r) (id r) d.
Proof. by destruct r. Qed.

Lemma stored_delete k i q d :
  stored_resource q.1 q.2 (delete_kind k i d) = if bool_decide (q = (k, i)) then None else stored_resource q.1 q.2 d.
Proof.
  destruct q as [k' i']. unfold stored_resource, delete_kind. cbn [fst snd].
  destruct (decide (k = lit "rewrite")) as [->|Hk]; [|destruct (decide (k = lit "map")) as [->|Hk']].
  - rewrite (bool_decide_eq_true_2 (lit "rewrite" = lit "rewrite")) by done. cbn [rewrite_table map_table delete_rewrite_rule with_rewrites].
    destruct (decide (k' = lit "rewrite")) as [->|Hk'].
    + rewrite (bool_decide_eq_true_2 (lit "rewrite" = lit "rewrite")) by done. destruct (decide (i' = i)) as [->|Hi].
      * by rewrite lookup_delete_eq, bool_decide_eq_true_2.
      * rewrite lookup_delete_ne by done. by rewrite (bool_decide_eq_false_2 (_ = (_, _))) by congruence.
    + rewrite !(bool_decide_eq_false_2 (k' = lit "rewrite")), (bool_decide_eq_false_2 (_ = (_, _))) by congruence. done.
  - rewrite (bool_decide_eq_false_2 (lit "map" = lit "rewrite")) by done.
    rewrite (bool_decide_eq_true_2 (lit "map" = lit "map")) by done. cbn [rewrite_table map_table delete_map_rule with_maps].
    destruct (decide (k' = lit "map")) as [->|Hk'].
    + rewrite (bool_decide_eq_false_2 (lit "map" = lit "rewrite")) by done.
      rewrite (bool_decide_eq_true_2 (lit "map" = lit "map")) by done. destruct (decide (i' = i)) as [->|Hi].
      * by rewrite lookup_delete_eq, bool_decide_eq_true_2.
      * rewrite lookup_delete_ne by done. by rewrite (bool_decide_eq_false_2 (_ = (_, _))) by congruence.
    + rewrite !(bool_decide_eq_false_2 (k' = lit "map")), (bool_decide_eq_false_2 (_ = (_, _))) by congruence. done.
  - rewrite (bool_decide_eq_false_2 (k = lit "rewrite")), (bool_decide_eq_false_2 (k = lit "map")) by done.
    destruct (decide ((k', i') = (k, i))) as [Hq|Hq].
    + rewrite (bool_decide_eq_true_2 (_ = (_, _))) by done. injection Hq as -> ->. by rewrite !bool_decide_eq_false_2.
    + by rewrite (bool_decide_eq_false_2 (_ = (_, _))).
Qed.

Lemma at_save_rule (r : PreparedResource number) q d :
  at_key q (save_rule r d) = (if bool_decide (q = (kind r, id r)) then Some (through r) else (at_key q d).1, (at_key q d).2).
Proof. unfold at_key. rewrite stored_save. cbn [fst snd]. by destruct r. Qed.

Lemma at_delete_kind k i q d :
  at_key q (delete_kind k i d) = (if bool_decide (q = (k, i)) then None else (at_key q d).1, (at_key q d).2).
Proof.
  unfold at_key. rewrite stored_delete. cbn [fst snd]. unfold delete_kind. f_equal.
  by destruct (bool_decide (k = lit "rewrite")), (bool_decide (k = lit "map")).
Qed.

Definition merged (row : AutomationResourceRow) (old : option AutomationResourceRow) : AutomationResourceRow :=
  match old with Some old => merge_resource old row | None => row end.

Definition row_key (row : AutomationResourceRow) : str * str := (rs_resource_kind row, rs_resource_id row).

Lemma at_save_resource row q d :
  at_key q (save_automation_resource row d) =
  ((at_key q d).1, if bool_decide (q = row_key row) then Some (merged row (at_key q d).2) else (at_key q d).2).
Proof.
  unfold at_key. cbn. unfold row_key. case_bool_decide as Hq.
  - subst q. by rewrite lookup_insert_eq.
  - by rewrite lookup_insert_ne.
Qed.

Lemma at_delete_resource k i q d :
  at_key q (delete_automation_resource k i d) = ((at_key q d).1, if bool_decide (q = (k, i)) then None else (at_key q d).2).
Proof.
  unfold at_key. cbn. case_bool_decide as Hq.
  - subst q. by rewrite lookup_delete_eq.
  - by rewrite lookup_delete_ne.
Qed.

(** The columns of the primary key are the key. *)
Record keyed (d : Db) : Prop := {
  ky_resources q row : resources d !! q = Some row → row_key row = q;
  ky_items q row : change_items d !! q = Some row → (it_change_id row, it_sequence row) = q
}.

(** ** What a commit does to one key *)

(** The metadata of an item is about its resource. *)
Definition own (i : Item) : Prop :=
  (∀ row, pi_metadata_before i = Some row → row_key row = key i) ∧
  (pi_operation i ≠ lit "delete" → ∀ row, pi_metadata_after i = Some row → row_key row = key i).

Lemma item_own (w : World) permissions change_id i : keyed (db w) → item_of w permissions change_id i → own i.
Proof.
  intros Hk [Ht _ Ha _]. split.
  - intros row Hr. destruct Ht as [[_ _ Hn]|(b & [_ _ _ _ Hm _])]; [congruence|]. apply (ky_resources _ Hk). congruence.
  - intros Ho row Hr. destruct (Ha Ho) as (_ & _ & row' & Hr' & (Hrk & _)). unfold row_key. congruence.
Qed.

Lemma at_item writes change_id sequence i q d :
  own i → at_key q (item_effect writes change_id sequence i d) =
    if bool_decide (q = key i) then at_key q (metadata_effect i (rule_effect writes i d)) else at_key q d.
Proof.
  intros [Hb Ha]. assert (∀ d, at_key q (item_effect writes change_id sequence i d) =
    at_key q (metadata_effect i (rule_effect writes i d))) as -> by done.
  case_bool_decide as Hq; [done|]. unfold metadata_effect, rule_effect, is_delete.
  assert (∀ (b : bool) d, at_key q (if b then save_rule (pi_resource i) d else d) = at_key q d) as Hs.
  { intros [] d'; [|done]. rewrite at_save_rule, bool_decide_eq_false_2 by done. done. }
  destruct (bool_decide (pi_operation i = lit "delete")) eqn:Hop.
  - assert (at_key q (if writes then delete_rule (pi_resource i) d else d) = at_key q d) as Hd.
    { destruct writes; [|done]. rewrite delete_rule_kind, at_delete_kind, bool_decide_eq_false_2 by done. done. }
    destruct (pi_metadata_before i) as [row|]; [|done]. rewrite at_delete_resource, bool_decide_eq_false_2, Hd; [done|].
    change (q ≠ row_key row). by rewrite (Hb row).
  - destruct (pi_metadata_after i) as [row|]; [|apply Hs]. destruct (bool_decide _ || _); [|apply Hs].
    rewrite at_save_resource, bool_decide_eq_false_2, Hs; [done|]. apply bool_decide_eq_false in Hop.
    by rewrite (Ha Hop row).
Qed.

(** Keys that no item names stay. *)
Lemma at_items_other writes change_id items q : Forall own items → q ∉ map key items → ∀ sequence d,
  at_key q (items_effect writes change_id sequence items d) = at_key q d.
Proof.
  induction 1 as [|i items Hi Hit IH]; [done|]. cbn [map items_effect]. intros [Hq Hn]%not_elem_of_cons sequence d.
  rewrite IH by done. rewrite at_item by done. by rewrite bool_decide_eq_false_2.
Qed.

(** ** Every run of an apply *)

(** Rules and metadata stay. *)
Definition same_tables (w w' : World) : Prop := ∀ q, at_key q (db w') = at_key q (db w).

#[export] Instance same_tables_ids : StableIds same_tables.
Proof.
  split; [split; [split|]|]; unfold same_tables; [done|intros ??? Ha Hb q; by rewrite Hb|..]; by intros w w' ->.
Qed.

Lemma bind_any {A B} (m : M A) (k : A → M B) w r w' :
  bind m k w = (r, w') → (∃ e, m w = (Err e, w') ∧ r = Err e) ∨ ∃ a w1, m w = (Ok a, w1) ∧ k a w1 = (r, w').
Proof. unfold bind. destruct (m w) as [[a|e] w1]; naive_solver. Qed.

Lemma status_frame c s g x y z l : frame same_tables (update_status (number := number) c s g x y z l).
Proof. apply frame_execute; [apply _|]. done. Qed.

Lemma publish_frame p : frame same_tables (publish_current_runtime p).
Proof.
  unfold publish_current_runtime, add_pending, overlay_change. frames.
  intros w r w'. destruct (merge_legacy w _). by intros [= _ <-].
Qed.

#[local] Hint Resolve status_frame publish_frame : frame_hints.

Lemma existing_frame c h : frame same_tables (apply_existing c h).
Proof. unfold apply_existing. frames. Qed.

Lemma stage_frame c assets : frame quiet (stage_assets (number := number) asset_root c assets).
Proof.
  unfold stage_assets. apply frame_bind; [apply _|frames|]. intros paths. induction assets as [|a assets IH]; cbn [stage_each]; frames.
Qed.

Lemma note_frame c : frame same_tables (note_publish_failed (number := number) c).
Proof.
  intros w r w'. unfold note_publish_failed.
  assert (frame same_tables (bind lock_db (fun _ => update_status (number := number) c (lit "publish_failed") None None None None []))) as Hf
    by frames.
  destruct (bind lock_db _ w) as [x w2] eqn:Hn. intros [= _ <-]. by eapply Hf.
Qed.

Lemma publish_or_note_frame c : frame same_tables (publish_or_note c).
Proof.
  intros w r w'. unfold publish_or_note. destruct (publish_current_runtime (Some c) w) as [[g|e] w1] eqn:Hp;
    apply publish_frame in Hp; [by intros [= _ <-]|].
  destruct (note_publish_failed c w1) as [x w2] eqn:Hn. apply note_frame in Hn. intros [= _ <-]. by etrans.
Qed.

#[local] Hint Resolve existing_frame publish_or_note_frame : frame_hints.

Lemma transaction_err {A} l1 l2 (body : M A) (w : World) e w' : transaction l1 l2 body w = (Err e, w') → db w' = db w.
Proof.
  unfold transaction. match goal with |- context [match ?m w with _ => _ end] => destruct (m w) as [[x|e'] w3] end; [done|].
  by intros [= _ <-].
Qed.

Lemma commit_err (p : @PreparedPlan number) caller (w : World) e w' :
  commit_prepared_change p caller w = (Err e, w') → same_tables w w'.
Proof.
  unfold commit_prepared_change. intros [(e' & Hl & _)|([] & w1 & Hl & Ht)]%bind_any.
  - by eapply frame_lock; [apply _|].
  - apply transaction_err in Ht. pose proof (frame_lock quiet _ _ _ Hl) as (Hd & _). intros q. by rewrite Ht, Hd.
Qed.

Lemma quiet_tables (w w' : World) : quiet w w' → same_tables w w'.
Proof. by intros (Hd & _) q; rewrite Hd. Qed.

Lemma world_tables (w w' : World) : same_world w w' → same_tables w w'.
Proof. by intros (Hd & _) q; rewrite Hd. Qed.

(** An apply leaves the tables alone, or prepares and commits its plan. *)
Lemma apply_shape params caller permissions (w : World) r w' :
  apply_automation_plan_locked asset_root params caller permissions w = (r, w') →
  same_tables w w' ∨
  ∃ p w1 w2 w3 w4, quiet w w1 ∧ prepare_automation_plan asset_root (ap_plan params) caller permissions w1 = (Ok p, w2) ∧
    quiet w2 w3 ∧ commit_prepared_change p caller w3 = (Ok tt, w4) ∧ same_tables w4 w'.
Proof.
  unfold apply_automation_plan_locked. cbn zeta.
  intros [(e & [= _ <-] & _)|([] & w1 & [= _ <-] & Ha)]%bind_any; [by left|].
  apply bind_any in Ha as [(e & [= _ <-] & _)|(sk & w1 & [= _ <-] & Ha)]; [by left|].
  apply bind_any in Ha as [(e & Hl & _)|([] & w1 & Hl & Ha)]; pose proof (frame_lock quiet _ _ _ Hl) as Hq1;
    [left; by apply quiet_tables|].
  apply bind_any in Ha as [(e & Hl2 & _)|(ex & w2 & Hl2 & Ha)]; pose proof (frame_query quiet _ _ _ _ _ Hl2) as Hq2;
    [left; apply quiet_tables; by etrans|].
  assert (quiet w w2) as Hq by by etrans. clear Hl Hl2 Hq1 Hq2 w1.
  destruct ex as [c|]; [left; etrans; [by apply quiet_tables|by eapply existing_frame]|].
  apply bind_any in Ha as [(e & Hp & _)|(p & w3 & Hp & Ha)].
  { left. etrans; [by apply quiet_tables|]. apply world_tables. by eapply prepare_frame. }
  assert (same_tables w w3) as Hw3.
  { etrans; [by apply quiet_tables|]. apply world_tables. by eapply prepare_frame. }
  apply bind_any in Ha as [(e & [= _ <-] & _)|([] & w4 & [= _ <-] & Ha)]; [by left|].
  apply bind_any in Ha as [(e & [= _ <-] & _)|([] & w4 & [= _ <-] & Ha)]; [by left|].
  apply bind_any in Ha as [(e & Hs & _)|([] & w4 & Hs & Ha)]; apply stage_frame in Hs;
    [left; etrans; [done|by apply quiet_tables]|].
  unfold commit_or_clean in Ha at 1.
  apply bind_any in Ha as [(e & Hc & _)|([] & w5 & Hc & Ha)].
  - left. destruct (commit_prepared_change p caller w4) as [[[]|e'] w5] eqn:Hcm; [done|]. apply commit_err in Hcm.
    destruct (remove_staged_assets (pp_change_id p) w5) as [x w6] eqn:Hr. injection Hc as _ <-.
    etrans; [exact Hw3|]. etrans; [by apply quiet_tables|]. etrans; [exact Hcm|]. by eapply frame_remove_staged; [apply _|].
  - right. destruct (commit_prepared_change p caller w4) as [[[]|e'] w5'] eqn:Hcm; [|by destruct (remove_staged_assets _ _)].
    injection Hc as <-. exists p, w2, w3, w4, w5'. split_and!; [done..|].
    match type of Ha with ?m _ = _ => assert (frame same_tables m) as Hf by frames end. by eapply Hf.
Qed.

Lemma fresh_quiet (w w' : World) : quiet w w' → fresh w → fresh w'.
Proof.
  intros (Hd & Hr & _ & Hu) [H1' H2' H3' H4' H5' H6']. split; rewrite ?Hd, ?Hu; try done.
  intros k n. specialize (H2' k n). unfold live, live_rewrites, live_maps in *. by rewrite Hr.
Qed.

(** ** Undoing an item *)

(** The creator is known. *)
Definition attributed (row : AutomationResourceRow) : Prop :=
  is_some (rs_created_by_client row) = true ∧ is_some (rs_created_by_version row) = true.

(** The columns an update of the metadata never changes *)
Definition same_origin (m row : AutomationResourceRow) : Prop :=
  row_key m = row_key row ∧ rs_created_by_client m = rs_created_by_client row ∧
  rs_created_by_version m = rs_created_by_version row ∧ rs_created_at m = rs_created_at row.

Lemma merge_back m row : same_origin m row → attributed row → merge_resource m row = row.
Proof.
  intros (Hk & Hc & Hv & Ht) [Ac Av]. unfold merge_resource, row_key in *. rewrite Hc, Hv, Ht. injection Hk as -> ->.
  destruct row as [? ? ? ? ? ? [c|] [v|] ? ? ? ?]; done.
Qed.

Lemma merge_origin m row : attributed m → row_key m = row_key row → same_origin (merge_resource m row) m.
Proof.
  intros [Ac Av] Hk. unfold same_origin, merge_resource, row_key. cbn. split; [done|].
  destruct (rs_created_by_client m), (rs_created_by_version m); done.
Qed.

(** The rules of the tables have a match type, the metadata its keys and creators,
    and the rules the plan names run as they are stored. *)
Record settled (plan : AutomationPlan number) (w : World) : Prop := {
  st_keyed : keyed (db w);
  st_attributed q row : resources (db w) !! q = Some row → attributed row;
  st_rewrites i row : rewrite_table (db w) !! i = Some row → rr_match_type row ≠ [];
  st_maps i row : map_table (db w) !! i = Some row → mr_match_type row ≠ [];
  st_synced q : q ∈ targets plan → live q.1 q.2 w = stored_resource q.1 q.2 (db w)
}.

Lemma settled_storable plan (w : World) k i r :
  settled plan w → stored_resource k i (db w) = Some r → storable_resource r.
Proof.
  intros Hs. unfold stored_resource. destruct (bool_decide _); [|destruct (bool_decide _); [|done]].
  - intros (row & Hr & ->)%fmap_Some. apply stored_storable. by eapply st_rewrites.
  - intros (row & Hr & ->)%fmap_Some. apply (st_maps _ _ Hs) in Hr. unfold storable_resource, typed. cbn. unfold stored_type.
    rewrite bool_decide_eq_false_2 by done. by eexists.
Qed.

Section Undo.
Context (plan : AutomationPlan number) (w0 : World) (permissions : AutomationPermissions) (change_id lifecycle : str)
  (Hfresh : fresh w0) (Hsettled : settled plan w0).

(** An item of the plan, and the state of its key in a database that the item can
    be undone in *)
Definition planned (i : Item) : Prop :=
  item_of w0 permissions change_id i ∧ (pi_operation i ≠ lit "create" → key i ∈ targets plan).

Definition undoable (i : Item) (d : Db) : Prop :=
  if bool_decide (pi_operation i = lit "create") then lifecycle = lit "ephemeral" → (at_key (key i) d).1 = None
  else match pi_metadata_before i with
       | None => (at_key (key i) d).2 = None
       | Some row => (at_key (key i) d).2 = None ∨ ∃ m, (at_key (key i) d).2 = Some m ∧ same_origin m row
       end.

Lemma create_fresh i : planned i → pi_operation i = lit "create" → at_key (key i) (db w0) = (None, None).
Proof.
  intros [[[[_ (n & Hn) _]|(b & [Ho _ _ _ _ _])] _ _ _] _] Hop.
  - unfold at_key, key. cbn [fst snd]. by rewrite Hn, (fr_stored _ Hfresh), (fr_resources _ Hfresh).
  - rewrite Hop in Ho. by destruct Ho as [|[]].
Qed.

Lemma replaces_stored i : planned i → pi_operation i ≠ lit "create" →
  ∃ before, at_key (key i) (db w0) = (Some before, pi_metadata_before i) ∧ pi_before_json i = Some (resource_json before) ∧
    through before = before ∧ kind before = kind (pi_resource i) ∧ id before = id (pi_resource i).
Proof.
  intros [[[[Ho _ _]|(b & [_ Hl Hj _ Hm _])] _ _ _] Ht] Hop; [done|]. exists b.
  pose proof (live_key _ _ _ _ Hl) as [Hk Hi]. rewrite (st_synced _ _ Hsettled) in Hl by auto.
  split_and!; try done.
  - unfold at_key. by rewrite Hl, Hm.
  - apply through_storable. by eapply settled_storable.
Qed.

Lemma undoable_before i : planned i → undoable i (db w0).
Proof.
  intros Hp. unfold undoable. case_bool_decide as Hop; [by rewrite (create_fresh _ Hp Hop)|].
  destruct (replaces_stored _ Hp Hop) as (b & -> & _). cbn. destruct (pi_metadata_before i) as [row|]; [|done].
  right. by exists row.
Qed.

Lemma undoable_at i d d' : at_key (key i) d' = at_key (key i) d → undoable i d → undoable i d'.
Proof. unfold undoable. by intros ->. Qed.

Lemma before_attributed i row : planned i → pi_operation i ≠ lit "create" → pi_metadata_before i = Some row →
  attributed row ∧ row_key row = key i.
Proof.
  intros Hp Hop Hr. destruct (replaces_stored _ Hp Hop) as (b & Ha & _). rewrite Hr in Ha. unfold at_key in Ha. injection Ha as _ Ha.
  split; [by eapply st_attributed|]. by eapply ky_resources; [eapply st_keyed|].
Qed.

Lemma restore_rule_ok before (w : World) w' :
  restore_rule_json (kind before) (resource_json before) w = (Ok tt, w') → wrote (save_rule before) w w'.
Proof.
  unfold restore_rule_json. destruct before as [r|r]; cbn [kind resource_json].
  - rewrite bool_decide_eq_true_2 by done. rewrite bind_ok. intros (r' & w1 & Hl & He). apply lift_ok in Hl as [Hl ->].
    rewrite rewrite_json_round in Hl. injection Hl as <-. by eapply execute_ok.
  - rewrite bool_decide_eq_false_2, bool_decide_eq_true_2 by done. rewrite bind_ok. intros (r' & w1 & Hl & He).
    apply lift_ok in Hl as [Hl ->]. rewrite map_json_round in Hl. injection Hl as <-. by eapply execute_ok.
Qed.

(** A run that changed the tables at one key *)
Record sets (q : str * str) (v : option (PreparedResource number) * option AutomationResourceRow) (w w' : World) : Prop := {
  se_at q' : at_key q' (db w') = if bool_decide (q' = q) then v else at_key q' (db w);
  se_changes : change_sets (db w') = change_sets (db w)
}.

Lemma restore_metadata_ok i n rule (w : World) w' :
  planned i → pi_operation i ≠ lit "create" → undoable i (db w) →
  restore_metadata (item_row change_id n i) w = (Ok tt, w') → (at_key (key i) (db w)).1 = Some rule →
  sets (key i) (Some rule, pi_metadata_before i) w w'.
Proof.
  intros Hp Hop Hu. unfold restore_metadata. rewrite bind_ok. intros (row & w1 & Hl & He) Hrule. apply lift_ok in Hl as [Hl ->].
  cbn [item_row it_dependencies_json] in Hl. pose proof (proj1 Hp) as Hi. destruct (io_dependencies _ _ _ _ Hi) as (a & Ha).
  rewrite Ha, dependencies_round in Hl. injection Hl as <-. unfold undoable in Hu. rewrite bool_decide_eq_false_2 in Hu by done.
  destruct (pi_metadata_before i) as [row|] eqn:Hb.
  - apply execute_ok in He as (Hd & _). destruct (before_attributed i row Hp Hop Hb) as [Hat Hk]. split; [|by rewrite Hd].
    intros q'. rewrite Hd, at_save_resource, Hk. case_bool_decide as Hq; [|by destruct (at_key q' (db w))].
    subst q'. rewrite Hrule. f_equal. f_equal. destruct Hu as [->|(m & -> & Ho)]; [done|]. cbn. by apply merge_back.
  - assert (sets (key i) (Some rule, None) w w ∧ ∀ w', db w' = delete_automation_resource (key i).1 (key i).2 (db w) →
      sets (key i) (Some rule, None) w w') as [Hsame Hdel].
    { rewrite <- Hrule, <- Hu. split.
      - split; [|done]. intros q'. case_bool_decide as Hq; [|done]. subst q'. by destruct (at_key (key i) (db w)).
      - intros w2 Hd. split; [|by rewrite Hd]. intros q'. rewrite Hd, at_delete_resource.
        rewrite <- surjective_pairing. case_bool_decide as Hq; [subst q'; by rewrite Hu|by destruct (at_key q' (db w))]. }
    destruct (execute [] _ w) as [[[]|e] w2] eqn:Hx; injection He as <-.
    + apply execute_ok in Hx as (Hd & _). by apply Hdel.
    + unfold execute in Hx. apply bind_any in Hx as [(e' & Hx & _)|([] & w3 & _ & [=])].
      destruct (frame_io quiet _ _ _ _ Hx) as (Hd & _). destruct Hsame as [Hs1 Hs2]. by split; rewrite Hd.
Qed.

Lemma sets_wrote f q v (w w' : World) :
  wrote f w w' → change_sets (f (db w)) = change_sets (db w) →
  (∀ q', at_key q' (f (db w)) = if bool_decide (q' = q) then v else at_key q' (db w)) → sets q v w w'.
Proof. intros (Hd & _) Hc Ha. by split; rewrite Hd. Qed.

Lemma sets_trans q u v (w w1 w2 : World) : sets q u w w1 → sets q v w1 w2 → sets q v w w2.
Proof.
  intros [Ha Hc] [Ha' Hc']. split; [|congruence]. intros q'. rewrite Ha'. case_bool_decide as Hq; [done|]. by rewrite Ha, bool_decide_eq_false_2.
Qed.

Lemma undo_create_ok i n (w : World) w' :
  planned i → pi_operation i = lit "create" → undoable i (db w) →
  undo_item lifecycle (item_row change_id n i) w = (Ok tt, w') → sets (key i) (None, None) w w'.
Proof.
  intros Hp Hop Hu. unfold undo_item. cbn [item_row it_operation it_resource_kind it_resource_id].
  rewrite bool_decide_eq_true_2 by done. rewrite bind_ok. intros ([] & w1 & Hr & Hm).
  assert (sets (key i) (None, (at_key (key i) (db w)).2) w w1) as S1.
  { unfold undoable in Hu. rewrite bool_decide_eq_true_2 in Hu by done. case_bool_decide as Hl.
    - injection Hr as <-. split; [|done]. intros q'. case_bool_decide as Hq; [|done]. subst q'. rewrite <- (Hu Hl).
      apply surjective_pairing.
    - assert (is_one_of (kind (pi_resource i)) [lit "rewrite"; lit "map"] = true) as Hk by by destruct (pi_resource i).
      rewrite Hk in Hr. apply execute_ok in Hr. eapply sets_wrote; [exact Hr| |].
      + by destruct (pi_resource i).
      + intros q'. rewrite at_delete_kind. fold (key i). case_bool_decide as Hq; [by subst q'|]. by rewrite <- surjective_pairing. }
  eapply sets_trans; [exact S1|]. apply execute_ok in Hm. eapply sets_wrote; [exact Hm|done|].
  intros q'. rewrite at_delete_resource. fold (key i). rewrite (se_at _ _ _ _ S1).
  destruct (decide (q' = key i)) as [Hq|Hq]; [by rewrite !bool_decide_eq_true_2 by done|].
  by rewrite !bool_decide_eq_false_2, <- surjective_pairing by done.
Qed.

Lemma undo_ok i n (w : World) w' :
  planned i → undoable i (db w) → undo_item lifecycle (item_row change_id n i) w = (Ok tt, w') →
  sets (key i) (at_key (key i) (db w0)) w w'.
Proof.
  intros Hp Hu Hr. destruct (decide (pi_operation i = lit "create")) as [Hop|Hop].
  { rewrite (create_fresh _ Hp Hop). by eapply undo_create_ok. }
  destruct (replaces_stored _ Hp Hop) as (before & Hb & Hj & Ht & Hk & Hi). rewrite Hb.
  assert (is_one_of (pi_operation i) [lit "update"; lit "delete"] = true) as Hud.
  { destruct Hp as [[[[Hc _ _]|(b & [[Ho|[Ho _]] _ _ _ _ _])] _ _ _] _]; [done|by rewrite Ho..]. }
  unfold undo_item in Hr. cbn [item_row it_operation it_resource_kind it_resource_id it_before_json] in Hr.
  rewrite bool_decide_eq_false_2, Hud, Hj in Hr by done. rewrite bind_ok in Hr. destruct Hr as (json & w1 & [= <- <-] & Hr).
  rewrite bind_ok in Hr. destruct Hr as ([] & w2 & Hr & Hm). rewrite <- Hk in Hr. apply restore_rule_ok in Hr.
  assert (key i = (kind before, id before)) as Hkey by (unfold key; congruence).
  assert (sets (key i) (Some before, (at_key (key i) (db w)).2) w w2) as S1.
  { eapply sets_wrote; [exact Hr|by destruct before|]. intros q'. rewrite at_save_rule, Ht, <- Hkey.
    case_bool_decide as Hq; [by subst q'|]. by rewrite <- surjective_pairing. }
  eapply sets_trans; [exact S1|]. eapply restore_metadata_ok; try done.
  - unfold undoable in *. rewrite (se_at _ _ _ _ S1), (bool_decide_eq_true_2 (key i = key i)) by done. by rewrite bool_decide_eq_false_2 in * by done.
  - by rewrite (se_at _ _ _ _ S1), bool_decide_eq_true_2 by done.
Qed.

(** Every item of the list is undone, in any order. *)
Lemma undo_all_ok (items : list Item) rows :
  Forall planned items → Forall (fun row => ∃ n i, i ∈ items ∧ row = item_row change_id n i) rows →
  ∀ (w : World) w', (∀ i, i ∈ items → undoable i (db w)) → for_each rows (undo_item lifecycle) w = (Ok tt, w') →
  change_sets (db w') = change_sets (db w) ∧
  ∀ q, at_key q (db w') = at_key q (db w0) ∨
       at_key q (db w') = at_key q (db w) ∧ ∀ row, row ∈ rows → (it_resource_kind row, it_resource_id row) ≠ q.
Proof.
  intros Hpl. induction 1 as [|row rows (n & i & Hi & ->) _ IH]; intros w w' Hu; cbn [for_each].
  { intros [= <-]. split; [done|]. intros q. right. set_solver. }
  rewrite bind_ok. intros ([] & w1 & Hr & Hrest). pose proof (proj1 (Forall_forall _ _) Hpl i Hi) as Hp.
  apply undo_ok in Hr as [Ha Hc]; [|done|by apply Hu].
  destruct (IH w1 w') as [Hc' Ha']; [|done|].
  { intros j Hj. destruct (decide (key j = key i)) as [Hq|Hq].
    - eapply undoable_at; [|apply (undoable_before j), (proj1 (Forall_forall _ _) Hpl j Hj)].
      by rewrite Ha, bool_decide_eq_true_2, Hq by done.
    - eapply undoable_at; [|by apply Hu]. by rewrite Ha, bool_decide_eq_false_2 by done. }
  split; [congruence|]. intros q. destruct (Ha' q) as [Hq|[Hq Hn]]; [by left|].
  rewrite Ha in Hq. case_bool_decide as Hk; [left; congruence|]. right. split; [done|].
  intros r [->|Hin]%elem_of_cons; [|by apply Hn]. intros <-. by apply Hk.
Qed.

(** *** A committed item can be undone *)

Lemma planned_own i : planned i → own i.
Proof. intros [Hi _]. eapply item_own; [|done]. by eapply st_keyed. Qed.

Lemma at_metadata_rule (i : Item) q d : (at_key q (metadata_effect i d)).1 = (at_key q d).1.
Proof.
  unfold metadata_effect. destruct (is_delete i); [by destruct (pi_metadata_before i)|].
  destruct (pi_metadata_after i); [|done]. by destruct (bool_decide _ || _).
Qed.

Lemma at_rule_metadata b (i : Item) q d : (at_key q (rule_effect b i d)).2 = (at_key q d).2.
Proof. unfold rule_effect. destruct b, (is_delete i); try done; by destruct (pi_resource i). Qed.

Lemma metadata_undoable i d :
  planned i → pi_operation i ≠ lit "create" → (at_key (key i) d).2 = pi_metadata_before i →
  match pi_metadata_before i with
  | None => (at_key (key i) (metadata_effect i d)).2 = None
  | Some row => (at_key (key i) (metadata_effect i d)).2 = None ∨
      ∃ m, (at_key (key i) (metadata_effect i d)).2 = Some m ∧ same_origin m row
  end.
Proof.
  intros Hp Hop Hat. destruct (planned_own _ Hp) as [Hb Ha]. unfold metadata_effect, is_delete. case_bool_decide as Hd.
  - destruct (pi_metadata_before i) as [row|] eqn:Hm; [|done]. left. rewrite at_delete_resource. cbn [snd].
    by rewrite bool_decide_eq_true_2 by (symmetry; by apply Hb).
  - destruct (io_after _ _ _ _ (proj1 Hp) Hd) as (_ & _ & row & Hr & (Hk & _)). rewrite Hr.
    rewrite bool_decide_eq_false_2 by done. cbn [orb]. unfold was_agent_owned.
    destruct (pi_metadata_before i) as [old|] eqn:Hm; [|done]. right. destruct (bool_decide _); [|by exists old].
    rewrite at_save_resource. cbn [snd]. rewrite bool_decide_eq_true_2 by done. rewrite Hat. eexists. split; [done|].
    destruct (before_attributed _ _ Hp Hop Hm) as [Hat' Hk']. apply merge_origin; [done|]. rewrite Hk'. done.
Qed.

Abbreviation writes := (negb (bool_decide (lifecycle = lit "ephemeral"))).

Lemma item_undoable sequence i d :
  planned i → at_key (key i) d = at_key (key i) (db w0) → undoable i (item_effect writes change_id sequence i d).
Proof.
  intros Hp Hat. unfold undoable. rewrite at_item, (bool_decide_eq_true_2 (key i = key i)) by (done || by apply planned_own).
  case_bool_decide as Hop.
  - intros Hl. rewrite at_metadata_rule, (bool_decide_eq_true_2 _ Hl). cbn [negb rule_effect]. by rewrite Hat, create_fresh.
  - apply metadata_undoable; [done..|]. rewrite at_rule_metadata, Hat. by destruct (replaces_stored _ Hp Hop) as (b & -> & _).
Qed.

Lemma items_undoable items : Forall planned items → NoDup (map key items) → ∀ sequence d,
  (∀ i, i ∈ items → at_key (key i) d = at_key (key i) (db w0)) →
  ∀ i, i ∈ items → undoable i (items_effect writes change_id sequence items d).
Proof.
  induction 1 as [|j items Hj Hit IH]; [set_solver|]. cbn [map items_effect]. intros [Hnj Hnd]%NoDup_cons sequence d Hat i.
  intros [->|Hi]%elem_of_cons.
  - eapply undoable_at; [|apply item_undoable; [done|apply Hat; left]]. apply at_items_other; [|done].
    eapply Forall_impl; [exact Hit|]. apply planned_own.
  - apply IH; [done| |done]. intros x Hx. rewrite at_item by by apply planned_own. rewrite bool_decide_eq_false_2; [apply Hat; by right|].
    intros Heq. apply Hnj. rewrite <- Heq. by apply list_elem_of_fmap_2.
Qed.
End Undo.

(** *** The item rows of a change *)

Lemma effect_rows writes change_id sequence (i : Item) d :
  change_items (item_effect writes change_id sequence i d) = <[(change_id, sequence) := item_row change_id sequence i]> (change_items d).
Proof.
  unfold item_effect. cbn [change_items with_change_items]. f_equal. unfold metadata_effect, rule_effect.
  assert (∀ e, change_items (match pi_metadata_before i with
    | Some row => delete_automation_resource (rs_resource_kind row) (rs_resource_id row) e | None => e end) = change_items e) as Hb
    by (intros; by destruct (pi_metadata_before i)).
  destruct (is_delete i).
  - rewrite Hb. destruct writes; [by destruct (pi_resource i)|done].
  - destruct (pi_metadata_after i); [destruct (bool_decide _ || _)|]; (destruct writes; [by destruct (pi_resource i)|done]).
Qed.

Lemma items_rows_sound writes change_id (items : list Item) q row : ∀ sequence d,
  change_items (items_effect writes change_id sequence items d) !! q = Some row →
  change_items d !! q = Some row ∨ ∃ n i, i ∈ items ∧ row = item_row change_id n i.
Proof.
  induction items as [|i items IH]; intros sequence d; cbn [items_effect]; [by left|].
  intros [Hr|(n & j & Hj & ->)]%IH; [|right; exists n, j; split; [by right|done]].
  rewrite effect_rows in Hr. destruct (decide (q = (change_id, sequence))) as [->|Hq].
  - rewrite lookup_insert_eq in Hr. injection Hr as <-. right. exists sequence, i. split; [left|done].
  - rewrite lookup_insert_ne in Hr by done. by left.
Qed.

Lemma items_rows_before writes change_id (items : list Item) n : ∀ sequence d, n < sequence →
  change_items (items_effect writes change_id sequence items d) !! (change_id, n) = change_items d !! (change_id, n).
Proof.
  induction items as [|i items IH]; intros sequence d Hn; cbn [items_effect]; [done|].
  rewrite IH by lia. rewrite effect_rows. apply lookup_insert_ne. intros [= ->]. lia.
Qed.

Lemma items_rows_complete writes change_id (items : list Item) i : i ∈ items → ∀ sequence d, ∃ n,
  change_items (items_effect writes change_id sequence items d) !! (change_id, n) = Some (item_row change_id n i).
Proof.
  induction 1 as [j items|j x items Hi IH]; intros sequence d; cbn [items_effect]; [|apply IH].
  exists sequence. rewrite items_rows_before by lia. rewrite effect_rows. apply lookup_insert_eq.
Qed.

Lemma elem_of_rows {K A} `{Countable K} (t : gmap K A) row : row ∈ rows_of t ↔ ∃ k, t !! k = Some row.
Proof.
  unfold rows_of. rewrite list_elem_of_fmap. split.
  - intros ([k r] & -> & Hk). exists k. by apply elem_of_map_to_list.
  - intros (k & Hk). exists (k, row). split; [done|]. by apply elem_of_map_to_list.
Qed.

Lemma elem_of_items change_id row d :
  row ∈ load_automation_change_items change_id d ↔ it_change_id row = change_id ∧ ∃ q, change_items d !! q = Some row.
Proof.
  unfold load_automation_change_items. rewrite order_num_perm, list_elem_of_In, filter_In, <- list_elem_of_In, elem_of_rows.
  rewrite bool_decide_eq_true. tauto.
Qed.

(** *** Successful runs *)

Lemma publish_db p : frame same_db (publish_current_runtime p).
Proof.
  unfold publish_current_runtime, add_pending, overlay_change. frames.
  intros w r w'. destruct (merge_legacy w _). by intros [= _ <-].
Qed.

Lemma existing_idempotent c h (w : World) res w' : apply_existing c h w = (Ok res, w') → ap_idempotent res = true.
Proof.
  unfold apply_existing. rewrite bind_ok. intros ([] & w1 & _ & Ha).
  destruct (status_in c _); [by injection Ha as <-|]. destruct (status_in c _); [done|]. destruct (status_in c _); [|done].
  do 4 (rewrite bind_ok in Ha; destruct Ha as (? & ? & _ & Ha)). rewrite bind_ok in Ha. destruct Ha as ([c'|] & ? & _ & Ha); [|done].
  by injection Ha as <-.
Qed.

Lemma apply_ok params caller permissions (w : World) res w' :
  apply_automation_plan_locked asset_root params caller permissions w = (Ok res, w') → ap_idempotent res = false →
  ∃ p w1 w2 w3 w4 at_, quiet w w1 ∧ prepare_automation_plan asset_root (ap_plan params) caller permissions w1 = (Ok p, w2) ∧
    quiet w2 w3 ∧ commit_prepared_change p caller w3 = (Ok tt, w4) ∧ ap_change_id res = pp_change_id p ∧
    db w' = update_automation_change_status (pp_change_id p) (lit "active") (Some (ap_runtime_generation res)) None (Some at_) None (db w4).
Proof.
  unfold apply_automation_plan_locked. cbn zeta. rewrite bind_ok. intros ([] & w1 & [= _ <-] & Ha) Hi.
  rewrite bind_ok in Ha. destruct Ha as (sk & w1 & [= _ <-] & Ha).
  rewrite bind_ok in Ha. destruct Ha as ([] & w1 & Hl & Ha). pose proof (frame_lock quiet _ _ _ Hl) as Hq1.
  rewrite bind_ok in Ha. destruct Ha as (ex & w2 & Hl2 & Ha). pose proof (frame_query quiet _ _ _ _ _ Hl2) as Hq2.
  destruct ex as [c|]; [apply existing_idempotent in Ha; congruence|].
  rewrite bind_ok in Ha. destruct Ha as (p & w3 & Hp & Ha).
  do 2 (rewrite bind_ok in Ha; destruct Ha as ([] & ? & [= _ <-] & Ha)).
  rewrite bind_ok in Ha. destruct Ha as ([] & w4 & Hs & Ha). apply stage_frame in Hs.
  rewrite bind_ok in Ha. destruct Ha as ([] & w5 & Hc & Ha). unfold commit_or_clean in Hc.
  destruct (commit_prepared_change p caller w4) as [[[]|e'] w5'] eqn:Hcm; [|by destruct (remove_staged_assets _ _)].
  injection Hc as <-. rewrite bind_ok in Ha. destruct Ha as (g & w6 & Hpub & Ha). unfold publish_or_note in Hpub.
  destruct (publish_current_runtime (Some (pp_change_id p)) w5') as [[g'|e'] w6'] eqn:Hpr; [|by destruct (note_publish_failed _ _)].
  apply publish_db in Hpr as [Hd6 _]. injection Hpub as <- <-.
  rewrite bind_ok in Ha. destruct Ha as (at_ & w7 & Hn & Ha). pose proof (frame_now quiet _ _ _ Hn) as (Hd7 & _).
  rewrite bind_ok in Ha. destruct Ha as ([] & w8 & Hl8 & Ha). pose proof (frame_lock quiet _ _ _ Hl8) as (Hd8 & _).
  rewrite bind_ok in Ha. destruct Ha as ([] & w9 & Hu & [= <- <-]). apply map_error_ok, execute_ok in Hu as (Hd9 & _).
  exists p, w2, w3, w4, w5', at_. split_and!; try done; [by etrans|]. cbn [ap_runtime_generation]. congruence.
Qed.

Lemma check_current_frame c items : frame quiet (check_current (number := number) c items).
Proof. induction items as [|i items IH]; cbn [check_current]; frames. Qed.

#[local] Hint Resolve check_current_frame : frame_hints.

Lemma rollback_ok change_id expected reason permissions (w : World) res w' change :
  rollback_automation_change_locked change_id expected reason permissions w = (Ok res, w') →
  change_sets (db w) !! change_id = Some change → status_in change [lit "reverted"; lit "aborted"] = false →
  ∃ w1 w2 at_, quiet w w1 ∧
    for_each (rev (load_automation_change_items change_id (db w))) (undo_item (cs_lifecycle change)) w1 = (Ok tt, w2) ∧
    same_tables w2 w' ∧
    change_sets (db w') = alter (with_status (lit "reverted") (Some (ap_runtime_generation res)) None None (Some at_)) change_id
      (alter (with_status (lit "reverting") None None None None) change_id (change_sets (db w2))).
Proof.
  unfold rollback_automation_change_locked. rewrite bind_ok. intros ([] & w1 & Hl & Hr) Hch Hst.
  pose proof (frame_lock quiet _ _ _ Hl) as Hq1. rewrite bind_ok in Hr. destruct Hr as (c & w2 & Hq & Hr).
  apply query_ok in Hq as [-> Hq2]. unfold load_automation_change_set in Hr. rewrite (proj1 Hq1), Hch in Hr.
  rewrite bind_ok in Hr. destruct Hr as (items & w3 & Hq & Hr). apply query_ok in Hq as [-> Hq3].
  rewrite (proj1 Hq2), (proj1 Hq1), Hst in Hr. destruct (status_in change _); [done|].
  do 2 (rewrite bind_ok in Hr; destruct Hr as ([] & ? & [= _ <-] & Hr)).
  rewrite bind_ok in Hr. destruct Hr as ([] & w4 & Hs & Hr).
  assert (quiet w3 w4) as Hq4 by (match type of Hs with ?m _ = _ => assert (frame quiet m) as Hf by frames end; by eapply Hf).
  rewrite bind_ok in Hr. destruct Hr as ([] & w5 & Hs5 & Hr). apply check_current_frame in Hs5.
  rewrite bind_ok in Hr. destruct Hr as ([] & w6 & Hs6 & Hr). pose proof (frame_lock quiet _ _ _ Hs6) as Hq6.
  rewrite bind_ok in Hr. destruct Hr as (at_ & w7 & Ht & Hr). apply transaction_ok in Ht as (w8 & w9 & Hq8 & Hb & Hq9).
  rewrite bind_ok in Hb. destruct Hb as ([] & w10 & Hund & Hb). rewrite bind_ok in Hb. destruct Hb as (at' & w11 & Hn & Hb).
  pose proof (frame_now quiet _ _ _ Hn) as (Hd11 & _). rewrite bind_ok in Hb. destruct Hb as ([] & w12 & Hu & [= -> ->]).
  apply execute_ok in Hu as (Hd12 & _). rewrite bind_ok in Hr. destruct Hr as (g & w13 & Hp & Hr).
  apply map_error_ok, publish_db in Hp as [Hd13 _]. rewrite bind_ok in Hr. destruct Hr as ([] & w14 & Hl14 & Hr).
  pose proof (frame_lock quiet _ _ _ Hl14) as (Hd14 & _). rewrite bind_ok in Hr. destruct Hr as ([] & w15 & Hu & Hr).
  apply map_error_ok, execute_ok in Hu as (Hd15 & _). rewrite bind_ok in Hr. destruct Hr as ([] & w16 & He & Hr).
  apply execute_ok in He as (Hd16 & _). rewrite bind_ok in Hr. destruct Hr as ([] & w17 & Hrm & [= <- <-]).
  pose proof (frame_remove_staged quiet _ _ _ _ Hrm) as (Hd17 & _). destruct Hq9 as (Hd9 & _).
  exists w8, w10, at_. split_and!; [by repeat (etrans; [eassumption|])|done|..].
  - intros q. rewrite Hd17, Hd16, Hd15, Hd14, Hd13, Hd9, Hd12, Hd11. done.
  - rewrite Hd17, Hd16. cbn [change_sets update_automation_experiment_state with_experiments].
    rewrite Hd15, Hd14, Hd13, Hd9, Hd12, Hd11. done.
Qed.

(** C14: without the permission to manage user rules an agent cannot touch them.
    Whatever plan it applies and whatever fails on the way, a stored rule that has
    no metadata or metadata of the user is stored as before, and so is its
    metadata.  Fresh ids name nothing that exists. *)
Theorem agent_cannot_touch_user_rules params caller permissions (w : World) r w' k i rule :
  fresh w → keyed (db w) → manage_user_automation permissions = false →
  apply_automation_plan_locked asset_root params caller permissions w = (r, w') →
  stored_resource k i (db w) = Some rule → owner_of (resources (db w) !! (k, i)) = lit "user" →
  stored_resource k i (db w') = Some rule ∧ resources (db w') !! (k, i) = resources (db w) !! (k, i).
Proof.
  intros Hf Hk Hpm Ha Hs Ho. enough (at_key (k, i) (db w') = at_key (k, i) (db w)) as He.
  { unfold at_key in He. cbn [fst snd] in He. injection He as -> ->. done. }
  apply apply_shape in Ha as [Ha|(p & w1 & w2 & w3 & w4 & Hq1 & Hp & Hq3 & Hc & Hw)]; [apply Ha|].
  pose proof (fresh_quiet _ _ Hq1 Hf) as Hf1. pose proof Hq1 as (Hd1 & _).
  apply prepare_ok in Hp; [|done]. destruct Hp as [_ (Hd2 & _) _ _ Hit _ _].
  apply commit_ok in Hc as (at_ & _ & Hwr & _). destruct Hq3 as (Hd3 & _).
  rewrite Hw, Hwr. rewrite at_items_other.
  - rewrite Hd3, Hd2, Hd1. done.
  - eapply Forall_impl; [exact Hit|]. intros x. apply item_own. by rewrite Hd1.
  - intros (x & Hx & Hin)%list_elem_of_fmap. apply (proj1 (Forall_forall _ _) Hit) in Hin as [Ht _ _ _].
    destruct Ht as [[_ (n & Hn) _]|(before & [_ _ _ _ Hm Hown])].
    + injection Hx as _ Hi. by rewrite Hi, Hn, <- Hd1, (fr_stored _ Hf1) in Hs.
    + rewrite <- Hx, Hd1 in Hm. rewrite Hm in Hown. specialize (Hown Ho). congruence.
Qed.

Lemma settled_quiet plan (w w' : World) : quiet w w' → settled plan w → settled plan w'.
Proof.
  intros (Hd & Hr & _) [K A R P S]. split; rewrite ?Hd; try done. intros q Hq. rewrite <- S by done.
  unfold live, live_rewrites, live_maps. by rewrite Hr.
Qed.

Lemma items_changes writes change_id (items : list Item) : ∀ sequence d,
  change_sets (items_effect writes change_id sequence items d) = change_sets d.
Proof.
  induction items as [|i items IH]; intros sequence d; cbn [items_effect]; [done|]. rewrite IH.
  unfold item_effect, metadata_effect, rule_effect. cbn [change_sets with_change_items].
  destruct (is_delete i), writes; (destruct (pi_metadata_before i), (pi_metadata_after i); try destruct (bool_decide _ || _));
    by destruct (pi_resource i).
Qed.

(** What the database of an applied change holds *)
Lemma applied_db params caller permissions (w : World) res w1 :
  fresh w → settled (ap_plan params) w →
  apply_automation_plan_locked asset_root params caller permissions w = (Ok res, w1) → ap_idempotent res = false →
  ∃ v items lifecycle c, quiet w v ∧ Forall (planned (ap_plan params) v permissions (ap_change_id res)) items ∧
    change_sets (db w1) !! ap_change_id res = Some c ∧ cs_lifecycle c = lifecycle ∧ cs_status c = lit "active" ∧
    (∀ i, i ∈ items → undoable lifecycle i (db w1)) ∧
    (∀ q, q ∉ map key items → at_key q (db w1) = at_key q (db v)) ∧
    (∀ row, row ∈ load_automation_change_items (ap_change_id res) (db w1) → ∃ n i, i ∈ items ∧ row = item_row (ap_change_id res) n i) ∧
    ∀ i, i ∈ items → ∃ n, item_row (ap_change_id res) n i ∈ load_automation_change_items (ap_change_id res) (db w1).
Proof.
  intros Hf Hs Ha Hi. destruct (apply_ok _ _ _ _ _ _ Ha Hi) as (p & v & v2 & v3 & v4 & at_ & Hq1 & Hp & Hq3 & Hc & -> & Hd).
  pose proof (fresh_quiet _ _ Hq1 Hf) as Hfv. pose proof (settled_quiet _ _ _ Hq1 Hs) as Hsv.
  apply prepare_ok in Hp; [|done]. destruct Hp as [_ (Hd2 & _) (m & Hm) _ Hit Hnd Htg].
  apply commit_ok in Hc as (t & Hnone & Hwr & _). destruct Hq3 as (Hd3 & _). rewrite Hd3, Hd2 in Hwr.
  set (cid := pp_change_id p) in *. set (items := pp_items p) in *.
  assert (Forall (planned (ap_plan params) v permissions cid) items) as Hpl.
  { apply Forall_forall. intros i Hin. split; [by apply (proj1 (Forall_forall _ _) Hit)|by apply Htg]. }
  assert (∀ q, at_key q (db w1) = at_key q (db v4)) as Hat by (intros q; by rewrite Hd).
  assert (change_items (db w1) = change_items (db v4)) as Hci by by rewrite Hd.
  assert (∀ x, x ∈ load_automation_change_items cid (db w1) ↔ it_change_id x = cid ∧ ∃ q, change_items (db v4) !! q = Some x) as Hld
    by (intros x; by rewrite elem_of_items, Hci).
  eexists v, items, (pp_lifecycle p), _. split; [done|]. split; [done|]. split.
  { rewrite Hd. cbn [change_sets update_automation_change_status with_change_sets]. rewrite lookup_alter_eq, Hwr, items_changes.
    cbn [change_sets with_change_sets]. by rewrite lookup_insert_eq. }
  split; [done|]. split; [done|]. split_and!.
  - intros i Hin. eapply undoable_at; [apply Hat|]. rewrite Hwr. by eapply items_undoable.
  - intros q Hq. rewrite Hat, Hwr. rewrite at_items_other; [done| |done]. eapply Forall_impl; [exact Hpl|]. by apply planned_own.
  - intros row [Hid (q & Hr)]%Hld. rewrite Hwr in Hr. apply items_rows_sound in Hr as [Hr|Hr]; [|done].
    cbn [change_items with_change_sets] in Hr. pose proof (ky_items _ (st_keyed _ _ Hsv) _ _ Hr) as <-.
    by rewrite Hid, Hm, (fr_items _ Hfv) in Hr.
  - intros i Hin. destruct (items_rows_complete (negb (bool_decide (pp_lifecycle p = lit "ephemeral"))) cid items i Hin 0
      (with_change_sets (db v) (<[cid := committed_row p caller t]> (change_sets (db v))))) as (n & Hn).
    exists n. apply Hld. split; [done|]. exists (cid, n). by rewrite Hwr.
Qed.

(** C2: rolling back undoes a change.  When a plan was applied (not recognised
    as a repetition) to a world that is settled for it and its change is rolled back on the database it left, with any
    stated reason and permissions and whatever happened to the runtime in between
    and to the calls of the rollback that was accepted, every rule and its metadata
    are stored as before the plan (updated and deleted rules are back, created ones
    are gone) and the change is recorded as reverted.  Settled: the rules the plan
    updates or deletes run as they are stored (so not those that exist at runtime
    only), stored rules have a match type, each row of metadata names the client and
    the version that created it, and rows lie under their keys; fresh ids name
    nothing that exists. *)
Theorem rollback_restores params caller permissions (w : World) res w1 w2 expected reason permissions' res' w3 :
  fresh w → settled (ap_plan params) w →
  apply_automation_plan_locked asset_root params caller permissions w = (Ok res, w1) → ap_idempotent res = false →
  db w2 = db w1 →
  rollback_automation_change_locked (ap_change_id res) expected reason permissions' w2 = (Ok res', w3) →
  (∀ k i, stored_resource k i (db w3) = stored_resource k i (db w) ∧ resources (db w3) !! (k, i) = resources (db w) !! (k, i)) ∧
  cs_status <$> change_sets (db w3) !! ap_change_id res = Some (lit "reverted").
Proof.
  intros Hf Hs Ha Hid Hdb Hr.
  destruct (applied_db _ _ _ _ _ _ Hf Hs Ha Hid) as (v & items & lc & c & Hq & Hpl & Hc & Hlc & Hst & Hun & Hoth & Hsound & Hcomp).
  destruct (rollback_ok _ _ _ _ _ _ _ c Hr) as (w4 & w5 & at_ & Hq4 & Hund & Htab & Hchs).
  { by rewrite Hdb. }
  { unfold status_in. rewrite Hst. done. }
  pose proof (fresh_quiet _ _ Hq Hf) as Hfv. pose proof (settled_quiet _ _ _ Hq Hs) as Hsv. destruct Hq4 as (Hd4 & _).
  rewrite Hdb, Hlc in Hund. set (rows := rev _) in Hund.
  destruct (undo_all_ok _ v _ _ lc Hfv Hsv items rows Hpl) with (w := w4) (w' := w5) as [Hch Hat]; [| |done|].
  { apply Forall_forall. intros row Hrow. apply Hsound. unfold rows in Hrow. by rewrite Permutation_rev. }
  { intros i Hi. rewrite Hd4, Hdb. by apply Hun. }
  assert (∀ q, at_key q (db w3) = at_key q (db w)) as Hall.
  { intros q. rewrite Htab. transitivity (at_key q (db v)); [|by rewrite (proj1 Hq)]. destruct (Hat q) as [->|[-> Hn]]; [done|].
    rewrite Hd4, Hdb. apply Hoth. intros (i & -> & Hi)%list_elem_of_fmap. destruct (Hcomp i Hi) as (n & Hin).
    apply (Hn (item_row (ap_change_id res) n i)); [|done]. unfold rows. by rewrite <- Permutation_rev. }
  split.
  - intros k i. specialize (Hall (k, i)). unfold at_key in Hall. cbn [fst snd] in Hall. injection Hall as -> ->. done.
  - rewrite Hchs, !lookup_alter_eq, Hch, Hd4, Hdb, Hc. done.
Qed.
End Tables.
