(* ===== verification/AutomationRuntime.v ===== *)
(** * AutomationRuntime: what publishing and restarting put in force

    Theorems on [publish_current_runtime] and [recover_automation_changes] of
    src/apps/desktop/src-tauri/src/automation.rs: rules of an agent run under the
    lock of their own host, and after a restart exactly the stored rules run and
    every unfinished change is settled by what the tables hold. *)

From S2P Require Import Prelude Str Patterns JsonPath RuleTypes RuleManagers RuleSelection HttpIo Rewrite.
From S2P Require Import MapRules AutomationPlan AutomationDb Automation AutomationFacts AutomationRollback.

Section Runtime.
Context {number : Type} `{AutomationCodec number} `{RowCodec number} `{!ChangeCodec number} `{SqlOrder} `{!RegexEngine}
  `{UrlOps} `{FileSystem}.
Abbreviation World := (@World number _).
Abbreviation Overlay := (@Overlay number).

(** ** The metadata a publication reads *)

Lemma metadata_map_sound rows q row : metadata_map rows !! q = Some row → row ∈ rows ∧ row_key row = q.
Proof.
  unfold metadata_map. cut (∀ m : gmap (str * str) AutomationResourceRow, fold_left (fun m r => <[row_key r := r]> m) rows m !! q = Some row →
    m !! q = Some row ∨ row ∈ rows ∧ row_key row = q).
  { intros Hc Hr. by destruct (Hc ∅ Hr) as [He|]; [rewrite lookup_empty in He|]. }
  induction rows as [|r rows IH]; cbn [fold_left]; intros m; [by left|].
  intros [Hm|[Hin Hk]]%IH; [|right; split; [by right|done]].
  destruct (decide (row_key r = q)) as [<-|Hq]; [|left; by rewrite lookup_insert_ne in Hm].
  rewrite lookup_insert_eq in Hm. injection Hm as ->. right. split; [left|done].
Qed.

Lemma metadata_map_complete rows row : row ∈ rows → is_Some (metadata_map rows !! row_key row).
Proof.
  unfold metadata_map. intros Hin. cut (∀ m : gmap (str * str) AutomationResourceRow, row ∈ rows ∨ is_Some (m !! row_key row) →
    is_Some (fold_left (fun m r => <[row_key r := r]> m) rows m !! row_key row)); [intros Hc; apply Hc; by left|].
  clear Hin. induction rows as [|r rows IH]; cbn [fold_left]; intros m [Hin|Hm]; try done; [by apply not_elem_of_nil in Hin|..].
  - apply IH. apply elem_of_cons in Hin as [->|Hin]; [|by left]. right. rewrite lookup_insert_eq. by eexists.
  - apply IH. right. destruct (decide (row_key r = row_key row)) as [->|Hq]; [rewrite lookup_insert_eq; by eexists|].
    by rewrite lookup_insert_ne.
Qed.

(** Within the limit every row is read. *)
Lemma metadata_complete (d : Db) q :
  keyed d → (length (rows_of (resources d)) <= RESOURCE_LIMIT)%nat →
  metadata_map (list_automation_resources None None None RESOURCE_LIMIT d) !! q = resources d !! q.
Proof.
  intros Hk Hl. unfold list_automation_resources. cbn [andb].
  rewrite take_ge; [|rewrite order_recent_perm, filter_length_le; exact Hl].
  set (rows := order_recent _).
  assert (∀ row, row ∈ rows ↔ resources d !! row_key row = Some row) as Hrows.
  { intros row. unfold rows. rewrite order_recent_perm, elem_of_list_filter, elem_of_rows. split.
    - intros [_ (q' & Hq)]. by rewrite (ky_resources _ Hk _ _ Hq).
    - intros Hr. split; [done|by eexists]. }
  destruct (metadata_map rows !! q) as [row|] eqn:Hm.
  - apply metadata_map_sound in Hm as [Hin <-]. symmetry. by apply Hrows.
  - destruct (resources d !! q) as [row|] eqn:Hr; [|done]. pose proof (ky_resources _ Hk _ _ Hr) as <-.
    apply Hrows, metadata_map_complete in Hr as [x Hx]. congruence.
Qed.

(** ** What a publication installs *)

Abbreviation metadata_of d := (metadata_map (list_automation_resources None None None RESOURCE_LIMIT d)).

Lemma merge_legacy_quiet (w w' : World) o : quiet w w' → merge_legacy w' o = merge_legacy w o.
Proof. intros (_ & Hr & Hl & _). unfold merge_legacy. by rewrite Hr, Hl. Qed.

Lemma overlay_frame m c o : frame quiet (overlay_change (number := number) m c o).
Proof. unfold overlay_change. frames. Qed.

Lemma publish_ok pending (w : World) g w' :
  publish_current_runtime pending w = (Ok g, w') →
  ∃ changes rs ms o w1 w2,
    quiet w w1 ∧ (pending = None → changes = list_active_ephemeral_changes (db w)) ∧
    collect (locked_rewrite (metadata_of (db w))) (load_all_rewrite_rules (db w)) = Ok rs ∧
    collect (locked_map (number := number) (metadata_of (db w))) (load_all_map_rules (db w)) = Ok ms ∧
    fold_m (overlay_change (metadata_of (db w))) changes (rs, ms) w1 = (Ok o, w2) ∧
    rewrite (runtime w') = compile_rewrite_rules (merge_legacy w o).1 ∧
    map_rules (runtime w') = compile_map_rules (merge_legacy w o).2 ∧
    db w' = db w ∧ legacy w' = legacy w.
Proof.
  unfold publish_current_runtime. rewrite bind_ok. intros ([] & w1 & Hl & Hp). pose proof (frame_lock quiet _ _ _ Hl) as Hq1.
  rewrite bind_ok in Hp. destruct Hp as (rr & w2 & Hq & Hp). apply query_ok in Hq as [-> Hq2].
  rewrite bind_ok in Hp. destruct Hp as (mr & w3 & Hq & Hp). apply query_ok in Hq as [-> Hq3].
  rewrite bind_ok in Hp. destruct Hp as (rows & w4 & Hq & Hp). apply query_ok in Hq as [-> Hq4].
  rewrite bind_ok in Hp. destruct Hp as (ch & w5 & Hq & Hp). apply query_ok in Hq as [-> Hq5].
  rewrite bind_ok in Hp. destruct Hp as (changes & w6 & Hadd & Hp).
  assert (db w1 = db w ∧ db w2 = db w ∧ db w3 = db w ∧ db w4 = db w) as (E1 & E2 & E3 & E4).
  { destruct Hq1 as (? & _), Hq2 as (? & _), Hq3 as (? & _), Hq4 as (? & _). split_and!; congruence. }
  rewrite E4 in Hadd. rewrite E1, E2, E3 in Hp.
  assert (quiet w5 w6) as Hq6.
  { match type of Hadd with ?m _ = _ => assert (frame quiet m) as Hf by (unfold add_pending; frames); by eapply Hf end. }
  rewrite bind_ok in Hp. destruct Hp as (rs & w7 & Hrs & Hp). apply lift_ok in Hrs as [Hrs ->].
  rewrite bind_ok in Hp. destruct Hp as (ms & w7 & Hms & Hp). apply lift_ok in Hms as [Hms ->].
  rewrite bind_ok in Hp. destruct Hp as (o & w7 & Hov & Hp).
  pose proof (frame_fold quiet _ changes (overlay_frame _) _ _ _ _ Hov) as Hq7.
  assert (quiet w w6) as Hq
    by (transitivity w1; [done|transitivity w2; [done|transitivity w3; [done|transitivity w4; [done|by transitivity w5]]]]). assert (quiet w w7) as Hqq by by etrans.
  rewrite (merge_legacy_quiet _ _ _ Hqq) in Hp. destruct (merge_legacy w o) as [rs' ms'] eqn:Hm. injection Hp as _ <-.
  exists changes, rs, ms, o, w6, w7. rewrite Hm. destruct Hqq as (Hd & _ & Hlg & _). split_and!; try done.
  intros ->. by injection Hadd as <-.
Qed.

(** *** Locks *)

Definition locked_to (pattern : str) (lock : option str) : Prop :=
  ∃ label host, exact_pattern_host (number := number) pattern label = Ok host ∧ lock = Some host.

Definition agent_owned (d : Db) (k i : str) : Prop := owner_of (resources d !! (k, i)) = lit "agent".

Definition overlay_locked (d : Db) (o : Overlay) : Prop :=
  (∀ e, e ∈ o.1 → agent_owned d (lit "rewrite") (rw_id e.1) → locked_to (rm_url_pattern (rw_match e.1)) e.2) ∧
  (∀ e, e ∈ o.2 → agent_owned d (lit "map") (map_id e.1) → locked_to (map_source_pattern e.1) e.2).

Lemma collect_elem {A B} (f : A → result B (AutomationError number)) l bs b :
  collect f l = Ok bs → b ∈ bs → ∃ a, a ∈ l ∧ f a = Ok b.
Proof.
  revert bs. induction l as [|a l IH]; cbn [collect]; intros bs; [by intros [= <-] ?%not_elem_of_nil|].
  rewrite rbind_ok. intros (b' & Hb & Hl). rewrite rbind_ok in Hl. destruct Hl as (bs' & Hbs & [= <-]).
  intros [->|Hin]%elem_of_cons; [exists a; split; [left|done]|].
  destruct (IH _ Hbs Hin) as (x & Hx & Hf). exists x. split; [by right|done].
Qed.

Lemma resource_lock (d : Db) (m : gmap (str * str) AutomationResourceRow) k i pattern lock :
  m !! (k, i) = resources d !! (k, i) → runtime_host_lock_for_resource (number := number) k i pattern m = Ok lock →
  agent_owned d k i → locked_to pattern lock.
Proof.
  unfold runtime_host_lock_for_resource, agent_owned, owner_of. intros -> Hl Ho. destruct (resources d !! (k, i)) as [row|]; [|done].
  rewrite bool_decide_eq_true_2 in Hl by done. rewrite rbind_ok in Hl. destruct Hl as (host & Hh & [= <-]). by eexists _, host.
Qed.

Lemma overlay_item_locked (d : Db) m c i o o' :
  overlay_locked d o → overlay_item m c i o = Ok o' → overlay_locked d o'.
Proof.
  intros [Hr Hm]. unfold overlay_item. destruct (negb _); [by intros [= <-]|]. destruct (it_after_json i) as [json|]; [|by intros [= <-]].
  destruct (negb _); [by intros [= <-]|]. destruct (bool_decide _); [|destruct (bool_decide _); [|by intros [= <-]]];
    rewrite rbind_ok; intros (rule & _ & Ho); rewrite rbind_ok in Ho; destruct Ho as (host & Hh & [= <-]); split; cbn [fst snd]; try done.
  all: intros e [He|He%list_elem_of_singleton]%elem_of_app; [apply elem_of_list_filter in He as [_ He]; by auto|].
  all: intros _; subst e; by eexists _, host.
Qed.

Lemma overlay_locked_all (d : Db) m changes o : overlay_locked d o → ∀ (w : World) o' w',
  fold_m (overlay_change m) changes o w = (Ok o', w') → overlay_locked d o'.
Proof.
  revert o. induction changes as [|c changes IH]; cbn [fold_m]; intros o Ho w o' w'; [by intros [= <- <-]|].
  rewrite bind_ok. intros (o1 & w1 & Hc & Hrest). eapply IH; [|exact Hrest]. unfold overlay_change in Hc.
  rewrite bind_ok in Hc. destruct Hc as ([] & w2 & _ & Hc). rewrite bind_ok in Hc. destruct Hc as (items & w3 & _ & Hc).
  apply lift_ok in Hc as [Hc _]. clear -Ho Hc. revert o Ho Hc.
  induction items as [|i items IH]; cbn [overlay_items]; intros o Ho; [by intros [= <-]|].
  rewrite rbind_ok. intros (o2 & Hi & Hrest). eapply IH; [|done]. by eapply overlay_item_locked.
Qed.

Lemma add_missing_elem {R} (rule_id : R → str) keep running : ∀ acc e,
  e ∈ add_missing rule_id keep running acc → e ∈ acc ∨ keep (rule_id e.1) = true.
Proof.
  unfold add_missing. induction running as [|x running IH]; cbn [fold_left]; intros acc e; [by left|].
  intros [He|He]%IH; [|by right]. destruct (keep (rule_id x.1)) eqn:Hk; cbn [andb] in He; [|by left].
  destruct (negb _); [|by left]. apply elem_of_app in He as [He|He%list_elem_of_singleton]; [by left|right; by subst].
Qed.

Lemma add_missing_none {R} (rule_id : R → str) keep running acc :
  (∀ i, keep i = false) → add_missing rule_id keep running acc = acc.
Proof. intros Hk. unfold add_missing. induction running as [|x running IH]; cbn [fold_left]; [done|]. by rewrite Hk. Qed.

(** The temporary rules are not rules of an agent plan. *)
Definition legacy_apart (w : World) : Prop :=
  (∀ i, i ∈ by_rule_id (legacy w) ∪ auxiliary_rule_ids (legacy w) → ¬ agent_owned (db w) (lit "rewrite") i) ∧
  (∀ i, i ∈ by_rule_id (legacy w) → ¬ agent_owned (db w) (lit "map") i).

Lemma published_locked pending (w : World) g w' :
  publish_current_runtime pending w = (Ok g, w') → keyed (db w) →
  (length (rows_of (resources (db w))) <= RESOURCE_LIMIT)%nat → legacy_apart w →
  (∀ e, e ∈ rewrite (runtime w') → agent_owned (db w) (lit "rewrite") (rw_id (cr_rule e)) →
     locked_to (rm_url_pattern (rw_match (cr_rule e))) (cr_host_lock e)) ∧
  (∀ e, e ∈ map_rules (runtime w') → agent_owned (db w) (lit "map") (map_id (cm_rule e)) →
     locked_to (map_source_pattern (cm_rule e)) (cm_host_lock e)).
Proof.
  intros Hp Hk Hl [Hlr Hlm]. apply publish_ok in Hp as (changes & rs & ms & o & w1 & w2 & _ & _ & Hrs & Hms & Ho & -> & -> & _).
  assert (overlay_locked (db w) (rs, ms)) as H0'.
  { split; cbn [fst snd]; intros e He Hag.
    - destruct (collect_elem _ _ _ _ Hrs He) as (row & _ & Hrow). unfold locked_rewrite in Hrow. rewrite rbind_ok in Hrow.
      destruct Hrow as (lock & Hlock & [= <-]). eapply resource_lock; [|exact Hlock|done]. by apply metadata_complete.
    - destruct (collect_elem _ _ _ _ Hms He) as (row & _ & Hrow). unfold locked_map in Hrow. rewrite rbind_ok in Hrow.
      destruct Hrow as (lock & Hlock & [= <-]). eapply resource_lock; [|exact Hlock|done]. by apply metadata_complete. }
  apply (overlay_locked_all _ _ _ _ H0') in Ho as [Hor Hom].
  split; intros e He Hag; apply list_elem_of_fmap in He as ([r lock] & -> & He); cbn in *;
    apply add_missing_elem in He as [He|Hc]; try (by apply (Hor _ He)); try (by apply (Hom _ He)).
  - apply orb_true_iff in Hc. rewrite !bool_decide_eq_true in Hc. by destruct (Hlr (rw_id r)); [set_solver|].
  - apply bool_decide_eq_true in Hc. by destruct (Hlm _ Hc).
Qed.

(** C23: rules of an agent stay on their host.  After a successful publication from a database
    with at most 10000 rows of resources, each under its key, and without a temporary
    rule of the older interface that has the id of an agent rule, a rewrite or map
    rule that an agent owns is selected only for requests to the exact host that its
    pattern names, whatever its match type; so it is for stored rules and for those
    of ephemeral changes. *)
Theorem agent_rules_stay_on_host pending (w : World) g w' workspace stage request :
  publish_current_runtime pending w = (Ok g, w') → keyed (db w) →
  (length (rows_of (resources (db w))) <= RESOURCE_LIMIT)%nat → legacy_apart w →
  (∀ r, r ∈ active_rewrite_rules_for_snapshot (runtime w') workspace stage request →
     agent_owned (db w) (lit "rewrite") (rw_id r) →
     ∃ label host, exact_pattern_host (number := number) (rm_url_pattern (rw_match r)) label = Ok host ∧
       eq_ignore_ascii_case host (rq_host request) = true) ∧
  (∀ r, active_map_rule_for_snapshot (runtime w') workspace request = Some r →
     agent_owned (db w) (lit "map") (map_id r) →
     ∃ label host, exact_pattern_host (number := number) (map_source_pattern r) label = Ok host ∧
       eq_ignore_ascii_case host (rq_host request) = true).
Proof.
  intros Hp Hk Hl Hlg. destruct (published_locked _ _ _ _ Hp Hk Hl Hlg) as [Hr Hm].
  destruct (host_lock_is_boundary (runtime w') workspace stage request) as [Br Bm]. split; intros r Hact Hag.
  - destruct (Br r Hact) as (e & He & <- & Hlock). destruct (Hr e He Hag) as (label & host & Hh & Heq). exists label, host. auto.
  - destruct (Bm r Hact) as (e & He & <- & Hlock). destruct (Hm e He Hag) as (label & host & Hh & Heq). exists label, host. auto.
Qed.

(** ** Restart *)

(** Id, lifecycle and status of the changes *)
Definition outline (d : Db) : gmap str (str * str * str) := (fun c => (cs_id c, cs_lifecycle c, cs_status c)) <$> change_sets d.

Definition set_status (status : str) (o : str * str * str) : str * str * str := (o.1, status).

Lemma outline_status id status g x y z d :
  outline (update_automation_change_status id status g x y z d) = alter (set_status status) id (outline d).
Proof.
  unfold outline. cbn [change_sets update_automation_change_status with_change_sets]. apply map_eq. intros i.
  rewrite lookup_fmap. destruct (decide (i = id)) as [->|Hi].
  - rewrite !lookup_alter_eq, lookup_fmap. by destruct (change_sets d !! id).
  - by rewrite !lookup_alter_ne, lookup_fmap.
Qed.

(** Rules, items and the runtime stay. *)
Definition kept (w w' : World) : Prop :=
  rewrite_table (db w') = rewrite_table (db w) ∧ map_table (db w') = map_table (db w) ∧
  change_items (db w') = change_items (db w) ∧ runtime w' = runtime w ∧ legacy w' = legacy w.

#[export] Instance kept_stable : Stable kept.
Proof.
  split; [split|]; unfold kept; [done|intros ??? (?&?&?&?&?) (?&?&?&?&?); split_and!; congruence|].
  intros w w' -> -> -> _. done.
Qed.

(** A run that kept them and gave the changes in [ids] a status *)
Definition marked (status : str) (ids : list str) (w w' : World) : Prop :=
  kept w w' ∧ ∀ i, outline (db w') !! i = if bool_decide (i ∈ ids) then set_status status <$> outline (db w) !! i else outline (db w) !! i.

Lemma marked_quiet status (w w' : World) : quiet w w' → marked status [] w w'.
Proof. intros (Hd & Hr & Hl & _). unfold marked, kept. rewrite Hd, Hr, Hl. done. Qed.

Lemma marked_status status id g x y z l (w w' : World) :
  update_status id status g x y z l w = (Ok tt, w') → marked status [id] w w'.
Proof.
  intros (Hd & Hr & Hl & _)%execute_ok. split; [unfold kept; by rewrite Hd, Hr, Hl|]. intros i. rewrite Hd, outline_status.
  destruct (decide (i = id)) as [->|Hi].
  - rewrite bool_decide_eq_true_2 by left. apply lookup_alter_eq.
  - rewrite bool_decide_eq_false_2 by (intros ?%list_elem_of_singleton; done). by rewrite lookup_alter_ne.
Qed.

(** Writes that concern neither *)
Lemma marked_other status l f (w w' : World) :
  execute l f w = (Ok tt, w') →
  (∀ d, rewrite_table (f d) = rewrite_table d ∧ map_table (f d) = map_table d ∧ change_items (f d) = change_items d ∧
     change_sets (f d) = change_sets d) → marked status [] w w'.
Proof.
  intros (Hd & Hr & Hl & _)%execute_ok Hf. destruct (Hf (db w)) as (E1 & E2 & E3 & E4). split.
  - unfold kept. rewrite Hd, Hr, Hl. done.
  - intros i. cbn. unfold outline. by rewrite Hd, E4.
Qed.

Lemma marked_trans status ids ids' (w w1 w2 : World) :
  marked status ids w w1 → marked status ids' w1 w2 → marked status (ids ++ ids') w w2.
Proof.
  intros [K A] [K' A']. split; [by etrans|]. intros i. rewrite A', A.
  destruct (decide (i ∈ ids)) as [Hi|Hi], (decide (i ∈ ids')) as [Hi'|Hi'].
  all: rewrite ?(bool_decide_eq_true_2 (i ∈ ids)), ?(bool_decide_eq_false_2 (i ∈ ids)), ?(bool_decide_eq_true_2 (i ∈ ids')),
    ?(bool_decide_eq_false_2 (i ∈ ids')) by done.
  1-3: rewrite bool_decide_eq_true_2 by set_solver; by destruct (outline (db w) !! i).
  by rewrite bool_decide_eq_false_2 by set_solver.
Qed.

Lemma marked_each {A} status (f : A → M unit) (ids : A → list str) l :
  (∀ a w w', f a w = (Ok tt, w') → marked status (ids a) w w') →
  ∀ w w', for_each l f w = (Ok tt, w') → marked status (concat (map ids l)) w w'.
Proof.
  intros Hf. induction l as [|a l IH]; cbn [for_each map concat]; intros w w'; [by intros [= <-]|].
  rewrite bind_ok. intros ([] & w1 & Ha & Hl). eapply marked_trans; [by apply Hf|by apply IH].
Qed.

Lemma abandon_one_ok c (w w' : World) : abandon_one c w = (Ok tt, w') → marked (lit "aborted") [cs_id c] w w'.
Proof.
  unfold abandon_one. rewrite bind_ok. intros (at_ & w1 & Hn & Ha). pose proof (frame_now quiet _ _ _ Hn) as Hq1.
  rewrite bind_ok in Ha. destruct Ha as ([] & w2 & Hl & Ha). pose proof (frame_lock quiet _ _ _ Hl) as Hq2.
  rewrite bind_ok in Ha. destruct Ha as ([] & w3 & Ht & Hrm). pose proof (frame_remove_staged quiet _ _ _ _ Hrm) as Hq3.
  apply transaction_ok in Ht as (w4 & w5 & Hq4 & Hb & Hq5). rewrite bind_ok in Hb. destruct Hb as ([] & w6 & H6 & Hb).
  rewrite bind_ok in Hb. destruct Hb as ([] & w7 & H7 & H8).
  apply (marked_other (lit "aborted")) in H6; [|done]. apply (marked_other (lit "aborted")) in H7; [|done]. apply marked_status in H8.
  assert (quiet w w4) as Hqa by (transitivity w1; [done|by transitivity w2]). assert (quiet w5 w') as Hqb by by transitivity w3.
  apply (marked_quiet (lit "aborted")) in Hqa, Hqb.
  exact (marked_trans _ _ _ _ _ _ (marked_trans _ _ _ _ _ _ (marked_trans _ _ _ _ _ _ (marked_trans _ _ _ _ _ _ Hqa H6) H7) H8) Hqb).
Qed.

Definition live_statuses : list str :=
  [lit "prepared"; lit "committed"; lit "active"; lit "publish_failed"; lit "reverting"].
Definition unfinished_statuses : list str := [lit "committed"; lit "publish_failed"; lit "reverting"].

(** The stored rules of a change have the versions that its items record. *)
Definition at_version (version_of : AutomationChangeItemRow → option str) (d : Db) (c : AutomationChangeSetRow) : bool :=
  forallb (fun i => bool_decide (version (number := number) <$> stored_resource (it_resource_kind i) (it_resource_id i) d = version_of i))
    (load_automation_change_items (cs_id c) d).

(** The status a change has after the restart *)
Definition recovered_status (d : Db) (c : AutomationChangeSetRow) : str :=
  if is_ephemeral c && status_in c live_statuses then lit "aborted"
  else if status_in c unfinished_statuses then
    if at_version it_version_after d c then lit "active" else lit "reverted"
  else cs_status c.

Definition changes_keyed (d : Db) : Prop := ∀ i c, change_sets d !! i = Some c → cs_id c = i.

Lemma at_version_kept f (w w' : World) c : kept w w' → at_version f (db w') c = at_version f (db w) c.
Proof.
  intros (Hr & Hm & Hi & _). unfold at_version, load_automation_change_items. rewrite Hi.
  assert (∀ k i, stored_resource (number := number) k i (db w') = stored_resource k i (db w)) as Hs
    by (intros; unfold stored_resource; by rewrite Hr, Hm).
  induction (order_num _ _) as [|x l IH]; [done|]. cbn [forallb]. by rewrite Hs, IH.
Qed.

Lemma classify_ok items (w : World) s w' :
  classify_persisted_change_state items w = (Ok s, w') → quiet w w' ∧
  s = (if forallb (fun i => bool_decide (version <$> stored_resource (it_resource_kind i) (it_resource_id i) (db w) = it_version_after i)) items
       then After
       else if forallb (fun i => bool_decide (version <$> stored_resource (it_resource_kind i) (it_resource_id i) (db w) = it_version_before i)) items
       then Before else Mixed).
Proof.
  unfold classify_persisted_change_state. rewrite bind_ok. intros ([] & w1 & H1' & Hc). rewrite bind_ok in Hc.
  destruct Hc as ([] & w2 & H2' & Hc). rewrite bind_ok in Hc. destruct Hc as ([] & w3 & H3' & [= <- <-]).
  pose proof (frame_lock quiet _ _ _ H1') as Q1. pose proof (frame_io quiet _ _ _ _ H2') as Q2.
  pose proof (frame_io quiet _ _ _ _ H3') as Q3.
  assert (quiet w w3) as Hq by (transitivity w1; [done|by transitivity w2]). split; [done|]. by rewrite (proj1 Hq).
Qed.

Lemma classify_changes_ok changes : ∀ (w : World) recoveries w', classify_changes changes w = (Ok recoveries, w') →
  quiet w w' ∧
  (∀ c, c ∈ changes → is_ephemeral c = false → ∃ s, (c, s) ∈ recoveries) ∧
  ∀ c s, (c, s) ∈ recoveries → c ∈ changes ∧
    (s = After ∧ at_version it_version_after (db w) c = true ∨
     s = Before ∧ at_version it_version_after (db w) c = false ∧ at_version it_version_before (db w) c = true).
Proof.
  induction changes as [|c changes IH]; cbn [classify_changes]; intros w recoveries w'.
  { intros [= <- <-]. split_and!; [done|..]; by intros ?? ?%not_elem_of_nil || intros ? ?%not_elem_of_nil. }
  destruct (is_ephemeral c) eqn:He.
  { intros (Hq & Hc & Hs)%IH. split_and!; [done|..].
    - intros x [->|Hx]%elem_of_cons Hne; [congruence|by apply Hc].
    - intros x s [Hin ?]%Hs. split; [by right|done]. }
  rewrite bind_ok. intros ([] & w1 & Hl & Hr). pose proof (frame_lock quiet _ _ _ Hl) as Q1.
  rewrite bind_ok in Hr. destruct Hr as (items & w2 & Hq & Hr). apply query_ok in Hq as [-> Q2].
  rewrite bind_ok in Hr. destruct Hr as (st & w3 & Hst & Hr). apply classify_ok in Hst as [Q3 Hst].
  rewrite (proj1 Q2), (proj1 Q1) in Hst. fold (at_version it_version_after (db w) c) (at_version it_version_before (db w) c) in Hst.
  assert (st ≠ Mixed ∧ ∃ rest w4, classify_changes changes w3 = (Ok rest, w4) ∧ recoveries = (c, st) :: rest ∧ w' = w4) as (Hnm & rest & w4 & Hrest & -> & ->).
  { destruct st; [..|done]; rewrite bind_ok in Hr; destruct Hr as (rest & w4 & Hrest & [= <- <-]); split; try done; by eexists _, _. }
  apply IH in Hrest as (Q4 & Hc & Hs). assert (quiet w w3) as Q by (transitivity w1; [done|by transitivity w2]).
  split_and!; [by etrans|..].
  - intros x [->|Hx]%elem_of_cons Hne; [exists st; left|]. destruct (Hc x Hx Hne) as (s & Hin). exists s. by right.
  - intros x s [[= -> ->]|Hin]%elem_of_cons.
    + split; [left|]. destruct (at_version it_version_after _ c); [by left|right]. destruct (at_version it_version_before _ c); [done|congruence].
    + rewrite <- (proj1 Q). destruct (Hs _ _ Hin) as [? ?]. split; [by right|done].
Qed.

Definition status_of (s : PersistedChangeState) : str := match s with After => lit "active" | _ => lit "reverted" end.

Lemma recover_one_ok g at_ c s (w w' : World) :
  recover_one g at_ (c, s) w = (Ok tt, w') → marked (status_of s) [cs_id c] w w'.
Proof.
  unfold recover_one. rewrite bind_ok. cbn [fst snd]. intros ([] & w1 & Hl & Hr). pose proof (frame_lock quiet _ _ _ Hl) as Q1.
  apply (marked_quiet (status_of s)) in Q1.
  assert (s = After ∨ status_of s = lit "reverted") as Hs by (destruct s; auto).
  destruct Hs as [->|Hs]; [apply marked_status in Hr; exact (marked_trans _ _ _ _ _ _ Q1 Hr)|].
  assert (bind (update_status (cs_id c) (lit "reverted") (Some g) None None (Some at_) (lit "recover rollback: ")) (fun _ =>
    bind (execute (lit "recover rollback experiment: ")
            (update_automation_experiment_state (cs_id c) (lit "completed") (lit "recovered_rollback") at_)) (fun _ =>
      remove_staged_assets (cs_id c))) w1 = (Ok tt, w')) as Hr' by by destruct s.
  clear Hr. rewrite bind_ok in Hr'. destruct Hr' as ([] & w2 & H2' & Hr). rewrite bind_ok in Hr. destruct Hr as ([] & w3 & H3' & Hrm).
  apply marked_status in H2'. apply (marked_other (lit "reverted")) in H3'; [|done].
  pose proof (frame_remove_staged quiet _ _ _ _ Hrm) as Q. apply (marked_quiet (lit "reverted")) in Q. rewrite Hs in *.
  exact (marked_trans _ _ _ _ _ _ (marked_trans _ _ _ _ _ _ (marked_trans _ _ _ _ _ _ Q1 H2') H3') Q).
Qed.

Lemma recover_all_ok g at_ recoveries : ∀ (w w' : World), for_each recoveries (recover_one g at_) w = (Ok tt, w') →
  kept w w' ∧ ∀ i,
    (outline (db w') !! i = outline (db w) !! i ∧ ∀ c s, (c, s) ∈ recoveries → cs_id c ≠ i) ∨
    ∃ c s, (c, s) ∈ recoveries ∧ cs_id c = i ∧ outline (db w') !! i = set_status (status_of s) <$> outline (db w) !! i.
Proof.
  induction recoveries as [|[c s] recoveries IH]; cbn [for_each]; intros w w'.
  { intros [= <-]. split; [done|]. intros i. left. split; [done|]. by intros ?? ?%not_elem_of_nil. }
  rewrite bind_ok. intros ([] & w1 & [K1 A1]%recover_one_ok & [K A]%IH). split; [by etrans|]. intros i.
  destruct (A i) as [[-> Hn]|(c' & s' & Hin & Hi & ->)]; rewrite A1; case_bool_decide as Hc.
  - right. exists c, s. apply list_elem_of_singleton in Hc. split_and!; [left|done..].
  - left. split; [done|]. intros c' s' [[= -> ->]|Hin]%elem_of_cons; [|by eapply Hn]. intros Heq. apply Hc. rewrite Heq. left.
  - right. exists c', s'. split_and!; [by right|done|]. by destruct (outline (db w) !! i).
  - right. exists c', s'. split_and!; [by right|done..].
Qed.

(** The abandoned changes are the ephemeral ones that were under way. *)
Definition abandoned (d : Db) (i : str) : Prop :=
  ∃ c, change_sets d !! i = Some c ∧ is_ephemeral c && status_in c live_statuses = true.

Lemma abandon_ok (w w' : World) :
  changes_keyed (db w) → abandon_ephemeral_changes_after_restart w = (Ok tt, w') →
  kept w w' ∧ ∀ i, (abandoned (db w) i → outline (db w') !! i = set_status (lit "aborted") <$> outline (db w) !! i) ∧
                   (¬ abandoned (db w) i → outline (db w') !! i = outline (db w) !! i).
Proof.
  intros Hk. unfold abandon_ephemeral_changes_after_restart. rewrite bind_ok. intros ([] & w1 & Hl & Ha).
  pose proof (frame_lock quiet _ _ _ Hl) as Q1. rewrite bind_ok in Ha. destruct Ha as (changes & w2 & Hq & Ha).
  apply query_ok in Hq as [-> Q2]. rewrite (proj1 Q1) in Ha.
  apply (marked_each (lit "aborted") abandon_one (fun c => [cs_id c])) in Ha; [|apply abandon_one_ok].
  assert (quiet w w2) as Q by by etrans. apply (marked_quiet (lit "aborted")) in Q.
  destruct (marked_trans _ _ _ _ _ _ Q Ha) as [K A]. split; [done|]. intros i. rewrite A. cbn [app].
  assert (i ∈ concat (map (fun c => [cs_id c]) (list_ephemeral_changes_for_restart_cleanup (db w))) ↔ abandoned (db w) i) as Hin.
  { rewrite list_elem_of_In, in_concat. split.
    - intros (l & (c & <- & Hc)%in_map_iff & Hi). destruct Hi as [<-|[]]. apply list_elem_of_In in Hc.
      unfold list_ephemeral_changes_for_restart_cleanup in Hc. rewrite order_text_perm, elem_of_list_filter, elem_of_rows in Hc.
      destruct Hc as [Hc (k & Hr)]. exists c. by rewrite (Hk _ _ Hr).
    - intros (c & Hc & Hs). exists [cs_id c]. split; [|by left; apply Hk]. apply in_map_iff. exists c. split; [done|].
      apply list_elem_of_In. unfold list_ephemeral_changes_for_restart_cleanup.
      rewrite order_text_perm, elem_of_list_filter, elem_of_rows. split; [done|by exists i]. }
  split; intros Hab; [rewrite bool_decide_eq_true_2 by by apply Hin|rewrite bool_decide_eq_false_2 by by rewrite Hin]; done.
Qed.

Lemma outline_Some d i o : outline d !! i = Some o ↔ ∃ c, change_sets d !! i = Some c ∧ o = (cs_id c, cs_lifecycle c, cs_status c).
Proof. unfold outline. rewrite lookup_fmap, fmap_Some. naive_solver. Qed.

(** A change after the ephemeral ones were abandoned *)
Lemma abandoned_rows (w w' : World) :
  changes_keyed (db w) → abandon_ephemeral_changes_after_restart w = (Ok tt, w') →
  ∀ i c', change_sets (db w') !! i = Some c' → cs_id c' = i ∧ ∃ c, change_sets (db w) !! i = Some c ∧
    cs_lifecycle c' = cs_lifecycle c ∧
    if is_ephemeral c && status_in c live_statuses then cs_status c' = lit "aborted" else cs_status c' = cs_status c.
Proof.
  intros Hk Ha i c' Hc'. destruct (abandon_ok _ _ Hk Ha) as [_ A]. destruct (A i) as [A1 A2].
  assert (outline (db w') !! i = Some (cs_id c', cs_lifecycle c', cs_status c')) as Ho by (apply outline_Some; by exists c').
  destruct (change_sets (db w) !! i) as [c|] eqn:Hc.
  - assert (outline (db w) !! i = Some (cs_id c, cs_lifecycle c, cs_status c)) as Hw by (apply outline_Some; by exists c).
    pose proof (Hk _ _ Hc) as Hid. destruct (is_ephemeral c && status_in c live_statuses) eqn:Hs.
    + rewrite A1, Hw in Ho by by exists c. injection Ho as <- <- <-. split; [done|]. exists c. by rewrite Hs.
    + rewrite A2, Hw in Ho by (intros (x & Hx & Hxs); congruence). injection Ho as <- <- <-. split; [done|]. exists c. by rewrite Hs.
  - rewrite A2 in Ho by (intros (x & Hx & _); congruence). apply outline_Some in Ho as (x & Hx & _). congruence.
Qed.

Lemma status_sub c l l' : Forall (.∈ l') l → status_in c l = true → status_in c l' = true.
Proof. unfold status_in. rewrite !bool_decide_eq_true, Forall_forall. auto. Qed.

(** Nothing ephemeral is active or unfinished. *)
Lemma no_ephemeral_left (w w' : World) i c' :
  changes_keyed (db w) → abandon_ephemeral_changes_after_restart w = (Ok tt, w') → change_sets (db w') !! i = Some c' →
  is_ephemeral c' = true → status_in c' live_statuses = false.
Proof.
  intros Hk Ha Hc' He. destruct (abandoned_rows _ _ Hk Ha _ _ Hc') as (_ & c & Hc & Hl & Hs).
  assert (is_ephemeral c = true) as He' by (unfold is_ephemeral in *; by rewrite <- Hl). rewrite He' in Hs. cbn [andb] in Hs.
  destruct (status_in c live_statuses) eqn:Hst; unfold status_in in *; by rewrite Hs.
Qed.

Lemma locked_rules (m : gmap (str * str) AutomationResourceRow) rows rs :
  collect (locked_rewrite (number := number) m) rows = Ok rs → map fst rs = map rewrite_row_to_rule rows.
Proof.
  revert rs. induction rows as [|r rows IH]; cbn [collect]; intros rs; [by intros [= <-]|].
  rewrite rbind_ok. intros (e & He & Hl). rewrite rbind_ok in Hl. destruct Hl as (rs' & Hrs & [= <-]).
  unfold locked_rewrite in He. rewrite rbind_ok in He. destruct He as (lock & _ & [= <-]). cbn. by rewrite (IH _ Hrs).
Qed.

Lemma locked_maps (m : gmap (str * str) AutomationResourceRow) rows ms :
  collect (locked_map (number := number) m) rows = Ok ms → map fst ms = map map_row_to_rule rows.
Proof.
  revert ms. induction rows as [|r rows IH]; cbn [collect]; intros ms; [by intros [= <-]|].
  rewrite rbind_ok. intros (e & He & Hl). rewrite rbind_ok in Hl. destruct Hl as (rs' & Hrs & [= <-]).
  unfold locked_map in He. rewrite rbind_ok in He. destruct He as (lock & _ & [= <-]). cbn. by rewrite (IH _ Hrs).
Qed.

(** Without ephemeral changes and temporary rules exactly the stored rules run. *)
Lemma publish_stored (w : World) g w' :
  publish_current_runtime None w = (Ok g, w') → list_active_ephemeral_changes (db w) = [] →
  by_rule_id (legacy w) = ∅ → auxiliary_rule_ids (legacy w) = ∅ →
  live_rewrites w' = map rewrite_row_to_rule (load_all_rewrite_rules (db w)) ∧
  live_maps w' = map map_row_to_rule (load_all_map_rules (db w)) ∧ db w' = db w ∧ legacy w' = legacy w.
Proof.
  intros Hp He Hb Hx. apply publish_ok in Hp as (changes & rs & ms & o & w1 & w2 & _ & Hch & Hrs & Hms & Ho & Hr & Hm & Hd & Hl).
  rewrite Hch, He in Ho by done. injection Ho as <- _. unfold merge_legacy in Hr, Hm. rewrite Hb, ?Hx in *. cbn [fst snd] in *.
  rewrite add_missing_none in Hr by (intros i; by rewrite !bool_decide_eq_false_2 by set_solver).
  rewrite add_missing_none in Hm by (intros i; by rewrite bool_decide_eq_false_2 by set_solver).
  unfold live_rewrites, live_maps. rewrite Hr, Hm. unfold compile_rewrite_rules, compile_map_rules. rewrite !map_map. cbn [cr_rule compile_rewrite_rule cm_rule].
  by rewrite <- (locked_rules _ _ _ Hrs), <- (locked_maps _ _ _ Hms).
Qed.

Lemma unfinished_elem d c :
  c ∈ list_unfinished_automation_changes d ↔ status_in c unfinished_statuses = true ∧ ∃ i, change_sets d !! i = Some c.
Proof. unfold list_unfinished_automation_changes. by rewrite order_text_perm, elem_of_list_filter, elem_of_rows. Qed.

Lemma unfinished_live c : status_in c unfinished_statuses = true → status_in c live_statuses = true.
Proof. apply status_sub. unfold live_statuses. repeat apply Forall_cons_2; set_solver. Qed.

Lemma abandon_domain (w w' : World) i c :
  changes_keyed (db w) → abandon_ephemeral_changes_after_restart w = (Ok tt, w') → change_sets (db w) !! i = Some c →
  is_Some (change_sets (db w') !! i).
Proof.
  intros Hk Ha Hc. destruct (abandon_ok _ _ Hk Ha) as [_ A]. destruct (A i) as [A1 A2].
  assert (is_Some (outline (db w') !! i)) as [o Ho]; [|apply outline_Some in Ho as (x & -> & _); by eexists].
  assert (outline (db w) !! i = Some (cs_id c, cs_lifecycle c, cs_status c)) as Hw by (apply outline_Some; by exists c).
  destruct (is_ephemeral c && status_in c live_statuses) eqn:Hs.
  - rewrite A1, Hw by by exists c. by eexists.
  - rewrite A2, Hw by (intros (x & Hx & Hxs); congruence). by eexists.
Qed.

Lemma status_outline d i s : snd <$> outline d !! i = Some s → cs_status <$> change_sets d !! i = Some s.
Proof. unfold outline. rewrite lookup_fmap. by destruct (change_sets d !! i). Qed.

(** The parts of a recovery *)
Lemma recover_ok (w w' : World) :
  changes_keyed (db w) → by_rule_id (legacy w) = ∅ → auxiliary_rule_ids (legacy w) = ∅ → recover_automation_changes w = (Ok tt, w') →
  ∃ w1 recoveries w2, abandon_ephemeral_changes_after_restart w = (Ok tt, w1) ∧
    (∀ c, c ∈ list_unfinished_automation_changes (db w1) → is_ephemeral c = false → ∃ s, (c, s) ∈ recoveries) ∧
    (∀ c s, (c, s) ∈ recoveries → c ∈ list_unfinished_automation_changes (db w1) ∧
       (s = After ∧ at_version it_version_after (db w1) c = true ∨
        s = Before ∧ at_version it_version_after (db w1) c = false ∧ at_version it_version_before (db w1) c = true)) ∧
    live_rewrites w2 = map rewrite_row_to_rule (load_all_rewrite_rules (db w)) ∧
    live_maps w2 = map map_row_to_rule (load_all_map_rules (db w)) ∧ db w2 = db w1 ∧
    ∃ g at_ w3, quiet w2 w3 ∧ for_each recoveries (recover_one g at_) w3 = (Ok tt, w').
Proof.
  intros Hk Hb Hx. unfold recover_automation_changes. rewrite bind_ok. intros ([] & w1 & Ha & Hr).
  rewrite bind_ok in Hr. destruct Hr as ([] & w2 & Hl & Hr). pose proof (frame_lock quiet _ _ _ Hl) as Q2.
  rewrite bind_ok in Hr. destruct Hr as (changes & w3 & Hq & Hr). apply query_ok in Hq as [-> Q3].
  rewrite bind_ok in Hr. destruct Hr as (recoveries & w4 & Hc & Hr). apply classify_changes_ok in Hc as (Q4 & Hcomp & Hsound).
  assert (quiet w1 w4) as Q by (transitivity w2; [done|by transitivity w3]). rewrite (proj1 Q2) in Hcomp, Hsound.
  rewrite (proj1 Q3), (proj1 Q2) in Hsound. destruct (abandon_ok _ _ Hk Ha) as [(Kr & Km & Ki & Kt & Kl) _].
  rewrite bind_ok in Hr. destruct Hr as (g & w5 & Hp & Hr). destruct Q as (Qd & _ & Ql & _).
  apply publish_stored in Hp as (Er & Em & Ed & _); [|..|congruence|congruence].
  2: { destruct (list_active_ephemeral_changes (db w4)) as [|c l] eqn:Hact; [done|]. exfalso.
    assert (c ∈ list_active_ephemeral_changes (db w4)) as Hin by (rewrite Hact; left). unfold list_active_ephemeral_changes in Hin.
    rewrite order_text_perm, elem_of_list_filter, elem_of_rows, Qd in Hin. destruct Hin as [Hst (i & Hi)].
    apply andb_true_iff in Hst as [He Hst]. pose proof (no_ephemeral_left _ _ _ _ Hk Ha Hi He) as Hno.
    pose proof (status_sub c [lit "active"] live_statuses) as Hsub. rewrite Hsub in Hno; [done| |exact Hst].
    unfold live_statuses. apply Forall_cons_2; set_solver. }
  exists w1, recoveries, w5. split_and!; try done.
  - rewrite Er. unfold load_all_rewrite_rules. by rewrite Qd, Kr.
  - rewrite Em. unfold load_all_map_rules. by rewrite Qd, Km.
  - congruence.
  - destruct recoveries as [|x recoveries]; [injection Hr as <-; by exists g, [], w5|].
    rewrite bind_ok in Hr. destruct Hr as (at_ & w6 & Hn & Hr). exists g, at_, w6. split; [|done]. by eapply frame_now; [apply _|].
Qed.

(** C17: a restart settles every change.  When the recovery succeeds (without
    temporary rules of the older interface, the changes under their keys), exactly the
    stored rules run, in their order, the rule tables are as before, ephemeral
    changes under way are aborted, an unfinished persistent change is active when
    the tables hold its versions and reverted otherwise, in which case they hold the
    versions before it, and every other change keeps its status. *)
Theorem recovery_settles (w w' : World) :
  changes_keyed (db w) → by_rule_id (legacy w) = ∅ → auxiliary_rule_ids (legacy w) = ∅ →
  recover_automation_changes w = (Ok tt, w') →
  live_rewrites w' = map rewrite_row_to_rule (load_all_rewrite_rules (db w)) ∧
  live_maps w' = map map_row_to_rule (load_all_map_rules (db w)) ∧
  rewrite_table (db w') = rewrite_table (db w) ∧ map_table (db w') = map_table (db w) ∧
  ∀ i c, change_sets (db w) !! i = Some c →
    cs_status <$> change_sets (db w') !! i = Some (recovered_status (db w) c) ∧
    (is_ephemeral c = false → status_in c unfinished_statuses = true →
     at_version it_version_after (db w) c || at_version it_version_before (db w) c = true).
Proof.
  intros Hk Hb Hx Hr. destruct (recover_ok _ _ Hk Hb Hx Hr) as (w1 & recs & w2 & Ha & Hcomp & Hsound & Er & Em & Ed & g & at_ & w3 & Q & Hall).
  destruct (abandon_ok _ _ Hk Ha) as [K1 A]. apply recover_all_ok in Hall as [(K3r & K3m & _ & K3t & _) R].
  destruct Q as (Qd & Qr & _). assert (db w3 = db w1) as Ed3 by congruence. rewrite Ed3 in R, K3r, K3m.
  split; [unfold live_rewrites in *; by rewrite K3t, Qr, Er|]. split; [unfold live_maps in *; by rewrite K3t, Qr, Em|].
  split; [by rewrite K3r, (proj1 K1)|]. split; [by rewrite K3m, (proj1 (proj2 K1))|]. intros i c Hc.
  pose proof (Hk _ _ Hc) as Hid.
  assert (is_Some (change_sets (db w1) !! i)) as [c1 Hc1] by by eapply (abandon_domain _ _ _ _ Hk Ha).
  destruct (abandoned_rows _ _ Hk Ha _ _ Hc1) as (Hid1 & c' & Hcc & Hl & Hst). rewrite Hc in Hcc. injection Hcc as <-.
  assert (∀ f, at_version f (db w1) c1 = at_version f (db w) c) as Hv.
  { intros f. rewrite (at_version_kept f _ _ c1 K1). unfold at_version. by rewrite Hid1, Hid. }
  assert (∀ x s, (x, s) ∈ recs → cs_id x = i → x = c1 ∧ status_in c1 unfinished_statuses = true ∧
    (s = After ∧ at_version it_version_after (db w) c = true ∨
     s = Before ∧ at_version it_version_after (db w) c = false ∧ at_version it_version_before (db w) c = true)) as Hrec.
  { intros x s Hin Hxi. destruct (Hsound _ _ Hin) as [Hu Hs]. apply unfinished_elem in Hu as [Hu (k & Hxk)].
    pose proof (proj1 (abandoned_rows _ _ Hk Ha _ _ Hxk)) as Hkk. assert (x = c1) as -> by congruence. by rewrite !Hv in Hs. }
  assert (is_ephemeral c = false → status_in c unfinished_statuses = true → ∃ s, (c1, s) ∈ recs) as Hex.
  { intros He Hu. rewrite He in Hst. cbn [andb] in Hst. apply Hcomp; [|unfold is_ephemeral in *; by rewrite Hl].
    apply unfinished_elem. split; [unfold status_in in *; by rewrite Hst|by exists i]. }
  split.
  - apply status_outline. unfold recovered_status. destruct (R i) as [[-> Hn]|(x & s & Hin & Hxi & ->)].
    + rewrite (proj2 (outline_Some _ _ _) (ex_intro _ c1 (conj Hc1 eq_refl))). cbn [option_map fmap option_fmap snd]. f_equal.
      destruct (is_ephemeral c && status_in c live_statuses) eqn:Hel; [done|]. rewrite Hst.
      destruct (status_in c unfinished_statuses) eqn:Hu; [|done]. exfalso. destruct (is_ephemeral c) eqn:He.
      * cbn [andb] in Hel. rewrite (unfinished_live _ Hu) in Hel. done.
      * destruct (Hex eq_refl eq_refl) as (s & Hin). by apply (Hn _ _ Hin).
    + destruct (Hrec _ _ Hin Hxi) as (-> & Hu & Hs).
      rewrite (proj2 (outline_Some _ _ _) (ex_intro _ c1 (conj Hc1 eq_refl))). cbn [option_map fmap option_fmap set_status snd]. f_equal.
      destruct (is_ephemeral c && status_in c live_statuses) eqn:Hel; [unfold status_in in Hu; by rewrite Hst in Hu|].
      assert (status_in c unfinished_statuses = true) as -> by (unfold status_in in *; by rewrite <- Hst).
      by destruct Hs as [[-> ->]|(-> & -> & _)].
  - intros He Hu. destruct (Hex He Hu) as (s & Hin). destruct (Hrec _ _ Hin Hid1) as (_ & _ & [[_ ->]|(_ & _ & ->)]); [done|].
    by rewrite orb_true_r.
Qed.
End Runtime.
