(* ===== verification/AutomationDemo.v ===== *)
(** * AutomationDemo: a running instance of agent automation

    Instantiates the interfaces of the automation files with concrete functions (a
    self-delimiting text format for the JSON columns, insertion sort for ORDER BY)
    and runs the lifecycle of a change in a small world: the witnesses of the
    theorems of [AutomationPlan], [AutomationRollback] and [AutomationRuntime], and
    a change that can neither be verified nor rolled back. *)

From Stdlib Require Import Sorted.
From S2P Require Import Prelude Str Patterns JsonPath RuleTypes RuleManagers RuleSelection HttpIo Rewrite.
From S2P Require Import MapRules Redaction AutomationPlan AutomationDb Automation AutomationFacts.
From S2P Require Import AutomationRollback AutomationRuntime.

(** ** A text format *)

(** What is printed can be read back, whatever follows. *)
Class Format (A : Type) := {
  put : A → str;
  take_ : str → option (A * str);
  take_put a rest : take_ (put a ++ rest) = Some (a, rest)
}.

Definition read_all {A} `{Format A} (s : str) : option A :=
  match take_ s with Some (a, []) => Some a | _ => None end.

Lemma read_put {A} `{Format A} (a : A) : read_all (put a) = Some a.
Proof. unfold read_all. rewrite <- (app_nil_r (put a)), take_put. done. Qed.

Definition format_via {A B} `{Format B} (f : A → B) (g : B → A) (Hg : ∀ a, g (f a) = a) : Format A.
Proof.
  refine {| put a := put (f a); take_ s := '(b, rest) ← take_ s; Some (g b, rest) |}.
  intros a rest. rewrite take_put. cbn. by rewrite Hg.
Defined.

#[local] Instance format_Z : Format Z :=
  {| put z := [z]; take_ s := match s with z :: s => Some (z, s) | [] => None end; take_put a rest := eq_refl |}.

#[local] Instance format_bool : Format bool.
Proof. refine (format_via (fun b : bool => if b then 1 else 0) (fun z => z =? 1) _). by intros []. Defined.

#[local] Instance format_pair {A B} `{Format A, Format B} : Format (A * B).
Proof.
  refine {| put ab := put ab.1 ++ put ab.2; take_ s := '(a, s) ← take_ s; '(b, s) ← take_ s; Some ((a, b), s) |}.
  intros [a b] rest. cbn. rewrite <- app_assoc, take_put. cbn. rewrite take_put. done.
Defined.

Fixpoint take_n {A} (f : str → option (A * str)) (n : nat) (s : str) : option (list A * str) :=
  match n with
  | O => Some ([], s)
  | S n => '(a, s) ← f s; '(l, s) ← take_n f n s; Some (a :: l, s)
  end.

Definition put_list {A} (f : A → str) (l : list A) : str := Z.of_nat (length l) :: concat (map f l).

Definition take_list {A} (f : str → option (A * str)) (s : str) : option (list A * str) :=
  match s with z :: s => take_n f (Z.to_nat z) s | [] => None end.

Lemma take_put_list {A} (f : A → str) g l rest :
  (∀ a rest, a ∈ l → g (f a ++ rest) = Some (a, rest)) → take_list g (put_list f l ++ rest) = Some (l, rest).
Proof.
  intros Hg. unfold take_list, put_list. cbn [app]. rewrite Nat2Z.id.
  induction l as [|a l IH]; [done|]. cbn [length take_n map concat]. rewrite <- app_assoc, Hg by left. cbn.
  rewrite IH by (intros; apply Hg; by right). done.
Qed.

#[local] Instance format_list {A} `{Format A} : Format (list A).
Proof. refine {| put := put_list put; take_ := take_list take_ |}. intros l rest. apply take_put_list. intros. apply take_put. Defined.

#[local] Instance format_option {A} `{Format A} : Format (option A).
Proof.
  refine (format_via (fun o : option A => match o with Some a => [a] | None => [] end)
                     (fun l => match l with [a] => Some a | _ => None end) _). by intros [].
Defined.

(** *** Documents *)

Fixpoint put_value (v : value Z) : str :=
  match v with
  | Null => [0]
  | Bool b => 1 :: put b
  | Number n => [2; n]
  | String s => 3 :: put s
  | Array a => 4 :: put_list put_value a
  | Object o => 5 :: put_list (fun kv => put kv.1 ++ put_value kv.2) o
  end.

Fixpoint take_value (fuel : nat) (s : str) : option (value Z * str) :=
  match fuel, s with
  | S fuel, tag :: s =>
      if tag =? 0 then Some (Null, s)
      else if tag =? 1 then '(b, s) ← take_ s; Some (Bool b, s)
      else if tag =? 2 then '(n, s) ← take_ s; Some (Number n, s)
      else if tag =? 3 then '(t, s) ← take_ s; Some (String t, s)
      else if tag =? 4 then '(a, s) ← take_list (take_value fuel) s; Some (Array a, s)
      else '(o, s) ← take_list (fun s => '(k, s) ← take_ s; '(v, s) ← take_value fuel s; Some ((k, v), s)) s; Some (Object o, s)
  | _, _ => None
  end.

Lemma concat_length {A} (f : A → str) a l : a ∈ l → (length (f a) <= length (concat (map f l)))%nat.
Proof. induction 1 as [|a b l _ IH]; cbn; rewrite length_app; lia. Qed.

Lemma take_put_value v : ∀ fuel rest, (length (put_value v) <= fuel)%nat → take_value fuel (put_value v ++ rest) = Some (v, rest).
Proof.
  induction v as [|b|n|s|items IH|o IH] using value_ind'; intros [|fuel] rest Hf; cbn [put_value length] in Hf;
    try (unfold put_list in Hf; cbn [length] in Hf; lia); try lia; cbn [put_value app take_value Z.eqb Pos.eqb].
  - done.
  - by rewrite take_put.
  - done.
  - by rewrite take_put.
  - rewrite take_put_list; [done|]. intros v r Hv. apply (proj1 (Forall_forall _ _) IH v Hv).
    pose proof (concat_length put_value _ _ Hv). unfold put_list in Hf. cbn [length] in Hf. lia.
  - rewrite take_put_list; [done|]. intros [k v] r Hv. cbn [fst snd]. rewrite <- app_assoc, take_put. cbn [mbind option_bind].
    rewrite (proj1 (Forall_forall _ _) IH _ Hv); [done|].
    pose proof (concat_length (fun kv : str * value Z => put kv.1 ++ put_value kv.2) _ _ Hv) as Hc. cbn [fst snd] in Hc.
    rewrite length_app in Hc. unfold put_list in Hf. cbn [length snd] in *. lia.
Qed.

#[local] Instance format_value : Format (value Z).
Proof.
  refine {| put := put_value; take_ s := take_value (length s) s |}.
  intros v rest. apply take_put_value. rewrite length_app. lia.
Defined.

(** *** Rules and metadata *)

#[local] Instance format_match : Format RewriteRuleMatch.
Proof.
  refine (format_via (fun m => (rm_methods m, rm_stage m, rm_url_pattern m, rm_match_type m))
    (fun '(a, b, c, d) => {| rm_methods := a; rm_stage := b; rm_url_pattern := c; rm_match_type := d |}) _). by intros [].
Defined.

#[local] Instance format_rewrite : Format (RewriteRule Z).
Proof.
  refine (format_via
    (fun r => (rw_actions r, rw_id r, rw_enabled r, rw_name r, rw_note r, rw_priority r, rw_match r, rw_rewrite_type r,
               rw_workspace_id r, rw_payload r))
    (fun '(a, b, c, d, e, f, g, h, i, j) =>
       {| rw_actions := a; rw_id := b; rw_enabled := c; rw_name := d; rw_note := e; rw_priority := f; rw_match := g;
          rw_rewrite_type := h; rw_workspace_id := i; rw_payload := j |}) _). by intros [].
Defined.

#[local] Instance format_map : Format MapRule.
Proof.
  refine (format_via
    (fun r => (map_id r, map_enabled r, map_mode r, map_name r, map_note r, map_preserve_path r, map_preserve_query r,
               map_priority r, map_source_pattern r, map_target_value r, map_match_type r, map_workspace_id r))
    (fun '(a, b, c, d, e, f, g, h, i, j, k, l) =>
       {| map_id := a; map_enabled := b; map_mode := c; map_name := d; map_note := e; map_preserve_path := f;
          map_preserve_query := g; map_priority := h; map_source_pattern := i; map_target_value := j;
          map_match_type := k; map_workspace_id := l |}) _). by intros [].
Defined.

#[local] Instance format_row : Format AutomationResourceRow.
Proof.
  refine (format_via
    (fun r => (rs_resource_kind r, rs_resource_id r, rs_scope r, rs_scope_key r, rs_workspace_id r, rs_owner_kind r,
               rs_created_by_client r, rs_created_by_version r, rs_change_id r, rs_expires_at r, rs_created_at r, rs_updated_at r))
    (fun '(a, b, c, d, e, f, g, h, i, j, k, l) =>
       {| rs_resource_kind := a; rs_resource_id := b; rs_scope := c; rs_scope_key := d; rs_workspace_id := e;
          rs_owner_kind := f; rs_created_by_client := g; rs_created_by_version := h; rs_change_id := i;
          rs_expires_at := j; rs_created_at := k; rs_updated_at := l |}) _). by intros [].
Defined.

(** ** The interfaces *)

Definition parsed {A} `{Format A} (s : str) : result A str := ok_or (read_all s) (lit "expected value").

Lemma parsed_put {A} `{Format A} (a : A) : parsed (put a) = Ok a.
Proof. unfold parsed. by rewrite read_put. Qed.

#[local] Instance demo_plan_codec : AutomationCodec Z :=
  {| plan_value plan := String (pl_idempotency_key plan); plan_bytes plan := pl_idempotency_key plan; value_text := put (A := value Z);
     sha256_hex b := b; asset_decode := Ok |}.

#[local] Instance demo_row_codec : RowCodec Z.
Proof.
  refine {| methods_text := put (A := list str); methods_parse := read_all (A := list str); json_text := put (A := value Z);
            json_parse := read_all (A := value Z) |}.
  - intros ms. apply (read_put (A := list str)).
  - intros v. apply (read_put (A := value Z)).
Defined.

#[local] Instance demo_change_codec : ChangeCodec Z.
Proof.
  refine {|
    resource_value r := match r with PRewrite r => Array [Null; String (put r)] | PMap r => Array [String (put r)] end;
    rewrite_json := put (A := RewriteRule Z); rewrite_from_json := parsed (A := RewriteRule Z);
    map_json := put (A := MapRule); map_from_json := parsed (A := MapRule);
    scope_value w rs ms := String (put (A := str * list (RewriteRule Z) * list MapRule) (w, rs, ms));
    dependencies_text a m := put (A := option str * option AutomationResourceRow) (a, m);
    dependencies_metadata s := rbind (parsed (A := option str * option AutomationResourceRow) s) (fun am => Ok am.2);
    summary_text refs n := put (A := list (str * str) * Z) (map_to_list refs, n);
    summary_refs s := match read_all (A := list (str * str) * Z) s with Some (l, _) => list_to_map l | None => ∅ end;
    add_seconds t n := t ++ [n] |}.
  - intros r. apply (parsed_put (A := RewriteRule Z)).
  - intros r. apply (parsed_put (A := MapRule)).
  - intros a m. by rewrite parsed_put.
  - intros refs n. rewrite read_put. apply list_to_map_to_list.
Defined.

Lemma sort_ids_perm {A} (key : A → str) l : sort_ids key l ≡ₚ l.
Proof.
  induction l as [|a l IH]; [done|]. cbn [sort_ids fold_right]. transitivity (a :: sort_ids key l); [|by rewrite IH].
  unfold sort_ids. clear IH. induction (fold_right (insert_by key) [] l) as [|b s IH]; [done|]. cbn [insert_by].
  destruct (text_leb (key a) (key b)); [done|]. rewrite IH. apply perm_swap.
Qed.

#[local] Instance demo_order : SqlOrder.
Proof.
  refine {| order_num A key l := sort_desc (fun a => - key a) l; order_text A key l := sort_ids key l;
            order_recent l := rev (sort_ids rs_updated_at l) |}.
  - intros. apply sort_desc_perm.
  - intros A key l. pose proof (sort_desc_descending (fun a => - key a) l) as Hd.
    induction (sort_desc (fun a => - key a) l) as [|a s IH]; constructor; destruct Hd as [Ha Hs].
    + by apply IH.
    + rewrite Forall_forall in Ha. apply List.Forall_forall. intros x Hx. apply list_elem_of_In, Ha in Hx. lia.
  - intros. apply sort_ids_perm.
  - intros l. rewrite <- Permutation_rev. apply sort_ids_perm.
Defined.

#[local] Existing Instance no_regex.
#[local] Existing Instance demo_urls.
#[local] Existing Instance demo_fs.

(** ** A world *)

Definition demo_action (name : str) : value Z :=
  Object [(lit "rewriteType", String (lit "header")); (lit "payload", Object [(lit "headerName", String name)])].

Definition demo_rewrite (i name : str) : RewriteRule Z :=
  {| rw_actions := Some [demo_action name]; rw_id := i; rw_enabled := true; rw_name := name; rw_note := None; rw_priority := 1;
     rw_match := {| rm_methods := []; rm_stage := lit "request"; rm_url_pattern := lit "https://h/"; rm_match_type := Some (lit "contains") |};
     rw_rewrite_type := lit "header"; rw_workspace_id := lit "w"; rw_payload := Null |}.

Definition demo_local (i : str) : MapRule :=
  {| map_id := i; map_enabled := true; map_mode := lit "local"; map_name := lit "Map"; map_note := None; map_preserve_path := true;
     map_preserve_query := true; map_priority := 1; map_source_pattern := lit "https://h/"; map_target_value := lit "/srv/a.txt";
     map_match_type := Some (lit "contains"); map_workspace_id := lit "w" |}.

Definition demo_resource_row (k i : str) : AutomationResourceRow :=
  {| rs_resource_kind := k; rs_resource_id := i; rs_scope := lit "workspace"; rs_scope_key := lit "workspace:w";
     rs_workspace_id := Some (lit "w"); rs_owner_kind := lit "agent"; rs_created_by_client := Some (lit "agent");
     rs_created_by_version := Some (lit "1"); rs_change_id := None; rs_expires_at := None; rs_created_at := lit "t0";
     rs_updated_at := lit "t0" |}.

(** A rewrite and a map rule of the agent and a rewrite rule of the user *)
Definition demo_db : Db :=
  {| rewrite_table := <[lit "r1" := rewrite_row (demo_rewrite (lit "r1") (lit "X-One"))]>
                        {[lit "u1" := rewrite_row (demo_rewrite (lit "u1") (lit "X-User"))]};
     map_table := {[lit "m1" := map_row (demo_local (lit "m1"))]};
     resources := <[(lit "rewrite", lit "r1") := demo_resource_row (lit "rewrite") (lit "r1")]>
                    {[(lit "map", lit "m1") := demo_resource_row (lit "map") (lit "m1")]};
     change_sets := ∅; change_items := ∅; experiments := ∅ |}.

Definition demo_runtime : RuntimeRuleSnapshot Z :=
  {| generation := 1;
     rewrite := compile_rewrite_rules [(demo_rewrite (lit "r1") (lit "X-One"), Some (lit "h")); (demo_rewrite (lit "u1") (lit "X-User"), None)];
     map_rules := compile_map_rules [(demo_local (lit "m1"), Some (lit "h"))] |}.

Definition demo_world : @World Z _ :=
  {| db := demo_db; runtime := demo_runtime; legacy := {| by_rule_id := ∅; auxiliary_rule_ids := ∅ |}; staged := ∅;
     clock := []; uuids n := lit "uuid" ++ [Z.of_nat n]; faults := [] |}.

Definition demo_permissions : AutomationPermissions :=
  {| manage_automation := true; manage_user_automation := false; manage_scripts := false; manage_cross_host_mappings := false;
     manage_proxied_verification := false; manage_global_automation := false; automation_approved_roots := [lit "/srv"];
     proxied_verification_origins := [] |}.

Definition demo_resource (name : str) (match_type : option str) : AutomationRewriteResource Z :=
  {| ar_enabled := Some true; ar_name := name; ar_note := None; ar_priority := 2;
     ar_match := {| am_methods := []; am_stage := lit "request"; am_url_pattern := lit "https://h/b"; am_match_type := match_type |};
     ar_rewrite_type := None; ar_actions := [demo_action name]; ar_payload := Null |}.

(** Updates the rewrite rule, creates another and deletes the map rule. *)
Definition demo_plan (match_type : option str) : AutomationPlan Z :=
  {| pl_scope := lit "workspace"; pl_workspace_id := Some (lit "w"); pl_lifecycle := lit "persistent"; pl_ttl_seconds := None;
     pl_idempotency_key := lit "0123456789abcdef";
     pl_upserts := {| us_rewrite :=
         [{| up_id := Some (lit "r1"); up_expected_version := Some (version (PRewrite (demo_rewrite (lit "r1") (lit "X-One"))));
             up_ref := None; up_resource := demo_resource (lit "X-Two") (Some (lit "contains")) |};
          {| up_id := None; up_expected_version := None; up_ref := Some (lit "new");
             up_resource := demo_resource (lit "X-New") match_type |}];
       us_map := []; us_dns := []; us_script := []; us_throttle_profile := []; us_throttle_rule := []; us_breakpoint := [] |};
     pl_deletes := [{| del_kind := lit "map"; del_id := lit "m1"; del_expected_version := version (PMap (demo_local (lit "m1"))) |}];
     pl_activation := None; pl_assets := [] |}.

Definition demo_caller : str * str := (lit "agent", lit "1").
Definition demo_root : bytes := lit "/assets".

(** The plan with the hashes that preparing it gives *)
Definition demo_params (plan : AutomationPlan Z) (w : World) : ApplyAutomationPlanParams :=
  match (prepare_automation_plan demo_root plan demo_caller demo_permissions w).1 with
  | Ok p => {| ap_plan := plan; ap_expected_plan_hash := pp_plan_hash p; ap_expected_scope_hash := pp_scope_hash_before p |}
  | Err _ => {| ap_plan := plan; ap_expected_plan_hash := []; ap_expected_scope_hash := [] |}
  end.

Definition demo_apply (match_type : option str) : result AutomationApplyResult (AutomationError Z) * World :=
  let plan := demo_plan match_type in
  apply_automation_plan_locked demo_root (demo_params plan demo_world) demo_caller demo_permissions demo_world.

Definition demo_change : str := lit "uuid" ++ [0].

Definition demo_rollback (w : World) : result AutomationApplyResult (AutomationError Z) * World :=
  rollback_automation_change_locked demo_change None (lit "manual") (Some demo_permissions) w.

Lemma demo_fresh : fresh demo_world.
Proof.
  assert (∀ i n, i ∈ [lit "r1"; lit "u1"; lit "m1"] → i ≠ uuids demo_world n) as Hne.
  { intros i n Hi Heq. subst i. by repeat (apply elem_of_cons in Hi as [[=]|Hi]); apply not_elem_of_nil in Hi. }
  split; try done.
  - intros m n Heq. apply app_inv_head in Heq. injection Heq. lia.
  - intros k n. unfold live. case_bool_decide; [|case_bool_decide; [|done]]; cbn -[uuids lit].
    + rewrite !bool_decide_eq_false_2; [done|apply Hne; set_solver..].
    + rewrite !bool_decide_eq_false_2; [done|apply Hne; set_solver..].
  - intros k n. unfold stored_resource. case_bool_decide; [|case_bool_decide; [|done]]; cbn -[uuids lit].
    + rewrite lookup_insert_ne, lookup_singleton_ne; [done|apply Hne; set_solver..].
    + rewrite lookup_singleton_ne; [done|apply Hne; set_solver..].
  - intros k n. cbn -[uuids lit]. rewrite lookup_insert_ne, lookup_singleton_ne; [done|..]; intros [= _ Heq]; revert Heq; apply Hne; set_solver.
Qed.

Lemma demo_keyed : keyed demo_db.
Proof.
  split; intros q row; cbn -[lit]; [|by rewrite lookup_empty].
  intros [[<- <-]|[_ [<- <-]%lookup_singleton_Some]]%lookup_insert_Some; done.
Qed.

Lemma demo_settled match_type : settled (demo_plan match_type) demo_world.
Proof.
  split; [exact demo_keyed|..]; cbn -[lit].
  - intros q row [[_ <-]|[_ [_ <-]%lookup_singleton_Some]]%lookup_insert_Some; done.
  - intros i row [[_ <-]|[_ [_ <-]%lookup_singleton_Some]]%lookup_insert_Some; done.
  - intros i row [_ <-]%lookup_singleton_Some. done.
  - intros q Hq. assert (q = (lit "rewrite", lit "r1") ∨ q = (lit "map", lit "m1")) as [->| ->] by (cbn -[lit] in Hq; set_solver);
      vm_compute; reflexivity.
Qed.

(** ** Witnesses *)

(** The result of a run *)
Definition outcome {A} (default_ : A) (r : result A (AutomationError Z)) : A := match r with Ok a => a | Err _ => default_ end.

Lemma run_eq {A} (d : A) (p : result A (AutomationError Z) * @World Z _) : match p.1 with Ok _ => true | Err _ => false end = true →
  p = (Ok (outcome d p.1), p.2).
Proof. by destruct p as [[a|e] w]. Qed.

Definition no_result : AutomationApplyResult :=
  {| ap_change_id := []; ap_status := []; ap_runtime_generation := 0; ap_resource_ids_by_ref := ∅; ap_expires_at := None;
     ap_idempotent := true |}.

Lemma agent_cannot_touch_user_rules_witness :
  let w' := (demo_apply (Some (lit "contains"))).2 in
  stored_resource (number := Z) (lit "rewrite") (lit "u1") (db w') = Some (PRewrite (demo_rewrite (lit "u1") (lit "X-User"))) ∧
  resources (db w') !! (lit "rewrite", lit "u1") = None.
Proof.
  intros w'.
  edestruct (agent_cannot_touch_user_rules demo_root (demo_params (demo_plan (Some (lit "contains"))) demo_world) demo_caller
    demo_permissions demo_world (demo_apply (Some (lit "contains"))).1 w' (lit "rewrite") (lit "u1")) as [Hs Hr].
  - exact demo_fresh.
  - exact demo_keyed.
  - reflexivity.
  - apply surjective_pairing.
  - vm_compute. reflexivity.
  - vm_compute. reflexivity.
  - split; [exact Hs|]. exact Hr.
Defined.

Definition demo_result : AutomationApplyResult := outcome no_result (demo_apply (Some (lit "contains"))).1.

Lemma demo_id : ap_change_id demo_result = demo_change.
Proof. vm_compute. reflexivity. Qed.

Lemma rollback_restores_witness :
  let w1 := (demo_apply (Some (lit "contains"))).2 in let w3 := (demo_rollback w1).2 in
  stored_resource (number := Z) (lit "map") (lit "m1") (db w1) = None ∧
  (∀ k i, stored_resource (number := Z) k i (db w3) = stored_resource k i demo_db ∧
          resources (db w3) !! (k, i) = resources demo_db !! (k, i)) ∧
  cs_status <$> change_sets (db w3) !! demo_change = Some (lit "reverted").
Proof.
  intros w1 w3. split; [vm_compute; reflexivity|]. rewrite <- demo_id.
  apply (rollback_restores demo_root (demo_params (demo_plan (Some (lit "contains"))) demo_world) demo_caller demo_permissions
    demo_world demo_result w1 w1 None (lit "manual") (Some demo_permissions) (outcome no_result (demo_rollback w1).1)).
  - exact demo_fresh.
  - exact (demo_settled (Some (lit "contains"))).
  - apply (run_eq no_result (demo_apply (Some (lit "contains")))). vm_compute. reflexivity.
  - vm_compute. reflexivity.
  - reflexivity.
  - rewrite demo_id. apply (run_eq no_result (demo_rollback w1)). vm_compute. reflexivity.
Defined.

Definition demo_view : RequestView := {| rq_method := lit "GET"; rq_url := lit "https://h/"; rq_host := lit "H" |}.

Definition demo_publish : result Z (AutomationError Z) * World := publish_current_runtime None demo_world.

Lemma agent_rules_stay_on_host_witness :
  let r := demo_rewrite (lit "r1") (lit "X-One") in
  r ∈ active_rewrite_rules_for_snapshot (runtime demo_publish.2) (lit "w") (lit "request") demo_view ∧
  ∃ label host, exact_pattern_host (number := Z) (rm_url_pattern (rw_match r)) label = Ok host ∧
    eq_ignore_ascii_case host (rq_host demo_view) = true.
Proof.
  intros r.
  assert (r ∈ active_rewrite_rules_for_snapshot (runtime demo_publish.2) (lit "w") (lit "request") demo_view) as Hr.
  { assert (active_rewrite_rules_for_snapshot (runtime demo_publish.2) (lit "w") (lit "request") demo_view =
      [r; demo_rewrite (lit "u1") (lit "X-User")] ∨
      active_rewrite_rules_for_snapshot (runtime demo_publish.2) (lit "w") (lit "request") demo_view =
      [demo_rewrite (lit "u1") (lit "X-User"); r]) as [->| ->] by (first [left; vm_compute; reflexivity|right; vm_compute; reflexivity]).
    - left.
    - right. left. }
  split; [exact Hr|].
  apply (agent_rules_stay_on_host None demo_world (outcome 0 demo_publish.1) demo_publish.2 (lit "w") (lit "request") demo_view).
  - apply (run_eq 0 demo_publish). vm_compute. reflexivity.
  - exact demo_keyed.
  - apply Nat.leb_le. vm_compute. reflexivity.
  - split; intros i Hi; exfalso; set_solver.
  - exact Hr.
  - vm_compute. reflexivity.
Defined.

(** A crash between the commit and the activation: the change is committed and an
    ephemeral change is still marked active. *)
Definition demo_ephemeral : AutomationChangeSetRow :=
  {| cs_id := lit "e1"; cs_scope := lit "workspace"; cs_scope_key := lit "workspace:w"; cs_workspace_id := Some (lit "w");
     cs_idempotency_key := lit "ephemeral-change"; cs_plan_hash := []; cs_expected_plan_hash := []; cs_scope_hash_before := [];
     cs_scope_hash_after := []; cs_lifecycle := lit "ephemeral"; cs_status := lit "active"; cs_runtime_generation := Some 1;
     cs_client_name := None; cs_client_version := None; cs_summary_json := []; cs_created_at := lit "t0"; cs_committed_at := None;
     cs_activated_at := None; cs_reverted_at := None; cs_expires_at := Some (lit "t9") |}.

Definition demo_committed : AutomationChangeSetRow :=
  with_status (lit "committed") None None None None
    (default demo_ephemeral (change_sets (db (demo_apply (Some (lit "contains"))).2) !! demo_change)).

Definition demo_crashed : @World Z _ :=
  let d := db (demo_apply (Some (lit "contains"))).2 in
  set_db (with_change_sets d (<[lit "e1" := demo_ephemeral]> {[demo_change := demo_committed]})) demo_world.

Definition demo_recovery : result unit (AutomationError Z) * World := recover_automation_changes demo_crashed.

Lemma recovery_settles_witness :
  let w' := demo_recovery.2 in
  live_maps w' = [] ∧
  cs_status <$> change_sets (db w') !! demo_change = Some (lit "active") ∧
  cs_status <$> change_sets (db w') !! lit "e1" = Some (lit "aborted").
Proof.
  intros w'. destruct (recovery_settles demo_crashed w') as (_ & Hm & _ & _ & Hs).
  - intros i c. cbn [db demo_crashed set_db change_sets with_change_sets].
    intros [[<- <-]|[_ [<- <-]%lookup_singleton_Some]]%lookup_insert_Some; vm_compute; reflexivity.
  - reflexivity.
  - reflexivity.
  - assert (demo_recovery.1 = Ok tt) as Hr by (vm_compute; reflexivity). rewrite <- Hr. apply surjective_pairing.
  - split_and!.
    + rewrite Hm. vm_compute. reflexivity.
    + destruct (Hs demo_change demo_committed) as [-> _]; vm_compute; reflexivity.
    + destruct (Hs (lit "e1") demo_ephemeral) as [-> _]; vm_compute; reflexivity.
Defined.

(** A rule stored without a match type comes back with one: its version changes and
    the change can neither be verified nor rolled back. *)
Theorem untyped_change_is_stuck :
  let '(r, w) := demo_apply None in
  (match r with Ok a => bool_decide (ap_status a = lit "active") | Err _ => false end = true) ∧
  (match (demo_rollback w).1 with Ok _ => None | Err e => Some (ae_code e) end = Some (lit "ROLLBACK_CONFLICT")) ∧
  (match change_sets (db w) !! demo_change with
   | Some c => match (ensure_verification_targets_current c w).1 with Ok _ => None | Err e => Some (ae_code e) end
   | None => None
   end = Some (lit "RESOURCE_VERSION_MISMATCH")).
Proof. vm_compute. split_and!; reflexivity. Qed.

Definition demo_map_resource : AutomationMapResource :=
  {| am_enabled := None; am_mode := lit "local"; am_name := lit "Map"; am_note := None; am_preserve_path := false;
     am_preserve_query := false; am_priority := 1; am_source_pattern := lit "https://h/"; am_approved_path := Some (lit "/srv/a.txt");
     am_target_value := None; am_managed_asset_ref := None; am_map_match_type := None |}.

Lemma map_target_confined_witness :
  resolve_map_target (number := Z) demo_map_resource ∅ None [lit "/srv"] = Ok (lit "/srv/a.txt") ∧
  target_source (lit "/assets") (lit "c1") [] None [lit "/srv"] (lit "/srv/a.txt").
Proof.
  split; [vm_compute; reflexivity|].
  apply (map_target_confined (number := Z) (lit "/assets") (lit "c1") [] ∅ demo_map_resource None [lit "/srv"]).
  - discriminate.
  - vm_compute. reflexivity.
  - vm_compute. reflexivity.
  - vm_compute. reflexivity.
Defined.

Definition demo_redirect : value Z :=
  Object [(lit "rewriteType", String (lit "redirect")); (lit "payload", Object [(lit "targetUrl", String (lit "https://h/new"))])].

Definition demo_redirect_resource : AutomationRewriteResource Z :=
  {| ar_enabled := None; ar_name := lit "Move"; ar_note := None; ar_priority := 1;
     ar_match := {| am_methods := []; am_stage := lit "request"; am_url_pattern := lit "https://h/old"; am_match_type := None |};
     ar_rewrite_type := None; ar_actions := [demo_redirect]; ar_payload := Null |}.

Lemma rewrite_redirects_stay_witness :
  ∃ rule host, build_rewrite_rule (lit "w") (lit "r9") demo_redirect_resource None = Ok rule ∧ redirects_to host demo_redirect.
Proof.
  destruct (build_rewrite_rule (lit "w") (lit "r9") demo_redirect_resource None) as [rule|e] eqn:Hb; [|vm_compute in Hb; discriminate].
  destruct (rewrite_redirects_stay (lit "w") (lit "r9") demo_redirect_resource None rule Hb) as (host & _ & _ & _ & _ & _ & Hr).
  exists rule, host. split; [reflexivity|]. apply (Hr demo_redirect (lit "redirect")); [left|reflexivity|vm_compute; reflexivity].
Defined.
