(* ===== verification/AgentGrants.v ===== *)
(** * AgentGrants: the approval store for Agent actions
    (agent-control/src/grant.rs, apps/desktop/src-tauri/src/agent_grants.rs)

    The process-wide store is a list of grants behind one mutex; each public
    function is one critical section, so it is a function on the list.  Times
    are nanoseconds; [expires_at] is kept as the instant its RFC 3339 text
    denotes (the store writes it itself).  The result of writing the JSON copy
    ([persist_path]) is an argument: an error is returned after the in-memory
    change has happened.  The UUID of a new grant is an argument. *)

From S2P Require Import Prelude Str.

(** ** Definitions: capabilities and approval policy *)

Inductive AgentCapability :=
  | ReadSessions | ReadBodies | ReadRawBodies | ReadWebSocket | ExportSnapshots
  | ControlCapture | ControlSystemProxy | ManageCertificates | DeleteSessions | SendRequests
  | ManageRules | ManageAutomation | ManageUserAutomation | ManageScripts
  | ManageCrossHostMappings | ManageProxiedVerification | ManageGlobalAutomation.

#[export] Instance AgentCapability_eq_dec : EqDecision AgentCapability.
Proof. solve_decision. Defined.

Definition capability_str (c : AgentCapability) : str :=
  match c with
  | ReadSessions => lit "readSessions"
  | ReadBodies => lit "readBodies"
  | ReadRawBodies => lit "readRawBodies"
  | ReadWebSocket => lit "readWebSocket"
  | ExportSnapshots => lit "exportSnapshots"
  | ControlCapture => lit "controlCapture"
  | ControlSystemProxy => lit "controlSystemProxy"
  | ManageCertificates => lit "manageCertificates"
  | DeleteSessions => lit "deleteSessions"
  | SendRequests => lit "sendRequests"
  | ManageRules => lit "manageRules"
  | ManageAutomation => lit "manageAutomation"
  | ManageUserAutomation => lit "manageUserAutomation"
  | ManageScripts => lit "manageScripts"
  | ManageCrossHostMappings => lit "manageCrossHostMappings"
  | ManageProxiedVerification => lit "manageProxiedVerification"
  | ManageGlobalAutomation => lit "manageGlobalAutomation"
  end.

Inductive AgentGrantStatus :=
  | Pending | Approved | Executing | Succeeded | Failed | Unknown | Expired | Revoked | Denied
  | Cancelled.

#[export] Instance AgentGrantStatus_eq_dec : EqDecision AgentGrantStatus.
Proof. solve_decision. Defined.

Inductive AgentGrantApprovalOption := Once | FifteenMinutes.

#[export] Instance AgentGrantApprovalOption_eq_dec : EqDecision AgentGrantApprovalOption.
Proof. solve_decision. Defined.

Definition capability_allows_repeat_approval (c : AgentCapability) : bool :=
  match c with
  | ReadRawBodies | ControlSystemProxy | ManageCertificates | DeleteSessions
  | ManageUserAutomation | ManageScripts | ManageCrossHostMappings | ManageGlobalAutomation => false
  | _ => true
  end.

Definition allowed_approval_options (c : AgentCapability) (non_idempotent : bool)
    : list AgentGrantApprovalOption :=
  if negb non_idempotent && capability_allows_repeat_approval c then [Once; FifteenMinutes]
  else [Once].

(** ** Definitions: grants and requests *)

Record AgentGrantScope := {
  session_ids : list str;
  connection_ids : list str;
  scope_host : option str;
  path_prefix : option str;
  scope_methods : list str;
  scope_workspace_id : option str;
  automation_roots : list str;
  origins : list str
}.

Inductive AutomationResourceLifecycle := Ephemeral | Persistent.
Inductive AgentGrantCleanupPolicy := AgentOwnedOnly | Manual.

Record AgentGrantResourcePolicy := {
  lifecycle : AutomationResourceLifecycle;
  ttl_seconds : option Z;
  cleanup : AgentGrantCleanupPolicy
}.

Record AgentGrantRequest := {
  gr_capability : AgentCapability;
  gr_action_fingerprint : str;
  gr_action_summary : str;
  gr_scope : AgentGrantScope;
  gr_reason : str;
  gr_approval_options : list AgentGrantApprovalOption;
  gr_expires_in_seconds : Z;
  gr_non_idempotent : bool;
  gr_resource_policy : option AgentGrantResourcePolicy
}.

Record AgentGrant := {
  g_id : str;
  g_request_id : str;
  g_capability : AgentCapability;
  g_client_name : str;
  g_client_version : str;
  g_agent_instance_id : str;
  g_action_fingerprint : str;
  g_action_summary : str;
  g_scope : AgentGrantScope;
  g_reason : str;
  g_created_at : Z;
  g_approved_at : option Z;
  g_expires_at : Z;
  g_max_uses : Z;
  g_remaining_uses : Z;
  g_resource_policy : option AgentGrantResourcePolicy;
  g_status : AgentGrantStatus;
  g_approval_option : AgentGrantApprovalOption;
  g_non_idempotent : bool;
  g_approval_options : list AgentGrantApprovalOption
}.

Record GrantRequester := { client_name : str; client_version : str; agent_instance_id : str }.

Definition secs (n : Z) : Z := n * 1000000000.

Definition MAX_GRANTS : nat := 200.
Definition DEFAULT_APPROVAL_TIMEOUT_SECS : Z := 30.
Definition ONCE_EXECUTION_WINDOW_SECS : Z := 60.
Definition FIFTEEN_MINUTES_SECS : Z := 15 * 60.
Definition FIFTEEN_MINUTE_MAX_USES : Z := 50.
Definition DENIAL_COOLDOWN_SECS : Z := 60.

(** Field updates. *)
Definition set_status (g : AgentGrant) (s : AgentGrantStatus) (uses : Z) : AgentGrant :=
  {| g_id := g_id g; g_request_id := g_request_id g; g_capability := g_capability g;
     g_client_name := g_client_name g; g_client_version := g_client_version g;
     g_agent_instance_id := g_agent_instance_id g; g_action_fingerprint := g_action_fingerprint g;
     g_action_summary := g_action_summary g; g_scope := g_scope g; g_reason := g_reason g;
     g_created_at := g_created_at g; g_approved_at := g_approved_at g;
     g_expires_at := g_expires_at g; g_max_uses := g_max_uses g; g_remaining_uses := uses;
     g_resource_policy := g_resource_policy g; g_status := s;
     g_approval_option := g_approval_option g; g_non_idempotent := g_non_idempotent g;
     g_approval_options := g_approval_options g |}.

Definition set_expires (g : AgentGrant) (t : Z) : AgentGrant :=
  {| g_id := g_id g; g_request_id := g_request_id g; g_capability := g_capability g;
     g_client_name := g_client_name g; g_client_version := g_client_version g;
     g_agent_instance_id := g_agent_instance_id g; g_action_fingerprint := g_action_fingerprint g;
     g_action_summary := g_action_summary g; g_scope := g_scope g; g_reason := g_reason g;
     g_created_at := g_created_at g; g_approved_at := g_approved_at g;
     g_expires_at := t; g_max_uses := g_max_uses g; g_remaining_uses := g_remaining_uses g;
     g_resource_policy := g_resource_policy g; g_status := g_status g;
     g_approval_option := g_approval_option g; g_non_idempotent := g_non_idempotent g;
     g_approval_options := g_approval_options g |}.

(** [iter_mut().find(p)]: update the first grant that satisfies [p]. *)
Fixpoint update_first {A} (p : A → bool) (f : A → A) (l : list A) : list A :=
  match l with
  | [] => []
  | x :: l => if p x then f x :: l else x :: update_first p f l
  end.

Definition by_id (id : str) (g : AgentGrant) : bool := bool_decide (g_id g = id).
Definition by_request_id (id : str) (g : AgentGrant) : bool := bool_decide (g_request_id g = id).

(** [Pending | Approved | Executing] *)
Definition live_status (s : AgentGrantStatus) : bool :=
  match s with Pending | Approved | Executing => true | _ => false end.

(** [Approved | Executing] *)
Definition active_status (s : AgentGrantStatus) : bool :=
  match s with Approved | Executing => true | _ => false end.

Definition is_usable (g : AgentGrant) (now : Z) : bool :=
  live_status (g_status g) && (now <? g_expires_at g).

Definition denied_recently (g : AgentGrant) (now : Z) : bool :=
  bool_decide (g_status g = Denied) && (now <? g_expires_at g).

Definition refresh_expired (now : Z) (gs : list AgentGrant) : list AgentGrant :=
  map (fun g => if live_status (g_status g) && (g_expires_at g <=? now)
                then set_status g Expired 0 else g) gs.

Definition trim_grants (gs : list AgentGrant) : list AgentGrant :=
  if (length gs <? MAX_GRANTS)%nat then gs else drop (length gs - (MAX_GRANTS - 1)) gs.

Definition replace_grant (gs : list AgentGrant) (updated : AgentGrant) : list AgentGrant :=
  update_first (by_id (g_id updated)) (fun _ => updated) gs.

Definition completed_grant_status (s : AgentGrantStatus) (remaining_uses : Z) : AgentGrantStatus :=
  match s with
  | Succeeded | Failed => if 0 <? remaining_uses then Approved else Expired
  | other => other
  end.

Definition grant_key (agent_instance_id client_name client_version : str) (c : AgentCapability)
    (fingerprint : str) : str :=
  agent_instance_id ++ [0] ++ client_name ++ [0] ++ client_version ++ [0] ++ capability_str c
    ++ [0] ++ fingerprint.

Definition grant_key_from_grant (g : AgentGrant) : str :=
  grant_key (g_agent_instance_id g) (g_client_name g) (g_client_version g) (g_capability g)
    (g_action_fingerprint g).

(** ** Definitions: the operations *)

Definition option_not_once (o : AgentGrantApprovalOption) : bool := negb (bool_decide (o = Once)).

Definition validate_request (r : AgentGrantRequest) : result unit str :=
  if bool_decide (trim (gr_action_fingerprint r) = []) || (256 <? len (gr_action_fingerprint r))
  then Err (lit "Agent grant action fingerprint is invalid")
  else if bool_decide (trim (gr_action_summary r) = []) || (512 <? len (gr_action_summary r))
  then Err (lit "Agent grant action summary is invalid")
  else if bool_decide (trim (gr_reason r) = []) || (1024 <? len (gr_reason r))
  then Err (lit "Agent grant reason is invalid")
  else if bool_decide (gr_approval_options r = []) || (2 <? len (gr_approval_options r))
  then Err (lit "Agent grant approval options are invalid")
  else if gr_non_idempotent r && existsb option_not_once (gr_approval_options r)
  then Err (lit "Non-idempotent actions can only be approved once")
  else Ok tt.

(** [{:?}] *)
Definition option_debug (o : AgentGrantApprovalOption) : str :=
  match o with Once => lit "Once" | FifteenMinutes => lit "FifteenMinutes" end.

Definition status_debug (s : AgentGrantStatus) : str :=
  match s with
  | Pending => lit "Pending" | Approved => lit "Approved" | Executing => lit "Executing"
  | Succeeded => lit "Succeeded" | Failed => lit "Failed" | Unknown => lit "Unknown"
  | Expired => lit "Expired" | Revoked => lit "Revoked" | Denied => lit "Denied"
  | Cancelled => lit "Cancelled"
  end.

Definition validate_approval_options (r : AgentGrantRequest) : result unit str :=
  let allowed := allowed_approval_options (gr_capability r) (gr_non_idempotent r) in
  match find_first (fun o => negb (bool_decide (o ∈ allowed))) (gr_approval_options r) with
  | Some o => Err (lit "Approval option " ++ option_debug o
                     ++ lit " is not allowed for capability " ++ capability_str (gr_capability r))
  | None => Ok tt
  end.

(** What [request] does before it waits: answer with an existing grant, or push
    a new pending one.  The boolean says whether the caller then waits. *)
Definition new_grant (r : AgentGrantRequest) (q : GrantRequester) (id : str) (now : Z)
    : AgentGrant :=
  {| g_id := id; g_request_id := id; g_capability := gr_capability r;
     g_client_name := client_name q; g_client_version := client_version q;
     g_agent_instance_id := agent_instance_id q;
     g_action_fingerprint := gr_action_fingerprint r; g_action_summary := gr_action_summary r;
     g_scope := gr_scope r; g_reason := gr_reason r; g_created_at := now; g_approved_at := None;
     g_expires_at :=
       now + secs (Z.min DEFAULT_APPROVAL_TIMEOUT_SECS (Z.max 1 (gr_expires_in_seconds r)));
     g_max_uses := 0; g_remaining_uses := 0; g_resource_policy := gr_resource_policy r;
     g_status := Pending; g_approval_option := Once; g_non_idempotent := gr_non_idempotent r;
     g_approval_options := gr_approval_options r |}.

Definition request (gs : list AgentGrant) (r : AgentGrantRequest) (q : GrantRequester)
    (id : str) (now : Z) (persisted : result unit str)
    : result (AgentGrant * bool) str * list AgentGrant :=
  match rbind (validate_request r) (fun _ => validate_approval_options r) with
  | Err e => (Err e, gs)
  | Ok _ =>
      let key := grant_key (agent_instance_id q) (client_name q) (client_version q)
                   (gr_capability r) (gr_action_fingerprint r) in
      let gs := refresh_expired now gs in
      let same g := bool_decide (grant_key_from_grant g = key) in
      match find_first (fun g => same g && denied_recently g now) (rev gs) with
      | Some g => (Ok (g, false), gs)
      | None =>
          match find_first (fun g => same g && is_usable g now) (rev gs) with
          | Some g => (Ok (g, bool_decide (g_status g = Pending)), gs)
          | None =>
              let g := new_grant r q id now in
              let gs := trim_grants gs ++ [g] in
              match persisted with
              | Err e => (Err e, gs)
              | Ok _ => (Ok (g, true), gs)
              end
          end
      end
  end.

(** The waiting loop of [wait_for_grant] with its local copy: woken by a
    notification it reloads the copy; at the deadline it writes the local copy
    back as expired. *)
Inductive WaitResult := StillWaiting (local : AgentGrant) | Returned (g : AgentGrant).

Definition wait_notified (gs : list AgentGrant) (local : AgentGrant) : WaitResult :=
  match find_first (by_id (g_id local)) gs with
  | Some g => if bool_decide (g_status g = Pending) then StillWaiting g else Returned g
  | None => Returned (set_status local Cancelled 0)
  end.

Definition wait_deadline (gs : list AgentGrant) (local : AgentGrant)
    : AgentGrant * list AgentGrant :=
  let g := set_status local Expired (g_remaining_uses local) in
  (g, replace_grant gs g).

Definition approval_quota (o : AgentGrantApprovalOption) : Z * Z :=
  match o with
  | Once => (ONCE_EXECUTION_WINDOW_SECS, 1)
  | FifteenMinutes => (FIFTEEN_MINUTES_SECS, FIFTEEN_MINUTE_MAX_USES)
  end.

Definition approved_grant (g : AgentGrant) (o : AgentGrantApprovalOption) (now : Z) : AgentGrant :=
  let '(ttl, max_uses) := approval_quota o in
  {| g_id := g_id g; g_request_id := g_request_id g; g_capability := g_capability g;
     g_client_name := g_client_name g; g_client_version := g_client_version g;
     g_agent_instance_id := g_agent_instance_id g; g_action_fingerprint := g_action_fingerprint g;
     g_action_summary := g_action_summary g; g_scope := g_scope g; g_reason := g_reason g;
     g_created_at := g_created_at g; g_approved_at := Some now;
     g_expires_at := now + secs ttl; g_max_uses := max_uses; g_remaining_uses := max_uses;
     g_resource_policy := g_resource_policy g; g_status := Approved; g_approval_option := o;
     g_non_idempotent := g_non_idempotent g; g_approval_options := g_approval_options g |}.

Definition with_persisted {A} (persisted : result unit str) (a : A) : result A str :=
  match persisted with Ok _ => Ok a | Err e => Err e end.

Definition approve (gs : list AgentGrant) (request_id : str) (o : AgentGrantApprovalOption)
    (now : Z) (persisted : result unit str) : result AgentGrant str * list AgentGrant :=
  match find_first (by_request_id request_id) gs with
  | None => (Err (lit "Agent grant request was not found"), gs)
  | Some g =>
      if negb (bool_decide (g_status g = Pending)) then
        (Err (lit "Agent grant request is no longer pending (" ++ status_debug (g_status g)
                ++ lit ")"), gs)
      else if g_expires_at g <=? now then
        (match persisted with
         | Err e => Err e
         | Ok _ => Err (lit "Agent grant request expired before it was approved")
         end,
         update_first (by_request_id request_id)
           (fun g => set_status g Expired (g_remaining_uses g)) gs)
      else if negb (bool_decide (o ∈ g_approval_options g)) then
        (Err (lit "This approval option is not allowed for the requested action"), gs)
      else if negb (bool_decide
                (o ∈ allowed_approval_options (g_capability g) (g_non_idempotent g))) then
        (Err (lit "This approval option is not allowed for the requested capability"), gs)
      else
        (with_persisted persisted (approved_grant g o now),
         update_first (by_request_id request_id) (fun g => approved_grant g o now) gs)
  end.

Definition finish_pending_grant (status : AgentGrantStatus) (now : Z) (g : AgentGrant)
    : AgentGrant :=
  if bool_decide (g_status g = Pending) then
    let g := set_status g status (g_remaining_uses g) in
    if bool_decide (status = Denied) then set_expires g (now + secs DENIAL_COOLDOWN_SECS) else g
  else g.

Definition finish_pending (gs : list AgentGrant) (request_id : str) (status : AgentGrantStatus)
    (now : Z) (persisted : result unit str) : result AgentGrant str * list AgentGrant :=
  match find_first (by_request_id request_id) gs with
  | None => (Err (lit "Agent grant request was not found"), gs)
  | Some g =>
      (with_persisted persisted (finish_pending_grant status now g),
       update_first (by_request_id request_id) (finish_pending_grant status now) gs)
  end.

Definition deny (gs : list AgentGrant) (request_id : str) (now : Z) (persisted : result unit str)
    : result AgentGrant str * list AgentGrant :=
  finish_pending gs request_id Denied now persisted.

Definition revoked_grant (g : AgentGrant) : AgentGrant :=
  if live_status (g_status g) then set_status g Revoked 0 else g.

Definition revoke (gs : list AgentGrant) (grant_id : str) (persisted : result unit str)
    : result AgentGrant str * list AgentGrant :=
  match find_first (by_id grant_id) gs with
  | None => (Err (lit "Agent grant was not found"), gs)
  | Some g =>
      (with_persisted persisted (revoked_grant g), update_first (by_id grant_id) revoked_grant gs)
  end.

Fixpoint authorized_grant_id (gs : list AgentGrant) (q : GrantRequester) (c : AgentCapability)
    (fingerprint : str) (grant_ids : list str) : result str str :=
  match grant_ids with
  | [] => Err (lit "The approved Agent grant does not cover this capability")
  | id :: grant_ids =>
      match find_first (by_id id) gs with
      | None => Err (lit "The approved Agent grant no longer exists")
      | Some g =>
          if negb (bool_decide (g_capability g = c)) then
            authorized_grant_id gs q c fingerprint grant_ids
          else if negb (bool_decide (g_agent_instance_id g = agent_instance_id q))
                  || negb (bool_decide (g_client_name g = client_name q))
                  || negb (bool_decide (g_client_version g = client_version q))
                  || negb (bool_decide (g_action_fingerprint g = fingerprint))
                  || (g_remaining_uses g =? 0)
                  || negb (active_status (g_status g)) then
            Err (lit "The approved Agent grant does not match this action")
          else Ok (g_id g)
      end
  end.

Definition authorize (gs : list AgentGrant) (q : GrantRequester) (c : AgentCapability)
    (fingerprint : str) (grant_ids : list str) (now : Z) : result str str * list AgentGrant :=
  let gs := refresh_expired now gs in
  (authorized_grant_id gs q c fingerprint grant_ids, gs).

Definition has_grant_for_capability (gs : list AgentGrant) (grant_ids : list str)
    (c : AgentCapability) (now : Z) : bool :=
  existsb (fun id => existsb (fun g =>
    by_id id g && bool_decide (g_capability g = c) && (0 <? g_remaining_uses g)
    && active_status (g_status g) && (now <? g_expires_at g)) gs) grant_ids.

(** [position(|grant| grant.id == id)] *)
Fixpoint position (id : str) (gs : list AgentGrant) : option nat :=
  match gs with
  | [] => None
  | g :: gs => if by_id id g then Some 0%nat else S <$> position id gs
  end.

(** The checks of [reserve_grants]: the indexes to reserve. *)
Fixpoint reserve_indexes (gs : list AgentGrant) (grant_ids : list str) (indexes : list nat)
    : result (list nat) str :=
  match grant_ids with
  | [] => Ok indexes
  | id :: grant_ids =>
      match position id gs with
      | None => Err (lit "The approved Agent grant no longer exists")
      | Some i =>
          if bool_decide (i ∈ indexes) then
            Err (lit "The approved Agent grant was provided more than once")
          else
            match gs !! i with
            | None => Err (lit "The approved Agent grant no longer exists")
            | Some g =>
                if negb (active_status (g_status g)) || (g_remaining_uses g =? 0) then
                  Err (lit "The approved Agent grant is no longer usable")
                else reserve_indexes gs grant_ids (indexes ++ [i])
            end
      end
  end.

Definition reserve_one (gs : list AgentGrant) (i : nat) : list AgentGrant :=
  match gs !! i with
  | Some g => <[i := set_status g Executing (sat_sub (g_remaining_uses g) 1)]> gs
  | None => gs
  end.

Definition reserve_grants (gs : list AgentGrant) (grant_ids : list str)
    : result unit str * list AgentGrant :=
  match reserve_indexes gs grant_ids [] with
  | Err e => (Err e, gs)
  | Ok indexes => (Ok tt, fold_left reserve_one indexes gs)
  end.

Definition mark_executing (gs : list AgentGrant) (grant_ids : list str)
    (persisted : result unit str) : result unit str * list AgentGrant :=
  match reserve_grants gs grant_ids with
  | (Err e, gs) => (Err e, gs)
  | (Ok _, gs) => (persisted, gs)
  end.

Definition consumed_grant (g : AgentGrant) : AgentGrant :=
  let uses := sat_sub (g_remaining_uses g) 1 in
  set_status g (if uses =? 0 then Expired else g_status g) uses.

Definition consume (gs : list AgentGrant) (grant_id : str) (c : AgentCapability)
    (fingerprint : str) (q : GrantRequester) (now : Z) (persisted : result unit str)
    : result AgentGrant str * list AgentGrant :=
  let gs := refresh_expired now gs in
  match find_first (by_id grant_id) gs with
  | None => (Err (lit "The approved Agent grant no longer exists"), gs)
  | Some g =>
      if negb (bool_decide (g_agent_instance_id g = agent_instance_id q))
         || negb (bool_decide (g_client_name g = client_name q))
         || negb (bool_decide (g_client_version g = client_version q))
         || negb (bool_decide (g_capability g = c))
         || negb (bool_decide (g_action_fingerprint g = fingerprint)) then
        (Err (lit "The approved Agent grant does not match this action"), gs)
      else if negb (bool_decide (g_status g = Approved)) || (g_remaining_uses g =? 0) then
        (Err (lit "The approved Agent grant is no longer usable"), gs)
      else
        (with_persisted persisted (consumed_grant g),
         update_first (by_id grant_id) consumed_grant gs)
  end.

Definition finish (gs : list AgentGrant) (grant_ids : list str) (status : AgentGrantStatus)
    (persisted : result unit str) : result unit str * list AgentGrant :=
  (persisted,
   map (fun g =>
     if bool_decide (g_id g ∈ grant_ids) && bool_decide (g_status g = Executing)
     then set_status g (completed_grant_status status (g_remaining_uses g)) (g_remaining_uses g)
     else g) gs).

Definition list_grants (gs : list AgentGrant) (now : Z) : (list AgentGrant * Z) * list AgentGrant :=
  let gs := refresh_expired now gs in
  ((gs, len (List.filter (fun g => bool_decide (g_status g = Pending)) gs)), gs).

Definition clear (gs : list AgentGrant) (persisted : result unit str)
    : result unit str * list AgentGrant := (persisted, []).

(** ** Runs of the whole store *)

(** An approval the user gave. *)
Record Approval := {
  ap_id : str;
  ap_capability : AgentCapability;
  ap_non_idempotent : bool;
  ap_option : AgentGrantApprovalOption
}.

(** The store, the local copies of the waiting tasks, and what happened so far:
    the ids ever issued, the approvals, and one entry per use taken. *)
Record Sys := {
  store : list AgentGrant;
  waiters : list AgentGrant;
  issued : list str;
  approvals : list Approval;
  uses : list str
}.

Definition sys_init : Sys := {| store := []; waiters := []; issued := []; approvals := []; uses := [] |}.

Inductive GOp :=
  | GRequest (r : AgentGrantRequest) (q : GrantRequester) (id : str) (now : Z) (p : result unit str)
  | GWait (id : str)
  | GNotified (i : nat)
  | GDeadline (i : nat)
  | GApprove (request_id : str) (o : AgentGrantApprovalOption) (now : Z) (p : result unit str)
  | GDeny (request_id : str) (now : Z) (p : result unit str)
  | GRevoke (id : str) (p : result unit str)
  | GAuthorize (q : GrantRequester) (c : AgentCapability) (f : str) (ids : list str) (now : Z)
  | GMarkExecuting (ids : list str) (p : result unit str)
  | GConsume (id : str) (c : AgentCapability) (f : str) (q : GrantRequester) (now : Z)
             (p : result unit str)
  | GFinish (ids : list str) (s : AgentGrantStatus) (p : result unit str)
  | GList (now : Z)
  | GClear (p : result unit str).

Definition with_store (s : Sys) (gs : list AgentGrant) : Sys :=
  {| store := gs; waiters := waiters s; issued := issued s; approvals := approvals s;
     uses := uses s |}.

Definition with_waiters (s : Sys) (w : list AgentGrant) : Sys :=
  {| store := store s; waiters := w; issued := issued s; approvals := approvals s;
     uses := uses s |}.

Definition with_uses (s : Sys) (l : list str) : Sys :=
  {| store := store s; waiters := waiters s; issued := issued s; approvals := approvals s;
     uses := uses s ++ l |}.

Definition g_step (s : Sys) (op : GOp) : Sys :=
  match op with
  | GRequest r q id now p =>
      let s' := with_store s (request (store s) r q id now p).2 in
      {| store := store s'; waiters := waiters s; issued := id :: issued s;
         approvals := approvals s; uses := uses s |}
  | GWait id =>
      match find_first (by_id id) (store s) with
      | Some g => if bool_decide (g_status g = Pending) then with_waiters s (g :: waiters s) else s
      | None => s
      end
  | GNotified i =>
      match waiters s !! i with
      | Some w => match wait_notified (store s) w with
                  | StillWaiting w => with_waiters s (<[i := w]> (waiters s))
                  | Returned _ => with_waiters s (delete i (waiters s))
                  end
      | None => s
      end
  | GDeadline i =>
      match waiters s !! i with
      | Some w => with_waiters (with_store s (wait_deadline (store s) w).2) (delete i (waiters s))
      | None => s
      end
  | GApprove rid o now p =>
      let s' := with_store s (approve (store s) rid o now p).2 in
      match approve (store s) rid o now (Ok tt) with
      | (Ok g, _) =>
          {| store := store s'; waiters := waiters s; issued := issued s;
             approvals := {| ap_id := g_id g; ap_capability := g_capability g;
                             ap_non_idempotent := g_non_idempotent g; ap_option := o |}
                            :: approvals s;
             uses := uses s |}
      | (Err _, _) => s'
      end
  | GDeny rid now p => with_store s (deny (store s) rid now p).2
  | GRevoke id p => with_store s (revoke (store s) id p).2
  | GAuthorize q c f ids now => with_store s (authorize (store s) q c f ids now).2
  | GMarkExecuting ids p =>
      let s' := with_store s (mark_executing (store s) ids p).2 in
      match reserve_grants (store s) ids with
      | (Ok _, _) => with_uses s' ids
      | (Err _, _) => s'
      end
  | GConsume id c f q now p =>
      let s' := with_store s (consume (store s) id c f q now p).2 in
      match consume (store s) id c f q now (Ok tt) with
      | (Ok _, _) => with_uses s' [id]
      | (Err _, _) => s'
      end
  | GFinish ids st p => with_store s (finish (store s) ids st p).2
  | GList now => with_store s (list_grants (store s) now).2
  | GClear p => with_store s (clear (store s) p).2
  end.

(** What callers guarantee: a new grant has a fresh id, and [finish] is called
    with the outcome of an action. *)
Definition op_allowed (s : Sys) (op : GOp) : Prop :=
  match op with
  | GRequest _ _ id _ _ => id ∉ issued s
  | GFinish _ st _ => st = Succeeded ∨ st = Failed ∨ st = Unknown
  | _ => True
  end.

Inductive reachable : Sys → Prop :=
  | reach_init : reachable sys_init
  | reach_step s op : reachable s → op_allowed s op → reachable (g_step s op).

(** ** Lemmas *)

Definition count_id (id : str) (l : list str) : Z :=
  len (List.filter (fun x => bool_decide (x = id)) l).

(** The uses the user's approvals granted to [id]. *)
Fixpoint granted (id : str) (aps : list Approval) : Z :=
  match aps with
  | [] => 0
  | a :: aps => (if bool_decide (ap_id a = id) then (approval_quota (ap_option a)).2 else 0)
                + granted id aps
  end.

Lemma count_id_app id l k : count_id id (l ++ k) = count_id id l + count_id id k.
Proof. unfold count_id. by rewrite List.filter_app, len_app. Qed.

Lemma count_id_nonneg id l : 0 <= count_id id l.
Proof. apply len_nonneg. Qed.

Lemma count_id_nodup id l : NoDup l → count_id id l = if bool_decide (id ∈ l) then 1 else 0.
Proof.
  unfold count_id. induction l as [|x l IH]; [done|]. rewrite NoDup_cons. intros [Hx Hl].
  cbn [List.filter]. destruct (decide (x = id)) as [->|Hne].
  - rewrite (bool_decide_true (id = id)), len_cons, IH by done.
    rewrite bool_decide_false, bool_decide_true by set_solver. done.
  - rewrite (bool_decide_false (x = id)), IH by done. apply f_equal2 with (f := fun b c => if b : bool then c else 0); [|done].
    apply bool_decide_ext. set_solver.
Qed.

(** The per-grant invariant, relative to the history. *)
Definition grant_ok (iss : list str) (aps : list Approval) (us : list str) (g : AgentGrant) : Prop :=
  g_request_id g = g_id g ∧ g_id g ∈ iss ∧ 0 <= g_remaining_uses g ∧
  count_id (g_id g) us + g_remaining_uses g <= granted (g_id g) aps ∧
  (g_status g = Pending → g_remaining_uses g = 0 ∧ g_id g ∉ map ap_id aps).

Definition approval_ok (a : Approval) : Prop :=
  ap_option a ∈ allowed_approval_options (ap_capability a) (ap_non_idempotent a).

Record sys_inv (s : Sys) : Prop := {
  si_ids : NoDup (map g_id (store s));
  si_grants : Forall (grant_ok (issued s) (approvals s) (uses s)) (store s);
  si_waiters : Forall (fun w => g_request_id w = g_id w ∧ g_id w ∈ issued s ∧
                                g_remaining_uses w = 0) (waiters s);
  si_uses id : count_id id (uses s) <= granted id (approvals s);
  si_approvals : NoDup (map ap_id (approvals s)) ∧ Forall approval_ok (approvals s) ∧
                 Forall (fun a => ap_id a ∈ issued s) (approvals s)
}.

Lemma map_update_first {A B} (h : A → B) (p : A → bool) f l :
  (∀ x, h (f x) = h x) → map h (update_first p f l) = map h l.
Proof.
  intros Hf. induction l as [|x l IH]; [done|]. cbn. destruct (p x); cbn; [by rewrite Hf | by rewrite IH].
Qed.

Lemma update_first_Forall {A} (P : A → Prop) (p : A → bool) f l :
  Forall P l → (∀ x, x ∈ l → p x = true → P x → P (f x)) → Forall P (update_first p f l).
Proof.
  intros Hl Hf. induction l as [|x l IH]; [done|]. apply List.Forall_cons_iff in Hl as [Hx Hl].
  cbn. destruct (p x) eqn:Hp; constructor; try done.
  - apply Hf; [set_solver | done..].
  - apply IH; [done|]. intros y Hy. apply Hf. set_solver.
Qed.

(** A change of status and remaining uses that keeps [grant_ok]. *)
Lemma grant_ok_status iss aps us g st n :
  grant_ok iss aps us g → 0 <= n <= g_remaining_uses g → (st = Pending → g_status g = Pending) →
  grant_ok iss aps us (set_status g st n).
Proof.
  intros (H1 & H2 & H3 & H4 & H5) Hn Hst. unfold grant_ok. cbn. split_and!; [done|done|lia|lia|].
  intros Hp. destruct (H5 (Hst Hp)) as [? ?]. split; [lia | done].
Qed.

(** More uses of other ids, or one covered by a smaller remainder, keep it too. *)
Lemma grant_ok_issue iss id aps us g : grant_ok iss aps us g → grant_ok (id :: iss) aps us g.
Proof. intros (H1 & H2 & H3 & H4 & H5). unfold grant_ok. set_solver. Qed.

Lemma refresh_ids now gs : map g_id (refresh_expired now gs) = map g_id gs.
Proof.
  unfold refresh_expired. rewrite map_map. apply map_ext. intros g. by destruct (_ && _).
Qed.

Lemma refresh_ok now gs iss aps us :
  Forall (grant_ok iss aps us) gs → Forall (grant_ok iss aps us) (refresh_expired now gs).
Proof.
  intros H. unfold refresh_expired. apply Forall_fmap. eapply Forall_impl; [done|]. intros g Hg.
  cbn. destruct (_ && _); [|done]. apply grant_ok_status; [done| |done].
  destruct Hg as (_ & _ & ? & _). lia.
Qed.

Lemma inv_with_store s gs :
  sys_inv s → NoDup (map g_id gs) → Forall (grant_ok (issued s) (approvals s) (uses s)) gs →
  sys_inv (with_store s gs).
Proof. intros [? ? ? ? ?] ? ?. by split. Qed.

Lemma inv_refresh s now : sys_inv s → sys_inv (with_store s (refresh_expired now (store s))).
Proof.
  intros Hs. apply inv_with_store; [done | | apply refresh_ok, Hs]. rewrite refresh_ids. apply Hs.
Qed.

Lemma drop_map {A B} (f : A → B) n l : map f (drop n l) = drop n (map f l).
Proof. revert l. induction n as [|n IH]; intros [|x l]; cbn; [done..|]. apply IH. Qed.

Lemma inv_request s r q id now p :
  sys_inv s → id ∉ issued s → sys_inv (g_step s (GRequest r q id now p)).
Proof.
  intros Hs Hid.
  assert (∀ gs, NoDup (map g_id gs) → Forall (grant_ok (issued s) (approvals s) (uses s)) gs →
    sys_inv {| store := gs; waiters := waiters s; issued := id :: issued s;
               approvals := approvals s; uses := uses s |}) as Hkeep.
  { intros gs Hnd Hok. destruct Hs as [_ _ Hw Hu (Ha1 & Ha2 & Ha3)]. split; cbn; try done.
    - eapply Forall_impl; [done|]. intros. by apply grant_ok_issue.
    - eapply Forall_impl; [done|]. set_solver.
    - split_and!; [done..|]. eapply Forall_impl; [done|]. set_solver. }
  cbn [g_step with_store store]. unfold request.
  destruct (rbind _ _); cbn [snd]; [|by apply Hkeep; apply Hs].
  pose proof (refresh_ids now (store s)) as Hids.
  pose proof (refresh_ok now _ _ _ _ (si_grants _ Hs)) as Hok.
  assert (NoDup (map g_id (refresh_expired now (store s)))) as Hnd by (rewrite Hids; apply Hs).
  set (gs := refresh_expired now (store s)) in *.
  destruct (find_first _ (rev gs)); cbn [snd]; [by apply Hkeep|].
  destruct (find_first _ (rev gs)); cbn [snd]; [by apply Hkeep|].
  assert (sys_inv {| store := trim_grants gs ++ [new_grant r q id now]; waiters := waiters s;
    issued := id :: issued s; approvals := approvals s; uses := uses s |}) as Hnew.
  { assert (∃ n, trim_grants gs = drop n gs) as [n ->].
    { unfold trim_grants. case_match; [by exists 0%nat | eauto]. }
    pose proof (Forall_drop _ n _ Hok) as Hokn.
    destruct (Hkeep (drop n gs)) as [K1 K2 K3 K4 K5].
    { rewrite drop_map. eapply sublist_NoDup; [done | apply sublist_drop]. }
    { done. }
    cbn [store waiters issued approvals uses] in *. split; cbn; try done.
    - rewrite map_app. apply NoDup_app. split_and!; [done| |apply NoDup_singleton].
      intros x Hx Hin. cbn in Hin. apply list_elem_of_singleton in Hin as ->.
      apply list_elem_of_fmap in Hx as (g & -> & Hg). rewrite Forall_forall in Hokn.
      apply Hokn in Hg as (_ & Hg & _). done.
    - apply Forall_app. split; [done|]. constructor; [|done]. unfold grant_ok. cbn.
      pose proof (K4 id). split_and!; [done|set_solver|lia|lia|]. intros _. split; [done|].
      intros Hin. destruct Hs as [_ _ _ _ (_ & _ & Ha3)]. rewrite Forall_forall in Ha3.
      apply list_elem_of_fmap in Hin as (ap & -> & Ha). by apply Hid, Ha3. }
  destruct p; exact Hnew.
Qed.

Lemma find_first_elem {A} (p : A → bool) l x : find_first p l = Some x → x ∈ l ∧ p x = true.
Proof. intros H. apply find_first_Some in H as (l1 & l2 & -> & Hx & _). set_solver. Qed.

(** An update of the first match by a function that keeps ids and [grant_ok]. *)
Lemma inv_update s p f :
  sys_inv s → (∀ g, g_id (f g) = g_id g) →
  (∀ g, grant_ok (issued s) (approvals s) (uses s) g → grant_ok (issued s) (approvals s) (uses s) (f g)) →
  sys_inv (with_store s (update_first p f (store s))).
Proof.
  intros Hs Hid Hf. apply inv_with_store; [done| |].
  - rewrite map_update_first by done. apply Hs.
  - apply update_first_Forall; [apply Hs|]. auto.
Qed.

Lemma grant_ok_remaining iss aps us g : grant_ok iss aps us g → 0 <= g_remaining_uses g.
Proof. by intros (_ & _ & ? & _). Qed.

Lemma inv_deadline s i : sys_inv s → sys_inv (g_step s (GDeadline i)).
Proof.
  intros Hs. cbn [g_step]. destruct (waiters s !! i) as [w|] eqn:Hw; [|done].
  pose proof (si_waiters _ Hs) as Hws. rewrite Forall_forall in Hws.
  destruct (Hws w) as (Hr & Hi & H0); [by apply list_elem_of_lookup_2 with i|].
  assert (sys_inv (with_store s (wait_deadline (store s) w).2)) as Hs'.
  { unfold wait_deadline, replace_grant. cbn [snd].
    apply inv_with_store; [done| |].
    - assert (∀ gs : list AgentGrant, map g_id (update_first (by_id (g_id w))
        (fun _ => set_status w Expired (g_remaining_uses w)) gs) = map g_id gs) as He.
      { intros gs. induction gs as [|g gs IH]; [done|]. cbn. unfold by_id at 1.
        destruct (decide (g_id g = g_id w)) as [He|He].
        - rewrite bool_decide_true by done. cbn. by rewrite He.
        - rewrite bool_decide_false by done. cbn. by rewrite IH. }
      rewrite He. apply Hs.
    - apply update_first_Forall; [apply Hs|]. intros g Hg Hp (_ & _ & _ & H4 & _).
      unfold by_id in Hp. breflect. unfold grant_ok. cbn. pose proof (si_uses _ Hs (g_id w)).
      split_and!; [done|done|lia|lia|done]. }
  destruct Hs' as [K1 K2 K3 K4 K5]. split; cbn in *; try done. by apply Forall_delete.
Qed.

Lemma inv_wait s id : sys_inv s → sys_inv (g_step s (GWait id)).
Proof.
  intros Hs. cbn [g_step]. destruct (find_first _ _) as [g|] eqn:Hf; [|done].
  destruct (decide (g_status g = Pending)) as [Hp|Hp]; [|by rewrite bool_decide_false].
  rewrite bool_decide_true by done. apply find_first_elem in Hf as [Hin _].
  pose proof (si_grants _ Hs) as Hg. rewrite Forall_forall in Hg.
  destruct (Hg g Hin) as (H1 & H2 & _ & _ & H5). destruct (H5 Hp) as [H0 _].
  destruct Hs. split; cbn; try done. by constructor.
Qed.

Lemma inv_notified s i : sys_inv s → sys_inv (g_step s (GNotified i)).
Proof.
  intros Hs. cbn [g_step]. destruct (waiters s !! i) as [w|] eqn:Hw; [|done].
  unfold wait_notified. destruct (find_first _ _) as [g|] eqn:Hf.
  - apply find_first_elem in Hf as [Hin _].
    pose proof (si_grants _ Hs) as Hg. rewrite Forall_forall in Hg.
    destruct (Hg g Hin) as (H1 & H2 & _ & _ & H5). destruct Hs.
    destruct (decide (g_status g = Pending)) as [Hp|Hp].
    + rewrite bool_decide_true by done. destruct (H5 Hp) as [H0 _].
      split; cbn; try done. by apply Forall_insert.
    + rewrite bool_decide_false by done. split; cbn; try done. by apply Forall_delete.
  - destruct Hs. split; cbn; try done. by apply Forall_delete.
Qed.

(** Approving: the only operation that grants uses. *)
Lemma approve_cases gs rid o now p :
  (∃ g, find_first (by_request_id rid) gs = Some g ∧ g_status g = Pending ∧
     o ∈ allowed_approval_options (g_capability g) (g_non_idempotent g) ∧ now < g_expires_at g ∧
     (approve gs rid o now (Ok tt)).1 = Ok (approved_grant g o now) ∧
     (approve gs rid o now p).2 =
       update_first (by_request_id rid) (fun g => approved_grant g o now) gs) ∨
  ((∃ e, (approve gs rid o now (Ok tt)).1 = Err e) ∧
   ((approve gs rid o now p).2 = gs ∨
    (approve gs rid o now p).2 =
      update_first (by_request_id rid) (fun g => set_status g Expired (g_remaining_uses g)) gs)).
Proof.
  unfold approve. destruct (find_first _ gs) as [g|] eqn:Hf; [|right; eauto].
  destruct (negb (bool_decide (g_status g = Pending))) eqn:H1; [right; eauto|].
  destruct (g_expires_at g <=? now) eqn:H2; [right; eauto|].
  destruct (negb (bool_decide (o ∈ g_approval_options g))); [right; eauto|].
  destruct (negb (bool_decide (o ∈ allowed_approval_options _ _))) eqn:H3; [right; eauto|].
  breflect. left. exists g. done.
Qed.

Lemma quota_nonneg o : 1 <= (approval_quota o).2.
Proof. by destruct o. Qed.

Lemma granted_nonneg id aps : 0 <= granted id aps.
Proof.
  induction aps as [|a aps IH]; cbn; [done|]. pose proof (quota_nonneg (ap_option a)).
  destruct (bool_decide _); lia.
Qed.

Lemma granted_fresh id aps : id ∉ map ap_id aps → granted id aps = 0.
Proof.
  induction aps as [|a aps IH]; cbn; [done|]. intros H. rewrite bool_decide_false by set_solver.
  rewrite IH by set_solver. done.
Qed.

Lemma unique_id (gs : list AgentGrant) g g' : NoDup (map g_id gs) → g ∈ gs → g' ∈ gs → g_id g = g_id g' → g = g'.
Proof.
  intros Hnd Hg Hg' He. apply list_elem_of_lookup_1 in Hg as [i Hi], Hg' as [j Hj].
  assert (i = j) as ->; [|congruence].
  eapply NoDup_lookup; [exact Hnd| |].
  - rewrite list_lookup_fmap, Hi. reflexivity.
  - rewrite list_lookup_fmap, Hj. cbn. by rewrite He.
Qed.

Lemma approved_fields g o now :
  g_id (approved_grant g o now) = g_id g ∧ g_request_id (approved_grant g o now) = g_request_id g ∧
  g_capability (approved_grant g o now) = g_capability g ∧
  g_non_idempotent (approved_grant g o now) = g_non_idempotent g ∧
  g_status (approved_grant g o now) = Approved ∧
  g_remaining_uses (approved_grant g o now) = (approval_quota o).2.
Proof. unfold approved_grant. by destruct (approval_quota o). Qed.

(** With unique ids and [g_request_id = g_id], the update of a request touches its
    grant only. *)
Lemma update_request_elem rid f (g x : AgentGrant) l :
  NoDup (map g_id l) → Forall (fun y => g_request_id y = g_id y) l → g ∈ l → by_request_id rid g = true →
  x ∈ update_first (by_request_id rid) f l → (x ∈ l ∧ g_id x ≠ g_id g) ∨ x = f g.
Proof.
  induction l as [|y l IH]; intros Hnd Hr Hg Hrid; [set_solver|].
  cbn [map] in Hnd. apply NoDup_cons in Hnd as [Hy Hnd]. apply Forall_cons in Hr as [Hry Hr].
  assert (∀ z, z ∈ l → g_id z ≠ g_id y) as Hne.
  { intros z Hz He. apply Hy. rewrite <- He. by apply (list_elem_of_fmap_2 g_id). }
  cbn [update_first]. destruct (by_request_id rid y) eqn:Hyr.
  - assert (y = g) as ->.
    { apply elem_of_cons in Hg as [->|Hg]; [done|]. rewrite Forall_forall in Hr.
      pose proof (Hr g Hg). unfold by_request_id in *. breflect. edestruct Hne; [done|congruence]. }
    intros [->|Hx]%elem_of_cons; [by right|]. left. split; [set_solver|]. by apply Hne.
  - apply elem_of_cons in Hg as [->|Hg]; [congruence|].
    intros [->|Hx]%elem_of_cons; [|destruct (IH Hnd Hr Hg Hrid Hx) as [[? ?]|?]; [left; set_solver|by right]].
    left. split; [set_solver|]. intros He. by destruct (Hne g Hg).
Qed.

Lemma grant_ok_other_approval iss aps us a g :
  grant_ok iss aps us g → g_id g ≠ ap_id a → grant_ok iss (a :: aps) us g.
Proof.
  intros (H1 & H2 & H3 & H4 & H5) Hne. unfold grant_ok. cbn [granted map]. rewrite bool_decide_false by done.
  split_and!; [done..|lia|]. intros Hp. destruct (H5 Hp). set_solver.
Qed.

Lemma approved_ok iss aps us a g o now :
  grant_ok iss aps us g → g_status g = Pending → ap_id a = g_id g → ap_option a = o →
  grant_ok iss (a :: aps) us (approved_grant g o now).
Proof.
  intros (H1 & H2 & H3 & H4 & H5) Hp Ha Ho. destruct (H5 Hp) as [H0 Hnot].
  destruct (approved_fields g o now) as (E1 & E2 & _ & _ & E5 & E6).
  unfold grant_ok. rewrite E1, E2, E5, E6. cbn [granted]. rewrite Ho, bool_decide_true by done.
  pose proof (quota_nonneg o). rewrite (granted_fresh (g_id g)) in * by done. split_and!; [done|done|lia|lia|done].
Qed.

Lemma inv_approve s rid o now p : sys_inv s → sys_inv (g_step s (GApprove rid o now p)).
Proof.
  intros Hs. cbn [g_step]. pose proof (approve_cases (store s) rid o now p) as Hc.
  destruct (approve (store s) rid o now (Ok tt)) as [res gs0]. cbn [fst] in Hc.
  destruct Hc as [(g & Hf & Hp & Ho & _ & -> & ->)|([e ->] & [-> | ->])].
  - apply find_first_elem in Hf as [Hin Hrid].
    destruct (approved_fields g o now) as (Hid & _ & Hcap & Hni & _ & _). rewrite Hid, Hcap, Hni.
    destruct Hs as [Hnd Hgs Hw Hu (Ha1 & Ha2 & Ha3)]. pose proof Hgs as Hg. rewrite Forall_forall in Hg.
    destruct (Hg g Hin) as (_ & Hiss & _ & _ & Hpend). destruct (Hpend Hp) as [_ Hnot]. split; cbn.
    + rewrite map_update_first; [done|]. intros x. apply (approved_fields x o now).
    + apply Forall_forall. intros x Hx. eapply update_request_elem in Hx as [[Hxs Hne]| ->]; [| |done| |done|done].
      * apply grant_ok_other_approval; [by apply Hg|done].
      * apply approved_ok; [by apply Hg|done..].
      * eapply Forall_impl; [done|]. by intros y [? _].
    + done.
    + intros id. specialize (Hu id). pose proof (quota_nonneg o). destruct (bool_decide _); lia.
    + split_and!; [by apply NoDup_cons|by constructor|by constructor].
  - apply inv_with_store; [done|apply Hs|apply Hs].
  - apply inv_update; [done|done|]. intros g Hg.
    pose proof (grant_ok_remaining _ _ _ _ Hg). apply grant_ok_status; [done|lia|done].
Qed.

Lemma inv_deny s rid now p : sys_inv s → sys_inv (g_step s (GDeny rid now p)).
Proof.
  intros Hs. cbn [g_step]. unfold deny, finish_pending.
  destruct (find_first _ _) as [g|]; cbn [snd]; [|apply inv_with_store; [done|apply Hs|apply Hs]].
  apply inv_update; [done| |].
  - intros x. unfold finish_pending_grant. by repeat case_match.
  - intros x Hx. unfold finish_pending_grant. pose proof (grant_ok_remaining _ _ _ _ Hx).
    case_match; [|done]. rewrite bool_decide_true by done.
    apply (grant_ok_status _ _ _ x Denied (g_remaining_uses x)) in Hx; [|lia|done]. exact Hx.
Qed.

Lemma inv_revoke s id p : sys_inv s → sys_inv (g_step s (GRevoke id p)).
Proof.
  intros Hs. cbn [g_step]. unfold revoke.
  destruct (find_first _ _) as [g|]; cbn [snd]; [|apply inv_with_store; [done|apply Hs|apply Hs]].
  apply inv_update; [done| |].
  - intros x. unfold revoked_grant. by case_match.
  - intros x Hx. unfold revoked_grant. pose proof (grant_ok_remaining _ _ _ _ Hx).
    case_match; [|done]. apply grant_ok_status; [done|lia|done].
Qed.

Lemma inv_finish s ids st p :
  sys_inv s → st = Succeeded ∨ st = Failed ∨ st = Unknown → sys_inv (g_step s (GFinish ids st p)).
Proof.
  intros Hs Hst. cbn [g_step finish snd]. apply inv_with_store; [done| |].
  - rewrite map_map. rewrite (map_ext _ g_id); [apply Hs|]. intros g. by case_match.
  - apply Forall_fmap. eapply Forall_impl; [apply Hs|]. intros g Hg. cbn.
    case_match eqn:Hc; [|done]. breflect. pose proof (grant_ok_remaining _ _ _ _ Hg).
    apply grant_ok_status; [done|lia|]. intros Hp. unfold completed_grant_status in Hp.
    destruct Hst as [->|[->| ->]]; try done; by destruct (0 <? _).
Qed.

(** *** Reserving uses *)

Lemma position_Some id gs i :
  position id gs = Some i → ∃ g, gs !! i = Some g ∧ g_id g = id.
Proof.
  revert i. induction gs as [|g gs IH]; intros i; cbn [position]; [done|].
  unfold by_id at 1. destruct (decide (g_id g = id)) as [He|He].
  - rewrite bool_decide_true by done. intros [= <-]. by exists g.
  - rewrite bool_decide_false by done. destruct (position id gs) as [j|]; [|done].
    intros [= <-]. exact (IH j eq_refl).
Qed.

Lemma reserve_indexes_spec gs ids acc idx :
  reserve_indexes gs ids acc = Ok idx → NoDup acc →
  ∃ new, idx = acc ++ new ∧ NoDup idx ∧
    Forall2 (fun id i => position id gs = Some i ∧ ∃ g, gs !! i = Some g ∧ g_id g = id ∧
               active_status (g_status g) = true ∧ g_remaining_uses g ≠ 0) ids new.
Proof.
  revert acc. induction ids as [|id ids IH]; intros acc; cbn [reserve_indexes].
  { intros [= <-] Hn. exists []. rewrite app_nil_r. done. }
  destruct (position id gs) as [i|] eqn:Hp; [|done].
  destruct (decide (i ∈ acc)) as [Hi|Hi]; [by rewrite bool_decide_true|].
  rewrite bool_decide_false by done. destruct (position_Some _ _ _ Hp) as (g & Hg & Hid).
  rewrite Hg. destruct (negb (active_status (g_status g)) || _) eqn:Hc; [done|]. breflect.
  intros Hr Hn. apply IH in Hr as (new & -> & Hnd & Hf).
  - exists (i :: new). rewrite <- app_assoc. split; [done|]. rewrite <- app_assoc in Hnd.
    split; [done|]. constructor; [|done]. split; [done|]. exists g. done.
  - apply NoDup_app. split_and!; [done| |apply NoDup_singleton]. set_solver.
Qed.

Definition reserved (g : AgentGrant) : AgentGrant :=
  set_status g Executing (sat_sub (g_remaining_uses g) 1).

Lemma reserve_one_lookup gs i j :
  reserve_one gs i !! j = (fun g => if decide (i = j) then reserved g else g) <$> gs !! j.
Proof.
  unfold reserve_one. destruct (gs !! i) as [g|] eqn:Hg.
  - destruct (decide (i = j)) as [<-|Hne].
    + rewrite list_lookup_insert_eq by (by eapply lookup_lt_Some). by rewrite Hg.
    + rewrite list_lookup_insert_ne by done. by destruct (gs !! j).
  - destruct (decide (i = j)) as [<-|Hne]; [by rewrite Hg|]. by destruct (gs !! j).
Qed.

Lemma reserve_all_lookup idx gs j :
  NoDup idx →
  fold_left reserve_one idx gs !! j = (fun g => if decide (j ∈ idx) then reserved g else g) <$> gs !! j.
Proof.
  revert gs. induction idx as [|i idx IH]; intros gs; cbn [fold_left].
  - intros _. destruct (gs !! j) eqn:E; cbn; [|done]. rewrite decide_False; [done|set_solver].
  - rewrite NoDup_cons. intros [Hi Hn]. rewrite IH by done. rewrite reserve_one_lookup.
    destruct (gs !! j) as [g|]; [|done]. cbn. f_equal.
    destruct (decide (i = j)) as [->|Hne].
    + rewrite (decide_False (P := j ∈ idx)) by done. by rewrite decide_True by set_solver.
    + destruct (decide (j ∈ idx)); [by rewrite decide_True by set_solver|].
      by rewrite decide_False by set_solver.
Qed.

Lemma reserve_all_ids idx gs : map g_id (fold_left reserve_one idx gs) = map g_id gs.
Proof.
  revert gs. induction idx as [|i idx IH]; intros gs; [done|]. cbn [fold_left]. rewrite IH.
  unfold reserve_one. destruct (gs !! i) as [g|] eqn:Hg; [|done].
  change (map g_id (<[i := reserved g]> gs)) with (g_id <$> <[i := reserved g]> gs).
  rewrite list_fmap_insert. apply list_insert_id. rewrite list_lookup_fmap, Hg. done.
Qed.

Lemma Forall2_elem_l {A B} (R : A → B → Prop) l k x :
  Forall2 R l k → x ∈ l → ∃ y, y ∈ k ∧ R x y.
Proof. intros H Hx. apply list_elem_of_lookup_1 in Hx as [i Hi].
  destruct (Forall2_lookup_l _ _ _ _ _ H Hi) as (y & Hy & HR).
  exists y. split; [by eapply list_elem_of_lookup_2 | done]. Qed.

Lemma Forall2_elem_r {A B} (R : A → B → Prop) l k y :
  Forall2 R l k → y ∈ k → ∃ x, x ∈ l ∧ R x y.
Proof. intros H Hy. apply list_elem_of_lookup_1 in Hy as [i Hi].
  destruct (Forall2_lookup_r _ _ _ _ _ H Hi) as (x & Hx & HR).
  exists x. split; [by eapply list_elem_of_lookup_2 | done]. Qed.

Lemma reserve_nodup gs ids idx :
  Forall2 (fun id i => position id gs = Some i ∧ ∃ g, gs !! i = Some g ∧ g_id g = id ∧
     active_status (g_status g) = true ∧ g_remaining_uses g ≠ 0) ids idx → NoDup idx → NoDup ids.
Proof.
  induction 1 as [|id i ids idx [Hp _] Hf IH]; [constructor|]. rewrite NoDup_cons.
  intros [Hi Hn]. apply NoDup_cons. split; [|by apply IH]. intros Hin. apply Hi.
  destruct (Forall2_elem_l _ _ _ _ Hf Hin) as (j & Hj & Hpj & _). congruence.
Qed.

Lemma inv_mark s ids p : sys_inv s → sys_inv (g_step s (GMarkExecuting ids p)).
Proof.
  intros Hs. cbn [g_step]. unfold mark_executing, reserve_grants.
  destruct (reserve_indexes (store s) ids []) as [idx|e] eqn:Hr; cbn [snd].
  2: { apply inv_with_store; [done|apply Hs|apply Hs]. }
  apply reserve_indexes_spec in Hr as (new & -> & Hnd & Hf); [|constructor]. cbn [app] in *.
  pose proof (reserve_nodup _ _ _ Hf Hnd) as Hids.
  pose proof (si_grants _ Hs) as Hg. rewrite Forall_forall in Hg.
  destruct Hs as [Hn _ Hw Hu Ha]. split; cbn [with_store with_uses store waiters issued approvals uses].
  - by rewrite reserve_all_ids.
  - apply Forall_forall. intros x Hx. apply list_elem_of_lookup_1 in Hx as [j Hj].
    rewrite reserve_all_lookup in Hj by done. destruct (store s !! j) as [g|] eqn:Hsj; [|done].
    cbn in Hj. injection Hj as <-. pose proof (list_elem_of_lookup_2 _ _ _ Hsj) as Hin.
    destruct (Hg g Hin) as (G1 & G2 & G3 & G4 & G5).
    destruct (decide (j ∈ new)) as [Hjn|Hjn].
    + destruct (Forall2_elem_r _ _ _ _ Hf Hjn) as (id & Hid & Hpos & g' & Hg' & Hgid & _ & Hrem).
      assert (g' = g) as -> by congruence. unfold grant_ok, reserved, sat_sub. cbn.
      rewrite count_id_app, (count_id_nodup _ ids), bool_decide_true by (done || by rewrite Hgid).
      split_and!; [done|done|lia|lia|done].
    + unfold grant_ok. rewrite count_id_app, (count_id_nodup _ ids) by done.
      rewrite bool_decide_false; [split_and!; [done|done|done|lia|done]|].
      intros Hid. destruct (Forall2_elem_l _ _ _ _ Hf Hid) as (i & Hi & _ & g' & Hg' & Hgid & _).
      assert (i = j) as ->; [|done]. eapply NoDup_lookup; [exact Hn| |].
      * rewrite list_lookup_fmap, Hg'. reflexivity.
      * rewrite list_lookup_fmap, Hsj. cbn. by rewrite Hgid.
  - done.
  - intros id. rewrite count_id_app, (count_id_nodup _ ids) by done. specialize (Hu id).
    destruct (decide (id ∈ ids)) as [Hid|Hid]; [|by rewrite bool_decide_false by done; lia].
    rewrite bool_decide_true by done.
    destruct (Forall2_elem_l _ _ _ _ Hf Hid) as (i & Hi & _ & g & Hgi & <- & _ & Hrem).
    destruct (Hg g) as (_ & _ & G3 & G4 & _); [by eapply list_elem_of_lookup_2|]. lia.
  - done.
Qed.

(** *** Consuming a use *)

Lemma consume_cases gs id c f q now p :
  let gs' := refresh_expired now gs in
  (∃ g, find_first (by_id id) gs' = Some g ∧ g_status g = Approved ∧ g_remaining_uses g ≠ 0 ∧
     g_agent_instance_id g = agent_instance_id q ∧ g_client_name g = client_name q ∧
     g_client_version g = client_version q ∧ g_capability g = c ∧ g_action_fingerprint g = f ∧
     (consume gs id c f q now (Ok tt)).1 = Ok (consumed_grant g) ∧
     (consume gs id c f q now p).2 = update_first (by_id id) consumed_grant gs') ∨
  ((∃ e, (consume gs id c f q now (Ok tt)).1 = Err e) ∧ (consume gs id c f q now p).2 = gs').
Proof.
  cbv zeta. unfold consume. destruct (find_first _ _) as [g|] eqn:Hf; [|right; eauto].
  destruct (_ || _) eqn:H1; [right; eauto|].
  destruct (_ || _) eqn:H2 in |- *; [right; eauto|].
  left. exists g. breflect. done.
Qed.

Lemma consumed_ok iss aps us g :
  grant_ok iss aps us g → g_remaining_uses g ≠ 0 → g_status g = Approved →
  grant_ok iss aps (us ++ [g_id g]) (consumed_grant g).
Proof.
  intros (H1 & H2 & H3 & H4 & H5) Hr Hs. unfold grant_ok, consumed_grant, sat_sub. cbn.
  rewrite count_id_app. assert (count_id (g_id g) [g_id g] = 1) as ->.
  { unfold count_id. cbn. by rewrite bool_decide_true. }
  split_and!; [done|done|lia|lia|]. rewrite Hs. by destruct (_ =? 0).
Qed.

Lemma grant_ok_other_use iss aps us id g :
  grant_ok iss aps us g → g_id g ≠ id → grant_ok iss aps (us ++ [id]) g.
Proof.
  intros (H1 & H2 & H3 & H4 & H5) Hne. unfold grant_ok. rewrite count_id_app.
  assert (count_id (g_id g) [id] = 0) as ->.
  { unfold count_id. cbn. by rewrite bool_decide_false by congruence. }
  split_and!; [done|done|done|lia|done].
Qed.

Lemma inv_consume s id c f q now p : sys_inv s → sys_inv (g_step s (GConsume id c f q now p)).
Proof.
  intros Hs. cbn [g_step]. pose proof (inv_refresh s now Hs) as Hs'.
  pose proof (consume_cases (store s) id c f q now p) as Hc. cbv zeta in Hc.
  destruct (consume (store s) id c f q now (Ok tt)) as [res gs0]. cbn [fst] in Hc.
  destruct Hc as [(g & Hf & Hst & Hrem & _ & _ & _ & _ & _ & -> & ->)|([e ->] & ->)]; [|exact Hs'].
  apply find_first_Some in Hf as (l1 & l2 & Hl & Hp & Hl1). unfold by_id in Hp. breflect.
  destruct Hs' as [Hn Hok Hw Hu Ha]. cbn [with_store store waiters issued approvals uses] in *.
  set (gs := refresh_expired now (store s)) in *.
  assert (update_first (by_id id) consumed_grant gs = l1 ++ consumed_grant g :: l2) as Hup.
  { rewrite Hl. clear -Hl1 Hp. induction l1 as [|x l1 IH]; cbn.
    - unfold by_id. by rewrite bool_decide_true.
    - apply List.Forall_cons_iff in Hl1 as [Hx Hl1]. rewrite Hx. by rewrite IH. }
  rewrite Hl in Hn, Hok. rewrite map_app in Hn. cbn [map] in Hn.
  apply Forall_app in Hok as [Hok1 Hok2]. apply List.Forall_cons_iff in Hok2 as [Hokg Hok2].
  apply NoDup_app in Hn as (Hn1 & Hn12 & Hn2). apply NoDup_cons in Hn2 as [Hng Hn2].
  split; cbn [with_store with_uses store waiters issued approvals uses]; [| |done| |done].
  - rewrite Hup, map_app. cbn. apply NoDup_app. split_and!; [done|set_solver|].
    apply NoDup_cons. done.
  - rewrite Hup. subst id. apply Forall_app. split; [|constructor].
    + apply Forall_forall. intros x Hx. rewrite Forall_forall in Hok1.
      apply grant_ok_other_use; [by apply Hok1|]. intros He.
      apply (Hn12 (g_id x)); [by apply (list_elem_of_fmap_2 g_id)|]. set_solver.
    + by apply consumed_ok.
    + apply Forall_forall. intros x Hx. rewrite Forall_forall in Hok2.
      apply grant_ok_other_use; [by apply Hok2|]. intros He. apply Hng. rewrite <- He.
      by apply (list_elem_of_fmap_2 g_id).
  - intros i. specialize (Hu i). rewrite count_id_app.
    destruct Hokg as (_ & _ & G3 & G4 & _). unfold count_id at 2. cbn.
    destruct (decide (id = i)) as [->|Hne].
    + rewrite bool_decide_true, len_cons, len_nil by done. subst i. lia.
    + rewrite bool_decide_false, len_nil by done. lia.
Qed.

Lemma sys_inv_reachable s : reachable s → sys_inv s.
Proof.
  induction 1 as [|s op _ IH Hop].
  { split; cbn; [constructor..|done|]. split_and!; constructor. }
  destruct op; cbn [op_allowed] in Hop.
  - by apply inv_request.
  - by apply inv_wait.
  - by apply inv_notified.
  - by apply inv_deadline.
  - by apply inv_approve.
  - by apply inv_deny.
  - by apply inv_revoke.
  - by apply inv_refresh.
  - by apply inv_mark.
  - by apply inv_consume.
  - by apply inv_finish.
  - by apply inv_refresh.
  - cbn. apply inv_with_store; [done|constructor|constructor].
Qed.

Lemma granted_le_one aps id q :
  NoDup (map ap_id aps) → Forall (fun a => ap_id a = id → (approval_quota (ap_option a)).2 <= q) aps →
  0 <= q → granted id aps <= q.
Proof.
  intros Hn Hall Hq. induction aps as [|a aps IH]; cbn; [done|].
  cbn in Hn. apply NoDup_cons in Hn as [Ha Hn]. apply List.Forall_cons_iff in Hall as [Hqa Hall].
  destruct (decide (ap_id a = id)) as [He|He].
  - rewrite bool_decide_true by done. rewrite granted_fresh by (by rewrite <- He). specialize (Hqa He). lia.
  - rewrite bool_decide_false by done. specialize (IH Hn Hall). lia.
Qed.

(** *** Dead grants stay dead *)

(** [id] is not live: no grant with that id is pending, approved or executing. *)
Definition dead (s : Sys) (id : str) : Prop :=
  id ∈ issued s ∧ Forall (fun g => g_id g = id → live_status (g_status g) = false) (store s).

Lemma dead_map (f : AgentGrant → AgentGrant) gs id :
  (∀ g, g_id (f g) = g_id g) →
  (∀ g, live_status (g_status g) = false → live_status (g_status (f g)) = false) →
  Forall (fun g => g_id g = id → live_status (g_status g) = false) gs →
  Forall (fun g => g_id g = id → live_status (g_status g) = false) (map f gs).
Proof.
  intros Hid Hf H. apply Forall_fmap. eapply Forall_impl; [done|]. intros g Hg. cbn.
  rewrite Hid. intros He. by apply Hf, Hg.
Qed.

Lemma dead_update (p : AgentGrant → bool) (f : AgentGrant → AgentGrant) gs id :
  (∀ g, find_first p gs = Some g →
     g_id (f g) = g_id g ∧ (live_status (g_status g) = false → live_status (g_status (f g)) = false)) →
  Forall (fun g => g_id g = id → live_status (g_status g) = false) gs →
  Forall (fun g => g_id g = id → live_status (g_status g) = false) (update_first p f gs).
Proof.
  intros Hf H. induction gs as [|g gs IH]; [done|].
  apply List.Forall_cons_iff in H as [Hg H]. cbn in *. destruct (p g) eqn:Hp.
  - destruct (Hf g eq_refl) as [Hid Hd]. constructor; [|done]. rewrite Hid. auto.
  - constructor; [done|]. by apply IH.
Qed.

Lemma dead_refresh now gs id :
  Forall (fun g => g_id g = id → live_status (g_status g) = false) gs →
  Forall (fun g => g_id g = id → live_status (g_status g) = false) (refresh_expired now gs).
Proof.
  apply dead_map; intros g; [by case_match|]. intros Hd. by rewrite Hd.
Qed.

Lemma dead_reserve ids gs id idx :
  reserve_indexes gs ids [] = Ok idx →
  Forall (fun g => g_id g = id → live_status (g_status g) = false) gs →
  Forall (fun g => g_id g = id → live_status (g_status g) = false) (fold_left reserve_one idx gs).
Proof.
  intros Hr H. apply reserve_indexes_spec in Hr as (new & -> & Hnd & Hf); [|constructor].
  cbn [app] in *. rewrite Forall_forall in H. apply Forall_forall. intros x Hx.
  apply list_elem_of_lookup_1 in Hx as [j Hj]. rewrite reserve_all_lookup in Hj by done.
  destruct (gs !! j) as [g|] eqn:Hg; [|done]. cbn in Hj. injection Hj as <-.
  pose proof (list_elem_of_lookup_2 _ _ _ Hg) as Hin.
  destruct (decide (j ∈ new)) as [Hjn|Hjn]; [|by apply H].
  destruct (Forall2_elem_r _ _ _ _ Hf Hjn) as (i & _ & _ & g' & Hg' & _ & Hact & _).
  assert (g' = g) as -> by congruence. cbn. intros He. specialize (H g Hin He).
  destruct (g_status g); done.
Qed.

Lemma dead_request gs r q nid now p id :
  Forall (fun g => g_id g = id → live_status (g_status g) = false) gs → id ≠ nid →
  Forall (fun g => g_id g = id → live_status (g_status g) = false) (request gs r q nid now p).2.
Proof.
  intros Hd Hne. unfold request. destruct (rbind _ _); [|done].
  pose proof (dead_refresh now _ _ Hd) as Hd'. set (gs' := refresh_expired now gs) in *.
  destruct (find_first _ (rev gs')); [done|]. destruct (find_first _ (rev gs')); [done|].
  assert (Forall (fun g => g_id g = id → live_status (g_status g) = false)
    (trim_grants gs' ++ [new_grant r q nid now])) as Hn; [|by destruct p].
  apply Forall_app. split.
  - unfold trim_grants. case_match; [done|]. by apply Forall_drop.
  - constructor; [|done]. cbn. intros He. by destruct Hne.
Qed.

Lemma dead_consume gs gid c f q now p id :
  Forall (fun g => g_id g = id → live_status (g_status g) = false) gs →
  Forall (fun g => g_id g = id → live_status (g_status g) = false) (consume gs gid c f q now p).2.
Proof.
  intros Hd. pose proof (dead_refresh now _ _ Hd) as Hd'.
  pose proof (consume_cases gs gid c f q now p) as Hc. cbv zeta in Hc.
  destruct Hc as [(g & Hf & Hst & _ & _ & _ & _ & _ & _ & _ & ->)|(_ & ->)]; [|done].
  apply dead_update; [|done]. intros g' Hg'. assert (g' = g) as -> by congruence.
  split; [done|]. by rewrite Hst.
Qed.

Lemma dead_step s op id : reachable s → op_allowed s op → dead s id → dead (g_step s op) id.
Proof.
  intros Hre Hop [Hiss Hd]. pose proof (sys_inv_reachable _ Hre) as Hs. unfold dead.
  destruct op as [r q nid now p|wid|i|i|rid o now p|rid now p|gid p|q c f ids now|ids p|gid c f q now p|ids st p|now|p];
    cbn [g_step op_allowed] in *.
  - cbn. split; [set_solver|]. apply dead_request; [done|]. by intros ->.
  - repeat case_match; done.
  - repeat case_match; done.
  - destruct (waiters s !! i) as [w|]; [|done]. split; [done|]. cbn.
    apply dead_update; [|done]. intros g Hg. apply find_first_elem in Hg as [_ Hg].
    unfold by_id in Hg. breflect. done.
  - pose proof (approve_cases (store s) rid o now p) as Hc.
    destruct (approve (store s) rid o now (Ok tt)) as [res gs0]. cbn [fst] in Hc.
    destruct Hc as [(g & Hf & Hp & _ & _ & -> & ->)|([e ->] & [-> | ->])]; cbn; (split; [done|]).
    + apply dead_update; [|done]. intros g' Hg'. assert (g' = g) as -> by congruence.
      split; [apply approved_fields|]. by rewrite Hp.
    + done.
    + apply dead_update; [|done]. intros g' _. done.
  - cbn. split; [done|]. unfold deny, finish_pending. destruct (find_first _ _) eqn:Hf; [|done].
    apply dead_update; [|done]. intros g' _. unfold finish_pending_grant. by repeat case_match.
  - cbn. split; [done|]. unfold revoke. destruct (find_first _ _) eqn:Hf; [|done].
    apply dead_update; [|done]. intros g' _. unfold revoked_grant. by case_match.
  - cbn. split; [done|]. by apply dead_refresh.
  - unfold mark_executing, reserve_grants.
    destruct (reserve_indexes (store s) ids []) as [idx|e] eqn:Hr; cbn; (split; [done|]); [|done].
    by eapply dead_reserve.
  - pose proof (dead_consume (store s) gid c f q now p id Hd).
    destruct (consume (store s) gid c f q now (Ok tt)) as [[?|?] ?]; by split.
  - cbn. split; [done|]. apply dead_map; [|..|done]; intros g; [by case_match|].
    intros Hl. case_match eqn:Hc; [|done]. breflect. rewrite H0 in Hl. done.
  - cbn. split; [done|]. by apply dead_refresh.
  - cbn. split; [done|constructor].
Qed.

Lemma dead_no_use s op id :
  reachable s → dead s id → count_id id (uses (g_step s op)) = count_id id (uses s).
Proof.
  intros Hre [Hiss Hd]. rewrite Forall_forall in Hd.
  destruct op as [| | | |rid o now p| | | |ids p|gid c f q now p| | |]; cbn [g_step]; try done;
    try (by repeat case_match).
  - unfold mark_executing, reserve_grants.
    destruct (reserve_indexes (store s) ids []) as [idx|e] eqn:Hr; [|done]. cbn.
    rewrite count_id_app. apply reserve_indexes_spec in Hr as (new & -> & Hnd & Hf); [|constructor].
    cbn [app] in *. rewrite (count_id_nodup id ids) by (by eapply reserve_nodup).
    rewrite bool_decide_false; [lia|]. intros Hin.
    destruct (Forall2_elem_l _ _ _ _ Hf Hin) as (i & _ & _ & g & Hg & Hid & Hact & _).
    specialize (Hd g (list_elem_of_lookup_2 _ _ _ Hg) Hid). by destruct (g_status g).
  - pose proof (consume_cases (store s) gid c f q now p) as Hc. cbv zeta in Hc.
    destruct (consume (store s) gid c f q now (Ok tt)) as [res gs0]. cbn [fst] in Hc.
    destruct Hc as [(g & Hf & Hst & _ & _ & _ & _ & _ & _ & -> & _)|([e ->] & _)]; [|done].
    cbn. rewrite count_id_app. unfold count_id at 2. cbn. rewrite bool_decide_false; [rewrite len_nil; lia|].
    intros ->. apply find_first_elem in Hf as [Hin Hid]. unfold by_id in Hid. breflect.
    pose proof (dead_refresh now (store s) id ltac:(by apply Forall_forall)) as Hd'.
    rewrite Forall_forall in Hd'. specialize (Hd' g Hin Hid). by rewrite Hst in Hd'.
Qed.

(** Runs of allowed operations. *)
Definition g_run (s s' : Sys) : Prop := rtc (fun s s' => ∃ op, op_allowed s op ∧ s' = g_step s op) s s'.

Lemma authorized_sound gs q c f ids id :
  authorized_grant_id gs q c f ids = Ok id →
  id ∈ ids ∧ ∃ g, find_first (by_id id) gs = Some g ∧ g_capability g = c ∧
    g_agent_instance_id g = agent_instance_id q ∧ g_client_name g = client_name q ∧
    g_client_version g = client_version q ∧ g_action_fingerprint g = f ∧
    g_remaining_uses g ≠ 0 ∧ active_status (g_status g) = true.
Proof.
  induction ids as [|i ids IH]; cbn [authorized_grant_id]; [done|].
  destruct (find_first (by_id i) gs) as [g|] eqn:Hf; [|done].
  destruct (negb (bool_decide (g_capability g = c))) eqn:Hcap.
  { intros H. apply IH in H as [? H]. split; [set_solver|done]. }
  destruct (_ || _) eqn:Hc; [done|]. intros [= <-]. breflect.
  pose proof (find_first_elem _ _ _ Hf) as [_ Hid]. unfold by_id in Hid. breflect.
  split; [set_solver|]. exists g. rewrite Hid. done.
Qed.

(** ** Properties *)

(** C1: A grant is used only as far as the user approved it.  In every reachable
    state (any interleaving of requests, waiting tasks, approvals, reservations,
    consumptions, expiry, failed writes of the JSON copy), a grant that was
    never approved was never used; an approved one was used at most as often
    as the chosen option allows (1 or 50), and at most once when its capability
    is high-risk or its action is not idempotent. *)
Theorem grant_uses_bounded s id :
  reachable s →
  (id ∉ map ap_id (approvals s) → count_id id (uses s) = 0) ∧
  (∀ a, a ∈ approvals s → ap_id a = id →
     count_id id (uses s) <= (approval_quota (ap_option a)).2 ∧
     count_id id (uses s) <= FIFTEEN_MINUTE_MAX_USES ∧
     (capability_allows_repeat_approval (ap_capability a) = false ∨ ap_non_idempotent a = true →
      count_id id (uses s) <= 1)).
Proof.
  intros Hre. pose proof (sys_inv_reachable _ Hre) as [_ _ _ Hu (Hn & Hok & _)].
  specialize (Hu id). pose proof (count_id_nonneg id (uses s)). split.
  - intros Hid. rewrite (granted_fresh id) in Hu by done. lia.
  - intros a Ha He.
    assert (granted id (approvals s) <= (approval_quota (ap_option a)).2) as Hg.
    { apply granted_le_one; [done| |pose proof (quota_nonneg (ap_option a)); lia].
      apply Forall_forall. intros b Hb Heb. assert (b = a) as ->; [|lia].
      apply list_elem_of_lookup_1 in Ha as [i Hi], Hb as [j Hj].
      assert (i = j) as ->; [|congruence]. eapply NoDup_lookup; [exact Hn| |].
      - rewrite list_lookup_fmap, Hi. reflexivity.
      - rewrite list_lookup_fmap, Hj. cbn. congruence. }
    rewrite Forall_forall in Hok. specialize (Hok a Ha). unfold approval_ok, allowed_approval_options in Hok.
    split_and!; [lia| |].
    + assert ((approval_quota (ap_option a)).2 <= FIFTEEN_MINUTE_MAX_USES) by (by destruct (ap_option a)). lia.
    + intros Hrisk. assert (ap_option a = Once) as Ho.
      { destruct Hrisk as [Hr|Hr]; rewrite Hr in Hok; cbn in Hok; rewrite ?andb_false_r in Hok;
          set_solver. }
      rewrite Ho in Hg. cbn in Hg. lia.
Qed.

(** Dead grants stay dead.  Once a grant is revoked, denied, expired, cancelled,
    finished or dropped from the store, no later operation makes it pending,
    approved or executing again, and it is never used again. *)
Theorem dead_grant_stays_dead s s' id :
  reachable s → dead s id → g_run s s' →
  dead s' id ∧ count_id id (uses s') = count_id id (uses s).
Proof.
  intros Hre Hd Hrun. unfold g_run in Hrun.
  assert (reachable s' ∧ dead s' id ∧ count_id id (uses s') = count_id id (uses s)) as H; [|tauto].
  revert Hre Hd. induction Hrun as [s|s s1 s2 (op & Hop & ->) _ IH]; intros Hre Hd; [done|].
  destruct IH as (H1 & H2 & H3); [by constructor|by apply dead_step|].
  split_and!; [done..|]. rewrite H3. by apply dead_no_use.
Qed.

(** Revoking takes effect at once: the revoked grant is dead in the resulting
    state, whatever the persistence outcome. *)
Theorem revoke_kills s id p :
  reachable s → id ∈ issued s → dead (g_step s (GRevoke id p)) id.
Proof.
  intros Hre Hiss. pose proof (sys_inv_reachable _ Hre) as Hs. split; [done|].
  cbn [g_step]. unfold revoke, with_store. cbn [store].
  destruct (find_first (by_id id) (store s)) as [g|] eqn:Hf; cbn [snd].
  - apply find_first_Some in Hf as (l1 & l2 & Hl & Hp & Hl1). pose proof (si_ids _ Hs) as Hn.
    rewrite Hl in Hn |- *. clear -Hl1 Hp Hn. unfold by_id in Hp. breflect.
    rewrite map_app in Hn. cbn in Hn. apply NoDup_app in Hn as (_ & _ & Hn2).
    apply NoDup_cons in Hn2 as [Hg _].
    induction l1 as [|x l1 IH]; cbn.
    + unfold by_id. rewrite bool_decide_true by done. constructor.
      * intros _. unfold revoked_grant. destruct (live_status (g_status g)) eqn:E; [done|exact E].
      * apply Forall_forall. intros y Hy He. exfalso. apply Hg. rewrite Hp, <- He.
        by apply (list_elem_of_fmap_2 g_id).
    + apply List.Forall_cons_iff in Hl1 as [Hx Hl1]. rewrite Hx. constructor; [|by apply IH].
      unfold by_id in Hx. breflect. done.
  - apply find_first_None in Hf. eapply Forall_impl; [exact Hf|]. cbn. intros g Hg He.
    unfold by_id in Hg. breflect. done.
Qed.

(** Authorisation is exact.  [authorize] accepts only a listed grant that
    exists, is approved (or executing), has uses left, has not expired at that
    moment, and was issued to the same agent instance, client and version for
    the same capability and the same action fingerprint. *)
Theorem authorize_exact gs q c f ids now id :
  (authorize gs q c f ids now).1 = Ok id →
  id ∈ ids ∧ ∃ g, g ∈ gs ∧ g_id g = id ∧ g_capability g = c ∧
    g_agent_instance_id g = agent_instance_id q ∧ g_client_name g = client_name q ∧
    g_client_version g = client_version q ∧ g_action_fingerprint g = f ∧
    g_remaining_uses g ≠ 0 ∧ active_status (g_status g) = true ∧ now < g_expires_at g.
Proof.
  unfold authorize. cbn [fst]. intros H.
  apply authorized_sound in H as (Hin & g & Hf & Hc & Ha & Hcn & Hcv & Hfp & Hr & Hst).
  split; [done|]. apply find_first_elem in Hf as [Hg Hid]. unfold by_id in Hid. breflect.
  apply list_elem_of_fmap in Hg as (g0 & Hg0 & Hin0).
  destruct (live_status (g_status g0) && (g_expires_at g0 <=? now)) eqn:He.
  - by rewrite Hg0 in Hst.
  - subst g. exists g0. split_and!; try done.
    apply andb_false_iff in He as [He|He]; [by destruct (g_status g0)|]. breflect. lia.
Qed.

(** *** Witnesses *)

Definition demo_request : AgentGrantRequest :=
  {| gr_capability := DeleteSessions; gr_action_fingerprint := lit "sha256:0";
     gr_action_summary := lit "delete"; 
     gr_scope := {| session_ids := []; connection_ids := []; scope_host := None;
       path_prefix := None; scope_methods := []; scope_workspace_id := None;
       automation_roots := []; origins := [] |};
     gr_reason := lit "cleanup"; gr_approval_options := [Once]; gr_expires_in_seconds := 30;
     gr_non_idempotent := false; gr_resource_policy := None |}.

Definition demo_requester : GrantRequester :=
  {| client_name := lit "c"; client_version := lit "1"; agent_instance_id := lit "a" |}.

Definition demo_sys : Sys :=
  fold_left g_step
    [GRequest demo_request demo_requester (lit "g1") 0 (Ok tt); GWait (lit "g1");
     GApprove (lit "g1") Once 5 (Ok tt); GMarkExecuting [lit "g1"] (Ok tt);
     GFinish [lit "g1"] Succeeded (Ok tt)] sys_init.

Lemma demo_sys_reachable : reachable demo_sys.
Proof.
  unfold demo_sys. cbn [fold_left].
  repeat (apply reach_step; [|first [exact I | by left | set_solver]]). apply reach_init.
Qed.

Lemma grant_uses_bounded_witness :
  (lit "g1" ∉ map ap_id (approvals demo_sys) → count_id (lit "g1") (uses demo_sys) = 0) ∧
  (∀ a, a ∈ approvals demo_sys → ap_id a = lit "g1" →
     count_id (lit "g1") (uses demo_sys) <= (approval_quota (ap_option a)).2 ∧
     count_id (lit "g1") (uses demo_sys) <= FIFTEEN_MINUTE_MAX_USES ∧
     (capability_allows_repeat_approval (ap_capability a) = false ∨ ap_non_idempotent a = true →
      count_id (lit "g1") (uses demo_sys) <= 1)).
Proof. apply (grant_uses_bounded demo_sys (lit "g1")). apply demo_sys_reachable. Defined.

Lemma dead_grant_stays_dead_witness :
  dead (g_step demo_sys (GRevoke (lit "g1") (Ok tt))) (lit "g1") ∧
  count_id (lit "g1") (uses (g_step demo_sys (GRevoke (lit "g1") (Ok tt)))) =
  count_id (lit "g1") (uses demo_sys).
Proof.
  apply (dead_grant_stays_dead demo_sys _ (lit "g1")).
  - apply demo_sys_reachable.
  - split; [apply list_elem_of_In; vm_compute; auto|]. vm_compute. repeat constructor.
  - apply rtc_once. exists (GRevoke (lit "g1") (Ok tt)). done.
Defined.

Lemma revoke_kills_witness : dead (g_step demo_sys (GRevoke (lit "g1") (Err []))) (lit "g1").
Proof.
  apply (revoke_kills demo_sys (lit "g1") (Err [])).
  - apply demo_sys_reachable.
  - apply list_elem_of_In. vm_compute. auto.
Defined.

Lemma authorize_exact_witness :
  lit "g1" ∈ [lit "g1"] ∧
  ∃ g, g ∈ [approved_grant (new_grant demo_request demo_requester (lit "g1") 0) Once 5] ∧
    g_id g = lit "g1" ∧ g_capability g = DeleteSessions ∧ g_agent_instance_id g = lit "a" ∧
    g_client_name g = lit "c" ∧ g_client_version g = lit "1" ∧
    g_action_fingerprint g = lit "sha256:0" ∧ g_remaining_uses g ≠ 0 ∧
    active_status (g_status g) = true ∧ 10 < g_expires_at g.
Proof.
  apply (authorize_exact [approved_grant (new_grant demo_request demo_requester (lit "g1") 0) Once 5]
    demo_requester DeleteSessions (lit "sha256:0") [lit "g1"] 10 (lit "g1")).
  vm_compute. reflexivity.
Defined.

(** A waiting task can undo an approval.  At its deadline [wait_for_grant]
    writes back the copy it made before waiting without reloading it: an
    approval given in the meantime is overwritten as expired. *)
Theorem wait_deadline_overwrites_approval :
  let s := fold_left g_step
    [GRequest demo_request demo_requester (lit "g1") 0 (Ok tt); GWait (lit "g1");
     GApprove (lit "g1") Once 5 (Ok tt)] sys_init in
  g_status <$> find_first (by_id (lit "g1")) (store s) = Some Approved ∧
  g_status <$> find_first (by_id (lit "g1")) (store (g_step s (GDeadline 0))) = Some Expired.
Proof. vm_compute. done. Qed.
