(* ===== verification/BodyTools.v ===== *)
(** * BodyTools: the tools that show a captured body to an agent

    Models the handlers of src/crates/mcp-server/src/tools/body.rs
    ([get_session_body], [get_session_fields]) with the pages of a body, on top
    of the streamed extraction (BodyStream), the search (RedactedSearch) and the
    forms (BodyForms); the check of a capability in src/crates/mcp-server/src/context.rs and
    the lookup of a session in src/crates/mcp-server/src/tools/sessions.rs.

    The body files, the database and the approval of a temporary grant by the
    desktop are interfaces.  A blocking task that panics ends in an error
    ([run_blocking]); whether it times out is an input. *)

From S2P Require Import Prelude Str AgentGrants.
From S2P Require Import JsonPath Rewrite Utf8 TextSearch Redaction RedactedSearch BodyPaths BodyStream BodyStreamFacts BodyLookup.
From S2P Require Import BodyForms.

(** ** Definitions: requests *)

Inductive BodyPart := RequestPart | ResponsePart.

Definition part_label (part : BodyPart) : str :=
  match part with RequestPart => lit "request" | ResponsePart => lit "response" end.

Inductive BodyRedactionMode := Metadata | RedactedText | Base64 | Raw.

#[export] Instance BodyRedactionMode_eq_dec : EqDecision BodyRedactionMode.
Proof. solve_decision. Defined.

Record GetSessionBodyRequest := {
  rq_session_id : str; rq_part : BodyPart; rq_redaction_mode : BodyRedactionMode; rq_offset : option Z;
  rq_max_bytes : option Z; rq_json_paths : list str; rq_text_query : option str; rq_context_bytes : option nat;
  rq_include_form_params : bool; rq_form_param_names : list str
}.

Record GetSessionFieldsRequest := {
  fq_session_ids : list str; fq_part : BodyPart; fq_json_paths : list str; fq_redaction_mode : BodyRedactionMode
}.

Record ToolMeta := {
  tm_truncated : bool; tm_truncated_reason : option str; tm_redacted : bool; tm_next_cursor : option str
}.

Definition new_meta (truncated redacted : bool) (next_cursor : option str) : ToolMeta :=
  {| tm_truncated := truncated; tm_truncated_reason := None; tm_redacted := redacted; tm_next_cursor := next_cursor |}.

Definition invalid (message : str) : ToolError :=
  {| te_code := lit "INVALID_ARGUMENT"; te_message := message; te_retryable := false; te_details := [] |}.

(** ** Definitions: capabilities *)

Inductive AgentGrantRequestPolicy := Ask | Deny.

(** The parts of the access configuration the tools use *)
Record AgentAccessConfig := {
  ac_allows : AgentCapability → bool; ac_policy : AgentCapability → option AgentGrantRequestPolicy;
  ac_redaction : AgentAccessRedaction; ac_max_body_bytes : Z
}.

Class AgentHost := {
  (** [AppContext::config] *)
  access_config : result AgentAccessConfig ToolError;
  (** [request_capability_grant], then [consume_capability_grant], for the
      sessions of the scope *)
  use_grant : AgentCapability → str → list str → str → result unit ToolError;
  session_details : bool;
  (** the blocking tasks, by their number: whether one takes longer than
      [TOOL_TIMEOUT], and the message of one that panics *)
  timed_out : nat → bool;
  join_error : nat → str;
  (** [load_hash_key] *)
  stored_hash_key : bytes
}.

Section Capabilities.
Context `{AgentHost}.

Definition ensure_capability (capability : AgentCapability) (action_summary : str) (sessions : list str) (reason : str)
    : result AgentAccessConfig ToolError :=
  let? config := access_config in
  if ac_allows config capability then Ok config
  else
    match ac_policy config capability with
    | Some Ask => let? _ := use_grant capability action_summary sessions reason in Ok config
    | _ =>
        Err {| te_code := lit "PERMISSION_DENIED";
               te_message := capability_str capability
                 ++ lit " is disabled and is not allowed to request temporary approval. Enable it in AIProxy Settings > Agent Access.";
               te_retryable := false; te_details := [(lit "capability", String (capability_str capability)); (lit "approvalRequired", Bool false)] |}
    end.

Definition require_session_details : result unit ToolError :=
  if session_details then Ok tt
  else Err {| te_code := lit "SCHEMA_INCOMPATIBLE";
              te_message := lit "Body access is unavailable until AIProxy migrates the database. Open AIProxy once, then retry.";
              te_retryable := false; te_details := [] |}.
End Capabilities.

(** ** Definitions: sessions *)

Inductive SessionIdLookup := Found (id : str) | NotFound | Ambiguous (candidates : list str).

(** [sessions] is the column [id], latest session first; [LIKE] ignores the case
    of ASCII letters. *)
Definition lookup_session_id (sessions : list str) (requested : str) : SessionIdLookup :=
  let requested := trim requested in
  if bool_decide (requested = []) then NotFound
  else if bool_decide (requested ∈ sessions) then Found requested
  else if len requested <? 8 then NotFound
  else
    match take 6 (List.filter (fun id => starts_with (to_ascii_lowercase id) (to_ascii_lowercase requested)) sessions) with
    | [] => NotFound
    | [id] => Found id
    | candidates => Ambiguous (take 5 candidates)
    end.

(** What the database answers: the sessions, the bodies of a session, or an
    error of the query *)
Record SessionDb := {
  db_sessions : result (list str) ToolError;
  db_body_reference : str → BodyPart → result (option StoredBodyReference) ToolError
}.

Definition require_session_id (db : SessionDb) (requested : str) : result str ToolError :=
  let? sessions := db_sessions db in
  match lookup_session_id sessions (trim requested) with
  | Found id => Ok id
  | NotFound =>
      Err {| te_code := lit "SESSION_NOT_FOUND"; te_message := lit "Session not found: " ++ trim requested; te_retryable := false; te_details := [] |}
  | Ambiguous candidates =>
      Err {| te_code := lit "SESSION_ID_AMBIGUOUS";
             te_message := lit "The sessionId prefix matches more than one session.";
             te_retryable := false; te_details := [(lit "requested", String (trim requested)); (lit "candidates", Array (map String candidates))] |}
  end.

Definition body_error (code message reason : str) (part : BodyPart) : ToolError :=
  {| te_code := code; te_message := message;
     te_retryable := false; te_details := [(lit "reason", String reason); (lit "part", String (part_label part))] |}.

Definition load_required_body_reference (db : SessionDb) (session_id : str) (part : BodyPart)
    : result StoredBodyReference ToolError :=
  let? reference := db_body_reference db session_id part in
  ok_or reference
    (body_error (lit "BODY_NOT_FOUND") (lit "The requested body was not captured for this session.") (lit "notCaptured") part).

Definition add_body_error_context (part : BodyPart) (error : ToolError) : ToolError :=
  {| te_code := te_code error; te_message := te_message error;
     te_retryable := te_retryable error; te_details := match obj_get (te_details error) (lit "part") with
                   | Some _ => te_details error
                   | None => te_details error ++ [(lit "part", String (part_label part))]
                   end |}.

(** ** Definitions: sizes and ranges *)

Record BodyRange := { br_bytes : bytes; br_original_size : Z; br_offset : Z; br_returned : Z; br_truncated : bool }.

(** [BodyStore::read_body_range], which reads the file [open_body_reader] opens *)
Class BodyFiles (number : Type) `{BodyAccess number} := {
  read_body_range : str → Z → Z → result BodyRange str;
  range_of_reader path r offset max_bytes :
    open_body_reader path = Ok r → failure r = None → 0 <= offset <= len (available r) → 0 <= max_bytes →
    let b := take (Z.to_nat max_bytes) (drop (Z.to_nat offset) (available r)) in
    read_body_range path offset max_bytes =
      Ok {| br_bytes := b; br_original_size := len (available r); br_offset := offset; br_returned := len b;
            br_truncated := offset + len b <? len (available r) |}
}.

Record BodySizes := { bs_wire : Z; bs_decoded : Z; bs_capture_truncated : bool }.

Record BodyBytes := {
  bb_bytes : bytes; bb_decoded_size : Z; bb_wire_size : Z; bb_offset : Z; bb_returned : Z; bb_has_more : bool;
  bb_capture_truncated : bool
}.

Definition wire_size (reference : StoredBodyReference) (decoded_size_bytes : Z) : Z :=
  if 0 <? size_bytes reference then size_bytes reference else decoded_size_bytes.

Section Ranges.
Context {number : Type} `{BodyFiles number}.

Definition read_body_bytes (reference : StoredBodyReference) (offset max_bytes : Z) : result BodyBytes ToolError :=
  match file_path reference with
  | Some path =>
      let? range := map_err file_missing (read_body_range path offset max_bytes) in
      Ok {| bb_bytes := br_bytes range; bb_decoded_size := br_original_size range;
            bb_wire_size := wire_size reference (br_original_size range); bb_offset := br_offset range;
            bb_returned := br_returned range; bb_has_more := br_truncated range;
            bb_capture_truncated := truncated reference |}
  | None =>
      let? decoded := decode_inline_reference (number := number) reference in
      if len decoded <? offset then Err (invalid (lit "Body offset exceeds the decoded body size."))
      else
        let start := Z.min offset (len decoded) in
        let end_ := Z.min (usize_add start max_bytes) (len decoded) in
        Ok {| bb_bytes := slice (Z.to_nat start) (Z.to_nat end_) decoded; bb_decoded_size := len decoded;
              bb_wire_size := wire_size reference (len decoded); bb_offset := offset; bb_returned := end_ - start;
              bb_has_more := end_ <? len decoded; bb_capture_truncated := truncated reference |}
  end.

Definition read_full_body (reference : StoredBodyReference) (max_bytes : Z) : result (bytes * bool) ToolError :=
  let? page := read_body_bytes reference 0 max_bytes in
  Ok (bb_bytes page, bb_has_more page).

Definition body_sizes (reference : StoredBodyReference) : result BodySizes ToolError :=
  let? decoded :=
    match file_path reference with
    | Some path => let? range := map_err file_missing (read_body_range path 0 0) in Ok (br_original_size range)
    | None => let? decoded := decode_inline_reference (number := number) reference in Ok (len decoded)
    end in
  Ok {| bs_wire := wire_size reference decoded; bs_decoded := decoded; bs_capture_truncated := truncated reference |}.
End Ranges.

(** ** Definitions: pages of text *)

Definition MAX_BODY_SCAN_BYTES : Z := 8 * 1024 * 1024.
Definition MAX_BATCH_JSON_SCAN_BYTES : Z := 256 * 1024 * 1024.
Definition MAX_BATCH_SESSIONS : nat := 20.

Record TextPage := { tp_text : str; tp_offset : Z; tp_returned : Z; tp_next_offset : option Z; tp_has_more : bool }.

(** [while end > offset && !text.is_char_boundary(end) { end -= 1 }] *)
Fixpoint floor_above (text : str) (offset end_ : nat) : nat :=
  match end_ with
  | O => O
  | S e => if (offset <? end_)%nat && negb (at_boundary text end_) then floor_above text offset e else end_
  end.

Definition page_end (text : str) (offset : nat) (max_bytes : Z) : nat :=
  let end_ := floor_above text offset (Z.to_nat (Z.min (usize_add (Z.of_nat offset) max_bytes) (len text))) in
  if (end_ =? offset)%nat && (offset <? length text)%nat && (0 <? max_bytes) then ceil_at text (S offset) else end_.

Definition slice_text_page (text : str) (offset max_bytes : Z) : result TextPage ToolError :=
  if len text <? offset then Err (invalid (lit "Body offset exceeds the decoded view size."))
  else
    let start := Z.to_nat offset in
    if negb (at_boundary text start) then Err (invalid (lit "Body offset must fall on a UTF-8 character boundary."))
    else
      let end_ := page_end text start max_bytes in
      let has_more := (end_ <? length text)%nat in
      Ok {| tp_text := slice start end_ text; tp_offset := offset; tp_returned := Z.of_nat end_ - offset;
            tp_next_offset := if has_more then Some (Z.of_nat end_) else None; tp_has_more := has_more |}.

(** ** Definitions: answers *)

Section Answers.
Context {number : Type} `{RedactionEnv number} `{!BodyAccess number} `{!JsonSource number} `{!BodyFiles number} `{Matcher}.
Context `{AgentHost} (base64_encode : bytes → str) (urlencoded : bytes → list (str * str)).

Definition json_opt (s : option str) : value number := match s with Some s => String s | None => Null end.
Definition json_strings (l : list str) : value number := Array (map String l).

(** The object every body tool answers with; [bv_form] are the fields a form adds. *)
Record BodyView := {
  bv_encoding : str; bv_is_utf8 : value number; bv_text : value number; bv_base64 : value number;
  bv_json_paths : list (value number); bv_text_matches : list (value number); bv_form : list (str * value number);
  bv_wire : Z; bv_decoded : Z; bv_view_size : value number; bv_offset_unit : str; bv_offset : Z; bv_returned : Z;
  bv_next_offset : value number; bv_has_more : bool; bv_capture_truncated : bool; bv_scan_truncated : bool;
  bv_reasons : list str; bv_redacted_fields : list str; bv_structure_parsed : bool; bv_hash : value number
}.

Definition view_json (session_id : str) (part : BodyPart) (reference : StoredBodyReference) (v : BodyView) : value number :=
  Object ([(lit "sessionId", String session_id); (lit "part", String (part_label part));
           (lit "contentType", json_opt (mime_type reference)); (lit "contentEncoding", json_opt (encoding reference));
           (lit "encoding", String (bv_encoding v)); (lit "isUtf8", bv_is_utf8 v); (lit "text", bv_text v);
           (lit "base64", bv_base64 v); (lit "jsonPaths", Array (bv_json_paths v));
           (lit "textMatches", Array (bv_text_matches v))]
    ++ bv_form v
    ++ [(lit "wireSizeBytes", json_usize (bv_wire v)); (lit "decodedSizeBytes", json_usize (bv_decoded v));
        (lit "viewSizeBytes", bv_view_size v); (lit "offsetUnit", String (bv_offset_unit v));
        (lit "offset", json_usize (bv_offset v)); (lit "returnedBytes", json_usize (bv_returned v));
        (lit "nextOffset", bv_next_offset v); (lit "hasMore", Bool (bv_has_more v));
        (lit "captureTruncated", Bool (bv_capture_truncated v)); (lit "scanTruncated", Bool (bv_scan_truncated v));
        (lit "truncatedReasons", json_strings (bv_reasons v)); (lit "redactedFields", json_strings (bv_redacted_fields v));
        (lit "structureParsed", Bool (bv_structure_parsed v)); (lit "hash", bv_hash v)]).

Definition body_truncation_reasons (capture_truncated scan_truncated page_has_more result_limited : bool) : list str :=
  (if capture_truncated then [lit "captureLimit"] else []) ++ (if scan_truncated then [lit "scanLimit"] else [])
  ++ (if page_has_more then [lit "pageLimit"] else []) ++ (if result_limited then [lit "resultLimit"] else []).

Definition digest (value_ scope : str) : value number :=
  Object [(lit "algorithm", String (lit "sha256")); (lit "value", String value_); (lit "scope", String scope)].

Definition body_hash_value (raw : bool) (b : bytes) : value number :=
  if raw then digest (sha256_hex b) (lit "decodedBody") else Null.

Definition hit_json (h : Hit) : value number :=
  Object [(lit "offsetBytes", json_usize (Z.of_nat (offsetBytes h))); (lit "snippet", String (snippet h));
          (lit "match", String (matched h))].

(** The tools return the data and its meta data. *)
Definition Answer : Type := result (value number * ToolMeta) ToolError.

Definition metadata_answer (session_id : str) (part : BodyPart) (reference : StoredBodyReference) (sizes : BodySizes) : Answer :=
  let data :=
    view_json session_id part reference
      {| bv_encoding := lit "metadata"; bv_is_utf8 := Null; bv_text := Null; bv_base64 := Null; bv_json_paths := [];
         bv_text_matches := []; bv_form := []; bv_wire := bs_wire sizes; bv_decoded := bs_decoded sizes;
         bv_view_size := Null; bv_offset_unit := lit "none"; bv_offset := 0; bv_returned := 0; bv_next_offset := Null;
         bv_has_more := false; bv_capture_truncated := bs_capture_truncated sizes; bv_scan_truncated := false;
         bv_reasons := if bs_capture_truncated sizes then [lit "captureLimit"] else []; bv_redacted_fields := [];
         bv_structure_parsed := false; bv_hash := Null |} in
  Ok (data, if bs_capture_truncated sizes then
              {| tm_truncated := true; tm_truncated_reason := Some (lit "captureLimit"); tm_redacted := false;
                 tm_next_cursor := None |}
            else new_meta false false None).

Section With.
Context (self : Redactor).

(** What [extract_body] shows of an extraction and of a search *)
Definition extracted_view (raw : bool) (sizes : BodySizes) (extraction : option (JsonPathExtraction number))
    (search : option TextSearchOutcome) : BodyView :=
  let json_values := match extraction with Some e => jx_values e | None => [] end in
  let hits := match search with Some o => map hit_json (ts_matches o) | None => [] end in
  let hash :=
    match extraction, search with
    | Some e, _ => Some (jx_hash e)
    | None, Some o => ts_hash o
    | None, None => None
    end in
  let hash := if raw then hash else None in
  let limited := match search with Some o => ts_limited o | None => false end in
  let value_limited := match extraction with Some e => jx_truncated e | None => false end in
  let payload (l : list (value number)) := match l with [] => 0 | _ => json_len (Array l) end in
  let redacted_fields :=
    match extraction with Some e => jx_redacted_fields e | None => [] end
    ++ match search with Some o => ts_redacted_fields o | None => [] end in
  {| bv_encoding := lit "json"; bv_is_utf8 := Bool true; bv_text := Null; bv_base64 := Null;
     bv_json_paths := json_values; bv_text_matches := hits; bv_form := [];
     bv_wire := bs_wire sizes; bv_decoded := bs_decoded sizes;
     bv_view_size := match extraction with Some e => json_usize (jx_view_size_bytes e) | None => Null end;
     bv_offset_unit := lit "none"; bv_offset := 0; bv_returned := payload json_values + payload hits;
     bv_next_offset := Null; bv_has_more := false; bv_capture_truncated := bs_capture_truncated sizes;
     bv_scan_truncated := false;
     bv_reasons := body_truncation_reasons (bs_capture_truncated sizes) false false (limited || value_limited);
     bv_redacted_fields := dedup (sort_by str_leb redacted_fields);
     bv_structure_parsed :=
       match extraction, search with
       | Some _, _ => true
       | None, Some o => ts_structure_parsed o
       | None, None => false
       end;
     bv_hash := match hash with Some h => digest h (lit "decodedBody") | None => Null end |}.

(** The answer is truncated when there is a reason. *)
Definition answer_view (session_id : str) (part : BodyPart) (reference : StoredBodyReference) (redacted : bool) (v : BodyView)
    : Answer :=
  Ok (view_json session_id part reference v, new_meta (negb (bool_decide (bv_reasons v = []))) redacted None).

Definition extracted (part : BodyPart) (reference : StoredBodyReference) (sizes : BodySizes)
    (json_paths : list (list JsonPathSegment)) (raw : bool) : result (option (JsonPathExtraction number)) ToolError :=
  match json_paths with
  | [] => Ok None
  | _ =>
      let? e := map_err (add_body_error_context part)
                  (extract_json_paths self reference (bs_decoded sizes) json_paths raw) in
      Ok (Some e)
  end.

Definition searched (part : BodyPart) (reference : StoredBodyReference) (sizes : BodySizes) (text_query : option str)
    (context_bytes : nat) (raw : bool) : option (result (option TextSearchOutcome) ToolError) :=
  match text_query with
  | None => Some (Ok None)
  | Some query =>
      outcome ← search_text self reference (bs_decoded sizes) query context_bytes raw (Z.of_nat MAX_TEXT_QUERY_SCAN_BYTES);
      Some (let? o := map_err (add_body_error_context part) outcome in Ok (Some o))
  end.

(** [None] is a panic. *)
Definition extract_body (request : GetSessionBodyRequest) (session_id : str) (part : BodyPart)
    (reference : StoredBodyReference) (sizes : BodySizes) (json_paths : list (list JsonPathSegment))
    (text_query : option str) : option Answer :=
  let raw := bool_decide (rq_redaction_mode request = Raw) in
  let scan_limit := Z.of_nat MAX_TEXT_QUERY_SCAN_BYTES in
  if bool_decide (text_query ≠ None) && (scan_limit <? bs_decoded sizes) then
    Some (Err (text_query_scan_limit_error (bs_decoded sizes) scan_limit))
  else
    match extracted part reference sizes json_paths raw with
    | Err e => Some (Err e)
    | Ok extraction =>
        outcome ← searched part reference sizes text_query (clamp_context (rq_context_bytes request)) raw;
        Some (let? search := outcome in
              answer_view session_id part reference (negb raw) (extracted_view raw sizes extraction search))
    end.

Definition scan_too_large (message : str) (sizes : BodySizes) : ToolError :=
  {| te_code := lit "BODY_TOO_LARGE"; te_message := message; te_retryable := false;
     te_details := [(lit "decodedSizeBytes", Number (bs_decoded sizes)); (lit "scanLimitBytes", Number MAX_BODY_SCAN_BYTES)] |}.

Definition not_form (message reason : str) (part : BodyPart) (extra : list (str * value Z)) : ToolError :=
  {| te_code := lit "BODY_NOT_FORM"; te_message := message; te_retryable := false;
     te_details := [(lit "reason", String reason); (lit "part", String (part_label part))] ++ extra |}.

Definition form_format (content_type : str) : option FormFormat :=
  let lowered := to_ascii_lowercase content_type in
  if contains lowered (lit "multipart/form-data") then Some Multipart
  else if contains lowered (lit "x-www-form-urlencoded") then Some Urlencoded
  else None.

Definition form_parts (format : FormFormat) (content_type : str) (part : BodyPart) (b : bytes)
    : option (result (list FormPart) ToolError) :=
  match format with
  | Urlencoded => Some (Ok (parse_urlencoded_form (urlencoded b)))
  | Multipart =>
      match multipart_boundary content_type with
      | None =>
          Some (Err (not_form (lit "multipart/form-data is missing a usable boundary parameter.") (lit "invalidBoundary") part []))
      | Some boundary =>
          parsed ← parse_multipart_form b boundary;
          Some (map_err (fun message => not_form (lit "The multipart body could not be parsed: " ++ message ++ lit ".")
                                          (lit "malformedMultipart") part []) parsed)
      end
  end.

Definition is_utf8 (b : bytes) : bool := bool_decide (from_utf8 b ≠ None).

Definition form_view (raw : bool) (sizes : BodySizes) (names : list str) (format : FormFormat) (b : bytes)
    (parts : list FormPart) : BodyView :=
  let '(entries, t) := collect_entries self raw names parts in
  {| bv_encoding := lit "form"; bv_is_utf8 := Bool (is_utf8 b); bv_text := Null; bv_base64 := Null; bv_json_paths := [];
     bv_text_matches := [];
     bv_form := [(lit "formFormat", String (format_str format)); (lit "formParams", Array entries);
                 (lit "formParamCount", json_usize (Z.of_nat (length parts)));
                 (lit "formParamsTruncated", Bool (ft_limited t))];
     bv_wire := bs_wire sizes; bv_decoded := bs_decoded sizes; bv_view_size := Null; bv_offset_unit := lit "none";
     bv_offset := 0; bv_returned := json_len (Array entries); bv_next_offset := Null; bv_has_more := false;
     bv_capture_truncated := bs_capture_truncated sizes; bv_scan_truncated := false;
     bv_reasons := body_truncation_reasons (bs_capture_truncated sizes) false false (ft_limited t);
     bv_redacted_fields := dedup (sort_by str_leb (ft_redacted_fields t));
     bv_structure_parsed := negb (ft_limited t); bv_hash := body_hash_value raw b |}.

Definition extract_form_body (request : GetSessionBodyRequest) (session_id : str) (part : BodyPart)
    (reference : StoredBodyReference) (sizes : BodySizes) (names : list str) : option Answer :=
  match read_full_body (number := number) reference MAX_BODY_SCAN_BYTES with
  | Err e => Some (Err e)
  | Ok (b, scan_truncated) =>
      if scan_truncated then
        Some (Err (scan_too_large (lit "Form parameter extraction requires scanning the complete body, but it exceeds "
                                     ++ show MAX_BODY_SCAN_BYTES ++ lit " bytes.") sizes))
      else
        let content_type := default [] (mime_type reference) in
        match form_format content_type with
        | None =>
            Some (Err (not_form
              (lit "Form parameter extraction requires application/x-www-form-urlencoded or multipart/form-data.")
              (lit "notForm") part
              [(lit "contentType", match mime_type reference with Some s => String s | None => Null end)]))
        | Some format =>
            parsed ← form_parts format content_type part b;
            let raw := bool_decide (rq_redaction_mode request = Raw) in
            Some (let? parts := parsed in
                  answer_view session_id part reference (negb raw) (form_view raw sizes names format b parts))
        end
  end.

(** The pages of a redacted body; [scan_truncated] is false where it is read. *)
Definition redacted_page (session_id : str) (part : BodyPart) (reference : StoredBodyReference) (sizes : BodySizes)
    (offset max_bytes : Z) : Answer :=
  let? body := read_full_body (number := number) reference MAX_BODY_SCAN_BYTES in
  let '(b, scan_truncated) := body in
  if scan_truncated then
    Err (scan_too_large (lit "Redacted body pagination requires scanning the complete body, but it exceeds "
           ++ show MAX_BODY_SCAN_BYTES
           ++ lit " bytes. Provide target jsonPaths to extract only the needed fields instead of paging the full body.") sizes)
  else
    match from_utf8 b with
    | None =>
        answer_view session_id part reference false
              {| bv_encoding := lit "binary"; bv_is_utf8 := Bool false; bv_text := Null; bv_base64 := Null; bv_json_paths := [];
                 bv_text_matches := []; bv_form := []; bv_wire := bs_wire sizes; bv_decoded := bs_decoded sizes;
                 bv_view_size := Null; bv_offset_unit := lit "none"; bv_offset := offset; bv_returned := 0;
                 bv_next_offset := Null; bv_has_more := false; bv_capture_truncated := bs_capture_truncated sizes;
                 bv_scan_truncated := scan_truncated;
                 bv_reasons := body_truncation_reasons (bs_capture_truncated sizes) scan_truncated false false;
                 bv_redacted_fields := []; bv_structure_parsed := false; bv_hash := Null |}
    | Some raw_text =>
        let redacted := redact_text self raw_text in
        let view := ro_value redacted in
        let? page := slice_text_page view offset max_bytes in
        answer_view session_id part reference true
              {| bv_encoding := lit "text"; bv_is_utf8 := Bool true; bv_text := String (tp_text page); bv_base64 := Null;
                 bv_json_paths := []; bv_text_matches := []; bv_form := []; bv_wire := bs_wire sizes;
                 bv_decoded := bs_decoded sizes; bv_view_size := json_usize (len view);
                 bv_offset_unit := lit "decodedViewBytes"; bv_offset := tp_offset page; bv_returned := tp_returned page;
                 bv_next_offset := match tp_next_offset page with Some n => json_usize n | None => Null end;
                 bv_has_more := tp_has_more page; bv_capture_truncated := bs_capture_truncated sizes;
                 bv_scan_truncated := scan_truncated;
                 bv_reasons := body_truncation_reasons (bs_capture_truncated sizes) scan_truncated (tp_has_more page) false;
                 bv_redacted_fields := ro_fields redacted;
                 bv_structure_parsed :=
                   bool_decide (from_str view ≠ None) && (tp_offset page =? 0) && negb (tp_has_more page);
                 bv_hash := digest (sha256_hex (tp_text page)) (lit "returnedViewRange") |}
    end.

Definition byte_page (mode : BodyRedactionMode) (session_id : str) (part : BodyPart) (reference : StoredBodyReference)
    (sizes : BodySizes) (offset max_bytes : Z) : Answer :=
  let? body := read_body_bytes (number := number) reference offset max_bytes in
  let b := bb_bytes body in
  if bool_decide (mode = Raw) && bool_decide (b = []) && (bb_decoded_size body <=? offset) then
    Err (invalid (lit "Body offset must be less than the decoded size."))
  else
    let as_text := bool_decide (mode = Raw) && is_utf8 b in
    answer_view session_id part reference false
          {| bv_encoding := if as_text then lit "text" else lit "base64"; bv_is_utf8 := Bool (is_utf8 b);
             bv_text := if as_text then String b else Null;
             bv_base64 := if as_text then Null else String (base64_encode b);
             bv_json_paths := []; bv_text_matches := []; bv_form := []; bv_wire := bb_wire_size body;
             bv_decoded := bb_decoded_size body; bv_view_size := json_usize (bb_decoded_size body);
             bv_offset_unit := lit "decodedBodyBytes"; bv_offset := bb_offset body; bv_returned := bb_returned body;
             bv_next_offset := if bb_has_more body then json_usize (bb_offset body + bb_returned body) else Null;
             bv_has_more := bb_has_more body; bv_capture_truncated := bb_capture_truncated body;
             bv_scan_truncated := false;
             bv_reasons := body_truncation_reasons (bs_capture_truncated sizes) false (bb_has_more body) false;
             bv_redacted_fields := []; bv_structure_parsed := false;
             bv_hash := digest (sha256_hex b) (lit "returnedDecodedBytes") |}.

(** [clamp] panics on an empty range, and metadata is not a page. *)
Definition read_body_page (request : GetSessionBodyRequest) (session_id : str) (part : BodyPart)
    (reference : StoredBodyReference) (sizes : BodySizes) (configured_max_bytes : Z) : option Answer :=
  if configured_max_bytes <? 1 then None
  else
    let max_bytes := Z.max 1 (Z.min (default configured_max_bytes (rq_max_bytes request)) configured_max_bytes) in
    let offset := default 0 (rq_offset request) in
    match rq_redaction_mode request with
    | RedactedText => Some (redacted_page session_id part reference sizes offset max_bytes)
    | Metadata => None
    | mode => Some (byte_page mode session_id part reference sizes offset max_bytes)
    end.
End With.

(** ** Definitions: the tools *)

Definition run_blocking {T} (task : nat) (operation : option (result T ToolError)) : result T ToolError :=
  if timed_out task then
    Err {| te_code := lit "TOOL_TIMEOUT";
           te_message := lit "Body processing timed out. Request fewer fields or use a narrower path.";
           te_retryable := true; te_details := [] |}
  else
    match operation with
    | Some answer => answer
    | None =>
        Err {| te_code := lit "INTERNAL_ERROR"; te_message := lit "body worker failed: " ++ join_error task;
               te_retryable := false; te_details := [] |}
    end.

Definition redactor_of (config : AgentAccessConfig) : result Redactor ToolError :=
  map_err (fun message => {| te_code := lit "INVALID_REDACTION_CONFIG"; te_message := message; te_retryable := false;
                             te_details := [] |})
    (from_config stored_hash_key (ac_redaction config)).

Definition discloses (mode : BodyRedactionMode) : bool :=
  match mode with Raw | Base64 => true | RedactedText | Metadata => false end.

Definition form_requested (request : GetSessionBodyRequest) : bool :=
  rq_include_form_params request || negb (bool_decide (rq_form_param_names request = [])).

Definition body_access (request : GetSessionBodyRequest) : result AgentAccessConfig ToolError :=
  let scope := [rq_session_id request] in
  let what := part_label (rq_part request) ++ lit " body for session " ++ rq_session_id request in
  let? config :=
    ensure_capability ReadBodies (lit "Read the " ++ what) scope
      (lit "Reading this response field requires temporary body access.") in
  let? _ :=
    if discloses (rq_redaction_mode request) then
      ensure_capability ReadRawBodies (lit "Read the unredacted " ++ what) scope
        (lit "Raw body access can expose credentials and personal data.")
    else Ok config in
  Ok config.

(** The parsed paths, the names of form parameters and the query of a request *)
Definition body_arguments (request : GetSessionBodyRequest)
    : result (list (list JsonPathSegment) * list str * option str) ToolError :=
  let mode := rq_redaction_mode request in
  let form := form_requested request in
  let paths := negb (bool_decide (rq_json_paths request = [])) in
  if bool_decide (mode = Metadata) && (paths || bool_decide (rq_text_query request ≠ None) || form) then
    Err (invalid (lit "metadata mode cannot be combined with jsonPaths, textQuery, or form parameters."))
  else if (bool_decide (mode = Metadata) || bool_decide (mode = Base64)) && paths then
    Err (invalid (lit "jsonPaths is supported only in redacted-text or raw mode."))
  else
    let? json_paths := parse_json_paths (rq_json_paths request) in
    let? names := validate_form_param_names (rq_form_param_names request) in
    if rq_include_form_params request && negb (bool_decide (names = [])) then
      Err (invalid (lit "includeFormParams cannot be combined with formParamNames."))
    else
      let? text_query := map_err invalid (validate_text_query (rq_text_query request)) in
      if form && (negb (bool_decide (json_paths = [])) || bool_decide (text_query ≠ None)) then
        Err (invalid (lit "Form parameter extraction cannot be combined with jsonPaths or textQuery."))
      else if form && negb (bool_decide (mode = RedactedText) || bool_decide (mode = Raw)) then
        Err (invalid (lit "Form parameter extraction supports redacted-text or raw mode."))
      else Ok (json_paths, names, text_query).

Definition get_session_body (db : SessionDb) (request : GetSessionBodyRequest) : Answer :=
  let? _ := require_session_details in
  let? config := body_access request in
  let? arguments := body_arguments request in
  let '(json_paths, names, text_query) := arguments in
  let? redactor := redactor_of config in
  let? session_id := require_session_id db (rq_session_id request) in
  let part := rq_part request in
  let? reference := load_required_body_reference db session_id part in
  let? sizes := body_sizes (number := number) reference in
  if bs_decoded sizes =? 0 then
    Err (body_error (lit "BODY_NOT_FOUND") (lit "The requested body is empty.") (lit "empty") part)
  else if bool_decide (rq_redaction_mode request = Metadata) then metadata_answer session_id part reference sizes
  else if form_requested request then
    run_blocking 0 (extract_form_body redactor request session_id part reference sizes names)
  else if negb (bool_decide (json_paths = [])) || bool_decide (text_query ≠ None) then
    run_blocking 0 (extract_body redactor request session_id part reference sizes json_paths text_query)
  else
    run_blocking 0 (read_body_page redactor request session_id part reference sizes (ac_max_body_bytes config)).

Definition charge_batch_scan_budget (scanned_bytes decoded_size_bytes : Z) : result Z ToolError :=
  if MAX_JSON_PATH_SCAN_BYTES <? decoded_size_bytes then
    Err {| te_code := lit "BODY_TOO_LARGE";
           te_message := lit "JSON field extraction requires scanning the complete body, but it exceeds "
             ++ show MAX_JSON_PATH_SCAN_BYTES ++ lit " bytes.";
           te_retryable := false;
           te_details := [(lit "reason", String (lit "scanLimit")); (lit "decodedSizeBytes", Number decoded_size_bytes);
                          (lit "scanLimitBytes", Number MAX_JSON_PATH_SCAN_BYTES)] |}
  else
    let next_scanned := sat_add64 scanned_bytes decoded_size_bytes in
    if MAX_BATCH_JSON_SCAN_BYTES <? next_scanned then
      Err {| te_code := lit "BODY_TOO_LARGE";
             te_message := lit "The batch exceeds the " ++ show MAX_BATCH_JSON_SCAN_BYTES
               ++ lit " byte JSON scan budget. Split sessionIds into smaller batches.";
             te_retryable := false;
             te_details := [(lit "reason", String (lit "batchScanLimit"));
                            (lit "batchScanLimitBytes", Number MAX_BATCH_JSON_SCAN_BYTES);
                            (lit "batchScannedBytes", Number scanned_bytes);
                            (lit "decodedSizeBytes", Number decoded_size_bytes)] |}
    else Ok next_scanned.

(** A value of the details of an error, as a value of the answer *)
Fixpoint detail_json (v : value Z) : value number :=
  match v with
  | Null => Null
  | Bool b => Bool b
  | Number n => json_usize n
  | String s => String s
  | Array items => Array (map detail_json items)
  | Object o => Object (map (fun kv => (kv.1, detail_json kv.2)) o)
  end.

Definition field_item_error (requested : str) (session_id : option str) (code message : str)
    (details : list (str * value Z)) : value number :=
  Object [(lit "requestedSessionId", String requested); (lit "sessionId", json_opt session_id);
          (lit "error", Object ([(lit "code", String code); (lit "message", String message)]
             ++ match details with [] => [] | _ => [(lit "details", detail_json (Object details))] end))].

Definition item_error (requested id : str) (e : ToolError) : value number :=
  field_item_error requested (Some id) (te_code e) (te_message e) (te_details e).

(** The loop of the batch: its items, whether a value was cut, the bytes charged *)
Record Batch := { ba_items : list (value number); ba_truncated : bool; ba_scanned : Z }.

Definition push_item (b : Batch) (item : value number) : Batch :=
  {| ba_items := ba_items b ++ [item]; ba_truncated := ba_truncated b; ba_scanned := ba_scanned b |}.

Definition found_item (redactor : Redactor) (part : BodyPart) (json_paths : list (list JsonPathSegment)) (raw : bool)
    (task : nat) (requested id : str) (reference : StoredBodyReference) (b : Batch) : Batch :=
  match body_sizes (number := number) reference with
  | Err e => push_item b (item_error requested id e)
  | Ok sizes =>
      match charge_batch_scan_budget (ba_scanned b) (bs_decoded sizes) with
      | Err e => push_item b (item_error requested id e)
      | Ok scanned =>
          let b := {| ba_items := ba_items b; ba_truncated := ba_truncated b; ba_scanned := scanned |} in
          match run_blocking task
                  (Some (extract_fields_from_reference redactor reference (bs_decoded sizes) json_paths raw)) with
          | Ok (values, truncated) =>
              {| ba_items := ba_items b
                   ++ [Object [(lit "requestedSessionId", String requested); (lit "sessionId", String id);
                               (lit "part", String (part_label part)); (lit "values", Array values)]];
                 ba_truncated := ba_truncated b || truncated; ba_scanned := ba_scanned b |}
          | Err e => push_item b (item_error requested id e)
          end
      end
  end.

Definition field_item (redactor : Redactor) (part : BodyPart) (json_paths : list (list JsonPathSegment)) (raw : bool)
    (reference_by_id : gmap str (option StoredBodyReference)) (task : nat) (requested : str) (lookup : SessionIdLookup)
    (b : Batch) : Batch :=
  match lookup with
  | NotFound =>
      push_item b (field_item_error requested None (lit "SESSION_NOT_FOUND") (lit "Session not found.") [])
  | Ambiguous candidates =>
      push_item b (Object [(lit "requestedSessionId", String requested);
        (lit "error", Object [(lit "code", String (lit "SESSION_ID_AMBIGUOUS"));
           (lit "message", String (lit "The sessionId prefix matches more than one session."));
           (lit "details", Object [(lit "candidates", json_strings candidates)])])])
  | Found id =>
      match reference_by_id !! id with
      | Some (Some reference) => found_item redactor part json_paths raw task requested id reference b
      | _ =>
          push_item b (field_item_error requested (Some id) (lit "BODY_NOT_FOUND") (lit "The requested body is not captured.") [])
      end
  end.

Fixpoint field_items (redactor : Redactor) (part : BodyPart) (json_paths : list (list JsonPathSegment)) (raw : bool)
    (reference_by_id : gmap str (option StoredBodyReference)) (task : nat) (lookups : list (str * SessionIdLookup))
    (b : Batch) : Batch :=
  match lookups with
  | [] => b
  | (requested, lookup) :: lookups =>
      field_items redactor part json_paths raw reference_by_id (S task) lookups
        (field_item redactor part json_paths raw reference_by_id task requested lookup b)
  end.

Definition found_ids (lookups : list (str * SessionIdLookup)) : list str :=
  omap (fun l => match l.2 with Found id => Some id | _ => None end) lookups.

Fixpoint load_references (db : SessionDb) (part : BodyPart) (ids : list str)
    : result (list (option StoredBodyReference)) ToolError :=
  match ids with
  | [] => Ok []
  | id :: ids =>
      let? reference := db_body_reference db id part in
      let? references := load_references db part ids in
      Ok (reference :: references)
  end.

Definition fields_access (request : GetSessionFieldsRequest) : result AgentAccessConfig ToolError :=
  let scope := fq_session_ids request in
  let what := show (Z.of_nat (length scope)) ++ lit " session bodies" in
  let? config :=
    ensure_capability ReadBodies (lit "Extract fields from " ++ what) scope
      (lit "Field extraction reads persisted request or response bodies.") in
  let? _ :=
    if bool_decide (fq_redaction_mode request = Raw) then
      ensure_capability ReadRawBodies (lit "Extract unredacted fields from " ++ what) scope
        (lit "Raw field extraction can expose credentials and personal data.")
    else Ok config in
  Ok config.

Definition get_session_fields (db : SessionDb) (request : GetSessionFieldsRequest) : Answer :=
  let? _ := require_session_details in
  let? config := fields_access request in
  let mode := fq_redaction_mode request in
  if negb (bool_decide (mode = RedactedText) || bool_decide (mode = Raw)) then
    Err (invalid (lit "get_session_fields supports redacted-text or raw mode."))
  else if bool_decide (fq_session_ids request = []) then Err (invalid (lit "sessionIds must not be empty."))
  else if (MAX_BATCH_SESSIONS <? length (fq_session_ids request))%nat then
    Err (invalid (lit "sessionIds accepts at most " ++ show (Z.of_nat MAX_BATCH_SESSIONS) ++ lit " values."))
  else
    let? json_paths := parse_json_paths (fq_json_paths request) in
    if bool_decide (json_paths = []) then Err (invalid (lit "jsonPaths must not be empty."))
    else
      let? redactor := redactor_of config in
      let? sessions := db_sessions db in
      let lookups := map (fun requested => (requested, lookup_session_id sessions requested)) (fq_session_ids request) in
      let ids := found_ids lookups in
      let? references := load_references db (fq_part request) ids in
      (* a later entry of the map replaces an earlier one *)
      let reference_by_id : gmap str (option StoredBodyReference) := list_to_map (reverse (zip ids references)) in
      let raw := bool_decide (mode = Raw) in
      let b := field_items redactor (fq_part request) json_paths raw reference_by_id 0 lookups
                 {| ba_items := []; ba_truncated := false; ba_scanned := 0 |} in
      Ok (Object [(lit "items", Array (ba_items b))], new_meta (ba_truncated b) (negb raw) None).
End Answers.
