(* ===== verification/BodyToolsFacts.v ===== *)
(** * BodyToolsFacts: what the body tools guarantee

    About BodyTools: a body is read only with the permission to read bodies, and
    shown as it is only with the permission to read raw bodies; an answer in a
    redacted mode is the same for any two bodies that differ in masked values
    only, unless form parameters of a form are requested; following the offsets of
    the pages of a text reads the whole text. *)

From S2P Require Import Prelude Str AgentGrants.
From S2P Require Import JsonPath Rewrite Utf8 TextSearch Redaction RedactedSearch BodyPaths BodyStream BodyStreamFacts BodyLookup.
From S2P Require Import BodyForms BodyTools.

(** ** The redacted stream of two documents *)

Section Streams.
Context {number : Type} `{RedactionEnv number} (self : Redactor).

Lemma stream_items_ext {V} (f g : str → V → list RedactionRecord → Stream) a b :
  Forall2 (fun v w => ∀ i records, f i v records = g i w records) a b →
  ∀ i records, stream_items f i a records = stream_items g i b records.
Proof.
  induction 1 as [|v w a b Hf _ IH]; intros i records; [done|]. cbn [stream_items]. rewrite Hf.
  destruct (g _ w records) as [[ps r]|]; [|done]. cbn [mbind option_bind]. by rewrite IH.
Qed.

Lemma stream_fields_ext {V} (f g : str → V → list RedactionRecord → Stream) o p :
  Forall2 (fun x y => x.1 = y.1 ∧ ∀ records, f x.1 x.2 records = g y.1 y.2 records) o p →
  ∀ first records, stream_fields f first o records = stream_fields g first p records.
Proof.
  induction 1 as [|[k v] [k' w] o p [Hk Hf] _ IH]; intros first records; [done|]. cbn [stream_fields]. cbn [fst snd] in Hk, Hf.
  subst k'. rewrite Hf. destruct (g k w records) as [[ps r]|]; [|done]. cbn [mbind option_bind]. by rewrite IH.
Qed.

Lemma sensitive_hides key v w path records :
  is_sensitive_name self key = true →
  (hides self v w ∨ masked self key = true ∧ (v = Null ↔ w = Null)) →
  visit_sensitive self key v path records = visit_sensitive self key w path records.
Proof.
  intros Hs [Hh|[Hm Hn]]; [by inversion Hh; subst|].
  unfold is_sensitive_name in Hs. unfold visit_sensitive, redact_named_scalar, redact_named_container.
  destruct (classify self key) as [c|] eqn:Hc; [|done].
  destruct v, w; rewrite ?(masked_scalar self key c) by done; try done; exfalso; naive_solver.
Qed.

(** The stream is a function of what is not masked. *)
Lemma stream_hides v : ∀ w, hides self v w → ∀ depth path records,
  stream_value self depth v path records = stream_value self depth w path records.
Proof.
  induction v as [|b|n|s|items IH|o IH] using value_ind'; intros w Hh depth path records;
    inversion Hh as [|a b' Hf|o' p Hf]; subst; try done; cbn [stream_value].
  - erewrite (stream_items_ext _ _ items b'); [done|].
    clear -IH Hf. induction Hf as [|x y a b Hxy _ IHf]; constructor; apply Forall_cons in IH as [? ?]; auto.
  - erewrite (stream_fields_ext _ _ o p); [done|].
    clear -IH Hf. induction Hf as [|[k v] [k' w] o p [Hk Hxy] _ IHf]; constructor; apply Forall_cons in IH as [Hv ?]; auto.
    cbn [fst snd] in *. subst k'. split; [done|]. intros records.
    destruct (is_sensitive_name self k) eqn:Hs; [by rewrite (sensitive_hides k v w)|].
    destruct Hxy as [Hxy|[Hm _]]; [by apply Hv|].
    unfold is_sensitive_name in Hs. unfold masked in Hm. by destruct (classify self k).
Qed.

Lemma stream_items_some {V} (f : str → V → list RedactionRecord → Stream) items :
  Forall (fun v => ∀ i records, is_Some (f i v records)) items → ∀ i records, is_Some (stream_items f i items records).
Proof.
  induction 1 as [|v items Hv _ IH]; intros i records; [done|]. cbn [stream_items].
  destruct (Hv (lit "[" ++ show i ++ lit "]") records) as [[ps r] ->]. cbn [mbind option_bind].
  destruct (IH (i + 1) r) as [[rest r'] ->]. done.
Qed.

Lemma stream_fields_some {V} (f : str → V → list RedactionRecord → Stream) o :
  Forall (fun kv => ∀ records, is_Some (f kv.1 kv.2 records)) o →
  ∀ first records, is_Some (stream_fields f first o records).
Proof.
  induction 1 as [|[k v] o Hv _ IH]; intros first records; [done|]. cbn [stream_fields].
  destruct (Hv records) as [[ps r] Hr]. cbn [fst snd] in Hr. rewrite Hr. cbn [mbind option_bind].
  destruct (IH false r) as [[rest r'] ->]. done.
Qed.

Lemma stream_some v : ∀ depth path records,
  (depth + nesting v <= MAX_JSON_DEPTH)%nat → is_Some (stream_value self depth v path records).
Proof.
  induction v as [|b|n|s|items IH|o IH] using value_ind'; intros depth path records Hd; try done; cbn [stream_value nesting] in *.
  - by destruct (redact_text_value self s path records).
  - destruct (Nat.leb_spec MAX_JSON_DEPTH depth); [lia|].
    assert (Forall (fun v => nesting v <= MAX_JSON_DEPTH - S depth)%nat items) as Hl by (apply max_of_elem; lia).
    destruct (stream_items _ 0 items records) as [[ps r]|] eqn:He; [done|]. apply eq_None_not_Some in He as [].
    apply stream_items_some. rewrite Forall_forall in IH, Hl |- *.
    intros v Hv i r. specialize (Hl v Hv). apply IH; [done|lia].
  - destruct (Nat.leb_spec MAX_JSON_DEPTH depth); [lia|].
    assert (Forall (fun kv => nesting kv.2 <= MAX_JSON_DEPTH - S depth)%nat o) as Hl
      by (apply (max_of_elem (fun kv => nesting kv.2)); lia).
    destruct (stream_fields _ true o records) as [[ps r]|] eqn:He; [done|]. apply eq_None_not_Some in He as [].
    apply stream_fields_some. rewrite Forall_forall in IH, Hl |- *.
    intros kv Hv r. specialize (Hl kv Hv). destruct (is_sensitive_name self kv.1).
    + by destruct (visit_sensitive self kv.1 kv.2 _ r).
    + apply IH; [done|lia].
Qed.
End Streams.

(** ** Reading a stored body *)

Section Bodies.
Context {number : Type} `{RedactionEnv number} `{!BodyAccess number} `{!JsonSource number} `{!BodyFiles number} `{Matcher}.

(** The stored body can be read. *)
Definition opens (reference : StoredBodyReference) (r : Reader) : Prop :=
  failure r = None ∧
  match file_path reference with
  | Some path => open_body_reader path = Ok r
  | None => decode_inline_reference (number := number) reference = Ok (available r)
  end.

(** It is one JSON document, nested no deeper than the parsers accept. *)
Definition is_document (r : Reader) (v : value number) : Prop :=
  utf8_valid (available r) = true ∧ json_from_reader r = Ok v ∧ deserialize r = Ok (Some v) ∧
  from_str (available r) = Some v ∧ (nesting v <= MAX_JSON_DEPTH)%nat.

Lemma opens_source reference r :
  opens reference r → ∃ source, new_source (number := number) reference = Ok source ∧ open_source (number := number) source = Ok r.
Proof.
  intros [Hf Ho]. unfold new_source. destruct (file_path reference) as [path|].
  - eexists. split; [done|]. cbn [open_source]. by rewrite Ho.
  - rewrite Ho. eexists. split; [done|]. cbn [open_source]. destruct r; cbn in *. by subst.
Qed.

Lemma read_opens reference r max_bytes :
  opens reference r → 0 <= max_bytes <= usize_max →
  read_body_bytes (number := number) reference 0 max_bytes =
    Ok {| bb_bytes := take (Z.to_nat max_bytes) (available r); bb_decoded_size := len (available r);
          bb_wire_size := wire_size reference (len (available r)); bb_offset := 0;
          bb_returned := len (take (Z.to_nat max_bytes) (available r));
          bb_has_more := max_bytes <? len (available r); bb_capture_truncated := truncated reference |}.
Proof.
  intros [Hf Ho] Hm. unfold read_body_bytes. assert (0 <= len (available r)) as Hlen by (unfold len; lia).
  assert (len (take (Z.to_nat max_bytes) (available r)) = Z.min max_bytes (len (available r))) as Ht
    by (unfold len; rewrite length_take; lia).
  assert ((Z.min max_bytes (len (available r)) <? len (available r)) = (max_bytes <? len (available r))) as Hc by lia.
  destruct (file_path reference) as [path|].
  - rewrite (range_of_reader path r) by (done || lia). cbn [map_err rbind br_bytes br_original_size br_offset br_returned br_truncated].
    change (drop (Z.to_nat 0) (available r)) with (available r).
    rewrite Ht, Z.add_0_l, Hc. done.
  - rewrite Ho. cbn [rbind]. destruct (Z.ltb_spec (len (available r)) 0); [lia|].
    assert (usize_add (Z.min 0 (len (available r))) max_bytes = max_bytes) as -> by (unfold usize_add, sat_add; lia).
    replace (Z.min 0 (len (available r))) with 0 by lia. rewrite Ht, Hc, Z.sub_0_r. do 2 f_equal.
    unfold slice. change (drop (Z.to_nat 0) (available r)) with (available r). unfold len. rewrite Nat.sub_0_r. destruct (decide (length (available r) <= Z.to_nat max_bytes)%nat).
    + rewrite !take_ge by lia. done.
    + f_equal. lia.
Qed.

Lemma sizes_opens reference r :
  opens reference r →
  body_sizes (number := number) reference =
    Ok {| bs_wire := wire_size reference (len (available r)); bs_decoded := len (available r);
          bs_capture_truncated := truncated reference |}.
Proof.
  intros [Hf Ho]. unfold body_sizes. destruct (file_path reference) as [path|]; [|by rewrite Ho].
  rewrite (range_of_reader path r) by (done || unfold len; lia). done.
Qed.
End Bodies.

(** ** Bodies that differ in masked values only *)

Section Blind.
Context {number : Type} `{RedactionEnv number} `{!BodyAccess number} `{!JsonSource number} `{!BodyFiles number} `{Matcher}.
Context (self : Redactor).

(** Two stored JSON documents of the same size that differ in masked fields *)
Definition alike (reference reference' : StoredBodyReference) : Prop :=
  mime_type reference = mime_type reference' ∧ encoding reference = encoding reference' ∧
  size_bytes reference = size_bytes reference' ∧ truncated reference = truncated reference' ∧
  ∃ r r' v w, opens reference r ∧ opens reference' r' ∧ is_document r v ∧ is_document r' w ∧ hides self v w ∧
    len (available r) = len (available r').

Lemma alike_sizes reference reference' :
  alike reference reference' → body_sizes (number := number) reference = body_sizes (number := number) reference'.
Proof.
  intros (_ & _ & Hs & Ht & r & r' & v & w & Ho & Ho' & _ & _ & _ & Hl).
  rewrite (sizes_opens _ _ Ho), (sizes_opens _ _ Ho'). unfold wire_size. by rewrite Hs, Ht, Hl.
Qed.

Lemma view_alike session_id part reference reference' (v : BodyView) :
  alike reference reference' → view_json session_id part reference v = view_json session_id part reference' v.
Proof. intros (Hm & He & _). unfold view_json. by rewrite Hm, He. Qed.

Lemma answer_alike session_id part reference reference' redacted (v : BodyView) :
  alike reference reference' →
  answer_view session_id part reference redacted v = answer_view session_id part reference' redacted v.
Proof. intros Ha. unfold answer_view. by rewrite (view_alike _ _ reference reference'). Qed.

Lemma page_alike session_id part reference reference' sizes offset max_bytes :
  alike reference reference' →
  redacted_page self session_id part reference sizes offset max_bytes
    = redacted_page self session_id part reference' sizes offset max_bytes.
Proof.
  intros Ha. pose proof Ha as (_ & _ & _ & _ & r & r' & v & w & Ho & Ho' & (Hu & _ & _ & Hp & _) & (Hu' & _ & _ & Hp' & _) & Hh & Hl).
  unfold redacted_page, read_full_body.
  rewrite (read_opens reference r), (read_opens reference' r') by (done || (unfold MAX_BODY_SCAN_BYTES, usize_max, u64_max; lia)).
  cbn [rbind bb_bytes bb_has_more]. rewrite <- Hl. destruct (Z.ltb_spec MAX_BODY_SCAN_BYTES (len (available r))) as [|Hs]; [done|].
  rewrite !take_ge by (unfold len in *; lia). unfold from_utf8. rewrite Hu, Hu'.
  assert (redact_text self (available r) = redact_text self (available r')) as ->
    by (unfold redact_text; by rewrite Hp, Hp', (redact_hides self v w Hh)).
  destruct (slice_text_page _ offset max_bytes); [|done]. cbn [rbind]. by rewrite (answer_alike _ _ reference reference').
Qed.

Lemma body_page_alike base64_encode request session_id part reference reference' sizes configured :
  alike reference reference' → discloses (rq_redaction_mode request) = false →
  read_body_page base64_encode self request session_id part reference sizes configured
    = read_body_page base64_encode self request session_id part reference' sizes configured.
Proof.
  intros Ha Hm. unfold read_body_page. destruct (configured <? 1); [done|]. destruct (rq_redaction_mode request); try done.
  by rewrite (page_alike _ _ reference reference').
Qed.

Lemma metadata_alike session_id part reference reference' sizes :
  alike reference reference' →
  metadata_answer (number := number) session_id part reference sizes = metadata_answer session_id part reference' sizes.
Proof. intros Ha. unfold metadata_answer. by rewrite (view_alike _ _ reference reference'). Qed.

(** The values are the same, the hash of the original apart. *)
Lemma extraction_alike reference reference' sizes segments :
  alike reference reference' → body_sizes (number := number) reference = Ok sizes →
  let extract reference := extract_json_paths self reference (bs_decoded sizes) segments false in
  (∃ e, extract reference = Err e ∧ extract reference' = Err e) ∨
  ∃ st hash hash', extract reference = Ok (extraction_of segments hash st) ∧ extract reference' = Ok (extraction_of segments hash' st).
Proof.
  intros (_ & _ & _ & _ & r & r' & v & w & Ho & Ho' & (Hu & Hj & _ & _ & Hn) & (Hu' & Hj' & _ & _ & Hn') & Hh & Hl) Hs extract.
  rewrite (sizes_opens _ _ Ho) in Hs. injection Hs as <-. unfold extract. cbn [bs_decoded].
  destruct (decide (size_allowed (len (available r)) segments)) as [Hsize|Hsize].
  - right. destruct (capture_ok self false v [build_path_tree segments] (lit "$") (has_terminals (build_path_tree segments)) 0 Hn
      (new_state (length segments))) as [[c st] Hc]. pose proof Hc as Hc'. rewrite (capture_hides self v w Hh) in Hc' by done.
    pose proof Hsize as [Hsz _]. destruct Ho as [Hf Ho], Ho' as [Hf' Ho'].
    destruct (extract_visits self false reference v (len (available r)) segments c st) as [hash ->]; [|done|done|].
    { exists r. destruct (file_path reference); destruct r; cbn in *; subst; done. }
    destruct (extract_visits self false reference' w (len (available r)) segments c st) as [hash' ->]; [|done|done|].
    { exists r'. rewrite Hl in Hsz. destruct (file_path reference'); destruct r'; cbn in *; subst; done. }
    by exists st, hash, hash'.
  - left. unfold extract_json_paths. destruct (Z.ltb_spec MAX_JSON_PATH_SCAN_BYTES (len (available r))); [by eexists|].
    destruct (existsb _ segments && _) eqn:He; [by eexists|]. destruct Hsize. split; [done|]. intros Hroot.
    apply andb_false_iff in He as [He|He]; [|by apply Z.ltb_ge in He].
    assert (existsb (fun path => bool_decide (path = [])) segments = true) as He'; [|congruence].
    apply existsb_exists. exists []. by rewrite bool_decide_true, <- list_elem_of_In.
Qed.

Lemma search_alike reference reference' size query ctx limit :
  alike reference reference' →
  search_text self reference size query ctx false limit = search_text self reference' size query ctx false limit.
Proof.
  intros (_ & _ & _ & _ & r & r' & v & w & Ho & Ho' & (_ & _ & Hd & _ & Hn) & (_ & _ & Hd' & _ & _) & Hh & _).
  destruct (opens_source _ _ Ho) as (s & Hs & Hr), (opens_source _ _ Ho') as (s' & Hs' & Hr').
  unfold search_text. rewrite Hs, Hs'. destruct (limit <? size); [done|]. destruct (new_sink query ctx); [|done].
  rewrite Hr, Hr'. unfold try_stream_redacted_json. rewrite Hd, Hd', <- (stream_hides self v w Hh).
  destruct (stream_some self v 0 (lit "$") []) as [[ps records] ->]; done.
Qed.

Lemma extracted_alike part reference reference' sizes json_paths :
  alike reference reference' → body_sizes (number := number) reference = Ok sizes →
  (∃ e, extracted self part reference sizes json_paths false = Err e ∧ extracted self part reference' sizes json_paths false = Err e) ∨
  ∃ x x', extracted self part reference sizes json_paths false = Ok x ∧ extracted self part reference' sizes json_paths false = Ok x' ∧
    ∀ search, extracted_view false sizes x search = extracted_view false sizes x' search.
Proof.
  intros Ha Hs. unfold extracted. destruct json_paths as [|path json_paths]; [right; by exists None, None|].
  destruct (extraction_alike reference reference' sizes (path :: json_paths) Ha Hs) as [(e & He & He')|(st & h & h' & He & He')];
    rewrite He, He'; cbn [map_err rbind]; [left; by eexists|right; by do 2 eexists].
Qed.

Lemma extract_body_alike request session_id part reference reference' sizes json_paths text_query :
  alike reference reference' → body_sizes (number := number) reference = Ok sizes → rq_redaction_mode request ≠ Raw →
  extract_body self request session_id part reference sizes json_paths text_query
    = extract_body self request session_id part reference' sizes json_paths text_query.
Proof.
  intros Ha Hs Hraw. unfold extract_body. rewrite (bool_decide_false _ Hraw).
  destruct (bool_decide _ && _); [done|].
  assert (∀ context, searched self part reference sizes text_query context false
                   = searched self part reference' sizes text_query context false) as Hq
    by (intros; unfold searched; destruct text_query; [by rewrite (search_alike reference reference')|done]).
  rewrite Hq. destruct (extracted_alike part reference reference' sizes json_paths Ha Hs) as [(e & -> & ->)|(x & x' & -> & -> & Hx)];
    [done|]. destruct (searched self part reference' sizes text_query _ false) as [[search|e]|]; try done.
  cbn [mbind option_bind rbind]. by rewrite Hx, (answer_alike _ _ reference reference').
Qed.

(** A body that is not stored as a form has no parameters. *)
Lemma no_form_alike urlencoded request session_id part reference reference' sizes names :
  alike reference reference' → form_format (default [] (mime_type reference)) = None →
  extract_form_body urlencoded self request session_id part reference sizes names
    = extract_form_body urlencoded self request session_id part reference' sizes names.
Proof.
  intros (Hm & _ & _ & _ & r & r' & v & w & Ho & Ho' & _ & _ & _ & Hl) Hf. unfold extract_form_body, read_full_body.
  rewrite (read_opens reference r), (read_opens reference' r') by (done || (unfold MAX_BODY_SCAN_BYTES, usize_max, u64_max; lia)).
  cbn [rbind bb_bytes bb_has_more]. rewrite <- Hl, <- Hm, Hf. by destruct (MAX_BODY_SCAN_BYTES <? len (available r)).
Qed.

(** The databases hold the same sessions; the bodies agree up to masked fields. *)
Definition dbs_alike (db db' : SessionDb) : Prop :=
  db_sessions db = db_sessions db' ∧
  ∀ id part, db_body_reference db id part = db_body_reference db' id part ∨
    ∃ reference reference', db_body_reference db id part = Ok (Some reference) ∧
      db_body_reference db' id part = Ok (Some reference') ∧ alike reference reference'.

Lemma required_reference db id part reference :
  load_required_body_reference db id part = Ok reference → db_body_reference db id part = Ok (Some reference).
Proof. unfold load_required_body_reference. destruct (db_body_reference db id part) as [[r|]|]; cbn; intros [= <-]; done. Qed.

Lemma references_alike db db' id part :
  dbs_alike db db' →
  load_required_body_reference db id part = load_required_body_reference db' id part ∨
  ∃ reference reference', load_required_body_reference db id part = Ok reference ∧
    load_required_body_reference db' id part = Ok reference' ∧ alike reference reference'.
Proof.
  intros [_ Hd]. unfold load_required_body_reference. destruct (Hd id part) as [->|(r & r' & -> & -> & Ha)]; [by left|].
  right. by exists r, r'.
Qed.
End Blind.

(** ** Permissions *)

Section Permissions.
Context `{AgentHost}.

(** The permission is set, or a temporary grant for the sessions was approved and used. *)
Definition permitted (capability : AgentCapability) (sessions : list str) (config : AgentAccessConfig) : Prop :=
  access_config = Ok config ∧
  (ac_allows config capability = true ∨
   ac_policy config capability = Some Ask ∧ ∃ summary reason, use_grant capability summary sessions reason = Ok tt).

Lemma ensured capability summary sessions reason config :
  ensure_capability capability summary sessions reason = Ok config → permitted capability sessions config.
Proof.
  unfold ensure_capability, permitted. destruct access_config as [config'|]; [cbn [rbind]|done].
  destruct (ac_allows config' capability) eqn:Ha; [intros [= <-]; auto|].
  destruct (ac_policy config' capability) as [[|]|] eqn:Hp; try done.
  destruct (use_grant capability summary sessions reason) as [[]|] eqn:Hu; [|done]. intros [= <-]. eauto 6.
Qed.

Lemma body_access_ok request config :
  body_access request = Ok config →
  permitted ReadBodies [rq_session_id request] config ∧
  (discloses (rq_redaction_mode request) = true → ∃ config', permitted ReadRawBodies [rq_session_id request] config').
Proof.
  unfold body_access. destruct (ensure_capability ReadBodies _ _ _) as [c|] eqn:Hb; [cbn [rbind]|done].
  apply ensured in Hb. destruct (discloses _); [|by intros [= <-]].
  destruct (ensure_capability ReadRawBodies _ _ _) as [c'|] eqn:Hr; [cbn [rbind]|done].
  apply ensured in Hr. intros [= <-]. eauto.
Qed.

Lemma fields_access_ok request config :
  fields_access request = Ok config →
  permitted ReadBodies (fq_session_ids request) config ∧
  (fq_redaction_mode request = Raw → ∃ config', permitted ReadRawBodies (fq_session_ids request) config').
Proof.
  unfold fields_access. destruct (ensure_capability ReadBodies _ _ _) as [c|] eqn:Hb; [cbn [rbind]|done].
  apply ensured in Hb. case_bool_decide; [|by intros [= <-]].
  destruct (ensure_capability ReadRawBodies _ _ _) as [c'|] eqn:Hr; [cbn [rbind]|done].
  apply ensured in Hr. intros [= <-]. eauto.
Qed.
End Permissions.

(** C15: No stored body is shown, and nothing of the store can be learned, without the
    permission: either reading bodies is permitted for the requested sessions
    (the setting, or a used temporary grant for just them) and, when the answer is
    not redacted, reading raw bodies as well, or the answer is one error that is
    the same whatever sessions and bodies are stored. *)
Theorem bodies_need_permission {number : Type} `{RedactionEnv number} `{!BodyAccess number} `{!JsonSource number}
    `{!BodyFiles number} `{Matcher} `{AgentHost} (base64_encode : bytes → str) (urlencoded : bytes → list (str * str)) :
  (∀ request : GetSessionBodyRequest,
     (∃ config, permitted ReadBodies [rq_session_id request] config) ∧
     (discloses (rq_redaction_mode request) = true → ∃ config, permitted ReadRawBodies [rq_session_id request] config) ∨
     ∃ e, ∀ db, get_session_body base64_encode urlencoded db request = Err e) ∧
  (∀ request : GetSessionFieldsRequest,
     (∃ config, permitted ReadBodies (fq_session_ids request) config) ∧
     (fq_redaction_mode request = Raw → ∃ config, permitted ReadRawBodies (fq_session_ids request) config) ∨
     ∃ e, ∀ db, get_session_fields (number := number) db request = Err e).
Proof.
  split; intros request; [unfold get_session_body|unfold get_session_fields];
    (destruct require_session_details; cbn [rbind]; [|right; by eexists]).
  - destruct (body_access request) as [config|] eqn:Ha; [|right; by eexists].
    left. apply body_access_ok in Ha as [Hb Hr]. eauto.
  - destruct (fields_access request) as [config|] eqn:Ha; [|right; by eexists].
    left. apply fields_access_ok in Ha as [Hb Hr]. eauto.
Qed.

(** C4: What a redacted mode of the body tool answers is no oracle for the masked
    values: for two captures whose JSON bodies have the same size and differ only
    in masked fields, the whole answer is the same, be it a page of the body with
    its digest, extracted fields, hits of a search, metadata or an error.  Form
    parameters may be requested of bodies that are not stored with the content
    type of a form; of a form, the names of the parameters are shown as captured
    (BodyForms). *)
Theorem redacted_answers_hide {number : Type} `{RedactionEnv number} `{!BodyAccess number} `{!JsonSource number}
    `{!BodyFiles number} `{Matcher} `{AgentHost} (base64_encode : bytes → str) (urlencoded : bytes → list (str * str))
    (config : AgentAccessConfig) (self : Redactor) (db db' : SessionDb) (request : GetSessionBodyRequest) :
  access_config = Ok config → redactor_of config = Ok self → dbs_alike self db db' →
  discloses (rq_redaction_mode request) = false →
  (form_requested request = true → ∀ id reference, db_body_reference db id (rq_part request) = Ok (Some reference) →
     form_format (default [] (mime_type reference)) = None) →
  get_session_body base64_encode urlencoded db request = get_session_body base64_encode urlencoded db' request.
Proof.
  intros Hc Hself Hd Hm Hform. unfold get_session_body. destruct require_session_details; [cbn [rbind]|done].
  destruct (body_access request) as [config'|] eqn:Ha; [cbn [rbind]|done].
  assert (config' = config) as -> by (destruct (body_access_ok _ _ Ha) as [[Hc' _] _]; congruence).
  destruct (body_arguments request) as [[[json_paths names] text_query]|]; [cbn [rbind]|done].
  rewrite Hself. cbn [rbind]. unfold require_session_id. rewrite <- (proj1 Hd).
  destruct (db_sessions db) as [sessions|]; [cbn [rbind]|done].
  destruct (lookup_session_id sessions (trim (rq_session_id request))) as [id| |candidates]; [cbn [rbind]|done|done].
  destruct (references_alike self db db' id (rq_part request) Hd) as [->|(r & r' & Hr0 & Hr' & Hr)]; [done|].
  rewrite Hr0, Hr'. cbn [rbind].
  rewrite <- (alike_sizes self r r' Hr). destruct (body_sizes r) as [sizes|] eqn:Hs; [cbn [rbind]|done].
  destruct (bs_decoded sizes =? 0); [done|].
  rewrite (metadata_alike self _ _ r r' sizes Hr), (body_page_alike self base64_encode request _ _ r r') by done.
  rewrite (extract_body_alike self request _ _ r r' sizes) by (done || by intros Hraw; rewrite Hraw in Hm).
  destruct (form_requested request) eqn:Hf; [|done].
  by rewrite (no_form_alike self urlencoded request _ _ r r' sizes names Hr (Hform eq_refl _ _ (required_reference _ _ _ _ Hr0))).
Qed.

(** ** Pages *)

(** What a client does with the pages: it asks for the next one until there is none. *)
Fixpoint read_pages (fuel : nat) (text : str) (offset max_bytes : Z) : option (list TextPage) :=
  match fuel with
  | O => None
  | S fuel =>
      match slice_text_page text offset max_bytes with
      | Err _ => None
      | Ok page =>
          match tp_next_offset page with
          | None => Some [page]
          | Some next => pages ← read_pages fuel text next max_bytes; Some (page :: pages)
          end
      end
  end.

Lemma floor_above_spec text offset end_ :
  at_boundary text offset = true → (offset <= end_)%nat →
  (offset <= floor_above text offset end_ <= end_)%nat ∧ at_boundary text (floor_above text offset end_) = true.
Proof.
  intros Ho. induction end_ as [|e IH]; intros Hle; cbn [floor_above].
  - replace offset with 0%nat in Ho by lia. auto with lia.
  - destruct (Nat.ltb_spec offset (S e)); cbn [andb].
    + destruct (at_boundary text (S e)) eqn:Hb; cbn [negb]; [auto with lia|]. destruct IH; [lia|]. auto with lia.
    + replace (S e) with offset by lia. auto with lia.
Qed.

(** The character at a boundary ends at the next one. *)
Lemma next_boundary text i :
  utf8_valid text = true → at_boundary text i = true → (i < length text)%nat →
  ∃ j, (i < j <= i + 4)%nat ∧ at_boundary text j = true.
Proof.
  intros Hv Hb Hi. pose proof (utf8_drop_boundary _ _ Hv Hb) as Hd.
  destruct (drop i text) as [|a s] eqn:Hs; [apply (f_equal length) in Hs; rewrite length_drop in Hs; cbn in Hs; lia|].
  destruct (utf8_first a s Hd) as (ch & r & Heq & Hc & Hr). pose proof (char_short _ Hc).
  exists (i + length ch)%nat. split; [lia|]. rewrite <- at_boundary_drop, Hs, Heq by lia. by apply boundary_between.
Qed.

Lemma page_end_spec text start max_bytes :
  utf8_valid text = true → at_boundary text start = true → 1 <= max_bytes → len text <= usize_max →
  (start <= page_end text start max_bytes <= length text)%nat ∧ at_boundary text (page_end text start max_bytes) = true ∧
  ((start < length text)%nat → (start < page_end text start max_bytes)%nat) ∧
  Z.of_nat (page_end text start max_bytes) - Z.of_nat start <= Z.max 4 max_bytes.
Proof.
  intros Hv Hb Hm Hlen. pose proof (at_boundary_le _ _ Hb) as Hle. unfold page_end.
  set (limit := Z.to_nat _). assert (start <= limit <= length text)%nat as Hlimit
    by (unfold limit, usize_add, sat_add, len in *; lia).
  assert (Z.of_nat limit - Z.of_nat start <= max_bytes) as Hlow by (unfold limit, usize_add, sat_add, len in *; lia).
  destruct (floor_above_spec text start limit Hb) as [Hf Hfb]; [lia|].
  destruct (Nat.eqb_spec (floor_above text start limit) start) as [He|He], (Nat.ltb_spec start (length text)) as [Hs|Hs],
    (Z.ltb_spec 0 max_bytes); cbn [andb]; try lia; try (split_and!; [lia|lia|done|lia|lia]).
  destruct (next_boundary text start Hv Hb Hs) as (j & Hj & Hjb).
  destruct (ceil_at_bounds text j (S start) ltac:(lia) Hjb) as [Hc Hcb]. pose proof (at_boundary_le _ _ Hjb).
  split_and!; [lia|lia|done|lia|lia].
Qed.

Lemma read_pages_spec text max_bytes fuel : ∀ start,
  utf8_valid text = true → at_boundary text start = true → 1 <= max_bytes → len text <= usize_max →
  (length text - start < fuel)%nat →
  ∃ pages, read_pages fuel text (Z.of_nat start) max_bytes = Some pages ∧ concat (map tp_text pages) = drop start text ∧
    Forall (fun page => utf8_valid (tp_text page) = true ∧ tp_returned page = len (tp_text page) ∧
                        tp_returned page <= Z.max 4 max_bytes) pages.
Proof.
  induction fuel as [|fuel IH]; intros start Hv Hb Hm Hlen Hfuel; [lia|].
  pose proof (at_boundary_le _ _ Hb) as Hle. destruct (page_end_spec text start max_bytes Hv Hb Hm Hlen) as (He & Heb & Hgt & Hsize).
  cbn [read_pages]. unfold slice_text_page. rewrite Nat2Z.id, Hb. destruct (Z.ltb_spec (len text) (Z.of_nat start)); [unfold len in *; lia|].
  cbn [negb]. set (end_ := page_end text start max_bytes) in *.
  assert (utf8_valid (slice start end_ text) = true) as Hu by (apply utf8_slice; done || lia).
  assert (Z.of_nat end_ - Z.of_nat start = len (slice start end_ text)) as Hret by (unfold len; rewrite length_slice by lia; lia).
  cbn [tp_next_offset]. destruct (Nat.ltb_spec end_ (length text)) as [Hmore|Hlast].
  - destruct (IH end_ Hv Heb Hm Hlen) as (pages & -> & Hp & Hall); [lia|]. eexists. split; [done|].
    split; [|by constructor]. cbn [map concat tp_text]. by rewrite Hp, <- slice_prefix by lia.
  - eexists. split; [done|]. split; [|by constructor]. cbn [map concat tp_text]. rewrite app_nil_r.
    unfold slice. apply take_ge. rewrite length_drop. lia.
Qed.

(** C35: Asking for one page after another, with any page size from one byte, ends after
    finitely many pages and gives exactly the text: every page is whole characters,
    no longer than the larger of the requested size and four bytes (a page holds at
    least one character), and the pages follow each other with no gap and no overlap. *)
Theorem pages_cover_text (text : str) (max_bytes : Z) :
  utf8_valid text = true → 1 <= max_bytes → len text <= usize_max →
  ∃ pages, read_pages (S (length text)) text 0 max_bytes = Some pages ∧ concat (map tp_text pages) = text ∧
    Forall (fun page => utf8_valid (tp_text page) = true ∧ tp_returned page = len (tp_text page) ∧
                        tp_returned page <= Z.max 4 max_bytes) pages.
Proof.
  intros Hv Hm Hlen. apply (read_pages_spec text max_bytes _ 0); [done|by apply valid_boundary_0|done|done|lia].
Qed.

Lemma pages_cover_text_witness :
  ∃ pages, read_pages 9 [97; 226; 130; 172; 195; 169; 98; 99] 0 2 = Some pages ∧
    map tp_text pages = [[97]; [226; 130; 172]; [195; 169]; [98; 99]].
Proof.
  destruct (pages_cover_text [97; 226; 130; 172; 195; 169; 98; 99] 2) as (pages & Hp & _);
    [vm_compute; reflexivity|lia|vm_compute; discriminate|].
  exists pages. split; [exact Hp|]. vm_compute in Hp. by injection Hp as <-.
Defined.

(** ** A concrete host *)

Definition sample_files : @BodyFiles Z sample_access.
Proof.
  refine (@Build_BodyFiles Z sample_access (fun path offset max_bytes =>
    let b := take (Z.to_nat max_bytes) (drop (Z.to_nat offset) path) in
    Ok {| br_bytes := b; br_original_size := len path; br_offset := offset; br_returned := len b;
          br_truncated := offset + len b <? len path |}) _).
  intros path r offset max_bytes [= <-] _ _ _. done.
Defined.

Definition sample_config : AgentAccessConfig :=
  {| ac_allows capability := bool_decide (capability = ReadBodies); ac_policy _ := None;
     ac_redaction := default_redaction; ac_max_body_bytes := 1024 |}.

Definition sample_host : AgentHost :=
  {| access_config := Ok sample_config; use_grant _ _ _ _ := Ok tt; session_details := true; timed_out _ := false;
     join_error _ := []; stored_hash_key := [1; 2; 3; 4; 5; 6; 7; 8] |}.

Definition sample_db (path : str) : SessionDb :=
  {| db_sessions := Ok [lit "session-1"];
     db_body_reference _ _ := Ok (Some (sample_reference path)) |}.

Definition sample_request : GetSessionBodyRequest :=
  {| rq_session_id := lit "session-1"; rq_part := ResponsePart; rq_redaction_mode := RedactedText; rq_offset := None;
     rq_max_bytes := Some 1000; rq_json_paths := []; rq_text_query := None; rq_context_bytes := None;
     rq_include_form_params := false; rq_form_param_names := [] |}.

Lemma sample_document path password :
  utf8_valid path = true → @from_str Z sample_env path = Some (sample_doc password) →
  @is_document Z sample_env sample_access sample_source {| available := path; failure := None |} (sample_doc password).
Proof.
  intros Hu Hp. unfold is_document. cbn [json_from_reader sample_source deserialize sample_access available]. rewrite Hp.
  split_and!; try done. apply Nat.leb_le. vm_compute. reflexivity.
Qed.

Lemma sample_alike :
  @dbs_alike Z sample_env sample_access sample_source sample_redactor (sample_db (lit "a")) (sample_db (lit "b")).
Proof.
  split; [done|]. intros id part. right. exists (sample_reference (lit "a")), (sample_reference (lit "b")).
  split; [done|]. split; [done|]. do 4 (split; [done|]).
  exists {| available := lit "a"; failure := None |}, {| available := lit "b"; failure := None |},
    (sample_doc (lit "hunter2")), (sample_doc (lit "swordfish")).
  split_and!; [done|done|by apply sample_document|by apply sample_document|apply sample_hides|done].
Qed.

Lemma redacted_answers_hide_witness :
  let answer path :=
    @get_session_body Z sample_env sample_access sample_source sample_files exact_matcher sample_host
      (fun b => b) (fun _ => []) (sample_db path) sample_request in
  answer (lit "a") = answer (lit "b").
Proof.
  apply (@redacted_answers_hide Z sample_env sample_access sample_source sample_files exact_matcher sample_host
    (fun b => b) (fun _ => []) sample_config sample_redactor);
    [reflexivity|reflexivity|apply sample_alike|reflexivity|intros [=]].
Defined.

(** The sample request is answered, in redacted form. *)
Lemma redacted_answer_sample :
  ∃ data meta,
    @get_session_body Z sample_env sample_access sample_source sample_files exact_matcher sample_host
      (fun b => b) (fun _ => []) (sample_db (lit "a")) sample_request = Ok (data, meta) ∧ tm_redacted meta = true.
Proof.
  assert (@opens Z sample_access (sample_reference (lit "a")) {| available := lit "a"; failure := None |}) as Ho by done.
  unfold get_session_body. cbn [rbind require_session_details sample_host session_details].
  change (body_access sample_request) with (Ok (E := ToolError) sample_config). cbn [rbind].
  change (body_arguments sample_request) with (Ok (E := ToolError) ([] : list (list JsonPathSegment), [] : list str, None : option str)).
  cbn [rbind]. change (redactor_of sample_config) with (Ok (E := ToolError) sample_redactor). cbn [rbind].
  change (require_session_id (sample_db (lit "a")) (rq_session_id sample_request)) with (Ok (E := ToolError) (lit "session-1")).
  cbn [rbind]. change (load_required_body_reference (sample_db (lit "a")) (lit "session-1") (rq_part sample_request))
    with (Ok (E := ToolError) (sample_reference (lit "a"))). cbn [rbind]. rewrite (sizes_opens _ _ Ho). cbn [rbind].
  change (len (available {| available := lit "a"; failure := None |})) with 1. cbn [bs_decoded Z.eqb].
  change (bool_decide (rq_redaction_mode sample_request = Metadata)) with false.
  change (form_requested sample_request) with false.
  change (negb (bool_decide (([] : list (list JsonPathSegment)) = [])) || bool_decide ((None : option str) ≠ None)) with false.
  cbv iota. unfold run_blocking, read_body_page. cbn [timed_out sample_host ac_max_body_bytes sample_config].
  change (1024 <? 1) with false. cbn [rq_redaction_mode sample_request rq_max_bytes rq_offset default from_option].
  unfold redacted_page, read_full_body. rewrite (read_opens _ _ MAX_BODY_SCAN_BYTES Ho) by (vm_compute; split; discriminate).
  cbn [rbind bb_bytes bb_has_more]. rewrite take_ge by (change (length _) with 1%nat; unfold MAX_BODY_SCAN_BYTES; lia).
  do 2 eexists. split; [vm_compute; reflexivity|reflexivity].
Qed.
