(* ===== verification/BodyStore.v ===== *)
(** * BodyStore: the files of captured bodies (db/src/body_store.rs)

    Models the checks that keep a stored path inside the directory of the store
    and the readers behind them, on Unix paths ([MapRules]) and over a file system
    at rest; BodyStoreRace models the writers and what runs beside them.  The
    readers discharge the interface the body tools use ([BodyFiles]). *)

From S2P Require Import Prelude Str Utf8 TextSearch Redaction RedactedSearch BodyStream BodyTools.
From S2P Require Import Patterns JsonPath RuleTypes RuleManagers RuleSelection HttpIo Rewrite MapRules.

(** ** Definitions: errors and the file system *)

Abbreviation Reader := RedactedSearch.Reader.

Inductive DbError := Validation (message : str) | Io (error : str).

(** [Display] *)
Definition db_error_text (e : DbError) : str :=
  match e with Validation m => lit "validation error: " ++ m | Io m => lit "IO error: " ++ m end.

Record FileMetadata := { md_is_symlink : bool; md_is_file : bool; md_len : Z }.

(** The system calls; [open_nofollow] opens with [O_NOFOLLOW]. *)
Class BodyFs := {
  body_canonicalize : bytes → result bytes str;
  symlink_metadata : bytes → result FileMetadata str;
  open_nofollow : bytes → result Reader str;
  read_path : bytes → result bytes str;
  path_exists : bytes → bool;
  (** a canonical path is absolute and without dots, and its own canonical path *)
  canonical_path p q : body_canonicalize p = Ok q → body_canonicalize q = Ok q ∧ starts_with q [slash] = true;
  (** a link is not followed: what is opened in a canonical directory lies there *)
  nofollow_stays p name r :
    body_canonicalize p = Ok p → components name = [Normal name] → open_nofollow (push p name) = Ok r →
    body_canonicalize (push p name) = Ok (push p name);
  (** the length of a file at rest *)
  metadata_length p m r :
    symlink_metadata p = Ok m → open_nofollow p = Ok r → failure r = None → md_len m = len (available r)
}.

(** ** Definitions: names and paths *)

(** [u8::is_ascii_alphanumeric] *)
Definition is_ascii_alphanumeric (b : byte) : bool :=
  is_digit b || ((65 <=? b) && (b <=? 90)) || ((97 <=? b) && (b <=? 122)).

Definition safe_byte (b : byte) : bool :=
  is_ascii_alphanumeric b || (b =? chr "-") || (b =? chr "_") || (b =? chr ".").

Definition validate_safe_segment (value label : str) : result unit DbError :=
  if bool_decide (value = []) || bool_decide (value = lit ".") || bool_decide (value = lit "..")
     || negb (existsb is_ascii_alphanumeric value) || existsb (fun b => negb (safe_byte b)) value
  then Err (Validation (lit "invalid " ++ label ++ lit ": " ++ value))
  else Ok tt.

(** [Path::parent], up to repeated separators *)
Definition component_text (c : Component) : bytes :=
  match c with RootDir => [slash] | CurDir => lit "." | ParentDir => lit ".." | Normal s => s end.

Definition from_components (cs : list Component) : bytes := foldl (fun p c => push p (component_text c)) [] cs.

Definition parent (p : bytes) : option bytes :=
  match last (components p) with
  | Some RootDir | None => None
  | Some _ => Some (from_components (removelast (components p)))
  end.

Definition path_file_name (p : bytes) : option bytes :=
  match last (components p) with Some (Normal f) => Some f | _ => None end.

Definition is_normal_component (c : Component) : bool := match c with Normal _ => true | _ => false end.

Definition join_relative_components (cs : list Component) : str :=
  join slash (omap (fun c => match c with Normal s => Some (from_utf8_lossy s) | _ => None end) cs).

Section Store.
Context `{BodyFs} (base_dir : bytes).

Definition checked_resolve_body_path (relative_path : str) : result bytes DbError :=
  if bool_decide (92 ∈ relative_path) then Err (Validation (lit "invalid body path: " ++ relative_path))
  else if existsb (fun c => negb (is_normal_component c)) (components relative_path) then
    Err (Validation (lit "invalid body path: " ++ relative_path))
  else Ok (push base_dir relative_path).

Definition checked_existing_body_path (relative_path : str) : result bytes DbError :=
  let? full_path := checked_resolve_body_path relative_path in
  let? base := map_err (fun error => Validation (lit "body store directory is unavailable: " ++ error))
                 (body_canonicalize base_dir) in
  let? name := ok_or (path_file_name full_path) (Validation (lit "invalid body path")) in
  let? directory := ok_or (parent full_path) (Validation (lit "invalid body path")) in
  let? directory := map_err Io (body_canonicalize directory) in
  if negb (components_prefix (components base) (components directory)) then
    Err (Validation (lit "body path escapes body store: " ++ relative_path))
  else Ok (push directory name).

(** [is_reparse_point] is false on Unix. *)
Definition checked_regular_body_file (relative_path : str) : result (bytes * Z) DbError :=
  let? full_path := checked_existing_body_path relative_path in
  let? metadata := map_err Io (symlink_metadata full_path) in
  if md_is_symlink metadata || negb (md_is_file metadata) then
    Err (Validation (lit "body path is not a regular file: " ++ relative_path))
  else Ok (full_path, md_len metadata).

(** ** Definitions: readers *)

Definition open_body_file (path : bytes) : result Reader DbError := map_err Io (open_nofollow path).

Definition store_open_body_reader (relative_path : str) : result Reader DbError :=
  let? file := checked_regular_body_file relative_path in
  open_body_file file.1.

(** What [take(max_bytes).read_to_end] yields of an open file from an offset *)
Definition read_from (r : Reader) (offset max_bytes : Z) : result bytes str :=
  take_read max_bytes {| available := drop (Z.to_nat offset) (available r); failure := failure r |}.

Definition body_range (original_size_bytes offset : Z) (b : bytes) : BodyRange :=
  {| br_bytes := b; br_original_size := original_size_bytes; br_offset := offset; br_returned := len b;
     br_truncated := offset + len b <? original_size_bytes |}.

Definition store_read_body_range (relative_path : str) (offset max_bytes : Z) : result BodyRange DbError :=
  let? file := checked_regular_body_file relative_path in
  if file.2 <? offset then Err (Validation (lit "body offset exceeds file size"))
  else
    let? r := open_body_file file.1 in
    let? b := map_err Io (read_from r offset max_bytes) in
    Ok (body_range file.2 offset b).

Definition read_body (relative_path : str) : result bytes DbError :=
  let? full_path := checked_resolve_body_path relative_path in
  map_err Io (read_path full_path).

Definition exists_ (relative_path : str) : bool :=
  match checked_resolve_body_path relative_path with Ok path => path_exists path | Err _ => false end.

Definition resolve_body_path (relative_path : str) : bytes :=
  match checked_resolve_body_path relative_path with
  | Ok path => path
  | Err _ => push base_dir (lit "__invalid_body_path__")
  end.

(** [Path::strip_prefix] *)
Definition relative_body_path (full_path : bytes) : option str :=
  base ← ok (body_canonicalize base_dir);
  full ← ok (body_canonicalize full_path);
  if components_prefix (components base) (components full) then
    Some (join_relative_components (drop (length (components base)) (components full)))
  else None.
End Store.

(** ** Confinement *)

Section Confinement.
Context `{BodyFs} (base_dir : bytes).

Lemma file_name_single f p : path_file_name p = Some f → components f = [Normal f] ∧ starts_with f [slash] = false.
Proof.
  unfold path_file_name. intros Hf. destruct (last (components p)) as [[| | |g]|] eqn:Hl; simplify_eq.
  apply last_Some_elem_of in Hl. by apply (normal_component_plain p).
Qed.

(** What the checks accept: a name in a canonical directory below the store. *)
Lemma existing_path_confined relative_path path :
  checked_existing_body_path base_dir relative_path = Ok path →
  ∃ base directory name, body_canonicalize base_dir = Ok base ∧ body_canonicalize directory = Ok directory ∧
    components base `prefix_of` components directory ∧ path = push directory name ∧ components name = [Normal name] ∧
    components path = components directory ++ [Normal name].
Proof.
  unfold checked_existing_body_path. destruct (checked_resolve_body_path base_dir relative_path) as [full|]; [cbn [rbind]|done].
  destruct (body_canonicalize base_dir) as [base|] eqn:Hb; [cbn [rbind map_err]|done].
  destruct (path_file_name full) as [name|] eqn:Hn; [cbn [rbind ok_or]|done].
  destruct (parent full) as [dir|]; [cbn [rbind ok_or]|done].
  destruct (body_canonicalize dir) as [directory|] eqn:Hd; [cbn [rbind map_err]|done].
  destruct (components_prefix (components base) (components directory)) eqn:Hp; [cbn [negb]|done]. intros [= <-].
  destruct (file_name_single _ _ Hn) as [Hc Hs]. destruct (canonical_path _ _ Hd) as [Hdd Habs].
  exists base, directory, name. split_and!; [done|done|by apply components_prefix_spec|done|done|].
  rewrite components_push, Hc; [done| |done|]; [by intros ->|by rewrite Hc; repeat constructor].
Qed.

Lemma regular_file_confined relative_path path size :
  checked_regular_body_file base_dir relative_path = Ok (path, size) →
  checked_existing_body_path base_dir relative_path = Ok path ∧
  ∃ m, symlink_metadata path = Ok m ∧ md_is_symlink m = false ∧ md_is_file m = true ∧ md_len m = size.
Proof.
  unfold checked_regular_body_file. destruct (checked_existing_body_path base_dir relative_path) as [p|]; [cbn [rbind]|done].
  destruct (symlink_metadata p) as [m|] eqn:Hm; [cbn [rbind map_err]|done].
  destruct (md_is_symlink m) eqn:Hs, (md_is_file m) eqn:Hf; try done. intros [= <- <-]. split; [done|]. by exists m.
Qed.

(** The relative path names no other directory: no [..], no root, no backslash. *)
Lemma resolve_normal relative_path path :
  checked_resolve_body_path base_dir relative_path = Ok path →
  path = push base_dir relative_path ∧ Forall is_normal (components relative_path) ∧ 92 ∉ relative_path.
Proof.
  unfold checked_resolve_body_path. case_bool_decide; [done|]. destruct (existsb _ _) eqn:He; [done|]. intros [= <-].
  split_and!; [done| |done]. apply Forall_forall. intros c Hc. destruct (is_normal_component c) eqn:Hn; [by destruct c|].
  assert (existsb (fun c => negb (is_normal_component c)) (components relative_path) = true) as Ht; [|congruence].
  apply existsb_exists. exists c. split; [by apply list_elem_of_In|by rewrite Hn].
Qed.
End Confinement.

(** C22: Whatever path a session row holds, the body readers open only regular files
    that lie, with all links resolved, inside the directory of the store; the path
    itself has no [..], no root and no backslash. *)
Theorem body_readers_confined `{BodyFs} (base_dir : bytes) (relative_path : str) (r : Reader) :
  store_open_body_reader base_dir relative_path = Ok r →
  Forall is_normal (components relative_path) ∧ (92 ∉ relative_path) ∧
  ∃ base path m, body_canonicalize base_dir = Ok base ∧ body_canonicalize path = Ok path ∧
    components base `prefix_of` components path ∧ components base ≠ components path ∧
    symlink_metadata path = Ok m ∧ md_is_symlink m = false ∧ md_is_file m = true ∧ open_nofollow path = Ok r ∧
    ∀ offset max_bytes range, store_read_body_range base_dir relative_path offset max_bytes = Ok range →
      offset <= md_len m ∧ read_from r offset max_bytes = Ok (br_bytes range) ∧ br_original_size range = md_len m.
Proof.
  unfold store_open_body_reader, store_read_body_range.
  destruct (checked_regular_body_file base_dir relative_path) as [[path size]|] eqn:Hc; [cbn [rbind fst snd]|done].
  unfold open_body_file. destruct (open_nofollow path) as [r'|] eqn:Ho; [cbn [map_err rbind]|done]. intros [= ->].
  apply regular_file_confined in Hc as (He & m & Hm & Hs & Hf & <-).
  assert (∃ full, checked_resolve_body_path base_dir relative_path = Ok full) as [full Hfull]
    by (unfold checked_existing_body_path in He; destruct (checked_resolve_body_path base_dir relative_path); [by eexists|done]).
  destruct (resolve_normal _ _ _ Hfull) as (_ & Hn & Hb).
  destruct (existing_path_confined _ _ _ He) as (base & directory & name & Hbase & Hdir & Hpre & -> & Hname & Hcomp).
  split_and!; [done|done|]. exists base, (push directory name), m. rewrite Hcomp. split_and!; try done.
  - by eapply nofollow_stays.
  - by apply prefix_app_r.
  - intros Heq. rewrite Heq in Hpre. apply prefix_length in Hpre. rewrite length_app in Hpre. cbn in Hpre. lia.
  - intros offset max_bytes range. destruct (Z.ltb_spec (md_len m) offset); [done|].
    destruct (read_from r offset max_bytes) as [b|]; [cbn [map_err rbind]|done]. by intros [= <-].
Qed.

(** ** The interface of the body tools *)

(** The reader of a store is the file access of the body tools; the text of an
    error is what they show. *)
Section Tools.
Context {number : Type} `{BodyAccess number} `{BodyFs} (base_dir : bytes).

Definition store_access : BodyAccess number :=
  {| open_body_reader path := map_err db_error_text (store_open_body_reader base_dir path);
     base64_decode := base64_decode (number := number); deserialize := deserialize;
     is_valid_json_document := is_valid_json_document (number := number); sha256_hex := sha256_hex (number := number) |}.

(** Reading a range of a file at rest is a slice of what the reader streams. *)
Lemma range_is_slice path r offset max_bytes :
  store_open_body_reader base_dir path = Ok r → failure r = None → 0 <= offset <= len (available r) → 0 <= max_bytes →
  store_read_body_range base_dir path offset max_bytes =
    Ok (body_range (len (available r)) offset (take (Z.to_nat max_bytes) (drop (Z.to_nat offset) (available r)))).
Proof.
  unfold store_open_body_reader, store_read_body_range.
  destruct (checked_regular_body_file base_dir path) as [[p size]|] eqn:Hc; [cbn [rbind fst snd]|done].
  unfold open_body_file. destruct (open_nofollow p) as [r'|] eqn:Ho; [cbn [map_err rbind]|done]. intros [= ->] Hf Hoff Hmax.
  apply regular_file_confined in Hc as (_ & m & Hm & _ & _ & <-). rewrite (metadata_length _ _ _ Hm Ho Hf).
  destruct (Z.ltb_spec (len (available r)) offset); [lia|]. unfold read_from, take_read. cbn [available failure]. rewrite Hf.
  destruct (Z.leb_spec max_bytes (len (drop (Z.to_nat offset) (available r)))) as [Hle|Hgt]; cbn [map_err rbind]; [done|].
  rewrite (take_ge (drop _ _)); [done|]. unfold len in Hgt. lia.
Qed.

Definition store_files : @BodyFiles number store_access.
Proof.
  refine (@Build_BodyFiles number store_access
            (fun path offset max_bytes => map_err db_error_text (store_read_body_range base_dir path offset max_bytes)) _).
  intros path r offset max_bytes Ho Hf Hoff Hmax b. cbn [open_body_reader store_access] in Ho.
  destruct (store_open_body_reader base_dir path) as [r'|] eqn:Hr; [|done]. injection Ho as ->.
  by rewrite (range_is_slice path r).
Defined.
End Tools.

(** ** A concrete file system *)

Definition sample_file : bytes := lit "/s/a/r.body".

Definition sample_fs : BodyFs.
Proof.
  refine {| body_canonicalize p :=
              if decide (p ∈ [lit "/s"; lit "/s/a"; sample_file]) then Ok p else Err (lit "not found");
            symlink_metadata p :=
              if decide (p = sample_file) then Ok {| md_is_symlink := false; md_is_file := true; md_len := 3 |}
              else Err (lit "not found");
            open_nofollow p :=
              if decide (p = sample_file) then Ok {| available := lit "abc"; failure := None |} else Err (lit "not found");
            read_path p := if decide (p = sample_file) then Ok (lit "abc") else Err (lit "not found");
            path_exists p := bool_decide (p ∈ [lit "/s"; lit "/s/a"; sample_file]) |}.
  - intros p q. destruct (decide _) as [Hp|]; [|done]. intros [= <-]. destruct (decide _); [|done]. split; [done|].
    repeat (apply elem_of_cons in Hp as [->|Hp]; [done|]). set_solver.
  - intros p name r _ _. destruct (decide (push p name = sample_file)) as [->|]; [|done]. intros _.
    by rewrite decide_True by (do 2 right; left).
  - intros p m r. destruct (decide (p = sample_file)); [|done]. by intros [= <-] [= <-].
Defined.

Lemma body_readers_confined_witness :
  ∃ path, @open_nofollow sample_fs path = Ok {| available := lit "abc"; failure := None |} ∧
    components (lit "/s") `prefix_of` components path.
Proof.
  destruct (@body_readers_confined sample_fs (lit "/s") (lit "a/r.body") {| available := lit "abc"; failure := None |})
    as (_ & _ & base & path & m & Hb & _ & Hp & _ & _ & _ & _ & Ho & _); [vm_compute; reflexivity|].
  vm_compute in Hb. injection Hb as <-. exists path. split; [exact Ho|exact Hp].
Defined.
