(* ===== verification/BodyStoreRace.v ===== *)
(** * BodyStoreRace: writing captured bodies while they are read and cleared

    Models the operations of src/crates/db/src/body_store.rs that change files
    ([write_body], [write_body_file_atomic], [remove_bodies], [clear_all]) and the
    readers beside them, as programs of system calls.  Any number of them run at
    once; a step of the system is one system call of one of them, a new call, or a
    crash.  A call may fail, a write may be short, and files are inodes, so that
    an open file outlives its name.

    The directory of the store has one level of directories, one for each session;
    links are the subject of BodyStore. *)

From S2P Require Import Prelude Str Utf8 TextSearch Redaction RedactedSearch BodyStream BodyTools.
From S2P Require Import Patterns JsonPath RuleTypes RuleManagers RuleSelection HttpIo Rewrite MapRules BodyStore.

(** ** Definitions: the file system *)

(** A directory and a name in it *)
Abbreviation Key := (list Z * list Z)%type (only parsing).

Inductive IoError := NotFound | NotEmpty | OtherError (message : str).

Definition io_text (e : IoError) : str :=
  match e with
  | NotFound => lit "No such file or directory (os error 2)"
  | NotEmpty => lit "Directory not empty (os error 39)"
  | OtherError message => message
  end.

Definition io_error (e : IoError) : DbError := Io (io_text e).

(** [sequence] is [BODY_TEMP_SEQUENCE] of the running process; it does not reach
    2^64. *)
Record Fs := {
  base_present : bool; dirs : gset str; loose : gset str; entries : gmap Key nat; inodes : list bytes; sequence : Z
}.

Definition with_dirs (fs : Fs) (ds : gset str) : Fs :=
  {| base_present := true; dirs := ds; loose := loose fs; entries := entries fs; inodes := inodes fs; sequence := sequence fs |}.
Definition with_loose (fs : Fs) (l : gset str) : Fs :=
  {| base_present := base_present fs; dirs := dirs fs; loose := l; entries := entries fs; inodes := inodes fs;
     sequence := sequence fs |}.
Definition with_files (fs : Fs) (es : gmap Key nat) (files : list bytes) : Fs :=
  {| base_present := base_present fs; dirs := dirs fs; loose := loose fs; entries := es; inodes := files; sequence := sequence fs |}.
Definition with_sequence (fs : Fs) (n : Z) : Fs :=
  {| base_present := base_present fs; dirs := dirs fs; loose := loose fs; entries := entries fs; inodes := inodes fs;
     sequence := n |}.

Definition content (fs : Fs) (k : Key) : option bytes := i ← entries fs !! k; inodes fs !! i.

Definition dir_names (fs : Fs) (d : str) : list str :=
  omap (fun kv : Key * nat => if decide (kv.1.1 = d) then Some kv.1.2 else None) (map_to_list (entries fs)).

(** The calls, with the type of their answers *)
Inductive Op : Type → Type :=
  | CreateDirAll (d : str) : Op (result unit IoError)
  | CreateBase : Op (result unit IoError)
  | CreateFile (k : Key) : Op (result nat IoError)
  | WriteSome (i : nat) (b : bytes) : Op (result nat IoError)
  | Rename (src dst : Key) : Op (result unit IoError)
  | RemoveFile (k : Key) : Op (result unit IoError)
  | NextSequence : Op Z
  | DirExists (d : str) : Op bool
  | ListDir (d : str) : Op (result (list str) IoError)
  | RemoveDir (d : str) : Op (result unit IoError)
  | ListBase : Op (result (list str) IoError)
  | RemoveLoose (f : str) : Op (result unit IoError)
  | Stat (k : Key) : Op (result Z IoError)
  | OpenFile (k : Key) : Op (result nat IoError)
  | ReadAt (i : nat) (pos max : nat) : Op (result bytes IoError)
  | SyncAll (i : nat) : Op (result unit IoError)
  | SetPermissions (k : Key) : Op (result unit IoError).

(** What a call may do when nothing else goes wrong *)
Definition performs {B} (fs : Fs) (o : Op B) : Fs → B → Prop :=
  match o in Op B return Fs → B → Prop with
  | CreateDirAll d => fun fs' ans => fs' = with_dirs fs (dirs fs ∪ {[d]}) ∧ ans = Ok tt
  | CreateBase => fun fs' ans => fs' = with_dirs fs (dirs fs) ∧ ans = Ok tt
  | CreateFile k => fun fs' ans =>
      if decide (k.1 ∈ dirs fs) then
        match entries fs !! k with
        | Some i => fs' = with_files fs (entries fs) (<[i := []]> (inodes fs)) ∧ ans = Ok i
        | None => fs' = with_files fs (<[k := length (inodes fs)]> (entries fs)) (inodes fs ++ [[]]) ∧ ans = Ok (length (inodes fs))
        end
      else fs' = fs ∧ ans = Err NotFound
  | WriteSome i b => fun fs' ans =>
      ∃ n c, (0 < n <= length b)%nat ∧ inodes fs !! i = Some c ∧
        fs' = with_files fs (entries fs) (<[i := c ++ take n b]> (inodes fs)) ∧ ans = Ok n
  | Rename src dst => fun fs' ans =>
      match entries fs !! src with
      | Some i => fs' = with_files fs (<[dst := i]> (delete src (entries fs))) (inodes fs) ∧ ans = Ok tt
      | None => fs' = fs ∧ ans = Err NotFound
      end
  | RemoveFile k => fun fs' ans =>
      match entries fs !! k with
      | Some _ => fs' = with_files fs (delete k (entries fs)) (inodes fs) ∧ ans = Ok tt
      | None => fs' = fs ∧ ans = Err NotFound
      end
  | NextSequence => fun fs' ans => fs' = with_sequence fs (sequence fs + 1) ∧ ans = sequence fs
  | DirExists d => fun fs' ans => fs' = fs ∧ ans = bool_decide (d ∈ dirs fs)
  | ListDir d => fun fs' ans =>
      fs' = fs ∧
      if decide (d ∈ dirs fs) then ∃ l, ans = Ok l ∧ l ≡ₚ dir_names fs d else ans = Err NotFound
  | RemoveDir d => fun fs' ans =>
      if decide (d ∈ dirs fs) then
        if decide (dir_names fs d ≠ []) then fs' = fs ∧ ans = Err NotEmpty
        else fs' = with_dirs fs (dirs fs ∖ {[d]}) ∧ ans = Ok tt
      else fs' = fs ∧ ans = Err NotFound
  | ListBase => fun fs' ans =>
      fs' = fs ∧
      if base_present fs then ∃ l, ans = Ok l ∧ l ≡ₚ elements (dirs fs ∪ loose fs) else ans = Err NotFound
  | RemoveLoose f => fun fs' ans =>
      if decide (f ∈ loose fs) then fs' = with_loose fs (loose fs ∖ {[f]}) ∧ ans = Ok tt else fs' = fs ∧ ans = Err NotFound
  | Stat k => fun fs' ans =>
      fs' = fs ∧ match content fs k with Some b => ans = Ok (len b) | None => ans = Err NotFound end
  | OpenFile k => fun fs' ans =>
      fs' = fs ∧ match entries fs !! k with Some i => ans = Ok i | None => ans = Err NotFound end
  | ReadAt i pos max => fun fs' ans =>
      fs' = fs ∧ ∃ b n, inodes fs !! i = Some b ∧ (n <= max)%nat ∧ (n = 0%nat → drop pos b = [] ∨ max = 0%nat) ∧
        ans = Ok (take n (drop pos b))
  | SyncAll _ => fun fs' ans => fs' = fs ∧ ans = Ok tt
  | SetPermissions k => fun fs' ans =>
      fs' = fs ∧ match entries fs !! k with Some _ => ans = Ok tt | None => ans = Err NotFound end
  end.

(** Any call that can fail may fail in any other way, and then does nothing. *)
Definition does {B} (fs : Fs) (o : Op B) : Fs → B → Prop :=
  match o in Op B return (Fs → B → Prop) → Fs → B → Prop with
  | NextSequence | DirExists _ => fun perform => perform
  | CreateDirAll _ | CreateBase | Rename _ _ | RemoveFile _ | RemoveDir _ | RemoveLoose _ | SyncAll _ | SetPermissions _ => fun perform fs' ans =>
      perform fs' ans ∨ fs' = fs ∧ ∃ message, ans = Err (OtherError message)
  | CreateFile _ | WriteSome _ _ | OpenFile _ => fun perform fs' ans =>
      perform fs' ans ∨ fs' = fs ∧ ∃ message, ans = Err (OtherError message)
  | ListDir _ | ListBase => fun perform fs' ans => perform fs' ans ∨ fs' = fs ∧ ∃ message, ans = Err (OtherError message)
  | Stat _ => fun perform fs' ans => perform fs' ans ∨ fs' = fs ∧ ∃ message, ans = Err (OtherError message)
  | ReadAt _ _ _ => fun perform fs' ans => perform fs' ans ∨ fs' = fs ∧ ∃ message, ans = Err (OtherError message)
  end (performs fs o).

(** ** Definitions: programs *)

Inductive Prog (A : Type) : Type :=
  | Ret (a : A)
  | Do {B : Type} (o : Op B) (k : B → Prog A).
Arguments Ret {A} a.
Arguments Do {A B} o k.

Fixpoint pbind {A B} (p : Prog A) (f : A → Prog B) : Prog B :=
  match p with
  | Ret a => f a
  | Do o k => Do o (fun ans => pbind (k ans) f)
  end.

Definition call {B} (o : Op B) : Prog B := Do o Ret.

Declare Scope prog_scope.
Delimit Scope prog_scope with prog.
Notation "x <~ p ; q" := (pbind p (fun x => q)) (at level 100, p at next level, q at level 200, right associativity) : prog_scope.
Local Open Scope prog_scope.

(** [Write::write_all]: as many short writes as it takes, at most one for each byte *)
Fixpoint write_all (fuel : nat) (i : nat) (b : bytes) : Prog (result unit IoError) :=
  match b, fuel with
  | [], _ => Ret (Ok tt)
  | _, O => Ret (Err (OtherError (lit "failed to write whole buffer")))
  | _, S fuel =>
      written <~ call (WriteSome i b);
      match written with Ok n => write_all fuel i (drop n b) | Err e => Ret (Err e) end
  end.

Section Programs.
Context (process_id : Z).

Definition temp_name (file_name : str) (n : Z) : str :=
  file_name ++ lit ".tmp-" ++ show process_id ++ lit "-" ++ show n.

Definition create_and_rename (d file_name temp : str) (data : bytes) : Prog (result unit IoError) :=
  created <~ call (CreateFile (d, temp));
  match created with
  | Err e => Ret (Err e)
  | Ok i =>
      written <~ write_all (length data) i data;
      match written with
      | Err e => Ret (Err e)
      | Ok _ => call (Rename (d, temp) (d, file_name))
      end
  end.

Definition write_body_file_atomic (d file_name : str) (data : bytes) : Prog (result unit IoError) :=
  n <~ call NextSequence;
  let temp := temp_name file_name n in
  write_result <~ create_and_rename d file_name temp data;
  match write_result with
  | Ok _ => Ret (Ok tt)
  | Err e => _ <~ call (RemoveFile (d, temp)); Ret (Err e)
  end.

Definition body_file (kind : str) : str := kind ++ lit ".body".
Definition relative (d kind : str) : str := d ++ lit "/" ++ body_file kind.

Definition write_body (session_id kind : str) (data : bytes) : Prog (result str DbError) :=
  match (let? _ := validate_safe_segment session_id (lit "session id") in validate_safe_segment kind (lit "body kind")) with
  | Err e => Ret (Err e)
  | Ok _ =>
      created <~ call (CreateDirAll session_id);
      match created with
      | Err e => Ret (Err (io_error e))
      | Ok _ =>
          write_result <~ write_body_file_atomic session_id (body_file kind) data;
          match write_result with
          | Ok _ => Ret (Ok (relative session_id kind))
          | Err NotFound =>
              created <~ call (CreateDirAll session_id);
              match created with
              | Err e => Ret (Err (io_error e))
              | Ok _ =>
                  again <~ write_body_file_atomic session_id (body_file kind) data;
                  match again with
                  | Ok _ => Ret (Ok (relative session_id kind))
                  | Err e => Ret (Err (io_error e))
                  end
              end
          | Err e => Ret (Err (io_error e))
          end
      end
  end.

(** [fs::remove_dir_all]; an entry that vanished is not an error. *)
Fixpoint remove_entries (d : str) (names : list str) : Prog (result unit IoError) :=
  match names with
  | [] => Ret (Ok tt)
  | name :: names =>
      removed <~ call (RemoveFile (d, name));
      match removed with
      | Ok _ | Err NotFound => remove_entries d names
      | Err e => Ret (Err e)
      end
  end.

Definition remove_dir_all (d : str) : Prog (result unit IoError) :=
  listed <~ call (ListDir d);
  match listed with
  | Err e => Ret (Err e)
  | Ok names =>
      removed <~ remove_entries d names;
      match removed with Err e => Ret (Err e) | Ok _ => call (RemoveDir d) end
  end.

Definition remove_bodies (session_id : str) : Prog (result unit DbError) :=
  match validate_safe_segment session_id (lit "session id") with
  | Err e => Ret (Err e)
  | Ok _ =>
      present <~ call (DirExists session_id);
      if (present : bool) then
        removed <~ remove_dir_all session_id;
        Ret (map_err io_error removed)
      else Ret (Ok tt)
  end.

Definition ensure_dir : Prog (result unit DbError) := created <~ call CreateBase; Ret (map_err io_error created).

Fixpoint clear_entries (names : list str) : Prog (result unit DbError) :=
  match names with
  | [] => Ret (Ok tt)
  | name :: names =>
      is_dir <~ call (DirExists name);
      removed <~ (if (is_dir : bool) then remove_dir_all name else call (RemoveLoose name));
      match removed with
      | Ok _ | Err NotFound => clear_entries names
      | Err e => Ret (Err (io_error e))
      end
  end.

Definition clear_all : Prog (result unit DbError) :=
  listed <~ call ListBase;
  match listed with
  | Ok names => clear_entries names
  | Err NotFound => created <~ call CreateBase; Ret (map_err io_error created)
  | Err e => Ret (Err (io_error e))
  end.

(** [take(budget).read_to_end]: every read but the last yields a byte *)
Fixpoint read_to_end (fuel : nat) (i : nat) (pos budget : nat) (acc : bytes) : Prog (result bytes IoError) :=
  match fuel, budget with
  | O, _ | _, O => Ret (Ok acc)
  | S fuel, _ =>
      got <~ call (ReadAt i pos budget);
      match got with
      | Err e => Ret (Err e)
      | Ok [] => Ret (Ok acc)
      | Ok b => read_to_end fuel i (pos + length b) (budget - length b) (acc ++ b)
      end
  end.

(** The checks of a path end in [symlink_metadata]; then the file is opened. *)
Definition stream_body (k : Key) (budget : nat) : Prog (result bytes DbError) :=
  size <~ call (Stat k);
  match size with
  | Err e => Ret (Err (io_error e))
  | Ok _ =>
      opened <~ call (OpenFile k);
      match opened with
      | Err e => Ret (Err (io_error e))
      | Ok i => got <~ read_to_end budget i 0 budget []; Ret (map_err io_error got)
      end
  end.

Definition range_body (k : Key) (offset max_bytes : nat) : Prog (result BodyRange DbError) :=
  size <~ call (Stat k);
  match size with
  | Err e => Ret (Err (io_error e))
  | Ok size =>
      if size <? Z.of_nat offset then Ret (Err (Validation (lit "body offset exceeds file size")))
      else
        opened <~ call (OpenFile k);
        match opened with
        | Err e => Ret (Err (io_error e))
        | Ok i =>
            got <~ read_to_end max_bytes i offset max_bytes [];
            Ret (let? b := map_err io_error got in Ok (body_range size (Z.of_nat offset) b))
        end
  end.
End Programs.

(** ** Definitions: the system *)

(** The calls of the store, and readers that take at most a number of bytes *)
Inductive Call :=
  | WriteBody (session_id kind : str) (data : bytes)
  | RemoveBodies (session_id : str)
  | ClearAll
  | StreamBody (k : Key) (budget : nat)
  | ReadRange (k : Key) (offset max_bytes : nat).

Inductive Outcome :=
  | Wrote (r : result str DbError)
  | Removed (r : result unit DbError)
  | Streamed (r : result bytes DbError)
  | Ranged (r : result BodyRange DbError).

Definition start (process_id : Z) (c : Call) : Prog Outcome :=
  match c with
  | WriteBody session_id kind data => r <~ write_body process_id session_id kind data; Ret (Wrote r)
  | RemoveBodies session_id => r <~ remove_bodies session_id; Ret (Removed r)
  | ClearAll => r <~ clear_all; Ret (Removed r)
  | StreamBody k budget => r <~ stream_body k budget; Ret (Streamed r)
  | ReadRange k offset max_bytes => r <~ range_body k offset max_bytes; Ret (Ranged r)
  end.

(** [asked] are the bodies given to [write_body], and those there at the start. *)
Record Sys := { fs : Fs; threads : list (Call * Prog Outcome); asked : list (Key * bytes) }.

Definition asks (c : Call) : list (Key * bytes) :=
  match c with WriteBody session_id kind data => [((session_id, body_file kind), data)] | _ => [] end.

Inductive step (process_id : Z) : Sys → Sys → Prop :=
  | Spawn s c :
      step process_id s {| fs := fs s; threads := threads s ++ [(c, start process_id c)]; asked := asked s ++ asks c |}
  | Act s j c B (o : Op B) k fs' ans :
      threads s !! j = Some (c, Do o k) → does (fs s) o fs' ans →
      step process_id s {| fs := fs'; threads := <[j := (c, k ans)]> (threads s); asked := asked s |}
  | Crash s :
      step process_id s {| fs := with_sequence (fs s) 0; threads := []; asked := asked s |}.

(** ** Ownership

    What a running call knows and may do: after [NextSequence] it alone holds a
    number, after [CreateFile] it alone writes an inode, which has no other name
    than its own; a reader has opened a finished body. *)

Inductive Own :=
  | Idle
  | Holds (n : Z)
  | Writes (n : Z) (t : Key) (i : nat) (c : bytes)
  | Reads (i : nat) (k : Key) (b : bytes).

Definition is_final (k : Key) : bool := ends_with k.2 (lit ".body").

#[local] Arguments is_final : simpl never.

Section Logic.
Context (process_id : Z).

Definition is_temp (n : Z) (t : Key) : Prop := 0 <= n ∧ ∃ f, t.2 = temp_name process_id f n.

Section WithCall.
Context (c : Call).

(** When a call may be made, and what its answers leave *)
Definition permits {B} (own : Own) (o : Op B) : (B → Own → Prop) → Prop :=
  match o in Op B return (B → Own → Prop) → Prop with
  | NextSequence => fun post => ∀ n, 0 <= n → post n (Holds n)
  | CreateFile k => fun post =>
      ∃ n, own = Holds n ∧ is_temp n k ∧ (∀ i, post (Ok i) (Writes n k i [])) ∧ ∀ e, post (Err e) own
  | WriteSome i b => fun post =>
      ∃ n t w, own = Writes n t i w ∧ (∀ m, (0 < m <= length b)%nat → post (Ok m) (Writes n t i (w ++ take m b))) ∧
        ∀ e, post (Err e) own
  | Rename src dst => fun post =>
      ∃ n i b, own = Writes n src i b ∧ is_final dst = true ∧ (dst, b) ∈ asks c ∧ post (Ok tt) Idle ∧ ∀ e, post (Err e) own
  | OpenFile k => fun post =>
      (∀ e, post (Err e) own) ∧ ∀ i, if is_final k then ∀ b, post (Ok i) (Reads i k b) else post (Ok i) Idle
  | ReadAt i pos max => fun post =>
      match own with
      | Reads i' k b =>
          i = i' ∧ (∀ n, (n <= max)%nat → (n = 0%nat → drop pos b = [] ∨ max = 0%nat) → post (Ok (take n (drop pos b))) own) ∧
          ∀ e, post (Err e) own
      | _ => ∀ ans, post ans own
      end
  | CreateDirAll _ | CreateBase | RemoveFile _ | RemoveDir _ | RemoveLoose _ | SyncAll _ | SetPermissions _ => fun post => ∀ ans, post ans own
  | DirExists _ => fun post => ∀ ans, post ans own
  | ListDir _ | ListBase => fun post => ∀ ans, post ans own
  | Stat _ => fun post => ∀ ans, post ans own
  end.

Fixpoint wp {A} (p : Prog A) (Q : A → Own → Prop) (own : Own) : Prop :=
  match p with
  | Ret a => Q a own
  | Do o k => permits own o (fun ans own' => wp (k ans) Q own')
  end.

Lemma permits_mono {B} (own : Own) (o : Op B) (P Q : B → Own → Prop) :
  (∀ ans own, P ans own → Q ans own) → permits own o P → permits own o Q.
Proof.
  intros Hpq. destruct o; cbn [permits]; try naive_solver.
  - intros [He Hi]. split; [auto|]. intros i. specialize (Hi i). destruct (is_final k); auto.
  - destruct own; naive_solver.
Qed.

Lemma wp_mono {A} (p : Prog A) (P Q : A → Own → Prop) : (∀ a own, P a own → Q a own) → ∀ own, wp p P own → wp p Q own.
Proof.
  intros Hpq. induction p as [a|B o k IH]; intros own; cbn [wp]; [apply Hpq|].
  apply permits_mono. intros ans own'. apply IH.
Qed.

Lemma wp_bind {A B} (p : Prog A) (f : A → Prog B) (Q : B → Own → Prop) :
  ∀ own, wp p (fun a own' => wp (f a) Q own') own → wp (pbind p f) Q own.
Proof.
  induction p as [a|C o k IH]; intros own; cbn [wp pbind]; [done|]. apply permits_mono. intros ans own'. apply IH.
Qed.

Lemma wp_call {B} (o : Op B) (Q : B → Own → Prop) own : permits own o Q → wp (call o) Q own.
Proof. done. Qed.

(** *** Writers *)

Lemma wp_write_all n t i fuel : ∀ w b Q, (length b <= fuel)%nat →
  Q (Ok tt) (Writes n t i (w ++ b)) → (∀ e w, Q (Err e) (Writes n t i w)) →
  wp (write_all fuel i b) Q (Writes n t i w).
Proof.
  induction fuel as [|fuel IH]; intros w [|x b] Q Hlen Hok Herr; cbn [write_all wp] in *; try (by rewrite app_nil_r in Hok).
  { cbn in Hlen. lia. }
  apply wp_bind, wp_call. exists n, t, w. split_and!; [done| |intros e; apply Herr].
  intros m Hm. apply IH; [rewrite length_drop; cbn in *; lia| |done]. by rewrite <- app_assoc, take_drop.
Qed.
End WithCall.

Lemma body_file_final d kind : is_final (d, body_file kind) = true.
Proof. unfold is_final, ends_with, body_file. cbn [snd]. rewrite rev_app_distr. apply starts_with_app. Qed.

Lemma wp_atomic d kind data own Q :
  (∀ r own, Q r own) →
  wp (WriteBody d kind data) (write_body_file_atomic process_id d (body_file kind) data) Q own.
Proof.
  intros HQ. unfold write_body_file_atomic. apply wp_bind, wp_call. intros n Hn. cbn beta zeta.
  apply wp_bind. eapply wp_mono with (P := fun _ _ => True).
  { intros [[]|e] own' _; [apply HQ|]. apply wp_bind, wp_call. intros ans. apply HQ. }
  unfold create_and_rename. apply wp_bind, wp_call. exists n. split_and!; [done|split; [done|by eexists]| |done].
  intros i. apply wp_bind, wp_write_all; [done| |done]. cbn [app]. exists n, i, data.
  split_and!; [done|apply body_file_final|by left|done|done].
Qed.

Lemma wp_write_body d kind data own Q :
  (∀ r own, Q r own) → wp (WriteBody d kind data) (write_body process_id d kind data) Q own.
Proof.
  intros HQ. unfold write_body. destruct (rbind _ _); [|apply HQ]. apply wp_bind, wp_call. intros [|e]; [|apply HQ].
  apply wp_bind, wp_atomic. intros [|[| |m]] own'; try apply HQ. apply wp_bind, wp_call. intros [|e]; [|apply HQ].
  apply wp_bind, wp_atomic. intros [|e] own''; apply HQ.
Qed.

(** *** The other calls *)

Section Passive.
Context (c : Call) (own : Own).

Lemma wp_remove_entries d names Q : (∀ r, Q r own) → wp c (remove_entries d names) Q own.
Proof.
  intros HQ. induction names as [|name names IH]; cbn [remove_entries]; [apply HQ|].
  apply wp_bind, wp_call. intros [|[| |m]]; [exact IH|exact IH|apply HQ..].
Qed.

Lemma wp_remove_dir_all d Q : (∀ r, Q r own) → wp c (remove_dir_all d) Q own.
Proof.
  intros HQ. unfold remove_dir_all. apply wp_bind, wp_call. intros [names|e]; [|apply HQ].
  apply wp_bind, wp_remove_entries. intros [|e]; [exact HQ|apply HQ].
Qed.

Lemma wp_remove_bodies d Q : (∀ r, Q r own) → wp c (remove_bodies d) Q own.
Proof.
  intros HQ. unfold remove_bodies. destruct (validate_safe_segment d _); [|apply HQ]. apply wp_bind, wp_call.
  intros [|]; [|apply HQ]. apply wp_bind, wp_remove_dir_all. intros r. apply HQ.
Qed.

Lemma wp_clear_entries names Q : (∀ r, Q r own) → wp c (clear_entries names) Q own.
Proof.
  intros HQ. induction names as [|name names IH]; cbn [clear_entries]; [apply HQ|]. apply wp_bind, wp_call. intros [|];
    apply wp_bind; [apply wp_remove_dir_all|apply wp_call]; (intros [|[| |m]]; [exact IH|exact IH|apply HQ..]).
Qed.

Lemma wp_clear_all Q : (∀ r, Q r own) → wp c clear_all Q own.
Proof.
  intros HQ. unfold clear_all. apply wp_bind, wp_call. intros [names|[| |m]]; [by apply wp_clear_entries| |apply HQ..].
  apply wp_bind, wp_call. intros r. apply HQ.
Qed.
End Passive.

Lemma take_split {A} n m (l : list A) :
  (length (take n l) <= m)%nat →
  take n l ++ take (m - length (take n l)) (drop (length (take n l)) l) = take m l.
Proof.
  intros Hn. rewrite <- (take_drop (length (take n l)) l) at 5. rewrite take_app. f_equal.
  - rewrite !take_take. rewrite length_take in *. replace (m `min` (n `min` length l))%nat with (n `min` length l)%nat by lia.
    rewrite <- take_take. by rewrite (take_ge l (length l)) by lia.
  - rewrite length_take in *. f_equal. rewrite length_take. lia.
Qed.

(** A reader of a finished body gets a prefix of what is after its position. *)
Lemma wp_read_to_end c i k b fuel : ∀ pos budget acc Q, (budget <= fuel)%nat →
  Q (Ok (acc ++ take budget (drop pos b))) (Reads i k b) → (∀ e, Q (Err e) (Reads i k b)) →
  wp c (read_to_end fuel i pos budget acc) Q (Reads i k b).
Proof.
  induction fuel as [|fuel IH]; intros pos budget acc Q Hle Hok Herr; cbn [read_to_end].
  { replace budget with 0%nat in Hok by lia. by rewrite app_nil_r in Hok. }
  destruct budget as [|budget]; [by rewrite app_nil_r in Hok|]. apply wp_bind, wp_call. split_and!; [done| |done].
  intros n Hn H0. destruct (take n (drop pos b)) as [|x l] eqn:Ht.
  - assert (drop pos b = []) as Hd by (destruct n; [by destruct H0|by destruct (drop pos b)]).
    rewrite Hd, app_nil_r in Hok. exact Hok.
  - rewrite <- Ht. assert (length (take n (drop pos b)) = length (x :: l)) as Hlen by by rewrite Ht.
    cbn [length] in Hlen. rewrite length_take in Hlen. apply IH; [rewrite length_take; lia| |done].
    rewrite <- app_assoc, <- drop_drop. rewrite take_split by (rewrite ?length_take; lia). done.
Qed.

(** What a finished reader of a body returns *)
Definition finished (c : Call) (out : Outcome) (own : Own) : Prop :=
  match c, out with
  | StreamBody k budget, Streamed (Ok data) =>
      is_final k = true → ∃ i b, own = Reads i k b ∧ data = take budget b
  | ReadRange k offset max_bytes, Ranged (Ok range) =>
      is_final k = true → ∃ i b, own = Reads i k b ∧ br_bytes range = take max_bytes (drop offset b)
  | _, _ => True
  end.

Lemma wp_open c k own (Q : result nat IoError → Own → Prop) :
  (∀ e, Q (Err e) own) → (∀ i b, is_final k = true → Q (Ok i) (Reads i k b)) →
  (∀ i, is_final k = false → Q (Ok i) Idle) → wp c (call (OpenFile k)) Q own.
Proof. intros He Hf Ht. split; [done|]. intros i. destruct (is_final k); [intros b; by apply Hf|by apply Ht]. Qed.

Lemma wp_read_any c fuel : ∀ i pos budget acc Q, (∀ r, Q r Idle) → wp c (read_to_end fuel i pos budget acc) Q Idle.
Proof.
  induction fuel as [|fuel IH]; intros i pos budget acc Q HQ; cbn [read_to_end]; [apply HQ|].
  destruct budget; [apply HQ|]. apply wp_bind, wp_call. intros [[|x l]|e]; [apply HQ|by apply IH|apply HQ].
Qed.

Lemma wp_start c : wp c (start process_id c) (finished c) Idle.
Proof.
  destruct c as [d kind data|d| |k budget|k offset max_bytes]; cbn [start]; apply wp_bind.
  - by apply wp_write_body.
  - by apply wp_remove_bodies.
  - by apply wp_clear_all.
  - unfold stream_body. apply wp_bind, wp_call. intros [size|e]; [|done]. apply wp_bind, wp_open.
    + done.
    + intros i b Hf. apply wp_bind, wp_read_to_end; [done| |done]. cbn. intros _. by exists i, b.
    + intros i Hf. apply wp_bind, wp_read_any. intros [b|e]; [|done]. cbn [wp map_err finished]. by rewrite Hf.
  - unfold range_body. apply wp_bind, wp_call. intros [size|e]; [|done]. destruct (size <? Z.of_nat offset); [done|].
    apply wp_bind, wp_open.
    + done.
    + intros i b Hf. apply wp_bind, wp_read_to_end; [done| |done]. cbn. intros _. by exists i, b.
    + intros i Hf. apply wp_bind, wp_read_any. intros [b|e]; [|done]. cbn [wp map_err rbind finished]. by rewrite Hf.
Qed.
End Logic.

(** ** The invariant *)

Section Invariant.
Context (process_id : Z).

Definition number (own : Own) : option Z := match own with Holds n | Writes n _ _ _ => Some n | _ => None end.
Definition writes_inode (own : Own) : option nat := match own with Writes _ _ i _ => Some i | _ => None end.

(** What each piece of ownership says of the files *)
Definition holds (f : Fs) (done_ : list (Key * bytes)) (own : Own) : Prop :=
  match own with
  | Idle => True
  | Holds n => 0 <= n < sequence f
  | Writes n t i w =>
      0 <= n < sequence f ∧ is_temp process_id n t ∧ inodes f !! i = Some w ∧
      (∀ k, entries f !! k = Some i → k = t) ∧ ∀ i', entries f !! t = Some i' → i' = i
  | Reads i k b => inodes f !! i = Some b ∧ (k, b) ∈ done_ ∧ ∀ t, entries f !! t = Some i → is_final t = true
  end.

Definition finals (f : Fs) (bodies : list (Key * bytes)) : Prop :=
  ∀ k i, entries f !! k = Some i → is_final k = true → ∃ b, inodes f !! i = Some b ∧ (k, b) ∈ bodies.

(** The files of a store in which every body is complete, whoever runs *)
Record tidy (f : Fs) (bodies : list (Key * bytes)) : Prop := {
  t_sequence : 0 <= sequence f;
  t_valid : ∀ k i, entries f !! k = Some i → (i < length (inodes f))%nat;
  t_unique : ∀ k k' i, entries f !! k = Some i → entries f !! k' = Some i → k = k';
  t_final : finals f bodies
}.

(** Two calls do not hold the same number, write the same inode, or write what
    the other reads. *)
Definition apart (own own' : Own) : Prop :=
  (∀ n, number own = Some n → number own' ≠ Some n) ∧
  (∀ i, writes_inode own = Some i → writes_inode own' ≠ Some i ∧ ∀ k b, own' ≠ Reads i k b) ∧
  (∀ i, writes_inode own' = Some i → ∀ k b, own ≠ Reads i k b).

Record world (f : Fs) (bodies : list (Key * bytes)) (owns : list Own) : Prop := {
  w_tidy : tidy f bodies;
  w_holds : ∀ j own, owns !! j = Some own → holds f bodies own;
  w_apart : ∀ j j' own own', j ≠ j' → owns !! j = Some own → owns !! j' = Some own' → apart own own'
}.

Lemma apart_sym own own' : apart own own' → apart own' own.
Proof.
  intros (Hn & Hi & Hr). split_and!.
  - intros n H1 H2. by apply (Hn n).
  - intros i H1. split; [intros H2; by apply (Hi i)|by apply Hr].
  - intros i H1. by apply (Hi i).
Qed.

(** One call goes on; the ownership of the others still holds. *)
Lemma world_change f f' bodies owns j own own' :
  world f bodies owns → owns !! j = Some own → tidy f' bodies → holds f' bodies own' →
  (∀ j' o, j' ≠ j → owns !! j' = Some o → apart own o → holds f bodies o → holds f' bodies o ∧ apart own' o) →
  world f' bodies (<[j := own']> owns).
Proof.
  intros Hw Hj Ht Hown Hother. pose proof (lookup_lt_Some _ _ _ Hj) as Hlt.
  assert (∀ j' o, j' ≠ j → owns !! j' = Some o → holds f' bodies o ∧ apart own' o) as Ho.
  { intros j' o Hne Ho. apply (Hother j'); [done|done|by apply (w_apart _ _ _ Hw j j')|by apply (w_holds _ _ _ Hw j')]. }
  split; [done| |].
  - intros j' o Hl. apply list_lookup_insert_Some in Hl as [(-> & -> & _)|[Hne Hl]]; [done|by apply (Ho j')].
  - intros a b oa ob Hab Ha Hb. apply list_lookup_insert_Some in Ha as [(-> & -> & _)|[Hna Ha]],
      Hb as [(-> & -> & _)|[Hnb Hb]]; [done|by apply (Ho b)|by apply apart_sym, (Ho a)|by apply (w_apart _ _ _ Hw a b)].
Qed.

Lemma temp_not_final n t : is_temp process_id n t → is_final t = false.
Proof.
  intros [Hn [f Ht]]. unfold is_final, ends_with. rewrite Ht. unfold temp_name. rewrite !app_assoc, rev_app_distr.
  pose proof (show_digits n Hn) as Hd. pose proof (show_nonempty n) as Hne.
  destruct (show n) as [|x l _] using rev_ind; [done|]. rewrite rev_app_distr. cbn [rev app].
  apply Forall_app in Hd as [_ Hd]. apply Forall_cons in Hd as [Hx _]. change (rev (lit ".body")) with (lit "ydob.").
  destruct (starts_with _ _) eqn:Hs; [|done]. apply starts_with_spec in Hs as [r Hr]. injection Hr as -> _. done.
Qed.

Lemma temp_number n n' t : is_temp process_id n t → is_temp process_id n' t → n = n'.
Proof.
  intros [Hn [f Ht]] [Hn' [f' Ht']].
  assert (∀ m g, 0 <= m → rsplit_once (chr "-") (temp_name process_id g m) = Some (g ++ lit ".tmp-" ++ show process_id, show m)) as Hr.
  { intros m g Hm. unfold temp_name. replace (g ++ lit ".tmp-" ++ show process_id ++ lit "-" ++ show m)
      with ((g ++ lit ".tmp-" ++ show process_id) ++ chr "-" :: show m) by (rewrite <- !app_assoc; done).
    apply rsplit_once_last. intros Hin. pose proof (show_digits m Hm) as Hd. rewrite Forall_forall in Hd.
    by specialize (Hd _ Hin). }
  pose proof (Hr n f Hn) as H1. pose proof (Hr n' f' Hn') as H2. rewrite <- Ht in H1. rewrite <- Ht', H1 in H2.
  apply show_inj; [done|done|]. by injection H2.
Qed.

(** *** One call of one running operation *)

Section Calls.
Context (f : Fs) (bodies : list (Key * bytes)) (owns : list Own) (j : nat) (own : Own).
Context (Hw : world f bodies owns) (Hj : owns !! j = Some own).

(** Directories, loose files and the base directory do not matter. *)
Lemma world_same f' :
  entries f' = entries f → inodes f' = inodes f → sequence f' = sequence f → world f' bodies owns.
Proof.
  intros He Hi Hs. destruct Hw as [[H1 H2 H3 H4] H5 H6]. split; [split| |done].
  - by rewrite Hs.
  - by rewrite He, Hi.
  - by rewrite He.
  - unfold finals. by rewrite He, Hi.
  - intros j' o Ho. specialize (H5 j' o Ho). destruct o; cbn [holds] in *; rewrite ?He, ?Hi, ?Hs; done.
Qed.

Lemma insert_same own' : own' = own → <[j := own']> owns = owns.
Proof. intros ->. by apply list_insert_id. Qed.

(** A name is removed. *)
Lemma world_remove k : world (with_files f (delete k (entries f)) (inodes f)) bodies owns.
Proof.
  destruct Hw as [[H1 H2 H3 H4] H5 H6].
  assert (∀ k' i, delete k (entries f) !! k' = Some i → entries f !! k' = Some i) as Hd
    by (intros k' i Hk; by apply lookup_delete_Some in Hk as [_ Hk]).
  split; [split; cbn; [done|eauto|eauto|intros ? ? ?; eauto]| |done].
  intros j' o Ho. specialize (H5 j' o Ho). destruct o; cbn [holds entries inodes sequence with_files] in *; [done|done| |].
  - destruct H5 as (? & ? & ? & Ha & Hb). split_and!; first [lia|by eauto].
  - destruct H5 as (? & ? & Ha). split_and!; by eauto.
Qed.

(** A new number *)
Lemma world_number :
  world (with_sequence f (sequence f + 1)) bodies (<[j := Holds (sequence f)]> owns).
Proof.
  pose proof (t_sequence _ _ (w_tidy _ _ _ Hw)) as Hs. apply (world_change f _ bodies owns j own); [done|done| |cbn; lia|].
  - destruct (w_tidy _ _ _ Hw) as [H1 H2 H3 H4]. split; cbn; [lia|done|done|done].
  - intros j' o Hne Ho Ha Hh. split.
    + destruct o; cbn [holds entries inodes sequence with_sequence] in *; [done|lia| |done].
      destruct Hh as (? & ?). split; [lia|done].
    + split_and!; [|done|done]. intros n [= <-] Hn. destruct o; cbn [number holds] in *; simplify_eq; lia.
Qed.

Lemma holds_number (o : Own) n t : is_temp process_id n t → number o ≠ Some n → holds f bodies o →
  ∀ i, entries f !! t = Some i → writes_inode o ≠ Some i ∧ ∀ k b, o ≠ Reads i k b.
Proof.
  intros Ht Hn Hh i Hi. split.
  - intros Hwi. destruct o as [| |n' t' i' w|]; cbn in *; simplify_eq. destruct Hh as (_ & Ht' & _ & Hk & _).
    rewrite (Hk _ Hi) in Ht. by rewrite (temp_number _ _ _ Ht Ht') in Hn.
  - intros k b ->. cbn [holds] in Hh. destruct Hh as (_ & _ & Hf). specialize (Hf _ Hi). by rewrite (temp_not_final _ _ Ht) in Hf.
Qed.

(** A temporary file that is there already is emptied. *)
Lemma world_truncate n k i :
  own = Holds n → is_temp process_id n k → entries f !! k = Some i →
  world (with_files f (entries f) (<[i := []]> (inodes f))) bodies (<[j := Writes n k i []]> owns).
Proof.
  intros -> Ht Hk. destruct (w_tidy _ _ _ Hw) as [H1 H2 H3 H4]. pose proof (w_holds _ _ _ Hw _ _ Hj) as Hn. cbn in Hn.
  assert (∀ k' i', entries f !! k' = Some i' → is_final k' = true → i' ≠ i) as Hne.
  { intros k' i' Hk' Hf ->. rewrite (H3 _ _ _ Hk' Hk) in Hf. by rewrite (temp_not_final _ _ Ht) in Hf. }
  apply (world_change f _ bodies owns j (Holds n)); [done|done| | |].
  - split; cbn; [done|intros k' i' Hk'; rewrite length_insert; eauto|done|].
    intros k' i' Hk' Hf. cbn in *. rewrite list_lookup_insert_ne by (by apply not_eq_sym, (Hne k')). by apply H4.
  - cbn. split_and!; [lia|lia|done| |eauto|]; [apply list_lookup_insert_eq; eauto|intros i' Hi'; congruence].
  - intros j' o Hjj Ho Ha Hh. destruct Ha as (Hnum & _ & _). specialize (Hnum n eq_refl).
    destruct (holds_number o n k Ht Hnum Hh i Hk) as [Hwi Hr]. split.
    + destruct o as [| |n' t' i' w|i' k' b]; cbn [holds entries inodes sequence with_files writes_inode] in *; [done|done| |];
        rewrite list_lookup_insert_ne; try done; intros ->; naive_solver.
    + split_and!; [by intros ? [= <-]|intros i' [= <-]; done|done].
Qed.

(** A temporary file is created. *)
Lemma world_create n k :
  own = Holds n → is_temp process_id n k → entries f !! k = None →
  world (with_files f (<[k := length (inodes f)]> (entries f)) (inodes f ++ [[]])) bodies
    (<[j := Writes n k (length (inodes f)) []]> owns).
Proof.
  intros -> Ht Hk. destruct (w_tidy _ _ _ Hw) as [H1 H2 H3 H4]. pose proof (w_holds _ _ _ Hw _ _ Hj) as Hn. cbn in Hn.
  assert (∀ i b, inodes f !! i = Some b → (inodes f ++ [[]]) !! i = Some b) as Hgrow
    by (intros i b Hi; rewrite lookup_app_l; [done|by eapply lookup_lt_Some]).
  assert (∀ k' i, <[k := length (inodes f)]> (entries f) !! k' = Some i →
    k' = k ∧ i = length (inodes f) ∨ k' ≠ k ∧ entries f !! k' = Some i) as Hins.
  { intros k' i Hi. apply lookup_insert_Some in Hi. naive_solver. }
  apply (world_change f _ bodies owns j (Holds n)); [done|done| | |].
  - split; cbn [entries inodes sequence with_files]; [done| | |].
    + intros k' i Hi. rewrite length_app. cbn. apply Hins in Hi as [[_ ->]|[_ Hi]]; [lia|]. specialize (H2 _ _ Hi). lia.
    + intros k' k'' i Hi Hi'. apply Hins in Hi as [[-> ->]|[_ Hi]], Hi' as [[-> Heq]|[_ Hi']]; eauto.
      * specialize (H2 _ _ Hi'). lia.
      * subst i. specialize (H2 _ _ Hi). lia.
    + intros k' i Hi Hf. cbn [entries inodes with_files] in *. apply Hins in Hi as [[-> ->]|[_ Hi]].
      * by rewrite (temp_not_final _ _ Ht) in Hf.
      * destruct (H4 _ _ Hi Hf) as (b & Hb & Hin). eauto.
  - cbn. split_and!; [lia|lia|done|by rewrite lookup_app_r, Nat.sub_diag by lia| |].
    + intros k' Hi. apply Hins in Hi as [[-> _]|[_ Hi]]; [done|]. specialize (H2 _ _ Hi). lia.
    + intros i Hi. rewrite lookup_insert_eq in Hi. congruence.
  - intros j' o Hjj Ho Ha Hh. destruct Ha as (Hnum & _ & _). specialize (Hnum n eq_refl). split.
    + destruct o as [| |n' t' i' w|i' k' b]; cbn [holds entries inodes sequence with_files number] in *; [done|done| |].
      * destruct Hh as (? & Ht' & Hi' & Hn' & Hu'). pose proof (lookup_lt_Some _ _ _ Hi'). split_and!; [lia|lia|done|eauto| |].
        -- intros k' Hk'. apply Hins in Hk' as [[_ Heq]|[_ Hk']]; [lia|eauto].
        -- intros i'' Hk'. apply Hins in Hk' as [[-> _]|[_ Hk']]; [|eauto]. by rewrite (temp_number _ _ _ Ht Ht') in Hnum.
      * destruct Hh as (Hi' & ? & Hfin). pose proof (lookup_lt_Some _ _ _ Hi'). split_and!; [eauto|done|].
        intros t Hk'. apply Hins in Hk' as [[_ Heq]|[_ Hk']]; [lia|eauto].
    + split_and!; [by intros ? [= <-]| |done]. intros i [= <-].
      destruct o as [| |n' t' i' w|i' k' b]; cbn [holds writes_inode] in *; try done.
      * destruct Hh as (_ & _ & Hi' & _). pose proof (lookup_lt_Some _ _ _ Hi'). split; [intros [= ->]; lia|done].
      * destruct Hh as (Hi' & _). pose proof (lookup_lt_Some _ _ _ Hi'). split; [done|]. intros k'' b'' [= -> _ _]. lia.
Qed.

(** A temporary file grows. *)
Lemma world_write n t i w w' :
  own = Writes n t i w → world (with_files f (entries f) (<[i := w']> (inodes f))) bodies (<[j := Writes n t i w']> owns).
Proof.
  intros ->. destruct (w_tidy _ _ _ Hw) as [H1 H2 H3 H4]. pose proof (w_holds _ _ _ Hw _ _ Hj) as (Hn & Ht & Hi & Hname & Huniq).
  apply (world_change f _ bodies owns j (Writes n t i w)); [done|done| | |].
  - split; cbn; [done|intros k' i' Hk'; rewrite length_insert; eauto|done|].
    intros k' i' Hk' Hf. cbn in *. rewrite list_lookup_insert_ne; [by apply H4|].
    intros ->. rewrite (Hname _ Hk') in Hf. by rewrite (temp_not_final _ _ Ht) in Hf.
  - cbn. split_and!; [lia|lia|done|apply list_lookup_insert_eq; by eapply lookup_lt_Some|done|done].
  - intros j' o Hjj Ho Ha Hh. split; [|by destruct Ha as (? & ? & ?); split_and!]. destruct Ha as (_ & Hwi & _). destruct (Hwi i eq_refl) as [Hni Hnr].
    destruct o as [| |n' t' i' w1|i' k' b]; cbn [holds entries inodes sequence with_files writes_inode] in *; [done|done| |];
      rewrite list_lookup_insert_ne; try done; intros ->; naive_solver.
Qed.

(** A complete temporary file replaces the body. *)
Lemma world_rename n src i b dst i' :
  own = Writes n src i b → is_final dst = true → (dst, b) ∈ bodies → entries f !! src = Some i' →
  world (with_files f (<[dst := i']> (delete src (entries f))) (inodes f)) bodies (<[j := Idle]> owns).
Proof.
  intros -> Hdst Hin Hsrc. destruct (w_tidy _ _ _ Hw) as [H1 H2 H3 H4].
  pose proof (w_holds _ _ _ Hw _ _ Hj) as (Hn & Ht & Hi & Hname & Huniq). assert (i' = i) as -> by auto.
  assert (∀ k x, <[dst := i]> (delete src (entries f)) !! k = Some x → k = dst ∧ x = i ∨ k ≠ dst ∧ k ≠ src ∧ entries f !! k = Some x) as Hins.
  { intros k x Hx. apply lookup_insert_Some in Hx as [[-> ->]|[Hne Hx]]; [by left|]. apply lookup_delete_Some in Hx as [Hs Hx]. naive_solver. }
  apply (world_change f _ bodies owns j (Writes n src i b)); [done|done| |done|].
  - split; cbn [entries inodes sequence with_files]; [done| | |].
    + intros k x Hx. apply Hins in Hx as [[-> ->]|(_ & _ & Hx)]; eauto.
    + intros k k' x Hx Hx'. apply Hins in Hx as [[-> ->]|(_ & Hns & Hx)], Hx' as [[-> Heq]|(_ & Hns' & Hx')]; eauto.
      * by destruct Hns'; apply Hname.
      * subst x. by destruct Hns; apply Hname.
    + intros k x Hx Hf. cbn [entries inodes with_files] in *. apply Hins in Hx as [[-> ->]|(_ & _ & Hx)]; eauto.
  - intros j' o Hjj Ho (_ & Hwi & _) Hh. destruct (Hwi i eq_refl) as [Hni _]. split; [|by split_and!].
    destruct o as [| |n' t' x w|x k' b']; cbn [holds entries inodes sequence with_files writes_inode] in *; [done|done| |].
    + destruct Hh as (? & Ht' & Hx & Hn' & Hu'). split_and!; [lia|lia|done|done| |].
      * intros k Hk. apply Hins in Hk as [[-> ->]|(_ & _ & Hk)]; [done|eauto].
      * intros y Hy. apply Hins in Hy as [[-> ->]|(_ & _ & Hy)]; [by rewrite (temp_not_final _ _ Ht') in Hdst|eauto].
    + destruct Hh as (Hx & ? & Hfin). split_and!; [done|done|].
      intros k Hk. apply Hins in Hk as [[-> ->]|(_ & _ & Hk)]; [done|eauto].
Qed.

(** A body is opened. *)
Lemma world_open k i :
  is_final k = true → entries f !! k = Some i → ∃ b, world f bodies (<[j := Reads i k b]> owns).
Proof.
  intros Hk Hi. destruct (w_tidy _ _ _ Hw) as [H1 H2 H3 H4]. destruct (H4 _ _ Hi Hk) as (b & Hb & Hin). exists b.
  assert (∀ t, entries f !! t = Some i → is_final t = true) as Hfin by (intros t Ht; by rewrite (H3 _ _ _ Ht Hi)).
  apply (world_change f _ bodies owns j own); [done|done|by apply w_tidy with owns|done|].
  intros j' o Hjj Ho _ Hh. split; [done|]. split_and!; [done|done|]. intros x Hx k' b' [= <- <- <-].
  destruct o as [| |n t y w|]; cbn in *; simplify_eq. destruct Hh as (_ & Ht & _ & Hname & _).
  rewrite (Hname _ Hi) in Hk. by rewrite (temp_not_final _ _ Ht) in Hk.
Qed.

(** What a call knew may be forgotten. *)
Lemma world_idle : world f bodies (<[j := Idle]> owns).
Proof.
  apply (world_change f _ bodies owns j own); [done|done|by apply w_tidy with owns|done|].
  intros j' o Hjj Ho _ Hh. split; [done|by split_and!].
Qed.
End Calls.

Lemma does_fault {B} f (o : Op B) f' ans : does f o f' ans → performs f o f' ans ∨ f' = f.
Proof. destruct o; cbn [does]; try (by left); (intros [Hp|[-> _]]; [by left|by right]). Qed.

(** A call that changes no file, number or ownership *)
Definition passive {B} (o : Op B) : bool :=
  match o with
  | CreateDirAll _ | CreateBase | RemoveDir _ | RemoveLoose _ | DirExists _ | ListDir _ | ListBase | Stat _
  | SyncAll _ | SetPermissions _ => true
  | _ => false
  end.

Lemma passive_same {B} f (o : Op B) f' ans :
  passive o = true → does f o f' ans → entries f' = entries f ∧ inodes f' = inodes f ∧ sequence f' = sequence f.
Proof.
  intros Hp Hd. apply does_fault in Hd as [Hd| ->]; [|done].
  destruct o; try done; cbn [performs] in Hd; repeat case_decide; by destruct Hd as [-> _].
Qed.

Lemma passive_post {B} c own (o : Op B) post ans : passive o = true → permits process_id c own o post → post ans own.
Proof. intros Hp. by destruct o; try done; cbn [permits]; intros H; apply H. Qed.

Lemma act_ok c {B} (o : Op B) f f' ans bodies owns j own post :
  world f bodies owns → owns !! j = Some own → (∀ x, x ∈ asks c → x ∈ bodies) →
  permits process_id c own o post → does f o f' ans →
  ∃ own', post ans own' ∧ world f' bodies (<[j := own']> owns).
Proof.
  intros Hw Hj Hasks Hp Hd. destruct (passive o) eqn:Hpass.
  { exists own. split; [by eapply passive_post|]. rewrite list_insert_id by done.
    destruct (passive_same _ _ _ _ Hpass Hd) as (? & ? & ?). by eapply world_same. }
  destruct o; try done; cbn [permits does performs] in Hp, Hd; clear Hpass.
  - destruct Hp as (n & -> & Ht & Hok & Herr).
    destruct Hd as [Hd|[-> [m ->]]]; [|exists (Holds n); split; [done|by rewrite list_insert_id]].
    destruct (decide (k.1 ∈ dirs f)); [|destruct Hd as [-> ->]; exists (Holds n); split; [done|by rewrite list_insert_id]].
    destruct (entries f !! k) as [i|] eqn:Hk; destruct Hd as [-> ->].
    + exists (Writes n k i []). split; [done|by eapply world_truncate].
    + eexists. split; [apply Hok|by eapply world_create].
  - destruct Hp as (n & t & w & -> & Hok & Herr).
    destruct Hd as [(m & w' & Hm & Hi & -> & ->)|[-> [m ->]]]; [|eexists; split; [apply Herr|by rewrite list_insert_id]].
    eexists. split; [by apply Hok|]. pose proof (w_holds _ _ _ Hw _ _ Hj) as (_ & _ & Hi' & _). simplify_eq. by eapply world_write.
  - destruct Hp as (n & i & b & -> & Hf & Hin & Hok & Herr).
    destruct Hd as [Hd|[-> [m ->]]]; [|eexists; split; [apply Herr|by rewrite list_insert_id]].
    destruct (entries f !! src) as [i'|] eqn:Hs; destruct Hd as [-> ->]; [|eexists; split; [apply Herr|by rewrite list_insert_id]].
    exists Idle. split; [done|]. eapply world_rename; eauto.
  - exists own. split; [done|]. rewrite list_insert_id by done. destruct Hd as [Hd|[-> _]]; [|done].
    destruct (entries f !! k); destruct Hd as [-> _]; [by apply world_remove|done].
  - destruct Hd as [-> ->]. eexists. split; [apply Hp, (t_sequence _ _ (w_tidy _ _ _ Hw))|by eapply world_number].
  - destruct Hp as [Herr Hok]. destruct Hd as [[-> Hd]|[-> [m ->]]]; [|eexists; split; [apply Herr|by rewrite list_insert_id]].
    destruct (entries f !! k) as [i|] eqn:Hk; subst ans; [|eexists; split; [apply Herr|by rewrite list_insert_id]].
    specialize (Hok i). destruct (is_final k) eqn:Hf.
    + destruct (world_open f bodies owns j own Hw Hj k i Hf Hk) as [b Hb]. eauto.
    + exists Idle. split; [done|by eapply world_idle].
  - exists own. rewrite list_insert_id by done.
    assert (f' = f) as -> by (by destruct Hd as [[-> _]|[-> _]]). split; [|done]. destruct own as [| | |i' k b]; try apply Hp.
    destruct Hp as (-> & Hok & Herr). destruct Hd as [(_ & b' & n & Hi & Hn & H0 & ->)|[_ [m ->]]]; [|apply Herr].
    pose proof (w_holds _ _ _ Hw _ _ Hj) as (Hi' & _). simplify_eq. by apply Hok.
Qed.

(** Every running call is somewhere in a program it may run. *)
Definition safe_sys (s : Sys) : Prop :=
  ∃ owns, world (fs s) (asked s) owns ∧ length owns = length (threads s) ∧
    ∀ j c p, threads s !! j = Some (c, p) →
      (∀ x, x ∈ asks c → x ∈ asked s) ∧ ∃ own, owns !! j = Some own ∧ wp process_id c p (finished c) own.

Lemma world_more f bodies bodies' owns :
  (∀ x, x ∈ bodies → x ∈ bodies') → world f bodies owns → world f bodies' owns.
Proof.
  intros Hb [[H1 H2 H3 H4] H5 H6]. split; [split; try done| |done].
  - intros k i Hk Hf. destruct (H4 _ _ Hk Hf) as (b & ? & ?). eauto.
  - intros j own Ho. specialize (H5 j own Ho). destruct own; cbn [holds] in *; try done. naive_solver.
Qed.

Lemma safe_step s s' : safe_sys s → step process_id s s' → safe_sys s'.
Proof.
  intros (owns & Hw & Hlen & Hsafe) Hstep. destruct Hstep as [s c|s j c B o k f' ans Hj Hd|s].
  - exists (owns ++ [Idle]). cbn [fs threads asked]. split_and!; [|by rewrite !length_app, Hlen|].
    + apply (world_more _ (asked s)); [set_solver|]. destruct Hw as [H1 H2 H3]. split; [done| |].
      * intros j own Ho. apply lookup_snoc_Some in Ho as [[_ Ho]|[_ <-]]; [eauto|done].
      * intros j j' own own' Hne Ho Ho'. apply lookup_snoc_Some in Ho as [[_ Ho]|[-> <-]], Ho' as [[_ Ho']|[-> <-]];
          [eauto|by split_and!|by split_and!|done].
    + intros j c' p Hj. apply lookup_snoc_Some in Hj as [[Hlt Hj]|[-> [= <- <-]]].
      * destruct (Hsafe _ _ _ Hj) as (Hin & own & Ho & Hp). split; [set_solver|]. exists own. split; [|done].
        apply lookup_app_l_Some. done.
      * split; [set_solver|]. exists Idle. split; [by rewrite <- Hlen, list_lookup_middle|apply wp_start].
  - destruct (Hsafe _ _ _ Hj) as (Hin & own & Ho & Hp). cbn [wp] in Hp.
    destruct (act_ok c o (fs s) f' ans (asked s) owns j own _ Hw Ho Hin Hp Hd) as (own' & Hpost & Hw').
    exists (<[j := own']> owns). cbn [fs threads asked]. split_and!; [done|by rewrite !length_insert|].
    intros j' c' p' Hj'. apply list_lookup_insert_Some in Hj' as [(-> & [= <- <-] & _)|[Hne Hj']].
    + split; [done|]. exists own'. split; [|done]. apply list_lookup_insert_eq. by eapply lookup_lt_Some.
    + destruct (Hsafe _ _ _ Hj') as (Hin' & own1 & Ho' & Hp'). split; [done|]. exists own1. split; [|done].
      by rewrite list_lookup_insert_ne.
  - exists []. cbn [fs threads asked]. split_and!; [|done|done]. destruct Hw as [[H1 H2 H3 H4] _ _].
    split; [split; done|done|done].
Qed.
End Invariant.

(** C3: Under any number of concurrent writes, removals, clears and reads, with short
    writes, failing calls and crashes at any point, the file under the name of a
    body always holds, complete, some body that was given to [write_body] for it;
    and a reader that succeeds returns the beginning, or the requested part, of one
    complete body, never a mixture or a half-written one. *)
Theorem bodies_never_partial (process_id : Z) (f : Fs) (bodies : list (Key * bytes)) (s : Sys) :
  tidy f bodies → rtc (step process_id) {| fs := f; threads := []; asked := bodies |} s →
  (∀ k, is_final k = true → is_Some (entries (fs s) !! k) → ∃ b, content (fs s) k = Some b ∧ (k, b) ∈ asked s) ∧
  (∀ k budget data, (StreamBody k budget, Ret (Streamed (Ok data))) ∈ threads s → is_final k = true →
     ∃ b, (k, b) ∈ asked s ∧ data = take budget b) ∧
  (∀ k offset max_bytes range, (ReadRange k offset max_bytes, Ret (Ranged (Ok range))) ∈ threads s → is_final k = true →
     ∃ b, (k, b) ∈ asked s ∧ br_bytes range = take max_bytes (drop offset b)).
Proof.
  intros Ht Hr. assert (safe_sys process_id s) as (owns & Hw & Hlen & Hsafe).
  { assert (safe_sys process_id {| fs := f; threads := []; asked := bodies |}) as H0 by (exists []; split_and!; [by split|done|done]).
    revert H0. induction Hr as [|x y z Hxy _ IH]; intros H0; [done|]. by eapply IH, safe_step. }
  assert (∀ c out, (c, Ret out) ∈ threads s → ∃ own, finished c out own ∧ holds process_id (fs s) (asked s) own) as Hfin.
  { intros c out Hin. apply list_elem_of_lookup_1 in Hin as [j Hj]. destruct (Hsafe _ _ _ Hj) as (_ & own & Ho & Hp).
    exists own. split; [done|by apply (w_holds _ _ _ _ Hw j)]. }
  split_and!.
  - intros k Hk [i Hi]. destruct (t_final _ _ (w_tidy _ _ _ _ Hw) _ _ Hi Hk) as (b & Hb & Hin).
    exists b. unfold content. by rewrite Hi.
  - intros k budget data Hin Hk. destruct (Hfin _ _ Hin) as (own & Hf & Hh). destruct (Hf Hk) as (i & b & -> & ->).
    destruct Hh as (_ & Hb & _). by exists b.
  - intros k offset max_bytes range Hin Hk. destruct (Hfin _ _ Hin) as (own & Hf & Hh). destruct (Hf Hk) as (i & b & -> & Hr').
    destruct Hh as (_ & Hb & _). by exists b.
Qed.

(** ** Running without faults *)

(** The answer of a call when nothing fails and nothing is cut short *)
Definition exec_op {B} (f : Fs) (o : Op B) : option (Fs * B) :=
  match o in Op B return option (Fs * B) with
  | CreateDirAll d => Some (with_dirs f (dirs f ∪ {[d]}), Ok tt)
  | CreateBase => Some (with_dirs f (dirs f), Ok tt)
  | CreateFile k =>
      Some (if decide (k.1 ∈ dirs f) then
              match entries f !! k with
              | Some i => (with_files f (entries f) (<[i := []]> (inodes f)), Ok i)
              | None => (with_files f (<[k := length (inodes f)]> (entries f)) (inodes f ++ [[]]), Ok (length (inodes f)))
              end
            else (f, Err NotFound))
  | WriteSome i b =>
      match b, inodes f !! i with
      | _ :: _, Some c => Some (with_files f (entries f) (<[i := c ++ b]> (inodes f)), Ok (length b))
      | _, _ => None
      end
  | Rename src dst =>
      Some (match entries f !! src with
            | Some i => (with_files f (<[dst := i]> (delete src (entries f))) (inodes f), Ok tt)
            | None => (f, Err NotFound)
            end)
  | RemoveFile k =>
      Some (match entries f !! k with
            | Some _ => (with_files f (delete k (entries f)) (inodes f), Ok tt)
            | None => (f, Err NotFound)
            end)
  | NextSequence => Some (with_sequence f (sequence f + 1), sequence f)
  | DirExists d => Some (f, bool_decide (d ∈ dirs f))
  | ListDir d => Some (f, if decide (d ∈ dirs f) then Ok (dir_names f d) else Err NotFound)
  | RemoveDir d =>
      Some (if decide (d ∈ dirs f) then
              if decide (dir_names f d ≠ []) then (f, Err NotEmpty) else (with_dirs f (dirs f ∖ {[d]}), Ok tt)
            else (f, Err NotFound))
  | ListBase => Some (f, if base_present f then Ok (elements (dirs f ∪ loose f)) else Err NotFound)
  | RemoveLoose n => Some (if decide (n ∈ loose f) then (with_loose f (loose f ∖ {[n]}), Ok tt) else (f, Err NotFound))
  | Stat k => Some (f, match content f k with Some b => Ok (len b) | None => Err NotFound end)
  | OpenFile k => Some (f, match entries f !! k with Some i => Ok i | None => Err NotFound end)
  | ReadAt i pos max => b ← inodes f !! i; Some (f, Ok (take max (drop pos b)))
  | SyncAll _ => Some (f, Ok tt)
  | SetPermissions k => Some (f, match entries f !! k with Some _ => Ok tt | None => Err NotFound end)
  end.

Lemma exec_performs {B} f (o : Op B) f' ans : exec_op f o = Some (f', ans) → performs f o f' ans.
Proof.
  destruct o; cbn [exec_op performs]; intros He; simplify_eq; try done; repeat case_decide; simplify_eq; try done;
    try (by destruct (entries f !! _); simplify_eq).
  - destruct b as [|x b], (inodes f !! i) as [c|] eqn:Hi; simplify_eq. exists (length (x :: b)), c.
    rewrite take_ge by lia. cbn [length]. split_and!; try done; lia.
  - split; [done|]. by eexists.
  - split; [done|]. destruct (base_present _); [by eexists|done].
  - split; [done|]. by destruct (content _ k).
  - split; [done|]. by destruct (entries _ !! k).
  - destruct (inodes f !! i) as [b|] eqn:Hi; [|done]. cbn in He. simplify_eq. split; [done|]. exists b, max.
    split_and!; auto.
  - split; [done|]. by destruct (entries _ !! k).
Qed.

Lemma exec_does {B} f (o : Op B) f' ans : exec_op f o = Some (f', ans) → does f o f' ans.
Proof. intros He. apply exec_performs in He. destruct o; cbn [does]; auto. Qed.

(** A program alone *)
Fixpoint exec {A} (p : Prog A) (f : Fs) : option (Fs * A) :=
  match p with
  | Ret a => Some (f, a)
  | Do o k => '(f', ans) ← exec_op f o; exec (k ans) f'
  end.

Lemma exec_bind {A B} (p : Prog A) (g : A → Prog B) f : exec (pbind p g) f = '(f', a) ← exec p f; exec (g a) f'.
Proof.
  revert f. induction p as [a|C o k IH]; intros f; cbn [exec pbind]; [done|].
  destruct (exec_op f o) as [[f' ans]|]; [|done]. cbn. apply IH.
Qed.

Lemma exec_call {B} (o : Op B) f : exec (call o) f = exec_op f o.
Proof. unfold call. cbn [exec]. by destruct (exec_op f o) as [[f' ans]|]. Qed.

Lemma exec_write_all i : ∀ b f c, inodes f !! i = Some c →
  exec (write_all (length b) i b) f = Some (with_files f (entries f) (<[i := c ++ b]> (inodes f)), Ok tt).
Proof.
  intros [|x b] f c Hi; cbn [length write_all].
  - cbn [exec]. rewrite app_nil_r, list_insert_id by done. by destruct f.
  - rewrite exec_bind, exec_call. cbn [exec_op]. rewrite Hi. cbn [mbind option_bind]. rewrite drop_ge by done.
    destruct (length b); done.
Qed.

(** A fresh temporary file, filled and renamed *)
Lemma exec_atomic process_id d file data f :
  d ∈ dirs f → entries f !! (d, temp_name process_id file (sequence f)) = None → temp_name process_id file (sequence f) ≠ file →
  ∃ f', exec (write_body_file_atomic process_id d file data) f = Some (f', Ok tt) ∧ content f' (d, file) = Some data.
Proof.
  intros Hd Hfree Hne. unfold write_body_file_atomic, create_and_rename.
  rewrite exec_bind, exec_call. cbn [exec_op mbind option_bind]. cbn zeta. set (temp := temp_name process_id file (sequence f)) in *.
  rewrite exec_bind, exec_bind, exec_call. cbn [exec_op]. rewrite decide_True by done. cbn [entries with_sequence]. rewrite Hfree.
  cbn [mbind option_bind]. rewrite exec_bind.
  rewrite (exec_write_all _ data _ []) by (cbn; by rewrite lookup_app_r, Nat.sub_diag by lia).
  cbn [mbind option_bind]. rewrite exec_call. cbn [exec_op entries with_files]. rewrite lookup_insert_eq. cbn [mbind option_bind exec].
  eexists. split; [done|]. unfold content. cbn. rewrite lookup_insert_eq. cbn. by rewrite list_lookup_insert_eq by (rewrite length_app; cbn; lia).
Qed.

Lemma exec_read_to_end i b fuel : ∀ f pos budget acc, inodes f !! i = Some b → (budget <= fuel)%nat →
  exec (read_to_end fuel i pos budget acc) f = Some (f, Ok (acc ++ take budget (drop pos b))).
Proof.
  induction fuel as [|fuel IH]; intros f pos budget acc Hi Hle; cbn [read_to_end].
  { replace budget with 0%nat by lia. by rewrite app_nil_r. }
  destruct budget as [|budget]; [by rewrite app_nil_r|]. rewrite exec_bind, exec_call. cbn [exec_op]. rewrite Hi.
  cbn [mbind option_bind]. destruct (take (S budget) (drop pos b)) as [|x l] eqn:Ht; [by rewrite app_nil_r|].
  rewrite <- Ht. assert (length (take (S budget) (drop pos b)) = length (x :: l)) as Hl by by rewrite Ht.
  cbn [length] in Hl. rewrite IH; [|done|rewrite length_take in *; lia]. rewrite <- app_assoc, <- drop_drop. by rewrite take_split by (rewrite length_take; lia).
Qed.

(** A body written when no file stands in the way is read back: the write succeeds
    with the path of the body, and streaming that path with a budget of at least its
    size, or reading a range of it, returns exactly the data, also where an earlier
    body was replaced. *)
Theorem written_body_read_back (process_id : Z) (f : Fs) (d kind : str) (data : bytes) :
  is_ok (validate_safe_segment d (lit "session id")) = true → is_ok (validate_safe_segment kind (lit "body kind")) = true →
  0 <= sequence f → entries f !! (d, temp_name process_id (body_file kind) (sequence f)) = None →
  ∃ f', exec (write_body process_id d kind data) f = Some (f', Ok (relative d kind)) ∧
    content f' (d, body_file kind) = Some data ∧
    (∀ budget, (length data <= budget)%nat → exec (stream_body (d, body_file kind) budget) f' = Some (f', Ok data)) ∧
    ∀ offset max_bytes, (offset <= length data)%nat →
      exec (range_body (d, body_file kind) offset max_bytes) f'
        = Some (f', Ok (body_range (len data) (Z.of_nat offset) (take max_bytes (drop offset data)))).
Proof.
  intros Hd Hk Hseq Hfree. unfold write_body. destruct (validate_safe_segment d _); [cbn [rbind]|done].
  destruct (validate_safe_segment kind _); [|done]. rewrite exec_bind, exec_call. cbn [exec_op mbind option_bind].
  rewrite exec_bind. destruct (exec_atomic process_id d (body_file kind) data (with_dirs f (dirs f ∪ {[d]}))) as (f' & -> & Hc);
    [set_solver|done| |].
  { cbn [sequence with_dirs]. intros Heq. pose proof (body_file_final d kind) as Hf. unfold is_final in Hf. cbn [snd] in Hf. rewrite <- Heq in Hf.
    pose proof (temp_not_final process_id (sequence f) (d, temp_name process_id (body_file kind) (sequence f))) as Ht.
    unfold is_final in Ht. cbn [snd] in Ht. rewrite Ht in Hf; [done|]. split; [done|by eexists]. }
  cbn [mbind option_bind exec]. exists f'. split; [done|]. split; [done|].
  unfold content in Hc. destruct (entries f' !! (d, body_file kind)) as [i|] eqn:He; [cbn in Hc|done]. split.
  - intros budget Hb. unfold stream_body. rewrite exec_bind, exec_call. cbn [exec_op mbind option_bind]. unfold content.
    rewrite He. cbn [mbind option_bind]. rewrite Hc, exec_bind, exec_call. cbn [exec_op mbind option_bind].
    rewrite He, exec_bind, (exec_read_to_end i data) by done. cbn. by rewrite take_ge.
  - intros offset max_bytes Ho. unfold range_body. rewrite exec_bind, exec_call. cbn [exec_op mbind option_bind]. unfold content.
    rewrite He. cbn [mbind option_bind]. rewrite Hc. destruct (Z.ltb_spec (len data) (Z.of_nat offset)); [unfold len in *; lia|].
    rewrite exec_bind, exec_call. cbn [exec_op mbind option_bind]. rewrite He, exec_bind, (exec_read_to_end i data) by done. done.
Qed.

(** ** Schedules *)

(** A new call, or the next step of a running one, without faults *)
Definition schedule_step (process_id : Z) (e : Call + nat) (s : Sys) : option Sys :=
  match e with
  | inl c => Some {| fs := fs s; threads := threads s ++ [(c, start process_id c)]; asked := asked s ++ asks c |}
  | inr j =>
      match threads s !! j with
      | Some (c, Do o k) =>
          '(f', ans) ← exec_op (fs s) o;
          Some {| fs := f'; threads := <[j := (c, k ans)]> (threads s); asked := asked s |}
      | _ => None
      end
  end.

Fixpoint schedule (process_id : Z) (es : list (Call + nat)) (s : Sys) : option Sys :=
  match es with
  | [] => Some s
  | e :: es => s' ← schedule_step process_id e s; schedule process_id es s'
  end.

Lemma schedule_reaches process_id es : ∀ s s', schedule process_id es s = Some s' → rtc (step process_id) s s'.
Proof.
  induction es as [|e es IH]; intros s s'; cbn [schedule]; [by intros [= ->]|].
  destruct (schedule_step process_id e s) as [s1|] eqn:He; [|done]. cbn. intros Hs. eapply rtc_l; [|by apply IH].
  destruct e as [c|j]; cbn [schedule_step] in He; [simplify_eq; constructor|].
  destruct (threads s !! j) as [[c [|B o k]]|] eqn:Hj; try done. destruct (exec_op (fs s) o) as [[f' ans]|] eqn:Ho; [|done].
  cbn in He. simplify_eq. by econstructor; [|apply exec_does].
Qed.

Definition empty_fs : Fs :=
  {| base_present := true; dirs := ∅; loose := ∅; entries := ∅; inodes := []; sequence := 0 |}.

Definition no_calls : Sys := {| fs := empty_fs; threads := []; asked := [] |}.

Lemma empty_tidy : tidy empty_fs [].
Proof.
  assert (∀ k i, entries empty_fs !! k ≠ Some i) as He by (intros k i; cbn [entries empty_fs]; by rewrite lookup_empty).
  split; [done|intros k i Hk|intros k k' i Hk|intros k i Hk]; by destruct (He _ _ Hk).
Qed.

Definition body_key : Key := (lit "s1", lit "response.body").

(** A body is written, replaced while it is streamed, and streamed again. *)
Definition replace_schedule : list (Call + nat) :=
  [inl (WriteBody (lit "s1") (lit "response") (lit "abc"))] ++ repeat (inr 0%nat) 5
  ++ [inl (StreamBody body_key 100); inr 1%nat; inr 1%nat]
  ++ [inl (WriteBody (lit "s1") (lit "response") (lit "xyz0123456"))] ++ repeat (inr 2%nat) 5
  ++ [inr 1%nat; inr 1%nat; inl (StreamBody body_key 4)] ++ repeat (inr 3%nat) 3.

Lemma bodies_never_partial_witness :
  ∃ s, schedule 7 replace_schedule no_calls = Some s ∧
    (StreamBody body_key 100, Ret (Streamed (Ok (lit "abc")))) ∈ threads s ∧
    ∃ b, content (fs s) body_key = Some b ∧ (body_key, b) ∈ asked s.
Proof.
  destruct (schedule 7 replace_schedule no_calls) as [s|] eqn:Hs; [|vm_compute in Hs; discriminate].
  exists s. split; [reflexivity|].
  destruct (bodies_never_partial 7 empty_fs [] s empty_tidy (schedule_reaches 7 replace_schedule no_calls s Hs)) as (Hc & _ & _).
  split; [vm_compute in Hs; injection Hs as <-; apply (list_elem_of_lookup_2 _ 1); reflexivity|].
  apply Hc; [reflexivity|]. vm_compute in Hs. injection Hs as <-. vm_compute. by eexists.
Defined.

Lemma written_body_read_back_witness :
  ∃ f', exec (write_body 7 (lit "s1") (lit "response") (lit "abc")) empty_fs = Some (f', Ok (lit "s1/response.body")) ∧
    content f' body_key = Some (lit "abc").
Proof.
  destruct (written_body_read_back 7 empty_fs (lit "s1") (lit "response") (lit "abc")) as (f' & Hw & Hc & _);
    [reflexivity|reflexivity|vm_compute; discriminate|reflexivity|].
  exists f'. split; [exact Hw|exact Hc].
Defined.

(** The size a range reports is read by name before the file is opened: when the
    body is replaced in between, half of the new body is reported as complete. *)
Definition race_schedule : list (Call + nat) :=
  [inl (WriteBody (lit "s1") (lit "response") (lit "abc"))] ++ repeat (inr 0%nat) 5
  ++ [inl (ReadRange body_key 0 5); inr 1%nat]
  ++ [inl (WriteBody (lit "s1") (lit "response") (lit "xyz0123456"))] ++ repeat (inr 2%nat) 5 ++ repeat (inr 1%nat) 2.

Lemma range_reports_half_as_complete :
  ∃ s range, rtc (step 7) no_calls s ∧ threads s !! 1%nat = Some (ReadRange body_key 0 5, Ret (Ranged (Ok range))) ∧
    content (fs s) body_key = Some (lit "xyz0123456") ∧ br_bytes range = lit "xyz01" ∧ br_truncated range = false.
Proof.
  destruct (schedule 7 race_schedule no_calls) as [s|] eqn:Hs; [|vm_compute in Hs; discriminate].
  exists s, (body_range 3 0 (lit "xyz01")). split; [by apply (schedule_reaches 7 race_schedule)|].
  vm_compute in Hs. injection Hs as <-. split_and!; reflexivity.
Qed.
