(* ===== verification/AgentConfig.v ===== *)
(** * AgentConfig: the file that says what an agent may do

    Models src/crates/mcp-server/src/config.rs: the derived (de)serializers of the access
    configuration, its normalisation, reading and writing it; the reader of the
    server in src/crates/mcp-server/src/context.rs; and the two commands of
    src/apps/desktop/src-tauri/src/commands/agent_access.rs that change it,
    [update_agent_access_settings] and [revoke_agent_control_permissions].

    serde_json gives the tree of a text with the members of an object in order
    and as often as they occur; what the derived code makes of the tree is modelled.
    Whether a system call fails is an input; how the file is replaced is the
    subject of ConfigFile. *)

From S2P Require Import Prelude Str AgentGrants.
From S2P Require Import JsonPath Utf8 TextSearch Redaction RedactedSearch BodyPaths BodyStream BodyTools.

(** ** Definitions: deserializers *)

Section Serde.
Context {number : Type} (as_u64 : number → option Z).

Abbreviation tree := (value number).

Definition as_bool (v : tree) : option bool := match v with Bool b => Some b | _ => None end.
Definition as_string (v : tree) : option str := match v with String s => Some s | _ => None end.
Definition as_uint (max : Z) (v : tree) : option Z :=
  match v with Number n => n ← as_u64 n; if n <=? max then Some n else None | _ => None end.
Definition as_vec {A} (f : tree → option A) (v : tree) : option (list A) :=
  match v with Array l => mapM f l | _ => None end.
Definition as_option {A} (f : tree → option A) (v : tree) : option (option A) :=
  match v with Null => Some None | _ => Some <$> f v end.

(** A unit variant is its name, or an object with its name and [null]. *)
Definition as_variant {A} (of_name : str → option A) (v : tree) : option A :=
  match v with
  | String s => of_name s
  | Object [(s, Null)] => of_name s
  | _ => None
  end.

Definition occurs_once (o : list (str * tree)) (name : str) : bool :=
  (length (List.filter (fun kv : str * tree => bool_decide (kv.1 = name)) o) <=? 1)%nat.

(** The fields of a struct: by name, each at most once and others ignored, or by
    position, where only fields with a default may be left out at the end *)
Definition struct_fields (names : list str) (required : nat) (v : tree) : option (list (option tree)) :=
  match v with
  | Object o => if forallb (occurs_once o) names then Some (map (obj_get o) names) else None
  | Array l =>
      if (required <=? length l)%nat && (length l <=? length names)%nat
      then Some (map Some l ++ replicate (length names - length l) None) else None
  | _ => None
  end.

Definition field {A} (f : tree → option A) (v : option tree) : option A := v ← v; f v.
(** [#[serde(default)]] *)
Definition field_or {A} (default : A) (f : tree → option A) (v : option tree) : option A :=
  match v with Some v => f v | None => Some default end.
End Serde.

(** ** Definitions: the configuration *)

Definition AGENT_ACCESS_CONFIG_VERSION : Z := 5.
Definition MIN_SUPPORTED_CONFIG_VERSION : Z := 2.
Definition BACKWARD_COMPATIBLE_DISK_VERSION : Z := MIN_SUPPORTED_CONFIG_VERSION.
Definition DEFAULT_MAX_SESSIONS : Z := 100.
Definition DEFAULT_MAX_BODY_BYTES : Z := 256 * 1024.
Definition DEFAULT_MAX_RESPONSE_BYTES : Z := 1024 * 1024.

Record AgentAccessPermissions := {
  read_sessions : bool; read_bodies : bool; read_raw_bodies : bool; read_web_socket : bool; export_snapshots : bool;
  control_capture : bool; control_system_proxy : bool; manage_certificates : bool; delete_sessions : bool;
  send_requests : bool; manage_rules : bool; manage_automation : bool; manage_user_automation : bool;
  manage_scripts : bool; manage_cross_host_mappings : bool; manage_proxied_verification : bool;
  manage_global_automation : bool
}.

Definition default_permissions : AgentAccessPermissions :=
  {| read_sessions := true; read_bodies := true; read_raw_bodies := false; read_web_socket := false;
     export_snapshots := false; control_capture := false; control_system_proxy := false; manage_certificates := false;
     delete_sessions := false; send_requests := false; manage_rules := false; manage_automation := false;
     manage_user_automation := false; manage_scripts := false; manage_cross_host_mappings := false;
     manage_proxied_verification := false; manage_global_automation := false |}.

Definition allows (p : AgentAccessPermissions) (capability : AgentCapability) : bool :=
  match capability with
  | ReadSessions => read_sessions p
  | ReadBodies => read_bodies p
  | ReadRawBodies => read_raw_bodies p
  | ReadWebSocket => read_web_socket p
  | ExportSnapshots => export_snapshots p
  | ControlCapture => control_capture p
  | ControlSystemProxy => control_system_proxy p
  | ManageCertificates => manage_certificates p
  | DeleteSessions => delete_sessions p
  | SendRequests => send_requests p
  | ManageRules => manage_rules p
  | ManageAutomation => manage_automation p
  | ManageUserAutomation => manage_user_automation p
  | ManageScripts => manage_scripts p
  | ManageCrossHostMappings => manage_cross_host_mappings p
  | ManageProxiedVerification => manage_proxied_verification p
  | ManageGlobalAutomation => manage_global_automation p
  end.

Record AgentAccessLimits := { max_sessions : Z; max_body_bytes : Z; max_response_bytes : Z }.

Definition default_limits : AgentAccessLimits :=
  {| max_sessions := DEFAULT_MAX_SESSIONS; max_body_bytes := DEFAULT_MAX_BODY_BYTES;
     max_response_bytes := DEFAULT_MAX_RESPONSE_BYTES |}.

(** In the order of the type, which is that of [BTreeMap] *)
Definition all_capabilities : list AgentCapability :=
  [ReadSessions; ReadBodies; ReadRawBodies; ReadWebSocket; ExportSnapshots; ControlCapture; ControlSystemProxy;
   ManageCertificates; DeleteSessions; SendRequests; ManageRules; ManageAutomation; ManageUserAutomation; ManageScripts;
   ManageCrossHostMappings; ManageProxiedVerification; ManageGlobalAutomation].

Definition capability_of_str (s : str) : option AgentCapability :=
  find_first (fun c => bool_decide (capability_str c = s)) all_capabilities.

Lemma capability_of_to c : capability_of_str (capability_str c) = Some c.
Proof. by destruct c; vm_compute. Qed.

#[export] Instance capability_countable : Countable AgentCapability := inj_countable capability_str capability_of_str capability_of_to.

#[export] Instance policy_eq_dec : EqDecision AgentGrantRequestPolicy.
Proof. solve_decision. Defined.

Definition default_policy (capability : AgentCapability) : AgentGrantRequestPolicy :=
  match capability with
  | ReadSessions | ControlSystemProxy | ManageCertificates | DeleteSessions | ManageScripts | ManageCrossHostMappings
  | ManageUserAutomation | ManageGlobalAutomation => Deny
  | _ => Ask
  end.

Abbreviation Policies := (gmap AgentCapability AgentGrantRequestPolicy).

Definition default_grant_request_policy : Policies :=
  list_to_map (map (fun capability => (capability, default_policy capability)) all_capabilities).

Record AccessConfig := {
  version : Z; enabled : bool; transport : str; permissions : AgentAccessPermissions; limits : AgentAccessLimits;
  redaction : AgentAccessRedaction; automation_approved_roots : list str; proxied_verification_origins : list str;
  automation_cross_host_origins : list str; grant_request_policy : Policies; updated_at : option str
}.

Definition default_config : AccessConfig :=
  {| version := AGENT_ACCESS_CONFIG_VERSION; enabled := false; transport := lit "stdio";
     permissions := default_permissions; limits := default_limits; redaction := default_redaction;
     automation_approved_roots := []; proxied_verification_origins := []; automation_cross_host_origins := [];
     grant_request_policy := default_grant_request_policy; updated_at := None |}.

(** ** Definitions: reading and writing the tree *)

Definition permission_names : list str := map capability_str all_capabilities.
Definition limit_names : list str := [lit "maxSessions"; lit "maxBodyBytes"; lit "maxResponseBytes"].
Definition pattern_names : list str := [lit "name"; lit "pattern"; lit "action"].
Definition redaction_names : list str :=
  [lit "detectSensitiveValues"; lit "hashIdentifiers"; lit "customSensitiveKeys"; lit "customPatterns"].
Definition config_names : list str :=
  [lit "version"; lit "enabled"; lit "transport"; lit "permissions"; lit "limits"; lit "redaction";
   lit "automationApprovedRoots"; lit "proxiedVerificationOrigins"; lit "automationCrossHostOrigins";
   lit "grantRequestPolicy"; lit "updatedAt"].

Definition action_str (a : RedactionAction) : str := match a with Redact => lit "redact" | Hash => lit "hash" end.
Definition action_of_str (s : str) : option RedactionAction :=
  find_first (fun a => bool_decide (action_str a = s)) [Redact; Hash].
Definition policy_str (p : AgentGrantRequestPolicy) : str := match p with Deny => lit "deny" | Ask => lit "ask" end.
Definition policy_of_str (s : str) : option AgentGrantRequestPolicy :=
  find_first (fun p => bool_decide (policy_str p = s)) [Deny; Ask].

(** serde_json and [url::Url] *)
Class ConfigEnv (number : Type) := {
  as_u64 : number → option Z;
  of_u64 : Z → number;
  as_of_u64 n : 0 <= n <= u64_max → as_u64 (of_u64 n) = Some n;
  json_tree : str → result (value number) str;
  to_pretty : value number → str;
  (** why a tree is not a configuration *)
  data_error : value number → str;
  WebUrl : Type;
  web_url : str → option WebUrl;
  web_scheme : WebUrl → str;
  web_host : WebUrl → option str;
  (** [origin().ascii_serialization()] *)
  web_origin : WebUrl → str
}.

Section Codec.
Context {number : Type} `{ConfigEnv number}.

Abbreviation tree := (value number).

Definition permissions_of (v : tree) : option AgentAccessPermissions :=
  fields ← struct_fields permission_names 5 v;
  match fields with
  | [f1; f2; f3; f4; f5; f6; f7; f8; f9; f10; f11; f12; f13; f14; f15; f16; f17] =>
      b1 ← field as_bool f1; b2 ← field as_bool f2; b3 ← field as_bool f3; b4 ← field as_bool f4;
      b5 ← field as_bool f5; b6 ← field_or false as_bool f6; b7 ← field_or false as_bool f7;
      b8 ← field_or false as_bool f8; b9 ← field_or false as_bool f9; b10 ← field_or false as_bool f10;
      b11 ← field_or false as_bool f11; b12 ← field_or false as_bool f12; b13 ← field_or false as_bool f13;
      b14 ← field_or false as_bool f14; b15 ← field_or false as_bool f15; b16 ← field_or false as_bool f16;
      b17 ← field_or false as_bool f17;
      Some {| read_sessions := b1; read_bodies := b2; read_raw_bodies := b3; read_web_socket := b4;
              export_snapshots := b5; control_capture := b6; control_system_proxy := b7; manage_certificates := b8;
              delete_sessions := b9; send_requests := b10; manage_rules := b11; manage_automation := b12;
              manage_user_automation := b13; manage_scripts := b14; manage_cross_host_mappings := b15;
              manage_proxied_verification := b16; manage_global_automation := b17 |}
  | _ => None
  end.

Definition permissions_json (p : AgentAccessPermissions) : tree :=
  Object (map (fun c => (capability_str c, Bool (allows p c))) all_capabilities).

Definition limits_of (v : tree) : option AgentAccessLimits :=
  fields ← struct_fields limit_names 3 v;
  match fields with
  | [f1; f2; f3] =>
      n1 ← field (as_uint as_u64 usize_max) f1; n2 ← field (as_uint as_u64 usize_max) f2;
      n3 ← field (as_uint as_u64 usize_max) f3;
      Some {| max_sessions := n1; max_body_bytes := n2; max_response_bytes := n3 |}
  | _ => None
  end.

Definition limits_json (l : AgentAccessLimits) : tree :=
  Object [(lit "maxSessions", Number (of_u64 (max_sessions l))); (lit "maxBodyBytes", Number (of_u64 (max_body_bytes l)));
          (lit "maxResponseBytes", Number (of_u64 (max_response_bytes l)))].

Definition pattern_of (v : tree) : option RedactionPattern :=
  fields ← struct_fields pattern_names 3 v;
  match fields with
  | [f1; f2; f3] =>
      name ← field as_string f1; pattern ← field as_string f2; action ← field (as_variant action_of_str) f3;
      Some {| rp_name := name; rp_pattern := pattern; rp_action := action |}
  | _ => None
  end.

Definition pattern_json (p : RedactionPattern) : tree :=
  Object [(lit "name", String (rp_name p)); (lit "pattern", String (rp_pattern p));
          (lit "action", String (action_str (rp_action p)))].

Definition redaction_of (v : tree) : option AgentAccessRedaction :=
  fields ← struct_fields redaction_names 4 v;
  match fields with
  | [f1; f2; f3; f4] =>
      detect ← field as_bool f1; hash ← field as_bool f2; keys ← field (as_vec as_string) f3;
      patterns ← field (as_vec pattern_of) f4;
      Some {| detect_sensitive_values := detect; hash_identifiers := hash; custom_sensitive_keys := keys;
              custom_patterns := patterns |}
  | _ => None
  end.

Definition strings_json (l : list str) : tree := Array (map String l).

Definition redaction_json (r : AgentAccessRedaction) : tree :=
  Object [(lit "detectSensitiveValues", Bool (detect_sensitive_values r)); (lit "hashIdentifiers", Bool (hash_identifiers r));
          (lit "customSensitiveKeys", strings_json (custom_sensitive_keys r));
          (lit "customPatterns", Array (map pattern_json (custom_patterns r)))].

(** A [BTreeMap]: a later member replaces an earlier one of its key. *)
Fixpoint policies_of_members (o : list (str * tree)) (policies : Policies) : option Policies :=
  match o with
  | [] => Some policies
  | (key, v) :: o =>
      capability ← capability_of_str key; policy ← as_variant policy_of_str v;
      policies_of_members o (<[capability := policy]> policies)
  end.

Definition policies_of (v : tree) : option Policies :=
  match v with Object o => policies_of_members o ∅ | _ => None end.

Definition policy_member (policies : Policies) (c : AgentCapability) : option (str * tree) :=
  policy ← policies !! c; Some (capability_str c, String (policy_str policy)).

Definition policies_json (policies : Policies) : tree := Object (omap (policy_member policies) all_capabilities).

Definition config_of (v : tree) : option AccessConfig :=
  fields ← struct_fields config_names 11 v;
  match fields with
  | [f1; f2; f3; f4; f5; f6; f7; f8; f9; f10; f11] =>
      ver ← field (as_uint as_u64 u32_max) f1; ena ← field as_bool f2; tra ← field as_string f3;
      per ← field permissions_of f4; lim ← field limits_of f5; red ← field_or default_redaction redaction_of f6;
      roots ← field_or [] (as_vec as_string) f7; verified ← field_or [] (as_vec as_string) f8;
      cross ← field_or [] (as_vec as_string) f9;
      pol ← field_or default_grant_request_policy policies_of f10; upd ← field_or None (as_option as_string) f11;
      Some {| version := ver; enabled := ena; transport := tra; permissions := per; limits := lim; redaction := red;
              automation_approved_roots := roots; proxied_verification_origins := verified;
              automation_cross_host_origins := cross; grant_request_policy := pol; updated_at := upd |}
  | _ => None
  end.

Definition config_json (c : AccessConfig) : tree :=
  Object [(lit "version", Number (of_u64 (version c))); (lit "enabled", Bool (enabled c));
          (lit "transport", String (transport c)); (lit "permissions", permissions_json (permissions c));
          (lit "limits", limits_json (limits c)); (lit "redaction", redaction_json (redaction c));
          (lit "automationApprovedRoots", strings_json (automation_approved_roots c));
          (lit "proxiedVerificationOrigins", strings_json (proxied_verification_origins c));
          (lit "automationCrossHostOrigins", strings_json (automation_cross_host_origins c));
          (lit "grantRequestPolicy", policies_json (grant_request_policy c));
          (lit "updatedAt", match updated_at c with Some s => String s | None => Null end)].
End Codec.

(** ** Definitions: normalisation *)

Definition clamp (x lo hi : Z) : Z := if x <? lo then lo else if hi <? x then hi else x.
Definition nonempty (s : str) : bool := negb (bool_decide (s = [])).
Definition sorted_set (l : list str) : list str := dedup (sort_by str_leb l).

(** [entry(capability).or_insert(policy)] for the defaults, then [insert] *)
Definition or_insert (policies : Policies) (capability : AgentCapability) : Policies :=
  match policies !! capability with
  | Some _ => policies
  | None => <[capability := default_policy capability]> policies
  end.

Definition normalized_policies (policies : Policies) : Policies :=
  <[ReadSessions := Deny]> (foldl or_insert policies all_capabilities).

Definition normalized_permissions (p : AgentAccessPermissions) : AgentAccessPermissions :=
  if read_bodies p then p
  else
    {| read_sessions := read_sessions p; read_bodies := read_bodies p; read_raw_bodies := false;
       read_web_socket := read_web_socket p; export_snapshots := export_snapshots p; control_capture := control_capture p;
       control_system_proxy := control_system_proxy p; manage_certificates := manage_certificates p;
       delete_sessions := delete_sessions p; send_requests := send_requests p; manage_rules := manage_rules p;
       manage_automation := manage_automation p; manage_user_automation := manage_user_automation p;
       manage_scripts := manage_scripts p; manage_cross_host_mappings := manage_cross_host_mappings p;
       manage_proxied_verification := manage_proxied_verification p;
       manage_global_automation := manage_global_automation p |}.

Definition normalized_limits (l : AgentAccessLimits) : AgentAccessLimits :=
  {| max_sessions := clamp (max_sessions l) 1 DEFAULT_MAX_SESSIONS;
     max_body_bytes := clamp (max_body_bytes l) 1 DEFAULT_MAX_BODY_BYTES;
     max_response_bytes := clamp (max_response_bytes l) 1 DEFAULT_MAX_RESPONSE_BYTES |}.

Definition trim_pattern (rule : RedactionPattern) : RedactionPattern :=
  {| rp_name := trim (rp_name rule); rp_pattern := trim (rp_pattern rule); rp_action := rp_action rule |}.

Definition usable_pattern (rule : RedactionPattern) : bool :=
  nonempty (trim (rp_name rule)) && nonempty (trim (rp_pattern rule)).

Definition normalized_patterns (patterns : list RedactionPattern) : list RedactionPattern :=
  map trim_pattern (take 20 (List.filter usable_pattern patterns)).

Section Normalize.
Context {number : Type} `{RedactionEnv number} `{ConfigEnv number}.

Definition normalized_keys (keys : list str) : list str :=
  sorted_set (take 50 (List.filter nonempty (map (fun value => to_lowercase (trim value)) keys))).

Definition normalized_redaction (r : AgentAccessRedaction) : AgentAccessRedaction :=
  {| detect_sensitive_values := detect_sensitive_values r; hash_identifiers := hash_identifiers r;
     custom_sensitive_keys := normalized_keys (custom_sensitive_keys r);
     custom_patterns := normalized_patterns (custom_patterns r) |}.

Definition normalized_origin (value : str) : option str :=
  url ← web_url (trim value);
  if negb (is_one_of (web_scheme url) [lit "http"; lit "https"]) || bool_decide (web_host url = None) then None
  else Some (web_origin url).

Definition normalize_origins (origins : list str) : list str := sorted_set (take 50 (omap normalized_origin origins)).

Definition normalized (c : AccessConfig) : AccessConfig :=
  {| version := AGENT_ACCESS_CONFIG_VERSION; enabled := enabled c; transport := transport c;
     permissions := normalized_permissions (permissions c); limits := normalized_limits (limits c);
     redaction := normalized_redaction (redaction c);
     automation_approved_roots := take 10 (List.filter nonempty (map trim (automation_approved_roots c)));
     proxied_verification_origins := normalize_origins (proxied_verification_origins c);
     automation_cross_host_origins := normalize_origins (automation_cross_host_origins c);
     grant_request_policy := normalized_policies (grant_request_policy c); updated_at := updated_at c |}.

(** ** Definitions: the file *)

Inductive ConfigReadError := ConfigMissing | ConfigInvalid (message : str).

Definition config_error_message (e : ConfigReadError) : str :=
  match e with
  | ConfigMissing => lit "Agent Access configuration does not exist"
  | ConfigInvalid message => message
  end.

(** The content of the file, if there is one, and the error of the system, if it
    gives one when the file is read *)
Definition read_config (content : option bytes) (fault : option str) : result AccessConfig ConfigReadError :=
  let? contents :=
    match fault, content with
    | Some error, _ => Err (ConfigInvalid (lit "read Agent Access configuration: " ++ error))
    | None, None => Err ConfigMissing
    | None, Some b =>
        if utf8_valid b then Ok b
        else Err (ConfigInvalid (lit "read Agent Access configuration: stream did not contain valid UTF-8"))
    end in
  let parse_error error := ConfigInvalid (lit "parse Agent Access configuration: " ++ error) in
  let? v := map_err parse_error (json_tree contents) in
  let? config := ok_or (config_of v) (parse_error (data_error v)) in
  if (version config <? MIN_SUPPORTED_CONFIG_VERSION) || (AGENT_ACCESS_CONFIG_VERSION <? version config) then
    Err (ConfigInvalid (lit "unsupported Agent Access configuration version " ++ show (version config)))
  else if negb (bool_decide (transport config = lit "stdio")) then
    Err (ConfigInvalid (lit "only the stdio transport is supported"))
  else Ok (normalized config).

(** What goes wrong while the file is written, if anything does *)
Record WriteFaults := { wf_directory : option str; wf_replace : option str }.
Definition no_faults : WriteFaults := {| wf_directory := None; wf_replace := None |}.

Definition disk_config (c : AccessConfig) : AccessConfig :=
  let c := normalized c in
  {| version := BACKWARD_COMPATIBLE_DISK_VERSION; enabled := enabled c; transport := transport c;
     permissions := permissions c; limits := limits c; redaction := redaction c;
     automation_approved_roots := automation_approved_roots c; proxied_verification_origins := proxied_verification_origins c;
     automation_cross_host_origins := automation_cross_host_origins c; grant_request_policy := grant_request_policy c;
     updated_at := updated_at c |}.

(** [write_private_file_atomic] leaves the old content or puts the new one. *)
Definition write_config (faults : WriteFaults) (content : option bytes) (config : AccessConfig)
    : result unit str * option bytes :=
  let contents := to_pretty (config_json (disk_config config)) in
  match wf_directory faults, wf_replace faults with
  | Some error, _ => (Err (lit "create Agent Access directory: " ++ error), content)
  | None, Some error => (Err (lit "write Agent Access configuration: " ++ error), content)
  | None, None => (Ok tt, Some contents)
  end.

(** ** Definitions: the server *)

Definition tool_config (c : AccessConfig) : AgentAccessConfig :=
  {| ac_allows := allows (permissions c); ac_policy := fun capability => grant_request_policy c !! capability;
     ac_redaction := redaction c; ac_max_body_bytes := max_body_bytes (limits c) |}.

Definition tool_disabled : ToolError :=
  {| te_code := lit "AGENT_ACCESS_DISABLED";
     te_message := lit "Agent Access is disabled. Enable it in AIProxy Settings > Agent Access.";
     te_retryable := false; te_details := [] |}.

(** [AppContext::config] *)
Definition context_config (content : option bytes) (fault : option str) : result AccessConfig ToolError :=
  match read_config content fault with
  | Err ConfigMissing => Err tool_disabled
  | Err (ConfigInvalid message) =>
      Err {| te_code := lit "AGENT_ACCESS_DISABLED";
             te_message := lit "Agent Access configuration is invalid: " ++ message; te_retryable := false; te_details := [] |}
  | Ok config => if enabled config then Ok config else Err tool_disabled
  end.

Definition limit_or (limit : AgentAccessLimits → Z) (default : Z) (config : result AccessConfig ToolError) : Z :=
  match config with Ok config => limit (limits config) | Err _ => default end.

Definition context_max_sessions : result AccessConfig ToolError → Z := limit_or max_sessions DEFAULT_MAX_SESSIONS.
Definition context_max_body_bytes : result AccessConfig ToolError → Z := limit_or max_body_bytes DEFAULT_MAX_BODY_BYTES.
Definition context_max_response_bytes : result AccessConfig ToolError → Z := limit_or max_response_bytes DEFAULT_MAX_RESPONSE_BYTES.

(** ** Definitions: the commands of the desktop *)

Definition read_existing_config (content : option bytes) (fault : option str) : AccessConfig :=
  match read_config content fault with Ok c => c | Err _ => default_config end.

Record UpdateAgentAccessSettingsInput := {
  in_enabled : bool; in_permissions : AgentAccessPermissions; in_limits : AgentAccessLimits;
  in_redaction : AgentAccessRedaction; in_approved_roots : list str; in_verification_origins : list str;
  in_cross_host_origins : list str; in_policy : Policies
}.

(** The outside of a command: the time, and what the system answers *)
Record CommandIo := {
  io_paths : option str; io_read : option str; io_write : WriteFaults; io_now : str; io_persist : result unit str
}.

Definition app_error (code message : str) : str :=
  to_string (number := number) (Object [(lit "code", String code); (lit "message", String message)]).
Definition ERR_INTERNAL : str := lit "INTERNAL_ERROR".

(** The answer of the command is a view of the file for the settings page. *)
Definition update_agent_access_settings (io : CommandIo) (content : option bytes) (input : UpdateAgentAccessSettingsInput)
    : result unit str * option bytes :=
  match io_paths io with Some error => (Err (app_error ERR_INTERNAL error), content) | None =>
  let config := read_existing_config content (io_read io) in
  let '(written, content) := write_config (io_write io) content
    {| version := AGENT_ACCESS_CONFIG_VERSION; enabled := in_enabled input; transport := transport config;
       permissions := in_permissions input; limits := in_limits input; redaction := in_redaction input;
       automation_approved_roots := in_approved_roots input; proxied_verification_origins := in_verification_origins input;
       automation_cross_host_origins := in_cross_host_origins input; grant_request_policy := in_policy input;
       updated_at := Some (io_now io) |} in
  (map_err (app_error ERR_INTERNAL) written, content)
  end.

(** [read_only] of the loop over the capabilities *)
Definition is_read_capability (capability : AgentCapability) : bool :=
  match capability with
  | ReadSessions | ReadBodies | ReadRawBodies | ReadWebSocket | ExportSnapshots => true
  | _ => false
  end.

Definition revoked_permissions (p : AgentAccessPermissions) : AgentAccessPermissions :=
  {| read_sessions := read_sessions p; read_bodies := read_bodies p; read_raw_bodies := read_raw_bodies p;
     read_web_socket := read_web_socket p; export_snapshots := export_snapshots p; control_capture := false;
     control_system_proxy := false; manage_certificates := false; delete_sessions := false; send_requests := false;
     manage_rules := false; manage_automation := false; manage_user_automation := false; manage_scripts := false;
     manage_cross_host_mappings := false; manage_proxied_verification := false; manage_global_automation := false |}.

Definition revoked_policies (policies : Policies) : Policies :=
  foldl (fun policies capability => <[capability := Deny]> policies) policies
    [ControlCapture; ControlSystemProxy; ManageCertificates; DeleteSessions; SendRequests; ManageRules; ManageAutomation;
     ManageUserAutomation; ManageScripts; ManageCrossHostMappings; ManageProxiedVerification; ManageGlobalAutomation].

Definition revoked_config (config : AccessConfig) (now : str) : AccessConfig :=
  {| version := AGENT_ACCESS_CONFIG_VERSION; enabled := enabled config; transport := transport config;
     permissions := revoked_permissions (permissions config); limits := limits config; redaction := redaction config;
     automation_approved_roots := automation_approved_roots config;
     proxied_verification_origins := proxied_verification_origins config;
     automation_cross_host_origins := automation_cross_host_origins config;
     grant_request_policy := revoked_policies (grant_request_policy config); updated_at := Some now |}.

Record RevokeAgentControlResult := {
  revoked_capabilities : list AgentCapability; retained_read_capabilities : list AgentCapability; grants_cleared : bool
}.

(** The state is the file and the store of grants; what is still running is
    counted for the answer and not changed. *)
Definition revoke_agent_control_permissions (io : CommandIo) (content : option bytes) (grants : list AgentGrant)
    : result RevokeAgentControlResult str * option bytes * list AgentGrant :=
  match io_paths io with Some error => (Err (app_error ERR_INTERNAL error), content, grants) | None =>
  let config := read_existing_config content (io_read io) in
  let on := List.filter (allows (permissions config)) all_capabilities in
  match write_config (io_write io) content (revoked_config config (io_now io)) with
  | (Err error, content) => (Err (app_error ERR_INTERNAL (lit "revoke Agent control permissions: " ++ error)), content, grants)
  | (Ok _, content) =>
      let '(cleared, grants) := clear grants (io_persist io) in
      (Ok {| revoked_capabilities := List.filter (fun c => negb (is_read_capability c)) on;
             retained_read_capabilities := List.filter is_read_capability on; grants_cleared := is_ok cleared |},
       content, grants)
  end end.
End Normalize.

(** What is relied on: serde_json reads what it wrote; [str::to_lowercase] leaves
    lower case and adds no blanks; the text of a web origin is a URL of the origin. *)
Class ConfigLaws (number : Type) `{RedactionEnv number} `{ConfigEnv number} := {
  config_text_tree c : json_tree (to_pretty (config_json c)) = Ok (config_json c);
  config_text_utf8 c : utf8_valid (to_pretty (config_json c)) = true;
  lower_lower s : to_lowercase (to_lowercase s) = to_lowercase s;
  lower_trimmed s : trim s = s → trim (to_lowercase s) = to_lowercase s;
  origin_url url :
    web_scheme url ∈ [lit "http"; lit "https"] → web_host url ≠ None →
    ∃ url', web_url (trim (web_origin url)) = Some url' ∧ web_scheme url' ∈ [lit "http"; lit "https"] ∧
      web_host url' ≠ None ∧ web_origin url' = web_origin url
}.
