(* ===== verification/AgentConfigFacts.v ===== *)
(** * AgentConfigFacts: what an agent may do is what the file says

    About AgentConfig: a configuration that was written is read back normalised;
    the server acts on a capability only if the file states it or allows to ask for
    it; what the user revokes is gone from the file and from the grants. *)

From stdpp Require Import sorting.
From S2P Require Import Prelude Str AgentGrants.
From S2P Require Import JsonPath Utf8 TextSearch Redaction RedactedSearch BodyPaths BodyStream BodyTools BodyToolsFacts AgentConfig.

(** ** Sorted sets of strings *)

Lemma str_leb_total s : ∀ t, str_leb s t = false → str_leb t s = true.
Proof.
  induction s as [|a s IH]; intros [|b t]; cbn [str_leb]; try done.
  destruct (a <? b) eqn:H1; [done|]. breflect. destruct (a =? b) eqn:H2; breflect; cbn [orb andb]; intros Hs.
  - subst. rewrite Z.eqb_refl, (IH t Hs). cbn. apply orb_true_r.
  - apply orb_true_intro. left. apply Z.ltb_lt. lia.
Qed.

Lemma str_leb_refl s : str_leb s s = true.
Proof. induction s as [|a s IH]; cbn [str_leb]; [done|]. rewrite Z.eqb_refl, IH. apply orb_true_r. Qed.

Lemma str_leb_trans s : ∀ t u, str_leb s t = true → str_leb t u = true → str_leb s u = true.
Proof.
  induction s as [|a s IH]; intros [|b t] [|c u]; cbn [str_leb]; try done.
  intros H1 H2. apply orb_true_iff in H1, H2. apply orb_true_iff.
  destruct H1 as [H1|H1], H2 as [H2|H2]; breflect; subst; rewrite ?Z.eqb_refl.
  - left. apply Z.ltb_lt. lia.
  - left. by apply Z.ltb_lt.
  - left. by apply Z.ltb_lt.
  - right. rewrite (IH t u) by done. done.
Qed.

Lemma str_leb_antisym s : ∀ t, str_leb s t = true → str_leb t s = true → s = t.
Proof.
  induction s as [|a s IH]; intros [|b t]; cbn [str_leb]; try done.
  intros H1 H2. apply orb_true_iff in H1, H2. destruct H1 as [H1|H1], H2 as [H2|H2]; breflect; try lia.
  subst. f_equal. auto.
Qed.

Section SortedSet.
Implicit Types l : list (list Z).
Let R : relation (list Z) := fun s t => str_leb s t = true.

Lemma sort_strings_sorted l : StronglySorted R (sort_by str_leb l).
Proof.
  induction l as [|x l IH]; [constructor|]. apply (insert_sorted_sorted str_leb R); [|done| |done].
  - intros s t u. apply str_leb_trans.
  - intros s t. apply str_leb_total.
Qed.

Lemma sort_sorted l : StronglySorted R l → sort_by str_leb l = l.
Proof.
  induction 1 as [|x l Hl IH Hx]; [done|]. cbn. fold (sort_by str_leb l). rewrite IH.
  destruct l as [|y l]; [done|]. cbn [insert_sorted]. apply Forall_cons in Hx as [Hx _]. unfold R in Hx. by rewrite Hx.
Qed.

Lemma dedup_sublist l : dedup l `sublist_of` l.
Proof.
  induction l as [|x l IH]; [done|]. destruct l as [|y l]; [done|].
  change (dedup (x :: y :: l)) with (if decide (x = y) then dedup (y :: l) else x :: dedup (y :: l)).
  destruct (decide (x = y)); [by apply sublist_cons|by apply sublist_skip].
Qed.

Lemma dedup_sorted l : StronglySorted R l → StronglySorted R (dedup l).
Proof.
  induction 1 as [|x l Hl IH Hx]; [constructor|]. destruct l as [|y l]; [by repeat constructor|].
  change (dedup (x :: y :: l)) with (if decide (x = y) then dedup (y :: l) else x :: dedup (y :: l)).
  destruct (decide (x = y)); [done|]. constructor; [done|]. rewrite Forall_forall in Hx |- *.
  intros z. rewrite elem_of_dedup. apply Hx.
Qed.

Lemma dedup_head x l : ∃ k, dedup (x :: l) = x :: k.
Proof.
  revert x. induction l as [|y l IH]; intros x; [by exists []|].
  change (dedup (x :: y :: l)) with (if decide (x = y) then dedup (y :: l) else x :: dedup (y :: l)).
  destruct (decide (x = y)) as [->|]; eauto.
Qed.

Lemma dedup_idemp l : dedup (dedup l) = dedup l.
Proof.
  induction l as [|x l IH]; [done|]. destruct l as [|y l]; [done|].
  change (dedup (x :: y :: l)) with (if decide (x = y) then dedup (y :: l) else x :: dedup (y :: l)).
  destruct (decide (x = y)) as [|Hxy]; [done|]. destruct (dedup_head y l) as [k Hk]. rewrite Hk in *.
  change (dedup (x :: y :: k)) with (if decide (x = y) then dedup (y :: k) else x :: dedup (y :: k)).
  rewrite decide_False, IH by done. done.
Qed.

Lemma sorted_set_idemp l : sorted_set (sorted_set l) = sorted_set l.
Proof.
  unfold sorted_set at 1. rewrite sort_sorted; [by apply dedup_idemp|]. apply dedup_sorted, sort_strings_sorted.
Qed.

Lemma sorted_set_nodup l : NoDup (sorted_set l).
Proof. apply (dedup_sorted_nodup R); [apply str_leb_antisym|apply sort_strings_sorted]. Qed.

Lemma elem_of_sorted_set s l : s ∈ sorted_set l ↔ s ∈ l.
Proof. unfold sorted_set. by rewrite elem_of_dedup, elem_of_sort_by. Qed.

Lemma sort_length l : length (sort_by str_leb l) = length l.
Proof.
  induction l as [|x l IH]; [done|]. cbn. rewrite <- IH. fold (sort_by str_leb l). generalize (sort_by str_leb l). intros k.
  induction k as [|y k IHk]; cbn [insert_sorted length]; [done|]. destruct (str_leb x y); cbn [length]; lia.
Qed.

Lemma sorted_set_length l : (length (sorted_set l) <= length l)%nat.
Proof. rewrite <- (sort_length l). apply sublist_length, dedup_sublist. Qed.

(** A cleaned list is cleaned already. *)
Lemma sorted_set_again n l : sorted_set (take n (sorted_set (take n l))) = sorted_set (take n l).
Proof.
  rewrite (take_ge (sorted_set _)); [apply sorted_set_idemp|]. pose proof (sorted_set_length (take n l)).
  rewrite length_take in *. lia.
Qed.
End SortedSet.

Lemma filter_all {A} (p : A → bool) l : Forall (fun x => p x = true) l → List.filter p l = l.
Proof. induction 1 as [|x l Hx Hl IH]; cbn; [done|]. by rewrite Hx, IH. Qed.

Lemma map_all {A} (f : A → A) l : Forall (fun x => f x = x) l → map f l = l.
Proof. induction 1 as [|x l Hx Hl IH]; cbn; [done|]. by rewrite Hx, IH. Qed.

Lemma omap_all {A} (f : A → option A) l : Forall (fun x => f x = Some x) l → omap f l = l.
Proof. induction 1 as [|x l Hx Hl IH]; cbn; [done|]. by rewrite Hx, IH. Qed.

Lemma filter_passes {A} (p : A → bool) l : Forall (fun x => p x = true) (List.filter p l).
Proof. apply Forall_forall. intros x Hx. apply list_elem_of_In, filter_In in Hx. tauto. Qed.

(** ** The tree of a configuration is read back *)

Section Fields.
Context {number : Type}.
Implicit Types vs : list (value number).

Lemma occurs_once_zip names : ∀ vs name, NoDup names → occurs_once (zip names vs) name = true.
Proof.
  unfold occurs_once. intros vs name Hn. apply Nat.leb_le. revert vs. induction Hn as [|n names Hin Hn IH]; intros [|v vs]; cbn; try lia.
  case_bool_decide as Hname; [|apply IH]. subst. cbn [length]. specialize (IH vs).
  assert (List.filter (fun kv : str * value number => bool_decide (kv.1 = name)) (zip names vs) = []) as ->; [|cbn; lia].
  clear IH Hn. revert vs. induction names as [|m names IH]; intros [|v' vs]; cbn; try done.
  apply not_elem_of_cons in Hin as [Hm Hin]. rewrite bool_decide_false by congruence. by apply IH.
Qed.

Lemma obj_get_zip names : ∀ vs, NoDup names → length names = length vs → map (obj_get (zip names vs)) names = map Some vs.
Proof.
  intros vs Hn. revert vs. induction Hn as [|n names Hin Hn IH]; intros [|v vs]; cbn; intros Hl; try done.
  rewrite bool_decide_true by done. f_equal. rewrite <- IH by lia. apply map_ext_in. intros m Hm.
  rewrite bool_decide_false; [done|]. intros ->. apply Hin. by apply list_elem_of_In.
Qed.

Lemma struct_fields_zip names required vs :
  NoDup names → length names = length vs → struct_fields names required (Object (zip names vs)) = Some (map Some vs).
Proof.
  intros Hn Hl. cbn [struct_fields]. rewrite obj_get_zip by done.
  assert (forallb (occurs_once (zip names vs)) names = true) as ->; [|done].
  apply forallb_forall. intros name _. by apply occurs_once_zip.
Qed.
End Fields.

Section Codec.
Context {number : Type} `{ConfigEnv number}.

Abbreviation vtree := (value number).

Lemma permissions_read_back p : permissions_of (permissions_json (number := number) p) = Some p.
Proof.
  unfold permissions_of. change (permissions_json p) with (Object (number := number) (zip permission_names (map (fun c => Bool (allows p c)) all_capabilities))).
  rewrite struct_fields_zip; [by destruct p| |done]. by apply (bool_decide_unpack _); vm_compute.
Qed.

Lemma as_uint_of max n : 0 <= n <= max → max <= u64_max → as_uint as_u64 max (Number (of_u64 n)) = Some n.
Proof.
  intros Hn Hm. unfold as_uint. rewrite as_of_u64 by lia. cbn. destruct (n <=? max) eqn:Hl; [done|]. breflect. lia.
Qed.

Definition limits_in_range (l : AgentAccessLimits) : Prop :=
  0 <= max_sessions l <= usize_max ∧ 0 <= max_body_bytes l <= usize_max ∧ 0 <= max_response_bytes l <= usize_max.

Lemma limits_read_back l : limits_in_range l → limits_of (limits_json l) = Some l.
Proof.
  intros (H1 & H2 & H3). unfold limits_of.
  change (limits_json l) with (Object (zip limit_names
    [Number (of_u64 (max_sessions l)); Number (of_u64 (max_body_bytes l)); Number (of_u64 (max_response_bytes l))])).
  rewrite struct_fields_zip; [| |done]; [|by apply (bool_decide_unpack _); vm_compute].
  cbn [map mbind option_bind field]. rewrite !as_uint_of by (done || lia). by destruct l.
Qed.

Lemma pattern_read_back p : pattern_of (number := number) (pattern_json p) = Some p.
Proof.
  unfold pattern_of. change (pattern_json p) with (Object (number := number) (zip pattern_names
    [String (rp_name p); String (rp_pattern p); String (action_str (rp_action p))])).
  rewrite struct_fields_zip; [| |done]; [|by apply (bool_decide_unpack _); vm_compute].
  by destruct p as [n p []].
Qed.

Lemma mapM_map {A B} (f : A → B) (g : B → option A) l : (∀ x, g (f x) = Some x) → mapM g (map f l) = Some l.
Proof. intros Hg. induction l as [|x l IH]; cbn; [done|]. by rewrite Hg, IH. Qed.

Lemma strings_read_back l : as_vec as_string (strings_json (number := number) l) = Some l.
Proof. by apply mapM_map. Qed.

Lemma redaction_read_back r : redaction_of (number := number) (redaction_json r) = Some r.
Proof.
  unfold redaction_of. change (redaction_json r) with (Object (number := number) (zip redaction_names
    [Bool (detect_sensitive_values r); Bool (hash_identifiers r); strings_json (custom_sensitive_keys r);
     Array (map pattern_json (custom_patterns r))])).
  rewrite struct_fields_zip; [| |done]; [|by apply (bool_decide_unpack _); vm_compute].
  cbn [map mbind option_bind field]. rewrite strings_read_back. cbn [as_bool as_vec mbind option_bind].
  rewrite (mapM_map pattern_json pattern_of) by apply pattern_read_back. by destruct r.
Qed.

Lemma policy_of_to p : policy_of_str (policy_str p) = Some p.
Proof. by destruct p; vm_compute. Qed.

Lemma policies_members_read_back (m : Policies) cs : ∀ acc,
  NoDup cs → (∀ c, c ∈ cs → acc !! c = None) → (∀ c, c ∉ cs → acc !! c = m !! c) →
  policies_of_members (number := number) (omap (policy_member m) cs) acc = Some m.
Proof.
  induction cs as [|c cs IH]; intros acc Hn Hin Hout.
  { cbn. f_equal. apply map_eq. intros c. apply Hout. by apply not_elem_of_nil. }
  apply NoDup_cons in Hn as [Hc Hn].
  destruct (m !! c) as [p|] eqn:Hm.
  - assert (omap (policy_member (number := number) m) (c :: cs)
      = (capability_str c, String (policy_str p)) :: omap (policy_member m) cs) as ->.
    { cbn. unfold policy_member at 1. by rewrite Hm. }
    cbn [policies_of_members]. rewrite capability_of_to. cbn [mbind option_bind as_variant]. rewrite policy_of_to.
    cbn [mbind option_bind]. apply IH; [done| |].
    + intros c' Hc'. rewrite lookup_insert_ne by (intros ->; done). apply Hin. by right.
    + intros c' Hc'. destruct (decide (c = c')) as [->|]; [by rewrite lookup_insert, decide_True|].
      rewrite lookup_insert_ne by done. apply Hout. by intros [->|?]%elem_of_cons.
  - assert (omap (policy_member (number := number) m) (c :: cs) = omap (policy_member m) cs) as ->.
    { cbn. unfold policy_member at 1. by rewrite Hm. }
    apply IH; [done| |].
    + intros c' Hc'. apply Hin. by right.
    + intros c' Hc'. destruct (decide (c = c')) as [->|]; [rewrite Hm; apply Hin; by left|].
      apply Hout. by intros [->|?]%elem_of_cons.
Qed.

Lemma all_capabilities_nodup : NoDup all_capabilities.
Proof. by apply (bool_decide_unpack _); vm_compute. Qed.

Lemma elem_of_all_capabilities c : c ∈ all_capabilities.
Proof. apply (bool_decide_unpack _). by destruct c; vm_compute. Qed.

Lemma policies_read_back m : policies_of (number := number) (policies_json m) = Some m.
Proof.
  apply policies_members_read_back; [apply all_capabilities_nodup|intros; apply lookup_empty|].
  intros c Hc. destruct (Hc (elem_of_all_capabilities c)).
Qed.

Lemma config_tree_read_back c :
  0 <= version c <= u32_max → limits_in_range (limits c) → config_of (config_json c) = Some c.
Proof.
  intros Hv Hl. unfold config_of.
  change (config_json c) with (Object (zip config_names
    [Number (of_u64 (version c)); Bool (enabled c); String (transport c); permissions_json (permissions c);
     limits_json (limits c); redaction_json (redaction c); strings_json (automation_approved_roots c);
     strings_json (proxied_verification_origins c); strings_json (automation_cross_host_origins c);
     policies_json (grant_request_policy c); match updated_at c with Some s => String s | None => Null end])).
  rewrite struct_fields_zip; [| |done]; [|by apply (bool_decide_unpack _); vm_compute].
  cbn [map mbind option_bind field field_or]. rewrite as_uint_of by (done || (vm_compute; done)).
  cbn [mbind option_bind as_bool as_string].
  rewrite permissions_read_back, (limits_read_back _ Hl), redaction_read_back, !strings_read_back, policies_read_back.
  destruct c as [? ? ? ? ? ? ? ? ? ? [u|]]; reflexivity.
Qed.
End Codec.

(** ** Normalisation *)

Lemma clamp_in x lo hi : lo <= hi → lo <= clamp x lo hi <= hi.
Proof. unfold clamp. destruct (x <? lo) eqn:?; [lia|]. destruct (hi <? x) eqn:?; breflect; lia. Qed.

Lemma clamp_same x lo hi : lo <= x <= hi → clamp x lo hi = x.
Proof. intros. unfold clamp. destruct (x <? lo) eqn:?; breflect; [lia|]. destruct (hi <? x) eqn:?; breflect; lia. Qed.

(** What [normalized] makes of the limits *)
Definition limits_normal (l : AgentAccessLimits) : Prop :=
  1 <= max_sessions l <= DEFAULT_MAX_SESSIONS ∧ 1 <= max_body_bytes l <= DEFAULT_MAX_BODY_BYTES ∧
  1 <= max_response_bytes l <= DEFAULT_MAX_RESPONSE_BYTES.

Lemma normalized_limits_normal l : limits_normal (normalized_limits l).
Proof. split_and!; apply clamp_in; done. Qed.

Lemma normalized_limits_same l : limits_normal l → normalized_limits l = l.
Proof. destruct l. intros (H1 & H2 & H3). unfold normalized_limits. cbn in *. by rewrite !clamp_same. Qed.

Lemma normalized_permissions_same p : normalized_permissions (normalized_permissions p) = normalized_permissions p.
Proof. by destruct p as [? [] ]. Qed.

(** No capability is added. *)
Lemma normalized_permissions_allows p c : allows (normalized_permissions p) c = true → allows p c = true.
Proof. destruct p as [? [] ]; [done|]. by destruct c. Qed.

Lemma foldl_or_insert cs : ∀ m c,
  foldl or_insert m cs !! c = match m !! c with Some p => Some p | None => if decide (c ∈ cs) then Some (default_policy c) else None end.
Proof.
  induction cs as [|c' cs IH]; intros m c.
  { cbn. destruct (m !! c); [done|]. by rewrite decide_False by apply not_elem_of_nil. }
  cbn [foldl]. rewrite IH. unfold or_insert.
  destruct (m !! c') as [p'|] eqn:Hm'.
  - destruct (m !! c) eqn:Hm; [done|]. apply decide_ext. rewrite elem_of_cons. split; [auto|]. intros [->|]; [congruence|done].
  - destruct (decide (c = c')) as [->|Hc].
    + rewrite lookup_insert, decide_True, Hm' by done. by rewrite decide_True by (by left).
    + rewrite lookup_insert_ne by done. destruct (m !! c); [done|]. apply decide_ext. rewrite elem_of_cons. naive_solver.
Qed.

Lemma normalized_policies_lookup m c :
  normalized_policies m !! c =
    Some (if decide (c = ReadSessions) then Deny else default (default_policy c) (m !! c)).
Proof.
  unfold normalized_policies. destruct (decide (c = ReadSessions)) as [->|Hc]; [by rewrite lookup_insert, decide_True|].
  rewrite lookup_insert_ne, foldl_or_insert by done. rewrite decide_True by apply elem_of_all_capabilities.
  by destruct (m !! c).
Qed.

Lemma normalized_policies_same m : normalized_policies (normalized_policies m) = normalized_policies m.
Proof.
  apply map_eq. intros c. rewrite !normalized_policies_lookup. by destruct (decide (c = ReadSessions)).
Qed.

Section Normal.
Context {number : Type} `{ConfigLaws number}.

Lemma cleaned_trim_again l :
  take 10 (List.filter nonempty (map trim (take 10 (List.filter nonempty (map trim l))))) = take 10 (List.filter nonempty (map trim l)).
Proof.
  set (k := List.filter nonempty (map trim l)).
  assert (Forall (fun s => nonempty s = true ∧ trim s = s) k) as Hk.
  { apply Forall_forall. intros s (Hs & Hn)%list_elem_of_In%filter_In. split; [done|].
    apply in_map_iff in Hs as (s' & <- & _). apply trim_idemp. }
  apply (Forall_take _ 10), Forall_and in Hk as [Hk1 Hk2]. rewrite map_all, filter_all by done. rewrite take_take. f_equal.
Qed.

Lemma normalized_keys_same keys : normalized_keys (normalized_keys keys) = normalized_keys keys.
Proof.
  unfold normalized_keys at 1. set (k := normalized_keys keys).
  assert (Forall (fun s => nonempty s = true ∧ to_lowercase (trim s) = s) k) as Hk.
  { apply Forall_forall. intros s Hs. unfold k, normalized_keys in Hs. rewrite elem_of_sorted_set in Hs.
    apply elem_of_take in Hs as (i & Hs & _). apply list_elem_of_lookup_2, list_elem_of_In, filter_In in Hs as [Hs Hn].
    split; [done|]. apply in_map_iff in Hs as (s' & <- & _). rewrite lower_trimmed, lower_lower by apply trim_idemp. done. }
  apply Forall_and in Hk as [Hk1 Hk2]. rewrite map_all, filter_all by done.
  apply sorted_set_again.
Qed.

Lemma normalized_patterns_same patterns : normalized_patterns (normalized_patterns patterns) = normalized_patterns patterns.
Proof.
  unfold normalized_patterns. set (k := take 20 (List.filter usable_pattern patterns)).
  assert (Forall (fun r => usable_pattern r = true ∧ trim_pattern r = r) (map trim_pattern k)) as Hk.
  { apply Forall_forall. intros r Hr. apply list_elem_of_fmap in Hr as (r' & -> & Hr').
    apply elem_of_take in Hr' as (i & Hr' & _). apply list_elem_of_lookup_2, list_elem_of_In, filter_In in Hr' as [_ Hg].
    unfold usable_pattern, trim_pattern in *. cbn [rp_name rp_pattern rp_action]. by rewrite !trim_idemp. }
  apply Forall_and in Hk as [Hk1 Hk2]. rewrite filter_all by done.
  rewrite take_ge by (rewrite length_map; unfold k; rewrite length_take; lia).
  by apply map_all.
Qed.

Lemma normalized_redaction_same r : normalized_redaction (normalized_redaction r) = normalized_redaction r.
Proof.
  unfold normalized_redaction. cbn [detect_sensitive_values hash_identifiers custom_sensitive_keys custom_patterns].
  f_equal; [apply normalized_keys_same|apply normalized_patterns_same].
Qed.

Lemma normalized_origin_same s o : normalized_origin s = Some o → normalized_origin o = Some o.
Proof.
  unfold normalized_origin. destruct (web_url (trim s)) as [url|] eqn:Hu; [cbn|done].
  destruct (negb _ || _) eqn:Hg; [done|]. breflect. unfold is_one_of in *. breflect. intros [= <-].
  destruct (origin_url url) as (url' & -> & Hs & Hh & Ho); [done..|]. cbn.
  rewrite (bool_decide_true _ Hs), (bool_decide_false _ Hh). cbn. by rewrite Ho.
Qed.

Lemma normalize_origins_same l : normalize_origins (normalize_origins l) = normalize_origins l.
Proof.
  unfold normalize_origins at 1. rewrite omap_all; [apply sorted_set_again|].
  apply Forall_forall. intros o Ho. unfold normalize_origins in Ho. rewrite elem_of_sorted_set in Ho.
  apply elem_of_take in Ho as (i & Ho & _). apply list_elem_of_lookup_2, list_elem_of_omap in Ho as (s & _ & Hs).
  by eapply normalized_origin_same.
Qed.

Lemma normalized_disk c : normalized (disk_config c) = normalized c.
Proof.
  unfold disk_config, normalized.
  cbn [version enabled transport permissions limits redaction automation_approved_roots proxied_verification_origins
    automation_cross_host_origins grant_request_policy updated_at].
  rewrite normalized_permissions_same, (normalized_limits_same _ (normalized_limits_normal _)), normalized_redaction_same.
  by rewrite cleaned_trim_again, !normalize_origins_same, normalized_policies_same.
Qed.

Lemma disk_config_read c : transport c = lit "stdio" →
  read_config (Some (to_pretty (config_json (disk_config c)))) None = Ok (normalized c).
Proof.
  intros Ht. unfold read_config. rewrite config_text_utf8. cbn [rbind]. rewrite config_text_tree. cbn [map_err rbind].
  rewrite config_tree_read_back; [| |].
  - cbn [ok_or rbind]. change (version (disk_config c)) with 2. change (transport (disk_config c)) with (transport c).
    rewrite Ht, bool_decide_true by done. cbn [negb orb]. by rewrite normalized_disk.
  - change (version (disk_config c)) with 2. vm_compute. split; discriminate.
  - pose proof (normalized_limits_normal (limits c)) as (H1' & H2 & H3).
    change (limits (disk_config c)) with (normalized_limits (limits c)). unfold limits_in_range, usize_max.
    assert (DEFAULT_MAX_SESSIONS <= u64_max ∧ DEFAULT_MAX_BODY_BYTES <= u64_max ∧ DEFAULT_MAX_RESPONSE_BYTES <= u64_max) by (vm_compute; split_and!; discriminate).
    lia.
Qed.
End Normal.

(** ** Authority comes from the file *)

(** The value a struct is given for a field *)
Definition stated {number} (names : list str) (name : str) (v : value number) : option (value number) :=
  match v with
  | Object o => obj_get o name
  | Array l => '(i, _) ← list_find (fun n => n = name) names; l !! i
  | _ => None
  end.

Lemma list_find_nodup names i name : NoDup names → names !! i = Some name → list_find (fun n : str => n = name) names = Some (i, name).
Proof.
  intros Hn Hi. apply list_find_Some. split_and!; [done..|]. intros j y Hj Hlt ->.
  pose proof (NoDup_lookup _ _ _ _ Hn Hi Hj). lia.
Qed.

Lemma stated_field {number} names required (v : value number) fields i name :
  NoDup names → struct_fields names required v = Some fields → names !! i = Some name →
  fields !! i = Some (stated names name v).
Proof.
  intros Hn Hf Hi. destruct v as [| | | |l|o]; cbn [struct_fields stated] in *; try done.
  - destruct ((required <=? length l)%nat && (length l <=? length names)%nat) eqn:Hl; [|done]. simplify_eq.
    rewrite (list_find_nodup names i name) by done. cbn. apply andb_true_iff in Hl as [_ Hl]. apply Nat.leb_le in Hl.
    apply lookup_lt_Some in Hi. destruct (decide (i < length l)%nat) as [Hlt|Hge].
    + rewrite lookup_app_l by (by rewrite length_map). rewrite list_lookup_fmap.
      destruct (lookup_lt_is_Some_2 l i Hlt) as [x ->]. done.
    + rewrite lookup_app_r by (rewrite length_map; lia). rewrite lookup_replicate_2 by (rewrite length_map; lia).
      by rewrite (lookup_ge_None_2 l) by lia.
  - destruct (forallb _ names); [|done]. simplify_eq. by rewrite list_lookup_fmap, Hi.
Qed.

Lemma field_true {number} (f : option (value number)) : field as_bool f = Some true → f = Some (Bool true).
Proof. destruct f as [[]|]; cbn; try done. by intros [= ->]. Qed.

Lemma field_or_true {number} (f : option (value number)) : field_or false as_bool f = Some true → f = Some (Bool true).
Proof. destruct f as [[]|]; cbn; try done. by intros [= ->]. Qed.

Section Authority.
Context {number : Type} `{ConfigLaws number}.

Definition stated_permission (capability : AgentCapability) (v : value number) : option (value number) :=
  p ← stated config_names (lit "permissions") v; stated permission_names (capability_str capability) p.

Lemma permissions_stated v p c :
  permissions_of (number := number) v = Some p → allows p c = true → stated permission_names (capability_str c) v = Some (Bool true).
Proof.
  unfold permissions_of. destruct (struct_fields permission_names 5 v) as [fields|] eqn:Hf; [cbn [mbind option_bind]|done].
  assert (∀ i, permission_names !! i = Some (capability_str c) → fields !! i = Some (stated permission_names (capability_str c) v)) as Hs.
  { intros i. eapply stated_field; [|exact Hf]. by apply (bool_decide_unpack _); vm_compute. }
  clear Hf. repeat (destruct fields as [|? fields]; [done|]). destruct fields; [|done].
  intros Hp Hc. repeat (match type of Hp with (?f ≫= _) = _ => let b := fresh "b" in destruct f as [b|] eqn:?; [cbn [mbind option_bind] in Hp|done] end).
  injection Hp as <-. revert Hs. generalize (stated permission_names (capability_str c) v). intros st Hs.
  destruct c; cbn [allows read_sessions read_bodies read_raw_bodies read_web_socket export_snapshots control_capture
    control_system_proxy manage_certificates delete_sessions send_requests manage_rules manage_automation
    manage_user_automation manage_scripts manage_cross_host_mappings manage_proxied_verification manage_global_automation] in Hc;
    match type of Hs with context [capability_str ?c] =>
      let k := eval vm_compute in (default 0%nat (fst <$> list_find (fun c' => c' = c) all_capabilities)) in
      specialize (Hs k eq_refl) end; injection Hs as <-; subst;
    first [by apply field_true | by apply field_or_true].
Qed.

Lemma config_permissions_stated v raw :
  config_of (number := number) v = Some raw →
  ∃ p, stated config_names (lit "permissions") v = Some p ∧ permissions_of p = Some (permissions raw).
Proof.
  unfold config_of. destruct (struct_fields config_names 11 v) as [fields|] eqn:Hf; [cbn [mbind option_bind]|done].
  assert (fields !! 3%nat = Some (stated config_names (lit "permissions") v)) as Hs.
  { eapply stated_field; [|exact Hf|reflexivity]. by apply (bool_decide_unpack _); vm_compute. }
  clear Hf. revert Hs. generalize (stated config_names (lit "permissions") v). intros st Hs.
  repeat (destruct fields as [|? fields]; [done|]). destruct fields; [|done]. injection Hs as <-. intros Hp.
  repeat (match type of Hp with (?f ≫= _) = _ => destruct f eqn:?; [cbn [mbind option_bind] in Hp|done] end).
  injection Hp as <-. match goal with H : field permissions_of ?o = Some ?a |- _ => destruct o as [w|]; [|done]; by exists w end.
Qed.

Lemma read_config_inv content fault c :
  read_config content fault = Ok c →
  ∃ b v raw, fault = None ∧ content = Some b ∧ json_tree b = Ok v ∧ config_of v = Some raw ∧ transport raw = lit "stdio" ∧
    c = normalized raw.
Proof.
  unfold read_config. destruct fault as [|]; [done|]. destruct content as [b|]; [|done].
  destruct (utf8_valid b); [cbn [rbind]|done]. destruct (json_tree b) as [v|] eqn:Hv; [cbn [rbind map_err]|done].
  destruct (config_of v) as [raw|] eqn:Hr; [cbn [rbind ok_or]|done]. destruct (_ || _); [done|].
  case_bool_decide; [|done]. cbn [negb]. intros [= <-]. by exists b, v, raw.
Qed.

Lemma context_config_inv content fault c :
  context_config content fault = Ok c → read_config content fault = Ok c ∧ enabled c = true.
Proof.
  unfold context_config. destruct (read_config content fault) as [c'|[|m]] eqn:Hr; try done.
  destruct (enabled c') eqn:He; [|done]. by intros [= <-].
Qed.

(** The file lets an agent ask for the capability: it says so, or is silent where
    asking is the default. *)
Definition may_ask (raw : AccessConfig) (capability : AgentCapability) : Prop :=
  capability ≠ ReadSessions ∧
  (grant_request_policy raw !! capability = Some Ask ∨
   grant_request_policy raw !! capability = None ∧ default_policy capability = Ask).

Lemma normalized_may_ask raw c : grant_request_policy (normalized raw) !! c = Some Ask → may_ask raw c.
Proof.
  unfold may_ask. change (grant_request_policy (normalized raw)) with (normalized_policies (grant_request_policy raw)).
  rewrite normalized_policies_lookup. destruct (decide (c = ReadSessions)); [done|]. intros [= Hd]. split; [done|].
  destruct (grant_request_policy raw !! c); cbn in Hd; subst; auto.
Qed.

Lemma enabled_normalized raw : enabled (normalized raw) = enabled raw.
Proof. reflexivity. Qed.

Lemma permissions_normalized raw : permissions (normalized raw) = normalized_permissions (permissions raw).
Proof. reflexivity. Qed.

Lemma limits_normalized raw : limits (normalized raw) = normalized_limits (limits raw).
Proof. reflexivity. Qed.

Lemma ensured_config `{AgentHost} (c : AccessConfig) capability summary sessions reason config :
  access_config = Ok (tool_config c) → ensure_capability capability summary sessions reason = Ok config →
  config = tool_config c ∧
  (allows (permissions c) capability = true ∨
   grant_request_policy c !! capability = Some Ask ∧ use_grant capability summary sessions reason = Ok tt).
Proof.
  intros Hc. unfold ensure_capability. rewrite Hc. cbn [rbind tool_config ac_allows ac_policy].
  destruct (allows (permissions c) capability); [intros [= <-]; auto|].
  destruct (grant_request_policy c !! capability) as [[|]|]; try done.
  destruct (use_grant capability summary sessions reason) as [[]|]; [|done]. intros [= <-]. auto.
Qed.

Lemma allowed_stated v raw capability :
  config_of (number := number) v = Some raw → allows (permissions (normalized raw)) capability = true →
  stated_permission capability v = Some (Bool true) ∧
  (capability = ReadRawBodies → stated_permission ReadBodies v = Some (Bool true)).
Proof.
  intros Hraw Ha. destruct (config_permissions_stated v raw Hraw) as (p & Hp & Hperm).
  unfold stated_permission. rewrite Hp. cbn [mbind option_bind]. rewrite permissions_normalized in Ha. split.
  - eapply permissions_stated; [done|]. by apply normalized_permissions_allows.
  - intros ->. eapply permissions_stated; [done|]. unfold normalized_permissions in Ha. cbn [allows] in *.
    by destruct (read_bodies (permissions raw)).
Qed.

(** *** Revoking *)

Lemma revoked_policies_lookup m c : revoked_policies m !! c = if is_read_capability c then m !! c else Some Deny.
Proof.
  unfold revoked_policies. cbn [foldl].
  destruct c; cbn [is_read_capability]; repeat rewrite lookup_insert_ne by done; by rewrite ?lookup_insert, ?decide_True.
Qed.

Lemma revoked_permissions_allows p c : allows (revoked_permissions p) c = is_read_capability c && allows p c.
Proof. by destruct c. Qed.

Lemma default_policy_lookup c : default_grant_request_policy !! c = Some (default_policy c).
Proof. by destruct c; vm_compute. Qed.

(** The configuration a command starts from is normalised. *)
Lemma existing_normal content fault :
  let before := read_existing_config content fault in
  normalized_permissions (permissions before) = permissions before ∧
  (∀ c, normalized_policies (grant_request_policy before) !! c = grant_request_policy before !! c) ∧
  transport before = lit "stdio".
Proof.
  unfold read_existing_config. destruct (read_config content fault) as [c|] eqn:Hr.
  - apply read_config_inv in Hr as (b & v & raw & _ & _ & _ & _ & Ht & ->). split_and!; [apply normalized_permissions_same| |done].
    intros c. exact (f_equal (lookup c) (normalized_policies_same (grant_request_policy raw))).
  - split_and!; [done| |done]. intros c. rewrite normalized_policies_lookup. cbn [grant_request_policy default_config].
    rewrite default_policy_lookup. by destruct (decide (c = ReadSessions)) as [->|].
Qed.

Lemma normalized_revoked_permissions p :
  normalized_permissions p = p → normalized_permissions (revoked_permissions p) = revoked_permissions p.
Proof. destruct p as [? [] []]; done. Qed.

Lemma elem_of_filter_bool {A} (p : A → bool) x l : x ∈ List.filter p l ↔ p x = true ∧ x ∈ l.
Proof. rewrite !list_elem_of_In, filter_In. tauto. Qed.

Lemma authorize_nothing q c fingerprint grant_ids now : is_ok (authorize [] q c fingerprint grant_ids now).1 = false.
Proof.
  unfold authorize, authorized_grant_id. cbn. by induction grant_ids.
Qed.

Lemma revoked_config_lookup content fault now capability :
  let before := read_existing_config content fault in
  let c := normalized (revoked_config before now) in
  (allows (permissions c) capability, grant_request_policy c !! capability) =
    if is_read_capability capability
    then (allows (permissions before) capability, grant_request_policy before !! capability) else (false, Some Deny).
Proof.
  intros before c. destruct (existing_normal content fault) as (Hp & Hm & _). fold before in Hp, Hm.
  change (permissions c) with (normalized_permissions (revoked_permissions (permissions before))).
  change (grant_request_policy c) with (normalized_policies (revoked_policies (grant_request_policy before))).
  rewrite (normalized_revoked_permissions _ Hp), revoked_permissions_allows, normalized_policies_lookup, revoked_policies_lookup.
  specialize (Hm capability). rewrite normalized_policies_lookup in Hm.
  destruct (is_read_capability capability) eqn:Hc; [|by destruct (decide (capability = ReadSessions)) as [->|]].
  by rewrite Hm.
Qed.

Lemma revoke_cases io content grants answer file grants' :
  revoke_agent_control_permissions io content grants = (Ok answer, file, grants') →
  let before := read_existing_config content (io_read io) in
  let on := List.filter (allows (permissions before)) all_capabilities in
  read_config file None = Ok (normalized (revoked_config before (io_now io))) ∧ grants' = [] ∧
  answer = {| revoked_capabilities := List.filter (fun c => negb (is_read_capability c)) on;
              retained_read_capabilities := List.filter is_read_capability on; grants_cleared := is_ok (io_persist io) |}.
Proof.
  pose proof (disk_config_read (revoked_config (read_existing_config content (io_read io)) (io_now io))
    (proj2 (proj2 (existing_normal content (io_read io))))) as Hd.
  unfold revoke_agent_control_permissions, write_config. destruct (io_paths io); [done|]. revert Hd.
  generalize (normalized (revoked_config (read_existing_config content (io_read io)) (io_now io))).
  generalize (to_pretty (config_json (disk_config (revoked_config (read_existing_config content (io_read io)) (io_now io))))).
  generalize (List.filter (allows (permissions (read_existing_config content (io_read io)))) all_capabilities).
  intros on text c Hd Hr. destruct (wf_directory (io_write io)), (wf_replace (io_write io)); try done.
  by injection Hr as <- <- <-.
Qed.

(** ** Claims *)

(** C26: A configuration for the transport [stdio] that was written to disk, with the version number that old readers
    accept, is read back as its normalised form: every permission, limit, redaction
    rule, root, origin and policy survives the trip through JSON, and normalising
    once is enough. *)
Theorem config_read_back content c :
  transport c = lit "stdio" →
  ∃ file, write_config no_faults content c = (Ok tt, file) ∧ read_config file None = Ok (normalized c).
Proof. intros Ht. eexists. split; [reflexivity|]. by apply disk_config_read. Qed.

(** C16: The server acts for an agent only on the authority of the file.  When a tool
    obtains a capability, the file was read and enables the access, and either its
    permissions state the capability with [true] (raw bodies only together with
    bodies), or it lets the agent ask and the grant was approved and used; and the body
    limit handed to the tool is a positive number not above the default. *)
Theorem authority_is_stated `{AgentHost} content fault capability summary sessions reason config :
  access_config = (let? c := context_config content fault in Ok (tool_config c)) →
  ensure_capability capability summary sessions reason = Ok config →
  1 <= ac_max_body_bytes config <= DEFAULT_MAX_BODY_BYTES ∧
  ∃ b v raw, fault = None ∧ content = Some b ∧ json_tree b = Ok v ∧ config_of v = Some raw ∧ enabled raw = true ∧
    (stated_permission capability v = Some (Bool true) ∧
       (capability = ReadRawBodies → stated_permission ReadBodies v = Some (Bool true)) ∨
     may_ask raw capability ∧ use_grant capability summary sessions reason = Ok tt).
Proof.
  intros Hc He. destruct (context_config content fault) as [c|] eqn:Hr; cbn [rbind] in Hc;
    [|by unfold ensure_capability in He; rewrite Hc in He].
  apply context_config_inv in Hr as [Hr Hen].
  apply read_config_inv in Hr as (b & v & raw & -> & -> & Hv & Hraw & _ & ->). rewrite enabled_normalized in Hen.
  destruct (ensured_config _ _ _ _ _ _ Hc He) as [-> Hcase]. cbn [ac_max_body_bytes tool_config]. rewrite limits_normalized.
  split; [apply (normalized_limits_normal (limits raw))|]. exists b, v, raw. do 5 (split; [done|]).
  destruct Hcase as [Ha|[Ha Hu]]; [left; by apply allowed_stated with raw|right; split; [by apply normalized_may_ask|done]].
Qed.

(** C5: What the user revokes is gone.  When the command that revokes agent control answers,
    the file holds no control permission and lets no agent ask for one, every grant
    is dropped, so that none authorises anything, and a server that reads the file denies
    every control capability to every tool; the permissions to read and their
    policies are as before, and the answer lists exactly what was switched off. *)
Theorem revoke_is_final io content grants answer file grants' :
  revoke_agent_control_permissions io content grants = (Ok answer, file, grants') →
  let before := read_existing_config content (io_read io) in
  (∃ c, read_config file None = Ok c ∧
     ∀ capability,
       (allows (permissions c) capability, grant_request_policy c !! capability) =
         if is_read_capability capability
         then (allows (permissions before) capability, grant_request_policy before !! capability)
         else (false, Some Deny)) ∧
  (∀ requester capability fingerprint grant_ids now,
     is_ok (authorize grants' requester capability fingerprint grant_ids now).1 = false) ∧
  (∀ (host : AgentHost) capability summary sessions reason,
     access_config = (let? c := context_config file None in Ok (tool_config c)) → is_read_capability capability = false →
     is_ok (ensure_capability capability summary sessions reason) = false) ∧
  ∀ capability, capability ∈ revoked_capabilities answer ↔
    is_read_capability capability = false ∧ allows (permissions before) capability = true.
Proof.
  intros Hr before. apply revoke_cases in Hr as (Hfile & -> & ->). fold before in Hfile |- *. cbn [revoked_capabilities].
  assert (∀ capability, (allows (permissions (normalized (revoked_config before (io_now io)))) capability,
      grant_request_policy (normalized (revoked_config before (io_now io))) !! capability) =
      if is_read_capability capability
      then (allows (permissions before) capability, grant_request_policy before !! capability) else (false, Some Deny)) as Hc
    by apply revoked_config_lookup.
  revert Hfile Hc. generalize (normalized (revoked_config before (io_now io))). intros c Hfile Hc. split_and!.
  - by exists c.
  - intros. apply authorize_nothing.
  - intros host capability summary sessions reason Ha Hcap. specialize (Hc capability). rewrite Hcap in Hc.
    pose proof (f_equal fst Hc) as Hc1. pose proof (f_equal snd Hc) as Hc2. cbn [fst snd] in Hc1, Hc2. destruct (ensure_capability _ _ _ _) as [config|] eqn:He; [|done]. exfalso.
    unfold context_config in Ha. rewrite Hfile in Ha. destruct (enabled c); cbn [rbind] in Ha.
    + destruct (ensured_config _ _ _ _ _ _ Ha He) as [_ [Hx|[Hx _]]]; congruence.
    + by unfold ensure_capability in He; rewrite Ha in He.
  - intros capability. rewrite !elem_of_filter_bool. rewrite negb_true_iff. pose proof (elem_of_all_capabilities capability). tauto.
Qed.
End Authority.

(** ** A concrete environment *)

Section TrimMap.
Context (f : Z → Z) (H1 : ∀ a, ws1 (f a) = ws1 a) (H2 : ∀ a b, ws2 (f a) (f b) = ws2 a b).
Context (H3 : ∀ a b c, ws3 (f a) (f b) (f c) = ws3 a b c).

Lemma trim_start_map s : trim_start (map f s) = map f (trim_start s).
Proof.
  induction s as [s IH] using (induction_ltof1 _ (@length Z)). unfold ltof in IH. destruct s as [|a s1]; [done|].
  cbn [length] in IH. cbn [map trim_start]. rewrite H1. destruct (ws1 a); [apply IH; lia|]. destruct s1 as [|b s2]; [done|].
  cbn [length] in IH. cbn [map]. rewrite H2. destruct (ws2 a b); [apply IH; lia|]. destruct s2 as [|c s3]; [done|].
  cbn [length] in IH. cbn [map]. rewrite H3. destruct (ws3 a b c); [apply IH; lia|done].
Qed.

Lemma trim_end_rev_map s : trim_end_rev (map f s) = map f (trim_end_rev s).
Proof.
  induction s as [s IH] using (induction_ltof1 _ (@length Z)). unfold ltof in IH. destruct s as [|c s1]; [done|].
  cbn [length] in IH. cbn [map trim_end_rev]. rewrite H1. destruct (ws1 c); [apply IH; lia|]. destruct s1 as [|b s2]; [done|].
  cbn [length] in IH. cbn [map]. rewrite H2. destruct (ws2 b c); [apply IH; lia|]. destruct s2 as [|a s3]; [done|].
  cbn [length] in IH. cbn [map]. rewrite H3. destruct (ws3 a b c); [apply IH; lia|done].
Qed.

Lemma trim_map s : trim (map f s) = map f (trim s).
Proof. unfold trim. by rewrite trim_start_map, <- map_rev, trim_end_rev_map, <- map_rev. Qed.
End TrimMap.

Lemma lower_eqb a k : k < 65 ∨ 122 < k → (lower a =? k) = (a =? k).
Proof. intros Hk. unfold lower. destruct ((65 <=? a) && (a <=? 90)) eqn:Ha; [|done]. breflect. lia. Qed.

Lemma lower_leb a k : 122 < k → (k <=? lower a) = (k <=? a) ∧ (lower a <=? k) = (a <=? k).
Proof. intros Hk. unfold lower. destruct ((65 <=? a) && (a <=? 90)) eqn:Ha; [|done]. breflect. lia. Qed.

Lemma trim_lower s : trim s = s → trim (to_ascii_lowercase s) = to_ascii_lowercase s.
Proof.
  intros Hs. unfold to_ascii_lowercase. rewrite trim_map, Hs; [done|..].
  - intros a. unfold lower. destruct ((65 <=? a) && (a <=? 90)) eqn:Ha; [|done]. breflect. unfold ws1. lia.
  - intros a b. unfold ws2. by rewrite !lower_eqb by lia.
  - intros a b c. unfold ws3. rewrite !lower_eqb by lia. by rewrite (proj1 (lower_leb c 128 eq_refl)), (proj2 (lower_leb c 138 eq_refl)).
Qed.

Lemma lower_lower_ascii s : to_ascii_lowercase (to_ascii_lowercase s) = to_ascii_lowercase s.
Proof.
  unfold to_ascii_lowercase. rewrite map_map. apply map_ext. intros a. unfold lower.
  destruct ((65 <=? a) && (a <=? 90)) eqn:Ha; [|by rewrite Ha]. breflect. by destruct ((65 <=? a + 32) && (a + 32 <=? 90)) eqn:Hb; breflect; [lia|].
Qed.

(** A text format for trees: the bits of a code of the tree *)
Fixpoint tree_code (v : value Z) : gen_tree (Z + list Z) :=
  match v with
  | Null => GenNode 0 []
  | Bool b => GenNode 1 [GenLeaf (inl (if b then 1 else 0))]
  | Number n => GenNode 2 [GenLeaf (inl n)]
  | String s => GenNode 3 [GenLeaf (inr s)]
  | Array l => GenNode 4 (map tree_code l)
  | Object o => GenNode 5 (map (fun kv => let '(k, v) := kv in GenNode 6 [GenLeaf (inr k); tree_code v]) o)
  end.

Fixpoint tree_decode (t : gen_tree (Z + list Z)) : value Z :=
  match t with
  | GenNode 1 [GenLeaf (inl b)] => Bool (b =? 1)
  | GenNode 2 [GenLeaf (inl n)] => Number n
  | GenNode 3 [GenLeaf (inr s)] => String s
  | GenNode 4 l => Array (map tree_decode l)
  | GenNode 5 l => Object (map (fun t => match t with GenNode 6 [GenLeaf (inr k); t] => (k, tree_decode t) | _ => ([], Null) end) l)
  | _ => Null
  end.

Lemma tree_decode_code v : tree_decode (tree_code v) = v.
Proof.
  induction v as [|[]|n|s|items IH|o IH] using value_ind'; try done; cbn [tree_code tree_decode].
  - f_equal. rewrite map_map. by apply map_all.
  - f_equal. rewrite map_map. apply map_all. eapply Forall_impl; [exact IH|]. intros [k v]. cbn. by intros ->.
Qed.

Fixpoint bits (p : positive) : str :=
  match p with xH => [50] | xO p => 48 :: bits p | xI p => 49 :: bits p end.

Fixpoint unbits (s : str) : option positive :=
  match s with
  | [] => None
  | b :: s => if b =? 50 then Some xH else p ← unbits s; Some (if b =? 48 then xO p else xI p)
  end.

Lemma unbits_bits p : unbits (bits p) = Some p.
Proof. induction p as [p IH|p IH|]; cbn [bits unbits]; [..|done]; cbn; by rewrite IH. Qed.

Lemma bits_utf8 p : utf8_valid (bits p) = true.
Proof.
  induction p as [p IH|p IH|]; [..|done]; cbn [bits]; [apply (utf8_valid_app [49])|apply (utf8_valid_app [48])]; done.
Qed.

#[local] Existing Instance sample_env.

Definition demo_tree (s : str) : result (value Z) str :=
  match p ← unbits s; decode p with Some t => Ok (tree_decode t) | None => Err (lit "expected value at line 1 column 1") end.

#[local] Instance demo_config_env : ConfigEnv Z.
Proof.
  refine {| as_u64 n := if (0 <=? n) && (n <=? u64_max) then Some n else None; of_u64 n := n; json_tree := demo_tree;
            to_pretty v := bits (encode (tree_code v)); data_error _ := lit "invalid type"; WebUrl := unit;
            web_url s := if starts_with s (lit "https://example.com") then Some tt else None; web_scheme _ := lit "https";
            web_host _ := Some (lit "example.com"); web_origin _ := lit "https://example.com" |}.
  intros n Hn. by rewrite (proj2 (Z.leb_le 0 n)), (proj2 (Z.leb_le n u64_max)) by lia.
Defined.

#[local] Instance demo_config_laws : ConfigLaws Z.
Proof.
  split.
  - intros c. cbn [json_tree to_pretty demo_config_env]. unfold demo_tree. rewrite unbits_bits. cbn [mbind option_bind].
    rewrite decode_encode. by rewrite tree_decode_code.
  - intros c. apply bits_utf8.
  - apply lower_lower_ascii.
  - apply trim_lower.
  - intros [] _ _. exists tt. split_and!; [reflexivity| |done|done]. apply list_elem_of_In. vm_compute. auto.
Qed.

Definition demo_permissions : AgentAccessPermissions :=
  {| read_sessions := true; read_bodies := true; read_raw_bodies := false; read_web_socket := false;
     export_snapshots := false; control_capture := true; control_system_proxy := false; manage_certificates := false;
     delete_sessions := false; send_requests := false; manage_rules := true; manage_automation := false;
     manage_user_automation := false; manage_scripts := false; manage_cross_host_mappings := false;
     manage_proxied_verification := false; manage_global_automation := false |}.

Definition demo_access : AccessConfig :=
  {| version := 3; enabled := true; transport := lit "stdio"; permissions := demo_permissions;
     limits := {| max_sessions := 999; max_body_bytes := u64_max; max_response_bytes := 0 |};
     redaction := {| detect_sensitive_values := true; hash_identifiers := false;
                     custom_sensitive_keys := [lit " Employee_ID "; lit "badge"; lit "employee_id"; []];
                     custom_patterns := [{| rp_name := lit " number "; rp_pattern := lit "EMP"; rp_action := Hash |}] |};
     automation_approved_roots := [lit " /srv "; lit " "]; proxied_verification_origins := [lit "https://example.com/a?b"; lit "ftp:x"];
     automation_cross_host_origins := []; grant_request_policy := {[ReadSessions := Ask; SendRequests := Ask]};
     updated_at := None |}.

Definition demo_file : option bytes := Some (to_pretty (config_json (disk_config demo_access))).

Lemma demo_file_read : read_config demo_file None = Ok (normalized demo_access).
Proof. by apply disk_config_read. Qed.

(** What becomes of the sample: keys, limits, origins and the policy of the sessions *)
Lemma demo_normalized :
  let c := normalized demo_access in
  custom_sensitive_keys (redaction c) = [lit "badge"; lit "employee_id"] ∧
  limits c = {| max_sessions := 100; max_body_bytes := 262144; max_response_bytes := 1 |} ∧
  automation_approved_roots c = [lit "/srv"] ∧ proxied_verification_origins c = [lit "https://example.com"] ∧
  grant_request_policy c !! ReadSessions = Some Deny ∧ grant_request_policy c !! ManageScripts = Some Deny ∧
  grant_request_policy c !! SendRequests = Some Ask.
Proof. split_and!; vm_compute; reflexivity. Qed.

Lemma config_read_back_witness :
  ∃ file, write_config no_faults None demo_access = (Ok tt, file) ∧ read_config file None = Ok (normalized demo_access).
Proof. apply (config_read_back None demo_access). reflexivity. Defined.

Definition demo_access_host : AgentHost :=
  {| access_config := let? c := context_config demo_file None in Ok (tool_config c); use_grant _ _ _ _ := Err tool_disabled;
     session_details := true; timed_out _ := false; join_error _ := []; stored_hash_key := [] |}.

Lemma demo_access_config :
  @access_config demo_access_host = (let? c := context_config demo_file None in Ok (tool_config c)).
Proof. unfold demo_access_host. cbn [access_config]. reflexivity. Qed.

Lemma demo_context : context_config demo_file None = Ok (normalized demo_access).
Proof. unfold context_config. by rewrite demo_file_read. Qed.

Lemma demo_ensured :
  @ensure_capability demo_access_host ReadBodies (lit "Read a body") [] (lit "why") = Ok (tool_config (normalized demo_access)).
Proof. unfold ensure_capability. cbn [access_config demo_access_host]. by rewrite demo_context. Qed.

Lemma authority_is_stated_witness :
  ∃ b v raw, demo_file = Some b ∧ json_tree b = Ok v ∧ config_of v = Some raw ∧ enabled raw = true ∧
    (stated_permission ReadBodies v = Some (Bool true) ∨ may_ask raw ReadBodies).
Proof.
  destruct (@authority_is_stated Z _ _ demo_access_host demo_file None ReadBodies (lit "Read a body") [] (lit "why")
    (tool_config (normalized demo_access)) demo_access_config demo_ensured) as [_ (b & v & raw & _ & Hb & Hv & Hr & He & Hc)].
  exists b, v, raw. tauto.
Defined.

Definition demo_io : CommandIo :=
  {| io_paths := None; io_read := None; io_write := no_faults; io_now := lit "2026-01-01T00:00:00Z"; io_persist := Ok tt |}.

Lemma revoke_answers (content : option bytes) grants :
  ∃ answer file, revoke_agent_control_permissions demo_io content grants = (Ok answer, file, []).
Proof. unfold revoke_agent_control_permissions, write_config. cbn [io_paths io_write demo_io wf_directory wf_replace no_faults]. eauto. Qed.

Lemma revoke_is_final_witness :
  ∃ answer file, revoke_agent_control_permissions demo_io demo_file [] = (Ok answer, file, []) ∧
    ControlCapture ∈ revoked_capabilities answer ∧ ∃ c, read_config file None = Ok c ∧ allows (permissions c) ControlCapture = false.
Proof.
  destruct (revoke_answers demo_file []) as (answer & file & Hr). exists answer, file. split; [exact Hr|].
  destruct (revoke_is_final demo_io demo_file [] answer file [] Hr) as ((c & Hc & Hl) & _ & _ & Hrev). split.
  - apply Hrev. split; [reflexivity|]. unfold read_existing_config. cbn [io_read demo_io]. rewrite demo_file_read. reflexivity.
  - exists c. split; [exact Hc|]. exact (f_equal fst (Hl ControlCapture)).
Defined.
