(* ===== verification/ConfigFile.v ===== *)
(** * ConfigFile: how the access configuration is replaced on disk

    Models [write_private_file_atomic] and [replace_file] of
    src/crates/mcp-server/src/config.rs (on Unix) as a program of the system calls of
    BodyStoreRace, where a call may fail, a write may be short and the process may
    stop between any two calls.  The program implements the step that AgentConfig's
    [write_config] takes as one: the file has its old content or the new one. *)

From S2P Require Import Prelude Str Utf8 TextSearch Redaction RedactedSearch BodyStream BodyTools.
From S2P Require Import Patterns JsonPath RuleTypes RuleManagers RuleSelection HttpIo Rewrite MapRules BodyStore BodyStoreRace AgentConfig AgentConfigFacts.
Local Open Scope prog_scope.

(** ** Definitions *)

Section Programs.
Context (process_id : Z).

Definition config_temp (file_name : str) : str := file_name ++ lit ".tmp-" ++ show process_id.

Definition replace_file (src dst : Key) : Prog (result unit IoError) := call (Rename src dst).

(** The closure whose result decides about the cleanup *)
Definition write_and_replace (temp dst : Key) (contents : bytes) : Prog (result unit IoError) :=
  opened <~ call (CreateFile temp);
  match opened with
  | Err e => Ret (Err e)
  | Ok i =>
      written <~ write_all (length contents) i contents;
      match written with
      | Err e => Ret (Err e)
      | Ok _ =>
          synced <~ call (SyncAll i);
          match synced with
          | Err e => Ret (Err e)
          | Ok _ =>
              restricted <~ call (SetPermissions temp);
              match restricted with
              | Err e => Ret (Err e)
              | Ok _ => replace_file temp dst
              end
          end
      end
  end.

Definition write_private_file_atomic (d file_name : str) (contents : bytes) : Prog (result unit IoError) :=
  let temp := (d, config_temp file_name) in
  write_result <~ write_and_replace temp (d, file_name) contents;
  match write_result with
  | Ok _ => Ret (Ok tt)
  | Err e => _ <~ call (RemoveFile temp); Ret (Err e)
  end.

(** The part of [write_config] that touches the disk *)
Definition store_config (d file_name : str) (contents : bytes) : Prog (result unit IoError) :=
  created <~ call (CreateDirAll d);
  match created with
  | Err e => Ret (Err e)
  | Ok _ => write_private_file_atomic d file_name contents
  end.
End Programs.

(** Some calls of a program *)
Inductive run {A} : Fs → Prog A → Fs → Prog A → Prop :=
  | run_here fs p : run fs p fs p
  | run_call {B} fs (o : Op B) k fs1 ans fs2 p :
      does fs o fs1 ans → run fs1 (k ans) fs2 p → run fs (Do o k) fs2 p.

(** ** A logic of what always holds *)

Fixpoint always {A} (I : Fs → Prop) (Q : A → Fs → Prop) (p : Prog A) (fs : Fs) : Prop :=
  I fs ∧ match p with
         | Ret a => Q a fs
         | Do o k => ∀ fs' ans, does fs o fs' ans → always I Q (k ans) fs'
         end.

Lemma always_run {A} I Q fs (p : Prog A) fs' p' : run fs p fs' p' → always I Q p fs → always I Q p' fs'.
Proof. induction 1 as [|B fs o k fs1 ans fs2 p Hd _ IH]; [done|]. intros [_ Ha]. apply IH. by apply Ha. Qed.

Lemma always_bind {A B} I (Q : B → Fs → Prop) (p : Prog A) (f : A → Prog B) : ∀ fs,
  always I (fun a fs => always I Q (f a) fs) p fs → always I Q (pbind p f) fs.
Proof.
  induction p as [a|C o k IH]; intros fs; cbn [always pbind]; [tauto|].
  intros [HI Ha]. split; [done|]. intros fs' ans Hd. apply IH. by apply Ha.
Qed.

Lemma always_call {A B} I (Q : B → Fs → Prop) (o : Op A) (f : A → Prog B) fs :
  I fs → (∀ fs' ans, does fs o fs' ans → always I Q (f ans) fs') → always I Q (pbind (call o) f) fs.
Proof. intros HI Ha. split; [done|exact Ha]. Qed.

Lemma always_ret {A} I (Q : A → Fs → Prop) a fs : I fs → Q a fs → always I Q (Ret a) fs.
Proof. done. Qed.

Lemma always_mono {A} I (Q R : A → Fs → Prop) (p : Prog A) : (∀ a fs, Q a fs → R a fs) → ∀ fs, always I Q p fs → always I R p fs.
Proof.
  intros HQ. induction p as [a|B o k IH]; intros fs; cbn [always]; [naive_solver|].
  intros [HI Ha]. split; [done|]. intros fs' ans Hd. apply IH. by apply Ha.
Qed.

Lemma always_here {A} I Q (p : Prog A) fs : always I Q p fs → I fs.
Proof. destruct p; cbn [always]; tauto. Qed.

(** ** The proof *)

(** Every name has a file of its own. *)
Definition names_apart (fs : Fs) : Prop :=
  (∀ k i, entries fs !! k = Some i → is_Some (inodes fs !! i)) ∧
  ∀ k k' i, entries fs !! k = Some i → entries fs !! k' = Some i → k = k'.

Section Atomic.
Context (fs0 : Fs) (temp dst : Key) (data : bytes).

(** Nothing but the temporary file has changed. *)
Definition untouched (fs : Fs) : Prop :=
  names_apart fs ∧ (∀ k, k ≠ temp → entries fs !! k = entries fs0 !! k) ∧
  ∀ k i, k ≠ temp → entries fs0 !! k = Some i → inodes fs !! i = inodes fs0 !! i.

(** What holds at every moment: the file has its old content or the new one, every
    other file its content, and who has opened the old file still reads it. *)
Definition old_or_new (fs : Fs) : Prop :=
  names_apart fs ∧ (content fs dst = content fs0 dst ∨ content fs dst = Some data) ∧
  (∀ k, k ≠ temp → k ≠ dst → content fs k = content fs0 k) ∧
  ∀ k i, k ≠ temp → entries fs0 !! k = Some i → inodes fs !! i = inodes fs0 !! i.

Definition replaced (r : result unit IoError) (fs : Fs) : Prop :=
  content fs dst = match r with Ok _ => Some data | Err _ => content fs0 dst end.

(** The temporary file is [i] and holds [w]. *)
Definition writing (i : nat) (w : bytes) (fs : Fs) : Prop :=
  untouched fs ∧ entries fs !! temp = Some i ∧ inodes fs !! i = Some w.

Lemma untouched_content fs k : untouched fs → k ≠ temp → content fs k = content fs0 k.
Proof.
  intros (_ & He & Hi) Hk. unfold content. rewrite (He k Hk). destruct (entries fs0 !! k) as [i|] eqn:Hki; [cbn|done].
  by apply (Hi k).
Qed.

Hypothesis Hapart : temp ≠ dst.

Lemma untouched_always fs : untouched fs → old_or_new fs.
Proof.
  intros Hu. pose proof Hu as (Hn & _ & Hi). split_and!; [done| |by intros; apply untouched_content|done].
  left. by apply untouched_content.
Qed.

Lemma untouched_failed fs e : untouched fs → replaced (Err e) fs.
Proof. intros Hu. by apply untouched_content. Qed.

Lemma untouched_inodes fs files :
  untouched fs → (∀ j, is_Some (inodes fs !! j) → is_Some (files !! j)) →
  (∀ k j, k ≠ temp → entries fs0 !! k = Some j → files !! j = inodes fs !! j) → untouched (with_files fs (entries fs) files).
Proof.
  intros ((Hd & Hn) & He & Hi) Hdom Hsame. split_and!; cbn [entries inodes with_files]; [split|done|].
  - intros k i Hk. apply Hdom. by eapply Hd.
  - done.
  - intros k i Hk Hki. rewrite (Hsame k) by done. by apply (Hi k).
Qed.

Lemma writing_update fs i w w' : writing i w fs → writing i w' (with_files fs (entries fs) (<[i := w']> (inodes fs))).
Proof.
  intros (Hu & Ht & Hw). split_and!; cbn [entries inodes with_files]; [|done|].
  - apply untouched_inodes; [done| |].
    + intros j Hj. by rewrite list_lookup_insert_is_Some.
    + intros k j Hk Hkj. rewrite list_lookup_insert_ne; [done|]. intros <-. pose proof Hu as ((_ & Hn) & He & _).
      rewrite <- (He k Hk) in Hkj. by pose proof (Hn _ _ _ Ht Hkj).
  - rewrite list_lookup_insert, decide_True; [done|]. split; [done|]. by eapply lookup_lt_Some.
Qed.

Lemma created_file fs fs' ans :
  untouched fs → does fs (CreateFile temp) fs' ans → match ans with Ok i => writing i [] fs' | Err _ => untouched fs' end.
Proof.
  intros Hu [Hd|[-> [m ->]]]; [|done]. cbn [performs] in Hd. case_decide; [|by destruct Hd as [-> ->]].
  destruct (entries fs !! temp) as [i|] eqn:Ht; destruct Hd as [-> ->].
  - pose proof Hu as ((Hd & _) & _ & _). destruct (Hd _ _ Ht) as [w Hw]. by eapply writing_update.
  - pose proof Hu as ((Hd & Hn) & He & Hi).
    assert (∀ k j, entries fs !! k = Some j → j ≠ length (inodes fs)) as Hfresh.
    { intros k j [x Hx%lookup_lt_Some]%Hd. lia. }
    split_and!; cbn [entries inodes with_files]; [split_and!; cbn [entries inodes with_files]; [split|..]|..].
    + cbn [entries inodes with_files]. intros k i [[_ <-]|[_ Hk]]%lookup_insert_Some; [rewrite list_lookup_middle by done; eauto|].
      destruct (Hd _ _ Hk) as [x Hx]. exists x. by apply lookup_app_l_Some.
    + cbn [entries with_files]. intros k k' i [[<- <-]|[Hk1 Hk2]]%lookup_insert_Some [[<- Hj]|[Hk3 Hk4]]%lookup_insert_Some; [done| | |by eapply Hn].
      * by destruct (Hfresh k' (length (inodes fs)) Hk4).
      * subst. by destruct (Hfresh k _ Hk2).
    + intros k Hk. rewrite lookup_insert_ne by done. by apply He.
    + intros k i Hk Hki. rewrite lookup_app_l; [by apply (Hi k)|]. rewrite <- (He k Hk) in Hki.
      destruct (Hd _ _ Hki) as [x Hx%lookup_lt_Some]. done.
    + by rewrite lookup_insert, decide_True.
    + by rewrite list_lookup_middle.
Qed.

Lemma always_write_all i fuel : ∀ b w fs, (length b <= fuel)%nat → writing i w fs →
  always old_or_new (fun r fs => match r with Ok _ => writing i (w ++ b) fs | Err _ => untouched fs end) (write_all fuel i b) fs.
Proof.
  induction fuel as [|fuel IH]; intros b w fs Hf Hw; pose proof Hw as (Hu & Ht & Hi).
  { destruct b; [|cbn in Hf; lia]. apply always_ret; [by apply untouched_always|by rewrite app_nil_r]. }
  destruct b as [|x b]; [apply always_ret; [by apply untouched_always|by rewrite app_nil_r]|].
  cbn [write_all]. apply always_call; [by apply untouched_always|].
  intros fs' ans [(n & c & Hn & Hc & -> & ->)|[-> [m ->]]]; [|apply always_ret; [by apply untouched_always|done]].
  rewrite Hi in Hc. injection Hc as <-. assert (w ++ x :: b = (w ++ take n (x :: b)) ++ drop n (x :: b)) as -> by (by rewrite <- app_assoc, take_drop).
  apply IH; [rewrite length_drop; lia|]. by eapply writing_update.
Qed.

Lemma renamed fs i : writing i data fs →
  old_or_new (with_files fs (<[dst := i]> (delete temp (entries fs))) (inodes fs)) ∧
  replaced (Ok tt) (with_files fs (<[dst := i]> (delete temp (entries fs))) (inodes fs)).
Proof.
  intros (Hu & Ht & Hw). pose proof Hu as ((Hd & Hn) & He & Hi). unfold replaced.
  assert (content (with_files fs (<[dst := i]> (delete temp (entries fs))) (inodes fs)) dst = Some data) as Hc.
  { unfold content. cbn [entries inodes with_files]. by rewrite lookup_insert, decide_True. }
  split; [|done]. split_and!; [split|by right| |done].
  - cbn [entries inodes with_files]. intros k j [[_ <-]|[_ [_ Hk]%lookup_delete_Some]]%lookup_insert_Some; [by exists data|by eapply Hd].
  - cbn [entries with_files]. intros k k' j [[<- <-]|[H1 [H2 Hk]%lookup_delete_Some]]%lookup_insert_Some
      [[<- Hj]|[H3 [H4 Hk']%lookup_delete_Some]]%lookup_insert_Some; [done| | |by eapply Hn].
    + by pose proof (Hn _ _ _ Ht Hk').
    + subst. by pose proof (Hn _ _ _ Ht Hk).
  - intros k Hk Hkd. rewrite <- (untouched_content fs k Hu Hk). unfold content. cbn [entries inodes with_files].
    by rewrite lookup_insert_ne, lookup_delete_ne.
Qed.

Lemma always_write_and_replace fs : untouched fs →
  always old_or_new (fun r fs => match r with Ok _ => old_or_new fs ∧ replaced r fs | Err _ => untouched fs end)
    (write_and_replace temp dst data) fs.
Proof.
  intros Hu. apply always_call; [by apply untouched_always|]. intros fs1 ans Hd.
  apply (created_file fs fs1 ans Hu) in Hd. destruct ans as [i|e]; [|by apply always_ret; [apply untouched_always|]].
  apply always_bind. eapply always_mono; [|by apply (always_write_all i (length data) data [] fs1)].
  intros [[]|e] fs2; [|intros Hu2; by apply always_ret; [apply untouched_always|]]. intros Hw. cbn [app] in Hw.
  apply always_call; [by apply untouched_always, Hw|]. intros fs3 synced Hs.
  assert (fs3 = fs2) as -> by (by destruct Hs as [[-> _]|[-> _]]).
  destruct synced; [|by apply always_ret; [apply untouched_always, Hw|apply Hw]].
  apply always_call; [by apply untouched_always, Hw|]. intros fs3 mode Hs'.
  assert (fs3 = fs2) as -> by (by destruct Hs' as [[-> _]|[-> _]]).
  destruct mode; [|by apply always_ret; [apply untouched_always, Hw|apply Hw]].
  split; [by apply untouched_always, Hw|]. intros fs3 ans [Hr|[-> [m ->]]]; [|by apply always_ret; [apply untouched_always, Hw|apply Hw]].
  cbn [performs] in Hr. rewrite (proj1 (proj2 Hw)) in Hr. destruct Hr as [-> ->]. destruct (renamed fs2 i Hw) as [Ho Hr].
  by apply always_ret.
Qed.

Lemma removed_temp fs fs' ans : untouched fs → does fs (RemoveFile temp) fs' ans → untouched fs'.
Proof.
  intros Hu [Hd|[-> _]]; [|done]. cbn [performs] in Hd.
  destruct (entries fs !! temp); destruct Hd as [-> _]; [|done]. pose proof Hu as ((Hd & Hn) & He & Hi).
  split_and!; [split| |done]; cbn [entries inodes with_files].
  - intros k i [_ Hk]%lookup_delete_Some. by eapply Hd.
  - intros k k' i [_ Hk]%lookup_delete_Some [_ Hk']%lookup_delete_Some. by eapply Hn.
  - intros k Hk. rewrite lookup_delete_ne by done. by apply He.
Qed.

Lemma always_cleanup fs (r : result unit IoError) :
  (match r with Ok _ => old_or_new fs ∧ replaced r fs | Err _ => untouched fs end) →
  always old_or_new replaced
    (match r with Ok _ => Ret (Ok tt) | Err e => _ <~ call (RemoveFile temp); Ret (Err e) end) fs.
Proof.
  destruct r as [[]|e]; [intros [? ?]; by apply always_ret|]. intros Hu.
  apply always_call; [by apply untouched_always|]. intros fs' ans Hd. pose proof (removed_temp _ _ _ Hu Hd).
  apply always_ret; [by apply untouched_always|by apply untouched_failed].
Qed.
End Atomic.

Lemma config_temp_apart process_id (d file_name : str) : (d, config_temp process_id file_name) ≠ (d, file_name).
Proof.
  intros [= Hf]. apply (f_equal length) in Hf. unfold config_temp in Hf. rewrite !length_app in Hf.
  change (length (lit ".tmp-")) with 5%nat in Hf. lia.
Qed.

Lemma always_store_config process_id (d file_name : str) data fs :
  names_apart fs →
  let temp := (d, config_temp process_id file_name) in
  always (old_or_new fs temp (d, file_name) data) (replaced fs (d, file_name) data) (store_config process_id d file_name data) fs.
Proof.
  intros Hn temp. pose proof (config_temp_apart process_id d file_name) as Ht. fold temp in Ht.
  assert (untouched fs temp fs) as Hu by done. apply always_call; [by apply untouched_always|].
  intros fs1 ans Hd.
  assert (untouched fs temp fs1) as Hu1.
  { destruct Hd as [[-> _]|[-> _]]; done. }
  destruct ans; [|apply always_ret; [by apply untouched_always|by eapply untouched_failed]].
  apply always_bind. eapply always_mono; [|by apply always_write_and_replace].
  intros r fs2 Hr. by apply always_cleanup.
Qed.

(** C21: The access configuration is replaced as a whole.  Wherever the program that stores
    a configuration stops, after any failed call, short write or crash, a server
    that reads the file sees the configuration from before or the normalised new
    one; it has the new one when the program reports success and the old one when it
    reports an error; who opened the old file still reads it, and no other file
    but the temporary one has changed. *)
Theorem config_replaced_as_a_whole {number} `{ConfigLaws number} process_id (d file_name : str) c fs fs' p :
  names_apart fs → transport c = lit "stdio" →
  run fs (store_config process_id d file_name (to_pretty (config_json (disk_config c)))) fs' p →
  let dst := (d, file_name) in
  let temp := (d, config_temp process_id file_name) in
  let reads fs := read_config (content fs dst) None in
  names_apart fs' ∧ (reads fs' = reads fs ∨ reads fs' = Ok (normalized c)) ∧
  (∀ r, p = Ret r → reads fs' = match r with Ok _ => Ok (normalized c) | Err _ => reads fs end) ∧
  (∀ k, k ≠ temp → k ≠ dst → content fs' k = content fs k) ∧
  ∀ i, entries fs !! dst = Some i → inodes fs' !! i = inodes fs !! i.
Proof.
  intros Hn Ht Hrun dst temp reads. pose proof (disk_config_read c Ht) as Hread. unfold reads.
  pose proof (always_run _ _ _ _ _ _ Hrun (always_store_config process_id d file_name _ fs Hn)) as Ha.
  pose proof (always_here _ _ _ _ Ha) as (Hn' & Hc & Ho & Hi). fold dst temp in Ha, Hc, Ho, Hi. split_and!; [done| | |done|].
  - destruct Hc as [->| ->]; [by left|by right].
  - intros r ->. destruct Ha as [_ Hr]. unfold replaced in Hr. destruct r; rewrite Hr; [done|done].
  - intros i. apply Hi. intros Heq. symmetry in Heq. by apply (config_temp_apart process_id d file_name).
Qed.

(** ** Examples *)

Definition data_dir : str := lit "data".
Definition config_name : str := lit "agent-access.json".
Definition empty_disk : Fs :=
  {| base_present := true; dirs := {[data_dir]}; loose := ∅; entries := ∅; inodes := []; sequence := 0 |}.

Lemma exec_run {A} (p : Prog A) : ∀ fs fs' a, exec p fs = Some (fs', a) → run fs p fs' (Ret a).
Proof.
  induction p as [a|B o k IH]; intros fs fs' a' He; cbn [exec] in He; [simplify_eq; constructor|].
  destruct (exec_op fs o) as [[fs1 ans]|] eqn:Ho; [|done]. econstructor; [by apply exec_does|by apply IH].
Qed.

Definition stored (data : bytes) : Fs :=
  {| base_present := true; dirs := {[data_dir]}; loose := ∅; entries := {[(data_dir, config_name) := 0%nat]};
     inodes := [data]; sequence := 0 |}.

Lemma store_config_exec data : exec (store_config 7 data_dir config_name data) empty_disk = Some (stored data, Ok tt).
Proof.
  unfold store_config, write_private_file_atomic, write_and_replace, replace_file.
  rewrite exec_bind, exec_call. cbn [exec_op mbind option_bind].
  replace (with_dirs empty_disk (dirs empty_disk ∪ {[data_dir]})) with empty_disk by (unfold with_dirs, empty_disk; f_equal; vm_compute; reflexivity).
  rewrite !exec_bind, exec_call. cbn [exec_op].
  rewrite decide_True by (vm_compute; reflexivity).
  change (entries empty_disk !! (data_dir, config_temp 7 config_name)) with (None (A := nat)). cbn [mbind option_bind].
  rewrite exec_bind. erewrite exec_write_all by reflexivity. cbn [mbind option_bind app].
  rewrite exec_bind, exec_call. cbn [exec_op mbind option_bind]. rewrite exec_bind, exec_call. cbn [exec_op].
  vm_compute. reflexivity.
Qed.

Lemma empty_disk_apart : names_apart empty_disk.
Proof. by split. Qed.

#[local] Existing Instance sample_env.
#[local] Existing Instance demo_config_env.
#[local] Existing Instance demo_config_laws.

Lemma config_replaced_as_a_whole_witness :
  ∃ fs', run empty_disk (store_config 7 data_dir config_name (to_pretty (config_json (disk_config demo_access)))) fs' (Ret (Ok tt)) ∧
    read_config (content fs' (data_dir, config_name)) None = Ok (normalized demo_access).
Proof.
  pose proof (exec_run _ _ _ _ (store_config_exec (to_pretty (config_json (disk_config demo_access))))) as Hrun.
  destruct (config_replaced_as_a_whole 7 data_dir config_name demo_access _ _ _ empty_disk_apart eq_refl Hrun)
    as (_ & _ & Hr & _).
  eexists. split; [exact Hrun|]. exact (Hr (Ok tt) eq_refl).
Defined.

(** ** Two writers

    The temporary file is named after the process, so that two commands of the
    desktop application that store the configuration at once share it. *)

Inductive run2 {A} : Fs → Prog A → Prog A → Fs → Prog A → Prog A → Prop :=
  | run2_here fs p q : run2 fs p q fs p q
  | run2_left {B} fs (o : Op B) k q fs1 ans fs2 p' q' :
      does fs o fs1 ans → run2 fs1 (k ans) q fs2 p' q' → run2 fs (Do o k) q fs2 p' q'
  | run2_right {B} fs (o : Op B) k p fs1 ans fs2 p' q' :
      does fs o fs1 ans → run2 fs1 p (k ans) fs2 p' q' → run2 fs p (Do o k) fs2 p' q'.

(** The turns of the left program ([true]) and of the right one *)
Fixpoint exec2 {A} (turns : list bool) (fs : Fs) (p q : Prog A) : option (Fs * Prog A * Prog A) :=
  match turns with
  | [] => Some (fs, p, q)
  | true :: turns =>
      match p with
      | Ret _ => None
      | Do o k => '(fs, ans) ← exec_op fs o; exec2 turns fs (k ans) q
      end
  | false :: turns =>
      match q with
      | Ret _ => None
      | Do o k => '(fs, ans) ← exec_op fs o; exec2 turns fs p (k ans)
      end
  end.

Lemma exec2_run2 {A} turns : ∀ fs (p q : Prog A) fs' p' q', exec2 turns fs p q = Some (fs', p', q') → run2 fs p q fs' p' q'.
Proof.
  induction turns as [|[] turns IH]; intros fs p q fs' p' q' He; cbn [exec2] in He; [simplify_eq; constructor|..].
  - destruct p as [|B o k]; [done|]. destruct (exec_op fs o) as [[fs1 ans]|] eqn:Ho; [|done].
    econstructor 2; [by apply exec_does|by apply IH].
  - destruct q as [|B o k]; [done|]. destruct (exec_op fs o) as [[fs1 ans]|] eqn:Ho; [|done].
    econstructor 3; [by apply exec_does|by apply IH].
Qed.

(** One writer reports success while the file is empty: the other has opened the
    shared temporary file, and with it truncated it, before it was renamed. *)
Lemma concurrent_config_writes_tear :
  ∃ fs q,
    run2 empty_disk (store_config 7 data_dir config_name (lit "{a}")) (store_config 7 data_dir config_name (lit "{bcd}"))
      fs (Ret (Ok tt)) q ∧
    content fs (data_dir, config_name) = Some [].
Proof.
  pose (out := exec2 [true; true; true; true; true; false; false; true] empty_disk
    (store_config 7 data_dir config_name (lit "{a}")) (store_config 7 data_dir config_name (lit "{bcd}"))).
  assert (match out with Some (fs, Ret (Ok _), _) => content fs (data_dir, config_name) = Some [] | _ => False end) as Hout
    by (vm_compute; reflexivity).
  destruct out as [[[fs [[[]|]|]] q]|] eqn:Ho; try done. exists fs, q. split; [|done]. by eapply exec2_run2.
Qed.
