(* ===== verification/Compare.v ===== *)
(** * Compare: the comparison of two captured sessions

    Models src/crates/mcp-server/src/tools/compare.rs: the handler of
    [compare_sessions], what it reads of a session, and the differences of header
    maps, timings, JSON documents, selected paths and texts.

    The rows of the database are an interface; the timing of a session is the
    tree its column holds, with the names it is shown with. *)

From S2P Require Import Prelude Str AgentGrants.
From S2P Require Import JsonPath Rewrite Utf8 TextSearch Redaction RedactedSearch BodyPaths BodyStream BodyTools AgentConfig.

(** ** Definitions: requests and rows *)

Definition COMPARE_BODY_SCAN_BYTES : Z := 8 * 1024 * 1024.
Definition MAX_DIFF_CHANGES : nat := 200.
Definition MAX_DIFF_VALUE_BYTES : Z := 2 * 1024.

Inductive DiffMode := DiffAuto | DiffJson | DiffText.

#[export] Instance DiffMode_eq_dec : EqDecision DiffMode.
Proof. solve_decision. Defined.

Record CompareSessionsRequest := {
  cq_left_session_id : str; cq_right_session_id : str; cq_include_body : bool; cq_body_part : option BodyPart;
  cq_raw : bool; cq_json_paths : list str; cq_diff_mode : DiffMode
}.

(** The columns the comparison uses *)
Record SessionSummaryRow := {
  sr_id : str; sr_protocol : str; sr_http_version : str; sr_duration_ms : Z; sr_size_bytes : Z; sr_status_code : Z;
  sr_url : str; sr_response_mime_type : option str
}.

Record SessionDetailRow (number : Type) := {
  dr_query_params : str; dr_cookies : str; dr_request_headers : str; dr_response_headers : str;
  dr_timing : option (value number)
}.
Arguments dr_query_params {number}.
Arguments dr_cookies {number}.
Arguments dr_request_headers {number}.
Arguments dr_response_headers {number}.
Arguments dr_timing {number}.

Record CompareDb (number : Type) := {
  cd_sessions : SessionDb;
  cd_summary : str → result (option SessionSummaryRow) ToolError;
  cd_detail : str → result (option (SessionDetailRow number)) ToolError
}.
Arguments cd_sessions {number}.
Arguments cd_summary {number}.
Arguments cd_detail {number}.

(** ** Definitions: values *)

Section Values.
Context {number : Type} `{EqDecision number}.

(** [PartialEq] of [Value]: the members of an object have no order. *)
Fixpoint value_eqb (v w : value number) : bool :=
  match v, w with
  | Null, Null => true
  | Bool b, Bool c => eqb b c
  | Number n, Number m => bool_decide (n = m)
  | String s, String t => bool_decide (s = t)
  | Array l, Array r =>
      (fix all (l r : list (value number)) : bool :=
         match l, r with
         | [], [] => true
         | v :: l, w :: r => value_eqb v w && all l r
         | _, _ => false
         end) l r
  | Object o, Object p =>
      (length o =? length p)%nat
      && forallb (fun kv => let '(k, v) := kv in match obj_get p k with Some w => value_eqb v w | None => false end) o
  | _, _ => false
  end.
End Values.

Section Diffs.
Context {number : Type} `{RedactionEnv number} `{!JsonSource number} `{EqDecision number}.

Abbreviation tree := (value number).

(** ** Definitions: bounded values *)

Definition summary_text (s : str) : str :=
  if len s <=? MAX_DIFF_VALUE_BYTES then s
  else take (floor_at s (Z.to_nat MAX_DIFF_VALUE_BYTES)) s ++ lit "…[truncated]".

Definition summary_value (v : tree) : tree :=
  let serialized := to_string v in
  if len serialized <=? MAX_DIFF_VALUE_BYTES then v
  else
    match v with
    | String text =>
        String (take (floor_at text (Z.to_nat (Z.min MAX_DIFF_VALUE_BYTES (len text)))) text ++ lit "…[truncated]")
    | _ =>
        let end_ := valid_cut serialized (Z.to_nat (Z.min MAX_DIFF_VALUE_BYTES (len serialized))) in
        String (from_utf8_lossy (take end_ serialized) ++ lit "…[truncated JSON value: " ++ show (len serialized) ++ lit " bytes]")
    end.

(** ** Definitions: documents *)

Definition change (path : str) (left right : tree) : tree :=
  Object [(lit "path", String path); (lit "left", left); (lit "right", right)].

Definition key_path (path key : str) : str := path ++ lit "." ++ key.
Definition index_path (path : str) (index : nat) : str := path ++ lit "[" ++ show (Z.of_nat index) ++ lit "]".

(** The rest of the work on a value of the left side: a path, the value of the
    right side, the output so far *)
Abbreviation Diff := (str → tree → list tree → list tree).

(** The loops of [diff_json] over the keys or the indices: for each the path, the
    value on the left with its comparison, and the value on the right *)
Fixpoint diff_loop (children : list (str * option (tree * Diff) * option tree)) (output : list tree) (limit : nat) : list tree :=
  match children with
  | [] => output
  | (next, l, r) :: children =>
      let output :=
        match l, r with
        | Some (_, diff), Some w => diff next w output
        | Some (v, _), None => output ++ [change next (summary_value v) Null]
        | None, Some w => output ++ [change next Null (summary_value w)]
        | None, None => output
        end in
      if (limit <=? length output)%nat then output else diff_loop children output limit
  end.

Fixpoint assoc {A} (l : list (str * A)) (k : str) : option A :=
  match l with
  | [] => None
  | (k', a) :: l => if bool_decide (k' = k) then Some a else assoc l k
  end.

Fixpoint diff_json (limit : nat) (left : tree) (path : str) (right : tree) (output : list tree) {struct left} : list tree :=
  if (limit <=? length output)%nat || value_eqb left right then output
  else
    match left, right with
    | Object l, Object r =>
        let subs := map (fun kv => let '(k, v) := kv in (k, (v, diff_json limit v))) l in
        diff_loop (map (fun key => (key_path path key, assoc subs key, obj_get r key)) (sorted_set (map fst l ++ map fst r)))
          output limit
    | Array l, Array r =>
        let subs := map (fun v => (v, diff_json limit v)) l in
        diff_loop (map (fun index => (index_path path index, subs !! index, r !! index)) (seq 0 (Nat.max (length l) (length r))))
          output limit
    | _, _ => output ++ [change path (summary_value left) (summary_value right)]
    end.

(** ** Definitions: selected paths and lines *)

Definition get_bool (v : tree) (key : str) : bool :=
  match v with Object o => match obj_get o key with Some (Bool b) => b | _ => false end | _ => false end.
Definition get_value (v : tree) (key : str) : tree :=
  match v with Object o => default Null (obj_get o key) | _ => Null end.

Fixpoint path_changes (left right : tree) (raw_paths : list str) (index : nat) (paths : list (list JsonPathSegment))
    (changes : list tree) (limited : bool) : list tree * bool :=
  match paths with
  | [] => (changes, limited)
  | segments :: paths =>
      let path := default (lit "$") (raw_paths !! index) in
      let left_result := extract_json_path of_usize left path segments in
      let right_result := extract_json_path of_usize right path segments in
      let limited := limited || (get_bool left_result (lit "truncated") || get_bool right_result (lit "truncated")) in
      let left_found := get_bool left_result (lit "found") in
      let right_found := get_bool right_result (lit "found") in
      let left_value := get_value left_result (lit "value") in
      let right_value := get_value right_result (lit "value") in
      let changes :=
        if negb (eqb left_found right_found) || negb (value_eqb left_value right_value) then
          changes ++ [Object [(lit "path", String path); (lit "leftFound", Bool left_found); (lit "rightFound", Bool right_found);
                              (lit "left", summary_value left_value); (lit "right", summary_value right_value)]]
        else changes in
      if (MAX_DIFF_CHANGES <=? length changes)%nat then (changes, true)
      else path_changes left right raw_paths (S index) paths changes limited
  end.

Definition opt_text (s : option str) : tree := match s with Some s => String (summary_text s) | None => Null end.

Fixpoint diff_lines_loop (left right : list str) (indices : list nat) (limit : nat) (output : list tree) : list tree * bool :=
  match indices with
  | [] => (output, false)
  | index :: indices =>
      if (limit <=? length output)%nat then (output, true)
      else
        diff_lines_loop left right indices limit
          (if bool_decide (left !! index = right !! index) then output
           else output ++ [Object [(lit "line", Number (of_usize (Z.of_nat index + 1))); (lit "left", opt_text (left !! index));
                                   (lit "right", opt_text (right !! index))]])
  end.

Definition diff_lines (left right : str) (limit : nat) : list tree * bool :=
  let left := lines left in
  let right := lines right in
  diff_lines_loop left right (seq 0 (Nat.max (length left) (length right))) limit [].

(** ** Definitions: maps *)

Record MapDiff := { md_added : list tree; md_removed : list tree; md_changed : list tree }.

Definition named_value (name value_ : str) : tree := Object [(lit "name", String name); (lit "value", String value_)].

Fixpoint map_diff_loop (left right : gmap str str) (keys : list str) (d : MapDiff) : MapDiff :=
  match keys with
  | [] => d
  | key :: keys =>
      map_diff_loop left right keys
        match left !! key, right !! key with
        | None, Some value_ =>
            {| md_added := md_added d ++ [named_value key value_]; md_removed := md_removed d; md_changed := md_changed d |}
        | Some value_, None =>
            {| md_added := md_added d; md_removed := md_removed d ++ [named_value key value_]; md_changed := md_changed d |}
        | Some l, Some r =>
            if bool_decide (l = r) then d
            else {| md_added := md_added d; md_removed := md_removed d;
                    md_changed := md_changed d ++ [Object [(lit "name", String key); (lit "left", String l); (lit "right", String r)]] |}
        | None, None => d
        end
  end.

Definition map_keys {A} (m : gmap str A) : list str := map fst (map_to_list m).

Definition map_diff (left right : gmap str str) : tree :=
  let d := map_diff_loop left right (sorted_set (map_keys left ++ map_keys right)) {| md_added := []; md_removed := []; md_changed := [] |} in
  Object [(lit "added", Array (md_added d)); (lit "removed", Array (md_removed d)); (lit "changed", Array (md_changed d))].

(** [as_f64] of both, and the number of their difference *)
Context (float_delta : number → number → tree).

Definition timing_diff (left right : gmap str tree) : tree :=
  Object
    (map (fun key =>
       let l := default Null (left !! key) in
       let r := default Null (right !! key) in
       (key, Object [(lit "left", l); (lit "right", r);
                     (lit "delta", match l, r with Number l, Number r => float_delta l r | _, _ => Null end)]))
     (sorted_set (map_keys left ++ map_keys right))).
End Diffs.

(** ** Definitions: bodies *)

Record OptionalBodyDiff := {
  ob_text : option str; ob_decoded_size : Z; ob_wire_size : Z; ob_mime_type : option str; ob_hash : option str;
  ob_capture_truncated : bool; ob_scan_truncated : bool
}.

Record BodyDiffOutcome (number : Type) := { bo_value : value number; bo_truncated : bool; bo_reasons : list str }.
Arguments bo_value {number}.
Arguments bo_truncated {number}.
Arguments bo_reasons {number}.

Section Bodies.
Context {number : Type} `{RedactionEnv number} `{!BodyAccess number} `{!JsonSource number} `{!BodyFiles number} `{EqDecision number}.

Abbreviation tree := (value number).

Definition read_optional_body (self : Redactor) (reference : option StoredBodyReference) (max_bytes : Z) (raw : bool)
    : result OptionalBodyDiff ToolError :=
  match reference with
  | None =>
      Ok {| ob_text := None; ob_decoded_size := 0; ob_wire_size := 0; ob_mime_type := None; ob_hash := None;
            ob_capture_truncated := false; ob_scan_truncated := false |}
  | Some reference =>
      let? body := read_body_bytes (number := number) reference 0 max_bytes in
      let text :=
        if utf8_valid (bb_bytes body) then Some (if raw then bb_bytes body else ro_value (redact_text self (bb_bytes body)))
        else None in
      Ok {| ob_text := text; ob_decoded_size := bb_decoded_size body; ob_wire_size := bb_wire_size body;
            ob_mime_type := mime_type reference; ob_hash := if raw then Some (sha256_hex (bb_bytes body)) else None;
            ob_capture_truncated := bb_capture_truncated body; ob_scan_truncated := bb_has_more body |}
  end.

Definition body_metadata (body : OptionalBodyDiff) : tree :=
  Object [(lit "present", Bool (bool_decide (ob_text body ≠ None))); (lit "decodedSizeBytes", Number (of_usize (ob_decoded_size body)));
          (lit "wireSizeBytes", Number (of_usize (ob_wire_size body))); (lit "contentType", json_opt (ob_mime_type body));
          (lit "hash", json_opt (ob_hash body)); (lit "captureTruncated", Bool (ob_capture_truncated body));
          (lit "scanTruncated", Bool (ob_scan_truncated body))].

Definition tool_error (code message : str) (details : list (str * value Z)) : ToolError :=
  {| te_code := code; te_message := message; te_retryable := false; te_details := details |}.

Definition body_too_large (left right : OptionalBodyDiff) : ToolError :=
  tool_error (lit "BODY_TOO_LARGE")
    (lit "Body comparison requires scanning each complete body, but at least one side exceeds the "
       ++ show COMPARE_BODY_SCAN_BYTES ++ lit "-byte scan limit.")
    [(lit "scanLimitBytes", Number COMPARE_BODY_SCAN_BYTES); (lit "leftScanTruncated", Bool (ob_scan_truncated left));
     (lit "rightScanTruncated", Bool (ob_scan_truncated right)); (lit "leftDecodedSizeBytes", Number (ob_decoded_size left));
     (lit "rightDecodedSizeBytes", Number (ob_decoded_size right))].

(** The differences, whether the structure was compared, and whether something
    was left out *)
Definition body_differences (left right : OptionalBodyDiff) (left_json right_json : option tree) (mode : DiffMode)
    (raw_paths : list str) (paths : list (list JsonPathSegment)) : tree * bool * bool :=
  let wants_json := bool_decide (mode = DiffJson) || negb (bool_decide (paths = [])) in
  match left_json, right_json with
  | Some l, Some r =>
      if wants_json || bool_decide (mode = DiffAuto) then
        if bool_decide (paths = []) then
          (Object [(lit "format", String (lit "json")); (lit "scope", String (lit "document"));
                   (lit "changes", Array (diff_json MAX_DIFF_CHANGES l (lit "$") r []))], true, false)
        else
          let '(changes, limited) := path_changes l r raw_paths 0 paths [] false in
          (Object [(lit "format", String (lit "json")); (lit "scope", String (lit "paths")); (lit "changes", Array changes)],
           true, limited)
      else
        match ob_text left, ob_text right with
        | Some lt, Some rt =>
            let '(lines, limited) := diff_lines lt rt MAX_DIFF_CHANGES in
            (Object [(lit "format", String (lit "text")); (lit "lines", Array lines)], false, limited)
        | _, _ => (Null, false, false)
        end
  | _, _ =>
      match ob_text left, ob_text right with
      | Some lt, Some rt =>
          let '(lines, limited) := diff_lines lt rt MAX_DIFF_CHANGES in
          (Object [(lit "format", String (lit "text")); (lit "lines", Array lines)], false, limited)
      | _, _ => (Null, false, false)
      end
  end.

Definition body_diff (left_id right_id : str) (left right : OptionalBodyDiff) (part : BodyPart) (mode : DiffMode)
    (raw_paths : list str) (paths : list (list JsonPathSegment)) : result (BodyDiffOutcome number) ToolError :=
  let reasons := if ob_capture_truncated left || ob_capture_truncated right then [lit "captureLimit"] else [] in
  if ob_scan_truncated left || ob_scan_truncated right then Err (body_too_large left right)
  else
    let left_json := text ← ob_text left; from_str text in
    let right_json := text ← ob_text right; from_str text in
    let wants_json := bool_decide (mode = DiffJson) || negb (bool_decide (paths = [])) in
    if wants_json && (bool_decide (left_json = None) || bool_decide (right_json = None)) then
      Err (tool_error (lit "BODY_NOT_JSON") (lit "Structured comparison requires JSON bodies on both sides.") [])
    else if bool_decide (mode = DiffText) && (bool_decide (ob_text left = None) || bool_decide (ob_text right = None)) then
      Err (tool_error (lit "BODY_NOT_TEXT") (lit "Text comparison requires UTF-8 bodies on both sides.") [])
    else
      let '(differences, structure_parsed, value_limited) :=
        body_differences left right left_json right_json mode raw_paths paths in
      let body_truncated := negb (bool_decide (reasons = [])) || value_limited in
      let reasons := sorted_set (reasons ++ if (value_limited : bool) then [lit "resultLimit"] else []) in
      Ok {| bo_value :=
              Object [(lit "part", String (part_label part)); (lit "leftSessionId", String left_id);
                      (lit "rightSessionId", String right_id); (lit "left", body_metadata left); (lit "right", body_metadata right);
                      (lit "structureParsed", Bool structure_parsed); (lit "differences", differences);
                      (lit "truncated", Bool body_truncated); (lit "truncatedReasons", json_strings reasons)];
            bo_truncated := body_truncated; bo_reasons := reasons |}.

(** ** Definitions: sessions *)

Record SessionSnapshot := {
  sn_summary : SessionSummaryRow; sn_request_headers : gmap str str; sn_response_headers : gmap str str;
  sn_query : gmap str str; sn_cookies : gmap str str; sn_timing : gmap str tree
}.

(** [collect] into a [BTreeMap]: the last entry of a name counts. *)
Definition collect_entries_map (entries : list HeaderEntry) : gmap str str :=
  foldl (fun m e => <[to_lowercase (he_name e) := he_value e]> m) ∅ entries.

Definition parsed_entries (json : str) : list HeaderEntry := default [] (entries_from_str json).

Definition header_map (self : Redactor) (json : str) (raw : bool) : gmap str str :=
  collect_entries_map (if raw then parsed_entries json else ro_value (redact_headers_json self json)).

Definition entry_map (self : Redactor) (json : str) (raw : bool) : gmap str str :=
  collect_entries_map (if raw then parsed_entries json else ro_value (redact_key_value_json self json)).

Definition cookie_map (json : str) (raw : bool) : gmap str str :=
  let entries := parsed_entries json in
  collect_entries_map (if raw then entries else ro_value (redact_cookie_headers entries)).

Definition timing_map (timing : option tree) : gmap str tree :=
  match timing with Some (Object o) => foldl (fun m kv => <[kv.1 := kv.2]> m) ∅ o | _ => ∅ end.

Definition session_not_found (session_id : str) : ToolError :=
  tool_error (lit "SESSION_NOT_FOUND") (lit "session not found: " ++ session_id) [].

Definition load_snapshot (self : Redactor) (db : CompareDb number) (session_id : str) (raw : bool)
    : result SessionSnapshot ToolError :=
  let? summary := cd_summary db session_id in
  let? summary := ok_or summary (session_not_found session_id) in
  let? detail := cd_detail db session_id in
  Ok match detail with
     | Some detail =>
         {| sn_summary := summary; sn_request_headers := header_map self (dr_request_headers detail) raw;
            sn_response_headers := header_map self (dr_response_headers detail) raw;
            sn_query := entry_map self (dr_query_params detail) raw; sn_cookies := cookie_map (dr_cookies detail) raw;
            sn_timing := timing_map (dr_timing detail) |}
     | None =>
         {| sn_summary := summary; sn_request_headers := ∅; sn_response_headers := ∅; sn_query := ∅; sn_cookies := ∅;
            sn_timing := ∅ |}
     end.

Definition summary_field (name : str) (left right : tree) : str * tree :=
  (name, Object [(lit "left", left); (lit "right", right); (lit "changed", Bool (negb (value_eqb left right)))]).

Definition summary_diff (self : Redactor) (left right : SessionSummaryRow) (raw : bool) : tree :=
  let both name (f : SessionSummaryRow → tree) := summary_field name (f left) (f right) in
  Object [both (lit "statusCode") (fun s => Number (of_usize (sr_status_code s)));
          both (lit "durationMs") (fun s => Number (of_usize (sr_duration_ms s)));
          both (lit "sizeBytes") (fun s => Number (of_usize (sr_size_bytes s)));
          both (lit "protocol") (fun s => String (sr_protocol s)); both (lit "httpVersion") (fun s => String (sr_http_version s));
          both (lit "responseMimeType") (fun s => json_opt (sr_response_mime_type s));
          both (lit "url") (fun s => String (if raw then sr_url s else redact_url self (sr_url s)))].

(** ** Definitions: the tool *)

Context `{AgentHost} (float_delta : number → number → tree).

Definition compared_sessions (request : CompareSessionsRequest) : list str :=
  [cq_left_session_id request; cq_right_session_id request].

(** The permissions: sessions, bodies if one is compared *)
Definition compare_access (request : CompareSessionsRequest) : result AgentAccessConfig ToolError :=
  let? config := access_config in
  if negb (ac_allows config ReadSessions) then
    Err (tool_error (lit "PERMISSION_DENIED")
      (lit "Session reading is disabled. Enable readSessions in AIProxy Settings > Agent Access.") [])
  else if cq_include_body request then
    ensure_capability ReadBodies
      (lit "Compare bodies for sessions " ++ cq_left_session_id request ++ lit " and " ++ cq_right_session_id request)
      (compared_sessions request) (lit "Comparing response bodies requires temporary body access.")
  else Ok config.

Definition compare_arguments (request : CompareSessionsRequest) : result (list (list JsonPathSegment)) ToolError :=
  if negb session_details then
    Err (tool_error (lit "SCHEMA_INCOMPATIBLE")
      (lit "Session comparison is unavailable until AIProxy migrates the database. Open AIProxy once, then retry.") [])
  else if negb (cq_include_body request) && negb (bool_decide (cq_json_paths request = [])) then
    Err (invalid (lit "jsonPaths requires includeBody=true."))
  else if bool_decide (cq_diff_mode request = DiffText) && negb (bool_decide (cq_json_paths request = [])) then
    Err (invalid (lit "jsonPaths cannot be combined with diffMode=text."))
  else parse_json_paths (cq_json_paths request).

Definition compare_raw (request : CompareSessionsRequest) : result unit ToolError :=
  if cq_raw request then
    let? _ :=
      ensure_capability ReadRawBodies
        (lit "Compare unredacted sessions " ++ cq_left_session_id request ++ lit " and " ++ cq_right_session_id request)
        (compared_sessions request) (lit "Raw comparison can expose credentials and personal data.") in
    Ok tt
  else Ok tt.

Definition compare_bodies (self : Redactor) (db : CompareDb number) (request : CompareSessionsRequest)
    (left right : SessionSummaryRow) (paths : list (list JsonPathSegment)) : result (BodyDiffOutcome number) ToolError :=
  let part := default ResponsePart (cq_body_part request) in
  let? left_body := db_body_reference (cd_sessions db) (sr_id left) part in
  let? right_body := db_body_reference (cd_sessions db) (sr_id right) part in
  let? left_result := read_optional_body self left_body COMPARE_BODY_SCAN_BYTES (cq_raw request) in
  let? right_result := read_optional_body self right_body COMPARE_BODY_SCAN_BYTES (cq_raw request) in
  body_diff (sr_id left) (sr_id right) left_result right_result part (cq_diff_mode request) (cq_json_paths request) paths.

Definition snapshots_diff (self : Redactor) (left right : SessionSnapshot) (raw : bool) : list (str * tree) :=
  [(lit "leftSessionId", String (sr_id (sn_summary left))); (lit "rightSessionId", String (sr_id (sn_summary right)));
   (lit "summaryDiff", summary_diff self (sn_summary left) (sn_summary right) raw);
   (lit "headerDiff", Object [(lit "request", map_diff (sn_request_headers left) (sn_request_headers right));
                              (lit "response", map_diff (sn_response_headers left) (sn_response_headers right))]);
   (lit "queryDiff", map_diff (sn_query left) (sn_query right)); (lit "cookieDiff", map_diff (sn_cookies left) (sn_cookies right));
   (lit "timingDiff", timing_diff float_delta (sn_timing left) (sn_timing right))].

Definition compare_sessions (db : CompareDb number) (request : CompareSessionsRequest) : result (tree * ToolMeta) ToolError :=
  let? config := compare_access request in
  let? json_paths := compare_arguments request in
  let? _ := compare_raw request in
  let? self := redactor_of config in
  let? left_id := require_session_id (cd_sessions db) (cq_left_session_id request) in
  let? right_id := require_session_id (cd_sessions db) (cq_right_session_id request) in
  if bool_decide (left_id = right_id) then Err (invalid (lit "leftSessionId and rightSessionId must be different."))
  else
    let raw := cq_raw request in
    let? l := load_snapshot self db left_id raw in
    let? r := load_snapshot self db right_id raw in
    let data := snapshots_diff self l r raw in
    if cq_include_body request then
      let? outcome := compare_bodies self db request (sn_summary l) (sn_summary r) json_paths in
      Ok (Object (data ++ [(lit "bodyDiff", bo_value outcome); (lit "truncatedReasons", json_strings (sorted_set (bo_reasons outcome)))]),
          new_meta (bo_truncated outcome) (negb raw) None)
    else Ok (Object (data ++ [(lit "truncatedReasons", json_strings [])]), new_meta false (negb raw) None).
End Bodies.
