(* ===== verification/CompareFacts.v ===== *)
(** * CompareFacts: what the comparison of two sessions reports

    About Compare: the changes reported for two JSON documents are the places where
    they differ; what a redacted comparison answers does not depend on masked
    values. *)

From S2P Require Import Prelude Str AgentGrants.
From S2P Require Import JsonPath Rewrite Utf8 TextSearch Redaction RedactedSearch BodyPaths BodyStream BodyLookup BodyTools BodyToolsFacts AgentConfig AgentConfigFacts Compare.

(** ** The specification

    A place in a document is a list of steps.  Two documents differ at a place when
    all the containers on the way are of one kind in both, and there either one side
    has no value, or the values are not containers of one kind and not equal. *)

Inductive Step := AtKey (key : str) | AtIndex (index : nat).

Section Places.
Context {number : Type} `{EqDecision number}.

Abbreviation tree := (value number).

Definition child (v : tree) (s : Step) : option tree :=
  match s, v with
  | AtKey k, Object o => obj_get o k
  | AtIndex i, Array l => l !! i
  | _, _ => None
  end.

Fixpoint at_place (v : tree) (p : list Step) : option tree :=
  match p with
  | [] => Some v
  | s :: p => u ← child v s; at_place u p
  end.

Definition same_kind (v w : tree) : bool :=
  match v, w with Object _, Object _ | Array _, Array _ => true | _, _ => false end.

Definition clash (a b : option tree) : Prop :=
  match a, b with
  | Some u, Some w => same_kind u w = false ∧ value_eqb u w = false
  | None, None => False
  | _, _ => True
  end.

Definition differs_at (left right : tree) (p : list Step) (a b : option tree) : Prop :=
  at_place left p = a ∧ at_place right p = b ∧ clash a b ∧
  ∀ q, q `prefix_of` p → q ≠ p → ∃ u w, at_place left q = Some u ∧ at_place right q = Some w ∧ same_kind u w = true.

Lemma differs_here v w a b : differs_at v w [] a b ↔ a = Some v ∧ b = Some w ∧ same_kind v w = false ∧ value_eqb v w = false.
Proof.
  unfold differs_at. cbn [at_place]. split.
  - intros (<- & <- & [? ?] & _). done.
  - intros (-> & -> & ? & ?). split_and!; try done. intros q Hq%prefix_nil_inv. done.
Qed.

Lemma differs_step v w s p a b :
  differs_at v w (s :: p) a b ↔
  same_kind v w = true ∧
  match child v s, child w s with
  | Some v', Some w' => differs_at v' w' p a b
  | a', b' => p = [] ∧ a = a' ∧ b = b' ∧ clash a' b'
  end.
Proof.
  unfold differs_at. split.
  - intros (Ha & Hb & Hc & Hq). destruct (Hq []) as (? & ? & [= <-] & [= <-] & Hk); [apply prefix_nil|done|].
    split; [done|]. cbn [at_place] in Ha, Hb.
    destruct (child v s) as [v'|] eqn:Hv, (child w s) as [w'|] eqn:Hw; cbn [mbind option_bind] in Ha, Hb.
    + split_and!; try done. intros q Hpre Hne. destruct (Hq (s :: q)) as (u & x & Hu & Hx & Hk'); [by apply prefix_cons|congruence|].
      cbn [at_place] in Hu, Hx. rewrite Hv in Hu. rewrite Hw in Hx. eauto.
    + destruct p; [cbn in *; subst; done|]. destruct (Hq [s]) as (u & x & Hu & Hx & _); [by apply prefix_cons, prefix_nil|done|].
      cbn [at_place] in Hx. by rewrite Hw in Hx.
    + destruct p; [cbn in *; subst; done|]. destruct (Hq [s]) as (u & x & Hu & Hx & _); [by apply prefix_cons, prefix_nil|done|].
      cbn [at_place] in Hu. by rewrite Hv in Hu.
    + subst. done.
  - intros [Hk Hc]. cbn [at_place].
    destruct (child v s) as [v'|] eqn:Hv, (child w s) as [w'|] eqn:Hw; cbn [mbind option_bind].
    + destruct Hc as (Ha & Hb & Hc & Hq). split_and!; try done. intros q Hpre Hne.
      destruct q as [|s' q]; [by exists v, w|]. apply prefix_cons_inv_1 in Hpre as Hs. apply prefix_cons_inv_2 in Hpre. subst s'.
      cbn [at_place]. rewrite Hv, Hw. apply Hq; [done|congruence].
    + destruct Hc as (-> & -> & -> & Hc). split_and!; try done. intros q Hpre Hne.
      destruct q as [|s' q]; [by exists v, w|]. apply prefix_cons_inv_1 in Hpre as Hs. apply prefix_cons_inv_2, prefix_nil_inv in Hpre. congruence.
    + destruct Hc as (-> & -> & -> & Hc). split_and!; try done. intros q Hpre Hne.
      destruct q as [|s' q]; [by exists v, w|]. apply prefix_cons_inv_1 in Hpre as Hs. apply prefix_cons_inv_2, prefix_nil_inv in Hpre. congruence.
    + destruct Hc as (_ & _ & _ & []).
Qed.

(** ** Equal documents *)

Lemma array_eqb (l : list tree) : ∀ r, value_eqb (Array l) (Array r) = true ↔ Forall2 (fun v w => value_eqb v w = true) l r.
Proof.
  induction l as [|v l IH]; intros [|w r].
  - split; [constructor|done].
  - split; [done|inversion 1].
  - split; [done|inversion 1].
  - cbn [value_eqb]. rewrite andb_true_iff, Forall2_cons. specialize (IH r). cbn [value_eqb] in IH. by rewrite IH.
Qed.

Lemma object_eqb (o p : list (str * tree)) :
  value_eqb (Object o) (Object p) = true ↔
  length o = length p ∧ ∀ k v, (k, v) ∈ o → ∃ w, obj_get p k = Some w ∧ value_eqb v w = true.
Proof.
  cbn [value_eqb]. rewrite andb_true_iff, Nat.eqb_eq, forallb_forall. f_equiv. split.
  - intros Hf k v Hin%list_elem_of_In. specialize (Hf _ Hin). cbn in Hf. destruct (obj_get p k); [eauto|done].
  - intros Hf [k v] Hin%list_elem_of_In. by destruct (Hf k v Hin) as (w & -> & ?).
Qed.

Lemma keys_fill (o p : list (str * tree)) :
  NoDup (map fst o) → length o = length p → (∀ k, k ∈ map fst o → k ∈ map fst p) → ∀ k, k ∈ map fst p → k ∈ map fst o.
Proof.
  intros Hn Hl Hin k Hk. pose proof (NoDup_submseteq _ _ Hn Hin) as Hs.
  apply submseteq_length_Permutation in Hs; [by rewrite Hs|]. rewrite !length_map. lia.
Qed.

Lemma obj_get_in (o : list (str * tree)) k : k ∈ map fst o ↔ is_Some (obj_get o k).
Proof.
  rewrite <- not_eq_None_Some, obj_get_None. destruct (decide (k ∈ map fst o)); tauto.
Qed.

Lemma eqb_child v w s :
  wf v → wf w → value_eqb v w = true →
  match child v s, child w s with
  | Some v', Some w' => value_eqb v' w' = true
  | None, None => True
  | _, _ => False
  end.
Proof.
  intros Hv Hw Heq. destruct s as [k|i]; cbn [child].
  - destruct v as [| | | |l|o], w as [| | | |r|p]; try done.
    apply object_eqb in Heq as [Hl Hf]. inversion Hv as [| | | | |? Hno _]; inversion Hw as [| | | | |? Hnp _]; subst.
    destruct (obj_get o k) as [v'|] eqn:Hk.
    + apply (obj_get_elem o k v' Hno) in Hk. by destruct (Hf k v' Hk) as (w' & -> & ?).
    + destruct (obj_get p k) as [w'|] eqn:Hpk; [|done]. assert (k ∈ map fst o) as Hko; [|by apply obj_get_None in Hk].
      apply (keys_fill o p); [done|done| |apply obj_get_in; eauto].
      intros k' Hk'. apply obj_get_in in Hk' as [x Hx]. apply (obj_get_elem o k' x Hno), Hf in Hx as (w'' & Hx & _).
      apply obj_get_in. eauto.
  - destruct v as [| | | |l|o], w as [| | | |r|p]; try done. apply array_eqb in Heq.
    destruct (l !! i) as [v'|] eqn:Hi.
    + destruct (Forall2_lookup_l _ _ _ _ _ Heq Hi) as (w' & -> & ?). done.
    + destruct (r !! i) as [w'|] eqn:Hr; [|done]. destruct (Forall2_lookup_r _ _ _ _ _ Heq Hr) as (v' & ? & _). congruence.
Qed.

Lemma child_wf v s u : wf v → child v s = Some u → wf u.
Proof.
  intros Hv Hc. destruct s as [k|i], v as [| | | |l|o]; try done; inversion Hv as [| | | |? Hf|? Hn Hf]; subst; cbn [child] in Hc.
  - apply (obj_get_elem _ _ _ Hn) in Hc. rewrite Forall_forall in Hf. by apply (Hf _ Hc).
  - apply list_elem_of_lookup_2 in Hc. rewrite Forall_forall in Hf. by apply Hf.
Qed.

Lemma eqb_differs_nowhere p : ∀ v w a b, wf v → wf w → value_eqb v w = true → ¬ differs_at v w p a b.
Proof.
  induction p as [|s p IH]; intros v w a b Hv Hw Heq.
  { rewrite differs_here. intros (_ & _ & _ & Hne). congruence. }
  rewrite differs_step. intros [_ Hc]. pose proof (eqb_child v w s Hv Hw Heq) as He.
  destruct (child v s) as [v'|] eqn:Hcv, (child w s) as [w'|] eqn:Hcw; try done; [|by destruct Hc as (_ & _ & _ & [])].
  by eapply IH; [eapply child_wf, Hcv|eapply child_wf, Hcw|exact He|exact Hc].
Qed.
End Places.

(** ** All differences, in order *)

Section Reference.
Context {number : Type} `{RedactionEnv number} `{EqDecision number}.

Abbreviation tree := (value number).
Abbreviation Difference := (list Step * option (value number) * option (value number))%type.

Definition under (s : Step) (ds : list Difference) : list Difference :=
  map (fun d => let '(p, a, b) := d in (s :: p, a, b)) ds.

Definition child_differences (l : option (tree * (tree → list Difference))) (r : option tree) : list Difference :=
  match l, r with
  | Some (_, f), Some w => f w
  | Some (v, _), None => [([], Some v, None)]
  | None, Some w => [([], None, Some w)]
  | None, None => []
  end.

Fixpoint differences (v w : tree) {struct v} : list Difference :=
  if value_eqb v w then []
  else
    match v, w with
    | Object o, Object p =>
        let subs := map (fun kv => let '(k, v) := kv in (k, (v, differences v))) o in
        concat (map (fun key => under (AtKey key) (child_differences (assoc subs key) (obj_get p key)))
                  (sorted_set (map fst o ++ map fst p)))
    | Array l, Array r =>
        let subs := map (fun v => (v, differences v)) l in
        concat (map (fun i => under (AtIndex i) (child_differences (subs !! i) (r !! i))) (seq 0 (Nat.max (length l) (length r))))
    | _, _ => [([], Some v, Some w)]
    end.

Lemma assoc_map {A} (f : tree → A) (o : list (str * tree)) k :
  assoc (map (fun kv => let '(k, v) := kv in (k, f v)) o) k = f <$> obj_get o k.
Proof. induction o as [|[k' v] o IH]; cbn; [done|]. by case_bool_decide. Qed.

(** The children of two containers of one kind *)
Definition steps (v w : tree) : list Step :=
  match v, w with
  | Object o, Object p => map AtKey (sorted_set (map fst o ++ map fst p))
  | Array l, Array r => map AtIndex (seq 0 (Nat.max (length l) (length r)))
  | _, _ => []
  end.

Definition with_rest {A} (f : tree → A) (v : option tree) : option (tree * A) := (fun v => (v, f v)) <$> v.

Lemma differences_children v w : same_kind v w = true → value_eqb v w = false →
  differences v w = concat (map (fun s => under s (child_differences (with_rest differences (child v s)) (child w s))) (steps v w)).
Proof.
  intros Hk Hne. destruct v as [| | | |l|o], w as [| | | |r|p]; try done; cbn [differences steps]; rewrite Hne, map_map; f_equal; apply map_ext.
  - intros i. cbn [child]. unfold with_rest. by rewrite list_lookup_fmap.
  - intros k. cbn [child]. unfold with_rest. by rewrite (assoc_map (fun v => (v, differences v))).
Qed.

Lemma differences_leaf v w : same_kind v w = false → value_eqb v w = false → differences v w = [([], Some v, Some w)].
Proof. intros Hk Hne. destruct v, w; try done; cbn [differences]; by rewrite Hne. Qed.

Lemma differences_equal v w : value_eqb v w = true → differences v w = [].
Proof. intros He. destruct v; cbn [differences]; by rewrite He. Qed.

Lemma elem_of_steps v w s : same_kind v w = true → s ∈ steps v w ↔ is_Some (child v s) ∨ is_Some (child w s).
Proof.
  intros Hk. destruct v as [| | | |l|o], w as [| | | |r|p]; try done; cbn [steps].
  - destruct s as [k|i]; cbn [child].
    { rewrite list_elem_of_fmap. split; [by intros (? & ? & _)|by intros [[? ?]|[? ?]]]. }
    rewrite list_elem_of_fmap, !lookup_lt_is_Some. split.
    + intros (j & [= <-] & Hj%elem_of_seq). lia.
    + intros Hi. exists i. split; [done|]. apply elem_of_seq. lia.
  - destruct s as [k|i]; cbn [child]; [|rewrite list_elem_of_fmap; split; [by intros (? & ? & _)|by intros [[? ?]|[? ?]]]].
    rewrite list_elem_of_fmap, <- !obj_get_in, <- elem_of_app. split.
    + intros (k' & [= <-] & Hk'). by apply elem_of_sorted_set.
    + intros Hin. exists k. split; [done|]. by apply elem_of_sorted_set.
Qed.

Lemma elem_of_under s ds q a b : (q, a, b) ∈ under s ds ↔ ∃ p, q = s :: p ∧ (p, a, b) ∈ ds.
Proof.
  unfold under. rewrite list_elem_of_fmap. split.
  - intros ([[p a'] b'] & [= -> -> ->] & Hin). eauto.
  - intros (p & -> & Hin). exists (p, a, b). done.
Qed.

(** The children of a value satisfy what holds by induction. *)
Lemma child_ind (P : tree → Prop) v :
  match v with Array l => Forall P l | Object o => Forall (fun kv => P kv.2) o | _ => True end →
  ∀ s u, child v s = Some u → P u.
Proof.
  intros HP s u Hc. destruct s as [k|i], v as [| | | |l|o]; try done; cbn [child] in Hc.
  - by eapply (obj_get_Forall P) in Hc.
  - eapply Forall_lookup_1 in HP; eauto.
Qed.

Lemma child_differences_spec v w s p a b :
  (∀ u, child v s = Some u → ∀ x q a b, wf u → wf x → (q, a, b) ∈ differences u x ↔ differs_at u x q a b) → wf v → wf w →
  (p, a, b) ∈ child_differences (with_rest differences (child v s)) (child w s) ↔
  match child v s, child w s with
  | Some v', Some w' => differs_at v' w' p a b
  | a', b' => p = [] ∧ a = a' ∧ b = b' ∧ clash a' b'
  end.
Proof.
  intros IH Hv Hw. destruct (child v s) as [v'|] eqn:Hcv, (child w s) as [w'|] eqn:Hcw; cbn [with_rest fmap option_fmap option_map child_differences clash].
  - apply IH; [done|by eapply child_wf, Hcv|by eapply child_wf, Hcw].
  - rewrite list_elem_of_singleton. naive_solver.
  - rewrite list_elem_of_singleton. naive_solver.
  - split; [by intros ?%not_elem_of_nil|by intros (_ & _ & _ & [])].
Qed.

Lemma differences_step v :
  (∀ s u, child v s = Some u → ∀ x q a b, wf u → wf x → (q, a, b) ∈ differences u x ↔ differs_at u x q a b) →
  ∀ w p a b, wf v → wf w → (p, a, b) ∈ differences v w ↔ differs_at v w p a b.
Proof.
  intros HC w p a b Hv Hw. destruct (value_eqb v w) eqn:Heq.
  { rewrite (differences_equal v w Heq). split; [by intros ?%not_elem_of_nil|]. intros Hd. by apply eqb_differs_nowhere in Hd. }
  destruct (same_kind v w) eqn:Hk.
  2:{ rewrite (differences_leaf v w Hk Heq), list_elem_of_singleton.
      destruct p as [|s p]; [rewrite differs_here; split; [intros [= -> ->]; done|by intros (-> & -> & _)]|].
      rewrite differs_step. split; [done|]. intros [? _]. congruence. }
  rewrite differences_children by done. rewrite elem_of_concat_map. split.
  - intros (s & Hs & Hu). apply elem_of_under in Hu as (q & -> & Hin). rewrite differs_step. split; [done|].
    apply child_differences_spec in Hin; [done| |done|done]. intros u Hu. by apply (HC s).
  - destruct p as [|s p]; [rewrite differs_here; intros (_ & _ & ? & _); congruence|]. rewrite differs_step. intros [_ Hc]. exists s. split.
    + apply elem_of_steps; [done|]. destruct (child v s), (child w s); [by left|by left|by right|by destruct Hc as (_ & _ & _ & [])].
    + apply elem_of_under. exists p. split; [done|]. apply child_differences_spec; [|done..]. intros u Hu. by apply (HC s).
Qed.

Lemma differences_spec v : ∀ w p a b, wf v → wf w → (p, a, b) ∈ differences v w ↔ differs_at v w p a b.
Proof.
  induction v as [|b0|n|s0|items IH|o IH] using value_ind'; apply differences_step;
    apply (child_ind (fun u => ∀ x q a b, wf u → wf x → (q, a, b) ∈ differences u x ↔ differs_at u x q a b)); done.
Qed.

(** Containers whose children agree are equal. *)
Lemma children_eqb (v w : tree) :
  wf v → wf w → same_kind v w = true →
  (∀ s, match child v s, child w s with
        | Some v', Some w' => value_eqb v' w' = true
        | None, None => True
        | _, _ => False
        end) → value_eqb v w = true.
Proof.
  intros Hv Hw Hk Hc. destruct v as [| | | |l|o], w as [| | | |r|p]; try done.
  - apply array_eqb, Forall2_same_length_lookup. split.
    + apply Nat.le_antisymm; apply Nat.nlt_ge; intros Hlt.
      * apply lookup_lt_is_Some_2 in Hlt as [x Hx]. specialize (Hc (AtIndex (length r))). cbn [child] in Hc.
        rewrite Hx, lookup_ge_None_2 in Hc by done. done.
      * apply lookup_lt_is_Some_2 in Hlt as [x Hx]. specialize (Hc (AtIndex (length l))). cbn [child] in Hc.
        rewrite Hx, lookup_ge_None_2 in Hc by done. done.
    + intros i x y Hx Hy. specialize (Hc (AtIndex i)). cbn [child] in Hc. by rewrite Hx, Hy in Hc.
  - inversion Hv as [| | | | |? Hno _]; inversion Hw as [| | | | |? Hnp _]; subst. apply object_eqb. split.
    + assert (map fst o ≡ₚ map fst p) as Hp; [|apply Permutation_length in Hp; by rewrite !length_map in Hp].
      apply NoDup_Permutation; [done..|]. intros k. rewrite !obj_get_in. specialize (Hc (AtKey k)). cbn [child] in Hc.
      by destruct (obj_get o k), (obj_get p k).
    + intros k v Hin. specialize (Hc (AtKey k)). cbn [child] in Hc. apply (obj_get_elem o k v Hno) in Hin. rewrite Hin in Hc.
      destruct (obj_get p k); [eauto|done].
Qed.

Lemma concat_map_nil {A B} (f : A → list B) l x : concat (map f l) = [] → x ∈ l → f x = [].
Proof.
  induction l as [|y l IH]; [by intros _ ?%not_elem_of_nil|]. cbn. intros [Hy Hl]%app_nil. intros [->|Hx]%elem_of_cons; auto.
Qed.

Lemma no_differences_step (v : tree) :
  (∀ s u, child v s = Some u → ∀ x, wf u → wf x → differences u x = [] → value_eqb u x = true) →
  ∀ w, wf v → wf w → differences v w = [] → value_eqb v w = true.
Proof.
  intros HC w Hv Hw Hd. destruct (value_eqb v w) eqn:Heq; [done|].
  destruct (same_kind v w) eqn:Hk; [|by rewrite (differences_leaf v w Hk Heq) in Hd]. rewrite <- Heq.
  rewrite (differences_children v w Hk Heq) in Hd. apply children_eqb; [done..|]. intros s.
  assert (is_Some (child v s) ∨ is_Some (child w s) → child_differences (with_rest differences (child v s)) (child w s) = []) as Hs.
  { intros Hsome. apply (elem_of_steps v w s Hk) in Hsome. pose proof (concat_map_nil _ _ _ Hd Hsome) as Hu.
    by apply map_eq_nil in Hu. }
  destruct (child v s) as [u|] eqn:Hu, (child w s) as [x|] eqn:Hx; try done; cbn in Hs.
  - eapply HC; [done|by eapply child_wf, Hu|by eapply child_wf, Hx|]. apply Hs. by left.
  - discriminate Hs. by left.
  - discriminate Hs. by right.
Qed.

(** No difference is found only between equal documents. *)
Lemma no_differences (v : tree) : ∀ w, wf v → wf w → differences v w = [] → value_eqb v w = true.
Proof.
  induction v as [|b0|n|s0|items IH|o IH] using value_ind'; apply no_differences_step;
    apply (child_ind (fun u => ∀ x, wf u → wf x → differences u x = [] → value_eqb u x = true)); done.
Qed.

(** ** The optimised walk *)

Definition step_path (path : str) (s : Step) : str :=
  match s with AtKey k => key_path path k | AtIndex i => index_path path i end.

Definition place_path (path : str) (p : list Step) : str := foldl step_path path p.

Definition shown_side (v : option tree) : tree := match v with Some v => summary_value v | None => Null end.

(** How a difference is reported *)
Definition shown (path : str) (d : Difference) : tree :=
  let '(p, a, b) := d in change (place_path path p) (shown_side a) (shown_side b).

Lemma shown_under path s ds : map (shown path) (under s ds) = map (shown (step_path path s)) ds.
Proof. unfold under. rewrite map_map. apply map_ext. by intros [[p a] b]. Qed.

(** One child of the loop *)
Definition loop_child (limit : nat) (path : str) (v w : tree) (s : Step) : str * option (tree * (str → tree → list tree → list tree)) * option tree :=
  (step_path path s, with_rest (diff_json limit) (child v s), child w s).

Definition walks (limit : nat) (u : tree) : Prop := ∀ path x output,
  diff_json limit u path x output = output ++ take (limit - length output) (map (shown path) (differences u x)).

Lemma diff_loop_spec limit path v w ss : ∀ output,
  (∀ s u, child v s = Some u → walks limit u) → (length output < limit)%nat →
  diff_loop (map (loop_child limit path v w) ss) output limit =
    output ++ take (limit - length output)
      (map (shown path) (concat (map (fun s => under s (child_differences (with_rest differences (child v s)) (child w s))) ss))).
Proof.
  induction ss as [|s ss IH]; intros output Hw Hlim.
  { cbn [map concat diff_loop]. by rewrite take_nil, app_nil_r. }
  cbn [map concat]. rewrite map_app, shown_under. cbn [diff_loop loop_child].
  set (out := match with_rest _ (child v s), child w s with Some (_, diff), Some w0 => _ | Some (v0, _), None => _ | None, Some w0 => _ | None, None => _ end).
  assert (out = output ++ take (limit - length output)
    (map (shown (step_path path s)) (child_differences (with_rest differences (child v s)) (child w s)))) as Hout.
  { unfold out. destruct (child v s) as [u|] eqn:Hu, (child w s) as [x|]; cbn [with_rest fmap option_fmap option_map child_differences].
    - by apply (Hw s u).
    - cbn [map shown place_path foldl shown_side]. by rewrite take_ge by (cbn; lia).
    - cbn [map shown place_path foldl shown_side]. by rewrite take_ge by (cbn; lia).
    - cbn [map]. by rewrite take_nil, app_nil_r. }
  rewrite Hout. clearbody out. clear Hout out.
  set (here := map (shown (step_path path s)) _). set (rest := map (shown path) _).
  rewrite length_app, length_take.
  destruct (Nat.leb_spec limit (length output + Nat.min (limit - length output) (length here))) as [Hge|Hlt].
  - f_equal. rewrite take_app_le; [done|]. lia.
  - rewrite IH; [|done|rewrite length_app, length_take; lia]. rewrite <- app_assoc. f_equal. rewrite take_app_ge by lia.
    rewrite !take_ge with (l := here) by lia. f_equal. fold rest. f_equal. rewrite length_app. lia.
Qed.

Lemma diff_json_children limit v w path output : same_kind v w = true → value_eqb v w = false →
  diff_json limit v path w output =
    if (limit <=? length output)%nat then output else diff_loop (map (loop_child limit path v w) (steps v w)) output limit.
Proof.
  intros Hk Hne. destruct v as [| | | |l|o], w as [| | | |r|p]; try done; cbn [diff_json steps]; rewrite Hne, orb_false_r;
    destruct (limit <=? length output)%nat; try done; f_equal; rewrite map_map; apply map_ext; [intros i|intros k];
    unfold loop_child, with_rest; cbn [child step_path].
  - by rewrite list_lookup_fmap.
  - by rewrite (assoc_map (fun v => (v, diff_json limit v))).
Qed.

Lemma walks_step limit v : (∀ s u, child v s = Some u → walks limit u) → walks limit v.
Proof.
  intros HC path w output. destruct (Nat.leb_spec limit (length output)) as [Hge|Hlt].
  { replace (limit - length output)%nat with 0%nat by lia. rewrite take_0, app_nil_r.
    destruct v; cbn [diff_json]; by rewrite (proj2 (Nat.leb_le _ _) Hge). }
  destruct (value_eqb v w) eqn:Heq.
  { rewrite (differences_equal v w Heq). cbn [map]. rewrite take_nil, app_nil_r.
    destruct v; cbn [diff_json]; by rewrite Heq, orb_true_r. }
  destruct (same_kind v w) eqn:Hk.
  - rewrite diff_json_children by done. rewrite (proj2 (Nat.leb_gt _ _) Hlt), diff_loop_spec by done.
    by rewrite differences_children.
  - rewrite (differences_leaf v w Hk Heq). cbn [map shown place_path foldl shown_side]. rewrite take_ge by (cbn; lia).
    destruct v, w; try done; cbn [diff_json]; by rewrite (proj2 (Nat.leb_gt _ _) Hlt), Heq.
Qed.

Lemma diff_json_walks limit v : walks limit v.
Proof.
  induction v as [|b0|n|s0|items IH|o IH] using value_ind'; apply walks_step; apply (child_ind (walks limit)); done.
Qed.

(** ** Every place once *)

Lemma steps_nodup v w : NoDup (steps v w).
Proof.
  destruct v, w; cbn [steps]; try apply NoDup_nil_2.
  - apply NoDup_fmap_2; [by intros i j [= ->]|apply NoDup_seq].
  - apply NoDup_fmap_2; [by intros k k' [= ->]|apply sorted_set_nodup].
Qed.

Abbreviation places ds := (map (fun d : Difference => d.1.1) ds).

Lemma places_under s ds : places (under s ds) = map (cons s) (places ds).
Proof. unfold under. rewrite !map_map. apply map_ext. by intros [[p a] b]. Qed.

Lemma concat_under_nodup (f : Step → list Difference) ss :
  NoDup ss → (∀ s, s ∈ ss → NoDup (places (f s))) → NoDup (places (concat (map (fun s => under s (f s)) ss))).
Proof.
  induction 1 as [|s ss Hs Hn IH]; intros Hf; cbn [map concat]; [constructor|]. rewrite map_app, places_under. apply NoDup_app. split_and!.
  - apply NoDup_fmap_2; [by intros p q [= ->]|]. apply Hf. by left.
  - intros p (q & -> & _)%list_elem_of_fmap (([p' a] & b) & Hd & Hin)%list_elem_of_fmap. cbn in Hd. subst p'.
    apply elem_of_concat_map in Hin as (s' & Hs' & (q' & [= -> ->] & _)%elem_of_under). done.
  - apply IH. intros s' Hs'. apply Hf. by right.
Qed.

Lemma differences_nodup_step v :
  (∀ s u, child v s = Some u → ∀ x, NoDup (places (differences u x))) → ∀ w, NoDup (places (differences v w)).
Proof.
  intros HC w. destruct (value_eqb v w) eqn:Heq; [rewrite differences_equal by done; constructor|].
  destruct (same_kind v w) eqn:Hk; [|rewrite differences_leaf by done; apply NoDup_singleton].
  rewrite differences_children by done. apply concat_under_nodup; [apply steps_nodup|]. intros s _.
  destruct (child v s) as [u|] eqn:Hu, (child w s) as [x|]; cbn [with_rest fmap option_fmap option_map child_differences map];
    [by eapply HC|apply NoDup_singleton|apply NoDup_singleton|constructor].
Qed.

Lemma differences_nodup v : ∀ w, NoDup (places (differences v w)).
Proof.
  induction v as [|b0|n|s0|items IH|o IH] using value_ind'; apply differences_nodup_step;
    apply (child_ind (fun u => ∀ x, NoDup (places (differences u x)))); done.
Qed.
End Reference.

(** ** Claims *)

Section Claims.
Context {number : Type} `{RedactionEnv number} `{!BodyAccess number} `{!JsonSource number} `{!BodyFiles number} `{EqDecision number}.

Lemma document_diff left_id right_id (left right : OptionalBodyDiff) part mode raw_paths lt rt (l r : value number) :
  ob_text left = Some lt → ob_text right = Some rt → from_str lt = Some l → from_str rt = Some r →
  ob_scan_truncated left = false → ob_scan_truncated right = false → mode ≠ DiffText →
  ∃ outcome, body_diff left_id right_id left right part mode raw_paths [] = Ok outcome ∧
    bo_truncated outcome = ob_capture_truncated left || ob_capture_truncated right ∧
    get_value (get_value (bo_value outcome) (lit "differences")) (lit "changes") =
      Array (diff_json MAX_DIFF_CHANGES l (lit "$") r []).
Proof.
  intros Hl Hr Hlj Hrj Hls Hrs Hm. unfold body_diff, body_differences. rewrite Hls, Hrs, Hl, Hr. cbn [orb mbind option_bind].
  rewrite Hlj, Hrj, (bool_decide_false (mode = DiffText)) by done.
  rewrite (bool_decide_false (Some l = None)), (bool_decide_false (Some r = None)) by done.
  rewrite (bool_decide_true ((_ : list (list JsonPathSegment)) = [])) by done. cbn [negb orb andb]. rewrite andb_false_r.
  assert (bool_decide (mode = DiffJson) || false || bool_decide (mode = DiffAuto) = true) as ->
    by (destruct mode; [done|done|done]).
  eexists. split; [reflexivity|]. split; [|reflexivity]. cbn [bo_truncated].
  by destruct (ob_capture_truncated left || ob_capture_truncated right).
Qed.

(** C19: The comparison of two JSON bodies as documents (scanned whole, not in text
    mode and without selected paths) reports the places where they differ: the
    changes are, in order and cut after 200, the elements of a list that holds
    each place of difference exactly once, with the two values there, and that is
    empty exactly if the documents are equal up to the order of their members.  A place is
    one of difference if the containers on the way to it are of one kind in both
    documents and there one side has nothing, or the two values are neither equal
    nor containers of one kind. *)
Theorem comparison_reports_differences left_id right_id left right part mode raw_paths lt rt (l r : value number) :
  ob_text left = Some lt → ob_text right = Some rt → from_str lt = Some l → from_str rt = Some r → wf l → wf r →
  ob_scan_truncated left = false → ob_scan_truncated right = false → mode ≠ DiffText →
  ∃ outcome ds, body_diff left_id right_id left right part mode raw_paths [] = Ok outcome ∧
    get_value (get_value (bo_value outcome) (lit "differences")) (lit "changes") =
      Array (take MAX_DIFF_CHANGES (map (shown (lit "$")) ds)) ∧
    (∀ p a b, (p, a, b) ∈ ds ↔ differs_at l r p a b) ∧ NoDup (map (fun d => d.1.1) ds) ∧
    (ds = [] ↔ value_eqb l r = true).
Proof.
  intros Hl Hr Hlj Hrj Hwl Hwr Hls Hrs Hm.
  destruct (document_diff left_id right_id left right part mode raw_paths lt rt l r) as (outcome & Ho & _ & Hc); [done..|].
  exists outcome, (differences l r). split; [done|]. rewrite Hc, (diff_json_walks MAX_DIFF_CHANGES l). cbn [length app].
  rewrite Nat.sub_0_r. split_and!; [done| |apply differences_nodup|].
  - intros p a b. by apply differences_spec.
  - split; [by apply no_differences|apply differences_equal].
Qed.

(** More differences than are reported are not marked: the answer for two arrays
    with 201 different elements lists 200 of them and is not truncated. *)
Lemma long_document_diff_unmarked left_id right_id left right part mode raw_paths lt rt :
  ob_text left = Some lt → ob_text right = Some rt →
  from_str lt = Some (Array (replicate 201 (Null (number := number)))) →
  from_str rt = Some (Array (replicate 201 (Bool (number := number) true))) →
  ob_scan_truncated left = false → ob_scan_truncated right = false → ob_capture_truncated left = false →
  ob_capture_truncated right = false → mode ≠ DiffText →
  ∃ outcome changes, body_diff left_id right_id left right part mode raw_paths [] = Ok outcome ∧ bo_truncated outcome = false ∧
    get_value (get_value (bo_value outcome) (lit "differences")) (lit "changes") = Array changes ∧ length changes = 200%nat ∧
    differs_at (Array (replicate 201 (Null (number := number)))) (Array (replicate 201 (Bool true))) [AtIndex 200] (Some Null) (Some (Bool true)).
Proof.
  intros Hl Hr Hlj Hrj Hls Hrs Hlc Hrc Hm.
  destruct (document_diff left_id right_id left right part mode raw_paths lt rt _ _ Hl Hr Hlj Hrj Hls Hrs Hm) as (outcome & Ho & Ht & Hc).
  rewrite Hlc, Hrc in Ht. do 2 eexists. split; [exact Ho|]. split; [exact Ht|]. split; [exact Hc|]. split.
  - rewrite (diff_json_walks MAX_DIFF_CHANGES). rewrite length_app, length_take, length_map. vm_compute. reflexivity.
  - apply differs_step. split; [done|]. apply differs_here. done.
Qed.
End Claims.

(** ** Masked values do not show *)

Section Hidden.
Context {number : Type} `{RedactionEnv number} `{!BodyAccess number} `{!JsonSource number} `{!BodyFiles number} `{EqDecision number}.

(** The readings are the same, or both stopped at the scan limit. *)
Definition same_reading (x y : OptionalBodyDiff) : Prop :=
  x = y ∨ ob_scan_truncated x = true ∧ ob_scan_truncated y = true ∧ ob_decoded_size x = ob_decoded_size y.

Lemma body_diff_same left_id right_id l l' r r' part mode raw_paths paths :
  same_reading l l' → same_reading r r' →
  body_diff (number := number) left_id right_id l r part mode raw_paths paths = body_diff left_id right_id l' r' part mode raw_paths paths.
Proof.
  intros [->|(Hl & Hl' & Hls)] [->|(Hr & Hr' & Hrs)]; [done|..]; unfold body_diff, body_too_large;
    by rewrite ?Hl, ?Hl', ?Hr, ?Hr', ?Hls, ?Hrs, ?orb_true_r.
Qed.

Lemma read_optional_alike (self : Redactor) reference reference' :
  alike self reference reference' →
  ∃ x y, read_optional_body self (Some reference) COMPARE_BODY_SCAN_BYTES false = Ok x ∧
    read_optional_body self (Some reference') COMPARE_BODY_SCAN_BYTES false = Ok y ∧ same_reading x y.
Proof.
  intros (Hm & _ & Hs & Ht & r & r' & v & w & Ho & Ho' & (Hu & _ & _ & Hp & _) & (Hu' & _ & _ & Hp' & _) & Hh & Hl).
  unfold read_optional_body.
  rewrite (read_opens reference r), (read_opens reference' r') by (done || (unfold COMPARE_BODY_SCAN_BYTES, usize_max, u64_max; lia)).
  cbn [rbind bb_bytes bb_has_more bb_decoded_size bb_wire_size bb_capture_truncated].
  do 2 eexists. split; [reflexivity|]. split; [reflexivity|]. unfold same_reading. cbn [ob_scan_truncated ob_decoded_size].
  rewrite <- Hl. destruct (Z.ltb_spec COMPARE_BODY_SCAN_BYTES (len (available r))) as [|Hsmall]; [by right|left].
  rewrite !take_ge by (unfold len in *; lia). rewrite Hu, Hu', Hm, Ht. unfold wire_size. rewrite Hs.
  assert (redact_text self (available r) = redact_text self (available r')) as ->
    by (unfold redact_text; by rewrite Hp, Hp', (redact_hides self v w Hh)). done.
Qed.

Context `{AgentHost} (float_delta : number → number → value number).

(** The databases hold the same sessions; the bodies agree up to masked fields. *)
Definition compare_dbs_alike (self : Redactor) (db db' : CompareDb number) : Prop :=
  dbs_alike self (cd_sessions db) (cd_sessions db') ∧ (∀ id, cd_summary db id = cd_summary db' id) ∧
  ∀ id, cd_detail db id = cd_detail db' id.

Lemma compare_bodies_alike (self : Redactor) db db' request left right paths :
  compare_dbs_alike self db db' → cq_raw request = false →
  compare_bodies self db request left right paths = compare_bodies self db' request left right paths.
Proof.
  intros [[_ Hd] _] Hraw. unfold compare_bodies. rewrite Hraw. set (part := default ResponsePart _).
  destruct (Hd (sr_id left) part) as [->|(rl & rl' & -> & -> & Hl)], (Hd (sr_id right) part) as [->|(rr & rr' & -> & -> & Hr)];
    cbn [rbind]; [done|..].
  - destruct (read_optional_alike self rr rr' Hr) as (x & y & -> & -> & Hxy).
    destruct (db_body_reference (cd_sessions db') (sr_id left) part); [cbn [rbind]|done].
    destruct (read_optional_body self _ _ false); [cbn [rbind]|done]. apply body_diff_same; [by left|done].
  - destruct (read_optional_alike self rl rl' Hl) as (x & y & -> & -> & Hxy).
    destruct (db_body_reference (cd_sessions db') (sr_id right) part); [cbn [rbind]|done].
    destruct (read_optional_body self _ _ false); [cbn [rbind]|done]. apply body_diff_same; [done|by left].
  - destruct (read_optional_alike self rl rl' Hl) as (x & y & -> & -> & Hxy).
    destruct (read_optional_alike self rr rr' Hr) as (x' & y' & -> & -> & Hxy'). cbn [rbind]. by apply body_diff_same.
Qed.

(** C13: A redacted comparison is no oracle for masked values: for two databases with the same
    sessions whose JSON bodies have the same size and differ in masked fields only,
    every redacted request to compare two sessions gets the same answer, errors, sizes,
    reported changes and limits included. *)
Theorem comparison_hides_masked config (self : Redactor) db db' request :
  compare_access request = Ok config → redactor_of config = Ok self → compare_dbs_alike self db db' → cq_raw request = false →
  compare_sessions float_delta db request = compare_sessions float_delta db' request.
Proof.
  intros Hc Hr Ha Hraw. pose proof Ha as ((Hs & _) & Hsum & Hdet). unfold compare_sessions. rewrite Hc. cbn [rbind].
  destruct (compare_arguments request) as [paths|]; [cbn [rbind]|done]. destruct (compare_raw request); [cbn [rbind]|done].
  rewrite Hr. cbn [rbind]. unfold require_session_id. rewrite Hs.
  assert (∀ id raw, load_snapshot self db id raw = load_snapshot self db' id raw) as Hsnap
    by (intros; unfold load_snapshot; by rewrite Hsum, Hdet).
  do 2 (match goal with |- rbind ?r _ = _ => destruct r; [cbn [rbind]|done] end).
  case_bool_decide; [done|]. rewrite !Hsnap.
  do 2 (match goal with |- rbind ?r _ = _ => destruct r; [cbn [rbind]|done] end).
  destruct (cq_include_body request); [|done]. by rewrite (compare_bodies_alike self db db').
Qed.
End Hidden.

(** The permissions a comparison needs *)
Lemma comparison_needs_permission {number} `{RedactionEnv number} `{!BodyAccess number} `{!JsonSource number} `{!BodyFiles number}
    `{EqDecision number} `{AgentHost} float_delta (db : CompareDb number) request answer :
  compare_sessions float_delta db request = Ok answer →
  (∃ config, access_config = Ok config ∧ ac_allows config ReadSessions = true) ∧
  (cq_include_body request = true → ∃ config, permitted ReadBodies (compared_sessions request) config) ∧
  (cq_raw request = true → ∃ config, permitted ReadRawBodies (compared_sessions request) config).
Proof.
  unfold compare_sessions. destruct (compare_access request) as [config|] eqn:Hc; [cbn [rbind]|done].
  destruct (compare_arguments request); [cbn [rbind]|done]. destruct (compare_raw request) eqn:Hr; [intros _|done].
  unfold compare_access in Hc. destruct access_config as [c0|] eqn:Ha; [cbn [rbind] in Hc|done].
  destruct (ac_allows c0 ReadSessions) eqn:Hs; [cbn [negb] in Hc|done]. split_and!.
  - by exists c0.
  - intros Hi. rewrite Hi in Hc. exists config. by apply ensured in Hc.
  - intros Hraw. unfold compare_raw in Hr. rewrite Hraw in Hr.
    destruct (ensure_capability ReadRawBodies _ _ _) as [c'|] eqn:He; [|done]. exists c'. by apply ensured in He.
Qed.

(** ** Examples *)

Lemma sample_doc_wf password : wf (sample_doc password).
Proof.
  constructor; [apply (bool_decide_unpack _); by vm_compute|]. repeat constructor. apply (bool_decide_unpack _); by vm_compute.
Qed.

Definition sample_reading (text : str) : OptionalBodyDiff :=
  {| ob_text := Some text; ob_decoded_size := 1; ob_wire_size := 1; ob_mime_type := None; ob_hash := None;
     ob_capture_truncated := false; ob_scan_truncated := false |}.

Lemma comparison_reports_differences_witness :
  ∃ outcome ds,
    @body_diff Z sample_env sample_source _ (lit "session-1") (lit "session-2") (sample_reading (lit "a")) (sample_reading (lit "b"))
      ResponsePart DiffAuto [] [] = Ok outcome ∧
    get_value (get_value (bo_value outcome) (lit "differences")) (lit "changes") =
      Array (take MAX_DIFF_CHANGES (map (@shown Z sample_env (lit "$")) ds)) ∧ ds ≠ [].
Proof.
  destruct (@comparison_reports_differences Z sample_env sample_source _ (lit "session-1") (lit "session-2")
    (sample_reading (lit "a")) (sample_reading (lit "b")) ResponsePart DiffAuto [] (lit "a") (lit "b")
    (sample_doc (lit "hunter2")) (sample_doc (lit "swordfish"))) as (outcome & ds & Ho & Hc & Hd & _ & _);
    [reflexivity|reflexivity|reflexivity|reflexivity|apply sample_doc_wf|apply sample_doc_wf|reflexivity|reflexivity|discriminate|].
  exists outcome, ds. split; [exact Ho|]. split; [exact Hc|]. intros ->.
  assert (([AtKey (lit "Password")], Some (String (lit "hunter2")), Some (String (lit "swordfish"))) ∈ ([] : list (list Step * option (value Z) * option (value Z)))) as Hin.
  { apply Hd. apply differs_step. split; [reflexivity|]. apply differs_here. split_and!; reflexivity. }
  by apply not_elem_of_nil in Hin.
Defined.

Definition compare_config : AgentAccessConfig :=
  {| ac_allows capability := bool_decide (capability = ReadBodies) || bool_decide (capability = ReadSessions); ac_policy _ := None;
     ac_redaction := default_redaction; ac_max_body_bytes := 1024 |}.

Definition compare_host : AgentHost :=
  {| access_config := Ok compare_config; use_grant _ _ _ _ := Ok tt; session_details := true; timed_out _ := false;
     join_error _ := []; stored_hash_key := [1; 2; 3; 4; 5; 6; 7; 8] |}.

Definition compare_db (path : str) : CompareDb Z :=
  {| cd_sessions := {| db_sessions := Ok [lit "session-1"; lit "session-2"];
                       db_body_reference _ _ := Ok (Some (sample_reference path)) |};
     cd_summary id := Ok (Some {| sr_id := id; sr_protocol := lit "h2"; sr_http_version := lit "HTTP/2"; sr_duration_ms := 3;
                                  sr_size_bytes := 1; sr_status_code := 200; sr_url := lit "https://example.com/";
                                  sr_response_mime_type := None |});
     cd_detail _ := Ok None |}.

Definition compare_request : CompareSessionsRequest :=
  {| cq_left_session_id := lit "session-1"; cq_right_session_id := lit "session-2"; cq_include_body := true; cq_body_part := None;
     cq_raw := false; cq_json_paths := []; cq_diff_mode := DiffAuto |}.

Lemma compare_dbs_sample : @compare_dbs_alike Z sample_env sample_access sample_source sample_redactor (compare_db (lit "a")) (compare_db (lit "b")).
Proof.
  split; [split; [done|]|done]. intros id part. right. destruct sample_alike as [_ Hd].
  destruct (Hd id part) as [Heq|(r & r' & [= <-] & [= <-] & Ha)]; [discriminate Heq|]. by eauto.
Qed.

Lemma comparison_hides_masked_witness :
  let answer path :=
    @compare_sessions Z sample_env sample_access sample_source sample_files _ compare_host (fun _ _ => Null) (compare_db path) compare_request in
  answer (lit "a") = answer (lit "b").
Proof.
  apply (@comparison_hides_masked Z sample_env sample_access sample_source sample_files _ compare_host (fun _ _ => Null)
    compare_config sample_redactor); [reflexivity|reflexivity|apply compare_dbs_sample|reflexivity].
Defined.
