(* ===== verification/TextCuts.v ===== *)
(** * TextCuts: texts cut to a number of bytes

    A Rust [String] is valid UTF-8, and slicing one off a character boundary
    panics.  Here are the functions that shorten a text by slicing it at a byte limit: the
    preview of a body (rules/rewrite.rs), the message of a failure (types.rs), the
    values of the body tools (body.rs, body_stream.rs, compare.rs) and an error of
    a model endpoint (commands/ai.rs).  The snippets of a search and the pages of a
    body are the subject of TextSearch and BodyToolsFacts. *)

From S2P Require Import Prelude Str JsonPath HttpIo Rewrite WsUpgrade Utf8 TextSearch Redaction RedactedSearch.
From S2P Require Import BodyPaths BodyStream BodyLookup BodyForms BodyTools Compare.

(** [truncate_for_error] of commands/ai.rs *)
Definition ERROR_LIMIT : nat := 512.
Definition truncate_for_error (s : str) : str :=
  if (length s <=? ERROR_LIMIT)%nat then s else take (floor_at s ERROR_LIMIT) s ++ lit "...".

(** ** What a cut is *)

(** The slice is taken without a panic, is text and reaches up to the last
    character that fits. *)
Record cut_of (limit : Z) (text cut : str) : Prop := {
  cut_sliced : str_slice text 0 (length cut) = Some cut;
  cut_valid : utf8_valid cut = true;
  cut_bound : len cut <= limit;
  cut_longest : cut = text ∨ limit - 3 <= len cut
}.

(** A text within the limit is left alone, a longer one is cut and marked. *)
Definition shortened (limit : Z) (mark text out : str) : Prop :=
  utf8_valid out = true ∧
  (len text <= limit ∧ out = text ∨ limit < len text ∧ ∃ cut, cut_of limit text cut ∧ out = cut ++ mark).

Lemma boundary_near i : ∀ s, utf8_valid s = true → (i <= length s)%nat →
  ∃ j, (i - 3 <= j <= i)%nat ∧ at_boundary s j = true.
Proof.
  induction i as [i IH] using lt_wf_ind. intros s Hv Hi. destruct s as [|a s].
  { exists i. cbn in Hi. replace i with 0%nat by lia. by split; [lia|]. }
  destruct (utf8_first a s Hv) as (ch & r & Heq & Hc & Hr). rewrite Heq in Hv, Hi |- *.
  pose proof (char_short _ Hc) as Hch. rewrite length_app in Hi. destruct (le_lt_dec (length ch) i) as [Hge|Hlt].
  - destruct (IH (i - length ch)%nat ltac:(lia) r Hr ltac:(lia)) as (j & Hj & Hb). exists (length ch + j)%nat. split; [lia|].
    rewrite <- at_boundary_drop by (rewrite length_app; lia). by rewrite drop_app_length.
  - exists 0%nat. split; [lia|]. by apply valid_boundary_0.
Qed.

Lemma floor_at_reaches s j i : at_boundary s j = true → (j <= i)%nat → (j <= floor_at s i)%nat.
Proof.
  intros Hb. induction i as [|i IH]; intros Hj; cbn [floor_at]; [done|]. destruct (at_boundary s (S i)) eqn:Hs; [lia|].
  apply IH. destruct (decide (j = S i)) as [->|]; [congruence|lia].
Qed.

Lemma take_cut_of limit text k :
  utf8_valid text = true → at_boundary text k = true → Z.of_nat k <= limit →
  (take k text = text ∨ limit - 3 <= Z.of_nat k) → cut_of limit text (take k text).
Proof.
  intros Hv Hb Hl Hn. pose proof (at_boundary_le _ _ Hb) as Hk.
  assert (length (take k text) = k) as Hlen by (rewrite length_take; lia). split; unfold len; rewrite ?Hlen; [| |done|].
  - rewrite str_slice_eq; [|lia|by apply valid_boundary_0|done]. unfold slice. by rewrite drop_0, Nat.sub_0_r.
  - unfold at_boundary in Hb. apply andb_true_iff in Hb as [_ Hb]. by eapply utf8_take_boundary.
  - destruct Hn as [Hn|Hn]; [by left|by right].
Qed.

Lemma floor_cut_of limit text :
  0 <= limit → utf8_valid text = true → cut_of limit text (take (floor_at text (Z.to_nat (Z.min limit (len text)))) text).
Proof.
  intros Hl Hv. set (i := Z.to_nat (Z.min limit (len text))). pose proof (floor_at_le text i) as Hle.
  apply take_cut_of; [done|by apply floor_at_boundary|lia|]. destruct (Z.leb_spec (len text) limit) as [Hs|Hs].
  - left. unfold i. rewrite Z.min_r by done. unfold len. rewrite Nat2Z.id, floor_at_fix by apply at_boundary_end. by apply take_ge.
  - right. destruct (boundary_near i text Hv ltac:(unfold i, len in *; lia)) as (j & Hj & Hb).
    pose proof (floor_at_reaches text j i Hb ltac:(lia)). lia.
Qed.

Lemma shorten_floor limit mark text :
  0 <= limit → utf8_valid mark = true → utf8_valid text = true →
  shortened limit mark text
    (if len text <=? limit then text else take (floor_at text (Z.to_nat limit)) text ++ mark).
Proof.
  intros Hl Hm Hv. destruct (Z.leb_spec (len text) limit) as [Hs|Hs]; [by split; [|left]|].
  pose proof (floor_cut_of limit text Hl Hv) as Hc. rewrite Z.min_l in Hc by lia.
  split; [by apply utf8_valid_app; [by eapply cut_valid|]|right]. split; [done|]. by eexists.
Qed.

Lemma floor_boundary_at s i : (i <= length s)%nat → floor_boundary s i = floor_at s i.
Proof.
  induction i as [|i IH]; intros Hi; [done|]. cbn [floor_boundary floor_at]. rewrite IH by lia.
  unfold at_boundary. by rewrite (proj2 (Nat.leb_le (S i) (length s)) Hi).
Qed.

(** ** Printed documents *)

Section Printed.
Context {number : Type} `{RedactionEnv number}.

Lemma comma_separated_valid {V} (print : V → str) l : Forall (fun x => utf8_valid (print x) = true) l →
  ∀ first, utf8_valid (comma_separated print first l) = true.
Proof.
  induction 1 as [|x l Hx _ IH]; intros first; cbn [comma_separated]; [done|]. apply utf8_valid_app; [by destruct first|].
  by apply utf8_valid_app.
Qed.

Lemma printed_valid (v : value number) : utf8_valid (to_string v) = true.
Proof.
  rewrite to_string_compact. induction v as [|b|n|s|items IH|o IH] using value_ind'; cbn [compact].
  - done.
  - by destruct b.
  - apply number_utf8.
  - apply quote_utf8.
  - do 2 (apply utf8_valid_app; [done || by apply comma_separated_valid|]). done.
  - apply utf8_valid_app; [done|]. apply utf8_valid_app; [|done]. apply comma_separated_valid.
    eapply Forall_impl; [exact IH|]. intros [k v] Hv. cbn in Hv |- *. apply utf8_valid_app; [apply quote_utf8|].
    by apply (utf8_valid_app (lit ":")).
Qed.
End Printed.

Lemma valid_prefix s k : utf8_valid s = true → (k <= length s)%nat → utf8_valid (take k s) = true → at_boundary s k = true.
Proof.
  intros Hv Hk Ht. rewrite <- (take_drop k s) in Hv. pose proof (boundary_between (take k s) (drop k s)) as Hb.
  rewrite take_drop, length_take, Nat.min_l in Hb by lia. apply Hb.
  assert (∀ n a b, (length a <= n)%nat → utf8_valid a = true → utf8_valid (a ++ b) = utf8_valid b) as Hskip.
  { clear. induction n as [|n IH]; intros [|x a] b Hn Ha; try done; [cbn in Hn; lia|].
    destruct (utf8_first x a Ha) as (ch & r & Heq & Hc & Hr). rewrite Heq in Hn |- *. rewrite length_app in Hn.
    pose proof (char_short _ Hc). rewrite <- app_assoc, (char_skip _ Hc). apply IH; [lia|done]. }
  by rewrite (Hskip _ _ _ (le_n _)) in Hv.
Qed.

Lemma valid_cut_floor s i : utf8_valid s = true → (i <= length s)%nat → valid_cut s i = floor_at s i.
Proof.
  intros Hv. induction i as [|i IH]; intros Hi; [done|]. cbn [valid_cut floor_at]. rewrite IH by lia.
  destruct (at_boundary s (S i)) eqn:Hb.
  - unfold at_boundary in Hb. apply andb_true_iff in Hb as [_ Hb]. by rewrite (utf8_take_boundary _ s (S i) (le_n _)).
  - destruct (utf8_valid (take (S i) s)) eqn:Ht; [|done]. by rewrite valid_prefix in Hb.
Qed.

Lemma lossy_text_go n : ∀ s, (length s <= n)%nat → utf8_valid s = true → lossy n s = s.
Proof.
  induction n as [|n IH]; intros [|a s] Hn Hv; try done; [cbn in Hn; lia|]. cbn [lossy].
  destruct (valid_char_head a s Hv) as [k Hk]. rewrite Hk. apply char_head_valid in Hk as [Hc Hk].
  rewrite IH; [apply take_drop| |].
  - pose proof (char_short _ Hc) as Hs. rewrite length_take in Hs. rewrite length_drop. cbn [length] in *. lia.
  - by rewrite <- (char_skip _ Hc), take_drop.
Qed.

Lemma lossy_text s : utf8_valid s = true → from_utf8_lossy s = s.
Proof. intros Hv. by apply lossy_text_go. Qed.

(** ** The functions *)

Lemma shorten_nat (limit : nat) mark text :
  utf8_valid mark = true → utf8_valid text = true →
  shortened (Z.of_nat limit) mark text
    (if (length text <=? limit)%nat then text else take (floor_at text limit) text ++ mark).
Proof.
  intros Hm Hv. pose proof (shorten_floor (Z.of_nat limit) mark text ltac:(lia) Hm Hv) as Hs. rewrite Nat2Z.id in Hs.
  destruct (Nat.leb_spec (length text) limit), (Z.leb_spec (len text) (Z.of_nat limit)); unfold len in *; try lia; done.
Qed.

Lemma preview_shortened b t :
  body_preview b = Some t → shortened (Z.of_nat PREVIEW_LIMIT) (lit "...") (from_utf8_lossy b) t.
Proof.
  unfold body_preview. destruct b as [|x b]; [done|]. generalize (lossy_valid (length (x :: b)) (x :: b)).
  fold (from_utf8_lossy (x :: b)). generalize (from_utf8_lossy (x :: b)) PREVIEW_LIMIT. intros full limit Hv Ht.
  apply Some_inj in Ht as <-. pose proof (shorten_nat limit (lit "...") full eq_refl Hv) as Hs.
  destruct (Nat.ltb_spec limit (length full)), (Nat.leb_spec (length full) limit); try lia; [|done].
  by rewrite floor_boundary_at by lia.
Qed.

Lemma failure_shortened origin kind message :
  utf8_valid message = true → cut_of 512 message (failure_message (new_failure origin kind message)).
Proof.
  intros Hv. cbn [failure_message new_failure]. rewrite floor_boundary_at by lia.
  pose proof (floor_cut_of 512 message ltac:(lia) Hv) as Hc. unfold len in Hc.
  by replace (Z.to_nat (Z.min 512 (Z.of_nat (length message)))) with (Nat.min (length message) 512) in Hc by lia.
Qed.

Lemma error_shortened s : utf8_valid s = true → shortened (Z.of_nat ERROR_LIMIT) (lit "...") s (truncate_for_error s).
Proof. by apply shorten_nat. Qed.

Section Values.
Context {number : Type} `{RedactionEnv number} `{!JsonSource number}.

(** What [bounded_json_value] and [summary_value] make of a value that is too long *)
Definition cut_value (limit : Z) (v out : value number) : Prop :=
  ∃ source cut mark, cut_of limit source cut ∧ out = String (cut ++ mark) ∧ utf8_valid (cut ++ mark) = true ∧
    match v with
    | String text => source = text ∧ mark = lit "…[truncated]"
    | _ => source = to_string v ∧ mark = lit "…[truncated JSON value: " ++ show (len (to_string v)) ++ lit " bytes]"
    end.

Lemma printed_cut limit (v : value number) :
  0 <= limit → let cut := take (valid_cut (to_string v) (Z.to_nat (Z.min limit (len (to_string v))))) (to_string v) in
  cut_of limit (to_string v) cut.
Proof.
  intros Hl cut. unfold cut. rewrite valid_cut_floor; [|apply printed_valid|unfold len; lia].
  apply floor_cut_of; [done|apply printed_valid].
Qed.

Definition truncated_json (v : value number) : str :=
  lit "…[truncated JSON value: " ++ show (len (to_string v)) ++ lit " bytes]".

Lemma cut_text limit s :
  0 <= limit → utf8_valid s = true →
  cut_value limit (String s) (String (take (floor_at s (Z.to_nat (Z.min limit (len s)))) s ++ lit "…[truncated]")).
Proof.
  intros Hl Hv. pose proof (floor_cut_of limit s Hl Hv) as Hc. eexists s, _, _. split_and!; [exact Hc|reflexivity| |done|done].
  by apply utf8_valid_app; [by eapply cut_valid|].
Qed.

Lemma truncated_json_valid v : utf8_valid (truncated_json v) = true.
Proof.
  apply utf8_valid_app; [done|]. apply utf8_valid_app; [|done].
  induction (show_digits (len (to_string v)) (len_nonneg _)) as [|b s Hb _ IH]; [done|].
  unfold is_digit in Hb. apply andb_true_iff in Hb as [Hb1%Z.leb_le Hb2%Z.leb_le]. cbn [utf8_valid].
  destruct (Z.leb_spec b 127); [|lia]. by destruct (Z.leb_spec 0 b); [|lia].
Qed.

Lemma cut_printed limit (v : value number) :
  0 <= limit → match v with String _ => False | _ => True end →
  cut_value limit v
    (String (take (valid_cut (to_string v) (Z.to_nat (Z.min limit (len (to_string v))))) (to_string v) ++ truncated_json v)).
Proof.
  intros Hl Hn. pose proof (printed_cut limit v Hl) as Hc.
  eexists (to_string v), _, (truncated_json v). split_and!; [exact Hc|reflexivity| |by destruct v].
  apply utf8_valid_app; [by eapply cut_valid|apply truncated_json_valid].
Qed.

Lemma bounded_cut (v : value number) :
  (∀ s, v = String s → utf8_valid s = true) →
  if len (to_string v) <=? 64 * 1024 then bounded_json_value v = (v, false)
  else ∃ out, bounded_json_value v = (out, true) ∧ cut_value (64 * 1024) v out.
Proof.
  intros Hv. unfold bounded_json_value, MAX_JSON_PATH_VALUE_BYTES. destruct (_ <=? _); [done|].
  destruct v as [|b|n|s|items|o]; (eexists; split; [reflexivity|]);
    [by apply cut_printed..|apply cut_text; [done|by apply Hv]|by apply cut_printed|by apply cut_printed].
Qed.

Lemma summary_cut (v : value number) :
  (∀ s, v = String s → utf8_valid s = true) →
  if len (to_string v) <=? 2 * 1024 then summary_value v = v else cut_value (2 * 1024) v (summary_value v).
Proof.
  intros Hv. unfold summary_value, MAX_DIFF_VALUE_BYTES. destruct (_ <=? _); [done|].
  rewrite lossy_text by (apply (cut_valid (2 * 1024) (to_string v)), printed_cut; done).
  destruct v as [|b|n|s|items|o];
    [by apply cut_printed..|apply cut_text; [done|by apply Hv]|by apply cut_printed|by apply cut_printed].
Qed.

Lemma string_cut self raw text path st t :
  shown self raw (String text) = String t → utf8_valid t = true →
  ∃ out, cv_value (captured_string (number := number) self raw text path st).1 = String out ∧
    shortened (64 * 1024) (lit "…[truncated]") t out.
Proof.
  intros Hs Hv. pose proof (shorten_floor (64 * 1024) (lit "…[truncated]") t ltac:(lia) eq_refl Hv) as Hc. eexists. split; [|exact Hc].
  unfold captured_string, MAX_EXTRACTED_VALUE_BYTES. destruct raw; cbn [shown] in Hs.
  - injection Hs as ->. by destruct (_ <=? _).
  - pose proof (redact_shown self (String text) path []) as Hr. unfold redact_json_value.
    destruct (redact_json_value_inner self (String text) path []) as [w records]. cbn [fst] in Hr.
    assert (w = String t) as -> by (rewrite Hr; exact Hs). by destruct (_ <=? _).
Qed.
End Values.

(** C40: The functions that cut a text to a number of bytes by slicing it slice at a
    character boundary, so they do not panic, give UTF-8, keep as much as fits up to
    a last character, and leave a text within the limit alone.  They are the preview
    of a body (2048 bytes of its lossily decoded text, which is itself UTF-8), the
    message of a session failure and an error of a model endpoint (512 bytes), the
    values of form fields, of selected JSON fields and of streamed fields as they are
    shown (64 KiB), and the texts and values of a comparison (2 KiB).  The given text
    is UTF-8, as every [String] is. *)
Theorem shortened_texts_are_whole {number : Type} `{RedactionEnv number} `{!JsonSource number} :
  (∀ b, utf8_valid (from_utf8_lossy b) = true) ∧
  (∀ b t, body_preview b = Some t → shortened 2048 (lit "...") (from_utf8_lossy b) t) ∧
  (∀ s, utf8_valid s = true →
     (∀ origin kind, cut_of 512 s (failure_message (new_failure origin kind s))) ∧
     shortened 512 (lit "...") s (truncate_for_error s) ∧
     shortened (64 * 1024) (lit "…[truncated]") s (truncate_form_value s).1 ∧
     shortened (2 * 1024) (lit "…[truncated]") s (summary_text s)) ∧
  (∀ self raw text path st t, shown self raw (String (number := number) text) = String t → utf8_valid t = true →
     ∃ out, cv_value (captured_string (number := number) self raw text path st).1 = String out ∧
       shortened (64 * 1024) (lit "…[truncated]") t out) ∧
  (∀ v : value number, (∀ s, v = String s → utf8_valid s = true) →
     (if len (to_string v) <=? 64 * 1024 then bounded_json_value v = (v, false)
      else ∃ out, bounded_json_value v = (out, true) ∧ cut_value (64 * 1024) v out) ∧
     (if len (to_string v) <=? 2 * 1024 then summary_value v = v else cut_value (2 * 1024) v (summary_value v))).
Proof.
  split_and!; [intros b; apply lossy_valid|exact preview_shortened| |intros *; apply string_cut
    |intros v Hv; split; [by apply bounded_cut|by apply summary_cut]].
  intros s Hv. split_and!.
  - intros *. by apply failure_shortened.
  - by apply error_shortened.
  - pose proof (shorten_floor (64 * 1024) (lit "…[truncated]") s ltac:(lia) eq_refl Hv) as Hs.
    unfold truncate_form_value, MAX_FORM_VALUE_BYTES. by destruct (_ <=? _).
  - by apply (shorten_floor (2 * 1024)).
Qed.
